(* ===== verification/_CoqProject ===== *)
-Q . S2P
Prelude.v
RustStr.v
Utf8.v
AbsPath.v
FileSystem.v
PatchParser.v
PatchParserFacts.v
PatchRender.v
PatchSeek.v
PatchReplace.v
PatchApply.v
PatchApplyFacts.v
PatchInvocation.v
ExecRule.v
ExecPolicyFacts.v
ExecNetworkFacts.v
ExecParser.v
ExecParserFacts.v
ExecAmend.v
LegacySpec.v
LegacyProgramFacts.v
LegacyPolicy.v
NetHost.v
NetHostFacts.v
NetConfig.v
NetConstraints.v
NetState.v
NetStateFacts.v
NetUpdateFacts.v
NetPolicy.v
NetHttp.v
NetTunnels.v
NetServeFacts.v
NetTunnelFacts.v
NetEgressFacts.v
ShellBash.v
ShellScriptFacts.v
ShellDangerous.v
ShellPowershell.v
ShellSafe.v
ShellVerdictFacts.v
ShellPowershellFacts.v
FsPolicy.v
FsRoots.v
FsPolicyFacts.v
FsGrantFacts.v
ConfigToml.v
Truncation.v
HistoryNormalize.v
History.v
ThreadReplay.v
ThreadReplayFacts.v
AgentRegistry.v
ConfigTomlFacts.v
ConfigLayers.v
ConfigRules.v
Approval.v
CommandApproval.v
CommandPolicy.v
CommandUpdates.v
CommandPolicyFacts.v
StreamText.v
InlineTag.v
TaggedLine.v
AssistantText.v
Utf8Stream.v
AccessGrants.v
ToolSession.v
NetApproval.v
NetApprovalFacts.v
Orchestrator.v
OrchestratorFacts.v
AccessGrantsFacts.v
ProcessTable.v
Requirements.v
ManagedSettings.v
ManagedFacts.v
Features.v
FeaturesFacts.v
