(* ===== verification/Prelude.v ===== *)
(** * OpenAgere: a verification library for the core of the agent

    OpenAgere (src/) is a coding agent written in Rust. What it does to a user's machine
    goes through components that decide and act on their own: the patch tool that edits
    files; the execution policy, the checks of shell commands, the file access policies and
    the approvals that decide whether something runs and whether the user is asked; the
    configuration they are read from; the proxy that decides which hosts a command may
    reach. What it says and remembers goes through others: the stream parsers that separate
    what the model says to the user from what it says to the program, the history of a
    thread with its normal form and its rebuilding from disk, the registry of the agents of
    a session. And administrators hold it to requirements that its settings have to keep
    within. This library translates those components into Gallina, function by function,
    and proves what makes them correct.

    ** The parts of the program and the files that model them

    Foundations.
    - [Prelude] (this file): the type [result] of a Rust call (a value, an error, or a
      panic), its monad, [Vec] operations with the panics they have, lemmas on lists,
      and the hint database [agere].
    - [RustStr]: [&str] as a list of characters; [trim], [lines], [split], [find],
      [strip_prefix] and the other functions of the standard library that the source
      calls, with their laws. [Utf8]: encoding, and decoding with the verdict that
      [std::str::from_utf8] gives (valid, invalid at a length, incomplete).
    - [AbsPath]: [std::path] on Unix, and src/utils/fs/src/absolute_path/ ([mod.rs],
      [absolutize.rs]): expansion of the home directory and lexical normalisation.
    - [FileSystem]: the trait [ExecutorFileSystem] of src/file-system/src/lib.rs as a
      type class, the laws its users rely on as a second class [FileSystemLaws], the
      state-and-error monad [action], and an instance in memory that satisfies the laws.

    The patch tool, src/apply-patch/src/.
    - [PatchParser] ([parser.rs]): patch text to hunks, in the strict, lenient and
      streaming modes. [PatchParserFacts]: totality, agreement of the modes, heredocs.
      [PatchRender]: a printer of hunks and the round trip through the parser.
    - [PatchSeek] ([seek_sequence.rs]): where a block of lines is in a file, on four
      levels of leniency. [PatchReplace] ([lib.rs], [compute_replacements],
      [apply_replacements], [derive_new_contents_from_chunks]): the new contents of a
      file; [PatchReplaceFacts] relates them to a one-pass reference [splice].
    - [PatchApply] ([lib.rs]): the hunks applied to a file system, the summary on the
      standard output, the errors on the standard error, and the proposal of changes.
      [PatchApplyFacts]: what a run leaves in the files and on the two streams.
    - [PatchInvocation] ([invocation.rs]): which commands are calls of the patch tool,
      and the changes that are shown for approval. Its module [PatchInvocationFacts]
      proves that what was approved is what is applied.

    The execution policy, src/execpolicy/src/.
    - [ExecRule] holds the module [ExecRule] ([decision.rs], [error.rs],
      [executable_name.rs], [rule.rs]) and the module [ExecPolicy] ([policy.rs]);
      [ExecParser] ([parser.rs] and the validation of examples of [rule.rs]), [ExecAmend]
      ([amend.rs]); the theorems are in [ExecPolicyFacts], [ExecNetworkFacts],
      [ExecParserFacts] and [ExecAmend].

    The older policy engine, src/execpolicy-legacy/src/.
    - [LegacySpec] holds the modules [LegacySpec] ([arg_type.rs], [arg_matcher.rs],
      [opt.rs], [valid_exec.rs], [error.rs], [sed_command.rs]) and [LegacyProgram]
      ([arg_resolver.rs], [program.rs]) with [LegacyProgramFacts]; [LegacyPolicy]
      ([policy.rs], [policy_parser.rs], [execv_checker.rs] and the verdict of [main.rs])
      also holds the module [LegacyPolicyFacts].

    The network proxy, src/network-proxy/src/.
    - [NetHost] with the modules [NetIp] and [NetHost] ([policy.rs]): addresses and
      which of them are local, the normal forms of hosts, domain patterns and the globs
      they are compiled to; [NetHostFacts] says what a compiled list matches, for any
      crate that keeps [GlobsetLaws].
    - [NetConfig] ([config.rs]): the settings, their lists of domains and sockets, and
      the addresses to listen on, with its module [NetConfigFacts]. [NetConstraints]
      ([state.rs]): the managed constraints and the reference they are checked against.
    - [NetState] ([runtime.rs], and [build_config_state] of [state.rs]): the shared state
      and its operations, cut where they take the lock: a [Task] runs section by section,
      the relation [step_from] interleaves the tasks in every way, and [reachable] is what
      they lead to. [NetStateFacts] and [NetUpdateFacts] prove the invariants over it.
    - [NetPolicy] ([network_policy.rs], [responses.rs], [reasons.rs]): the decision about
      a request, as a program of the type [Proxy], whose looks at the state may each find
      another one, with its audit events and records as outputs; [run] interprets it
      against any sequence of moments. The file [NetHttp] with the modules [NetUpstream]
      ([upstream.rs], [connect_policy.rs], the headers of [http_proxy.rs]) and [NetHttp]
      ([http_proxy.rs]), and the file [NetTunnels] with [NetSocks] ([socks5.rs]) and
      [NetMitm] ([mitm.rs]) are written in it. The theorems are in [NetServeFacts],
      [NetTunnelFacts] (with the module [NetRefusalFacts]) and [NetEgressFacts].

    The stream parsers, src/utils/common/src/stream_parser/.
    - [StreamText] ([stream_text.rs]): the trait [StreamTextParser] as a class, and the
      class [ChunkLaws] of the parsers whose output does not depend on how the text is
      cut. [InlineTag] ([inline_hidden_tag.rs], [citation.rs]), [TaggedLine]
      ([tagged_line_parser.rs], [proposed_plan.rs]), [AssistantText]
      ([assistant_text.rs]) and [Utf8Stream] ([utf8_stream.rs]); the two parsers are
      instances of [ChunkLaws], and the wrapper for bytes is proved against the class. The
      theorems are in the modules [InlineTagFacts] and [TaggedLineFacts] of the same files.

    Commands, src/shell-command/src/.
    - [ShellBash] ([shell_detect.rs], [bash.rs]): which shell a command starts and the
      plain commands of its script, read off a syntax tree. [ShellDangerous],
      [ShellSafe] and [ShellPowershell] (command_safety/, [powershell.rs]): the commands
      that must not run unasked, those that always may, and the scripts of PowerShell with
      the cache of the processes that parse them. The theorems are in [ShellScriptFacts],
      [ShellSafe], [ShellVerdictFacts] and [ShellPowershellFacts].

    File access, src/protocol/src/.
    - [FsPolicy] and [FsRoots] ([permissions.rs], [WritableRoot] of [protocol.rs]): what
      a policy says of a path, and the roots it amounts to. The module [FsProfile] of
      [FsRoots] ([models.rs]): the permissions of a session as they are kept. The
      theorems are in [FsPolicyFacts] (with the module [FsAccessFacts]) and
      [FsGrantFacts] (with [FsAddFacts]).

    Configuration, src/config/src/.
    - [ConfigToml] ([merge.rs], [key_aliases.rs], [overrides.rs], [fingerprint.rs]):
      values, old names of keys, merging, overrides of the command line; the theorems are
      in [ConfigTomlFacts] (with the module [ConfigMergeFacts]). [ConfigLayers]
      ([state.rs]): the stack of layers, with [ConfigLayersFacts]. [ConfigRules]
      ([requirements_exec_policy.rs]): the rules of an administrator, with
      [ConfigRulesFacts].
    - [Requirements] holds [Constraint] ([constraint.rs]), values that may only be set to
      what their validator accepts, and [Requirements] ([config_requirements.rs],
      [hook_config.rs], the order of the sources of [loader/mod.rs]): what administrators
      require, merged from its sources, and the constrained settings that follow from it.
      [ManagedSettings] (src/core/src/config/mod.rs, src/core/src/session/session.rs): how
      the settings of a configuration are brought within them, and how a session changes
      them; [session_reachable] are the settings it can get to. The theorems are in
      [ManagedFacts] (modules [RequirementsFacts], [ManagedFacts], [ManagedExamples]).
    - [Features] holds [Features] (src/features/src/), the registry of features and the set
      of those that are on, and [ManagedFeatures] (src/core/src/config/managed_features.rs),
      the features that administrators pin; [FeaturesFacts].

    Approval, src/core/src/.
    - [Approval] ([safety.rs], [apply_patch.rs], [tools/execution.rs]): when the user is
      asked, and the verdict on a patch; [ApprovalFacts]. [CommandApproval]
      ([exec_policy.rs]): from a command line to the requirement it runs under, with its
      module [CommandApprovalFacts]. [CommandPolicy] ([exec_policy.rs]): the policy of a
      session, how it is loaded and how an accepted proposal changes it;
      [CommandPolicyFacts] (with the module [CommandLoadFacts]). [CommandUpdates]: the
      updates of many tasks at the same time, as a step relation.
    - [AccessGrants] holds [AccessTransforms] ([access_policy_transforms.rs]), the
      permissions that a call asks for beyond those of the session, their union with what
      was granted and the intersection of a request with its answer; and [AccessGrants]
      ([session/mod.rs], [state/turn.rs], [state/session.rs], [tools/handlers/]): requests,
      answers of the user and of the guardian, the grants that a session and its turns
      keep, and the permissions a command or a patch runs with. The state of a turn is an
      object in a store, since a task may still grant something to a turn that is over. The
      theorems are in [AccessGrantsFacts] (modules [AccessTransformsFacts],
      [AccessUnionFacts], [AccessGrantsFacts] and [AccessGrantsExamples]).
    - [ToolSession]: what tools share of a session (its turns, its store of approvals, its
      service for the network) and the type [Prog] of tasks, programs whose reads and
      updates of that state and whose questions are steps; [step] interleaves the tasks of
      a session in every way, also with some of them dropped. Its module [Guardian]
      ([guardian/]): the review of an action by a second model, and the count of its
      refusals. [NetApproval] ([tools/network_approval.rs], [network_policy_decision.rs]):
      requests of the proxy that wait for one answer about their host;
      [NetApprovalFacts]. [Orchestrator] holds [Execution] ([tools/execution.rs]), the store
      of approvals; [Orchestrator] ([tools/orchestrator.rs]), approval, attempt and second
      attempt of a call; and [Runtimes] ([tools/runtimes/]), the tools that run commands and
      patches; [OrchestratorFacts] (with [RuntimeFacts] and [GuardianFacts]).

    Conversations, src/core/src/ and src/utils/.
    - [Truncation] holds [ResponseItems] (src/protocol/src/models.rs), the items, and
      [Truncation] (src/utils/common/src/string.rs, src/utils/output-truncation/): cuts
      and estimates; [TruncationFacts].
    - [HistoryNormalize] ([context_manager/normalize.rs], and [history_sanitize.rs] in the
      module [HistorySanitize]): what is sent to a model. [History]
      ([context_manager/history.rs], [event_mapping.rs]): recording, removal, rollback and
      usage; [HistoryFacts].
    - [ThreadReplay] holds [TurnItems] ([event_mapping.rs]), [Compaction] ([compact.rs])
      and [ThreadReplay] ([session/rollout_reconstruction.rs],
      [thread_rollout_truncation.rs]): a thread rebuilt from its rollout;
      [ThreadReplayFacts].
    - [ProcessTable] holds [HeadTailBuffer] ([unified_exec/head_tail_buffer.rs]), what
      is kept of the output of a process, and [ProcessTable]
      ([unified_exec/process_manager.rs], [unified_exec/mod.rs]): the table of
      processes, their identifiers, and which one is dropped when it is full;
      [ProcessTableFacts].
    - [AgentRegistry] ([agent/registry.rs], src/protocol/src/agent_path.rs in the module
      [AgentPath], [agent/mailbox.rs] in the module [AgentMailbox]): the agents of a
      session, their slots, paths and nicknames, for every interleaving of the tasks that
      start and drop agents, and the mail between them, for every interleaving of senders.

    How they interact: [PatchApply] and [PatchInvocation] call the parser and a file
    system they know only through its laws; [ExecParser] builds the policy that
    [ExecPolicy] evaluates, with the paths of [AbsPath]; [AssistantText] feeds the
    visible text of the citation parser to the plan parser, and [Utf8Stream] runs any of
    them on bytes; the handlers of the proxy ask [NetPolicy], which reads [NetState],
    whose lists [NetHost] compiled from the settings of [NetConfig]. [CommandApproval]
    reads a script with [ShellBash], asks [ExecPolicy] about its commands and
    [ShellDangerous] and [ShellSafe] about those that no rule matches; [CommandPolicy]
    builds that policy with [ExecParser] from the folders of the layers of [ConfigLayers],
    lays the rules of [ConfigRules] over it, and amends it with [ExecAmend]. [Approval]
    judges the action that [PatchInvocation] verified by the policies of [FsPolicy];
    [AccessGrants] makes those policies from the profile of [FsProfile] and the grants.
    [Orchestrator] runs a tool under the requirement of [CommandApproval] and asks through
    [ToolSession], where [NetApproval] is the decider of [NetPolicy]. [Requirements] takes
    the rules of [ConfigRules] with the other requirements, and [ManagedSettings] holds the
    profiles of [FsProfile] to them.
    [History] cuts outputs with [Truncation] and hands [HistoryNormalize] what it keeps;
    [ThreadReplay] drives [History] and [Compaction] with the items of a rollout.

    ** What the theorems show

    - The patch parser is total: no input makes it panic or loop ([parse_patch_text_total]).
      Every patch that the printer makes of well-formed hunks is read back, in every mode
      ([parse_render_roundtrip]); a patch the strict mode accepts means the same in the
      others ([strict_parse_agrees]), also inside a heredoc ([lenient_heredoc]).
    - The search finds the first place of the strictest level that has one
      ([seek_sequence_spec]); with the end-of-file mark it looks only at the end
      ([seek_eof_only_end]). Applying the replacements backwards, in place, is one pass
      over the file ([ordered_chunks_splice]). The result ends in a newline, and splitting
      and joining a file is the identity, but for a blank line at its end
      ([noop_update_drops_blank_line]).
    - A run of the tool does and reports one of three things: every hunk is applied in
      order and the summary lists them; nothing is, and the message says why; or those
      before the one that failed are, and the message is that of the failure
      ([apply_patch_outcome]). Only the files the patch names change
      ([apply_hunks_frame]). Asking what a command would do changes nothing
      ([verified_reads_only]) and recognises only the documented forms
      ([verified_only_commands]). What the verified action promises is what applying its
      patch does ([verified_is_applied]), if the patch names no file twice
      ([two_updates_proposal_differs] shows why) and moves no file onto itself
      ([move_to_itself_deletes]).
    - The policy, also one read from files or from requirements, finds exactly the rules
      whose pattern covers the command ([exact_rules_complete]), decides by the
      strictest of them ([check_strictest]), gets only stricter by an overlay
      ([merge_overlay_stricter]), and reads a program as its basename only where the
      host allows it ([host_executable_gate]). A rule in a policy file means its pattern
      ([prefix_rule_meaning]), a file can only add rules ([parse_only_adds]), and its
      examples hold of the policy that results ([parse_examples_hold]). Network rules:
      the last rule of a host wins ([compiled_domains_last_rule]), hosts are in normal
      form ([normalized_host]). Amending a policy file adds one line, once
      ([append_allow_prefix_once]).
    - The older policy engine resolves the arguments of a call exactly as the patterns of
      the program say ([resolve_fits]), reads every argument of a call it accepts
      ([check_accepts]), says safe only of a call that nothing forbids and that writes no
      file ([safe_means]), keeps the files of an accepted call below the given folders
      ([exec_paths_inside]), and its policy holds what the file declares
      ([parse_declares]).
    - The network proxy. Whatever runs at the same time, the compiled lists are those of
      the configuration in force and the buffer is bounded ([reachable_in_force]), the
      configuration keeps within the managed constraints ([constraints_always_hold], with
      [constraints_exact] for what they mean), and no update of a list is lost
      ([update_serialised]), though records can be ([update_loses_record]). The decision
      about a host is what the patterns say, whatever patterns the lists have
      ([policy_enforced]); a host put on the deny
      list stays denied ([denied_from_then_on]). For each way into the proxy, when a
      request passes ([connect_accepted], [plain_forwarded], [socks_passed],
      [inner_forwarded]), that its host was admitted ([passed_hosts_admitted]) unless the
      decider let it through ([decider_overrides_only_unlisted]), that the limited mode
      only reads ([limited_mode_reads_only]), and that refusals are told and recorded
      ([refusals_recorded]). What leaves the proxy: which addresses are dialled
      ([direct_connection_checked], [non_public_ranges]) and which headers are kept
      ([hop_by_hop_removed]).
    - The stream parsers give the same output however the text is cut
      ([citation_chunks_irrelevant], [plan_reads_lines]), also inside a character
      ([utf8_chunks_irrelevant]). What they compute is given by references that read the
      whole text, for their composition too ([assistant_two_passes]).
    - Resolved paths are absolute and in normal form, and resolving twice changes
      nothing ([resolve_normalized]).

    - Commands. A script counts as a sequence of plain commands exactly when its tree is
      one ([plain_script_commands]), and known safe means on the lists and nothing else
      ([known_safe_exact], [safelist_exact], [powershell_list_exact]); but for the rules
      of Windows nothing is both safe and dangerous ([safe_not_dangerous]). What a
      parser process answers is used for its own request only
      ([parsed_commands_answered]).
    - File access. The entry for the deepest folder decides; of several for that folder
      one without access, and else one for writing ([most_specific_decides]); the
      metadata of a workspace stays read-only ([workspace_metadata_readonly]), added
      roots are granted and take nothing away ([additional_roots_writable]), and a
      permission profile survives the conversion to the policies that are enforced
      ([profile_roundtrip]).
    - Configuration. The effective value at a path is that of the highest layer that has
      one ([effective_setting]); the user's layer can be replaced in a consistent stack
      ([with_user_config_consistent]); an override sets its path and nothing else
      ([cli_overrides_settings]); the rules of an administrator mean what they spell out
      and never allow ([requirements_rules_meaning]). A feature is on as the last setting
      for it says, the keys of features that were taken out not being settings
      ([last_setting_decides]).
    - Requirements. The first source that says something about a setting decides
      ([first_source_decides]); which requirements are accepted ([requirements_accepted]),
      that a configuration can always be brought within them ([settings_always_found]), and
      that a session never has a policy or an access mode that they do not list, with what
      the modes mean for the paths ([session_within_requirements]), reads nothing they
      keep from being read ([managed_deny_read_kept]) and has only the servers and searches
      they leave ([tools_within_requirements]). Pinned features stay pinned
      ([pinned_features_hold], [pins_outcome]). [reviewer_not_constrained] and
      [full_access_counts_as_workspace] are what escapes.
    - Running. Whatever else a session does, a call runs only when it may, by answers of
      those who were asked ([attempts_allowed]), the store holds only approvals that
      were given ([stored_approvals_given]) and the source of a decision is known
      ([command_decision_source]). A host is let through only after an answer
      ([hosts_let_through]), one task asks about it at a time and the others get what it
      gets ([one_question_per_host]), and no task is stuck ([tasks_can_finish]) unless
      one is dropped ([dropped_request_blocks_host]). A review fails closed
      ([review_fails_closed]) and its refusals interrupt a turn once
      ([refusals_interrupt_once]).
    - Approval. When a command line runs unasked and when the user is asked
      ([requirement_of_commands]); a dangerous command that no rule covers never runs
      unasked ([dangerous_never_skipped]), but for those of Windows that are known safe
      as well ([safe_and_dangerous_on_windows]); one forbidden command forbids the
      script ([script_command_forbidden]); the rules of an administrator hold whatever
      rules the files have ([requirements_always_ask]), though a file that cannot be
      parsed drops all rules ([parse_error_drops_rules]); accepting a proposal writes it
      to the rules file and lets the command through from then on
      ([accepted_amendment_skips]); updates that interleave leave what some order of
      them leaves ([updates_linearizable]). The verdicts on a patch: [patch_verdicts].
    - Grants. What a request and its answer have in common opens what both open
      ([intersection_bounded]); the grants that are kept open only what was asked for and
      answered ([grants_within_answers]); a command that runs without a question opens no
      more than was answered, but where its own permissions deny a folder by another entry
      ([call_within_answers], [denied_folder_opens]), and they reach the commands
      ([grants_reach_commands]). A profile with additional permissions enforces the union
      ([effective_profile_is_union]). [reading_part_lost], [order_of_grants_matters] and
      [added_reading_takes_writing] are the surprises, and the reason for the exceptions
      in the statements.
    - Conversations. What is sent to a model pairs calls with outputs, but for those that
      have no identifier and the searches of the server ([normalized_paired], by the one
      pass of [normalize_one_pass]), and removing or
      recording items keeps pairs ([removal_keeps_pairs], [record_keeps_pairs]). A rollback
      removes exactly the turns asked for ([rollback_turns], [rollback_compose]). A
      compacted history keeps to its budget ([compacted_within_budget]), a cut text keeps
      its two ends ([truncate_middle_outcome]). Rebuilding a thread by a scan from the end
      is a replay from the start where a compaction survives the rollbacks, or there is
      none, or nothing was rolled back ([reconstruct_is_replay]); [rolled_back_compaction]
      shows why the theorem needs its condition. Where a fork may start: [fork_cut].
    - Processes and agents. The buffer keeps the first and the last bytes of an output
      however it arrives ([buffer_keeps_ends]). The counter of agents is the number of
      those running and those being started, and of those whose entry a later commit of
      the same thread took, and keeps to the limit ([slots_accounted],
      [registered_twice]); paths and nicknames are not shared ([paths_owned],
      [nickname_unused]); agent paths are well formed and stay so when joined and
      resolved ([agent_paths]). The table of processes is bounded and, only when it is
      full, drops the process that its rule says ([table_bounded]); [stale_release]
      shows that its identifiers are not owned. Mail arrives once and in order
      ([mail_in_order]).

    The theorems that a comment numbers C1 to C40 are the properties this library is kept
    for; the others named here support them.

    ** Bounds and fuel

    Loops that recurse on lists are structural. Those that do not carry fuel that is
    enough, which is proved: the loop over hunks and the loop over chunks use the number
    of lines left and one more, since every round takes a line ([parse_patch_text_total]
    says they never run out); the loop of the inline-tag parser uses the length of the pending text and one
    more, since every round but the last takes a delimiter off it ([InlineTagFacts]
    proves that more fuel changes nothing); the UTF-8 decoder uses the number of bytes; the loop
    over the Connection header runs at most twice ([hop_by_hop_removed]). The loops of the
    proxy that start again when the state has changed are steps of [task_step], with no
    bound, and so are the tasks of [CommandUpdates], [AccessGrants], [ToolSession],
    [ProcessTable] and [AgentRegistry], relations of steps over which the theorems go by induction. The scan over a rollout, the walk over a
    syntax tree and the merge of tables are structural. Token counts and budgets of
    [Truncation] are numbers of 64 bits; where the source subtracts or multiplies, a flag
    says whether the build checks overflow, and both kinds of build are covered. The
    counters of [HeadTailBuffer] saturate at 64 bits, the counter of [AgentRegistry] wraps.
    Addresses, ports and counters of the proxy are [N] with their width: 32 and
    128 bits with masks as in the source, 16 bits, and a counter that saturates at 64.
    Sizes and line numbers are [nat]: they are lengths of texts in memory, which
    [usize] holds. Panics of slices, indices, [Vec::insert] and [expect] are values
    ([Crash Panicked]) and theorems exclude them.

    ** Code outside src/ that is a parameter

    The diff of the crate [similar] ([unified_diff]), the matches of the Tree-sitter
    query ([bash_matches]), the Starlark interpreter (the sequence of calls of the
    builtins, and the error it ends with), [shlex], the JSON form of a string
    ([json_string], which is assumed to be on one line), the texts that derived
    implementations of [Debug] and [Display] give, the home and the current directory,
    the regular expressions of [regex_lite] (assumed only to find an escaped alternative
    where it occurs), the crate [path_absolutize] (assumed to give normal absolute
    paths), the metadata of files,
    and the file systems ([FileSystemLaws], [ExecAmend.PolicyFsLaws]), whose laws leave
    out aliases such as symbolic links. Paths are those of Unix. Of the network proxy:
    the crates [globset] ([GlobsetLaws]: a compiled set matches what one of its globs
    does, a plain text matches itself up to case, a star any text, a question mark one
    character), [url], and
    rama (what its accessors give of a request; [HeaderMapLaws] for its header map), name
    resolution, the clock, the decider and the reloader (a state, or a failure, of any
    moment), and the state that intercepts TLS. Of the checks of commands: the grammar of
    Tree-sitter (a function from a text to a tree), [shlex], [regex], [url], and the
    processes of PowerShell (starting one, and exchanging a line with it). Of the access
    policies: what they ask of the system, the record [FsPolicy.Host]. Of the
    conversations: the parsers of JSON and XML, the length of an item as JSON, the decoding
    of images, and the choices of a random generator (an index). Of tools: what a tool does
    when it runs, and the answers of the user, of hooks and of the reviewing model, which
    are answers to questions of a [Prog]; a waiting task of tokio's [Notify] is woken by
    the notification. Of requirements: the crate [wildmatch], the name of the host, and the
    text of hooks and profiles in messages.

    ** What is not modelled

    The executables around these libraries ([main.rs], [standalone_executable.rs],
    [execpolicycheck.rs]), the access profiles of src/file-system, the Windows branches
    outside [ShellDangerous] and [ShellPowershell], the serialisation of the types; of the
    network proxy its listeners, TLS, certificates and start-up ([proxy.rs], [certs.rs]),
    the observer of blocked requests and the logging; of the configuration how its
    files are found and read, and the schema of the other settings; of the session core the
    tasks that talk to models, start processes and write rollouts; the descriptions of
    commands ([parse_command.rs]) and the rollout traces, from which nothing is decided;
    the servers, the enforcement of access by the operating system and the terminal
    interface: input, output and orchestration, or types that are only serialised. *)

From stdpp Require Export base tactics list gmap.
From Stdlib Require Export Lia NArith.
From Stdlib Require Import Sorted.

(** ** Rust results

    A Rust function that returns [Result<A, E>] is modelled by a function into
    [result E A]: [Ok] and [Err] are Rust's own constructors and [Crash] is what
    the Rust code does outside its type (an index, slice or [insert] out of
    range panics) or what the model does when the fuel of a loop runs out. A
    function whose theorem says it never returns [Crash] therefore neither
    panics nor loops for ever. *)
Inductive crash := Panicked | OutOfFuel.

Inductive result (E A : Type) :=
| Ok (a : A)
| Err (e : E)
| Crash (c : crash).
Arguments Ok {E A} a.
Arguments Err {E A} e.
Arguments Crash {E A} c.

#[export] Instance result_ret {E} : MRet (result E) := fun A a => Ok a.

#[export] Instance result_bind {E} : MBind (result E) := fun A B f x =>
  match x with
  | Ok a => f a
  | Err e => Err e
  | Crash c => Crash c
  end.

#[export] Instance result_fmap {E} : FMap (result E) := fun A B f x =>
  match x with
  | Ok a => Ok (f a)
  | Err e => Err e
  | Crash c => Crash c
  end.

(** [map_err], and [Option::ok_or]; [or_panic] is an indexing operation. *)
Definition map_err {E F A} (f : E -> F) (x : result E A) : result F A :=
  match x with
  | Ok a => Ok a
  | Err e => Err (f e)
  | Crash c => Crash c
  end.

Definition ok_or {E A} (e : E) (x : option A) : result E A :=
  match x with Some a => Ok a | None => Err e end.

Definition or_panic {E A} (x : option A) : result E A :=
  match x with Some a => Ok a | None => Crash Panicked end.

Definition is_ok {E A} (x : result E A) : bool :=
  match x with Ok _ => true | _ => false end.

Definition no_crash {E A} (x : result E A) : Prop :=
  forall c, x <> Crash c.

#[export] Instance crash_eq_dec : EqDecision crash.
Proof. solve_decision. Defined.

#[export] Instance result_eq_dec {E A} `{EqDecision E, EqDecision A} :
  EqDecision (result E A).
Proof. solve_decision. Defined.

(** [iter().map(f).collect::<Result<Vec<_>, _>>()]: stops at the first error. *)
Fixpoint collect {E A B} (f : A -> result E B) (l : list A) : result E (list B) :=
  match l with
  | [] => Ok []
  | x :: l => y ← f x; ys ← collect f l; Ok (y :: ys)
  end.

(** ** Vectors: the indexing operations that panic *)

(** [&l[lo..hi]] *)
Definition slice {A} (lo hi : nat) (l : list A) : option (list A) :=
  if (lo <=? hi) && (hi <=? length l) then Some (take (hi - lo) (drop lo l)) else None.

(** [&l[lo..]] *)
Definition slice_from {A} (lo : nat) (l : list A) : option (list A) :=
  if lo <=? length l then Some (drop lo l) else None.

(** [l.insert(i, x)] *)
Definition vec_insert {A} (i : nat) (x : A) (l : list A) : option (list A) :=
  if i <=? length l then Some (take i l ++ x :: drop i l) else None.

(** [l.remove(i)] *)
Definition vec_remove {A} (i : nat) (l : list A) : option (list A) :=
  if i <? length l then Some (delete i l) else None.

(** ** Tactics and hints *)

Create HintDb agere.

(** Case analysis on the innermost [match] or [if] of the goal or of a
    hypothesis, with equations, and closing of the absurd cases. *)
Ltac split_cases :=
  repeat (case_match; simplify_eq/=; try done).

Ltac bool_to_prop :=
  repeat match goal with
  | H : (_ && _) = true |- _ => apply andb_true_iff in H as [? ?]
  | H : (_ || _) = false |- _ => apply orb_false_iff in H as [? ?]
  | H : (_ <=? _) = true |- _ => apply Nat.leb_le in H
  | H : (_ <=? _) = false |- _ => apply Nat.leb_gt in H
  | H : (_ <? _) = true |- _ => apply Nat.ltb_lt in H
  | H : (_ <? _) = false |- _ => apply Nat.ltb_ge in H
  | H : (_ =? _) = true |- _ => apply Nat.eqb_eq in H
  | H : (_ =? _) = false |- _ => apply Nat.eqb_neq in H
  | H : bool_decide _ = true |- _ => apply bool_decide_eq_true in H
  | H : bool_decide _ = false |- _ => apply bool_decide_eq_false in H
  end.

(** Inversion of a monadic computation known to have succeeded. *)
Lemma bind_Ok {E A B} (f : A -> result E B) (x : result E A) (b : B) :
  (x ≫= f) = Ok b <-> exists a, x = Ok a /\ f a = Ok b.
Proof. destruct x; naive_solver. Qed.

Lemma bind_Err {E A B} (f : A -> result E B) (x : result E A) (e : E) :
  (x ≫= f) = Err e <-> x = Err e \/ exists a, x = Ok a /\ f a = Err e.
Proof. destruct x; naive_solver. Qed.

Lemma bind_Crash {E A B} (f : A -> result E B) (x : result E A) (c : crash) :
  (x ≫= f) = Crash c <-> x = Crash c \/ exists a, x = Ok a /\ f a = Crash c.
Proof. destruct x; naive_solver. Qed.

Ltac inv_bind :=
  repeat match goal with
  | H : (_ ≫= _) = Ok _ |- _ => apply bind_Ok in H as (? & ? & ?)
  | H : Ok _ = Ok _ |- _ => injection H as H
  | H : Err _ = Ok _ |- _ => discriminate H
  | H : Crash _ = Ok _ |- _ => discriminate H
  | H : or_panic _ = Ok _ |- _ => unfold or_panic in H; case_match; simplify_eq/=
  | H : ok_or _ _ = Ok _ |- _ => unfold ok_or in H; case_match; simplify_eq/=
  end; simplify_eq/=.

Lemma no_crash_Ok {E A} (a : A) : no_crash (E := E) (Ok a).
Proof. by intros c. Qed.

Lemma no_crash_Err {E A} (e : E) : no_crash (A := A) (Err e).
Proof. by intros c. Qed.

Lemma ok_value {E A} (x : result E A) (d : A) :
  is_ok x = true -> x = Ok (match x with Ok a => a | _ => d end).
Proof. by destruct x. Qed.

Lemma map_err_Ok {E F A} (f : E -> F) (x : result E A) (a : A) :
  map_err f x = Ok a -> x = Ok a.
Proof. destruct x; simpl; intros ?; by simplify_eq. Qed.

Lemma no_crash_cases {E A} (x : result E A) :
  no_crash x -> (exists a, x = Ok a) \/ (exists e, x = Err e).
Proof. intros Hx. destruct x as [a|e|c]; [by left; eexists|by right; eexists|by destruct (Hx c)]. Qed.

Lemma no_crash_bind {E A B} (f : A -> result E B) (x : result E A) :
  no_crash x -> (forall a, x = Ok a -> no_crash (f a)) -> no_crash (x ≫= f).
Proof. intros Hx Hf c [?|(a & ? & ?)]%bind_Crash; [by eapply Hx|by eapply Hf]. Qed.

#[export] Hint Resolve no_crash_Ok no_crash_Err no_crash_bind : agere.

(** ** Generic lemmas on vectors *)

Lemma omap_cons {A B} (f : A -> option B) (x : A) (l : list A) :
  omap f (x :: l) = match f x with Some y => y :: omap f l | None => omap f l end.
Proof. done. Qed.

Lemma slice_Some {A} (lo hi : nat) (l l' : list A) :
  slice lo hi l = Some l' -> lo <= hi <= length l /\ l' = take (hi - lo) (drop lo l).
Proof. unfold slice. intros H. case_match; simplify_eq. bool_to_prop. split; [lia|done]. Qed.

Lemma slice_in_range {A} (lo hi : nat) (l : list A) :
  lo <= hi -> hi <= length l -> slice lo hi l = Some (take (hi - lo) (drop lo l)).
Proof.
  intros H1 H2. unfold slice.
  by rewrite (proj2 (Nat.leb_le _ _) H1), (proj2 (Nat.leb_le _ _) H2).
Qed.

Lemma slice_from_in_range {A} (lo : nat) (l : list A) :
  lo <= length l -> slice_from lo l = Some (drop lo l).
Proof. intros H. unfold slice_from. by rewrite (proj2 (Nat.leb_le _ _) H). Qed.

Lemma vec_insert_in_range {A} (i : nat) (x : A) (l : list A) :
  i <= length l -> vec_insert i x l = Some (take i l ++ x :: drop i l).
Proof. intros H. unfold vec_insert. by rewrite (proj2 (Nat.leb_le _ _) H). Qed.

Lemma vec_remove_in_range {A} (i : nat) (l : list A) :
  i < length l -> vec_remove i l = Some (delete i l).
Proof. intros H. unfold vec_remove. by rewrite (proj2 (Nat.ltb_lt _ _) H). Qed.

Lemma take_eq_app_prefix {A} (n : nat) (l1 l2 : list A) :
  n = length l1 -> take n (l1 ++ l2) = l1.
Proof. intros ->. by rewrite take_app_length. Qed.

Lemma drop_eq_app_suffix {A} (n : nat) (l1 l2 : list A) :
  n = length l1 -> drop n (l1 ++ l2) = l2.
Proof. intros ->. by rewrite drop_app_length. Qed.

(** The slice between the first and the last element. *)
Lemma slice_middle {A} (x y : A) (l : list A) :
  slice 1 (length (x :: l ++ [y]) - 1) (x :: l ++ [y]) = Some l.
Proof.
  rewrite slice_in_range; [|simpl; rewrite ?length_app; simpl; lia..].
  cbn [drop]. rewrite drop_0, take_eq_app_prefix; [done|].
  simpl; rewrite length_app; simpl; lia.
Qed.

(** ** Boolean quantifiers over vectors *)

Lemma forallb_Forall {A} (f : A -> bool) (l : list A) :
  forallb f l = true <-> Forall (fun x => f x = true) l.
Proof. rewrite forallb_forall, List.Forall_forall. done. Qed.

Lemma existsb_none {A} (f : A -> bool) (l : list A) :
  existsb f l = false <-> Forall (fun x => f x = false) l.
Proof.
  induction l as [|x l IH]; simpl; [by split|].
  rewrite orb_false_iff, IH, Forall_cons. done.
Qed.

Lemma negb_existsb {A} (f : A -> bool) (l : list A) :
  negb (existsb f l) = true <-> Forall (fun x => f x = false) l.
Proof. by rewrite negb_true_iff, existsb_none. Qed.

(** ** [slice::sort_by_key]

    The sort of the standard library is stable, and so is this insertion sort. *)

Section SortByKey.
Context {A : Type} (key : A -> nat).

Fixpoint insert_key (x : A) (l : list A) : list A :=
  match l with
  | [] => [x]
  | y :: l' => if key x <=? key y then x :: l else y :: insert_key x l'
  end.

Definition sort_by_key (l : list A) : list A := foldr insert_key [] l.

Lemma insert_key_perm (x : A) (l : list A) : insert_key x l ≡ₚ x :: l.
Proof.
  induction l as [|y l IH]; simpl; [done|]. case_match; [done|].
  rewrite IH. apply Permutation_swap.
Qed.

Lemma sort_by_key_perm (l : list A) : sort_by_key l ≡ₚ l.
Proof. induction l as [|x l IH]; simpl; [done|]. by rewrite insert_key_perm, IH. Qed.

Lemma sort_by_key_sorted (l : list A) :
  Sorted.StronglySorted (fun x y => key x <= key y) (sort_by_key l).
Proof.
  apply Sorted.Sorted_StronglySorted; [intros ? ? ? ? ?; lia|].
  induction l as [|x l IH]; simpl; [constructor|].
  induction IH as [|y l' Hs IH Hd]; simpl; [by repeat constructor|].
  case_match eqn:E; bool_to_prop.
  - constructor; [by constructor|]. by constructor.
  - constructor; [done|]. destruct l' as [|z l']; simpl; [constructor; lia|].
    inversion_clear Hd. case_match; constructor; lia.
Qed.

End SortByKey.

Lemma Forall_concat_map {A B} (P : A -> Prop) (Q : B -> Prop) (f : A -> list B) (l : list A) :
  (forall x, P x -> Forall Q (f x)) -> Forall P l -> Forall Q (concat (map f l)).
Proof.
  intros Hf. induction 1 as [|x l Hx Hl IH]; simpl; [done|].
  apply Forall_app. auto.
Qed.
