(* ===== verification/RustStr.v ===== *)
(** * Rust strings

    [char] is a Unicode scalar value and [str] the sequence of the characters of
    a [&str] or a [String]; a [PathBuf] of a Unix system is a [str] too. Byte
    offsets of the source are character offsets here: every offset the modelled
    code computes lies on a character boundary, and slicing at it gives the same
    text. [utf8_len] is the byte length, for the places that compare lengths.

    The operations are those of the Rust standard library the modelled code
    calls, with the lemmas the components share. *)

From Stdlib Require Import Ascii String.
From S2P Require Import Prelude.

Abbreviation char := N (only parsing).
Abbreviation str := (list N) (only parsing).

(** ASCII literals. *)
Fixpoint lit (s : string) : str :=
  match s with
  | EmptyString => []
  | String a s => N_of_ascii a :: lit s
  end.

Definition ch (a : ascii) : char := N_of_ascii a.

#[global] Arguments ch : simpl never.
#[global] Arguments lit : simpl never.

Definition NL : char := 10%N.
Definition CR : char := 13%N.

(** [char::is_whitespace]: the Unicode property White_Space. *)
Definition is_whitespace (c : char) : bool :=
  ((9 <=? c) && (c <=? 13) || (c =? 32) || (c =? 0x85) || (c =? 0xA0)
   || (c =? 0x1680) || ((0x2000 <=? c) && (c <=? 0x200A))
   || (c =? 0x2028) || (c =? 0x2029) || (c =? 0x202F) || (c =? 0x205F)
   || (c =? 0x3000))%N.

(** [char::is_ascii_digit], [char::to_ascii_lowercase]. *)
Definition is_ascii_digit (c : char) : bool := ((48 <=? c) && (c <=? 57))%N.

Definition ascii_lower (c : char) : char :=
  if ((65 <=? c) && (c <=? 90))%N then (c + 32)%N else c.

Definition to_ascii_lowercase (s : str) : str := map ascii_lower s.

(** [char::len_utf8], [str::len]. *)
Definition len_utf8 (c : char) : nat :=
  if (c <? 0x80)%N then 1 else if (c <? 0x800)%N then 2
  else if (c <? 0x10000)%N then 3 else 4.

Definition utf8_len (s : str) : nat := sum_list (map len_utf8 s).

(** Equality of strings as a test. *)
Fixpoint str_eqb (s t : str) : bool :=
  match s, t with
  | [], [] => true
  | x :: s, y :: t => N.eqb x y && str_eqb s t
  | _, _ => false
  end.

(** [trim_start_matches], [trim_end_matches], [trim_start], [trim_end], [trim]. *)
(** [matches!(s, a | b | ...)] on strings. *)
Definition one_of (alternatives : list str) (s : str) : bool :=
  existsb (fun a => str_eqb a s) alternatives.

Definition eq_ignore_ascii_case (a b : str) : bool :=
  str_eqb (to_ascii_lowercase a) (to_ascii_lowercase b).

Fixpoint drop_while (p : char -> bool) (s : str) : str :=
  match s with
  | [] => []
  | c :: s' => if p c then drop_while p s' else s
  end.

Definition drop_while_end (p : char -> bool) (s : str) : str :=
  reverse (drop_while p (reverse s)).

Definition trim_start (s : str) : str := drop_while is_whitespace s.
Definition trim_end (s : str) : str := drop_while_end is_whitespace s.
Definition trim (s : str) : str := trim_end (trim_start s).

(** [strip_prefix], [strip_suffix], [starts_with], [ends_with]. *)
Fixpoint strip_prefix (p s : str) : option str :=
  match p, s with
  | [], _ => Some s
  | x :: p, y :: s => if N.eqb x y then strip_prefix p s else None
  | _ :: _, [] => None
  end.

Definition strip_suffix (p s : str) : option str :=
  match strip_prefix (reverse p) (reverse s) with
  | Some r => Some (reverse r)
  | None => None
  end.

Definition starts_with (p s : str) : bool :=
  match strip_prefix p s with Some _ => true | None => false end.

Definition ends_with (p s : str) : bool :=
  match strip_suffix p s with Some _ => true | None => false end.

(** [s.find(needle)]: the first position where the needle starts. *)
Fixpoint find (needle s : str) : option nat :=
  if starts_with needle s then Some 0
  else match s with
       | [] => None
       | _ :: s' => S <$> find needle s'
       end.

Definition contains (needle s : str) : bool :=
  match find needle s with Some _ => true | None => false end.

Definition contains_char (c : char) (s : str) : bool := existsb (N.eqb c) s.

(** [s.matches(c).count()] *)
Definition count_char (c : char) (s : str) : nat := length (filter (fun x => x = c) s).

(** [s.split_once(c)] and [s.rsplit_once(c)] for a character. *)
Fixpoint split_once (c : char) (s : str) : option (str * str) :=
  match s with
  | [] => None
  | x :: s' => if N.eqb x c then Some ([], s')
               else match split_once c s' with
                    | Some (a, b) => Some (x :: a, b)
                    | None => None
                    end
  end.

Definition rsplit_once (c : char) (s : str) : option (str * str) :=
  match split_once c (reverse s) with
  | Some (a, b) => Some (reverse b, reverse a)
  | None => None
  end.

(** [s.split(c)]: never empty. *)
Fixpoint split_on (c : char) (s : str) : list str :=
  match s with
  | [] => [[]]
  | x :: s' =>
      match split_on c s' with
      | w :: ws => if N.eqb x c then [] :: w :: ws else (x :: w) :: ws
      | [] => [[]]
      end
  end.

(** [s.split_inclusive('\n')]: every piece but perhaps the last ends in a newline. *)
Fixpoint split_inclusive (c : char) (s : str) : list str :=
  match s with
  | [] => []
  | x :: s' =>
      if N.eqb x c then [x] :: split_inclusive c s'
      else match split_inclusive c s' with
           | w :: ws => (x :: w) :: ws
           | [] => [[x]]
           end
  end.

(** [s.lines()]: a line loses its newline, and a carriage return before it. *)
Definition line_of_piece (piece : str) : str :=
  match strip_suffix [NL] piece with
  | None => piece
  | Some line => match strip_suffix [CR] line with
                 | None => line
                 | Some line' => line'
                 end
  end.

Definition lines (s : str) : list str := map line_of_piece (split_inclusive NL s).

(** [ls.join(sep)] *)
Fixpoint join (sep : str) (ls : list str) : str :=
  match ls with
  | [] => []
  | [l] => l
  | l :: ls => l ++ sep ++ join sep ls
  end.

(** [usize] in a [format!]: decimal digits. *)
Fixpoint digits (fuel n : nat) : str :=
  match fuel with
  | 0 => []
  | S fuel => (if n <? 10 then [] else digits fuel (n / 10)) ++ [N.of_nat (48 + n mod 10)]
  end.

Definition show_nat (n : nat) : str := digits (S n) n.

(** [str::parse] for an unsigned type whose largest number is [max]: digits, with a check
    for overflow after each; a plus sign may come first; no digit at all is an error. *)
Fixpoint parse_digits (max acc : N) (s : str) : option N :=
  match s with
  | [] => Some acc
  | c :: s =>
      if is_ascii_digit c
      then let v := (10 * acc + (c - 48))%N in
           if (v <=? max)%N then parse_digits max v s else None
      else None
  end.

Definition parse_uint (max : N) (s : str) : option N :=
  let digits := match strip_prefix (lit "+") s with Some r => r | None => s end in
  if str_eqb digits [] then None else parse_digits max 0 digits.

(** The order of vectors, and of strings by their bytes, which for UTF-8 is the order of
    the code points. *)
Fixpoint lex_compare {A} (cmp : A -> A -> comparison) (l k : list A) : comparison :=
  match l, k with
  | [], [] => Eq
  | [], _ :: _ => Lt
  | _ :: _, [] => Gt
  | x :: l, y :: k => match cmp x y with Eq => lex_compare cmp l k | c => c end
  end.

Definition str_le (a b : str) : Prop := lex_compare N.compare a b <> Gt.

#[export] Instance str_le_dec : RelDecision str_le.
Proof. intros a b. unfold str_le. apply _. Defined.

(** ** Lemmas *)

Lemma str_eqb_eq (s t : str) : str_eqb s t = true <-> s = t.
Proof.
  revert t; induction s as [|x s IH]; intros [|y t]; simpl; try done.
  rewrite andb_true_iff, N.eqb_eq, IH. naive_solver.
Qed.

Lemma str_eqb_refl (s : str) : str_eqb s s = true.
Proof. by apply str_eqb_eq. Qed.

Lemma str_eqb_neq (s t : str) : str_eqb s t = false <-> s <> t.
Proof. rewrite <- str_eqb_eq. by destruct (str_eqb s t). Qed.

Lemma one_of_true (alts : list str) (s : str) : one_of alts s = true <-> s ∈ alts.
Proof.
  unfold one_of. rewrite existsb_exists. split.
  - intros (x & Hx & ->%str_eqb_eq). by apply list_elem_of_In.
  - intros Hs. exists s. split; [by apply list_elem_of_In|apply str_eqb_refl].
Qed.

Lemma strip_prefix_Some (p s r : str) : strip_prefix p s = Some r <-> s = p ++ r.
Proof.
  revert s; induction p as [|x p IH]; intros s; simpl; [naive_solver|].
  destruct s as [|y s]; [naive_solver|].
  destruct (N.eqb_spec x y) as [->|Hne]; [rewrite IH; naive_solver|naive_solver].
Qed.

Lemma strip_prefix_app (p r : str) : strip_prefix p (p ++ r) = Some r.
Proof. by apply strip_prefix_Some. Qed.

Lemma strip_prefix_None (p s : str) : strip_prefix p s = None <-> forall r, s <> p ++ r.
Proof.
  destruct (strip_prefix p s) eqn:E.
  - apply strip_prefix_Some in E as ->. naive_solver.
  - split; [|done]. intros _ r Hr%strip_prefix_Some. congruence.
Qed.

Lemma strip_suffix_Some (p s r : str) : strip_suffix p s = Some r <-> s = r ++ p.
Proof.
  unfold strip_suffix. destruct (strip_prefix (reverse p) (reverse s)) as [q|] eqn:E.
  - apply strip_prefix_Some in E. rewrite <- (reverse_involutive s), E, reverse_app,
      reverse_involutive.
    split; [intros; by simplify_eq|]. intros ?%app_inv_tail. by simplify_eq.
  - split; [done|]. intros ->. rewrite reverse_app, strip_prefix_app in E. done.
Qed.

Lemma strip_suffix_None (p s : str) : strip_suffix p s = None <-> forall r, s <> r ++ p.
Proof.
  destruct (strip_suffix p s) eqn:E.
  - apply strip_suffix_Some in E as ->. naive_solver.
  - split; [|done]. intros _ r Hr%strip_suffix_Some. congruence.
Qed.

Lemma starts_with_true (p s : str) : starts_with p s = true <-> exists r, s = p ++ r.
Proof.
  unfold starts_with. destruct (strip_prefix p s) as [r|] eqn:E.
  - apply strip_prefix_Some in E. naive_solver.
  - rewrite strip_prefix_None in E. naive_solver.
Qed.

Lemma starts_with_app (p r : str) : starts_with p (p ++ r) = true.
Proof. apply starts_with_true. eauto. Qed.

Lemma ends_with_true (p s : str) : ends_with p s = true <-> exists r, s = r ++ p.
Proof.
  unfold ends_with. destruct (strip_suffix p s) as [r|] eqn:E.
  - apply strip_suffix_Some in E. naive_solver.
  - rewrite strip_suffix_None in E. naive_solver.
Qed.

(** *** Trimming *)

Lemma drop_while_id (p : char -> bool) (c : char) (s : str) :
  p c = false -> drop_while p (c :: s) = c :: s.
Proof. simpl. by intros ->. Qed.

Lemma drop_while_suffix (p : char -> bool) (s : str) :
  exists pre, s = pre ++ drop_while p s /\ Forall (fun c => p c = true) pre.
Proof.
  induction s as [|c s (pre & Hs & Hpre)]; [by exists []|]. simpl.
  destruct (p c) eqn:E.
  - exists (c :: pre). split; [simpl; congruence|by constructor].
  - by exists [].
Qed.

Lemma drop_while_head (p : char -> bool) (s : str) (c : char) (s' : str) :
  drop_while p s = c :: s' -> p c = false.
Proof.
  induction s as [|x s IH]; simpl; [done|]. destruct (p x) eqn:E; [auto|naive_solver].
Qed.

Lemma drop_while_idemp (p : char -> bool) (s : str) :
  drop_while p (drop_while p s) = drop_while p s.
Proof.
  destruct (drop_while p s) eqn:E; [done|].
  apply drop_while_head in E. by apply drop_while_id.
Qed.

Lemma drop_while_app_all (p : char -> bool) (s t : str) :
  Forall (fun c => p c = true) s -> drop_while p (s ++ t) = drop_while p t.
Proof. induction 1 as [|c s Hc Hs IH]; simpl; [done|]. by rewrite Hc. Qed.

Lemma drop_while_end_id (p : char -> bool) (c : char) (s : str) :
  p c = false -> drop_while_end p (s ++ [c]) = s ++ [c].
Proof.
  intros H. unfold drop_while_end. rewrite reverse_app. simpl. rewrite H.
  by rewrite reverse_cons, reverse_involutive.
Qed.

Lemma drop_while_end_prefix (p : char -> bool) (s : str) :
  exists post, s = drop_while_end p s ++ post /\ Forall (fun c => p c = true) post.
Proof.
  destruct (drop_while_suffix p (reverse s)) as (pre & Hs & Hpre).
  exists (reverse pre). split; [|by apply Forall_reverse].
  unfold drop_while_end. by rewrite <- reverse_app, <- Hs, reverse_involutive.
Qed.

(** A string with no white space at its ends is its own [trim]. *)
Definition trimmed (s : str) : Prop :=
  (forall c, head s = Some c -> is_whitespace c = false) /\
  (forall c, last s = Some c -> is_whitespace c = false).

Lemma trim_start_id (s : str) :
  (forall c, head s = Some c -> is_whitespace c = false) -> trim_start s = s.
Proof. destruct s as [|c s]; [done|]. intros H. apply drop_while_id, H. done. Qed.

Lemma trim_end_id (s : str) :
  (forall c, last s = Some c -> is_whitespace c = false) -> trim_end s = s.
Proof.
  destruct s as [|c s _] using rev_ind; [done|]. intros H.
  apply drop_while_end_id, H. by rewrite last_snoc.
Qed.

Lemma trim_trimmed (s : str) : trimmed s -> trim s = s.
Proof. intros [H1 H2]. unfold trim. by rewrite trim_start_id, trim_end_id. Qed.

Lemma last_app_nonempty (s t : str) : t <> [] -> last (s ++ t) = last t.
Proof.
  intros Ht. rewrite last_app. destruct (last t) eqn:E; [done|].
  by apply last_None in E.
Qed.

(** *** Lines *)

(** A line as [lines] produces it from a piece that ends in a newline. *)
Definition clean_line (l : str) : Prop := (NL ∉ l) /\ last l <> Some CR.

#[export] Instance clean_line_dec (l : str) : Decision (clean_line l).
Proof. unfold clean_line. apply _. Defined.

Lemma split_inclusive_app (c : char) (l s : str) :
  c ∉ l -> split_inclusive c (l ++ c :: s) = (l ++ [c]) :: split_inclusive c s.
Proof.
  induction l as [|x l IH]; intros Hl; simpl; [by rewrite N.eqb_refl|].
  apply not_elem_of_cons in Hl as [Hx Hl]. rewrite (IH Hl).
  by rewrite (proj2 (N.eqb_neq x c)) by congruence.
Qed.

Lemma split_inclusive_single (c : char) (l : str) :
  c ∉ l -> l <> [] -> split_inclusive c l = [l].
Proof.
  induction l as [|x l IH]; intros Hl Hne; [done|]. simpl.
  apply not_elem_of_cons in Hl as [Hx Hl].
  rewrite (proj2 (N.eqb_neq x c)) by congruence.
  destruct l as [|y l]; [done|]. by rewrite IH.
Qed.

Lemma line_of_piece_newline (l : str) :
  last l <> Some CR -> line_of_piece (l ++ [NL]) = l.
Proof.
  intros H. unfold line_of_piece. rewrite (proj2 (strip_suffix_Some _ _ l)) by done.
  destruct (strip_suffix [CR] l) as [r|] eqn:E; [|done].
  apply strip_suffix_Some in E as ->. by rewrite last_snoc in H.
Qed.

Lemma line_of_piece_last (l : str) : NL ∉ l -> line_of_piece l = l.
Proof.
  intros H. unfold line_of_piece. rewrite (proj2 (strip_suffix_None _ _)); [done|].
  intros r ->. set_solver.
Qed.

Lemma lines_cons (l s : str) : clean_line l -> lines (l ++ NL :: s) = l :: lines s.
Proof.
  intros [Hnl Hcr]. unfold lines. rewrite split_inclusive_app by done.
  simpl. by rewrite line_of_piece_newline.
Qed.

Lemma lines_single (l : str) : NL ∉ l -> l <> [] -> lines l = [l].
Proof.
  intros H1 H2. unfold lines. rewrite split_inclusive_single by done.
  simpl. by rewrite line_of_piece_last.
Qed.

(** [lines] undoes [join]. *)
Lemma lines_join (ls : list str) (l : str) :
  Forall clean_line ls -> NL ∉ l -> l <> [] ->
  lines (join [NL] (ls ++ [l])) = ls ++ [l].
Proof.
  intros Hls H1 H2. induction Hls as [|x ls Hx Hls IH]; simpl; [by apply lines_single|].
  assert (exists y ys, (ls ++ [l]) = (y :: ys)) as (y & ys & E) by (destruct ls; eauto).
  rewrite E in *. rewrite lines_cons by done. by rewrite IH.
Qed.

Lemma join_cons (sep l : str) (ls : list str) :
  ls <> [] -> join sep (l :: ls) = l ++ sep ++ join sep ls.
Proof. by destruct ls. Qed.

(** The lines of two texts joined by a newline. *)
Lemma split_inclusive_join (s t : str) (c : char) :
  last s = Some c -> c <> NL ->
  exists ws w, split_inclusive NL s = ws ++ [w] /\ (NL ∉ w) /\ last w = Some c /\
    split_inclusive NL (s ++ NL :: t) = ws ++ (w ++ [NL]) :: split_inclusive NL t.
Proof.
  revert c. induction s as [|x s IH]; intros c Hl Hc; [done|].
  destruct (decide (s = [])) as [->|Hs].
  - simpl in Hl. simplify_eq. exists [], [c]. simpl.
    rewrite (proj2 (N.eqb_neq c NL)) by done. split_and!; try done. set_solver.
  - assert (last s = Some c) as Hl' by (destruct s; done).
    destruct (IH c Hl' Hc) as (ws & w & E1 & Hw & Hlw & E2). simpl. rewrite E1, E2.
    destruct (N.eqb_spec x NL) as [->|Hx]; [by exists ([NL] :: ws), w|].
    destruct ws as [|w' ws]; simpl; [|by exists ((x :: w') :: ws), w].
    exists [], (x :: w). split_and!; try done; [set_solver|by destruct w].
Qed.

Lemma lines_app (s t : str) (c : char) :
  last s = Some c -> c <> NL -> c <> CR -> lines (s ++ NL :: t) = lines s ++ lines t.
Proof.
  intros Hl Hn Hr. destruct (split_inclusive_join s t c Hl Hn) as (ws & w & E1 & Hw & Hlw & E2).
  unfold lines. rewrite E1, E2, !map_app. simpl.
  rewrite line_of_piece_newline, line_of_piece_last by (done || congruence).
  by rewrite <- app_assoc.
Qed.

(** [trim] leaves no white space at the ends. *)
Lemma trim_is_trimmed (s : str) : trimmed (trim s).
Proof.
  assert (forall u c, last (trim_end u) = Some c -> is_whitespace c = false) as Hend.
  { intros u c. unfold trim_end, drop_while_end.
    destruct (drop_while _ (reverse u)) as [|x v] eqn:E; [done|].
    rewrite reverse_cons, last_snoc. intros; simplify_eq. by eapply drop_while_head. }
  split; [|apply Hend].
  intros c Hc. unfold trim in Hc.
  destruct (drop_while_end_prefix is_whitespace (trim_start s)) as (post & E & _).
  unfold trim_end in *. destruct (drop_while_end _ _) as [|x v]; [done|].
  simpl in Hc. simplify_eq. by eapply (drop_while_head _ s).
Qed.

Lemma trim_idemp (s : str) : trim (trim s) = trim s.
Proof. apply trim_trimmed, trim_is_trimmed. Qed.

(** *** [split] and [join] *)

Lemma split_on_ne (c : char) (s : str) : split_on c s <> [].
Proof. destruct s as [|x s]; simpl; [done|]. destruct (split_on c s); [done|]. by case_match. Qed.

Lemma split_on_single (c : char) (l : str) : c ∉ l -> split_on c l = [l].
Proof.
  induction l as [|x l IH]; simpl; intros Hl; [done|].
  apply not_elem_of_cons in Hl as [Hx Hl]. rewrite (IH Hl).
  by rewrite (proj2 (N.eqb_neq x c)) by congruence.
Qed.

Lemma split_on_app (c : char) (l s : str) :
  c ∉ l -> split_on c (l ++ c :: s) = l :: split_on c s.
Proof.
  pose proof (split_on_ne c s) as Hne.
  induction l as [|x l IH]; simpl; intros Hl.
  - destruct (split_on c s); [done|]. by rewrite N.eqb_refl.
  - apply not_elem_of_cons in Hl as [Hx Hl]. rewrite (IH Hl).
    by rewrite (proj2 (N.eqb_neq x c)) by congruence.
Qed.

Lemma split_on_snoc (c : char) (s : str) : split_on c (s ++ [c]) = split_on c s ++ [[]].
Proof.
  induction s as [|x s IH]; simpl; [by rewrite N.eqb_refl|].
  rewrite IH. pose proof (split_on_ne c s). destruct (split_on c s); [done|]. simpl.
  by case_match.
Qed.

Lemma join_split_on (c : char) (s : str) : join [c] (split_on c s) = s.
Proof.
  induction s as [|x s IH]; simpl; [done|].
  destruct (split_on c s) as [|w ws] eqn:E; [by apply split_on_ne in E|].
  destruct (N.eqb_spec x c) as [->|Hx].
  - rewrite join_cons by done. by rewrite IH.
  - rewrite <- IH. by destruct ws.
Qed.

Lemma split_on_last_empty (c : char) (s : str) :
  last (split_on c s) = Some [] -> s = [] \/ last s = Some c.
Proof.
  induction s as [|x s IH]; [by left|]. simpl. intros H. right.
  pose proof (split_on_ne c s) as Hne.
  destruct (split_on c s) as [|w ws] eqn:E; [done|].
  assert (last (w :: ws) = Some [] -> last (x :: s) = Some c \/ s = []) as Hs.
  { intros Hl. destruct (IH Hl) as [->|Hs]; [by right|left]. destruct s; done. }
  destruct (N.eqb_spec x c) as [->|Hx].
  - destruct (Hs H) as [?| ->]; done.
  - destruct ws as [|w' ws]; [done|]. destruct (Hs H) as [?| ->]; [done|]. done.
Qed.

Lemma join_snoc_nil (c : char) (ls : list str) :
  ls <> [] -> join [c] (ls ++ [[]]) = join [c] ls ++ [c].
Proof.
  induction ls as [|l ls IH]; [done|]. intros _. destruct ls as [|l' ls]; [done|].
  rewrite <- app_comm_cons, !join_cons by done. rewrite IH by done. by rewrite <- !app_assoc.
Qed.

(** *** Lines and padding *)

Lemma split_inclusive_pieces (c : char) (s : str) :
  Forall (fun w => (c ∉ w) \/ exists l, (c ∉ l) /\ w = l ++ [c]) (split_inclusive c s).
Proof.
  induction s as [|x s IH]; simpl; [constructor|].
  destruct (N.eqb_spec x c) as [->|Hx].
  - constructor; [right; exists []; split; [apply not_elem_of_nil|done]|done].
  - destruct (split_inclusive c s) as [|w ws]; [constructor; [left; set_solver|done]|].
    apply Forall_cons in IH as [Hw Hws]. constructor; [|done].
    destruct Hw as [Hw|(l & Hl & ->)]; [left; set_solver|].
    right. exists (x :: l). split; [set_solver|done].
Qed.

Lemma line_of_piece_no_newline (w : str) :
  (NL ∉ w) \/ (exists l, (NL ∉ l) /\ w = l ++ [NL]) -> NL ∉ line_of_piece w.
Proof.
  unfold line_of_piece. intros [Hw|(l & Hl & ->)].
  - destruct (strip_suffix [NL] w) as [l|] eqn:E; [|done].
    apply strip_suffix_Some in E. set_solver.
  - rewrite (proj2 (strip_suffix_Some [NL] (l ++ [NL]) l)) by done.
    destruct (strip_suffix [CR] l) as [l'|] eqn:E; [|done].
    apply strip_suffix_Some in E. set_solver.
Qed.

(** No line holds a newline. *)
Lemma lines_no_newline (s : str) : Forall (fun l => NL ∉ l) (lines s).
Proof.
  unfold lines. apply Forall_map.
  eapply Forall_impl; [apply split_inclusive_pieces|apply line_of_piece_no_newline].
Qed.

Lemma elem_of_join (sep : str) (ls : list str) (l : str) (c : char) :
  l ∈ ls -> c ∈ l -> c ∈ join sep ls.
Proof.
  induction ls as [|x ls IH]; intros Hl Hc; [by apply not_elem_of_nil in Hl|].
  destruct (decide (ls = [])) as [->|Hne].
  - by apply list_elem_of_singleton in Hl as ->.
  - rewrite join_cons by done. apply elem_of_cons in Hl as [->|Hl].
    + by apply elem_of_app; left.
    + apply elem_of_app; right. apply elem_of_app; right. by apply IH.
Qed.

Lemma join_snoc (sep : str) (ls : list str) (l : str) :
  ls <> [] -> join sep (ls ++ [l]) = join sep ls ++ sep ++ l.
Proof.
  induction ls as [|x ls IH]; intros Hne; [done|]. destruct ls as [|y ls]; [done|].
  rewrite <- app_comm_cons, join_cons by (destruct ls; done).
  rewrite IH by done. by rewrite (join_cons sep x (y :: ls)), <- !app_assoc by done.
Qed.

Definition all_white (s : str) : Prop := Forall (fun c => is_whitespace c = true) s.

(** A text is its white space around its trimmed part. *)
Lemma trim_pad_inv (s : str) : exists a b, s = a ++ trim s ++ b /\ all_white a /\ all_white b.
Proof.
  destruct (drop_while_suffix is_whitespace s) as (a & Ha & Hwa).
  destruct (drop_while_end_prefix is_whitespace (trim_start s)) as (b & Hb & Hwb).
  exists a, b. split; [|done]. unfold trim, trim_end. by rewrite <- Hb.
Qed.

Lemma drop_while_end_app_all (p : char -> bool) (s t : str) :
  Forall (fun c => p c = true) t -> drop_while_end p (s ++ t) = drop_while_end p s.
Proof.
  intros Ht. unfold drop_while_end. rewrite reverse_app, drop_while_app_all; [done|].
  by apply Forall_reverse.
Qed.

Lemma trim_pad (a b s : str) :
  all_white a -> all_white b -> trimmed s -> trim (a ++ s ++ b) = s.
Proof.
  intros Ha Hb [Hh Hl]. unfold trim, trim_start, trim_end. rewrite drop_while_app_all by done.
  destruct s as [|c s].
  - simpl. pose proof (drop_while_app_all is_whitespace b [] Hb) as E.
    rewrite app_nil_r in E. by rewrite E.
  - assert (is_whitespace c = false) as Hc by by apply Hh.
    rewrite <- app_comm_cons, drop_while_id, app_comm_cons by done.
    rewrite drop_while_end_app_all by done. by apply trim_end_id.
Qed.

(** *** Lower case *)

(** A character that [to_ascii_lowercase] keeps. *)
Definition lower (c : char) : Prop := ascii_lower c = c.

Lemma ascii_lower_idemp (c : char) : lower (ascii_lower c).
Proof.
  unfold lower, ascii_lower. destruct ((65 <=? c) && (c <=? 90))%N eqn:E; [|by rewrite E].
  assert (65 <= c <= 90)%N as [H1 H2].
  { apply andb_true_iff in E as [E1 E2]. by apply N.leb_le in E1, E2. }
  rewrite (proj2 (N.leb_gt (c + 32) 90)) by lia. by rewrite andb_false_r.
Qed.


Definition lower_case (s : str) : Prop := Forall lower s.

Lemma to_lowercase_id (s : str) : lower_case s -> to_ascii_lowercase s = s.
Proof. induction 1 as [|c s Hc _ IH]; [done|]. simpl. by rewrite Hc, IH. Qed.

Lemma to_lowercase_lower (s : str) : lower_case (to_ascii_lowercase s).
Proof. apply Forall_map, Forall_true. intros c. apply ascii_lower_idemp. Qed.

(** *** Numbers *)

(** The number that a list of digits denotes. *)
Fixpoint value_of (acc : N) (s : str) : N :=
  match s with [] => acc | c :: s => value_of (10 * acc + (c - 48)) s end.

Lemma value_of_mono (s : str) (a b : N) : (a <= b)%N -> (value_of a s <= value_of b s)%N.
Proof. revert a b. induction s as [|c s IH]; intros a b H; simpl; [done|]. apply IH. lia. Qed.

Lemma value_of_le (s : str) (a : N) : (a <= value_of a s)%N.
Proof.
  revert a. induction s as [|c s IH]; intros a; simpl; [lia|]. etrans; [|apply IH]. lia.
Qed.

Lemma parse_digits_spec (max : N) (s : str) (acc n : N) :
  (acc <= max)%N ->
  parse_digits max acc s = Some n <->
  Forall (fun c => is_ascii_digit c = true) s /\ n = value_of acc s /\ (n <= max)%N.
Proof.
  revert acc. induction s as [|c s IH]; intros acc Ha; simpl.
  { split; [intros ?; simplify_eq; by split_and!|by intros (_ & -> & _)]. }
  destruct (is_ascii_digit c) eqn:Ec.
  - destruct (N.leb_spec (10 * acc + (c - 48)) max) as [Hv|Hv].
    + rewrite IH by done. rewrite Forall_cons. naive_solver.
    + split; [done|]. intros (_ & -> & Hn).
      pose proof (value_of_le s (10 * acc + (c - 48))). lia.
  - split; [done|]. intros ([? _]%Forall_cons & _). congruence.
Qed.

Lemma parse_uint_spec (max : N) (s : str) (n : N) :
  parse_uint max s = Some n <->
  exists digits, (s = digits \/ s = lit "+" ++ digits) /\ digits <> [] /\
    Forall (fun c => is_ascii_digit c = true) digits /\ n = value_of 0 digits /\ (n <= max)%N.
Proof.
  unfold parse_uint. set (digits := match strip_prefix (lit "+") s with Some r => r | None => s end).
  assert (forall d, Forall (fun c => is_ascii_digit c = true) d -> d <> [] ->
            s = d \/ s = lit "+" ++ d -> digits = d) as Hd.
  { intros d Hf Hne [->|E]; subst digits; [|by rewrite E, strip_prefix_app].
    destruct d as [|c d]; [done|]. apply Forall_cons in Hf as [Hc _].
    destruct (strip_prefix (lit "+") (c :: d)) as [r|] eqn:Ep; [|done].
    apply strip_prefix_Some in Ep. simpl in Ep. injection Ep as -> _. by vm_compute in Hc. }
  assert (s = digits \/ s = lit "+" ++ digits) as Hs.
  { subst digits. destruct (strip_prefix (lit "+") s) as [r|] eqn:Ep; [|by left].
    right. by apply strip_prefix_Some in Ep. }
  clearbody digits. destruct (str_eqb digits []) eqn:E0.
  - apply str_eqb_eq in E0 as ->. split; [done|]. intros (d & Hsd & Hne & Hf & _).
    by rewrite (Hd d Hf Hne Hsd) in Hne.
  - apply str_eqb_neq in E0. rewrite parse_digits_spec by lia.
    split.
    + intros (Hf & -> & Hn). exists digits. split_and!; done.
    + intros (d & Hsd & Hne & Hf & -> & Hn). rewrite (Hd d Hf Hne Hsd) in *. split_and!; done.
Qed.

(** ** Searching for a character *)

Lemma contains_char_true (c : char) (s : str) : contains_char c s = true <-> c ∈ s.
Proof.
  unfold contains_char. rewrite existsb_exists. split.
  - intros (x & Hx & ->%N.eqb_eq). by apply list_elem_of_In.
  - intros Hc. exists c. split; [by apply list_elem_of_In|apply N.eqb_refl].
Qed.

Lemma contains_char_false (c : char) (s : str) : contains_char c s = false <-> c ∉ s.
Proof. rewrite <- contains_char_true. by destruct (contains_char c s). Qed.

Lemma split_once_Some (c : char) (s a b : str) :
  split_once c s = Some (a, b) -> s = a ++ c :: b.
Proof.
  revert a. induction s as [|x s IH]; intros a; simpl; [done|].
  destruct (N.eqb_spec x c) as [->|_]; [intros; by simplify_eq|].
  destruct (split_once c s) as [[a' b']|]; [|done]. intros ?; simplify_eq.
  by rewrite (IH a' eq_refl).
Qed.

Lemma rsplit_once_Some (c : char) (s a b : str) :
  rsplit_once c s = Some (a, b) -> s = a ++ c :: b.
Proof.
  unfold rsplit_once. destruct (split_once c (reverse s)) as [[x y]|] eqn:E; [|done].
  intros ?; simplify_eq. apply split_once_Some in E. apply (f_equal reverse) in E.
  rewrite reverse_involutive, reverse_app, reverse_cons, <- app_assoc in E. done.
Qed.

Lemma count_char_absent (c : char) (s : str) : c ∉ s -> count_char c s = 0.
Proof.
  intros Hc. unfold count_char. induction s as [|x s IH]; [done|].
  apply not_elem_of_cons in Hc as [Hx Hs]. rewrite filter_cons, decide_False by done. by apply IH.
Qed.

Lemma split_once_app (c : char) (a b : str) : c ∉ a -> split_once c (a ++ c :: b) = Some (a, b).
Proof.
  induction a as [|x a IH]; intros Hc; simpl; [by rewrite N.eqb_refl|].
  apply not_elem_of_cons in Hc as [Hx Ha]. rewrite (proj2 (N.eqb_neq x c)), IH by auto. done.
Qed.

Lemma count_char_app (c : char) (a b : str) : count_char c (a ++ b) = count_char c a + count_char c b.
Proof. unfold count_char. by rewrite filter_app, length_app. Qed.

(** ** Numbers in decimal *)

Lemma digits_ascii (fuel n : nat) : Forall (fun c => is_ascii_digit c = true) (digits fuel n).
Proof.
  revert n. induction fuel as [|fuel IH]; intros n; simpl; [constructor|].
  apply Forall_app; split; [by destruct (n <? 10); [constructor|]|]. constructor; [|constructor].
  pose proof (Nat.mod_upper_bound n 10 ltac:(done)). unfold is_ascii_digit.
  apply andb_true_iff. split; apply N.leb_le; lia.
Qed.

Lemma show_nat_digits (n : nat) :
  show_nat n <> [] /\ Forall (fun c => is_ascii_digit c = true) (show_nat n).
Proof. split; [unfold show_nat; simpl; intros [_ ?]%app_nil; done|apply digits_ascii]. Qed.

Lemma show_nat_absent (c : char) (n : nat) : is_ascii_digit c = false -> c ∉ show_nat n.
Proof.
  intros Hc Hin. destruct (show_nat_digits n) as [_ Hf]. rewrite Forall_forall in Hf.
  by rewrite (Hf c Hin) in Hc.
Qed.

Lemma digit_not_white (c : char) : is_ascii_digit c = true -> is_whitespace c = false.
Proof.
  unfold is_ascii_digit. intros [H1%N.leb_le H2%N.leb_le]%andb_true_iff.
  assert (exists k, (k < 10)%nat /\ c = (48 + N.of_nat k)%N) as (k & Hk & ->)
    by (exists (N.to_nat (c - 48)); lia).
  by do 10 (destruct k as [|k]; [done|]); lia.
Qed.

Lemma show_nat_trimmed (s : str) (n : nat) :
  (forall c, head s = Some c -> is_whitespace c = false) -> s <> [] -> trimmed (s ++ show_nat n).
Proof.
  intros Hs Hne. destruct (show_nat_digits n) as [Hn Hf]. split.
  - destruct s as [|c s]; [done|]. intros c' [= <-]. by apply Hs.
  - rewrite last_app_nonempty by done. intros c Hc. apply digit_not_white.
    rewrite Forall_forall in Hf. apply Hf. by apply last_Some_elem_of.
Qed.
