(* ===== verification/Utf8.v ===== *)
(** * UTF-8

    [String::into_bytes] and [std::str::from_utf8]: a text is encoded as bytes,
    and bytes are decoded up to the first error, which is either an invalid
    sequence of a given length or an incomplete character at the end. A byte is
    an [N] below 256. The standard library's validation is followed branch by
    branch, because the stream parser depends on which error it reports. *)

From S2P Require Import Prelude RustStr.
Local Open Scope N_scope.

Module Utf8.

Abbreviation byte := N (only parsing).

(** ** Encoding *)

Definition encode_char (c : char) : list byte :=
  if c <? 0x80 then [c]
  else if c <? 0x800 then [0xC0 + c / 64; 0x80 + c mod 64]
  else if c <? 0x10000 then [0xE0 + c / 4096; 0x80 + (c / 64) mod 64; 0x80 + c mod 64]
  else [0xF0 + c / 262144; 0x80 + (c / 4096) mod 64; 0x80 + (c / 64) mod 64; 0x80 + c mod 64].

Definition encode (s : str) : list byte := concat (map encode_char s).

(** A Rust [char]: a code point that is no surrogate. *)
Definition is_scalar (c : char) : Prop := c < 0xD800 \/ 0xE000 <= c < 0x110000.

(** ** Decoding *)

(** [v as i8 >= -64] is false exactly on continuation bytes. *)
Definition is_cont (b : byte) : bool := (0x80 <=? b) && (b <=? 0xBF).

(** [utf8_char_width] *)
Definition width (b : byte) : nat :=
  if b <? 0x80 then 1
  else if (0xC2 <=? b) && (b <=? 0xDF) then 2
  else if (0xE0 <=? b) && (b <=? 0xEF) then 3
  else if (0xF0 <=? b) && (b <=? 0xF4) then 4
  else 0.

(** The second byte of a three- and of a four-byte sequence. *)
Definition second3 (b0 b1 : byte) : bool :=
  if b0 =? 0xE0 then (0xA0 <=? b1) && (b1 <=? 0xBF)
  else if b0 =? 0xED then (0x80 <=? b1) && (b1 <=? 0x9F)
  else is_cont b1.

Definition second4 (b0 b1 : byte) : bool :=
  if b0 =? 0xF0 then (0x90 <=? b1) && (b1 <=? 0xBF)
  else if b0 =? 0xF4 then (0x80 <=? b1) && (b1 <=? 0x8F)
  else is_cont b1.

(** One character, an invalid sequence, or a sequence that the end cuts short. *)
Inductive utf8_step :=
| Decoded (c : char) (n : nat)
| Bad (len : nat)
| Partial.

Definition step (b0 : byte) (v : list byte) : utf8_step :=
  match width b0 with
  | 1%nat => Decoded b0 1
  | 2%nat =>
      match v with
      | [] => Partial
      | b1 :: _ =>
          if is_cont b1 then Decoded ((b0 - 0xC0) * 64 + (b1 - 0x80)) 2 else Bad 1
      end
  | 3%nat =>
      match v with
      | [] => Partial
      | b1 :: v =>
          if second3 b0 b1 then
            match v with
            | [] => Partial
            | b2 :: _ =>
                if is_cont b2
                then Decoded ((b0 - 0xE0) * 4096 + (b1 - 0x80) * 64 + (b2 - 0x80)) 3
                else Bad 2
            end
          else Bad 1
      end
  | 4%nat =>
      match v with
      | [] => Partial
      | b1 :: v =>
          if second4 b0 b1 then
            match v with
            | [] => Partial
            | b2 :: v =>
                if is_cont b2 then
                  match v with
                  | [] => Partial
                  | b3 :: _ =>
                      if is_cont b3
                      then Decoded ((b0 - 0xF0) * 262144 + (b1 - 0x80) * 4096
                                    + (b2 - 0x80) * 64 + (b3 - 0x80)) 4
                      else Bad 3
                  end
                else Bad 2
            end
          else Bad 1
      end
  | _ => Bad 1
  end.

(** [Utf8Error::error_len], and the absence of an error. *)
Inductive verdict := Valid | Invalid (error_len : nat) | Incomplete.

(** The decoded prefix, its length in bytes ([valid_up_to]) and the verdict. *)
Record decoding := { text : str; valid_up_to : nat; outcome : verdict }.

Definition prepend (s : str) (n : nat) (d : decoding) : decoding :=
  {| text := s ++ text d; valid_up_to := n + valid_up_to d; outcome := outcome d |}.

Fixpoint decode_fuel (fuel : nat) (v : list byte) : decoding :=
  match v with
  | [] => {| text := []; valid_up_to := 0; outcome := Valid |}
  | b0 :: v' =>
      match fuel with
      | O => {| text := []; valid_up_to := 0; outcome := Incomplete |}
      | S fuel =>
          match step b0 v' with
          | Decoded c n => prepend [c] n (decode_fuel fuel (drop n v))
          | Bad len => {| text := []; valid_up_to := 0; outcome := Invalid len |}
          | Partial => {| text := []; valid_up_to := 0; outcome := Incomplete |}
          end
      end
  end.

(** Every step takes a byte at least: the length is fuel enough. *)
Definition decode (v : list byte) : decoding := decode_fuel (length v) v.

Definition from_utf8 (v : list byte) : option str :=
  match outcome (decode v) with Valid => Some (text (decode v)) | _ => None end.

(** ** Lemmas *)

Lemma step_width (b0 : byte) (v : list byte) (c : char) (n : nat) :
  step b0 v = Decoded c n -> (1 <= n <= S (length v))%nat.
Proof.
  unfold step. intros H.
  repeat (case_match; simplify_eq/=; try lia).
Qed.

Lemma decode_fuel_enough (fuel fuel' : nat) (v : list byte) :
  (length v <= fuel)%nat -> (length v <= fuel')%nat -> decode_fuel fuel v = decode_fuel fuel' v.
Proof.
  revert fuel' v. induction fuel as [|fuel IH]; intros fuel' v H H'.
  - destruct v; simpl in *; [by destruct fuel'|lia].
  - destruct v as [|b0 v]; [by destruct fuel'|]. destruct fuel' as [|fuel']; [simpl in H'; lia|].
    simpl. destruct (step b0 v) as [c n| |] eqn:E; try done.
    apply step_width in E. f_equal. simpl in *. apply IH; rewrite length_drop; simpl; lia.
Qed.

Lemma decode_nil : decode [] = {| text := []; valid_up_to := 0; outcome := Valid |}.
Proof. done. Qed.

Lemma decode_cons (b0 : byte) (v : list byte) :
  decode (b0 :: v)
  = match step b0 v with
    | Decoded c n => prepend [c] n (decode (drop n (b0 :: v)))
    | Bad len => {| text := []; valid_up_to := 0; outcome := Invalid len |}
    | Partial => {| text := []; valid_up_to := 0; outcome := Incomplete |}
    end.
Proof.
  unfold decode. cbn [length decode_fuel]. destruct (step b0 v) as [c n| |] eqn:E; try done.
  apply step_width in E. f_equal. apply decode_fuel_enough; rewrite ?length_drop; simpl; lia.
Qed.

Lemma prepend_prepend (s t : str) (n m : nat) (d : decoding) :
  prepend s n (prepend t m d) = prepend (s ++ t) (n + m) d.
Proof. unfold prepend. simpl. f_equal; [by rewrite app_assoc|lia]. Qed.

Lemma prepend_nil (d : decoding) : prepend [] 0 d = d.
Proof. by destruct d. Qed.

(** A step that has seen enough bytes does not depend on what follows. *)
Lemma step_app (b0 : byte) (v w : list byte) :
  step b0 v <> Partial -> step b0 (v ++ w) = step b0 v.
Proof. unfold step. intros H. repeat (case_match; simplify_eq/=; try done). Qed.

(** Induction along the decoding. *)
Lemma decode_ind (P : list byte -> Prop) :
  P [] ->
  (forall b0 v, (forall c n, step b0 v = Decoded c n -> P (drop n (b0 :: v))) -> P (b0 :: v)) ->
  forall v, P v.
Proof.
  intros H0 Hs v. remember (length v) as k eqn:Hk. revert v Hk.
  induction k as [k IH] using lt_wf_ind. intros [|b0 v] ->; [done|]. apply Hs.
  intros c n E. apply step_width in E. eapply IH; [|reflexivity].
  rewrite length_drop. simpl. lia.
Qed.

(** Decoding a concatenation: the first part may end in the middle of a
    character, and then its tail is decoded with the second part. *)
Lemma decode_app (v w : list byte) :
  match outcome (decode v) with
  | Invalid n => decode (v ++ w) = decode v
  | _ => decode (v ++ w)
         = prepend (text (decode v)) (valid_up_to (decode v))
             (decode (drop (valid_up_to (decode v)) v ++ w))
  end.
Proof.
  induction v as [|b0 v IH] using decode_ind.
  - cbn. by rewrite prepend_nil.
  - rewrite <- app_comm_cons, !decode_cons.
    destruct (step b0 v) as [c n|len|] eqn:E; cbn [prepend outcome text valid_up_to].
    + rewrite step_app, E by congruence. specialize (IH c n eq_refl).
      pose proof (step_width _ _ _ _ E) as Hn.
      replace (drop n (b0 :: v ++ w)) with (drop n (b0 :: v) ++ w)
        by (rewrite app_comm_cons, drop_app_le; [done|simpl; lia]).
      destruct (outcome _); rewrite IH; try done; by rewrite prepend_prepend, drop_drop.
    + by rewrite step_app, E by congruence.
    + by rewrite prepend_nil, drop_0, <- app_comm_cons, decode_cons.
Qed.

Lemma valid_up_to_le (v : list byte) : (valid_up_to (decode v) <= length v)%nat.
Proof.
  induction v as [|b0 v IH] using decode_ind; [done|]. rewrite decode_cons.
  destruct (step b0 v) as [c n|len|] eqn:E; simpl; try lia.
  specialize (IH c n eq_refl). apply step_width in E. rewrite length_drop in IH.
  simpl in *. lia.
Qed.

Lemma decode_valid_length (v : list byte) :
  outcome (decode v) = Valid -> valid_up_to (decode v) = length v.
Proof.
  induction v as [|b0 v IH] using decode_ind; [done|]. rewrite decode_cons.
  destruct (step b0 v) as [c n|len|] eqn:E; simpl; try done. intros H.
  rewrite (IH c n eq_refl H), length_drop. apply step_width in E. simpl in *. lia.
Qed.

(** A step reads only the bytes it takes. *)
Lemma step_take (b0 : byte) (v w : list byte) (c : char) (n : nat) :
  step b0 v = Decoded c n -> step b0 (take (n - 1) v ++ w) = Decoded c n.
Proof. unfold step. intros H. repeat (case_match; simplify_eq/=; try done). Qed.

(** The valid prefix decodes to the same text, without an error. *)
Lemma decode_prefix (v : list byte) :
  decode (take (valid_up_to (decode v)) v)
  = {| text := text (decode v); valid_up_to := valid_up_to (decode v); outcome := Valid |}.
Proof.
  induction v as [|b0 v IH] using decode_ind; [done|]. rewrite decode_cons.
  destruct (step b0 v) as [c n|len|] eqn:E; try done.
  specialize (IH c n eq_refl). pose proof (step_width _ _ _ _ E) as Hn.
  cbn [prepend text valid_up_to outcome].
  set (d := decode (drop n (b0 :: v))) in *. destruct n as [|n]; [lia|].
  assert (take (S n + valid_up_to d) (b0 :: v)
          = b0 :: take n v ++ take (valid_up_to d) (drop (S n) (b0 :: v))) as ->.
  { simpl. f_equal. rewrite <- (take_drop n v) at 1.
    rewrite take_app_ge by (rewrite length_take; lia).
    rewrite length_take. do 2 f_equal. lia. }
  rewrite decode_cons. apply (step_take _ _ (take (valid_up_to d) (drop (S n) (b0 :: v)))) in E.
  replace (S n - 1)%nat with n in E by lia. rewrite E.
  rewrite (app_comm_cons (take n v)), (drop_eq_app_suffix (S n)); [by rewrite IH|].
  simpl. rewrite length_take. lia.
Qed.

(** *** Round trip *)

#[local] Ltac Zify.zify_post_hook ::= Z.to_euclidean_division_equations.

Ltac decide_N :=
  repeat match goal with
  | |- context [N.ltb ?a ?b] => destruct (N.ltb_spec a b); try lia
  | |- context [N.leb ?a ?b] => destruct (N.leb_spec a b); try lia
  | |- context [N.eqb ?a ?b] => destruct (N.eqb_spec a b); try lia
  end.

Lemma step_encode (c : char) (w : list byte) :
  is_scalar c ->
  exists b0 v, encode_char c = b0 :: v /\ step b0 (v ++ w) = Decoded c (length (encode_char c)).
Proof.
  unfold is_scalar, encode_char. intros Hc.
  destruct (N.ltb_spec c 0x80).
  { eexists _, _. split; [done|]. unfold step, width. by decide_N. }
  destruct (N.ltb_spec c 0x800).
  { eexists _, _. split; [done|]. unfold step, width.
    assert (0xC2 <= 0xC0 + c / 64 <= 0xDF) by lia. decide_N; simpl.
    unfold is_cont. decide_N; simpl. f_equal. lia. }
  destruct (N.ltb_spec c 0x10000).
  { eexists _, _. split; [done|]. unfold step, width.
    assert (0xE0 <= 0xE0 + c / 4096 <= 0xEF) by lia. decide_N; simpl.
    unfold second3, is_cont. decide_N; simpl; f_equal; lia. }
  eexists _, _. split; [done|]. unfold step, width.
  assert (0xF0 <= 0xF0 + c / 262144 <= 0xF4) by lia. decide_N; simpl.
  unfold second4, is_cont. decide_N; simpl; f_equal; lia.
Qed.

Lemma decode_encode (s : str) :
  Forall is_scalar s ->
  decode (encode s) = {| text := s; valid_up_to := length (encode s); outcome := Valid |}.
Proof.
  induction 1 as [|c s Hc Hs IH]; [done|].
  destruct (step_encode c (encode s) Hc) as (b0 & v & E & Hst).
  unfold encode in *. cbn [map concat]. rewrite E, <- app_comm_cons in *.
  rewrite decode_cons, Hst, app_comm_cons, drop_app_length, IH.
  unfold prepend. simpl. by rewrite length_app.
Qed.

Lemma from_utf8_encode (s : str) : Forall is_scalar s -> from_utf8 (encode s) = Some s.
Proof. intros H. unfold from_utf8. by rewrite decode_encode. Qed.

End Utf8.
