(* ===== verification/AbsPath.v ===== *)
(** * Absolute paths: src/utils/fs/src/absolute_path

    [AbsolutePathBuf]s are resolved lexically: a path is joined to its base and
    its [.] and [..] components are removed. The model is that of a Unix system,
    where [normalize_path_for_platform] is the identity; what it uses of
    [std::path] ([components], [push], [pop], [join], [parent], [file_name]) is
    defined first. The home directory, which the crate [dirs] looks up in the
    environment, is a parameter. *)

From Stdlib Require Import Ascii String.
From S2P Require Import Prelude RustStr.

Module AbsPath.

(** ** [std::path] *)

Definition SLASH : char := 47%N.
Definition DOT : str := [46%N].
Definition DOTDOT : str := [46%N; 46%N].

Inductive Component := RootDir | CurDir | ParentDir | Normal (name : str).

#[export] Instance Component_eq_dec : EqDecision Component.
Proof. solve_decision. Defined.

Definition is_absolute (path : str) : bool := starts_with [SLASH] path.

(** One piece between slashes. Empty pieces and single dots are skipped, but for a
    leading dot of a relative path. *)
Definition component_of (piece : str) : option Component :=
  if str_eqb piece [] then None
  else if str_eqb piece DOT then None
  else if str_eqb piece DOTDOT then Some ParentDir
  else Some (Normal piece).

Definition components (path : str) : list Component :=
  let pieces := split_on SLASH path in
  (if is_absolute path then [RootDir]
   else match pieces with
        | p :: _ => if str_eqb p DOT then [CurDir] else []
        | [] => []
        end) ++ omap component_of pieces.

Definition component_str (c : Component) : str :=
  match c with
  | RootDir => [SLASH]
  | CurDir => DOT
  | ParentDir => DOTDOT
  | Normal name => name
  end.

(** [PathBuf::push] and [Path::join]. *)
Definition push (buf path : str) : str :=
  if is_absolute path then path
  else if str_eqb buf [] || ends_with [SLASH] buf then buf ++ path
  else buf ++ [SLASH] ++ path.

(** The text of a list of components, as [PathBuf::from_iter] joins them. *)
Definition of_components (cs : list Component) : str :=
  fold_left (fun buf c => push buf (component_str c)) cs [].

(** [Path::parent] and [PathBuf::pop]; [Path::file_name]. *)
Definition parent (path : str) : option str :=
  match last (components path) with
  | Some RootDir | None => None
  | Some _ => Some (of_components (removelast (components path)))
  end.

Definition pop (buf : str) : str :=
  match parent buf with Some p => p | None => buf end.

Definition file_name (path : str) : option str :=
  match last (components path) with
  | Some (Normal name) => Some name
  | _ => None
  end.

(** [Path::file_stem]: the file name up to its last dot, unless the only dot is the
    first character. *)
Definition file_stem (path : str) : option str :=
  match file_name path with
  | None => None
  | Some name =>
      match rsplit_once (ch ".") name with
      | Some (before, _) => if str_eqb before [] then Some name else Some before
      | None => Some name
      end
  end.

(** [Path::starts_with], [==] and [strip_prefix] compare components; of what is left after
    a prefix, the components are kept. *)
Definition path_starts_with (path base : str) : bool :=
  bool_decide (components base `prefix_of` components path).

Definition path_eqb (a b : str) : bool := bool_decide (components a = components b).

Definition path_strip_prefix (path base : str) : option (list Component) :=
  if path_starts_with path base
  then Some (drop (length (components base)) (components path)) else None.

(** [Path::ancestors]: the path, its parent, and so on; a path has at most as many
    proper ancestors as components. *)
Fixpoint ancestors_from (fuel : nat) (path : str) : list str :=
  path :: match fuel, parent path with
          | S fuel, Some p => ancestors_from fuel p
          | _, _ => []
          end.

Definition ancestors (path : str) : list str := ancestors_from (length (components path)) path.

(** ** absolutize.rs *)

Definition normalize_path (path : str) : str :=
  let normalized :=
    fold_left (fun normalized component =>
      match component with
      | CurDir => normalized
      | ParentDir => pop normalized
      | RootDir | Normal _ => push normalized (component_str component)
      end) (components path) [] in
  if str_eqb normalized [] then DOT else normalized.

Definition path_with_base (path base_path : str) : str :=
  if is_absolute path then path else push base_path path.

Definition absolutize_from (path base_path : str) : str :=
  normalize_path (path_with_base path base_path).

(** ** mod.rs *)

Section Home.
Context (home_dir current_dir : option str).

(** [std::env::current_dir] fails when the directory is gone. *)
Definition absolutize (path : str) : result str str :=
  if is_absolute path then Ok (normalize_path path)
  else match current_dir with
       | Some cwd => Ok (absolutize_from path cwd)
       | None => Err (lit "current directory unavailable")
       end.

Definition maybe_expand_home_directory (path : str) : str :=
  match home_dir, strip_prefix (lit "~") path with
  | Some home, Some rest =>
      if str_eqb rest [] then home
      else match strip_prefix [SLASH] rest with
           | Some rest => push home (drop_while (N.eqb SLASH) rest)
           | None => path
           end
  | _, _ => path
  end.

Definition resolve_path_against_base (path base_path : str) : str :=
  let expanded := maybe_expand_home_directory path in
  absolutize_from expanded base_path.

Definition abs_join (self path : str) : str := resolve_path_against_base path self.

(** [AbsolutePathBuf::try_from] is this function too. *)
Definition from_absolute_path (path : str) : result str str :=
  absolutize (maybe_expand_home_directory path).

Definition from_absolute_path_checked (path : str) : result str str :=
  let expanded := maybe_expand_home_directory path in
  if negb (is_absolute expanded) then Err (lit "path is not absolute: " ++ path)
  else Ok (absolutize_from expanded [SLASH]).

End Home.

(** *** Canonical paths

    [canonicalize] is the system's, through the crate [dunce], which changes nothing on
    Unix; [symlink_metadata] says of a path that exists whether it is a symbolic link. *)

Section Canonical.
Context (home_dir current_dir : option str).
Context (canonicalize : str -> result str str) (symlink_metadata : str -> option bool).

Definition should_preserve_logical_path (logical : str) : bool :=
  existsb (fun ancestor =>
    match symlink_metadata ancestor with
    | Some is_symlink =>
        is_symlink && match parent ancestor with
                      | Some p => match parent p with Some _ => true | None => false end
                      | None => false
                      end
    | None => false
    end) (ancestors logical).

Definition canonicalize_preserving_symlinks (path : str) : result str str :=
  logical ← from_absolute_path home_dir current_dir path;
  let preserve_logical_path := should_preserve_logical_path logical in
  match canonicalize path with
  | Ok canonical =>
      if preserve_logical_path && negb (path_eqb canonical logical) then Ok logical
      else Ok canonical
  | _ => Ok logical
  end.

Definition canonicalize_existing_preserving_symlinks (path : str) : result str str :=
  logical ← from_absolute_path home_dir current_dir path;
  canonical ← canonicalize path;
  if should_preserve_logical_path logical && negb (path_eqb canonical logical)
  then Ok logical else Ok canonical.

End Canonical.

Definition abs_parent (self : str) : option str := parent self.

(** ** Normal form *)

Definition valid_name (n : str) : Prop :=
  n <> [] /\ n <> DOT /\ n <> DOTDOT /\ SLASH ∉ n.

(** [/a/b/c] *)
Definition render_abs (names : list str) : str := SLASH :: join [SLASH] names.

(** What the documentation of [AbsolutePathBuf] guarantees. *)
Definition normalized_absolute (path : str) : Prop :=
  exists names, Forall valid_name names /\ path = render_abs names.

(** The names that a list of components leads to, from a stack of names. *)
Fixpoint walk (stack : list str) (cs : list Component) : list str :=
  match cs with
  | [] => stack
  | RootDir :: cs => walk [] cs
  | CurDir :: cs => walk stack cs
  | ParentDir :: cs => walk (removelast stack) cs
  | Normal n :: cs => walk (stack ++ [n]) cs
  end.

(** ** Lemmas *)

Lemma split_on_join (c : char) (ls : list str) :
  ls <> [] -> Forall (fun l => c ∉ l) ls -> split_on c (join [c] ls) = ls.
Proof.
  intros Hne H. induction H as [|l ls Hl Hls IH]; [done|]. destruct ls as [|l' ls].
  - by apply split_on_single.
  - rewrite join_cons by done. cbn [app]. by rewrite split_on_app, IH by done.
Qed.

Lemma component_of_valid (n : str) : valid_name n -> component_of n = Some (Normal n).
Proof.
  intros (H1 & H2 & H3 & _). unfold component_of.
  apply str_eqb_neq in H1, H2, H3. by rewrite H1, H2, H3.
Qed.

Lemma valid_no_slash (names : list str) :
  Forall valid_name names -> Forall (fun l => SLASH ∉ l) names.
Proof. intros Hv. eapply Forall_impl; [done|]. by intros n (_ & _ & _ & ?). Qed.

Lemma omap_component_valid (names : list str) :
  Forall valid_name names -> omap component_of names = map Normal names.
Proof.
  induction 1 as [|m ms Hm Hms IH]; [done|]. simpl.
  rewrite component_of_valid by done. simpl. by rewrite <- IH.
Qed.

Lemma components_render_abs (names : list str) :
  Forall valid_name names -> components (render_abs names) = RootDir :: map Normal names.
Proof.
  intros Hv. unfold components. change (is_absolute (render_abs names)) with true.
  assert (split_on SLASH (render_abs names) = [] :: split_on SLASH (join [SLASH] names)) as ->
    by (apply (split_on_app SLASH []); set_solver).
  destruct names as [|n names]; [done|].
  rewrite split_on_join by (done || by apply valid_no_slash).
  change (omap component_of ([] :: n :: names)) with (omap component_of (n :: names)).
  by rewrite omap_component_valid.
Qed.

Lemma join_app (sep : str) (ls : list str) (l : str) :
  ls <> [] -> join sep (ls ++ [l]) = join sep ls ++ sep ++ l.
Proof.
  induction ls as [|x ls IH]; [done|]. intros _. destruct ls as [|y ls]; [done|].
  rewrite <- app_comm_cons, !join_cons by done. rewrite IH by done. by rewrite <- !app_assoc.
Qed.

Lemma push_name (names : list str) (n : str) :
  Forall valid_name names -> valid_name n ->
  push (render_abs names) n = render_abs (names ++ [n]).
Proof.
  intros Hv (Hne & _ & _ & Hn). unfold push.
  assert (is_absolute n = false) as ->.
  { destruct n as [|x n]; [done|]. unfold is_absolute, starts_with. cbn [strip_prefix].
    destruct (N.eqb_spec SLASH x); [subst; set_solver|done]. }
  change (str_eqb (render_abs names) []) with false. cbn [orb].
  destruct names as [|m names _] using rev_ind; [done|].
  assert (ends_with [SLASH] (render_abs (names ++ [m])) = false) as ->.
  { apply Forall_app in Hv as [_ (Hm & _ & _ & Hs)%Forall_singleton].
    destruct (ends_with _ _) eqn:E; [|done]. apply ends_with_true in E as (r & E).
    apply (f_equal last) in E. rewrite last_snoc in E. unfold render_abs in E.
    assert (last (join [SLASH] (names ++ [m])) = last m) as Hl.
    { destruct names as [|k names]; [done|]. rewrite join_app by done.
      by rewrite app_assoc, last_app_nonempty. }
    destruct (last m) as [x|] eqn:El; [|by apply last_None in El].
    destruct (join [SLASH] (names ++ [m])) eqn:Ej; [done|].
    change (last (SLASH :: n0 :: l) = Some SLASH) in E.
    assert (last (n0 :: l) = Some SLASH) as E2 by exact E. rewrite Hl in E2. simplify_eq.
    destruct Hs. by apply last_Some_elem_of. }
  unfold render_abs. simpl. by rewrite (join_app _ (names ++ [m])) by (by destruct names).
Qed.

Lemma of_components_render (names : list str) :
  Forall valid_name names -> of_components (RootDir :: map Normal names) = render_abs names.
Proof.
  unfold of_components. induction names as [|n names IH] using rev_ind; [done|].
  intros [Hv [Hn _]%Forall_cons]%Forall_app.
  rewrite map_app, app_comm_cons, fold_left_app, IH by done. simpl. by apply push_name.
Qed.

Lemma pop_render (names : list str) :
  Forall valid_name names -> pop (render_abs names) = render_abs (removelast names).
Proof.
  intros Hv. unfold pop, parent. rewrite components_render_abs by done.
  destruct names as [|n names _] using rev_ind; [done|].
  apply Forall_app in Hv as [Hv _].
  rewrite map_app, app_comm_cons. change (map Normal [n]) with [Normal n].
  rewrite last_snoc.
  rewrite !removelast_last, of_components_render by done. done.
Qed.

Lemma removelast_valid (names : list str) :
  Forall valid_name names -> Forall valid_name (removelast names).
Proof.
  destruct names as [|n names _] using rev_ind; [done|].
  rewrite removelast_last. by intros [? _]%Forall_app.
Qed.

(** The components of any path carry valid names only. *)
Definition valid_component (c : Component) : Prop :=
  match c with Normal n => valid_name n | _ => True end.

Lemma component_of_is_valid (piece : str) (c : Component) :
  SLASH ∉ piece -> component_of piece = Some c -> valid_component c /\ c <> RootDir.
Proof.
  unfold component_of. intros Hs H.
  destruct (str_eqb piece []) eqn:E1; [done|]. destruct (str_eqb piece DOT) eqn:E2; [done|].
  destruct (str_eqb piece DOTDOT) eqn:E3; simplify_eq; [done|].
  apply str_eqb_neq in E1, E2, E3. by repeat split.
Qed.

Lemma split_on_no_sep (c : char) (s : str) : Forall (fun l => c ∉ l) (split_on c s).
Proof.
  induction s as [|x s IH]; simpl; [constructor; [set_solver|done]|].
  destruct (split_on c s) as [|w ws]; [constructor; [set_solver|done]|].
  destruct (N.eqb_spec x c); [constructor; [set_solver|done]|].
  inversion IH; subst. constructor; [set_solver|done].
Qed.

Lemma components_of_pieces (pieces : list str) :
  Forall (fun l => SLASH ∉ l) pieces ->
  Forall (fun c => valid_component c /\ c <> RootDir) (omap component_of pieces).
Proof.
  induction 1 as [|p ps Hp Hps IH]; simpl; [done|].
  destruct (component_of p) as [c|] eqn:E; [|done].
  constructor; [by eapply component_of_is_valid|done].
Qed.

(** The loop of [normalize_path] is [walk], on texts. *)
Lemma normalize_loop (cs : list Component) (names : list str) :
  Forall valid_name names ->
  Forall (fun c => valid_component c /\ c <> RootDir) cs ->
  fold_left (fun normalized component =>
      match component with
      | CurDir => normalized
      | ParentDir => pop normalized
      | RootDir | Normal _ => push normalized (component_str component)
      end) cs (render_abs names) = render_abs (walk names cs)
  /\ Forall valid_name (walk names cs).
Proof.
  intros Hv Hcs. revert names Hv. induction Hcs as [|c cs [Hc Hr] Hcs IH]; intros names Hv; [done|].
  destruct c as [| | |n]; simpl; [done|by apply IH| |].
  - rewrite pop_render by done. apply IH. by apply removelast_valid.
  - rewrite push_name by done. apply IH. apply Forall_app. split; [done|]. by apply Forall_cons.
Qed.

Lemma normalize_absolute (path : str) :
  is_absolute path = true ->
  normalize_path path = render_abs (walk [] (components path))
  /\ Forall valid_name (walk [] (components path)).
Proof.
  intros Ha. unfold normalize_path, components. rewrite Ha. simpl app.
  destruct (normalize_loop (omap component_of (split_on SLASH path)) []) as [Hl Hv];
    [done|by apply components_of_pieces, split_on_no_sep|].
  cbn [fold_left component_str walk]. change (push [] [SLASH]) with (render_abs []).
  rewrite Hl. split; [|done]. done.
Qed.

Lemma is_absolute_render (names : list str) : is_absolute (render_abs names) = true.
Proof. done. Qed.

Lemma normalize_render (names : list str) :
  Forall valid_name names -> normalize_path (render_abs names) = render_abs names.
Proof.
  intros Hv. destruct (normalize_absolute (render_abs names)) as [-> _]; [done|].
  rewrite components_render_abs by done. simpl. f_equal.
  assert (forall st : list str, walk st (map Normal names) = st ++ names) as H.
  { clear. induction names as [|n names IH]; intros st; simpl; [by rewrite app_nil_r|].
    by rewrite IH, <- app_assoc. }
  apply H.
Qed.

Lemma push_absolute (base path : str) :
  is_absolute base = true -> is_absolute (push base path) = true.
Proof.
  unfold push, is_absolute. intros Hb. destruct (starts_with [SLASH] path) eqn:E; [done|].
  apply starts_with_true in Hb as (r & ->). case_match; apply starts_with_true; eauto.
Qed.

Lemma absolutize_from_normalized (path base : str) :
  is_absolute base = true -> normalized_absolute (absolutize_from path base).
Proof.
  intros Hb. unfold absolutize_from, path_with_base.
  assert (is_absolute (if is_absolute path then path else push base path) = true) as Ha.
  { destruct (is_absolute path) eqn:E; [done|by apply push_absolute]. }
  destruct (normalize_absolute _ Ha) as [-> Hv]. by eexists.
Qed.

Lemma expand_absolute (home : option str) (path : str) :
  is_absolute path = true -> maybe_expand_home_directory home path = path.
Proof.
  intros Ha. apply starts_with_true in Ha as (r & ->).
  unfold maybe_expand_home_directory. destruct home; done.
Qed.

(** ** Theorems *)

(** Resolving a path against an absolute base gives what the type
    [AbsolutePathBuf] promises: an absolute path without empty, [.] and [..]
    components; and resolving the result again, against any base, changes
    nothing. *)
Theorem resolve_normalized (home : option str) (path base base' : str) :
  is_absolute base = true ->
  normalized_absolute (resolve_path_against_base home path base) /\
  resolve_path_against_base home (resolve_path_against_base home path base) base'
  = resolve_path_against_base home path base.
Proof.
  intros Hb. assert (normalized_absolute (resolve_path_against_base home path base)) as Hn
    by by apply absolutize_from_normalized.
  split; [done|]. destruct Hn as (names & Hv & ->).
  unfold resolve_path_against_base at 1. rewrite expand_absolute by done.
  unfold absolutize_from, path_with_base. rewrite is_absolute_render. by apply normalize_render.
Qed.

Lemma resolve_normalized_witness :
  normalized_absolute (resolve_path_against_base None (lit "../a/./b") (lit "/x/y")) /\
  resolve_path_against_base None
    (resolve_path_against_base None (lit "../a/./b") (lit "/x/y")) (lit "/z") = lit "/x/a/b".
Proof.
  destruct (resolve_normalized None (lit "../a/./b") (lit "/x/y") (lit "/z")) as [H1 H2];
    [vm_compute; reflexivity|].
  split; [exact H1|]. rewrite H2. vm_compute. reflexivity.
Defined.

End AbsPath.
