(* ===== verification/FileSystem.v ===== *)
(** * File systems: src/file-system/src/lib.rs

    The trait [ExecutorFileSystem] is a class: its operations over a state type,
    and the laws the patch code relies on. [MemoryFs] is a file system in memory
    that satisfies them; it stands for the operating system in the witnesses.
    File contents are bytes, as in the trait. *)

From Stdlib Require Import Ascii String.
From S2P Require Import Prelude RustStr Utf8 AbsPath.
Import Utf8 AbsPath.

(** [std::io::ErrorKind] and [std::io::Error]: the kind and the text. *)
Inductive ErrorKind := NotFound | InvalidInput | InvalidData | AlreadyExists | OtherKind.

Record io_error := { kind : ErrorKind; io_message : str }.

#[export] Instance ErrorKind_eq_dec : EqDecision ErrorKind.
Proof. solve_decision. Defined.
#[export] Instance io_error_eq_dec : EqDecision io_error.
Proof. solve_decision. Defined.

(** ** State and errors

    An action runs in a state and ends in a state whether it succeeds or not:
    what a failing operation has written stays written. *)
Definition action (S E A : Type) : Type := S -> S * result E A.

#[export] Instance action_ret {S E} : MRet (action S E) := fun A a s => (s, Ok a).

#[export] Instance action_bind {S E} : MBind (action S E) := fun A B f m s =>
  match m s with
  | (s, Ok a) => f a s
  | (s, Err e) => (s, Err e)
  | (s, Crash c) => (s, Crash c)
  end.

Definition act_err {S E A} (e : E) : action S E A := fun s => (s, Err e).

(** A computation that does not touch the state. *)
Definition lift_result {S E A} (r : result E A) : action S E A := fun s => (s, r).

(** A computation that reads the state. *)
Definition query {S E A} (f : S -> result E A) : action S E A := fun s => (s, f s).

Definition act_map_err {S E F A} (f : E -> F) (m : action S E A) : action S F A :=
  fun s => let '(s, r) := m s in (s, map_err f r).

(** ** The trait *)

Record FileMetadata := {
  is_directory : bool;
  is_file : bool;
  is_symlink : bool;
  created_at_ms : Z;
  modified_at_ms : Z;
}.

Record ReadDirectoryEntry := {
  entry_file_name : str;
  entry_is_directory : bool;
  entry_is_file : bool;
}.

(** The options of an operation are its last arguments: [recursive] for
    [create_directory] and [copy], [recursive] and [force] for [remove]. *)
Class ExecutorFileSystem (S : Type) := {
  read_file : str -> S -> result io_error (list N);
  write_file : str -> list N -> action S io_error unit;
  create_directory : str -> bool -> action S io_error unit;
  get_metadata : str -> S -> result io_error FileMetadata;
  read_directory : str -> S -> result io_error (list ReadDirectoryEntry);
  remove : str -> bool -> bool -> action S io_error unit;
  copy : str -> str -> bool -> action S io_error unit;
}.

Definition invalid_utf8 : io_error :=
  {| kind := InvalidData; io_message := lit "invalid utf-8 sequence" |}.

(** The trait's default method: reads a file and decodes it as UTF-8 text. *)
Definition read_file_text {S} `{ExecutorFileSystem S} (path : str) (s : S)
    : result io_error str :=
  bytes ← read_file path s;
  match from_utf8 bytes with
  | Some text => Ok text
  | None => Err invalid_utf8
  end.

(** What the patch code relies on: a successful write is read back, no operation
    changes the contents of another file, and a removed file is gone. The
    non-recursive [remove] and the recursive [create_directory] are the ones used. *)
Class FileSystemLaws (S : Type) `{ExecutorFileSystem S} := {
  write_read : forall p b s s', write_file p b s = (s', Ok tt) -> read_file p s' = Ok b;
  write_frame : forall p q b s s' r, write_file p b s = (s', r) -> q <> p ->
    forall c, read_file q s' = Ok c <-> read_file q s = Ok c;
  create_frame : forall p q s s' r, create_directory p true s = (s', r) ->
    forall c, read_file q s' = Ok c <-> read_file q s = Ok c;
  remove_read : forall p f s s', remove p false f s = (s', Ok tt) ->
    forall c, read_file p s' <> Ok c;
  remove_frame : forall p q f s s' r, remove p false f s = (s', r) -> q <> p ->
    forall c, read_file q s' = Ok c <-> read_file q s = Ok c;
  fs_no_crash : forall p b q f s,
    no_crash (read_file p s) /\ no_crash (get_metadata p s) /\
    no_crash (write_file p b s).2 /\ no_crash (create_directory p q s).2 /\
    no_crash (remove p q f s).2;
}.

(** ** A file system in memory *)

Module MemoryFs.

Inductive node := File (bytes : list N) | Directory.

#[export] Instance node_eq_dec : EqDecision node.
Proof. solve_decision. Defined.

Abbreviation mem := (gmap (list N) node).

Definition io (k : ErrorKind) (m : string) : io_error :=
  {| kind := k; io_message := lit m |}.

Definition not_found : io_error := io NotFound "No such file or directory".
Definition not_a_directory : io_error := io OtherKind "Not a directory".
Definition is_a_directory : io_error := io OtherKind "Is a directory".
Definition not_empty : io_error := io OtherKind "Directory not empty".
Definition exists_already : io_error := io AlreadyExists "File exists".

Definition mem_read (p : str) (s : mem) : result io_error (list N) :=
  match s !! p with
  | Some (File b) => Ok b
  | Some Directory => Err is_a_directory
  | None => Err not_found
  end.

(** The directory a path is in must exist. *)
Definition check_parent (p : str) (s : mem) : result io_error unit :=
  match parent p with
  | None => Err is_a_directory
  | Some d => match s !! d with
              | Some Directory => Ok tt
              | Some (File _) => Err not_a_directory
              | None => Err not_found
              end
  end.

Definition mem_write (p : str) (b : list N) : action mem io_error unit := fun s =>
  match check_parent p s with
  | Ok _ => match s !! p with
            | Some Directory => (s, Err is_a_directory)
            | _ => (<[p := File b]> s, Ok tt)
            end
  | Err e => (s, Err e)
  | Crash c => (s, Crash c)
  end.

(** [create_dir_all] makes the missing directories from the root down. *)
Fixpoint make_all (ps : list str) : action mem io_error unit := fun s =>
  match ps with
  | [] => (s, Ok tt)
  | p :: ps =>
      match s !! p with
      | None => make_all ps (<[p := Directory]> s)
      | Some Directory => make_all ps s
      | Some (File _) => (s, Err not_a_directory)
      end
  end.

(** The prefixes of a list of components, shortest first. *)
Fixpoint ancestors (acc : list Component) (cs : list Component) : list str :=
  match cs with
  | [] => []
  | c :: cs => of_components (acc ++ [c]) :: ancestors (acc ++ [c]) cs
  end.

Definition mem_create (p : str) (recursive : bool) : action mem io_error unit := fun s =>
  if recursive then make_all (ancestors [] (components p)) s
  else match s !! p, check_parent p s with
       | Some _, _ => (s, Err exists_already)
       | None, Ok _ => (<[p := Directory]> s, Ok tt)
       | None, Err e => (s, Err e)
       | None, Crash c => (s, Crash c)
       end.

Definition mem_metadata (p : str) (s : mem) : result io_error FileMetadata :=
  match s !! p with
  | Some n =>
      let dir := match n with Directory => true | File _ => false end in
      Ok {| is_directory := dir; is_file := negb dir; is_symlink := false;
            created_at_ms := 0; modified_at_ms := 0 |}
  | None => Err not_found
  end.

(** The entry a node is of the directory [p], if it is one. *)
Definition entry_of (p : str) (kv : str * node) : option ReadDirectoryEntry :=
  let dir := match kv.2 with Directory => true | File _ => false end in
  match parent kv.1, file_name kv.1 with
  | Some d, Some name =>
      if str_eqb d p
      then Some {| entry_file_name := name; entry_is_directory := dir; entry_is_file := negb dir |}
      else None
  | _, _ => None
  end.

Definition mem_read_directory (p : str) (s : mem) : result io_error (list ReadDirectoryEntry) :=
  match s !! p with
  | Some Directory => Ok (omap (entry_of p) (map_to_list s))
  | Some (File _) => Err not_a_directory
  | None => Err not_found
  end.

Definition below (p q : str) : bool := starts_with (p ++ [SLASH]) q.

Definition mem_remove (p : str) (recursive force : bool) : action mem io_error unit := fun s =>
  match s !! p with
  | None => if force then (s, Ok tt) else (s, Err not_found)
  | Some (File _) => (delete p s, Ok tt)
  | Some Directory =>
      if recursive
      then (filter (fun kv => below p kv.1 = false) (delete p s), Ok tt)
      else if existsb (fun kv => below p kv.1) (map_to_list s)
      then (s, Err not_empty) else (delete p s, Ok tt)
  end.

(** The nodes of the tree at [src], moved to [dst]. *)
Definition copied (src dst : str) (s : mem) : list (str * node) :=
  omap (fun kv => match strip_prefix (src ++ [SLASH]) kv.1 with
                  | Some rest => Some (dst ++ [SLASH] ++ rest, kv.2)
                  | None => None
                  end) (map_to_list s).

Definition mem_copy (src dst : str) (recursive : bool) : action mem io_error unit := fun s =>
  match s !! src with
  | None => (s, Err not_found)
  | Some (File b) => mem_write dst b s
  | Some Directory =>
      if recursive
      then match check_parent dst s with
           | Ok _ => (list_to_map (copied src dst s) ∪ <[dst := Directory]> s, Ok tt)
           | Err e => (s, Err e)
           | Crash c => (s, Crash c)
           end
      else (s, Err is_a_directory)
  end.

#[export] Instance memory_fs : ExecutorFileSystem mem := {
  read_file := mem_read;
  write_file := mem_write;
  create_directory := mem_create;
  get_metadata := mem_metadata;
  read_directory := mem_read_directory;
  remove := mem_remove;
  copy := mem_copy;
}.

Lemma make_all_frame (ps : list str) (q : str) (s s' : mem) (r : result io_error unit) :
  make_all ps s = (s', r) -> forall c, mem_read q s' = Ok c <-> mem_read q s = Ok c.
Proof.
  revert s. induction ps as [|p ps IH]; intros s; simpl; [by intros ?; simplify_eq|].
  destruct (s !! p) as [[b|]|] eqn:E; [by intros ?; simplify_eq|apply IH|].
  intros H c. rewrite (IH _ H). unfold mem_read.
  destruct (decide (p = q)) as [->|Hne].
  - by rewrite lookup_insert_eq, E.
  - by rewrite lookup_insert_ne.
Qed.

Lemma make_all_no_crash (ps : list str) (s : mem) : no_crash (make_all ps s).2.
Proof.
  revert s. induction ps as [|p ps IH]; intros s; simpl; auto with agere.
  destruct (s !! p) as [[]|]; simpl; auto with agere.
Qed.

Lemma check_parent_no_crash (p : str) (s : mem) : no_crash (check_parent p s).
Proof. unfold check_parent. repeat case_match; auto with agere. Qed.

#[export] Instance memory_fs_laws : FileSystemLaws mem.
Proof.
  split; simpl.
  - intros p b s s'. unfold mem_write, mem_read.
    destruct (check_parent p s), (s !! p) as [[]|]; intros; simplify_eq;
      by rewrite lookup_insert_eq.
  - intros p q b s s' r. unfold mem_write, mem_read. intros H Hne c.
    destruct (check_parent p s), (s !! p) as [[]|]; simplify_eq;
      by rewrite ?lookup_insert_ne.
  - intros p q s s' r H c. by eapply make_all_frame.
  - intros p f s s'. unfold mem_remove, mem_read. intros H c.
    destruct (s !! p) as [[b|]|] eqn:E; [| |destruct f]; simplify_eq;
      try (by rewrite lookup_delete_eq); [|by rewrite E].
    case_match; simplify_eq. by rewrite lookup_delete_eq.
  - intros p q f s s' r. unfold mem_remove, mem_read. intros H Hne c.
    destruct (s !! p) as [[]|], f; simplify_eq; rewrite ?lookup_delete_ne by done; try done;
      case_match; simplify_eq; by rewrite ?lookup_delete_ne.
  - intros p b q f s. pose proof (check_parent_no_crash p s) as Hp.
    split_and!.
    + unfold mem_read. repeat case_match; auto with agere.
    + unfold mem_metadata. repeat case_match; auto with agere.
    + unfold mem_write. destruct (check_parent p s); simpl; auto with agere.
      repeat case_match; simpl; auto with agere.
    + unfold mem_create. destruct q; [apply make_all_no_crash|].
      destruct (s !! p), (check_parent p s); simpl; auto with agere.
    + unfold mem_remove. repeat case_match; simpl; auto with agere.
Qed.

End MemoryFs.
