(* ===== verification/PatchParser.v ===== *)
(** * The patch parser: src/apply-patch/src/parser.rs

    Data types of the patch language, the boundary checks of the three parse
    modes, the hunk and chunk parsers and the driver loop. [Module PatchParser]
    holds the model; its theorems follow in PatchParserFacts.v. *)

From Stdlib Require Import Ascii String.
From S2P Require Import Prelude RustStr.

Module PatchParser.

Definition BEGIN_PATCH_MARKER : str := Eval vm_compute in lit "*** Begin Patch".
Definition END_PATCH_MARKER : str := Eval vm_compute in lit "*** End Patch".
Definition ADD_FILE_MARKER : str := Eval vm_compute in lit "*** Add File: ".
Definition DELETE_FILE_MARKER : str := Eval vm_compute in lit "*** Delete File: ".
Definition UPDATE_FILE_MARKER : str := Eval vm_compute in lit "*** Update File: ".
Definition MOVE_TO_MARKER : str := Eval vm_compute in lit "*** Move to: ".
Definition EOF_MARKER : str := Eval vm_compute in lit "*** End of File".
Definition CHANGE_CONTEXT_MARKER : str := Eval vm_compute in lit "@@ ".
Definition EMPTY_CHANGE_CONTEXT_MARKER : str := Eval vm_compute in lit "@@".

Definition PARSE_IN_STRICT_MODE : bool := false.

(** The quote of the format strings, and the three heredoc openers the lenient
    mode accepts: plain, single-quoted and double-quoted [EOF] (34 is the double
    quote). *)
Definition HEREDOC_PLAIN : str := Eval vm_compute in lit "<<EOF".
Definition HEREDOC_SINGLE : str := Eval vm_compute in lit "<<'EOF'".
Definition HEREDOC_DOUBLE : str :=
  Eval vm_compute in lit "<<" ++ [34%N] ++ lit "EOF" ++ [34%N].

Inductive ParseError :=
| InvalidPatchError (message : str)
| InvalidHunkError (message : str) (line_number : nat).

Record UpdateFileChunk := {
  change_context : option str;
  old_lines : list str;
  new_lines : list str;
  is_end_of_file : bool;
}.

Inductive Hunk :=
| AddFile (path : str) (contents : str)
| DeleteFile (path : str)
| UpdateFile (path : str) (move_path : option str) (chunks : list UpdateFileChunk).

(** [Hunk::path]: the move destination for rename hunks. *)
Definition hunk_path (h : Hunk) : str :=
  match h with
  | AddFile path _ => path
  | DeleteFile path => path
  | UpdateFile _ (Some path) _ => path
  | UpdateFile path None _ => path
  end.

Record ApplyPatchArgs := {
  patch : str;
  hunks : list Hunk;
  workdir : option str;
}.

Inductive ParseMode := Strict | Lenient | Streaming.

#[export] Instance ParseError_eq_dec : EqDecision ParseError.
Proof. solve_decision. Defined.
#[export] Instance UpdateFileChunk_eq_dec : EqDecision UpdateFileChunk.
Proof. solve_decision. Defined.
#[export] Instance Hunk_eq_dec : EqDecision Hunk.
Proof. solve_decision. Defined.
#[export] Instance ApplyPatchArgs_eq_dec : EqDecision ApplyPatchArgs.
Proof. solve_decision. Defined.

(** ** Boundaries *)

Definition first_line_error : ParseError :=
  InvalidPatchError (lit "The first line of the patch must be '*** Begin Patch'").
Definition last_line_error : ParseError :=
  InvalidPatchError (lit "The last line of the patch must be '*** End Patch'").

Definition check_start_and_end_lines_strict (first_line last_line : option str)
    : result ParseError unit :=
  match trim <$> first_line, trim <$> last_line with
  | Some first, Some last =>
      if str_eqb first BEGIN_PATCH_MARKER && str_eqb last END_PATCH_MARKER then Ok tt
      else if negb (str_eqb first BEGIN_PATCH_MARKER) then Err first_line_error
      else Err last_line_error
  | Some first, None =>
      if negb (str_eqb first BEGIN_PATCH_MARKER) then Err first_line_error
      else Err last_line_error
  | None, _ => Err last_line_error
  end.

(** Both components are slices of the argument: the patch and its hunk lines. *)
Definition check_patch_boundaries_strict (lines : list str)
    : result ParseError (list str * list str) :=
  _ ← check_start_and_end_lines_strict (head lines) (last lines);
  body ← or_panic (slice 1 (length lines - 1) lines);
  Ok (lines, body).

Definition is_heredoc_start (first : str) : bool :=
  str_eqb first HEREDOC_PLAIN || str_eqb first HEREDOC_SINGLE
  || str_eqb first HEREDOC_DOUBLE.

Definition check_patch_boundaries_lenient (original_lines : list str)
    : result ParseError (list str * list str) :=
  match check_patch_boundaries_strict original_lines with
  | Err original_parse_error =>
      match original_lines, last original_lines with
      | first :: _ :: _, Some last =>
          if is_heredoc_start first && ends_with (lit "EOF") last
             && (4 <=? length original_lines)
          then inner_lines ← or_panic (slice 1 (length original_lines - 1) original_lines);
               check_patch_boundaries_strict inner_lines
          else Err original_parse_error
      | _, _ => Err original_parse_error
      end
  | lines => lines
  end.

Definition check_patch_boundaries_streaming (original_lines : list str)
    : result ParseError (list str * list str) :=
  match original_lines with
  | first :: _ =>
      if str_eqb (trim first) BEGIN_PATCH_MARKER then
        body_lines ←
          (if match last original_lines with
              | Some line => str_eqb (trim line) END_PATCH_MARKER
              | None => false
              end
           then or_panic (slice 1 (length original_lines - 1) original_lines)
           else or_panic (slice_from 1 original_lines));
        Ok (original_lines, body_lines)
      else check_patch_boundaries_strict original_lines
  | [] => check_patch_boundaries_strict original_lines
  end.

(** ** Chunks *)

Definition no_lines_message : str := lit "Update hunk does not contain any lines".

Definition push_old (l : str) (c : UpdateFileChunk) : UpdateFileChunk :=
  {| change_context := change_context c; old_lines := old_lines c ++ [l];
     new_lines := new_lines c; is_end_of_file := is_end_of_file c |}.
Definition push_new (l : str) (c : UpdateFileChunk) : UpdateFileChunk :=
  {| change_context := change_context c; old_lines := old_lines c;
     new_lines := new_lines c ++ [l]; is_end_of_file := is_end_of_file c |}.
Definition set_end_of_file (c : UpdateFileChunk) : UpdateFileChunk :=
  {| change_context := change_context c; old_lines := old_lines c;
     new_lines := new_lines c; is_end_of_file := true |}.

(** The [for] loop of [parse_update_file_chunk] over the lines after the
    context marker; [parsed_lines] counts the lines it has taken. *)
Fixpoint chunk_lines (lines : list str) (line_number : nat)
    (chunk : UpdateFileChunk) (parsed_lines : nat)
    : result ParseError (UpdateFileChunk * nat) :=
  match lines with
  | [] => Ok (chunk, parsed_lines)
  | line :: lines =>
      if str_eqb line EOF_MARKER then
        if parsed_lines =? 0
        then Err (InvalidHunkError no_lines_message (line_number + 1))
        else Ok (set_end_of_file chunk, parsed_lines + 1)
      else
        match line with
        | [] => chunk_lines lines line_number (push_new [] (push_old [] chunk))
                  (parsed_lines + 1)
        | c :: text =>
            if N.eqb c (ch " ") then
              chunk_lines lines line_number (push_new text (push_old text chunk))
                (parsed_lines + 1)
            else if N.eqb c (ch "+") then
              chunk_lines lines line_number (push_new text chunk) (parsed_lines + 1)
            else if N.eqb c (ch "-") then
              chunk_lines lines line_number (push_old text chunk) (parsed_lines + 1)
            else if parsed_lines =? 0 then
              Err (InvalidHunkError
                     (lit "Unexpected line found in update hunk: '" ++ line ++
                      lit "'. Every line should start with ' ' (context line), '+' (added line), or '-' (removed line)")
                     (line_number + 1))
            else Ok (chunk, parsed_lines)
        end
  end.

(** The context marker of a chunk: the context, and the lines it takes. *)
Definition chunk_header (line : str) (line_number : nat) (allow_missing_context : bool)
    : result ParseError (option str * nat) :=
  if str_eqb line EMPTY_CHANGE_CONTEXT_MARKER then Ok (None, 1)
  else match strip_prefix CHANGE_CONTEXT_MARKER line with
       | Some context => Ok (Some context, 1)
       | None =>
           if negb allow_missing_context then
             Err (InvalidHunkError
                    (lit "Expected update hunk to start with a @@ context marker, got: '"
                     ++ line ++ lit "'") line_number)
           else Ok (None, 0)
       end.

Definition parse_update_file_chunk (lines : list str) (line_number : nat)
    (allow_missing_context : bool) : result ParseError (UpdateFileChunk * nat) :=
  match lines with
  | [] => Err (InvalidHunkError no_lines_message line_number)
  | line0 :: _ =>
      '(ctx, start_index) ← chunk_header line0 line_number allow_missing_context;
      if length lines <=? start_index then
        Err (InvalidHunkError no_lines_message (line_number + 1))
      else
        let chunk := {| change_context := ctx; old_lines := []; new_lines := [];
                        is_end_of_file := false |} in
        body ← or_panic (slice_from start_index lines);
        '(chunk, parsed_lines) ← chunk_lines body line_number chunk 0;
        Ok (chunk, parsed_lines + start_index)
  end.

(** ** Hunks *)

(** The [for add_line in &lines[1..]] loop of an Add File hunk. *)
Fixpoint add_file_lines (lines : list str) (contents : str) (parsed_lines : nat)
    : str * nat :=
  match lines with
  | [] => (contents, parsed_lines)
  | add_line :: lines =>
      match strip_prefix [ch "+"] add_line with
      | Some line_to_add =>
          add_file_lines lines (contents ++ line_to_add ++ [NL]) (parsed_lines + 1)
      | None => (contents, parsed_lines)
      end
  end.

(** The [while] loop over the chunks of an Update File hunk. Every turn takes a
    line, so the number of lines is fuel enough. *)
Fixpoint update_file_chunks (fuel : nat) (remaining_lines : list str)
    (line_number : nat) (allow_incomplete : bool) (parsed_lines : nat)
    (chunks : list UpdateFileChunk) : result ParseError (list UpdateFileChunk * nat) :=
  match fuel with
  | 0 => Crash OutOfFuel
  | S fuel =>
      match remaining_lines with
      | [] => Ok (chunks, parsed_lines)
      | line :: rest =>
          if str_eqb (trim line) [] then
            update_file_chunks fuel rest line_number allow_incomplete
              (parsed_lines + 1) chunks
          else if starts_with [ch "*"] line then Ok (chunks, parsed_lines)
          else if allow_incomplete && str_eqb line [ch "@"] then Ok (chunks, parsed_lines)
          else
            match parse_update_file_chunk remaining_lines (line_number + parsed_lines)
                    (bool_decide (chunks = [])) with
            | Ok (chunk, taken) =>
                remaining ← or_panic (slice_from taken remaining_lines);
                update_file_chunks fuel remaining line_number allow_incomplete
                  (parsed_lines + taken) (chunks ++ [chunk])
            | Err (InvalidHunkError m n) =>
                if allow_incomplete && negb (bool_decide (chunks = []))
                then Ok (chunks, parsed_lines)
                else Err (InvalidHunkError m n)
            | Err e => Err e
            | Crash c => Crash c
            end
      end
  end.

(** [first_line.strip_prefix(..)] chooses the kind of hunk; [lines] is not empty
    where it is called. *)
Definition parse_one_hunk (lines : list str) (line_number : nat) (allow_incomplete : bool)
    : result ParseError (Hunk * nat) :=
  match lines with
  | [] => Crash Panicked
  | line0 :: rest =>
      let first_line := trim line0 in
      match strip_prefix ADD_FILE_MARKER first_line with
      | Some path =>
          let '(contents, parsed_lines) := add_file_lines rest [] 1 in
          Ok (AddFile path contents, parsed_lines)
      | None =>
      match strip_prefix DELETE_FILE_MARKER first_line with
      | Some path => Ok (DeleteFile path, 1)
      | None =>
      match strip_prefix UPDATE_FILE_MARKER first_line with
      | Some path =>
          let move_path := match rest with
                           | x :: _ => strip_prefix MOVE_TO_MARKER x
                           | [] => None
                           end in
          let remaining_lines := match move_path with
                                 | Some _ => tail rest
                                 | None => rest
                                 end in
          let parsed_lines := match move_path with Some _ => 2 | None => 1 end in
          '(chunks, parsed_lines) ←
            update_file_chunks (S (length remaining_lines)) remaining_lines line_number
              allow_incomplete parsed_lines [];
          if bool_decide (chunks = []) then
            Err (InvalidHunkError
                   (lit "Update file hunk for path '" ++ path ++ lit "' is empty") line_number)
          else Ok (UpdateFile path move_path chunks, parsed_lines)
      | None =>
          Err (InvalidHunkError
                 (lit "'" ++ first_line ++
                  lit "' is not a valid hunk header. Valid hunk headers: '*** Add File: {path}', '*** Delete File: {path}', '*** Update File: {path}'")
                 line_number)
      end end end
  end.

(** ** The driver *)

(** The [while] loop of [parse_patch_text]. *)
Fixpoint parse_hunks (fuel : nat) (remaining_lines : list str) (line_number : nat)
    (allow_incomplete : bool) (hunks : list Hunk) : result ParseError (list Hunk) :=
  match fuel with
  | 0 => Crash OutOfFuel
  | S fuel =>
      match remaining_lines with
      | [] => Ok hunks
      | _ :: _ =>
          '(hunk, hunk_lines) ← parse_one_hunk remaining_lines line_number allow_incomplete;
          remaining ← or_panic (slice_from hunk_lines remaining_lines);
          parse_hunks fuel remaining (line_number + hunk_lines) allow_incomplete
            (hunks ++ [hunk])
      end
  end.

Definition parse_patch_text (patch : str) (mode : ParseMode)
    : result ParseError ApplyPatchArgs :=
  let lines := lines (trim patch) in
  '(patch_lines, hunk_lines) ←
    match mode with
    | Strict => check_patch_boundaries_strict lines
    | Lenient => check_patch_boundaries_lenient lines
    | Streaming => check_patch_boundaries_streaming lines
    end;
  let allow_incomplete := match mode with Streaming => true | _ => false end in
  hunks ← parse_hunks (S (length hunk_lines)) hunk_lines 2 allow_incomplete [];
  Ok {| patch := join [NL] patch_lines; hunks := hunks; workdir := None |}.

Definition parse_patch (patch : str) : result ParseError ApplyPatchArgs :=
  let mode := if PARSE_IN_STRICT_MODE then Strict else Lenient in
  parse_patch_text patch mode.

Definition parse_patch_streaming (patch : str) : result ParseError ApplyPatchArgs :=
  parse_patch_text patch Streaming.

#[global] Arguments parse_update_file_chunk : simpl never.
#[global] Arguments parse_one_hunk : simpl never.

End PatchParser.
