(* ===== verification/PatchParserFacts.v ===== *)
(** * Facts about the patch parser

    The parser is total: no slice is out of range, no loop runs out of fuel. *)

From Stdlib Require Import Ascii String.
From S2P Require Import Prelude RustStr PatchParser.
Import PatchParser.

Module PatchParserFacts.

(** ** Progress: how many lines each parser takes *)

Lemma chunk_lines_taken (ls : list str) (n : nat) (c c' : UpdateFileChunk) (p p' : nat) :
  chunk_lines ls n c p = Ok (c', p') ->
  p <= p' <= p + length ls /\ (ls <> [] -> 0 < p').
Proof.
  revert c p. induction ls as [|l ls IH]; simpl; intros c p H;
    [simplify_eq; split; [lia|done]|].
  repeat case_match; simplify_eq; bool_to_prop;
    try (apply IH in H as [? ?]); split; intros; lia.
Qed.

Lemma chunk_lines_no_crash (ls : list str) (n : nat) (c : UpdateFileChunk) (p : nat) :
  no_crash (chunk_lines ls n c p).
Proof.
  revert c p. induction ls as [|l ls IH]; simpl; intros c p; auto with agere.
  repeat case_match; auto with agere.
Qed.

Lemma chunk_header_start (l : str) (n : nat) (b : bool) (ctx : option str) (i : nat) :
  chunk_header l n b = Ok (ctx, i) -> i <= 1.
Proof. unfold chunk_header. intros H. split_cases; lia. Qed.

Lemma parse_update_file_chunk_taken (ls : list str) (n : nat) (b : bool)
    (c : UpdateFileChunk) (k : nat) :
  parse_update_file_chunk ls n b = Ok (c, k) -> 1 <= k <= length ls.
Proof.
  unfold parse_update_file_chunk. destruct ls as [|l ls]; [done|]. intros H.
  apply bind_Ok in H as ([ctx i] & Hh & H). case_match eqn:Hlen; [done|].
  bool_to_prop. rewrite slice_from_in_range in H by lia. simpl in H.
  apply bind_Ok in H as ([c' p] & Hc & H). simplify_eq.
  apply chunk_lines_taken in Hc as [Hle Hpos]. rewrite length_drop in Hle.
  assert (drop i (l :: ls) <> []) as Hne%Hpos.
  { intros E%(f_equal length). rewrite length_drop in E. simpl in *. lia. }
  lia.
Qed.

Lemma parse_update_file_chunk_no_crash (ls : list str) (n : nat) (b : bool) :
  no_crash (parse_update_file_chunk ls n b).
Proof.
  unfold parse_update_file_chunk. destruct ls as [|l ls]; auto with agere.
  apply no_crash_bind; [unfold chunk_header; repeat case_match; auto with agere|].
  intros [ctx i] _. case_match eqn:Hlen; auto with agere.
  bool_to_prop. rewrite slice_from_in_range by lia. simpl.
  apply no_crash_bind; [apply chunk_lines_no_crash|]. intros [c p] _; auto with agere.
Qed.

Lemma update_file_chunks_total (fuel : nat) (ls : list str) (n : nat) (b : bool)
    (p : nat) (cs : list UpdateFileChunk) :
  length ls < fuel ->
  no_crash (update_file_chunks fuel ls n b p cs) /\
  forall cs' p', update_file_chunks fuel ls n b p cs = Ok (cs', p') ->
    p <= p' <= p + length ls.
Proof.
  revert ls p cs. induction fuel as [|fuel IH]; intros ls p cs Hf; [lia|].
  destruct ls as [|l ls]; simpl in *; [split; auto with agere; intros; simplify_eq; lia|].
  case_match; [destruct (IH ls (p + 1) cs) as [? Hb]; [lia|]; split; [done|];
                intros ? ? ?%Hb; lia|].
  repeat (case_match; [by split; [auto with agere|intros; simplify_eq; lia]|]).
  destruct (parse_update_file_chunk (l :: ls) _ _) as [[c k]|[m|m k]|cr] eqn:E.
  - apply parse_update_file_chunk_taken in E as Hk. simpl in Hk.
    rewrite slice_from_in_range by (simpl; lia). simpl.
    destruct (IH (drop k (l :: ls)) (p + k) (cs ++ [c])) as [? Hb];
      [rewrite length_drop; simpl; lia|].
    split; [done|]. intros ? ? ?%Hb. rewrite length_drop in *. simpl in *. lia.
  - by split; [auto with agere|].
  - case_match; split; auto with agere; intros; simplify_eq; lia.
  - by apply parse_update_file_chunk_no_crash in E.
Qed.

Lemma add_file_lines_taken (ls : list str) (s s' : str) (p p' : nat) :
  add_file_lines ls s p = (s', p') -> p <= p' <= p + length ls.
Proof.
  revert s p. induction ls as [|l ls IH]; simpl; intros s p H; [simplify_eq; lia|].
  case_match; [apply IH in H|simplify_eq]; lia.
Qed.

Lemma parse_one_hunk_total (l : str) (ls : list str) (n : nat) (b : bool) :
  no_crash (parse_one_hunk (l :: ls) n b) /\
  forall h k, parse_one_hunk (l :: ls) n b = Ok (h, k) -> 1 <= k <= length (l :: ls).
Proof.
  unfold parse_one_hunk. case_match; [|case_match; [|case_match]].
  - destruct (add_file_lines ls [] 1) as [s k] eqn:E. apply add_file_lines_taken in E.
    split; auto with agere. intros; simplify_eq/=. lia.
  - split; auto with agere. intros; simplify_eq/=. lia.
  - set (mv := match ls with [] => None | x :: _ => _ end).
    set (rl := match mv with Some _ => tail ls | None => ls end).
    set (q := match mv with Some _ => 2 | None => 1 end).
    assert (1 <= q /\ q + length rl <= S (length ls)) as [Hq Hrl].
    { subst rl q. destruct mv eqn:Emv; [|lia]. destruct ls; [done|simpl; lia]. }
    destruct (update_file_chunks_total (S (length rl)) rl n b q []) as [Hnc Hb]; [lia|].
    split.
    + apply no_crash_bind; [done|]. intros [cs k] _. case_match; auto with agere.
    + intros h k ([cs k'] & Hok & Hk)%bind_Ok. apply Hb in Hok.
      case_match; simplify_eq/=. lia.
  - by split; auto with agere.
Qed.

Lemma parse_hunks_no_crash (fuel : nat) (ls : list str) (n : nat) (b : bool)
    (hs : list Hunk) :
  length ls < fuel -> no_crash (parse_hunks fuel ls n b hs).
Proof.
  revert ls n hs. induction fuel as [|fuel IH]; intros ls n hs Hf; [lia|].
  destruct ls as [|l ls]; [apply no_crash_Ok|].
  destruct (parse_one_hunk_total l ls n b) as [Hnc Hb].
  simpl. apply no_crash_bind; [done|]. intros [h k] Hk%Hb.
  rewrite slice_from_in_range by lia. simpl.
  apply IH. rewrite length_drop. simpl in *. lia.
Qed.

(** ** Boundaries *)

Lemma markers_differ : BEGIN_PATCH_MARKER <> END_PATCH_MARKER.
Proof. discriminate. Qed.

Lemma strict_boundaries_Ok (ls out body : list str) :
  check_patch_boundaries_strict ls = Ok (out, body) <->
  exists first mid last, ls = first :: mid ++ [last] /\ out = ls /\ body = mid /\
    trim first = BEGIN_PATCH_MARKER /\ trim last = END_PATCH_MARKER.
Proof.
  unfold check_patch_boundaries_strict. split.
  - intros (u & Hc & H)%bind_Ok. unfold check_start_and_end_lines_strict in Hc.
    destruct ls as [|f ls]; [done|].
    destruct ls as [|y ls _] using rev_ind.
    { simpl in H. split_cases. }
    rewrite slice_middle in H. rewrite app_comm_cons, last_snoc in Hc. simpl in Hc.
    split_cases. bool_to_prop. rewrite !str_eqb_eq in *. eauto 10.
  - intros (f & mid & y & -> & -> & -> & Hf & Hl).
    rewrite slice_middle, app_comm_cons, last_snoc.
    unfold check_start_and_end_lines_strict. simpl. by rewrite Hf, Hl, !str_eqb_refl.
Qed.

Lemma strict_boundaries_no_crash (ls : list str) :
  no_crash (check_patch_boundaries_strict ls).
Proof.
  unfold check_patch_boundaries_strict. apply no_crash_bind.
  { unfold check_start_and_end_lines_strict. repeat case_match; auto with agere. }
  intros [] Hc. unfold slice. unfold check_start_and_end_lines_strict in Hc.
  destruct ls as [|f [|y ls]]; [done| |].
  - simpl in Hc. split_cases. bool_to_prop. rewrite !str_eqb_eq in *.
    pose proof markers_differ. congruence.
  - simpl. rewrite (proj2 (Nat.leb_le _ _)) by lia. simpl. auto with agere.
Qed.

Lemma lenient_boundaries_no_crash (ls : list str) :
  no_crash (check_patch_boundaries_lenient ls).
Proof.
  unfold check_patch_boundaries_lenient.
  destruct (check_patch_boundaries_strict ls) eqn:E; auto with agere.
  - case_match; auto with agere. do 2 (case_match; auto with agere).
    case_match; auto with agere. bool_to_prop. subst.
    rewrite slice_in_range by (simpl in *; lia). simpl.
    apply strict_boundaries_no_crash.
  - by apply strict_boundaries_no_crash in E.
Qed.

Lemma streaming_boundaries_no_crash (ls : list str) :
  no_crash (check_patch_boundaries_streaming ls).
Proof.
  unfold check_patch_boundaries_streaming.
  destruct ls as [|f ls]; [apply strict_boundaries_no_crash|].
  case_match eqn:Hb; [|apply strict_boundaries_no_crash].
  apply no_crash_bind; [|auto with agere].
  case_match eqn:El; [|rewrite slice_from_in_range by (simpl; lia); simpl; auto with agere].
  destruct ls as [|y ls].
  - simpl in El. apply str_eqb_eq in Hb. apply str_eqb_eq in El.
    pose proof markers_differ. congruence.
  - rewrite slice_in_range by (simpl; lia). simpl. auto with agere.
Qed.

Lemma parse_patch_text_no_crash (p : str) (mode : ParseMode) :
  no_crash (parse_patch_text p mode).
Proof.
  unfold parse_patch_text. apply no_crash_bind.
  - destruct mode; auto using strict_boundaries_no_crash, lenient_boundaries_no_crash,
      streaming_boundaries_no_crash.
  - intros [pl hl] _. apply no_crash_bind; [|auto with agere].
    apply parse_hunks_no_crash. lia.
Qed.

(** C30: parsing a patch, in any of the three modes, always returns a value of its
    result type, a list of hunks or an error: no slice or index is out of range and
    no loop runs for ever. *)
Theorem parse_patch_text_total (p : str) (mode : ParseMode) :
  (exists a, parse_patch_text p mode = Ok a) \/ (exists e, parse_patch_text p mode = Err e).
Proof. apply no_crash_cases, parse_patch_text_no_crash. Qed.

(** ** The modes agree on complete patches *)

(** A line that is a single at sign is what streaming mode stops at: it is never
    the start of a chunk. *)
Lemma lone_at_not_chunk (ls : list str) (n : nat) (b : bool) (r : UpdateFileChunk * nat) :
  parse_update_file_chunk ([ch "@"] :: ls) n b <> Ok r.
Proof. by destruct b. Qed.

Lemma update_file_chunks_incomplete (fuel : nat) (ls : list str) (n p : nat)
    (cs : list UpdateFileChunk) (r : list UpdateFileChunk * nat) :
  update_file_chunks fuel ls n false p cs = Ok r ->
  update_file_chunks fuel ls n true p cs = Ok r.
Proof.
  revert ls p cs. induction fuel as [|fuel IH]; intros ls p cs; [done|].
  destruct ls as [|l ls]; [done|]. simpl. repeat (case_match; [by auto|]).
  destruct (str_eqb l [ch "@"]) eqn:El.
  - apply str_eqb_eq in El as ->. intros Hp.
    destruct (parse_update_file_chunk _ _ _) as [[c k]|[|]|] eqn:E; try done.
    by apply lone_at_not_chunk in E.
  - destruct (parse_update_file_chunk _ _ _) as [[c k]|[|]|]; try done.
    intros (rl & Hrl & Hr)%bind_Ok. rewrite Hrl. simpl. auto.
Qed.

Lemma parse_one_hunk_incomplete (ls : list str) (n : nat) (r : Hunk * nat) :
  parse_one_hunk ls n false = Ok r -> parse_one_hunk ls n true = Ok r.
Proof.
  unfold parse_one_hunk. repeat (case_match; try done).
  all: intros (x & Hx%update_file_chunks_incomplete & Hr)%bind_Ok; by rewrite Hx.
Qed.

Lemma parse_hunks_incomplete (fuel : nat) (ls : list str) (n : nat) (hs r : list Hunk) :
  parse_hunks fuel ls n false hs = Ok r -> parse_hunks fuel ls n true hs = Ok r.
Proof.
  revert ls n hs. induction fuel as [|fuel IH]; intros ls n hs; [done|].
  destruct ls as [|l ls]; [done|]. simpl.
  intros ([h k] & Hh%parse_one_hunk_incomplete & (rl & Hrl & Hr)%bind_Ok)%bind_Ok.
  rewrite Hh. simpl. rewrite Hrl. simpl. auto.
Qed.

(** A patch that the strict mode accepts is read the same way by the lenient
    mode (which applies patches) and by the streaming mode (which reports
    progress): the extra tolerance of these modes never changes the meaning of a
    complete patch. *)
Theorem strict_parse_agrees (p : str) (a : ApplyPatchArgs) (mode : ParseMode) :
  parse_patch_text p Strict = Ok a -> parse_patch_text p mode = Ok a.
Proof.
  destruct mode; [done|..]; unfold parse_patch_text.
  - intros ([pl hl] & Hb & H)%bind_Ok.
    unfold check_patch_boundaries_lenient. by rewrite Hb.
  - intros ([pl hl] & Hb & (hs & Hhs%parse_hunks_incomplete & H)%bind_Ok)%bind_Ok.
    apply strict_boundaries_Ok in Hb as (f & mid & y & -> & -> & -> & Hf & Hy).
    unfold check_patch_boundaries_streaming. rewrite Hf, str_eqb_refl.
    rewrite slice_middle, app_comm_cons, last_snoc, Hy, str_eqb_refl.
    cbn [or_panic mbind result_bind]. by rewrite Hhs.
Qed.

(** Lenient mode reads a patch wrapped in a heredoc (any of the three
    openers) as the patch inside it. *)
Theorem lenient_heredoc (p opener : str) (a : ApplyPatchArgs) :
  is_heredoc_start opener = true ->
  parse_patch_text p Strict = Ok a ->
  parse_patch (opener ++ [NL] ++ trim p ++ [NL] ++ lit "EOF") = Ok a.
Proof.
  intros Ho. unfold parse_patch.
  change (if PARSE_IN_STRICT_MODE then Strict else Lenient) with Lenient.
  unfold parse_patch_text.
  intros ([pl hl] & Hb & H)%bind_Ok.
  apply strict_boundaries_Ok in Hb as Hsh. destruct Hsh as (f & mid & y & E & _).
  assert (exists c, last (trim p) = Some c) as (c & Hc).
  { destruct (last (trim p)) eqn:El; [eauto|]. apply last_None in El. by rewrite El in E. }
  assert (is_whitespace c = false) as Hws by by apply (trim_is_trimmed p).
  assert (c <> NL /\ c <> CR) as [Hn Hr] by (split; intros ->; done).
  assert (bool_decide (clean_line opener) = true /\ trim opener <> BEGIN_PATCH_MARKER
          /\ exists o, head opener = Some o /\ is_whitespace o = false) as (Hcl & Hob & o & Hoh & How).
  { unfold is_heredoc_start in Ho. rewrite !orb_true_iff, !str_eqb_eq in Ho.
    destruct Ho as [[->| ->]| ->]; split_and!; try done; by eexists. }
  apply bool_decide_eq_true in Hcl.
  rewrite trim_trimmed.
  2: { split.
       - destruct opener; [done|]. simpl in *. intros; by simplify_eq.
       - intros d. rewrite !last_app. simpl. intros; by simplify_eq. }
  simpl ([NL] ++ _). rewrite lines_cons, (lines_app (trim p) _ c) by done.
  change (lines (lit "EOF")) with [lit "EOF"]. rewrite E in *.
  set (ls := opener :: (f :: mid ++ [y]) ++ [lit "EOF"]).
  assert (check_patch_boundaries_strict ls = Err first_line_error) as Hst.
  { unfold check_patch_boundaries_strict, check_start_and_end_lines_strict.
    unfold ls. rewrite (app_comm_cons _ _ opener), last_snoc. simpl.
    apply str_eqb_neq in Hob. by rewrite Hob. }
  unfold check_patch_boundaries_lenient. rewrite Hst.
  assert (last ls = Some (lit "EOF")) as Hlast
    by (unfold ls; rewrite (app_comm_cons _ _ opener); apply last_snoc).
  assert (slice 1 (length ls - 1) ls = Some (f :: mid ++ [y])) as Hsl by apply slice_middle.
  assert ((4 <=? length ls) = true) as Hlen.
  { apply Nat.leb_le. unfold ls. simpl. rewrite !length_app. simpl. lia. }
  assert (exists u v, ls = opener :: u :: v) as (u & v & Els) by (do 2 eexists; reflexivity).
  rewrite Hsl, Hlen, Els. rewrite Els in Hlast. rewrite Hlast, Ho.
  change (ends_with (lit "EOF") (lit "EOF")) with true.
  cbn [andb or_panic mbind result_bind]. by rewrite Hb.
Qed.

(** A patch with white space around it. *)
Definition sample_patch : str :=
  [NL] ++ join [NL] [lit "*** Begin Patch"; lit "*** Delete File: c"; lit "*** End Patch"] ++ [NL].

Definition sample_args : ApplyPatchArgs :=
  {| patch := trim sample_patch; hunks := [DeleteFile (lit "c")]; workdir := None |}.

Lemma strict_parse_agrees_witness :
  parse_patch_text sample_patch Strict = Ok sample_args /\
  parse_patch_text sample_patch Streaming = Ok sample_args.
Proof.
  assert (parse_patch_text sample_patch Strict = Ok sample_args) as H by (vm_compute; reflexivity).
  split; [exact H|]. exact (strict_parse_agrees sample_patch sample_args Streaming H).
Defined.

Lemma lenient_heredoc_witness :
  parse_patch (lit "<<EOF" ++ [NL] ++ trim sample_patch ++ [NL] ++ lit "EOF") = Ok sample_args.
Proof. apply (lenient_heredoc sample_patch (lit "<<EOF") sample_args); vm_compute; reflexivity. Defined.

End PatchParserFacts.
