(* ===== verification/PatchRender.v ===== *)
(** * A printer for patches, and the round trip through the parser

    The grammar at the head of src/apply-patch/src/parser.rs is a context-free
    description of patch texts. [render_patch] prints hunks by that grammar, and
    the theorem says that the parser reads back exactly the hunks that were
    printed, in every parse mode. *)

From Stdlib Require Import Ascii String.
From S2P Require Import Prelude RustStr PatchParser PatchParserFacts.
Import PatchParser PatchParserFacts.

Module PatchRender.

(** ** The printer *)

Definition unlines (ls : list str) : str := concat (map (fun l => l ++ [NL]) ls).

Definition render_chunk (c : UpdateFileChunk) : list str :=
  (match change_context c with
   | None => EMPTY_CHANGE_CONTEXT_MARKER
   | Some ctx => CHANGE_CONTEXT_MARKER ++ ctx
   end) :: map (cons (ch "-")) (old_lines c) ++ map (cons (ch "+")) (new_lines c)
  ++ (if is_end_of_file c then [EOF_MARKER] else []).

Definition render_hunk (h : Hunk) : list str :=
  match h with
  | AddFile path contents =>
      (ADD_FILE_MARKER ++ path) :: map (cons (ch "+")) (lines contents)
  | DeleteFile path => [DELETE_FILE_MARKER ++ path]
  | UpdateFile path move_path chunks =>
      (UPDATE_FILE_MARKER ++ path)
      :: (match move_path with Some m => [MOVE_TO_MARKER ++ m] | None => [] end)
      ++ concat (map render_chunk chunks)
  end.

Definition render_patch (hs : list Hunk) : str :=
  join [NL] (BEGIN_PATCH_MARKER :: concat (map render_hunk hs) ++ [END_PATCH_MARKER]).

(** ** The hunks the grammar can express *)

(** A file name stands at the end of a header line, which the parser trims. *)
Definition wf_path (p : str) : Prop :=
  (NL ∉ p) /\ exists c, last p = Some c /\ is_whitespace c = false.

Definition wf_chunk (c : UpdateFileChunk) : Prop :=
  (forall ctx, change_context c = Some ctx -> clean_line ctx) /\
  Forall clean_line (old_lines c) /\ Forall clean_line (new_lines c) /\
  (old_lines c <> [] \/ new_lines c <> []).

Definition wf_hunk (h : Hunk) : Prop :=
  match h with
  | AddFile path contents =>
      wf_path path /\ Forall clean_line (lines contents)
      /\ unlines (lines contents) = contents
  | DeleteFile path => wf_path path
  | UpdateFile path move_path chunks =>
      wf_path path /\ (forall m, move_path = Some m -> clean_line m)
      /\ Forall wf_chunk chunks /\ chunks <> []
  end.

(** ** Chunks *)

Definition extend_chunk (c : UpdateFileChunk) (old new : list str) : UpdateFileChunk :=
  {| change_context := change_context c; old_lines := old_lines c ++ old;
     new_lines := new_lines c ++ new; is_end_of_file := is_end_of_file c |}.

Lemma chunk_lines_minus (o : str) (ls : list str) (n : nat) (c : UpdateFileChunk) (p : nat) :
  chunk_lines ((ch "-" :: o) :: ls) n c p = chunk_lines ls n (push_old o c) (p + 1).
Proof. reflexivity. Qed.

Lemma chunk_lines_plus (o : str) (ls : list str) (n : nat) (c : UpdateFileChunk) (p : nat) :
  chunk_lines ((ch "+" :: o) :: ls) n c p = chunk_lines ls n (push_new o c) (p + 1).
Proof. reflexivity. Qed.

Lemma chunk_lines_old (old ls : list str) (n : nat) (c : UpdateFileChunk) (p : nat) :
  chunk_lines (map (cons (ch "-")) old ++ ls) n c p
  = chunk_lines ls n (extend_chunk c old []) (p + length old).
Proof.
  revert c p. induction old as [|o old IH]; intros c p.
  - simpl. f_equal; [|lia]. destruct c. unfold extend_chunk. simpl. by rewrite !app_nil_r.
  - cbn [map app]. rewrite chunk_lines_minus, IH. f_equal; [|simpl; lia].
    unfold push_old, extend_chunk. simpl. by rewrite <- app_assoc.
Qed.

Lemma chunk_lines_new (new ls : list str) (n : nat) (c : UpdateFileChunk) (p : nat) :
  chunk_lines (map (cons (ch "+")) new ++ ls) n c p
  = chunk_lines ls n (extend_chunk c [] new) (p + length new).
Proof.
  revert c p. induction new as [|o new IH]; intros c p.
  - simpl. f_equal; [|lia]. destruct c. unfold extend_chunk. simpl. by rewrite !app_nil_r.
  - cbn [map app]. rewrite chunk_lines_plus, IH. f_equal; [|simpl; lia].
    unfold push_new, extend_chunk. simpl. by rewrite <- app_assoc.
Qed.

(** What may follow the lines of a chunk: the end, a marker of the next chunk,
    or a header of the next hunk. *)
Definition chunk_stop (rest : list str) : Prop :=
  match rest with
  | [] => True
  | l :: _ => l <> EOF_MARKER /\ exists c t, l = c :: t /\ (c = ch "@" \/ c = ch "*")
  end.

Lemma chunk_lines_stop (rest : list str) (n : nat) (c : UpdateFileChunk) (p : nat) :
  chunk_stop rest -> p <> 0 -> chunk_lines rest n c p = Ok (c, p).
Proof.
  intros Hs Hp. destruct rest as [|l rest]; [done|].
  destruct Hs as (Hne & x & t & -> & Hx). cbn [chunk_lines].
  apply str_eqb_neq in Hne. rewrite Hne.
  apply Nat.eqb_neq in Hp. rewrite Hp. by destruct Hx as [->| ->].
Qed.

Lemma parse_rendered_chunk (c : UpdateFileChunk) (rest : list str) (n : nat) (b : bool) :
  wf_chunk c -> chunk_stop rest ->
  parse_update_file_chunk (render_chunk c ++ rest) n b
  = Ok (c, length (render_chunk c)).
Proof.
  intros (_ & _ & _ & Hne) Hs.
  set (body := map (cons (ch "-")) (old_lines c) ++ map (cons (ch "+")) (new_lines c)
               ++ (if is_end_of_file c then [EOF_MARKER] else [])).
  assert (render_chunk c ++ rest
          = match change_context c with
            | None => EMPTY_CHANGE_CONTEXT_MARKER
            | Some ctx => CHANGE_CONTEXT_MARKER ++ ctx
            end :: body ++ rest) as -> by done.
  assert (chunk_header match change_context c with
            | None => EMPTY_CHANGE_CONTEXT_MARKER
            | Some ctx => CHANGE_CONTEXT_MARKER ++ ctx
            end n b = Ok (change_context c, 1)) as Hh by by destruct (change_context c).
  assert (length body <> 0) as Hlen.
  { subst body. rewrite !length_app, !length_map.
    destruct Hne; destruct (old_lines c), (new_lines c); simpl; try lia; done. }
  unfold parse_update_file_chunk. rewrite Hh. cbn -[Nat.leb length slice_from].
  rewrite (proj2 (Nat.leb_gt _ _)) by (rewrite length_cons, length_app; lia).
  rewrite slice_from_in_range by (simpl; lia). cbn -[length].
  assert (length (render_chunk c) = length body + 1) as -> by (unfold body; simpl; lia).
  unfold body in *. rewrite drop_0, <- !app_assoc, chunk_lines_old, chunk_lines_new.
  rewrite !length_app, !length_map in *.
  destruct c as [ctx old new eof]; unfold extend_chunk; simpl in *.
  destruct eof; simpl in *.
  - rewrite (proj2 (Nat.eqb_neq _ _)); simpl.
    + unfold set_end_of_file; simpl. rewrite !app_nil_r. do 2 f_equal. lia.
    + destruct Hne, old, new; simpl in *; try done; lia.
  - rewrite chunk_lines_stop by (done || lia). simpl. rewrite !app_nil_r. do 2 f_equal. lia.
Qed.

(** ** Hunks *)

(** What may follow the lines of a hunk: the end or the header of a hunk. *)
Definition hunk_boundary (rest : list str) : Prop :=
  match rest with
  | [] => True
  | l :: _ => exists t, l = ADD_FILE_MARKER ++ t \/ l = DELETE_FILE_MARKER ++ t
                        \/ l = UPDATE_FILE_MARKER ++ t
  end.

Lemma hunk_boundary_chunk_stop (rest : list str) : hunk_boundary rest -> chunk_stop rest.
Proof.
  destruct rest as [|l rest]; [done|].
  intros (t & [->|[->| ->]]); (split; [done|]); do 2 eexists; (split; [reflexivity|]);
    by right.
Qed.

Lemma rendered_chunks_stop (cs : list UpdateFileChunk) (rest : list str) :
  chunk_stop rest -> chunk_stop (concat (map render_chunk cs) ++ rest).
Proof.
  destruct cs as [|c cs]; [done|]. intros _. simpl.
  destruct (change_context c); (split; [done|]); do 2 eexists; (split; [reflexivity|]);
    by left.
Qed.

(** The first character decides that a line is not blank. *)
Lemma nonblank_cons (c : char) (s : str) :
  is_whitespace c = false -> str_eqb (trim (c :: s)) [] = false.
Proof.
  intros Hc. unfold trim. rewrite trim_start_id by (intros; simpl in *; congruence).
  apply str_eqb_neq. destruct (drop_while_end_prefix is_whitespace (c :: s)) as (post & E & Hp).
  unfold trim_end. intros E0. rewrite E0 in E. simpl in E. subst post.
  apply Forall_cons in Hp as [Hp _]. congruence.
Qed.

Lemma update_loop_stop (fuel n p : nat) (b : bool) (rest : list str)
    (cs : list UpdateFileChunk) :
  hunk_boundary rest -> update_file_chunks (S fuel) rest n b p cs = Ok (cs, p).
Proof.
  destruct rest as [|l rest]; [done|]. intros (t & Hl). cbn [update_file_chunks].
  assert (exists u, l = ch "*" :: u) as (u & ->) by (destruct Hl as [->|[->| ->]]; by eexists).
  by rewrite nonblank_cons.
Qed.

Lemma update_loop_chunk (fuel n p : nat) (b : bool) (c : UpdateFileChunk)
    (rest : list str) (cs : list UpdateFileChunk) :
  wf_chunk c -> chunk_stop rest ->
  update_file_chunks (S fuel) (render_chunk c ++ rest) n b p cs
  = update_file_chunks fuel rest n b (p + length (render_chunk c)) (cs ++ [c]).
Proof.
  intros Hwf Hs.
  pose proof (parse_rendered_chunk c rest (n + p) (bool_decide (cs = [])) Hwf Hs) as Hp.
  assert (exists u ls, render_chunk c ++ rest = (ch "@" :: ch "@" :: u) :: ls)
    as (u & ls & E) by (simpl; destruct (change_context c); do 2 eexists; reflexivity).
  rewrite E in *. cbn [update_file_chunks]. rewrite nonblank_cons by done.
  assert (starts_with [ch "*"] (ch "@" :: ch "@" :: u) = false) as -> by done.
  assert (str_eqb (ch "@" :: ch "@" :: u) [ch "@"] = false) as -> by done.
  rewrite andb_false_r, Hp, <- E. rewrite slice_from_in_range by (rewrite length_app; lia).
  simpl or_panic. by rewrite drop_app_length.
Qed.

Lemma update_loop_chunks (cs : list UpdateFileChunk) (fuel n p : nat) (b : bool)
    (rest : list str) (acc : list UpdateFileChunk) :
  Forall wf_chunk cs -> hunk_boundary rest -> length cs < fuel ->
  update_file_chunks fuel (concat (map render_chunk cs) ++ rest) n b p acc
  = Ok (acc ++ cs, p + length (concat (map render_chunk cs))).
Proof.
  intros Hwf Hb. revert fuel p acc.
  induction Hwf as [|c cs Hc Hcs IH]; intros fuel p acc Hf;
    (destruct fuel as [|fuel]; [simpl in Hf; lia|]).
  - cbn [map concat app]. rewrite update_loop_stop by done.
    by rewrite app_nil_r, Nat.add_0_r.
  - cbn [map concat]. rewrite <- app_assoc, update_loop_chunk;
      [|done|by apply rendered_chunks_stop, hunk_boundary_chunk_stop].
    rewrite IH by (simpl in *; lia). rewrite <- app_assoc, length_app. simpl.
    do 2 f_equal. lia.
Qed.

Lemma add_file_lines_render (ls rest : list str) (s : str) (p : nat) :
  hunk_boundary rest ->
  add_file_lines (map (cons (ch "+")) ls ++ rest) s p = (s ++ unlines ls, p + length ls).
Proof.
  intros Hb. revert s p. induction ls as [|l ls IH]; intros s p; simpl.
  - rewrite app_nil_r, Nat.add_0_r. destruct rest as [|r rest]; [done|].
    by destruct Hb as (t & [->|[->| ->]]).
  - rewrite IH. unfold unlines. simpl. rewrite <- !app_assoc. f_equal. lia.
Qed.

(** A header line is its own [trim]. *)
Lemma trim_header (m p : str) :
  head m = Some (ch "*") -> wf_path p -> trim (m ++ p) = m ++ p.
Proof.
  intros Hm (_ & c & Hl & Hc). apply trim_trimmed. split.
  - destruct m; simpl in *; [done|]. intros; by simplify_eq.
  - rewrite last_app, Hl. intros; by simplify_eq.
Qed.

Lemma rendered_chunks_length (cs : list UpdateFileChunk) :
  length cs <= length (concat (map render_chunk cs)).
Proof. induction cs as [|c cs IH]; simpl; [lia|]. rewrite !length_app. lia. Qed.

Lemma parse_rendered_hunk (h : Hunk) (rest : list str) (n : nat) (b : bool) :
  wf_hunk h -> hunk_boundary rest ->
  parse_one_hunk (render_hunk h ++ rest) n b = Ok (h, length (render_hunk h)).
Proof.
  intros Hwf Hb. destruct h as [p contents|p|p mv cs]; simpl in Hwf.
  - destruct Hwf as (Hp & _ & Hc). unfold parse_one_hunk, render_hunk.
    rewrite <- app_comm_cons, trim_header, strip_prefix_app, add_file_lines_render by done.
    by rewrite Hc, length_cons, length_map.
  - unfold parse_one_hunk, render_hunk. cbn [app]. by rewrite trim_header.
  - destruct Hwf as (Hp & _ & Hcs & Hne). unfold parse_one_hunk, render_hunk.
    rewrite <- app_comm_cons, trim_header by done.
    change (strip_prefix ADD_FILE_MARKER (UPDATE_FILE_MARKER ++ p)) with (@None str).
    change (strip_prefix DELETE_FILE_MARKER (UPDATE_FILE_MARKER ++ p)) with (@None str).
    rewrite strip_prefix_app. pose proof (rendered_chunks_length cs).
    destruct mv as [m|].
    + rewrite <- !app_assoc. cbn [app]. rewrite strip_prefix_app. cbn [tail].
      rewrite update_loop_chunks by (done || (rewrite length_app; lia)). cbn -[length].
      by rewrite bool_decide_false.
    + cbn [app].
      assert (match concat (map render_chunk cs) ++ rest with
              | [] => None
              | x :: _ => strip_prefix MOVE_TO_MARKER x
              end = None) as ->
        by (destruct cs as [|c cs]; [done|]; simpl; by destruct (change_context c)).
      rewrite update_loop_chunks by (done || (rewrite length_app; lia)). cbn -[length].
      by rewrite bool_decide_false.
Qed.

Lemma rendered_hunks_boundary (hs : list Hunk) : hunk_boundary (concat (map render_hunk hs)).
Proof. destruct hs as [|[]]; simpl; eauto. Qed.

Lemma parse_rendered_hunks (hs acc : list Hunk) (fuel n : nat) (b : bool) :
  Forall wf_hunk hs -> length (concat (map render_hunk hs)) < fuel ->
  parse_hunks fuel (concat (map render_hunk hs)) n b acc = Ok (acc ++ hs).
Proof.
  intros Hwf. revert fuel n acc.
  induction Hwf as [|h hs Hh Hhs IH]; intros fuel n acc Hf;
    (destruct fuel as [|fuel]; [simpl in Hf; lia|]).
  - simpl. by rewrite app_nil_r.
  - pose proof (parse_rendered_hunk h _ n b Hh (rendered_hunks_boundary hs)) as Hp.
    assert (exists l ls, render_hunk h = l :: ls) as (l & ls & E)
      by (destruct h; do 2 eexists; reflexivity).
    cbn [map concat] in *. rewrite E in *. cbn [parse_hunks app] in *. rewrite Hp.
    simpl mbind. rewrite slice_from_in_range by (simpl; rewrite length_app; lia).
    cbn [drop or_panic mbind result_bind]. rewrite drop_app_length, IH.
    + by rewrite <- app_assoc.
    + simpl in Hf. rewrite length_app in Hf. lia.
Qed.

(** ** Texts *)

Lemma clean_cons (c : char) (l : str) :
  clean_line l -> c <> NL -> c <> CR -> clean_line (c :: l).
Proof.
  intros [H1 H2] Hn Hr. split; [set_solver|].
  destruct l as [|x l]; [simpl; congruence|]. done.
Qed.

Lemma clean_app (m l : str) : NL ∉ m -> last m <> Some CR -> clean_line l -> clean_line (m ++ l).
Proof.
  intros H1 H2 [H3 H4]. split; [set_solver|]. rewrite last_app.
  by destruct (last l).
Qed.

Lemma wf_path_clean (p : str) : wf_path p -> clean_line p.
Proof.
  intros (Hn & c & Hl & Hc). split; [done|]. rewrite Hl. intros ?; simplify_eq.
Qed.

Lemma clean_compute (l : str) : bool_decide (clean_line l) = true -> clean_line l.
Proof. by intros ?%bool_decide_eq_true. Qed.

Lemma marker_clean (m l : str) :
  bool_decide (clean_line m) = true -> clean_line l -> clean_line (m ++ l).
Proof. intros [H1 H2]%bool_decide_eq_true. by apply clean_app. Qed.

Lemma Forall_clean_cons (c : char) (ls : list str) :
  c <> NL -> c <> CR -> Forall clean_line ls -> Forall clean_line (map (cons c) ls).
Proof.
  intros Hn Hr. induction 1; constructor; [by apply clean_cons|done].
Qed.

Lemma render_chunk_clean (c : UpdateFileChunk) :
  wf_chunk c -> Forall clean_line (render_chunk c).
Proof.
  intros (Hctx & Ho & Hn & _). unfold render_chunk. constructor.
  - destruct (change_context c) as [ctx|]; [by apply marker_clean; [|apply Hctx]|].
    by apply clean_compute.
  - rewrite !Forall_app. split_and!; try by apply Forall_clean_cons.
    destruct (is_end_of_file c); repeat constructor; by apply clean_compute.
Qed.

Lemma render_hunk_clean (h : Hunk) : wf_hunk h -> Forall clean_line (render_hunk h).
Proof.
  destruct h as [p s|p|p mv cs]; unfold wf_hunk, render_hunk.
  - intros (Hp%wf_path_clean & Hl & _). constructor; [by apply marker_clean|].
    by apply Forall_clean_cons.
  - intros Hp%wf_path_clean. repeat constructor; by apply marker_clean.
  - intros (Hp%wf_path_clean & Hm & Hcs & _). constructor; [by apply marker_clean|].
    apply Forall_app. split.
    + destruct mv; repeat constructor; apply marker_clean; auto.
    + by apply (Forall_concat_map wf_chunk); [apply render_chunk_clean|].
Qed.

Lemma rendered_lines (hs : list Hunk) :
  Forall wf_hunk hs ->
  lines (trim (render_patch hs))
  = BEGIN_PATCH_MARKER :: concat (map render_hunk hs) ++ [END_PATCH_MARKER].
Proof.
  intros Hwf. unfold render_patch. rewrite app_comm_cons.
  set (ls := BEGIN_PATCH_MARKER :: concat (map render_hunk hs)).
  assert (Forall clean_line ls) as Hls.
  { constructor; [by apply clean_compute|].
    by apply (Forall_concat_map wf_hunk); [apply render_hunk_clean|]. }
  assert (NL ∉ END_PATCH_MARKER) by by apply (clean_compute END_PATCH_MARKER).
  rewrite trim_trimmed; [by apply lines_join|].
  split.
  - subst ls. simpl. destruct (concat _ ++ _); simpl; intros; by simplify_eq.
  - intros c. assert (last (join [NL] (ls ++ [END_PATCH_MARKER])) = Some 104%N) as ->;
      [|intros; by simplify_eq].
    clear. induction ls as [|l ls IH]; [done|]. rewrite <- app_comm_cons, join_cons by
      (destruct ls; done). rewrite !last_app, IH. done.
Qed.

(** C2: printing well-formed hunks and parsing the text gives the hunks back,
    whatever the parse mode. *)
Theorem parse_render_roundtrip (hs : list Hunk) (mode : ParseMode) :
  Forall wf_hunk hs ->
  parse_patch_text (render_patch hs) mode
  = Ok {| patch := render_patch hs; hunks := hs; workdir := None |}.
Proof.
  intros Hwf. unfold parse_patch_text. rewrite rendered_lines by done.
  set (ls := BEGIN_PATCH_MARKER :: concat (map render_hunk hs) ++ [END_PATCH_MARKER]).
  assert (check_patch_boundaries_strict ls = Ok (ls, concat (map render_hunk hs))) as Hs.
  { apply strict_boundaries_Ok. by do 3 eexists. }
  assert (match mode with
          | Strict => check_patch_boundaries_strict ls
          | Lenient => check_patch_boundaries_lenient ls
          | Streaming => check_patch_boundaries_streaming ls
          end = Ok (ls, concat (map render_hunk hs))) as ->.
  { destruct mode; [done|by unfold check_patch_boundaries_lenient; rewrite Hs|].
    unfold check_patch_boundaries_streaming, ls.
    change (str_eqb (trim BEGIN_PATCH_MARKER) BEGIN_PATCH_MARKER) with true. cbv iota.
    rewrite slice_middle, app_comm_cons, last_snoc. reflexivity. }
  cbn [mbind result_bind]. rewrite parse_rendered_hunks by (done || lia). reflexivity.
Qed.

(** A patch of three hunks, well formed. *)
Definition sample_hunks : list Hunk :=
  [UpdateFile (lit "a") (Some (lit "b"))
     [{| change_context := Some (lit "fn f"); old_lines := [lit "x"]; new_lines := [lit "y"; []];
         is_end_of_file := true |}];
   DeleteFile (lit "c"); AddFile (lit "n") (lit "n" ++ [NL])].

Lemma parse_render_roundtrip_witness :
  Forall wf_hunk sample_hunks /\
  parse_patch_text (render_patch sample_hunks) Streaming
  = Ok {| patch := render_patch sample_hunks; hunks := sample_hunks; workdir := None |}.
Proof.
  assert (Forall wf_hunk sample_hunks) as H.
  { assert (forall l : str, bool_decide (clean_line l) = true -> clean_line l) as Hc
      by (intros l; apply bool_decide_eq_true).
    assert (forall c : char, bool_decide (NL ∉ [c]) = true -> is_whitespace c = false -> wf_path [c])
      as Hp by (intros c Hn Hw; split; [by apply bool_decide_eq_true in Hn|by exists c]).
    apply Forall_cons; split; [|apply Forall_cons; split; [|apply Forall_cons; split; [|constructor]]].
    - split; [by apply Hp|]. split; [intros y Hy; injection Hy as <-; by apply Hc|]. split; [|done].
      apply Forall_singleton. split; [intros y Hy; injection Hy as <-; by apply Hc|].
      split; [repeat constructor; by apply Hc|]. split; [repeat constructor; by apply Hc|by left].
    - by apply Hp.
    - split; [by apply Hp|]. split; [|reflexivity]. repeat constructor; by apply Hc. }
  split; [exact H|]. exact (parse_render_roundtrip sample_hunks Streaming H).
Defined.

End PatchRender.
