(* ===== verification/PatchSeek.v ===== *)
(** * Finding lines: src/apply-patch/src/seek_sequence.rs

    [seek_sequence] looks for a block of lines in four passes of decreasing
    strictness. The model keeps the four passes, their index arithmetic and the
    out-of-range panics; the theorems give its specification. *)

From Stdlib Require Import Ascii String.
From S2P Require Import Prelude RustStr.

Module PatchSeek.

(** [normalise]: typographic punctuation to its ASCII equivalent. *)
Definition normalise_char (c : char) : char :=
  (if ((0x2010 <=? c) && (c <=? 0x2015)) || (c =? 0x2212) then 45
   else if (0x2018 <=? c) && (c <=? 0x201B) then 39
   else if (0x201C <=? c) && (c <=? 0x201F) then 34
   else if (c =? 0xA0) || ((0x2002 <=? c) && (c <=? 0x200A)) || (c =? 0x202F)
           || (c =? 0x205F) || (c =? 0x3000) then 32
   else c)%N.

Definition normalise (s : str) : str := map normalise_char (trim s).

(** Pass 1: [lines[i..i + pattern.len()] == *pattern]. *)
Definition exact_at {E} (lines pattern : list str) (i : nat) : result E bool :=
  window ← or_panic (slice i (i + length pattern) lines);
  Ok (bool_decide (window = pattern)).

(** Passes 2 to 4: the loop over the pattern compares [norm lines[i + p_idx]]
    with [norm pat] and stops at the first difference. *)
Fixpoint norm_at {E} (norm : str -> str) (lines pattern : list str) (i : nat)
    : result E bool :=
  match pattern with
  | [] => Ok true
  | pat :: pattern =>
      line ← or_panic (lines !! i);
      if str_eqb (norm line) (norm pat) then norm_at norm lines pattern (S i) else Ok false
  end.

(** [for i in lo..lo + n { if ok(i) { return Some(i) } }] *)
Fixpoint scan {E} (ok : nat -> result E bool) (i n : nat) : result E (option nat) :=
  match n with
  | 0 => Ok None
  | S n => b ← ok i; if (b : bool) then Ok (Some i) else scan ok (S i) n
  end.

Definition seek_sequence {E} (lines pattern : list str) (start : nat) (eof : bool)
    : result E (option nat) :=
  if bool_decide (pattern = []) then Ok (Some start)
  else if length lines <? length pattern then Ok None
  else
    let search_start := if eof && (length pattern <=? length lines)
                        then length lines - length pattern else start in
    let count := S (length lines - length pattern) - search_start in
    r1 ← scan (exact_at lines pattern) search_start count;
    match r1 with Some i => Ok (Some i) | None =>
    r2 ← scan (norm_at trim_end lines pattern) search_start count;
    match r2 with Some i => Ok (Some i) | None =>
    r3 ← scan (norm_at trim lines pattern) search_start count;
    match r3 with Some i => Ok (Some i) | None =>
    scan (norm_at normalise lines pattern) search_start count
    end end end.

(** ** Specification *)

(** The pattern occurs at line [i], up to the normal form [norm]. *)
Definition occurs (norm : str -> str) (lines pattern : list str) (i : nat) : Prop :=
  i + length pattern <= length lines /\
  map norm (take (length pattern) (drop i lines)) = map norm pattern.

(** The four levels of tolerance, strictest first. *)
Definition levels : list (str -> str) := [id; trim_end; trim; normalise].

(** The first line the search may answer. *)
Definition search_from (lines pattern : list str) (start : nat) (eof : bool) : nat :=
  if eof then length lines - length pattern else start.

(** ** Proofs *)

Lemma scan_spec {E} (ok : nat -> result E bool) (P : nat -> Prop) (i n : nat) :
  (forall j, i <= j < i + n -> exists b, ok j = Ok b /\ (b = true <-> P j)) ->
  match scan ok i n with
  | Ok (Some k) => i <= k < i + n /\ P k /\ forall j, i <= j < k -> ~ P j
  | Ok None => forall j, i <= j < i + n -> ~ P j
  | _ => False
  end.
Proof.
  revert i. induction n as [|n IH]; intros i H; simpl; [lia|].
  destruct (H i) as (b & -> & Hb); [lia|]. simpl. destruct b.
  - split_and!; [lia|lia|by apply Hb|lia].
  - specialize (IH (S i)). destruct (scan ok (S i) n) as [[k|]|e|c].
    + destruct IH as (Hk & HP & Hmin); [intros; apply H; lia|].
      split_and!; [lia|lia|done|]. intros j Hj.
      destruct (decide (j = i)) as [->|]; [by intros ?%Hb|apply Hmin; lia].
    + intros j Hj. destruct (decide (j = i)) as [->|]; [by intros ?%Hb|].
      apply IH; [intros; apply H; lia|lia].
    + apply IH. intros; apply H; lia.
    + apply IH. intros; apply H; lia.
Qed.

Lemma exact_at_spec {E} (ls pat : list str) (i : nat) :
  i + length pat <= length ls ->
  exists b, exact_at (E := E) ls pat i = Ok b /\ (b = true <-> occurs id ls pat i).
Proof.
  intros Hi. unfold exact_at. rewrite slice_in_range by lia. simpl.
  eexists; split; [done|]. rewrite bool_decide_eq_true. unfold occurs.
  replace (i + length pat - i) with (length pat) by lia. rewrite !map_id. naive_solver.
Qed.

Lemma norm_at_spec {E} (norm : str -> str) (ls pat : list str) (i : nat) :
  i + length pat <= length ls ->
  exists b, norm_at (E := E) norm ls pat i = Ok b /\ (b = true <-> occurs norm ls pat i).
Proof.
  revert i. induction pat as [|p pat IH]; intros i Hi; simpl in *.
  - exists true. split; [done|]. split; [|done]. intros _. split; [simpl; lia|done].
  - destruct (lookup_lt_is_Some_2 ls i) as [l Hl]; [lia|]. rewrite Hl. simpl.
    assert (map norm (take (S (length pat)) (drop i ls))
            = norm l :: map norm (take (length pat) (drop (S i) ls))) as Hw
      by (by rewrite (drop_S _ _ _ Hl)).
    destruct (str_eqb (norm l) (norm p)) eqn:E1.
    + destruct (IH (S i)) as (b & Hb & Hiff); [lia|]. exists b. split; [done|].
      rewrite Hiff. unfold occurs. simpl length. rewrite Hw. simpl.
      apply str_eqb_eq in E1. rewrite E1. split; intros [? ?]; split; try lia; congruence.
    + exists false. split; [done|]. split; [done|]. intros [_ Heq].
      simpl length in Heq. rewrite Hw in Heq. simpl in Heq.
      apply str_eqb_neq in E1. congruence.
Qed.

(** ** The levels are nested: what a pass accepts, the later ones accept. *)

Lemma occurs_mono (f g : str -> str) (ls pat : list str) (i : nat) :
  (forall s t, f s = f t -> g s = g t) -> occurs f ls pat i -> occurs g ls pat i.
Proof.
  intros Hfg [Hi Hm]. split; [done|].
  revert Hm. generalize (take (length pat) (drop i ls)). clear Hi. intros w.
  revert w. induction pat as [|p pat IH]; intros [|l w]; simpl; try done.
  intros [= H1 H2]. f_equal; auto.
Qed.

Lemma trim_end_nil_iff (s : str) : trim_end s = [] <-> Forall (fun c => is_whitespace c = true) s.
Proof.
  unfold trim_end. destruct (drop_while_end_prefix is_whitespace s) as (post & E & Hp).
  split; intros H.
  - rewrite H in E. by subst.
  - unfold drop_while_end. apply Forall_reverse in H.
    rewrite <- (app_nil_r (reverse s)), drop_while_app_all by done. done.
Qed.

(** Trimming both ends in either order. *)
Lemma trim_alt (s : str) : trim s = trim_start (trim_end s).
Proof.
  unfold trim.
  destruct (drop_while_suffix is_whitespace s) as (pre & E & Hpre).
  fold (trim_start s) in *. destruct (trim_start s) as [|c u] eqn:Eu.
  - rewrite app_nil_r in E. subst. by rewrite (proj2 (trim_end_nil_iff pre) Hpre).
  - pose proof (drop_while_head _ _ _ _ Eu) as Hc. rewrite E. unfold trim_end at 2, drop_while_end.
    rewrite reverse_app.
    assert (drop_while is_whitespace (reverse (c :: u) ++ reverse pre)
            = drop_while is_whitespace (reverse (c :: u)) ++ reverse pre) as ->.
    { rewrite reverse_cons, <- app_assoc. simpl.
      induction (reverse u) as [|x v IH]; simpl; [by rewrite Hc|].
      destruct (is_whitespace x); [done|]. simpl. by rewrite <- app_assoc. }
    rewrite reverse_app, reverse_involutive. unfold trim_start.
    rewrite drop_while_app_all by done. fold (drop_while_end is_whitespace (c :: u)).
    fold (trim_end (c :: u)). symmetry. apply (trim_start_id (trim_end (c :: u))).
    intros x Hx. destruct (drop_while_end_prefix is_whitespace (c :: u)) as (post & E2 & _).
    fold (trim_end (c :: u)) in E2. destruct (trim_end (c :: u)); [done|]. simpl in *. congruence.
Qed.

Lemma level_mono_trim (s t : str) : trim_end s = trim_end t -> trim s = trim t.
Proof. rewrite !trim_alt. congruence. Qed.

Lemma level_mono_normalise (s t : str) : trim s = trim t -> normalise s = normalise t.
Proof. unfold normalise. congruence. Qed.

(** Every occurrence at some level is one at the most tolerant level. *)
Lemma occurs_normalise (norm : str -> str) (ls pat : list str) (i : nat) :
  norm ∈ levels -> occurs norm ls pat i -> occurs normalise ls pat i.
Proof.
  intros Hn. apply occurs_mono. intros s t.
  unfold levels in Hn. rewrite !elem_of_cons, elem_of_nil in Hn.
  destruct Hn as [->|[->|[->|[->|[]]]]]; unfold id; intros H; try congruence;
    auto using level_mono_normalise, level_mono_trim.
Qed.

(** One pass, over all the windows from [lo] on. *)
Lemma pass_spec {E} (norm : str -> str) (ok : nat -> result E bool) (ls pat : list str)
    (lo : nat) :
  length pat <= length ls ->
  (forall i, i + length pat <= length ls ->
     exists b, ok i = Ok b /\ (b = true <-> occurs norm ls pat i)) ->
  match scan ok lo (S (length ls - length pat) - lo) with
  | Ok (Some i) =>
      lo <= i /\ occurs norm ls pat i /\ forall j, lo <= j < i -> ~ occurs norm ls pat j
  | Ok None => forall j, lo <= j -> ~ occurs norm ls pat j
  | _ => False
  end.
Proof.
  intros Hlen Hok.
  pose proof (scan_spec ok (occurs norm ls pat) lo (S (length ls - length pat) - lo)) as Hs.
  destruct (scan _ _ _) as [[i|]|e|c].
  - destruct Hs as (? & ? & ?); [intros; apply Hok; lia|]. split_and!; [lia|done|done].
  - intros j Hj [Hb Hocc].
    refine (Hs _ j _ (conj Hb Hocc)); [intros; apply Hok; lia|lia].
  - apply Hs. intros; apply Hok; lia.
  - apply Hs. intros; apply Hok; lia.
Qed.

(** What [seek_sequence] answers. *)
Definition seek_answer (ls pat : list str) (lo : nat) (r : option nat) : Prop :=
  match r with
  | Some i =>
      exists k norm, levels !! k = Some norm /\ lo <= i /\ occurs norm ls pat i /\
        (forall j, lo <= j < i -> ~ occurs norm ls pat j) /\
        (forall k' norm' j, k' < k -> levels !! k' = Some norm' -> lo <= j ->
           ~ occurs norm' ls pat j)
  | None => forall j, lo <= j -> ~ occurs normalise ls pat j
  end.

Lemma seek_sequence_answers {E} (ls pat : list str) (start : nat) (eof : bool) :
  pat <> [] ->
  exists r, seek_sequence (E := E) ls pat start eof = Ok r /\
    seek_answer ls pat (search_from ls pat start eof) r.
Proof.
  intros Hne. unfold seek_sequence. rewrite bool_decide_false by done.
  destruct (length ls <? length pat) eqn:Hlen; bool_to_prop.
  { exists None. split; [done|]. intros j _ [Hb _]. lia. }
  replace (if eof && (length pat <=? length ls) then length ls - length pat else start)
    with (search_from ls pat start eof).
  2: { unfold search_from. destruct eof; [|done]. by rewrite (proj2 (Nat.leb_le _ _)). }
  set (lo := search_from ls pat start eof).
  pose proof (pass_spec id (exact_at (E := E) ls pat) ls pat lo Hlen (exact_at_spec ls pat)) as P1.
  pose proof (fun norm => pass_spec norm (norm_at (E := E) norm ls pat) ls pat lo Hlen
                            (norm_at_spec norm ls pat)) as P.
  destruct (scan (exact_at ls pat) _ _) as [[i|]|e|c]; try done; simpl.
  { destruct P1 as (? & ? & ?). exists (Some i); split; [done|]. exists 0, id.
    split_and!; try done. lia. }
  pose proof (P trim_end) as P2.
  destruct (scan (norm_at trim_end ls pat) _ _) as [[i|]|e|c]; try done; simpl.
  { destruct P2 as (? & ? & ?). exists (Some i); split; [done|]. exists 1, trim_end.
    split_and!; try done. intros [|?] norm' j ? Hl ?; [by simplify_eq/=; apply P1|lia]. }
  pose proof (P trim) as P3.
  destruct (scan (norm_at trim ls pat) _ _) as [[i|]|e|c]; try done; simpl.
  { destruct P3 as (? & ? & ?). exists (Some i); split; [done|]. exists 2, trim.
    split_and!; try done. intros [|[|?]] norm' j ? Hl ?; simplify_eq/=; auto; lia. }
  pose proof (P normalise) as P4.
  destruct (scan (norm_at normalise ls pat) _ _) as [[i|]|e|c]; try done; simpl.
  - destruct P4 as (? & ? & ?). exists (Some i); split; [done|]. exists 3, normalise.
    split_and!; try done. intros [|[|[|?]]] norm' j ? Hl ?; simplify_eq/=; auto; lia.
  - exists None. done.
Qed.

(** The block of lines that [seek_sequence] answers is the first one, at the
    strictest of the four levels of tolerance at which the pattern occurs at all
    from the first admissible line on; it answers no line only when the pattern
    occurs nowhere even at the most tolerant level, and it never indexes out of
    range. *)
Theorem seek_sequence_spec {E} (ls pat : list str) (start : nat) (eof : bool) :
  pat <> [] ->
  exists r, seek_sequence (E := E) ls pat start eof = Ok r /\
    seek_answer ls pat (search_from ls pat start eof) r.
Proof. apply seek_sequence_answers. Qed.

(** With [eof] set only the window at the end of the file is tried: the
    search never falls back to the lines from [start] on. *)
Theorem seek_eof_only_end {E} (ls pat : list str) (start : nat) (r : option nat) :
  pat <> [] -> seek_sequence (E := E) ls pat start true = Ok r ->
  r = None \/ r = Some (length ls - length pat).
Proof.
  intros Hne Hr. destruct (seek_sequence_answers (E := E) ls pat start true Hne) as (r' & Hr' & Ha).
  rewrite Hr in Hr'. simplify_eq. destruct r' as [i|]; [right|by left].
  destruct Ha as (k & norm & _ & Hlo & [Hb _] & _). simpl in Hlo. f_equal. lia.
Qed.

(** What the clients of [seek_sequence] use. *)
Lemma seek_sequence_total {E} (ls pat : list str) (start : nat) (eof : bool) :
  exists r, seek_sequence (E := E) ls pat start eof = Ok r.
Proof.
  destruct (decide (pat = [])) as [->|Hne]; [by eexists|].
  destruct (seek_sequence_answers (E := E) ls pat start eof Hne) as (r & ? & _). eauto.
Qed.

Lemma seek_sequence_found {E} (ls pat : list str) (start : nat) (eof : bool) (i : nat) :
  seek_sequence (E := E) ls pat start eof = Ok (Some i) -> start <= length ls ->
  i + length pat <= length ls /\ (eof = false -> start <= i) /\ occurs normalise ls pat i.
Proof.
  intros H Hst. destruct (decide (pat = [])) as [->|Hne].
  - unfold seek_sequence in H. simpl in H. simplify_eq. simpl.
    split_and!; [lia|lia|]. split; [simpl; lia|done].
  - destruct (seek_sequence_answers (E := E) ls pat start eof Hne) as (r & Hr & Ha).
    rewrite H in Hr. simplify_eq. destruct Ha as (k & norm & Hk & Hlo & Hocc & _).
    split_and!; [apply Hocc|by intros ->|].
    eapply occurs_normalise; [|done]. by eapply list_elem_of_lookup_2.
Qed.

(** A pattern that is found at the second level of tolerance only. *)
Definition sample_lines : list str := [lit "a"; lit "b  "; lit "c"; lit "b"].

Lemma seek_sequence_spec_witness :
  exists r, seek_sequence (E := str) sample_lines [lit "b"; lit "c"] 0 false = Ok r /\
    seek_answer sample_lines [lit "b"; lit "c"] 0 r /\ r = Some 1.
Proof.
  destruct (seek_sequence_spec (E := str) sample_lines [lit "b"; lit "c"] 0 false)
    as (r & Hr & Ha); [done|].
  exists r. split; [exact Hr|]. split; [exact Ha|]. vm_compute in Hr. by injection Hr as <-.
Defined.

Lemma seek_eof_only_end_witness :
  exists r, seek_sequence (E := str) sample_lines [lit "a"] 0 true = Ok r /\
    (r = None \/ r = Some 3).
Proof.
  exists None. split; [vm_compute; reflexivity|].
  apply (seek_eof_only_end (E := str) sample_lines [lit "a"] 0 None); [done|vm_compute; reflexivity].
Defined.

End PatchSeek.
