(* ===== verification/PatchReplace.v ===== *)
(** * Computing and applying replacements: src/apply-patch/src/lib.rs

    [compute_replacements], [apply_replacements] and the pure part of
    [derive_new_contents_from_chunks], with the errors they return. *)

From Stdlib Require Import Ascii String.
From S2P Require Import Prelude RustStr FileSystem PatchParser PatchSeek.
Import PatchParser PatchSeek.

Module PatchReplace.

Inductive ApplyPatchError :=
| ParseErr (e : ParseError)
| IoError (context : str) (source : io_error)
| ComputeReplacements (message : str)
| ImplicitInvocation.

(** [(start_index, old_len, new_lines)] *)
Definition replacement : Type := nat * nat * list str.
Definition r_start (r : replacement) : nat := r.1.1.
Definition r_len (r : replacement) : nat := r.1.2.
Definition r_new (r : replacement) : list str := r.2.

(** [v.last().is_some_and(String::is_empty)] *)
Definition last_is_empty (v : list str) : bool :=
  match last v with Some [] => true | _ => false end.

Definition context_error (ctx_line path : str) : ApplyPatchError :=
  ComputeReplacements (lit "Failed to find context '" ++ ctx_line ++ lit "' in " ++ path).

Definition lines_error (old : list str) (path : str) : ApplyPatchError :=
  ComputeReplacements (lit "Failed to find expected lines in " ++ path ++ lit ":" ++ [NL]
                       ++ join [NL] old).

(** The body of the [for chunk in chunks] loop; [None] as replacement cannot
    occur. The first block moves [line_index] behind the context line. *)
Definition seek_context (original_lines : list str) (path : str) (line_index : nat)
    (chunk : UpdateFileChunk) : result ApplyPatchError nat :=
  match change_context chunk with
  | None => Ok line_index
  | Some ctx_line =>
      found ← seek_sequence original_lines [ctx_line] line_index false;
      match found with
      | Some idx => Ok (idx + 1)
      | None => Err (context_error ctx_line path)
      end
  end.

Definition compute_replacement (original_lines : list str) (path : str) (line_index : nat)
    (chunk : UpdateFileChunk) : result ApplyPatchError (nat * replacement) :=
  line_index ← seek_context original_lines path line_index chunk;
  if bool_decide (old_lines chunk = []) then
    let insertion_idx := if last_is_empty original_lines
                         then length original_lines - 1 else length original_lines in
    Ok (line_index, (insertion_idx, 0, new_lines chunk))
  else
    let pattern := old_lines chunk in
    let new_slice := new_lines chunk in
    found ← seek_sequence original_lines pattern line_index (is_end_of_file chunk);
    '(pattern, new_slice, found) ←
      (if match found with None => last_is_empty pattern | Some _ => false end then
         let pattern := removelast pattern in
         let new_slice := if last_is_empty new_slice then removelast new_slice
                          else new_slice in
         found ← seek_sequence original_lines pattern line_index (is_end_of_file chunk);
         Ok (pattern, new_slice, found)
       else Ok (pattern, new_slice, found));
    match found with
    | Some start_idx =>
        Ok (start_idx + length pattern, (start_idx, length pattern, new_slice))
    | None => Err (lines_error (old_lines chunk) path)
    end.

Fixpoint collect_replacements (original_lines : list str) (path : str) (line_index : nat)
    (chunks : list UpdateFileChunk) : result ApplyPatchError (list replacement) :=
  match chunks with
  | [] => Ok []
  | chunk :: chunks =>
      '(line_index, r) ← compute_replacement original_lines path line_index chunk;
      rs ← collect_replacements original_lines path line_index chunks;
      Ok (r :: rs)
  end.

(** [sort_by(|l, r| l.0.cmp(&r.0))] *)
Definition sort_by_start (rs : list replacement) : list replacement := sort_by_key r_start rs.

Definition compute_replacements (original_lines : list str) (path : str)
    (chunks : list UpdateFileChunk) : result ApplyPatchError (list replacement) :=
  sort_by_start <$> collect_replacements original_lines path 0 chunks.

(** [for _ in 0..old_len { if start_idx < lines.len() { lines.remove(start_idx); } }] *)
Fixpoint remove_lines {E} (old_len start_idx : nat) (lines : list str)
    : result E (list str) :=
  match old_len with
  | 0 => Ok lines
  | S n =>
      lines ← (if start_idx <? length lines then or_panic (vec_remove start_idx lines)
               else Ok lines);
      remove_lines n start_idx lines
  end.

(** [for (offset, new_line) in new_segment { lines.insert(start_idx + offset, ..) }] *)
Fixpoint insert_lines {E} (at_idx : nat) (new_segment : list str) (lines : list str)
    : result E (list str) :=
  match new_segment with
  | [] => Ok lines
  | new_line :: new_segment =>
      lines ← or_panic (vec_insert at_idx new_line lines);
      insert_lines (S at_idx) new_segment lines
  end.

Definition apply_replacement {E} (r : replacement) (lines : list str)
    : result E (list str) :=
  lines ← remove_lines (r_len r) (r_start r) lines;
  insert_lines (r_start r) (r_new r) lines.

(** [for .. in replacements.iter().rev()] *)
Fixpoint apply_replacements {E} (lines : list str) (replacements : list replacement)
    : result E (list str) :=
  match replacements with
  | [] => Ok lines
  | r :: rs => lines ← apply_replacements lines rs; apply_replacement r lines
  end.

Record AppliedPatch := {
  original_contents : str;
  new_contents : str;
}.

(** [derive_new_contents_from_chunks] after the file has been read. *)
Definition split_contents (contents : str) : list str :=
  let original_lines := split_on NL contents in
  if last_is_empty original_lines then removelast original_lines else original_lines.

Definition join_contents (new_lines : list str) : str :=
  let new_lines := if negb (last_is_empty new_lines) then new_lines ++ [[]] else new_lines in
  join [NL] new_lines.

Definition derive_new_contents (contents path : str) (chunks : list UpdateFileChunk)
    : result ApplyPatchError AppliedPatch :=
  let original_lines := split_contents contents in
  replacements ← compute_replacements original_lines path chunks;
  new_lines ← apply_replacements original_lines replacements;
  Ok {| original_contents := contents; new_contents := join_contents new_lines |}.

(** ** Reference: one walk from left to right *)

(** Copies the lines between the replacements and puts the new lines of each
    replacement in place of the lines it covers; [pos] is the position of the
    head of [lines] in the file. *)
Fixpoint splice (pos : nat) (lines : list str) (rs : list replacement) : list str :=
  match rs with
  | [] => lines
  | r :: rs =>
      take (r_start r - pos) lines ++ r_new r
      ++ splice (r_start r + r_len r) (drop (r_start r + r_len r - pos) lines) rs
  end.

(** Replacements in range ([in_range]) that are in order and do not overlap. *)
Definition in_range (n : nat) (r : replacement) : Prop := r_start r + r_len r <= n.

Fixpoint disjoint_from (pos : nat) (rs : list replacement) : Prop :=
  match rs with
  | [] => True
  | r :: rs => pos <= r_start r /\ disjoint_from (r_start r + r_len r) rs
  end.

Fixpoint sorted_from (pos : nat) (rs : list replacement) : Prop :=
  match rs with
  | [] => True
  | r :: rs => pos <= r_start r /\ sorted_from (r_start r) rs
  end.

End PatchReplace.

(** * Facts about replacements

    Applying in-range replacements never panics, the backwards loop over
    non-overlapping replacements computes the left-to-right splice, and the
    replacements of ordered chunks are such. *)

Import PatchParser PatchSeek PatchReplace.

Module PatchReplaceFacts.

(** ** One replacement *)

Lemma remove_lines_spec {E} (n start : nat) (ls : list str) :
  start <= length ls ->
  remove_lines (E := E) n start ls = Ok (take start ls ++ drop (start + n) ls).
Proof.
  revert ls. induction n as [|n IH]; intros ls Hs; simpl.
  - by rewrite Nat.add_0_r, take_drop.
  - destruct (start <? length ls) eqn:El; bool_to_prop.
    + rewrite vec_remove_in_range by done. simpl.
      rewrite delete_take_drop, IH by (rewrite ?length_app, ?length_take, ?length_drop; lia).
      rewrite take_app_le by (rewrite length_take; lia).
      rewrite take_take, drop_app_ge by (rewrite length_take; lia).
      rewrite length_take, drop_drop. do 2 f_equal; [f_equal; lia|f_equal; lia].
    + simpl. rewrite IH by lia. do 2 f_equal. rewrite !drop_ge by lia. done.
Qed.

Lemma insert_lines_spec {E} (seg : list str) (i : nat) (ls : list str) :
  i <= length ls ->
  insert_lines (E := E) i seg ls = Ok (take i ls ++ seg ++ drop i ls).
Proof.
  revert i ls. induction seg as [|s seg IH]; intros i ls Hi; simpl.
  - by rewrite take_drop.
  - rewrite vec_insert_in_range by done. simpl. assert (length (take i ls) = i) as Hl.
    { rewrite length_take. lia. }
    rewrite IH by (rewrite length_app; simpl; lia).
    replace (take i ls ++ s :: drop i ls) with ((take i ls ++ [s]) ++ drop i ls)
      by (by rewrite <- app_assoc).
    rewrite take_eq_app_prefix, drop_eq_app_suffix by (rewrite length_app, Hl; simpl; lia).
    by rewrite <- app_assoc.
Qed.

Lemma apply_replacement_spec {E} (r : replacement) (ls : list str) :
  r_start r <= length ls ->
  apply_replacement (E := E) r ls
  = Ok (take (r_start r) ls ++ r_new r ++ drop (r_start r + r_len r) ls).
Proof.
  intros Hs. unfold apply_replacement. rewrite remove_lines_spec by done. simpl.
  assert (length (take (r_start r) ls) = r_start r) as Hl by (rewrite length_take; lia).
  rewrite insert_lines_spec by (rewrite length_app; lia).
  rewrite take_eq_app_prefix, drop_eq_app_suffix by done. done.
Qed.

(** ** All the replacements *)

(** The list of replacements only has to be sorted and in range: overlaps, which
    chunks marked as end-of-file can produce, do not make an index invalid. *)
Lemma apply_replacements_total {E} (rs : list replacement) (pos : nat) (ls : list str) :
  sorted_from pos rs -> pos <= length ls -> Forall (in_range (length ls)) rs ->
  exists out, apply_replacements (E := E) ls rs = Ok out /\ pos <= length out.
Proof.
  intros Hs Hpos Hr. revert pos Hs Hpos.
  induction Hr as [|r rs Hr Hrs IH]; intros pos Hs Hpos; simpl in *; [by eexists|].
  destruct Hs as [Hp Hs]. unfold in_range in Hr.
  destruct (IH (r_start r)) as (out & -> & Hout); [done|lia|]. simpl.
  rewrite apply_replacement_spec by done. eexists. split; [done|].
  rewrite length_app, length_take. lia.
Qed.

Lemma apply_replacements_splice_from {E} (rs : list replacement) (pos : nat) (ls : list str) :
  disjoint_from pos rs -> pos <= length ls -> Forall (in_range (length ls)) rs ->
  apply_replacements (E := E) ls rs = Ok (take pos ls ++ splice pos (drop pos ls) rs).
Proof.
  intros Hd Hpos Hr. revert pos Hd Hpos.
  induction Hr as [|r rs Hr Hrs IH]; intros pos Hd Hpos; simpl in *; [by rewrite take_drop|].
  destruct Hd as [Hp Hd]. unfold in_range in Hr. rewrite (IH (r_start r + r_len r)) by done.
  simpl. assert (length (take (r_start r + r_len r) ls) = r_start r + r_len r) as Hl.
  { rewrite length_take. lia. }
  rewrite apply_replacement_spec by (rewrite length_app; lia).
  rewrite take_app_le, take_take by lia.
  rewrite (drop_eq_app_suffix (r_start r + r_len r)) by done.
  rewrite drop_drop. replace (pos + (r_start r + r_len r - pos)) with (r_start r + r_len r) by lia.
  rewrite app_assoc. f_equal. rewrite (app_assoc (take pos ls)), Nat.min_l, app_assoc by lia.
  do 2 f_equal. rewrite <- (take_drop pos (take (r_start r) ls)), take_take, Nat.min_l by lia.
  f_equal. by rewrite skipn_firstn_comm.
Qed.

(** ** The stable sort *)

Lemma sorted_from_weaken (p q : nat) (rs : list replacement) :
  q <= p -> sorted_from p rs -> sorted_from q rs.
Proof. destruct rs; simpl; [done|]. intros ? [? ?]. split; [lia|done]. Qed.

Lemma insert_key_sorted (r : replacement) (rs : list replacement) (p : nat) :
  p <= r_start r -> sorted_from p rs -> sorted_from p (insert_key r_start r rs).
Proof.
  revert p. induction rs as [|x rs IH]; intros p Hp Hs; simpl in *; [done|].
  destruct Hs as [Hx Hs]. destruct (_ <=? _) eqn:E; bool_to_prop; simpl; split_and!;
    try done. apply IH; [lia|done].
Qed.

Lemma sort_by_start_sorted (rs : list replacement) : sorted_from 0 (sort_by_start rs).
Proof.
  induction rs as [|r rs IH]; simpl; [done|]. apply insert_key_sorted; [lia|done].
Qed.

Lemma sort_by_start_id (rs : list replacement) (p : nat) :
  sorted_from p rs -> sort_by_start rs = rs.
Proof.
  revert p. induction rs as [|r rs IH]; intros p; simpl; [done|]. intros [Hp Hs].
  rewrite (IH _ Hs). destruct rs as [|x rs]; simpl in *; [done|].
  by rewrite (proj2 (Nat.leb_le _ _)) by apply Hs.
Qed.

Lemma disjoint_sorted (rs : list replacement) (p : nat) :
  disjoint_from p rs -> sorted_from p rs.
Proof.
  revert p. induction rs as [|r rs IH]; intros p; simpl; [done|].
  intros [Hp Hd]. split; [done|]. apply IH in Hd. eapply sorted_from_weaken; [|done]. lia.
Qed.

(** ** Computing the replacements *)

Lemma seek_context_spec (ls : list str) (path : str) (li : nat) (c : UpdateFileChunk) :
  li <= length ls ->
  no_crash (seek_context ls path li c) /\
  forall li', seek_context ls path li c = Ok li' -> li <= li' <= length ls.
Proof.
  intros Hli. unfold seek_context. destruct (change_context c) as [ctx|].
  - destruct (seek_sequence_total (E := ApplyPatchError) ls [ctx] li false) as ([i|] & Hi);
      rewrite Hi; simpl; split; auto with agere; [|done].
    apply seek_sequence_found in Hi as (Hb & Hlo & _); [|done]. simpl in Hb.
    specialize (Hlo eq_refl). intros; simplify_eq. lia.
  - split; auto with agere. intros; simplify_eq. lia.
Qed.

(** A chunk explains a replacement: the replaced lines are the chunk's old lines
    up to the most tolerant normal form, and the new lines are the chunk's; both
    may have lost a final empty line that stands for the end of the file. *)
Definition explains (ls : list str) (c : UpdateFileChunk) (r : replacement) : Prop :=
  (exists pat, r_len r = length pat /\ occurs normalise ls pat (r_start r) /\
     (pat = old_lines c /\ r_new r = new_lines c \/
      old_lines c = pat ++ [[]] /\
        (r_new r = new_lines c \/ new_lines c = r_new r ++ [[]]))) \/
  (old_lines c = [] /\ r_len r = 0 /\ r_new r = new_lines c /\
   (r_start r = length ls \/ r_start r = length ls - 1 /\ last ls = Some [])).

Lemma last_is_empty_true (v : list str) : last_is_empty v = true <-> v = removelast v ++ [[]].
Proof.
  unfold last_is_empty. destruct v as [|x v _] using rev_ind; [done|].
  rewrite last_snoc, removelast_last. destruct x; split; try done; intros H.
  - apply app_inj_tail in H as [_ H]. done.
Qed.

Lemma removelast_last_empty (v : list str) :
  last_is_empty v = true -> exists u, v = u ++ [[]] /\ removelast v = u.
Proof. intros H%last_is_empty_true. eexists. done. Qed.

(** The retry without the final empty line, as one search. *)
Lemma compute_replacement_spec (ls : list str) (path : str) (li : nat) (c : UpdateFileChunk) :
  li <= length ls ->
  no_crash (compute_replacement ls path li c) /\
  forall li' r, compute_replacement ls path li c = Ok (li', r) ->
    li' <= length ls /\ in_range (length ls) r /\ explains ls c r /\
    (is_end_of_file c = false -> old_lines c <> [] ->
       li <= r_start r /\ li' = r_start r + r_len r).
Proof.
  intros Hli. destruct (seek_context_spec ls path li c Hli) as [Hnc Hctx].
  unfold compute_replacement.
  destruct (seek_context ls path li c) as [li1|e|cr] eqn:E1; simpl; [|split; [auto with agere|done]|].
  2: by destruct (Hnc cr).
  destruct (Hctx li1 eq_refl) as [Hl1 Hl2]. clear Hctx Hnc E1.
  case_bool_decide as Hold.
  { split; auto with agere. intros li' r H. simplify_eq. unfold in_range, explains, r_start, r_len, r_new; simpl.
    split_and!; [lia|case_match; lia| |done]. right. split_and!; try done.
    destruct (last_is_empty ls) eqn:El; [right|by left]. split; [done|].
    apply last_is_empty_true in El. rewrite El. apply last_snoc. }
  destruct (seek_sequence_total (E := ApplyPatchError) ls (old_lines c) li1 (is_end_of_file c))
    as (found & Hf). rewrite Hf. simpl.
  destruct found as [i|]; simpl.
  { apply seek_sequence_found in Hf as (Hb & Hlo & Hocc); [|lia].
    split; auto with agere. intros; simplify_eq. unfold in_range, explains, r_start, r_len, r_new; simpl.
    split_and!; [lia|lia|left; exists (old_lines c); naive_solver|].
    intros He _. specialize (Hlo He). lia. }
  destruct (last_is_empty (old_lines c)) eqn:Ee; simpl; [|split; [auto with agere|done]].
  destruct (removelast_last_empty _ Ee) as (u & Hu & Hru). rewrite Hru.
  destruct (seek_sequence_total (E := ApplyPatchError) ls u li1 (is_end_of_file c))
    as (found & Hf2). rewrite Hf2. simpl.
  destruct found as [i|]; simpl; [|split; [auto with agere|done]].
  apply seek_sequence_found in Hf2 as (Hb & Hlo & Hocc); [|lia].
  split; auto with agere. intros li' r Hr; simplify_eq. unfold in_range, explains, r_start, r_len, r_new; simpl.
  split_and!; [lia|lia| |intros He _; specialize (Hlo He); lia].
  left. eexists. split_and!; [done|done|right]. split; [done|]. 
  destruct (last_is_empty (new_lines c)) eqn:En; [right|by left].
  by apply last_is_empty_true in En.
Qed.

Lemma collect_replacements_total (ls : list str) (path : str) (cs : list UpdateFileChunk)
    (li : nat) :
  li <= length ls ->
  no_crash (collect_replacements ls path li cs) /\
  forall rs, collect_replacements ls path li cs = Ok rs ->
    Forall (in_range (length ls)) rs /\ Forall2 (explains ls) cs rs.
Proof.
  revert li. induction cs as [|c cs IH]; intros li Hli; simpl.
  { split; auto with agere. intros; by simplify_eq. }
  destruct (compute_replacement_spec ls path li c Hli) as [Hnc Hok]. split.
  - apply no_crash_bind; [done|]. intros [li' r] (Hl & _)%Hok.
    apply no_crash_bind; [by apply IH|]. auto with agere.
  - intros rs ([li' r] & (? & ? & ? & _)%Hok & (rs' & Hrs & ?)%bind_Ok)%bind_Ok. simplify_eq.
    apply IH in Hrs as [? ?]; [|done]. split; by constructor.
Qed.

(** The chunks a model writes for a file it has read in order: none is anchored at
    the end of the file, and each replaces at least one line. *)
Definition ordered_chunk (c : UpdateFileChunk) : Prop :=
  is_end_of_file c = false /\ old_lines c <> [].

Lemma collect_replacements_disjoint (ls : list str) (path : str) (cs : list UpdateFileChunk)
    (li : nat) (rs : list replacement) :
  li <= length ls -> Forall ordered_chunk cs ->
  collect_replacements ls path li cs = Ok rs -> disjoint_from li rs.
Proof.
  intros Hli Hcs. revert li rs Hli.
  induction Hcs as [|c cs [He Ho] Hcs IH]; intros li rs Hli; simpl; [intros; by simplify_eq|].
  intros ([li' r] & Hr & (rs' & H & ?)%bind_Ok)%bind_Ok. simplify_eq. simpl.
  apply compute_replacement_spec in Hr as (Hl & _ & _ & Hd); [|done].
  destruct (Hd He Ho) as [H1 ->]. auto.
Qed.

Lemma compute_replacements_total (ls : list str) (path : str) (cs : list UpdateFileChunk) :
  no_crash (compute_replacements ls path cs) /\
  forall rs, compute_replacements ls path cs = Ok rs ->
    Forall (in_range (length ls)) rs /\ sorted_from 0 rs.
Proof.
  destruct (collect_replacements_total ls path cs 0) as [Hnc Hok]; [lia|].
  unfold compute_replacements. destruct (collect_replacements ls path 0 cs) as [rs|e|c];
    simpl; [|split; [auto with agere|done]|by destruct (Hnc c)].
  split; auto with agere. intros rs' H. simplify_eq.
  split; [|apply sort_by_start_sorted]. unfold sort_by_start. rewrite sort_by_key_perm. by apply Hok.
Qed.

(** ** Theorems *)

(** Deriving the new contents returns a value or an error. *)
Lemma derive_new_contents_no_crash (contents path : str) (chunks : list UpdateFileChunk) :
  no_crash (derive_new_contents contents path chunks).
Proof.
  unfold derive_new_contents.
  destruct (compute_replacements_total (split_contents contents) path chunks) as [Hnc Hok].
  apply no_crash_bind; [done|]. intros rs [Hr Hs]%Hok.
  destruct (apply_replacements_total (E := ApplyPatchError) rs 0 _ Hs (Nat.le_0_l _) Hr)
    as (out & -> & _). simpl. auto with agere.
Qed.

(** C29: for chunks in order, the backwards removal and insertion loops compute the
    left-to-right splice of disjoint, in-range replacements, one per chunk, each
    of which is explained by its chunk; every line outside them is copied. *)
Theorem ordered_chunks_splice (ls : list str) (path : str) (chunks : list UpdateFileChunk)
    (rs : list replacement) :
  Forall ordered_chunk chunks -> compute_replacements ls path chunks = Ok rs ->
  disjoint_from 0 rs /\ Forall (in_range (length ls)) rs /\ Forall2 (explains ls) chunks rs /\
  apply_replacements (E := ApplyPatchError) ls rs = Ok (splice 0 ls rs).
Proof.
  intros Hcs H. unfold compute_replacements in H.
  destruct (collect_replacements ls path 0 chunks) as [rs'|e|c] eqn:E; simplify_eq/=.
  pose proof (collect_replacements_disjoint ls path chunks 0 rs' (Nat.le_0_l _) Hcs E) as Hd.
  destruct (collect_replacements_total ls path chunks 0) as [_ Hok]; [lia|].
  destruct (Hok rs' E) as [Hr Hex].
  rewrite (sort_by_start_id rs' 0) by by apply disjoint_sorted.
  split_and!; try done.
  rewrite (apply_replacements_splice_from rs' 0) by (done || lia). by rewrite drop_0.
Qed.

(** ** The final newline *)

Lemma join_contents_newline (ls : list str) :
  join_contents ls = [] \/ last (join_contents ls) = Some NL.
Proof.
  unfold join_contents.
  assert (forall u : list str, join [NL] (u ++ [[]]) = [] \/ last (join [NL] (u ++ [[]])) = Some NL)
    as Hu.
  { intros [|x u]; [by left|right]. rewrite join_snoc_nil by done. apply last_snoc. }
  destruct (last_is_empty ls) eqn:E; simpl; [|apply Hu].
  apply last_is_empty_true in E. rewrite E. apply Hu.
Qed.

Lemma split_contents_newline (t : str) :
  split_contents (t ++ [NL]) = split_on NL t.
Proof.
  unfold split_contents. rewrite split_on_snoc. unfold last_is_empty.
  by rewrite last_snoc, removelast_last.
Qed.

(** An update never leaves a file without its final newline: the new contents
    are empty or end in a newline. *)
Theorem new_contents_newline (contents path : str) (chunks : list UpdateFileChunk)
    (a : AppliedPatch) :
  derive_new_contents contents path chunks = Ok a ->
  new_contents a = [] \/ last (new_contents a) = Some NL.
Proof.
  intros (rs & _ & (ls & _ & H)%bind_Ok)%bind_Ok. simplify_eq. apply join_contents_newline.
Qed.

(** Splitting a file into lines and joining them again, which is what an update
    does to the lines it does not touch, is the identity on a text that ends in
    exactly one newline. *)
Theorem contents_roundtrip (t : str) (c : char) :
  last t = Some c -> c <> NL -> join_contents (split_contents (t ++ [NL])) = t ++ [NL].
Proof.
  intros Ht Hc. rewrite split_contents_newline. unfold join_contents.
  assert (last_is_empty (split_on NL t) = false) as ->.
  { unfold last_is_empty. destruct (last (split_on NL t)) as [[|x w]|] eqn:E; try done.
    apply split_on_last_empty in E as [->|E]; [done|]. congruence. }
  simpl. by rewrite join_snoc_nil, join_split_on by apply split_on_ne.
Qed.

(** A file that ends in a blank line loses it: replacing its line [l] by
    itself, which should change nothing, drops the second of the two newlines at
    the end of the file. *)
Theorem noop_update_drops_blank_line (l path : str) :
  NL ∉ l -> l <> [] ->
  derive_new_contents (l ++ [NL; NL]) path
    [{| change_context := None; old_lines := [l]; new_lines := [l];
        is_end_of_file := false |}]
  = Ok {| original_contents := l ++ [NL; NL]; new_contents := l ++ [NL] |}.
Proof.
  intros Hl Hne. unfold derive_new_contents.
  assert (split_contents (l ++ [NL; NL]) = [l; []]) as Hsplit.
  { replace (l ++ [NL; NL]) with ((l ++ [NL]) ++ [NL]) by by rewrite <- app_assoc.
    rewrite split_contents_newline, split_on_snoc, split_on_single by done. done. }
  rewrite Hsplit. unfold compute_replacements. simpl.
  unfold compute_replacement. simpl. unfold seek_sequence. simpl.
  unfold exact_at. simpl. rewrite bool_decide_true by done. simpl.
  reflexivity.
Qed.

(** Two chunks that change the first and the third of three lines. *)
Definition sample_chunks : list UpdateFileChunk :=
  [{| change_context := None; old_lines := [lit "a"]; new_lines := [lit "A"; lit "AA"];
      is_end_of_file := false |};
   {| change_context := Some (lit "b"); old_lines := [lit "c"]; new_lines := [];
      is_end_of_file := false |}].

Lemma ordered_chunks_splice_witness :
  exists rs, compute_replacements [lit "a"; lit "b"; lit "c"] [] sample_chunks = Ok rs /\
    disjoint_from 0 rs /\ Forall (in_range 3) rs /\
    Forall2 (explains [lit "a"; lit "b"; lit "c"]) sample_chunks rs /\
    apply_replacements (E := ApplyPatchError) [lit "a"; lit "b"; lit "c"] rs
      = Ok (splice 0 [lit "a"; lit "b"; lit "c"] rs).
Proof.
  eexists. split; [vm_compute; reflexivity|].
  apply (ordered_chunks_splice [lit "a"; lit "b"; lit "c"] [] sample_chunks);
    [repeat constructor; done|vm_compute; reflexivity].
Defined.

Lemma noop_update_drops_blank_line_witness :
  derive_new_contents (lit "x" ++ [NL; NL]) (lit "/f")
    [{| change_context := None; old_lines := [lit "x"]; new_lines := [lit "x"];
        is_end_of_file := false |}]
  = Ok {| original_contents := lit "x" ++ [NL; NL]; new_contents := lit "x" ++ [NL] |}.
Proof.
  apply (noop_update_drops_blank_line (lit "x") (lit "/f")); [|done].
  apply (bool_decide_unpack _). vm_compute. exact I.
Defined.

End PatchReplaceFacts.
