(* ===== verification/PatchApply.v ===== *)
(** * Applying a patch to a file system: src/apply-patch/src/lib.rs

    [apply_patch], [apply_hunks] and [apply_hunks_to_files], as actions on a file
    system that implements the trait [ExecutorFileSystem]. Standard output and
    standard error are texts that only grow; the writers of the tests, vectors in
    memory, never fail, and neither do these. *)

From Stdlib Require Import Ascii String.
From S2P Require Import Prelude RustStr Utf8 AbsPath FileSystem PatchParser PatchSeek.
From S2P Require Import PatchReplace.
Import Utf8 AbsPath PatchParser PatchReplace.

Module PatchApply.

(** [anyhow::Error] as this code builds it: [bail!], an I/O error with a context,
    or an [ApplyPatchError]. *)
Inductive anyhow :=
| Bail (message : str)
| IoContext (context : str) (source : io_error)
| Patch (e : ApplyPatchError).

(** [Display] of the error types. *)
Definition show_parse_error (e : ParseError) : str :=
  match e with
  | InvalidPatchError m => lit "invalid patch: " ++ m
  | InvalidHunkError m n => lit "invalid hunk at line " ++ show_nat n ++ lit ", " ++ m
  end.

Definition show_error (e : ApplyPatchError) : str :=
  match e with
  | ParseErr e => show_parse_error e
  | IoError context source => context ++ lit ": " ++ io_message source
  | ComputeReplacements m => m
  | ImplicitInvocation =>
      lit "patch detected without explicit call to apply_patch. Rerun as [" ++ [34%N]
      ++ lit "apply_patch" ++ [34%N] ++ lit ", " ++ [34%N] ++ lit "<patch>" ++ [34%N]
      ++ lit "]"
  end.

Definition show_anyhow (e : anyhow) : str :=
  match e with
  | Bail m => m
  | IoContext context _ => context
  | Patch e => show_error e
  end.

(** [impl From<&std::io::Error> for ApplyPatchError] *)
Definition from_io_error (e : io_error) : ApplyPatchError := IoError (lit "I/O error") e.

Record AffectedPaths := {
  added : list str;
  modified : list str;
  deleted : list str;
}.

Definition no_paths : AffectedPaths := {| added := []; modified := []; deleted := [] |}.
Definition push_added (p : str) (a : AffectedPaths) : AffectedPaths :=
  {| added := added a ++ [p]; modified := modified a; deleted := deleted a |}.
Definition push_modified (p : str) (a : AffectedPaths) : AffectedPaths :=
  {| added := added a; modified := modified a ++ [p]; deleted := deleted a |}.
Definition push_deleted (p : str) (a : AffectedPaths) : AffectedPaths :=
  {| added := added a; modified := modified a; deleted := deleted a ++ [p] |}.

Section Apply.
Context {S : Type} `{ExecutorFileSystem S}.
Context (home_dir : option str).

(** [Hunk::resolve_path]: the source of a rename, not its destination. *)
Definition resolve_path (h : Hunk) (cwd : str) : str :=
  let path := match h with
              | UpdateFile path _ _ => path
              | AddFile _ _ | DeleteFile _ => hunk_path h
              end in
  resolve_path_against_base home_dir path cwd.

Definition with_context {A} (context : str) (m : action S io_error A) : action S anyhow A :=
  act_map_err (IoContext context) m.

Definition write_file_with_missing_parent_retry (path_abs : str) (contents : list N)
    : action S anyhow unit := fun s =>
  match write_file path_abs contents s with
  | (s, Ok tt) => (s, Ok tt)
  | (s, Err err) =>
      match kind err with
      | NotFound =>
          (_ ← match abs_parent path_abs with
               | Some parent_abs =>
                   with_context (lit "Failed to create parent directories for " ++ path_abs)
                     (create_directory parent_abs true)
               | None => mret tt
               end;
           with_context (lit "Failed to write file " ++ path_abs)
             (write_file path_abs contents)) s
      | _ => (s, Err (IoContext (lit "Failed to write file " ++ path_abs) err))
      end
  | (s, Crash c) => (s, Crash c)
  end.

(** The block that deletes a file but refuses a directory, used twice. *)
Definition remove_file (path_abs : str) : action S io_error unit :=
  metadata ← query (get_metadata path_abs);
  if is_directory metadata
  then act_err {| kind := InvalidInput; io_message := lit "path is a directory" |}
  else remove path_abs false false.

Definition derive_new_contents_from_chunks (path_abs : str) (chunks : list UpdateFileChunk)
    : action S ApplyPatchError AppliedPatch :=
  original_contents ← act_map_err
    (IoError (lit "Failed to read file to update " ++ path_abs))
    (query (read_file_text path_abs));
  lift_result (derive_new_contents original_contents path_abs chunks).

(** One turn of the loop of [apply_hunks_to_files]. *)
Definition apply_hunk (cwd : str) (hunk : Hunk) (affected : AffectedPaths)
    : action S anyhow AffectedPaths :=
  let affected_path := hunk_path hunk in
  let path_abs := resolve_path hunk cwd in
  match hunk with
  | AddFile _ contents =>
      _ ← write_file_with_missing_parent_retry path_abs (encode contents);
      mret (push_added affected_path affected)
  | DeleteFile _ =>
      _ ← with_context (lit "Failed to delete file " ++ path_abs) (remove_file path_abs);
      mret (push_deleted affected_path affected)
  | UpdateFile _ move_path chunks =>
      applied ← act_map_err Patch (derive_new_contents_from_chunks path_abs chunks);
      match move_path with
      | Some dest =>
          let dest_abs := resolve_path_against_base home_dir dest cwd in
          _ ← write_file_with_missing_parent_retry dest_abs (encode (new_contents applied));
          _ ← with_context (lit "Failed to remove original " ++ path_abs)
                (remove_file path_abs);
          mret (push_modified affected_path affected)
      | None =>
          _ ← with_context (lit "Failed to write file " ++ path_abs)
                (write_file path_abs (encode (new_contents applied)));
          mret (push_modified affected_path affected)
      end
  end.

Fixpoint apply_all (cwd : str) (hunks : list Hunk) (affected : AffectedPaths)
    : action S anyhow AffectedPaths :=
  match hunks with
  | [] => mret affected
  | hunk :: hunks =>
      affected ← apply_hunk cwd hunk affected;
      apply_all cwd hunks affected
  end.

Definition apply_hunks_to_files (hunks : list Hunk) (cwd : str)
    : action S anyhow AffectedPaths :=
  if bool_decide (hunks = []) then act_err (Bail (lit "No files were modified."))
  else apply_all cwd hunks no_paths.

(** ** Output *)

Record world := { fs : S; stdout : str; stderr : str }.

Definition on_fs {E A} (m : action S E A) : action world E A := fun w =>
  let '(s, r) := m (fs w) in ({| fs := s; stdout := stdout w; stderr := stderr w |}, r).

Definition writeln_out {E} (line : str) : action world E unit := fun w =>
  ({| fs := fs w; stdout := stdout w ++ line ++ [NL]; stderr := stderr w |}, Ok tt).

Definition writeln_err {E} (line : str) : action world E unit := fun w =>
  ({| fs := fs w; stdout := stdout w; stderr := stderr w ++ line ++ [NL] |}, Ok tt).

Fixpoint print_paths {E} (label : str) (paths : list str) : action world E unit :=
  match paths with
  | [] => mret tt
  | path :: paths => _ ← writeln_out (label ++ path); print_paths label paths
  end.

Definition print_summary {E} (affected : AffectedPaths) : action world E unit :=
  _ ← writeln_out (lit "Success. Updated the following files:");
  _ ← print_paths (lit "A ") (added affected);
  _ ← print_paths (lit "M ") (modified affected);
  print_paths (lit "D ") (deleted affected).

Definition apply_hunks (hunks : list Hunk) (cwd : str)
    : action world ApplyPatchError unit := fun w =>
  match on_fs (apply_hunks_to_files hunks cwd) w with
  | (w, Ok affected) => print_summary affected w
  | (w, Err err) =>
      let msg := show_anyhow err in
      (_ ← writeln_err msg;
       match err with
       | IoContext _ io => act_err (from_io_error io)
       | Bail _ | Patch _ =>
           act_err (IoError msg {| kind := OtherKind; io_message := msg |})
       end) w
  | (w, Crash c) => (w, Crash c)
  end.

Definition apply_patch (patch : str) (cwd : str) : action world ApplyPatchError unit := fun w =>
  match parse_patch patch with
  | Ok source => apply_hunks (hunks source) cwd w
  | Err e =>
      (_ ← match e with
           | InvalidPatchError message => writeln_err (lit "Invalid patch: " ++ message)
           | InvalidHunkError message line_number =>
               writeln_err (lit "Invalid patch hunk on line " ++ show_nat line_number
                            ++ lit ": " ++ message)
           end;
       act_err (ParseErr e)) w
  | Crash c => (w, Crash c)
  end.

(** ** The proposed changes: the loop of [maybe_parse_apply_patch_verified] *)

(** The crate [similar] makes the unified diff; its text is only shown. *)
Context (unified_diff : str -> str -> nat -> str).

Inductive ApplyPatchFileChange :=
| Add (content : str)
| Delete (content : str)
| Update (diff : str) (move_path : option str) (new_content : str).

Definition unified_diff_from_chunks_with_context (path_abs : str)
    (chunks : list UpdateFileChunk) (context : nat) : action S ApplyPatchError (str * str) :=
  applied ← derive_new_contents_from_chunks path_abs chunks;
  mret (unified_diff (original_contents applied) (new_contents applied) context,
        new_contents applied).

Definition unified_diff_from_chunks (path_abs : str) (chunks : list UpdateFileChunk)
    : action S ApplyPatchError (str * str) :=
  unified_diff_from_chunks_with_context path_abs chunks 1.

Definition propose_change (effective_cwd : str) (hunk : Hunk)
    : action S ApplyPatchError (str * ApplyPatchFileChange) :=
  let path := resolve_path hunk effective_cwd in
  match hunk with
  | AddFile _ contents => mret (path, Add contents)
  | DeleteFile _ =>
      content ← act_map_err (IoError (lit "Failed to read " ++ path))
                  (query (read_file_text path));
      mret (path, Delete content)
  | UpdateFile _ move_path chunks =>
      '(diff, contents) ← unified_diff_from_chunks path chunks;
      mret (path, Update diff (abs_join home_dir effective_cwd <$> move_path) contents)
  end.

Fixpoint propose_changes (effective_cwd : str) (hunks : list Hunk)
    (changes : gmap (list N) ApplyPatchFileChange)
    : action S ApplyPatchError (gmap (list N) ApplyPatchFileChange) :=
  match hunks with
  | [] => mret changes
  | hunk :: hunks =>
      '(path, change) ← propose_change effective_cwd hunk;
      propose_changes effective_cwd hunks (<[path := change]> changes)
  end.

End Apply.

Arguments world S : clear implicits.
Arguments Build_world {S} _ _ _.

End PatchApply.
