(* ===== verification/PatchApplyFacts.v ===== *)
(** * Facts about applying patches

    Proved against the interface [FileSystemLaws] only: what a patch writes, what
    it leaves alone, and that the changes proposed for approval are the changes
    that are applied. *)

From Stdlib Require Import Ascii String.
From S2P Require Import Prelude RustStr Utf8 AbsPath FileSystem PatchParser PatchSeek.
From S2P Require Import PatchReplace PatchParserFacts PatchApply.
Import Utf8 AbsPath PatchParser PatchParserFacts PatchReplace PatchReplaceFacts PatchApply.

Module PatchApplyFacts.

Section Facts.
Context {S : Type} `{FileSystemLaws S}.
Context (home : option str).

(** A file keeps its contents. *)
Definition preserved (q : str) (s s' : S) : Prop :=
  forall c, read_file q s' = Ok c <-> read_file q s = Ok c.

Lemma preserved_refl (q : str) (s : S) : preserved q s s.
Proof. done. Qed.

Lemma preserved_trans (q : str) (s1 s2 s3 : S) :
  preserved q s1 s2 -> preserved q s2 s3 -> preserved q s1 s3.
Proof. unfold preserved. intros H1 H2 c. by rewrite H2. Qed.

(** The laws, in terms of [preserved]. *)
Lemma write_preserves (p q : str) (b : list N) (s s' : S) (r : result io_error unit) :
  write_file p b s = (s', r) -> q <> p -> preserved q s s'.
Proof. intros Hw Hq c. by eapply write_frame. Qed.

Lemma create_preserves (p q : str) (s s' : S) (r : result io_error unit) :
  create_directory p true s = (s', r) -> preserved q s s'.
Proof. intros Hw c. by eapply create_frame. Qed.

Lemma remove_preserves (p q : str) (f : bool) (s s' : S) (r : result io_error unit) :
  remove p false f s = (s', r) -> q <> p -> preserved q s s'.
Proof. intros Hw Hq c. by eapply remove_frame. Qed.

Lemma act_bind_inv {E A B} (m : action S E A) (f : A -> action S E B) (s s' : S)
    (r : result E B) :
  (m ≫= f) s = (s', r) ->
  (exists a s1, m s = (s1, Ok a) /\ f a s1 = (s', r)) \/
  (exists e, m s = (s', Err e) /\ r = Err e) \/ (exists c, m s = (s', Crash c) /\ r = Crash c).
Proof.
  unfold mbind, action_bind. destruct (m s) as [s1 [a|e|c]]; [left; eauto|right; left|right; right];
    by simplify_eq; eauto.
Qed.

Lemma act_bind_Ok {E A B} (m : action S E A) (f : A -> action S E B) (s s' : S) (b : B) :
  (m ≫= f) s = (s', Ok b) <-> exists a s1, m s = (s1, Ok a) /\ f a s1 = (s', Ok b).
Proof.
  unfold mbind, action_bind. destruct (m s) as [s1 [a|e|c]]; naive_solver.
Qed.

Lemma act_bind_no_crash {E A B} (m : action S E A) (f : A -> action S E B) (s : S) :
  no_crash (m s).2 -> (forall a s', no_crash (f a s').2) -> no_crash ((m ≫= f) s).2.
Proof.
  unfold mbind, action_bind. destruct (m s) as [s1 [a|e|c]]; simpl; intros Hm Hf;
    [apply Hf|auto with agere|by destruct (Hm c)].
Qed.

Lemma map_err_no_crash {E F A} (f : E -> F) (m : action S E A) (s : S) :
  no_crash (m s).2 -> no_crash (act_map_err f m s).2.
Proof.
  unfold act_map_err. destruct (m s) as [s1 [a|e|c]]; simpl; auto with agere.
  intros Hc. by destruct (Hc c).
Qed.

Lemma map_err_state {E F A} (f : E -> F) (m : action S E A) (s s' : S) (r : result F A) :
  act_map_err f m s = (s', r) ->
  exists r0, m s = (s', r0) /\ forall a, r = Ok a -> r0 = Ok a.
Proof.
  unfold act_map_err. destruct (m s) as [s1 r0]. intros ?; simplify_eq.
  eexists; split; [done|]. by destruct r0; intros; simplify_eq/=.
Qed.

Lemma map_err_bind_Ok {E F A B} (f : E -> F) (m : action S E A) (k : A -> action S F B)
    (s s' : S) (a : A) :
  m s = (s', Ok a) -> (act_map_err f m ≫= k) s = k a s'.
Proof. unfold mbind, action_bind, act_map_err. by intros ->. Qed.

(** ** Writing and removing *)

Lemma write_retry_frame (p q : str) (b : list N) (s s' : S) (r : result anyhow unit) :
  write_file_with_missing_parent_retry p b s = (s', r) -> q <> p -> preserved q s s'.
Proof.
  unfold write_file_with_missing_parent_retry. intros Hw Hq.
  assert (forall s2 s3 r3, with_context (lit "Failed to write file " ++ p) (write_file p b) s2
            = (s3, r3) -> preserved q s2 s3) as Hwr.
  { intros s2 s3 r3 (r0 & Hr & _)%map_err_state. by eapply write_preserves. }
  destruct (write_file p b s) as [s1 r1] eqn:E.
  assert (preserved q s s1) as H1 by (by eapply write_preserves).
  apply (preserved_trans _ _ s1); [done|].
  destruct r1 as [[]|e|c]; [by simplify_eq|destruct (kind e); try by simplify_eq|by simplify_eq].
  destruct (abs_parent p) as [d|].
  - apply act_bind_inv in Hw as [(a & s2 & Hc & Hw)|[(e' & Hc & ->)|(c & Hc & ->)]];
      apply map_err_state in Hc as (r0 & Hc & _).
    + apply (preserved_trans _ _ s2); [by eapply create_preserves|by eapply Hwr].
    + by eapply create_preserves.
    + by eapply create_preserves.
  - by eapply Hwr.
Qed.

Lemma write_retry_read (p : str) (b : list N) (s s' : S) :
  write_file_with_missing_parent_retry p b s = (s', Ok tt) -> read_file p s' = Ok b.
Proof.
  unfold write_file_with_missing_parent_retry. intros Hw.
  destruct (write_file p b s) as [s1 [[]|e|c]] eqn:E; simplify_eq; [by eapply write_read|].
  assert (forall s2 s3, with_context (lit "Failed to write file " ++ p) (write_file p b) s2
            = (s3, Ok tt) -> read_file p s3 = Ok b) as Hwr.
  { intros s2 s3 (r0 & Hr & Hok)%map_err_state. rewrite (Hok tt eq_refl) in Hr.
    by eapply write_read. }
  destruct (kind e); simplify_eq.
  apply act_bind_Ok in Hw as ([] & s2 & _ & Hw). by eapply Hwr.
Qed.

Lemma remove_file_frame (p q : str) (s s' : S) (r : result io_error unit) :
  remove_file p s = (s', r) -> q <> p -> preserved q s s'.
Proof.
  unfold remove_file. intros Hr Hq.
  apply act_bind_inv in Hr as [(m & s1 & Hm & Hr)|[(e & Hm & _)|(c & Hm & _)]];
    unfold query in Hm; simplify_eq; try done.
  destruct (is_directory m); [unfold act_err in Hr; by simplify_eq|]. by eapply remove_preserves.
Qed.

Lemma remove_file_read (p : str) (s s' : S) :
  remove_file p s = (s', Ok tt) -> forall c, read_file p s' <> Ok c.
Proof.
  unfold remove_file. intros (m & s1 & Hm & Hr)%act_bind_Ok.
  destruct (is_directory m); [done|]. by eapply remove_read.
Qed.

(** Deriving the new contents reads the file and writes nothing. *)
Lemma derive_action (p : str) (cs : list UpdateFileChunk) (s : S) :
  derive_new_contents_from_chunks p cs s
  = (s, match read_file_text p s with
        | Ok t => derive_new_contents t p cs
        | Err e => Err (IoError (lit "Failed to read file to update " ++ p) e)
        | Crash c => Crash c
        end).
Proof.
  unfold derive_new_contents_from_chunks, mbind, action_bind, act_map_err, query, lift_result.
  by destruct (read_file_text p s).
Qed.

(** ** Hunks *)

(** The paths a hunk may write to. *)
Definition touched (cwd : str) (h : Hunk) : list str :=
  resolve_path home h cwd ::
  match h with
  | UpdateFile _ (Some dest) _ => [resolve_path_against_base home dest cwd]
  | _ => []
  end.

Lemma with_context_write_frame (p q : str) (b : list N) (ctx : str) (s s' : S)
    (r : result anyhow unit) :
  with_context ctx (write_file p b) s = (s', r) -> q <> p -> preserved q s s'.
Proof. intros (r0 & Hr & _)%map_err_state Hq. by eapply write_preserves. Qed.

Lemma with_context_remove_frame (p q : str) (ctx : str) (s s' : S) (r : result anyhow unit) :
  with_context ctx (remove_file p) s = (s', r) -> q <> p -> preserved q s s'.
Proof. intros (r0 & Hr & _)%map_err_state Hq. by eapply remove_file_frame. Qed.

Ltac split_bind H :=
  apply act_bind_inv in H as [(?a & ?s & ?Hm & H)|[(?e & ?Hm & ?)|(?c & ?Hm & ?)]].

Lemma apply_hunk_frame (cwd q : str) (h : Hunk) (a : AffectedPaths) (s s' : S)
    (r : result anyhow AffectedPaths) :
  apply_hunk home cwd h a s = (s', r) -> q ∉ touched cwd h -> preserved q s s'.
Proof.
  unfold apply_hunk, touched. intros Hr Hq. apply not_elem_of_cons in Hq as [Hq Hqs].
  destruct h as [p t|p|p [d|] cs].
  - split_bind Hr; unfold mret, action_ret in *; simplify_eq; by eapply write_retry_frame.
  - split_bind Hr; unfold mret, action_ret in *; simplify_eq; by eapply with_context_remove_frame.
  - apply not_elem_of_cons in Hqs as [Hd _].
    split_bind Hr; unfold act_map_err in Hm; rewrite derive_action in Hm; simplify_eq;
      try apply preserved_refl.
    split_bind Hr; simplify_eq; try by eapply write_retry_frame.
    eapply preserved_trans; [by eapply write_retry_frame|].
    split_bind Hr; unfold mret, action_ret in *; simplify_eq; by eapply with_context_remove_frame.
  - split_bind Hr; unfold act_map_err in Hm; rewrite derive_action in Hm; simplify_eq;
      try apply preserved_refl.
    split_bind Hr; unfold mret, action_ret in *; simplify_eq; by eapply with_context_write_frame.
Qed.

Lemma apply_all_frame (cwd q : str) (hs : list Hunk) (a : AffectedPaths) (s s' : S)
    (r : result anyhow AffectedPaths) :
  apply_all home cwd hs a s = (s', r) -> q ∉ concat (map (touched cwd) hs) -> preserved q s s'.
Proof.
  revert a s. induction hs as [|h hs IH]; intros a s Hr Hq; cbn [apply_all map concat] in *.
  - unfold mret, action_ret in Hr. by simplify_eq.
  - apply not_elem_of_app in Hq as [Hh Hhs].
    split_bind Hr; try by eapply apply_hunk_frame.
    eapply preserved_trans; [by eapply apply_hunk_frame|by eapply IH].
Qed.

(** ** No action panics *)

Lemma write_no_crash (p : str) (b : list N) (s : S) : no_crash (write_file p b s).2.
Proof. apply (fs_no_crash p b false false s). Qed.

Lemma remove_file_no_crash (p : str) (s : S) : no_crash (remove_file p s).2.
Proof.
  unfold remove_file. apply act_bind_no_crash; [apply (fs_no_crash p [] false false s)|].
  intros m s1. destruct (is_directory m); [simpl; auto with agere|].
  apply (fs_no_crash p [] false false s1).
Qed.

Lemma write_retry_no_crash (p : str) (b : list N) (s : S) :
  no_crash (write_file_with_missing_parent_retry p b s).2.
Proof.
  unfold write_file_with_missing_parent_retry. pose proof (write_no_crash p b s) as Hw.
  destruct (write_file p b s) as [s1 [[]|e|c]]; simpl in *; auto with agere;
    [|by destruct (Hw c)].
  destruct (kind e); simpl; auto with agere.
  apply act_bind_no_crash.
  - destruct (abs_parent p) as [d|]; [|simpl; auto with agere].
    apply map_err_no_crash. apply (fs_no_crash d [] true false s1).
  - intros [] s2. apply map_err_no_crash, write_no_crash.
Qed.

Lemma read_file_text_no_crash (p : str) (s : S) : no_crash (read_file_text p s).
Proof.
  unfold read_file_text. apply no_crash_bind; [apply (fs_no_crash p [] false false s)|].
  intros b _. destruct (from_utf8 b); auto with agere.
Qed.

Lemma derive_action_no_crash (p : str) (cs : list UpdateFileChunk) (s : S) :
  no_crash (derive_new_contents_from_chunks p cs s).2.
Proof.
  rewrite derive_action. simpl. pose proof (read_file_text_no_crash p s) as Hr.
  destruct (read_file_text p s) as [t|e|c]; [|auto with agere|by destruct (Hr c)].
  apply derive_new_contents_no_crash.
Qed.

Lemma apply_hunk_no_crash (cwd : str) (h : Hunk) (a : AffectedPaths) (s : S) :
  no_crash (apply_hunk home cwd h a s).2.
Proof.
  assert (forall (a' : AffectedPaths) (s' : S),
    no_crash ((mret a' : action S anyhow AffectedPaths) s').2) as Hret
    by (intros; simpl; auto with agere).
  unfold apply_hunk. destruct h as [p t|p|p d cs].
  - apply act_bind_no_crash; [apply write_retry_no_crash|auto].
  - apply act_bind_no_crash; [apply map_err_no_crash, remove_file_no_crash|auto].
  - apply act_bind_no_crash; [apply map_err_no_crash, derive_action_no_crash|].
    intros ap s1. destruct d as [d|]; (apply act_bind_no_crash;
      [first [apply write_retry_no_crash|apply map_err_no_crash, write_no_crash]|]);
      intros [] s2; [|auto].
    apply act_bind_no_crash; [apply map_err_no_crash, remove_file_no_crash|auto].
Qed.

Lemma apply_all_no_crash (cwd : str) (hs : list Hunk) (a : AffectedPaths) (s : S) :
  no_crash (apply_all home cwd hs a s).2.
Proof.
  revert a s. induction hs as [|h hs IH]; intros a s; cbn [apply_all].
  - simpl. auto with agere.
  - apply act_bind_no_crash; [apply apply_hunk_no_crash|auto].
Qed.

Lemma apply_hunks_to_files_no_crash (hs : list Hunk) (cwd : str) (s : S) :
  no_crash (apply_hunks_to_files home hs cwd s).2.
Proof.
  unfold apply_hunks_to_files. case_bool_decide; [simpl; auto with agere|].
  apply apply_all_no_crash.
Qed.

(** ** The summary *)

(** The paths of the hunks of each kind, as the summary lists them. *)
Definition paths_of (keep : Hunk -> bool) (hs : list Hunk) : list str :=
  hunk_path <$> filter (fun h => keep h = true) hs.

Definition is_add (h : Hunk) : bool := match h with AddFile _ _ => true | _ => false end.
Definition is_update (h : Hunk) : bool := match h with UpdateFile _ _ _ => true | _ => false end.
Definition is_delete (h : Hunk) : bool := match h with DeleteFile _ => true | _ => false end.

Definition affected_of (hs : list Hunk) (a : AffectedPaths) : AffectedPaths :=
  {| added := added a ++ paths_of is_add hs; modified := modified a ++ paths_of is_update hs;
     deleted := deleted a ++ paths_of is_delete hs |}.

Definition labelled (label : str) (ps : list str) : str :=
  concat ((fun p => label ++ p ++ [NL]) <$> ps).

Definition summary_text (hs : list Hunk) : str :=
  lit "Success. Updated the following files:" ++ [NL] ++
  labelled (lit "A ") (paths_of is_add hs) ++ labelled (lit "M ") (paths_of is_update hs)
  ++ labelled (lit "D ") (paths_of is_delete hs).

Lemma apply_hunk_affected (cwd : str) (h : Hunk) (a a' : AffectedPaths) (s s' : S) :
  apply_hunk home cwd h a s = (s', Ok a') -> a' = affected_of [h] a.
Proof.
  unfold apply_hunk, affected_of, paths_of, push_added, push_modified, push_deleted.
  destruct h as [p t|p|p [d|] cs]; cbn -[encode]; intros Hr;
    repeat (apply act_bind_Ok in Hr as (? & ? & _ & Hr)); unfold mret, action_ret in Hr;
    simplify_eq; by rewrite ?app_nil_r.
Qed.

Lemma affected_of_app (hs1 hs2 : list Hunk) (a : AffectedPaths) :
  affected_of hs2 (affected_of hs1 a) = affected_of (hs1 ++ hs2) a.
Proof.
  unfold affected_of, paths_of. simpl. by rewrite !filter_app, !fmap_app, <- !app_assoc.
Qed.

Lemma apply_all_affected (cwd : str) (hs : list Hunk) (a a' : AffectedPaths) (s s' : S) :
  apply_all home cwd hs a s = (s', Ok a') -> a' = affected_of hs a.
Proof.
  revert a s. induction hs as [|h hs IH]; intros a s; cbn [apply_all].
  - unfold mret, action_ret. intros ?; simplify_eq. destruct a'. unfold affected_of.
    simpl. by rewrite !app_nil_r.
  - intros (a1 & s1 & ->%apply_hunk_affected & ->%IH)%act_bind_Ok.
    by rewrite (affected_of_app [h] hs).
Qed.

Definition says (w : world S) (out : str) : world S :=
  {| fs := fs w; stdout := stdout w ++ out; stderr := stderr w |}.

Lemma says_says (w : world S) (o1 o2 : str) : says (says w o1) o2 = says w (o1 ++ o2).
Proof. unfold says. simpl. by rewrite app_assoc. Qed.

Lemma print_paths_says {E} (label : str) (ps : list str) (w : world S) :
  print_paths (E := E) label ps w = (says w (labelled label ps), Ok tt).
Proof.
  revert w. induction ps as [|p ps IH]; intros w; cbn [print_paths].
  - destruct w. unfold says. simpl. by rewrite app_nil_r.
  - unfold mbind, action_bind. simpl. rewrite IH.
    change (Build_world _ _ _) with (says w ((label ++ p) ++ [NL])).
    rewrite says_says. unfold labelled. simpl. by rewrite <- !app_assoc.
Qed.

Lemma print_summary_says {E} (hs : list Hunk) (w : world S) :
  print_summary (E := E) (affected_of hs no_paths) w = (says w (summary_text hs), Ok tt).
Proof.
  unfold print_summary, mbind, action_bind. simpl.
  change (Build_world _ _ _)
    with (says w (lit "Success. Updated the following files:" ++ [NL])).
  rewrite !print_paths_says, !says_says. unfold summary_text. by rewrite <- !app_assoc.
Qed.

(** ** What a hunk means for the files

    The reference that [apply_patch] is compared with: the files are a map from
    paths to contents, and each hunk changes that map, independently of the calls
    that write it. *)

Definition files := str -> option (list N).

Definition files_of (s : S) : files := fun p =>
  match read_file p s with Ok b => Some b | _ => None end.

Definition put (p : str) (c : option (list N)) (v : files) : files := fun q =>
  if decide (q = p) then c else v q.

(** The same files, except perhaps at some paths. *)
Definition same_but (ps : list str) (v v' : files) : Prop := forall q, q ∉ ps -> v' q = v q.

Definition text_at (v : files) (p : str) : option str := v p ≫= from_utf8.

Definition at_cwd (cwd p : str) : str := resolve_path_against_base home p cwd.

(** What a hunk leaves when it is applied to the files [v]: an added file has the
    given contents, a deleted file cannot be read, an updated file has the contents
    that its chunks make of the old text, and a moved one has them at the new path
    and cannot be read at the old one. All other files are as they were. *)
Definition hunk_leaves (cwd : str) (h : Hunk) (v v' : files) : Prop :=
  match h with
  | AddFile p t => forall q, v' q = put (at_cwd cwd p) (Some (encode t)) v q
  | DeleteFile p => forall q, v' q = put (at_cwd cwd p) None v q
  | UpdateFile p d cs => exists t ap, text_at v (at_cwd cwd p) = Some t /\
      derive_new_contents t (at_cwd cwd p) cs = Ok ap /\
      let new := Some (encode (new_contents ap)) in
      forall q, v' q = match d with
                       | None => put (at_cwd cwd p) new v q
                       | Some d => put (at_cwd cwd p) None (put (at_cwd cwd d) new v) q
                       end
  end.

(** A list of hunks, one after the other. *)
Inductive hunks_leave (cwd : str) : list Hunk -> files -> files -> Prop :=
| leave_nil v : hunks_leave cwd [] v v
| leave_cons h hs v v1 v' :
    hunk_leaves cwd h v v1 -> hunks_leave cwd hs v1 v' -> hunks_leave cwd (h :: hs) v v'.

(** ** Why a hunk fails *)

(** The file system refused to write [p], with the other files as in [v]: with an
    error other than "not found", or after its parent directory was made, or because
    that directory could not be made. *)
Definition write_refused (p : str) (b : list N) (v : files) (m : str) (io : io_error) : Prop :=
  (m = lit "Failed to write file " ++ p /\ exists s, same_but [p] v (files_of s) /\
     (write_file p b s).2 = Err io /\
     (kind io = NotFound -> forall d, abs_parent p = Some d ->
        exists s0, create_directory d true s0 = (s, Ok tt))) \/
  (m = lit "Failed to create parent directories for " ++ p /\ exists d s,
     abs_parent p = Some d /\ same_but [p] v (files_of s) /\
     (create_directory d true s).2 = Err io).

(** The file system refused to remove [p], or there is a directory at [p]. *)
Definition removal_refused (p : str) (v : files) (io : io_error) : Prop :=
  exists s, (forall q, files_of s q = v q) /\
    (get_metadata p s = Err io \/
     exists md, get_metadata p s = Ok md /\
       if is_directory md
       then io = {| kind := InvalidInput; io_message := lit "path is a directory" |}
       else (remove p false false s).2 = Err io).

(** The errors that are not the file system's own are reported with their text. *)
Definition text_error (m : str) : ApplyPatchError :=
  IoError m {| kind := OtherKind; io_message := m |}.

Definition hunk_fails (cwd : str) (h : Hunk) (v v' : files) (m : str) (e : ApplyPatchError)
    : Prop :=
  match h with
  | AddFile p t => exists io, e = IoError (lit "I/O error") io /\
      write_refused (at_cwd cwd p) (encode t) v m io /\ same_but [at_cwd cwd p] v v'
  | DeleteFile p => exists io, e = IoError (lit "I/O error") io /\
      m = lit "Failed to delete file " ++ at_cwd cwd p /\
      removal_refused (at_cwd cwd p) v io /\ same_but [at_cwd cwd p] v v'
  | UpdateFile p d cs =>
      let path := at_cwd cwd p in
      match text_at v path with
      | None => e = text_error m /\ same_but [] v v' /\ exists io,
          m = lit "Failed to read file to update " ++ path ++ lit ": " ++ io_message io
      | Some t =>
          match derive_new_contents t path cs with
          | Ok ap =>
              let new := encode (new_contents ap) in
              exists io, e = IoError (lit "I/O error") io /\
              match d with
              | None => m = lit "Failed to write file " ++ path /\ same_but [path] v v' /\
                  exists s, (forall q, files_of s q = v q) /\ (write_file path new s).2 = Err io
              | Some d =>
                  let dest := at_cwd cwd d in
                  (write_refused dest new v m io /\ same_but [dest] v v') \/
                  (m = lit "Failed to remove original " ++ path /\
                   removal_refused path (put dest (Some new) v) io /\
                   same_but [path] (put dest (Some new) v) v')
              end
          | Err er => m = show_error er /\ e = text_error m /\ same_but [] v v'
          | Crash _ => False
          end
      end
  end.

Lemma preserved_files (q : str) (s s' : S) : preserved q s s' -> files_of s' q = files_of s q.
Proof.
  unfold preserved, files_of. intros Hp.
  destruct (read_file q s) as [b|e|c] eqn:E; [by rewrite (proj2 (Hp b) eq_refl)|..];
    (destruct (read_file q s') as [b'|e'|c']; [|done|done];
     discriminate (proj1 (Hp b') eq_refl)).
Qed.

Lemma files_read (p : str) (b : list N) (s : S) :
  read_file p s = Ok b -> files_of s p = Some b.
Proof. unfold files_of. by intros ->. Qed.

Lemma files_unread (p : str) (s : S) :
  (forall c, read_file p s <> Ok c) -> files_of s p = None.
Proof. unfold files_of. intros Hr. by destruct (read_file p s) as [b|e|c]; [destruct (Hr b)|..]. Qed.

Lemma same_but_of (p : str) (s s' : S) :
  (forall q, q <> p -> preserved q s s') -> same_but [p] (files_of s) (files_of s').
Proof. intros Hp q Hq. apply preserved_files, Hp. set_solver. Qed.

(** A path whose new contents are known, and the others kept. *)
Lemma files_put (p : str) (c : option (list N)) (s s' : S) :
  (forall q, q <> p -> preserved q s s') -> files_of s' p = c ->
  forall q, files_of s' q = put p c (files_of s) q.
Proof.
  intros Hp Hc q. unfold put. case_decide as Hq; [by subst|]. by apply preserved_files, Hp.
Qed.

Lemma write_retry_refused (p : str) (b : list N) (s s' : S) (err : anyhow) :
  write_file_with_missing_parent_retry p b s = (s', Err err) ->
  exists m io, err = IoContext m io /\ write_refused p b (files_of s) m io.
Proof.
  unfold write_file_with_missing_parent_retry, write_refused. intros Hw.
  destruct (write_file p b s) as [s1 [[]|io|c]] eqn:E; simplify_eq.
  assert (same_but [p] (files_of s) (files_of s1)) as H1
    by (apply same_but_of; intros q Hq; by eapply write_preserves).
  destruct (decide (kind io = NotFound)) as [Hk|Hk].
  2: { assert (err = IoContext (lit "Failed to write file " ++ p) io) as ->
         by (destruct (kind io); naive_solver).
       eexists _, io. split; [done|]. left. split; [done|]. exists s.
       by rewrite E. }
  rewrite Hk in Hw. unfold with_context, act_map_err in Hw.
  destruct (abs_parent p) as [d|] eqn:Ed; unfold mbind, action_bind in Hw.
  - destruct (create_directory d true s1) as [s2 [[]|io2|c]] eqn:Ec; simpl in Hw.
    + destruct (write_file p b s2) as [s3 [[]|io3|c]] eqn:E3; simplify_eq/=.
      eexists _, io3. split; [done|]. left. split; [done|]. exists s2. rewrite E3.
      split; [|split; [done|intros _ d' ?; simplify_eq; eauto]].
      intros q Hq. rewrite <- (H1 q Hq). eapply preserved_files, create_preserves. done.
    + simplify_eq. eexists _, io2. split; [done|]. right. split; [done|].
      exists d, s1. by rewrite Ec.
    + done.
  - simpl in Hw. destruct (write_file p b s1) as [s3 [[]|io3|c]] eqn:E3; simplify_eq/=.
    eexists _, io3. split; [done|]. left. split; [done|]. exists s1. by rewrite E3.
Qed.

Lemma remove_file_refused (p : str) (s s' : S) (io : io_error) :
  remove_file p s = (s', Err io) -> removal_refused p (files_of s) io.
Proof.
  unfold remove_file, removal_refused, mbind, action_bind, query. intros Hr.
  exists s. split; [done|]. destruct (get_metadata p s) as [md|e|c]; simplify_eq; [|by left].
  right. exists md. split; [done|]. unfold act_err in Hr.
  destruct (is_directory md); [by simplify_eq|]. by rewrite Hr.
Qed.


(** ** What a hunk leaves, and how it fails *)

Lemma text_of_read (p t : str) (s : S) :
  read_file_text p s = Ok t <-> text_at (files_of s) p = Some t.
Proof.
  unfold read_file_text, text_at, files_of.
  destruct (read_file p s) as [b|e|c]; simpl; [|done|done].
  destruct (from_utf8 b); unfold mbind, result_bind; naive_solver.
Qed.

Lemma remove_file_leaves (p : str) (s s' : S) :
  remove_file p s = (s', Ok tt) -> forall q, files_of s' q = put p None (files_of s) q.
Proof.
  intros Hr. apply files_put.
  - intros q Hq. by eapply remove_file_frame.
  - apply files_unread. by eapply remove_file_read.
Qed.

Lemma write_retry_leaves (p : str) (b : list N) (s s' : S) :
  write_file_with_missing_parent_retry p b s = (s', Ok tt) ->
  forall q, files_of s' q = put p (Some b) (files_of s) q.
Proof.
  intros Hw. apply files_put.
  - intros q Hq. by eapply write_retry_frame.
  - apply files_read. by eapply write_retry_read.
Qed.

Lemma with_context_inv {A} (ctx : str) (m : action S io_error A) (s s' : S)
    (r : result anyhow A) :
  with_context ctx m s = (s', r) ->
  match r with
  | Ok a => m s = (s', Ok a)
  | Err err => exists io, err = IoContext ctx io /\ m s = (s', Err io)
  | Crash c => m s = (s', Crash c)
  end.
Proof.
  unfold with_context, act_map_err. destruct (m s) as [s1 [a|e|c]]; intros; simplify_eq/=; eauto.
Qed.

(** What [apply_hunks] reports of an error. *)
Definition reported (err : anyhow) : ApplyPatchError :=
  match err with
  | IoContext _ io => IoError (lit "I/O error") io
  | Bail _ | Patch _ => text_error (show_anyhow err)
  end.

(** The result of one hunk against the reference. *)
Definition hunk_result (cwd : str) (h : Hunk) (v v' : files)
    (r : result anyhow AffectedPaths) : Prop :=
  match r with
  | Ok _ => hunk_leaves cwd h v v'
  | Err err => hunk_fails cwd h v v' (show_anyhow err) (reported err)
  | Crash _ => True
  end.

Lemma write_retry_same_but (p : str) (b : list N) (s s' : S) (r : result anyhow unit) :
  write_file_with_missing_parent_retry p b s = (s', r) -> same_but [p] (files_of s) (files_of s').
Proof. intros Hw. apply same_but_of. intros q Hq. by eapply write_retry_frame. Qed.

Lemma remove_file_same_but (p : str) (s s' : S) (r : result io_error unit) :
  remove_file p s = (s', r) -> same_but [p] (files_of s) (files_of s').
Proof. intros Hw. apply same_but_of. intros q Hq. by eapply remove_file_frame. Qed.

Lemma same_but_put (p : str) (c : option (list N)) (v u u' : files) (ps : list str) :
  (forall q, u q = put p c v q) -> same_but ps u u' -> same_but ps (put p c v) u'.
Proof. intros Hu Hs q Hq. by rewrite (Hs q Hq), Hu. Qed.

Lemma removal_refused_put (p : str) (v u : files) (io : io_error) :
  (forall q, u q = v q) -> removal_refused p u io -> removal_refused p v io.
Proof. intros Hu (s & Hs & Hr). exists s. split; [|done]. intros q. by rewrite Hs. Qed.

(** The two ways an update ends, after its new contents are known. *)
Lemma update_in_place (cwd p : str) (b : list N) (af : AffectedPaths) (s s' : S)
    (r : result anyhow AffectedPaths) :
  (_ ← with_context (lit "Failed to write file " ++ p) (write_file p b); mret af) s = (s', r) ->
  match r with
  | Ok _ => forall q, files_of s' q = put p (Some b) (files_of s) q
  | Err err => exists io, err = IoContext (lit "Failed to write file " ++ p) io /\
      same_but [p] (files_of s) (files_of s') /\
      exists s0, (forall q, files_of s0 q = files_of s q) /\ (write_file p b s0).2 = Err io
  | Crash _ => True
  end.
Proof.
  intros Hr. split_bind Hr; apply with_context_inv in Hm; unfold mret, action_ret in *;
    simplify_eq; [| |done].
  - destruct a. apply files_put; [|by eapply files_read, write_read].
    intros q Hq. by eapply write_preserves.
  - destruct Hm as (io & -> & Hw). exists io. split; [done|]. split.
    + apply same_but_of. intros q Hq. by eapply write_preserves.
    + exists s. by rewrite Hw.
Qed.

Lemma update_moved (p d : str) (b : list N) (af : AffectedPaths) (s s' : S)
    (r : result anyhow AffectedPaths) :
  (_ ← write_file_with_missing_parent_retry d b;
   _ ← with_context (lit "Failed to remove original " ++ p) (remove_file p); mret af) s = (s', r) ->
  match r with
  | Ok _ => forall q, files_of s' q = put p None (put d (Some b) (files_of s)) q
  | Err err => exists m io, err = IoContext m io /\
      ((write_refused d b (files_of s) m io /\ same_but [d] (files_of s) (files_of s')) \/
       (m = lit "Failed to remove original " ++ p /\
        removal_refused p (put d (Some b) (files_of s)) io /\
        same_but [p] (put d (Some b) (files_of s)) (files_of s')))
  | Crash _ => True
  end.
Proof.
  intros Hr. split_bind Hr; simplify_eq; [| |done].
  - destruct a. pose proof (write_retry_leaves _ _ _ _ Hm) as Hd.
    split_bind Hr; apply with_context_inv in Hm0; unfold mret, action_ret in *;
      simplify_eq; [| |done].
    + destruct a. intros q. rewrite (remove_file_leaves _ _ _ Hm0). unfold put at 1 2.
      case_decide; [done|]. apply Hd.
    + destruct Hm0 as (io & -> & Hrm). eexists _, io. split; [done|]. right. split; [done|]. split.
      * eapply removal_refused_put; [exact Hd|]. by eapply remove_file_refused.
      * eapply same_but_put; [exact Hd|]. by eapply remove_file_same_but.
  - apply write_retry_refused in Hm as Hf. destruct Hf as (m & io & -> & Hf).
    eexists m, io. split; [done|]. left. split; [done|]. by eapply write_retry_same_but.
Qed.

Lemma apply_hunk_result (cwd : str) (h : Hunk) (a : AffectedPaths) (s s' : S)
    (r : result anyhow AffectedPaths) :
  apply_hunk home cwd h a s = (s', r) -> hunk_result cwd h (files_of s) (files_of s') r.
Proof.
  unfold apply_hunk. intros Hr. destruct h as [p t|p|p d cs].
  - split_bind Hr; unfold mret, action_ret in *; simplify_eq; [| |done].
    + destruct a0. exact (write_retry_leaves _ _ _ _ Hm).
    + apply write_retry_refused in Hm as Hf. destruct Hf as (m & io & -> & Hf).
      exists io. split; [done|]. split; [done|]. by eapply write_retry_same_but.
  - split_bind Hr; apply with_context_inv in Hm; unfold mret, action_ret in *; simplify_eq;
      [| |done].
    + destruct a0. exact (remove_file_leaves _ _ _ Hm).
    + destruct Hm as (io & -> & Hf). exists io. split; [done|]. split; [done|].
      split; [by eapply remove_file_refused|by eapply remove_file_same_but].
  - unfold mbind at 1, action_bind at 1, act_map_err in Hr. rewrite derive_action in Hr.
    change (resolve_path home (UpdateFile p d cs) cwd) with (at_cwd cwd p) in Hr.
    pose proof (text_of_read (at_cwd cwd p)) as Ht.
    destruct (read_file_text (at_cwd cwd p) s) as [t|io|c] eqn:Er; simpl in Hr; [|simplify_eq|by simplify_eq].
    + apply Ht in Er.
      destruct (derive_new_contents t (at_cwd cwd p) cs) as [ap|er|c] eqn:Ed; simpl in Hr;
        [|simplify_eq; simpl; by rewrite Er, Ed|by simplify_eq].
      destruct d as [d|]; [apply update_moved in Hr|apply (update_in_place cwd) in Hr];
        (destruct r as [af|err|c]; [|simpl; rewrite Er, Ed|done]).
      * exists t, ap. done.
      * destruct Hr as (m & io & -> & Hr). exists io. done.
      * exists t, ap. done.
      * destruct Hr as (io & -> & Hs & Hr). exists io. done.
    + cbn [hunk_result hunk_fails]. destruct (text_at (files_of s') (at_cwd cwd p)) as [t|] eqn:Et;
        [by apply Ht in Et; rewrite Er in Et|].
      split; [done|]. split; [done|]. exists io. reflexivity.
Qed.

Lemma apply_all_result (cwd : str) (hs : list Hunk) (a : AffectedPaths) (s s' : S)
    (r : result anyhow AffectedPaths) :
  apply_all home cwd hs a s = (s', r) ->
  match r with
  | Ok _ => hunks_leave cwd hs (files_of s) (files_of s')
  | Err err => exists done h rest v, hs = done ++ h :: rest /\
      hunks_leave cwd done (files_of s) v /\
      hunk_fails cwd h v (files_of s') (show_anyhow err) (reported err)
  | Crash _ => True
  end.
Proof.
  revert a s. induction hs as [|h hs IH]; intros a s Hr; cbn [apply_all] in Hr.
  - unfold mret, action_ret in *. simplify_eq. constructor.
  - split_bind Hr; [|subst..]; apply apply_hunk_result in Hm; [| |done].
    + apply IH in Hr. destruct r as [af|err|c]; [by econstructor| |done].
      destruct Hr as (done & h' & rest & v & -> & Hd & Hf).
      exists (h :: done), h', rest, v. split; [done|]. split; [by econstructor|done].
    + exists [], h, hs, (files_of s). split; [done|]. split; [constructor|done].
Qed.

(** ** What a run of [apply_patch] returns, prints and leaves *)

(** The message for a patch that cannot be parsed. *)
Definition parse_message (e : ParseError) : str :=
  match e with
  | InvalidPatchError m => lit "Invalid patch: " ++ m
  | InvalidHunkError m n => lit "Invalid patch hunk on line " ++ show_nat n ++ lit ": " ++ m
  end.

(** A failed run: the patch cannot be parsed, or it has no hunks, and no file has
    changed; or some hunk failed after those before it were applied. *)
Definition failure (patch cwd : str) (s s' : S) (m : str) (e : ApplyPatchError) : Prop :=
  match parse_patch patch with
  | Ok a =>
      (hunks a = [] /\ m = lit "No files were modified." /\ e = text_error m /\ s' = s) \/
      exists done h rest v, hunks a = done ++ h :: rest /\
        hunks_leave cwd done (files_of s) v /\ hunk_fails cwd h v (files_of s') m e
  | Err pe => m = parse_message pe /\ e = ParseErr pe /\ s' = s
  | Crash _ => False
  end.

Definition outcome (patch cwd : str) (w w' : world S) (r : result ApplyPatchError unit)
    : Prop :=
  match r with
  | Ok tt => stderr w' = stderr w /\ exists a, parse_patch patch = Ok a /\ hunks a <> [] /\
      hunks_leave cwd (hunks a) (files_of (fs w)) (files_of (fs w')) /\
      stdout w' = stdout w ++ summary_text (hunks a)
  | Err e => stdout w' = stdout w /\ exists m, stderr w' = stderr w ++ m ++ [NL] /\
      failure patch cwd (fs w) (fs w') m e
  | Crash _ => False
  end.

(** Printing a message and failing. *)
Definition complain (w : world S) (m : str) : world S :=
  {| fs := fs w; stdout := stdout w; stderr := stderr w ++ m ++ [NL] |}.

Lemma complain_fails {E A} (m : str) (e : E) (w : world S) :
  (_ ← writeln_err m; act_err (A := A) e) w = (complain w m, Err e).
Proof. done. Qed.

Lemma apply_hunks_to_files_affected (hs : list Hunk) (cwd : str) (s s' : S)
    (a : AffectedPaths) :
  apply_hunks_to_files home hs cwd s = (s', Ok a) -> hs <> [] /\ a = affected_of hs no_paths.
Proof.
  unfold apply_hunks_to_files. case_bool_decide as Hne; [done|].
  intros Ha. split; [done|]. by eapply apply_all_affected.
Qed.

Lemma apply_hunks_outcome (patch cwd : str) (w : world S) (a : ApplyPatchArgs) :
  parse_patch patch = Ok a ->
  outcome patch cwd w (apply_hunks home (hunks a) cwd w).1
    (apply_hunks home (hunks a) cwd w).2.
Proof.
  intros Ep. unfold apply_hunks, on_fs.
  pose proof (apply_hunks_to_files_no_crash (hunks a) cwd (fs w)) as Hc.
  destruct (apply_hunks_to_files home (hunks a) cwd (fs w)) as [s' r] eqn:Ea.
  pose proof Ea as Hr. unfold apply_hunks_to_files in Hr. case_bool_decide as Hne.
  - unfold act_err in Hr. simplify_eq. rewrite complain_fails.
    cbn [fst snd outcome complain stdout stderr fs]. split; [done|]. eexists. split; [done|].
    unfold failure. rewrite Ep. by left.
  - apply apply_all_result in Hr. destruct r as [af|err|c]; [| |by destruct (Hc c)].
    + apply apply_hunks_to_files_affected in Ea as [_ ->]. rewrite print_summary_says.
      cbn [fst snd outcome says stdout stderr fs]. eauto 8.
    + replace (match err with IoContext _ io => _ | _ => _ end)
        with (act_err (S := world S) (A := unit) (reported err)) by by destruct err.
      rewrite complain_fails. cbn [fst snd outcome complain stdout stderr fs].
      split; [done|]. eexists. split; [done|]. unfold failure. rewrite Ep. by right.
Qed.

(** C3: applying a patch always returns, in one of three ways. It succeeds: every
    hunk was applied, in order, to the files the hunks before it left (an added file
    has its contents, a deleted one is gone, an updated one has what its chunks make
    of its text, a moved one is at its new path and no longer at the old), nothing is
    on the standard error, and the added, modified and deleted files are listed. Or
    the patch does not parse or has no hunks: no file has changed and the message says
    why. Or a hunk fails: those before it were applied and those after it were not,
    and the message is the one for what failed, a file that cannot be read, changed,
    written or removed; no path but its own has changed. *)
Theorem apply_patch_outcome (patch cwd : str) (w : world S) :
  outcome patch cwd w (apply_patch home patch cwd w).1 (apply_patch home patch cwd w).2.
Proof.
  unfold apply_patch. pose proof (parse_patch_text_no_crash patch Lenient) as Hnc.
  destruct (parse_patch patch) as [a|pe|c] eqn:Ep; [|..|by destruct (Hnc c)].
  - by apply apply_hunks_outcome.
  - replace (match pe with InvalidPatchError _ => _ | _ => _ end)
      with (writeln_err (S := S) (E := ApplyPatchError) (parse_message pe)) by by destruct pe.
    rewrite complain_fails. cbn [fst snd outcome complain stdout stderr fs].
    split; [done|]. eexists. split; [done|]. unfold failure. by rewrite Ep.
Qed.

(** ** What is written, and what is not *)

(** C4: applying hunks, whether it succeeds or stops at an error half-way, leaves
    every file that no hunk names as it was: readable with the same contents, or
    not readable. *)
Theorem apply_hunks_frame (cwd q : str) (hs : list Hunk) (s : S) :
  q ∉ concat (map (touched cwd) hs) ->
  preserved q s (apply_hunks_to_files home hs cwd s).1.
Proof.
  intros Hq. unfold apply_hunks_to_files. case_bool_decide; [done|].
  destruct (apply_all home cwd hs no_paths s) as [s' r] eqn:E. by eapply apply_all_frame.
Qed.

(** ** Proposed changes *)

Context (unified_diff : str -> str -> nat -> str).

(** The file system [s] has the contents a proposed change announces. *)
Definition agrees (s : S) (path : str) (change : ApplyPatchFileChange) : Prop :=
  match change with
  | Add content => read_file path s = Ok (encode content)
  | Delete _ => forall c, read_file path s <> Ok c
  | Update _ None content => read_file path s = Ok (encode content)
  | Update _ (Some dest) content =>
      read_file dest s = Ok (encode content) /\ forall c, read_file path s <> Ok c
  end.

(** The paths a proposed change is about. *)
Definition change_paths (path : str) (change : ApplyPatchFileChange) : list str :=
  match change with Update _ (Some dest) _ => [path; dest] | _ => [path] end.

Lemma agrees_preserved (s s' : S) (path : str) (change : ApplyPatchFileChange) :
  (forall q, q ∈ change_paths path change -> preserved q s s') ->
  agrees s path change -> agrees s' path change.
Proof.
  unfold preserved. intros Hq. destruct change as [t|t|df [d|] t]; simpl in *.
  - rewrite Hq; [done|set_solver].
  - intros Hr c. rewrite Hq; [done|set_solver].
  - intros [Hd Hp]. split; [rewrite Hq; [done|set_solver]|].
    intros c. rewrite Hq; [done|set_solver].
  - rewrite Hq; [done|set_solver].
Qed.

Lemma read_file_text_preserved (q t : str) (s s' : S) :
  preserved q s s' -> read_file_text q s = Ok t -> read_file_text q s' = Ok t.
Proof.
  unfold read_file_text. intros Hp Hr. apply bind_Ok in Hr as (b & Hb & Hr).
  apply Hp in Hb. by rewrite Hb.
Qed.

Lemma derive_preserved (p : str) (cs : list UpdateFileChunk) (s s' : S) (ap : AppliedPatch) :
  preserved p s s' -> (derive_new_contents_from_chunks p cs s).2 = Ok ap ->
  derive_new_contents_from_chunks p cs s' = (s', Ok ap).
Proof.
  rewrite !derive_action. simpl. intros Hp Hd.
  destruct (read_file_text p s) as [t|e|c] eqn:E; [|done|done].
  by rewrite (read_file_text_preserved _ _ _ _ Hp E), Hd.
Qed.

(** Proposing changes reads files and writes none. *)
Lemma propose_change_inv (cwd : str) (h : Hunk) (s s' : S) (p : str)
    (ch : ApplyPatchFileChange) :
  propose_change home unified_diff cwd h s = (s', Ok (p, ch)) ->
  s' = s /\ p = resolve_path home h cwd /\ change_paths p ch = touched cwd h /\
  match h with
  | AddFile _ t => ch = Add t
  | DeleteFile _ => exists t, ch = Delete t
  | UpdateFile _ d cs => exists ap df, ch = Update df (abs_join home cwd <$> d) (new_contents ap)
      /\ (derive_new_contents_from_chunks p cs s).2 = Ok ap
  end.
Proof.
  unfold propose_change, touched. destruct h as [q t|q|q d cs].
  - unfold mret, action_ret. intros ?; by simplify_eq.
  - intros (t & s1 & Hr & Hm)%act_bind_Ok. unfold act_map_err, query in Hr.
    unfold mret, action_ret in Hm. simplify_eq. eauto.
  - intros ([df t] & s1 & Hu & Hm)%act_bind_Ok.
    unfold mret, action_ret in Hm. simplify_eq.
    unfold unified_diff_from_chunks, unified_diff_from_chunks_with_context in Hu.
    apply act_bind_Ok in Hu as (ap & s2 & Hd & Hm).
    unfold mret, action_ret in Hm. simplify_eq.
    rewrite derive_action in Hd |- *. simplify_eq. split_and!; [done|done|by destruct d|eauto].
Qed.

(** One hunk: if the files it touches have not changed since the proposal, then
    applying it makes them what the proposal says. *)
Lemma apply_hunk_agrees (cwd : str) (h : Hunk) (a a' : AffectedPaths) (s0 s1 s s' : S)
    (p : str) (ch : ApplyPatchFileChange) :
  propose_change home unified_diff cwd h s0 = (s1, Ok (p, ch)) ->
  preserved p s0 s -> NoDup (touched cwd h) ->
  apply_hunk home cwd h a s = (s', Ok a') -> agrees s' p ch.
Proof.
  intros (-> & -> & _ & Hch)%propose_change_inv Hp Hnd. unfold apply_hunk, with_context.
  destruct h as [q t|q|q [d|] cs].
  - subst. intros ([] & s2 & Hw & Hm)%act_bind_Ok. unfold mret, action_ret in Hm.
    simplify_eq. by eapply write_retry_read.
  - destruct Hch as [t ->]. intros ([] & s2 & Hw & Hm)%act_bind_Ok.
    unfold mret, action_ret in Hm. simplify_eq.
    apply map_err_state in Hw as (r & Hw & Hr). rewrite (Hr tt eq_refl) in Hw.
    simpl. by eapply remove_file_read.
  - destruct Hch as (ap & df & -> & Hd). apply (derive_preserved _ _ _ _ _ Hp) in Hd.
    rewrite (map_err_bind_Ok _ _ _ _ _ _ Hd).
    intros ([] & s2 & Hw & Hm)%act_bind_Ok. apply act_bind_Ok in Hm as ([] & s3 & Hrm & Hm).
    unfold mret, action_ret in Hm. simplify_eq.
    apply map_err_state in Hrm as (r & Hrm & Hr). rewrite (Hr tt eq_refl) in Hrm.
    simpl. split; [|by eapply remove_file_read].
    eapply remove_file_frame; [done| |by eapply write_retry_read].
    unfold touched in Hnd. apply NoDup_cons in Hnd as [Hnd _]. unfold abs_join. set_solver.
  - destruct Hch as (ap & df & -> & Hd). apply (derive_preserved _ _ _ _ _ Hp) in Hd.
    rewrite (map_err_bind_Ok _ _ _ _ _ _ Hd).
    intros ([] & s2 & Hw & Hm)%act_bind_Ok. unfold mret, action_ret in Hm. simplify_eq.
    apply map_err_state in Hw as (r & Hw & Hr). rewrite (Hr tt eq_refl) in Hw.
    by eapply write_read.
Qed.

(** A list of hunks that touch different files. *)
Lemma apply_all_agrees (cwd : str) (hs : list Hunk) (a a' : AffectedPaths) (s0 s s' : S) :
  NoDup (concat (map (touched cwd) hs)) ->
  (forall q, q ∈ concat (map (touched cwd) hs) -> preserved q s0 s) ->
  apply_all home cwd hs a s = (s', Ok a') ->
  forall h p ch, h ∈ hs -> propose_change home unified_diff cwd h s0 = (s0, Ok (p, ch)) ->
  agrees s' p ch.
Proof.
  revert a s. induction hs as [|h hs IH]; intros a s Hnd Hp Ha h' p ch Hin Hch;
    [by apply not_elem_of_nil in Hin|]. cbn [apply_all map concat] in *.
  apply NoDup_app in Hnd as (Hnd1 & Hdisj & Hnd2).
  apply act_bind_Ok in Ha as (a1 & s1 & Hh & Hhs).
  apply elem_of_cons in Hin as [->|Hin].
  - pose proof (propose_change_inv _ _ _ _ _ _ Hch) as (_ & Hpath & Hpaths & _).
    apply (agrees_preserved s1).
    + intros q Hq. eapply apply_all_frame; [done|]. apply Hdisj. by rewrite <- Hpaths.
    + eapply apply_hunk_agrees; [done| |done|done].
      apply Hp, elem_of_app. left. rewrite Hpath. by left.
  - eapply (IH a1 s1); [done| |done|done|done]. intros q Hq.
    apply (preserved_trans _ _ s); [apply Hp; set_solver|].
    eapply apply_hunk_frame; [done|]. intros Hq'. by apply (Hdisj q).
Qed.

(** Every proposed change is the change of some hunk. *)
Lemma propose_changes_inv (cwd : str) (hs : list Hunk) (s s' : S)
    (m m' : gmap (list N) ApplyPatchFileChange) :
  propose_changes home unified_diff cwd hs m s = (s', Ok m') ->
  s' = s /\ forall p ch, m' !! p = Some ch -> m !! p = Some ch \/
    exists h, h ∈ hs /\ propose_change home unified_diff cwd h s = (s, Ok (p, ch)).
Proof.
  revert m s. induction hs as [|h hs IH]; intros m s; cbn [propose_changes].
  - unfold mret, action_ret. intros ?; simplify_eq. eauto.
  - intros ([p ch] & s1 & Hh & Hhs)%act_bind_Ok.
    pose proof (propose_change_inv _ _ _ _ _ _ Hh) as (-> & _).
    apply IH in Hhs as [-> Hm]. split; [done|]. intros p' ch' Hl.
    apply Hm in Hl as [Hl|(h' & Hin & Hl)]; [|right; exists h'; split; [by right|done]].
    destruct (decide (p = p')) as [->|Hne].
    + rewrite lookup_insert_eq in Hl. simplify_eq. right. exists h. split; [by left|done].
    + rewrite lookup_insert_ne in Hl by done. by left.
Qed.

(** The same for the changes of a whole patch. *)
Lemma proposed_then_applied (cwd : str) (hs : list Hunk) (s s1 s' : S) (a : AffectedPaths)
    (changes : gmap (list N) ApplyPatchFileChange) :
  NoDup (concat (map (touched cwd) hs)) ->
  propose_changes home unified_diff cwd hs ∅ s = (s1, Ok changes) ->
  apply_hunks_to_files home hs cwd s = (s', Ok a) ->
  map_Forall (agrees s') changes.
Proof.
  intros Hnd [-> Hm]%propose_changes_inv Ha p ch Hl.
  apply Hm in Hl as [Hl|(h & Hin & Hch)]; [by rewrite lookup_empty in Hl|].
  unfold apply_hunks_to_files in Ha. case_bool_decide; [done|].
  eapply apply_all_agrees; [done| |done|done|done]. done.
Qed.

(** A run that succeeds has applied the hunks. *)
Lemma apply_hunks_fs (hs : list Hunk) (cwd : str) (w w' : world S) :
  apply_hunks home hs cwd w = (w', Ok tt) ->
  exists a, apply_hunks_to_files home hs cwd (fs w) = (fs w', Ok a).
Proof.
  unfold apply_hunks, on_fs.
  destruct (apply_hunks_to_files home hs cwd (fs w)) as [s' [a|e|c]] eqn:Ea; [|by destruct e|done].
  apply apply_hunks_to_files_affected in Ea as [_ ->]. rewrite print_summary_says.
  intros ?; simplify_eq. by eexists.
Qed.

(** An update that moves a file to the path it already has deletes the file:
    it is written, and then removed as the original of the move. *)
Theorem move_to_itself_deletes (cwd p d : str) (cs : list UpdateFileChunk) (s s' : S)
    (a : AffectedPaths) :
  resolve_path_against_base home d cwd = resolve_path_against_base home p cwd ->
  apply_hunks_to_files home [UpdateFile p (Some d) cs] cwd s = (s', Ok a) ->
  a = affected_of [UpdateFile p (Some d) cs] no_paths /\
  forall c, read_file (resolve_path_against_base home d cwd) s' <> Ok c.
Proof.
  intros Hd Ha. split; [by eapply apply_hunks_to_files_affected in Ha as [_ ->]|].
  unfold apply_hunks_to_files in Ha. case_bool_decide; [done|]. cbn [apply_all] in Ha.
  apply act_bind_Ok in Ha as (a1 & s1 & Ha & Hm). unfold mret, action_ret in Hm. simplify_eq.
  apply act_bind_Ok in Ha as (ap & s2 & _ & Ha).
  apply act_bind_Ok in Ha as ([] & s3 & _ & Ha).
  apply act_bind_Ok in Ha as ([] & s4 & Hrm & Hm). unfold mret, action_ret in Hm. simplify_eq.
  apply map_err_state in Hrm as (r & Hrm & Hr). rewrite (Hr tt eq_refl) in Hrm.
  rewrite Hd. by eapply remove_file_read.
Qed.

End Facts.

(** ** Examples on the file system in memory *)

Import MemoryFs.

Definition no_diff (_ _ : str) (_ : nat) : str := [].

(** A directory [/w] with two files. *)
Definition sample_fs : mem :=
  <[lit "/" := Directory]> (<[lit "/w" := Directory]>
  (<[lit "/w/a" := File (encode (lit "a" ++ [NL] ++ lit "b" ++ [NL]))]>
  (<[lit "/w/c" := File (encode (lit "c" ++ [NL]))]> ∅))).

Definition change_line (old new : string) : UpdateFileChunk :=
  {| change_context := None; old_lines := [lit old]; new_lines := [lit new];
     is_end_of_file := false |}.

Definition sample_hunks : list Hunk :=
  [UpdateFile (lit "a") (Some (lit "e/d")) [change_line "a" "A"];
   DeleteFile (lit "c"); AddFile (lit "n") (lit "n" ++ [NL])].

Lemma apply_hunks_frame_witness :
  (lit "/w/c" ∉ concat (map (touched None (lit "/w")) (take 1 sample_hunks))) /\
  preserved (lit "/w/c") sample_fs
    (apply_hunks_to_files None (take 1 sample_hunks) (lit "/w") sample_fs).1.
Proof.
  assert (lit "/w/c" ∉ concat (map (touched None (lit "/w")) (take 1 sample_hunks))) as Hq
    by (apply (bool_decide_unpack _); vm_compute; exact I).
  split; [exact Hq|]. exact (apply_hunks_frame None _ _ _ sample_fs Hq).
Defined.

(** What a run returns, or a default. *)
Definition value {S E A} (d : A) (r : S * result E A) : A :=
  match r.2 with Ok a => a | _ => d end.

Lemma apply_patch_outcome_witness :
  let w := {| fs := sample_fs; stdout := []; stderr := lit "before" |} in
  outcome None (lit "no patch") (lit "/w") w (apply_patch None (lit "no patch") (lit "/w") w).1
    (apply_patch None (lit "no patch") (lit "/w") w).2.
Proof.
  exact (apply_patch_outcome None (lit "no patch") (lit "/w")
           {| fs := sample_fs; stdout := []; stderr := lit "before" |}).
Defined.

Lemma move_to_itself_deletes_witness :
  exists s' a, apply_hunks_to_files None [UpdateFile (lit "a") (Some (lit "./a"))
      [change_line "a" "A"]] (lit "/w") sample_fs = (s', Ok a) /\
    read_file (lit "/w/a") sample_fs = Ok (encode (lit "a" ++ [NL] ++ lit "b" ++ [NL])) /\
    a = affected_of [UpdateFile (lit "a") (Some (lit "./a")) [change_line "a" "A"]] no_paths /\
    forall c, read_file (lit "/w/a") s' <> Ok c.
Proof.
  pose (ap := apply_hunks_to_files None [UpdateFile (lit "a") (Some (lit "./a"))
    [change_line "a" "A"]] (lit "/w") sample_fs).
  exists ap.1, (value no_paths ap).
  split; [vm_compute; reflexivity|]. split; [vm_compute; reflexivity|].
  apply (move_to_itself_deletes None (lit "/w") (lit "a") (lit "./a")
           [change_line "a" "A"] sample_fs); vm_compute; reflexivity.
Defined.

(** Two updates of one file are applied one after the other, but the proposal
    computes each from the file as it was and keeps the last one only: on a file
    with the lines [a] and [b], a patch that replaces [a] and then [b] is proposed
    with [a] unchanged, and the result has both lines replaced. *)
Theorem two_updates_proposal_differs :
  let hs := [UpdateFile (lit "a") None [change_line "a" "A"];
             UpdateFile (lit "a") None [change_line "b" "B"]] in
  value ∅ (propose_changes None no_diff (lit "/w") hs ∅ sample_fs) !! lit "/w/a"
    = Some (Update [] None (lit "a" ++ [NL] ++ lit "B" ++ [NL])) /\
  read_file (lit "/w/a") (apply_hunks_to_files None hs (lit "/w") sample_fs).1
    = Ok (encode (lit "A" ++ [NL] ++ lit "B" ++ [NL])).
Proof. split; vm_compute; reflexivity. Qed.

End PatchApplyFacts.
