(* ===== verification/PatchInvocation.v ===== *)
(** * Recognising an invocation: src/apply-patch/src/invocation.rs

    From the arguments of a command to the patch it asks for and the changes that
    patch would make. The grammar of Bash is the crate [tree_sitter_bash]: the
    matches of the query, with the text of each captured node, are a parameter. *)

From Stdlib Require Import Ascii String.
From S2P Require Import Prelude RustStr Utf8 AbsPath FileSystem PatchParser PatchSeek.
From S2P Require Import PatchReplace PatchApply PatchParserFacts PatchApplyFacts.
Import Utf8 AbsPath PatchParser PatchReplace PatchApply.

Module PatchInvocation.

Inductive ApplyPatchShell := Unix | PowerShell | Cmd.

#[export] Instance ApplyPatchShell_eq_dec : EqDecision ApplyPatchShell.
Proof. solve_decision. Defined.

Inductive ExtractHeredocError :=
| CommandDidNotStartWithApplyPatch
| FailedToLoadBashGrammar
| HeredocNotUtf8
| FailedToParsePatchIntoAst
| FailedToFindHeredocBody.

Inductive MaybeApplyPatch :=
| Body (args : ApplyPatchArgs)
| ShellParseError (e : ExtractHeredocError)
| PatchParseError (e : ParseError)
| NotApplyPatch.

Record ApplyPatchAction := {
  action_changes : gmap (list N) ApplyPatchFileChange;
  action_patch : str;
  action_cwd : str;
}.

Inductive MaybeApplyPatchVerified :=
| VerifiedBody (action : ApplyPatchAction)
| VerifiedShellParseError (e : ExtractHeredocError)
| CorrectnessError (e : ApplyPatchError)
| VerifiedNotApplyPatch.

Definition APPLY_PATCH_COMMANDS : list str := [lit "apply_patch"; lit "applypatch"].

Definition classify_shell_name (shell : str) : option str :=
  to_ascii_lowercase <$> file_stem shell.

Definition classify_shell (shell flag : str) : option ApplyPatchShell :=
  match classify_shell_name shell with
  | None => None
  | Some name =>
      if one_of [lit "bash"; lit "zsh"; lit "sh"] name && one_of [lit "-lc"; lit "-c"] flag
      then Some Unix
      else if one_of [lit "pwsh"; lit "powershell"] name
              && eq_ignore_ascii_case flag (lit "-command")
      then Some PowerShell
      else if str_eqb name (lit "cmd") && eq_ignore_ascii_case flag (lit "/c")
      then Some Cmd
      else None
  end.

Definition can_skip_flag (shell flag : str) : bool :=
  match classify_shell_name shell with
  | Some name => one_of [lit "pwsh"; lit "powershell"] name
                 && eq_ignore_ascii_case flag (lit "-noprofile")
  | None => false
  end.

Definition parse_shell_script (argv : list str) : option (ApplyPatchShell * str) :=
  match argv with
  | [shell; flag; script] => (fun t => (t, script)) <$> classify_shell shell flag
  | [shell; skip_flag; flag; script] =>
      if can_skip_flag shell skip_flag
      then (fun t => (t, script)) <$> classify_shell shell flag
      else None
  | _ => None
  end.

Section Invocation.

(** One match of the query: the name of each capture and the text of its node,
    [None] where that text is not UTF-8. *)
Context (bash_matches : str -> ExtractHeredocError + list (list (str * option str))).

(** [trim_end_matches('\n')] *)
Definition trim_end_newlines (s : str) : str := drop_while_end (N.eqb NL) s.

Definition strip_quotes (raw : str) : str :=
  match strip_prefix [ch "'"] raw with
  | Some s => match strip_suffix [ch "'"] s with Some t => t | None => raw end
  | None => raw
  end.

(** The loop over the captures of a match, with [heredoc_text] and [cd_path]. *)
Fixpoint read_captures (captures : list (str * option str))
    (heredoc_text cd_path : option str)
    : result ExtractHeredocError (option str * option str) :=
  match captures with
  | [] => Ok (heredoc_text, cd_path)
  | (name, node) :: captures =>
      if str_eqb name (lit "heredoc") then
        text ← ok_or HeredocNotUtf8 node;
        read_captures captures (Some (trim_end_newlines text)) cd_path
      else if str_eqb name (lit "cd_path") then
        text ← ok_or HeredocNotUtf8 node;
        read_captures captures heredoc_text (Some text)
      else if str_eqb name (lit "cd_raw_string") then
        raw ← ok_or HeredocNotUtf8 node;
        read_captures captures heredoc_text (Some (strip_quotes raw))
      else read_captures captures heredoc_text cd_path
  end.

Fixpoint first_heredoc (matches : list (list (str * option str)))
    : result ExtractHeredocError (str * option str) :=
  match matches with
  | [] => Err CommandDidNotStartWithApplyPatch
  | m :: matches =>
      '(heredoc_text, cd_path) ← read_captures m None None;
      match heredoc_text with
      | Some heredoc => Ok (heredoc, cd_path)
      | None => first_heredoc matches
      end
  end.

Definition extract_apply_patch_from_bash (src : str)
    : result ExtractHeredocError (str * option str) :=
  match bash_matches src with
  | inl e => Err e
  | inr matches => first_heredoc matches
  end.

Definition extract_apply_patch_from_shell (shell : ApplyPatchShell) (script : str)
    : result ExtractHeredocError (str * option str) :=
  match shell with
  | Unix | PowerShell | Cmd => extract_apply_patch_from_bash script
  end.

Definition set_workdir (source : ApplyPatchArgs) (w : option str) : ApplyPatchArgs :=
  {| patch := patch source; hunks := hunks source; workdir := w |}.

(** [match parse_patch(body)], the two times [maybe_parse_apply_patch] does it. These
    functions return a value of an enum, so that their only abnormal result would be
    a panic. *)
Definition parse_body (body : str) (workdir : ApplyPatchArgs -> ApplyPatchArgs)
    : result Empty_set MaybeApplyPatch :=
  match parse_patch body with
  | Ok source => Ok (Body (workdir source))
  | Err e => Ok (PatchParseError e)
  | Crash c => Crash c
  end.

(** The second arm of the match: the shell form. *)
Definition maybe_parse_shell (argv : list str) : result Empty_set MaybeApplyPatch :=
  match parse_shell_script argv with
  | Some (shell, script) =>
      match extract_apply_patch_from_shell shell script with
      | Ok (body, workdir) => parse_body body (fun source => set_workdir source workdir)
      | Err CommandDidNotStartWithApplyPatch => Ok NotApplyPatch
      | Err e => Ok (ShellParseError e)
      | Crash c => Crash c
      end
  | None => Ok NotApplyPatch
  end.

Definition maybe_parse_apply_patch (argv : list str) : result Empty_set MaybeApplyPatch :=
  match argv with
  | [cmd; body] =>
      if one_of APPLY_PATCH_COMMANDS cmd then parse_body body (fun source => source)
      else maybe_parse_shell argv
  | _ => maybe_parse_shell argv
  end.

(** ** [maybe_parse_apply_patch_verified] *)

Context {S : Type} `{ExecutorFileSystem S}.
Context (home_dir : option str) (unified_diff : str -> str -> nat -> str).

(** The two checks for a raw patch that no [apply_patch] command introduces. *)
Definition implicit_invocation (argv : list str) : bool :=
  match argv with
  | [body] => is_ok (parse_patch body)
  | _ => false
  end ||
  match parse_shell_script argv with
  | Some (_, script) => is_ok (parse_patch script)
  | None => false
  end.

Definition effective_cwd (cwd : str) (workdir : option str) : str :=
  match workdir with
  | Some dir => abs_join home_dir cwd dir
  | None => cwd
  end.

Definition verified_action (args : ApplyPatchArgs) (cwd : str)
    : action S ApplyPatchError ApplyPatchAction :=
  let cwd := effective_cwd cwd (workdir args) in
  changes ← propose_changes home_dir unified_diff cwd (hunks args) ∅;
  mret {| action_changes := changes; action_patch := patch args; action_cwd := cwd |}.

Definition maybe_parse_apply_patch_verified (argv : list str) (cwd : str)
    : action S Empty_set MaybeApplyPatchVerified := fun s =>
  if implicit_invocation argv then (s, Ok (CorrectnessError ImplicitInvocation))
  else
    match maybe_parse_apply_patch argv with
    | Ok (Body args) =>
        match verified_action args cwd s with
        | (s, Ok a) => (s, Ok (VerifiedBody a))
        | (s, Err e) => (s, Ok (CorrectnessError e))
        | (s, Crash c) => (s, Crash c)
        end
    | Ok (ShellParseError e) => (s, Ok (VerifiedShellParseError e))
    | Ok (PatchParseError e) => (s, Ok (CorrectnessError (ParseErr e)))
    | Ok NotApplyPatch => (s, Ok VerifiedNotApplyPatch)
    | Err e => (s, Err e)
    | Crash c => (s, Crash c)
    end.

End Invocation.

End PatchInvocation.

(** * Facts about invocations of apply_patch

    The patch text an action carries is parsed again by the process that applies
    it: it gives the hunks the action was checked with, so what was checked is what
    is applied. *)

Import Utf8 AbsPath PatchParser PatchParserFacts PatchReplace PatchApply PatchApplyFacts
  PatchInvocation.

Module PatchInvocationFacts.

(** ** Parsing the text of a parsed patch *)

Lemma marker_trimmed (m : str) :
  m = BEGIN_PATCH_MARKER \/ m = END_PATCH_MARKER -> trimmed m /\ (NL ∉ m) /\ m <> [].
Proof.
  intros [-> | ->]; (split_and!; [|apply (bool_decide_unpack _); vm_compute; exact I|done]);
    split; vm_compute; intros; by simplify_eq.
Qed.

Lemma join_head (sep : str) (ls : list str) :
  exists r, forall l, join sep (l :: ls) = l ++ r.
Proof.
  destruct ls; [exists []; intros l; simpl; by rewrite app_nil_r|]. by eexists.
Qed.

(** The boundary lines keep their inner padding only. *)
Lemma lines_trim_join (f y : str) (mid : list str) :
  trim f = BEGIN_PATCH_MARKER -> trim y = END_PATCH_MARKER ->
  Forall (fun l => NL ∉ l) (f :: mid ++ [y]) -> CR ∉ join [NL] (f :: mid ++ [y]) ->
  exists f' y', lines (trim (join [NL] (f :: mid ++ [y]))) = f' :: mid ++ [y'] /\
    trim f' = BEGIN_PATCH_MARKER /\ trim y' = END_PATCH_MARKER.
Proof.
  intros Hf Hy Hnl Hcr.
  destruct (trim_pad_inv f) as (a & b & Ef & Ha & Hb).
  destruct (trim_pad_inv y) as (c & d & Ey & Hc & Hd). rewrite Hf in Ef. rewrite Hy in Ey.
  destruct (marker_trimmed BEGIN_PATCH_MARKER) as ([Bh _] & _ & HB); [by left|].
  destruct (marker_trimmed END_PATCH_MARKER) as ([_ El] & _ & HE); [by right|].
  set (f' := BEGIN_PATCH_MARKER ++ b). set (y' := c ++ END_PATCH_MARKER).
  exists f', y'.
  assert (trim (join [NL] (f :: mid ++ [y])) = join [NL] ((f' :: mid) ++ [y'])) as Et.
  { rewrite !app_comm_cons, join_snoc by done.
    destruct (join_head [NL] mid) as [r Hr].
    rewrite (join_snoc _ (f' :: mid)), !Hr, Ey, Ef by done.
    transitivity (trim (a ++ (f' ++ r ++ [NL] ++ y') ++ d)).
    { f_equal. subst f' y'. by rewrite <- !app_assoc. }
    rewrite trim_pad; [by rewrite <- !app_assoc|done|done|]. split.
    - intros x Hx. apply Bh. subst f'. by destruct BEGIN_PATCH_MARKER.
    - intros x Hx. apply El. subst y'. rewrite !app_assoc in Hx.
      by rewrite last_app_nonempty in Hx. }
  rewrite Et. split_and!.
  - rewrite lines_join; [done| | |by subst y'; destruct c].
    + apply Forall_forall. intros l Hl. split.
      * apply elem_of_cons in Hl as [->|Hl].
        -- apply Forall_cons in Hnl as [Hnl _]. subst f'. rewrite Ef in Hnl. set_solver.
        -- rewrite Forall_forall in Hnl. apply Hnl. set_solver.
      * intros Hlast. apply last_Some_elem_of in Hlast. apply Hcr.
        apply elem_of_cons in Hl as [->|Hl].
        -- apply (elem_of_join _ _ f); [by left|]. subst f'. rewrite Ef. set_solver.
        -- apply (elem_of_join _ _ l); [set_solver|done].
    + rewrite Forall_forall in Hnl. assert (NL ∉ y) as Hny by (apply Hnl; set_solver).
      subst y'. rewrite Ey in Hny. set_solver.
  - subst f'. apply (trim_pad [] b); [constructor|done|].
    by destruct (marker_trimmed BEGIN_PATCH_MARKER); [left|].
  - subst y'. pose proof (trim_pad c [] END_PATCH_MARKER) as Hp. rewrite app_nil_r in Hp.
    apply Hp; [done|constructor|]. by destruct (marker_trimmed END_PATCH_MARKER); [right|].
Qed.

Lemma strict_body (p : str) (mid : list str) (f y : str) :
  lines (trim p) = f :: mid ++ [y] -> trim f = BEGIN_PATCH_MARKER ->
  trim y = END_PATCH_MARKER ->
  check_patch_boundaries_strict (lines (trim p)) = Ok (lines (trim p), mid).
Proof. intros E Hf Hy. apply strict_boundaries_Ok. eauto 10. Qed.

Lemma slice_subseteq {A} (lo hi : nat) (l r : list A) : slice lo hi l = Some r -> r ⊆ l.
Proof.
  unfold slice. case_match; [|done]. intros ?; simplify_eq.
  intros x Hx. apply (subseteq_drop lo), (subseteq_take (hi - lo)), Hx.
Qed.

(** What the lenient boundaries keep is a patch with strict boundaries. *)
Lemma lenient_boundaries_Ok (ls out body : list str) :
  check_patch_boundaries_lenient ls = Ok (out, body) ->
  out ⊆ ls /\ exists f y, out = f :: body ++ [y] /\
    trim f = BEGIN_PATCH_MARKER /\ trim y = END_PATCH_MARKER.
Proof.
  unfold check_patch_boundaries_lenient.
  destruct (check_patch_boundaries_strict ls) as [[o b]|e|c] eqn:E; intros H; simplify_eq.
  - apply strict_boundaries_Ok in E as (f & mid & y & -> & -> & -> & Hf & Hy). eauto 10.
  - destruct ls as [|l [|l' ls]]; [done|done|]. destruct (last _); [|done].
    destruct (is_heredoc_start _ && _ && _); [|done].
    apply bind_Ok in H as (inner & Hs & H).
    apply strict_boundaries_Ok in H as (f & mid & y & -> & -> & -> & Hf & Hy).
    split; [|eauto 10]. destruct (slice _ _ _) eqn:Es; simplify_eq/=.
    by apply slice_subseteq in Es.
Qed.

(** A parsed patch whose text holds no carriage return parses again to its hunks. *)
Lemma reparse (p : str) (a : ApplyPatchArgs) :
  parse_patch p = Ok a -> CR ∉ patch a ->
  exists b, parse_patch (patch a) = Ok b /\ hunks b = hunks a.
Proof.
  unfold parse_patch. change (if PARSE_IN_STRICT_MODE then Strict else Lenient) with Lenient.
  unfold parse_patch_text at 1.
  intros ([pl hl] & Hb & (hs & Hhs & H)%bind_Ok)%bind_Ok Hcr. simplify_eq.
  cbn [patch hunks] in *. apply lenient_boundaries_Ok in Hb as (Hsub & f & y & -> & Hf & Hy).
  destruct (lines_trim_join f y hl) as (f' & y' & El & Hf' & Hy'); [done|done| |done|].
  { apply Forall_forall. intros l Hl%Hsub. pose proof (lines_no_newline (trim p)) as Hn.
    rewrite Forall_forall in Hn. by apply Hn. }
  pose proof (strict_body _ _ _ _ El Hf' Hy') as Hst.
  unfold parse_patch_text, check_patch_boundaries_lenient. rewrite Hst.
  cbn [mbind result_bind]. rewrite Hhs. cbn [mbind result_bind]. eauto.
Qed.

(** ** The whole check *)

Section Verified.
Context (bash_matches : str -> ExtractHeredocError + list (list (str * option str))).
Context {S : Type} `{FileSystemLaws S}.
Context (home : option str) (unified_diff : str -> str -> nat -> str).

Lemma parse_body_inv (body : str) (f : ApplyPatchArgs -> ApplyPatchArgs) :
  exists m, parse_body body f = Ok m /\
    forall args, m = Body args -> exists a, parse_patch body = Ok a /\ args = f a.
Proof.
  unfold parse_body, parse_patch.
  pose proof (parse_patch_text_no_crash body Lenient) as Hc. unfold PARSE_IN_STRICT_MODE.
  destruct (parse_patch_text body Lenient) as [a|e|c]; [|..|by destruct (Hc c)];
    eexists; (split; [done|]); intros args ?; simplify_eq. eauto.
Qed.

Lemma read_captures_no_crash (cs : list (str * option str)) (h d : option str) :
  no_crash (read_captures cs h d).
Proof.
  revert h d. induction cs as [|[n t] cs IH]; intros h d; simpl; auto with agere.
  repeat case_match; auto; destruct t; simpl; auto with agere.
Qed.

Lemma first_heredoc_no_crash (ms : list (list (str * option str))) :
  no_crash (first_heredoc ms).
Proof.
  induction ms as [|m ms IH]; simpl; auto with agere.
  apply no_crash_bind; [apply read_captures_no_crash|].
  intros [[h|] d] _; auto with agere.
Qed.

Lemma extract_no_crash (sh : ApplyPatchShell) (script : str) :
  no_crash (extract_apply_patch_from_shell bash_matches sh script).
Proof.
  unfold extract_apply_patch_from_shell, extract_apply_patch_from_bash.
  destruct sh; (destruct (bash_matches script); [auto with agere|apply first_heredoc_no_crash]).
Qed.

(** The body of a patch command, and how the arguments spell it. *)
Definition asks_for (argv : list str) (body : str) (wd : option str) : Prop :=
  (wd = None /\ exists cmd, cmd ∈ APPLY_PATCH_COMMANDS /\ argv = [cmd; body]) \/
  (exists sh script, parse_shell_script argv = Some (sh, script) /\
     extract_apply_patch_from_shell bash_matches sh script = Ok (body, wd)).

Lemma maybe_parse_shell_inv (argv : list str) :
  exists m, maybe_parse_shell bash_matches argv = Ok m /\
    forall args, m = Body args -> exists body a, parse_patch body = Ok a /\
      asks_for argv body (workdir args) /\ patch args = patch a /\ hunks args = hunks a.
Proof.
  unfold maybe_parse_shell.
  destruct (parse_shell_script argv) as [[sh script]|] eqn:Es; [|by eexists].
  pose proof (extract_no_crash sh script) as Hc.
  destruct (extract_apply_patch_from_shell bash_matches sh script) as [[body wd]|e|c] eqn:Ee;
    [|by destruct e; eexists|by destruct (Hc c)].
  destruct (parse_body_inv body (fun source => set_workdir source wd)) as (m & -> & Hm).
  eexists; split; [done|]. intros args (a & Ha & ->)%Hm. exists body, a.
  split_and!; [done| |done|done]. right. eauto.
Qed.

Lemma maybe_parse_inv (argv : list str) :
  exists m, maybe_parse_apply_patch bash_matches argv = Ok m /\
    forall args, m = Body args -> exists body a, parse_patch body = Ok a /\
      asks_for argv body (workdir args) /\ patch args = patch a /\ hunks args = hunks a.
Proof.
  unfold maybe_parse_apply_patch.
  destruct argv as [|cmd [|body [|x argv]]]; try apply maybe_parse_shell_inv.
  destruct (one_of APPLY_PATCH_COMMANDS cmd) eqn:Eo; [|apply maybe_parse_shell_inv].
  apply one_of_true in Eo.
  destruct (parse_body_inv body (fun source => source)) as (m & -> & Hm).
  eexists; split; [done|]. intros args (a & Ha & ->)%Hm. exists body, a.
  split_and!; [done| |done|done]. left. split; [|eauto].
  unfold parse_patch, parse_patch_text in Ha.
  apply bind_Ok in Ha as ([pl hl] & _ & Ha). apply bind_Ok in Ha as (hs & _ & Ha).
  by simplify_eq.
Qed.

(** Proposing changes only reads. *)
Definition reads_only {E A} (m : action S E A) : Prop :=
  forall s, (m s).1 = s /\ no_crash (m s).2.

Lemma reads_only_ret {E A} (a : A) : reads_only (E := E) (mret a).
Proof. intros s. split; [done|]. simpl. auto with agere. Qed.

Lemma reads_only_bind {E A B} (m : action S E A) (f : A -> action S E B) :
  reads_only m -> (forall a, reads_only (f a)) -> reads_only (m ≫= f).
Proof.
  intros Hm Hf s. destruct (Hm s) as [Hs Hc]. unfold mbind, action_bind.
  destruct (m s) as [s' [a|e|c]]; simpl in *; subst; [apply Hf|auto with agere|].
  by destruct (Hc c).
Qed.

Lemma reads_only_derive (p : str) (cs : list UpdateFileChunk) :
  reads_only (derive_new_contents_from_chunks p cs).
Proof.
  intros s. split; [by rewrite derive_action|apply derive_action_no_crash].
Qed.

Lemma reads_only_propose (cwd : str) (h : Hunk) :
  reads_only (propose_change home unified_diff cwd h).
Proof.
  unfold propose_change. destruct h as [p t|p|p d cs].
  - apply reads_only_ret.
  - apply reads_only_bind; [|intros; apply reads_only_ret].
    intros s. split; [done|]. apply map_err_no_crash, read_file_text_no_crash.
  - unfold unified_diff_from_chunks, unified_diff_from_chunks_with_context.
    apply reads_only_bind; [|intros []; apply reads_only_ret].
    apply reads_only_bind; [apply reads_only_derive|intros; apply reads_only_ret].
Qed.

Lemma reads_only_propose_changes (cwd : str) (hs : list Hunk)
    (m : gmap (list N) ApplyPatchFileChange) :
  reads_only (propose_changes home unified_diff cwd hs m).
Proof.
  revert m. induction hs as [|h hs IH]; intros m; cbn [propose_changes];
    [apply reads_only_ret|].
  apply reads_only_bind; [apply reads_only_propose|]. by intros [p ch].
Qed.

Lemma verified_Body_inv (argv : list str) (cwd : str) (s s1 : S) (act : ApplyPatchAction) :
  maybe_parse_apply_patch_verified bash_matches home unified_diff argv cwd s
    = (s1, Ok (VerifiedBody act)) ->
  implicit_invocation argv = false /\
  exists body a wd, parse_patch body = Ok a /\ asks_for argv body wd /\
    action_patch act = patch a /\ action_cwd act = effective_cwd home cwd wd /\
    propose_changes home unified_diff (action_cwd act) (hunks a) ∅ s
      = (s1, Ok (action_changes act)).
Proof.
  unfold maybe_parse_apply_patch_verified.
  destruct (implicit_invocation argv); [done|]. intros Hv. split; [done|].
  destruct (maybe_parse_inv argv) as (m & Em & Hm). rewrite Em in Hv.
  destruct m as [args|e|e|]; [|done..].
  destruct (Hm args eq_refl) as (body & a & Ha & Hasks & Hp & Hh).
  destruct (verified_action _ _ args cwd s) as [s2 [act'|e|c]] eqn:Ev; simplify_eq.
  unfold verified_action in Ev. apply act_bind_Ok in Ev as (ch & s3 & Hch & Hret).
  unfold mret, action_ret in Hret. simplify_eq. simpl.
  exists body, a, (workdir args). rewrite <- Hh. by split_and!.
Qed.

(** Checking a command for a patch reads files and changes none, and always
    gives an answer: it never panics, whatever the arguments, the script and the
    file system. *)
Theorem verified_reads_only (argv : list str) (cwd : str) (s : S) :
  exists v, maybe_parse_apply_patch_verified bash_matches home unified_diff argv cwd s
            = (s, Ok v).
Proof.
  unfold maybe_parse_apply_patch_verified.
  destruct (implicit_invocation argv); [eauto|].
  destruct (maybe_parse_inv argv) as (m & -> & _).
  destruct m as [args|e|e|]; [|eauto..].
  destruct (reads_only_propose_changes (effective_cwd home cwd (workdir args))
              (hunks args) ∅ s) as [Hs Hc].
  unfold verified_action, mbind, action_bind.
  destruct (propose_changes _ _ _ _ _ s) as [s2 [ch|e|c]]; simpl in *; subst; [eauto..|].
  by destruct (Hc c).
Qed.

(** A command is taken for a patch only in the documented forms: it is
    [apply_patch] or [applypatch] with the patch as its one argument, or a script of
    a known shell that calls it with a here-document; a patch given without the
    command is never taken for one. The action carries the text of that patch and
    the directory it is to be applied in. *)
Theorem verified_only_commands (argv : list str) (cwd : str) (s s1 : S)
    (act : ApplyPatchAction) :
  maybe_parse_apply_patch_verified bash_matches home unified_diff argv cwd s
    = (s1, Ok (VerifiedBody act)) ->
  implicit_invocation argv = false /\
  exists body a wd, asks_for argv body wd /\ parse_patch body = Ok a /\
    action_patch act = patch a /\ action_cwd act = effective_cwd home cwd wd.
Proof. intros [Hi (body & a & wd & ?)]%verified_Body_inv. naive_solver. Qed.

(** C1: what was checked is what is applied. The text an action carries is parsed
    again by the process that applies it; when it holds no carriage return and its
    hunks touch different files, and the patch applies with success to the file
    system it was checked on, then every change the action announced is there. *)
Theorem verified_is_applied (argv : list str) (cwd : str) (s s1 : S) (act : ApplyPatchAction)
    (out err : str) (w : world S) :
  maybe_parse_apply_patch_verified bash_matches home unified_diff argv cwd s
    = (s1, Ok (VerifiedBody act)) ->
  CR ∉ action_patch act ->
  (forall a, parse_patch (action_patch act) = Ok a ->
     NoDup (concat (map (touched home (action_cwd act)) (hunks a)))) ->
  apply_patch home (action_patch act) (action_cwd act)
    {| fs := s; stdout := out; stderr := err |} = (w, Ok tt) ->
  map_Forall (agrees (fs w)) (action_changes act).
Proof.
  intros [_ (body & a & wd & Ha & _ & Hp & _ & Hch)]%verified_Body_inv Hcr Hnd Hap.
  rewrite Hp in *. destruct (reparse _ _ Ha Hcr) as (b & Hb & Hh).
  specialize (Hnd b Hb). rewrite Hh in Hnd. unfold apply_patch in Hap. rewrite Hb, Hh in Hap.
  apply apply_hunks_fs in Hap as [af Haf].
  by eapply proposed_then_applied.
Qed.

End Verified.

Import MemoryFs.

(** A command line with a patch that edits, moves, deletes and adds a file. *)
Definition sample_patch : str := join [NL]
  [lit "*** Begin Patch"; lit "*** Update File: a"; lit "*** Move to: e/d"; lit "@@";
   lit "-a"; lit "+A"; lit "*** Delete File: c"; lit "*** Add File: n"; lit "+n";
   lit "*** End Patch"].

Definition sample_argv : list str := [lit "apply_patch"; sample_patch].

Definition no_bash (_ : str) : ExtractHeredocError + list (list (str * option str)) :=
  inl FailedToLoadBashGrammar.

Definition sample_verified :=
  maybe_parse_apply_patch_verified no_bash None no_diff sample_argv (lit "/w") sample_fs.

(** The action of a verified result, or an empty one. *)
Definition action_of (r : mem * result Empty_set MaybeApplyPatchVerified)
    : ApplyPatchAction :=
  match r.2 with
  | Ok (VerifiedBody a) => a
  | _ => {| action_changes := ∅; action_patch := []; action_cwd := [] |}
  end.

Lemma verified_reads_only_witness :
  exists v, maybe_parse_apply_patch_verified no_bash None no_diff
    [lit "bash"; lit "-lc"; sample_patch] (lit "/w") sample_fs = (sample_fs, Ok v) /\
    v = CorrectnessError ImplicitInvocation.
Proof.
  destruct (verified_reads_only no_bash None no_diff [lit "bash"; lit "-lc"; sample_patch]
              (lit "/w") sample_fs) as [v Hv].
  exists v. split; [exact Hv|]. apply (f_equal snd) in Hv. vm_compute in Hv. by injection Hv as <-.
Defined.

Lemma verified_only_commands_witness :
  exists body a wd, asks_for no_bash sample_argv body wd /\ parse_patch body = Ok a /\
    action_patch (action_of sample_verified) = patch a /\
    action_cwd (action_of sample_verified) = effective_cwd None (lit "/w") wd.
Proof.
  apply (verified_only_commands no_bash None no_diff sample_argv (lit "/w") sample_fs
           sample_verified.1 (action_of sample_verified)).
  vm_compute. reflexivity.
Defined.

Lemma verified_is_applied_witness :
  exists w, apply_patch None sample_patch (lit "/w")
      {| fs := sample_fs; stdout := []; stderr := [] |} = (w, Ok tt) /\
    dom (action_changes (action_of sample_verified))
      = {[lit "/w/a"; lit "/w/c"; lit "/w/n"]} /\
    map_Forall (agrees (fs w)) (action_changes (action_of sample_verified)).
Proof.
  exists (apply_patch None sample_patch (lit "/w")
            {| fs := sample_fs; stdout := []; stderr := [] |}).1.
  split; [vm_compute; reflexivity|]. split; [vm_compute; reflexivity|].
  apply (verified_is_applied no_bash None no_diff sample_argv (lit "/w") sample_fs
           sample_verified.1 (action_of sample_verified) [] []).
  - vm_compute. reflexivity.
  - apply (bool_decide_unpack _). vm_compute. exact I.
  - intros a Ha. assert (parse_patch (action_patch (action_of sample_verified))
      = Ok {| patch := sample_patch; hunks := sample_hunks; workdir := None |}) as E
      by (vm_compute; reflexivity).
    rewrite E in Ha. injection Ha as <-. apply (bool_decide_unpack _). vm_compute. exact I.
  - vm_compute. reflexivity.
Defined.

End PatchInvocationFacts.
