(* ===== verification/ExecRule.v ===== *)
(** * Rules of the execution policy: src/execpolicy/src/{decision,error,rule,executable_name}.rs

    Decisions, patterns of command tokens, prefix rules, network rules and the
    normal form of a host name. *)

From Stdlib Require Import Ascii String.
From stdpp Require Import sorting.
From S2P Require Import Prelude RustStr AbsPath.
Import AbsPath.

Module ExecRule.

(** ** decision.rs *)

Inductive Decision := Allow | Prompt | Forbidden.

#[export] Instance Decision_eq_dec : EqDecision Decision.
Proof. solve_decision. Defined.

(** The derived order: the declaration order. *)
Definition rank (d : Decision) : nat :=
  match d with Allow => 0 | Prompt => 1 | Forbidden => 2 end.

Definition decision_le (a b : Decision) : Prop := rank a <= rank b.

Definition decision_max (a b : Decision) : Decision :=
  if rank a <=? rank b then b else a.

(** [Iterator::max]: of equal elements the last, which is the same decision. *)
Fixpoint max_decision (ds : list Decision) : option Decision :=
  match ds with
  | [] => None
  | d :: ds => match max_decision ds with
               | None => Some d
               | Some m => Some (decision_max d m)
               end
  end.

(** ** error.rs *)

Record TextPosition := { line : nat; column : nat }.
Record TextRange := { range_start : TextPosition; range_end : TextPosition }.
Record ErrorLocation := { location_path : str; range : TextRange }.

(** An error of the Starlark library is its text; one that a builtin function
    returned keeps the error it wraps. *)
Inductive Error :=
| InvalidDecision (raw : str)
| InvalidPattern (message : str)
| InvalidExample (message : str)
| InvalidRule (message : str)
| ExampleDidNotMatch (rules examples : list str) (location : option ErrorLocation)
| ExampleDidMatch (rule example : str) (location : option ErrorLocation)
| Starlark (text : str)
| StarlarkBuiltin (source : Error).

Definition with_location (e : Error) (location : ErrorLocation) : Error :=
  match e with
  | ExampleDidNotMatch rules examples None =>
      ExampleDidNotMatch rules examples (Some location)
  | ExampleDidMatch rule example None => ExampleDidMatch rule example (Some location)
  | other => other
  end.

Definition parse_decision (raw : str) : result Error Decision :=
  if str_eqb raw (lit "allow") then Ok Allow
  else if str_eqb raw (lit "prompt") then Ok Prompt
  else if str_eqb raw (lit "forbidden") then Ok Forbidden
  else Err (InvalidDecision raw).

(** ** executable_name.rs, on the systems that are not Windows *)

Definition executable_lookup_key (raw : str) : str := raw.

Definition executable_path_lookup_key (path : str) : option str :=
  executable_lookup_key <$> file_name path.

(** ** rule.rs: patterns *)

Inductive PatternToken := Single (expected : str) | Alts (alternatives : list str).

Definition token_matches (p : PatternToken) (token : str) : bool :=
  match p with
  | Single expected => str_eqb expected token
  | Alts alternatives => existsb (fun alt => str_eqb alt token) alternatives
  end.

Definition alternatives (p : PatternToken) : list str :=
  match p with Single expected => [expected] | Alts alternatives => alternatives end.

Record PrefixPattern := { first : str; rest : list PatternToken }.

(** The loop over [self.rest.iter().zip(&cmd[1..pattern_length])]. *)
Fixpoint zip_matches (ps : list PatternToken) (ts : list str) : bool :=
  match ps, ts with
  | p :: ps, t :: ts => if token_matches p t then zip_matches ps ts else false
  | _, _ => true
  end.

Definition matches_prefix (p : PrefixPattern) (cmd : list str) : option (list str) :=
  let pattern_length := length (rest p) + 1 in
  if (length cmd <? pattern_length)
     || negb (match cmd with c :: _ => str_eqb c (first p) | [] => false end)
  then None
  else if zip_matches (rest p) (take (pattern_length - 1) (drop 1 cmd))
  then Some (take pattern_length cmd)
  else None.

(** ** rule.rs: rules *)

Inductive RuleMatch :=
| PrefixRuleMatch (matched_prefix : list str) (decision : Decision)
    (resolved_program : option str) (justification : option str)
| HeuristicsRuleMatch (command : list str) (decision : Decision).

Definition match_decision (m : RuleMatch) : Decision :=
  match m with
  | PrefixRuleMatch _ decision _ _ => decision
  | HeuristicsRuleMatch _ decision => decision
  end.

Definition with_resolved_program (resolved_program : str) (m : RuleMatch) : RuleMatch :=
  match m with
  | PrefixRuleMatch matched_prefix decision _ justification =>
      PrefixRuleMatch matched_prefix decision (Some resolved_program) justification
  | other => other
  end.

Record PrefixRule := {
  pattern : PrefixPattern;
  rule_decision : Decision;
  rule_justification : option str;
}.

(** The trait [Rule]; [PrefixRule] is its one implementation. *)
Class Rule (R : Type) := {
  program : R -> str;
  matches : R -> list str -> option RuleMatch;
}.

#[export] Instance prefix_rule_Rule : Rule PrefixRule := {
  program r := first (pattern r);
  matches r cmd :=
    (fun matched_prefix =>
       PrefixRuleMatch matched_prefix (rule_decision r) None (rule_justification r))
    <$> matches_prefix (pattern r) cmd;
}.

(** ** rule.rs: network rules *)

Inductive NetworkRuleProtocol := Http | Https | Socks5Tcp | Socks5Udp.

#[export] Instance NetworkRuleProtocol_eq_dec : EqDecision NetworkRuleProtocol.
Proof. solve_decision. Defined.

Definition parse_protocol (raw : str) : result Error NetworkRuleProtocol :=
  if str_eqb raw (lit "http") then Ok Http
  else if str_eqb raw (lit "https") || str_eqb raw (lit "https_connect")
          || str_eqb raw (lit "http-connect") then Ok Https
  else if str_eqb raw (lit "socks5_tcp") then Ok Socks5Tcp
  else if str_eqb raw (lit "socks5_udp") then Ok Socks5Udp
  else Err (InvalidRule
    (lit "network_rule protocol must be one of http, https, socks5_tcp, socks5_udp (got "
     ++ raw ++ lit ")")).

Definition as_policy_string (p : NetworkRuleProtocol) : str :=
  match p with
  | Http => lit "http"
  | Https => lit "https"
  | Socks5Tcp => lit "socks5_tcp"
  | Socks5Udp => lit "socks5_udp"
  end.

Record NetworkRule := {
  host : str;
  protocol : NetworkRuleProtocol;
  net_decision : Decision;
  net_justification : option str;
}.

(** A port: a non-empty run of digits. *)
Definition is_port (port : str) : bool :=
  negb (str_eqb port []) && forallb is_ascii_digit port.

(** The host without its brackets or its port. *)
Definition strip_port (raw host : str) : result Error str :=
  match strip_prefix [ch "["] host with
  | Some stripped =>
      match split_once (ch "]") stripped with
      | None => Err (InvalidRule
                  (lit "network_rule host has an invalid bracketed IPv6 literal"))
      | Some (inside, rest) =>
          let port_ok := match strip_prefix [ch ":"] rest with
                         | Some port => is_port port
                         | None => false
                         end in
          if negb (str_eqb rest []) && negb port_ok
          then Err (InvalidRule
                 (lit "network_rule host contains an unsupported suffix: " ++ raw))
          else Ok inside
      end
  | None =>
      if count_char (ch ":") host =? 1 then
        match rsplit_once (ch ":") host with
        | Some (candidate, port) =>
            if negb (str_eqb candidate []) && is_port port then Ok candidate else Ok host
        | None => Ok host
        end
      else Ok host
  end.

(** [trim_end_matches('.').trim().to_ascii_lowercase()] *)
Definition fold_host (host : str) : str :=
  to_ascii_lowercase (trim (drop_while_end (N.eqb (ch ".")) host)).

Definition normalize_network_rule_host (raw : str) : result Error str :=
  let host := trim raw in
  if str_eqb host [] then Err (InvalidRule (lit "network_rule host cannot be empty"))
  else if contains (lit "://") host || contains_char (ch "/") host
          || contains_char (ch "?") host || contains_char (ch "#") host
  then Err (InvalidRule
    (lit "network_rule host must be a hostname or IP literal (without scheme or path)"))
  else
    host ← strip_port raw host;
    let normalized := fold_host host in
    if str_eqb normalized []
    then Err (InvalidRule (lit "network_rule host cannot be empty"))
    else if contains_char (ch "*") normalized
    then Err (InvalidRule
      (lit "network_rule host must be a specific host; wildcards are not allowed"))
    else if existsb is_whitespace normalized
    then Err (InvalidRule (lit "network_rule host cannot contain whitespace"))
    else Ok normalized.

End ExecRule.

(** * Policies: src/execpolicy/src/policy.rs

    A policy indexes its prefix rules by the program they name (a [MultiMap] is a
    map to the vector of the values inserted under a key), and keeps the network
    rules in order and the paths allowed for the host executables. *)

Import AbsPath ExecRule.

Module ExecPolicy.

(** The crate [multimap]: [insert] pushes at the end of the key's vector. *)
Abbreviation multimap A := (gmap (list N) (list A)).

Definition get_vec {A} (m : multimap A) (k : str) : option (list A) := m !! k.

Definition mm_insert {A} (k : str) (v : A) (m : multimap A) : multimap A :=
  <[k := match m !! k with Some vs => vs ++ [v] | None => [v] end]> m.

Record MatchOptions := { resolve_host_executables : bool }.

Definition default_options : MatchOptions := {| resolve_host_executables := false |}.

Record Policy := {
  rules_by_program : multimap PrefixRule;
  network_rules : list NetworkRule;
  host_executables_by_name : gmap (list N) (list str);
}.

Definition from_parts (rules : multimap PrefixRule) (nets : list NetworkRule)
    (hosts : gmap (list N) (list str)) : Policy :=
  {| rules_by_program := rules; network_rules := nets; host_executables_by_name := hosts |}.

Definition new (rules : multimap PrefixRule) : Policy := from_parts rules [] ∅.
Definition empty : Policy := new ∅.

(** ** Rendering the allowed prefixes *)

Definition render_pattern_token (token : PatternToken) : str :=
  match token with
  | Single value => value
  | Alts alternatives => lit "[" ++ join (lit "|") alternatives ++ lit "]"
  end.

(** The order of [Vec<Vec<String>>]. *)
Definition prefix_compare : list str -> list str -> comparison :=
  lex_compare (lex_compare N.compare).

Definition prefix_leb (a b : list str) : bool :=
  match prefix_compare a b with Gt => false | _ => true end.

Definition prefix_le (a b : list str) : Prop := prefix_leb a b = true.

#[export] Instance prefix_le_dec : RelDecision prefix_le.
Proof. intros a b. unfold prefix_le. apply _. Defined.

(** [Vec::dedup]: drops an element equal to the one kept before it. *)
Fixpoint dedup {A} `{EqDecision A} (l : list A) : list A :=
  match l with
  | [] => []
  | x :: l => match dedup l with
              | y :: l' => if decide (x = y) then y :: l' else x :: y :: l'
              | [] => [x]
              end
  end.

Definition rule_prefix (r : PrefixRule) : list str :=
  first (pattern r) :: map render_pattern_token (rest (pattern r)).

(** The prefixes in the order an iteration [entries] of the map meets them. *)
Definition allowed_prefixes (entries : list (str * list PrefixRule)) : list (list str) :=
  entries ≫= fun '(_, rules) =>
    omap (fun r => if bool_decide (rule_decision r = Allow) then Some (rule_prefix r)
                   else None) rules.

Definition get_allowed_prefixes (p : Policy) : list (list str) :=
  dedup (merge_sort prefix_le (allowed_prefixes (map_to_list (rules_by_program p)))).

(** ** Changing a policy *)

Definition with_rules (p : Policy) (rules : multimap PrefixRule) : Policy :=
  from_parts rules (network_rules p) (host_executables_by_name p).

Definition add_prefix_rule (prefix : list str) (decision : Decision) (p : Policy)
    : result Error Policy :=
  match prefix with
  | [] => Err (InvalidPattern (lit "prefix cannot be empty"))
  | first_token :: rest =>
      let rule := {| pattern := {| first := first_token; rest := map Single rest |};
                     rule_decision := decision; rule_justification := None |} in
      Ok (with_rules p (mm_insert first_token rule (rules_by_program p)))
  end.

Definition add_network_rule (raw_host : str) (protocol : NetworkRuleProtocol)
    (decision : Decision) (justification : option str) (p : Policy) : result Error Policy :=
  host ← normalize_network_rule_host raw_host;
  if match justification with Some raw => str_eqb (trim raw) [] | None => false end
  then Err (InvalidRule (lit "justification cannot be empty"))
  else Ok (from_parts (rules_by_program p)
             (network_rules p ++ [{| host := host; protocol := protocol;
                                     net_decision := decision;
                                     net_justification := justification |}])
             (host_executables_by_name p)).

Definition set_host_executable_paths (name : str) (paths : list str) (p : Policy) : Policy :=
  from_parts (rules_by_program p) (network_rules p)
    (<[name := paths]> (host_executables_by_name p)).

Definition merge_overlay (self overlay : Policy) : Policy :=
  let combined_rules :=
    fold_left (fun m '(program, rules) =>
      fold_left (fun m rule => mm_insert program rule m) rules m)
      (map_to_list (rules_by_program overlay)) (rules_by_program self) in
  from_parts combined_rules (network_rules self ++ network_rules overlay)
    (host_executables_by_name overlay ∪ host_executables_by_name self).

(** ** Network domains *)

Definition retain_ne (host : str) (entries : list str) : list str :=
  filter (fun entry => entry <> host) entries.

Definition upsert_domain (entries : list str) (host : str) : list str :=
  retain_ne host entries ++ [host].

Definition add_domain (domains : list str * list str) (rule : NetworkRule)
    : list str * list str :=
  let '(allowed, denied) := domains in
  match net_decision rule with
  | Allow => (upsert_domain allowed (host rule), retain_ne (host rule) denied)
  | Forbidden => (retain_ne (host rule) allowed, upsert_domain denied (host rule))
  | Prompt => (allowed, denied)
  end.

Definition compiled_network_domains (p : Policy) : list str * list str :=
  fold_left add_domain (network_rules p) ([], []).

(** ** Checking a command *)

Record Evaluation := { decision : Decision; matched_rules : list RuleMatch }.

Definition is_match (e : Evaluation) : bool :=
  existsb (fun m => match m with HeuristicsRuleMatch _ _ => false | _ => true end)
    (matched_rules e).

(** [decision.expect(..)]: no match at all is a panic. *)
Definition from_matches (matched_rules : list RuleMatch) : result Empty_set Evaluation :=
  decision ← or_panic (max_decision (map match_decision matched_rules));
  Ok {| decision := decision; matched_rules := matched_rules |}.

Section Check.
Context (home_dir current_dir : option str).

Definition match_exact_rules (p : Policy) (cmd : list str) : option (list RuleMatch) :=
  match cmd with
  | [] => None
  | first :: _ =>
      Some (match get_vec (rules_by_program p) first with
            | Some rules => omap (fun rule => matches rule cmd) rules
            | None => []
            end)
  end.

Definition match_host_executable_rules (p : Policy) (cmd : list str) : list RuleMatch :=
  match cmd with
  | [] => []
  | first :: rest =>
      match from_absolute_path home_dir current_dir first with
      | Ok program =>
          match executable_path_lookup_key program with
          | None => []
          | Some basename =>
              match get_vec (rules_by_program p) basename with
              | None => []
              | Some rules =>
                  if match host_executables_by_name p !! basename with
                     | Some paths => negb (existsb (fun path => str_eqb path program) paths)
                     | None => false
                     end
                  then []
                  else map (with_resolved_program program)
                         (omap (fun rule => matches rule (basename :: rest)) rules)
              end
          end
      | _ => []
      end
  end.

(** [Option::filter(|matched_rules| !matched_rules.is_empty())] *)
Definition non_empty (m : option (list RuleMatch)) : option (list RuleMatch) :=
  match m with Some [] => None | m => m end.

Definition matches_for_command_with_options (p : Policy) (cmd : list str)
    (heuristics_fallback : option (list str -> Decision)) (options : MatchOptions)
    : list RuleMatch :=
  let matched_rules :=
    match non_empty (match_exact_rules p cmd) with
    | Some ms => ms
    | None =>
        match (if resolve_host_executables options
               then non_empty (Some (match_host_executable_rules p cmd)) else None) with
        | Some ms => ms
        | None => []
        end
    end in
  match matched_rules, heuristics_fallback with
  | [], Some fallback => [HeuristicsRuleMatch cmd (fallback cmd)]
  | _, _ => matched_rules
  end.

Definition matches_for_command (p : Policy) (cmd : list str)
    (heuristics_fallback : option (list str -> Decision)) : list RuleMatch :=
  matches_for_command_with_options p cmd heuristics_fallback default_options.

Definition check_with_options (p : Policy) (cmd : list str)
    (heuristics_fallback : list str -> Decision) (options : MatchOptions)
    : result Empty_set Evaluation :=
  from_matches (matches_for_command_with_options p cmd (Some heuristics_fallback) options).

Definition check (p : Policy) (cmd : list str) (heuristics_fallback : list str -> Decision)
    : result Empty_set Evaluation :=
  from_matches
    (matches_for_command_with_options p cmd (Some heuristics_fallback) default_options).

Definition check_multiple_with_options (p : Policy) (commands : list (list str))
    (heuristics_fallback : list str -> Decision) (options : MatchOptions)
    : result Empty_set Evaluation :=
  from_matches (commands ≫= fun command =>
    matches_for_command_with_options p command (Some heuristics_fallback) options).

Definition check_multiple (p : Policy) (commands : list (list str))
    (heuristics_fallback : list str -> Decision) : result Empty_set Evaluation :=
  check_multiple_with_options p commands heuristics_fallback default_options.

End Check.

End ExecPolicy.
