(* ===== verification/ExecPolicyFacts.v ===== *)
(** * Facts about policies

    The index by program is complete, the decision is the strictest of the matches,
    an overlay adds rules and takes none away, and the network rules compile to two
    disjoint lists. *)

From Stdlib Require Import Ascii String.
From stdpp Require Import sorting.
From S2P Require Import Prelude RustStr AbsPath ExecRule.
Import AbsPath ExecRule ExecPolicy.

Module ExecPolicyFacts.

(** ** Patterns *)

Lemma token_matches_true (p : PatternToken) (t : str) :
  token_matches p t = true <-> t ∈ alternatives p.
Proof.
  destruct p as [e|alts]; simpl.
  - rewrite str_eqb_eq, list_elem_of_singleton. by split.
  - rewrite existsb_exists. split.
    + intros (x & Hx & ->%str_eqb_eq). by apply list_elem_of_In.
    + intros Ht. exists t. split; [by apply list_elem_of_In|apply str_eqb_refl].
Qed.

Lemma zip_matches_true (ps : list PatternToken) (ts : list str) :
  length ps = length ts ->
  zip_matches ps ts = true <-> Forall2 (fun p t => t ∈ alternatives p) ps ts.
Proof.
  revert ts. induction ps as [|p ps IH]; intros [|t ts]; simpl; try done.
  intros [= Hl]. rewrite Forall2_cons, <- token_matches_true, <- IH by done.
  destruct (token_matches p t); naive_solver.
Qed.

(** The tokens of a pattern. *)
Definition pattern_tokens (p : PrefixPattern) : list PatternToken := Single (first p) :: rest p.

Lemma matches_prefix_spec (p : PrefixPattern) (cmd matched : list str) :
  matches_prefix p cmd = Some matched <->
  (exists args, cmd = matched ++ args) /\
  Forall2 (fun t c => c ∈ alternatives t) (pattern_tokens p) matched.
Proof.
  unfold matches_prefix, pattern_tokens. destruct cmd as [|c cmd]; simpl.
  { rewrite orb_true_r. split; [done|]. intros [[args Ha] Hf].
    apply Forall2_length in Hf. by destruct matched. }
  replace (length (rest p) + 1) with (S (length (rest p))) by lia. cbn [take].
  replace (S (length (rest p)) - 1) with (length (rest p)) by lia. rewrite drop_0.
  destruct (Nat.ltb_spec (S (length cmd)) (S (length (rest p)))) as [Hlt|Hge]; simpl.
  { split; [done|]. intros [[args Ha] Hf]. apply Forall2_length in Hf.
    apply (f_equal length) in Ha. rewrite length_app in Ha. simpl in *. lia. }
  destruct (str_eqb c (first p)) eqn:Ec; simpl.
  2: { split; [done|]. intros [[args Ha] Hf]. apply Forall2_cons_inv_l in Hf as (c' & m & Hc & _ & ->).
       simpl in Hc. apply list_elem_of_singleton in Hc as ->. simplify_eq/=.
       by rewrite str_eqb_refl in Ec. }
  apply str_eqb_eq in Ec as ->.
  assert (length (rest p) = length (take (length (rest p)) cmd)) as Hlen
    by (rewrite length_take; lia).
  destruct (zip_matches _ _) eqn:Ez.
  - apply zip_matches_true in Ez; [|done]. split.
    + intros ?; simplify_eq. split; [exists (drop (length (rest p)) cmd); simpl; by rewrite take_drop|].
      constructor; [simpl; set_solver|done].
    + intros [[args Ha] Hf]. apply Forall2_length in Hf. destruct matched as [|x m]; [done|].
      simplify_eq/=. f_equal. f_equal. rewrite Hf. apply take_app_length.
  - split; [done|]. intros [[args Ha] Hf]. apply Forall2_cons_inv_l in Hf as (c' & m & Hc & Hm & ->).
    simplify_eq/=. pose proof (Forall2_length _ _ _ Hm) as Hl.
    rewrite Hl, take_app_length in Ez. by rewrite (proj2 (zip_matches_true _ _ Hl)) in Ez.
Qed.

(** ** Decisions *)

Lemma max_decision_spec (ds : list Decision) (d : Decision) :
  max_decision ds = Some d <-> d ∈ ds /\ Forall (fun x => decision_le x d) ds.
Proof.
  revert d. induction ds as [|x ds IH]; intros d; simpl.
  - split; [done|]. by intros [?%not_elem_of_nil _].
  - rewrite elem_of_cons, Forall_cons. destruct (max_decision ds) as [m|] eqn:E.
    + destruct (proj1 (IH m) eq_refl) as [Hm Hall]. unfold decision_max, decision_le in *.
      split.
      * destruct (Nat.leb_spec (rank x) (rank m)); intros ?; simplify_eq; [naive_solver|].
        split; [by left|]. split; [done|]. eapply Forall_impl; [done|]. simpl. intros; lia.
      * intros [Hd [Hx Hds]]. f_equal.
        assert (rank m <= rank d) as Hmd by (rewrite Forall_forall in Hds; by apply Hds).
        assert (rank d <= rank m \/ d = x) as Hd'.
        { destruct Hd as [->|Hd]; [by right|]. left. rewrite Forall_forall in Hall. by apply Hall. }
        destruct (Nat.leb_spec (rank x) (rank m)); destruct x, m, d; simpl in *; naive_solver lia.
    + destruct ds as [|y ds]; [|simpl in E; by destruct (max_decision ds)].
      unfold decision_le. split; [intros ?; simplify_eq; naive_solver|].
      intros [[->|?%not_elem_of_nil] _]; done.
Qed.

Lemma max_decision_None (ds : list Decision) : max_decision ds = None <-> ds = [].
Proof.
  destruct ds as [|d ds]; simpl; [done|]. by destruct (max_decision ds).
Qed.

Lemma decision_le_antisymm (a b : Decision) : decision_le a b -> decision_le b a -> a = b.
Proof. unfold decision_le. destruct a, b; simpl; done || lia. Qed.

(** ** The index *)

Definition rules_of (p : Policy) (k : str) : list PrefixRule :=
  match rules_by_program p !! k with Some rs => rs | None => [] end.

Definition all_rules (p : Policy) : list PrefixRule :=
  map_to_list (rules_by_program p) ≫= snd.

(** Every rule is under the program it names. *)
Definition indexed (p : Policy) : Prop :=
  map_Forall (fun k rs => Forall (fun r => program r = k) rs) (rules_by_program p).

Lemma elem_of_all_rules (p : Policy) (r : PrefixRule) :
  r ∈ all_rules p <-> exists k, r ∈ rules_of p k.
Proof.
  unfold all_rules, rules_of. rewrite list_elem_of_bind. split.
  - intros ([k rs] & Hr & Hk%elem_of_map_to_list). exists k. by rewrite Hk.
  - intros (k & Hr). destruct (rules_by_program p !! k) as [rs|] eqn:E;
      [|by apply not_elem_of_nil in Hr].
    exists (k, rs). split; [done|by apply elem_of_map_to_list].
Qed.

Definition mm_get {A} (m : multimap A) (k : str) : list A :=
  match m !! k with Some rs => rs | None => [] end.

Lemma mm_get_insert {A} (k k' : str) (v : A) (m : multimap A) :
  mm_get (mm_insert k v m) k' = mm_get m k' ++ (if decide (k = k') then [v] else []).
Proof.
  unfold mm_get, mm_insert. destruct (decide (k = k')) as [->|Hne].
  - rewrite lookup_insert_eq. by destruct (m !! k').
  - rewrite lookup_insert_ne by done. by rewrite app_nil_r.
Qed.

Lemma mm_get_insert_all {A} (k k' : str) (vs : list A) (m : multimap A) :
  mm_get (fold_left (fun m v => mm_insert k v m) vs m) k'
  = mm_get m k' ++ (if decide (k = k') then vs else []).
Proof.
  revert m. induction vs as [|v vs IH]; intros m; simpl.
  - case_decide; by rewrite app_nil_r.
  - rewrite IH, mm_get_insert. case_decide; by rewrite <- app_assoc.
Qed.

(** What a list of entries holds for a key. *)
Definition select {A} (k : str) (es : list (str * list A)) : list A :=
  es ≫= fun e => if decide (e.1 = k) then e.2 else [].

Lemma select_absent {A} (k : str) (es : list (str * list A)) : k ∉ es.*1 -> select k es = [].
Proof.
  induction es as [|[k' vs] es IH]; intros Hk; [done|]. simpl in *.
  apply not_elem_of_cons in Hk as [Hk Hes]. unfold select. simpl.
  rewrite decide_False by done. by apply IH.
Qed.

Lemma select_present {A} (k : str) (vs : list A) (es : list (str * list A)) :
  NoDup es.*1 -> (k, vs) ∈ es -> select k es = vs.
Proof.
  induction es as [|[k' vs'] es IH]; intros Hnd Hin; [by apply not_elem_of_nil in Hin|].
  simpl in Hnd. apply NoDup_cons in Hnd as [Hk' Hnd].
  change (select k ((k', vs') :: es))
    with ((if decide (k' = k) then vs' else []) ++ select k es).
  apply elem_of_cons in Hin as [?|Hin]; simplify_eq.
  - rewrite decide_True, select_absent by done. apply app_nil_r.
  - rewrite decide_False; [by apply IH|]. intros ->. apply Hk'.
    apply (list_elem_of_fmap_2 fst _ _ Hin).
Qed.

Lemma select_map_to_list {A} (k : str) (m : multimap A) : select k (map_to_list m) = mm_get m k.
Proof.
  unfold mm_get. destruct (m !! k) as [vs|] eqn:E.
  - apply select_present; [apply NoDup_fst_map_to_list|by apply elem_of_map_to_list].
  - apply select_absent. intros ([k' vs] & -> & Hin)%list_elem_of_fmap.
    apply elem_of_map_to_list in Hin. simpl in E. congruence.
Qed.

Lemma mm_get_merge {A} (es : list (str * list A)) (m : multimap A) (k : str) :
  mm_get (fold_left (fun m '(program, rules) =>
    fold_left (fun m rule => mm_insert program rule m) rules m) es m) k
  = mm_get m k ++ select k es.
Proof.
  revert m. induction es as [|[k' vs] es IH]; intros m; simpl; [by rewrite app_nil_r|].
  rewrite IH, mm_get_insert_all, <- app_assoc. done.
Qed.

Lemma rules_of_merge (p q : Policy) (k : str) :
  rules_of (merge_overlay p q) k = rules_of p k ++ rules_of q k.
Proof.
  transitivity (mm_get (rules_by_program (merge_overlay p q)) k); [done|].
  unfold merge_overlay. simpl. rewrite mm_get_merge, select_map_to_list. done.
Qed.

Lemma indexed_rules_of (p : Policy) :
  indexed p <-> forall k r, r ∈ rules_of p k -> program r = k.
Proof.
  unfold indexed, rules_of, map_Forall. split.
  - intros Hi k r Hr. destruct (rules_by_program p !! k) as [rs|] eqn:E;
      [|by apply not_elem_of_nil in Hr].
    specialize (Hi k rs E). rewrite Forall_forall in Hi. by apply Hi.
  - intros Hi k rs E. apply Forall_forall. intros r Hr. apply Hi. by rewrite E.
Qed.

(** Rules put under their programs, one after the other: what reading a rules file and
    converting the requirements do ([parse_reachable], [requirements_reachable]). *)
Definition insert_rules (rules : list PrefixRule) (m : multimap PrefixRule) : multimap PrefixRule :=
  fold_left (fun m rule => mm_insert (program rule) rule m) rules m.

Lemma mm_get_insert_rules (rules : list PrefixRule) (m : multimap PrefixRule) (k : str) :
  mm_get (insert_rules rules m) k = mm_get m k ++ filter (fun r => program r = k) rules.
Proof.
  unfold insert_rules. revert m. induction rules as [|r rules IH]; intros m; simpl; [by rewrite app_nil_r|].
  rewrite IH, mm_get_insert, filter_cons. repeat case_decide; try done; by rewrite <- app_assoc.
Qed.

(** The policies that are made: from parts with any patterns, and by the operations. *)
Inductive reachable : Policy -> Prop :=
| reach_parts rules nets hosts : reachable (from_parts (insert_rules rules ∅) nets hosts)
| reach_prefix p q prefix d : reachable p -> add_prefix_rule prefix d p = Ok q -> reachable q
| reach_network p q h pr d j : reachable p -> add_network_rule h pr d j p = Ok q -> reachable q
| reach_host p name paths : reachable p -> reachable (set_host_executable_paths name paths p)
| reach_merge p q : reachable p -> reachable q -> reachable (merge_overlay p q).

Lemma add_prefix_rule_Ok (prefix : list str) (d : Decision) (p q : Policy) :
  add_prefix_rule prefix d p = Ok q ->
  exists f ts, prefix = f :: ts /\ forall k, rules_of q k = rules_of p k ++
    (if decide (f = k) then
       [{| pattern := {| first := f; rest := map Single ts |};
           rule_decision := d; rule_justification := None |}] else []).
Proof.
  destruct prefix as [|f ts]; simpl; [done|]. intros ?; simplify_eq.
  exists f, ts. split; [done|]. intros k. apply mm_get_insert.
Qed.

Lemma reachable_indexed (p : Policy) : reachable p -> indexed p.
Proof.
  induction 1 as [rules nets hosts|p q prefix d _ IH E|p q h pr d j _ IH E|p name paths _ IH|p q _ IHp _ IHq].
  - rewrite indexed_rules_of. intros k r.
    change (rules_of _ k) with (mm_get (insert_rules rules ∅) k). rewrite mm_get_insert_rules.
    unfold mm_get. rewrite lookup_empty. cbn [app]. by intros [? _]%list_elem_of_filter.
  - rewrite indexed_rules_of in *.
    apply add_prefix_rule_Ok in E as (f & ts & -> & Hq). intros k r. rewrite Hq, elem_of_app.
    intros [Hr|Hr]; [by apply IH|]. case_decide; [|by apply not_elem_of_nil in Hr].
    apply list_elem_of_singleton in Hr as ->. done.
  - unfold add_network_rule in E. inv_bind. case_match; simplify_eq. done.
  - done.
  - rewrite indexed_rules_of in *. intros k r. rewrite rules_of_merge, elem_of_app.
    intros [Hr|Hr]; [by apply IHp|by apply IHq].
Qed.

(** ** Matching *)

Definition exact (p : Policy) (cmd : list str) : list RuleMatch :=
  match match_exact_rules p cmd with Some ms => ms | None => [] end.

Lemma exact_rules_of (p : Policy) (c : str) (cmd : list str) :
  exact p (c :: cmd) = omap (fun r => matches r (c :: cmd)) (rules_of p c).
Proof. unfold exact, match_exact_rules, get_vec, rules_of. by destruct (_ !! c). Qed.

(** What it is for a rule to match a command. *)
Definition rule_applies (r : PrefixRule) (cmd : list str) (m : RuleMatch) : Prop :=
  exists matched args, cmd = matched ++ args /\
    Forall2 (fun t c => c ∈ alternatives t) (pattern_tokens (pattern r)) matched /\
    m = PrefixRuleMatch matched (rule_decision r) None (rule_justification r).

Lemma rule_applies_matches (r : PrefixRule) (cmd : list str) (m : RuleMatch) :
  matches r cmd = Some m <-> rule_applies r cmd m.
Proof.
  unfold rule_applies. simpl. rewrite fmap_Some. split.
  - intros (matched & [[args Ha] Hf]%matches_prefix_spec & ->). by exists matched, args.
  - intros (matched & args & Ha & Hf & ->). exists matched.
    split; [|done]. apply matches_prefix_spec. eauto.
Qed.

Lemma rule_applies_program (r : PrefixRule) (cmd : list str) (m : RuleMatch) :
  rule_applies r cmd m -> exists args, cmd = program r :: args.
Proof.
  intros (matched & args & -> & Hf & _).
  apply Forall2_cons_inv_l in Hf as (c & ms & Hc & _ & ->).
  simpl in Hc. apply list_elem_of_singleton in Hc as ->. by exists (ms ++ args).
Qed.

(** Looking the rules up by program finds what scanning all of them would. *)
Lemma exact_complete (p : Policy) (cmd : list str) (m : RuleMatch) :
  indexed p -> m ∈ exact p cmd <-> exists r, r ∈ all_rules p /\ rule_applies r cmd m.
Proof.
  intros Hi. rewrite indexed_rules_of in Hi. destruct cmd as [|c cmd].
  { split; [by intros ?%not_elem_of_nil|].
    intros (r & _ & (args & ?)%rule_applies_program). done. }
  rewrite exact_rules_of, list_elem_of_omap. split.
  - intros (r & Hr & Hm). exists r. split; [apply elem_of_all_rules; eauto|].
    by apply rule_applies_matches.
  - intros (r & (k & Hr)%elem_of_all_rules & Ha). exists r.
    destruct (rule_applies_program _ _ _ Ha) as (args & ?). simplify_eq.
    pose proof (Hi _ _ Hr). subst k. split; [done|]. by apply rule_applies_matches.
Qed.

(** C31: For every policy that is read from rules files or from the requirements, with
    single tokens and alternatives in its patterns, or built from such ones by the
    operations, the matches of a command are exactly the rules, wherever they are kept,
    each of whose tokens admits the word of the command at its place, as one of its
    alternatives if it has some; the index by program loses none and adds none. *)
Theorem exact_rules_complete (p : Policy) (cmd : list str) (m : RuleMatch) :
  reachable p ->
  m ∈ exact p cmd <-> exists r, r ∈ all_rules p /\ rule_applies r cmd m.
Proof. intros Hp. by apply exact_complete, reachable_indexed. Qed.

Section Check.
Context (home cwd : option str).

Local Abbreviation matches_of := (matches_for_command_with_options home cwd).

Lemma matches_exact (p : Policy) (cmd : list str) fallback options :
  exact p cmd <> [] -> matches_of p cmd fallback options = exact p cmd.
Proof.
  unfold exact, matches_for_command_with_options, non_empty.
  destruct (match_exact_rules p cmd) as [[|m ms]|]; done.
Qed.

Lemma matches_default (p : Policy) (cmd : list str) (fb : list str -> Decision) :
  matches_of p cmd (Some fb) default_options =
  match exact p cmd with [] => [HeuristicsRuleMatch cmd (fb cmd)] | ms => ms end.
Proof.
  unfold exact, matches_for_command_with_options, non_empty.
  by destruct (match_exact_rules p cmd) as [[|m ms]|].
Qed.

Definition from_rule (m : RuleMatch) : Prop :=
  match m with PrefixRuleMatch _ _ _ _ => True | HeuristicsRuleMatch _ _ => False end.

Lemma exact_from_rule (p : Policy) (cmd : list str) : Forall from_rule (exact p cmd).
Proof.
  destruct cmd as [|c cmd]; [constructor|]. rewrite exact_rules_of. apply Forall_forall.
  intros m (r & _ & Hm%rule_applies_matches)%list_elem_of_omap.
  by destruct Hm as (? & ? & _ & _ & ->).
Qed.

Lemma host_from_rule (p : Policy) (cmd : list str) :
  Forall from_rule (match_host_executable_rules home cwd p cmd).
Proof.
  unfold match_host_executable_rules. repeat case_match; try apply Forall_nil_2;
    apply Forall_forall; intros m (r' & -> & Hr')%list_elem_of_fmap;
    apply list_elem_of_omap in Hr' as (r & _ & Hm%rule_applies_matches);
    by destruct Hm as (? & ? & _ & _ & ->).
Qed.

(** The matches are those of rules, or there is none and the fallback decides. *)
Lemma matches_cases (p : Policy) (cmd : list str) (fb : list str -> Decision) options :
  (matches_of p cmd (Some fb) options <> [] /\
   Forall from_rule (matches_of p cmd (Some fb) options)) \/
  matches_of p cmd (Some fb) options = [HeuristicsRuleMatch cmd (fb cmd)].
Proof.
  unfold matches_for_command_with_options.
  pose proof (exact_from_rule p cmd) as He. unfold exact in He.
  pose proof (host_from_rule p cmd) as Hh.
  destruct (non_empty (match_exact_rules p cmd)) as [[|m ms]|] eqn:E; [by right|..].
  - left. split; [done|]. destruct (match_exact_rules p cmd) as [[|]|]; by simplify_eq/=.
  - destruct (resolve_host_executables options); [|by right].
    destruct (match_host_executable_rules home cwd p cmd) as [|m ms]; [by right|by left].
Qed.

Lemma from_matches_Ok (ms : list RuleMatch) (e : Evaluation) :
  from_matches ms = Ok e <->
  matched_rules e = ms /\ decision e ∈ match_decision <$> ms /\
  Forall (fun d => decision_le d (decision e)) (match_decision <$> ms).
Proof.
  unfold from_matches. rewrite <- (max_decision_spec (match_decision <$> ms)).
  change (map match_decision ms) with (match_decision <$> ms).
  destruct (max_decision (match_decision <$> ms)) as [d|]; simpl.
  - destruct e as [d' ms']; simpl. split; [intros; by simplify_eq|].
    by intros [-> ?]; simplify_eq.
  - split; [done|]. naive_solver.
Qed.

Lemma from_matches_total (ms : list RuleMatch) :
  ms <> [] -> exists e, from_matches ms = Ok e.
Proof.
  intros Hne. unfold from_matches. destruct (max_decision (map match_decision ms)) as [d|] eqn:E;
    [by eexists|]. apply max_decision_None, map_eq_nil in E. done.
Qed.

Lemma matches_nonempty (p : Policy) (cmd : list str) (fb : list str -> Decision) options :
  matches_of p cmd (Some fb) options <> [].
Proof. destruct (matches_cases p cmd fb options) as [[H _]|H]; [done|by rewrite H]. Qed.

(** Checking a command always gives an evaluation, whose decision is the
    strictest of its matches, reached by one of them; when no rule matches, it is the
    decision of the fallback. *)
Theorem check_strictest (p : Policy) (cmd : list str) (fb : list str -> Decision) options :
  exists e, check_with_options home cwd p cmd fb options = Ok e /\
    decision e ∈ match_decision <$> matched_rules e /\
    Forall (fun d => decision_le d (decision e)) (match_decision <$> matched_rules e) /\
    (is_match e = false <-> matched_rules e = [HeuristicsRuleMatch cmd (fb cmd)]).
Proof.
  destruct (from_matches_total _ (matches_nonempty p cmd fb options)) as [e He].
  exists e. split; [done|]. apply from_matches_Ok in He as (Hm & Hd & Hall).
  rewrite Hm. split_and!; [done|done|]. unfold is_match. rewrite Hm.
  destruct (matches_cases p cmd fb options) as [[Hne Hf]|Hh]; [|by rewrite Hh].
  destruct (matches_of p cmd (Some fb) options) as [|m ms]; [done|].
  apply Forall_cons in Hf as [Hf _]. by destruct m.
Qed.

(** A compound command is as strict as its strictest part: the decision for a
    list of commands is reached by one of them and is at least as strict as that of
    each. An empty list of commands makes the call panic. *)
Theorem check_multiple_strictest (p : Policy) (cmds : list (list str))
    (fb : list str -> Decision) options :
  match check_multiple_with_options home cwd p cmds fb options with
  | Ok e =>
      (exists cmd ec, cmd ∈ cmds /\ check_with_options home cwd p cmd fb options = Ok ec /\
         decision e = decision ec) /\
      (forall cmd ec, cmd ∈ cmds -> check_with_options home cwd p cmd fb options = Ok ec ->
         decision_le (decision ec) (decision e))
  | _ => cmds = []
  end.
Proof.
  unfold check_multiple_with_options, check_with_options.
  destruct (decide (cmds = [])) as [->|Hne]; [done|].
  set (all := cmds ≫= fun c => matches_of p c (Some fb) options).
  destruct (from_matches_total all) as [e He].
  { destruct cmds as [|c cmds]; [done|]. subst all. simpl. intros [H _]%app_eq_nil.
    by apply matches_nonempty in H. }
  rewrite He. apply from_matches_Ok in He as (_ & Hd & Hall).
  rewrite Forall_forall in Hall.
  assert (forall cmd d, cmd ∈ cmds -> d ∈ match_decision <$> matches_of p cmd (Some fb) options ->
          decision_le d (decision e)) as Hle.
  { intros cmd d Hc (m & -> & Hm)%list_elem_of_fmap. apply Hall, list_elem_of_fmap_2.
    subst all. apply list_elem_of_bind. eauto. }
  split.
  - apply list_elem_of_fmap in Hd as (m & Hd & Hm). subst all.
    apply list_elem_of_bind in Hm as (cmd & Hm & Hc).
    destruct (from_matches_total _ (matches_nonempty p cmd fb options)) as [ec Hec].
    exists cmd, ec. split_and!; [done|done|].
    apply from_matches_Ok in Hec as (_ & Hd' & Hall').
    rewrite Forall_forall in Hall'. apply decision_le_antisymm.
    + apply Hall'. rewrite Hd. by apply list_elem_of_fmap_2.
    + by eapply Hle.
  - intros cmd ec Hc (_ & Hd' & _)%from_matches_Ok. by eapply Hle.
Qed.

(** ** Adding rules *)

Lemma exact_add_prefix (prefix cmd : list str) (d : Decision) (p q : Policy) :
  add_prefix_rule prefix d p = Ok q ->
  exact q cmd = exact p cmd ++
    (if decide (prefix `prefix_of` cmd) then [PrefixRuleMatch prefix d None None] else []).
Proof.
  intros (f & ts & -> & Hq)%add_prefix_rule_Ok. destruct cmd as [|c cmd].
  { rewrite decide_False; [done|]. by intros [k Hk]. }
  rewrite !exact_rules_of, Hq, omap_app. f_equal.
  destruct (decide (f = c)) as [->|Hne].
  2: { rewrite decide_False; [done|]. intros [k Hk]. simplify_eq/=. }
  set (r := {| pattern := {| first := c; rest := map Single ts |};
               rule_decision := d; rule_justification := None |}).
  assert (forall ms, Forall2 (fun t x => x ∈ alternatives t) (map Single ts) ms <-> ms = ts) as Hts.
  { clear. induction ts as [|t ts IH]; intros ms; simpl.
    - split; [by intros ?%Forall2_nil_inv_l|intros ->; constructor].
    - split.
      + intros (x & ms' & Hx & Hms & ->)%Forall2_cons_inv_l. simpl in Hx.
        apply list_elem_of_singleton in Hx as ->. f_equal. by apply IH.
      + intros ->. constructor; [simpl; set_solver|by apply IH]. }
  assert (forall m, matches r (c :: cmd) = Some m <->
            (c :: ts) `prefix_of` (c :: cmd) /\ m = PrefixRuleMatch (c :: ts) d None None) as Hr.
  { intros m. rewrite rule_applies_matches. unfold rule_applies, pattern_tokens. simpl. split.
    - intros (mt & args & Hc & (x & ms & Hx & Hms%Hts & ->)%Forall2_cons_inv_l & ->).
      simplify_eq/=. split; [by exists args|done].
    - intros [[args Ha] ->]. exists (c :: ts), args.
      split_and!; [done|constructor; [set_solver|by apply Hts]|done]. }
  cbn [omap list_omap]. destruct (matches r (c :: cmd)) as [m|].
  - destruct (proj1 (Hr m) eq_refl) as [Hp ->]. by rewrite decide_True.
  - rewrite decide_False; [done|]. intros Hp.
    by specialize (proj2 (Hr _) (conj Hp eq_refl)).
Qed.

(** Adding a prefix rule affects the commands that start with the prefix and no
    others: these get the rule among their matches and a decision at least as
    strict, and the check of every other command is unchanged. *)
Theorem add_prefix_rule_scope (prefix cmd : list str) (d : Decision) (p q : Policy)
    (fb : list str -> Decision) :
  add_prefix_rule prefix d p = Ok q ->
  if decide (prefix `prefix_of` cmd) then
    exists e, check home cwd q cmd fb = Ok e /\
      PrefixRuleMatch prefix d None None ∈ matched_rules e /\ decision_le d (decision e)
  else check home cwd q cmd fb = check home cwd p cmd fb.
Proof.
  intros Hq. unfold check. rewrite !matches_default.
  rewrite (exact_add_prefix prefix cmd d p q Hq).
  case_decide as Hp; [|by rewrite app_nil_r].
  set (m := PrefixRuleMatch prefix d None None).
  assert (m ∈ exact p cmd ++ [m]) as Hm by set_solver.
  destruct (exact p cmd ++ [m]) as [|m' ms] eqn:E; [by apply not_elem_of_nil in Hm|].
  destruct (from_matches_total (m' :: ms)) as [e He]; [done|]. exists e.
  split; [done|]. apply from_matches_Ok in He as (-> & _ & Hall). split; [done|].
  rewrite Forall_forall in Hall. by apply (Hall (match_decision m)), list_elem_of_fmap_2.
Qed.

(** ** Overlays *)

Lemma exact_merge (p q : Policy) (cmd : list str) :
  exact (merge_overlay p q) cmd = exact p cmd ++ exact q cmd.
Proof.
  destruct cmd as [|c cmd]; [done|]. by rewrite !exact_rules_of, rules_of_merge, omap_app.
Qed.

Lemma incl_match_decision (ms ns : list RuleMatch) (d : Decision) :
  ms ⊆ ns -> d ∈ match_decision <$> ms -> d ∈ match_decision <$> ns.
Proof.
  intros Hs (m & -> & Hm)%list_elem_of_fmap. by apply list_elem_of_fmap_2, Hs.
Qed.

(** A check in which a rule matches is the check of the exact matches. *)
Lemma check_is_match (p : Policy) (cmd : list str) (fb : list str -> Decision) (e : Evaluation) :
  check home cwd p cmd fb = Ok e -> is_match e = true ->
  matched_rules e = exact p cmd /\ exact p cmd <> [] /\
  decision e ∈ match_decision <$> matched_rules e.
Proof.
  unfold check. rewrite matches_default. intros (Hm & Hd & _)%from_matches_Ok Hi.
  unfold is_match in Hi. rewrite Hm in *. by destruct (exact p cmd).
Qed.

Lemma check_of_exact (p : Policy) (cmd : list str) (fb : list str -> Decision) (e : Evaluation) :
  check home cwd p cmd fb = Ok e -> exact p cmd <> [] ->
  matched_rules e = exact p cmd /\
  Forall (fun d => decision_le d (decision e)) (match_decision <$> matched_rules e).
Proof.
  unfold check. rewrite matches_default. intros (Hm & _ & Hall)%from_matches_Ok Hne.
  rewrite Hm in *. by destruct (exact p cmd).
Qed.

(** An overlay can tighten a decision but not loosen it: a command that a rule
    of either policy matches keeps that match in the merged policy and gets from it a
    decision at least as strict. *)
Theorem merge_overlay_stricter (p q : Policy) (cmd : list str) (fb : list str -> Decision)
    (e em : Evaluation) :
  check home cwd p cmd fb = Ok e \/ check home cwd q cmd fb = Ok e -> is_match e = true ->
  check home cwd (merge_overlay p q) cmd fb = Ok em ->
  decision_le (decision e) (decision em) /\ matched_rules e ⊆ matched_rules em.
Proof.
  intros Hor Hm Hem.
  assert (matched_rules e ⊆ exact p cmd ++ exact q cmd /\
          exact p cmd ++ exact q cmd <> [] /\
          decision e ∈ match_decision <$> matched_rules e) as (Hsub & Hne & Hd).
  { destruct Hor as [He|He]; destruct (check_is_match _ _ _ _ He Hm) as (-> & Hne & Hd);
      (split_and!; [set_solver| |done]); intros [? ?]%app_eq_nil; done. }
  rewrite <- exact_merge in *. destruct (check_of_exact _ _ _ _ Hem Hne) as [Hr Hall].
  rewrite Hr in *. split; [|done]. rewrite Forall_forall in Hall. apply Hall.
  by eapply incl_match_decision.
Qed.

(** ** Host executables *)

(** A rule for a basename applies to a program given by its path only when that
    path is one of those registered for the basename, if any are; the match records
    the path, and the rule is one that matches the command with the basename. *)
Theorem host_executable_gate (p : Policy) (cmd : list str) (m : RuleMatch) :
  m ∈ match_host_executable_rules home cwd p cmd ->
  exists arg0 args prog base r, cmd = arg0 :: args /\
    from_absolute_path home cwd arg0 = Ok prog /\ file_name prog = Some base /\
    (forall paths, host_executables_by_name p !! base = Some paths -> prog ∈ paths) /\
    r ∈ rules_of p base /\
    exists m', rule_applies r (base :: args) m' /\ m = with_resolved_program prog m'.
Proof.
  unfold match_host_executable_rules, executable_path_lookup_key, executable_lookup_key, get_vec.
  destruct cmd as [|arg0 args]; [by intros ?%not_elem_of_nil|].
  destruct (from_absolute_path home cwd arg0) as [prog|e|c] eqn:Ea;
    try by intros ?%not_elem_of_nil.
  destruct (file_name prog) as [base|] eqn:Ef; simpl; [|by intros ?%not_elem_of_nil].
  destruct (rules_by_program p !! base) as [rs|] eqn:Er; [|by intros ?%not_elem_of_nil].
  destruct (match host_executables_by_name p !! base with Some _ => _ | None => _ end) eqn:Eh;
    [by intros ?%not_elem_of_nil|].
  intros (m' & -> & Hm')%list_elem_of_fmap.
  apply list_elem_of_omap in Hm' as (r & Hr & Hm'%rule_applies_matches).
  exists arg0, args, prog, base, r. split_and!; [done|done|done| | |eauto].
  - intros paths Hp. rewrite Hp in Eh. apply negb_false_iff, existsb_exists in Eh.
    destruct Eh as (x & Hx & ->%str_eqb_eq). by apply list_elem_of_In.
  - unfold rules_of. by rewrite Er.
Qed.

End Check.

(** The fallback to the basename is not limited to absolute programs: a program
    given by a relative path is resolved against the current directory, so that
    [tools/git] gets the decision for [git]. *)
Theorem relative_program_falls_back :
  let p := default empty (match add_prefix_rule [lit "git"] Allow empty with
                          | Ok q => Some q | _ => None end) in
  matches_for_command_with_options None (Some (lit "/repo")) p [lit "tools/git"; lit "push"]
    None {| resolve_host_executables := true |}
  = [PrefixRuleMatch [lit "git"] Allow (Some (lit "/repo/tools/git")) None].
Proof. vm_compute. reflexivity. Qed.

(** ** Examples *)

Definition add_or_same (prefix : list str) (d : Decision) (p : Policy) : Policy :=
  match add_prefix_rule prefix d p with Ok q => q | _ => p end.

Definition git_policy : Policy :=
  set_host_executable_paths (lit "git") [lit "/usr/bin/git"]
    (add_or_same [lit "git"; lit "push"] Forbidden (add_or_same [lit "git"] Allow empty)).

Definition git_push : list str := [lit "git"; lit "push"; lit "-f"].

Lemma git_policy_reachable : reachable git_policy.
Proof.
  apply reach_host.
  apply (reach_prefix (add_or_same [lit "git"] Allow empty) _ [lit "git"; lit "push"] Forbidden);
    [|reflexivity].
  apply (reach_prefix empty _ [lit "git"] Allow); [apply (reach_parts [] [] ∅)|reflexivity].
Defined.

(** With alternatives at the second place. *)
Definition remote_policy : Policy :=
  merge_overlay git_policy
    (from_parts (insert_rules
       [{| pattern := {| first := lit "git"; rest := [Alts [lit "push"; lit "fetch"]] |};
           rule_decision := Prompt; rule_justification := None |}] ∅) [] ∅).

Lemma remote_policy_reachable : reachable remote_policy.
Proof. apply reach_merge; [exact git_policy_reachable|apply reach_parts]. Defined.

Lemma exact_rules_complete_witness :
  let m := PrefixRuleMatch [lit "git"; lit "push"] Prompt None None in
  reachable remote_policy /\ exact remote_policy git_push !! 2 = Some m /\
  exists r, r ∈ all_rules remote_policy /\ rule_applies r git_push m.
Proof.
  intros m. split; [exact remote_policy_reachable|].
  assert (exact remote_policy git_push !! 2 = Some m) as Hm by (vm_compute; reflexivity).
  split; [exact Hm|].
  apply (exact_rules_complete remote_policy git_push m remote_policy_reachable).
  by eapply list_elem_of_lookup_2.
Defined.

Lemma merge_overlay_stricter_witness :
  exists e em, check None None git_policy git_push (fun _ => Allow) = Ok e /\
    check None None (merge_overlay (add_or_same [lit "git"] Prompt empty) git_policy) git_push
      (fun _ => Allow) = Ok em /\
    decision_le (decision e) (decision em) /\ matched_rules e ⊆ matched_rules em.
Proof.
  eexists. eexists. split; [vm_compute; reflexivity|]. split; [vm_compute; reflexivity|].
  apply (merge_overlay_stricter None None (add_or_same [lit "git"] Prompt empty) git_policy git_push
           (fun _ => Allow)); [right|..]; vm_compute; reflexivity.
Defined.

Lemma host_executable_gate_witness :
  exists arg0 args prog base r, [lit "/usr/bin/git"; lit "log"] = arg0 :: args /\
    from_absolute_path None None arg0 = Ok prog /\ file_name prog = Some base /\
    (forall paths, host_executables_by_name git_policy !! base = Some paths -> prog ∈ paths) /\
    r ∈ rules_of git_policy base /\
    exists m', rule_applies r (base :: args) m' /\
      PrefixRuleMatch [lit "git"] Allow (Some (lit "/usr/bin/git")) None
      = with_resolved_program prog m'.
Proof.
  apply (host_executable_gate None None git_policy [lit "/usr/bin/git"; lit "log"]).
  assert (match_host_executable_rules None None git_policy [lit "/usr/bin/git"; lit "log"]
    = [PrefixRuleMatch [lit "git"] Allow (Some (lit "/usr/bin/git")) None]) as ->
    by (vm_compute; reflexivity).
  by left.
Defined.

End ExecPolicyFacts.
