(* ===== verification/ExecNetworkFacts.v ===== *)
(** * Facts about network rules and the list of allowed prefixes *)

From Stdlib Require Import Ascii String.
From stdpp Require Import sorting.
From S2P Require Import Prelude RustStr AbsPath ExecRule ExecPolicyFacts.
Import AbsPath ExecRule ExecPolicy ExecPolicyFacts.

Module ExecNetworkFacts.

(** ** The compiled domains *)

(** The decision of the last rule for a host that is not a prompt. *)
Definition last_decision (h : str) (rules : list NetworkRule) : option Decision :=
  last (omap (fun r => if bool_decide (host r = h /\ net_decision r <> Prompt)
                       then Some (net_decision r) else None) rules).

Lemma last_decision_snoc (h : str) (rules : list NetworkRule) (r : NetworkRule) :
  last_decision h (rules ++ [r]) =
  if bool_decide (host r = h /\ net_decision r <> Prompt) then Some (net_decision r)
  else last_decision h rules.
Proof.
  unfold last_decision. rewrite omap_app. simpl.
  case_bool_decide; simpl; [by rewrite last_snoc|by rewrite app_nil_r].
Qed.

Lemma elem_of_retain (h x : str) (l : list str) : x ∈ retain_ne h l <-> x <> h /\ x ∈ l.
Proof. unfold retain_ne. by rewrite list_elem_of_filter. Qed.

Lemma elem_of_upsert (h x : str) (l : list str) : x ∈ upsert_domain l h <-> x = h \/ x ∈ l.
Proof.
  unfold upsert_domain. rewrite elem_of_app, elem_of_retain, list_elem_of_singleton.
  destruct (decide (x = h)); naive_solver.
Qed.

Lemma NoDup_retain (h : str) (l : list str) : NoDup l -> NoDup (retain_ne h l).
Proof. apply NoDup_filter. Qed.

Lemma NoDup_upsert (h : str) (l : list str) : NoDup l -> NoDup (upsert_domain l h).
Proof.
  intros Hl. unfold upsert_domain. apply NoDup_app. split_and!.
  - by apply NoDup_retain.
  - intros x [Hx _]%elem_of_retain. by rewrite list_elem_of_singleton.
  - apply NoDup_singleton.
Qed.

(** The network rules compile to two lists without repetitions, in which a host
    is allowed exactly when the last rule for it that is not a prompt allows it, and
    denied exactly when that rule forbids it; so no host is in both. *)
Theorem compiled_domains_last_rule (p : Policy) :
  let '(allowed, denied) := compiled_network_domains p in
  NoDup allowed /\ NoDup denied /\
  forall h, (h ∈ allowed <-> last_decision h (network_rules p) = Some Allow) /\
            (h ∈ denied <-> last_decision h (network_rules p) = Some Forbidden).
Proof.
  unfold compiled_network_domains.
  induction (network_rules p) as [|r rules IH] using rev_ind.
  - simpl. split_and!; [constructor|constructor|]. intros h. by rewrite !elem_of_nil.
  - rewrite fold_left_app. simpl.
    destruct (fold_left add_domain rules ([], [])) as [al de]. simpl in *.
    destruct IH as (Ha & Hd & IH).
    destruct (net_decision r) eqn:E;
      (split_and!; [auto using NoDup_upsert, NoDup_retain..|]); intros h;
      rewrite last_decision_snoc, E, ?elem_of_upsert, ?elem_of_retain; destruct (IH h) as [-> ->];
      case_bool_decide; naive_solver.
Qed.

(** ** Host names *)

Lemma existsb_white_false (s : str) :
  existsb is_whitespace s = false <-> Forall (fun c => is_whitespace c = false) s.
Proof.
  induction s as [|c s IH]; simpl; [split; [constructor|done]|].
  rewrite orb_false_iff, IH, Forall_cons. done.
Qed.

(** The characters a stored host is made of. *)
Definition host_char (c : char) : Prop :=
  is_whitespace c = false /\ lower c /\
  c ∉ [ch "*"; ch "/"; ch "?"; ch "#"].

Lemma strip_port_subset (raw s h : str) : strip_port raw s = Ok h -> h ⊆ s.
Proof.
  unfold strip_port. intros H. destruct (strip_prefix [ch "["] s) as [r|] eqn:E.
  - apply strip_prefix_Some in E as ->.
    destruct (split_once (ch "]") r) as [[i t]|] eqn:Es; [|done].
    apply split_once_Some in Es as ->. case_match; simplify_eq. set_solver.
  - case_match; [|by simplify_eq].
    destruct (rsplit_once (ch ":") s) as [[a b]|] eqn:Es; [|by simplify_eq].
    apply rsplit_once_Some in Es as ->. case_match; simplify_eq; set_solver.
Qed.

Lemma trim_subset (s : str) : trim s ⊆ s.
Proof. destruct (trim_pad_inv s) as (a & b & E & _). rewrite E at 2. set_solver. Qed.

Lemma fold_host_elem (s : str) (c : char) : c ∈ fold_host s -> exists x, x ∈ s /\ c = ascii_lower x.
Proof.
  unfold fold_host, to_ascii_lowercase. intros (x & -> & Hx)%list_elem_of_fmap.
  apply trim_subset in Hx. exists x. split; [|done].
  destruct (drop_while_end_prefix (N.eqb (ch ".")) s) as (post & E & _).
  rewrite E. set_solver.
Qed.

(** A character that is not a letter is not the lower case of another one. *)
Lemma ascii_lower_inv (x c : char) : (c < 97)%N -> ascii_lower x = c -> x = c.
Proof.
  intros Hc. unfold ascii_lower. destruct (_ && _)%N eqn:E; [|done].
  apply andb_true_iff in E as [E1%N.leb_le _]. lia.
Qed.

Lemma normalize_Ok (raw h : str) :
  normalize_network_rule_host raw = Ok h -> h <> [] /\ Forall host_char h.
Proof.
  unfold normalize_network_rule_host. intros H.
  destruct (str_eqb (trim raw) []); [done|]. destruct (_ || _) eqn:E0; [done|].
  rewrite !orb_false_iff in E0. destruct E0 as [[[_ Ea] Eb] Ec].
  apply contains_char_false in Ea, Eb, Ec. apply bind_Ok in H as (h0 & Hp & H).
  apply strip_port_subset in Hp.
  destruct (str_eqb (fold_host h0) []) eqn:E1; [done|].
  destruct (contains_char (ch "*") (fold_host h0)) eqn:E2; [done|].
  destruct (existsb is_whitespace (fold_host h0)) eqn:E3; [done|]. simplify_eq.
  apply str_eqb_neq in E1. apply contains_char_false in E2.
  apply existsb_white_false in E3. split; [done|].
  rewrite Forall_forall in E3 |- *. intros c Hc.
  destruct (fold_host_elem _ _ Hc) as (x & Hx%Hp & Hcx).
  assert (forall d, (d < 97)%N -> d ∉ trim raw -> c <> d) as Hne.
  { intros d Hd Hn ->. symmetry in Hcx. apply ascii_lower_inv in Hcx; [|done]. by subst. }
  split_and!; [by apply E3|rewrite Hcx; apply ascii_lower_idemp|].
  rewrite !not_elem_of_cons. split_and!; [by intros ->| | | |apply not_elem_of_nil];
    by apply Hne.
Qed.

Lemma find_Some (n s : str) (i : nat) : find n s = Some i -> exists a b, s = a ++ n ++ b.
Proof.
  revert i. induction s as [|c s IH]; intros i; simpl.
  - destruct (starts_with n []) eqn:E; [|done]. intros _. apply starts_with_true in E as [r E].
    by exists [], r.
  - destruct (starts_with n (c :: s)) eqn:E.
    + intros _. apply starts_with_true in E as [r E]. by exists [], r.
    + intros Hf. apply fmap_Some in Hf as (j & Hj & _). destruct (IH j Hj) as (a & b & ->).
      by exists (c :: a), b.
Qed.

Lemma contains_elem (n s : str) (c : char) : contains n s = true -> c ∈ n -> c ∈ s.
Proof.
  unfold contains. destruct (find n s) eqn:E; [|done]. intros _ Hc.
  apply find_Some in E as (a & b & ->). set_solver.
Qed.

Lemma no_white_trimmed (s : str) : Forall host_char s -> trimmed s.
Proof.
  intros Hs. rewrite Forall_forall in Hs.
  split; intros c Hc; [apply head_Some_elem_of in Hc|apply last_Some_elem_of in Hc];
    by apply Hs in Hc as [? _].
Qed.

Lemma host_lower (s : str) : Forall host_char s -> to_ascii_lowercase s = s.
Proof. induction 1 as [|c s (_ & Hc & _) _ IH]; [done|]. simpl. by rewrite IH, Hc. Qed.

(** A host with neither port, bracket nor final dot is left as it is. *)
Lemma normalize_fixpoint (h : str) :
  h <> [] -> Forall host_char h -> ch ":" ∉ h -> head h <> Some (ch "[") ->
  last h <> Some (ch ".") -> normalize_network_rule_host h = Ok h.
Proof.
  intros Hne Hh Hcolon Hbr Hdot. unfold normalize_network_rule_host.
  rewrite trim_trimmed by by apply no_white_trimmed.
  assert (forall c, c ∈ [ch "*"; ch "/"; ch "?"; ch "#"] -> contains_char c h = false) as Hc.
  { intros c Hc. apply contains_char_false. intros Hin. rewrite Forall_forall in Hh.
    by destruct (Hh c Hin) as (_ & _ & Hn). }
  rewrite (proj2 (str_eqb_neq h [])) by done.
  rewrite !Hc by (apply (bool_decide_unpack _); vm_compute; exact I).
  destruct (contains (lit "://") h) eqn:Ec.
  { apply (contains_elem _ _ (ch "/")) in Ec; [|apply (bool_decide_unpack _); vm_compute; exact I].
    assert (contains_char (ch "/") h = false) as Hs
      by (apply Hc; apply (bool_decide_unpack _); vm_compute; exact I).
    by apply contains_char_false in Hs. }
  cbn [orb]. unfold strip_port.
  assert (strip_prefix [ch "["] h = None) as ->.
  { apply strip_prefix_None. intros r ->. by apply Hbr. }
  rewrite count_char_absent by done. cbn [Nat.eqb mbind result_bind].
  assert (fold_host h = h) as ->.
  { unfold fold_host. destruct h as [|x h _] using rev_ind; [done|].
    rewrite last_snoc in Hdot. rewrite drop_while_end_id.
    - rewrite trim_trimmed by by apply no_white_trimmed. by apply host_lower.
    - apply N.eqb_neq. congruence. }
  rewrite (proj2 (str_eqb_neq h [])) by done.
  rewrite Hc by (apply (bool_decide_unpack _); vm_compute; exact I).
  rewrite (proj2 (existsb_white_false h)); [done|].
  eapply Forall_impl; [done|]. by intros c [? _].
Qed.

(** A host that is accepted is stored in a form made of lower-case characters
    with no white space, wildcard, slash, question mark or hash; and a stored host
    without a colon, an opening bracket or a final dot is its own normal form, so
    that a rule written to a policy file and read back is for the same host. *)
Theorem normalized_host (raw h : str) :
  normalize_network_rule_host raw = Ok h ->
  h <> [] /\ Forall host_char h /\
  (ch ":" ∉ h -> head h <> Some (ch "[") -> last h <> Some (ch ".") ->
   normalize_network_rule_host h = Ok h).
Proof. intros [Hne Hh]%normalize_Ok. split_and!; [done|done|]. by apply normalize_fixpoint. Qed.

(** ** The list of allowed prefixes *)

(** A comparison function that decides a total order. *)
Class Comparison {A} (cmp : A -> A -> comparison) : Prop := {
  cmp_eq : forall x y, cmp x y = Eq <-> x = y;
  cmp_opp : forall x y, cmp y x = CompOpp (cmp x y);
  cmp_trans : forall x y z, cmp x y = Lt -> cmp y z = Lt -> cmp x z = Lt;
}.

#[export] Instance N_comparison : Comparison N.compare.
Proof.
  split; [apply N.compare_eq_iff|intros; apply N.compare_antisym|].
  intros x y z. rewrite !N.compare_lt_iff. lia.
Qed.

#[export] Instance lex_comparison {A} (cmp : A -> A -> comparison) :
  Comparison cmp -> Comparison (lex_compare cmp).
Proof.
  intros Hc. split.
  - intros l. induction l as [|x l IH]; intros [|y k]; simpl; try done.
    destruct (cmp x y) eqn:E.
    + apply cmp_eq in E as ->. rewrite IH. split; [by intros ->|by intros; simplify_eq].
    + split; [done|]. intros ?; simplify_eq. by rewrite (proj2 (cmp_eq y y) eq_refl) in E.
    + split; [done|]. intros ?; simplify_eq. by rewrite (proj2 (cmp_eq y y) eq_refl) in E.
  - intros l. induction l as [|x l IH]; intros [|y k]; simpl; try done.
    rewrite (cmp_opp (cmp := cmp) x y). destruct (cmp x y); simpl; auto.
  - intros l. induction l as [|x l IH]; intros [|y k] [|z m]; simpl; try done.
    destruct (cmp x y) eqn:E1; try done.
    + apply cmp_eq in E1 as ->. destruct (cmp y z); [apply IH|done|done].
    + intros _. destruct (cmp y z) eqn:E2; [|by rewrite (cmp_trans (cmp := cmp) x y z)|done].
      apply cmp_eq in E2 as <-. by rewrite E1.
Qed.

#[export] Instance prefix_comparison : Comparison prefix_compare.
Proof. unfold prefix_compare. apply _. Qed.

Lemma prefix_le_compare (a b : list str) : prefix_le a b <-> prefix_compare a b <> Gt.
Proof. unfold prefix_le, prefix_leb. by destruct (prefix_compare a b). Qed.

#[export] Instance prefix_le_total : Total prefix_le.
Proof.
  intros a b. rewrite !prefix_le_compare, (cmp_opp (cmp := prefix_compare) a b).
  destruct (prefix_compare a b); simpl; [by left|by left|by right].
Qed.

#[export] Instance prefix_le_trans : Transitive prefix_le.
Proof.
  intros a b c. rewrite !prefix_le_compare.
  destruct (prefix_compare a b) eqn:E1; [|..|done].
  - apply cmp_eq in E1 as ->. done.
  - destruct (prefix_compare b c) eqn:E2; [|..|done].
    + apply cmp_eq in E2 as <-. by rewrite E1.
    + by rewrite (cmp_trans (cmp := prefix_compare) _ _ _ E1 E2).
Qed.

#[export] Instance prefix_le_antisymm : AntiSymm (=) prefix_le.
Proof.
  intros a b. rewrite !prefix_le_compare, (cmp_opp (cmp := prefix_compare) a b).
  destruct (prefix_compare a b) eqn:E; simpl; try done. by apply cmp_eq in E.
Qed.

Lemma elem_of_dedup {A} `{EqDecision A} (l : list A) (x : A) : x ∈ dedup l <-> x ∈ l.
Proof.
  induction l as [|y l IH]; simpl; [done|]. rewrite elem_of_cons, <- IH.
  destruct (dedup l) as [|z k]; [by rewrite elem_of_cons|].
  case_decide; subst; rewrite !elem_of_cons; naive_solver.
Qed.

(** On a sorted list [dedup] leaves each element once. *)
Lemma dedup_sorted {A} `{EqDecision A} (R : relation A) `{!AntiSymm (=) R} (l : list A) :
  StronglySorted R l -> NoDup (dedup l) /\ StronglySorted R (dedup l).
Proof.
  induction 1 as [|x l Hl [IHn IHs] Hx]; simpl; [split; constructor|].
  assert (Forall (R x) (dedup l)) as Hx'.
  { rewrite Forall_forall in Hx |- *. intros y Hy%(proj1 (elem_of_dedup _ _)).
    by apply Hx. }
  destruct (dedup l) as [|y k] eqn:E.
  - split; [apply NoDup_singleton|by repeat constructor].
  - case_decide as Hxy; [done|]. split; [|by constructor]. constructor; [|done].
    intros [->|Hin]%elem_of_cons; [done|]. apply Hxy. apply (anti_symm R).
    + by apply Forall_cons in Hx' as [? _].
    + apply StronglySorted_inv in IHs as [_ Hy]. rewrite Forall_forall in Hy. by apply Hy.
Qed.

Lemma elem_of_allowed (p : Policy) (x : list str) :
  x ∈ allowed_prefixes (map_to_list (rules_by_program p)) <->
  exists r, r ∈ all_rules p /\ rule_decision r = Allow /\ x = rule_prefix r.
Proof.
  unfold allowed_prefixes, all_rules. rewrite list_elem_of_bind. split.
  - intros ([k rs] & (r & Hr & Hx)%list_elem_of_omap & Hin). exists r.
    case_bool_decide; simplify_eq. split_and!; [|done|done].
    apply list_elem_of_bind. by exists (k, rs).
  - intros (r & ([k rs] & Hr & Hin)%list_elem_of_bind & Hd & ->). exists (k, rs).
    split; [|done]. apply list_elem_of_omap. exists r. split; [done|].
    by rewrite bool_decide_true.
Qed.

(** The list of allowed prefixes is sorted and without repetitions, holds the
    prefixes of the rules that allow and no others, and does not depend on the order
    in which the hash map is walked. *)
Theorem allowed_prefixes_canonical (p : Policy) :
  StronglySorted prefix_le (get_allowed_prefixes p) /\ NoDup (get_allowed_prefixes p) /\
  (forall x, x ∈ get_allowed_prefixes p <->
     exists r, r ∈ all_rules p /\ rule_decision r = Allow /\ x = rule_prefix r) /\
  (forall entries, entries ≡ₚ map_to_list (rules_by_program p) ->
     dedup (merge_sort prefix_le (allowed_prefixes entries)) = get_allowed_prefixes p).
Proof.
  unfold get_allowed_prefixes. set (l := allowed_prefixes (map_to_list (rules_by_program p))).
  destruct (dedup_sorted prefix_le (merge_sort prefix_le l)) as [Hn Hs];
    [apply (StronglySorted_merge_sort _)|].
  split_and!; [done|done| |].
  - intros x. rewrite elem_of_dedup, merge_sort_Permutation. apply elem_of_allowed.
  - intros es Hes. f_equal. apply (StronglySorted_unique prefix_le);
      [apply (StronglySorted_merge_sort _)..|].
    rewrite !merge_sort_Permutation. unfold l, allowed_prefixes. by rewrite Hes.
Qed.

Lemma normalized_host_witness :
  exists h, normalize_network_rule_host (lit " API.Example.com.:443 ") = Ok h /\
    h <> [] /\ Forall host_char h /\
    (ch ":" ∉ h -> head h <> Some (ch "[") -> last h <> Some (ch ".") ->
     normalize_network_rule_host h = Ok h).
Proof.
  exists (lit "api.example.com"). split; [vm_compute; reflexivity|].
  apply (normalized_host (lit " API.Example.com.:443 ")). vm_compute. reflexivity.
Defined.

End ExecNetworkFacts.
