(* ===== verification/ExecParser.v ===== *)
(** * Reading policies: src/execpolicy/src/parser.rs

    A policy file is a Starlark program that calls three builtin functions. The
    interpreter is the crate [starlark]: what it gives this code is the sequence of
    the calls the program makes, with their arguments, and whether it then ends or
    fails; the builtins return nothing, so the calls do not depend on the policy. *)

From Stdlib Require Import Ascii String.
From S2P Require Import Prelude RustStr Utf8 AbsPath FileSystem ExecRule.
Import Utf8 AbsPath ExecRule ExecPolicy.

Module ExecParser.

(** ** Values and calls *)

(** A Starlark value: a string, a list, or something else with its type's name. *)
Inductive Value :=
| VStr (s : str)
| VList (items : list Value)
| VOther (type_name : str).

Definition get_type (v : Value) : str :=
  match v with
  | VStr _ => lit "string"
  | VList _ => lit "list"
  | VOther type_name => type_name
  end.

Definition unpack_str (v : Value) : option str :=
  match v with VStr s => Some s | _ => None end.

Inductive Call :=
| CallPrefixRule (pattern : list Value) (decision : option str)
    (matches not_matches : option (list Value)) (justification : option str)
    (location : option ErrorLocation)
| CallNetworkRule (host protocol decision : str) (justification : option str)
| CallHostExecutable (name : str) (paths : list Value).

(** ** The builder *)

Record PendingExampleValidation := {
  pending_rules : list PrefixRule;
  pending_matches : list (list str);
  pending_not_matches : list (list str);
  pending_location : option ErrorLocation;
}.

Record PolicyBuilder := {
  b_rules : multimap PrefixRule;
  b_network_rules : list NetworkRule;
  b_host_executables : gmap (list N) (list str);
  b_pending : list PendingExampleValidation;
}.

Definition new_builder : PolicyBuilder :=
  {| b_rules := ∅; b_network_rules := []; b_host_executables := ∅; b_pending := [] |}.

Definition add_rule (rule : PrefixRule) (b : PolicyBuilder) : PolicyBuilder :=
  {| b_rules := mm_insert (program rule) rule (b_rules b);
     b_network_rules := b_network_rules b;
     b_host_executables := b_host_executables b; b_pending := b_pending b |}.

Definition builder_add_network_rule (rule : NetworkRule) (b : PolicyBuilder) : PolicyBuilder :=
  {| b_rules := b_rules b; b_network_rules := b_network_rules b ++ [rule];
     b_host_executables := b_host_executables b; b_pending := b_pending b |}.

Definition add_host_executable (name : str) (paths : list str) (b : PolicyBuilder)
    : PolicyBuilder :=
  {| b_rules := b_rules b; b_network_rules := b_network_rules b;
     b_host_executables := <[name := paths]> (b_host_executables b);
     b_pending := b_pending b |}.

Definition add_pending_example_validation (v : PendingExampleValidation) (b : PolicyBuilder)
    : PolicyBuilder :=
  {| b_rules := b_rules b; b_network_rules := b_network_rules b;
     b_host_executables := b_host_executables b; b_pending := b_pending b ++ [v] |}.

Definition build (b : PolicyBuilder) : Policy :=
  from_parts (b_rules b) (b_network_rules b) (b_host_executables b).

(** ** Patterns and examples *)

Definition parse_pattern_token (value : Value) : result Error PatternToken :=
  match value with
  | VStr s => Ok (Single s)
  | VList items =>
      tokens ← collect (fun v => ok_or
        (InvalidPattern (lit "pattern alternative must be a string (got " ++ get_type v
                         ++ lit ")")) (unpack_str v)) items;
      match tokens with
      | [] => Err (InvalidPattern (lit "pattern alternatives cannot be empty"))
      | [single] => Ok (Single single)
      | _ => Ok (Alts tokens)
      end
  | VOther type_name =>
      Err (InvalidPattern (lit "pattern element must be a string or list of strings (got "
                           ++ type_name ++ lit ")"))
  end.

Definition parse_pattern (pattern : list Value) : result Error (list PatternToken) :=
  tokens ← collect parse_pattern_token pattern;
  if bool_decide (length tokens = 0)
  then Err (InvalidPattern (lit "pattern cannot be empty"))
  else Ok tokens.

Definition parse_list_example (items : list Value) : result Error (list str) :=
  tokens ← collect (fun v => ok_or
    (InvalidExample (lit "example tokens must be strings (got " ++ get_type v ++ lit ")"))
    (unpack_str v)) items;
  if bool_decide (length tokens = 0)
  then Err (InvalidExample (lit "example cannot be an empty list"))
  else Ok tokens.

Definition parse_network_rule_decision (raw : str) : result Error Decision :=
  if str_eqb raw (lit "deny") then Ok Forbidden else parse_decision raw.

Definition attach_validation_location (e : Error) (location : option ErrorLocation) : Error :=
  match location with Some location => with_location e location | None => e end.

Definition validate_host_executable_name (name : str) : result Error unit :=
  if str_eqb name [] then Err (InvalidRule (lit "host_executable name cannot be empty"))
  else if negb (length (components name) =? 1)
          || negb (match file_name name with Some n => str_eqb n name | None => false end)
  then Err (InvalidRule (lit "host_executable name must be a bare executable name (got "
                         ++ name ++ lit ")"))
  else Ok tt.

(** [justification], refused when it is blank. *)
Definition parse_justification (justification : option str) : result Error (option str) :=
  match justification with
  | Some raw => if str_eqb (trim raw) [] then Err (InvalidRule (lit "justification cannot be empty"))
                else Ok (Some raw)
  | None => Ok None
  end.

Section Parser.
Context (home_dir current_dir : option str).

(** The crate [shlex], and [Debug] of rules and matches, which only make messages. *)
Context (shlex_split : str -> option (list str)) (shlex_try_join : list str -> option str).
Context (show_rule : PrefixRule -> str) (show_match : RuleMatch -> str).

Definition parse_string_example (raw : str) : result Error (list str) :=
  tokens ← ok_or (InvalidExample (lit "example string has invalid shell syntax"))
             (shlex_split raw);
  if bool_decide (length tokens = 0)
  then Err (InvalidExample (lit "example cannot be an empty string"))
  else Ok tokens.

Definition parse_example (value : Value) : result Error (list str) :=
  match value with
  | VStr raw => parse_string_example raw
  | VList items => parse_list_example items
  | VOther type_name =>
      Err (InvalidExample (lit "example must be a string or list of strings (got "
                           ++ type_name ++ lit ")"))
  end.

Definition parse_examples (examples : list Value) : result Error (list (list str)) :=
  collect parse_example examples.

(** [match.map(parse_examples).transpose()?.unwrap_or_default()] *)
Definition parse_optional_examples (examples : option (list Value))
    : result Error (list (list str)) :=
  match examples with Some e => parse_examples e | None => Ok [] end.

Definition parse_literal_absolute_path (raw : str) : result Error str :=
  if negb (is_absolute raw)
  then Err (InvalidRule (lit "host_executable paths must be absolute (got " ++ raw ++ lit ")"))
  else map_err (fun error => InvalidRule (lit "invalid absolute path `" ++ raw ++ lit "`: "
                                          ++ error))
         (from_absolute_path home_dir current_dir raw).

(** ** Validating the examples *)

Definition render_example (example : list str) : str :=
  match shlex_try_join example with
  | Some s => s
  | None => lit "unable to render example"
  end.

Definition matches_of_example (policy : Policy) (example : list str) : list RuleMatch :=
  matches_for_command_with_options home_dir current_dir policy example None
    {| resolve_host_executables := true |}.

Definition validate_match_examples (policy : Policy) (rules : list PrefixRule)
    (matches : list (list str)) : result Error unit :=
  let unmatched_examples :=
    omap (fun example => match matches_of_example policy example with
                         | [] => Some (render_example example)
                         | _ => None
                         end) matches in
  match unmatched_examples with
  | [] => Ok tt
  | _ => Err (ExampleDidNotMatch (map show_rule rules) unmatched_examples None)
  end.

Fixpoint validate_not_match_examples (policy : Policy) (not_matches : list (list str))
    : result Error unit :=
  match not_matches with
  | [] => Ok tt
  | example :: not_matches =>
      match matches_of_example policy example with
      | rule :: _ => Err (ExampleDidMatch (show_match rule) (render_example example) None)
      | [] => validate_not_match_examples policy not_matches
      end
  end.

(** The policy an example is checked against: the rules of its own call. *)
Definition validation_policy (b : PolicyBuilder) (v : PendingExampleValidation) : Policy :=
  from_parts (fold_left (fun m rule => mm_insert (program rule) rule m) (pending_rules v) ∅)
    [] (b_host_executables b).

Definition validate_pending (b : PolicyBuilder) (v : PendingExampleValidation)
    : result Error unit :=
  let policy := validation_policy b v in
  let attach e := attach_validation_location e (pending_location v) in
  _ ← map_err attach (validate_not_match_examples policy (pending_not_matches v));
  map_err attach (validate_match_examples policy (pending_rules v) (pending_matches v)).

Fixpoint validate_all (b : PolicyBuilder) (vs : list PendingExampleValidation)
    : result Error unit :=
  match vs with
  | [] => Ok tt
  | v :: vs => _ ← validate_pending b v; validate_all b vs
  end.

Definition validate_pending_examples_from (b : PolicyBuilder) (start : nat)
    : result Error unit :=
  vs ← or_panic (slice_from start (b_pending b));
  validate_all b vs.

(** ** The builtins *)

Definition prefix_rules (first_token : PatternToken) (rest : list PatternToken)
    (decision : Decision) (justification : option str) : list PrefixRule :=
  map (fun head => {| pattern := {| first := head; rest := rest |};
                      rule_decision := decision; rule_justification := justification |})
    (alternatives first_token).

Definition prefix_rule (pattern : list Value) (decision : option str)
    (matches not_matches : option (list Value)) (justification : option str)
    (location : option ErrorLocation) (builder : PolicyBuilder) : result Error PolicyBuilder :=
  decision ← match decision with Some raw => parse_decision raw | None => Ok Allow end;
  justification ← parse_justification justification;
  pattern_tokens ← parse_pattern pattern;
  matches ← parse_optional_examples matches;
  not_matches ← parse_optional_examples not_matches;
  match pattern_tokens with
  | [] => Err (InvalidPattern (lit "pattern cannot be empty"))
  | first_token :: remaining_tokens =>
      let rules := prefix_rules first_token remaining_tokens decision justification in
      let builder := add_pending_example_validation
        {| pending_rules := rules; pending_matches := matches;
           pending_not_matches := not_matches; pending_location := location |} builder in
      Ok (fold_left (fun b rule => add_rule rule b) rules builder)
  end.

Definition network_rule (raw_host protocol decision : str) (justification : option str)
    (builder : PolicyBuilder) : result Error PolicyBuilder :=
  protocol ← parse_protocol protocol;
  decision ← parse_network_rule_decision decision;
  justification ← parse_justification justification;
  host ← normalize_network_rule_host raw_host;
  Ok (builder_add_network_rule {| host := host; protocol := protocol; net_decision := decision;
                                  net_justification := justification |} builder).

(** One turn of the loop over [paths.items]. *)
Definition host_path (name : str) (value : Value) (parsed_paths : list str)
    : result Error (list str) :=
  raw ← ok_or (InvalidRule (lit "host_executable paths must be strings (got "
                            ++ get_type value ++ lit ")")) (unpack_str value);
  path ← parse_literal_absolute_path raw;
  let wrong_name := InvalidRule (lit "host_executable path `" ++ raw
                      ++ lit "` must have basename `" ++ name ++ lit "`") in
  path_name ← ok_or wrong_name (executable_path_lookup_key path);
  if negb (str_eqb path_name (executable_lookup_key name)) then Err wrong_name
  else if existsb (fun existing => str_eqb existing path) parsed_paths then Ok parsed_paths
  else Ok (parsed_paths ++ [path]).

Fixpoint host_paths (name : str) (values : list Value) (parsed_paths : list str)
    : result Error (list str) :=
  match values with
  | [] => Ok parsed_paths
  | value :: values =>
      parsed_paths ← host_path name value parsed_paths;
      host_paths name values parsed_paths
  end.

Definition host_executable (name : str) (paths : list Value) (builder : PolicyBuilder)
    : result Error PolicyBuilder :=
  _ ← validate_host_executable_name name;
  parsed_paths ← host_paths name paths [];
  Ok (add_host_executable (executable_lookup_key name) parsed_paths builder).

Definition run_call (call : Call) (b : PolicyBuilder) : result Error PolicyBuilder :=
  match call with
  | CallPrefixRule pattern decision matches not_matches justification location =>
      prefix_rule pattern decision matches not_matches justification location b
  | CallNetworkRule host protocol decision justification =>
      network_rule host protocol decision justification b
  | CallHostExecutable name paths => host_executable name paths b
  end.

(** ** [PolicyParser::parse] *)

(** The interpreter: a syntax error, or the calls the program makes, and the error
    it fails with after them, if it does. *)
Context (starlark : str -> str -> str + (list Call * option str)).

(** The calls in turn; the first one that fails ends the program. *)
Fixpoint run_calls (calls : list Call) (failure : option str)
    : action PolicyBuilder Error unit := fun b =>
  match calls with
  | [] => (b, match failure with None => Ok tt | Some e => Err (Starlark e) end)
  | call :: calls =>
      match run_call call b with
      | Ok b => run_calls calls failure b
      | Err e => (b, Err (StarlarkBuiltin e))
      | Crash c => (b, Crash c)
      end
  end.

Definition parse (policy_identifier policy_file_contents : str)
    : action PolicyBuilder Error unit := fun b =>
  let pending_validation_count := length (b_pending b) in
  match starlark policy_identifier policy_file_contents with
  | inl e => (b, Err (Starlark e))
  | inr (calls, failure) =>
      (_ ← run_calls calls failure;
       query (fun b => validate_pending_examples_from b pending_validation_count)) b
  end.

End Parser.

End ExecParser.
