(* ===== verification/ExecParserFacts.v ===== *)
(** * Facts about reading policy files *)

From Stdlib Require Import Ascii String.
From S2P Require Import Prelude RustStr Utf8 AbsPath FileSystem ExecRule ExecPolicyFacts.
From S2P Require Import ExecParser.
Import AbsPath ExecRule ExecPolicy ExecPolicyFacts ExecParser.

Module ExecParserFacts.

(** ** Adding the rules of a call *)

Lemma exact_indexed_grow (p q : Policy) (cmd : list str) :
  (forall k, exists rs, rules_of q k = rules_of p k ++ rs) -> exact p cmd ⊆ exact q cmd.
Proof.
  intros Hg. destruct cmd as [|c cmd]; [done|]. rewrite !exact_rules_of.
  destruct (Hg c) as [rs ->]. rewrite omap_app. set_solver.
Qed.

Definition add_rules (rules : list PrefixRule) (b : PolicyBuilder) : PolicyBuilder :=
  fold_left (fun b rule => add_rule rule b) rules b.

Lemma add_rules_fields (rules : list PrefixRule) (b : PolicyBuilder) :
  b_network_rules (add_rules rules b) = b_network_rules b /\
  b_host_executables (add_rules rules b) = b_host_executables b /\
  b_pending (add_rules rules b) = b_pending b /\
  forall k, rules_of (build (add_rules rules b)) k =
    rules_of (build b) k ++ filter (fun r => program r = k) rules.
Proof.
  unfold add_rules. revert b. induction rules as [|r rules IH]; intros b; simpl.
  - split_and!; try done. intros k. by rewrite app_nil_r.
  - destruct (IH (add_rule r b)) as (-> & -> & -> & Hk). split_and!; try done.
    intros k. rewrite Hk, filter_cons.
    change (rules_of (build (add_rule r b)) k)
      with (mm_get (mm_insert (program r) r (b_rules b)) k).
    rewrite mm_get_insert. change (mm_get (b_rules b) k) with (rules_of (build b) k).
    repeat case_decide; try done; by rewrite <- app_assoc.
Qed.

(** A builder extends another when it keeps all its rules, in order. *)
Definition extends (b b' : PolicyBuilder) : Prop :=
  (forall k, exists rs, rules_of (build b') k = rules_of (build b) k ++ rs /\
     Forall (fun r => program r = k) rs) /\
  (exists ns, b_network_rules b' = b_network_rules b ++ ns) /\
  (exists vs, b_pending b' = b_pending b ++ vs).

Lemma extends_refl (b : PolicyBuilder) : extends b b.
Proof.
  split_and!; [|by exists []; rewrite app_nil_r..]. intros k. exists [].
  by rewrite app_nil_r.
Qed.

Lemma extends_trans (b1 b2 b3 : PolicyBuilder) :
  extends b1 b2 -> extends b2 b3 -> extends b1 b3.
Proof.
  intros (R1 & (n1 & N1) & (v1 & V1)) (R2 & (n2 & N2) & (v2 & V2)). split_and!.
  - intros k. destruct (R1 k) as (r1 & E1 & F1), (R2 k) as (r2 & E2 & F2).
    exists (r1 ++ r2). by rewrite E2, E1, <- app_assoc, Forall_app.
  - exists (n1 ++ n2). by rewrite N2, N1, <- app_assoc.
  - exists (v1 ++ v2). by rewrite V2, V1, <- app_assoc.
Qed.

Lemma extends_indexed (b b' : PolicyBuilder) :
  extends b b' -> indexed (build b) -> indexed (build b').
Proof.
  intros (R & _ & _). rewrite !indexed_rules_of. intros Hi k r.
  destruct (R k) as (rs & -> & F). rewrite elem_of_app, Forall_forall in *. naive_solver.
Qed.

Lemma extends_exact (b b' : PolicyBuilder) (cmd : list str) :
  extends b b' -> exact (build b) cmd ⊆ exact (build b') cmd.
Proof. intros (R & _ & _). apply exact_indexed_grow. naive_solver. Qed.

Lemma prefix_rules_program (t : PatternToken) (ts : list PatternToken) (d : Decision)
    (j : option str) (r : PrefixRule) :
  r ∈ prefix_rules t ts d j <-> exists h, h ∈ alternatives t /\
    r = {| pattern := {| first := h; rest := ts |}; rule_decision := d; rule_justification := j |}.
Proof. unfold prefix_rules. rewrite list_elem_of_fmap. naive_solver. Qed.

Lemma omap_mono {A B} (f : A -> option B) (l k : list A) : l ⊆ k -> omap f l ⊆ omap f k.
Proof. intros Hs x (y & Hy & E)%list_elem_of_omap. apply list_elem_of_omap. eauto. Qed.

(** The matches of the rules for the alternatives of a first token are those of the
    pattern, token by token. *)
Lemma prefix_rules_match (t : PatternToken) (ts : list PatternToken) (d : Decision)
    (j : option str) (cmd : list str) (m : RuleMatch) :
  (exists r, r ∈ prefix_rules t ts d j /\ rule_applies r cmd m) <->
  exists matched args, cmd = matched ++ args /\
    Forall2 (fun t c => c ∈ alternatives t) (t :: ts) matched /\
    m = PrefixRuleMatch matched d None j.
Proof.
  split.
  - intros (r & (h & Hh & ->)%prefix_rules_program & mt & args & E & Hf & ->).
    exists mt, args. split_and!; [done| |done].
    apply Forall2_cons_inv_l in Hf as (x & ms' & Hx & Hms & ->). constructor; [|done].
    simpl in Hx. by apply list_elem_of_singleton in Hx as ->.
  - intros (mt & args & E & Hf & ->).
    apply Forall2_cons_inv_l in Hf as (x & ms' & Hx & Hms & ->). eexists. split.
    + apply prefix_rules_program. eauto.
    + exists (x :: ms'), args. split_and!; [done| |done].
      constructor; [by apply list_elem_of_singleton|done].
Qed.

Section Parser.
Set Default Proof Using "Type".
Context (home cwd : option str).
Context (shlex_split : str -> option (list str)) (shlex_try_join : list str -> option str).
Context (show_rule : PrefixRule -> str) (show_match : RuleMatch -> str).

(** What a successful [prefix_rule] adds. *)
Lemma prefix_rule_Ok pat dec ms nms just loc (b b' : PolicyBuilder) :
  prefix_rule shlex_split pat dec ms nms just loc b = Ok b' ->
  exists d t ts v, match dec with Some raw => parse_decision raw | None => Ok Allow end = Ok d /\
    parse_pattern pat = Ok (t :: ts) /\ pending_rules v = prefix_rules t ts d just /\
    b' = add_rules (prefix_rules t ts d just) (add_pending_example_validation v b).
Proof.
  unfold prefix_rule. intros H.
  apply bind_Ok in H as (d & Hd & H). apply bind_Ok in H as (j & Hj & H).
  apply bind_Ok in H as (toks & Ht & H). apply bind_Ok in H as (m & _ & H).
  apply bind_Ok in H as (n & _ & H). destruct toks as [|t ts]; [done|].
  assert (j = just) as ->.
  { unfold parse_justification in Hj. destruct just; [case_match|]; by simplify_eq. }
  simplify_eq. exists d, t, ts.
  exists {| pending_rules := prefix_rules t ts d just; pending_matches := m;
            pending_not_matches := n; pending_location := loc |}. by split_and!.
Qed.

(** A [prefix_rule] call adds the matches its pattern stands for and no others:
    a command gets a new match exactly when its first tokens are, one by one, among
    the alternatives of the elements of the pattern, the first element included. *)
Theorem prefix_rule_meaning pat dec ms nms just loc (b b' : PolicyBuilder) :
  prefix_rule shlex_split pat dec ms nms just loc b = Ok b' ->
  exists d tokens,
    match dec with Some raw => parse_decision raw | None => Ok Allow end = Ok d /\
    parse_pattern pat = Ok tokens /\
    forall cmd m, m ∈ exact (build b') cmd <-> m ∈ exact (build b) cmd \/
      exists matched args, cmd = matched ++ args /\
        Forall2 (fun t c => c ∈ alternatives t) tokens matched /\
        m = PrefixRuleMatch matched d None just.
Proof.
  intros (d & t & ts & v & Hd & Ht & _ & ->)%prefix_rule_Ok.
  exists d, (t :: ts). split_and!; [done|done|]. intros cmd m.
  destruct (add_rules_fields (prefix_rules t ts d just) (add_pending_example_validation v b))
    as (_ & _ & _ & Hk).
  destruct cmd as [|c cmd].
  { split; [by left|]. intros [?|(mt & args & E & Hf & _)]; [done|].
    symmetry in E. apply app_eq_nil in E as [-> _]. by apply Forall2_length in Hf. }
  rewrite !exact_rules_of, Hk, omap_app, elem_of_app.
  change (rules_of (build (add_pending_example_validation v b)) c) with (rules_of (build b) c).
  f_equiv. rewrite <- prefix_rules_match, list_elem_of_omap. split.
  - intros (r & [_ Hr]%list_elem_of_filter & Hm%rule_applies_matches). eauto.
  - intros (r & Hr & Hm). exists r. split; [|by apply rule_applies_matches].
    apply list_elem_of_filter. split; [|done].
    apply rule_applies_program in Hm as [? ?]. by simplify_eq.
Qed.

Lemma run_call_extends (call : Call) (b b' : PolicyBuilder) :
  run_call home cwd shlex_split call b = Ok b' -> extends b b'.
Proof.
  destruct call as [pat dec ms nms just loc|h pr dec just|name paths]; simpl.
  - intros (d & t & ts & v & _ & _ & _ & ->)%prefix_rule_Ok.
    destruct (add_rules_fields (prefix_rules t ts d just) (add_pending_example_validation v b))
      as (Hn & _ & Hv & Hk). split_and!.
    + intros k. rewrite Hk. eexists. split; [done|]. apply Forall_forall.
      by intros r [? _]%list_elem_of_filter.
    + rewrite Hn. exists []. by rewrite app_nil_r.
    + rewrite Hv. by eexists.
  - unfold network_rule. intros H. inv_bind. split_and!; simpl; [|by eexists|].
    + intros k. exists []. by rewrite app_nil_r.
    + exists []. by rewrite app_nil_r.
  - unfold host_executable. intros H. inv_bind. split_and!; simpl;
      [|by exists []; rewrite app_nil_r..].
    intros k. exists []. by rewrite app_nil_r.
Qed.

Lemma run_calls_extends (calls : list Call) (failure : option str) (b b' : PolicyBuilder)
    (r : result Error unit) :
  run_calls home cwd shlex_split calls failure b = (b', r) -> extends b b'.
Proof.
  revert b. induction calls as [|call calls IH]; intros b; simpl.
  - intros ?; simplify_eq. apply extends_refl.
  - destruct (run_call home cwd shlex_split call b) as [b1|e|c] eqn:E;
      [|intros ?; simplify_eq; apply extends_refl..].
    intros H%IH. eapply extends_trans; [by eapply run_call_extends|done].
Qed.

Context (starlark : str -> str -> str + (list Call * option str)).

Local Abbreviation parse_policy :=
  (parse home cwd shlex_split shlex_try_join show_rule show_match starlark).

Lemma parse_extends (ident contents : str) (b b' : PolicyBuilder) (r : result Error unit) :
  parse_policy ident contents b = (b', r) -> extends b b'.
Proof.
  unfold parse. destruct (starlark ident contents) as [e|[calls failure]];
    [intros ?; simplify_eq; apply extends_refl|].
  unfold mbind, FileSystem.action_bind, FileSystem.query.
  destruct (run_calls home cwd shlex_split calls failure b) as [b1 [u|e|c]] eqn:E;
    intros ?; simplify_eq; by eapply run_calls_extends.
Qed.

(** What a builder holds was put in rule by rule; so the policies that are read are
    among those that [reachable] means. *)
Definition collected (b : PolicyBuilder) : Prop := exists rules, b_rules b = insert_rules rules ∅.

Lemma add_rules_collected (rules : list PrefixRule) (b : PolicyBuilder) :
  b_rules (add_rules rules b) = insert_rules rules (b_rules b).
Proof. unfold add_rules, insert_rules. revert b. induction rules as [|r rules IH]; intros b; [done|]. apply IH. Qed.

Lemma run_call_collected (call : Call) (b b' : PolicyBuilder) :
  run_call home cwd shlex_split call b = Ok b' -> collected b -> collected b'.
Proof.
  intros H [rules Hb]. destruct call as [pat dec ms nms just loc|h pr dec just|name paths]; simpl in H.
  - apply prefix_rule_Ok in H as (d & t & ts & v & _ & _ & _ & ->).
    exists (rules ++ prefix_rules t ts d just). rewrite add_rules_collected. simpl. rewrite Hb.
    unfold insert_rules. by rewrite fold_left_app.
  - unfold network_rule in H. inv_bind. by exists rules.
  - unfold host_executable in H. inv_bind. by exists rules.
Qed.

Lemma run_calls_collected (calls : list Call) (failure : option str) (b b' : PolicyBuilder)
    (r : result Error unit) :
  run_calls home cwd shlex_split calls failure b = (b', r) -> collected b -> collected b'.
Proof.
  revert b. induction calls as [|call calls IH]; intros b; simpl; [intros ?; by simplify_eq|].
  destruct (run_call home cwd shlex_split call b) as [b1|e|c] eqn:E; [|intros ?; by simplify_eq..].
  intros H Hb. eapply IH; [done|]. by eapply run_call_collected.
Qed.

Theorem parse_reachable (ident contents : str) (b : PolicyBuilder) :
  collected b -> let b' := (parse_policy ident contents b).1 in collected b' /\ reachable (build b').
Proof.
  intros Hb b'. assert (collected b') as Hb'; [|split; [done|]].
  - subst b'. unfold parse. destruct (starlark ident contents) as [e|[calls failure]]; [done|].
    unfold mbind, FileSystem.action_bind, FileSystem.query.
    destruct (run_calls home cwd shlex_split calls failure b) as [b1 [u|e|c]] eqn:E; simpl;
      by eapply run_calls_collected.
  - destruct Hb' as [rules Hr]. unfold build. rewrite Hr. apply reach_parts.
Qed.

(** Reading a policy file, whether it succeeds or fails half-way, only adds:
    every match a command had it keeps, the network rules read before stay in front,
    and rules stay under their programs, so that lookups remain complete. *)
Theorem parse_only_adds (ident contents : str) (b : PolicyBuilder) :
  indexed (build b) ->
  let b' := (parse_policy ident contents b).1 in
  indexed (build b') /\ (forall cmd, exact (build b) cmd ⊆ exact (build b') cmd) /\
  network_rules (build b) `prefix_of` network_rules (build b').
Proof.
  intros Hi b'. subst b'. destruct (parse_policy ident contents b) as [b' r] eqn:E.
  apply parse_extends in E. split_and!.
  - by eapply extends_indexed.
  - intros cmd. by apply extends_exact.
  - destruct E as (_ & (ns & E) & _). by exists ns.
Qed.

(** ** Examples *)

Lemma validation_rules (b : PolicyBuilder) (v : PendingExampleValidation) (k : str) :
  rules_of (validation_policy b v) k = filter (fun r => program r = k) (pending_rules v).
Proof.
  unfold validation_policy.
  assert (forall rules m, mm_get (fold_left (fun m rule => mm_insert (program rule) rule m) rules m) k
    = mm_get m k ++ filter (fun r : PrefixRule => program r = k) rules) as Hf.
  { induction rules as [|r rules IH]; intros m; simpl; [by rewrite app_nil_r|].
    rewrite IH, mm_get_insert, filter_cons. repeat case_decide; try done; by rewrite <- app_assoc. }
  change (rules_of (from_parts ?m [] ?h) k) with (mm_get m k). apply Hf.
Qed.

(** The fallback to the basename, in terms of the rules of a key. *)
Lemma host_rules_of (p : Policy) (arg0 : str) (args : list str) :
  match_host_executable_rules home cwd p (arg0 :: args) =
  match from_absolute_path home cwd arg0 with
  | Ok prog =>
      match file_name prog with
      | Some base =>
          if match host_executables_by_name p !! base with
             | Some paths => negb (existsb (fun path => str_eqb path prog) paths)
             | None => false
             end then []
          else map (with_resolved_program prog)
                 (omap (fun rule => matches rule (base :: args)) (rules_of p base))
      | None => []
      end
  | _ => []
  end.
Proof.
  unfold match_host_executable_rules, executable_path_lookup_key, executable_lookup_key,
    rules_of, get_vec.
  destruct (from_absolute_path home cwd arg0); [|done..]. destruct (file_name a); [|done]. simpl.
  destruct (rules_by_program p !! l); [done|]. by repeat case_match.
Qed.

Local Abbreviation example_matches := (matches_of_example home cwd).

Lemma example_matches_cases (p : Policy) (ex : list str) :
  example_matches p ex = match exact p ex with
                         | [] => match_host_executable_rules home cwd p ex
                         | ms => ms
                         end.
Proof.
  unfold matches_of_example, matches_for_command_with_options, exact, non_empty. simpl.
  destruct (match_exact_rules p ex) as [[|m ms]|]; try done;
    by destruct (match_host_executable_rules home cwd p ex).
Qed.

(** More rules and the same host executables: an example that matched still does. *)
Lemma example_matches_mono (p q : Policy) (ex : list str) :
  (forall k, rules_of p k ⊆ rules_of q k) ->
  host_executables_by_name p = host_executables_by_name q ->
  example_matches p ex <> [] -> example_matches q ex <> [].
Proof.
  intros Hr Hh Hp. rewrite example_matches_cases in *.
  destruct ex as [|c ex]; [done|].
  assert (exact p (c :: ex) ⊆ exact q (c :: ex)) as He
    by (rewrite !exact_rules_of; by apply omap_mono).
  destruct (exact q (c :: ex)) as [|m ms]; [|done].
  destruct (exact p (c :: ex)) as [|m ms]; [|exfalso; apply (not_elem_of_nil m), He; by left].
  rewrite host_rules_of in *. rewrite <- Hh.
  destruct (from_absolute_path home cwd c); [|done..]. destruct (file_name a) as [base|]; [|done].
  destruct (if host_executables_by_name p !! base is Some _ then _ else _); [done|].
  pose proof (omap_mono (fun rule => matches rule (base :: ex)) _ _ (Hr base)) as Hm.
  destruct (omap _ (rules_of p base)) as [|m ms]; [done|].
  destruct (omap _ (rules_of q base)); [exfalso; apply (not_elem_of_nil m), Hm; by left|done].
Qed.

(** The rules of a pending validation are among the rules of the builder. *)
Definition pending_ok (b : PolicyBuilder) : Prop :=
  forall v r, v ∈ b_pending b -> r ∈ pending_rules v -> r ∈ rules_of (build b) (program r).

Lemma run_call_pending (call : Call) (b b' : PolicyBuilder) :
  run_call home cwd shlex_split call b = Ok b' -> pending_ok b -> pending_ok b'.
Proof.
  destruct call as [pat dec ms nms just loc|h pr dec just|name paths]; simpl.
  - intros (d & t & ts & v & _ & _ & Hv & ->)%prefix_rule_Ok Hb w r.
    destruct (add_rules_fields (prefix_rules t ts d just) (add_pending_example_validation v b))
      as (_ & _ & -> & Hk). rewrite Hk. simpl.
    rewrite !elem_of_app, list_elem_of_singleton, list_elem_of_filter.
    intros [Hw| ->] Hr; [left; by eapply Hb|right]. by rewrite <- Hv.
  - unfold network_rule. intros H Hb. by inv_bind.
  - unfold host_executable. intros H Hb. by inv_bind.
Qed.

Lemma run_calls_pending (calls : list Call) (failure : option str) (b b' : PolicyBuilder)
    (r : result Error unit) :
  run_calls home cwd shlex_split calls failure b = (b', r) -> pending_ok b -> pending_ok b'.
Proof.
  revert b. induction calls as [|call calls IH]; intros b; simpl; [by intros ?; simplify_eq|].
  destruct (run_call home cwd shlex_split call b) as [b1|e|c] eqn:E; [|by intros ?; simplify_eq..].
  intros H Hb. eapply IH; [done|]. by eapply run_call_pending.
Qed.

Lemma validate_all_Ok (b : PolicyBuilder) (vs : list PendingExampleValidation) :
  validate_all home cwd shlex_try_join show_rule show_match b vs = Ok tt ->
  forall v, v ∈ vs ->
    (forall ex, ex ∈ pending_matches v -> example_matches (validation_policy b v) ex <> []) /\
    (forall ex, ex ∈ pending_not_matches v -> example_matches (validation_policy b v) ex = []).
Proof.
  induction vs as [|w vs IH]; simpl; intros H v Hv; [by apply not_elem_of_nil in Hv|].
  apply bind_Ok in H as ([] & Hw & H). apply elem_of_cons in Hv as [->|Hv]; [|by apply IH].
  unfold validate_pending in Hw. apply bind_Ok in Hw as ([] & Hn & Hm).
  apply map_err_Ok in Hn, Hm. split.
  - intros ex Hex Hnil. unfold validate_match_examples in Hm.
    assert (render_example shlex_try_join ex ∈ omap (fun example =>
      match example_matches (validation_policy b w) example with
      | [] => Some (render_example shlex_try_join example) | _ => None end)
      (pending_matches w)) as Hin.
    { apply list_elem_of_omap. exists ex. by rewrite Hnil. }
    destruct (omap _ (pending_matches w)); [by apply not_elem_of_nil in Hin|done].
  - clear Hm. induction (pending_not_matches w) as [|e es IHe]; intros ex Hex;
      [by apply not_elem_of_nil in Hex|]. simpl in Hn.
    destruct (example_matches (validation_policy b w) e) eqn:Ee; [|done].
    apply elem_of_cons in Hex as [->|Hex]; [done|by apply IHe].
Qed.

(** When a policy file is read with success, every [match] example of its rules
    matches in the policy read so far, and no [not_match] example is matched by the
    rules of its own call. *)
Theorem parse_examples_hold (ident contents : str) (b b' : PolicyBuilder) :
  pending_ok b -> parse_policy ident contents b = (b', Ok tt) ->
  exists vs, b_pending b' = b_pending b ++ vs /\ forall v, v ∈ vs ->
    (forall ex, ex ∈ pending_matches v -> example_matches (build b') ex <> []) /\
    (forall ex, ex ∈ pending_not_matches v -> example_matches (validation_policy b' v) ex = []).
Proof.
  intros Hb H. pose proof (parse_extends _ _ _ _ _ H) as (_ & _ & vs & Hvs).
  exists vs. split; [done|]. unfold parse in H.
  destruct (starlark ident contents) as [e|[calls failure]]; [done|].
  unfold mbind, FileSystem.action_bind, FileSystem.query in H.
  destruct (run_calls home cwd shlex_split calls failure b) as [b1 [u|e|c]] eqn:E; simplify_eq.
  pose proof (run_calls_pending _ _ _ _ _ E Hb) as Hp.
  rename select (validate_pending_examples_from _ _ _ _ _ _ _ = _) into Hval.
  unfold validate_pending_examples_from in Hval.
  rewrite Hvs, slice_from_in_range, drop_app_length in Hval by (rewrite length_app; lia).
  intros v Hv. destruct (validate_all_Ok _ _ Hval v Hv) as [Hm Hn]. split; [|done].
  intros ex Hex. eapply example_matches_mono; [| |by apply Hm]; [|done].
  intros k r. rewrite validation_rules, list_elem_of_filter. intros [<- Hr].
  apply (Hp v); [rewrite Hvs; set_solver|done].
Qed.

(** ** Host executables *)

Lemma host_path_Ok (name : str) (v : Value) (ps ps' : list str) :
  host_path home cwd name v ps = Ok ps' ->
  NoDup ps -> Forall (fun p => normalized_absolute p /\ file_name p = Some name) ps ->
  NoDup ps' /\ Forall (fun p => normalized_absolute p /\ file_name p = Some name) ps'.
Proof.
  unfold host_path, executable_lookup_key, executable_path_lookup_key. intros H Hnd Hps.
  apply bind_Ok in H as (raw & _ & H). apply bind_Ok in H as (path & Hpath & H).
  apply bind_Ok in H as (pn & Hpn & H).
  destruct (str_eqb pn name) eqn:En; [|done]. apply str_eqb_eq in En as ->.
  destruct (existsb _ ps) eqn:Ee; simpl in H; simplify_eq; [done|].
  assert (path ∉ ps) as Hnew.
  { intros Hin. apply not_true_iff_false in Ee. apply Ee, existsb_exists. exists path.
    split; [by apply list_elem_of_In|apply str_eqb_refl]. }
  split; [apply NoDup_app; split_and!; [done| |apply NoDup_singleton];
    by intros x Hx ->%list_elem_of_singleton|].
  apply Forall_app. split; [done|]. apply Forall_singleton. split.
  - unfold parse_literal_absolute_path in Hpath. destruct (is_absolute raw) eqn:Ea; [|done].
    apply map_err_Ok in Hpath. unfold from_absolute_path, absolutize in Hpath.
    rewrite expand_absolute, Ea in Hpath by done. simplify_eq.
    destruct (normalize_absolute raw Ea) as [-> Hv]. by eexists.
  - by destruct (file_name path); simplify_eq/=.
Qed.

(** The paths registered for a host executable are absolute and normalized, end
    in its name, and are listed once. *)
Theorem host_executable_paths (name : str) (paths : list Value) (b b' : PolicyBuilder) :
  host_executable home cwd name paths b = Ok b' ->
  exists ps, b' = add_host_executable name ps b /\ NoDup ps /\
    Forall (fun p => normalized_absolute p /\ file_name p = Some name) ps.
Proof.
  unfold host_executable, executable_lookup_key. intros H.
  apply bind_Ok in H as ([] & _ & H). apply bind_Ok in H as (ps & Hps & H). simplify_eq.
  exists ps. split; [done|].
  assert (forall vs acc, host_paths home cwd name vs acc = Ok ps -> NoDup acc ->
    Forall (fun p => normalized_absolute p /\ file_name p = Some name) acc ->
    NoDup ps /\ Forall (fun p => normalized_absolute p /\ file_name p = Some name) ps) as Hg.
  { induction vs as [|v vs IH]; simpl; intros acc Ha Hn Hf; [by simplify_eq|].
    apply bind_Ok in Ha as (acc' & Hv & Ha).
    destruct (host_path_Ok _ _ _ _ Hv Hn Hf) as [Hn' Hf']. by eapply IH. }
  eapply Hg; [done|constructor|constructor].
Qed.

End Parser.

(** ** Examples *)

Definition no_split (_ : str) : option (list str) := None.
Definition no_join (_ : list str) : option str := None.
Definition no_show {A} (_ : A) : str := [].

(** A file that allows two commands of two programs, with examples. *)
Definition sample_call : Call :=
  CallPrefixRule [VList [VStr (lit "git"); VStr (lit "hg")]; VList [VStr (lit "log"); VStr (lit "diff")]]
    (Some (lit "allow")) (Some [VList [VStr (lit "/usr/bin/hg"); VStr (lit "log"); VStr (lit "-v")]])
    (Some [VList [VStr (lit "git"); VStr (lit "push")]]) None None.

Definition sample_calls : list Call :=
  [CallHostExecutable (lit "hg") [VStr (lit "/usr/bin/hg"); VStr (lit "/usr//bin/./hg")]; sample_call].

Definition sample_starlark (_ _ : str) : str + (list Call * option str) := inr (sample_calls, None).

Definition sample_parse : PolicyBuilder * result Error unit :=
  parse None None no_split no_join no_show no_show sample_starlark [] [] new_builder.

Lemma prefix_rule_meaning_witness :
  exists b d tokens,
    run_call None None no_split sample_call new_builder = Ok b /\ d = Allow /\
    parse_pattern [VList [VStr (lit "git"); VStr (lit "hg")];
                   VList [VStr (lit "log"); VStr (lit "diff")]] = Ok tokens /\
    forall cmd m, m ∈ exact (build b) cmd <-> m ∈ exact (build new_builder) cmd \/
      exists matched args, cmd = matched ++ args /\
        Forall2 (fun t c => c ∈ alternatives t) tokens matched /\
        m = PrefixRuleMatch matched d None None.
Proof.
  destruct (run_call None None no_split sample_call new_builder) as [b|e|c] eqn:E;
    [|vm_compute in E; discriminate E..].
  unfold sample_call, run_call in E.
  destruct (prefix_rule_meaning no_split _ _ _ _ _ _ new_builder b E) as (d & tokens & Hd & Ht & Hm).
  exists b, d, tokens. split; [reflexivity|]. split; [vm_compute in Hd; by injection Hd as <-|].
  split; [exact Ht|exact Hm].
Defined.

Lemma new_builder_indexed : indexed (build new_builder).
Proof. intros k rs E. cbn in E. by rewrite lookup_empty in E. Defined.

Lemma parse_only_adds_witness :
  indexed (build sample_parse.1) /\
  (forall cmd, exact (build new_builder) cmd ⊆ exact (build sample_parse.1) cmd) /\
  network_rules (build new_builder) `prefix_of` network_rules (build sample_parse.1).
Proof.
  exact (parse_only_adds None None no_split no_join no_show no_show sample_starlark [] []
           new_builder new_builder_indexed).
Defined.

Lemma parse_examples_hold_witness :
  exists vs, b_pending sample_parse.1 = b_pending new_builder ++ vs /\ length vs = 1 /\
    forall v, v ∈ vs ->
    (forall ex, ex ∈ pending_matches v -> matches_of_example None None (build sample_parse.1) ex <> []) /\
    (forall ex, ex ∈ pending_not_matches v ->
       matches_of_example None None (validation_policy sample_parse.1 v) ex = []).
Proof.
  destruct (parse_examples_hold None None no_split no_join no_show no_show sample_starlark [] []
              new_builder sample_parse.1) as (vs & Hvs & H).
  - intros v r Hv. by apply not_elem_of_nil in Hv.
  - vm_compute. reflexivity.
  - exists vs. split; [exact Hvs|]. split; [|exact H].
    apply (f_equal length) in Hvs. simpl in Hvs. rewrite <- Hvs. vm_compute. reflexivity.
Defined.

Lemma host_executable_paths_witness :
  exists b ps, host_executable None None (lit "hg")
      [VStr (lit "/usr/bin/hg"); VStr (lit "/usr//bin/./hg")] new_builder = Ok b /\
    b = add_host_executable (lit "hg") ps new_builder /\ NoDup ps /\
    Forall (fun p => normalized_absolute p /\ file_name p = Some (lit "hg")) ps.
Proof.
  destruct (host_executable None None (lit "hg")
    [VStr (lit "/usr/bin/hg"); VStr (lit "/usr//bin/./hg")] new_builder) as [b|e|c] eqn:E;
    [|vm_compute in E; discriminate E..].
  destruct (host_executable_paths None None (lit "hg") _ new_builder b E) as (ps & H).
  exists b, ps. split; [reflexivity|exact H].
Defined.

End ExecParserFacts.
