(* ===== verification/ExecAmend.v ===== *)
(** * Amending a policy file: src/execpolicy/src/amend.rs

    A rule is a line that is appended to the policy file, once. The file operations
    of the standard library are a class: the handle of the open file is its path,
    and writes go to the end of the file since it is opened for appending. *)

From Stdlib Require Import Ascii String.
From S2P Require Import Prelude RustStr Utf8 AbsPath FileSystem ExecRule.
Import Utf8 AbsPath ExecRule ExecPolicy.

Module ExecAmend.

(** ** The file operations *)

Class PolicyFs (S : Type) := {
  create_dir : str -> action S io_error unit;
  open_append : str -> action S io_error unit;
  lock_file : str -> action S io_error unit;
  seek_start : str -> action S io_error unit;
  read_to_string : str -> action S io_error str;
  write_all : str -> str -> action S io_error unit;
}.

(** The text of a file: opening creates an empty file if there is none, reading
    from the start gives the whole text, writing appends. *)
Class PolicyFsLaws (S : Type) `{PolicyFs S} := {
  text : str -> S -> option str;
  open_text : forall p s s' r, open_append p s = (s', r) ->
    text p s' = Some (default [] (text p s)) \/ (text p s' = text p s /\ is_ok r = false);
  lock_text : forall p s s' r, lock_file p s = (s', r) -> text p s' = text p s;
  seek_text : forall p s s' r, seek_start p s = (s', r) -> text p s' = text p s;
  read_text : forall p s s' r, read_to_string p s = (s', r) ->
    text p s' = text p s /\ forall c, r = Ok c -> text p s = Some c;
  write_text : forall p t s s', write_all p t s = (s', Ok tt) ->
    text p s' = Some (default [] (text p s) ++ t);
  create_text : forall p d s s' r, create_dir d s = (s', r) -> text p s' = text p s;
}.

(** ** The rule lines *)

Inductive AmendError :=
| EmptyPrefix
| InvalidNetworkRule (message : str)
| MissingParent (path : str)
| CreatePolicyDir (dir : str) (source : io_error)
| OpenPolicyFile (path : str) (source : io_error)
| WritePolicyFile (path : str) (source : io_error)
| LockPolicyFile (path : str) (source : io_error)
| SeekPolicyFile (path : str) (source : io_error)
| ReadPolicyFile (path : str) (source : io_error).

Definition QUOTE : str := [34%N].

Section Lines.

(** [serde_json::to_string] of a string, which cannot fail. *)
Context (json_string : str -> str).

Definition allow_prefix_line (prefix : list str) : str :=
  lit "prefix_rule(pattern=[" ++ join (lit ", ") (map json_string prefix)
  ++ lit "], decision=" ++ QUOTE ++ lit "allow" ++ QUOTE ++ lit ")".

Definition decision_policy_string (d : Decision) : str :=
  match d with
  | Allow => lit "allow"
  | Prompt => lit "prompt"
  | Forbidden => lit "deny"
  end.

Definition network_rule_line (host : str) (protocol : NetworkRuleProtocol)
    (decision : Decision) (justification : option str) : str :=
  let args :=
    [lit "host=" ++ json_string host;
     lit "protocol=" ++ json_string (as_policy_string protocol);
     lit "decision=" ++ json_string (decision_policy_string decision)]
    ++ match justification with
       | Some j => [lit "justification=" ++ json_string j]
       | None => []
       end in
  lit "network_rule(" ++ join (lit ", ") args ++ lit ")".

(** ** Appending *)

Context {S : Type} `{PolicyFs S}.

Definition append_locked_line (policy_path line : str) : action S AmendError unit :=
  _ ← act_map_err (OpenPolicyFile policy_path) (open_append policy_path);
  _ ← act_map_err (LockPolicyFile policy_path) (lock_file policy_path);
  _ ← act_map_err (SeekPolicyFile policy_path) (seek_start policy_path);
  contents ← act_map_err (ReadPolicyFile policy_path) (read_to_string policy_path);
  if existsb (fun existing => str_eqb existing line) (lines contents) then mret tt
  else
    _ ← (if negb (str_eqb contents []) && negb (ends_with [NL] contents)
         then act_map_err (WritePolicyFile policy_path) (write_all policy_path [NL])
         else mret tt);
    act_map_err (WritePolicyFile policy_path) (write_all policy_path (line ++ [NL])).

Definition append_rule_line (policy_path rule : str) : action S AmendError unit := fun s =>
  match parent policy_path with
  | None => (s, Err (MissingParent policy_path))
  | Some dir =>
      match create_dir dir s with
      | (s, Ok tt) => append_locked_line policy_path rule s
      | (s, Err source) =>
          match kind source with
          | AlreadyExists => append_locked_line policy_path rule s
          | _ => (s, Err (CreatePolicyDir dir source))
          end
      | (s, Crash c) => (s, Crash c)
      end
  end.

Definition blocking_append_allow_prefix_rule (policy_path : str) (prefix : list str)
    : action S AmendError unit :=
  if bool_decide (prefix = []) then act_err EmptyPrefix
  else append_rule_line policy_path (allow_prefix_line prefix).

(** The text of an error, which the [thiserror] macro generates. *)
Context (error_to_string : Error -> str).

Definition blocking_append_network_rule (policy_path raw_host : str)
    (protocol : NetworkRuleProtocol) (decision : Decision) (justification : option str)
    : action S AmendError unit :=
  host ← lift_result (map_err (fun err => InvalidNetworkRule (error_to_string err))
                        (normalize_network_rule_host raw_host));
  if match justification with Some raw => str_eqb (trim raw) [] | None => false end
  then act_err (InvalidNetworkRule (lit "justification cannot be empty"))
  else append_rule_line policy_path (network_rule_line host protocol decision justification).

End Lines.

(** ** What a file holds afterwards *)

(** The text of the file, as a function of the text it had. *)
Definition amended (contents line : str) : str :=
  if existsb (fun existing => str_eqb existing line) (lines contents) then contents
  else contents ++ (if negb (str_eqb contents []) && negb (ends_with [NL] contents)
                    then [NL] else []) ++ line ++ [NL].

Lemma existsb_line (line : str) (ls : list str) :
  existsb (fun existing => str_eqb existing line) ls = true <-> line ∈ ls.
Proof.
  rewrite existsb_exists. split.
  - intros (x & Hx & ->%str_eqb_eq). by apply list_elem_of_In.
  - intros Hl. exists line. split; [by apply list_elem_of_In|apply str_eqb_refl].
Qed.

Lemma split_inclusive_newline (c : char) (s t : str) :
  split_inclusive c (s ++ c :: t) = split_inclusive c (s ++ [c]) ++ split_inclusive c t.
Proof.
  induction s as [|x s IH]; simpl; [by rewrite N.eqb_refl|]. rewrite IH.
  destruct (N.eqb x c); [done|].
  destruct (split_inclusive c (s ++ [c])) as [|w ws] eqn:E; [|done].
  destruct s; simpl in E; [by rewrite N.eqb_refl in E|]. repeat case_match; done.
Qed.

Lemma lines_newline (s t : str) : lines (s ++ NL :: t) = lines (s ++ [NL]) ++ lines t.
Proof. unfold lines. by rewrite split_inclusive_newline, map_app. Qed.

Lemma lines_line (line : str) : clean_line line -> lines (line ++ [NL]) = [line].
Proof. intros Hl. by rewrite lines_cons. Qed.

(** The text before the new line, which ends in a newline or is empty. *)
Lemma amended_new (c line : str) :
  clean_line line -> line ∉ lines c ->
  exists pre, amended c line = pre ++ line ++ [NL] /\ c `prefix_of` pre /\
    lines (amended c line) = lines pre ++ [line] /\
    (last c <> Some CR -> lines pre = lines c).
Proof.
  intros Hl Hn. unfold amended.
  destruct (existsb _ (lines c)) eqn:E; [by apply existsb_line in E|]. clear E.
  destruct (str_eqb c []) eqn:Ec; simpl.
  { apply str_eqb_eq in Ec as ->. exists []. split_and!; [done|done| |done].
    by apply lines_line. }
  apply str_eqb_neq in Ec. destruct (ends_with [NL] c) eqn:En; simpl.
  - apply ends_with_true in En as [r ->]. exists (r ++ [NL]).
    split_and!; [done|done| |done]. rewrite <- app_assoc. simpl.
    by rewrite lines_newline, (lines_line line).
  - exists (c ++ [NL]). rewrite <- app_assoc. split_and!; [done|by eexists| |].
    + by rewrite lines_newline, (lines_line line).
    + intros Hcr. destruct (last c) as [x|] eqn:Ex; [|by apply last_None in Ex].
      rewrite (lines_app c [] x), app_nil_r; [done|done| |congruence].
      intros ->. apply last_Some in Ex as [r ->].
      assert (ends_with [NL] (r ++ [NL]) = true) by (apply ends_with_true; eauto). congruence.
Qed.

Lemma amended_line (c line : str) : clean_line line -> line ∈ lines (amended c line).
Proof.
  intros Hl. destruct (decide (line ∈ lines c)) as [Hin|Hn].
  - unfold amended. by rewrite (proj2 (existsb_line line _)).
  - destruct (amended_new c line Hl Hn) as (pre & _ & _ & -> & _). set_solver.
Qed.

Lemma amended_once (c line : str) :
  clean_line line -> amended (amended c line) line = amended c line.
Proof.
  intros Hl. unfold amended at 1. by rewrite (proj2 (existsb_line line _)) by by apply amended_line.
Qed.

(** What amending does to a text: it keeps it in front, and adds the line unless it is
    there. *)
Lemma amended_spec (c line : str) :
  clean_line line ->
  c `prefix_of` amended c line /\ line ∈ lines (amended c line) /\
  (line ∈ lines c -> amended c line = c) /\
  (line ∉ lines c -> last c <> Some CR -> lines (amended c line) = lines c ++ [line]).
Proof.
  intros Hcl. split_and!; [|by apply amended_line| |].
  - destruct (decide (line ∈ lines c)) as [Hin|Hn].
    + unfold amended. by rewrite (proj2 (existsb_line line _)).
    + destruct (amended_new c line Hcl Hn) as (pre & -> & Hp & _). by apply prefix_app_r.
  - intros Hin. unfold amended. by rewrite (proj2 (existsb_line line _)).
  - intros Hn Hcr. destruct (amended_new c line Hcl Hn) as (pre & _ & _ & -> & Hpre).
    by rewrite Hpre.
Qed.

Section Facts.
Context (json_string : str -> str).
Context {S : Type} `{PolicyFsLaws S}.

Lemma bind_step {E F A B} (f : E -> F) (m : action S E A) (k : A -> action S F B)
    (s s' : S) (b : B) :
  (act_map_err f m ≫= k) s = (s', Ok b) ->
  exists a s1, m s = (s1, Ok a) /\ k a s1 = (s', Ok b).
Proof.
  unfold mbind, action_bind, act_map_err. destruct (m s) as [s1 [a|e|c]]; simpl; eauto; done.
Qed.

Lemma map_err_write (f : io_error -> AmendError) (p t : str) (s s' : S) :
  act_map_err f (write_all p t) s = (s', Ok tt) -> text p s' = Some (default [] (text p s) ++ t).
Proof.
  unfold act_map_err. destruct (write_all p t s) as [s1 [[]|e|c]] eqn:E; intros; simplify_eq/=.
  by eapply write_text.
Qed.

Lemma append_locked_text (p line : str) (s s' : S) :
  append_locked_line p line s = (s', Ok tt) ->
  text p s' = Some (amended (default [] (text p s)) line).
Proof.
  unfold append_locked_line. intros H1.
  apply bind_step in H1 as ([] & s1 & Ho & H1). apply bind_step in H1 as ([] & s2 & Hl & H1).
  apply bind_step in H1 as ([] & s3 & Hs & H1). apply bind_step in H1 as (c & s4 & Hr & H1).
  apply lock_text in Hl. apply seek_text in Hs. apply read_text in Hr as [Hr Hc].
  specialize (Hc c eq_refl). apply open_text in Ho as [Ho|[_ Ho]]; [|done].
  rewrite Hs, Hl, Ho in *. simplify_eq. unfold amended.
  set (c := default [] (text p s)) in *.
  destruct (existsb _ (lines c)); [unfold mret, action_ret in H1; by simplify_eq|].
  destruct (negb (str_eqb c []) && negb (ends_with [NL] c)).
  - apply bind_step in H1 as ([] & s5 & Hw & H1). apply write_text in Hw.
    apply map_err_write in H1. rewrite H1, Hw, Hr. simpl. by rewrite <- !app_assoc.
  - unfold mbind, action_bind, mret, action_ret in H1. apply map_err_write in H1.
    by rewrite H1, Hr.
Qed.

Lemma append_rule_text (p line : str) (s s' : S) :
  append_rule_line p line s = (s', Ok tt) ->
  text p s' = Some (amended (default [] (text p s)) line).
Proof.
  unfold append_rule_line. destruct (parent p) as [d|]; [|done].
  destruct (create_dir d s) as [s1 [[]|e|c]] eqn:E; [| |done]; apply (create_text p) in E.
  - intros Ha%append_locked_text. by rewrite Ha, E.
  - destruct (kind e); try done. intros Ha%append_locked_text. by rewrite Ha, E.
Qed.

Lemma append_network_Ok (error_to_string : Error -> str) (p raw : str)
    (protocol : NetworkRuleProtocol) (decision : Decision) (just : option str) (s s' : S) :
  blocking_append_network_rule json_string error_to_string p raw protocol decision just s
    = (s', Ok tt) ->
  exists host, normalize_network_rule_host raw = Ok host /\
    append_rule_line p (network_rule_line json_string host protocol decision just) s = (s', Ok tt).
Proof.
  unfold blocking_append_network_rule, lift_result, mbind, action_bind.
  destruct (normalize_network_rule_host raw) as [host|e|x]; simpl; [|done..].
  destruct (match just with Some r => str_eqb (trim r) [] | None => false end); [done|]. eauto.
Qed.

(** JSON escapes control characters, so a JSON string is on one line. *)
Context (json_one_line : forall s, NL ∉ json_string s).

Lemma join_no_newline (sep : str) (ls : list str) :
  NL ∉ sep -> Forall (fun l => NL ∉ l) ls -> NL ∉ join sep ls.
Proof.
  intros Hs. induction ls as [|l ls IH]; intros Hl; [apply not_elem_of_nil|].
  apply Forall_cons in Hl as [Hl Hls]. destruct (decide (ls = [])) as [->|Hne]; [done|].
  rewrite join_cons by done. rewrite !not_elem_of_app. auto.
Qed.

Ltac no_newline := apply (bool_decide_unpack _); vm_compute; exact I.

Lemma allow_prefix_line_clean (prefix : list str) :
  clean_line (allow_prefix_line json_string prefix).
Proof.
  unfold allow_prefix_line. split.
  - rewrite !not_elem_of_app. split_and!; try no_newline.
    apply join_no_newline; [no_newline|]. apply Forall_map, Forall_true. auto.
  - rewrite !app_assoc, last_app_nonempty by done. done.
Qed.

Lemma as_policy_string_no_newline (protocol : NetworkRuleProtocol) :
  NL ∉ as_policy_string protocol.
Proof. destruct protocol; no_newline. Qed.

Lemma network_rule_line_clean (host : str) (protocol : NetworkRuleProtocol)
    (decision : Decision) (justification : option str) :
  clean_line (network_rule_line json_string host protocol decision justification).
Proof.
  unfold network_rule_line. split.
  - rewrite !not_elem_of_app. split_and!; try no_newline.
    apply join_no_newline; [no_newline|]. apply Forall_app. split.
    + repeat constructor; rewrite not_elem_of_app; split; auto; no_newline.
    + destruct justification; repeat constructor.
      rewrite not_elem_of_app. split; auto; no_newline.
  - rewrite !app_assoc, last_app_nonempty by done. done.
Qed.

(** Adding an allow rule to a policy file adds its line at the end, on a line of
    its own, once: the text that was there stays in front, the other lines are
    unchanged, and adding the rule again leaves the file as it is. *)
Theorem append_allow_prefix_once (p : str) (prefix : list str) (s s' : S) :
  blocking_append_allow_prefix_rule json_string p prefix s = (s', Ok tt) ->
  let c := default [] (text p s) in
  let line := allow_prefix_line json_string prefix in
  exists c', text p s' = Some c' /\ c `prefix_of` c' /\ line ∈ lines c' /\
    (line ∈ lines c -> c' = c) /\
    (line ∉ lines c -> last c <> Some CR -> lines c' = lines c ++ [line]) /\
    forall s2, blocking_append_allow_prefix_rule json_string p prefix s' = (s2, Ok tt) ->
      text p s2 = Some c'.
Proof.
  intros Hrun c line. unfold blocking_append_allow_prefix_rule in *.
  case_bool_decide; [done|]. apply append_rule_text in Hrun as Ha.
  pose proof (allow_prefix_line_clean prefix) as Hcl.
  exists (amended c line). destruct (amended_spec c line Hcl) as (Hp & Hin & Hsame & Hnew).
  split_and!; [done..|]. intros s2 Hs2%append_rule_text. rewrite Hs2, Ha. simpl.
  fold c line. by rewrite amended_once.
Qed.

(** Adding a network rule writes the line of the normal form of its host, with the
    text that was there in front, and only once however the host is written: another
    spelling of a host with the same normal form leaves the file as it is. *)
Theorem append_network_rule_normalized (error_to_string : Error -> str) (p raw : str)
    (protocol : NetworkRuleProtocol) (decision : Decision) (just : option str) (s s' : S) :
  blocking_append_network_rule json_string error_to_string p raw protocol decision just s
    = (s', Ok tt) ->
  let c := default [] (text p s) in
  exists host c', normalize_network_rule_host raw = Ok host /\
    text p s' = Some c' /\ c `prefix_of` c' /\
    network_rule_line json_string host protocol decision just ∈ lines c' /\
    forall raw2 s2, normalize_network_rule_host raw2 = Ok host ->
      blocking_append_network_rule json_string error_to_string p raw2 protocol decision just s'
        = (s2, Ok tt) ->
      text p s2 = Some c'.
Proof.
  intros Hrun c. apply append_network_Ok in Hrun as (host & Hh & Ha%append_rule_text).
  pose proof (network_rule_line_clean host protocol decision just) as Hcl.
  destruct (amended_spec c _ Hcl) as (Hp & Hin & _).
  exists host, (amended c (network_rule_line json_string host protocol decision just)).
  split_and!; [done..|]. intros raw2 s2 Hr2 Hrun2.
  apply append_network_Ok in Hrun2 as (host2 & Hh2 & Ha2%append_rule_text).
  assert (host2 = host) as -> by congruence. rewrite Ha2, Ha.
  exact (f_equal Some (amended_once c _ Hcl)).
Qed.

End Facts.

(** ** A file system with one file *)

Definition one_file : Type := option str.

#[export] Instance one_file_fs : PolicyFs one_file := {
  create_dir _ s := (s, Err {| kind := AlreadyExists; io_message := [] |});
  open_append _ s := (Some (default [] s), Ok tt);
  lock_file _ s := (s, Ok tt);
  seek_start _ s := (s, Ok tt);
  read_to_string _ s := (s, match s with
                            | Some t => Ok t
                            | None => Err {| kind := NotFound; io_message := [] |}
                            end);
  write_all _ t s := (Some (default [] s ++ t), Ok tt);
}.

#[export] Instance one_file_laws : PolicyFsLaws one_file.
Proof.
  refine {| text := fun _ s => s |}.
  - intros p s s' r E. left. by injection E as <- _.
  - intros p s s' r E. by injection E as <- _.
  - intros p s s' r E. by injection E as <- _.
  - intros p s s' r E. injection E as <- <-. split; [done|]. intros c Hc.
    by destruct s; simplify_eq.
  - intros p t s s' E. by injection E as <-.
  - intros p d s s' r E. by injection E as <- _.
Defined.

(** A stand-in for JSON that drops newlines. *)
Definition quote_line (s : str) : str := QUOTE ++ filter (fun c => c <> NL) s ++ QUOTE.

Lemma quote_line_one_line (s : str) : NL ∉ quote_line s.
Proof.
  unfold quote_line. rewrite !not_elem_of_app. split; [|split].
  - apply (bool_decide_unpack _). vm_compute. exact I.
  - intros [Hn _]%list_elem_of_filter. by apply Hn.
  - apply (bool_decide_unpack _). vm_compute. exact I.
Qed.

Lemma append_allow_prefix_once_witness :
  let c := lit "# rules" in
  let line := allow_prefix_line quote_line [lit "ls"] in
  exists s' c', blocking_append_allow_prefix_rule quote_line (lit "/d/r") [lit "ls"] (Some c)
      = (s', Ok tt) /\ s' = Some c' /\ c `prefix_of` c' /\ line ∈ lines c' /\
    (line ∈ lines c -> c' = c) /\
    (line ∉ lines c -> last c <> Some CR -> lines c' = lines c ++ [line]) /\
    forall s2, blocking_append_allow_prefix_rule quote_line (lit "/d/r") [lit "ls"] s'
      = (s2, Ok tt) -> s2 = Some c'.
Proof.
  intros c line.
  destruct (blocking_append_allow_prefix_rule quote_line (lit "/d/r") [lit "ls"] (Some c))
    as [s' [[]|e|x]] eqn:E; [|vm_compute in E; discriminate E..].
  destruct (append_allow_prefix_once quote_line quote_line_one_line (lit "/d/r") [lit "ls"]
              (Some c) s' E)
    as (c' & H).
  exists s', c'. split; [reflexivity|exact H].
Defined.

Lemma append_network_rule_normalized_witness :
  exists s' host c', blocking_append_network_rule quote_line (fun _ => []) (lit "/d/r")
      (lit "Example.COM:443") Https Allow None (Some (lit "# rules")) = (s', Ok tt) /\
    host = lit "example.com" /\ s' = Some c' /\ lit "# rules" `prefix_of` c' /\
    network_rule_line quote_line host Https Allow None ∈ lines c' /\
    forall raw2 s2, normalize_network_rule_host raw2 = Ok host ->
      blocking_append_network_rule quote_line (fun _ => []) (lit "/d/r") raw2 Https Allow None s'
        = (s2, Ok tt) -> s2 = Some c'.
Proof.
  destruct (blocking_append_network_rule quote_line (fun _ => []) (lit "/d/r")
      (lit "Example.COM:443") Https Allow None (Some (lit "# rules"))) as [s' [[]|e|x]] eqn:E;
    [|vm_compute in E; discriminate E..].
  destruct (append_network_rule_normalized quote_line quote_line_one_line _ _ _ _ _ _ _ _ E)
    as (host & c' & Hh & H).
  exists s', host, c'. split; [reflexivity|].
  split; [vm_compute in Hh; by injection Hh as <-|exact H].
Defined.

End ExecAmend.
