(* ===== verification/LegacySpec.v ===== *)
(** * The older policy engine, data and arguments: src/execpolicy-legacy/src

    [arg_type.rs], [arg_matcher.rs], [opt.rs], [exec_call.rs], [valid_exec.rs],
    [error.rs] and [sed_command.rs]: what an argument of a program may be, and the
    checks on its value. *)

From Stdlib Require Import Ascii String.
From stdpp Require Import sorting.
From S2P Require Import Prelude RustStr FileSystem ExecRule.


Module LegacySpec.

(** ** arg_type.rs, arg_matcher.rs *)

Inductive ArgType :=
| TLiteral (value : str)
| TOpaqueNonFile
| TReadableFile
| TWriteableFile
| TPositiveInteger
| TSedCommand
| TUnknown.

#[export] Instance ArgType_eq_dec : EqDecision ArgType.
Proof. solve_decision. Defined.

Inductive ArgMatcher :=
| Literal (value : str)
| OpaqueNonFile
| ReadableFile
| WriteableFile
| ReadableFiles
| ReadableFilesOrCwd
| PositiveInteger
| SedCommand
| UnverifiedVarargs.

#[export] Instance ArgMatcher_eq_dec : EqDecision ArgMatcher.
Proof. solve_decision. Defined.

Inductive ArgMatcherCardinality := One | AtLeastOne | ZeroOrMore.

Definition cardinality (m : ArgMatcher) : ArgMatcherCardinality :=
  match m with
  | Literal _ | OpaqueNonFile | ReadableFile | WriteableFile | PositiveInteger
  | SedCommand => One
  | ReadableFiles => AtLeastOne
  | ReadableFilesOrCwd | UnverifiedVarargs => ZeroOrMore
  end.

Definition is_exact (c : ArgMatcherCardinality) : option nat :=
  match c with
  | One => Some 1
  | AtLeastOne => None
  | ZeroOrMore => None
  end.

Definition arg_type (m : ArgMatcher) : ArgType :=
  match m with
  | Literal value => TLiteral value
  | OpaqueNonFile => TOpaqueNonFile
  | ReadableFile => TReadableFile
  | WriteableFile => TWriteableFile
  | ReadableFiles => TReadableFile
  | ReadableFilesOrCwd => TReadableFile
  | PositiveInteger => TPositiveInteger
  | SedCommand => TSedCommand
  | UnverifiedVarargs => TUnknown
  end.

(** ** opt.rs, exec_call.rs *)

Inductive OptMeta := Flag | OptValue (ty : ArgType).

Record Opt := { opt : str; meta : OptMeta; required : bool }.

Record ExecCall := { call_program : str; call_args : list str }.

(** ** error.rs *)

Record PositionalArg := { index : nat; pos_value : str }.

Inductive Error :=
| NoSpecForProgram (program : str)
| OptionMissingValue (program option : str)
| OptionFollowedByOptionInsteadOfValue (program option value : str)
| UnknownOption (program option : str)
| UnexpectedArguments (program : str) (args : list PositionalArg)
| DoubleDashNotSupportedYet (program : str)
| MultipleVarargPatterns (program : str) (first second : ArgMatcher)
| RangeStartExceedsEnd (range_start range_end : nat)
| RangeEndOutOfBounds (range_end len : nat)
| PrefixOverlapsSuffix
| NotEnoughArgs (program : str) (args : list PositionalArg) (arg_patterns : list ArgMatcher)
| InternalInvariantViolation (message : str)
| VarargMatcherDidNotMatchAnything (program : str) (matcher : ArgMatcher)
| EmptyFileName
| LiteralValueDidNotMatch (expected actual : str)
| InvalidPositiveInteger (value : str)
| MissingRequiredOptions (program : str) (options : list str)
| SedCommandNotProvablySafe (command : str)
| ReadablePathNotInReadableFolders (file : str) (folders : list str)
| WriteablePathNotInWriteableFolders (file : str) (folders : list str)
| CannotCheckRelativePath (file : str)
| CannotCanonicalizePath (file : str) (error : ErrorKind).

(** [str::parse::<u64>] *)
Definition parse_u64 (s : str) : option N := parse_uint (2 ^ 64 - 1) s.

(** ** sed_command.rs *)

Definition parse_sed_command (sed_command : str) : result Error unit :=
  match strip_suffix (lit "p") sed_command with
  | Some stripped =>
      match split_once (ch ",") stripped with
      | Some (first, rest) =>
          match parse_u64 first, parse_u64 rest with
          | Some _, Some _ => Ok tt
          | _, _ => Err (SedCommandNotProvablySafe sed_command)
          end
      | None => Err (SedCommandNotProvablySafe sed_command)
      end
  | None => Err (SedCommandNotProvablySafe sed_command)
  end.

(** ** [ArgType::validate], [ArgType::might_write_file] *)

Definition validate (ty : ArgType) (value : str) : result Error unit :=
  match ty with
  | TLiteral literal_value =>
      if str_eqb value literal_value then Ok tt
      else Err (LiteralValueDidNotMatch literal_value value)
  | TReadableFile | TWriteableFile =>
      if str_eqb value [] then Err EmptyFileName else Ok tt
  | TOpaqueNonFile | TUnknown => Ok tt
  | TPositiveInteger =>
      match parse_u64 value with
      | Some n => if (n =? 0)%N then Err (InvalidPositiveInteger value) else Ok tt
      | None => Err (InvalidPositiveInteger value)
      end
  | TSedCommand => parse_sed_command value
  end.

Definition might_write_file (ty : ArgType) : bool :=
  match ty with
  | TWriteableFile | TUnknown => true
  | TLiteral _ | TOpaqueNonFile | TPositiveInteger | TReadableFile | TSedCommand => false
  end.

(** ** valid_exec.rs *)

Record MatchedArg := { arg_index : nat; arg_ty : ArgType; arg_value : str }.
Record MatchedOpt := { opt_name : str; opt_value : str; opt_ty : ArgType }.
Record MatchedFlag := { flag_name : str }.

Record ValidExec := {
  exec_program : str;
  exec_flags : list MatchedFlag;
  exec_opts : list MatchedOpt;
  exec_args : list MatchedArg;
  exec_system_path : list str;
}.

Definition new_matched_arg (index : nat) (ty : ArgType) (value : str) : result Error MatchedArg :=
  _ ← validate ty value;
  Ok {| arg_index := index; arg_ty := ty; arg_value := value |}.

Definition new_matched_opt (name value : str) (ty : ArgType) : result Error MatchedOpt :=
  _ ← validate ty value;
  Ok {| opt_name := name; opt_value := value; opt_ty := ty |}.

Definition might_write_files (e : ValidExec) : bool :=
  existsb (fun o => might_write_file (opt_ty o)) (exec_opts e)
  || existsb (fun a => might_write_file (arg_ty a)) (exec_args e).

(** ** Numbers *)

Lemma parse_u64_spec (s : str) (n : N) :
  parse_u64 s = Some n <->
  exists digits, (s = digits \/ s = lit "+" ++ digits) /\ digits <> [] /\
    Forall (fun c => is_ascii_digit c = true) digits /\ n = value_of 0 digits /\ (n < 2 ^ 64)%N.
Proof.
  unfold parse_u64. rewrite parse_uint_spec. setoid_rewrite N.le_lteq at 1.
  split; intros (d & ? & ? & ? & ? & ?); exists d; split_and!; try done; lia.
Qed.

Lemma validate_no_crash (ty : ArgType) (value : str) : no_crash (validate ty value).
Proof.
  destruct ty; simpl; unfold parse_sed_command; repeat case_match; auto with agere.
Qed.

End LegacySpec.

(** * The older policy engine, programs: src/execpolicy-legacy/src

    [arg_resolver.rs]: positional arguments against the patterns of a program, of which
    one may take any number of arguments; [program.rs]: the specification of a program
    and the check of a call. *)

Import LegacySpec.

Module LegacyProgram.

(** ** arg_resolver.rs *)

Record ParitionedArgs := {
  num_prefix_args : nat;
  num_suffix_args : nat;
  prefix_patterns : list ArgMatcher;
  suffix_patterns : list ArgMatcher;
  vararg_pattern : option ArgMatcher;
}.

Definition no_args : ParitionedArgs :=
  {| num_prefix_args := 0; num_suffix_args := 0; prefix_patterns := [];
     suffix_patterns := []; vararg_pattern := None |}.

Definition push_prefix (pattern : ArgMatcher) (n : nat) (p : ParitionedArgs) : ParitionedArgs :=
  {| num_prefix_args := num_prefix_args p + n; num_suffix_args := num_suffix_args p;
     prefix_patterns := prefix_patterns p ++ [pattern];
     suffix_patterns := suffix_patterns p; vararg_pattern := vararg_pattern p |}.

Definition push_suffix (pattern : ArgMatcher) (n : nat) (p : ParitionedArgs) : ParitionedArgs :=
  {| num_prefix_args := num_prefix_args p; num_suffix_args := num_suffix_args p + n;
     prefix_patterns := prefix_patterns p;
     suffix_patterns := suffix_patterns p ++ [pattern]; vararg_pattern := vararg_pattern p |}.

Definition set_vararg (pattern : ArgMatcher) (p : ParitionedArgs) : ParitionedArgs :=
  {| num_prefix_args := num_prefix_args p; num_suffix_args := num_suffix_args p;
     prefix_patterns := prefix_patterns p; suffix_patterns := suffix_patterns p;
     vararg_pattern := Some pattern |}.

Fixpoint partition_loop (program : str) (arg_patterns : list ArgMatcher) (in_prefix : bool)
    (p : ParitionedArgs) : result Error ParitionedArgs :=
  match arg_patterns with
  | [] => Ok p
  | pattern :: arg_patterns =>
      match is_exact (cardinality pattern) with
      | Some n =>
          partition_loop program arg_patterns in_prefix
            (if in_prefix then push_prefix pattern n p else push_suffix pattern n p)
      | None =>
          match vararg_pattern p with
          | None => partition_loop program arg_patterns false (set_vararg pattern p)
          | Some existing_pattern =>
              Err (MultipleVarargPatterns program existing_pattern pattern)
          end
      end
  end.

Definition partition_args (program : str) (arg_patterns : list ArgMatcher)
    : result Error ParitionedArgs :=
  partition_loop program arg_patterns true no_args.

Definition get_range_checked {T} (vec : list T) (range_start range_end : nat)
    : result Error (list T) :=
  if range_end <? range_start then Err (RangeStartExceedsEnd range_start range_end)
  else if length vec <? range_end then Err (RangeEndOutOfBounds range_end (length vec))
  else or_panic (slice range_start range_end vec).

(** The loops over a range of arguments that are all matched by one pattern. *)
Fixpoint match_range (pattern : ArgMatcher) (range : list PositionalArg)
    (matched_args : list MatchedArg) : result Error (list MatchedArg) :=
  match range with
  | [] => Ok matched_args
  | positional_arg :: range =>
      matched_arg ← new_matched_arg (index positional_arg) (arg_type pattern)
                      (pos_value positional_arg);
      match_range pattern range (matched_args ++ [matched_arg])
  end.

(** The loops over the patterns of the prefix and of the suffix. *)
Fixpoint match_patterns (patterns : list ArgMatcher) (range : list PositionalArg)
    (arg_index : nat) (matched_args : list MatchedArg)
    : result Error (nat * list MatchedArg) :=
  match patterns with
  | [] => Ok (arg_index, matched_args)
  | pattern :: patterns =>
      n ← ok_or (InternalInvariantViolation (lit "expected exact cardinality"))
            (is_exact (cardinality pattern));
      args ← or_panic (slice arg_index (arg_index + n) range);
      matched_args ← match_range pattern args matched_args;
      match_patterns patterns range (arg_index + n) matched_args
  end.

Definition match_vararg (program : str) (pattern : ArgMatcher) (vararg : list PositionalArg)
    (matched_args : list MatchedArg) : result Error (list MatchedArg) :=
  match cardinality pattern with
  | One => Err (InternalInvariantViolation
                  (lit "vararg pattern should not have cardinality of one"))
  | AtLeastOne =>
      match vararg with
      | [] => Err (VarargMatcherDidNotMatchAnything program pattern)
      | _ => match_range pattern vararg matched_args
      end
  | ZeroOrMore => match_range pattern vararg matched_args
  end.

(** What comes after the prefix: the arguments of the pattern for several, those of the
    suffix, and the check that none is left. *)
Definition resolve_rest (program : str) (args : list PositionalArg)
    (arg_patterns : list ArgMatcher) (p : ParitionedArgs) (prefix_arg_index : nat)
    (matched_args : list MatchedArg) : result Error (list MatchedArg) :=
  if length args <? num_suffix_args p then Err (NotEnoughArgs program args arg_patterns)
  else
    let initial_suffix_args_index := length args - num_suffix_args p in
    if initial_suffix_args_index <? prefix_arg_index then Err PrefixOverlapsSuffix
    else
      matched_args ←
        match vararg_pattern p with
        | Some pattern =>
            vararg ← get_range_checked args prefix_arg_index initial_suffix_args_index;
            match_vararg program pattern vararg matched_args
        | None => Ok matched_args
        end;
      suffix ← get_range_checked args initial_suffix_args_index (length args);
      '(_, matched_args) ← match_patterns (suffix_patterns p) suffix 0 matched_args;
      if length matched_args <? length args
      then extra_args ← get_range_checked args (length matched_args) (length args);
           Err (UnexpectedArguments program extra_args)
      else Ok matched_args.

Definition resolve_observed_args_with_patterns (program : str) (args : list PositionalArg)
    (arg_patterns : list ArgMatcher) : result Error (list MatchedArg) :=
  p ← partition_args program arg_patterns;
  prefix ← get_range_checked args 0 (num_prefix_args p);
  '(prefix_arg_index, matched_args) ← match_patterns (prefix_patterns p) prefix 0 [];
  resolve_rest program args arg_patterns p prefix_arg_index matched_args.

(** ** program.rs *)

Abbreviation names := (gset (list N)).

Record ProgramSpec := {
  program : str;
  system_path : list str;
  option_bundling : bool;
  combined_format : bool;
  allowed_options : gmap (list N) Opt;
  arg_patterns : list ArgMatcher;
  forbidden : option str;
  required_options : names;
  should_match : list (list str);
  should_not_match : list (list str);
}.

Definition new_spec (program : str) (system_path : list str)
    (option_bundling combined_format : bool) (allowed_options : gmap (list N) Opt)
    (arg_patterns : list ArgMatcher) (forbidden : option str)
    (should_match should_not_match : list (list str)) : ProgramSpec :=
  {| program := program; system_path := system_path; option_bundling := option_bundling;
     combined_format := combined_format; allowed_options := allowed_options;
     arg_patterns := arg_patterns; forbidden := forbidden;
     required_options := dom (filter (fun kv => required kv.2 = true) allowed_options);
     should_match := should_match; should_not_match := should_not_match |}.

Inductive Forbidden :=
| ForbiddenProgram (program : str) (exec_call : ExecCall)
| ForbiddenArg (arg : str) (exec_call : ExecCall)
| ForbiddenExec (exec : ValidExec).

Inductive MatchedExec :=
| Match (exec : ValidExec)
| MatchForbidden (cause : Forbidden) (reason : str).

(** The variables of the loop over the arguments of a call. *)
Record scan_state := {
  expecting_option_value : option (str * ArgType);
  args : list PositionalArg;
  matched_flags : list MatchedFlag;
  matched_opts : list MatchedOpt;
}.

Definition DASH : str := lit "-".

Definition scan_arg (spec : ProgramSpec) (index : nat) (arg : str) (st : scan_state)
    : result Error scan_state :=
  match expecting_option_value st with
  | Some (name, arg_type) =>
      if starts_with DASH arg
      then Err (OptionFollowedByOptionInsteadOfValue (program spec) name arg)
      else
        matched_opt ← new_matched_opt name arg arg_type;
        Ok {| expecting_option_value := None; args := args st;
              matched_flags := matched_flags st;
              matched_opts := matched_opts st ++ [matched_opt] |}
  | None =>
      if str_eqb arg (lit "--") then Err (DoubleDashNotSupportedYet (program spec))
      else if starts_with DASH arg then
        match allowed_options spec !! arg with
        | Some opt =>
            match meta opt with
            | Flag =>
                Ok {| expecting_option_value := None; args := args st;
                      matched_flags := matched_flags st ++ [{| flag_name := arg |}];
                      matched_opts := matched_opts st |}
            | OptValue arg_type =>
                Ok {| expecting_option_value := Some (arg, arg_type); args := args st;
                      matched_flags := matched_flags st; matched_opts := matched_opts st |}
            end
        | None => Err (UnknownOption (program spec) arg)
        end
      else
        Ok {| expecting_option_value := None;
              args := args st ++ [{| index := index; pos_value := arg |}];
              matched_flags := matched_flags st; matched_opts := matched_opts st |}
  end.

Fixpoint scan_args (spec : ProgramSpec) (index : nat) (call_args : list str) (st : scan_state)
    : result Error scan_state :=
  match call_args with
  | [] => Ok st
  | arg :: call_args => st ← scan_arg spec index arg st; scan_args spec (S index) call_args st
  end.

Definition start : scan_state :=
  {| expecting_option_value := None; args := []; matched_flags := []; matched_opts := [] |}.

Definition opt_names (opts : list MatchedOpt) : names := list_to_set (map opt_name opts).

Definition check (spec : ProgramSpec) (exec_call : ExecCall) : result Error MatchedExec :=
  st ← scan_args spec 0 (call_args exec_call) start;
  match expecting_option_value st with
  | Some (name, _) => Err (OptionMissingValue (program spec) name)
  | None =>
      matched_args ←
        resolve_observed_args_with_patterns (program spec) (args st) (arg_patterns spec);
      let matched_opt_names := opt_names (matched_opts st) in
      if bool_decide (required_options spec ⊆ matched_opt_names)
      then
        let exec := {| exec_program := program spec; exec_flags := matched_flags st;
                       exec_opts := matched_opts st; exec_args := matched_args;
                       exec_system_path := system_path spec |} in
        match forbidden spec with
        | Some reason => Ok (MatchForbidden (ForbiddenExec exec) reason)
        | None => Ok (Match exec)
        end
      else Err (MissingRequiredOptions (program spec)
                  (merge_sort str_le (elements (required_options spec ∖ matched_opt_names))))
  end.

Record PositiveExampleFailedCheck := {
  failed_program : str; failed_args : list str; failed_error : Error }.

Record NegativeExamplePassedCheck := { passed_program : str; passed_args : list str }.

Definition example_call (spec : ProgramSpec) (example : list str) : ExecCall :=
  {| call_program := program spec; call_args := example |}.

(** A panic would end the loop; [LegacyProgramFacts] shows that there is none. *)
Definition verify_should_match_list (spec : ProgramSpec) : list PositiveExampleFailedCheck :=
  omap (fun good => match check spec (example_call spec good) with
                    | Err error => Some {| failed_program := program spec; failed_args := good;
                                           failed_error := error |}
                    | _ => None
                    end) (should_match spec).

Definition verify_should_not_match_list (spec : ProgramSpec) : list NegativeExamplePassedCheck :=
  omap (fun bad => if is_ok (check spec (example_call spec bad))
                   then Some {| passed_program := program spec; passed_args := bad |}
                   else None) (should_not_match spec).

End LegacyProgram.
