(* ===== verification/LegacyProgramFacts.v ===== *)
(** * Facts about the programs of the older policy engine

    The resolver of positional arguments computes a declarative relation, [fits]: every
    pattern takes one argument, or the one pattern for several takes what is left. The
    check of a call reads its arguments by the relation [reads]. *)

From Stdlib Require Import Ascii String.
From S2P Require Import Prelude RustStr LegacySpec.
Import LegacySpec LegacyProgram.

Module LegacyProgramFacts.

(** ** What fits *)

#[export] Instance cardinality_eq_dec : EqDecision ArgMatcherCardinality.
Proof. solve_decision. Defined.

Definition valid_for (p : ArgMatcher) (a : PositionalArg) : Prop :=
  validate (arg_type p) (pos_value a) = Ok tt.

Definition matched (p : ArgMatcher) (a : PositionalArg) : MatchedArg :=
  {| arg_index := index a; arg_ty := arg_type p; arg_value := pos_value a |}.

Inductive fits : list ArgMatcher -> list PositionalArg -> list MatchedArg -> Prop :=
| fits_nil : fits [] [] []
| fits_one p ps a l ms :
    cardinality p = One -> valid_for p a -> fits ps l ms ->
    fits (p :: ps) (a :: l) (matched p a :: ms)
| fits_many p ps r l ms :
    cardinality p <> One -> (cardinality p = AtLeastOne -> r <> []) ->
    Forall (valid_for p) r -> fits ps l ms ->
    fits (p :: ps) (r ++ l) (map (matched p) r ++ ms).

Definition exact (ps : list ArgMatcher) : Prop := Forall (fun p => cardinality p = One) ps.

(** At most one pattern takes several arguments. *)
Definition one_vararg (ps : list ArgMatcher) : Prop :=
  length (filter (fun p => cardinality p <> One) ps) <= 1.

Lemma exact_filter (ps : list ArgMatcher) :
  length (filter (fun p => cardinality p <> One) ps) = 0 <-> exact ps.
Proof.
  unfold exact. induction ps as [|p ps IH]; [by split|]. rewrite Forall_cons.
  destruct (decide (cardinality p = One)) as [Hp|Hp].
  - rewrite filter_cons_False, IH by tauto. tauto.
  - rewrite filter_cons_True by done. split; [done|tauto].
Qed.

Lemma one_vararg_cons (p : ArgMatcher) (ps : list ArgMatcher) :
  one_vararg (p :: ps) <->
  (cardinality p = One /\ one_vararg ps) \/ (cardinality p <> One /\ exact ps).
Proof.
  unfold one_vararg. rewrite <- exact_filter. destruct (decide (cardinality p = One)) as [Hp|Hp].
  - rewrite filter_cons_False by tauto. tauto.
  - rewrite filter_cons_True by done. simpl.
    split; [intros; right; split; [done|lia]|intros [[]|[]]; [done|lia]].
Qed.

Lemma fits_exact_length (ps : list ArgMatcher) (l : list PositionalArg) (ms : list MatchedArg) :
  exact ps -> fits ps l ms -> length l = length ps.
Proof.
  intros He H. induction H as [| |p ps r l ms Hc]; apply Forall_cons in He as [? ?] || done;
    simpl; [by f_equal; auto|done].
Qed.

Lemma fits_length (ps : list ArgMatcher) (l : list PositionalArg) (ms : list MatchedArg) :
  fits ps l ms -> length ms = length l.
Proof.
  induction 1 as [| |p ps r l ms]; simpl; [done|by f_equal|].
  by rewrite !length_app, length_map, IHfits.
Qed.

(** The matches are determined by the patterns and the arguments. *)
Lemma fits_unique (ps : list ArgMatcher) (l : list PositionalArg) (ms ms' : list MatchedArg) :
  one_vararg ps -> fits ps l ms -> fits ps l ms' -> ms = ms'.
Proof.
  revert l ms ms'. induction ps as [|p ps IH]; intros l ms ms' Ho H H'.
  { inversion H; inversion H'; congruence. }
  apply one_vararg_cons in Ho as [[Hc Ho]|[Hc He]].
  - inversion H; inversion H'; simplify_eq. f_equal. by eapply IH.
  - inversion H as [| |? ? r1 l1 m1 _ _ _ Hr1]; inversion H' as [| |? ? r2 l2 m2 _ _ _ Hr2];
      simplify_eq. rename select (_ ++ _ = _ ++ _) into El.
    apply app_inj_2 in El as [-> ->]; [|by rewrite !(fits_exact_length ps _ _ He) by done].
    f_equal. eapply IH; [|done..]. unfold one_vararg. apply exact_filter in He. lia.
Qed.

Lemma fits_app (ps qs : list ArgMatcher) (l1 l2 : list PositionalArg) (m1 m2 : list MatchedArg) :
  fits ps l1 m1 -> fits qs l2 m2 -> fits (ps ++ qs) (l1 ++ l2) (m1 ++ m2).
Proof.
  induction 1; intros Hq; simpl; [done|constructor; auto|].
  rewrite <- !app_assoc. constructor; auto.
Qed.

Lemma fits_app_inv (ps qs : list ArgMatcher) (l : list PositionalArg) (m : list MatchedArg) :
  fits (ps ++ qs) l m ->
  exists l1 l2 m1 m2, l = l1 ++ l2 /\ m = m1 ++ m2 /\ fits ps l1 m1 /\ fits qs l2 m2.
Proof.
  revert l m. induction ps as [|p ps IH]; intros l m H; simpl in H.
  { exists [], l, [], m. by split_and!; [..|constructor|]. }
  inversion H as [|? ? a l' ms' Hc Hv H' |? ? r l' ms' Hc Hn Hv H']; subst;
    apply IH in H' as (l1 & l2 & m1 & m2 & -> & -> & H1 & H2).
  - exists (a :: l1), l2, (matched p a :: m1), m2. split_and!; [done..|by constructor|done].
  - exists (r ++ l1), l2, (map (matched p) r ++ m1), m2. rewrite !app_assoc.
    split_and!; [done..|by constructor|done].
Qed.

(** ** The loops of the resolver *)

(** The errors that arguments can cause; the others would be faults of the resolver. *)
Definition caused_by_args (e : Error) : Prop :=
  match e with
  | InternalInvariantViolation _ | RangeStartExceedsEnd _ _ => False
  | _ => True
  end.

Lemma validate_error (ty : ArgType) (v : str) (e : Error) :
  validate ty v = Err e -> caused_by_args e.
Proof.
  destruct ty; simpl; unfold parse_sed_command; repeat case_match; intros; by simplify_eq/=.
Qed.

Lemma validate_cases (ty : ArgType) (v : str) :
  validate ty v = Ok tt \/ exists e, validate ty v = Err e /\ caused_by_args e.
Proof.
  destruct (validate ty v) as [[]|e|c] eqn:E; [by left|right|by destruct (validate_no_crash ty v c)].
  eauto using validate_error.
Qed.

Lemma match_range_cases (p : ArgMatcher) (r : list PositionalArg) (acc : list MatchedArg) :
  (Forall (valid_for p) r /\ match_range p r acc = Ok (acc ++ map (matched p) r)) \/
  (~ Forall (valid_for p) r /\ exists e, match_range p r acc = Err e /\ caused_by_args e).
Proof.
  revert acc. induction r as [|a r IH]; intros acc; simpl.
  { left. by rewrite app_nil_r. }
  unfold new_matched_arg, valid_for. rewrite Forall_cons.
  destruct (validate_cases (arg_type p) (pos_value a)) as [E|(e & E & He)]; rewrite E; simpl.
  - destruct (IH (acc ++ [matched p a])) as [[Hf Hr]|[Hf Hr]].
    + left. split; [by split|]. unfold matched in Hr |- *. by rewrite Hr, <- app_assoc.
    + right. split; [by intros [_ ?]|done].
  - right. split; [by intros [? _]|]. eauto.
Qed.

Lemma match_patterns_cases (ps : list ArgMatcher) (range : list PositionalArg) (i : nat)
    (acc : list MatchedArg) :
  exact ps -> i + length ps = length range ->
  (exists ms, fits ps (drop i range) ms /\
     match_patterns ps range i acc = Ok (length range, acc ++ ms)) \/
  ((forall ms, ~ fits ps (drop i range) ms) /\
   exists e, match_patterns ps range i acc = Err e /\ caused_by_args e).
Proof.
  revert i acc. induction ps as [|p ps IH]; intros i acc He Hl; simpl in *.
  { left. exists []. rewrite Nat.add_0_r in Hl. subst i.
    rewrite drop_all, app_nil_r. split; [constructor|done]. }
  apply Forall_cons in He as [Hc He]. rewrite Hc. cbn [is_exact ok_or mbind result_bind].
  destruct (lookup_lt_is_Some_2 range i) as [a Ha]; [lia|].
  assert (slice i (i + 1) range = Some [a]) as ->.
  { rewrite slice_in_range by lia. f_equal. rewrite (drop_S _ a i Ha).
    by replace (i + 1 - i) with 1 by lia. }
  cbn [or_panic mbind result_bind]. rewrite (drop_S _ a i Ha).
  destruct (match_range_cases p [a] acc) as [[Hf Hr]|[Hf (e & Hr & He')]]; rewrite Hr; simpl.
  - destruct (IH (i + 1) (acc ++ [matched p a]) He) as [(ms & Hm & E)|(Hm & e & E & He')]; [lia|..];
      rewrite Nat.add_1_r in *; rewrite E.
    + left. exists (matched p a :: ms). rewrite <- app_assoc. split; [|done].
      apply Forall_cons in Hf as [Hf _]. by apply fits_one.
    + right. split; [|eauto]. intros ms H. inversion H; simplify_eq. by eapply Hm.
  - right. split; [|eauto]. intros ms H. inversion H; simplify_eq.
    apply Hf. by repeat constructor.
Qed.

(** ** Partitioning the patterns *)

Lemma is_exact_one (p : ArgMatcher) : cardinality p = One -> is_exact (cardinality p) = Some 1.
Proof. by intros ->. Qed.

Lemma is_exact_many (p : ArgMatcher) : cardinality p <> One -> is_exact (cardinality p) = None.
Proof. by destruct (cardinality p). Qed.

Lemma exact_cons (p : ArgMatcher) (ps : list ArgMatcher) :
  exact (p :: ps) <-> cardinality p = One /\ exact ps.
Proof. unfold exact. by rewrite Forall_cons. Qed.

Lemma partition_suffix (program : str) (ps : list ArgMatcher) (p : ParitionedArgs)
    (q : ArgMatcher) :
  vararg_pattern p = Some q ->
  (exact ps /\ partition_loop program ps false p =
     Ok {| num_prefix_args := num_prefix_args p; num_suffix_args := num_suffix_args p + length ps;
           prefix_patterns := prefix_patterns p; suffix_patterns := suffix_patterns p ++ ps;
           vararg_pattern := Some q |}) \/
  (~ exact ps /\ exists r, partition_loop program ps false p =
     Err (MultipleVarargPatterns program q r)).
Proof.
  revert p. induction ps as [|x ps IH]; intros p Hq; simpl.
  { left. split; [constructor|]. destruct p; simpl in *. by rewrite Hq, Nat.add_0_r, app_nil_r. }
  rewrite exact_cons. destruct (decide (cardinality x = One)) as [Hx|Hx].
  - rewrite is_exact_one by done. destruct (IH (push_suffix x 1 p) Hq) as [[He ->]|[He Hr]].
    + left. split; [done|]. simpl. by rewrite <- app_assoc, <- Nat.add_assoc.
    + right. split; [by intros [_ ?]|done].
  - rewrite is_exact_many, Hq by done. right. split; [by intros [? _]|eauto].
Qed.

(** A partition of the patterns: those in front, the one for several, those behind. *)
Definition parts (ps pre suf : list ArgMatcher) (v : option ArgMatcher) : Prop :=
  ps = pre ++ option_list v ++ suf /\ exact pre /\ exact suf /\
  match v with Some q => cardinality q <> One | None => suf = [] end.

Lemma partition_prefix (program : str) (ps : list ArgMatcher) (p : ParitionedArgs) :
  vararg_pattern p = None -> suffix_patterns p = [] -> num_suffix_args p = 0 ->
  (one_vararg ps /\ exists pre suf v, parts ps pre suf v /\
     partition_loop program ps true p =
     Ok {| num_prefix_args := num_prefix_args p + length pre; num_suffix_args := length suf;
           prefix_patterns := prefix_patterns p ++ pre; suffix_patterns := suf;
           vararg_pattern := v |}) \/
  (~ one_vararg ps /\ exists q r, partition_loop program ps true p =
     Err (MultipleVarargPatterns program q r)).
Proof.
  revert p. induction ps as [|x ps IH]; intros p Hv Hs Hn; simpl.
  { left. split; [by unfold one_vararg; simpl; lia|]. exists [], [], None.
    split; [split_and!; (done || constructor)|].
    destruct p; simpl in *. by rewrite Hv, Hs, Hn, Nat.add_0_r, app_nil_r. }
  rewrite one_vararg_cons. destruct (decide (cardinality x = One)) as [Hx|Hx].
  - rewrite is_exact_one by done.
    destruct (IH (push_prefix x 1 p) Hv Hs Hn) as [[Ho (pre & suf & v & (-> & He & Hse & Hc) & ->)]|[Ho Hr]].
    + left. split; [by left|]. exists (x :: pre), suf, v. simpl.
      rewrite <- app_assoc, <- Nat.add_assoc. split; [|done]. split_and!; [done|by constructor|done..].
    + right. split; [tauto|done].
  - rewrite is_exact_many, Hv by done.
    destruct (partition_suffix program ps (set_vararg x p) x eq_refl) as [[He ->]|[He (r & ->)]].
    + left. split; [by right|]. exists [], ps, (Some x). simpl. rewrite Hs, Hn, app_nil_r, Nat.add_0_r.
      split; [|done]. split_and!; [done|constructor|done..].
    + right. split; [tauto|eauto].
Qed.

(** ** The resolver *)

Lemma fits_vararg (q : ArgMatcher) (r : list PositionalArg) (ms : list MatchedArg) :
  cardinality q <> One ->
  fits [q] r ms <-> (cardinality q = AtLeastOne -> r <> []) /\ Forall (valid_for q) r /\
                   ms = map (matched q) r.
Proof.
  intros Hq. split.
  - intros H. inversion H as [| |? ? r' l ms' _ Hn Hf H']; [done|]. subst.
    inversion H'; subst. by rewrite !app_nil_r.
  - intros (Hn & Hf & ->). pose proof (fits_many q [] r [] [] Hq Hn Hf fits_nil) as H.
    by rewrite !app_nil_r in H.
Qed.

(** The arguments for the three parts. *)
Lemma fits_parts (ps pre suf : list ArgMatcher) (v : option ArgMatcher)
    (l : list PositionalArg) (ms : list MatchedArg) :
  parts ps pre suf v -> fits ps l ms ->
  exists A B C mA mB mC, l = A ++ B ++ C /\ ms = mA ++ mB ++ mC /\
    length A = length pre /\ length C = length suf /\
    fits pre A mA /\ fits (option_list v) B mB /\ fits suf C mC.
Proof.
  intros (-> & Hp & Hs & _) (A & l2 & mA & m2 & -> & -> & HA & H)%fits_app_inv.
  apply fits_app_inv in H as (B & C & mB & mC & -> & -> & HB & HC).
  exists A, B, C, mA, mB, mC. split_and!; eauto using fits_exact_length.
Qed.

Lemma range_checked {T} (A B C : list T) (i j : nat) :
  i = length A -> j = length A + length B -> get_range_checked (A ++ B ++ C) i j = Ok B.
Proof.
  intros -> ->. unfold get_range_checked. rewrite !length_app.
  destruct (Nat.ltb_spec (length A + length B) (length A)); [lia|].
  destruct (Nat.ltb_spec (length A + (length B + length C)) (length A + length B)); [lia|].
  rewrite slice_in_range by (rewrite ?length_app; lia). simpl.
  rewrite drop_app_length. by replace (length A + length B - length A) with (length B) by lia;
    rewrite take_app_length.
Qed.

Lemma match_vararg_cases (program : str) (q : ArgMatcher) (r : list PositionalArg)
    (acc : list MatchedArg) :
  cardinality q <> One ->
  (exists ms, fits [q] r ms /\ match_vararg program q r acc = Ok (acc ++ ms)) \/
  ((forall ms, ~ fits [q] r ms) /\
   exists e, match_vararg program q r acc = Err e /\ caused_by_args e).
Proof.
  intros Hq. unfold match_vararg.
  destruct (match_range_cases q r acc) as [[Hf Hr]|[Hf (e & Hr & He)]].
  - destruct (cardinality q) eqn:Ec; [done| |].
    + destruct r as [|a r].
      * right. split; [|eexists; split; [done|exact I]].
        intros ms H. apply fits_vararg in H as [Hn _]; [|congruence]. by apply Hn.
      * left. rewrite Hr. eexists. split; [|done]. apply fits_vararg; [congruence|]. by split_and!.
    + left. rewrite Hr. eexists. split; [|done]. apply fits_vararg; [congruence|].
      by rewrite Ec; split_and!.
  - right. split; [by intros ms (_ & ? & _)%fits_vararg|].
    destruct (cardinality q); [done| |eauto].
    destruct r; [eexists; split; [done|exact I]|eauto].
Qed.

(** The arguments [R] behind those of the prefix are split in two. *)
Definition rest_fits (v : option ArgMatcher) (suf : list ArgMatcher) (R : list PositionalArg)
    (ms : list MatchedArg) : Prop :=
  exists B C mB mC, R = B ++ C /\ ms = mB ++ mC /\ length C = length suf /\
    fits (option_list v) B mB /\ fits suf C mC.

Lemma suffix_cases (program : str) (suf : list ArgMatcher) (l C : list PositionalArg)
    (acc : list MatchedArg) :
  exact suf -> length C = length suf -> length l = length acc + length C ->
  let r :=
    '(_, matched_args) ← match_patterns suf C 0 acc;
    if length matched_args <? length l
    then extra_args ← get_range_checked l (length matched_args) (length l);
         Err (UnexpectedArguments program extra_args)
    else Ok matched_args in
  (exists ms, fits suf C ms /\ r = Ok (acc ++ ms)) \/
  ((forall ms, ~ fits suf C ms) /\ exists e, r = Err e /\ caused_by_args e).
Proof.
  intros Hs HC Hl. destruct (match_patterns_cases suf C 0 acc Hs) as [(ms & Hm & ->)|(Hm & e & -> & He)];
    [simpl; lia| |]; rewrite drop_0 in Hm; simpl; [left|right; eauto].
  exists ms. split; [done|]. apply fits_length in Hm as Hlen. rewrite length_app.
  by destruct (Nat.ltb_spec (length acc + length ms) (length l)); [lia|].
Qed.

Lemma resolve_rest_cases (program : str) (ps pre suf : list ArgMatcher) (v : option ArgMatcher)
    (A R : list PositionalArg) (acc : list MatchedArg) :
  exact suf -> match v with Some q => cardinality q <> One | None => suf = [] end ->
  length acc = length A ->
  let r := resolve_rest program (A ++ R) ps
             {| num_prefix_args := length pre; num_suffix_args := length suf;
                prefix_patterns := pre; suffix_patterns := suf; vararg_pattern := v |}
             (length A) acc in
  (exists ms, rest_fits v suf R ms /\ r = Ok (acc ++ ms)) \/
  ((forall ms, ~ rest_fits v suf R ms) /\ exists e, r = Err e /\ caused_by_args e).
Proof.
  intros Hs Hv Ha. unfold resolve_rest.
  cbn [num_suffix_args suffix_patterns vararg_pattern]. rewrite length_app.
  assert (length R < length suf -> forall ms, ~ rest_fits v suf R ms) as Hshort.
  { intros Hl ms (B & C & ? & ? & -> & _ & HC & _). rewrite length_app in Hl. lia. }
  destruct (Nat.ltb_spec (length A + length R) (length suf)) as [Hl|Hl];
    [right; split; [by apply Hshort; lia|by eexists]|].
  destruct (Nat.ltb_spec (length A + length R - length suf) (length A)) as [Hl'|Hl'];
    [right; split; [by apply Hshort; lia|by eexists]|].
  assert (exists B C, R = B ++ C /\ length C = length suf) as (B & C & -> & HC).
  { exists (take (length R - length suf) R), (drop (length R - length suf) R).
    rewrite take_drop, length_drop. split; [done|lia]. }
  assert (forall ms, rest_fits v suf (B ++ C) ms <->
            exists mB mC, ms = mB ++ mC /\ fits (option_list v) B mB /\ fits suf C mC) as Hfit.
  { intros ms. split; [|intros (mB & mC & -> & HB & Hm); by exists B, C, mB, mC].
    intros (B' & C' & mB & mC & E & -> & HC' & HB & Hm). exists mB, mC.
    apply app_inj_2 in E as [-> ->]; [done|congruence]. }
  clear Hl Hl' Hshort. rewrite length_app.
  assert (length A + (length B + length C) - length suf = length A + length B) as -> by lia.
  pose proof (range_checked (A ++ B) C [] _ _ eq_refl eq_refl) as Hrc.
  rewrite app_nil_r, length_app, <- app_assoc, <- Nat.add_assoc in Hrc. rewrite Hrc.
  destruct v as [q|].
  - rewrite range_checked by done. cbn [mbind result_bind].
    destruct (match_vararg_cases program q B acc Hv) as [(mB & HB & ->)|(HB & e & -> & He)].
    + apply fits_length in HB as Hlen.
      destruct (suffix_cases program suf (A ++ B ++ C) C (acc ++ mB) Hs HC) as [(mC & Hm & E)|(Hm & e & E & He)];
        [rewrite !length_app; lia| |]; rewrite !length_app in E; cbn [mbind result_bind] in *; rewrite E.
      * left. exists (mB ++ mC). rewrite Hfit, app_assoc. split; [by exists mB, mC|done].
      * right. split; [|eauto]. intros ms (? & mC & _ & _ & ?)%Hfit. by eapply Hm.
    + right. split; [|eauto]. intros ms (mB & ? & _ & ? & _)%Hfit. by eapply HB.
  - subst suf. apply nil_length_inv in HC as ->. cbn [mbind result_bind].
    destruct B as [|b B].
    + left. exists []. rewrite Hfit, (app_nil_r acc). split.
      { exists [], []. split_and!; [done|exact fits_nil|exact fits_nil]. }
      simpl. by destruct (Nat.ltb_spec (length acc) (length A + 0)); [lia|].
    + right. split; [by intros ms (mB & mC & _ & HB & _)%Hfit; inversion HB|]. simpl.
      destruct (Nat.ltb_spec (length acc) (length A + S (length B + 0))); [|lia].
      pose proof (range_checked A (b :: B) [] (length acc)
        (length A + S (length B + 0)) Ha ltac:(simpl; lia)) as Hx.
      simpl in Hx. rewrite Hx. by eexists.
Qed.

(** The resolver decides whether the arguments fit. *)
Lemma resolve_cases (program : str) (l : list PositionalArg) (ps : list ArgMatcher) :
  (one_vararg ps /\ exists ms, fits ps l ms /\
     resolve_observed_args_with_patterns program l ps = Ok ms) \/
  (~ (one_vararg ps /\ exists ms, fits ps l ms) /\
   exists e, resolve_observed_args_with_patterns program l ps = Err e /\ caused_by_args e).
Proof.
  unfold resolve_observed_args_with_patterns, partition_args.
  destruct (partition_prefix program ps no_args eq_refl eq_refl eq_refl)
    as [[Ho (pre & suf & v & Hp & ->)]|[Ho (q & r & ->)]]; [|right; split; [tauto|]; by eexists].
  cbn [num_prefix_args num_suffix_args prefix_patterns suffix_patterns vararg_pattern no_args
       mbind result_bind app Nat.add].
  assert (forall A R, l = A ++ R -> length A = length pre ->
    forall ms, fits ps l ms <-> exists mA mR, ms = mA ++ mR /\ fits pre A mA /\ rest_fits v suf R mR)
    as Hfit.
  { intros A R -> HA ms. split.
    - intros (A' & B & C & mA & mB & mC & E & -> & HA' & HC & HfA & HfB & HfC)%(fits_parts _ _ _ _ _ _ Hp).
      apply app_inj_1 in E as [-> ->]; [|congruence]. exists mA, (mB ++ mC).
      split_and!; [done..|]. by exists B, C, mB, mC.
    - intros (mA & mR & -> & HfA & B & C & mB & mC & -> & -> & HC & HfB & HfC).
      destruct Hp as (-> & _). by repeat apply fits_app. }
  destruct (decide (length l < length pre)) as [Hlt|Hge].
  { right. split.
    - intros [_ [ms (A & B & C & ? & ? & ? & -> & _ & HA & _)%(fits_parts _ _ _ _ _ _ Hp)]].
      rewrite length_app in Hlt. lia.
    - unfold get_range_checked. simpl. destruct (Nat.ltb_spec (length l) (length pre)); [|lia].
      by eexists. }
  specialize (Hfit (take (length pre) l) (drop (length pre) l)).
  rewrite take_drop, length_take in Hfit. specialize (Hfit eq_refl ltac:(lia)).
  set (A := take (length pre) l) in *. set (R := drop (length pre) l) in *.
  assert (length A = length pre) as HA by (subst A; rewrite length_take; lia).
  assert (l = A ++ R) as El by (subst A R; by rewrite take_drop).
  clearbody A R. subst l.
  rewrite (range_checked [] A R) by (simpl; lia).
  destruct Hp as (_ & Hpre & Hsuf & Hv). cbn [mbind result_bind].
  destruct (match_patterns_cases pre A 0 [] Hpre) as [(mA & HmA & ->)|(HmA & e & -> & He)]; [done|..];
    rewrite drop_0 in HmA; cbn [mbind result_bind app].
  2: { right. split; [|eauto]. intros (_ & ms & (mA & ? & _ & ? & _)%Hfit). by eapply HmA. }
  apply fits_length in HmA as Hlen.
  destruct (resolve_rest_cases program ps pre suf v A R mA Hsuf Hv Hlen)
    as [(mR & HR & ->)|(HR & e & -> & He)].
  - left. split; [done|]. exists (mA ++ mR). rewrite Hfit. split; [by exists mA, mR|done].
  - right. split; [|eauto]. intros (_ & ms & (? & mR & _ & _ & ?)%Hfit). by eapply HR.
Qed.

(** Positional arguments are resolved as the patterns say, and completely: the
    result is [Ok] exactly when at most one pattern takes several arguments and the
    arguments, each with a valid value, can be given out to the patterns in order with
    none left; the matches then carry the index, the type and the value of each. In
    every other case the error is one that the arguments or the patterns cause. *)
Theorem resolve_fits (program : str) (l : list PositionalArg) (ps : list ArgMatcher) :
  (forall ms, resolve_observed_args_with_patterns program l ps = Ok ms <->
     one_vararg ps /\ fits ps l ms) /\
  (is_ok (resolve_observed_args_with_patterns program l ps) = true \/
   exists e, resolve_observed_args_with_patterns program l ps = Err e /\ caused_by_args e).
Proof.
  destruct (resolve_cases program l ps) as [(Ho & ms & Hm & ->)|(Hn & e & -> & He)].
  - split; [|by left]. intros ms'. split; [intros ?; by simplify_eq|].
    intros [_ Hm']. f_equal. by eapply fits_unique.
  - split; [|eauto]. intros ms. split; [done|]. intros [Ho Hm]. destruct Hn; eauto.
Qed.

(** ** Reading the arguments of a call *)

Inductive reads (options : gmap (list N) Opt)
    : nat -> list str -> list MatchedFlag -> list MatchedOpt -> list PositionalArg -> Prop :=
| reads_nil i : reads options i [] [] [] []
| reads_flag i a o l fs os ps :
    a <> lit "--" -> starts_with DASH a = true -> options !! a = Some o -> meta o = Flag ->
    reads options (S i) l fs os ps ->
    reads options i (a :: l) ({| flag_name := a |} :: fs) os ps
| reads_opt i a o ty v l fs os ps :
    a <> lit "--" -> starts_with DASH a = true -> options !! a = Some o ->
    meta o = OptValue ty -> starts_with DASH v = false -> validate ty v = Ok tt ->
    reads options (S (S i)) l fs os ps ->
    reads options i (a :: v :: l) fs ({| opt_name := a; opt_value := v; opt_ty := ty |} :: os) ps
| reads_positional i a l fs os ps :
    starts_with DASH a = false -> reads options (S i) l fs os ps ->
    reads options i (a :: l) fs os ({| index := i; pos_value := a |} :: ps).

Lemma reads_unique options i l fs os ps fs' os' ps' :
  reads options i l fs os ps -> reads options i l fs' os' ps' ->
  fs = fs' /\ os = os' /\ ps = ps'.
Proof.
  intros H. revert fs' os' ps'. induction H; intros fs' os' ps' H'; inversion H'; simplify_eq;
    try congruence; try done;
    repeat match goal with R : reads _ _ _ _ _ _ |- _ => apply IHreads in R as (? & ? & ?) end;
    subst; split_and!; congruence.
Qed.

Lemma validate_opt (name v : str) (ty : ArgType) :
  (validate ty v = Ok tt /\
   new_matched_opt name v ty = Ok {| opt_name := name; opt_value := v; opt_ty := ty |}) \/
  (validate ty v <> Ok tt /\ exists e, new_matched_opt name v ty = Err e).
Proof.
  unfold new_matched_opt. destruct (validate_cases ty v) as [E|(e & E & _)]; rewrite E; simpl;
    [by left|right; eauto].
Qed.

Definition read_state (fs : list MatchedFlag) (os : list MatchedOpt) (ps : list PositionalArg)
    (st : scan_state) : scan_state :=
  {| expecting_option_value := None; args := args st ++ ps;
     matched_flags := matched_flags st ++ fs; matched_opts := matched_opts st ++ os |}.

(** The scan succeeds with no option left open exactly when the arguments read. *)
Definition scan_result (options : gmap (list N) Opt) (i : nat) (l : list str) (st : scan_state)
    (r : result Error scan_state) : Prop :=
  (exists fs os ps, reads options i l fs os ps /\ r = Ok (read_state fs os ps st)) \/
  ((forall fs os ps, ~ reads options i l fs os ps) /\
   ((exists e, r = Err e) \/
    (exists st' x, r = Ok st' /\ expecting_option_value st' = Some x))).

Lemma scan_result_fail options i l st (r : result Error scan_state) :
  (forall fs os ps, ~ reads options i l fs os ps) -> (exists e, r = Err e) ->
  scan_result options i l st r.
Proof. right. auto. Qed.

(** One step of reading. *)
Lemma scan_result_step options i j l l' st fs0 os0 ps0 (r : result Error scan_state) :
  scan_result options j l (read_state fs0 os0 ps0 st) r ->
  (forall fs os ps, reads options i l' fs os ps <-> exists fs1 os1 ps1,
     fs = fs0 ++ fs1 /\ os = os0 ++ os1 /\ ps = ps0 ++ ps1 /\ reads options j l fs1 os1 ps1) ->
  scan_result options i l' st r.
Proof.
  intros [(fs & os & ps & H & ->)|[H Hr]] Hiff; [left|right].
  - exists (fs0 ++ fs), (os0 ++ os), (ps0 ++ ps). split; [apply Hiff; naive_solver|].
    unfold read_state. simpl. by rewrite !app_assoc.
  - split; [|done]. intros fs os ps (? & ? & ? & _ & _ & _ & ?)%Hiff. by eapply H.
Qed.

Ltac read_step H :=
  inversion H; simplify_eq; try congruence;
  try match goal with
      | A : meta ?o = OptValue ?x, B : meta ?o = OptValue ?y |- _ =>
          assert (x = y) by congruence; subst
      end;
  eexists _, _, _; split_and!; try reflexivity; eassumption.

Lemma dashes : starts_with DASH (lit "--") = true.
Proof. reflexivity. Qed.

Lemma scan_cases (spec : ProgramSpec) (i : nat) (l : list str) (st : scan_state) :
  expecting_option_value st = None ->
  scan_result (allowed_options spec) i l st (scan_args spec i l st).
Proof.
  remember (length l) as n eqn:Hn. assert (length l <= n) as Hl by lia. clear Hn.
  revert i l st Hl. induction n as [|n IH]; intros i [|a l] st Hl Hst; simpl in Hl; try lia.
  1-2: left; exists [], [], []; split; [constructor|]; unfold read_state;
       rewrite <- Hst at 1; rewrite !app_nil_r; by destruct st.
  cbn [scan_args]. unfold scan_arg at 1. rewrite Hst.
  destruct (str_eqb a (lit "--")) eqn:Ea.
  { apply str_eqb_eq in Ea. apply scan_result_fail; [|by eexists].
    intros fs os ps H. pose proof dashes. inversion H; congruence. }
  apply str_eqb_neq in Ea. destruct (starts_with DASH a) eqn:Ed.
  2: { apply (scan_result_step _ i (S i) l _ st [] [] [{| index := i; pos_value := a |}]).
       - cbn [mbind result_bind]. unfold read_state. rewrite !app_nil_r. apply IH; [lia|done].
       - intros fs os ps. split.
         + intros H. read_step H.
         + intros (fs1 & os1 & ps1 & -> & -> & -> & H). by apply reads_positional. }
  destruct (allowed_options spec !! a) as [o|] eqn:Eo.
  2: { apply scan_result_fail; [|by eexists]. intros fs os ps H. inversion H; congruence. }
  destruct (meta o) as [|ty] eqn:Em.
  { apply (scan_result_step _ i (S i) l _ st [{| flag_name := a |}] [] []).
    - cbn [mbind result_bind]. unfold read_state. rewrite !app_nil_r. apply IH; [lia|done].
    - intros fs os ps. split.
      + intros H. read_step H.
      + intros (fs1 & os1 & ps1 & -> & -> & -> & H). by eapply reads_flag. }
  cbn [mbind result_bind]. destruct l as [|v l].
  { right. split; [intros fs os ps H; inversion H; congruence|]. right. by eexists _, _. }
  cbn [scan_args]. unfold scan_arg at 1. cbn [expecting_option_value].
  destruct (starts_with DASH v) eqn:Ev.
  { apply scan_result_fail; [|by eexists]. intros fs os ps H. inversion H; congruence. }
  destruct (validate_opt a v ty) as [[Hv ->]|[Hv (e & ->)]].
  2: { apply scan_result_fail; [|by eexists]. intros fs os ps H. inversion H; congruence. }
  apply (scan_result_step _ i (S (S i)) l _ st []
           [{| opt_name := a; opt_value := v; opt_ty := ty |}] []).
  - cbn [mbind result_bind]. unfold read_state. rewrite !app_nil_r. apply IH; [simpl in *; lia|done].
  - intros fs os ps. split.
    + intros H. read_step H.
    + intros (fs1 & os1 & ps1 & -> & -> & -> & H). by eapply reads_opt.
Qed.

(** ** The check of a call *)

Definition exec_of (spec : ProgramSpec) (fs : list MatchedFlag) (os : list MatchedOpt)
    (ms : list MatchedArg) : ValidExec :=
  {| exec_program := program spec; exec_flags := fs; exec_opts := os; exec_args := ms;
     exec_system_path := system_path spec |}.

Definition verdict_of (spec : ProgramSpec) (exec : ValidExec) : MatchedExec :=
  match forbidden spec with
  | Some reason => MatchForbidden (ForbiddenExec exec) reason
  | None => Match exec
  end.

(** A call is accepted by a specification, with this record of its arguments. *)
Definition accepts (spec : ProgramSpec) (l : list str) (exec : ValidExec) : Prop :=
  exists fs os ps ms, reads (allowed_options spec) 0 l fs os ps /\
    one_vararg (arg_patterns spec) /\ fits (arg_patterns spec) ps ms /\
    required_options spec ⊆ opt_names os /\ exec = exec_of spec fs os ms.

Lemma check_cases (spec : ProgramSpec) (call : ExecCall) :
  (exists exec, accepts spec (call_args call) exec /\
     check spec call = Ok (verdict_of spec exec)) \/
  ((forall exec, ~ accepts spec (call_args call) exec) /\ exists e, check spec call = Err e).
Proof.
  unfold check.
  destruct (scan_cases spec 0 (call_args call) start eq_refl) as
    [(fs & os & ps & Hr & ->)|[Hr Hst]].
  2: { right. split; [intros exec (fs & os & ps & ms & H & _); by eapply Hr|].
       destruct Hst as [(e & ->)|(st' & [nm ty] & -> & Hx)]; [by eexists|].
       cbn [mbind result_bind]. rewrite Hx. by eexists. }
  cbn [mbind result_bind]. unfold read_state. cbn [expecting_option_value args matched_opts
    matched_flags start app].
  destruct (resolve_cases (program spec) ps (arg_patterns spec))
    as [(Ho & ms & Hm & ->)|(Hn & e & -> & He)]; cbn [mbind result_bind].
  2: { right. split; [|by eexists]. intros exec (fs' & os' & ps' & ms & H & Ho & Hf & _).
       destruct (reads_unique _ _ _ _ _ _ _ _ _ Hr H) as (-> & -> & ->). apply Hn. eauto. }
  case_bool_decide as Hreq.
  - left. exists (exec_of spec fs os ms). split; [by exists fs, os, ps, ms|].
    unfold verdict_of. by destruct (forbidden spec).
  - right. split; [|by eexists]. intros exec (fs' & os' & ps' & ms' & H & _ & _ & Hr' & _).
    by destruct (reads_unique _ _ _ _ _ _ _ _ _ Hr H) as (-> & -> & ->).
Qed.

Lemma accepts_unique (spec : ProgramSpec) (l : list str) (e e' : ValidExec) :
  accepts spec l e -> accepts spec l e' -> e = e'.
Proof.
  intros (fs & os & ps & ms & H & Ho & Hf & _ & ->) (fs' & os' & ps' & ms' & H' & _ & Hf' & _ & ->).
  destruct (reads_unique _ _ _ _ _ _ _ _ _ H H') as (-> & -> & ->).
  by rewrite (fits_unique _ _ _ _ Ho Hf Hf').
Qed.

(** A specification accepts a call exactly when its arguments read, one after the
    other, as declared flags, declared options each with a valid value, and positional
    arguments that fit the patterns, with every required option present; the record in
    the answer is that reading, so no argument is skipped. The check always answers. *)
Theorem check_accepts (spec : ProgramSpec) (call : ExecCall) :
  (forall m, check spec call = Ok m <->
     exists exec, accepts spec (call_args call) exec /\ m = verdict_of spec exec) /\
  no_crash (check spec call).
Proof.
  destruct (check_cases spec call) as [(exec & Ha & ->)|[Hn (e & ->)]]; split; auto with agere.
  - intros m. split; [intros ?; simplify_eq; eauto|]. intros (exec' & Ha' & ->).
    by rewrite (accepts_unique _ _ _ _ Ha Ha').
  - intros m. split; [done|]. by intros (exec & ?%Hn & _).
Qed.

End LegacyProgramFacts.
