(* ===== verification/LegacyPolicy.v ===== *)
(** * The older policy engine, policies: src/execpolicy-legacy/src

    [policy.rs]: what is forbidden outright, and the specifications of a program in
    turn; [policy_parser.rs]: the functions that a policy file calls;
    [execv_checker.rs]: the paths of an accepted call; [main.rs]: the verdict of the
    command line. The crate [regex_lite] is a parameter: making a regular expression,
    which may fail, matching, and escaping. *)

From Stdlib Require Import Ascii String.
From S2P Require Import Prelude RustStr AbsPath FileSystem ExecRule LegacySpec ExecPolicyFacts.
From S2P Require Import LegacyProgramFacts.
Import AbsPath ExecPolicy LegacySpec LegacyProgram.

Module LegacyPolicy.

Section Engine.
Context {Regex : Type}.
Context (regex_new : str -> result str Regex) (regex_is_match : Regex -> str -> bool)
        (regex_escape : str -> str).

(** ** policy.rs *)

Record ForbiddenProgramRegex := { regex : Regex; reason : str }.

Record Policy := {
  programs : multimap ProgramSpec;
  forbidden_program_regexes : list ForbiddenProgramRegex;
  forbidden_substrings_pattern : option Regex;
}.

Definition substrings_pattern (forbidden_substrings : list str) : str :=
  lit "(" ++ join (lit "|") (map regex_escape forbidden_substrings) ++ lit ")".

Definition new (programs : multimap ProgramSpec)
    (forbidden_program_regexes : list ForbiddenProgramRegex)
    (forbidden_substrings : list str) : result str Policy :=
  forbidden_substrings_pattern ←
    (if bool_decide (forbidden_substrings = []) then Ok None
     else r ← regex_new (substrings_pattern forbidden_substrings); Ok (Some r));
  Ok {| programs := programs; forbidden_program_regexes := forbidden_program_regexes;
        forbidden_substrings_pattern := forbidden_substrings_pattern |}.

(** The loops of [check]: the first regular expression that matches the program, and
    the first argument that the pattern matches. *)
Fixpoint forbidden_program (program : str) (regexes : list ForbiddenProgramRegex)
    : option str :=
  match regexes with
  | [] => None
  | r :: regexes => if regex_is_match (regex r) program then Some (reason r)
                    else forbidden_program program regexes
  end.

Fixpoint forbidden_arg (pattern : option Regex) (args : list str) : option str :=
  match args with
  | [] => None
  | arg :: args =>
      if match pattern with Some r => regex_is_match r arg | None => false end
      then Some arg else forbidden_arg pattern args
  end.

(** The loop over the specifications: the first that accepts, or the last error. *)
Fixpoint first_match (exec_call : ExecCall) (specs : list ProgramSpec)
    (last_err : result Error MatchedExec) : result Error MatchedExec :=
  match specs with
  | [] => last_err
  | spec :: specs =>
      match check spec exec_call with
      | Ok matched_exec => Ok matched_exec
      | Err err => first_match exec_call specs (Err err)
      | Crash c => Crash c
      end
  end.

Definition check_policy (policy : Policy) (exec_call : ExecCall) : result Error MatchedExec :=
  match forbidden_program (call_program exec_call) (forbidden_program_regexes policy) with
  | Some reason =>
      Ok (MatchForbidden (ForbiddenProgram (call_program exec_call) exec_call) reason)
  | None =>
      match forbidden_arg (forbidden_substrings_pattern policy) (call_args exec_call) with
      | Some arg =>
          Ok (MatchForbidden (ForbiddenArg arg exec_call)
                (lit "arg `" ++ arg ++ lit "` contains forbidden substring"))
      | None =>
          first_match exec_call
            (match get_vec (programs policy) (call_program exec_call) with
             | Some spec_list => spec_list
             | None => []
             end)
            (Err (NoSpecForProgram (call_program exec_call)))
      end
  end.

(** [MultiMap::flat_iter], in an order of the programs that is not specified. *)
Definition all_specs (policy : Policy) : list ProgramSpec :=
  map_to_list (programs policy) ≫= snd.

Definition check_each_good_list_individually (policy : Policy)
    : list PositiveExampleFailedCheck :=
  all_specs policy ≫= verify_should_match_list.

Definition check_each_bad_list_individually (policy : Policy)
    : list NegativeExamplePassedCheck :=
  all_specs policy ≫= verify_should_not_match_list.

(** ** policy_parser.rs *)

Record PolicyBuilder := {
  b_programs : multimap ProgramSpec;
  b_forbidden_program_regexes : list ForbiddenProgramRegex;
  b_forbidden_substrings : list str;
}.

Definition new_builder : PolicyBuilder :=
  {| b_programs := ∅; b_forbidden_program_regexes := []; b_forbidden_substrings := [] |}.

Definition build (b : PolicyBuilder) : result str Policy :=
  new (b_programs b) (b_forbidden_program_regexes b) (b_forbidden_substrings b).

Definition add_program_spec (spec : ProgramSpec) (b : PolicyBuilder) : PolicyBuilder :=
  {| b_programs := mm_insert (program spec) spec (b_programs b);
     b_forbidden_program_regexes := b_forbidden_program_regexes b;
     b_forbidden_substrings := b_forbidden_substrings b |}.

Definition add_forbidden_substrings (substrings : list str) (b : PolicyBuilder)
    : PolicyBuilder :=
  {| b_programs := b_programs b;
     b_forbidden_program_regexes := b_forbidden_program_regexes b;
     b_forbidden_substrings := b_forbidden_substrings b ++ substrings |}.

Definition add_forbidden_program_regex (r : Regex) (why : str) (b : PolicyBuilder)
    : PolicyBuilder :=
  {| b_programs := b_programs b;
     b_forbidden_program_regexes :=
       b_forbidden_program_regexes b ++ [{| regex := r; reason := why |}];
     b_forbidden_substrings := b_forbidden_substrings b |}.

(** The values of options, which the functions [opt] and [flag] make. *)
Definition opt_builtin (name : str) (ty : ArgMatcher) (required : option bool) : Opt :=
  {| opt := name; meta := OptValue (arg_type ty); required := default false required |}.

Definition flag_builtin (name : str) : Opt :=
  {| opt := name; meta := Flag; required := false |}.

(** The calls of a policy file, with their arguments unpacked. *)
Inductive Call :=
| DefineProgram (program : str) (system_path : option (list str))
    (option_bundling combined_format : option bool) (options : option (list Opt))
    (args : option (list ArgMatcher)) (forbidden : option str)
    (should_match should_not_match : option (list (list str)))
| ForbidSubstrings (strings : list str)
| ForbidProgramRegex (regex reason : str).

(** A second option of the same name is an error. *)
Fixpoint insert_options (options : list Opt) (allowed_options : gmap (list N) Opt)
    : result str (gmap (list N) Opt) :=
  match options with
  | [] => Ok allowed_options
  | o :: options =>
      match allowed_options !! opt o with
      | Some _ => Err (lit "duplicate flag: " ++ opt o)
      | None => insert_options options (<[opt o := o]> allowed_options)
      end
  end.

Definition run_call (call : Call) (b : PolicyBuilder) : result str PolicyBuilder :=
  match call with
  | DefineProgram program system_path option_bundling combined_format options args
      forbidden should_match should_not_match =>
      allowed_options ← insert_options (default [] options) ∅;
      Ok (add_program_spec
            (new_spec program (default [] system_path) (default false option_bundling)
               (default false combined_format) allowed_options (default [] args) forbidden
               (default [] should_match) (default [] should_not_match)) b)
  | ForbidSubstrings strings => Ok (add_forbidden_substrings strings b)
  | ForbidProgramRegex regex reason =>
      compiled_regex ← regex_new regex;
      Ok (add_forbidden_program_regex compiled_regex reason b)
  end.

(** The Starlark interpreter: a syntax error, or the calls that the file makes, and the
    error it fails with after them, if it does. *)
Context (starlark : str -> str -> str + (list Call * option str)).

Fixpoint run_calls (calls : list Call) (failure : option str) (b : PolicyBuilder)
    : result str PolicyBuilder :=
  match calls with
  | [] => match failure with None => Ok b | Some e => Err e end
  | call :: calls => b ← run_call call b; run_calls calls failure b
  end.

Definition parse (policy_source unparsed_policy : str) : result str Policy :=
  match starlark policy_source unparsed_policy with
  | inl e => Err e
  | inr (calls, failure) => b ← run_calls calls failure new_builder; build b
  end.

(** ** execv_checker.rs *)

(** The crate [path_absolutize], and the metadata of a file: whether it is a regular
    file, and its mode. *)
Context (absolutize : str -> result ErrorKind str)
        (absolutize_from : str -> str -> result ErrorKind str)
        (metadata : str -> option (bool * N)).

Definition check_file_in_folders (file : str) (folders : list str) (error : Error)
    : result Error unit :=
  if existsb (path_starts_with file) folders then Ok tt else Err error.

Definition ensure_absolute_path (path : str) (cwd : option str) : result Error str :=
  let result_of r := map_err (fun error => CannotCanonicalizePath path error) r in
  if negb (is_absolute path) then
    match cwd with
    | Some cwd => result_of (absolutize_from path cwd)
    | None => Err (CannotCheckRelativePath path)
    end
  else result_of (absolutize path).

Definition is_executable_file (path : str) : bool :=
  match metadata path with
  | Some (is_file, mode) => is_file && negb (N.land mode 73 =? 0)%N
  | None => false
  end.

Definition check_value (cwd : option str) (readable_folders writeable_folders : list str)
    (arg : ArgType * str) : result Error unit :=
  let '(ty, value) := arg in
  match ty with
  | TReadableFile =>
      readable_file ← ensure_absolute_path value cwd;
      check_file_in_folders readable_file readable_folders
        (ReadablePathNotInReadableFolders readable_file readable_folders)
  | TWriteableFile =>
      writeable_file ← ensure_absolute_path value cwd;
      check_file_in_folders writeable_file writeable_folders
        (WriteablePathNotInWriteableFolders writeable_file writeable_folders)
  | TOpaqueNonFile | TUnknown | TPositiveInteger | TSedCommand | TLiteral _ => Ok tt
  end.

(** The values of a call, the positional ones first. *)
Definition typed_values (e : ValidExec) : list (ArgType * str) :=
  map (fun a => (arg_ty a, arg_value a)) (exec_args e)
  ++ map (fun o => (opt_ty o, opt_value o)) (exec_opts e).

Fixpoint find_executable (program : str) (system_path : list str) : str :=
  match system_path with
  | [] => program
  | path :: system_path =>
      if is_executable_file path then path else find_executable program system_path
  end.

Definition check_exec (valid_exec : ValidExec) (cwd : option str)
    (readable_folders writeable_folders : list str) : result Error str :=
  _ ← collect (check_value cwd readable_folders writeable_folders) (typed_values valid_exec);
  Ok (find_executable (exec_program valid_exec) (exec_system_path valid_exec)).

(** ** main.rs *)

Definition MATCHED_BUT_WRITES_FILES_EXIT_CODE : Z := 12.
Definition MIGHT_BE_SAFE_EXIT_CODE : Z := 13.
Definition FORBIDDEN_EXIT_CODE : Z := 14.

Inductive Output :=
| OutputSafe (exec : ValidExec)
| OutputMatch (exec : ValidExec)
| OutputForbidden (reason : str) (cause : Forbidden)
| OutputUnverified (error : Error).

Definition check_command (policy : Policy) (exec_call : ExecCall) (require_safe : bool)
    : result Empty_set (Output * Z) :=
  match check_policy policy exec_call with
  | Ok (Match exec) =>
      if might_write_files exec
      then Ok (OutputMatch exec,
               if require_safe then MATCHED_BUT_WRITES_FILES_EXIT_CODE else 0%Z)
      else Ok (OutputSafe exec, 0%Z)
  | Ok (MatchForbidden cause reason) =>
      Ok (OutputForbidden reason cause, if require_safe then FORBIDDEN_EXIT_CODE else 0%Z)
  | Err err =>
      Ok (OutputUnverified err, if require_safe then MIGHT_BE_SAFE_EXIT_CODE else 0%Z)
  | Crash c => Crash c
  end.

End Engine.

End LegacyPolicy.

(** * Facts about the policies of the older engine

    When the command line calls a command safe, and what the check of the paths of an
    accepted call guarantees. *)

Import AbsPath ExecPolicy LegacySpec LegacyProgram LegacyProgramFacts LegacyPolicy.

Module LegacyPolicyFacts.

(** ** Values of an accepted call *)

Lemma fits_valid (ps : list ArgMatcher) (l : list PositionalArg) (ms : list MatchedArg) :
  fits ps l ms -> Forall (fun m => validate (arg_ty m) (arg_value m) = Ok tt) ms.
Proof.
  induction 1; [constructor|by constructor|]. apply Forall_app. split; [|done].
  by apply Forall_map.
Qed.

Lemma reads_valid options i l fs os ps :
  reads options i l fs os ps ->
  Forall (fun o => validate (opt_ty o) (opt_value o) = Ok tt) os.
Proof. induction 1; [constructor|done|by constructor|done]. Qed.

Lemma accepts_valid (spec : ProgramSpec) (l : list str) (exec : ValidExec) (v : ArgType * str) :
  accepts spec l exec -> v ∈ typed_values exec -> validate v.1 v.2 = Ok tt.
Proof.
  intros (fs & os & ps & ms & Hr & _ & Hf & _ & ->). unfold typed_values. simpl.
  rewrite elem_of_app, !list_elem_of_fmap. intros [(m & -> & Hm)|(o & -> & Ho)].
  - apply fits_valid in Hf. rewrite Forall_forall in Hf. by apply Hf.
  - apply reads_valid in Hr. rewrite Forall_forall in Hr. by apply Hr.
Qed.

Lemma writes_nothing (exec : ValidExec) :
  might_write_files exec = false <->
  forall v, v ∈ typed_values exec -> might_write_file v.1 = false.
Proof.
  unfold might_write_files, typed_values. rewrite orb_false_iff, <- !not_true_iff_false.
  rewrite !existsb_exists. split.
  - intros [Ho Ha] v. rewrite elem_of_app, !list_elem_of_fmap.
    intros [(m & -> & Hm)|(o & -> & Hm)]; apply list_elem_of_In in Hm; simpl;
      apply not_true_iff_false; intros ?; [apply Ha|apply Ho]; eauto.
  - intros H. split; intros (x & Hx & Hw); apply list_elem_of_In in Hx.
    + specialize (H (opt_ty x, opt_value x)). simpl in H. rewrite H in Hw; [done|].
      apply elem_of_app. right. apply list_elem_of_fmap. eauto.
    + specialize (H (arg_ty x, arg_value x)). simpl in H. rewrite H in Hw; [done|].
      apply elem_of_app. left. apply list_elem_of_fmap. eauto.
Qed.

(** ** The specifications in turn *)

(** The first specification that accepts is [spec]. *)
Definition first_accepting (specs : list ProgramSpec) (l : list str) (spec : ProgramSpec)
    (exec : ValidExec) : Prop :=
  exists pre post, specs = pre ++ spec :: post /\ accepts spec l exec /\
    forall s e, s ∈ pre -> ~ accepts s l e.

Lemma first_match_Ok (call : ExecCall) (specs : list ProgramSpec) (err : Error)
    (m : MatchedExec) :
  first_match call specs (Err err) = Ok m <->
  exists spec exec, first_accepting specs (call_args call) spec exec /\ m = verdict_of spec exec.
Proof.
  revert err. induction specs as [|s specs IH]; intros err; simpl.
  { split; [done|]. intros (? & ? & (pre & post & E & _) & _). by destruct pre. }
  destruct (check_cases s call) as [(exec & Ha & ->)|[Hn (e & ->)]].
  - split.
    + intros ?; simplify_eq. exists s, exec. split; [|done]. exists [], specs.
      split_and!; [done..|]. by intros ? ? ?%not_elem_of_nil.
    + intros (spec & exec' & (pre & post & E & Ha' & Hpre) & ->). destruct pre as [|x pre]; simplify_eq/=.
      * by rewrite (accepts_unique _ _ _ _ Ha Ha').
      * destruct (Hpre x exec); [by left|done].
  - rewrite IH. split; intros (spec & exec & (pre & post & E & Ha & Hpre) & ->); exists spec, exec;
      (split; [|done]).
    + exists (s :: pre), post. split_and!; [by subst|done|].
      intros x ex [->|?]%elem_of_cons; [apply Hn|by apply Hpre].
    + destruct pre as [|x pre]; simplify_eq/=; [by apply Hn in Ha|]. exists pre, post.
      split_and!; [done..|]. intros y ey Hy. apply Hpre. by right.
Qed.

Section Policy.
Set Default Proof Using "Type".
Context {Regex : Type}.
Context (regex_new : str -> result str Regex) (regex_is_match : Regex -> str -> bool)
        (regex_escape : str -> str).

Lemma forbidden_program_None (program : str) (rs : list (@ForbiddenProgramRegex Regex)) :
  forbidden_program regex_is_match program rs = None <->
  forall r, r ∈ rs -> regex_is_match (regex r) program = false.
Proof.
  induction rs as [|r rs IH]; simpl; [split; [intros _ ? ?%not_elem_of_nil|]; done|].
  destruct (regex_is_match (regex r) program) eqn:E.
  - split; [done|]. intros H. rewrite (H r) in E; [done|by left].
  - rewrite IH. split; [|intros H x Hx; apply H; by right].
    intros H x [->|Hx]%elem_of_cons; auto.
Qed.

Lemma forbidden_arg_None (pattern : option Regex) (l : list str) :
  forbidden_arg regex_is_match pattern l = None <->
  forall r arg, pattern = Some r -> arg ∈ l -> regex_is_match r arg = false.
Proof.
  induction l as [|a l IH]; simpl; [split; [intros _ ? ? ? ?%not_elem_of_nil|]; done|].
  destruct pattern as [r|].
  - destruct (regex_is_match r a) eqn:E.
    + split; [done|]. intros H. rewrite (H r a eq_refl) in E; [done|by left].
    + rewrite IH. split; [|intros H x y Hx Hy; apply H; [done|by right]].
      intros H x y ? [->|Hy]%elem_of_cons; [by simplify_eq|by apply H].
  - rewrite IH. split; [done|]. by intros _ ? ? ?.
Qed.

(** The documented meaning of a pattern of escaped strings between bars: it matches a
    text that contains one of them. *)
Context (escaped_alternation : forall substrings r text, substrings <> [] ->
  regex_new (substrings_pattern regex_escape substrings) = Ok r ->
  regex_is_match r text = existsb (fun s => contains s text) substrings).

Lemma new_pattern ps rs substrings (policy : Policy) (l : list str) :
  new regex_new regex_escape ps rs substrings = Ok policy ->
  programs policy = ps /\ forbidden_program_regexes policy = rs /\
  (forbidden_arg regex_is_match (forbidden_substrings_pattern policy) l = None <->
   forall s arg, s ∈ substrings -> arg ∈ l -> contains s arg = false).
Proof using escaped_alternation.
  unfold new. intros H. apply bind_Ok in H as (pat & Hp & H). simplify_eq. simpl.
  split_and!; [done..|]. rewrite forbidden_arg_None. case_bool_decide as Hs; simplify_eq.
  - split; [intros _ ? ? ?%not_elem_of_nil|]; done.
  - apply bind_Ok in Hp as (r & Hr & Hp). simplify_eq. split.
    + intros H s arg Hin Ha. specialize (H r arg eq_refl Ha).
      rewrite (escaped_alternation _ _ _ Hs Hr) in H. apply not_true_iff_false. intros Hc.
      apply not_true_iff_false in H. apply H, existsb_exists. exists s.
      split; [by apply list_elem_of_In|done].
    + intros H r' arg ? Ha. simplify_eq. rewrite (escaped_alternation _ _ _ Hs Hr).
      apply not_true_iff_false. rewrite existsb_exists. intros (s & Hin & Hc).
      apply list_elem_of_In in Hin. by rewrite (H s arg) in Hc.
Qed.

(** A command is called safe exactly when nothing forbids it (no regular expression
    matches its program and no argument contains a forbidden substring) and the first
    specification of its program that accepts its arguments does not forbid it and gives
    none of its values a type that may be written to. The exit code is then 0. *)
Theorem safe_means ps rs substrings (policy : Policy) (call : ExecCall) (require_safe : bool)
    (exec : ValidExec) (code : Z) :
  new regex_new regex_escape ps rs substrings = Ok policy ->
  check_command regex_is_match policy call require_safe = Ok (OutputSafe exec, code) <->
  code = 0%Z /\
  (forall r, r ∈ rs -> regex_is_match (regex r) (call_program call) = false) /\
  (forall s arg, s ∈ substrings -> arg ∈ call_args call -> contains s arg = false) /\
  (exists specs spec, ps !! call_program call = Some specs /\
     first_accepting specs (call_args call) spec exec /\ forbidden spec = None) /\
  (forall v, v ∈ typed_values exec -> might_write_file v.1 = false).
Proof using escaped_alternation.
  intros Hnew. destruct (new_pattern _ _ _ _ (call_args call) Hnew) as (<- & <- & Hsub).
  rewrite <- Hsub, <- forbidden_program_None, <- writes_nothing. clear Hsub Hnew.
  unfold check_command, check_policy.
  destruct (forbidden_program _ _ _) as [why|]; [split; [done|naive_solver]|].
  destruct (forbidden_arg _ _ _) as [a|]; [split; [done|naive_solver]|].
  set (specs := match get_vec _ _ with Some l => l | None => [] end).
  assert ((exists spec, first_accepting specs (call_args call) spec exec /\ forbidden spec = None) <->
    first_match call specs (Err (NoSpecForProgram (call_program call))) = Ok (Match exec)) as Hfm.
  { rewrite first_match_Ok. unfold verdict_of. split.
    - intros (spec & Hf & Hn). exists spec, exec. by rewrite Hn.
    - intros (spec & e & Hf & E). exists spec. destruct (forbidden spec); by simplify_eq. }
  assert ((exists l spec, programs policy !! call_program call = Some l /\
     first_accepting l (call_args call) spec exec /\ forbidden spec = None) <->
    exists spec, first_accepting specs (call_args call) spec exec /\ forbidden spec = None) as ->.
  { unfold specs, get_vec. destruct (programs policy !! call_program call); [naive_solver|].
    split; [naive_solver|]. intros (? & (pre & ? & E & _) & _). by destruct pre. }
  rewrite Hfm. clear Hfm. destruct (first_match _ _ _) as [[e|cause why]|e|c]; [|naive_solver..].
  destruct (might_write_files e) eqn:Ew; naive_solver congruence.
Qed.

End Policy.

(** ** What a policy file declares *)

Definition spec_of (call : Call) : option ProgramSpec :=
  match call with
  | DefineProgram program system_path bundling combined options args forbidden sm snm =>
      match insert_options (default [] options) ∅ with
      | Ok allowed_options =>
          Some (new_spec program (default [] system_path) (default false bundling)
                  (default false combined) allowed_options (default [] args) forbidden
                  (default [] sm) (default [] snm))
      | _ => None
      end
  | _ => None
  end.

Definition substrings_of (call : Call) : list str :=
  match call with ForbidSubstrings strings => strings | _ => [] end.

Definition regex_of (call : Call) : option (str * str) :=
  match call with ForbidProgramRegex pattern why => Some (pattern, why) | _ => None end.

(** The options of a call: distinct names, each under its own. *)
Lemma insert_options_Ok (options : list Opt) (acc allowed : gmap (list N) Opt) :
  insert_options options acc = Ok allowed ->
  NoDup (map opt options) /\ (forall o, o ∈ options -> acc !! opt o = None) /\
  forall k o, allowed !! k = Some o <-> acc !! k = Some o \/ (o ∈ options /\ opt o = k).
Proof.
  revert acc. induction options as [|x options IH]; intros acc H; simpl in *.
  { simplify_eq. split_and!; [constructor|by intros ? ?%not_elem_of_nil|].
    intros k o. split; [by left|]. by intros [?|[?%not_elem_of_nil _]]. }
  destruct (acc !! opt x) eqn:Ex; [done|]. destruct (IH _ H) as (Hnd & Hf & Hl). split_and!.
  - constructor; [|done]. intros (o & Eo & Ho)%list_elem_of_fmap.
    specialize (Hf o Ho). by rewrite <- Eo, lookup_insert_eq in Hf.
  - intros o [->|Ho]%elem_of_cons; [done|]. specialize (Hf o Ho).
    by apply lookup_insert_None in Hf as [? _].
  - intros k o. rewrite Hl, elem_of_cons, lookup_insert_Some. split.
    + intros [[[<- <-]|[_ ?]]|[? ?]]; auto.
    + intros [Ha|[[->|Ho] Hk]]; [|by left; left|by right].
      left. right. split; [|done]. intros <-. congruence.
Qed.

Section Declared.
Context {Regex : Type}.
Context (regex_new : str -> result str Regex) (regex_escape : str -> str).

(** What a builder holds when these calls have been run. *)
Definition declared (calls : list Call) (b : @PolicyBuilder Regex) : Prop :=
  (forall name, ExecPolicyFacts.mm_get (b_programs b) name =
     filter (fun spec => program spec = name) (omap spec_of calls)) /\
  b_forbidden_substrings b = calls ≫= substrings_of /\
  Forall2 (fun p r => regex_new p.1 = Ok (regex r) /\ reason r = p.2)
    (omap regex_of calls) (b_forbidden_program_regexes b).

Lemma run_call_declared (calls : list Call) (call : Call) (b b' : PolicyBuilder) :
  declared calls b -> run_call regex_new call b = Ok b' -> declared (calls ++ [call]) b'.
Proof.
  intros (Hp & Hs & Hr). unfold declared.
  rewrite !omap_app, bind_app. destruct call as [pr sp bu co ops ar fo sm snm|strs|pat why]; simpl.
  - destruct (insert_options (default [] ops) ∅) as [allowed|e|c]; simpl; [|done..].
    intros ?; simplify_eq. simpl. rewrite !app_nil_r. split_and!; [|done..].
    intros name. rewrite filter_app, filter_cons, filter_nil, ExecPolicyFacts.mm_get_insert, Hp. simpl.
    destruct (decide (pr = name)); [done|by rewrite app_nil_r].
  - intros ?; simplify_eq. simpl. rewrite !app_nil_r. by rewrite Hs.
  - destruct (regex_new pat) as [r|e|c] eqn:E; simpl; [|done..]. intros ?; simplify_eq. simpl.
    rewrite !app_nil_r. split_and!; [done..|]. apply Forall2_app; [done|].
    by repeat constructor.
Qed.

Lemma run_calls_declared (calls more : list Call) (failure : option str)
    (b b' : PolicyBuilder) :
  declared calls b -> run_calls regex_new more failure b = Ok b' ->
  failure = None /\ declared (calls ++ more) b'.
Proof.
  revert calls b. induction more as [|call more IH]; intros calls b Hd H; simpl in H.
  { rewrite app_nil_r. destruct failure; by simplify_eq. }
  apply bind_Ok in H as (b1 & H1 & H). apply (run_call_declared _ _ _ _ Hd) in H1.
  destruct (IH _ _ H1 H) as [-> Hd']. by rewrite <- app_assoc in Hd'.
Qed.

(** The policy that a file gives holds what its calls declare: for every program the
    specifications of its [define_program] calls in their order, each with its options
    under their distinct names and the required ones among them; the strings of the
    [forbid_substrings] calls; and the compiled [forbid_program_regex] calls in order. *)
Theorem parse_declares (starlark : str -> str -> str + (list Call * option str))
    (source text : str) (policy : @Policy Regex) :
  parse regex_new regex_escape starlark source text = Ok policy ->
  exists calls, starlark source text = inr (calls, None) /\
    (forall name, ExecPolicyFacts.mm_get (programs policy) name =
       filter (fun spec => program spec = name) (omap spec_of calls)) /\
    (forall spec k o, spec ∈ omap spec_of calls -> allowed_options spec !! k = Some o ->
       opt o = k /\ (required o = true <-> k ∈ required_options spec)) /\
    Forall2 (fun p r => regex_new p.1 = Ok (regex r) /\ reason r = p.2)
      (omap regex_of calls) (forbidden_program_regexes policy) /\
    new regex_new regex_escape (programs policy) (forbidden_program_regexes policy)
      (calls ≫= substrings_of) = Ok policy.
Proof.
  unfold parse. destruct (starlark source text) as [e|[calls failure]]; [done|].
  intros H. apply bind_Ok in H as (b & Hb & H).
  apply (run_calls_declared []) in Hb as [-> (Hp & Hs & Hr)];
    [|split_and!; [done|done|constructor]].
  exists calls. assert (programs policy = b_programs b /\
    forbidden_program_regexes policy = b_forbidden_program_regexes b) as [Ep Er].
  { unfold build, new in H. apply bind_Ok in H as (pat & _ & H). by simplify_eq. }
  unfold build in H. simpl in Hs. rewrite Ep, Er, <- Hs. split_and!; [done..| |done|done].
  intros spec k o (call & Hin & Hc)%list_elem_of_omap Ho.
  destruct call as [pr sp bu co ops ar fo sm snm|strs|pat why]; simpl in Hc; [|done..].
  destruct (insert_options (default [] ops) ∅) as [allowed|e|c] eqn:Ei; simplify_eq. simpl in *.
  destruct (insert_options_Ok _ _ _ Ei) as (_ & _ & Hl). split.
  - apply Hl in Ho as [?|[_ ?]]; [|done]. by rewrite lookup_empty in *.
  - rewrite elem_of_dom. split.
    + intros Hreq. exists o. by apply map_lookup_filter_Some.
    + intros [o' [Ho' Hreq]%map_lookup_filter_Some]. by simplify_eq.
Qed.

End Declared.

(** ** The paths of an accepted call *)

Section Paths.
Context (absolutize : str -> result ErrorKind str)
        (absolutize_from : str -> str -> result ErrorKind str)
        (metadata : str -> option (bool * N)).

(** The documented results of the crate: absolute paths without dots. *)
Context (absolutize_normal : forall p r, absolutize p = Ok r -> normalized_absolute r).
Context (absolutize_from_normal : forall p c r, is_absolute c = true ->
  absolutize_from p c = Ok r -> normalized_absolute r).

(** The value names a file below one of the folders. *)
Definition inside (value : str) (cwd : option str) (folders : list str) : Prop :=
  exists file folder, ensure_absolute_path absolutize absolutize_from value cwd = Ok file /\
    normalized_absolute file /\ folder ∈ folders /\ components folder `prefix_of` components file.

Lemma ensure_normal (value file : str) (cwd : option str) :
  (forall c, cwd = Some c -> is_absolute c = true) ->
  ensure_absolute_path absolutize absolutize_from value cwd = Ok file -> normalized_absolute file.
Proof using absolutize_normal absolutize_from_normal.
  unfold ensure_absolute_path. intros Hc H. destruct (is_absolute value); simpl in H.
  - apply map_err_Ok in H. by eapply absolutize_normal.
  - destruct cwd as [c|]; [|done]. apply map_err_Ok in H.
    by eapply absolutize_from_normal; [apply Hc|].
Qed.

Lemma check_file_inside (value : str) (cwd : option str) (folders : list str)
    (error : str -> Error) (u : unit) :
  (forall c, cwd = Some c -> is_absolute c = true) ->
  (file ← ensure_absolute_path absolutize absolutize_from value cwd;
   check_file_in_folders file folders (error file)) = Ok u ->
  inside value cwd folders.
Proof using absolutize_normal absolutize_from_normal.
  intros Hc H. apply bind_Ok in H as (file & Hf & H). unfold check_file_in_folders in H.
  destruct (existsb _ folders) eqn:E; [|done].
  apply existsb_exists in E as (folder & Hin & Hp). apply list_elem_of_In in Hin.
  apply bool_decide_eq_true in Hp. exists file, folder. split_and!; try done.
  by eapply ensure_normal.
Qed.

Lemma collect_elem {E A B} (f : A -> result E B) (l : list A) (ys : list B) (x : A) :
  collect f l = Ok ys -> x ∈ l -> exists y, f x = Ok y.
Proof.
  revert ys. induction l as [|a l IH]; intros ys H Hx; [by apply not_elem_of_nil in Hx|].
  simpl in H. apply bind_Ok in H as (y & Hy & H). apply bind_Ok in H as (ys' & Hys & _).
  apply elem_of_cons in Hx as [->|Hx]; eauto.
Qed.

Lemma find_executable_spec (program : str) (paths : list str) :
  (find_executable metadata program paths = program /\
   forall p, p ∈ paths -> is_executable_file metadata p = false) \/
  (exists pre p post, paths = pre ++ p :: post /\ is_executable_file metadata p = true /\
     (forall q, q ∈ pre -> is_executable_file metadata q = false) /\
     find_executable metadata program paths = p).
Proof.
  induction paths as [|q paths IH]; simpl; [left; split; [done|intros ? []%not_elem_of_nil]|].
  destruct (is_executable_file metadata q) eqn:Eq.
  - right. exists [], q, paths. split_and!; [done..| |done]. by intros ? ?%not_elem_of_nil.
  - destruct IH as [[-> Hn]|(pre & p & post & -> & Hp & Hpre & ->)]; [left|right].
    + split; [done|]. intros p [->|?]%elem_of_cons; auto.
    + exists (q :: pre), p, post. split_and!; try done. intros r [->|?]%elem_of_cons; auto.
Qed.

(** When the check of an accepted call succeeds, every value that is a file to read
    resolves to a normal absolute path below a readable folder, every file to write to
    one below a writeable folder, and the program to run is the first of the trusted
    paths that is executable, or the program itself when none is. *)
Theorem exec_paths_inside (exec : ValidExec) (cwd : option str) (readable writeable : list str)
    (prog : str) :
  (forall c, cwd = Some c -> is_absolute c = true) ->
  check_exec absolutize absolutize_from metadata exec cwd readable writeable = Ok prog ->
  (forall value, (TReadableFile, value) ∈ typed_values exec -> inside value cwd readable) /\
  (forall value, (TWriteableFile, value) ∈ typed_values exec -> inside value cwd writeable) /\
  ((prog = exec_program exec /\
    forall p, p ∈ exec_system_path exec -> is_executable_file metadata p = false) \/
   exists pre post, exec_system_path exec = pre ++ prog :: post /\
     is_executable_file metadata prog = true /\
     forall q, q ∈ pre -> is_executable_file metadata q = false).
Proof using absolutize_normal absolutize_from_normal.
  intros Hc H. unfold check_exec in H. apply bind_Ok in H as (us & Hus & H). simplify_eq.
  split_and!.
  - intros value Hv. destruct (collect_elem _ _ _ _ Hus Hv) as [u Hu].
    exact (check_file_inside _ _ _ (fun f => ReadablePathNotInReadableFolders f readable) u Hc Hu).
  - intros value Hv. destruct (collect_elem _ _ _ _ Hus Hv) as [u Hu].
    exact (check_file_inside _ _ _ (fun f => WriteablePathNotInWriteableFolders f writeable) u Hc Hu).
  - destruct (find_executable_spec (exec_program exec) (exec_system_path exec))
      as [[-> Hn]|(pre & p & post & Hp & He & Hpre & ->)]; [by left|right; eauto 6].
Qed.

End Paths.

(** ** Examples *)

(** Regular expressions that are lists of strings, one of which must occur: a pattern is
    written with a backslash before every character. *)
Definition esc (s : str) : str := s ≫= fun c => [92%N; c].

Fixpoint read_pattern (cur : str) (s : str) : option (list str) :=
  match s with
  | c :: s =>
      if N.eqb c 124 then (fun l => cur :: l) <$> read_pattern [] s
      else if N.eqb c 41 then Some [cur]
      else match s with
           | d :: s => read_pattern (cur ++ [d]) s
           | [] => None
           end
  | [] => None
  end.

Definition list_regex (pattern : str) : result str (list str) :=
  ok_or (lit "bad pattern") (match pattern with _ :: s => read_pattern [] s | [] => None end).

Definition list_match (r : list str) (text : str) : bool :=
  existsb (fun s => contains s text) r.

Lemma read_esc (cur s rest : str) :
  read_pattern cur (esc s ++ rest) = read_pattern (cur ++ s) rest.
Proof.
  revert cur. induction s as [|c s IH]; intros cur; simpl; [by rewrite app_nil_r|].
  rewrite IH. by rewrite <- app_assoc.
Qed.

Lemma list_alternation (substrings : list str) (r : list str) (text : str) :
  substrings <> [] -> list_regex (substrings_pattern esc substrings) = Ok r ->
  list_match r text = existsb (fun s => contains s text) substrings.
Proof.
  intros Hne. unfold list_regex, substrings_pattern, list_match. simpl.
  assert (read_pattern [] (join (lit "|") (map esc substrings) ++ lit ")") = Some substrings) as ->.
  { induction substrings as [|s ss IH]; [done|]. destruct ss as [|s' ss].
    - simpl. by rewrite read_esc.
    - change (map esc (s :: s' :: ss)) with (esc s :: map esc (s' :: ss)).
      rewrite join_cons by done. rewrite <- !app_assoc, read_esc.
      specialize (IH ltac:(done)). exact (f_equal (fmap (fun l => s :: l)) IH). }
  intros ?. by simplify_eq/=.
Qed.

(** [head] with a number of lines and files to read. *)
Definition head_spec : ProgramSpec :=
  new_spec (lit "head") [lit "/bin/head"; lit "/usr/bin/head"] false false
    {[ lit "-n" := opt_builtin (lit "-n") PositiveInteger None ]} [ReadableFiles] None [] [].

Definition head_call : ExecCall :=
  {| call_program := lit "head"; call_args := [lit "-n"; lit "20"; lit "src/a"; lit "/b"] |}.

Definition sample_policy : result str (@Policy (list str)) :=
  new list_regex esc {[ lit "head" := [head_spec] ]} [{| regex := [lit "sudo"]; reason := [] |}]
    [lit "--exec"; lit "|"].

Definition head_exec : ValidExec :=
  {| exec_program := lit "head"; exec_flags := [];
     exec_opts := [{| opt_name := lit "-n"; opt_value := lit "20"; opt_ty := TPositiveInteger |}];
     exec_args := [{| arg_index := 2; arg_ty := TReadableFile; arg_value := lit "src/a" |};
                   {| arg_index := 3; arg_ty := TReadableFile; arg_value := lit "/b" |}];
     exec_system_path := [lit "/bin/head"; lit "/usr/bin/head"] |}.

Definition legacy_calls : list Call :=
  [ForbidProgramRegex (lit "(" ++ esc (lit "sudo") ++ lit ")") (lit "no");
   DefineProgram (lit "head") (Some [lit "/bin/head"]) None None
     (Some [opt_builtin (lit "-n") PositiveInteger (Some true); flag_builtin (lit "-q")])
     (Some [ReadableFiles]) None None None;
   ForbidSubstrings [lit "|"]].

Lemma parse_declares_witness :
  exists policy specs,
    parse list_regex esc (fun _ _ => inr (legacy_calls, None)) [] [] = Ok policy /\
    programs policy !! lit "head" = Some specs /\ length specs = 1 /\
    new list_regex esc (programs policy) (forbidden_program_regexes policy) [lit "|"] = Ok policy.
Proof.
  destruct (parse list_regex esc (fun _ _ => inr (legacy_calls, None)) [] []) as [policy|e|c] eqn:E;
    [|vm_compute in E; discriminate E..].
  destruct (parse_declares list_regex esc _ _ _ policy E) as (calls & Hc & _ & _ & _ & Hn).
  injection Hc as <-. exists policy. eexists.
  split; [reflexivity|]. split; [vm_compute in E; injection E as <-; vm_compute; reflexivity|].
  split; [reflexivity|]. exact Hn.
Defined.

Lemma safe_means_witness :
  exists policy, sample_policy = Ok policy /\
  forall arg, arg ∈ call_args head_call -> contains (lit "|") arg = false.
Proof.
  destruct sample_policy as [policy|e|c] eqn:E; [|vm_compute in E; discriminate E..].
  exists policy. split; [reflexivity|]. unfold sample_policy in E.
  destruct (proj1 (safe_means list_regex list_match esc list_alternation _ _ _ policy head_call
                     true head_exec 0%Z E)) as (_ & _ & Hs & _).
  - vm_compute in E. injection E as <-. vm_compute. reflexivity.
  - intros arg. apply Hs. right. by left.
Defined.

(** The paths as the crate makes them. *)
Definition sample_absolutize (p : str) : result ErrorKind str :=
  if is_absolute p then Ok (normalize_path p) else Err OtherKind.

Definition sample_absolutize_from (p c : str) : result ErrorKind str :=
  Ok (AbsPath.absolutize_from p c).

Lemma sample_absolutize_normal (p r : str) : sample_absolutize p = Ok r -> normalized_absolute r.
Proof.
  unfold sample_absolutize. destruct (is_absolute p) eqn:Ea; [|done]. intros ?; simplify_eq.
  destruct (normalize_absolute p Ea) as [-> Hv]. by eexists.
Qed.

Lemma sample_absolutize_from_normal (p c r : str) :
  is_absolute c = true -> sample_absolutize_from p c = Ok r -> normalized_absolute r.
Proof.
  unfold sample_absolutize_from. intros Hc ?; simplify_eq.
  by apply absolutize_from_normalized.
Qed.

Definition sample_metadata (p : str) : option (bool * N) :=
  if str_eqb p (lit "/usr/bin/head") then Some (true, 493%N) else None.

Lemma exec_paths_inside_witness :
  exists prog, check_exec sample_absolutize sample_absolutize_from sample_metadata head_exec
      (Some (lit "/w")) [lit "/w/src"; lit "/b"] [] = Ok prog /\
    prog = lit "/usr/bin/head" /\
    inside sample_absolutize sample_absolutize_from (lit "src/a") (Some (lit "/w"))
      [lit "/w/src"; lit "/b"].
Proof.
  destruct (check_exec sample_absolutize sample_absolutize_from sample_metadata head_exec
    (Some (lit "/w")) [lit "/w/src"; lit "/b"] []) as [prog|e|c] eqn:E;
    [|vm_compute in E; discriminate E..].
  exists prog. split; [reflexivity|]. split; [vm_compute in E; by injection E as <-|].
  destruct (exec_paths_inside _ _ _ sample_absolutize_normal sample_absolutize_from_normal
    head_exec (Some (lit "/w")) _ _ _ ltac:(intros c Hc; by injection Hc as <-) E) as (Hr & _).
  apply Hr. left.
Defined.

End LegacyPolicyFacts.
