(* ===== verification/NetHost.v ===== *)
(** * Internet addresses: [std::net] and src/network-proxy/src/policy.rs

    The parser of [IpAddr] of the standard library and its predicates on addresses, and
    the predicate [is_non_public_ip] of the network proxy, which decides what counts as
    a local destination. The theorems give the ranges as numbers. *)

From Stdlib Require Import Ascii String.
From S2P Require Import Prelude RustStr.


Module NetIp.

(** ** Addresses: four octets, eight segments of 16 bits *)

Record Ipv4Addr := { octet1 : N; octet2 : N; octet3 : N; octet4 : N }.

Record Ipv6Addr := { segments : list N }.

Inductive IpAddr := V4 (ip : Ipv4Addr) | V6 (ip : Ipv6Addr).

#[export] Instance Ipv4Addr_eq_dec : EqDecision Ipv4Addr.
Proof. solve_decision. Defined.

#[export] Instance Ipv6Addr_eq_dec : EqDecision Ipv6Addr.
Proof. solve_decision. Defined.

#[export] Instance IpAddr_eq_dec : EqDecision IpAddr.
Proof. solve_decision. Defined.

(** [u32::from] *)
Definition to_u32 (ip : Ipv4Addr) : N :=
  N.lor (N.shiftl (octet1 ip) 24)
    (N.lor (N.shiftl (octet2 ip) 16) (N.lor (N.shiftl (octet3 ip) 8) (octet4 ip))).

(** ** The parser of [std::net] *)

(** [char::to_digit] *)
Definition to_digit (radix c : N) : option N :=
  let d := (if is_ascii_digit c then Some (c - 48)
            else if (97 <=? c) && (c <=? 122) then Some (c - 87)
            else if (65 <=? c) && (c <=? 90) then Some (c - 55)
            else None)%N in
  match d with
  | Some d => if (d <? radix)%N then Some d else None
  | None => None
  end.

(** The digits of a number, at most [max_digits] of them. *)
Fixpoint read_digits (radix : N) (max_digits : nat) (acc : N) (count : nat) (s : str)
    : option (N * nat * str) :=
  match s with
  | c :: s' =>
      match to_digit radix c with
      | Some d =>
          if max_digits <? S count then None
          else read_digits radix max_digits (acc * radix + d) (S count) s'
      | None => Some (acc, count, s)
      end
  | [] => Some (acc, count, [])
  end.

(** [limit] is the first number that does not fit the type of the result. *)
Definition read_number (radix : N) (max_digits : nat) (allow_zero_prefix : bool) (limit : N)
    (s : str) : option (N * str) :=
  let has_leading_zero := starts_with (lit "0") s in
  match read_digits radix max_digits 0 0 s with
  | Some (n, count, rest) =>
      if (count =? 0) || negb (n <? limit)%N
         || (negb allow_zero_prefix && has_leading_zero && (1 <? count))
      then None else Some (n, rest)
  | None => None
  end.

(** Before every element but the first comes the separator. *)
Definition read_separator {A} (sep : char) (index : nat) (inner : str -> option (A * str))
    (s : str) : option (A * str) :=
  if 0 <? index then
    match strip_prefix [sep] s with Some rest => inner rest | None => None end
  else inner s.

Definition read_octet (index : nat) (s : str) : option (N * str) :=
  read_separator (ch ".") index (read_number 10 3 false 256) s.

Definition read_ipv4_addr (s : str) : option (Ipv4Addr * str) :=
  '(a, s) ← read_octet 0 s; '(b, s) ← read_octet 1 s;
  '(c, s) ← read_octet 2 s; '(d, s) ← read_octet 3 s;
  Some ({| octet1 := a; octet2 := b; octet3 := c; octet4 := d |}, s).

(** [u16::from_be_bytes] *)
Definition from_be_bytes (hi lo : N) : N := N.lor (N.shiftl hi 8) lo.

(** The groups of a part of an address, of which [remaining] more may come; the flag
    tells that the part ends in an address of the fourth version. *)
Fixpoint read_groups (remaining i : nat) (s : str) : list N * bool * str :=
  match remaining with
  | 0 => ([], false, s)
  | S remaining' =>
      match (if 0 <? remaining' then read_separator (ch ":") i read_ipv4_addr s else None) with
      | Some (v4, s) =>
          ([from_be_bytes (octet1 v4) (octet2 v4); from_be_bytes (octet3 v4) (octet4 v4)],
           true, s)
      | None =>
          match read_separator (ch ":") i (read_number 16 4 true 65536) s with
          | Some (g, s) =>
              let '(gs, v4, s) := read_groups remaining' (S i) s in (g :: gs, v4, s)
          | None => ([], false, s)
          end
      end
  end.

Definition read_ipv6_addr (s : str) : option (Ipv6Addr * str) :=
  let '(head, head_ipv4, s) := read_groups 8 0 s in
  if length head =? 8 then Some ({| segments := head |}, s)
  else if head_ipv4 then None
  else
    match strip_prefix (lit "::") s with
    | Some s =>
        let '(tail, _, s) := read_groups (8 - (length head + 1)) 0 s in
        Some ({| segments := head ++ replicate (8 - length tail - length head) 0%N ++ tail |}, s)
    | None => None
    end.

Definition read_ip_addr (s : str) : option (IpAddr * str) :=
  match read_ipv4_addr s with
  | Some (v4, s) => Some (V4 v4, s)
  | None => match read_ipv6_addr s with Some (v6, s) => Some (V6 v6, s) | None => None end
  end.

(** [str::parse::<IpAddr>] *)
Definition parse_ip (s : str) : option IpAddr :=
  match read_ip_addr s with
  | Some (ip, []) => Some ip
  | _ => None
  end.

Definition is_ip (s : str) : bool :=
  match parse_ip s with Some _ => true | None => false end.

(** ** The predicates of [std::net] that the source calls *)

Definition v4_is_loopback (ip : Ipv4Addr) : bool := (octet1 ip =? 127)%N.

Definition v4_is_private (ip : Ipv4Addr) : bool :=
  ((octet1 ip =? 10)
   || (octet1 ip =? 172) && (16 <=? octet2 ip) && (octet2 ip <=? 31)
   || (octet1 ip =? 192) && (octet2 ip =? 168))%N.

Definition v4_is_link_local (ip : Ipv4Addr) : bool :=
  ((octet1 ip =? 169) && (octet2 ip =? 254))%N.

Definition v4_is_unspecified (ip : Ipv4Addr) : bool := (to_u32 ip =? 0)%N.

Definition v4_is_multicast (ip : Ipv4Addr) : bool :=
  ((224 <=? octet1 ip) && (octet1 ip <=? 239))%N.

Definition v4_is_broadcast (ip : Ipv4Addr) : bool :=
  ((octet1 ip =? 255) && (octet2 ip =? 255) && (octet3 ip =? 255) && (octet4 ip =? 255))%N.

Definition segment (i : nat) (ip : Ipv6Addr) : N := default 0%N (segments ip !! i).

Definition v6_is_loopback (ip : Ipv6Addr) : bool :=
  bool_decide (segments ip = [0; 0; 0; 0; 0; 0; 0; 1])%N.

Definition v6_is_unspecified (ip : Ipv6Addr) : bool :=
  bool_decide (segments ip = [0; 0; 0; 0; 0; 0; 0; 0])%N.

Definition v6_is_multicast (ip : Ipv6Addr) : bool :=
  (N.land (segment 0 ip) 0xff00 =? 0xff00)%N.

Definition v6_is_unique_local (ip : Ipv6Addr) : bool :=
  (N.land (segment 0 ip) 0xfe00 =? 0xfc00)%N.

Definition v6_is_unicast_link_local (ip : Ipv6Addr) : bool :=
  (N.land (segment 0 ip) 0xffc0 =? 0xfe80)%N.

(** [Ipv6Addr::to_ipv4]: mapped and compatible addresses. *)
Definition to_ipv4 (ip : Ipv6Addr) : option Ipv4Addr :=
  match segments ip with
  | [a; b; c; d; e; f; ab; cd] =>
      if ((a =? 0) && (b =? 0) && (c =? 0) && (d =? 0) && (e =? 0)
          && ((f =? 0) || (f =? 0xffff)))%N
      then Some {| octet1 := N.shiftr ab 8; octet2 := N.land ab 0xff;
                   octet3 := N.shiftr cd 8; octet4 := N.land cd 0xff |}
      else None
  | _ => None
  end.

Definition ip_is_loopback (ip : IpAddr) : bool :=
  match ip with V4 ip => v4_is_loopback ip | V6 ip => v6_is_loopback ip end.

(** ** policy.rs: destinations that are not public *)

Definition U32_MAX : N := 0xFFFFFFFF%N.

(** [u32::MAX << n], which drops the bits above the 32nd. *)
Definition u32_mask (prefix : N) : N :=
  if (prefix =? 0)%N then 0%N else N.land (N.shiftl U32_MAX (32 - prefix)) U32_MAX.

Definition ipv4_in_cidr (ip base : Ipv4Addr) (prefix : N) : bool :=
  let mask := u32_mask prefix in
  (N.land (to_u32 ip) mask =? N.land (to_u32 base) mask)%N.

Definition v4 (a b c d : N) : Ipv4Addr :=
  {| octet1 := a; octet2 := b; octet3 := c; octet4 := d |}.

Definition is_non_public_ipv4 (ip : Ipv4Addr) : bool :=
  v4_is_loopback ip
  || v4_is_private ip
  || v4_is_link_local ip
  || v4_is_unspecified ip
  || v4_is_multicast ip
  || v4_is_broadcast ip
  || ipv4_in_cidr ip (v4 0 0 0 0) 8
  || ipv4_in_cidr ip (v4 100 64 0 0) 10
  || ipv4_in_cidr ip (v4 192 0 0 0) 24
  || ipv4_in_cidr ip (v4 192 0 2 0) 24
  || ipv4_in_cidr ip (v4 198 18 0 0) 15
  || ipv4_in_cidr ip (v4 198 51 100 0) 24
  || ipv4_in_cidr ip (v4 203 0 113 0) 24
  || ipv4_in_cidr ip (v4 240 0 0 0) 4.

Definition is_non_public_ipv6 (ip : Ipv6Addr) : bool :=
  match to_ipv4 ip with
  | Some v4 => is_non_public_ipv4 v4 || v6_is_loopback ip
  | None =>
      v6_is_loopback ip || v6_is_unspecified ip || v6_is_multicast ip
      || v6_is_unique_local ip || v6_is_unicast_link_local ip
  end.

Definition is_non_public_ip (ip : IpAddr) : bool :=
  match ip with V4 ip => is_non_public_ipv4 ip | V6 ip => is_non_public_ipv6 ip end.

(** ** What the parser gives *)

Definition v4_wf (ip : Ipv4Addr) : Prop :=
  (octet1 ip < 256 /\ octet2 ip < 256 /\ octet3 ip < 256 /\ octet4 ip < 256)%N.

Definition v6_wf (ip : Ipv6Addr) : Prop :=
  length (segments ip) = 8 /\ Forall (fun s => s < 65536)%N (segments ip).

Definition ip_wf (ip : IpAddr) : Prop :=
  match ip with V4 ip => v4_wf ip | V6 ip => v6_wf ip end.

Lemma read_number_limit (radix : N) (max : nat) (zero : bool) (limit n : N) (s rest : str) :
  read_number radix max zero limit s = Some (n, rest) -> (n < limit)%N.
Proof.
  unfold read_number. intros H. split_cases.
  match goal with H : _ || _ = false |- _ => apply orb_false_iff in H as [[_ H]%orb_false_iff _] end.
  by apply N.ltb_lt, negb_false_iff.
Qed.

Lemma read_separator_inner {A} (sep : char) (i : nat) (inner : str -> option (A * str))
    (s : str) (r : A * str) :
  read_separator sep i inner s = Some r -> exists s', inner s' = Some r.
Proof. unfold read_separator. intros H. split_cases; eauto. Qed.

Lemma read_ipv4_wf (s rest : str) (ip : Ipv4Addr) :
  read_ipv4_addr s = Some (ip, rest) -> v4_wf ip.
Proof.
  unfold read_ipv4_addr. intros H.
  repeat match goal with
  | H : (_ ≫= _) = Some _ |- _ => apply bind_Some in H as ([? ?] & ?%read_separator_inner & H)
  end.
  destruct_and?. repeat match goal with H : exists _, _ |- _ => destruct H as [? ?%read_number_limit] end.
  simplify_eq. by split_and!.
Qed.

Lemma from_be_bytes_bound (hi lo : N) :
  (hi < 256)%N -> (lo < 256)%N -> (from_be_bytes hi lo < 65536)%N.
Proof.
  intros Hh Hl. unfold from_be_bytes. change 65536%N with (2 ^ 16)%N. apply N.log2_lt_cancel.
  destruct (decide (N.lor (N.shiftl hi 8) lo = 0)%N) as [->|Hn]; [done|].
  rewrite N.log2_pow2, N.log2_lor by lia. apply N.max_lub_lt.
  - destruct (decide (hi = 0)%N) as [->|Hz]; [done|].
    rewrite N.log2_shiftl by done. assert (N.log2 hi < 8)%N by (apply N.log2_lt_pow2; [lia|done]). lia.
  - destruct (decide (lo = 0)%N) as [->|Hz]; [done|].
    assert (N.log2 lo < 8)%N by (apply N.log2_lt_pow2; [lia|done]). lia.
Qed.

Lemma read_groups_wf (remaining i : nat) (s rest : str) (gs : list N) (b : bool) :
  read_groups remaining i s = (gs, b, rest) ->
  length gs <= remaining /\ Forall (fun s => s < 65536)%N gs.
Proof.
  revert i s rest gs b. induction remaining as [|remaining IH]; intros i s rest gs b H;
    cbn [read_groups] in H; [by simplify_eq|].
  destruct (if 0 <? remaining then _ else None) as [[v4 s1]|] eqn:Ev.
  { simplify_eq. destruct (0 <? remaining) eqn:Er; [|done]. bool_to_prop.
    apply read_separator_inner in Ev as [s' (?&?&?&?)%read_ipv4_wf].
    split; [simpl; lia|]. repeat constructor; by apply from_be_bytes_bound. }
  destruct (read_separator _ _ (read_number _ _ _ _) _) as [[g s1]|] eqn:Eg; [|simplify_eq; split; [simpl; lia|constructor]].
  destruct (read_groups remaining (S i) s1) as [[gs1 b1] s2] eqn:E. simplify_eq.
  apply IH in E as [Hl Hf]. apply read_separator_inner in Eg as [s' Hg%read_number_limit].
  split; [simpl; lia|by constructor].
Qed.

Lemma read_ipv6_wf (s rest : str) (ip : Ipv6Addr) :
  read_ipv6_addr s = Some (ip, rest) -> v6_wf ip.
Proof.
  unfold read_ipv6_addr. destruct (read_groups 8 0 s) as [[head b] s1] eqn:E1.
  apply read_groups_wf in E1 as [Hl1 Hf1]. destruct (length head =? 8) eqn:E8.
  { intros. simplify_eq. by apply Nat.eqb_eq in E8. }
  bool_to_prop. destruct b; [done|]. destruct (strip_prefix _ _) as [s2|]; [|done].
  destruct (read_groups _ 0 s2) as [[tail b] s3] eqn:E2. apply read_groups_wf in E2 as [Hl2 Hf2].
  intros. simplify_eq. split; simpl.
  - rewrite !length_app, length_replicate. lia.
  - apply Forall_app; split; [done|]. apply Forall_app; split; [|done]. by apply Forall_replicate.
Qed.

Lemma parse_ip_wf (s : str) (ip : IpAddr) : parse_ip s = Some ip -> ip_wf ip.
Proof.
  unfold parse_ip, read_ip_addr. intros H.
  destruct (read_ipv4_addr s) as [[v4 s1]|] eqn:E4.
  { destruct s1; simplify_eq. by eapply read_ipv4_wf. }
  destruct (read_ipv6_addr s) as [[v6 s1]|] eqn:E6; [|done].
  destruct s1; simplify_eq. by eapply read_ipv6_wf.
Qed.

(** ** The ranges as numbers *)

(** An address of the sixth version as a number of 128 bits. *)
Definition to_u128 (ip : Ipv6Addr) : N := foldl (fun acc s => acc * 65536 + s)%N 0%N (segments ip).

(** The ranges of addresses that are not public, first and last address of each. *)
Definition v4_ranges : list (Ipv4Addr * Ipv4Addr) :=
  [ (v4 0 0 0 0, v4 0 255 255 255); (v4 10 0 0 0, v4 10 255 255 255);
    (v4 100 64 0 0, v4 100 127 255 255); (v4 127 0 0 0, v4 127 255 255 255);
    (v4 169 254 0 0, v4 169 254 255 255); (v4 172 16 0 0, v4 172 31 255 255);
    (v4 192 0 0 0, v4 192 0 0 255); (v4 192 0 2 0, v4 192 0 2 255);
    (v4 192 168 0 0, v4 192 168 255 255); (v4 198 18 0 0, v4 198 19 255 255);
    (v4 198 51 100 0, v4 198 51 100 255); (v4 203 0 113 0, v4 203 0 113 255);
    (v4 224 0 0 0, v4 255 255 255 255) ].

Definition in_v4_ranges (n : N) : Prop :=
  Exists (fun r => to_u32 r.1 <= n <= to_u32 r.2)%N v4_ranges.

Lemma lor_shiftl_add (a b n : N) : (b < 2 ^ n)%N -> N.lor (N.shiftl a n) b = (a * 2 ^ n + b)%N.
Proof.
  intros Hb. rewrite N.shiftl_mul_pow2.
  assert (N.land (a * 2 ^ n) b = 0%N) as H0.
  { apply N.bits_inj_0. intros i. rewrite N.land_spec.
    destruct (N.lt_ge_cases i n) as [Hi|Hi]; [by rewrite N.mul_pow2_bits_low|].
    replace b with (b mod 2 ^ n)%N by (apply N.mod_small; lia).
    rewrite N.mod_pow2_bits_high by lia. by rewrite andb_false_r. }
  by rewrite N.add_nocarry_lxor, N.lxor_lor.
Qed.

Lemma to_u32_value (ip : Ipv4Addr) :
  v4_wf ip ->
  to_u32 ip = (octet1 ip * 16777216 + octet2 ip * 65536 + octet3 ip * 256 + octet4 ip)%N.
Proof.
  intros (H1 & H2 & H3 & H4). unfold to_u32.
  rewrite (lor_shiftl_add (octet3 ip)) by (change (2 ^ 8)%N with 256%N; lia).
  rewrite (lor_shiftl_add (octet2 ip))
    by (change (2 ^ 8)%N with 256%N; change (2 ^ 16)%N with 65536%N; lia).
  rewrite (lor_shiftl_add (octet1 ip))
    by (change (2 ^ 8)%N with 256%N; change (2 ^ 16)%N with 65536%N;
        change (2 ^ 24)%N with 16777216%N; lia).
  change (2 ^ 8)%N with 256%N; change (2 ^ 16)%N with 65536%N;
    change (2 ^ 24)%N with 16777216%N. lia.
Qed.

(** A mask of the high bits of a [w]-bit number. *)
Lemma land_high (w k x : N) :
  (x < 2 ^ w)%N -> N.land x (N.land (N.shiftl (N.ones w) k) (N.ones w)) = (x / 2 ^ k * 2 ^ k)%N.
Proof.
  intros Hx.
  rewrite (N.land_comm (N.shiftl _ _)), N.land_assoc, N.land_ones, (N.mod_small x) by lia.
  rewrite <- N.shiftr_div_pow2, <- N.shiftl_mul_pow2. apply N.bits_inj. intros i.
  rewrite N.land_spec. destruct (N.lt_ge_cases i k) as [Hi|Hi].
  - rewrite !N.shiftl_spec_low by lia. apply andb_false_r.
  - rewrite !N.shiftl_spec_high' by lia. rewrite N.shiftr_spec', N.sub_add by lia.
    destruct (N.lt_ge_cases (i - k) w) as [H|H].
    + rewrite N.ones_spec_low by lia. apply andb_true_r.
    + replace x with (x mod 2 ^ w)%N at 1 2 by (apply N.mod_small; lia).
      rewrite N.mod_pow2_bits_high by lia. done.
Qed.

Lemma land_mask (x prefix : N) :
  (x < 2 ^ 32)%N -> (0 < prefix <= 32)%N ->
  N.land x (u32_mask prefix) = (x / 2 ^ (32 - prefix) * 2 ^ (32 - prefix))%N.
Proof.
  intros Hx Hp. unfold u32_mask. rewrite (proj2 (N.eqb_neq _ _)) by lia.
  change U32_MAX with (N.ones 32). by apply land_high.
Qed.

Lemma in_cidr (ip base : Ipv4Addr) (prefix : N) :
  (to_u32 ip < 2 ^ 32)%N -> (to_u32 base < 2 ^ 32)%N -> (0 < prefix <= 32)%N ->
  ipv4_in_cidr ip base prefix = true <->
  (to_u32 ip / 2 ^ (32 - prefix) = to_u32 base / 2 ^ (32 - prefix))%N.
Proof.
  intros Hx Hb Hp. unfold ipv4_in_cidr. rewrite N.eqb_eq, !land_mask by done.
  assert (2 ^ (32 - prefix) <> 0)%N by (apply N.pow_nonzero; lia). nia.
Qed.

Lemma u32_bound (ip : Ipv4Addr) : v4_wf ip -> (to_u32 ip < 2 ^ 32)%N.
Proof. intros H. rewrite to_u32_value by done. destruct H as (?&?&?&?). lia. Qed.

(** A prefix of a block is a range when the block ends where the prefix does. *)
Lemma cidr_range (ip base last : Ipv4Addr) (prefix : N) :
  v4_wf ip -> (to_u32 base < 2 ^ 32)%N -> (0 < prefix <= 32)%N ->
  (to_u32 base mod 2 ^ (32 - prefix) = 0)%N ->
  (to_u32 last = to_u32 base + (2 ^ (32 - prefix) - 1))%N ->
  ipv4_in_cidr ip base prefix = true <-> (to_u32 base <= to_u32 ip <= to_u32 last)%N.
Proof.
  intros Hip Hb Hp Hm Hl. rewrite in_cidr by first [done|by apply u32_bound].
  assert (2 ^ (32 - prefix) <> 0)%N as H0 by (apply N.pow_nonzero; lia).
  pose proof (N.div_mod (to_u32 base) _ H0). pose proof (N.div_mod (to_u32 ip) _ H0).
  pose proof (N.mod_lt (to_u32 ip) _ H0). rewrite Hl, Hm, N.add_0_r in *.
  generalize dependent (to_u32 ip mod 2 ^ (32 - prefix))%N.
  generalize dependent (to_u32 ip / 2 ^ (32 - prefix))%N.
  generalize dependent (to_u32 base / 2 ^ (32 - prefix))%N. intros b Hbase i r Hi Hr.
  generalize dependent (2 ^ (32 - prefix))%N. intros X _ _ HX Hbase Hi Hr.
  rewrite Hi, Hbase. split; [intros ->; lia|]. intros [H1 H2].
  apply N.le_antisymm; apply N.lt_succ_r, (N.mul_lt_mono_pos_l X); lia.
Qed.

(** Equations of octets as ranges. *)
Lemma octets_range (ip : Ipv4Addr) :
  v4_wf ip ->
  (v4_is_loopback ip = true <-> (2130706432 <= to_u32 ip <= 2147483647)%N) /\
  (v4_is_private ip = true <->
     (167772160 <= to_u32 ip <= 184549375 \/ 2886729728 <= to_u32 ip <= 2887778303 \/
      3232235520 <= to_u32 ip <= 3232301055)%N) /\
  (v4_is_link_local ip = true <-> (2851995648 <= to_u32 ip <= 2852061183)%N) /\
  (v4_is_multicast ip = true <-> (3758096384 <= to_u32 ip <= 4026531839)%N) /\
  (v4_is_broadcast ip = true <-> to_u32 ip = 4294967295%N).
Proof.
  intros H. pose proof (to_u32_value ip H) as E. destruct H as (?&?&?&?).
  unfold v4_is_loopback, v4_is_private, v4_is_link_local, v4_is_multicast, v4_is_broadcast.
  rewrite ?orb_true_iff, ?andb_true_iff, ?N.eqb_eq, ?N.leb_le. rewrite E. lia.
Qed.

(** Facts about constants. *)
Ltac constants := first [done | by split | by vm_compute | by split; vm_compute].

Ltac compute_addresses :=
  repeat match goal with
  | |- context [to_u32 (v4 ?a ?b ?c ?d)] =>
      let n := eval vm_compute in (to_u32 (v4 a b c d)) in
      change (to_u32 (v4 a b c d)) with n
  end.

Lemma v4_non_public (ip : Ipv4Addr) :
  v4_wf ip -> is_non_public_ipv4 ip = true <-> in_v4_ranges (to_u32 ip).
Proof.
  intros H. unfold is_non_public_ipv4, in_v4_ranges, v4_ranges.
  destruct (octets_range ip H) as (E1 & E2 & E3 & E4 & E5).
  rewrite !orb_true_iff, E1, E2, E3, E4, E5.
  unfold v4_is_unspecified. rewrite N.eqb_eq.
  rewrite (cidr_range ip (v4 0 0 0 0) (v4 0 255 255 255)) by constants.
  rewrite (cidr_range ip (v4 100 64 0 0) (v4 100 127 255 255)) by constants.
  rewrite (cidr_range ip (v4 192 0 0 0) (v4 192 0 0 255)) by constants.
  rewrite (cidr_range ip (v4 192 0 2 0) (v4 192 0 2 255)) by constants.
  rewrite (cidr_range ip (v4 198 18 0 0) (v4 198 19 255 255)) by constants.
  rewrite (cidr_range ip (v4 198 51 100 0) (v4 198 51 100 255)) by constants.
  rewrite (cidr_range ip (v4 203 0 113 0) (v4 203 0 113 255)) by constants.
  rewrite (cidr_range ip (v4 240 0 0 0) (v4 255 255 255 255)) by constants.
  rewrite !Exists_cons, Exists_nil. cbn [fst snd]. pose proof (u32_bound ip H) as Hb.
  clear. generalize dependent (to_u32 ip). intros n. compute_addresses. lia.
Qed.

(** ** Addresses of the sixth version *)

Lemma segment_masks (a : N) :
  (a < 65536)%N ->
  (N.land a 0xff00 = 0xff00 <-> 65280 <= a)%N /\
  (N.land a 0xfe00 = 0xfc00 <-> 64512 <= a < 65024)%N /\
  (N.land a 0xffc0 = 0xfe80 <-> 65152 <= a < 65216)%N.
Proof.
  intros Ha.
  pose proof (land_high 16 8 a Ha) as H8. pose proof (land_high 16 9 a Ha) as H9.
  pose proof (land_high 16 6 a Ha) as H6.
  change (N.land (N.shiftl (N.ones 16) 8) (N.ones 16)) with 0xff00%N in H8.
  change (N.land (N.shiftl (N.ones 16) 9) (N.ones 16)) with 0xfe00%N in H9.
  change (N.land (N.shiftl (N.ones 16) 6) (N.ones 16)) with 0xffc0%N in H6.
  change (2 ^ 8)%N with 256%N in H8; change (2 ^ 9)%N with 512%N in H9;
    change (2 ^ 6)%N with 64%N in H6.
  rewrite H8, H9, H6. clear H8 H9 H6. split_and!; zify; Z.to_euclidean_division_equations; lia.
Qed.

(** What is not public: [::1] and [::], unique local, link local and multicast
    addresses, and the mapped and compatible forms of what is not public in the fourth
    version. *)
Definition in_v6_ranges (n : N) : Prop :=
  (n < 2 ^ 32 /\ in_v4_ranges n \/
   0xffff * 2 ^ 32 <= n < 2 ^ 48 /\ in_v4_ranges (n - 0xffff * 2 ^ 32) \/
   0xfc00 * 2 ^ 112 <= n < 0xfe00 * 2 ^ 112 \/
   0xfe80 * 2 ^ 112 <= n < 0xfec0 * 2 ^ 112 \/
   0xff00 * 2 ^ 112 <= n < 2 ^ 128)%N.

Lemma to_u128_value (a b c d e f g h : N) :
  to_u128 {| segments := [a; b; c; d; e; f; g; h] |} =
  (a * 2 ^ 112 + b * 2 ^ 96 + c * 2 ^ 80 + d * 2 ^ 64 + e * 2 ^ 48 + f * 2 ^ 32
   + g * 2 ^ 16 + h)%N.
Proof. unfold to_u128. cbn [foldl segments]. lia. Qed.

Lemma v6_wf_inv (ip : Ipv6Addr) :
  v6_wf ip ->
  exists a b c d e f g h, ip = {| segments := [a; b; c; d; e; f; g; h] |} /\
    (a < 65536 /\ b < 65536 /\ c < 65536 /\ d < 65536 /\
     e < 65536 /\ f < 65536 /\ g < 65536 /\ h < 65536)%N.
Proof.
  destruct ip as [l]. intros [Hl Hs]. simpl in *.
  do 9 (destruct l as [|? l]; [try done|]); [|done].
  repeat (apply Forall_cons in Hs as [? Hs]). do 8 eexists. by split_and!.
Qed.

(** The last 32 bits, read as octets, are the same number. *)
Lemma embedded_v4 (g h : N) :
  (g < 65536 -> h < 65536 ->
   let ip := {| octet1 := N.shiftr g 8; octet2 := N.land g 0xff;
                octet3 := N.shiftr h 8; octet4 := N.land h 0xff |} in
   v4_wf ip /\ to_u32 ip = g * 65536 + h)%N.
Proof.
  intros Hg Hh ip. change 0xff%N with (N.ones 8) in ip.
  assert (v4_wf ip) as Hw.
  { unfold v4_wf; subst ip; simpl. rewrite !N.shiftr_div_pow2, !N.land_ones.
    change (2 ^ 8)%N with 256%N. zify. Z.to_euclidean_division_equations. lia. }
  split; [done|]. rewrite to_u32_value by done. subst ip; cbn [octet1 octet2 octet3 octet4].
  rewrite !N.shiftr_div_pow2, !N.land_ones.
  change (2 ^ 8)%N with 256%N. clear. zify. Z.to_euclidean_division_equations. lia.
Qed.

Definition embeds_v4 (a b c d e f : N) : bool :=
  ((a =? 0) && (b =? 0) && (c =? 0) && (d =? 0) && (e =? 0) && ((f =? 0) || (f =? 0xffff)))%N.

Lemma v6_embedded (f g h : N) :
  (f = 0 \/ f = 0xffff)%N -> (g < 65536)%N -> (h < 65536)%N ->
  let ip := {| segments := [0; 0; 0; 0; 0; f; g; h]%N |} in
  is_non_public_ipv6 ip = true <-> in_v6_ranges (to_u128 ip).
Proof.
  intros Hf Hg Hh ip. destruct (embedded_v4 g h Hg Hh) as [Hw Hv].
  assert (is_non_public_ipv6 ip = true <->
    in_v4_ranges (g * 65536 + h) \/ [0; 0; 0; 0; 0; f; g; h]%N = [0; 0; 0; 0; 0; 0; 0; 1]%N) as ->.
  { rewrite <- Hv, <- v4_non_public by done.
    destruct Hf as [->| ->]; unfold is_non_public_ipv6, v6_is_loopback, ip; cbn [segments];
      (change (to_ipv4 _) with (Some {| octet1 := N.shiftr g 8; octet2 := N.land g 0xff;
                octet3 := N.shiftr h 8; octet4 := N.land h 0xff |})); cbv iota;
      by rewrite orb_true_iff, bool_decide_eq_true. }
  unfold in_v6_ranges, ip. rewrite to_u128_value. destruct Hf as [->| ->].
  - replace (_ + _ + h)%N with (g * 65536 + h)%N by lia.
    split; [|intros [[_ ?]|H]; [by left|lia]].
    intros [?|Heq]; [left; split; [lia|done]|]. injection Heq as -> ->.
    left. split; [done|]. by left.
  - split; [intros [H|?]; [|done]|intros H; left; destruct H as [[? _]|[[_ H]|?]]; [lia| |lia]].
    + right; left. split; [lia|]. by replace (_ - _)%N with (g * 65536 + h)%N by lia.
    + by replace (_ - _)%N with (g * 65536 + h)%N in H by lia.
Qed.

Lemma v6_own (a b c d e f g h : N) :
  let ip := {| segments := [a; b; c; d; e; f; g; h] |} in
  v6_wf ip -> embeds_v4 a b c d e f = false ->
  is_non_public_ipv6 ip = true <-> in_v6_ranges (to_u128 ip).
Proof.
  intros ip (?&?&?&?&?&?&?&?& Heq & Ha & Hb & Hc & Hd & He & Hf & Hg & Hh)%v6_wf_inv E.
  injection Heq as <- <- <- <- <- <- <- <-.
  assert (a <> 0 \/ b <> 0 \/ c <> 0 \/ d <> 0 \/ e <> 0 \/ (f <> 0 /\ f <> 0xffff))%N as Hn.
  { unfold embeds_v4 in E.
    destruct (N.eqb_spec a 0), (N.eqb_spec b 0), (N.eqb_spec c 0), (N.eqb_spec d 0),
      (N.eqb_spec e 0), (N.eqb_spec f 0), (N.eqb_spec f 0xffff); simpl in E; try done; tauto. }
  unfold is_non_public_ipv6, to_ipv4, in_v6_ranges, ip. rewrite to_u128_value. cbn [segments].
  fold (embeds_v4 a b c d e f). rewrite E. destruct (segment_masks a Ha) as (H1 & H2 & H3).
  unfold v6_is_loopback, v6_is_unspecified, v6_is_multicast, v6_is_unique_local,
    v6_is_unicast_link_local, segment. cbn [segments lookup list_lookup default from_option].
  rewrite !orb_true_iff, !bool_decide_eq_true, !N.eqb_eq, H1, H2, H3. clear H1 H2 H3 E.
  split.
  - intros [[[[Heq|Heq]|?]|?]|?]; [injection Heq; lia..|right; right; lia|right; right; lia|].
    right; right; lia.
  - intros [[? _]|[[? _]|H]]; [exfalso; lia..|]. lia.
Qed.

(** What the proxy takes for a local destination, as ranges of numbers. In the
    fourth version: the blocks of [v4_ranges] and nothing else. In the sixth: unique
    local, link local and multicast addresses, and the compatible and mapped forms of
    those blocks (among them [::] and [::1]). *)
Theorem non_public_ranges (ip : IpAddr) :
  ip_wf ip ->
  is_non_public_ip ip = true <->
  match ip with
  | V4 ip => in_v4_ranges (to_u32 ip)
  | V6 ip => in_v6_ranges (to_u128 ip)
  end.
Proof.
  destruct ip as [ip|ip]; simpl; [apply v4_non_public|]. intros Hw.
  pose proof Hw as (a & b & c & d & e & f & g & h & -> & H)%v6_wf_inv.
  destruct (embeds_v4 a b c d e f) eqn:E; [|by apply v6_own].
  unfold embeds_v4 in E. rewrite !andb_true_iff, orb_true_iff, !N.eqb_eq in E.
  destruct E as (((((-> & ->) & ->) & ->) & ->) & E). apply v6_embedded; [done|apply H..].
Qed.

Lemma non_public_ranges_witness :
  let ip := V6 {| segments := [0; 0; 0; 0; 0; 0xffff; 0xc0a8; 1]%N |} in
  ip_wf ip /\ is_non_public_ip ip = true.
Proof.
  intros ip. assert (ip_wf ip) as Hw by (split; [done|repeat constructor]).
  split; [exact Hw|]. apply (non_public_ranges ip Hw). right. left.
  split; [by vm_compute|]. do 8 right. left. by vm_compute.
Defined.

End NetIp.

(** * Hosts and domain patterns: src/network-proxy/src/policy.rs

    The normal form of a host, the patterns of allow and deny lists and their
    compilation into sets of globs, and the comparison of patterns that keeps a user's
    allow list inside a managed one. The crates [globset] and [url] are parameters. *)

Import NetIp.

Module NetHost.

(** [s.split_once(needle)] for a string. *)
Definition split_once_str (needle s : str) : option (str * str) :=
  match find needle s with
  | Some i => Some (take i s, drop (i + length needle) s)
  | None => None
  end.

Definition trim_end_dots (s : str) : str := drop_while_end (N.eqb (ch ".")) s.

(** ** Hosts *)

Definition unscoped_ip_literal (host : str) : option str :=
  match split_once (ch "%") host with
  | Some (ip, _) => if is_ip ip then Some ip else None
  | None => None
  end.

Definition scoped_literal (delimiter host : str) : option str :=
  match split_once_str delimiter host with
  | Some (ip, scope) => if is_ip ip then Some (ip ++ lit "%" ++ scope) else None
  | None => None
  end.

Definition normalize_ip_literal (host : str) : option str :=
  if is_ip host then Some host
  else match scoped_literal (lit "%25") host with
       | Some ip => Some ip
       | None => scoped_literal (lit "%") host
       end.

Definition normalize_dns_host_or_ip_literal (host : str) : str :=
  let host := trim_end_dots (to_ascii_lowercase host) in
  match normalize_ip_literal host with Some ip => ip | None => host end.

(** The part of a host that is normalised: what brackets hold, or what comes before the
    only colon. *)
Definition host_part (host : str) : str :=
  match (if starts_with (lit "[") host then split_once (ch "]") host else None) with
  | Some (inside, _) => drop 1 inside
  | None =>
      if count_char (ch ":") host =? 1 then default [] (head (split_on (ch ":") host)) else host
  end.

Definition normalize_host (host : str) : str :=
  normalize_dns_host_or_ip_literal (host_part (trim host)).

(** [Host::parse] *)
Definition parse_host (input : str) : result str str :=
  let normalized := normalize_host input in
  if str_eqb normalized [] then Err (lit "host is empty") else Ok normalized.

Definition is_loopback_host (host : str) : bool :=
  let host := default host (unscoped_ip_literal host) in
  if str_eqb host (lit "localhost") then true
  else match parse_ip host with
       | Some ip => ip_is_loopback ip
       | None => false
       end.

(** ** Patterns *)

Inductive DomainPattern :=
| ApexAndSubdomains (domain : str)
| SubdomainsOnly (domain : str)
| Exact (domain : str).

#[export] Instance DomainPattern_eq_dec : EqDecision DomainPattern.
Proof. solve_decision. Defined.

Definition normalize_pattern (pattern : str) : str :=
  let pattern := trim pattern in
  if str_eqb pattern (lit "*") then lit "*"
  else
    let '(prefix, remainder) :=
      match strip_prefix (lit "**.") pattern with
      | Some domain => (lit "**.", domain)
      | None => match strip_prefix (lit "*.") pattern with
                | Some domain => (lit "*.", domain)
                | None => ([], pattern)
                end
      end in
    let remainder := normalize_host remainder in
    if str_eqb prefix [] then remainder else prefix ++ remainder.

Definition parse_domain (domain : str) (build : str -> DomainPattern) : DomainPattern :=
  let domain := trim domain in
  if str_eqb domain [] then Exact [] else build domain.

(** [DomainPattern::parse] *)
Definition parse_pattern (input : str) : DomainPattern :=
  let input := trim input in
  if str_eqb input [] then Exact []
  else match strip_prefix (lit "**.") input with
       | Some domain => parse_domain domain ApexAndSubdomains
       | None => match strip_prefix (lit "*.") input with
                 | Some domain => parse_domain domain SubdomainsOnly
                 | None => Exact input
                 end
       end.

Definition expand_domain_pattern (pattern : str) : list str :=
  match parse_pattern pattern with
  | Exact domain => [domain]
  | SubdomainsOnly domain => [lit "?*." ++ domain]
  | ApexAndSubdomains domain => [domain; lit "?*." ++ domain]
  end.

Definition is_global_wildcard_domain_pattern (pattern : str) : bool :=
  let normalized := normalize_pattern pattern in
  existsb (fun candidate => str_eqb candidate (lit "*")) (expand_domain_pattern normalized).

(** ** Comparison of patterns *)

Definition normalize_domain (domain : str) : str := to_ascii_lowercase (trim_end_dots domain).

Definition domain_eq (left right : str) : bool :=
  str_eqb (normalize_domain left) (normalize_domain right).

Definition is_subdomain_or_equal (child parent : str) : bool :=
  let child := normalize_domain child in
  let parent := normalize_domain parent in
  if str_eqb child parent then true else ends_with (lit "." ++ parent) child.

Definition is_strict_subdomain (child parent : str) : bool :=
  let child := normalize_domain child in
  let parent := normalize_domain parent in
  negb (str_eqb child parent) && ends_with (lit "." ++ parent) child.

Definition allows (self candidate : DomainPattern) : bool :=
  match self with
  | Exact domain =>
      match candidate with
      | Exact candidate => domain_eq candidate domain
      | _ => false
      end
  | SubdomainsOnly domain =>
      match candidate with
      | Exact candidate => is_strict_subdomain candidate domain
      | SubdomainsOnly candidate => is_subdomain_or_equal candidate domain
      | ApexAndSubdomains candidate => is_strict_subdomain candidate domain
      end
  | ApexAndSubdomains domain =>
      match candidate with
      | Exact candidate => is_subdomain_or_equal candidate domain
      | SubdomainsOnly candidate => is_subdomain_or_equal candidate domain
      | ApexAndSubdomains candidate => is_subdomain_or_equal candidate domain
      end
  end.

Section Url.
(** [url::Host::parse], with the text of the host it gives. *)
Context (url_host : str -> option str).

Definition parse_domain_for_constraints (domain : str) : str :=
  let domain := trim_end_dots (trim domain) in
  if str_eqb domain [] then []
  else
    let host := if starts_with (lit "[") domain && ends_with (lit "]") domain
                then take (length domain - 1 - 1) (drop 1 domain) else domain in
    if contains_char (ch "*") host || contains_char (ch "?") host || contains_char (ch "%") host
    then domain
    else match url_host host with Some host => host | None => [] end.

Definition parse_for_constraints (input : str) : DomainPattern :=
  let input := trim input in
  if str_eqb input [] then Exact []
  else match strip_prefix (lit "**.") input with
       | Some domain => ApexAndSubdomains (parse_domain_for_constraints domain)
       | None => match strip_prefix (lit "*.") input with
                 | Some domain => SubdomainsOnly (parse_domain_for_constraints domain)
                 | None => Exact (parse_domain_for_constraints input)
                 end
       end.
End Url.

(** ** Sets of globs *)

Inductive GlobalWildcard := AllowGlobal | RejectGlobal.

#[export] Instance GlobalWildcard_eq_dec : EqDecision GlobalWildcard.
Proof. solve_decision. Defined.

Section Globs.
(** The crate [globset]: a glob that ignores case, and the set of some globs. *)
Context {Glob GlobSet : Type}.
Context (glob_new : str -> result str Glob) (globset_build : list Glob -> result str GlobSet).

Definition GLOBAL_WILDCARD_MESSAGE : str :=
  lit "unsupported global wildcard domain pattern " ++ [34%N] ++ lit "*" ++ [34%N]
  ++ lit "; use exact hosts or scoped wildcards like *.example.com or **.example.com".

(** The inner loop; a candidate that was seen is skipped. *)
Fixpoint add_candidates (candidates : list str) (seen : gset (list N)) (builder : list Glob)
    : result str (gset (list N) * list Glob) :=
  match candidates with
  | [] => Ok (seen, builder)
  | candidate :: candidates =>
      if bool_decide (candidate ∈ seen) then add_candidates candidates seen builder
      else
        glob ← map_err (fun _ => lit "invalid glob pattern: " ++ candidate) (glob_new candidate);
        add_candidates candidates ({[candidate]} ∪ seen) (builder ++ [glob])
  end.

Fixpoint add_patterns (global_wildcard : GlobalWildcard) (patterns : list str)
    (seen : gset (list N)) (builder : list Glob) : result str (list Glob) :=
  match patterns with
  | [] => Ok builder
  | pattern :: patterns =>
      if bool_decide (global_wildcard = RejectGlobal) && is_global_wildcard_domain_pattern pattern
      then Err GLOBAL_WILDCARD_MESSAGE
      else
        '(seen, builder) ←
           add_candidates (expand_domain_pattern (normalize_pattern pattern)) seen builder;
        add_patterns global_wildcard patterns seen builder
  end.

Definition compile_globset_with_policy (patterns : list str) (global_wildcard : GlobalWildcard)
    : result str GlobSet :=
  builder ← add_patterns global_wildcard patterns ∅ [];
  globset_build builder.

Definition compile_allowlist_globset (patterns : list str) : result str GlobSet :=
  compile_globset_with_policy patterns AllowGlobal.

Definition compile_denylist_globset (patterns : list str) : result str GlobSet :=
  compile_globset_with_policy patterns RejectGlobal.

End Globs.

End NetHost.
