(* ===== verification/NetHostFacts.v ===== *)
(** * Hosts and domain patterns: what they mean

    The comparison of patterns decides whether one pattern covers every host of the
    other; a compiled set of globs matches the hosts that its patterns cover; the normal
    form of a host. *)

From Stdlib Require Import Ascii String.
From S2P Require Import Prelude RustStr NetHost.
Import NetIp NetHost.

Module NetHostFacts.

(** ** The normal form of a host *)

Lemma split_once_str_Some (needle s a b : str) :
  split_once_str needle s = Some (a, b) -> s = a ++ needle ++ b.
Proof.
  unfold split_once_str. destruct (find needle s) as [i|] eqn:E; [|done].
  intros H. simplify_eq. revert i E. induction s as [|c s IH]; intros i E; cbn [find] in E.
  - destruct (starts_with needle []) eqn:Es; [|done]. simplify_eq.
    apply starts_with_true in Es as [r Hr]. symmetry in Hr. by apply app_nil in Hr as [-> _].
  - destruct (starts_with needle (c :: s)) eqn:Es.
    + simplify_eq. apply starts_with_true in Es as [r ->]. simpl. by rewrite drop_app_length.
    + destruct (find needle s) as [j|]; [|done]. simpl in E. simplify_eq. simpl.
      f_equal. by apply IH.
Qed.

Lemma trim_end_dots_last (s : str) : last (trim_end_dots s) <> Some (ch ".").
Proof.
  unfold trim_end_dots, drop_while_end. rewrite last_reverse. intros H.
  destruct (drop_while _ _) as [|c l] eqn:E; [done|]. simpl in H. simplify_eq.
  apply drop_while_head in E. by rewrite N.eqb_refl in E.
Qed.

Lemma trim_end_dots_id (s : str) : last s <> Some (ch ".") -> trim_end_dots s = s.
Proof.
  intros H. destruct s as [|c s _] using rev_ind; [done|]. rewrite last_snoc in H.
  apply drop_while_end_id, N.eqb_neq. congruence.
Qed.

(** A literal with a scope is made of the parts of the host. *)
Lemma scoped_literal_shape (delimiter host ip : str) :
  scoped_literal delimiter host = Some ip ->
  exists a scope, is_ip a = true /\ ip = a ++ lit "%" ++ scope /\ host = a ++ delimiter ++ scope.
Proof.
  unfold scoped_literal. destruct (split_once_str delimiter host) as [[a b]|] eqn:E; [|done].
  destruct (is_ip a) eqn:Ea; [|done]. intros. simplify_eq. exists a, b.
  split_and!; [done|done|by apply split_once_str_Some].
Qed.

Lemma normalize_ip_literal_shape (host ip : str) :
  normalize_ip_literal host = Some ip ->
  ip = host \/ exists a scope delimiter,
    is_ip a = true /\ ip = a ++ lit "%" ++ scope /\ host = a ++ delimiter ++ scope.
Proof.
  unfold normalize_ip_literal. destruct (is_ip host); [intros; simplify_eq; by left|].
  destruct (scoped_literal (lit "%25") host) as [ip'|] eqn:E; intros H; right; simplify_eq.
  - apply scoped_literal_shape in E as (a & b & ? & ? & ?). by exists a, b, (lit "%25").
  - apply scoped_literal_shape in H as (a & b & ? & ? & ?). by exists a, b, (lit "%").
Qed.

Lemma normalize_dns_shape (host : str) :
  let n := normalize_dns_host_or_ip_literal host in
  lower_case n /\ last n <> Some (ch ".").
Proof.
  unfold normalize_dns_host_or_ip_literal.
  assert (lower_case (trim_end_dots (to_ascii_lowercase host))) as Hl.
  { destruct (drop_while_end_prefix (N.eqb (ch ".")) (to_ascii_lowercase host)) as (r & E & _).
    pose proof (to_lowercase_lower host) as H. rewrite E in H. by apply Forall_app in H as [H _]. }
  pose proof (trim_end_dots_last (to_ascii_lowercase host)) as Ht.
  revert Hl Ht. generalize (trim_end_dots (to_ascii_lowercase host)). intros h Hl Ht.
  destruct (normalize_ip_literal h) as [ip|] eqn:E; [|done].
  apply normalize_ip_literal_shape in E as [->|(a & scope & d & _ & -> & ->)]; [done|].
  unfold lower_case in *. rewrite !Forall_app in Hl. destruct Hl as (Ha & _ & Hs). split.
  - rewrite !Forall_app. split_and!; [done| |done]. by repeat constructor.
  - destruct scope as [|c scope]; [by rewrite app_nil_r, last_app_nonempty|].
    rewrite app_assoc, last_app_nonempty in Ht by done.
    by rewrite app_assoc, last_app_nonempty.
Qed.

(** A parsed host is not empty, in lower case, and has no dot at its end. One
    without brackets, port, scope or surrounding white space is its own normal form, so
    that the pattern added for a host is the pattern the host is matched against. *)
Theorem parsed_host_normal (input host : str) :
  parse_host input = Ok host ->
  host <> [] /\ lower_case host /\ last host <> Some (ch ".") /\
  (trim host = host -> starts_with (lit "[") host = false -> ch "%" ∉ host ->
   count_char (ch ":") host <> 1 -> parse_host host = Ok host).
Proof.
  unfold parse_host. destruct (str_eqb (normalize_host input) []) eqn:E; [done|].
  intros H. simplify_eq. apply str_eqb_neq in E. split; [done|].
  pose proof (normalize_dns_shape (host_part (trim input))) as [Hl Hd].
  fold (normalize_host input) in Hl, Hd. split; [done|]. split; [done|].
  revert E Hl Hd. generalize (normalize_host input). intros h E Hl Hd Ht Hb Hp Hc.
  assert (normalize_host h = h) as ->.
  { unfold normalize_host, host_part. rewrite Ht, Hb, (proj2 (Nat.eqb_neq _ _) Hc).
    unfold normalize_dns_host_or_ip_literal.
    rewrite to_lowercase_id, trim_end_dots_id by done.
    destruct (normalize_ip_literal h) as [ip|] eqn:Ei; [|done].
    unfold normalize_ip_literal, scoped_literal in Ei.
    destruct (is_ip h); [by simplify_eq|].
    destruct (split_once_str (lit "%25") h) as [[a b]|] eqn:E1.
    { apply split_once_str_Some in E1. destruct Hp. rewrite E1. set_solver. }
    destruct (split_once_str (lit "%") h) as [[a b]|] eqn:E2; [|done].
    apply split_once_str_Some in E2. destruct Hp. rewrite E2. set_solver. }
  by rewrite (proj2 (str_eqb_neq _ _) E).
Qed.

Lemma parsed_host_normal_witness :
  parse_host (lit " [FE80::1] ") = Ok (lit "fe80::1") /\
  parse_host (lit "fe80::1") = Ok (lit "fe80::1").
Proof.
  split; [reflexivity|].
  apply (parsed_host_normal (lit " [FE80::1] ")); try reflexivity.
  - intros H. by apply (bool_decide_pack _) in H.
  - by vm_compute.
Defined.

(** ** What a pattern covers *)

(** [h] is a name below the domain [d]. *)
Definition below (h d : str) : Prop := exists x, h = x ++ lit "." ++ d.

Definition covers (p : DomainPattern) (h : str) : Prop :=
  match p with
  | Exact d => h = normalize_domain d
  | SubdomainsOnly d => below h (normalize_domain d)
  | ApexAndSubdomains d => h = normalize_domain d \/ below h (normalize_domain d)
  end.

Lemma below_length (h d : str) : below h d -> length d < length h.
Proof. intros [x ->]. rewrite !length_app. simpl. lia. Qed.

Lemma below_trans (a b c : str) : below a b -> below b c -> below a c.
Proof. intros [x ->] [y ->]. exists (x ++ lit "." ++ y). by rewrite <- !app_assoc. Qed.

Lemma ends_with_below (h d : str) : ends_with (lit "." ++ d) h = true <-> below h d.
Proof. apply ends_with_true. Qed.

Lemma strict_below (c d : str) :
  is_strict_subdomain c d = true <-> below (normalize_domain c) (normalize_domain d).
Proof.
  unfold is_strict_subdomain. rewrite andb_true_iff, negb_true_iff, str_eqb_neq, ends_with_below.
  split; [by intros [_ ?]|]. intros H. split; [|done]. intros E. apply below_length in H.
  rewrite E in H. lia.
Qed.

Lemma equal_or_below (c d : str) :
  is_subdomain_or_equal c d = true <->
  normalize_domain c = normalize_domain d \/ below (normalize_domain c) (normalize_domain d).
Proof.
  unfold is_subdomain_or_equal. destruct (str_eqb _ _) eqn:E.
  - apply str_eqb_eq in E. split; [by left|done].
  - apply str_eqb_neq in E. rewrite ends_with_below. naive_solver.
Qed.

(** A long label in front of a domain. *)
Definition long (n : nat) (d : str) : str := replicate n (ch "a") ++ lit "." ++ d.

Lemma long_of (n : nat) (d : str) : below (long n d) d.
Proof. by exists (replicate n (ch "a")). Qed.

Lemma long_below (n : nat) (c d : str) : below (long n c) d -> c = d \/ below c d.
Proof.
  intros [x E]. unfold long in E. apply app_eq_inv in E as [(k & E & Ek)|(k & -> & Ek)].
  - destruct k as [|b k]; [injection Ek; by left|]. exfalso.
    assert (b = ch "a") as ->.
    { apply (elem_of_replicate_inv b n). rewrite E. apply elem_of_app. right. left. }
    by injection Ek.
  - destruct k as [|b k]; [injection Ek; by left|]. injection Ek as _ ->. right. by exists k.
Qed.

Lemma long_length (n : nat) (d : str) : length (long n d) = S (n + length d).
Proof. unfold long. rewrite !length_app, length_replicate. simpl. lia. Qed.

(** Every name below [c] is below [d]. *)
Lemma below_all (c d : str) : (forall h, below h c -> below h d) <-> c = d \/ below c d.
Proof.
  split; [intros H; eapply (long_below 0), H, long_of|].
  intros [->|H] h Hh; [done|by eapply below_trans].
Qed.

Lemma below_or_eq_all (c d : str) :
  (forall h, below h c -> h = d \/ below h d) <-> c = d \/ below c d.
Proof.
  split; [|rewrite <- below_all; auto]. intros H.
  destruct (H (long (length d) c) (long_of _ _)) as [E|E]; [|by eapply long_below].
  apply (f_equal length) in E. rewrite long_length in E. lia.
Qed.

(** A managed pattern allows another exactly when it covers every host that the other
    covers: the comparison is sound, and refuses nothing that it could allow. *)
Lemma allows_iff_covers (managed candidate : DomainPattern) :
  allows managed candidate = true <-> (forall h, covers candidate h -> covers managed h).
Proof.
  destruct managed as [d|d|d], candidate as [c|c|c]; cbn [allows covers];
    unfold domain_eq; rewrite ?equal_or_below, ?strict_below, ?str_eqb_eq;
    generalize (normalize_domain c) as c', (normalize_domain d) as d'; intros c' d'.
  - split; [|naive_solver]. intros [->|H] h [->|Hh]; eauto using below_trans.
  - by rewrite below_or_eq_all.
  - naive_solver.
  - split; [|naive_solver]. intros H h [->|Hh]; eauto using below_trans.
  - by rewrite below_all.
  - naive_solver.
  - split; [done|]. intros H. pose proof (H c' (or_introl eq_refl)) as <-.
    pose proof (H _ (or_intror (long_of 0 c'))) as E. apply (f_equal length) in E.
    rewrite long_length in E. lia.
  - split; [done|]. intros H. pose proof (H _ (long_of 0 c')) as E.
    rewrite <- (H _ (long_of 1 c')) in E. apply (f_equal length) in E.
    rewrite !long_length in E. lia.
  - naive_solver.
Qed.

(** ** Compiled patterns *)

(** A text without the characters that have a meaning in a glob. *)
Definition plain (s : str) : Prop := Forall (fun c => c ∉ lit "*?[]{}\,") s.

#[export] Instance plain_dec (s : str) : Decision (plain s).
Proof. unfold plain. apply _. Defined.

(** What the documentation of the crate promises of globs that ignore case: a plain
    text matches itself, a star any text, a question mark one character; a set matches
    what one of its globs does. *)
Class GlobsetLaws {Glob GlobSet : Type} (glob_new : str -> result str Glob)
    (globset_build : list Glob -> result str GlobSet) (glob_match : Glob -> str -> bool)
    (is_match : GlobSet -> str -> bool) := {
  match_any (gs : list Glob) (set : GlobSet) (h : str) :
    globset_build gs = Ok set -> is_match set h = existsb (fun g => glob_match g h) gs;
  match_plain (d h : str) (g : Glob) :
    plain d -> glob_new d = Ok g ->
    glob_match g h = true <-> to_ascii_lowercase h = to_ascii_lowercase d;
  match_below (d h : str) (g : Glob) :
    plain d -> glob_new (lit "?*." ++ d) = Ok g ->
    glob_match g h = true <->
    exists x, x <> [] /\ to_ascii_lowercase h = x ++ lit "." ++ to_ascii_lowercase d;
  match_star (h : str) (g : Glob) : glob_new (lit "*") = Ok g -> glob_match g h = true;
}.

(** The hosts that a pattern of an allow or deny list stands for. *)
Definition stands_for (pattern h : str) : Prop :=
  let same d := to_ascii_lowercase h = to_ascii_lowercase d in
  let under d := exists x, x <> [] /\ to_ascii_lowercase h = x ++ lit "." ++ to_ascii_lowercase d in
  match parse_pattern (normalize_pattern pattern) with
  | Exact d => d = lit "*" \/ same d
  | SubdomainsOnly d => under d
  | ApexAndSubdomains d => same d \/ under d
  end.

Definition plain_pattern (pattern : str) : Prop :=
  match parse_pattern (normalize_pattern pattern) with
  | Exact d => d = lit "*" \/ plain d
  | SubdomainsOnly d | ApexAndSubdomains d => plain d
  end.

#[export] Instance plain_pattern_dec (p : str) : Decision (plain_pattern p).
Proof. unfold plain_pattern. destruct (parse_pattern _); apply _. Defined.

(** A glob of the crate matches a host. *)
Definition hits {Glob} (glob_new : str -> result str Glob) (glob_match : Glob -> str -> bool)
    (c h : str) : Prop := exists g, glob_new c = Ok g /\ glob_match g h = true.

(** Any pattern: one without globs inside matches the hosts that it stands for; one with
    wildcards, classes or alternatives inside its domain, what the crate says of the domain
    as a glob, and, for the names below it, of the glob with [?*.] in front. *)
Definition matched_by {Glob} (glob_new : str -> result str Glob) (glob_match : Glob -> str -> bool)
    (pattern h : str) : Prop :=
  let same d := hits glob_new glob_match d h in
  let under d := hits glob_new glob_match (lit "?*." ++ d) h in
  if decide (plain_pattern pattern) then stands_for pattern h
  else match parse_pattern (normalize_pattern pattern) with
       | Exact d => same d
       | SubdomainsOnly d => under d
       | ApexAndSubdomains d => same d \/ under d
       end.

Section Compile.
Context `{GlobsetLaws Glob GlobSet glob_new globset_build glob_match is_match}.

Definition built (seen : gset (list N)) (builder : list Glob) : Prop :=
  exists cs, Forall2 (fun c g => glob_new c = Ok g) cs builder /\ forall c, c ∈ seen <-> c ∈ cs.

Lemma add_candidates_built (cands : list str) (seen seen' : gset (list N))
    (builder builder' : list Glob) :
  built seen builder -> add_candidates glob_new cands seen builder = Ok (seen', builder') ->
  built seen' builder' /\ forall c, c ∈ seen' <-> c ∈ seen \/ c ∈ cands.
Proof.
  revert seen builder. induction cands as [|c cands IH]; intros seen builder Hb Ha;
    cbn [add_candidates] in Ha.
  { simplify_eq. split; [done|]. set_solver. }
  case_bool_decide as Hc.
  { apply IH in Ha as [? Hs]; [|done]. split; [done|]. set_solver. }
  apply bind_Ok in Ha as (g & Hg%map_err_Ok & Ha). destruct Hb as (cs & Hf & Hcs).
  apply IH in Ha as [? Hs]; [split; [done|set_solver]|].
  exists (cs ++ [c]). split; [apply Forall2_app; [done|by constructor]|set_solver].
Qed.

Lemma add_patterns_built (gw : GlobalWildcard) (patterns : list str) (seen : gset (list N))
    (builder builder' : list Glob) :
  built seen builder -> add_patterns glob_new gw patterns seen builder = Ok builder' ->
  exists seen', built seen' builder' /\
    (forall c, c ∈ seen' <-> c ∈ seen \/
       exists p, p ∈ patterns /\ c ∈ expand_domain_pattern (normalize_pattern p)) /\
    (gw = RejectGlobal -> Forall (fun p => is_global_wildcard_domain_pattern p = false) patterns).
Proof.
  revert seen builder. induction patterns as [|p patterns IH]; intros seen builder Hb Ha;
    cbn [add_patterns] in Ha.
  { simplify_eq. exists seen. split_and!; [done|set_solver|constructor]. }
  destruct (_ && _) eqn:Eg; [done|]. apply bind_Ok in Ha as ([seen1 b1] & Hc & Ha).
  apply add_candidates_built in Hc as [Hb1 Hs1]; [|done].
  apply IH in Ha as (seen' & Hb' & Hs' & Hg'); [|done]. exists seen'. split_and!; [done| |].
  - intros c. rewrite Hs', Hs1. setoid_rewrite elem_of_cons. naive_solver.
  - intros ->. constructor; [by apply andb_false_iff in Eg as [?|?]|auto].
Qed.

Abbreviation hits := (hits glob_new glob_match).
Abbreviation matched_by := (matched_by glob_new glob_match).

Lemma hits_of (c h : str) (g : Glob) : glob_new c = Ok g -> hits c h <-> glob_match g h = true.
Proof. intros E. split; [intros (g' & E' & ?); congruence|by exists g]. Qed.

Lemma candidates_mean (p h : str) :
  (forall c, c ∈ expand_domain_pattern (normalize_pattern p) -> exists g, glob_new c = Ok g) ->
  plain_pattern p ->
  stands_for p h <->
  exists c, c ∈ expand_domain_pattern (normalize_pattern p) /\ hits c h.
Proof using All.
  unfold stands_for, plain_pattern, expand_domain_pattern.
  destruct (parse_pattern (normalize_pattern p)) as [d|d|d]; intros Hg Hp.
  - destruct (Hg d) as [g1 E1]; [left|]. destruct (Hg (lit "?*." ++ d)) as [g2 E2]; [right; left|].
    setoid_rewrite elem_of_cons. setoid_rewrite list_elem_of_singleton.
    rewrite <- (match_plain d h g1 Hp E1), <- (match_below d h g2 Hp E2),
      <- (hits_of d h g1 E1), <- (hits_of _ h g2 E2). naive_solver.
  - destruct (Hg (lit "?*." ++ d)) as [g2 E2]; [left|]. setoid_rewrite list_elem_of_singleton.
    rewrite <- (match_below d h g2 Hp E2), <- (hits_of _ h g2 E2). naive_solver.
  - destruct (Hg d) as [g E]; [left|]. setoid_rewrite list_elem_of_singleton.
    assert (hits d h <-> d = lit "*" \/ to_ascii_lowercase h = to_ascii_lowercase d) as Hh.
    { rewrite (hits_of d h g E). destruct (decide (d = lit "*")) as [->|Hd].
      - split; [by left|]. intros _. by apply match_star.
      - destruct Hp as [?|Hp]; [done|]. rewrite (match_plain d h g Hp E). naive_solver. }
    rewrite <- Hh. naive_solver.
Qed.

Lemma pattern_means (p h : str) :
  (forall c, c ∈ expand_domain_pattern (normalize_pattern p) -> exists g, glob_new c = Ok g) ->
  matched_by p h <-> exists c, c ∈ expand_domain_pattern (normalize_pattern p) /\ hits c h.
Proof using All.
  intros Hg. unfold NetHostFacts.matched_by. case_decide as Hp; [by apply candidates_mean|].
  unfold expand_domain_pattern. destruct (parse_pattern (normalize_pattern p)) as [d|d|d];
    [setoid_rewrite elem_of_cons| |]; setoid_rewrite list_elem_of_singleton; naive_solver.
Qed.

Lemma built_matches (seen : gset (list N)) (builder : list Glob) (set : GlobSet) (h : str) :
  built seen builder -> globset_build builder = Ok set ->
  is_match set h = true <-> exists c, c ∈ seen /\ hits c h.
Proof using All.
  intros (cs & Hf & Hs) Hb. rewrite (match_any builder set h Hb), existsb_exists.
  setoid_rewrite Hs. clear Hs Hb seen set. split.
  - intros (g & Hg%list_elem_of_In & Hm). apply list_elem_of_lookup in Hg as [i Hi].
    destruct (Forall2_lookup_r _ _ _ _ _ Hf Hi) as (c & Hc & E). exists c.
    split; [by eapply list_elem_of_lookup_2|by exists g].
  - intros (c & Hc & g & E & Hm). apply list_elem_of_lookup in Hc as [i Hi].
    destruct (Forall2_lookup_l _ _ _ _ _ Hf Hi) as (g' & Hg' & E'). assert (g' = g) as -> by congruence.
    exists g. split; [|done]. apply list_elem_of_In. by eapply list_elem_of_lookup_2.
Qed.

(** The set compiled from a list of patterns matches exactly the hosts that one of the
    patterns matches; a deny list compiles only without a pattern for every host. *)
Lemma compiled_set_matches (gw : GlobalWildcard) (patterns : list str) (set : GlobSet) :
  compile_globset_with_policy glob_new globset_build patterns gw = Ok set ->
  (forall h, is_match set h = true <-> exists p, p ∈ patterns /\ matched_by p h) /\
  (gw = RejectGlobal -> Forall (fun p => is_global_wildcard_domain_pattern p = false) patterns).
Proof using All.
  intros Hc. apply bind_Ok in Hc as (builder & Ha & Hb).
  apply (add_patterns_built gw patterns ∅ []) in Ha as (seen & Hbu & Hs & Hg);
    [|exists []; split; [constructor|set_solver]].
  split; [|done]. intros h. rewrite (built_matches seen builder set h Hbu Hb).
  assert (forall c, c ∈ seen -> exists g, glob_new c = Ok g) as Hn.
  { destruct Hbu as (cs & Hf & Hcs). intros c [i Hi]%Hcs%list_elem_of_lookup.
    destruct (Forall2_lookup_l _ _ _ _ _ Hf Hi) as (g & _ & E). by exists g. }
  split.
  - intros (c & [?%elem_of_empty|(p & Hpp & Hcp)]%Hs & Hh); [done|]. exists p. split; [done|].
    apply pattern_means; [|by exists c]. intros c' Hc'. apply Hn, Hs. eauto.
  - intros (p & Hpp & Hm). apply pattern_means in Hm as (c & Hcp & Hh).
    + exists c. split; [|done]. apply Hs. eauto.
    + intros c' Hc'. apply Hn, Hs. eauto.
Qed.

End Compile.

(** ** An implementation of globs for the patterns that the proxy makes *)

Definition simple_match (g h : str) : bool :=
  let h := to_ascii_lowercase h in
  if str_eqb g (lit "*") then true
  else match strip_prefix (lit "?*.") g with
       | Some d => match strip_suffix (lit "." ++ to_ascii_lowercase d) h with
                   | Some x => negb (str_eqb x [])
                   | None => false
                   end
       | None => str_eqb h (to_ascii_lowercase g)
       end.

Definition simple_new (g : str) : result str str := Ok g.
Definition simple_build (gs : list str) : result str (list str) := Ok gs.
Definition simple_is_match (gs : list str) (h : str) : bool :=
  existsb (fun g => simple_match g h) gs.

#[export] Instance simple_laws :
  GlobsetLaws simple_new simple_build simple_match simple_is_match.
Proof.
  split.
  - intros gs set h E. by injection E as <-.
  - intros d h g Hd E. injection E as <-. unfold simple_match.
    destruct (str_eqb d (lit "*")) eqn:E1.
    { apply str_eqb_eq in E1 as ->. apply Forall_cons in Hd as [Hd _]. destruct Hd. left. }
    destruct (strip_prefix _ d) as [r|] eqn:E2; [|apply str_eqb_eq].
    apply strip_prefix_Some in E2 as ->. apply Forall_cons in Hd as [Hd _].
    destruct Hd. right. left.
  - intros d h g Hd E.
    assert (g = lit "?*." ++ d) as -> by (unfold simple_new in E; congruence). unfold simple_match.
    destruct (str_eqb _ _) eqn:E1; [by apply str_eqb_eq in E1|]. rewrite strip_prefix_app.
    destruct (strip_suffix _ _) as [x|] eqn:E2.
    + apply strip_suffix_Some in E2. rewrite negb_true_iff, str_eqb_neq. split; [by exists x|].
      intros (x' & Hx' & E'). rewrite E2 in E'. by apply app_inv_tail in E' as ->.
    + split; [done|]. intros (x & _ & E'). rewrite strip_suffix_None in E2. by destruct (E2 x).
  - intros h g E. by injection E as <-.
Qed.

End NetHostFacts.
