(* ===== verification/NetConfig.v ===== *)
(** * The configuration of the network proxy: src/network-proxy/src/config.rs

    The permissions of domains and sockets with their effective form, the addresses the
    proxies listen on, which are kept on the loopback device, and the parser of
    addresses. The URL parser of the crate [url] is a parameter. *)

From Stdlib Require Import Ascii String.
From stdpp Require Import sorting.
From S2P Require Import Prelude RustStr AbsPath NetHost.
Import NetIp NetHost.

Module NetConfig.

(** ** Permissions *)

Inductive NetworkDomainPermission := PNone | PAllow | PDeny.

#[export] Instance NetworkDomainPermission_eq_dec : EqDecision NetworkDomainPermission.
Proof. solve_decision. Defined.

(** The derived order: [None < Allow < Deny]. *)
Definition permission_rank (p : NetworkDomainPermission) : nat :=
  match p with PNone => 0 | PAllow => 1 | PDeny => 2 end.

Record NetworkDomainPermissionEntry := {
  pattern : str;
  permission : NetworkDomainPermission;
}.

#[export] Instance NetworkDomainPermissionEntry_eq_dec : EqDecision NetworkDomainPermissionEntry.
Proof. solve_decision. Defined.

(** The field [entries] of [NetworkDomainPermissions]. *)
Abbreviation NetworkDomainPermissions := (list NetworkDomainPermissionEntry) (only parsing).

(** The loop of [effective_entries]: the patterns in the order they come first, and the
    strongest permission of each. *)
Fixpoint effective_loop (entries : list NetworkDomainPermissionEntry) (order : list str)
    (effective : gmap (list N) NetworkDomainPermission)
    : list str * gmap (list N) NetworkDomainPermission :=
  match entries with
  | [] => (order, effective)
  | entry :: entries =>
      let order :=
        match effective !! pattern entry with
        | None => order ++ [pattern entry]
        | Some _ => order
        end in
      let old := default (permission entry) (effective !! pattern entry) in
      let new := if permission_rank old <? permission_rank (permission entry)
                 then permission entry else old in
      effective_loop entries order (<[pattern entry := new]> effective)
  end.

(** The patterns in their order, each taken out of the map as it is read. *)
Fixpoint drain_effective (order : list str) (effective : gmap (list N) NetworkDomainPermission)
    : list NetworkDomainPermissionEntry :=
  match order with
  | [] => []
  | p :: order =>
      match effective !! p with
      | Some perm =>
          {| pattern := p; permission := perm |} :: drain_effective order (delete p effective)
      | None => drain_effective order effective
      end
  end.

Definition effective_entries (entries : NetworkDomainPermissions)
    : list NetworkDomainPermissionEntry :=
  let '(order, effective) := effective_loop entries [] ∅ in drain_effective order effective.

Inductive NetworkUnixSocketPermission := SAllow | SNone.

#[export] Instance NetworkUnixSocketPermission_eq_dec : EqDecision NetworkUnixSocketPermission.
Proof. solve_decision. Defined.

Abbreviation NetworkUnixSocketPermissions :=
  (gmap (list N) NetworkUnixSocketPermission) (only parsing).

(** ** Settings *)

Inductive NetworkMode := Limited | Full.

#[export] Instance NetworkMode_eq_dec : EqDecision NetworkMode.
Proof. solve_decision. Defined.

Definition allows_method (mode : NetworkMode) (method : str) : bool :=
  match mode with
  | Full => true
  | Limited => str_eqb method (lit "GET") || str_eqb method (lit "HEAD")
               || str_eqb method (lit "OPTIONS")
  end.

Record NetworkProxySettings := {
  enabled : bool;
  proxy_url : str;
  enable_socks5 : bool;
  socks_url : str;
  enable_socks5_udp : bool;
  allow_upstream_proxy : bool;
  dangerously_allow_non_loopback_proxy : bool;
  dangerously_allow_all_unix_sockets : bool;
  mode : NetworkMode;
  domains : option (list NetworkDomainPermissionEntry);
  unix_sockets : option (gmap (list N) NetworkUnixSocketPermission);
  allow_local_binding : bool;
  mitm : bool;
}.

#[export] Instance NetworkProxySettings_eq_dec : EqDecision NetworkProxySettings.
Proof. solve_decision. Defined.

(** [NetworkProxySettings::default] *)
Definition default_settings : NetworkProxySettings :=
  {| enabled := false; proxy_url := lit "http://127.0.0.1:3128"; enable_socks5 := true;
     socks_url := lit "http://127.0.0.1:8081"; enable_socks5_udp := true;
     allow_upstream_proxy := true; dangerously_allow_non_loopback_proxy := false;
     dangerously_allow_all_unix_sockets := false; mode := Full; domains := None;
     unix_sockets := None; allow_local_binding := false; mitm := false |}.

Definition with_domains (s : NetworkProxySettings)
    (d : option (list NetworkDomainPermissionEntry)) : NetworkProxySettings :=
  {| enabled := enabled s; proxy_url := proxy_url s; enable_socks5 := enable_socks5 s;
     socks_url := socks_url s; enable_socks5_udp := enable_socks5_udp s;
     allow_upstream_proxy := allow_upstream_proxy s;
     dangerously_allow_non_loopback_proxy := dangerously_allow_non_loopback_proxy s;
     dangerously_allow_all_unix_sockets := dangerously_allow_all_unix_sockets s;
     mode := mode s; domains := d; unix_sockets := unix_sockets s;
     allow_local_binding := allow_local_binding s; mitm := mitm s |}.

Definition with_mode (s : NetworkProxySettings) (m : NetworkMode) : NetworkProxySettings :=
  {| enabled := enabled s; proxy_url := proxy_url s; enable_socks5 := enable_socks5 s;
     socks_url := socks_url s; enable_socks5_udp := enable_socks5_udp s;
     allow_upstream_proxy := allow_upstream_proxy s;
     dangerously_allow_non_loopback_proxy := dangerously_allow_non_loopback_proxy s;
     dangerously_allow_all_unix_sockets := dangerously_allow_all_unix_sockets s;
     mode := m; domains := domains s; unix_sockets := unix_sockets s;
     allow_local_binding := allow_local_binding s; mitm := mitm s |}.

Definition with_unix_sockets (s : NetworkProxySettings)
    (u : option (gmap (list N) NetworkUnixSocketPermission)) : NetworkProxySettings :=
  {| enabled := enabled s; proxy_url := proxy_url s; enable_socks5 := enable_socks5 s;
     socks_url := socks_url s; enable_socks5_udp := enable_socks5_udp s;
     allow_upstream_proxy := allow_upstream_proxy s;
     dangerously_allow_non_loopback_proxy := dangerously_allow_non_loopback_proxy s;
     dangerously_allow_all_unix_sockets := dangerously_allow_all_unix_sockets s;
     mode := mode s; domains := domains s; unix_sockets := u;
     allow_local_binding := allow_local_binding s; mitm := mitm s |}.

(** An empty list is as no list. *)
Definition domain_entries (s : NetworkProxySettings) (p : NetworkDomainPermission)
    : option (list str) :=
  match domains s with
  | Some entries =>
      let found := map pattern (filter (fun e => permission e = p) (effective_entries entries)) in
      if bool_decide (found = []) then None else Some found
  | None => None
  end.

Definition allowed_domains (s : NetworkProxySettings) : option (list str) :=
  domain_entries s PAllow.

Definition denied_domains (s : NetworkProxySettings) : option (list str) :=
  domain_entries s PDeny.

(** The keys of a [BTreeMap] come in their order. *)
Definition allow_unix_sockets (s : NetworkProxySettings) : list str :=
  match unix_sockets s with
  | Some sockets =>
      merge_sort str_le (map fst (filter (fun kv => kv.2 = SAllow) (map_to_list sockets)))
  | None => []
  end.

Definition some_if_nonempty {A} (l : list A) : option (list A) :=
  if bool_decide (length l = 0) then None else Some l.

Definition upsert_domain_permission (host : str) (p : NetworkDomainPermission)
    (normalize : str -> str) (s : NetworkProxySettings) : NetworkProxySettings :=
  let entries := default [] (domains s) in
  let normalized_host := normalize host in
  let entries := filter (fun e => normalize (pattern e) <> normalized_host) entries in
  with_domains s (some_if_nonempty (entries ++ [{| pattern := host; permission := p |}])).

(** The loop of [set_domain_entries]. *)
Fixpoint push_missing (new : list str) (p : NetworkDomainPermission)
    (entries : list NetworkDomainPermissionEntry) : list NetworkDomainPermissionEntry :=
  match new with
  | [] => entries
  | e :: new =>
      let entry := {| pattern := e; permission := p |} in
      push_missing new p
        (if bool_decide (entry ∈ entries) then entries else entries ++ [entry])
  end.

Definition set_domain_entries (new : list str) (p : NetworkDomainPermission)
    (s : NetworkProxySettings) : NetworkProxySettings :=
  let entries := filter (fun e => permission e <> p) (default [] (domains s)) in
  with_domains s (some_if_nonempty (push_missing new p entries)).

Definition set_allowed_domains (new : list str) : NetworkProxySettings -> NetworkProxySettings :=
  set_domain_entries new PAllow.

Definition set_denied_domains (new : list str) : NetworkProxySettings -> NetworkProxySettings :=
  set_domain_entries new PDeny.

Definition set_unix_socket_entries (new : list str) (p : NetworkUnixSocketPermission)
    (s : NetworkProxySettings) : NetworkProxySettings :=
  let sockets := filter (fun kv => kv.2 <> p) (default ∅ (unix_sockets s)) in
  let sockets := foldl (fun m e => <[e := p]> m) sockets new in
  with_unix_sockets s (if bool_decide (sockets = ∅) then None else Some sockets).

Definition set_allow_unix_sockets (new : list str)
    : NetworkProxySettings -> NetworkProxySettings :=
  set_unix_socket_entries new SAllow.

(** ** Addresses to listen on *)

Record SocketAddr := { ip : IpAddr; port : N }.

#[export] Instance SocketAddr_eq_dec : EqDecision SocketAddr.
Proof. solve_decision. Defined.

Definition localhost (port : N) : SocketAddr := {| ip := V4 (v4 127 0 0 1); port := port |}.

(** The warnings that are logged are left out. *)
Definition clamp_non_loopback (addr : SocketAddr) (allow_non_loopback : bool) : SocketAddr :=
  if ip_is_loopback (ip addr) then addr
  else if allow_non_loopback then addr
  else localhost (port addr).

Definition clamp_bind_addrs (http_addr socks_addr : SocketAddr) (cfg : NetworkProxySettings)
    : SocketAddr * SocketAddr :=
  let http_addr := clamp_non_loopback http_addr (dangerously_allow_non_loopback_proxy cfg) in
  let socks_addr := clamp_non_loopback socks_addr (dangerously_allow_non_loopback_proxy cfg) in
  if bool_decide (allow_unix_sockets cfg = []) && negb (dangerously_allow_all_unix_sockets cfg)
  then (http_addr, socks_addr)
  else (localhost (port http_addr), localhost (port socks_addr)).

Inductive ValidatedUnixSocketPath :=
| Native (path : str)
| UnixStyleAbsolute (path : str).

Section Sockets.
(** The home directory and the current directory, and the form of a text in quotes that
    the derived [Debug] gives. *)
Context (home cwd : option str) (debug : str -> str).

(** Messages as [anyhow] shows them: that of the outermost context. *)
Definition parse_unix_socket_path (socket_path : str) : result str ValidatedUnixSocketPath :=
  if AbsPath.is_absolute socket_path then
    path ← map_err (fun _ => lit "failed to normalize unix socket path " ++ debug socket_path)
             (AbsPath.from_absolute_path home cwd socket_path);
    Ok (Native path)
  else if starts_with (lit "/") socket_path then Ok (UnixStyleAbsolute socket_path)
  else Err (lit "expected an absolute path, got " ++ debug socket_path).

Fixpoint validate_paths (index : nat) (paths : list str) : result str unit :=
  match paths with
  | [] => Ok tt
  | path :: paths =>
      _ ← map_err (fun _ => lit "invalid network.allow_unix_sockets[" ++ show_nat index ++ lit "]")
            (parse_unix_socket_path path);
      validate_paths (S index) paths
  end.

Definition validate_unix_socket_allowlist_paths (cfg : NetworkProxySettings) : result str unit :=
  validate_paths 0 (allow_unix_sockets cfg).

(** ** Parsing addresses *)

(** [url::Url::parse]: the host and the port of the URL, or a failure. *)
Context (url_parse : str -> option (option str * option N)).

Record SocketAddressParts := { host : str; part_port : N }.

Definition U16_MAX : N := 65535.

Definition missing_host (address : str) : str :=
  lit "missing host in network proxy address: " ++ address.

Definition parse_host_port_fallback (input : str) (default_port : N)
    : result str SocketAddressParts :=
  let without_scheme := match split_once_str (lit "://") input with
                        | Some (_, rest) => rest
                        | None => input
                        end in
  let host_port := default without_scheme (head (split_on (ch "/") without_scheme)) in
  let host_port := match rsplit_once (ch "@") host_port with
                   | Some (_, rest) => rest
                   | None => host_port
                   end in
  match (if starts_with (lit "[") host_port then split_once (ch "]") host_port else None) with
  | Some (inside, rest) =>
      let host := drop 1 inside in
      let port := default default_port
                    (port ← strip_prefix (lit ":") rest; parse_uint U16_MAX port) in
      if str_eqb host [] then Err (missing_host input) else Ok {| host := host; part_port := port |}
  | None =>
      match (if count_char (ch ":") host_port =? 1 then rsplit_once (ch ":") host_port else None) with
      | Some (host, port) =>
          if str_eqb host [] then Err (missing_host input)
          else Ok {| host := host; part_port := default default_port (parse_uint U16_MAX port) |}
      | None =>
          if str_eqb host_port [] then Err (missing_host input)
          else Ok {| host := host_port; part_port := default_port |}
      end
  end.

Definition is_bracket (c : char) : bool := (c =? ch "[")%N || (c =? ch "]")%N.

Definition parse_host_port (url : str) (default_port : N) : result str SocketAddressParts :=
  let trimmed := trim url in
  if str_eqb trimmed [] then Err (missing_host url)
  else if match parse_ip trimmed with Some (V6 _) => true | _ => false end
          && negb (starts_with (lit "[") trimmed)
  then Ok {| host := trimmed; part_port := default_port |}
  else
    let candidate := if contains (lit "://") trimmed then trimmed else lit "http://" ++ trimmed in
    match url_parse candidate with
    | Some (Some h, p) =>
        let h := drop_while_end is_bracket (drop_while is_bracket h) in
        if str_eqb h [] then Err (missing_host url)
        else Ok {| host := h; part_port := default default_port p |}
    | _ => parse_host_port_fallback trimmed default_port
    end.

Definition resolve_addr (url : str) (default_port : N) : result str SocketAddr :=
  addr_parts ← parse_host_port url default_port;
  let host := if str_eqb (to_ascii_lowercase (host addr_parts)) (lit "localhost")
              then lit "127.0.0.1" else host addr_parts in
  match parse_ip host with
  | Some ip => Ok {| ip := ip; port := part_port addr_parts |}
  | None => Ok (localhost (part_port addr_parts))
  end.

Definition format_host_and_port (host : str) (port : N) : str :=
  if contains_char (ch ":") host
  then lit "[" ++ host ++ lit "]:" ++ show_nat (N.to_nat port)
  else host ++ lit ":" ++ show_nat (N.to_nat port).

Definition host_and_port_from_network_addr (value : str) (default_port : N) : str :=
  let trimmed := trim value in
  if str_eqb trimmed [] then lit "<missing>"
  else match parse_host_port trimmed default_port with
       | Ok parts => format_host_and_port (host parts) (part_port parts)
       | _ => format_host_and_port trimmed default_port
       end.

Definition resolve_runtime (cfg : NetworkProxySettings) : result str (SocketAddr * SocketAddr) :=
  _ ← validate_unix_socket_allowlist_paths cfg;
  http_addr ← map_err (fun _ => lit "invalid network.proxy_url: " ++ proxy_url cfg)
                (resolve_addr (proxy_url cfg) 3128);
  socks_addr ← map_err (fun _ => lit "invalid network.socks_url: " ++ socks_url cfg)
                 (resolve_addr (socks_url cfg) 8081);
  Ok (clamp_bind_addrs http_addr socks_addr cfg).

End Sockets.

End NetConfig.

(** * The configuration of the network proxy: what it means

    The effective permission of a pattern is its strongest; the operations that change
    the lists change what they name and nothing else; the proxies listen on the loopback
    device unless the configuration says otherwise and no socket is reachable through
    them. *)

Import NetIp NetHost NetConfig.

Module NetConfigFacts.

(** ** The strongest permission of a pattern *)

Definition stronger (p q : NetworkDomainPermission) : NetworkDomainPermission :=
  if permission_rank p <? permission_rank q then q else p.

(** The strongest permission that the entries give a pattern. *)
Fixpoint strongest (entries : list NetworkDomainPermissionEntry) (p : str)
    : option NetworkDomainPermission :=
  match entries with
  | [] => None
  | e :: entries =>
      if decide (pattern e = p)
      then Some (match strongest entries p with
                 | Some q => stronger (permission e) q
                 | None => permission e
                 end)
      else strongest entries p
  end.

Lemma stronger_assoc (p q r : NetworkDomainPermission) :
  stronger p (stronger q r) = stronger (stronger p q) r.
Proof. by destruct p, q, r. Qed.

Definition join_permission (p q : option NetworkDomainPermission) : option NetworkDomainPermission :=
  match p, q with
  | Some p, Some q => Some (stronger p q)
  | Some p, None => Some p
  | None, q => q
  end.

Lemma strongest_app (es fs : list NetworkDomainPermissionEntry) (p : str) :
  strongest (es ++ fs) p = join_permission (strongest es p) (strongest fs p).
Proof.
  induction es as [|e es IH]; simpl; [by destruct (strongest fs p)|].
  case_decide; [|done]. rewrite IH.
  destruct (strongest es p), (strongest fs p); simpl; rewrite ?stronger_assoc; done.
Qed.

Lemma effective_loop_spec (es : list NetworkDomainPermissionEntry) (order order' : list str)
    (eff eff' : gmap (list N) NetworkDomainPermission) :
  NoDup order -> (forall p, p ∈ order <-> is_Some (eff !! p)) ->
  effective_loop es order eff = (order', eff') ->
  NoDup order' /\ (forall p, p ∈ order' <-> is_Some (eff' !! p)) /\
  (forall p, eff' !! p = join_permission (eff !! p) (strongest es p)).
Proof.
  revert order eff. induction es as [|e es IH]; intros order eff Hn Ho H; cbn [effective_loop] in H.
  { simplify_eq. split_and!; [done|done|]. intros p. by destruct (eff' !! p). }
  apply IH in H as (Hn' & Ho' & He').
  - split_and!; [done|done|]. intros p. rewrite He'. cbn [strongest].
    destruct (decide (pattern e = p)) as [<-|Hp]; [|by rewrite lookup_insert_ne].
    rewrite lookup_insert_eq.
    destruct (eff !! pattern e) as [q|], (strongest es (pattern e)) as [r|]; simpl;
      rewrite ?stronger_assoc; unfold stronger; try rewrite Nat.ltb_irrefl; done.
  - destruct (eff !! pattern e) as [q|] eqn:E; [done|]. apply NoDup_app. split_and!; [done| |by apply NoDup_singleton].
    intros p Hp%Ho ->%list_elem_of_singleton. rewrite E in Hp. by destruct Hp.
  - intros p. destruct (decide (pattern e = p)) as [<-|Hp].
    + rewrite lookup_insert_eq. destruct (eff !! pattern e) as [q|] eqn:E.
      * split; [done|]. intros _. apply Ho. by rewrite E.
      * split; [done|]. intros _. apply elem_of_app. right. left.
    + rewrite lookup_insert_ne by done. rewrite <- Ho.
      destruct (eff !! pattern e) as [q|]; [done|]. rewrite elem_of_app, list_elem_of_singleton. naive_solver.
Qed.

Lemma drain_effective_spec (order : list str) (eff : gmap (list N) NetworkDomainPermission) :
  NoDup order ->
  NoDup (map pattern (drain_effective order eff)) /\
  forall e, e ∈ drain_effective order eff <-> pattern e ∈ order /\ eff !! pattern e = Some (permission e).
Proof.
  intros Hn. revert eff. induction Hn as [|p order Hp Hn IH]; intros eff; simpl.
  { split; [constructor|]. intros e. rewrite !elem_of_nil. naive_solver. }
  destruct (eff !! p) as [perm|] eqn:E.
  - destruct (IH (delete p eff)) as [Hnd He]. split.
    + simpl. constructor; [|done]. intros (e & -> & [Hin _]%He)%list_elem_of_fmap. done.
    + intros [q perm']. rewrite elem_of_cons, He, elem_of_cons. simpl.
      destruct (decide (p = q)) as [<-|Hq].
      * rewrite lookup_delete_eq, E. naive_solver.
      * rewrite lookup_delete_ne by done. naive_solver.
  - destruct (IH eff) as [Hnd He]. split; [done|]. intros e. rewrite He, elem_of_cons.
    naive_solver congruence.
Qed.

Lemma effective_entries_spec (es : list NetworkDomainPermissionEntry) :
  NoDup (map pattern (effective_entries es)) /\
  forall e, e ∈ effective_entries es <-> strongest es (pattern e) = Some (permission e).
Proof.
  unfold effective_entries. destruct (effective_loop es [] ∅) as [order eff] eqn:E.
  apply effective_loop_spec in E as (Hn & Ho & He); [|constructor|];
    [|intros p; rewrite lookup_empty, elem_of_nil; split; [done|by intros []]].
  destruct (drain_effective_spec order eff Hn) as [Hnd Hd]. split; [done|].
  intros e. rewrite Hd, Ho, He, lookup_empty. simpl.
  split; [by intros [_ ?]|]. intros ->. by split.
Qed.

Lemma domain_entries_spec (s : NetworkProxySettings) (k : NetworkDomainPermission) (p : str) :
  p ∈ default [] (domain_entries s k) <-> strongest (default [] (domains s)) p = Some k.
Proof.
  unfold domain_entries. destruct (domains s) as [es|]; simpl; [|by rewrite elem_of_nil].
  set (found := map pattern _).
  assert (p ∈ found <-> strongest es p = Some k) as <-.
  { unfold found. rewrite list_elem_of_fmap. setoid_rewrite list_elem_of_filter.
    destruct (effective_entries_spec es) as [_ He]. setoid_rewrite He. split.
    - by intros (e & -> & <- & ?).
    - intros E. by exists {| pattern := p; permission := k |}. }
  case_bool_decide as Hf; simpl; [by rewrite Hf|done].
Qed.

Lemma strongest_None (es : list NetworkDomainPermissionEntry) (p : str) :
  strongest es p = None <-> forall e, e ∈ es -> pattern e <> p.
Proof.
  induction es as [|e es IH]; simpl; [split; [by intros _ e ?%elem_of_nil|done]|].
  setoid_rewrite elem_of_cons. case_decide; [|naive_solver].
  split; [done|]. intros Hn. by destruct (Hn e (or_introl eq_refl)).
Qed.

Lemma strongest_is_max (es : list NetworkDomainPermissionEntry) (p : str) k :
  strongest es p = Some k ->
  (exists e, e ∈ es /\ pattern e = p /\ permission e = k) /\
  (forall e, e ∈ es -> pattern e = p -> permission_rank (permission e) <= permission_rank k).
Proof.
  revert k. induction es as [|e es IH]; intros k; simpl; [done|]. setoid_rewrite elem_of_cons.
  case_decide as Hp; [|intros (?&?)%IH; naive_solver].
  destruct (strongest es p) as [q|] eqn:E; intros ?; simplify_eq.
  - destruct (IH q eq_refl) as [(e1 & H1 & H2 & H3) Hmax]. unfold stronger.
    destruct (Nat.ltb_spec (permission_rank (permission e)) (permission_rank q)) as [Hlt|Hle].
    + split; [naive_solver|]. intros e' [->|?] ?; [lia|auto].
    + split; [naive_solver|]. intros e' [->|Hin] ?; [lia|]. etrans; [by apply Hmax|done].
  - split; [naive_solver|]. rewrite strongest_None in E. intros e' [->|Hin] He; [done|].
    by destruct (E e' Hin).
Qed.

Lemma strongest_spec (es : list NetworkDomainPermissionEntry) (p : str) k :
  strongest es p = Some k <->
  (exists e, e ∈ es /\ pattern e = p /\ permission e = k) /\
  (forall e, e ∈ es -> pattern e = p -> permission_rank (permission e) <= permission_rank k).
Proof.
  split; [apply strongest_is_max|]. intros [(e & He & Hp & Hk) Hmax].
  destruct (strongest es p) as [q|] eqn:E.
  - apply strongest_is_max in E as [(e' & He' & Hp' & Hq) Hmax']. f_equal.
    pose proof (Hmax e' He' Hp'). pose proof (Hmax' e He Hp). subst.
    destruct (permission e), (permission e'); simpl in *; try lia; done.
  - rewrite strongest_None in E. by destruct (E e He).
Qed.

(** The allow and the deny list of the configuration hold every pattern at most
    once, in the list of its strongest permission, where a deny is stronger than an
    allow; a list that would be empty is absent. *)
Theorem lists_by_strongest (s : NetworkProxySettings) (k : NetworkDomainPermission) :
  NoDup (default [] (domain_entries s k)) /\ domain_entries s k <> Some [] /\
  forall p, p ∈ default [] (domain_entries s k) <->
    (exists e, e ∈ default [] (domains s) /\ pattern e = p /\ permission e = k) /\
    (forall e, e ∈ default [] (domains s) -> pattern e = p ->
       permission_rank (permission e) <= permission_rank k).
Proof.
  split; [|split].
  - unfold domain_entries. destruct (domains s) as [es|]; [|constructor].
    case_bool_decide; [constructor|]. simpl. destruct (effective_entries_spec es) as [Hn _].
    eapply sublist_NoDup; [exact Hn|]. apply fmap_sublist, sublist_filter.
  - unfold domain_entries. destruct (domains s) as [es|]; [|done]. case_bool_decide; congruence.
  - intros p. by rewrite domain_entries_spec, strongest_spec.
Qed.

(** ** Changing the lists *)

Lemma default_some_if_nonempty {A} (l : list A) : default [] (some_if_nonempty l) = l.
Proof. unfold some_if_nonempty. case_bool_decide as E; [by destruct l|done]. Qed.

Lemma strongest_filter (P : NetworkDomainPermissionEntry -> Prop) `{!forall e, Decision (P e)}
    (es : list NetworkDomainPermissionEntry) (p : str) k :
  strongest (filter P es) p = Some k <->
  (exists e, e ∈ es /\ P e /\ pattern e = p /\ permission e = k) /\
  (forall e, e ∈ es -> P e -> pattern e = p -> permission_rank (permission e) <= permission_rank k).
Proof. rewrite strongest_spec. setoid_rewrite list_elem_of_filter. naive_solver. Qed.

(** Giving a host a permission takes away the entries of every spelling of the host and
    adds one for it; all other patterns keep their permission. *)
Lemma upsert_permission (host p : str) (k : NetworkDomainPermission) (normalize : str -> str)
    (s : NetworkProxySettings) :
  strongest (default [] (domains (upsert_domain_permission host k normalize s))) p =
  if decide (p = host) then Some k
  else if decide (normalize p = normalize host) then None
  else strongest (default [] (domains s)) p.
Proof.
  unfold upsert_domain_permission. simpl. rewrite default_some_if_nonempty, strongest_app.
  generalize (default [] (domains s)) as es. intros es. simpl.
  assert (strongest (filter (fun e => normalize (pattern e) <> normalize host) es) p =
          if decide (normalize p = normalize host) then None else strongest es p) as ->.
  { induction es as [|e es IH]; [by case_decide|]. rewrite filter_cons.
    destruct (decide (normalize (pattern e) <> normalize host)) as [He|He]; simpl; rewrite IH;
      repeat case_decide; subst; done. }
  repeat case_decide; subst; simpl; try done; by destruct (strongest es p).
Qed.

Lemma push_missing_elem (new : list str) k (es : list NetworkDomainPermissionEntry) e :
  e ∈ push_missing new k es <-> e ∈ es \/ pattern e ∈ new /\ permission e = k.
Proof.
  revert es. induction new as [|n new IH]; intros es; simpl.
  { split; [by left|]. by intros [?|[?%elem_of_nil _]]. }
  rewrite IH, elem_of_cons. destruct e as [q perm]. simpl.
  case_bool_decide as Hin; rewrite ?elem_of_app, ?list_elem_of_singleton; naive_solver.
Qed.

(** Setting one list leaves the other alone: the denied patterns stay denied
    whatever is allowed, an allowed pattern takes effect unless it is denied, and a
    denied one always does. *)
Theorem set_lists_effect (new : list str) (s : NetworkProxySettings) (p : str) :
  (p ∈ default [] (denied_domains (set_allowed_domains new s)) <->
   p ∈ default [] (denied_domains s)) /\
  (p ∈ default [] (allowed_domains (set_allowed_domains new s)) <->
   p ∈ new /\ p ∉ default [] (denied_domains s)) /\
  (p ∈ default [] (denied_domains (set_denied_domains new s)) <-> p ∈ new).
Proof.
  unfold denied_domains, allowed_domains, set_allowed_domains, set_denied_domains, set_domain_entries.
  rewrite !domain_entries_spec. simpl. rewrite !default_some_if_nonempty, !strongest_spec.
  setoid_rewrite push_missing_elem. setoid_rewrite list_elem_of_filter.
  generalize (default [] (domains s)) as es. intros es. split_and!.
  - split; intros [(e & He & Hp & Hk) Hmax]; (split; [|by intros e' _ _; destruct (permission e'); simpl; lia]).
    + destruct He as [[_ He]|[_ Hk']]; [by exists e|congruence].
    + exists e. split_and!; try done. left. split; [congruence|done].
  - split.
    + intros [(e & He & Hp & Hk) Hmax]. destruct He as [[? _]|[He _]]; [done|]. subst. split; [done|].
      intros [(e' & He' & Hp' & Hk') _].
      assert (permission e' <> PAllow) as Ha by congruence.
      pose proof (Hmax e' (or_introl (conj Ha He')) Hp') as Hr.
      rewrite Hk' in Hr. simpl in Hr. lia.
    + intros [Hp Hn]. split.
      * exists {| pattern := p; permission := PAllow |}. by split; [right|].
      * intros e He Hpe. destruct (permission e) eqn:Ek; simpl; try lia. exfalso.
        destruct He as [[_ He]|[_ ?]]; [|congruence]. apply Hn. split; [by exists e|].
        intros e' _ _. destruct (permission e'); simpl; lia.
  - split.
    + intros [(e & He & Hp & Hk) _]. destruct He as [[? _]|[He _]]; [done|by subst].
    + intros Hp. split.
      * exists {| pattern := p; permission := PDeny |}. by split; [right|].
      * intros e _ _. destruct (permission e); simpl; lia.
Qed.

(** ** Where the proxies listen *)

Definition loopback (a : SocketAddr) : Prop := ip_is_loopback (ip a) = true.

Lemma localhost_loopback (p : N) : loopback (localhost p).
Proof. done. Qed.

Lemma clamp_loopback (a : SocketAddr) : loopback (clamp_non_loopback a false).
Proof. unfold clamp_non_loopback. destruct (ip_is_loopback (ip a)) eqn:E; [done|apply localhost_loopback]. Qed.

Lemma clamp_port (a : SocketAddr) (b : bool) : port (clamp_non_loopback a b) = port a.
Proof. unfold clamp_non_loopback. by destruct (ip_is_loopback (ip a)), b. Qed.

(** The addresses to listen on. They are on the loopback device unless the
    configuration says otherwise, and also then when sockets can be reached through the
    proxies; their ports are those asked for. *)
Theorem listens_on_loopback home cwd debug url_parse (cfg : NetworkProxySettings)
    (http socks : SocketAddr) :
  resolve_runtime home cwd debug url_parse cfg = Ok (http, socks) ->
  dangerously_allow_non_loopback_proxy cfg = false \/ allow_unix_sockets cfg <> [] \/
    dangerously_allow_all_unix_sockets cfg = true ->
  loopback http /\ loopback socks /\
  exists http0 socks0,
    resolve_addr url_parse (proxy_url cfg) 3128 = Ok http0 /\ port http = port http0 /\
    resolve_addr url_parse (socks_url cfg) 8081 = Ok socks0 /\ port socks = port socks0.
Proof.
  unfold resolve_runtime. intros H Hsafe.
  apply bind_Ok in H as (_ & _ & H). apply bind_Ok in H as (h & Hh%map_err_Ok & H).
  apply bind_Ok in H as (s & Hs%map_err_Ok & H). injection H as H.
  assert (loopback http /\ loopback socks /\ port http = port h /\ port socks = port s) as (?&?&?&?).
  { unfold clamp_bind_addrs in H. destruct (_ && _) eqn:E; simplify_eq; rewrite ?clamp_port.
    - bool_to_prop. rewrite negb_true_iff in *. destruct Hsafe as [->|[?|?]]; [|done|congruence].
      by split_and!; try apply clamp_loopback.
    - split_and!; try apply localhost_loopback; simpl; rewrite ?clamp_port; done. }
  split_and!; [done|done|]. by exists h, s.
Qed.

Lemma listens_on_loopback_witness :
  exists http socks,
    resolve_runtime None None id (fun u => Some (Some (lit "10.0.0.1"), Some 99%N))
      default_settings = Ok (http, socks) /\ loopback http.
Proof.
  eexists _, _. split; [reflexivity|].
  eapply (listens_on_loopback None None id (fun u => Some (Some (lit "10.0.0.1"), Some 99%N))
            default_settings); [reflexivity|by left].
Defined.

End NetConfigFacts.
