(* ===== verification/NetConstraints.v ===== *)
(** * Managed constraints of the network proxy: src/network-proxy/src/state.rs

    An administrator bounds the configuration a user may choose; [validate_policy] checks
    a configuration against the bounds, field by field. The theorem says what it accepts.
    The forms that the derived [Debug] gives are parameters. *)

From Stdlib Require Import Ascii String.
From S2P Require Import Prelude RustStr NetHost NetConfig NetHostFacts.
Import NetHost NetConfig.

Module NetConstraints.

Record NetworkProxyConstraints := {
  c_enabled : option bool;
  c_mode : option NetworkMode;
  c_allow_upstream_proxy : option bool;
  c_dangerously_allow_non_loopback_proxy : option bool;
  c_dangerously_allow_all_unix_sockets : option bool;
  c_allowed_domains : option (list str);
  c_allowlist_expansion_enabled : option bool;
  c_denied_domains : option (list str);
  c_denylist_expansion_enabled : option bool;
  c_allow_unix_sockets : option (list str);
  c_allow_local_binding : option bool;
}.

#[export] Instance NetworkProxyConstraints_eq_dec : EqDecision NetworkProxyConstraints.
Proof. solve_decision. Defined.

(** [NetworkProxyConstraintError::InvalidValue] *)
Record NetworkProxyConstraintError := {
  field_name : str;
  candidate : str;
  allowed : str;
}.

Definition constraint_message (e : NetworkProxyConstraintError) : str :=
  lit "invalid value for " ++ field_name e ++ lit ": " ++ candidate e ++ lit " (allowed "
  ++ allowed e ++ lit ")".

Definition invalid_value (field candidate allowed : str) : NetworkProxyConstraintError :=
  {| field_name := field; candidate := candidate; allowed := allowed |}.

Definition network_mode_rank (m : NetworkMode) : nat :=
  match m with Limited => 0 | Full => 1 end.

(** A check of a value: the error unless it holds. *)
Definition validate (holds : bool) (e : NetworkProxyConstraintError)
    : result NetworkProxyConstraintError unit :=
  if holds then Ok tt else Err e.

Definition validate_non_global_wildcard_domain_patterns (field : str) (patterns : list str)
    : result NetworkProxyConstraintError unit :=
  match List.find is_global_wildcard_domain_pattern patterns with
  | Some pattern =>
      Err (invalid_value field (trim pattern)
             (lit "exact hosts or scoped wildcards like *.example.com or **.example.com"))
  | None => Ok tt
  end.

(** A list as a set without regard to case. *)
Definition lower_set (l : list str) : gset (list N) := list_to_set (map to_ascii_lowercase l).

Definition DISABLED : str := lit "false (disabled by managed config)".

Section Validate.
Context (url_host : str -> option str) (debug_list : list str -> str)
        (debug_mode : NetworkMode -> str).

(** A flag that only a managed [Some(false)] forbids. *)
Definition validate_flag (field : str) (value : bool) (max : option bool)
    : result NetworkProxyConstraintError unit :=
  validate (negb (value && bool_decide (max = Some false)))
    (invalid_value field (lit "true") DISABLED).

Definition validate_mode (value : NetworkMode) (max : option NetworkMode)
    : result NetworkProxyConstraintError unit :=
  match max with
  | Some max_mode =>
      validate (negb (network_mode_rank max_mode <? network_mode_rank value))
        (invalid_value (lit "network.mode") (debug_mode value)
           (debug_mode max_mode ++ lit " or more restrictive"))
  | None => Ok tt
  end.

Definition validate_allowed (config_allowed : list str) (denied_overrides : gset (list N))
    (managed : list str) (expansion : option bool) : result NetworkProxyConstraintError unit :=
  let field := lit "network.allowed_domains" in
  _ ← validate_non_global_wildcard_domain_patterns field managed;
  match expansion with
  | Some true =>
      let missing := elements (lower_set managed ∖ lower_set config_allowed ∖ denied_overrides) in
      validate (bool_decide (missing = []))
        (invalid_value field (lit "missing managed allowed_domains entries") (debug_list missing))
  | Some false =>
      validate (bool_decide (lower_set config_allowed = lower_set managed ∖ denied_overrides))
        (invalid_value field (debug_list config_allowed) (lit "must match managed allowed_domains"))
  | None =>
      let managed_patterns := map (parse_for_constraints url_host) managed in
      let invalid := filter (fun entry =>
        existsb (fun m => allows m (parse_for_constraints url_host entry)) managed_patterns = false)
        config_allowed in
      validate (bool_decide (invalid = []))
        (invalid_value field (debug_list invalid) (lit "subset of managed allowed_domains"))
  end.

Definition validate_denied (config_denied managed : list str) (expansion : option bool)
    : result NetworkProxyConstraintError unit :=
  let field := lit "network.denied_domains" in
  _ ← validate_non_global_wildcard_domain_patterns field managed;
  match expansion with
  | Some false =>
      validate (bool_decide (lower_set config_denied = lower_set managed))
        (invalid_value field (debug_list config_denied) (lit "must match managed denied_domains"))
  | Some true | None =>
      let missing := elements (lower_set managed ∖ lower_set config_denied) in
      validate (bool_decide (missing = []))
        (invalid_value field (lit "missing managed denied_domains entries") (debug_list missing))
  end.

Definition validate_sockets (config_sockets managed : list str)
    : result NetworkProxyConstraintError unit :=
  let invalid :=
    filter (fun entry => to_ascii_lowercase entry ∉ lower_set managed) config_sockets in
  validate (bool_decide (invalid = []))
    (invalid_value (lit "network.allow_unix_sockets") (debug_list invalid)
       (lit "subset of managed allow_unix_sockets")).

Definition if_managed {A} (o : option A) (f : A -> result NetworkProxyConstraintError unit)
    : result NetworkProxyConstraintError unit :=
  match o with Some a => f a | None => Ok tt end.

Definition validate_policy_against_constraints (config : NetworkProxySettings)
    (constraints : NetworkProxyConstraints) : result NetworkProxyConstraintError unit :=
  let config_allowed_domains := default [] (allowed_domains config) in
  let config_denied_domains := default [] (denied_domains config) in
  let denied_domain_overrides := lower_set config_denied_domains in
  let config_allow_unix_sockets := allow_unix_sockets config in
  _ ← validate_non_global_wildcard_domain_patterns (lit "network.denied_domains")
        config_denied_domains;
  _ ← validate_flag (lit "network.enabled") (enabled config) (c_enabled constraints);
  _ ← validate_mode (mode config) (c_mode constraints);
  _ ← validate_flag (lit "network.allow_upstream_proxy") (allow_upstream_proxy config)
        (c_allow_upstream_proxy constraints);
  _ ← validate_flag (lit "network.dangerously_allow_non_loopback_proxy")
        (dangerously_allow_non_loopback_proxy config)
        (c_dangerously_allow_non_loopback_proxy constraints);
  let allow_all_unix_sockets :=
    default (bool_decide (c_allow_unix_sockets constraints = None))
      (c_dangerously_allow_all_unix_sockets constraints) in
  _ ← validate_flag (lit "network.dangerously_allow_all_unix_sockets")
        (dangerously_allow_all_unix_sockets config) (Some allow_all_unix_sockets);
  _ ← validate_flag (lit "network.allow_local_binding") (allow_local_binding config)
        (c_allow_local_binding constraints);
  _ ← if_managed (c_allowed_domains constraints) (fun managed =>
        validate_allowed config_allowed_domains denied_domain_overrides managed
          (c_allowlist_expansion_enabled constraints));
  _ ← if_managed (c_denied_domains constraints) (fun managed =>
        validate_denied config_denied_domains managed
          (c_denylist_expansion_enabled constraints));
  if_managed (c_allow_unix_sockets constraints) (fun managed =>
    validate_sockets config_allow_unix_sockets managed).

(** ** What is accepted *)

Lemma validate_Ok (b : bool) (e : NetworkProxyConstraintError) : validate b e = Ok tt <-> b = true.
Proof. by destruct b. Qed.

Lemma bind_unit_Ok {E} (x y : result E unit) :
  (_ ← x; y) = Ok tt <-> x = Ok tt /\ y = Ok tt.
Proof. destruct x as [[]|e|c]; naive_solver. Qed.

Lemma if_managed_Ok {A} (o : option A) f :
  if_managed o f = Ok tt <-> forall a, o = Some a -> f a = Ok tt.
Proof. destruct o; simpl; naive_solver. Qed.

Definition no_global_wildcard (patterns : list str) : Prop :=
  forall p, p ∈ patterns -> is_global_wildcard_domain_pattern p = false.

Lemma validate_non_global_Ok (field : str) (patterns : list str) :
  validate_non_global_wildcard_domain_patterns field patterns = Ok tt <->
  no_global_wildcard patterns.
Proof.
  unfold validate_non_global_wildcard_domain_patterns, no_global_wildcard.
  destruct (List.find _ _) as [p|] eqn:E.
  - apply List.find_some in E as [Hp%list_elem_of_In Hw]. split; [done|]. intros H.
    by rewrite (H p Hp) in Hw.
  - split; [|done]. intros _ p Hp. by apply (List.find_none _ _ E), list_elem_of_In.
Qed.

Lemma validate_flag_Ok (field : str) (value : bool) (max : option bool) :
  validate_flag field value max = Ok tt <-> (max = Some false -> value = false).
Proof.
  unfold validate_flag. rewrite validate_Ok, negb_true_iff, andb_false_iff, bool_decide_eq_false.
  destruct (decide (max = Some false)); tauto.
Qed.

Lemma elements_nil (X : gset (list N)) : elements X = [] <-> X ⊆ ∅.
Proof. rewrite elements_empty_iff. set_solver. Qed.

Lemma nothing_missing (X Y : gset (list N)) : elements (X ∖ Y) = [] <-> X ⊆ Y.
Proof.
  rewrite elements_nil. split; [|set_solver]. intros H x Hx.
  destruct (decide (x ∈ Y)); [done|]. set_solver.
Qed.

Lemma filter_nil_iff {A} (P : A -> Prop) `{!forall x, Decision (P x)} (l : list A) :
  filter P l = [] <-> forall x, x ∈ l -> ~ P x.
Proof.
  induction l as [|y l IH]; [split; [by intros _ x ?%elem_of_nil|done]|].
  rewrite filter_cons. setoid_rewrite elem_of_cons. case_decide; naive_solver.
Qed.

(** The allow list keeps within the managed one. Without the possibility to choose an
    expansion, every host that a pattern covers is covered by a managed pattern. *)
Definition allow_list_within (config_allowed config_denied managed : list str)
    (expansion : option bool) : Prop :=
  no_global_wildcard managed /\
  match expansion with
  | Some true =>
      lower_set managed ⊆ lower_set config_allowed ∪ lower_set config_denied
  | Some false =>
      lower_set config_allowed = lower_set managed ∖ lower_set config_denied
  | None =>
      forall p, p ∈ config_allowed ->
        exists m, m ∈ managed /\
          forall h, NetHostFacts.covers (parse_for_constraints url_host p) h ->
                    NetHostFacts.covers (parse_for_constraints url_host m) h
  end.

Definition deny_list_within (config_denied managed : list str) (expansion : option bool) : Prop :=
  no_global_wildcard managed /\
  match expansion with
  | Some false => lower_set config_denied = lower_set managed
  | _ => lower_set managed ⊆ lower_set config_denied
  end.

Lemma validate_allowed_Ok (allowed denied managed : list str) (expansion : option bool) :
  validate_allowed allowed (lower_set denied) managed expansion = Ok tt <->
  allow_list_within allowed denied managed expansion.
Proof.
  unfold validate_allowed, allow_list_within. rewrite bind_unit_Ok, validate_non_global_Ok.
  apply and_iff_compat_l. destruct expansion as [[]|]; rewrite validate_Ok, bool_decide_eq_true.
  - by rewrite difference_difference_l_L, nothing_missing.
  - done.
  - rewrite filter_nil_iff. split; intros H p Hp.
    + apply H, not_false_iff_true in Hp. apply existsb_exists in Hp as (q & Hq & Ha).
      apply in_map_iff in Hq as (m & <- & Hm%list_elem_of_In). exists m. split; [done|].
      by apply NetHostFacts.allows_iff_covers.
    + destruct (H p Hp) as (m & Hm%list_elem_of_In & Ha). apply not_false_iff_true, existsb_exists.
      exists (parse_for_constraints url_host m). split; [by apply in_map|].
      by apply NetHostFacts.allows_iff_covers.
Qed.

Lemma validate_denied_Ok (denied managed : list str) (expansion : option bool) :
  validate_denied denied managed expansion = Ok tt <-> deny_list_within denied managed expansion.
Proof.
  unfold validate_denied, deny_list_within. rewrite bind_unit_Ok, validate_non_global_Ok.
  apply and_iff_compat_l.
  destruct expansion as [[]|]; rewrite validate_Ok, bool_decide_eq_true, ?nothing_missing; done.
Qed.

Lemma validate_sockets_Ok (sockets managed : list str) :
  validate_sockets sockets managed = Ok tt <-> lower_set sockets ⊆ lower_set managed.
Proof.
  unfold validate_sockets. rewrite validate_Ok, bool_decide_eq_true, filter_nil_iff. split.
  - intros H x. unfold lower_set at 1. rewrite elem_of_list_to_set, list_elem_of_fmap.
    intros (y & -> & Hy). by apply H in Hy as ?%dec_stable.
  - intros H x Hx Hn. apply Hn, H. unfold lower_set. apply elem_of_list_to_set, list_elem_of_fmap.
    by exists x.
Qed.

(** Exactly which configurations keep within the managed constraints: flags that are
    managed off are off, the mode is at most the managed one, no list has a pattern for
    every host where none may be, and the lists of domains and sockets relate to the
    managed ones as the constraints say. *)
Theorem constraints_exact (config : NetworkProxySettings) (c : NetworkProxyConstraints) :
  validate_policy_against_constraints config c = Ok tt <->
  let allowed := default [] (allowed_domains config) in
  let denied := default [] (denied_domains config) in
  no_global_wildcard denied /\
  (c_enabled c = Some false -> enabled config = false) /\
  (forall m, c_mode c = Some m -> network_mode_rank (mode config) <= network_mode_rank m) /\
  (c_allow_upstream_proxy c = Some false -> allow_upstream_proxy config = false) /\
  (c_dangerously_allow_non_loopback_proxy c = Some false ->
     dangerously_allow_non_loopback_proxy config = false) /\
  (c_dangerously_allow_all_unix_sockets c = Some false \/
     c_dangerously_allow_all_unix_sockets c = None /\ c_allow_unix_sockets c <> None ->
     dangerously_allow_all_unix_sockets config = false) /\
  (c_allow_local_binding c = Some false -> allow_local_binding config = false) /\
  (forall managed, c_allowed_domains c = Some managed ->
     allow_list_within allowed denied managed (c_allowlist_expansion_enabled c)) /\
  (forall managed, c_denied_domains c = Some managed ->
     deny_list_within denied managed (c_denylist_expansion_enabled c)) /\
  (forall managed, c_allow_unix_sockets c = Some managed ->
     lower_set (allow_unix_sockets config) ⊆ lower_set managed).
Proof.
  unfold validate_policy_against_constraints. cbv zeta.
  rewrite !bind_unit_Ok, validate_non_global_Ok, !validate_flag_Ok, !if_managed_Ok.
  setoid_rewrite validate_allowed_Ok. setoid_rewrite validate_denied_Ok.
  setoid_rewrite validate_sockets_Ok.
  assert (validate_mode (mode config) (c_mode c) = Ok tt <->
    forall m, c_mode c = Some m -> network_mode_rank (mode config) <= network_mode_rank m) as ->.
  { unfold validate_mode. destruct (c_mode c) as [m|]; [|done].
    rewrite validate_Ok, negb_true_iff, Nat.ltb_ge. naive_solver. }
  assert ((Some (default (bool_decide (c_allow_unix_sockets c = None))
             (c_dangerously_allow_all_unix_sockets c)) = Some false ->
           dangerously_allow_all_unix_sockets config = false) <->
    (c_dangerously_allow_all_unix_sockets c = Some false \/
     c_dangerously_allow_all_unix_sockets c = None /\ c_allow_unix_sockets c <> None ->
     dangerously_allow_all_unix_sockets config = false)) as ->; [|done].
  destruct (c_dangerously_allow_all_unix_sockets c) as [b|]; simpl; [naive_solver|].
  case_bool_decide; naive_solver.
Qed.

End Validate.

(** ** An entry that does not parse *)

(** A configuration and constraints with one allowed domain each. *)
Definition allows_only (domain : str) : NetworkProxySettings :=
  set_allowed_domains [domain] default_settings.

Definition manages_only (domain : str) : NetworkProxyConstraints :=
  {| c_enabled := None; c_mode := None; c_allow_upstream_proxy := None;
     c_dangerously_allow_non_loopback_proxy := None;
     c_dangerously_allow_all_unix_sockets := None; c_allowed_domains := Some [domain];
     c_allowlist_expansion_enabled := None; c_denied_domains := None;
     c_denylist_expansion_enabled := None; c_allow_unix_sockets := None;
     c_allow_local_binding := None |}.

(** The comparison with the managed list reads a domain with the URL parser and takes
    the empty name where that fails, so that two entries that fail are alike; the compiled
    list takes the port off instead. With a managed [api.internal:443] the configuration
    [evil.com:443] is accepted, though its entry stands for the host evil.com and the
    managed one does not. *)
Theorem unparsed_entries_escape (url_host : str -> option str) (debug_list : list str -> str)
    (debug_mode : NetworkMode -> str) :
  (forall s, ch ":" ∈ s -> starts_with (lit "[") s = false -> url_host s = None) ->
  validate_policy_against_constraints url_host debug_list debug_mode
    (allows_only (lit "evil.com:443")) (manages_only (lit "api.internal:443")) = Ok tt /\
  NetHostFacts.stands_for (lit "evil.com:443") (lit "evil.com") /\
  ~ NetHostFacts.stands_for (lit "api.internal:443") (lit "evil.com").
Proof.
  intros Hu. split_and!.
  - assert (parse_for_constraints url_host (lit "evil.com:443") = Exact []) as E1.
    { transitivity (Exact (default [] (url_host (lit "evil.com:443")))); [by vm_compute|].
      rewrite Hu; [done| |done]. by apply (bool_decide_unpack _). }
    assert (parse_for_constraints url_host (lit "api.internal:443") = Exact []) as E2.
    { transitivity (Exact (default [] (url_host (lit "api.internal:443")))); [by vm_compute|].
      rewrite Hu; [done| |done]. by apply (bool_decide_unpack _). }
    rewrite constraints_exact. cbv zeta. split_and!; try done.
    + intros p Hp. vm_compute in Hp. by apply elem_of_nil in Hp.
    + intros managed [= <-]. split; [by intros p ->%list_elem_of_singleton|].
      intros p Hp. change (default [] _) with [lit "evil.com:443"] in Hp.
      apply list_elem_of_singleton in Hp as ->. exists (lit "api.internal:443").
      split; [by left|]. by rewrite E1, E2.
  - by right.
  - vm_compute. intros [?|?]; done.
Qed.

Lemma unparsed_entries_escape_witness :
  let url_host s := if contains_char (ch ":") s then None else Some s in
  (forall s, ch ":" ∈ s -> starts_with (lit "[") s = false -> url_host s = None) /\
  validate_policy_against_constraints url_host (join (lit ", ")) (fun _ => [])
    (allows_only (lit "evil.com:443")) (manages_only (lit "api.internal:443")) = Ok tt.
Proof.
  intros url_host.
  assert (forall s, ch ":" ∈ s -> starts_with (lit "[") s = false -> url_host s = None) as Hu.
  { intros s Hs _. unfold url_host, contains_char.
    rewrite (proj2 (existsb_exists _ s)); [done|]. exists (ch ":").
    split; [by apply list_elem_of_In|apply N.eqb_refl]. }
  split; [exact Hu|]. exact (proj1 (unparsed_entries_escape url_host (join (lit ", ")) (fun _ => []) Hu)).
Defined.

End NetConstraints.
