(* ===== verification/NetState.v ===== *)
(** * The state of the network proxy: src/network-proxy/src/runtime.rs

    The configuration with its compiled lists and the buffer of blocked requests, behind
    a lock; the decision about a host; and the operations that change the state, cut
    where they take the lock, so that what runs in between is a step of its own. The
    reloader, name resolution and the crates [globset], [url] are parameters. *)

From Stdlib Require Import Ascii String.
From S2P Require Import Prelude RustStr AbsPath NetHost NetConfig NetConstraints.
Import AbsPath NetIp NetHost NetConfig NetConstraints.

Module NetState.

Definition MAX_BLOCKED_EVENTS : nat := 200.
Definition U64_MAX : N := (2 ^ 64 - 1)%N.

(** ** Data *)

Inductive HostBlockReason := Denied | NotAllowed | NotAllowedLocal.

Definition reason_str (r : HostBlockReason) : str :=
  match r with
  | Denied => lit "denied"
  | NotAllowed => lit "not_allowed"
  | NotAllowedLocal => lit "not_allowed_local"
  end.

Inductive HostBlockDecision := Allowed | Blocked (reason : HostBlockReason).

#[export] Instance HostBlockReason_eq_dec : EqDecision HostBlockReason.
Proof. solve_decision. Defined.

#[export] Instance HostBlockDecision_eq_dec : EqDecision HostBlockDecision.
Proof. solve_decision. Defined.

Record BlockedRequest := {
  b_host : str;
  b_reason : str;
  b_client : option str;
  b_method : option str;
  b_mode : option NetworkMode;
  b_protocol : str;
  b_decision : option str;
  b_source : option str;
  b_port : option N;
  b_timestamp : Z;
}.

Inductive DomainListKind := AllowList | DenyList.

Definition list_name (k : DomainListKind) : str :=
  match k with AllowList => lit "allowlist" | DenyList => lit "denylist" end.

Definition constraint_field (k : DomainListKind) : str :=
  match k with
  | AllowList => lit "network.allowed_domains"
  | DenyList => lit "network.denied_domains"
  end.

Definition kind_permission (k : DomainListKind) : NetworkDomainPermission :=
  match k with AllowList => PAllow | DenyList => PDeny end.

Definition kind_entries (k : DomainListKind) (network : NetworkProxySettings) : list str :=
  match k with
  | AllowList => default [] (allowed_domains network)
  | DenyList => default [] (denied_domains network)
  end.

Definition opposite_entries (k : DomainListKind) (network : NetworkProxySettings) : list str :=
  match k with
  | AllowList => default [] (denied_domains network)
  | DenyList => default [] (allowed_domains network)
  end.

Section State.
(** The crate [globset], the URL parser, the state for intercepting TLS, and the forms
    that [Debug] gives. *)
Context {Glob GlobSet Mitm : Type}.
Context (glob_new : str -> result str Glob) (globset_build : list Glob -> result str GlobSet)
        (is_match : GlobSet -> str -> bool).
Context (url_host : str -> option str) (mitm_new : bool -> bool -> result str Mitm).
Context (home cwd : option str) (debug : str -> str) (debug_list : list str -> str)
        (debug_mode : NetworkMode -> str).

Record ConfigState := {
  config : NetworkProxySettings;
  allow_set : GlobSet;
  deny_set : GlobSet;
  mitm_state : option Mitm;
  constraints : NetworkProxyConstraints;
  blocked : list BlockedRequest;
  blocked_total : N;
}.

(** ** state.rs, [build_config_state] *)

Definition build_config_state (config : NetworkProxySettings)
    (constraints : NetworkProxyConstraints) : result str ConfigState :=
  _ ← validate_unix_socket_allowlist_paths home cwd debug config;
  let allowed := default [] (allowed_domains config) in
  let denied := default [] (denied_domains config) in
  _ ← map_err constraint_message
        (validate_non_global_wildcard_domain_patterns (lit "network.denied_domains") denied);
  deny_set ← compile_denylist_globset glob_new globset_build denied;
  allow_set ← compile_allowlist_globset glob_new globset_build allowed;
  mitm ← (if mitm config
          then m ← mitm_new (allow_upstream_proxy config) (allow_local_binding config); Ok (Some m)
          else Ok None);
  Ok {| config := config; allow_set := allow_set; deny_set := deny_set; mitm_state := mitm;
        constraints := constraints; blocked := []; blocked_total := 0 |}.

Definition with_blocked (st : ConfigState) (b : list BlockedRequest) (total : N) : ConfigState :=
  {| config := config st; allow_set := allow_set st; deny_set := deny_set st;
     mitm_state := mitm_state st; constraints := constraints st;
     blocked := b; blocked_total := total |}.

(** ** The decision about a host *)

Definition globset_matches_host_or_unscoped (set : GlobSet) (host : str) : bool :=
  is_match set host
  || match unscoped_ip_literal host with Some ip => is_match set ip | None => false end.

Definition is_explicit_local_allowlisted (allowed_domains : list str) (host : str) : bool :=
  existsb (fun pattern =>
    let pattern := trim pattern in
    if str_eqb pattern (lit "*") || starts_with (lit "*.") pattern
       || starts_with (lit "**.") pattern then false
    else if contains_char (ch "*") pattern || contains_char (ch "?") pattern then false
    else
      let normalized_pattern := normalize_host pattern in
      str_eqb normalized_pattern host
      || match unscoped_ip_literal host with
         | Some ip => str_eqb normalized_pattern ip
         | None => false
         end) allowed_domains.

(** [lookup_host] within the time limit: the addresses, or nothing when it fails. *)
Context (lookup_host : str -> N -> option (list IpAddr)).

Definition host_resolves_to_non_public_ip (host : str) (port : N) : bool :=
  match parse_ip host with
  | Some ip => is_non_public_ip ip
  | None => match lookup_host host port with
            | None => true
            | Some addrs => existsb is_non_public_ip addrs
            end
  end.

Definition is_local_literal (host : str) : bool :=
  let host_no_scope := default host (unscoped_ip_literal host) in
  if is_loopback_host host then true
  else match parse_ip host_no_scope with
       | Some ip => is_non_public_ip ip
       | None => false
       end.

(** [host_blocked], on the state that is read after the reload. *)
Definition host_blocked (st : ConfigState) (host : str) (port : N) : HostBlockDecision :=
  match parse_host host with
  | Ok host =>
      let allowed := allowed_domains (config st) in
      if globset_matches_host_or_unscoped (deny_set st) host then Blocked Denied
      else
        let is_allowlisted := globset_matches_host_or_unscoped (allow_set st) host in
        let local :=
          negb (allow_local_binding (config st))
          && (if is_local_literal host
              then negb (is_explicit_local_allowlisted (default [] allowed) host)
              else host_resolves_to_non_public_ip host port) in
        if local then Blocked NotAllowedLocal
        else if bool_decide (allowed = None) || negb is_allowlisted then Blocked NotAllowed
        else Allowed
  | _ => Blocked NotAllowed
  end.

(** [is_unix_socket_allowed], after the check of the platform: the socket is listed, as it
    is or once the file system has resolved both paths. *)
Definition socket_listed (canonicalize : str -> option str) (st : ConfigState) (path : str) : bool :=
  if negb (AbsPath.is_absolute path) then false
  else if dangerously_allow_all_unix_sockets (config st) then true
  else
    match AbsPath.from_absolute_path home cwd path with
    | Ok requested_abs =>
        let requested_canonical := canonicalize requested_abs in
        existsb (fun allowed =>
          match parse_unix_socket_path home cwd debug allowed with
          | Ok (Native allowed_path) =>
              bool_decide (AbsPath.components allowed_path = AbsPath.components requested_abs)
              || match requested_canonical, canonicalize allowed_path with
                 | Some requested, Some allowed =>
                     bool_decide (AbsPath.components allowed = AbsPath.components requested)
                 | _, _ => false
                 end
          | _ => false
          end) (allow_unix_sockets (config st))
    | _ => false
    end.

(** connect_policy.rs, [TargetCheckedStreamConnector::connect]: the check of the address
    that a direct connection goes to. *)
Definition connect_permitted (allow_local_binding : bool) (addr : IpAddr) : bool :=
  negb (negb allow_local_binding && is_non_public_ip addr).

(** ** Sections under the lock *)

(** [while blocked.len() > MAX { pop_front() }] *)
Fixpoint pop_excess (b : list BlockedRequest) : list BlockedRequest :=
  match b with
  | [] => []
  | _ :: rest => if MAX_BLOCKED_EVENTS <? length b then pop_excess rest else b
  end.

Definition saturating_add (a b : N) : N := N.min (a + b) U64_MAX.

Definition record_section (entry : BlockedRequest) (st : ConfigState) : ConfigState :=
  with_blocked st (pop_excess (blocked st ++ [entry])) (saturating_add (blocked_total st) 1).

Definition drain_section (st : ConfigState) : ConfigState * list BlockedRequest :=
  (with_blocked st [] (blocked_total st), blocked st).

(** [force_reload] keeps the buffer and takes the counter of the new state. *)
Definition force_section (new_state st : ConfigState) : ConfigState :=
  with_blocked new_state (blocked st) (blocked_total new_state).

Definition replace_section (new_state st : ConfigState) : ConfigState :=
  with_blocked new_state (blocked st) (blocked_total st).

(** ** [update_domain_list] *)

(** What the loop reads under the lock. *)
Record Snapshot := {
  previous_cfg : NetworkProxySettings;
  snap_constraints : NetworkProxyConstraints;
  snap_blocked : list BlockedRequest;
  snap_total : N;
}.

Definition read_section (st : ConfigState) : Snapshot :=
  {| previous_cfg := config st; snap_constraints := constraints st;
     snap_blocked := blocked st; snap_total := blocked_total st |}.

(** What it computes from that: nothing to do, or the new state. *)
Definition update_candidate (normalized_host : str) (target : DomainListKind) (snap : Snapshot)
    : result str (option ConfigState) :=
  let candidate := previous_cfg snap in
  let same entry := str_eqb (normalize_host entry) normalized_host in
  let target_contains := existsb same (kind_entries target candidate) in
  let opposite_contains := existsb same (opposite_entries target candidate) in
  if target_contains && negb opposite_contains then Ok None
  else
    let candidate :=
      upsert_domain_permission normalized_host (kind_permission target) normalize_host candidate in
    _ ← map_err (fun _ => constraint_field target ++ lit " constrained by managed config")
          (validate_policy_against_constraints url_host debug_list debug_mode candidate
             (snap_constraints snap));
    new_state ← map_err (fun _ => lit "failed to compile updated network " ++ list_name target)
                  (build_config_state candidate (snap_constraints snap));
    Ok (Some (with_blocked new_state (snap_blocked snap) (snap_total snap))).

(** The second section: another change of the configuration starts the loop again. *)
Definition commit_section (snap : Snapshot) (new_state st : ConfigState) : option ConfigState :=
  if bool_decide (constraints st <> snap_constraints snap)
     || bool_decide (config st <> previous_cfg snap)
  then None else Some new_state.

(** The loop with nothing else running: the second section follows on the first. *)
Definition update_domain_list (host : str) (target : DomainListKind) (st : ConfigState)
    : ConfigState * result str unit :=
  match parse_host host with
  | Ok normalized_host =>
      let snap := read_section st in
      match update_candidate normalized_host target snap with
      | Ok None => (st, Ok tt)
      | Ok (Some new_state) =>
          match commit_section snap new_state st with
          | Some new_state => (new_state, Ok tt)
          | None => (st, Crash OutOfFuel)
          end
      | Err e => (st, Err e)
      | Crash c => (st, Crash c)
      end
  | _ => (st, Err (lit "invalid network host"))
  end.

(** ** [set_network_mode] *)

(** What the loop checks on what it read. *)
Definition mode_allowed (mode : NetworkMode) (cfg : NetworkProxySettings)
    (constraints : NetworkProxyConstraints) : result str unit :=
  map_err (fun _ => lit "network.mode constrained by managed config")
    (validate_policy_against_constraints url_host debug_list debug_mode (with_mode cfg mode)
       constraints).

Definition with_config (st : ConfigState) (cfg : NetworkProxySettings) : ConfigState :=
  {| config := cfg; allow_set := allow_set st; deny_set := deny_set st;
     mitm_state := mitm_state st; constraints := constraints st;
     blocked := blocked st; blocked_total := blocked_total st |}.

(** The second section, which compares the constraints only. *)
Definition mode_section (mode : NetworkMode) (snap_constraints : NetworkProxyConstraints)
    (st : ConfigState) : option ConfigState :=
  if bool_decide (constraints st <> snap_constraints) then None
  else Some (with_config st (with_mode (config st) mode)).

(** ** Tasks that run at the same time *)

Inductive Task :=
| Reload (new_state : ConfigState)
| ReloadWrite (new_state : ConfigState) (b : list BlockedRequest) (total : N)
| Force (new_state : ConfigState)
| Replace (new_state : ConfigState)
| Record_ (entry : BlockedRequest)
| Drain
| Update (normalized_host : str) (target : DomainListKind)
| UpdateWrite (normalized_host : str) (target : DomainListKind) (snap : Snapshot)
| SetMode (mode : NetworkMode)
| SetModeWrite (mode : NetworkMode) (snap_constraints : NetworkProxyConstraints).

(** One section of a task: the state after it, and what is left of the task. *)
Definition task_step (t : Task) (st : ConfigState) : ConfigState * option Task :=
  match t with
  | Reload new_state => (st, Some (ReloadWrite new_state (blocked st) (blocked_total st)))
  | ReloadWrite new_state b total => (with_blocked new_state b total, None)
  | Force new_state => (force_section new_state st, None)
  | Replace new_state => (replace_section new_state st, None)
  | Record_ entry => (record_section entry st, None)
  | Drain => ((drain_section st).1, None)
  | Update h k => (st, Some (UpdateWrite h k (read_section st)))
  | UpdateWrite h k snap =>
      match update_candidate h k snap with
      | Ok (Some new_state) =>
          match commit_section snap new_state st with
          | Some new_state => (new_state, None)
          | None => (st, Some (Update h k))
          end
      | _ => (st, None)
      end
  | SetMode m =>
      match mode_allowed m (config st) (constraints st) with
      | Ok _ => (st, Some (SetModeWrite m (constraints st)))
      | _ => (st, None)
      end
  | SetModeWrite m c =>
      match mode_section m c st with
      | Some new_state => (new_state, None)
      | None => (st, Some (SetMode m))
      end
  end.

(** The lists are those of the configuration and the constraints: but for the record of
    blocked requests, the state is what they build. *)
Definition in_force (st : ConfigState) : Prop :=
  build_config_state (config st) (constraints st) = Ok (with_blocked st [] 0).

(** A state as the reloader, or a caller of [replace_config_state], makes it. *)
Definition loaded (st : ConfigState) : Prop :=
  exists cfg c, build_config_state cfg c = Ok st.

(** How a task starts, when the states that come from outside are of a kind. *)
Definition starts (source : ConfigState -> Prop) (t : Task) : Prop :=
  match t with
  | Reload new_state | Force new_state | Replace new_state => source new_state
  | Record_ _ | Drain | Update _ _ | SetMode _ => True
  | ReloadWrite _ _ _ | UpdateWrite _ _ _ | SetModeWrite _ _ => False
  end.

(** The tasks that are under way; any may start, and any may run its next section. *)
Inductive step_from (source : ConfigState -> Prop)
    : ConfigState * list Task -> ConfigState * list Task -> Prop :=
| step_spawn st ts t : starts source t -> step_from source (st, ts) (st, ts ++ [t])
| step_run st ts ts' t st' rest :
    task_step t st = (st', rest) ->
    step_from source (st, ts ++ t :: ts') (st', ts ++ option_list rest ++ ts').

Definition reachable_from (source : ConfigState -> Prop) (sys : ConfigState * list Task) : Prop :=
  exists st0, source st0 /\ rtc (step_from source) (st0, []) sys.

Definition step : ConfigState * list Task -> ConfigState * list Task -> Prop := step_from loaded.

Definition reachable : ConfigState * list Task -> Prop := reachable_from loaded.

End State.

End NetState.
