(* ===== verification/NetStateFacts.v ===== *)
(** * The state of the network proxy: invariants and the decision about hosts

    Whatever tasks run at the same time, the compiled lists are those of the
    configuration in force, the buffer of blocked requests is bounded, and no change of
    the configuration is lost. What the decision about a host means in terms of the
    patterns of the configuration, and the records that a change can lose. *)

From Stdlib Require Import Ascii String.
From S2P Require Import Prelude RustStr AbsPath NetHost NetConfig NetConstraints NetState.
From S2P Require Import NetHostFacts.
Import NetIp NetHost NetConfig NetConstraints NetState NetHostFacts.

Module NetStateFacts.

Lemma pop_excess_drop (b : list BlockedRequest) :
  pop_excess b = drop (length b - MAX_BLOCKED_EVENTS) b.
Proof.
  induction b as [|x b IH]; [done|]. cbn [pop_excess].
  destruct (Nat.ltb_spec MAX_BLOCKED_EVENTS (length (x :: b))) as [H|H].
  - rewrite IH. simpl in H. rewrite (Nat.sub_succ_l _ (length b)) by lia. done.
  - by rewrite (proj2 (Nat.sub_0_le _ _) H).
Qed.

Lemma pop_excess_length (b : list BlockedRequest) : length (pop_excess b) <= MAX_BLOCKED_EVENTS.
Proof. rewrite pop_excess_drop, length_drop. lia. Qed.

(** A host, or the address in front of its scope, is one a list of patterns matches. *)
Definition host_in {Glob} (glob_new : str -> result str Glob) (glob_match : Glob -> str -> bool)
    (patterns : list str) (h : str) : Prop :=
  exists p, p ∈ patterns /\
    (matched_by glob_new glob_match p h
     \/ exists ip, unscoped_ip_literal h = Some ip /\ matched_by glob_new glob_match p ip).

Section State.
Context `{GlobsetLaws Glob GlobSet glob_new globset_build glob_match is_match}.
Context {Mitm : Type}.
Context (url_host : str -> option str) (mitm_new : bool -> bool -> result str Mitm).
Context (home cwd : option str) (debug : str -> str) (debug_list : list str -> str)
        (debug_mode : NetworkMode -> str).

Abbreviation build := (build_config_state glob_new globset_build mitm_new home cwd debug).
Abbreviation State := (@ConfigState GlobSet Mitm).
Abbreviation step_of :=
  (step glob_new globset_build url_host mitm_new home cwd debug debug_list debug_mode).
Abbreviation reachable_of :=
  (reachable glob_new globset_build url_host mitm_new home cwd debug debug_list debug_mode).
Abbreviation candidate_of :=
  (update_candidate glob_new globset_build url_host mitm_new home cwd debug debug_list debug_mode).

(** ** The lists in force are those of the configuration *)

Abbreviation in_force_of := (in_force glob_new globset_build mitm_new home cwd debug).

Lemma build_in_force (cfg : NetworkProxySettings) (c : NetworkProxyConstraints) (st : State) :
  build cfg c = Ok st ->
  in_force_of st /\ config st = cfg /\ constraints st = c /\ blocked st = [] /\ blocked_total st = 0%N.
Proof.
  intros Hb. assert (config st = cfg /\ constraints st = c /\ blocked st = [] /\ blocked_total st = 0%N)
    as (E1 & E2 & E3 & E4).
  { unfold build_config_state in Hb.
    repeat (apply bind_Ok in Hb as (? & ? & Hb)). by simplify_eq. }
  split_and!; try done. unfold in_force. rewrite E1, E2, Hb. destruct st; simpl in *. by subst.
Qed.

Lemma in_force_with_blocked (st : State) b n : in_force_of st -> in_force_of (with_blocked st b n).
Proof. done. Qed.

Lemma candidate_Ok (h : str) (k : DomainListKind) (snap : Snapshot) (st : State) :
  candidate_of h k snap = Ok (Some st) ->
  in_force_of st /\
  config st = upsert_domain_permission h (kind_permission k) normalize_host (previous_cfg snap) /\
  constraints st = snap_constraints snap /\ blocked st = snap_blocked snap /\
  blocked_total st = snap_total snap /\
  validate_policy_against_constraints url_host debug_list debug_mode (config st) (constraints st) = Ok tt.
Proof.
  unfold update_candidate. destruct (_ && _); [done|]. intros Hc.
  apply bind_Ok in Hc as ([] & Hv%map_err_Ok & Hc). apply bind_Ok in Hc as (new & Hn%map_err_Ok & Hc).
  injection Hc as <-. apply build_in_force in Hn as (Hf & E1 & E2 & _ & _). simpl.
  split_and!; try done. by rewrite E1, E2.
Qed.

(** What is built does not depend on the mode. *)
Lemma build_with_mode (cfg : NetworkProxySettings) (c : NetworkProxyConstraints) (m : NetworkMode)
    (st : State) :
  build cfg c = Ok st -> build (with_mode cfg m) c = Ok (with_config st (with_mode cfg m)).
Proof.
  unfold build_config_state. intros Hb.
  repeat (apply bind_Ok in Hb as (? & ? & Hb)). injection Hb as <-.
  by repeat (apply bind_Ok; eexists; split; [eassumption|]).
Qed.

Lemma in_force_with_mode (st : State) (m : NetworkMode) :
  in_force_of st -> in_force_of (with_config st (with_mode (config st) m)).
Proof. intros Hf. by apply (build_with_mode _ _ m) in Hf. Qed.

(** ** The invariant *)

Definition bounded (b : list BlockedRequest) (total : N) : Prop :=
  length b <= MAX_BLOCKED_EVENTS /\ (total <= U64_MAX)%N.

Definition good_state (st : State) : Prop := in_force_of st /\ bounded (blocked st) (blocked_total st).

Definition good_task (t : @Task GlobSet Mitm) : Prop :=
  match t with
  | Reload new | Force new | Replace new => in_force_of new /\ (blocked_total new <= U64_MAX)%N
  | ReloadWrite new b n => in_force_of new /\ bounded b n
  | UpdateWrite _ _ snap => bounded (snap_blocked snap) (snap_total snap)
  | Record_ _ | Drain | Update _ _ | SetMode _ | SetModeWrite _ _ => True
  end.

Lemma loaded_good (st : State) : loaded glob_new globset_build mitm_new home cwd debug st -> good_state st.
Proof.
  intros (cfg & c & (Hf & _ & _ & E1 & E2)%build_in_force). split; [done|].
  rewrite E1, E2. split; [simpl; lia|done].
Qed.

Lemma record_bounded (e : BlockedRequest) (st : State) :
  bounded (blocked st) (blocked_total st) ->
  bounded (blocked (record_section e st)) (blocked_total (record_section e st)).
Proof. intros _. split; [apply pop_excess_length|apply N.le_min_r]. Qed.

Lemma task_step_good (t : Task) (st st' : State) (rest : option Task) :
  good_task t -> good_state st ->
  task_step glob_new globset_build url_host mitm_new home cwd debug debug_list debug_mode t st
    = (st', rest) ->
  good_state st' /\ (forall t', rest = Some t' -> good_task t').
Proof.
  intros Ht [Hf Hb] Hs. destruct t as [new|new b n|new|new|e| |h k|h k snap|m|m c]; simpl in Ht, Hs; simplify_eq.
  - split; [by split|]. intros t' [= <-]. by destruct Ht.
  - destruct Ht. by split.
  - destruct Ht, Hb. by split; [split|].
  - destruct Ht. by split; [split|].
  - split; [split; [done|by apply record_bounded]|done].
  - split; [split; [done|split; [simpl; lia|apply Hb]]|done].
  - split; [by split|]. by intros t' [= <-].
  - destruct (update_candidate _ _ _ _ _ _ _ _ _ h k snap) as [[new|]|e|c] eqn:E; try by simplify_eq; split.
    unfold commit_section in Hs. destruct (_ || _); simplify_eq.
    + split; [by split|]. by intros t' [= <-].
    + apply candidate_Ok in E as (? & _ & _ & E1 & E2 & _). split; [|done]. split; [done|].
      by rewrite E1, E2.
  - by destruct (mode_allowed _ _ _ m _ _) as [[]|e|c]; simplify_eq; split; [|intros t' [= <-]| |..].
  - unfold mode_section in Hs. case_bool_decide; simplify_eq; split;
      [by split|by intros t' [= <-]|split; [by apply in_force_with_mode|done]|done].
Qed.

Definition good (sys : State * list Task) : Prop := good_state sys.1 /\ Forall good_task sys.2.

Lemma step_good (sys sys' : State * list Task) : step_of sys sys' -> good sys -> good sys'.
Proof.
  intros Hs [Hg Ht]. destruct Hs as [st ts t Hst|st ts ts' t st' rest Hst]; simpl in *.
  - split; [done|]. apply Forall_app; split; [done|]. constructor; [|constructor].
    destruct t; simpl in Hst; try done; apply loaded_good in Hst as [? [_ ?]]; by split.
  - apply Forall_app in Ht as [H1 H2]. apply Forall_cons in H2 as [Htt H2].
    destruct (task_step_good _ _ _ _ Htt Hg Hst) as [Hg' Hr]. split; [done|].
    apply Forall_app; split; [done|]. apply Forall_app; split; [|done].
    destruct rest as [t'|]; simpl; [|constructor]. constructor; [by apply Hr|constructor].
Qed.

Lemma reachable_good (sys : State * list Task) : reachable_of sys -> good sys.
Proof.
  intros (st0 & Hb%loaded_good & Hr).
  assert (good (st0, [])) as Hg by (split; [done|constructor]).
  remember (st0, []) as sys0 eqn:E. clear E. induction Hr as [|s1 s2 s3 Hs _ IH]; [done|].
  by apply IH, (step_good s1).
Qed.

(** However the tasks interleave, the compiled lists are those of the configuration
    and the constraints in force, the buffer holds at most 200 requests, and the counter
    stays within 64 bits. *)
Theorem reachable_in_force (st : State) (ts : list Task) :
  reachable glob_new globset_build url_host mitm_new home cwd debug debug_list debug_mode (st, ts) ->
  in_force glob_new globset_build mitm_new home cwd debug st /\
  length (blocked st) <= MAX_BLOCKED_EVENTS /\ (blocked_total st <= U64_MAX)%N.
Proof. intros [[Hf [? ?]] _]%reachable_good. by split_and!. Qed.

(** ** What the decision means *)

Lemma in_force_compiled (st : State) :
  in_force_of st ->
  compile_denylist_globset glob_new globset_build (default [] (denied_domains (config st)))
    = Ok (deny_set st) /\
  compile_allowlist_globset glob_new globset_build (default [] (allowed_domains (config st)))
    = Ok (allow_set st).
Proof.
  unfold in_force, build_config_state. intros Hb.
  apply bind_Ok in Hb as (_ & _ & Hb). apply bind_Ok in Hb as (_ & _ & Hb).
  apply bind_Ok in Hb as (ds & Hd & Hb). apply bind_Ok in Hb as (als & Ha & Hb).
  apply bind_Ok in Hb as (m & _ & Hb). injection Hb as E1 E2 E3. by rewrite <- E1, <- E2.
Qed.

Abbreviation host_in := (host_in glob_new glob_match).

Lemma set_matches_host (gw : GlobalWildcard) (patterns : list str) (set : GlobSet) (h : str) :
  compile_globset_with_policy glob_new globset_build patterns gw = Ok set ->
  globset_matches_host_or_unscoped is_match set h = true <-> host_in patterns h.
Proof using H.
  intros Hc. destruct (compiled_set_matches gw patterns set Hc) as [Hm _].
  unfold globset_matches_host_or_unscoped, NetStateFacts.host_in. rewrite orb_true_iff, Hm.
  destruct (unscoped_ip_literal h) as [ip|]; [rewrite Hm|]; clear; naive_solver.
Qed.

Context (lookup_host : str -> N -> option (list IpAddr)).

(** Every address the host stands for or resolves to is public, and it does resolve. *)
Definition reaches_public (h : str) (port : N) : Prop :=
  match parse_ip h with
  | Some ip => is_non_public_ip ip = false
  | None => exists addrs, lookup_host h port = Some addrs /\
              forall a, a ∈ addrs -> is_non_public_ip a = false
  end.

Lemma resolves_public (h : str) (port : N) :
  host_resolves_to_non_public_ip lookup_host h port = false <-> reaches_public h port.
Proof.
  clear url_host debug. unfold host_resolves_to_non_public_ip, reaches_public.
  destruct (parse_ip h) as [ip|]; [done|]. destruct (lookup_host h port) as [addrs|]; [|naive_solver].
  rewrite <- not_true_iff_false, existsb_exists. split.
  - intros Hn. exists addrs. split; [done|]. intros a Ha. apply not_true_iff_false. intros Ht.
    apply Hn. exists a. split; [by apply list_elem_of_In|done].
  - intros (addrs' & [= <-] & Ha) (a & Hin%list_elem_of_In & Ht). by rewrite Ha in Ht.
Qed.

(** The decision in terms of the patterns of a configuration in force. *)
Lemma decision_means (st : State) (host : str) (port : N) :
  in_force_of st ->
  (host_blocked is_match lookup_host st host port = Blocked Denied <->
   exists h, parse_host host = Ok h /\ host_in (default [] (denied_domains (config st))) h) /\
  (host_blocked is_match lookup_host st host port = Allowed <->
   exists h, parse_host host = Ok h /\
     ~ host_in (default [] (denied_domains (config st))) h /\
     host_in (default [] (allowed_domains (config st))) h /\
     (allow_local_binding (config st) = false ->
      if is_local_literal h
      then is_explicit_local_allowlisted (default [] (allowed_domains (config st))) h = true
      else reaches_public h port)).
Proof using H.
  clear url_host. intros Hf.
  destruct (in_force_compiled st Hf) as [Hd Ha].
  unfold host_blocked. destruct (parse_host host) as [h|e|c]; [|by split; naive_solver..].
  assert (forall P, (exists h', Ok h = Ok (E := str) h' /\ P h') <-> P h) as Hex.
  { intros P. split; [by intros (? & [= <-] & ?)|by exists h]. }
  rewrite !Hex. clear Hex.
  rewrite <- (set_matches_host _ _ _ h Hd), <- (set_matches_host _ _ _ h Ha).
  destruct (globset_matches_host_or_unscoped is_match (deny_set st) h) eqn:E1; [split; naive_solver|].
  assert (allowed_domains (config st) = None ->
          globset_matches_host_or_unscoped is_match (allow_set st) h = false) as Hnone.
  { intros E. apply not_true_iff_false. rewrite (set_matches_host _ _ _ h Ha), E.
    by intros (p & ?%elem_of_nil & _). }
  pose proof (resolves_public h port) as Hr.
  destruct (globset_matches_host_or_unscoped is_match (allow_set st) h) eqn:E2.
  - case_bool_decide as En; [by apply Hnone in En|].
    destruct (allow_local_binding (config st)); [simpl; split; naive_solver|].
    destruct (is_local_literal h);
      [set (b := is_explicit_local_allowlisted _ h); destruct b
      |set (b := host_resolves_to_non_public_ip _ h port) in *; destruct b];
      simpl; split; naive_solver.
  - rewrite orb_true_r.
    destruct (_ && _); split; naive_solver.
Qed.

(** C22: In every reachable state, whatever patterns the lists have, a host is denied exactly
    when a denied pattern matches it. It is allowed exactly when no denied pattern does, an
    allowed one does, and, unless local destinations are permitted, it is a local literal
    listed as such or a name all of whose addresses are public. A pattern without globs
    inside matches the hosts that it stands for: its domain, the names below it, or both;
    one with wildcards, classes or alternatives inside, what the crate [globset] says of
    its domain as a glob. A host with a scope is also matched without it. *)
Theorem policy_enforced (st : State) (ts : list Task) (host : str) (port : N) :
  reachable glob_new globset_build url_host mitm_new home cwd debug debug_list debug_mode (st, ts) ->
  (host_blocked is_match lookup_host st host port = Blocked Denied <->
   exists h, parse_host host = Ok h /\ host_in (default [] (denied_domains (config st))) h) /\
  (host_blocked is_match lookup_host st host port = Allowed <->
   exists h, parse_host host = Ok h /\
     ~ host_in (default [] (denied_domains (config st))) h /\
     host_in (default [] (allowed_domains (config st))) h /\
     (allow_local_binding (config st) = false ->
      if is_local_literal h
      then is_explicit_local_allowlisted (default [] (allowed_domains (config st))) h = true
      else reaches_public h port)).
Proof using All. intros [[Hf _] _]%reachable_good. by apply decision_means. Qed.

End State.

(** ** The theorems at a concrete input *)

(** A proxy whose crates are given by [simple_new] and its companions. *)
Definition demo_url_host (s : str) : option str := Some s.
Definition demo_mitm (_ _ : bool) : result str unit := Ok tt.
Definition demo_lookup (_ : str) (_ : N) : option (list IpAddr) := Some [V4 (v4 8 8 8 8)].
Definition demo_list (l : list str) : str := join (lit ", ") l.
Definition demo_mode (_ : NetworkMode) : str := [].

(** A configuration that allows the names below org but one. *)
Definition demo_settings : NetworkProxySettings :=
  set_denied_domains [lit "a.org"] (set_allowed_domains [lit "**.org"] default_settings).

Definition demo_state : @ConfigState (list str) unit :=
  {| config := demo_settings; allow_set := [lit "org"; lit "?*.org"]; deny_set := [lit "a.org"];
     mitm_state := None; constraints := manages_only (lit "**.org"); blocked := [];
     blocked_total := 0 |}.

Lemma demo_state_loaded : loaded simple_new simple_build demo_mitm None None id demo_state.
Proof. exists demo_settings, (manages_only (lit "**.org")). reflexivity. Qed.

Lemma demo_state_reachable :
  reachable simple_new simple_build demo_url_host demo_mitm None None id demo_list demo_mode
    (demo_state, []).
Proof. exists demo_state. split; [apply demo_state_loaded|apply rtc_refl]. Qed.

Lemma reachable_in_force_witness :
  reachable simple_new simple_build demo_url_host demo_mitm None None id demo_list demo_mode
    (demo_state, []) /\
  in_force simple_new simple_build demo_mitm None None id demo_state.
Proof.
  split; [apply demo_state_reachable|].
  exact (proj1 (reachable_in_force _ _ _ _ _ _ _ _ _ demo_state_reachable)).
Defined.

Lemma policy_enforced_witness :
  host_blocked simple_is_match demo_lookup demo_state (lit "A.org") 443 = Blocked Denied <->
  exists h, parse_host (lit "A.org") = Ok h /\
    host_in simple_new simple_match (default [] (denied_domains (config demo_state))) h.
Proof.
  apply (policy_enforced demo_url_host demo_mitm None None id demo_list demo_mode demo_lookup
           demo_state [] (lit "A.org") 443 demo_state_reachable).
Defined.

End NetStateFacts.
