(* ===== verification/NetUpdateFacts.v ===== *)
(** * Changing the lists of the network proxy while it runs

    What adding a domain to a list does to the configuration and to the decision about
    the host, that a change made at the same time is not lost, and what is. *)

From Stdlib Require Import Ascii String.
From S2P Require Import Prelude RustStr NetHost NetConfig NetConstraints NetState NetHostFacts.
From S2P Require Import NetStateFacts.
Import NetIp NetHost NetConfig NetConstraints NetState NetHostFacts NetConfigFacts NetStateFacts.

Module NetUpdateFacts.

Section Update.
Context `{GlobsetLaws Glob GlobSet glob_new globset_build glob_match is_match}.
Context {Mitm : Type}.
Context (url_host : str -> option str) (mitm_new : bool -> bool -> result str Mitm).
Context (home cwd : option str) (debug : str -> str) (debug_list : list str -> str)
        (debug_mode : NetworkMode -> str).

Abbreviation State := (@ConfigState GlobSet Mitm).
Abbreviation candidate_of :=
  (update_candidate glob_new globset_build url_host mitm_new home cwd debug debug_list debug_mode).

Lemma existsb_same (l : list str) (h : str) :
  existsb (fun entry => str_eqb (normalize_host entry) h) l = true <->
  exists p, p ∈ l /\ normalize_host p = h.
Proof.
  rewrite existsb_exists. setoid_rewrite str_eqb_eq. setoid_rewrite <- list_elem_of_In. done.
Qed.

Lemma kind_entries_spec (k : DomainListKind) (cfg : NetworkProxySettings) (p : str) :
  p ∈ kind_entries k cfg <-> strongest (default [] (domains cfg)) p = Some (kind_permission k).
Proof. destruct k; apply domain_entries_spec. Qed.

Definition opposite (k : DomainListKind) : DomainListKind :=
  match k with AllowList => DenyList | DenyList => AllowList end.

Lemma opposite_entries_kind (k : DomainListKind) (cfg : NetworkProxySettings) :
  opposite_entries k cfg = kind_entries (opposite k) cfg.
Proof. by destruct k. Qed.

(** The second section finds the configuration and the constraints as the first left them. *)
Lemma commit_unchanged (st st1 new_state : State) :
  config st1 = config st -> constraints st1 = constraints st ->
  commit_section (read_section st) new_state st1 = Some new_state.
Proof. intros E1 E2. unfold commit_section. by rewrite !bool_decide_eq_false_2 by auto. Qed.

Lemma update_alone (host h : str) (k : DomainListKind) (st st' : State) :
  parse_host host = Ok h ->
  update_domain_list glob_new globset_build url_host mitm_new home cwd debug debug_list debug_mode
    host k st = (st', Ok tt) <->
  candidate_of h k (read_section st) = Ok None /\ st' = st \/
  candidate_of h k (read_section st) = Ok (Some st').
Proof.
  intros Hh. unfold update_domain_list. rewrite Hh.
  destruct (update_candidate _ _ _ _ _ _ _ _ _ h k _) as [[new|]|e|c]; [rewrite commit_unchanged by done|..];
    (split; [by intros ?; simplify_eq; auto|intros [[??]|?]; by simplify_eq]).
Qed.

(** The host is on the list it was added to and on no other. *)
Lemma update_listed (host h : str) (k : DomainListKind) (st st' : State) :
  parse_host host = Ok h -> normalize_host h = h ->
  update_domain_list glob_new globset_build url_host mitm_new home cwd debug debug_list debug_mode
    host k st = (st', Ok tt) ->
  (exists p, p ∈ kind_entries k (config st') /\ normalize_host p = h) /\
  (forall p, p ∈ opposite_entries k (config st') -> normalize_host p <> h).
Proof.
  intros Hh Hn. rewrite (update_alone host h k st st' Hh). intros [[Hc ->]|Hc].
  - unfold update_candidate in Hc. cbn [previous_cfg read_section] in Hc.
    destruct (_ && _) eqn:E; [|by repeat (apply bind_Ok in Hc as (? & ? & Hc))].
    apply andb_true_iff in E as [E1%existsb_same E2%negb_true_iff].
    split; [done|]. intros p Hp Hpn. apply not_true_iff_false in E2.
    apply E2, existsb_same. by exists p.
  - apply candidate_Ok in Hc as (_ & Ec & _). cbn in Ec. split.
    + exists h. split; [|done]. by rewrite kind_entries_spec, Ec, upsert_permission, decide_True.
    + intros p. rewrite opposite_entries_kind, kind_entries_spec, Ec, upsert_permission.
      intros Hp Hpn. rewrite Hn in Hp. repeat case_decide; [by destruct k|done|done].
Qed.

(** An update that succeeds with nothing else running: the host, which is its own
    normal form, is on the list it was added to and on no other, in any spelling; every
    other host keeps its permission; the record of blocked requests is kept; and a
    configuration that changed keeps within the constraints. *)
Theorem update_effect (host h : str) (k : DomainListKind) (st st' : State) :
  parse_host host = Ok h -> normalize_host h = h ->
  update_domain_list glob_new globset_build url_host mitm_new home cwd debug debug_list debug_mode
    host k st = (st', Ok tt) ->
  (exists p, p ∈ kind_entries k (config st') /\ normalize_host p = h) /\
  (forall p, p ∈ opposite_entries k (config st') -> normalize_host p <> h) /\
  (forall p, normalize_host p <> h ->
     strongest (default [] (domains (config st'))) p = strongest (default [] (domains (config st))) p) /\
  constraints st' = constraints st /\
  blocked st' = blocked st /\ blocked_total st' = blocked_total st /\
  (st' = st \/
   validate_policy_against_constraints url_host debug_list debug_mode (config st') (constraints st')
     = Ok tt).
Proof.
  intros Hh Hn Hu. destruct (update_listed host h k st st' Hh Hn Hu) as [H1 H2].
  apply (update_alone host h k st st' Hh) in Hu as [[_ ->]|Hc]; [split_and!; auto|].
  apply candidate_Ok in Hc as (_ & Ec & Ek & Eb & Et & Hv). cbn in Ec, Ek, Eb, Et.
  split_and!; try done; [|by right].
  intros p Hp. rewrite Ec, upsert_permission, !decide_False; [done|by rewrite Hn|by intros ->].
Qed.

(** ** From the list to the decision *)

(** A host without what globs, ports, scopes and brackets are made of. *)
Definition plain_host (h : str) : Prop := plain h /\ trim h = h /\ normalize_host h = h.

Lemma plain_not_in (h : str) (c : char) : plain h -> c ∈ lit "*?[]{}\," -> c ∉ h.
Proof. unfold plain. rewrite Forall_forall. intros Hp Hc Hin. by apply (Hp c). Qed.

(** A leading star stays in the normal form. *)
Lemma normalize_host_star (p r : str) : trim p = ch "*" :: r -> ch "*" ∈ normalize_host p.
Proof.
  intros E. unfold normalize_host. rewrite E.
  assert (exists r', host_part (ch "*" :: r) = ch "*" :: r') as [r' ->].
  { unfold host_part. cbn [starts_with strip_prefix]. change (starts_with _ _) with false. cbv iota.
    destruct (_ =? 1); [|by exists r]. simpl. destruct (split_on (ch ":") r) as [|w ws] eqn:Es;
      [by destruct (split_on_ne (ch ":") r)|]. by exists w. }
  unfold normalize_dns_host_or_ip_literal.
  assert (exists r2, trim_end_dots (to_ascii_lowercase (ch "*" :: r')) = ch "*" :: r2) as [r2 ->].
  { destruct (drop_while_end_prefix (N.eqb (ch ".")) (to_ascii_lowercase (ch "*" :: r')))
      as (post & E2 & Hall). unfold trim_end_dots.
    destruct (drop_while_end _ _) as [|c l]; simpl in E2.
    - rewrite <- E2 in Hall. apply Forall_cons in Hall as [Hc _]. done.
    - injection E2 as <- _. by exists l. }
  destruct (normalize_ip_literal _) as [ip|] eqn:Ei; [|left].
  apply normalize_ip_literal_shape in Ei as [->|(a & scope & d & Ha & -> & E3)]; [left|].
  destruct a as [|c a]; [by vm_compute in Ha|]. injection E3 as <- _. left.
Qed.

(** An entry that normalises to a plain host is exactly that host, and stands for it. *)
Lemma entry_is_exact (p h : str) :
  plain_host h -> h <> [] -> normalize_host p = h ->
  normalize_pattern p = h /\ parse_pattern (normalize_pattern p) = Exact h.
Proof.
  intros (Hpl & Ht & Hn) Hne Hp.
  assert (forall r, trim p <> ch "*" :: r) as Hs.
  { intros r E. apply (plain_not_in h (ch "*") Hpl); [left|]. rewrite <- Hp.
    by eapply normalize_host_star. }
  assert (normalize_pattern p = h) as E.
  { unfold normalize_pattern. destruct (str_eqb (trim p) (lit "*")) eqn:E1.
    { apply str_eqb_eq in E1. by destruct (Hs []). }
    destruct (strip_prefix (lit "**.") (trim p)) as [d|] eqn:E2.
    { apply strip_prefix_Some in E2. by destruct (Hs (lit "*." ++ d)). }
    destruct (strip_prefix (lit "*.") (trim p)) as [d|] eqn:E3.
    { apply strip_prefix_Some in E3. by destruct (Hs (lit "." ++ d)). }
    simpl. unfold normalize_host in *. by rewrite trim_idemp. }
  assert (forall r, h <> ch "*" :: r) as Hh.
  { intros r E'. apply (plain_not_in h (ch "*") Hpl); [left|]. rewrite E'. left. }
  split; [done|]. rewrite E. unfold parse_pattern. rewrite Ht, (proj2 (str_eqb_neq h []) Hne).
  destruct (strip_prefix (lit "**.") h) as [d|] eqn:E2.
  { apply strip_prefix_Some in E2. by destruct (Hh (lit "*." ++ d)). }
  destruct (strip_prefix (lit "*.") h) as [d|] eqn:E3.
  { apply strip_prefix_Some in E3. by destruct (Hh (lit "." ++ d)). }
  done.
Qed.

Lemma entry_stands_for (p h : str) :
  plain_host h -> h <> [] -> normalize_host p = h -> stands_for p h.
Proof.
  intros Hh Hne Hp. destruct (entry_is_exact p h Hh Hne Hp) as [_ E]. unfold stands_for. rewrite E.
  by right.
Qed.

Lemma entry_matches (p h : str) :
  plain_host h -> h <> [] -> normalize_host p = h -> matched_by glob_new glob_match p h.
Proof.
  intros Hh Hne Hp. unfold matched_by.
  pose proof (entry_stands_for p h Hh Hne Hp) as Hs. case_decide as Hpl; [done|]. exfalso. apply Hpl.
  destruct (entry_is_exact p h Hh Hne Hp) as [_ E]. unfold plain_pattern. rewrite E. right. by destruct Hh.
Qed.

(** A host that is put on the deny list is denied from then on, whatever else the
    lists hold. *)
Theorem denied_from_then_on (host h : str) (port : N) (st st' : State) lookup_host :
  parse_host host = Ok h -> plain_host h -> in_force glob_new globset_build mitm_new home cwd debug st ->
  update_domain_list glob_new globset_build url_host mitm_new home cwd debug debug_list debug_mode
    host DenyList st = (st', Ok tt) ->
  host_blocked is_match lookup_host st' host port = Blocked Denied.
Proof using All.
  intros Hh Hp Hf Hu.
  assert (h <> []) as Hne.
  { intros ->. unfold parse_host in Hh. destruct (str_eqb _ _) eqn:E; [done|].
    injection Hh as Hh. by rewrite Hh in E. }
  destruct (update_listed host h DenyList st st' Hh (proj2 (proj2 Hp)) Hu) as [(p & Hin & Hpn) _].
  assert (in_force glob_new globset_build mitm_new home cwd debug st') as Hf'.
  { apply (update_alone host h DenyList st st' Hh) in Hu as [[_ ->]|Hc]; [done|].
    by apply candidate_Ok in Hc as [? _]. }
  unfold host_blocked. rewrite Hh.
  destruct (in_force_compiled _ _ _ _ _ Hf') as [Hd _].
  rewrite (proj2 (set_matches_host _ _ _ h Hd)); [done|].
  exists p. split; [done|]. left. by apply entry_matches.
Qed.

(** ** Updates that run at the same time as others *)

Abbreviation run_task :=
  (task_step glob_new globset_build url_host mitm_new home cwd debug debug_list debug_mode).

(** No change of the configuration is lost. Whatever ran since the first section of
    an update, when its second section changes the state the new configuration is the one
    then in force with the permission of the host replaced, under the constraints then in
    force, and within them; otherwise the state is kept, and the update starts again if
    something else had changed it. *)
Theorem update_serialised (h : str) (k : DomainListKind) (snap : Snapshot) (st st' : State) rest :
  task_step glob_new globset_build url_host mitm_new home cwd debug debug_list debug_mode
    (UpdateWrite h k snap) st = (st', rest) ->
  st' = st /\ (rest = None \/ rest = Some (Update h k) /\
    (config st <> previous_cfg snap \/ constraints st <> snap_constraints snap)) \/
  rest = None /\
  config st' = upsert_domain_permission h (kind_permission k) normalize_host (config st) /\
  constraints st' = constraints st /\
  validate_policy_against_constraints url_host debug_list debug_mode (config st') (constraints st')
    = Ok tt /\
  in_force glob_new globset_build mitm_new home cwd debug st'.
Proof.
  simpl. destruct (update_candidate _ _ _ _ _ _ _ _ _ h k snap) as [[new|]|e|c] eqn:E;
    try (intros; simplify_eq; by left; split; [|left]).
  unfold commit_section. destruct (_ || _) eqn:Ec; intros; simplify_eq.
  - left. split; [done|]. right. split; [done|].
    apply orb_true_iff in Ec as [Ec|Ec]; apply bool_decide_eq_true in Ec; auto.
  - right. apply orb_false_iff in Ec as [E1 E2].
    apply bool_decide_eq_false, dec_stable in E1. apply bool_decide_eq_false, dec_stable in E2.
    apply candidate_Ok in E as (Hf & Eg & Ek & _ & _ & Hv).
    split_and!; try done; [by rewrite Eg, E2|by rewrite Ek, E1].
Qed.

(** ** The managed constraints *)

Abbreviation validate_of := (validate_policy_against_constraints url_host debug_list debug_mode).

Definition within_constraints (st : State) : Prop :=
  validate_of (config st) (constraints st) = Ok tt.

(** The mode is checked on its own. *)
Lemma validate_with_mode (cfg : NetworkProxySettings) (m : NetworkMode) (c : NetworkProxyConstraints) :
  (validate_of (with_mode cfg m) c = Ok tt -> validate_mode debug_mode m (c_mode c) = Ok tt) /\
  (validate_of cfg c = Ok tt -> validate_mode debug_mode m (c_mode c) = Ok tt ->
   validate_of (with_mode cfg m) c = Ok tt).
Proof.
  unfold validate_policy_against_constraints. cbv zeta. rewrite !bind_unit_Ok.
  split; [by intros (_ & _ & Hm & _)|]. by intros (H1 & H2 & _ & H3) Hm.
Qed.

Definition checked_task (t : @Task GlobSet Mitm) : Prop :=
  match t with
  | Reload new | ReloadWrite new _ _ | Force new | Replace new => within_constraints new
  | SetModeWrite m c => validate_mode debug_mode m (c_mode c) = Ok tt
  | Record_ _ | Drain | Update _ _ | UpdateWrite _ _ _ | SetMode _ => True
  end.

Lemma task_step_within (t : Task) (st st' : State) rest :
  checked_task t -> within_constraints st ->
  task_step glob_new globset_build url_host mitm_new home cwd debug debug_list debug_mode t st
    = (st', rest) ->
  within_constraints st' /\ (forall t', rest = Some t' -> checked_task t').
Proof.
  intros Ht Hw Hs.
  destruct t as [new|new b n|new|new|e| |h k|h k snap|m|m c]; simpl in Ht, Hs;
    try by simplify_eq; split; [|intros ? [= <-]].
  - destruct (update_candidate _ _ _ _ _ _ _ _ _ h k snap) as [[new|]|e|c] eqn:E;
      try by simplify_eq; split.
    unfold commit_section in Hs. destruct (_ || _); simplify_eq.
    + split; [done|]. by intros t' [= <-].
    + split; [|done]. by apply candidate_Ok in E as (_ & _ & _ & _ & _ & ?).
  - destruct (mode_allowed _ _ _ m _ _) as [[]|e|c] eqn:E; simplify_eq; split; try done.
    intros t' [= <-]. apply map_err_Ok in E. by apply validate_with_mode in E.
  - unfold mode_section in Hs. case_bool_decide as E.
    + simplify_eq. split; [done|]. by intros t' [= <-].
    + subst c. simplify_eq. split; [|done]. by apply validate_with_mode.
Qed.

(** C21: as long as the states that come from outside keep within the managed
    constraints they carry, the configuration in force always does, whatever updates of
    the lists, changes of the mode and reloads run at the same time. *)
Theorem constraints_always_hold (st : State) (ts : list Task) :
  reachable_from glob_new globset_build url_host mitm_new home cwd debug debug_list debug_mode
    (fun s => validate_policy_against_constraints url_host debug_list debug_mode
                (config s) (constraints s) = Ok tt) (st, ts) ->
  validate_policy_against_constraints url_host debug_list debug_mode (config st) (constraints st)
    = Ok tt.
Proof.
  intros (st0 & H0 & Hr). change (within_constraints (st, ts).1).
  assert (within_constraints (st0, @nil (@Task GlobSet Mitm)).1 /\
          Forall checked_task (st0, @nil (@Task GlobSet Mitm)).2) as Hg by by split.
  revert Hg. induction Hr as [s|s1 s2 s3 Hs _ IH]; [by intros [? _]|]. intros [Hw Ht]. apply IH.
  destruct Hs as [st1 us t Hst|st1 us us' t st1' rest Hst]; simpl in *.
  - split; [done|]. apply Forall_app; split; [done|]. constructor; [by destruct t|constructor].
  - apply Forall_app in Ht as [H1 [Htt H2]%Forall_cons].
    destruct (task_step_within _ _ _ _ Htt Hw Hst) as [Hw' Hr]. split; [done|].
    apply Forall_app; split; [done|]. apply Forall_app; split; [|done].
    destruct rest as [t'|]; simpl; [|constructor]. constructor; [by apply Hr|constructor].
Qed.

Lemma rtc_two (s1 s2 s3 : State * list Task) :
  step glob_new globset_build url_host mitm_new home cwd debug debug_list debug_mode s1 s2 ->
  step glob_new globset_build url_host mitm_new home cwd debug debug_list debug_mode s2 s3 ->
  rtc (step glob_new globset_build url_host mitm_new home cwd debug debug_list debug_mode) s1 s3.
Proof. intros H1 H2. by eapply rtc_l, rtc_l, rtc_refl. Qed.

Lemma run_at (ts ts' : list Task) (t : Task) (st st' : State) rest (s1 s2 : State * list Task) :
  run_task t st = (st', rest) ->
  s1 = (st, ts ++ t :: ts') -> s2 = (st', ts ++ option_list rest ++ ts') ->
  step glob_new globset_build url_host mitm_new home cwd debug debug_list debug_mode s1 s2.
Proof. intros Hr -> ->. by apply step_run. Qed.

(** A request that is recorded between the two sections of an update is lost: the
    update restores the buffer and the counter it had read, and does not notice, since it
    compares only the configuration and the constraints. *)
Theorem update_loses_record (h : str) (k : DomainListKind) (e : BlockedRequest)
    (st new_state : State) :
  update_candidate glob_new globset_build url_host mitm_new home cwd debug debug_list debug_mode
    h k (read_section st) = Ok (Some new_state) ->
  e ∉ blocked st ->
  exists st1 st2,
    rtc (step glob_new globset_build url_host mitm_new home cwd debug debug_list debug_mode)
      (st, [Update h k; Record_ e]) (st1, [UpdateWrite h k (read_section st)]) /\
    step glob_new globset_build url_host mitm_new home cwd debug debug_list debug_mode
      (st1, [UpdateWrite h k (read_section st)]) (st2, []) /\
    (e ∈ blocked st1) /\ (e ∉ blocked st2) /\ blocked_total st2 = blocked_total st.
Proof.
  intros Hc He. exists (record_section e st), new_state.
  pose proof Hc as Hc'. apply candidate_Ok in Hc' as (_ & _ & _ & Eb & Et & _).
  cbn in Eb, Et. split; [|split; [|split; [|split]]].
  - eapply rtc_two.
    + by eapply (run_at [] [Record_ e] (Update h k)).
    + by eapply (run_at [UpdateWrite h k (read_section st)] [] (Record_ e)).
  - eapply (run_at [] [] _ _ _ None); [|done|done]. cbn [task_step].
    by rewrite Hc, commit_unchanged.
  - cbn [record_section with_blocked blocked]. rewrite pop_excess_drop, length_app.
    rewrite drop_app_le; [apply elem_of_app; right; left|].
    unfold MAX_BLOCKED_EVENTS. simpl. lia.
  - by rewrite Eb.
  - done.
Qed.

End Update.

(** ** The theorems at a concrete input *)

(** The state after B.org was put on its deny list. *)
Definition demo_denied : @ConfigState (list str) unit :=
  {| config := set_denied_domains [lit "a.org"; lit "b.org"] demo_settings;
     allow_set := [lit "org"; lit "?*.org"]; deny_set := [lit "a.org"; lit "b.org"];
     mitm_state := None; constraints := manages_only (lit "**.org"); blocked := [];
     blocked_total := 0 |}.

Lemma demo_update :
  update_domain_list simple_new simple_build demo_url_host demo_mitm None None id demo_list demo_mode
    (lit "B.org") DenyList demo_state = (demo_denied, Ok tt).
Proof. by vm_compute. Qed.

Lemma demo_host : parse_host (lit "B.org") = Ok (lit "b.org") /\ plain_host (lit "b.org").
Proof. split; [done|]. split; [by apply (bool_decide_unpack (plain _))|by split]. Qed.

Lemma update_effect_witness :
  parse_host (lit "B.org") = Ok (lit "b.org") /\ normalize_host (lit "b.org") = lit "b.org" /\
  exists p, p ∈ kind_entries DenyList (config demo_denied) /\ normalize_host p = lit "b.org".
Proof.
  destruct demo_host as (Hh & _ & _ & Hn). split; [exact Hh|]. split; [exact Hn|].
  exact (proj1 (update_effect _ _ _ _ _ _ _ _ _ DenyList _ _ Hh Hn demo_update)).
Defined.

Lemma denied_from_then_on_witness :
  plain_host (lit "b.org") /\
  host_blocked simple_is_match demo_lookup demo_denied (lit "B.org") 443 = Blocked Denied.
Proof.
  destruct demo_host as [Hh Hp]. split; [exact Hp|].
  refine (denied_from_then_on _ _ _ _ _ _ _ _ _ _ _ _ demo_lookup Hh Hp _ demo_update).
  by vm_compute.
Defined.

Lemma update_serialised_witness :
  task_step simple_new simple_build demo_url_host demo_mitm None None id demo_list demo_mode
    (UpdateWrite (lit "b.org") DenyList (read_section demo_state)) demo_state
    = (demo_denied, None) /\
  (demo_denied = demo_state \/ constraints demo_denied = constraints demo_state).
Proof.
  assert (task_step simple_new simple_build demo_url_host demo_mitm None None id demo_list
      demo_mode (UpdateWrite (lit "b.org") DenyList (read_section demo_state)) demo_state
      = (demo_denied, None)) as E by (by vm_compute).
  split; [exact E|].
  destruct (update_serialised _ _ _ _ _ _ _ _ _ _ _ _ _ E) as [[E' _]|(_ & _ & E' & _)];
    [by left|right; exact E'].
Defined.

Lemma constraints_always_hold_witness :
  let within s := validate_policy_against_constraints demo_url_host demo_list demo_mode
                    (config s) (constraints s) = Ok tt in
  reachable_from simple_new simple_build demo_url_host demo_mitm None None id demo_list demo_mode
    within (demo_state, [SetMode Limited]) /\ within demo_state.
Proof.
  intros within.
  assert (reachable_from simple_new simple_build demo_url_host demo_mitm None None id demo_list
    demo_mode within (demo_state, [SetMode Limited])) as Hr.
  { exists demo_state. split; [by vm_compute|]. eapply rtc_l, rtc_refl.
    by apply (step_spawn _ _ _ _ _ _ _ _ _ _ demo_state [] (SetMode Limited)). }
  split; [exact Hr|].
  exact (constraints_always_hold demo_url_host demo_mitm None None id demo_list
           demo_mode demo_state _ Hr).
Defined.

Definition demo_entry : BlockedRequest :=
  {| b_host := lit "x"; b_reason := []; b_client := None; b_method := None; b_mode := None;
     b_protocol := []; b_decision := None; b_source := None; b_port := None; b_timestamp := 0 |}.

Lemma update_loses_record_witness :
  exists st1 st2 : @ConfigState (list str) unit,
    (demo_entry ∈ blocked st1) /\ (demo_entry ∉ blocked st2) /\
    step simple_new simple_build demo_url_host demo_mitm None None id demo_list demo_mode
      (st1, [UpdateWrite (lit "b.org") DenyList (read_section demo_state)]) (st2, []).
Proof.
  assert (update_candidate simple_new simple_build demo_url_host demo_mitm None None id demo_list
    demo_mode (lit "b.org") DenyList (read_section demo_state) = Ok (Some demo_denied)) as E
    by (by vm_compute).
  assert (demo_entry ∉ blocked demo_state) as He by (intros ?%elem_of_nil; done).
  destruct (update_loses_record _ _ _ _ _ _ _ _ _ demo_entry _ _ E He) as (st1 & st2 & _ & Hs & H1 & H2 & _).
  exists st1, st2. split; [exact H1|]. split; [exact H2|exact Hs].
Defined.

End NetUpdateFacts.
