(* ===== verification/NetPolicy.v ===== *)
(** * Policy decisions of the network proxy

    src/network-proxy/src/network_policy.rs, reasons.rs, responses.rs and the accessors of
    runtime.rs through which a request reads the state. A request that the proxy handles
    reads the state several times, and the state may change in between: what it does is
    a tree of looks at the moment it finds and of the outputs it leaves. *)

From Stdlib Require Import Ascii String.
From S2P Require Import Prelude RustStr AbsPath NetHost NetConfig NetConstraints NetState.
Import NetIp NetHost NetConfig NetConstraints NetState.

Module NetPolicy.

(** ** reasons.rs *)

Definition REASON_DENIED : str := lit "denied".
Definition REASON_METHOD_NOT_ALLOWED : str := lit "method_not_allowed".
Definition REASON_MITM_REQUIRED : str := lit "mitm_required".
Definition REASON_NOT_ALLOWED : str := lit "not_allowed".
Definition REASON_NOT_ALLOWED_LOCAL : str := lit "not_allowed_local".
Definition REASON_POLICY_DENIED : str := lit "policy_denied".
Definition REASON_PROXY_DISABLED : str := lit "proxy_disabled".
Definition REASON_UNIX_SOCKET_UNSUPPORTED : str := lit "unix_socket_unsupported".

(** ** Data of network_policy.rs *)

Inductive NetworkProtocol := Http | HttpsConnect | Socks5Tcp | Socks5Udp.

Definition as_policy_protocol (p : NetworkProtocol) : str :=
  match p with
  | Http => lit "http"
  | HttpsConnect => lit "https_connect"
  | Socks5Tcp => lit "socks5_tcp"
  | Socks5Udp => lit "socks5_udp"
  end.

Inductive NetworkPolicyDecision := PolicyDeny | PolicyAsk.

Definition decision_str (d : NetworkPolicyDecision) : str :=
  match d with PolicyDeny => lit "deny" | PolicyAsk => lit "ask" end.

Inductive NetworkDecisionSource := BaselinePolicy | ModeGuard | ProxyState | Decider.

Definition source_str (s : NetworkDecisionSource) : str :=
  match s with
  | BaselinePolicy => lit "baseline_policy"
  | ModeGuard => lit "mode_guard"
  | ProxyState => lit "proxy_state"
  | Decider => lit "decider"
  end.

Record NetworkPolicyRequest := {
  protocol : NetworkProtocol;
  req_host : str;
  req_port : N;
  client_addr : option str;
  method : option str;
  command : option str;
  exec_policy_hint : option str;
}.

Inductive NetworkDecision :=
| Allow
| Deny (reason : str) (source : NetworkDecisionSource) (decision : NetworkPolicyDecision).

Definition nonempty_reason (reason : str) : str :=
  if str_eqb reason [] then REASON_POLICY_DENIED else reason.

Definition deny_with_source (reason : str) (source : NetworkDecisionSource) : NetworkDecision :=
  Deny (nonempty_reason reason) source PolicyDeny.

Definition ask_with_source (reason : str) (source : NetworkDecisionSource) : NetworkDecision :=
  Deny (nonempty_reason reason) source PolicyAsk.

Definition deny (reason : str) : NetworkDecision := deny_with_source reason Decider.
Definition ask (reason : str) : NetworkDecision := ask_with_source reason Decider.

(** ** Audit events *)

Definition POLICY_SCOPE_DOMAIN : str := lit "domain".
Definition POLICY_SCOPE_NON_DOMAIN : str := lit "non_domain".
Definition POLICY_DECISION_ALLOW : str := lit "allow".
Definition POLICY_DECISION_DENY : str := lit "deny".
Definition POLICY_REASON_ALLOW : str := lit "allow".

(** The fields of [emit_policy_audit_event], without the time and the metadata. *)
Record PolicyAuditEvent := {
  ev_scope : str;
  ev_decision : str;
  ev_source : str;
  ev_reason : str;
  ev_protocol : str;
  ev_server_address : str;
  ev_server_port : N;
  ev_method : str;
  ev_client_address : str;
  ev_override : bool;
}.

Definition policy_event (scope decision source reason : str) (p : NetworkProtocol)
    (server_address : str) (server_port : N) (method client_addr : option str)
    (policy_override : bool) : PolicyAuditEvent :=
  {| ev_scope := scope; ev_decision := decision; ev_source := source; ev_reason := reason;
     ev_protocol := as_policy_protocol p; ev_server_address := server_address;
     ev_server_port := server_port; ev_method := default (lit "none") method;
     ev_client_address := default (lit "unknown") client_addr;
     ev_override := policy_override |}.

Record BlockDecisionAuditEventArgs := {
  a_source : NetworkDecisionSource;
  a_reason : str;
  a_protocol : NetworkProtocol;
  a_server_address : str;
  a_server_port : N;
  a_method : option str;
  a_client_addr : option str;
}.

Definition non_domain_event (args : BlockDecisionAuditEventArgs) (decision : str)
    : PolicyAuditEvent :=
  policy_event POLICY_SCOPE_NON_DOMAIN decision (source_str (a_source args)) (a_reason args)
    (a_protocol args) (a_server_address args) (a_server_port args) (a_method args)
    (a_client_addr args) false.

(** ** responses.rs *)

Definition blocked_header_value (reason : str) : str :=
  if str_eqb reason REASON_NOT_ALLOWED || str_eqb reason REASON_NOT_ALLOWED_LOCAL
  then lit "blocked-by-allowlist"
  else if str_eqb reason REASON_DENIED then lit "blocked-by-denylist"
  else if str_eqb reason REASON_METHOD_NOT_ALLOWED then lit "blocked-by-method-policy"
  else if str_eqb reason REASON_MITM_REQUIRED then lit "blocked-by-mitm-required"
  else lit "blocked-by-policy".

Definition blocked_message (reason : str) : str :=
  if str_eqb reason REASON_NOT_ALLOWED then lit "Domain not in allowlist."
  else if str_eqb reason REASON_NOT_ALLOWED_LOCAL
  then lit "Network access policy blocks local/private network addresses."
  else if str_eqb reason REASON_DENIED then lit "Domain denied by network access policy."
  else if str_eqb reason REASON_METHOD_NOT_ALLOWED then lit "Method not allowed in limited mode."
  else if str_eqb reason REASON_MITM_REQUIRED then lit "MITM required for limited HTTPS."
  else if str_eqb reason REASON_PROXY_DISABLED then lit "network proxy is disabled"
  else lit "Request blocked by network policy.".

Record PolicyDecisionDetails := {
  d_decision : NetworkPolicyDecision;
  d_reason : str;
  d_source : NetworkDecisionSource;
  d_protocol : NetworkProtocol;
  d_host : str;
  d_port : N;
}.

Definition blocked_message_with_policy (reason : str) (_ : PolicyDecisionDetails) : str :=
  blocked_message reason.

(** The object that [json_blocked] of http_proxy.rs serialises. *)
Record BlockedResponse := {
  j_status : str;
  j_host : str;
  j_reason : str;
  j_decision : option str;
  j_source : option str;
  j_protocol : option str;
  j_port : option N;
  j_message : option str;
}.

Inductive Body := Text (body : str) | Json (body : BlockedResponse) | Empty.

Record Response := { status : N; x_proxy_error : option str; body : Body }.

Definition text_response (status : N) (body : str) : Response :=
  {| status := status; x_proxy_error := None; body := Text body |}.

Definition blocked_text_response (reason : str) : Response :=
  {| status := 403; x_proxy_error := Some (blocked_header_value reason);
     body := Text (blocked_message reason) |}.

Definition blocked_text_response_with_policy (reason : str) (details : PolicyDecisionDetails)
    : Response :=
  {| status := 403; x_proxy_error := Some (blocked_header_value reason);
     body := Text (blocked_message_with_policy reason details) |}.

(** ** What a request does *)

Section Proxy.
Context {GlobSet Mitm : Type}.
Context (is_match : GlobSet -> str -> bool).

(** What a look finds: the state after the reload, or nothing when the reload fails; the
    addresses a name resolves to; the clock; and the answers of the decider. *)
Record Moment := {
  m_state : option (@ConfigState GlobSet Mitm);
  m_lookup : str -> N -> option (list IpAddr);
  m_now : Z;
  m_decide : NetworkPolicyRequest -> NetworkDecision;
}.

Inductive Output :=
| Audited (e : PolicyAuditEvent)
| Recorded (entry : BlockedRequest).

Inductive Proxy (A : Type) :=
| Done (a : A)
| Look (k : Moment -> Proxy A)
| Emit (o : Output) (k : Proxy A).

#[global] Arguments Done {A} a.
#[global] Arguments Look {A} k.
#[global] Arguments Emit {A} o k.

#[export] Instance proxy_ret : MRet Proxy := fun A a => Done a.

#[export] Instance proxy_bind : MBind Proxy := fun A B f =>
  fix bind (p : Proxy A) : Proxy B :=
    match p with
    | Done a => f a
    | Look k => Look (fun m => bind (k m))
    | Emit o k => Emit o (bind k)
    end.

(** The result and the outputs, when look number n finds the moment number n; and the
    number of the next look. *)
Fixpoint run {A} (p : Proxy A) (env : nat -> Moment) (i : nat) : A * nat * list Output :=
  match p with
  | Done a => (a, i, [])
  | Look k => run (k (env i)) env (S i)
  | Emit o k => let '(a, j, out) := run k env i in (a, j, o :: out)
  end.

Definition audit (e : PolicyAuditEvent) : Proxy unit := Emit (Audited e) (Done tt).

(** *** Accessors of runtime.rs, each with its own reload *)

Definition read {A} (f : @ConfigState GlobSet Mitm -> A) : Proxy (option A) :=
  Look (fun m => Done (f <$> m_state m)).

Definition read_enabled : Proxy (option bool) := read (fun st => enabled (config st)).

Definition network_mode : Proxy (option NetworkMode) := read (fun st => mode (config st)).

Definition method_allowed (method : str) : Proxy (option bool) :=
  read (fun st => allows_method (mode (config st)) method).

Definition read_allow_upstream_proxy : Proxy (option bool) :=
  read (fun st => allow_upstream_proxy (config st)).

Definition read_allow_local_binding : Proxy (option bool) :=
  read (fun st => allow_local_binding (config st)).

Definition read_mitm_state : Proxy (option (option Mitm)) := read mitm_state.

Definition read_host_blocked (host : str) (port : N) : Proxy (option HostBlockDecision) :=
  Look (fun m => Done ((fun st => host_blocked is_match (m_lookup m) st host port) <$> m_state m)).

(** [record_blocked]: nothing is recorded when the reload fails. *)
Definition record_blocked (entry : Z -> BlockedRequest) : Proxy (option unit) :=
  Look (fun m =>
    match m_state m with
    | Some _ => Emit (Recorded (entry (m_now m))) (Done (Some tt))
    | None => Done None
    end).

(** ** network_policy.rs *)

Definition emit_block_decision_audit_event (args : BlockDecisionAuditEventArgs) : Proxy unit :=
  audit (non_domain_event args POLICY_DECISION_DENY).

Definition emit_allow_decision_audit_event (args : BlockDecisionAuditEventArgs) : Proxy unit :=
  audit (non_domain_event args POLICY_DECISION_ALLOW).

Definition map_decider_decision (d : NetworkDecision) : NetworkDecision :=
  match d with
  | Allow => Allow
  | Deny reason _ decision => Deny reason Decider decision
  end.

Definition ask_decider (request : NetworkPolicyRequest) : Proxy NetworkDecision :=
  Look (fun m => Done (m_decide m request)).

(** What follows from the decision about the host, and whether the decider overrode it;
    [decider] says whether there is one. *)
Definition resolve_decision (decider : bool) (request : NetworkPolicyRequest)
    (host_decision : HostBlockDecision) : Proxy (NetworkDecision * bool) :=
  match host_decision with
  | Allowed => mret (Allow, false)
  | Blocked NotAllowed =>
      if decider then
        d ← ask_decider request;
        let decider_decision := map_decider_decision d in
        mret (decider_decision,
              match decider_decision with Allow => true | Deny _ _ _ => false end)
      else mret (deny_with_source (reason_str NotAllowed) BaselinePolicy, false)
  | Blocked reason => mret (deny_with_source (reason_str reason) BaselinePolicy, false)
  end.

Definition decision_event (request : NetworkPolicyRequest) (decision : NetworkDecision)
    (policy_override : bool) : PolicyAuditEvent :=
  let '(policy_decision, source, reason) :=
    match decision with
    | Allow =>
        (POLICY_DECISION_ALLOW, if policy_override then Decider else BaselinePolicy,
         if policy_override then reason_str NotAllowed else POLICY_REASON_ALLOW)
    | Deny reason source decision => (decision_str decision, source, reason)
    end in
  policy_event POLICY_SCOPE_DOMAIN policy_decision (source_str source) reason
    (protocol request) (req_host request) (req_port request) (method request)
    (client_addr request) policy_override.

Definition evaluate_host_policy (decider : bool) (request : NetworkPolicyRequest)
    : Proxy (option NetworkDecision) :=
  host_decision ← read_host_blocked (req_host request) (req_port request);
  match host_decision with
  | None => mret None
  | Some host_decision =>
      resolved ← resolve_decision decider request host_decision;
      _ ← audit (decision_event request resolved.1 resolved.2);
      mret (Some resolved.1)
  end.

End Proxy.

#[global] Arguments Moment : clear implicits.
#[global] Arguments Proxy : clear implicits.

End NetPolicy.
