(* ===== verification/NetHttp.v ===== *)
(** * What the network proxy sends on

    The headers a forwarded request keeps (http_proxy.rs,
    [remove_hop_by_hop_request_headers]), the proxy it may go through
    (src/network-proxy/src/upstream.rs) and the check of the address a direct connection
    goes to (connect_policy.rs). The header map, the names of headers and the parser of
    proxy addresses belong to the crate rama. *)

From Stdlib Require Import Ascii String.
From S2P Require Import Prelude RustStr NetHost NetConfig NetState NetPolicy AbsPath.
From S2P Require Import NetConstraints.
Import NetIp NetConfig NetState NetPolicy.

Module NetUpstream.

(** ** Hop-by-hop headers *)

Section Headers.
Context {HeaderMap HeaderValue : Type}.
Context (header_get : HeaderMap -> str -> option HeaderValue)
        (header_remove : HeaderMap -> str -> HeaderMap)
        (to_str : HeaderValue -> option str) (header_name : str -> option str).

(** The names a value of Connection lists. *)
Definition connection_headers (raw_connection : str) : list str :=
  filter (fun token => token <> []) (map trim (split_on (ch ",") raw_connection)).

Definition remove_token (headers : HeaderMap) (token : str) : HeaderMap :=
  match header_name token with
  | Some name => header_remove headers name
  | None => headers
  end.

Definition remove_listed (raw_connection : HeaderValue) (headers : HeaderMap) : HeaderMap :=
  match to_str raw_connection with
  | Some raw => foldl remove_token headers (connection_headers raw)
  | None => headers
  end.

(** [while let Some(raw_connection) = headers.get(CONNECTION)] *)
Fixpoint remove_connection (fuel : nat) (headers : HeaderMap) : result str HeaderMap :=
  match fuel with
  | 0 => Crash OutOfFuel
  | S fuel =>
      match header_get headers (lit "connection") with
      | None => Ok headers
      | Some raw_connection =>
          remove_connection fuel
            (remove_listed raw_connection (header_remove headers (lit "connection")))
      end
  end.

Definition fixed_hop_names : list str :=
  [lit "keep-alive"; lit "proxy-connection"; lit "proxy-authorization"; lit "trailer";
   lit "transfer-encoding"; lit "upgrade"].

Definition remove_hop_by_hop_request_headers (fuel : nat) (headers : HeaderMap)
    : result str HeaderMap :=
  headers ← remove_connection fuel headers;
  Ok (remove_token (foldl header_remove headers fixed_hop_names) (lit "te")).

End Headers.

(** ** The proxy a request goes through *)

Section Upstream.
Context {ProxyAddress : Type}.
(** [ProxyAddress::try_from], whether its protocol is HTTP or not given, and the variables
    of the environment. *)
Context (proxy_address : str -> option ProxyAddress) (is_http : ProxyAddress -> bool)
        (env_var : str -> option str).

Record ProxyConfig := {
  http : option ProxyAddress;
  https : option ProxyAddress;
  all : option ProxyAddress;
}.

Definition default_proxy_config : ProxyConfig := {| http := None; https := None; all := None |}.

Fixpoint read_proxy_env (keys : list str) : option ProxyAddress :=
  match keys with
  | [] => None
  | key :: keys =>
      match env_var key with
      | None => read_proxy_env keys
      | Some value =>
          let value := trim value in
          if str_eqb value [] then read_proxy_env keys
          else match proxy_address value with
               | Some proxy => if is_http proxy then Some proxy else read_proxy_env keys
               | None => read_proxy_env keys
               end
      end
  end.

Definition from_env : ProxyConfig :=
  {| http := read_proxy_env [lit "HTTP_PROXY"; lit "http_proxy"];
     https := read_proxy_env [lit "HTTPS_PROXY"; lit "https_proxy"];
     all := read_proxy_env [lit "ALL_PROXY"; lit "all_proxy"] |}.

Definition or_else {A} (a b : option A) : option A :=
  match a with Some _ => a | None => b end.

Definition proxy_for_protocol (self : ProxyConfig) (is_secure : bool) : option ProxyAddress :=
  if is_secure then or_else (https self) (or_else (http self) (all self))
  else or_else (http self) (all self).

Definition proxy_for_connect : option ProxyAddress := proxy_for_protocol from_env true.

End Upstream.

(** ** The check of the address that a direct connection goes to *)

Inductive TargetPolicy := FixedConfig (allow_local_binding : bool) | FromState.

Section Client.
Context {GlobSet Mitm ProxyAddress : Type}.
Context (env_proxies : @ProxyConfig ProxyAddress).

(** The proxies and the policy that [UpstreamClient] hands to its connector. *)
Record UpstreamClient := {
  proxy_config : @ProxyConfig ProxyAddress;
  transport : TargetPolicy;
}.

Definition direct : UpstreamClient :=
  {| proxy_config := default_proxy_config; transport := FromState |}.

Definition from_env_proxy : UpstreamClient :=
  {| proxy_config := env_proxies; transport := FromState |}.

Definition direct_with_allow_local_binding (allow : bool) : UpstreamClient :=
  {| proxy_config := default_proxy_config; transport := FixedConfig allow |}.

Definition from_env_proxy_with_allow_local_binding (allow : bool) : UpstreamClient :=
  {| proxy_config := env_proxies; transport := FixedConfig allow |}.

(** The client that [MitmState::new] makes. *)
Definition mitm_upstream (allow_upstream_proxy allow_local_binding : bool) : UpstreamClient :=
  if allow_upstream_proxy then from_env_proxy_with_allow_local_binding allow_local_binding
  else direct_with_allow_local_binding allow_local_binding.

Inductive Connection := Dialled | Rejected | ConfigUnreadable.

Definition target_allow_local_binding (policy : TargetPolicy) : Proxy GlobSet Mitm (option bool) :=
  match policy with
  | FixedConfig allow => mret (Some allow)
  | FromState => read_allow_local_binding
  end.

(** [TargetCheckedStreamConnector::connect], for one address of the target. *)
Definition connect (policy : TargetPolicy) (addr : IpAddr) : Proxy GlobSet Mitm Connection :=
  allow ← target_allow_local_binding policy;
  mret match allow with
       | None => ConfigUnreadable
       | Some allow => if connect_permitted allow addr then Dialled else Rejected
       end.

(** [TargetCheckedTcpConnector::serve] for a request with or without the address of a
    proxy: with one, that address is dialled and not checked. *)
Definition serve (policy : TargetPolicy) (proxy : option ProxyAddress) (addr : IpAddr)
    : Proxy GlobSet Mitm Connection :=
  match proxy with
  | Some _ => mret Dialled
  | None => connect policy addr
  end.

(** [UpstreamClient::serve]: what becomes of a connection to [addr], the address of the
    proxy if there is one. *)
Definition client_connect (self : UpstreamClient) (is_secure : bool) (addr : IpAddr)
    : Proxy GlobSet Mitm Connection :=
  serve (transport self) (proxy_for_protocol (proxy_config self) is_secure) addr.

End Client.

End NetUpstream.

(** * The HTTP proxy: src/network-proxy/src/http_proxy.rs

    What becomes of a CONNECT request and of a plain request: every look at the state,
    every audit event and record of a blocked request, and what is sent on. The request
    is what the accessors of the crate rama give. Logging is left out. *)

Import NetIp NetHost NetConfig NetConstraints NetState NetPolicy NetUpstream.

Module NetHttp.

(** ** Requests *)

(** [RequestContext]: the authority of the target, whether its port is the default of the
    protocol, and [host_with_port]. *)
Record RequestContext {HostName : Type} := {
  authority_host : HostName;
  authority_port : option N;
  authority_has_default_port : bool;
  target_host : HostName;
  target_port : N;
}.
#[global] Arguments RequestContext : clear implicits.

Record HttpRequest {HostName HeaderMap : Type} := {
  h_state : bool;                                    (* the state is in the extensions *)
  h_method : str;
  h_context : option (RequestContext HostName);      (* [RequestContext::try_from] *)
  h_client : option str;                             (* the address of the peer *)
  h_unix_socket : option (option str);               (* [x-unix-socket], and its text *)
  h_has_scheme : bool;                               (* the URI has a scheme *)
  h_host_header : option (option (HostName * option N)); (* [typed_try_get::<Host>] *)
  h_headers : HeaderMap;
}.
#[global] Arguments HttpRequest : clear implicits.

Section Http.
Context {GlobSet Mitm HostName HeaderMap HeaderValue ProxyAddress : Type}.
Context (is_match : GlobSet -> str -> bool).
Context (host_display : HostName -> str) (host_eqb : HostName -> HostName -> bool).
Context (header_get : HeaderMap -> str -> option HeaderValue)
        (header_remove : HeaderMap -> str -> HeaderMap)
        (to_str : HeaderValue -> option str) (header_name : str -> option str).
Context (env_proxies : @ProxyConfig ProxyAddress).
(** Whether there is a decider, and whether the proxy is built for macOS; the home
    directory, the current directory, quotation, and the file system's resolved paths. *)
Context (decider : bool) (unix_socket_permissions_supported : bool).
Context (home cwd : option str) (debug : str -> str) (canonicalize : str -> option str).

Abbreviation Request := (HttpRequest HostName HeaderMap).
Abbreviation Proxy := (Proxy GlobSet Mitm).

(** ** Responses *)

Definition internal_error : Response := NetPolicy.text_response 500 (lit "error").

Definition json_blocked (host reason : str) (details : option PolicyDecisionDetails) : Response :=
  {| status := 403; x_proxy_error := Some (blocked_header_value reason);
     body := Json
       {| j_status := lit "blocked"; j_host := host; j_reason := reason;
          j_decision := (fun d => decision_str (d_decision d)) <$> details;
          j_source := (fun d => source_str (d_source d)) <$> details;
          j_protocol := (fun d => as_policy_protocol (d_protocol d)) <$> details;
          j_port := d_port <$> details;
          j_message := blocked_message_with_policy reason <$> details |} |}.

Definition blocked_text_with_details (reason : str) (details : PolicyDecisionDetails) : Response :=
  blocked_text_response_with_policy reason details.

(** A record of a blocked request, but for the time. *)
Definition blocked_request (host reason : str) (client method : option str)
    (mode : option NetworkMode) (protocol : str) (decision source : option str)
    (port : option N) (timestamp : Z) : BlockedRequest :=
  {| b_host := host; b_reason := reason; b_client := client; b_method := method;
     b_mode := mode; b_protocol := protocol; b_decision := decision; b_source := source;
     b_port := port; b_timestamp := timestamp |}.

Definition proxy_disabled_response (host : str) (port : N) (client method : option str)
    (protocol : NetworkProtocol) (audit_endpoint_override : option (str * N)) : Proxy Response :=
  let endpoint := default (host, port) audit_endpoint_override in
  _ ← emit_block_decision_audit_event
        {| a_source := ProxyState; a_reason := REASON_PROXY_DISABLED; a_protocol := protocol;
           a_server_address := endpoint.1; a_server_port := endpoint.2; a_method := method;
           a_client_addr := client |};
  _ ← record_blocked (blocked_request host REASON_PROXY_DISABLED client method None
        (as_policy_protocol protocol) (Some (lit "deny")) (Some (lit "proxy_state")) (Some port));
  let details := {| d_decision := PolicyDeny; d_reason := REASON_PROXY_DISABLED;
                    d_source := ProxyState; d_protocol := protocol; d_host := host;
                    d_port := port |} in
  mret (NetPolicy.text_response 503 (blocked_message_with_policy REASON_PROXY_DISABLED details)).

(** ** CONNECT *)

Inductive ConnectResult :=
| Refused (r : Response)
| Accepted (r : Response) (target : HostName * N) (mode : NetworkMode) (mitm_state : option Mitm).

Definition ok_response : Response := {| status := 200; x_proxy_error := None; body := Empty |}.

(** From the host policy on. *)
Definition connect_checked (host : str) (target : HostName * N) (client : option str)
    : Proxy ConnectResult :=
  let port := target.2 in
  let request := {| protocol := HttpsConnect; req_host := host; req_port := port;
                    client_addr := client; method := Some (lit "CONNECT"); command := None;
                    exec_policy_hint := None |} in
  decision ← evaluate_host_policy is_match decider request;
  match decision with
  | None => mret (Refused internal_error)
  | Some (Deny reason source decision) =>
      let details := {| d_decision := decision; d_reason := reason; d_source := source;
                        d_protocol := HttpsConnect; d_host := host; d_port := port |} in
      _ ← record_blocked (blocked_request host reason client (Some (lit "CONNECT")) None
            (lit "http-connect") (Some (decision_str decision)) (Some (source_str source))
            (Some port));
      mret (Refused (blocked_text_with_details reason details))
  | Some Allow =>
      mode ← network_mode;
      match mode with
      | None => mret (Refused internal_error)
      | Some mode =>
          mitm_state ← read_mitm_state;
          match mitm_state with
          | None => mret (Refused internal_error)
          | Some mitm_state =>
              if bool_decide (mode = Limited) && match mitm_state with None => true | _ => false end
              then
                let details := {| d_decision := PolicyDeny; d_reason := REASON_MITM_REQUIRED;
                                  d_source := ModeGuard; d_protocol := HttpsConnect;
                                  d_host := host; d_port := port |} in
                _ ← emit_block_decision_audit_event
                      {| a_source := ModeGuard; a_reason := REASON_MITM_REQUIRED;
                         a_protocol := HttpsConnect; a_server_address := host;
                         a_server_port := port; a_method := Some (lit "CONNECT");
                         a_client_addr := client |};
                _ ← record_blocked (blocked_request host REASON_MITM_REQUIRED client
                      (Some (lit "CONNECT")) (Some Limited) (lit "http-connect")
                      (Some (decision_str PolicyDeny)) (Some (source_str ModeGuard)) (Some port));
                mret (Refused (blocked_text_with_details REASON_MITM_REQUIRED details))
              else mret (Accepted ok_response target mode mitm_state)
          end
      end
  end.

Definition http_connect_accept (req : Request) : Proxy ConnectResult :=
  if negb (h_state req) then mret (Refused (NetPolicy.text_response 500 (lit "missing state")))
  else
    match h_context req with
    | None => mret (Refused (NetPolicy.text_response 400 (lit "missing authority")))
    | Some ctx =>
        let host := normalize_host (host_display (target_host ctx)) in
        if str_eqb host [] then mret (Refused (NetPolicy.text_response 400 (lit "invalid host")))
        else
          let client := h_client req in
          enabled ← read_enabled;
          match enabled with
          | None => mret (Refused internal_error)
          | Some false =>
              r ← proxy_disabled_response host (target_port ctx) client (Some (lit "CONNECT"))
                    HttpsConnect None;
              mret (Refused r)
          | Some true => connect_checked host (target_host ctx, target_port ctx) client
          end
    end.

(** What an upgraded connection is made into: nothing, a tunnel whose requests are looked
    into, or a tunnel to the target, through a proxy or not. *)
Inductive Tunnel :=
| NoTunnel
| MitmTunnel (target : HostName * N) (mode : NetworkMode) (mitm_state : Mitm)
| ForwardTunnel (target : HostName * N) (proxy : option ProxyAddress).

Definition http_connect_proxy (state : bool) (ext_mode : option NetworkMode)
    (ext_target : option (HostName * N)) (ext_mitm : option Mitm) : Proxy Tunnel :=
  let mode := default Full ext_mode in
  match ext_target with
  | None => mret NoTunnel
  | Some target =>
      match mode, ext_mitm with
      | Limited, Some mitm_state => mret (MitmTunnel target mode mitm_state)
      | _, _ =>
          if negb state then mret NoTunnel
          else
            allow_upstream_proxy ← read_allow_upstream_proxy;
            let proxy :=
              if default false allow_upstream_proxy then proxy_for_protocol env_proxies true
              else None in
            mret (ForwardTunnel target proxy)
      end
  end.

(** ** Plain requests *)

Inductive PlainResult :=
| Respond (r : Response)
| ViaUnixSocket (path : str)
| ViaUpstream (client : @UpstreamClient ProxyAddress) (headers : result str HeaderMap).

Definition MISMATCH : str := lit "Host header does not match request target".

Definition validate_absolute_form_host_header (req : Request) (ctx : RequestContext HostName)
    : result str unit :=
  if negb (h_has_scheme req) then Ok tt
  else
    match h_host_header req with
    | None => Err (lit "invalid Host header")
    | Some None => Ok tt
    | Some (Some (host, port)) =>
        if negb (host_eqb host (authority_host ctx)) then Err MISMATCH
        else
          match port with
          | Some host_port =>
              if bool_decide (Some host_port = authority_port ctx) then Ok tt else Err MISMATCH
          | None => if authority_has_default_port ctx then Ok tt else Err MISMATCH
          end
    end.

(** [is_unix_socket_allowed] *)
Definition read_unix_socket_allowed (path : str) : Proxy (option bool) :=
  read (fun st => unix_socket_permissions_supported
                  && socket_listed home cwd debug canonicalize st path).

(** A request with an [x-unix-socket] header. *)
Definition unix_socket_proxy (req : Request) (method_allowed : bool) (socket_path : str)
    : Proxy PlainResult :=
  let client := h_client req in
  let event source reason :=
    {| a_source := source; a_reason := reason; a_protocol := Http;
       a_server_address := lit "unix-socket"; a_server_port := 0;
       a_method := Some (h_method req); a_client_addr := client |} in
  enabled ← read_enabled;
  match enabled with
  | None => mret (Respond internal_error)
  | Some false =>
      r ← proxy_disabled_response socket_path 0 client (Some (h_method req)) Http
            (Some (lit "unix-socket", 0%N));
      mret (Respond r)
  | Some true =>
      if negb method_allowed then
        _ ← emit_block_decision_audit_event (event ModeGuard REASON_METHOD_NOT_ALLOWED);
        mret (Respond (json_blocked (lit "unix-socket") REASON_METHOD_NOT_ALLOWED None))
      else if negb unix_socket_permissions_supported then
        _ ← emit_block_decision_audit_event (event ProxyState REASON_UNIX_SOCKET_UNSUPPORTED);
        mret (Respond (NetPolicy.text_response 501 (lit "unix sockets unsupported")))
      else
        allowed ← read_unix_socket_allowed socket_path;
        match allowed with
        | Some true =>
            _ ← emit_allow_decision_audit_event (event ProxyState (lit "allow"));
            mret (ViaUnixSocket socket_path)
        | Some false =>
            _ ← emit_block_decision_audit_event (event ProxyState REASON_NOT_ALLOWED);
            mret (Respond (json_blocked (lit "unix-socket") REASON_NOT_ALLOWED None))
        | None => mret (Respond internal_error)
        end
  end.

(** From the host policy on. *)
Definition plain_checked (req : Request) (method_allowed : bool) (host : str) (port : N)
    : Proxy PlainResult :=
  let client := h_client req in
  let request := {| protocol := Http; req_host := host; req_port := port;
                    client_addr := client; method := Some (h_method req); command := None;
                    exec_policy_hint := None |} in
  decision ← evaluate_host_policy is_match decider request;
  match decision with
  | None => mret (Respond internal_error)
  | Some (Deny reason source decision) =>
      let details := {| d_decision := decision; d_reason := reason; d_source := source;
                        d_protocol := Http; d_host := host; d_port := port |} in
      _ ← record_blocked (blocked_request host reason client (Some (h_method req)) None
            (lit "http") (Some (decision_str decision)) (Some (source_str source)) (Some port));
      mret (Respond (json_blocked host reason (Some details)))
  | Some Allow =>
      if negb method_allowed then
        let details := {| d_decision := PolicyDeny; d_reason := REASON_METHOD_NOT_ALLOWED;
                          d_source := ModeGuard; d_protocol := Http; d_host := host;
                          d_port := port |} in
        _ ← emit_block_decision_audit_event
              {| a_source := ModeGuard; a_reason := REASON_METHOD_NOT_ALLOWED;
                 a_protocol := Http; a_server_address := host; a_server_port := port;
                 a_method := Some (h_method req); a_client_addr := client |};
        _ ← record_blocked (blocked_request host REASON_METHOD_NOT_ALLOWED client
              (Some (h_method req)) (Some Limited) (lit "http") (Some (decision_str PolicyDeny))
              (Some (source_str ModeGuard)) (Some port));
        mret (Respond (json_blocked host REASON_METHOD_NOT_ALLOWED (Some details)))
      else
        allow_upstream_proxy ← read_allow_upstream_proxy;
        match allow_upstream_proxy with
        | None => mret (Respond internal_error)
        | Some allow =>
            mret (ViaUpstream (if (allow : bool) then from_env_proxy env_proxies else direct)
                    (remove_hop_by_hop_request_headers header_get header_remove to_str
                       header_name 2 (h_headers req)))
        end
  end.

Definition http_plain_proxy (req : Request) : Proxy PlainResult :=
  if negb (h_state req) then mret (Respond internal_error)
  else
    allowed ← method_allowed (h_method req);
    match allowed with
    | None => mret (Respond internal_error)
    | Some method_allowed =>
        match h_unix_socket req with
        | Some None => mret (Respond (NetPolicy.text_response 400 (lit "invalid x-unix-socket header")))
        | Some (Some socket_path) => unix_socket_proxy req method_allowed socket_path
        | None =>
            match h_context req with
            | None => mret (Respond (NetPolicy.text_response 400 (lit "missing host")))
            | Some ctx =>
                let host := normalize_host (host_display (target_host ctx)) in
                let port := target_port ctx in
                match validate_absolute_form_host_header req ctx with
                | Err reason => mret (Respond (NetPolicy.text_response 400 reason))
                | _ =>
                    enabled ← read_enabled;
                    match enabled with
                    | None => mret (Respond internal_error)
                    | Some false =>
                        r ← proxy_disabled_response host port (h_client req)
                              (Some (h_method req)) Http None;
                        mret (Respond r)
                    | Some true => plain_checked req method_allowed host port
                    end
                end
            end
        end
    end.

End Http.

End NetHttp.
