(* ===== verification/NetTunnels.v ===== *)
(** * Tunnels of the network proxy: src/network-proxy/src/{socks5,mitm}.rs

    [NetSocks] is the decision about a TCP connection and about a datagram of the UDP relay
    of the SOCKS5 proxy, [NetMitm] the one about a request inside an intercepted tunnel:
    every look at the state, every audit event and record. Logging is left out. *)

From Stdlib Require Import Ascii String.
From S2P Require Import Prelude RustStr NetHost NetConfig NetConstraints NetState NetPolicy.
From S2P Require Import NetHttp.
Import NetIp NetHost NetConfig NetConstraints NetState NetPolicy NetHttp.

Module NetSocks.

Section Socks.
Context {GlobSet Mitm : Type}.
Context (is_match : GlobSet -> str -> bool) (decider : bool).

Abbreviation Proxy := (Proxy GlobSet Mitm).

(** Why a request is refused: an error that names the policy, or another one. *)
Inductive SocksError :=
| PermissionDenied (message : str)
| InvalidHost
| MissingState
| ProxyError.

Definition policy_denied_error (reason : str) (details : PolicyDecisionDetails) : SocksError :=
  PermissionDenied (blocked_message_with_policy reason details).

Definition emit_socks_block_decision_audit_event (source : NetworkDecisionSource) (reason : str)
    (protocol : NetworkProtocol) (host : str) (port : N) (client_addr : option str) : Proxy unit :=
  emit_block_decision_audit_event
    {| a_source := source; a_reason := reason; a_protocol := protocol;
       a_server_address := host; a_server_port := port; a_method := None;
       a_client_addr := client_addr |}.

(** A refusal before the host policy: the event, the record and the error. *)
Definition refuse (source : NetworkDecisionSource) (reason : str) (protocol : NetworkProtocol)
    (label host : str) (port : N) (client : option str) (mode : option NetworkMode)
    : Proxy SocksError :=
  _ ← emit_socks_block_decision_audit_event source reason protocol host port client;
  let details := {| d_decision := PolicyDeny; d_reason := reason; d_source := source;
                    d_protocol := protocol; d_host := host; d_port := port |} in
  _ ← record_blocked (blocked_request host reason client None mode label
        (Some (decision_str PolicyDeny)) (Some (source_str source)) (Some port));
  mret (policy_denied_error reason details).

(** The part that both handlers have: the answer is what they do when the host policy
    allows the request. *)
Definition guarded {A} (protocol : NetworkProtocol) (label host : str) (port : N)
    (client : option str) (answer : A) : Proxy (SocksError + A) :=
  enabled ← read_enabled;
  match enabled with
  | None => mret (inl ProxyError)
  | Some false =>
      e ← refuse ProxyState REASON_PROXY_DISABLED protocol label host port client None;
      mret (inl e)
  | Some true =>
      mode ← network_mode;
      match mode with
      | None => mret (inl ProxyError)
      | Some Limited =>
          e ← refuse ModeGuard REASON_METHOD_NOT_ALLOWED protocol label host port client
                (Some Limited);
          mret (inl e)
      | Some Full =>
          let request := {| protocol := protocol; req_host := host; req_port := port;
                            client_addr := client; method := None; command := None;
                            exec_policy_hint := None |} in
          decision ← evaluate_host_policy is_match decider request;
          match decision with
          | None => mret (inl ProxyError)
          | Some (Deny reason source decision) =>
              let details := {| d_decision := decision; d_reason := reason; d_source := source;
                                d_protocol := protocol; d_host := host; d_port := port |} in
              _ ← record_blocked (blocked_request host reason client None None label
                    (Some (decision_str decision)) (Some (source_str source)) (Some port));
              mret (inl (policy_denied_error reason details))
          | Some Allow => mret (inr answer)
          end
      end
  end.

(** [handle_socks5_tcp], up to the connection to the target that an answer stands for. *)
Definition handle_socks5_tcp (state : bool) (authority_host : str) (port : N)
    (client : option str) : Proxy (SocksError + unit) :=
  if negb state then mret (inl MissingState)
  else
    let host := normalize_host authority_host in
    if str_eqb host [] then mret (inl InvalidHost)
    else guarded Socks5Tcp (lit "socks5") host port client tt.

(** [inspect_socks5_udp]: the payload to relay. *)
Definition inspect_socks5_udp (server_ip : str) (port : N) (client : option str)
    (payload : list Byte.byte) : Proxy (SocksError + list Byte.byte) :=
  let host := normalize_host server_ip in
  if str_eqb host [] then mret (inl InvalidHost)
  else guarded Socks5Udp (lit "socks5-udp") host port client payload.

End Socks.

End NetSocks.

(** * Requests inside an intercepted tunnel: src/network-proxy/src/mitm.rs

    Whether an inner request is refused, and the authority of the request that is sent on
    otherwise. Certificates, TLS and the bodies are left out. *)

Import NetIp NetHost NetConfig NetConstraints NetState NetPolicy NetUpstream NetHttp.

Module NetMitm.

Record MitmPolicyContext := {
  ctx_target_host : str;
  ctx_target_port : N;
  ctx_mode : NetworkMode;
}.

(** A request, as the accessors of the crate rama give it. *)
Record InnerRequest := {
  i_method : str;
  i_host : option (option str);   (* the Host header, and its text *)
  i_authority : option str;       (* the authority of the URI *)
  i_path_and_query : option str;
  i_client : option str;
}.

Definition extract_request_host (req : InnerRequest) : option str :=
  match i_host req with
  | Some (Some text) => Some text
  | _ => i_authority req
  end.

Definition authority_header_value (host : str) (port : N) : str :=
  if contains_char (ch ":") host then
    if (port =? 443)%N then lit "[" ++ host ++ lit "]"
    else lit "[" ++ host ++ lit "]:" ++ show_nat (N.to_nat port)
  else if (port =? 443)%N then host
  else host ++ lit ":" ++ show_nat (N.to_nat port).

Definition path_and_query (req : InnerRequest) : str := default (lit "/") (i_path_and_query req).

Definition https_target (authority path : str) : str := lit "https://" ++ authority ++ path.

Section Mitm.
Context {GlobSet Mitm ProxyAddress : Type}.
Context (is_match : GlobSet -> str -> bool).
(** Whether a URI parses, and whether a text may be the value of a header. *)
Context (uri_parses header_value : str -> bool).
Context (env_proxies : @ProxyConfig ProxyAddress).

Abbreviation Proxy := (Proxy GlobSet Mitm).

(** The record that an inner refusal leaves. *)
Definition inner_blocked (req : InnerRequest) (policy : MitmPolicyContext) (reason : str)
    : Z -> BlockedRequest :=
  blocked_request (ctx_target_host policy) reason (i_client req) (Some (i_method req))
    (Some (ctx_mode policy)) (lit "https") None None (Some (ctx_target_port policy)).

(** The outer option is the result: nothing when the state cannot be read. *)
Definition mitm_blocking_response (req : InnerRequest) (policy : MitmPolicyContext)
    : Proxy (option (option Response)) :=
  if str_eqb (i_method req) (lit "CONNECT") then
    mret (Some (Some (text_response 405 (lit "CONNECT not supported inside MITM"))))
  else
    let mismatch :=
      match extract_request_host req with
      | Some request_host =>
          let normalized := normalize_host request_host in
          negb (str_eqb normalized []) && negb (str_eqb normalized (ctx_target_host policy))
      | None => false
      end in
    if mismatch then mret (Some (Some (text_response 400 (lit "host mismatch"))))
    else
      decision ← read_host_blocked is_match (ctx_target_host policy) (ctx_target_port policy);
      match decision with
      | None => mret None
      | Some decision =>
          if bool_decide (decision = Blocked NotAllowedLocal) then
            _ ← record_blocked (inner_blocked req policy (reason_str NotAllowedLocal));
            mret (Some (Some (blocked_text_response (reason_str NotAllowedLocal))))
          else if negb (allows_method (ctx_mode policy) (i_method req)) then
            _ ← record_blocked (inner_blocked req policy REASON_METHOD_NOT_ALLOWED);
            mret (Some (Some (blocked_text_response REASON_METHOD_NOT_ALLOWED)))
          else mret (Some None)
      end.

Inductive InnerResult :=
| InnerRespond (r : Response)
| InnerForward (uri host_header : str).

Definition mitm_failure : Response := text_response 502 (lit "mitm upstream error").

(** [handle_mitm_request] with [forward_request], up to the request that is sent on. *)
Definition handle_mitm_request (req : InnerRequest) (policy : MitmPolicyContext)
    : Proxy InnerResult :=
  blocking ← mitm_blocking_response req policy;
  mret match blocking with
       | None => InnerRespond mitm_failure
       | Some (Some response) => InnerRespond response
       | Some None =>
           let authority := authority_header_value (ctx_target_host policy) (ctx_target_port policy) in
           let uri := https_target authority (path_and_query req) in
           if uri_parses uri && header_value authority then InnerForward uri authority
           else InnerRespond mitm_failure
       end.

(** [mitm_tunnel]: the context of the inner requests. *)
Definition tunnel_context (target : str * N) (ext_mode : option NetworkMode) : MitmPolicyContext :=
  {| ctx_target_host := normalize_host target.1; ctx_target_port := target.2;
     ctx_mode := default Full ext_mode |}.

End Mitm.

End NetMitm.
