(* ===== verification/NetServeFacts.v ===== *)
(** * What the network proxy lets through

    When a request that the proxy handles is passed on, in terms of the moments it finds:
    the state may be a different one at each of its looks. *)

From Stdlib Require Import Ascii String.
From S2P Require Import Prelude RustStr NetHost NetConfig NetConstraints NetState NetPolicy.
From S2P Require Import NetHttp NetTunnels NetHostFacts NetStateFacts.
Import NetIp NetHost NetConfig NetConstraints NetState NetPolicy NetUpstream NetHttp NetSocks NetMitm.
Import NetHostFacts NetConfigFacts NetStateFacts.

Module NetServeFacts.

Section Runs.
Context {GlobSet Mitm : Type}.
Abbreviation Proxy := (Proxy GlobSet Mitm).

Lemma run_bind {A B} (p : Proxy A) (f : A -> Proxy B) env i :
  run (p ≫= f) env i =
  let '(a, j, out1) := run p env i in
  let '(b, k, out2) := run (f a) env j in (b, k, out1 ++ out2).
Proof.
  revert i. induction p as [a|k IH|o p IH]; intros i.
  - simpl. by destruct (run (f a) env i) as [[b k] out].
  - apply IH.
  - simpl. change ((fix bind (p : Proxy A) : Proxy B := _) p) with (p ≫= f). rewrite IH.
    destruct (run p env i) as [[a j] out1]. by destruct (run (f a) env j) as [[b k] out2].
Qed.

(** A look at the state. *)
Lemma run_read {A B} (f : ConfigState -> A) (g : option A -> Proxy B) env i :
  run (read f ≫= g) env i =
  match m_state (env i) with
  | Some st => run (g (Some (f st))) env (S i)
  | None => run (g None) env (S i)
  end.
Proof. simpl. by destruct (m_state (env i)). Qed.

Lemma run_host_blocked {B} is_match (host : str) (port : N) (g : option HostBlockDecision -> Proxy B) env i :
  run (read_host_blocked is_match host port ≫= g) env i =
  match m_state (env i) with
  | Some st => run (g (Some (host_blocked is_match (m_lookup (env i)) st host port))) env (S i)
  | None => run (g None) env (S i)
  end.
Proof. simpl. by destruct (m_state (env i)). Qed.

(** The record of a refusal is left unless the state cannot be read. *)
Lemma run_record (entry : Z -> BlockedRequest) env i :
  run (record_blocked (GlobSet := GlobSet) (Mitm := Mitm) entry) env i =
  match m_state (env i) with
  | Some _ => (Some tt, S i, [Recorded (entry (m_now (env i)))])
  | None => (None, S i, [])
  end.
Proof. simpl. by destruct (m_state (env i)). Qed.

(** What a refusal leaves in the buffer. *)
Definition recorded (entry : Z -> BlockedRequest) (m : Moment GlobSet Mitm) : list Output :=
  match m_state m with Some _ => [Recorded (entry (m_now m))] | None => [] end.

Lemma run_record_bind {B} (entry : Z -> BlockedRequest) (f : option unit -> Proxy B) env i :
  (forall o, f o = f None) ->
  run (record_blocked entry ≫= f) env i =
  let '(b, k, out) := run (f None) env (S i) in (b, k, recorded entry (env i) ++ out).
Proof.
  intros Hf. rewrite run_bind, run_record. unfold recorded.
  destruct (m_state (env i)); [rewrite (Hf (Some tt))|]; by destruct (run (f None) env (S i)) as [[b k] out].
Qed.

(** The refusal of a proxy that is not enabled. *)
Definition disabled_event (protocol : NetworkProtocol) (endpoint : str * N)
    (client method : option str) : PolicyAuditEvent :=
  non_domain_event
    {| a_source := ProxyState; a_reason := REASON_PROXY_DISABLED; a_protocol := protocol;
       a_server_address := endpoint.1; a_server_port := endpoint.2; a_method := method;
       a_client_addr := client |} POLICY_DECISION_DENY.

Definition disabled_record (host : str) (port : N) (client method : option str)
    (protocol : NetworkProtocol) : Z -> BlockedRequest :=
  blocked_request host REASON_PROXY_DISABLED client method None (as_policy_protocol protocol)
    (Some (lit "deny")) (Some (lit "proxy_state")) (Some port).

Definition disabled_response : Response := text_response 503 (blocked_message REASON_PROXY_DISABLED).

Lemma run_disabled (host : str) (port : N) (client method : option str) (protocol : NetworkProtocol)
    (override : option (str * N)) env i :
  run (proxy_disabled_response (GlobSet := GlobSet) (Mitm := Mitm) host port client method protocol
         override) env i =
  (disabled_response, S i,
   Audited (disabled_event protocol (default (host, port) override) client method)
   :: recorded (disabled_record host port client method protocol) (env i)).
Proof. unfold recorded. simpl. by destruct (m_state (env i)). Qed.

End Runs.

Section Serve.
Context {GlobSet Mitm : Type} (is_match : GlobSet -> str -> bool) (decider : bool).
Abbreviation Proxy := (Proxy GlobSet Mitm).
Abbreviation Env := (nat -> Moment GlobSet Mitm).

(** What the state of a moment says, when it can be read. *)
Definition at_moment (env : Env) (i : nat) (P : @ConfigState GlobSet Mitm -> Prop) : Prop :=
  exists st, m_state (env i) = Some st /\ P st.

(** The host policy lets a request through at look i, and look k is the next one: the
    state allows the host, or it merely does not list it and the decider allows it. *)
Definition permitted (request : NetworkPolicyRequest) (env : Env) (i k : nat) : Prop :=
  at_moment env i (fun st =>
    let decision := host_blocked is_match (m_lookup (env i)) st (req_host request) (req_port request) in
    decision = Allowed /\ k = S i \/
    decision = Blocked NotAllowed /\ decider = true /\ m_decide (env (S i)) request = Allow /\
    k = S (S i)).

Definition is_allow (d : NetworkDecision) : bool := match d with Allow => true | _ => false end.

Lemma is_allow_mapped (d : NetworkDecision) : is_allow (map_decider_decision d) = is_allow d.
Proof. by destruct d. Qed.

(** The evaluation of the host policy, on what it finds. *)
Lemma run_evaluate (request : NetworkPolicyRequest) (env : Env) (i : nat) :
  run (evaluate_host_policy is_match decider request) env i =
  match m_state (env i) with
  | None => (None, S i, [])
  | Some st =>
      let answer d override j := (Some d, j, [Audited (decision_event request d override)]) in
      match host_blocked is_match (m_lookup (env i)) st (req_host request) (req_port request) with
      | Allowed => answer Allow false (S i)
      | Blocked NotAllowed =>
          if decider then
            let d := map_decider_decision (m_decide (env (S i)) request) in
            answer d (is_allow d) (S (S i))
          else answer (deny_with_source (reason_str NotAllowed) BaselinePolicy) false (S i)
      | Blocked reason => answer (deny_with_source (reason_str reason) BaselinePolicy) false (S i)
      end
  end.
Proof.
  unfold evaluate_host_policy. simpl. destruct (m_state (env i)) as [st|]; [|done]. simpl.
  destruct (host_blocked _ _ _ _ _) as [|[]]; try done.
  destruct decider; [|done]. simpl. by destruct (m_decide _ _).
Qed.

Lemma evaluate_allow (request : NetworkPolicyRequest) (env : Env) (i k : nat) out :
  run (evaluate_host_policy is_match decider request) env i = (Some Allow, k, out) <->
  permitted request env i k /\
  out = [Audited (decision_event request Allow (bool_decide (k = S (S i))))].
Proof.
  rewrite run_evaluate. unfold permitted, at_moment.
  assert (bool_decide (S i = S (S i)) = false) as E1 by (apply bool_decide_eq_false; lia).
  assert (bool_decide (S (S i) = S (S i)) = true) as E2 by by apply bool_decide_eq_true.
  destruct (m_state (env i)) as [st|]; [|split; [done|by intros [(st & ? & _) _]]].
  assert (forall P : ConfigState -> Prop, (exists st', Some st = Some st' /\ P st') <-> P st) as Hex
    by (intros P; split; [by intros (? & [= <-] & ?)|by exists st]).
  rewrite Hex. clear Hex. cbv zeta.
  destruct (host_blocked _ _ _ _ _) as [|[]]; try (split; [by intros ?|by intros [[[? _]|[? _]] _]]).
  - split; [intros [= <- <-]; split; [by left|by rewrite E1]|].
    intros [[[_ ->]|[? _]] ->]; [by rewrite E1|done].
  - destruct decider; [|split; [by intros ?|by intros [[[? _]|(_ & ? & _)] _]]].
    rewrite is_allow_mapped. destruct (m_decide (env (S i)) request) eqn:E; simpl;
      [|split; [done|by intros [[[? _]|(_ & _ & ? & _)] _]]].
    split; [intros [= <- <-]; split; [by right|by rewrite E2]|].
    intros [[[? _]|(_ & _ & _ & ->)] ->]; [done|by rewrite E2].
Qed.

(** To be passed on after the host policy is to be permitted, and then what [next] says. *)
Lemma run_after_policy {A} (request : NetworkPolicyRequest) (f : option NetworkDecision -> Proxy A)
    (env : Env) (i : nat) (good : A -> Prop) :
  (forall d k, d <> Some Allow -> ~ good (run (f d) env k).1.1) ->
  forall a j out, good a ->
    run (evaluate_host_policy is_match decider request ≫= f) env i = (a, j, out) <->
    exists k out', permitted request env i k /\ run (f (Some Allow)) env k = (a, j, out') /\
      out = Audited (decision_event request Allow (bool_decide (k = S (S i)))) :: out'.
Proof.
  intros Hf a j out Ha. rewrite run_bind. pose proof (evaluate_allow request env i) as Hev.
  destruct (run (evaluate_host_policy _ _ _) env i) as [[d k] o].
  destruct (run (f d) env k) as [[b j'] o'] eqn:Er. split.
  - intros [= -> -> <-].
    assert (d <> Some Allow -> False) as Hd by (intros Hd; apply (Hf d k Hd); by rewrite Er).
    destruct d as [[|]|]; [|by destruct Hd..].
    destruct (proj1 (Hev k o) eq_refl) as [Hp ->]. by exists k, o'.
  - intros (k' & out' & Hp & Hr & ->).
    pose proof (proj2 (Hev k' _) (conj Hp eq_refl)) as [= -> -> ->]. rewrite Hr in Er.
    by injection Er as -> -> ->.
Qed.

(** The decider is asked only about a host that is merely not listed, and only then
    does its consent count; a host that is denied, or local, is refused whatever it would
    say. One event is left for the audit: it names the decision, and an override exactly
    when the decider let an unlisted host through. *)
Theorem decider_overrides_only_unlisted (request : NetworkPolicyRequest) (env : Env) (i : nat) st :
  m_state (env i) = Some st ->
  let found := host_blocked is_match (m_lookup (env i)) st (req_host request) (req_port request) in
  exists d j e, run (evaluate_host_policy is_match decider request) env i = (Some d, j, [Audited e]) /\
    (d = Allow <-> found = Allowed \/
       found = Blocked NotAllowed /\ decider = true /\ m_decide (env (S i)) request = Allow) /\
    (forall r, found = Blocked r -> r <> NotAllowed -> d = Deny (reason_str r) BaselinePolicy PolicyDeny) /\
    ev_scope e = POLICY_SCOPE_DOMAIN /\
    (ev_decision e = POLICY_DECISION_ALLOW <-> d = Allow) /\
    (ev_override e = true <-> d = Allow /\ found = Blocked NotAllowed).
Proof.
  intros Hst. cbv zeta. rewrite run_evaluate, Hst. destruct (host_blocked _ _ _ _ _) as [|[]].
  - eexists _, _, _. split; [done|]. split_and!; naive_solver.
  - eexists _, _, _. split; [done|]. split_and!; naive_solver.
  - destruct decider.
    + destruct (m_decide (env (S i)) request) as [|reason source [|]];
        (eexists _, _, _; split; [done|]; split_and!; naive_solver).
    + eexists _, _, _. split; [done|]. split_and!; naive_solver.
  - eexists _, _, _. split; [done|]. split_and!; naive_solver.
Qed.

End Serve.

(** ** The HTTP proxy *)

Section Http.
Context {GlobSet Mitm HostName HeaderMap HeaderValue ProxyAddress : Type}.
Context (is_match : GlobSet -> str -> bool) (decider macos : bool).
Context (host_display : HostName -> str) (host_eqb : HostName -> HostName -> bool).
Abbreviation Env := (nat -> Moment GlobSet Mitm).
Abbreviation Request := (HttpRequest HostName HeaderMap).

Definition connect_request (host : str) (port : N) (client : option str) : NetworkPolicyRequest :=
  {| protocol := HttpsConnect; req_host := host; req_port := port; client_addr := client;
     method := Some (lit "CONNECT"); command := None; exec_policy_hint := None |}.

Definition is_accepted (r : @ConnectResult Mitm HostName) : Prop :=
  match r with Accepted _ _ _ _ => True | Refused _ => False end.

Lemma connect_checked_accepted (host : str) (target : HostName * N) (client : option str)
    (env : Env) (i j : nat) r t m mm out :
  let request := connect_request host target.2 client in
  run (connect_checked is_match decider host target client) env i = (Accepted r t m mm, j, out) <->
  t = target /\ r = ok_response /\
  exists k, permitted is_match decider request env i k /\ j = S (S k) /\
    at_moment env k (fun st => mode (config st) = m) /\
    at_moment env (S k) (fun st => mitm_state st = mm) /\
    (m = Limited -> mm <> None) /\
    out = [Audited (decision_event request Allow (bool_decide (k = S (S i))))].
Proof.
  intros request. etrans.
  { apply (run_after_policy is_match decider request _ env i is_accepted); [|done].
    intros [[|]|] k Hd; try done; simpl; destruct (m_state (env k)); by intros []. }
  split.
  - intros (k & out' & Hp & Hr & ->). simpl in Hr.
    destruct (m_state (env k)) as [st|] eqn:E1; simpl in Hr; [|done].
    destruct (m_state (env (S k))) as [st'|] eqn:E2; simpl in Hr; [|done].
    destruct (bool_decide (mode (config st) = Limited)) eqn:E3;
      destruct (mitm_state st') eqn:E4; simpl in Hr;
      try (destruct (m_state (env (S (S k)))); done);
      injection Hr as <- <- <- <- <- <-; (split_and!; [done..|]; exists k; split_and!; try done;
        try (by eexists); intros Hm; by apply bool_decide_eq_false in E3).
  - intros (-> & -> & k & Hp & -> & (st & E1 & Em) & (st' & E2 & Emm) & Hg & ->).
    exists k, []. split_and!; [done| |done]. simpl. rewrite E1. simpl. rewrite E2. simpl.
    rewrite Em, Emm. destruct m, mm; try done. by destruct Hg.
Qed.

(** A CONNECT request is accepted by way of [connect_checked]. *)
Lemma connect_reached (req : Request) (env : Env) (i j : nat) r t m mm out :
  run (http_connect_accept is_match host_display decider req) env i = (Accepted r t m mm, j, out) <->
  h_state req = true /\
  exists ctx, h_context req = Some ctx /\
    normalize_host (host_display (target_host ctx)) <> [] /\
    at_moment env i (fun st => enabled (config st) = true) /\
    run (connect_checked is_match decider (normalize_host (host_display (target_host ctx)))
           (target_host ctx, target_port ctx) (h_client req)) env (S i) = (Accepted r t m mm, j, out).
Proof.
  unfold http_connect_accept, at_moment, read_enabled.
  destruct (h_state req); [|by split; [|intros [? _]]]. cbn [negb].
  destruct (h_context req) as [ctx|]; [|by split; [|intros (_ & ? & ? & _)]]. cbv zeta.
  destruct (str_eqb _ []) eqn:Eh.
  { apply str_eqb_eq in Eh. by split; [|intros (_ & ? & [= <-] & ? & _)]. }
  apply str_eqb_neq in Eh. rewrite run_read.
  destruct (m_state (env i)) as [st|]; [|by split; [|intros (_ & ? & _ & _ & (? & ? & _) & _)]].
  destruct (enabled (config st)) eqn:Een.
  - clear - Eh Een. naive_solver.
  - rewrite run_bind, run_disabled. split; [done|].
    intros (_ & ? & _ & _ & (? & [= <-] & E) & _). by rewrite E in Een.
Qed.

(** A CONNECT request is accepted exactly when the proxy is enabled at the first look,
    the host policy permits the target under its normal form at the next, and the mode
    then is not limited unless the tunnel can be looked into; the mode and the interceptor
    found are those the tunnel gets, and one audit event is left. *)
Theorem connect_accepted (req : Request) (env : Env) (i j : nat) r t m mm out :
  run (http_connect_accept is_match host_display decider req) env i = (Accepted r t m mm, j, out) <->
  h_state req = true /\
  exists ctx, h_context req = Some ctx /\
    let host := normalize_host (host_display (target_host ctx)) in
    let request := connect_request host (target_port ctx) (h_client req) in
    host <> [] /\ at_moment env i (fun st => enabled (config st) = true) /\
    t = (target_host ctx, target_port ctx) /\ r = ok_response /\
    exists k, permitted is_match decider request env (S i) k /\ j = S (S k) /\
      at_moment env k (fun st => mode (config st) = m) /\
      at_moment env (S k) (fun st => mitm_state st = mm) /\
      (m = Limited -> mm <> None) /\
      out = [Audited (decision_event request Allow (bool_decide (k = S (S (S i)))))].
Proof. rewrite connect_reached. setoid_rewrite connect_checked_accepted. naive_solver. Qed.

(** *** Plain requests *)

Context (header_get : HeaderMap -> str -> option HeaderValue)
        (header_remove : HeaderMap -> str -> HeaderMap)
        (to_str : HeaderValue -> option str) (header_name : str -> option str).
Context (env_proxies : @ProxyConfig ProxyAddress).
Context (home cwd : option str) (debug : str -> str) (canonicalize : str -> option str).

Abbreviation plain_proxy :=
  (http_plain_proxy is_match host_display host_eqb header_get header_remove to_str header_name
     env_proxies decider macos home cwd debug canonicalize).

Definition plain_request (req : Request) (ctx : RequestContext HostName) : NetworkPolicyRequest :=
  {| protocol := Http; req_host := normalize_host (host_display (target_host ctx));
     req_port := target_port ctx; client_addr := h_client req; method := Some (h_method req);
     command := None; exec_policy_hint := None |}.

Definition is_upstream (r : @PlainResult HeaderMap ProxyAddress) : Prop :=
  match r with ViaUpstream _ _ => True | _ => False end.

Lemma plain_checked_forwarded (req : Request) (ok : bool) (ctx : RequestContext HostName)
    (env : Env) (i j : nat) c hs out :
  run (plain_checked is_match header_get header_remove to_str header_name env_proxies decider
         req ok (normalize_host (host_display (target_host ctx))) (target_port ctx)) env i
    = (ViaUpstream c hs, j, out) <->
  ok = true /\
  hs = remove_hop_by_hop_request_headers header_get header_remove to_str header_name 2 (h_headers req) /\
  exists k, permitted is_match decider (plain_request req ctx) env i k /\ j = S k /\
    at_moment env k (fun st =>
      c = if allow_upstream_proxy (config st) then from_env_proxy env_proxies else direct) /\
    out = [Audited (decision_event (plain_request req ctx) Allow (bool_decide (k = S (S i))))].
Proof.
  etrans.
  { apply (run_after_policy is_match decider (plain_request req ctx) _ env i is_upstream); [|done].
    intros [[|]|] k Hd; try done; simpl; destruct (m_state (env k)); by intros []. }
  split.
  - intros (k & out' & Hp & Hr & ->). destruct ok; [|by simpl in Hr; destruct (m_state (env k))].
    simpl in Hr. destruct (m_state (env k)) as [st|] eqn:E; simplify_eq/=.
    split_and!; [done..|]. exists k. split_and!; try done. by eexists.
  - intros (-> & -> & k & Hp & -> & (st & E & ->) & ->). exists k, []. split_and!; [done| |done].
    simpl. by rewrite E.
Qed.

Lemma unix_socket_not_upstream (req : Request) (ok : bool) (path : str) (env : Env) (i j : nat) c hs out :
  run (unix_socket_proxy (HostName := HostName) (HeaderMap := HeaderMap)
         (ProxyAddress := ProxyAddress) macos home cwd debug canonicalize req ok path) env i
    <> (ViaUpstream c hs, j, out).
Proof.
  unfold unix_socket_proxy, read_enabled. rewrite run_read.
  destruct (m_state (env i)) as [st|]; [|done]. destruct (enabled (config st)).
  - destruct ok; [|done]. destruct macos; [|done]. cbn [negb]. unfold read_unix_socket_allowed.
    rewrite run_read. destruct (m_state (env (S i))) as [st'|]; [|done]. by destruct (_ && _).
  - by rewrite run_bind, run_disabled.
Qed.

Lemma validate_total (req : Request) (ctx : RequestContext HostName) (c : crash) :
  validate_absolute_form_host_header host_eqb req ctx <> Crash c.
Proof. unfold validate_absolute_form_host_header. by repeat case_match. Qed.

(** A plain request is sent on by way of [plain_checked]. *)
Lemma plain_reached (req : Request) (env : Env) (i j : nat) c hs out :
  run (plain_proxy req) env i = (ViaUpstream c hs, j, out) <->
  h_state req = true /\ h_unix_socket req = None /\
  exists st ctx, m_state (env i) = Some st /\ h_context req = Some ctx /\
    validate_absolute_form_host_header host_eqb req ctx = Ok tt /\
    at_moment env (S i) (fun st => enabled (config st) = true) /\
    run (plain_checked is_match header_get header_remove to_str header_name env_proxies decider
           req (allows_method (mode (config st)) (h_method req))
           (normalize_host (host_display (target_host ctx))) (target_port ctx)) env (S (S i))
      = (ViaUpstream c hs, j, out).
Proof.
  unfold http_plain_proxy, method_allowed, at_moment, read_enabled.
  destruct (h_state req); [|by split; [|intros [? _]]]. cbn [negb]. rewrite run_read.
  destruct (m_state (env i)) as [st|]; [|by split; [|intros (_ & _ & ? & ? & ? & _)]].
  destruct (h_unix_socket req) as [[path|]|]; [|by split; [|intros (_ & ? & _)]|].
  { split; [|by intros (_ & ? & _)]. intros Hr. by apply unix_socket_not_upstream in Hr. }
  destruct (h_context req) as [ctx|]; [|by split; [|intros (_ & _ & ? & ? & _ & ? & _)]].
  destruct (validate_absolute_form_host_header host_eqb req ctx) as [[]|reason|crash] eqn:Ev;
    [|split; [done|]; intros (_ & _ & ? & ? & _ & [= <-] & E & _); by rewrite E in Ev
     |by destruct (validate_total _ _ _ Ev)].
  rewrite run_read. destruct (m_state (env (S i))) as [st'|];
    [|by split; [|intros (_ & _ & ? & ? & _ & _ & _ & (? & ? & _) & _)]].
  destruct (enabled (config st')) eqn:Een.
  - clear - Ev Een. naive_solver.
  - rewrite run_bind, run_disabled. split; [done|].
    intros (_ & _ & ? & ? & _ & _ & _ & (? & [= <-] & E) & _). by rewrite E in Een.
Qed.

(** A plain request is sent on to its target exactly when the mode allows its method
    at the first look, its Host header agrees with its target, the proxy is enabled at the
    second look and the host policy permits the target at the third; it is sent without
    the hop-by-hop headers, and through a proxy of the environment only if the state
    allows that. *)
Theorem plain_forwarded (req : Request) (env : Env) (i j : nat) c hs out :
  run (http_plain_proxy is_match host_display host_eqb header_get header_remove to_str header_name
         env_proxies decider macos home cwd debug canonicalize req) env i
    = (ViaUpstream c hs, j, out) <->
  h_state req = true /\ h_unix_socket req = None /\
  exists st ctx, m_state (env i) = Some st /\
    allows_method (mode (config st)) (h_method req) = true /\ h_context req = Some ctx /\
    validate_absolute_form_host_header host_eqb req ctx = Ok tt /\
    at_moment env (S i) (fun st => enabled (config st) = true) /\
    hs = remove_hop_by_hop_request_headers header_get header_remove to_str header_name 2
           (h_headers req) /\
    exists k, permitted is_match decider (plain_request req ctx) env (S (S i)) k /\ j = S k /\
      at_moment env k (fun st =>
        c = if allow_upstream_proxy (config st) then from_env_proxy env_proxies else direct) /\
      out = [Audited (decision_event (plain_request req ctx) Allow
                        (bool_decide (k = S (S (S (S i))))))].
Proof. rewrite plain_reached. setoid_rewrite plain_checked_forwarded. naive_solver. Qed.

End Http.

End NetServeFacts.
