(* ===== verification/NetTunnelFacts.v ===== *)
(** * The network proxy: SOCKS5, intercepted tunnels and the limited mode

    When a SOCKS5 request passes, when a request inside an intercepted tunnel is sent on,
    what the limited mode means for all of them together, and what every refusal leaves
    behind. *)

From Stdlib Require Import Ascii String.
From S2P Require Import Prelude RustStr NetHost NetConfig NetConstraints NetState NetPolicy.
From S2P Require Import NetHttp NetTunnels NetHostFacts NetStateFacts NetServeFacts.
Import NetIp NetHost NetConfig NetConstraints NetState NetPolicy NetUpstream NetHttp NetSocks NetMitm.
Import NetHostFacts NetConfigFacts NetStateFacts NetServeFacts.

Module NetTunnelFacts.

Section Socks.
Context {GlobSet Mitm : Type} (is_match : GlobSet -> str -> bool) (decider : bool).
Abbreviation Env := (nat -> Moment GlobSet Mitm).

Definition socks_request (protocol : NetworkProtocol) (host : str) (port : N) (client : option str)
    : NetworkPolicyRequest :=
  {| protocol := protocol; req_host := host; req_port := port; client_addr := client;
     method := None; command := None; exec_policy_hint := None |}.

(** What passes has found the proxy enabled, then the full mode, then the permission. *)
Definition socks_permitted (protocol : NetworkProtocol) (host : str) (port : N)
    (client : option str) (env : Env) (i k : nat) : Prop :=
  at_moment env i (fun st => enabled (config st) = true) /\
  at_moment env (S i) (fun st => mode (config st) = Full) /\
  permitted is_match decider (socks_request protocol host port client) env (S (S i)) k.

Definition is_passed {A} (r : SocksError + A) : Prop := match r with inr _ => True | _ => False end.

Lemma run_refuse source reason protocol label host port client m (env : Env) i :
  run (refuse (GlobSet := GlobSet) (Mitm := Mitm) source reason protocol label host port client m) env i =
  (PermissionDenied (blocked_message reason), S i,
   Audited (non_domain_event
     {| a_source := source; a_reason := reason; a_protocol := protocol; a_server_address := host;
        a_server_port := port; a_method := None; a_client_addr := client |} POLICY_DECISION_DENY)
   :: recorded (blocked_request host reason client None m label (Some (decision_str PolicyDeny))
        (Some (source_str source)) (Some port)) (env i)).
Proof. unfold recorded. simpl. by destruct (m_state (env i)). Qed.

Lemma guarded_passed {A} protocol label host port client (answer a : A) (env : Env) (i j : nat) out :
  run (guarded is_match decider protocol label host port client answer) env i = (inr a, j, out) <->
  a = answer /\ socks_permitted protocol host port client env i j /\
  out = [Audited (decision_event (socks_request protocol host port client) Allow
                    (bool_decide (j = S (S (S (S i))))))].
Proof.
  unfold guarded, socks_permitted, read_enabled, at_moment at 1. rewrite run_read.
  destruct (m_state (env i)) as [st|]; [|by split; [|intros (_ & ((? & ? & _) & _) & _)]].
  destruct (enabled (config st)) eqn:Een.
  2:{ rewrite run_bind, run_refuse. split; [done|].
      intros (_ & ((? & [= <-] & E) & _) & _). by rewrite E in Een. }
  unfold network_mode, at_moment at 1. rewrite run_read.
  destruct (m_state (env (S i))) as [st'|]; [|by split; [|intros (_ & (_ & (? & ? & _) & _) & _)]].
  destruct (mode (config st')) eqn:Em.
  { rewrite run_bind, run_refuse. split; [done|].
    intros (_ & (_ & (? & [= <-] & E) & _) & _). by rewrite E in Em. }
  etrans.
  { apply (run_after_policy is_match decider (socks_request protocol host port client) _ env
             (S (S i)) is_passed); [|done].
    intros [[|]|] k Hd; try done; simpl; destruct (m_state (env k)); by intros []. }
  split.
  - intros (k & out' & Hp & [= <- <- <-] & ->). split_and!; try done; by eexists.
  - intros (-> & (_ & _ & Hp) & ->). by exists j, [].
Qed.

(** A SOCKS5 connection, or a datagram of the relay, passes exactly when its target
    has a normal form, the proxy is enabled at the first look, the mode is the full one at
    the second, and the host policy permits the target at the third; the datagram passes
    as it is, and one audit event is left. *)
Theorem socks_passed (env : Env) (i j : nat) (host : str) (port : N) (client : option str) out :
  (forall state, run (handle_socks5_tcp is_match decider state host port client) env i
                   = (inr tt, j, out) <->
     state = true /\ normalize_host host <> [] /\
     socks_permitted Socks5Tcp (normalize_host host) port client env i j /\
     out = [Audited (decision_event (socks_request Socks5Tcp (normalize_host host) port client) Allow
                       (bool_decide (j = S (S (S (S i))))))]) /\
  (forall sent payload, run (inspect_socks5_udp is_match decider host port client payload) env i
                   = (inr sent, j, out) <->
     sent = payload /\ normalize_host host <> [] /\
     socks_permitted Socks5Udp (normalize_host host) port client env i j /\
     out = [Audited (decision_event (socks_request Socks5Udp (normalize_host host) port client) Allow
                       (bool_decide (j = S (S (S (S i))))))]).
Proof.
  split.
  - intros state. unfold handle_socks5_tcp. destruct state; [|by split; [|intros [? _]]]. cbn [negb].
    destruct (str_eqb _ _) eqn:E; [apply str_eqb_eq in E; by split; [|intros (_ & ? & _)]|].
    apply str_eqb_neq in E. rewrite guarded_passed. clear - E. naive_solver.
  - intros sent payload. unfold inspect_socks5_udp.
    destruct (str_eqb _ _) eqn:E; [apply str_eqb_eq in E; by split; [|intros (_ & ? & _)]|].
    apply str_eqb_neq in E. rewrite guarded_passed. clear - E. naive_solver.
Qed.

End Socks.

(** ** Requests inside an intercepted tunnel *)

Section Mitm.
Context {GlobSet Mitm : Type} (is_match : GlobSet -> str -> bool).
Abbreviation Env := (nat -> Moment GlobSet Mitm).

(** The host that the request names, if it names one, is that of the tunnel. *)
Definition names_target (req : InnerRequest) (policy : MitmPolicyContext) : Prop :=
  forall named, extract_request_host req = Some named ->
    normalize_host named = [] \/ normalize_host named = ctx_target_host policy.

Definition inner_authority (policy : MitmPolicyContext) : str :=
  authority_header_value (ctx_target_host policy) (ctx_target_port policy).

(** When nothing stands against a request. *)
Lemma not_blocked (req : InnerRequest) (policy : MitmPolicyContext) (env : Env) (i j : nat) out :
  run (mitm_blocking_response is_match req policy) env i = (Some None, j, out) <->
  i_method req <> lit "CONNECT" /\ names_target req policy /\
  at_moment env i (fun st =>
    host_blocked is_match (m_lookup (env i)) st (ctx_target_host policy) (ctx_target_port policy)
      <> Blocked NotAllowedLocal) /\
  allows_method (ctx_mode policy) (i_method req) = true /\ j = S i /\ out = [].
Proof.
  unfold mitm_blocking_response, at_moment.
  destruct (str_eqb (i_method req) (lit "CONNECT")) eqn:Ec.
  { apply str_eqb_eq in Ec. by split; [|intros [? _]]. }
  apply str_eqb_neq in Ec.
  set (mismatch := match extract_request_host req with Some _ => _ | None => _ end).
  assert (mismatch = false <-> names_target req policy) as Hm.
  { unfold mismatch, names_target. destruct (extract_request_host req) as [named|]; [|naive_solver].
    rewrite andb_false_iff, !negb_false_iff, !str_eqb_eq. naive_solver. }
  destruct mismatch.
  { split; [done|]. intros (_ & Hn & _). by apply Hm in Hn. }
  rewrite run_host_blocked.
  destruct (m_state (env i)) as [st|]; [|by split; [|intros (_ & _ & (? & ? & _) & _)]].
  set (found := host_blocked _ _ _ _ _). case_bool_decide as Ef.
  - split; [simpl; by destruct (m_state (env (S i)))|]. by intros (_ & _ & (? & [= <-] & ?) & _).
  - destruct (allows_method _ _) eqn:Ea; simpl.
    + split; [intros [= <- <-]; split_and!; try done; [by apply Hm|by exists st]|].
      by intros (_ & _ & _ & _ & -> & ->).
    + split; [by destruct (m_state (env (S i)))|]. naive_solver.
Qed.

Context (uri_parses header_value : str -> bool).

Lemma inner_reached (req : InnerRequest) (policy : MitmPolicyContext) (env : Env) (i j : nat)
    uri host_header out :
  run (handle_mitm_request is_match uri_parses header_value req policy) env i
    = (InnerForward uri host_header, j, out) <->
  run (mitm_blocking_response is_match req policy) env i = (Some None, j, out) /\
  host_header = inner_authority policy /\
  uri = https_target (inner_authority policy) (path_and_query req) /\
  uri_parses uri = true /\ header_value host_header = true.
Proof.
  unfold handle_mitm_request. rewrite run_bind. fold (inner_authority policy).
  destruct (run (mitm_blocking_response is_match req policy) env i) as [[[[r|]|] k] o]; simpl;
    [by split; [|intros [? _]]| |by split; [|intros [? _]]].
  rewrite app_nil_r. split.
  - destruct (uri_parses _ && _) eqn:Eu; [|done]. apply andb_true_iff in Eu as [? ?].
    by intros [= <- <- <- <-].
  - intros ([= <- <-] & -> & -> & Hu & Hh). by rewrite Hu, Hh.
Qed.

(** A request inside an intercepted tunnel is sent on exactly when it is no CONNECT,
    the host it names is that of the tunnel, the target is not local at this moment, and
    the mode of the tunnel allows its method; it is sent to the target of the tunnel,
    whatever its URI says, and leaves no output. *)
Theorem inner_forwarded (req : InnerRequest) (policy : MitmPolicyContext) (env : Env) (i j : nat)
    uri host_header out :
  run (handle_mitm_request is_match uri_parses header_value req policy) env i
    = (InnerForward uri host_header, j, out) <->
  i_method req <> lit "CONNECT" /\ names_target req policy /\
  at_moment env i (fun st =>
    host_blocked is_match (m_lookup (env i)) st (ctx_target_host policy) (ctx_target_port policy)
      <> Blocked NotAllowedLocal) /\
  allows_method (ctx_mode policy) (i_method req) = true /\
  host_header = inner_authority policy /\
  uri = https_target (inner_authority policy) (path_and_query req) /\
  uri_parses uri = true /\ header_value host_header = true /\ j = S i /\ out = [].
Proof. rewrite inner_reached, not_blocked. naive_solver. Qed.

End Mitm.

(** ** The limited mode *)

Section Limited.
Context {GlobSet Mitm HostName HeaderMap HeaderValue ProxyAddress : Type}.
Context (is_match : GlobSet -> str -> bool) (decider macos : bool).
Context (host_display : HostName -> str) (host_eqb : HostName -> HostName -> bool).
Context (header_get : HeaderMap -> str -> option HeaderValue)
        (header_remove : HeaderMap -> str -> HeaderMap)
        (to_str : HeaderValue -> option str) (header_name : str -> option str).
Context (env_proxies : @ProxyConfig ProxyAddress).
Context (home cwd : option str) (debug : str -> str) (canonicalize : str -> option str).
Context (uri_parses header_value : str -> bool).
Abbreviation Env := (nat -> Moment GlobSet Mitm).
Abbreviation Request := (HttpRequest HostName HeaderMap).

Definition safe_method (method : str) : Prop := method ∈ [lit "GET"; lit "HEAD"; lit "OPTIONS"].

Lemma limited_safe (method : str) : allows_method Limited method = true <-> safe_method method.
Proof.
  unfold safe_method. simpl. rewrite !orb_true_iff, !str_eqb_eq, !elem_of_cons, elem_of_nil. tauto.
Qed.

(** A request that goes to a socket passed the check of its method, on macOS only. *)
Lemma socket_passed (req : Request) (env : Env) (i j : nat) path out :
  run (http_plain_proxy is_match host_display host_eqb header_get header_remove to_str header_name
         env_proxies decider macos home cwd debug canonicalize req) env i
    = (ViaUnixSocket path, j, out) ->
  macos = true /\ h_unix_socket req = Some (Some path) /\
  at_moment env i (fun st => allows_method (mode (config st)) (h_method req) = true) /\
  at_moment env (S i) (fun st => enabled (config st) = true) /\
  at_moment env (S (S i)) (fun st => socket_listed home cwd debug canonicalize st path = true).
Proof.
  unfold http_plain_proxy. destruct (h_state req); [|done]. cbn [negb].
  unfold method_allowed. rewrite run_read. destruct (m_state (env i)) as [st|] eqn:E0; [|done].
  destruct (h_unix_socket req) as [[path'|]|]; [|done|].
  - unfold unix_socket_proxy, read_enabled. rewrite run_read.
    destruct (m_state (env (S i))) as [st1|] eqn:E1; [|done].
    destruct (enabled (config st1)) eqn:Een; [|by rewrite run_bind, run_disabled].
    destruct (allows_method _ _) eqn:Ea; [|done]. destruct macos; [|done]. cbn [negb].
    unfold read_unix_socket_allowed. rewrite run_read.
    destruct (m_state (env (S (S i)))) as [st2|] eqn:E2; [|done].
    destruct (_ && _) eqn:El; [|done]. intros [= <- <- <-].
    split_and!; [done|done|by exists st|by exists st1|by exists st2].
  - destruct (h_context req) as [ctx|]; [|done].
    assert (run (plain_checked is_match header_get header_remove to_str header_name env_proxies
      decider req (allows_method (mode (config st)) (h_method req))
      (normalize_host (host_display (target_host ctx))) (target_port ctx)) env (S (S i))
      <> (ViaUnixSocket path, j, out)) as Hno.
    { unfold plain_checked. rewrite run_bind. destruct (run (evaluate_host_policy _ _ _) env _) as [[d k] o].
      destruct d as [[|]|]; [|by simpl; destruct (m_state (env k))|done].
      destruct (allows_method _ _); simpl; by destruct (m_state (env k)). }
    destruct (validate_absolute_form_host_header _ _ _); [|done|];
      unfold read_enabled; rewrite run_read; (destruct (m_state (env (S i))) as [st1|]; [|done]);
      (destruct (enabled (config st1)); [done|by rewrite run_bind, run_disabled]).
Qed.

(** While every state that is read is in the limited mode, only requests to read pass:
    a plain request is sent on, to its target or to a socket, only with one of the three
    methods; no SOCKS5 request passes; and an accepted CONNECT gets a tunnel that is
    looked into, inside which only those methods are sent on, whatever the mode is then. *)
Theorem limited_mode_reads_only (env : Env) :
  (forall n st, m_state (env n) = Some st -> mode (config st) = Limited) ->
  forall i j out,
  (forall req c hs, run (http_plain_proxy is_match host_display host_eqb header_get header_remove
       to_str header_name env_proxies decider macos home cwd debug canonicalize req) env i
       = (ViaUpstream c hs, j, out) -> safe_method (h_method req)) /\
  (forall req path, run (http_plain_proxy is_match host_display host_eqb header_get header_remove
       to_str header_name env_proxies decider macos home cwd debug canonicalize req) env i
       = (ViaUnixSocket path, j, out) -> safe_method (h_method req)) /\
  (forall state host port client,
     run (handle_socks5_tcp is_match decider state host port client) env i <> (inr tt, j, out)) /\
  (forall host port client payload sent,
     run (inspect_socks5_udp is_match decider host port client payload) env i <> (inr sent, j, out)) /\
  (forall req r t m mm,
     run (http_connect_accept is_match host_display decider (req : Request)) env i
       = (Accepted r t m mm, j, out) ->
     exists interceptor, mm = Some interceptor /\
       forall later n, run (http_connect_proxy (GlobSet := GlobSet) env_proxies true (Some m) (Some t) mm) later n
           = (MitmTunnel t Limited interceptor, n, []) /\
         forall inner uri host_header j' out',
           run (handle_mitm_request is_match uri_parses header_value inner
                  (tunnel_context (host_display t.1, t.2) (Some m))) later n
             = (InnerForward uri host_header, j', out') -> safe_method (i_method inner)).
Proof.
  intros Hl i j out. split_and!.
  - intros req c hs (_ & _ & st & ctx & Hst & _ & _ & _ & Hr)%plain_reached.
    apply plain_checked_forwarded in Hr as [Ha _]. rewrite (Hl i st Hst) in Ha. by apply limited_safe.
  - intros req path (_ & _ & (st & Hst & Ha) & _)%socket_passed.
    rewrite (Hl i st Hst) in Ha. by apply limited_safe.
  - intros state host port client. unfold handle_socks5_tcp.
    destruct state; [|done]. cbn [negb]. destruct (str_eqb _ _); [done|].
    intros (_ & (_ & (st & Hst & Hm) & _) & _)%guarded_passed. by rewrite (Hl _ st Hst) in Hm.
  - intros host port client payload sent. unfold inspect_socks5_udp.
    destruct (str_eqb _ _); [done|].
    intros (_ & (_ & (st & Hst & Hm) & _) & _)%guarded_passed. by rewrite (Hl _ st Hst) in Hm.
  - intros req r t m mm (_ & ctx & _ & _ & _ & Hr)%connect_reached.
    apply connect_checked_accepted in Hr as (_ & _ & k & _ & _ & (st & Hst & <-) & _ & Hg & _).
    rewrite (Hl k st Hst) in *. destruct mm as [interceptor|]; [|by destruct Hg].
    exists interceptor. split; [done|]. intros later n. split; [done|].
    intros inner uri host_header j' out' [(_ & _ & _ & Ha & _)%not_blocked _]%inner_reached.
    by apply limited_safe.
Qed.

End Limited.

End NetTunnelFacts.

(** * The network proxy: what a refusal leaves behind

    Every request that the policy refuses is told why and leaves one record, unless the
    state cannot be read at that moment; a request refused for another reason leaves none. *)

Import NetIp NetHost NetConfig NetConstraints NetState NetPolicy NetUpstream NetHttp NetSocks NetMitm.
Import NetStateFacts NetServeFacts NetTunnelFacts.

Module NetRefusalFacts.

Definition records (out : list Output) : list BlockedRequest :=
  omap (fun o => match o with Recorded b => Some b | Audited _ => None end) out.

(** The answer says that it is the policy that refuses, and why. *)
Definition says (r : Response) (reason : str) : Prop :=
  match body r with
  | Text text => text = blocked_message reason
  | Json b => j_reason b = reason /\ j_message b = Some (blocked_message reason)
  | Empty => False
  end /\ (status r = 403%N -> x_proxy_error r = Some (blocked_header_value reason)).

Section Refusals.
Context {GlobSet Mitm HostName HeaderMap HeaderValue ProxyAddress : Type}.
Context (is_match : GlobSet -> str -> bool) (decider macos : bool).
Context (host_display : HostName -> str) (host_eqb : HostName -> HostName -> bool).
Context (header_get : HeaderMap -> str -> option HeaderValue)
        (header_remove : HeaderMap -> str -> HeaderMap)
        (to_str : HeaderValue -> option str) (header_name : str -> option str).
Context (env_proxies : @ProxyConfig ProxyAddress).
Context (home cwd : option str) (debug : str -> str) (canonicalize : str -> option str).
Abbreviation Env := (nat -> Moment GlobSet Mitm).
Abbreviation Request := (HttpRequest HostName HeaderMap).

(** The last look left the one record of a refusal, or found no state. *)
Definition leaves (host : str) (port : N) (client : option str) (reason : str) (env : Env)
    (j : nat) (out : list Output) : Prop :=
  exists k entry, j = S k /\
    records out = (if m_state (env k) is Some _ then [entry] else []) /\
    b_host entry = host /\ b_port entry = Some port /\ b_client entry = client /\
    b_reason entry = reason.

Lemma records_app (a b : list Output) : records (a ++ b) = records a ++ records b.
Proof. apply omap_app. Qed.

Lemma evaluate_no_records (request : NetworkPolicyRequest) (env : Env) (i j : nat) d out :
  run (evaluate_host_policy is_match decider request) env i = (d, j, out) -> records out = [].
Proof.
  rewrite run_evaluate. destruct (m_state (env i)) as [st|]; [|by intros [= <- <- <-]].
  destruct (host_blocked _ _ _ _ _) as [|[]]; [..|destruct decider|]; by intros [= <- <- <-].
Qed.

Lemma leaves_recorded (host reason label : str) (port : N) (client meth decision source : option str)
    (m : option NetworkMode) (env : Env) (k : nat) out :
  records out = records (recorded (blocked_request host reason client meth m label decision source
                                     (Some port)) (env k)) ->
  leaves host port client reason env (S k) out.
Proof.
  intros Ho. exists k, (blocked_request host reason client meth m label decision source (Some port)
                          (m_now (env k))).
  rewrite Ho. unfold recorded. by destruct (m_state (env k)).
Qed.

(** A CONNECT that the policy refuses. *)
Lemma connect_refused (req : Request) (env : Env) (i j : nat) r out :
  run (http_connect_accept is_match host_display decider req) env i = (Refused r, j, out) ->
  (status r ∈ [400; 500]%N) /\ records out = [] \/
  (status r ∈ [403; 503]%N) /\
  exists ctx reason, h_context req = Some ctx /\ says r reason /\
    leaves (normalize_host (host_display (target_host ctx))) (target_port ctx) (h_client req)
      reason env j out.
Proof.
  unfold http_connect_accept, read_enabled.
  destruct (h_state req); [|by intros [= <- <- <-]; left; split; [set_solver|]]. cbn [negb].
  destruct (h_context req) as [ctx|]; [|by intros [= <- <- <-]; left; split; [set_solver|]].
  set (host := normalize_host (host_display (target_host ctx))).
  destruct (str_eqb host []); [by intros [= <- <- <-]; left; split; [set_solver|]|].
  rewrite run_read. destruct (m_state (env i)) as [st|];
    [|by intros [= <- <- <-]; left; split; [set_solver|]].
  destruct (enabled (config st)).
  2:{ rewrite run_bind, run_disabled. intros [= <- <- <-]. right. split; [set_solver|].
      exists ctx, REASON_PROXY_DISABLED. split_and!; try done.
      eapply leaves_recorded. by rewrite app_nil_r. }
  unfold connect_checked. rewrite run_bind. set (request := Build_NetworkPolicyRequest _ _ _ _ _ _ _).
  destruct (run (evaluate_host_policy _ _ request) env (S i)) as [[d k] o] eqn:Er.
  apply evaluate_no_records in Er as Ho.
  destruct d as [[|reason source decision]|].
  - unfold network_mode. rewrite run_read. destruct (m_state (env k)) as [st1|];
      [|by intros [= <- <- <-]; left; split; [set_solver|rewrite app_nil_r]].
    unfold read_mitm_state. rewrite run_read. destruct (m_state (env (S k))) as [st2|];
      [|by intros [= <- <- <-]; left; split; [set_solver|rewrite app_nil_r]].
    destruct (_ && _); [|done]. rewrite run_bind. cbn [emit_block_decision_audit_event audit run].
    rewrite run_record_bind by (by intros []). intros [= <- <- <-]. right.
    split; [set_solver|]. exists ctx, REASON_MITM_REQUIRED. split_and!; try done.
    eapply leaves_recorded. by rewrite !records_app, Ho, app_nil_r.
  - rewrite run_record_bind by (by intros []). intros [= <- <- <-]. right.
    split; [set_solver|]. exists ctx, reason. split_and!; try done.
    eapply leaves_recorded. by rewrite !records_app, Ho, app_nil_r.
  - intros [= <- <- <-]. left. rewrite app_nil_r. by split; [set_solver|].
Qed.

(** A plain request to its target that the policy refuses. *)
Lemma plain_refused (req : Request) (env : Env) (i j : nat) r out :
  h_unix_socket req = None ->
  run (http_plain_proxy is_match host_display host_eqb header_get header_remove to_str header_name
         env_proxies decider macos home cwd debug canonicalize req) env i = (Respond r, j, out) ->
  (status r ∈ [400; 500]%N) /\ records out = [] \/
  (status r ∈ [403; 503]%N) /\
  exists ctx reason, h_context req = Some ctx /\ says r reason /\
    leaves (normalize_host (host_display (target_host ctx))) (target_port ctx) (h_client req)
      reason env j out.
Proof.
  intros Hu. unfold http_plain_proxy, method_allowed, read_enabled. rewrite Hu.
  destruct (h_state req); [|by intros [= <- <- <-]; left; split; [set_solver|]]. cbn [negb].
  rewrite run_read. destruct (m_state (env i)) as [st|];
    [|by intros [= <- <- <-]; left; split; [set_solver|]].
  destruct (h_context req) as [ctx|]; [|by intros [= <- <- <-]; left; split; [set_solver|]].
  set (host := normalize_host (host_display (target_host ctx))).
  destruct (validate_absolute_form_host_header host_eqb req ctx) as [[]|why|crash] eqn:Ev;
    [|by intros [= <- <- <-]; left; split; [set_solver|]|by destruct (validate_total _ _ _ _ Ev)].
  rewrite run_read. destruct (m_state (env (S i))) as [st1|];
    [|by intros [= <- <- <-]; left; split; [set_solver|]].
  destruct (enabled (config st1)).
  2:{ rewrite run_bind, run_disabled. intros [= <- <- <-]. right. split; [set_solver|].
      exists ctx, REASON_PROXY_DISABLED. split_and!; try done.
      eapply leaves_recorded. by rewrite app_nil_r. }
  unfold plain_checked. rewrite run_bind. set (request := Build_NetworkPolicyRequest _ _ _ _ _ _ _).
  destruct (run (evaluate_host_policy _ _ request) env (S (S i))) as [[d k] o] eqn:Er.
  apply evaluate_no_records in Er as Ho.
  destruct d as [[|reason source decision]|].
  - destruct (allows_method _ _); cbn [negb].
    + unfold read_allow_upstream_proxy. rewrite run_read. destruct (m_state (env k)) as [st2|]; [done|].
      intros [= <- <- <-]. left. by rewrite app_nil_r; split; [set_solver|].
    + rewrite run_bind. cbn [emit_block_decision_audit_event audit run].
      rewrite run_record_bind by (by intros []). intros [= <- <- <-]. right.
      split; [set_solver|]. exists ctx, REASON_METHOD_NOT_ALLOWED. split_and!; try done.
      eapply leaves_recorded. by rewrite !records_app, Ho, app_nil_r.
  - rewrite run_record_bind by (by intros []). intros [= <- <- <-]. right.
    split; [set_solver|]. exists ctx, reason. split_and!; try done.
    eapply leaves_recorded. by rewrite !records_app, Ho, app_nil_r.
  - intros [= <- <- <-]. left. rewrite app_nil_r. by split; [set_solver|].
Qed.

(** What both SOCKS5 handlers refuse. *)
Lemma guarded_refused {A} protocol label host port client (answer : A) (env : Env) (i j : nat) e out :
  run (guarded is_match decider protocol label host port client answer) env i = (inl e, j, out) ->
  e = ProxyError /\ records out = [] \/
  exists reason, e = PermissionDenied (blocked_message reason) /\
    leaves host port client reason env j out.
Proof.
  unfold guarded, read_enabled, network_mode. rewrite run_read.
  destruct (m_state (env i)) as [st|]; [|intros [= <- <- <-]; by left].
  destruct (enabled (config st)).
  2:{ rewrite run_bind, run_refuse. intros [= <- <- <-]. right. eexists. split; [done|].
      eapply leaves_recorded. by rewrite app_nil_r. }
  rewrite run_read. destruct (m_state (env (S i))) as [st1|]; [|intros [= <- <- <-]; by left].
  destruct (mode (config st1)).
  { rewrite run_bind, run_refuse. intros [= <- <- <-]. right. eexists. split; [done|].
    eapply leaves_recorded. by rewrite app_nil_r. }
  rewrite run_bind. destruct (run (evaluate_host_policy _ _ _) env (S (S i))) as [[d k] o] eqn:Er.
  apply evaluate_no_records in Er as Ho.
  destruct d as [[|reason source decision]|]; [done| |].
  - rewrite run_record_bind by (by intros []). intros [= <- <- <-]. right. exists reason.
    split; [done|]. eapply leaves_recorded. by rewrite !records_app, Ho, app_nil_r.
  - intros [= <- <- <-]. left. by rewrite app_nil_r.
Qed.

(** A request inside an intercepted tunnel that is answered and not sent on. *)
Lemma inner_refused (req : InnerRequest) (policy : MitmPolicyContext) (env : Env) (i j : nat) r out :
  run (mitm_blocking_response is_match req policy) env i = (Some (Some r), j, out) ->
  (status r ∈ [400; 405]%N) /\ records out = [] \/
  status r = 403%N /\
  exists reason, says r reason /\
    leaves (ctx_target_host policy) (ctx_target_port policy) (i_client req) reason env j out.
Proof.
  unfold mitm_blocking_response.
  destruct (str_eqb _ _); [intros [= <- <- <-]; left; by split; [set_solver|]|].
  destruct (match extract_request_host req with Some _ => _ | None => _ end);
    [intros [= <- <- <-]; left; by split; [set_solver|]|].
  rewrite run_host_blocked. destruct (m_state (env i)) as [st|]; [|done].
  case_bool_decide.
  - rewrite run_record_bind by (by intros []). intros [= <- <- <-]. right. split; [done|].
    eexists. split; [done|]. eapply leaves_recorded. by rewrite app_nil_r.
  - destruct (allows_method _ _); [done|]. cbn [negb].
    rewrite run_record_bind by (by intros []). intros [= <- <- <-]. right. split; [done|].
    exists REASON_METHOD_NOT_ALLOWED. split; [done|]. eapply leaves_recorded. by rewrite app_nil_r.
Qed.

(** Whichever way a request comes, when the policy refuses it the answer says why and
    one record with its host, port, client and reason is left, unless the state cannot be
    read when it is to be recorded; and a request that is refused for another reason
    leaves no record. *)
Theorem refusals_recorded (env : Env) (i j : nat) out :
  (forall (req : Request) r,
     run (http_connect_accept is_match host_display decider req) env i = (Refused r, j, out) \/
     h_unix_socket req = None /\
     run (http_plain_proxy is_match host_display host_eqb header_get header_remove to_str header_name
            env_proxies decider macos home cwd debug canonicalize req) env i = (Respond r, j, out) ->
     (status r ∈ [400; 500]%N) /\ records out = [] \/
     (status r ∈ [403; 503]%N) /\
     exists ctx reason, h_context req = Some ctx /\ says r reason /\
       leaves (normalize_host (host_display (target_host ctx))) (target_port ctx) (h_client req)
         reason env j out) /\
  (forall state host port client e payload,
     run (handle_socks5_tcp is_match decider state host port client) env i = (inl e, j, out) \/
     run (inspect_socks5_udp is_match decider host port client payload) env i = (inl e, j, out) ->
     (e ∈ [InvalidHost; MissingState; ProxyError]) /\ records out = [] \/
     exists reason, e = PermissionDenied (blocked_message reason) /\
       leaves (normalize_host host) port client reason env j out) /\
  (forall req policy r,
     run (mitm_blocking_response is_match req policy) env i = (Some (Some r), j, out) ->
     (status r ∈ [400; 405]%N) /\ records out = [] \/
     status r = 403%N /\
     exists reason, says r reason /\
       leaves (ctx_target_host policy) (ctx_target_port policy) (i_client req) reason env j out).
Proof.
  split_and!.
  - intros req r [Hr|[Hu Hr]]; [by eapply connect_refused|by eapply plain_refused].
  - intros state host port client e payload [Hr|Hr].
    + unfold handle_socks5_tcp in Hr. destruct state; [|injection Hr as <- <- <-; left; set_solver].
      cbn [negb] in Hr. destruct (str_eqb _ _); [injection Hr as <- <- <-; left; set_solver|].
      apply guarded_refused in Hr as [[-> ?]|?]; [left; set_solver|by right].
    + unfold inspect_socks5_udp in Hr.
      destruct (str_eqb _ _); [injection Hr as <- <- <-; left; set_solver|].
      apply guarded_refused in Hr as [[-> ?]|?]; [left; set_solver|by right].
  - intros req policy r. apply inner_refused.
Qed.

End Refusals.

End NetRefusalFacts.
