(* ===== verification/NetEgressFacts.v ===== *)
(** * The network proxy: what leaves it

    The headers a forwarded request keeps, the connections that are made directly, the
    authority a tunnel names, and what a request that passes says about the lists. *)

From Stdlib Require Import Ascii String.
From S2P Require Import Prelude RustStr NetHost NetConfig NetConstraints NetState NetPolicy.
From S2P Require Import NetHttp NetTunnels NetHostFacts NetStateFacts NetServeFacts.
From S2P Require Import NetTunnelFacts.
Import NetIp NetHost NetConfig NetConstraints NetState NetPolicy NetUpstream NetHttp NetSocks NetMitm.
Import NetHostFacts NetConfigFacts NetStateFacts NetServeFacts NetTunnelFacts NetRefusalFacts.

Module NetEgressFacts.

(** ** Hop-by-hop headers *)

(** The header map of the crate rama: [get] gives the first value of a name, [remove]
    takes all of them away, and the name of a header is in lower case. *)
Class HeaderMapLaws {HeaderMap HeaderValue : Type}
    (values : HeaderMap -> str -> list HeaderValue)
    (header_get : HeaderMap -> str -> option HeaderValue)
    (header_remove : HeaderMap -> str -> HeaderMap) (header_name : str -> option str) := {
  get_head : forall m n, header_get m n = head (values m n);
  remove_values : forall m n n',
    values (header_remove m n) n' = if str_eqb n n' then [] else values m n';
  name_te : header_name (lit "te") = Some (lit "te");
}.

Section Headers.
Context `{HeaderMapLaws HeaderMap HeaderValue values header_get header_remove header_name}.
Context (to_str : HeaderValue -> option str).

(** The names that the first line of Connection lists. *)
Definition first_listed (m : HeaderMap) : list str :=
  match head (values m (lit "connection")) with
  | Some v => match to_str v with
              | Some raw => omap header_name (connection_headers raw)
              | None => []
              end
  | None => []
  end.

Definition hop_names (m : HeaderMap) : list str :=
  lit "connection" :: first_listed m ++ fixed_hop_names ++ [lit "te"].

Lemma values_removed (ns : list str) (m : HeaderMap) (n : str) :
  values (foldl header_remove m ns) n = if bool_decide (n ∈ ns) then [] else values m n.
Proof using H.
  revert m. induction ns as [|n' ns IH]; intros m; [done|]. simpl. rewrite IH, remove_values.
  destruct (str_eqb n' n) eqn:E.
  - apply str_eqb_eq in E as ->. rewrite (bool_decide_eq_true_2 (n ∈ n :: ns)) by left.
    by destruct (bool_decide (n ∈ ns)).
  - apply str_eqb_neq in E. erewrite (bool_decide_ext (n ∈ n' :: ns) (n ∈ ns)); [done|].
    rewrite elem_of_cons. naive_solver.
Qed.

Lemma tokens_removed (tokens : list str) (m : HeaderMap) :
  foldl (remove_token header_remove header_name) m tokens
  = foldl header_remove m (omap header_name tokens).
Proof.
  revert m. induction tokens as [|t tokens IH]; intros m; [done|]. simpl.
  unfold remove_token at 2. by destruct (header_name t); simpl; rewrite IH.
Qed.

Lemma remove_connection_once (fuel : nat) (m : HeaderMap) : 2 <= fuel ->
  exists m', remove_connection header_get header_remove to_str header_name fuel m = Ok m' /\
    forall n, values m' n = values (foldl header_remove m (lit "connection" :: first_listed m)) n.
Proof using H.
  intros Hf. destruct fuel as [|[|fuel]]; [lia..|]. cbn [remove_connection]. rewrite get_head.
  unfold first_listed. destruct (head (values m (lit "connection"))) as [v|] eqn:Ev.
  - set (m1 := remove_listed _ _ _ _ _).
    assert (m1 = foldl header_remove m (lit "connection" ::
              match to_str v with Some raw => omap header_name (connection_headers raw) | None => [] end))
      as ->.
    { unfold m1, remove_listed. destruct (to_str v); [apply tokens_removed|done]. }
    rewrite get_head, values_removed, bool_decide_eq_true_2 by left. by eexists.
  - exists m. split; [done|]. intros n. rewrite values_removed. case_bool_decide as En; [|done].
    apply list_elem_of_singleton in En as ->. by destruct (values m (lit "connection")).
Qed.

(** Removing the hop-by-hop headers ends after at most two rounds. What is gone is
    Connection, the names that its first line lists, and the seven fixed ones; every other
    header keeps all its values, and so does one that only a later line of Connection
    lists. *)
Theorem hop_by_hop_removed (fuel : nat) (m : HeaderMap) : 2 <= fuel ->
  exists m',
    remove_hop_by_hop_request_headers header_get header_remove to_str header_name fuel m = Ok m' /\
    forall n, values m' n = if bool_decide (n ∈ hop_names m) then [] else values m n.
Proof using H.
  intros Hf. destruct (remove_connection_once fuel m Hf) as (m1 & E & H1).
  unfold remove_hop_by_hop_request_headers. rewrite E.
  eexists. split; [done|]. intros n. unfold remove_token. rewrite name_te.
  change (header_remove ?a ?b) with (foldl header_remove a [b]) at 1.
  rewrite <- foldl_app, values_removed, H1, values_removed. unfold hop_names.
  rewrite (app_comm_cons (first_listed m)).
  repeat case_bool_decide; try done; exfalso; rewrite ?elem_of_app in *; tauto.
Qed.

End Headers.

(** A header map as a list of lines. *)
Definition line_values (m : list (str * str)) (n : str) : list str :=
  omap (fun l => if str_eqb l.1 n then Some l.2 else None) m.
Definition line_get (m : list (str * str)) (n : str) : option str := head (line_values m n).
Definition line_remove (m : list (str * str)) (n : str) : list (str * str) :=
  List.filter (fun l => negb (str_eqb l.1 n)) m.
Definition line_name (s : str) : option str :=
  if str_eqb s [] then None else Some (to_ascii_lowercase s).

#[export] Instance line_laws : HeaderMapLaws line_values line_get line_remove line_name.
Proof.
  split; [done| |done]. intros m n n'. unfold line_values, line_remove, omap.
  induction m as [|[a b] m IH]; [by destruct (str_eqb n n')|]. simpl.
  destruct (str_eqb a n) eqn:Ea; simpl.
  - rewrite IH. apply str_eqb_eq in Ea as ->.
    by destruct (str_eqb n n').
  - rewrite IH. destruct (str_eqb a n') eqn:Ea'; [|done].
    apply str_eqb_eq in Ea' as ->. destruct (str_eqb n n') eqn:E; [|done].
    apply str_eqb_eq in E as ->. by rewrite str_eqb_refl in Ea.
Qed.

(** Two lines of Connection: what the second one lists stays. *)
Definition two_lines : list (str * str) :=
  [(lit "connection", lit "close, X-A"); (lit "x-a", lit "1"); (lit "te", lit "trailers");
   (lit "connection", lit "x-b"); (lit "x-b", lit "2"); (lit "accept", lit "*/*")].

Lemma hop_by_hop_removed_witness :
  2 <= 2 /\
  (lit "x-b" ∉ hop_names (values := line_values) (header_name := line_name) Some two_lines) /\
  exists m', remove_hop_by_hop_request_headers line_get line_remove Some line_name 2 two_lines = Ok m' /\
    line_values m' (lit "x-b") = [lit "2"] /\ line_values m' (lit "x-a") = [].
Proof.
  split; [lia|]. split; [by apply (bool_decide_unpack _); vm_compute|].
  destruct (hop_by_hop_removed (values := line_values) (header_name := line_name) Some 2 two_lines)
    as (m' & E & Hm); [lia|].
  exists m'. split; [exact E|]. split; (rewrite Hm; by vm_compute).
Defined.

(** ** Connections that are made directly *)

Section Direct.
Context {GlobSet Mitm ProxyAddress : Type} (is_match : GlobSet -> str -> bool).
Abbreviation Env := (nat -> Moment GlobSet Mitm).

(** What a client's policy says at a moment about local destinations. *)
Definition local_permitted (policy : TargetPolicy) (m : Moment GlobSet Mitm) : option bool :=
  match policy with
  | FixedConfig allow => Some allow
  | FromState => (fun st => allow_local_binding (config st)) <$> m_state m
  end.

Lemma direct_dialled (c : @UpstreamClient ProxyAddress) (secure : bool) (addr : IpAddr)
    (env : Env) (i : nat) :
  proxy_for_protocol (proxy_config c) secure = None ->
  (run (client_connect c secure addr) env i).1.1 = Dialled <->
  local_permitted (transport c) (env i) = Some true \/
  is_non_public_ip addr = false /\ exists allow, local_permitted (transport c) (env i) = Some allow.
Proof.
  intros Hp. unfold client_connect, serve, connect, connect_permitted. rewrite Hp.
  destruct (transport c) as [allow|]; simpl.
  - destruct allow, (is_non_public_ip addr); naive_solver.
  - destruct (m_state (env i)) as [st|]; simpl; [|naive_solver].
    destruct (allow_local_binding (config st)), (is_non_public_ip addr); naive_solver.
Qed.

(** The check of the address. A client that uses no proxy of the environment dials
    only public addresses unless local destinations are permitted, by the state at that
    moment or, inside an intercepted tunnel, by the configuration the interceptor was made
    for. So a local address that the lists allow by name is let through by the host policy
    and refused here: [Allowed] and yet rejected. *)
Theorem direct_connection_checked (c : @UpstreamClient ProxyAddress) (secure : bool)
    (addr : IpAddr) (env : Env) (i : nat) :
  proxy_for_protocol (proxy_config c) secure = None ->
  ((run (client_connect (GlobSet := GlobSet) (Mitm := Mitm) c secure addr) env i).1.1 = Dialled <->
   local_permitted (transport c) (env i) = Some true \/
   is_non_public_ip addr = false /\
   exists allow, local_permitted (transport c) (env i) = Some allow) /\
  (forall st host h port, m_state (env i) = Some st -> parse_host host = Ok h ->
     is_local_literal h = true -> is_non_public_ip addr = true ->
     allow_local_binding (config st) = false -> transport c = FromState ->
     globset_matches_host_or_unscoped is_match (deny_set st) h = false ->
     globset_matches_host_or_unscoped is_match (allow_set st) h = true ->
     is_explicit_local_allowlisted (default [] (allowed_domains (config st))) h = true ->
     allowed_domains (config st) <> None ->
     host_blocked is_match (m_lookup (env i)) st host port = Allowed /\
     (run (client_connect (GlobSet := GlobSet) (Mitm := Mitm) c secure addr) env i).1.1 = Rejected).
Proof.
  intros Hp. split; [by apply direct_dialled|].
  intros st host h port Hst Hh Hip Hnp Hl Ht Hd Ha He Hn. split.
  - unfold host_blocked. by rewrite Hh, Hd, Ha, Hl, Hip, He, bool_decide_eq_false_2.
  - unfold client_connect, serve, connect, connect_permitted. rewrite Hp, Ht. simpl.
    rewrite Hst. simpl. by rewrite Hl, Hnp.
Qed.

End Direct.

(** A proxy that lists 127.0.0.1 and permits no local destinations. *)
Definition local_state : @ConfigState (list str) unit :=
  {| config := allows_only (lit "127.0.0.1"); allow_set := [lit "127.0.0.1"]; deny_set := [];
     mitm_state := None; constraints := manages_only (lit "127.0.0.1"); blocked := [];
     blocked_total := 0 |}.

Definition still (st : @ConfigState (list str) unit) : Moment (list str) unit :=
  {| m_state := Some st; m_lookup := demo_lookup; m_now := 0; m_decide := fun _ => Allow |}.

Lemma direct_connection_checked_witness :
  proxy_for_protocol (proxy_config (@direct str)) false = None /\
  host_blocked simple_is_match demo_lookup local_state (lit "127.0.0.1") 80 = Allowed /\
  (run (client_connect (@direct str) false (V4 (v4 127 0 0 1))) (fun _ => still local_state) 0).1.1
    = Rejected.
Proof.
  split; [done|].
  apply (proj2 (direct_connection_checked simple_is_match (@direct str) false (V4 (v4 127 0 0 1))
           (fun _ => still local_state) 0 eq_refl) local_state (lit "127.0.0.1") (lit "127.0.0.1") 80%N);
    by vm_compute.
Defined.

(** ** The authority that a tunnel names *)

Lemma host_part_bracketed (h tail : str) : ch "]" ∉ h ->
  host_part (lit "[" ++ h ++ lit "]" ++ tail) = h.
Proof.
  intros Hh. unfold host_part. change (lit "[" ++ h ++ lit "]" ++ tail) with ((ch "[" :: h) ++ ch "]" :: tail).
  change (starts_with (lit "[") _) with true. cbv iota.
  rewrite split_once_app; [done|]. apply not_elem_of_cons. split; [by vm_compute|done].
Qed.

Lemma no_bracket (h tail : str) : ch "[" ∉ h -> h <> [] -> starts_with (lit "[") (h ++ tail) = false.
Proof.
  intros Hb Hne. unfold starts_with. destruct (strip_prefix _ _) as [r|] eqn:E; [|done].
  apply strip_prefix_Some in E. destruct h as [|c h]; [done|]. injection E as -> _.
  destruct Hb. left.
Qed.

(** The authority under which the requests of an intercepted tunnel are sent on is
    read back as the tunnel's host: for a host in normal form, with an address of IPv6 or
    not, and for every port, a request that names it passes the check of its host. *)
Theorem tunnel_names_itself (h : str) (port : N) (req : InnerRequest) (policy : MitmPolicyContext) :
  normalize_host h = h -> h <> [] -> trim h = h -> (ch "[" ∉ h) -> (ch "]" ∉ h) ->
  count_char (ch ":") h <> 1 ->
  ctx_target_host policy = h -> ctx_target_port policy = port ->
  extract_request_host req = Some (authority_header_value h port) ->
  normalize_host (authority_header_value h port) = h /\ names_target req policy.
Proof.
  intros Hn Hne Ht Hb Hb' Hc Hh Hp Hr.
  assert (normalize_host (authority_header_value h port) = h) as Ha;
    [|split; [done|]; intros named; rewrite Hr, Hh; intros [= <-]; by right].
  assert (normalize_dns_host_or_ip_literal h = h) as Hd.
  { rewrite <- Hn at 2. unfold normalize_host. rewrite Ht. unfold host_part.
    rewrite <- (app_nil_r h) at 1 2. rewrite no_bracket, app_nil_r by done.
    by rewrite (proj2 (Nat.eqb_neq _ _) Hc). }
  assert (trimmed h) as [Hhead Hlast] by (rewrite <- Ht; apply trim_is_trimmed).
  unfold authority_header_value, normalize_host.
  destruct (contains_char (ch ":") h) eqn:Ec.
  - assert (forall tail, trimmed (lit "[" ++ h ++ lit "]" ++ tail) ->
              normalize_dns_host_or_ip_literal (host_part (trim (lit "[" ++ h ++ lit "]" ++ tail))) = h)
      as Hgo by (intros tail Htr; by rewrite trim_trimmed, host_part_bracketed).
    destruct (port =? 443)%N.
    + rewrite <- (app_nil_r (lit "]")). apply Hgo. split; [by intros c [= <-]|].
      rewrite app_nil_r, app_assoc, last_app_nonempty by done. by intros c [= <-].
    + change (lit "]:" ++ ?n) with (lit "]" ++ lit ":" ++ n). apply Hgo.
      rewrite !app_assoc. apply show_nat_trimmed; [by intros c [= <-]|by destruct h].
  - apply contains_char_false in Ec. destruct (port =? 443)%N; [by rewrite <- Hn at 2|].
    rewrite trim_trimmed.
    2:{ rewrite app_assoc. apply show_nat_trimmed; [|by destruct h].
        destruct h as [|c h]; [done|]. intros c' [= <-]. by apply Hhead. }
    unfold host_part. rewrite no_bracket by done. rewrite !count_char_app, (count_char_absent _ h), (count_char_absent _ (show_nat _))
      by (done || by apply show_nat_absent).
    change (0 + (count_char (ch ":") (lit ":") + 0) =? 1) with true. cbv iota.
    change (h ++ lit ":" ++ ?n) with (h ++ ch ":" :: n).
    by rewrite split_on_app, split_on_single by (done || by apply show_nat_absent).
Qed.

Definition demo_inner (authority : str) : InnerRequest :=
  {| i_method := lit "GET"; i_host := Some (Some authority); i_authority := None;
     i_path_and_query := Some (lit "/a"); i_client := None |}.

Lemma tunnel_names_itself_witness :
  let h := lit "fe80::1" in
  normalize_host h = h /\ count_char (ch ":") h <> 1 /\
  normalize_host (authority_header_value h 8443) = h.
Proof.
  intros h. split; [by vm_compute|]. split; [by vm_compute|].
  exact (proj1 (tunnel_names_itself h 8443 (demo_inner (authority_header_value h 8443))
    {| ctx_target_host := h; ctx_target_port := 8443; ctx_mode := Limited |}
    ltac:(by vm_compute) ltac:(done) ltac:(by vm_compute)
    ltac:(by apply (bool_decide_unpack _); vm_compute)
    ltac:(by apply (bool_decide_unpack _); vm_compute)
    ltac:(by vm_compute) eq_refl eq_refl eq_refl)).
Defined.

(** ** What passes is listed *)

Section Listed.
Context `{GlobsetLaws Glob GlobSet glob_new globset_build glob_match is_match}.
Context {Mitm HostName HeaderMap HeaderValue ProxyAddress : Type} (macos : bool).
Context (mitm_new : bool -> bool -> result str Mitm) (home cwd : option str) (debug : str -> str).
Context (host_display : HostName -> str) (host_eqb : HostName -> HostName -> bool).
Context (header_get : HeaderMap -> str -> option HeaderValue)
        (header_remove : HeaderMap -> str -> HeaderMap)
        (to_str : HeaderValue -> option str) (header_name : str -> option str).
Context (env_proxies : @ProxyConfig ProxyAddress) (canonicalize : str -> option str).
Abbreviation Env := (nat -> Moment GlobSet Mitm).
Abbreviation Request := (HttpRequest HostName HeaderMap).

(** At look n, the lists admit a host under its parsed form: no denied pattern matches
    it, an allowed one does, and if local destinations are not permitted it is listed as
    one or reaches only public addresses. *)
Definition admitted (env : Env) (n : nat) (host : str) (port : N) : Prop :=
  at_moment env n (fun st => exists h, parse_host host = Ok h /\
    ~ host_in glob_new glob_match (default [] (denied_domains (config st))) h /\
    host_in glob_new glob_match (default [] (allowed_domains (config st))) h /\
    (allow_local_binding (config st) = false ->
     if is_local_literal h
     then is_explicit_local_allowlisted (default [] (allowed_domains (config st))) h = true
     else reaches_public (m_lookup (env n)) h port)).

Definition lists_in_force (env : Env) : Prop :=
  forall n st, m_state (env n) = Some st ->
    in_force glob_new globset_build mitm_new home cwd debug st.

Lemma permitted_admitted (request : NetworkPolicyRequest) (env : Env) (i k : nat) :
  lists_in_force env -> permitted is_match false request env i k ->
  admitted env i (req_host request) (req_port request).
Proof using H.
  intros Hf (st & Hst & [[Ha _]|(_ & ? & _)]); [|done]. pose proof (Hf i st Hst) as Hif.
  exists st. split; [done|].
  by apply (decision_means mitm_new home cwd debug (m_lookup (env i)) st _ _ Hif).
Qed.

(** C20: Without a decider, and with lists in force that were compiled from their
    configuration, whatever is let through, a CONNECT, a plain request, a SOCKS5 connection
    or a datagram, goes to a host that the lists admit at one of its looks: no denied
    pattern matches it, an allowed one does, and it is listed as local or reaches only
    public addresses unless local destinations are permitted. The patterns may be any that
    the crate [globset] compiles. *)
Theorem passed_hosts_admitted (env : Env) : lists_in_force env ->
  forall i j out,
  (forall (req : Request) r t m mm,
     run (http_connect_accept is_match host_display false req) env i = (Accepted r t m mm, j, out) ->
     exists ctx n, h_context req = Some ctx /\ t = (target_host ctx, target_port ctx) /\
       admitted env n (normalize_host (host_display (target_host ctx))) (target_port ctx)) /\
  (forall (req : Request) c hs,
     run (http_plain_proxy is_match host_display host_eqb header_get header_remove to_str header_name
            env_proxies false macos home cwd debug canonicalize req) env i = (ViaUpstream c hs, j, out) ->
     exists ctx n, h_context req = Some ctx /\
       admitted env n (normalize_host (host_display (target_host ctx))) (target_port ctx)) /\
  (forall state host port client,
     run (handle_socks5_tcp is_match false state host port client) env i = (inr tt, j, out) ->
     exists n, admitted env n (normalize_host host) port) /\
  (forall host port client payload sent,
     run (inspect_socks5_udp is_match false host port client payload) env i = (inr sent, j, out) ->
     exists n, admitted env n (normalize_host host) port).
Proof using H.
  intros Hf i j out. split_and!.
  - intros req r t m mm (_ & ctx & Hctx & _ & _ & Hr)%connect_reached.
    apply connect_checked_accepted in Hr as (-> & _ & k & Hp & _).
    exists ctx, (S i). split_and!; [done..|]. by apply (permitted_admitted _ _ _ _ Hf) in Hp.
  - intros req c hs (_ & _ & st & ctx & _ & Hctx & _ & _ & Hr)%plain_reached.
    apply plain_checked_forwarded in Hr as (_ & _ & k & Hp & _).
    exists ctx, (S (S i)). split; [done|]. by apply (permitted_admitted _ _ _ _ Hf) in Hp.
  - intros state host port client. unfold handle_socks5_tcp. destruct state; [|done]. cbn [negb].
    destruct (str_eqb _ _); [done|]. intros (_ & (_ & _ & Hp) & _)%guarded_passed.
    exists (S (S i)). by apply (permitted_admitted _ _ _ _ Hf) in Hp.
  - intros host port client payload sent. unfold inspect_socks5_udp. destruct (str_eqb _ _); [done|].
    intros (_ & (_ & _ & Hp) & _)%guarded_passed.
    exists (S (S i)). by apply (permitted_admitted _ _ _ _ Hf) in Hp.
Qed.

End Listed.

(** ** The theorems at a concrete input *)

(** The proxy of the demonstration, switched on, and a CONNECT to a host it lists. *)
Definition demo_on (m : NetworkMode) (interceptor : option unit) : @ConfigState (list str) unit :=
  {| config := {| enabled := true; proxy_url := []; enable_socks5 := true; socks_url := [];
                  enable_socks5_udp := true; allow_upstream_proxy := false;
                  dangerously_allow_non_loopback_proxy := false;
                  dangerously_allow_all_unix_sockets := false; mode := m;
                  domains := domains demo_settings; unix_sockets := None;
                  allow_local_binding := false;
                  mitm := bool_decide (interceptor <> None) |};
     allow_set := allow_set demo_state; deny_set := deny_set demo_state;
     mitm_state := interceptor; constraints := manages_only (lit "**.org"); blocked := [];
     blocked_total := 0 |}.

Definition demo_request : HttpRequest str (list (str * str)) :=
  {| h_state := true; h_method := lit "CONNECT";
     h_context := Some {| authority_host := lit "b.org"; authority_port := Some 443%N;
                          authority_has_default_port := true; target_host := lit "b.org";
                          target_port := 443 |};
     h_client := None; h_unix_socket := None; h_has_scheme := false;
     h_host_header := Some None; h_headers := [] |}.

Lemma passed_hosts_admitted_witness :
  lists_in_force (glob_new := simple_new) (globset_build := simple_build) demo_mitm None None id
    (fun _ => still (demo_on Full None)) /\
  (exists r out, run (http_connect_accept simple_is_match id false demo_request)
     (fun _ => still (demo_on Full None)) 0 = (Accepted r (lit "b.org", 443%N) Full None, 4, out)) /\
  exists n, admitted (Mitm := unit) (glob_new := simple_new) (glob_match := simple_match) (fun _ => still (demo_on Full None)) n (lit "b.org") 443.
Proof.
  assert (lists_in_force (glob_new := simple_new) (globset_build := simple_build) demo_mitm None
    None id (fun _ => still (demo_on Full None))) as Hf.
  { intros n st [= <-]. by vm_compute. }
  assert (exists r out, run (http_connect_accept simple_is_match id false demo_request)
     (fun _ => still (demo_on Full None)) 0 = (Accepted r (lit "b.org", 443%N) Full None, 4, out))
    as (r & out & Hr) by (eexists _, _; by vm_compute).
  split; [exact Hf|]. split; [by exists r, out|].
  destruct (proj1 (passed_hosts_admitted (HeaderValue := str) (ProxyAddress := str) true demo_mitm
    None None id id str_eqb line_get line_remove Some line_name default_proxy_config Some _ Hf 0 4 out)
    demo_request r _ _ _ Hr) as (ctx & n & [= <-] & _ & Ha).
  by exists n.
Defined.

Lemma limited_mode_reads_only_witness :
  exists r out, run (http_connect_accept simple_is_match id false demo_request)
    (fun _ => still (demo_on Limited (Some tt))) 0
    = (Accepted r (lit "b.org", 443%N) Limited (Some tt), 4, out) /\
  exists interceptor, Some tt = Some interceptor.
Proof.
  eexists _, _. split; [by vm_compute|].
  destruct (limited_mode_reads_only (HeaderValue := str) (ProxyAddress := str) simple_is_match false
    true id str_eqb line_get line_remove Some line_name default_proxy_config None None id Some
    (fun _ => true) (fun _ => true) (fun _ => still (demo_on Limited (Some tt)))
    ltac:(by intros n st [= <-]) 0 4
    [Audited (decision_event (connect_request (lit "b.org") 443 None) Allow false)])
    as (_ & _ & _ & _ & Hc).
  destruct (Hc demo_request ok_response (lit "b.org", 443%N) Limited (Some tt) ltac:(by vm_compute))
    as (interceptor & E & _).
  by exists interceptor.
Defined.

Lemma decider_overrides_only_unlisted_witness :
  let request host := connect_request host 443 None in
  let env (_ : nat) := still demo_state in
  host_blocked simple_is_match demo_lookup demo_state (lit "a.org") 443 = Blocked Denied /\
  exists d j e, run (evaluate_host_policy simple_is_match true (request (lit "a.org"))) env 0
                = (Some d, j, [Audited e]) /\ d = Deny (lit "denied") BaselinePolicy PolicyDeny.
Proof.
  intros request env. split; [by vm_compute|].
  destruct (decider_overrides_only_unlisted simple_is_match true (request (lit "a.org")) env 0
              demo_state eq_refl) as (d & j & e & Hr & _ & Hd & _).
  exists d, j, e. split; [exact Hr|]. apply (Hd Denied); [by vm_compute|done].
Defined.

(** The proxy of the demonstration is switched off. *)
Lemma refusals_recorded_witness :
  exists r out, run (http_connect_accept simple_is_match id false demo_request)
     (fun _ => still demo_state) 0 = (Refused r, 2, out) /\ status r = 503%N /\
  (records out = [] \/ exists ctx reason, h_context demo_request = Some ctx /\ says r reason).
Proof.
  eexists _, _. split; [by vm_compute|]. split; [done|].
  destruct (proj1 (refusals_recorded (HeaderValue := str) (ProxyAddress := str) simple_is_match
    false true id str_eqb line_get line_remove Some line_name default_proxy_config None None id Some
    (fun _ => still demo_state) 0 2 _) demo_request _ (or_introl eq_refl))
    as [[_ H]|[_ (ctx & reason & Hc & Hs & _)]]; [by left|].
  right. by exists ctx, reason.
Defined.

End NetEgressFacts.
