(* ===== verification/ShellBash.v ===== *)
(** * Shell invocations: src/shell-command/src/{shell_detect,bash}.rs

    Which shell a command runs, and the plain commands of a script: those of a
    script that holds nothing but words, quoted strings and the operators
    [&&], [||], [;] and [|]. The grammar is that of Tree-sitter: the function
    that parses a script is a parameter of the section [Parse], and a tree is
    what the source asks of its nodes. *)

From Stdlib Require Import Ascii String.
From S2P Require Import Prelude RustStr Utf8 AbsPath.
Import Utf8 AbsPath.

Module ShellBash.

(** ** shell_detect.rs *)

Inductive ShellType := Zsh | Bash | PowerShell | Sh | Cmd.

#[export] Instance ShellType_eq_dec : EqDecision ShellType.
Proof. solve_decision. Defined.

(** The first arms of the [match]. *)
Definition shell_of_name (name : str) : option ShellType :=
  if str_eqb name (lit "zsh") then Some Zsh
  else if str_eqb name (lit "sh") then Some Sh
  else if str_eqb name (lit "cmd") then Some Cmd
  else if str_eqb name (lit "bash") then Some Bash
  else if str_eqb name (lit "pwsh") then Some PowerShell
  else if str_eqb name (lit "powershell") then Some PowerShell
  else None.

(** The recursion goes from a path to its stem, which is shorter. *)
Fixpoint detect_fuel (fuel : nat) (shell_path : str) : option ShellType :=
  match shell_of_name shell_path with
  | Some shell => Some shell
  | None =>
      match fuel, file_stem shell_path with
      | S fuel, Some shell_name =>
          if bool_decide (components shell_name = components shell_path) then None
          else detect_fuel fuel shell_name
      | _, _ => None
      end
  end.

Definition detect_shell_type (shell_path : str) : option ShellType :=
  detect_fuel (length shell_path) shell_path.

(** ** Syntax trees

    Of a node of Tree-sitter the source uses its kind, whether it is named, the
    range of bytes it covers and its children; of a tree its root and whether
    parsing met an error. *)

Inductive Node :=
| mk_node (kind : str) (is_named : bool) (start_byte end_byte : nat) (children : list Node).

Definition kind (n : Node) : str := let '(mk_node k _ _ _ _) := n in k.
Definition is_named (n : Node) : bool := let '(mk_node _ b _ _ _) := n in b.
Definition start_byte (n : Node) : nat := let '(mk_node _ _ s _ _) := n in s.
Definition end_byte (n : Node) : nat := let '(mk_node _ _ _ e _) := n in e.
Definition children (n : Node) : list Node := let '(mk_node _ _ _ _ cs) := n in cs.

Definition named_children (n : Node) : list Node := List.filter is_named (children n).

Record Tree := { root_node : Node; has_error : bool }.

Fixpoint size (n : Node) : nat := S (sum_list (map size (children n))).

Definition sizes (ns : list Node) : nat := sum_list (map size ns).

(** [Node::utf8_text]: the bytes the node covers, decoded. *)
Definition utf8_text (n : Node) (src : str) : option str :=
  match slice (start_byte n) (end_byte n) (encode src) with
  | Some bytes => from_utf8 bytes
  | None => None
  end.

Definition is_kind (k : string) (n : Node) : bool := str_eqb (kind n) (lit k).

Definition kind_in (ks : list string) (n : Node) : bool := one_of (map lit ks) (kind n).

(** ** bash.rs: what a plain script may hold *)

Definition ALLOWED_KINDS : list string :=
  ["program"; "list"; "pipeline"; "command"; "command_name"; "word"; "string";
   "string_content"; "raw_string"; "number"; "concatenation"]%string.

(** The double quote is written by its code. *)
Definition ALLOWED_PUNCT_TOKENS : list str :=
  [lit "&&"; lit "||"; lit ";"; lit "|"; [34%N]; lit "'"].

Definition allowed_punct (n : Node) : bool :=
  one_of ALLOWED_PUNCT_TOKENS (kind n).

Definition node_allowed (n : Node) : bool :=
  if is_named n then kind_in ALLOWED_KINDS n
  else if existsb (fun c => contains_char c (lit "&;|")) (kind n) && negb (allowed_punct n)
       then false
  else allowed_punct n || str_eqb (trim (kind n)) [].

Definition is_command (n : Node) : bool := is_named n && is_kind "command" n.

(** The loop [while let Some(node) = stack.pop()]; the top of the stack is the
    head of the list. *)
Fixpoint collect_commands (fuel : nat) (stack command_nodes : list Node)
    : option (list Node) :=
  match fuel with
  | 0 => None
  | S fuel =>
      match stack with
      | [] => Some command_nodes
      | node :: stack =>
          if negb (node_allowed node) then None
          else collect_commands fuel (rev (children node) ++ stack)
                 (if is_command node then command_nodes ++ [node] else command_nodes)
      end
  end.

(** ** bash.rs: the words of a command *)

Definition parse_double_quoted_string (n : Node) (src : str) : option str :=
  if negb (is_kind "string" n) then None
  else if negb (forallb (is_kind "string_content") (named_children n)) then None
  else raw ← utf8_text n src;
       text ← strip_prefix [34%N] raw;
       strip_suffix [34%N] text.

Definition parse_raw_string (n : Node) (src : str) : option str :=
  if negb (is_kind "raw_string" n) then None
  else raw_string ← utf8_text n src;
       s ← strip_prefix (lit "'") raw_string;
       strip_suffix (lit "'") s.

(** What a word, a number or a quoted string stands for, alone or in a
    concatenation. *)
Definition parse_part (part : Node) (src : str) : option str :=
  if kind_in ["word"; "number"]%string part then utf8_text part src
  else if is_kind "string" part then parse_double_quoted_string part src
  else if is_kind "raw_string" part then parse_raw_string part src
  else None.

Definition parse_plain_child (child : Node) (src : str) : option str :=
  if is_kind "command_name" child then
    word_node ← head (named_children child);
    if is_kind "word" word_node then utf8_text word_node src else None
  else if is_kind "concatenation" child then
    parts ← mapM (fun part => parse_part part src) (named_children child);
    let concatenated := concat parts in
    if str_eqb concatenated [] then None else Some concatenated
  else parse_part child src.

Definition parse_plain_command_from_node (cmd : Node) (src : str) : option (list str) :=
  if negb (is_kind "command" cmd) then None
  else mapM (fun child => parse_plain_child child src) (named_children cmd).

Definition try_parse_word_only_commands_sequence (tree : Tree) (src : str)
    : option (list (list str)) :=
  if has_error tree then None
  else
    let root := root_node tree in
    command_nodes ← collect_commands (S (size root)) [root] [];
    mapM (fun node => parse_plain_command_from_node node src)
      (sort_by_key start_byte command_nodes).

(** ** bash.rs: one command with a here-document *)

Definition is_literal_word_or_number (n : Node) : bool :=
  if negb (kind_in ["word"; "number"]%string n) then false
  else match named_children n with [] => true | _ => false end.

Definition is_allowed_heredoc_attachment_kind (n : Node) : bool :=
  kind_in ["heredoc_body"; "simple_heredoc_body"; "heredoc_redirect";
           "herestring_redirect"; "file_redirect"; "redirected_statement"]%string n.

(** The word of a child, [Some None] when it adds none. *)
Definition parse_heredoc_child (child : Node) (src : str) : option (option str) :=
  if is_kind "command_name" child then
    word_node ← head (named_children child);
    if negb (kind_in ["word"; "number"]%string word_node)
       || negb (is_literal_word_or_number word_node) then None
    else Some <$> utf8_text word_node src
  else if kind_in ["word"; "number"]%string child then
    if negb (is_literal_word_or_number child) then None
    else Some <$> utf8_text child src
  else if kind_in ["variable_assignment"; "comment"]%string child then Some None
  else if is_allowed_heredoc_attachment_kind child then Some None
  else None.

Definition parse_heredoc_command_words (cmd : Node) (src : str) : option (list str) :=
  if negb (is_kind "command" cmd) then None
  else words ← mapM (fun child => parse_heredoc_child child src) (named_children cmd);
       match omap id words with
       | [] => None
       | words => Some words
       end.

(** The two loops over the named nodes. *)
Fixpoint find_single_command (fuel : nat) (stack : list Node) (single_command : option Node)
    : option Node :=
  match fuel with
  | 0 => None
  | S fuel =>
      match stack with
      | [] => single_command
      | node :: stack =>
          let stack := rev (named_children node) ++ stack in
          if is_kind "command" node then
            match single_command with
            | Some _ => None
            | None => find_single_command fuel stack (Some node)
            end
          else find_single_command fuel stack single_command
      end
  end.

Definition find_single_command_node (root : Node) : option Node :=
  find_single_command (S (size root)) [root] None.

Fixpoint has_named_descendant (fuel : nat) (stack : list Node) (k : string) : bool :=
  match fuel with
  | 0 => false
  | S fuel =>
      match stack with
      | [] => false
      | current :: stack =>
          if is_kind k current then true
          else has_named_descendant fuel (rev (named_children current) ++ stack) k
      end
  end.

Definition has_named_descendant_kind (n : Node) (k : string) : bool :=
  has_named_descendant (S (size n)) [n] k.

(** ** bash.rs: from the command line *)

Definition extract_bash_command (command : list str) : option (str * str) :=
  match command with
  | [shell; flag; script] =>
      if negb (str_eqb flag (lit "-lc") || str_eqb flag (lit "-c"))
         || negb (match detect_shell_type shell with
                  | Some (Zsh | Bash | Sh) => true
                  | _ => false
                  end)
      then None
      else Some (shell, script)
  | _ => None
  end.

Section Parse.
Context (try_parse_shell : str -> option Tree).

Definition parse_shell_lc_plain_commands (command : list str) : option (list (list str)) :=
  '(_, script) ← extract_bash_command command;
  tree ← try_parse_shell script;
  try_parse_word_only_commands_sequence tree script.

Definition parse_shell_lc_single_command_prefix (command : list str) : option (list str) :=
  '(_, script) ← extract_bash_command command;
  tree ← try_parse_shell script;
  let root := root_node tree in
  if has_error tree then None
  else if negb (has_named_descendant_kind root "heredoc_redirect") then None
  else command_node ← find_single_command_node root;
       parse_heredoc_command_words command_node script.

End Parse.

End ShellBash.

(** * Facts about shell invocations

    The recursion of the shell detection ends and reads the name of the shell up
    to a dot; the loops over a syntax tree visit each node once, so a script is
    plain exactly when every node of its tree is allowed, and its commands come
    in the order of the script. *)

Import Utf8 AbsPath ShellBash.

Module ShellBashFacts.

(** ** Names of shells *)

Lemma split_on_piece (c : char) (s p : str) :
  p ∈ split_on c s -> length p <= length s /\ (length p = length s -> p = s).
Proof.
  revert p. induction s as [|x s IH]; intros p; simpl.
  { intros ->%list_elem_of_singleton. done. }
  destruct (split_on c s) as [|q qs] eqn:Hs; [by destruct (split_on_ne c s)|].
  destruct (N.eqb x c); rewrite elem_of_cons; intros [->|Hp]; simpl.
  - split; [lia|done].
  - apply IH in Hp as [? ?]. lia.
  - destruct (IH q) as [? Hq]; [by left|]. split; [lia|]. intros. f_equal. apply Hq. lia.
  - destruct (IH p) as [? ?]; [by right|]. lia.
Qed.

Lemma file_name_of_piece (path name : str) :
  file_name path = Some name -> name ∈ split_on SLASH path.
Proof.
  unfold file_name. intros H. case_match eqn:Hl; [|done].
  destruct c; simplify_eq/=. apply last_Some_elem_of in Hl. revert Hl.
  unfold components. rewrite elem_of_app. intros [Hl|Hl].
  - exfalso. revert Hl. repeat case_match; set_solver.
  - apply list_elem_of_omap in Hl as (piece & Hp & Hc). unfold component_of in Hc.
    repeat case_match; by simplify_eq.
Qed.

Lemma file_name_no_slash (path name : str) : file_name path = Some name -> SLASH ∉ name.
Proof.
  intros H%file_name_of_piece. pose proof (split_on_no_sep SLASH path) as Hs.
  rewrite Forall_forall in Hs. by apply Hs.
Qed.

Lemma file_name_itself (path name : str) :
  file_name path = Some name -> SLASH ∉ path -> name = path.
Proof.
  intros Hn%file_name_of_piece Hs. rewrite split_on_single in Hn by done.
  by apply list_elem_of_singleton in Hn.
Qed.

Lemma file_name_piece (path name : str) :
  file_name path = Some name ->
  length name <= length path /\ (length name = length path -> name = path).
Proof. intros H%file_name_of_piece. by apply split_on_piece in H. Qed.

(** What is left of a name without one extension. *)
Definition extension_of (name stem : str) : Prop :=
  name = stem \/ exists ext, name = stem ++ 46%N :: ext.

Lemma file_stem_extension (path stem : str) :
  file_stem path = Some stem ->
  exists name, file_name path = Some name /\ extension_of name stem.
Proof.
  unfold file_stem, extension_of. intros H. case_match; [|done].
  eexists; split; [done|]. repeat case_match; simplify_eq/=; try by left.
  right. eexists. by apply rsplit_once_Some.
Qed.

Lemma file_stem_shorter (path stem : str) :
  file_stem path = Some stem -> components stem <> components path ->
  length stem < length path.
Proof.
  intros (name & Hn & Hext)%file_stem_extension Hne.
  apply file_name_piece in Hn as [Hle Heq].
  destruct Hext as [<-|[ext ->]].
  - destruct (decide (length name = length path)) as [E|E]; [|lia].
    destruct Hne. by rewrite (Heq E).
  - rewrite length_app in Hle. simpl in Hle. lia.
Qed.

Lemma detect_fuel_enough (fuel : nat) (path : str) :
  length path <= fuel -> detect_fuel fuel path = detect_shell_type path.
Proof.
  unfold detect_shell_type. revert path.
  enough (H : forall n fuel path, length path <= n -> n <= fuel ->
            detect_fuel fuel path = detect_fuel n path) by (intros path ?; by apply H).
  induction n as [|n IH]; intros [|f] path Hl Hf; simpl; try done; try lia.
  - destruct path; [|simpl in Hl; lia]. by case_match.
  - case_match; [done|]. destruct (file_stem path) as [stem|] eqn:Hs; [|done].
    case_bool_decide as Hc; [done|]. pose proof (file_stem_shorter _ _ Hs Hc).
    apply IH; lia.
Qed.

(** The recursion equation of the source. *)
Lemma detect_shell_type_unfold (path : str) :
  detect_shell_type path =
    match shell_of_name path with
    | Some shell => Some shell
    | None =>
        match file_stem path with
        | Some shell_name =>
            if bool_decide (components shell_name = components path) then None
            else detect_shell_type shell_name
        | None => None
        end
    end.
Proof.
  rewrite <- (detect_fuel_enough (S (length path))) by lia. simpl.
  case_match; [done|]. destruct (file_stem path) as [stem|] eqn:Hs; [|done].
  case_bool_decide as Hc; [done|]. apply detect_fuel_enough.
  pose proof (file_stem_shorter _ _ Hs Hc). lia.
Qed.

(** [path] ends in the component [base], perhaps followed by a dot and more. *)
Definition named_like (path base : str) : Prop :=
  exists name, file_name path = Some name /\ extension_of name base.

Lemma extension_of_trans (a b c : str) : extension_of a b -> extension_of b c -> extension_of a c.
Proof.
  intros [->|[x ->]] [->|[y ->]]; [by left|right; by eexists..|].
  right. exists (y ++ 46%N :: x). by rewrite <- app_assoc.
Qed.

Lemma extension_no_slash (name base : str) :
  extension_of name base -> SLASH ∉ name -> SLASH ∉ base.
Proof. intros [->|[ext ->]]; [done|]. rewrite elem_of_app. tauto. Qed.

(** The shell that is detected is that of the file name, or of the file name up to
    one of its dots. *)
Lemma detect_named (path : str) (shell : ShellType) :
  detect_shell_type path = Some shell ->
  shell_of_name path = Some shell
  \/ exists base, named_like path base /\ shell_of_name base = Some shell.
Proof.
  remember (length path) as n eqn:Hn. revert path Hn.
  induction (lt_wf n) as [n _ IH]. intros path -> H.
  rewrite detect_shell_type_unfold in H. case_match; [by left|].
  destruct (file_stem path) as [stem|] eqn:Hs; [|done]. case_bool_decide as Hc; [done|].
  pose proof (file_stem_shorter _ _ Hs Hc). right.
  apply file_stem_extension in Hs as (name & Hname & Hext).
  destruct (IH _ ltac:(done) stem eq_refl H) as [Hsh|(base & (m & Hm & Hext') & Hsh)].
  - exists stem. split; [by exists name|done].
  - exists base. split; [|done]. exists name. split; [done|].
    apply file_name_itself in Hm as ->; [by eapply extension_of_trans|].
    eapply extension_no_slash; [done|]. by eapply file_name_no_slash.
Qed.

Lemma extract_bash_command_Some (command : list str) (shell script : str) :
  extract_bash_command command = Some (shell, script) <->
  exists flag, command = [shell; flag; script]
    /\ (flag = lit "-lc" \/ flag = lit "-c")
    /\ detect_shell_type shell ∈ [Some Zsh; Some Bash; Some Sh].
Proof.
  destruct command as [|a [|b [|c [|? ?]]]]; try (split; [done|naive_solver]).
  unfold extract_bash_command.
  assert (Hflag : str_eqb b (lit "-lc") || str_eqb b (lit "-c") = true
                  <-> b = lit "-lc" \/ b = lit "-c") by (rewrite orb_true_iff, !str_eqb_eq; done).
  destruct (str_eqb b (lit "-lc") || str_eqb b (lit "-c")); simpl.
  - destruct (detect_shell_type a) as [[]|] eqn:Hd; simpl;
      (split; [intros; simplify_eq; exists b; rewrite Hd; set_solver|]);
      intros (flag & ? & ? & Hs); simplify_eq; rewrite ?Hd in *; set_solver.
  - split; [done|]. intros (flag & ? & Hf & _). simplify_eq. by apply Hflag in Hf.
Qed.

End ShellBashFacts.
