(* ===== verification/ShellScriptFacts.v ===== *)
(** * Facts about the commands of a script

    The two orders in which a tree is visited, what the loops over the tree
    compute, and the commands of a plain script. *)

From Stdlib Require Import Ascii String.
From stdpp Require Import sorting.
From S2P Require Import Prelude RustStr Utf8 ShellBash.
Import Utf8 ShellBash ShellBashFacts.

Module ShellScriptFacts.

(** ** Trees *)

Fixpoint preorder (n : Node) : list Node := n :: concat (map preorder (children n)).

(** The order of a stack: the last child first. *)
Fixpoint visit (n : Node) : list Node := n :: concat (rev (map visit (children n))).

Lemma Node_induction (P : Node -> Prop) :
  (forall n, Forall P (children n) -> P n) -> forall n, P n.
Proof.
  intros Hstep. fix rec 1. intros [k b s e cs]. apply Hstep. simpl.
  induction cs as [|c cs IH]; constructor; [apply rec|apply IH].
Qed.

Lemma concat_perm {A} (ls ks : list (list A)) :
  Forall2 Permutation ls ks -> Permutation (concat ls) (concat ks).
Proof. induction 1; simpl; [done|]. by apply Permutation_app. Qed.

Lemma concat_rev_perm {A} (ls : list (list A)) : Permutation (concat (rev ls)) (concat ls).
Proof.
  induction ls as [|l ls IH]; simpl; [done|].
  rewrite concat_app, IH. simpl. rewrite app_nil_r. apply Permutation_app_comm.
Qed.

Lemma visit_preorder (n : Node) : Permutation (visit n) (preorder n).
Proof.
  induction n as [n IH] using Node_induction. destruct n as [k b s e cs]; simpl in *.
  constructor. rewrite concat_rev_perm. apply concat_perm.
  induction IH; simpl; by constructor.
Qed.

Lemma size_children (n : Node) : size n = S (sizes (children n)).
Proof. by destruct n. Qed.

Lemma visit_children (n : Node) : visit n = n :: concat (map visit (rev (children n))).
Proof. destruct n; simpl. by rewrite map_rev. Qed.

Lemma sizes_app (ns ms : list Node) : sizes (ns ++ ms) = sizes ns + sizes ms.
Proof. induction ns as [|n ns IH]; [done|]. unfold sizes in *. simpl. lia. Qed.

Lemma sizes_rev (ns : list Node) : sizes (rev ns) = sizes ns.
Proof.
  induction ns as [|n ns IH]; simpl; [done|]. rewrite sizes_app, IH. unfold sizes. simpl. lia.
Qed.

Lemma sizes_pushed (n : Node) (stack : list Node) :
  sizes (n :: stack) = S (sizes (rev (children n) ++ stack)).
Proof.
  rewrite sizes_app, sizes_rev. unfold sizes at 1. simpl. by rewrite size_children.
Qed.

(** ** The loop over all nodes *)

Lemma collect_commands_spec (fuel : nat) (stack cmds : list Node) :
  sizes stack < fuel ->
  collect_commands fuel stack cmds =
    (let visited := concat (map visit stack) in
     if forallb node_allowed visited then Some (cmds ++ List.filter is_command visited) else None).
Proof.
  revert stack cmds. induction fuel as [|fuel IH]; intros [|n stack] cmds Hf; try lia.
  - simpl. by rewrite app_nil_r.
  - rewrite sizes_pushed in Hf. cbn [collect_commands map concat].
    rewrite visit_children. simpl. destruct (node_allowed n) eqn:Ha; simpl; [|done].
    rewrite IH by lia. rewrite map_app, concat_app. simpl.
    case_match; [|done]. f_equal. destruct (is_command n); [|done]. by rewrite <- app_assoc.
Qed.

(** ** Sorting by position *)

Definition starts_le (n m : Node) : Prop := start_byte n <= start_byte m.
Definition starts_lt (n m : Node) : Prop := start_byte n < start_byte m.

(** There is one order of nodes that start at different places. *)
Lemma sorted_strict_unique (ns ms : list Node) :
  StronglySorted starts_lt ns -> StronglySorted starts_le ms -> Permutation ms ns -> ms = ns.
Proof.
  intros Hn. revert ms. induction Hn as [|n ns Hns IH Hhd]; intros ms Hm Hp.
  { symmetry in Hp. by apply Permutation_nil in Hp. }
  destruct Hm as [|m ms Hms Hmhd]; [by apply Permutation.Permutation_nil_cons in Hp|].
  assert (n = m) as <-.
  { assert (Hin : n ∈ m :: ms) by (rewrite Hp; by left).
    assert (Hin' : m ∈ n :: ns) by (rewrite <- Hp; by left).
    apply elem_of_cons in Hin as [|Hin]; [done|]. apply elem_of_cons in Hin' as [|Hin']; [done|].
    rewrite Forall_forall in Hhd, Hmhd. apply Hhd in Hin'. apply Hmhd in Hin.
    unfold starts_lt, starts_le in *. lia. }
  f_equal. apply IH; [done|]. by apply Permutation_cons_inv in Hp.
Qed.

(** ** Plain scripts *)

Definition all_allowed (root : Node) : Prop :=
  Forall (fun n => node_allowed n = true) (preorder root).

Definition commands_of (root : Node) : list Node := List.filter is_command (preorder root).

Lemma filter_perm {A} (f : A -> bool) (l k : list A) :
  Permutation l k -> Permutation (List.filter f l) (List.filter f k).
Proof.
  induction 1; simpl; repeat case_match; try done.
  - by constructor.
  - constructor.
  - by etransitivity.
Qed.

(** What the whole function computes, before the words are read. *)
Lemma command_nodes_spec (root : Node) :
  collect_commands (S (size root)) [root] [] =
    (if bool_decide (all_allowed root) then Some (List.filter is_command (visit root)) else None).
Proof.
  rewrite collect_commands_spec by (unfold sizes; simpl; lia). simpl. rewrite app_nil_r.
  case_bool_decide as H; unfold all_allowed in H; rewrite <- visit_preorder, <- forallb_Forall in H;
    destruct (forallb node_allowed (visit root)); naive_solver.
Qed.

Lemma sequence_spec (tree : Tree) (src : str) (cmds : list (list str)) :
  try_parse_word_only_commands_sequence tree src = Some cmds <->
  has_error tree = false /\ all_allowed (root_node tree)
  /\ Forall2 (fun n ws => parse_plain_command_from_node n src = Some ws)
       (sort_by_key start_byte (List.filter is_command (visit (root_node tree)))) cmds.
Proof.
  unfold try_parse_word_only_commands_sequence. rewrite command_nodes_spec.
  destruct (has_error tree); [naive_solver|].
  case_bool_decide; simpl; [|naive_solver]. rewrite mapM_Some. naive_solver.
Qed.

(** The commands start one after the other, as those of a parsed script do. *)
Definition in_order (root : Node) : Prop := StronglySorted starts_lt (commands_of root).

Lemma sorted_commands (root : Node) :
  in_order root -> sort_by_key start_byte (List.filter is_command (visit root)) = commands_of root.
Proof.
  intros Ho. apply sorted_strict_unique; [done|apply sort_by_key_sorted|].
  rewrite sort_by_key_perm. apply filter_perm, visit_preorder.
Qed.

(** A script is accepted exactly when its tree has no error and only allowed nodes, and
    each of its commands can be read; the commands come in the order of the script. *)
Theorem plain_script_commands (tree : Tree) (src : str) (cmds : list (list str)) :
  in_order (root_node tree) ->
  try_parse_word_only_commands_sequence tree src = Some cmds <->
  has_error tree = false /\ all_allowed (root_node tree)
  /\ Forall2 (fun n ws => parse_plain_command_from_node n src = Some ws)
       (commands_of (root_node tree)) cmds.
Proof. intros Ho. by rewrite sequence_spec, sorted_commands. Qed.

(** In any tree, the commands that are read are those of the tree. *)
Lemma plain_commands_of (tree : Tree) (src : str) (cmds : list (list str)) (ws : list str) :
  try_parse_word_only_commands_sequence tree src = Some cmds ->
  ws ∈ cmds <-> exists n, n ∈ commands_of (root_node tree)
                  /\ parse_plain_command_from_node n src = Some ws.
Proof.
  intros (_ & _ & Hall)%sequence_spec.
  assert (Hperm : forall n, n ∈ sort_by_key start_byte (List.filter is_command (visit (root_node tree)))
                       <-> n ∈ commands_of (root_node tree)).
  { intros n. by rewrite sort_by_key_perm, (filter_perm _ _ _ (visit_preorder _)). }
  split.
  - intros Hw. apply list_elem_of_lookup in Hw as [i Hi].
    destruct (Forall2_lookup_r _ _ _ _ _ Hall Hi) as (n & Hn & Hp).
    exists n. split; [|done]. apply Hperm. by eapply list_elem_of_lookup_2.
  - intros (n & Hn & Hp). apply Hperm, list_elem_of_lookup in Hn as [i Hi].
    destruct (Forall2_lookup_l _ _ _ _ _ Hall Hi) as (ws' & Hw & Hp').
    simplify_eq. by eapply list_elem_of_lookup_2.
Qed.

(** ** Words *)

Definition script_text (src w : str) : Prop :=
  exists lo hi bytes, slice lo hi (encode src) = Some bytes /\ from_utf8 bytes = Some w.

(** A stretch of the script, or what stands in it between two quotes. *)
Definition piece_of_script (src w : str) : Prop :=
  script_text src w \/ script_text src (34%N :: w ++ [34%N])
  \/ script_text src (39%N :: w ++ [39%N]).

Definition word_of_script (src w : str) : Prop :=
  exists pieces, Forall (piece_of_script src) pieces /\ w = concat pieces.

Lemma utf8_text_script (n : Node) (src w : str) : utf8_text n src = Some w -> script_text src w.
Proof. unfold utf8_text. intros H. case_match; [|done]. by repeat eexists. Qed.

Lemma stripped (p : char) (raw w : str) :
  (text ← strip_prefix [p] raw; strip_suffix [p] text) = Some w -> raw = p :: w ++ [p].
Proof.
  intros H. apply bind_Some in H as (text & Hp & Hs).
  apply strip_prefix_Some in Hp as ->. by apply strip_suffix_Some in Hs as ->.
Qed.

Lemma parse_part_piece (n : Node) (src w : str) :
  parse_part n src = Some w -> piece_of_script src w.
Proof.
  unfold parse_part, parse_double_quoted_string, parse_raw_string, piece_of_script.
  intros H. repeat (case_match; try done).
  - left. by eapply utf8_text_script.
  - apply bind_Some in H as (raw & Hr & Hs%stripped). subst raw. right; left.
    by eapply utf8_text_script.
  - apply bind_Some in H as (raw & Hr & Hs%stripped). subst raw. right; right.
    by eapply utf8_text_script.
Qed.

Lemma piece_word (src w : str) : piece_of_script src w -> word_of_script src w.
Proof. intros H. exists [w]. split; [by apply Forall_singleton|].
  simpl. by rewrite app_nil_r. Qed.

Lemma plain_child_word (n : Node) (src w : str) :
  parse_plain_child n src = Some w -> word_of_script src w.
Proof.
  unfold parse_plain_child. intros H. repeat (case_match; try done).
  - apply bind_Some in H as (word & _ & Hw). case_match; [|done].
    apply piece_word. left. by eapply utf8_text_script.
  - apply bind_Some in H as (parts & Hp & Hw). simpl in Hw. case_match; [done|].
    simplify_eq. exists parts. split; [|done]. apply mapM_Some in Hp.
    clear -Hp. induction Hp; constructor; [by eapply parse_part_piece|done].
  - apply piece_word. by eapply parse_part_piece.
Qed.

(** Every word of every command is spelled out in the script: it is put together from
    stretches of it, with the quotes around them taken off. *)
Theorem words_spelled_out (tree : Tree) (src : str) (cmds : list (list str)) :
  try_parse_word_only_commands_sequence tree src = Some cmds ->
  Forall (Forall (word_of_script src)) cmds.
Proof.
  intros (_ & _ & Hall)%sequence_spec. induction Hall as [|n ws ns cmds Hp _ IH]; constructor; [|done].
  unfold parse_plain_command_from_node in Hp. case_match; [done|]. apply mapM_Some in Hp.
  clear -Hp. induction Hp; constructor; [by eapply plain_child_word|done].
Qed.

(** ** Here-documents *)

(** The named nodes below a node, in the order of the stack. *)
Fixpoint named_visit (n : Node) : list Node :=
  n :: concat (rev (map (fun c => if is_named c then named_visit c else []) (children n))).

Lemma named_visit_children (n : Node) :
  named_visit n = n :: concat (map named_visit (rev (named_children n))).
Proof.
  destruct n as [k b s e cs]; unfold named_children; simpl. f_equal.
  induction cs as [|c cs IH]; simpl; [done|].
  rewrite concat_app, IH. simpl. rewrite app_nil_r.
  destruct (is_named c); simpl; [|by rewrite app_nil_r].
  rewrite map_app, concat_app. simpl. by rewrite app_nil_r.
Qed.

Lemma named_sizes (ns : list Node) : sizes (List.filter is_named ns) <= sizes ns.
Proof.
  unfold sizes. induction ns as [|n ns IH]; simpl; [done|]. case_match; simpl; lia.
Qed.

Lemma named_pushed (n : Node) (stack : list Node) :
  sizes (rev (named_children n) ++ stack) < sizes (n :: stack).
Proof.
  rewrite (sizes_pushed n stack), !sizes_app, !sizes_rev. pose proof (named_sizes (children n)).
  unfold named_children. lia.
Qed.

Lemma find_single_command_spec (fuel : nat) (stack : list Node) (single : option Node) :
  sizes stack < fuel ->
  find_single_command fuel stack single =
    match single, List.filter (is_kind "command") (concat (map named_visit stack)) with
    | None, [] => None
    | None, [n] => Some n
    | Some n, [] => Some n
    | _, _ => None
    end.
Proof.
  revert stack single. induction fuel as [|fuel IH]; intros [|n stack] single Hf; try lia.
  { by destruct single. }
  pose proof (named_pushed n stack). cbn [find_single_command map concat].
  rewrite named_visit_children. simpl. destruct (is_kind "command" n) eqn:Hk; simpl.
  - destruct single; [done|]. rewrite IH by lia. rewrite map_app, concat_app.
    simpl. by case_match.
  - rewrite IH by lia. by rewrite map_app, concat_app.
Qed.

(** The one command of a tree is found when there is one, and only then. *)
Lemma find_single_command_node_spec (root n : Node) :
  find_single_command_node root = Some n <->
  List.filter (is_kind "command") (named_visit root) = [n].
Proof.
  unfold find_single_command_node.
  rewrite find_single_command_spec by (unfold sizes; simpl; lia). simpl.
  rewrite app_nil_r. repeat case_match; naive_solver.
Qed.

Lemma has_named_descendant_spec (fuel : nat) (stack : list Node) (k : string) :
  sizes stack < fuel ->
  has_named_descendant fuel stack k = existsb (is_kind k) (concat (map named_visit stack)).
Proof.
  revert stack. induction fuel as [|fuel IH]; intros [|n stack] Hf; try lia; [done|].
  pose proof (named_pushed n stack). cbn [has_named_descendant map concat].
  rewrite named_visit_children. simpl. destruct (is_kind k n); simpl; [done|].
  rewrite IH by lia. by rewrite map_app, concat_app.
Qed.

Lemma has_named_descendant_kind_spec (root : Node) (k : string) :
  has_named_descendant_kind root k = existsb (is_kind k) (named_visit root).
Proof.
  unfold has_named_descendant_kind.
  rewrite has_named_descendant_spec by (unfold sizes; simpl; lia). simpl. by rewrite app_nil_r.
Qed.

(** ** A script to try the theorems on *)

Definition demo_script : str := lit "ls && wc -l".

Definition demo_word (a b : nat) : Node := mk_node (lit "word") true a b [].

Definition demo_tree : Tree := {|
  root_node := mk_node (lit "program") true 0 11
    [mk_node (lit "list") true 0 11
       [mk_node (lit "command") true 0 2 [mk_node (lit "command_name") true 0 2 [demo_word 0 2]];
        mk_node (lit "&&") false 3 5 [];
        mk_node (lit "command") true 6 11
          [mk_node (lit "command_name") true 6 8 [demo_word 6 8]; demo_word 9 11]]];
  has_error := false;
|}.

Lemma demo_tree_commands :
  try_parse_word_only_commands_sequence demo_tree demo_script
  = Some [[lit "ls"]; [lit "wc"; lit "-l"]].
Proof. by vm_compute. Qed.

Lemma plain_script_commands_witness :
  all_allowed (root_node demo_tree)
  /\ Forall2 (fun n ws => parse_plain_command_from_node n demo_script = Some ws)
       (commands_of (root_node demo_tree)) [[lit "ls"]; [lit "wc"; lit "-l"]].
Proof.
  refine (proj2 (proj1 (plain_script_commands demo_tree demo_script _ _) demo_tree_commands)).
  repeat constructor.
Defined.

End ShellScriptFacts.
