(* ===== verification/ShellDangerous.v ===== *)
(** * Commands that may be dangerous:
      src/shell-command/src/command_safety/{is_dangerous_command,windows_dangerous_commands}.rs

    The heuristics for commands that must not run without approval, with the
    rules of Windows, which are compiled only there. The system is a [Platform];
    the crates [shlex], [regex] and [url] are parameters. *)

From Stdlib Require Import Ascii String.
From S2P Require Import Prelude RustStr AbsPath ShellBash.
Import AbsPath ShellBash.

Module ShellDangerous.

(** What [cfg!] and [Path::file_name] depend on. *)
Record Platform := {
  is_windows : bool;
  is_linux : bool;
  path_file_name : str -> option str;
}.

Definition linux : Platform :=
  {| is_windows := false; is_linux := true; path_file_name := file_name |}.

(** ** is_dangerous_command.rs: the options of git *)

Definition GIT_OPTIONS_WITH_VALUE : list str :=
  [lit "-C"; lit "-c"; lit "--config-env"; lit "--exec-path"; lit "--git-dir";
   lit "--namespace"; lit "--super-prefix"; lit "--work-tree"].

Definition is_git_global_option_with_value (arg : str) : bool :=
  one_of GIT_OPTIONS_WITH_VALUE arg.

(** [arg.len() > 2] counts bytes; the first two are ASCII here. *)
Definition is_git_global_option_with_inline_value (arg : str) : bool :=
  starts_with (lit "--config-env=") arg
  || starts_with (lit "--exec-path=") arg
  || starts_with (lit "--git-dir=") arg
  || starts_with (lit "--namespace=") arg
  || starts_with (lit "--super-prefix=") arg
  || starts_with (lit "--work-tree=") arg
  || (starts_with (lit "-C") arg || starts_with (lit "-c") arg) && (2 <? utf8_len arg).

Definition git_global_option_requires_prompt (arg : str) : bool :=
  one_of GIT_OPTIONS_WITH_VALUE arg
  || (starts_with (lit "-C") arg || starts_with (lit "-c") arg) && (2 <? utf8_len arg)
  || starts_with (lit "--config-env=") arg
  || starts_with (lit "--exec-path=") arg
  || starts_with (lit "--git-dir=") arg
  || starts_with (lit "--namespace=") arg
  || starts_with (lit "--super-prefix=") arg
  || starts_with (lit "--work-tree=") arg.

(** ** is_dangerous_command.rs: names and subcommands *)

Definition strip_first_suffix (suffixes : list str) (name : str) : str :=
  match omap (fun suffix => strip_suffix suffix name) suffixes with
  | stripped :: _ => stripped
  | [] => name
  end.

Section OnPlatform.
Context (P : Platform).

Definition executable_name_lookup_key (raw : str) : option str :=
  if is_windows P then
    (fun name => strip_first_suffix [lit ".exe"; lit ".cmd"; lit ".bat"; lit ".com"]
                   (to_ascii_lowercase name)) <$> path_file_name P raw
  else path_file_name P raw.

(** The loop over the arguments, [idx] counting from the start of the command. *)
Fixpoint git_subcommand_from (subcommands : list str) (skip_next : bool) (idx : nat)
    (args : list str) : option (nat * str) :=
  match args with
  | [] => None
  | arg :: args =>
      if skip_next then git_subcommand_from subcommands false (S idx) args
      else if is_git_global_option_with_inline_value arg then
        git_subcommand_from subcommands false (S idx) args
      else if is_git_global_option_with_value arg then
        git_subcommand_from subcommands true (S idx) args
      else if str_eqb arg (lit "--") || starts_with (lit "-") arg then
        git_subcommand_from subcommands false (S idx) args
      else if one_of subcommands arg then Some (idx, arg)
      else None
  end.

Definition find_git_subcommand (command subcommands : list str) : option (nat * str) :=
  match command with
  | [] => None
  | cmd0 :: args =>
      if negb (bool_decide (executable_name_lookup_key cmd0 = Some (lit "git"))) then None
      else git_subcommand_from subcommands false 1 args
  end.

Fixpoint is_dangerous_to_call_with_exec (command : list str) : bool :=
  match command with
  | [] => false
  | cmd0 :: args =>
      if str_eqb cmd0 (lit "rm") then
        match args with
        | arg :: _ => one_of [lit "-f"; lit "-rf"] arg
        | [] => false
        end
      else if str_eqb cmd0 (lit "sudo") then is_dangerous_to_call_with_exec args
      else false
  end.

(** ** windows_dangerous_commands.rs *)

Section Windows.
Context (shlex_split : str -> option (list str)).
(** The first group of the regular expression, and the scheme of a URL that parses. *)
Context (re_captures : str -> option str) (url_scheme : str -> option str).

Definition executable_basename (exe : str) : option str :=
  to_ascii_lowercase <$> path_file_name P exe.

Definition is_powershell_executable (exe : str) : bool :=
  match executable_basename exe with
  | Some name =>
      one_of [lit "powershell"; lit "powershell.exe"; lit "pwsh"; lit "pwsh.exe"] name
  | None => false
  end.

Definition is_browser_executable (name : str) : bool :=
  one_of [lit "chrome"; lit "chrome.exe"; lit "msedge"; lit "msedge.exe"; lit "firefox";
          lit "firefox.exe"; lit "iexplore"; lit "iexplore.exe"] name.

Definition looks_like_url (token : str) : bool :=
  let urlish :=
    match find (lit "https://") token with
    | Some idx => drop idx token
    | None => match find (lit "http://") token with
              | Some idx => drop idx token
              | None => token
              end
    end in
  let candidate := match re_captures urlish with Some m => m | None => urlish end in
  match url_scheme candidate with
  | Some scheme => one_of [lit "http"; lit "https"] scheme
  | None => false
  end.

Definition args_have_url (args : list str) : bool := existsb looks_like_url args.

Definition has_force_flag_cmd (args : list str) : bool :=
  existsb (fun a => eq_ignore_ascii_case a (lit "/f")) args.

Definition has_recursive_flag_cmd (args : list str) : bool :=
  existsb (fun a => eq_ignore_ascii_case a (lit "/s")) args.

Definition has_quiet_flag_cmd (args : list str) : bool :=
  existsb (fun a => eq_ignore_ascii_case a (lit "/q")) args.

(** The tokens of a PowerShell invocation: its script split as shlex does, or the
    arguments after the switches. *)
Fixpoint parse_powershell_tokens (args : list str) : option (list str) :=
  match args with
  | [] => None
  | arg :: rest =>
      let lower := to_ascii_lowercase arg in
      if one_of [lit "-command"; lit "/command"; lit "-c"] lower then
        match rest with
        | [script] => shlex_split script
        | _ => None
        end
      else if starts_with (lit "-command:") lower || starts_with (lit "/command:") lower then
        match rest with
        | [] => '(_, script) ← split_once (ch ":") arg; shlex_split script
        | _ => None
        end
      else if one_of [lit "-nologo"; lit "-noprofile"; lit "-noninteractive"; lit "-mta";
                      lit "-sta"] lower then parse_powershell_tokens rest
      else if starts_with (lit "-") lower then parse_powershell_tokens rest
      else Some args
  end.

(** Splitting at the operators of cmd, doubled or not. [part] is the text since the
    last operator, [token[start..i]]. *)
Fixpoint split_operators (part token : str) : list str :=
  match token with
  | [] => match part with [] => [] | _ => [part] end
  | c :: token =>
      if (c =? ch "&")%N || (c =? ch "|")%N then
        let before := match part with [] => [] | _ => [part] end in
        match token with
        | d :: token' =>
            if (d =? c)%N then before ++ [c; d] :: split_operators [] token'
            else before ++ [c] :: split_operators [] token
        | [] => before ++ [[c]]
        end
      else split_operators (part ++ [c]) token
  end.

Definition is_blank (s : str) : bool := str_eqb (trim s) [].

Definition split_embedded_cmd_operators (token : str) : list str :=
  List.filter (fun s => negb (is_blank s)) (split_operators [] token).

(** [tokens.split(|t| ...)] on a slice: the runs between the separators. *)
Fixpoint split_slice (sep : str -> bool) (tokens : list str) : list (list str) :=
  match tokens with
  | [] => [[]]
  | t :: tokens =>
      match split_slice sep tokens with
      | seg :: segs => if sep t then [] :: seg :: segs else (t :: seg) :: segs
      | [] => [[]]
      end
  end.

(** The arguments after the switch that starts the body of the command. *)
Fixpoint cmd_body (args : list str) : option (list str) :=
  match args with
  | [] => Some []
  | arg :: args =>
      let lower := to_ascii_lowercase arg in
      if one_of [lit "/c"; lit "/r"; lit "-c"] lower then Some args
      else if starts_with (lit "/") lower then cmd_body args
      else None
  end.

Definition dangerous_cmd_segment (segment : list str) : bool :=
  match segment with
  | [] => false
  | cmd :: _ =>
      eq_ignore_ascii_case cmd (lit "start") && args_have_url segment
      || (eq_ignore_ascii_case cmd (lit "del") || eq_ignore_ascii_case cmd (lit "erase"))
         && has_force_flag_cmd segment
      || (eq_ignore_ascii_case cmd (lit "rd") || eq_ignore_ascii_case cmd (lit "rmdir"))
         && has_recursive_flag_cmd segment && has_quiet_flag_cmd segment
  end.

Definition is_dangerous_cmd (command : list str) : bool :=
  match command with
  | [] => false
  | exe :: rest =>
      match executable_basename exe with
      | None => false
      | Some base =>
          if negb (str_eqb base (lit "cmd")) && negb (str_eqb base (lit "cmd.exe")) then false
          else
            match cmd_body rest with
            | None | Some [] => false
            | Some remaining =>
                let cmd_tokens :=
                  match remaining with
                  | [only] => match shlex_split only with Some ts => ts | None => [only] end
                  | _ => remaining
                  end in
                let tokens := cmd_tokens ≫= split_embedded_cmd_operators in
                existsb dangerous_cmd_segment
                  (split_slice (one_of [lit "&"; lit "&&"; lit "|"; lit "||"]) tokens)
            end
      end
  end.

(** Segments are closed by a separator; the last of the source's vector is [cur]. *)
Definition push_segment (s : str) (segment : list str) : list str :=
  match s with [] => segment | _ => segment ++ [s] end.

Definition SEG_SEPS : list char := [ch ";"; ch "|"; ch "&"; 10%N; 13%N; 9%N].
Definition SOFT_SEPS : list char :=
  [ch "{"; ch "}"; ch "("; ch ")"; ch "["; ch "]"; ch ","; ch ";"].

Fixpoint segment_token (segments : list (list str)) (segment : list str) (cur tok : str)
    : list (list str) * list str :=
  match tok with
  | [] => (segments, push_segment (trim cur) segment)
  | c :: tok =>
      if contains_char c SEG_SEPS then
        match push_segment (trim cur) segment with
        | [] => segment_token segments [] [] tok
        | segment => segment_token (segments ++ [segment]) [] [] tok
        end
      else segment_token segments segment (cur ++ [c]) tok
  end.

Definition command_segments (tokens : list str) : list (list str) :=
  let '(segments, segment) :=
    fold_left (fun '(segments, segment) tok => segment_token segments segment [] tok)
      tokens ([], []) in
  segments ++ [segment].

Definition DELETE_CMDLETS : list str :=
  [lit "remove-item"; lit "ri"; lit "rm"; lit "del"; lit "erase"; lit "rd"; lit "rmdir"].

(** [t.split(|c| SOFT_SEPS.contains(&c))] *)
Fixpoint split_soft (s : str) : list str :=
  match s with
  | [] => [[]]
  | c :: s =>
      match split_soft s with
      | w :: ws => if contains_char c SOFT_SEPS then [] :: w :: ws else (c :: w) :: ws
      | [] => [[]]
      end
  end.

Definition segment_atoms (segment : list str) : list str :=
  List.filter (fun s => negb (str_eqb s [])) (map trim (segment ≫= split_soft)).

(** [a.get(..7)] is there when seven bytes are, which an ASCII text of seven
    characters has. *)
Definition is_force_atom (a : str) : bool :=
  eq_ignore_ascii_case a (lit "-force") || eq_ignore_ascii_case (take 7 a) (lit "-force:").

Definition has_force_delete_cmdlet (tokens : list str) : bool :=
  existsb (fun segment =>
    let atoms := segment_atoms segment in
    existsb (fun a => existsb (eq_ignore_ascii_case a) DELETE_CMDLETS) atoms
    && existsb is_force_atom atoms) (command_segments tokens).

(** [t.trim_matches(c)] *)
Definition trim_matches (p : char -> bool) (s : str) : str := drop_while_end p (drop_while p s).

Definition opens_url (t : str) : bool :=
  one_of [lit "start-process"; lit "start"; lit "saps"; lit "invoke-item"; lit "ii"] t
  || contains (lit "start-process") t || contains (lit "invoke-item") t.

Definition runs_shell_execute (t : str) : bool :=
  contains (lit "shellexecute") t || contains (lit "shell.application") t.

(** The checks on the first token. *)
Definition launches_url (tokens_lc : list str) : bool :=
  match tokens_lc with
  | [] => false
  | first :: _ =>
      str_eqb first (lit "rundll32")
      && existsb (contains (lit "url.dll,fileprotocolhandler")) tokens_lc
      || str_eqb first (lit "mshta")
      || is_browser_executable first
      || one_of [lit "explorer"; lit "explorer.exe"] first
  end.

Definition is_dangerous_powershell (command : list str) : bool :=
  match command with
  | [] => false
  | exe :: rest =>
      if negb (is_powershell_executable exe) then false
      else
        match parse_powershell_tokens rest with
        | None => false
        | Some tokens =>
            let tokens_lc :=
              map (fun t => to_ascii_lowercase
                              (trim_matches (N.eqb 34) (trim_matches (N.eqb 39) t))) tokens in
            let has_url := args_have_url tokens in
            if has_url && existsb opens_url tokens_lc then true
            else if has_url && existsb runs_shell_execute tokens_lc then true
            else if has_url && launches_url tokens_lc then true
            else has_force_delete_cmdlet tokens_lc
        end
  end.

Definition is_direct_gui_launch (command : list str) : bool :=
  match command with
  | [] => false
  | exe :: rest =>
      match executable_basename exe with
      | None => false
      | Some base =>
          if one_of [lit "explorer"; lit "explorer.exe"] base && args_have_url rest then true
          else if one_of [lit "mshta"; lit "mshta.exe"] base && args_have_url rest then true
          else if one_of [lit "rundll32"; lit "rundll32.exe"] base
                  && existsb (fun t => contains (lit "url.dll,fileprotocolhandler")
                                         (to_ascii_lowercase t)) rest
                  && args_have_url rest then true
          else is_browser_executable base && args_have_url rest
      end
  end.

Definition is_dangerous_command_windows (command : list str) : bool :=
  is_dangerous_powershell command || is_dangerous_cmd command || is_direct_gui_launch command.

(** ** is_dangerous_command.rs: the check *)

Context (try_parse_shell : str -> option Tree).

Definition command_might_be_dangerous (command : list str) : bool :=
  is_windows P && is_dangerous_command_windows command
  || is_dangerous_to_call_with_exec command
  || match parse_shell_lc_plain_commands try_parse_shell command with
     | Some all_commands => existsb is_dangerous_to_call_with_exec all_commands
     | None => false
     end.

End Windows.
End OnPlatform.

End ShellDangerous.
