(* ===== verification/ShellPowershell.v ===== *)
(** * PowerShell invocations:
      src/shell-command/src/powershell.rs and
      src/shell-command/src/command_safety/{powershell_parser,windows_safe_commands}.rs

    The script of a PowerShell invocation, the processes that parse such scripts,
    and the safelist of commands. The parser is PowerShell itself, in child
    processes that are kept: starting one and exchanging a line with it are
    parameters. *)

From Stdlib Require Import Ascii String.
From S2P Require Import Prelude RustStr ShellBash ShellDangerous.
Import ShellBash ShellDangerous.

Module ShellPowershell.

(** ** powershell.rs *)

Definition POWERSHELL_FLAGS : list str :=
  [lit "-nologo"; lit "-noprofile"; lit "-command"; lit "-c"].

Definition UTF8_OUTPUT_PREFIX : str :=
  lit "[Console]::OutputEncoding=[System.Text.Encoding]::UTF8;" ++ [NL].

(** The loop over the flags: each must be followed by another argument. *)
Fixpoint script_after_flags (args : list str) : option str :=
  match args with
  | flag :: (script :: _) as rest =>
      if negb (one_of POWERSHELL_FLAGS (to_ascii_lowercase flag)) then None
      else if eq_ignore_ascii_case flag (lit "-Command") || eq_ignore_ascii_case flag (lit "-c")
           then Some script
      else script_after_flags rest
  | _ => None
  end.

Definition extract_powershell_command (command : list str) : option (str * str) :=
  if length command <? 3 then None
  else
    match command with
    | shell :: args =>
        match detect_shell_type shell with
        | Some PowerShell => (fun script => (shell, script)) <$> script_after_flags args
        | _ => None
        end
    | [] => None
    end.

Definition prefix_powershell_script_with_utf8 (command : list str) : list str :=
  match extract_powershell_command command with
  | None => command
  | Some (_, script) =>
      let trimmed := trim_start script in
      let script := if starts_with UTF8_OUTPUT_PREFIX trimmed then script
                    else UTF8_OUTPUT_PREFIX ++ script in
      take (length command - 1) command ++ [script]
  end.

(** ** powershell_parser.rs *)

Inductive PowershellParseOutcome :=
| Commands (commands : list (list str))
| Unsupported
| Failed.

Record PowershellParserResponse := {
  response_id : N;
  status : str;
  response_commands : option (list (list str));
}.

Definition well_formed_commands (commands : list (list str)) : bool :=
  negb (bool_decide (commands = []))
  && forallb (fun cmd => negb (bool_decide (cmd = []))
                         && forallb (fun word => negb (str_eqb word [])) cmd) commands.

Definition into_outcome (response : PowershellParserResponse) : PowershellParseOutcome :=
  if str_eqb (status response) (lit "ok") then
    match response_commands response with
    | Some commands => if well_formed_commands commands then Commands commands else Unsupported
    | None => Unsupported
    end
  else if str_eqb (status response) (lit "unsupported") then Unsupported
  else Failed.

Section Processes.
(** The outside: [spawn] starts a parser for an executable, and [exchange] writes one
    request (an identifier and the script) to a child and reads and decodes the answer;
    [None] is an error of any kind. *)
Context {World Child : Type}.
Context (spawn : str -> World -> option Child * World).
Context (exchange : Child -> N -> str -> World -> option PowershellParserResponse * World).

(** The counter of requests is a [u64]. *)
Record PowershellParserProcess := { child : Child; next_request_id : N }.

Definition wrapping_succ (n : N) : N := ((n + 1) mod 2 ^ 64)%N.

(** [parse]: the identifier is used up whatever comes of the request. *)
Definition process_parse (p : PowershellParserProcess) (script : str) (w : World)
    : option PowershellParseOutcome * PowershellParserProcess * World :=
  let id := next_request_id p in
  let p := {| child := child p; next_request_id := wrapping_succ id |} in
  let '(response, w) := exchange (child p) id script w in
  match response with
  | None => (None, p, w)
  | Some response =>
      if negb (response_id response =? id)%N then (None, p, w)
      else (Some (into_outcome response), p, w)
  end.

Abbreviation processes := (gmap (list N) PowershellParserProcess).

(** The process of the executable, started if there is none. *)
Definition ensure_process (procs : processes) (executable : str) (w : World)
    : option PowershellParserProcess * World :=
  match procs !! executable with
  | Some p => (Some p, w)
  | None =>
      let '(c, w) := spawn executable w in
      ((fun c => {| child := c; next_request_id := 0 |}) <$> c, w)
  end.

(** The loop [for attempt in 0..=1], with the attempts that are left. *)
Fixpoint parse_attempts (attempts : nat) (procs : processes) (executable script : str)
    (w : World) : PowershellParseOutcome * processes * World :=
  match attempts with
  | 0 => (Failed, procs, w)
  | S later =>
      let '(p, w) := ensure_process procs executable w in
      match p with
      | None => (Failed, procs, w)
      | Some p =>
          let '(outcome, p, w) := process_parse p script w in
          match outcome with
          | Some outcome => (outcome, <[executable := p]> procs, w)
          | None =>
              if 0 <? later
              then parse_attempts later (delete executable procs) executable script w
              else (Failed, <[executable := p]> procs, w)
          end
      end
  end.

Definition parse_with_cached_process (procs : processes) (executable script : str) (w : World)
    : PowershellParseOutcome * processes * World :=
  parse_attempts 2 procs executable script w.

End Processes.

(** ** windows_safe_commands.rs *)

Definition strip_decoration (w : str) : str :=
  to_ascii_lowercase
    (drop_while (N.eqb (ch "-"))
       (trim_matches (fun c => (c =? ch "(")%N || (c =? ch ")")%N) w)).

Definition UNSAFE_CMDLETS : list str :=
  [lit "set-content"; lit "add-content"; lit "out-file"; lit "new-item"; lit "remove-item";
   lit "move-item"; lit "copy-item"; lit "rename-item"; lit "start-process";
   lit "stop-process"].

Definition SAFE_CMDLETS : list str :=
  [lit "echo"; lit "write-output"; lit "write-host"; lit "dir"; lit "ls";
   lit "get-childitem"; lit "gci"; lit "cat"; lit "type"; lit "gc"; lit "get-content";
   lit "select-string"; lit "sls"; lit "findstr"; lit "measure-object"; lit "measure";
   lit "get-location"; lit "gl"; lit "pwd"; lit "test-path"; lit "tp"; lit "resolve-path";
   lit "rvpa"; lit "select-object"; lit "select"; lit "get-item"].

(** Of the two ripgrep lists; [format!("{opt}=")] is a prefix of the argument. *)
Definition unsafe_ripgrep_option (arg : str) : bool :=
  one_of [lit "--search-zip"; lit "-z"] arg
  || existsb (fun opt => str_eqb arg opt || starts_with (opt ++ lit "=") arg)
       [lit "--pre"; lit "--hostname-bin"].

Definition is_safe_ripgrep (words : list str) : bool :=
  negb (existsb (fun arg => unsafe_ripgrep_option (to_ascii_lowercase arg)) (drop 1 words)).

Definition SAFE_SUBCOMMANDS : list str :=
  [lit "status"; lit "log"; lit "show"; lit "diff"; lit "cat-file"].

Fixpoint safe_git_args (args : list str) : bool :=
  match args with
  | [] => false
  | arg :: args =>
      let arg_lc := to_ascii_lowercase arg in
      if starts_with (lit "-") arg then
        if git_global_option_requires_prompt arg_lc
           || eq_ignore_ascii_case arg (lit "--config")
           || starts_with (lit "--config=") arg_lc
        then false
        else safe_git_args args
      else one_of SAFE_SUBCOMMANDS arg_lc
  end.

Definition is_safe_git_command (words : list str) : bool := safe_git_args (drop 1 words).

Definition is_safe_powershell_command (words : list str) : bool :=
  match words with
  | [] => false
  | w :: _ =>
      if existsb (fun w => one_of UNSAFE_CMDLETS (strip_decoration w)) words then false
      else
        let command := strip_decoration w in
        if one_of SAFE_CMDLETS command then true
        else if str_eqb command (lit "git") then is_safe_git_command words
        else if str_eqb command (lit "rg") then is_safe_ripgrep words
        else false
  end.

Definition quote_argument (arg : str) : str :=
  match arg with
  | [] => lit "''"
  | _ =>
      if forallb (fun c => negb (is_whitespace c)) arg then arg
      else lit "'" ++ (arg ≫= fun c => if (c =? 39)%N then lit "''" else [c]) ++ lit "'"
  end.

Definition join_arguments_as_script (args : list str) : str :=
  match args with
  | [] => []
  | first :: rest => join (lit " ") (first :: map quote_argument rest)
  end.

Section SafeCommands.
Context (P : Platform).
(** The processes behind their lock: what an executable says of a script. *)
Context (parse_with_powershell_ast : str -> str -> PowershellParseOutcome).

Definition is_powershell_name (exe : str) : bool :=
  let executable_name :=
    to_ascii_lowercase match path_file_name P exe with Some name => name | None => exe end in
  one_of [lit "powershell"; lit "powershell.exe"; lit "pwsh"; lit "pwsh.exe"] executable_name.

Definition parse_powershell_script (executable script : str) : option (list (list str)) :=
  match parse_with_powershell_ast executable script with
  | Commands commands => Some commands
  | _ => None
  end.

Fixpoint parse_powershell_invocation (executable : str) (args : list str)
    : option (list (list str)) :=
  match args with
  | [] => None
  | arg :: rest =>
      let lower := to_ascii_lowercase arg in
      if one_of [lit "-command"; lit "/command"; lit "-c"] lower then
        match rest with
        | [script] => parse_powershell_script executable script
        | _ => None
        end
      else if starts_with (lit "-command:") lower || starts_with (lit "/command:") lower then
        match rest with
        | [] => '(_, script) ← split_once (ch ":") arg; parse_powershell_script executable script
        | _ => None
        end
      else if one_of [lit "-nologo"; lit "-noprofile"; lit "-noninteractive"; lit "-mta";
                      lit "-sta"] lower then parse_powershell_invocation executable rest
      else if one_of [lit "-encodedcommand"; lit "-ec"; lit "-file"; lit "/file";
                      lit "-windowstyle"; lit "-executionpolicy"; lit "-workingdirectory"] lower
           then None
      else if starts_with (lit "-") lower then None
      else parse_powershell_script executable (join_arguments_as_script args)
  end.

Definition try_parse_powershell_command_sequence (command : list str)
    : option (list (list str)) :=
  match command with
  | [] => None
  | exe :: rest =>
      if is_powershell_name exe then parse_powershell_invocation exe rest else None
  end.

Definition is_safe_command_windows (command : list str) : bool :=
  match try_parse_powershell_command_sequence command with
  | Some commands => forallb is_safe_powershell_command commands
  | None => false
  end.

End SafeCommands.

End ShellPowershell.
