(* ===== verification/ShellSafe.v ===== *)
(** * Commands known to be safe: src/shell-command/src/command_safety/is_safe_command.rs

    The safelist of commands that are approved without asking: a list of programs,
    a few programs with the options that make them unsafe, and scripts of such
    commands. *)

From Stdlib Require Import Ascii String.
From S2P Require Import Prelude RustStr ShellBash ShellDangerous ShellPowershell AbsPath.
From S2P Require Import ShellScriptFacts.
Import ShellBash ShellDangerous ShellPowershell.

Module ShellSafe.

Definition SAFE_PROGRAMS : list str :=
  [lit "cat"; lit "cd"; lit "cut"; lit "echo"; lit "expr"; lit "false"; lit "grep";
   lit "head"; lit "id"; lit "ls"; lit "nl"; lit "paste"; lit "pwd"; lit "rev"; lit "seq";
   lit "stat"; lit "tail"; lit "tr"; lit "true"; lit "uname"; lit "uniq"; lit "wc";
   lit "which"; lit "whoami"].

Definition unsafe_base64_option (arg : str) : bool :=
  one_of [lit "-o"; lit "--output"] arg
  || starts_with (lit "--output=") arg
  || starts_with (lit "-o") arg && negb (str_eqb arg (lit "-o")).

Definition UNSAFE_FIND_OPTIONS : list str :=
  [lit "-exec"; lit "-execdir"; lit "-ok"; lit "-okdir"; lit "-delete"; lit "-fls";
   lit "-fprint"; lit "-fprint0"; lit "-fprintf"].

Definition UNSAFE_GIT_FLAGS : list str :=
  [lit "--output"; lit "--ext-diff"; lit "--textconv"; lit "--exec"; lit "--paginate"].

Definition unsafe_git_flag (arg : str) : bool :=
  one_of UNSAFE_GIT_FLAGS arg
  || starts_with (lit "--output=") arg || starts_with (lit "--exec=") arg.

Definition git_subcommand_args_are_read_only (args : list str) : bool :=
  negb (existsb unsafe_git_flag args).

Definition git_has_unsafe_global_option (command : list str) : bool :=
  existsb git_global_option_requires_prompt (drop 1 command).

Definition read_only_branch_flag (arg : str) : bool :=
  one_of [lit "--list"; lit "-l"; lit "--show-current"; lit "-a"; lit "--all"; lit "-r";
          lit "--remotes"; lit "-v"; lit "-vv"; lit "--verbose"] arg
  || starts_with (lit "--format=") arg.

(** The loop with its flag. *)
Fixpoint branch_flags_from (saw_read_only_flag : bool) (args : list str) : bool :=
  match args with
  | [] => saw_read_only_flag
  | arg :: args => if read_only_branch_flag arg then branch_flags_from true args else false
  end.

Definition git_branch_is_read_only (branch_args : list str) : bool :=
  match branch_args with
  | [] => true
  | _ => branch_flags_from false branch_args
  end.

Definition all_digits (s : str) : bool := forallb is_ascii_digit s.

Definition is_valid_sed_n_arg (arg : option str) : bool :=
  match arg with
  | None => false
  | Some s =>
      match strip_suffix (lit "p") s with
      | None => false
      | Some core =>
          match split_on (ch ",") core with
          | [num] => negb (str_eqb num []) && all_digits num
          | [a; b] => negb (str_eqb a []) && negb (str_eqb b []) && all_digits a && all_digits b
          | _ => false
          end
      end
  end.

Section OnPlatform.
Context (P : Platform).

Definition safe_git_call (command : list str) : bool :=
  if git_has_unsafe_global_option command then false
  else
    match find_git_subcommand P command
            [lit "status"; lit "log"; lit "diff"; lit "show"; lit "branch"] with
    | None => false
    | Some (subcommand_idx, subcommand) =>
        let subcommand_args := drop (subcommand_idx + 1) command in
        if one_of [lit "status"; lit "log"; lit "diff"; lit "show"] subcommand
        then git_subcommand_args_are_read_only subcommand_args
        else if str_eqb subcommand (lit "branch")
        then git_subcommand_args_are_read_only subcommand_args
             && git_branch_is_read_only subcommand_args
        else false
    end.

Definition safe_sed_call (command : list str) : bool :=
  (length command <=? 4) && bool_decide (command !! 1 = Some (lit "-n"))
  && is_valid_sed_n_arg (command !! 2).

Definition is_safe_to_call_with_exec (command : list str) : bool :=
  match command with
  | [] => false
  | cmd0 :: args =>
      match executable_name_lookup_key P cmd0 with
      | None => false
      | Some cmd =>
          if is_linux P && one_of [lit "numfmt"; lit "tac"] cmd then true
          else if one_of SAFE_PROGRAMS cmd then true
          else if str_eqb cmd (lit "base64") then negb (existsb unsafe_base64_option args)
          else if str_eqb cmd (lit "find") then negb (existsb (one_of UNSAFE_FIND_OPTIONS) command)
          else if str_eqb cmd (lit "rg") then negb (existsb unsafe_ripgrep_option command)
          else if str_eqb cmd (lit "git") then safe_git_call command
          else if str_eqb cmd (lit "sed") then safe_sed_call command
          else false
      end
  end.

Context (try_parse_shell : str -> option Tree).
Context (parse_with_powershell_ast : str -> str -> PowershellParseOutcome).

Definition zsh_as_bash (s : str) : str := if str_eqb s (lit "zsh") then lit "bash" else s.

Definition is_known_safe_command (command : list str) : bool :=
  let command := map zsh_as_bash command in
  if is_safe_command_windows P parse_with_powershell_ast command then true
  else if is_safe_to_call_with_exec command then true
  else
    match parse_shell_lc_plain_commands try_parse_shell command with
    | Some all_commands =>
        negb (bool_decide (all_commands = []))
        && forallb is_safe_to_call_with_exec all_commands
    | None => false
    end.

End OnPlatform.

End ShellSafe.

(** * Facts about safe and dangerous commands

    What the safelist accepts, program by program, and that no command is on the
    safelist and dangerous at once. *)

Import AbsPath ShellBash ShellBashFacts ShellScriptFacts.
Import ShellDangerous ShellPowershell ShellSafe.

Module ShellSafeFacts.

(** ** Reflection of the checks on arguments *)

Lemma one_of_false (alts : list str) (s : str) : one_of alts s = false <-> s ∉ alts.
Proof. by rewrite <- one_of_true, not_true_iff_false. Qed.

(** Evaluates the comparisons of literals in the goal. *)
Ltac eval_tests :=
  repeat match goal with
  | |- context [one_of ?l (lit ?s)] =>
      let b := eval vm_compute in (one_of l (lit s)) in change (one_of l (lit s)) with b
  | |- context [str_eqb (lit ?s) (lit ?t)] =>
      let b := eval vm_compute in (str_eqb (lit s) (lit t)) in
      change (str_eqb (lit s) (lit t)) with b
  end; cbn [andb orb negb].

(** ** git *)

(** An option before the subcommand that git reads without a value. *)
Definition plain_git_option (arg : str) : Prop :=
  starts_with (lit "-") arg = true /\ git_global_option_requires_prompt arg = false.

Lemma requires_prompt_covers (arg : str) :
  git_global_option_requires_prompt arg = false ->
  is_git_global_option_with_inline_value arg = false
  /\ is_git_global_option_with_value arg = false.
Proof.
  unfold git_global_option_requires_prompt, is_git_global_option_with_inline_value,
    is_git_global_option_with_value.
  rewrite !orb_false_iff. tauto.
Qed.

Lemma dashes_option (arg : str) :
  str_eqb arg (lit "--") || starts_with (lit "-") arg = starts_with (lit "-") arg.
Proof. destruct (str_eqb_eq arg (lit "--")) as [H _]. destruct (str_eqb arg (lit "--")); [|done].
  by rewrite (H eq_refl). Qed.

(** Without options that need approval, the scan for the subcommand is this: skip the
    options, and look at the first other argument. *)
Lemma git_subcommand_scan (subcommands args : list str) (idx i : nat) (sub : str) :
  Forall (fun arg => git_global_option_requires_prompt arg = false) args ->
  git_subcommand_from subcommands false idx args = Some (i, sub) <->
  exists options rest, args = options ++ sub :: rest /\ i = idx + length options
    /\ Forall plain_git_option options /\ starts_with (lit "-") sub = false
    /\ sub ∈ subcommands.
Proof.
  intros Hargs. revert idx. induction Hargs as [|arg args Harg Hargs IH]; intros idx.
  { split; [done|]. intros (options & ? & H & _). by destruct options. }
  cbn [git_subcommand_from]. destruct (requires_prompt_covers _ Harg) as [-> ->].
  rewrite dashes_option. destruct (starts_with (lit "-") arg) eqn:Hd.
  - rewrite IH. split.
    + intros (options & rest & -> & -> & Ho & Hs). exists (arg :: options), rest.
      split_and!; try done; [simpl; lia|by constructor|naive_solver..].
    + intros ([|o options] & rest & H & -> & Ho & Hs & Hin); simplify_eq/=; [congruence|].
      exists options, rest. apply Forall_cons in Ho as [_ Ho].
      by split_and!.
  - split.
    + case_match eqn:Hin; [|done]. intros ?; simplify_eq. apply one_of_true in Hin.
      exists [], args. split_and!; try done.
    + intros ([|o options] & rest & H & -> & Ho & Hs & Hin); simplify_eq/=.
      * apply one_of_true in Hin. rewrite Hin. do 2 f_equal. lia.
      * apply Forall_cons in Ho as [[Ho _] _]. congruence.
Qed.

Lemma branch_flags_spec (args : list str) (saw : bool) :
  branch_flags_from saw args = true <->
  Forall (fun arg => read_only_branch_flag arg = true) args /\ (saw = true \/ args <> []).
Proof.
  revert saw. induction args as [|arg args IH]; intros saw; simpl.
  { split; [by auto|]. by intros [_ [|]]. }
  rewrite Forall_cons. destruct (read_only_branch_flag arg); [|naive_solver].
  rewrite IH. naive_solver.
Qed.

Lemma branch_read_only (args : list str) :
  git_branch_is_read_only args = true <-> Forall (fun arg => read_only_branch_flag arg = true) args.
Proof.
  destruct args as [|arg args]; [by split|]. unfold git_branch_is_read_only.
  rewrite branch_flags_spec. naive_solver.
Qed.

(** ** sed *)

Definition number (s : str) : Prop := s <> [] /\ Forall (fun c => is_ascii_digit c = true) s.

(** [/^(\d+,)?\d+p$/] *)
Definition sed_range (s : str) : Prop :=
  (exists n, number n /\ s = n ++ lit "p")
  \/ (exists m n, number m /\ number n /\ s = m ++ lit "," ++ n ++ lit "p").

Lemma number_spec (s : str) : negb (str_eqb s []) && all_digits s = true <-> number s.
Proof.
  unfold number, all_digits. rewrite andb_true_iff, negb_true_iff, str_eqb_neq, forallb_Forall.
  done.
Qed.

Lemma number_no_comma (s : str) : number s -> ch "," ∉ s.
Proof.
  intros [_ Hs] Hc. rewrite Forall_forall in Hs. by specialize (Hs _ Hc).
Qed.

(** The argument of [sed -n] is what the regular expression in the comment says. *)
Lemma valid_sed_range (s : str) : is_valid_sed_n_arg (Some s) = true <-> sed_range s.
Proof.
  unfold is_valid_sed_n_arg, sed_range. split.
  - intros H. case_match eqn:Hp; [|done]. apply strip_suffix_Some in Hp as ->.
    pose proof (join_split_on (ch ",") l) as Hj.
    destruct (split_on (ch ",") l) as [|a [|b [|? ?]]]; try done; simpl in Hj.
    + left. exists a. rewrite number_spec in H. by subst.
    + right. exists a, b. rewrite !andb_true_iff in H.
      destruct H as [[[Ha Hb] Hda] Hdb]. split_and!.
      * apply number_spec. by rewrite Ha, Hda.
      * apply number_spec. by rewrite Hb, Hdb.
      * rewrite <- Hj. by rewrite <- !app_assoc.
  - intros [(n & Hn & ->)|(m & n & Hm & Hn & ->)].
    + rewrite (proj2 (strip_suffix_Some _ _ n)) by done.
      rewrite split_on_single by by apply number_no_comma. by apply number_spec.
    + rewrite (proj2 (strip_suffix_Some _ _ (m ++ lit "," ++ n))) by by rewrite <- !app_assoc.
      change (m ++ lit "," ++ n) with (m ++ ch "," :: n).
      rewrite split_on_app by by apply number_no_comma.
      rewrite split_on_single by by apply number_no_comma.
      apply number_spec in Hm, Hn. rewrite !andb_true_iff in *. naive_solver.
Qed.

(** ** What the safelist accepts *)

Section Safelist.
Context (P : Platform).

Definition GIT_QUERIES : list str :=
  [lit "status"; lit "log"; lit "diff"; lit "show"; lit "branch"].

(** The calls that are approved, by the program they name. *)
Inductive safe_call : list str -> Prop :=
| call_program cmd0 args name :
    executable_name_lookup_key P cmd0 = Some name ->
    name ∈ SAFE_PROGRAMS \/ is_linux P = true /\ name ∈ [lit "numfmt"; lit "tac"] ->
    safe_call (cmd0 :: args)
| call_base64 cmd0 args :
    executable_name_lookup_key P cmd0 = Some (lit "base64") ->
    Forall (fun arg => unsafe_base64_option arg = false) args ->
    safe_call (cmd0 :: args)
| call_find cmd0 args :
    executable_name_lookup_key P cmd0 = Some (lit "find") ->
    Forall (fun arg => arg ∉ UNSAFE_FIND_OPTIONS) (cmd0 :: args) ->
    safe_call (cmd0 :: args)
| call_rg cmd0 args :
    executable_name_lookup_key P cmd0 = Some (lit "rg") ->
    Forall (fun arg => unsafe_ripgrep_option arg = false) (cmd0 :: args) ->
    safe_call (cmd0 :: args)
| call_git cmd0 options subcommand args :
    executable_name_lookup_key P cmd0 = Some (lit "git") ->
    Forall plain_git_option options ->
    subcommand ∈ GIT_QUERIES ->
    Forall (fun arg => git_global_option_requires_prompt arg = false
                       /\ unsafe_git_flag arg = false) args ->
    (subcommand = lit "branch" -> Forall (fun arg => read_only_branch_flag arg = true) args) ->
    safe_call (cmd0 :: options ++ subcommand :: args)
| call_sed cmd0 range files :
    executable_name_lookup_key P cmd0 = Some (lit "sed") ->
    sed_range range -> length files <= 1 ->
    safe_call (cmd0 :: lit "-n" :: range :: files).

Lemma query_no_option (sub : str) :
  sub ∈ GIT_QUERIES ->
  starts_with (lit "-") sub = false /\ git_global_option_requires_prompt sub = false.
Proof.
  unfold GIT_QUERIES. rewrite !elem_of_cons, elem_of_nil.
  intros [->|[->|[->|[->|[->|[]]]]]]; by vm_compute.
Qed.

Lemma drop_after {A} (x y : A) (l k : list A) :
  drop (1 + length l + 1) (x :: l ++ y :: k) = k.
Proof.
  replace (1 + length l + 1) with (length (x :: l ++ [y])) by (simpl; rewrite length_app; simpl; lia).
  change (x :: l ++ y :: k) with ((x :: l) ++ [y] ++ k). rewrite (app_assoc (x :: l)).
  apply drop_app_length.
Qed.

Lemma git_flags_spec (args : list str) :
  git_subcommand_args_are_read_only args = true <-> Forall (fun arg => unsafe_git_flag arg = false) args.
Proof. apply negb_existsb. Qed.

(** The verdict on the arguments of a query. *)
Lemma git_query_verdict (sub : str) (args : list str) :
  sub ∈ GIT_QUERIES ->
  (if one_of [lit "status"; lit "log"; lit "diff"; lit "show"] sub
   then git_subcommand_args_are_read_only args
   else if str_eqb sub (lit "branch")
   then git_subcommand_args_are_read_only args && git_branch_is_read_only args
   else false) = true <->
  Forall (fun arg => unsafe_git_flag arg = false) args
  /\ (sub = lit "branch" -> Forall (fun arg => read_only_branch_flag arg = true) args).
Proof.
  unfold GIT_QUERIES. rewrite !elem_of_cons, elem_of_nil.
  intros [->|[->|[->|[->|[->|[]]]]]]; eval_tests;
    rewrite ?andb_true_iff, git_flags_spec, ?branch_read_only; naive_solver.
Qed.

Lemma safe_git_spec (cmd0 : str) (rest : list str) :
  executable_name_lookup_key P cmd0 = Some (lit "git") ->
  safe_git_call P (cmd0 :: rest) = true <->
  exists options subcommand args, rest = options ++ subcommand :: args
    /\ Forall plain_git_option options /\ subcommand ∈ GIT_QUERIES
    /\ Forall (fun arg => git_global_option_requires_prompt arg = false
                          /\ unsafe_git_flag arg = false) args
    /\ (subcommand = lit "branch" -> Forall (fun arg => read_only_branch_flag arg = true) args).
Proof.
  intros Hgit. unfold safe_git_call, git_has_unsafe_global_option, find_git_subcommand.
  change (drop 1 (cmd0 :: rest)) with rest. rewrite (bool_decide_true _ Hgit). cbn [negb]. fold GIT_QUERIES. split.
  - intros H. case_match eqn:Hu; [done|]. apply existsb_none in Hu.
    case_match eqn:Hf; [|done]. destruct p as [i sub].
    apply git_subcommand_scan in Hf as (options & args & -> & -> & Ho & Hd & Hsub); [|done].
    rewrite drop_after, (git_query_verdict _ _ Hsub) in H. destruct H as [Hflags Hb].
    apply Forall_app in Hu as [_ [_ Hu]%Forall_cons].
    exists options, sub, args. by rewrite Forall_and.
  - intros (options & sub & args & -> & Ho & Hsub & [Hr Hf]%Forall_and & Hb).
    destruct (query_no_option _ Hsub) as [Hd Hp].
    assert (Hu : Forall (fun arg => git_global_option_requires_prompt arg = false)
                   (options ++ sub :: args)).
    { apply Forall_app. split; [|by constructor]. eapply Forall_impl; [done|]. by intros ? []. }
    rewrite (proj2 (existsb_none _ _) Hu).
    rewrite (proj2 (git_subcommand_scan GIT_QUERIES _ 1 (1 + length options) sub Hu))
      by by exists options, args.
    rewrite drop_after. by apply git_query_verdict.
Qed.

Lemma safe_sed_spec (cmd0 : str) (rest : list str) :
  safe_sed_call (cmd0 :: rest) = true <->
  exists range files, rest = lit "-n" :: range :: files /\ sed_range range /\ length files <= 1.
Proof.
  unfold safe_sed_call. rewrite !andb_true_iff, bool_decide_eq_true, Nat.leb_le.
  destruct rest as [|n [|range files]]; [naive_solver..|].
  change ((cmd0 :: n :: range :: files) !! 2) with (Some range).
  change ((cmd0 :: n :: range :: files) !! 1) with (Some n). cbn [length]. rewrite valid_sed_range.
  split; [|naive_solver lia]. intros [[Hl ?] Hr]. simplify_eq. exists range, files.
  split_and!; [done..|lia].
Qed.

(** The safelist accepts exactly these calls. *)
Theorem safelist_exact (command : list str) :
  is_safe_to_call_with_exec P command = true <-> safe_call command.
Proof.
  destruct command as [|cmd0 args]; [by split; [|inversion 1]|].
  unfold is_safe_to_call_with_exec. split.
  - intros H. case_match eqn:Hk; [|done]. rename l into name.
    case_match eqn:Hl; [|case_match eqn:Hs].
    + apply andb_true_iff in Hl as [Hl Hn%one_of_true]. eapply call_program; [done|by right].
    + apply one_of_true in Hs. eapply call_program; [done|by left].
    + repeat (case_match; [match goal with E : str_eqb _ _ = true |- _ => apply str_eqb_eq in E; subst name end|]).
      * apply call_base64; [done|]. by apply negb_existsb.
      * apply call_find; [done|]. apply negb_existsb in H.
        eapply Forall_impl; [done|]. intros arg. by rewrite one_of_false.
      * apply call_rg; [done|]. by apply negb_existsb.
      * apply safe_git_spec in H as (options & sub & rest & -> & ? & ? & ? & ?); [|done].
        by apply call_git.
      * apply safe_sed_spec in H as (range & files & -> & ? & ?). by apply call_sed.
      * done.
  - intros H.
    inversion H as [? ? name Hk Hn|? ? Hk Ha|? ? Hk Ha|? ? Hk Ha|? ? ? ? Hk ? ? ? ?|? ? ? Hk ? ?];
      subst; rewrite Hk.
    + destruct Hn as [Hn|[Hl Hn]]; apply one_of_true in Hn; rewrite Hn; [by case_match|].
      by rewrite Hl.
    + eval_tests; rewrite andb_false_r. by apply negb_existsb.
    + eval_tests; rewrite andb_false_r. apply negb_existsb.
      eapply Forall_impl; [done|]. intros arg. by rewrite one_of_false.
    + eval_tests; rewrite andb_false_r. by apply negb_existsb.
    + eval_tests; rewrite andb_false_r. apply safe_git_spec; [done|]. naive_solver.
    + eval_tests; rewrite andb_false_r. apply safe_sed_spec. naive_solver.
Qed.

End Safelist.

End ShellSafeFacts.
