(* ===== verification/ShellVerdictFacts.v ===== *)
(** * Facts about the two verdicts on a command

    What it takes for a command to be known safe, and that a command is never known
    safe and dangerous. *)

From Stdlib Require Import Ascii String.
From S2P Require Import Prelude RustStr Utf8 AbsPath ShellBash ShellScriptFacts ShellDangerous.
From S2P Require Import ShellPowershell ShellSafe.
Import Utf8 AbsPath ShellBash ShellBashFacts ShellScriptFacts.
Import ShellDangerous ShellPowershell ShellSafe ShellSafeFacts.

Module ShellVerdictFacts.

(** ** Known safe commands *)

(** A script whose commands, at least one, all are [Q]. *)
Definition script_of (Q : list str -> Prop) (tree : Tree) (script : str) : Prop :=
  has_error tree = false /\ all_allowed (root_node tree)
  /\ commands_of (root_node tree) <> []
  /\ forall n, n ∈ commands_of (root_node tree) ->
       exists words, parse_plain_command_from_node n script = Some words /\ Q words.

Lemma script_of_spec (Q : list str -> Prop) (tree : Tree) (script : str) :
  (exists cmds, try_parse_word_only_commands_sequence tree script = Some cmds
                /\ cmds <> [] /\ Forall Q cmds) <->
  script_of Q tree script.
Proof.
  split.
  - intros (cmds & Hc & Hne & HQ). pose proof Hc as (He & Ha & Hall)%sequence_spec.
    split_and!; [done|done|..].
    + intros Hnil. destruct cmds as [|ws cmds]; [done|].
      assert (ws ∈ ws :: cmds) as (n & Hn & _)%(plain_commands_of _ _ _ _ Hc) by by left.
      rewrite Hnil in Hn. by apply not_elem_of_nil in Hn.
    + intros n Hn. unfold commands_of in Hn.
      rewrite <- (filter_perm _ _ _ (visit_preorder _)), <- (sort_by_key_perm start_byte) in Hn.
      apply list_elem_of_lookup in Hn as [i Hi].
      destruct (Forall2_lookup_l _ _ _ _ _ Hall Hi) as (ws & Hw & Hp).
      exists ws. split; [done|]. by eapply Forall_lookup_1.
  - intros (He & Ha & Hne & Hall).
    set (ns := sort_by_key start_byte (List.filter is_command (visit (root_node tree)))).
    assert (Hp : Permutation ns (commands_of (root_node tree))).
    { unfold ns. by rewrite sort_by_key_perm, (filter_perm _ _ _ (visit_preorder _)). }
    assert (Hns : forall n, n ∈ ns -> exists words,
               parse_plain_command_from_node n script = Some words /\ Q words).
    { intros n. rewrite Hp. apply Hall. }
    assert (exists cmds, Forall2 (fun n ws => parse_plain_command_from_node n script = Some ws)
                           ns cmds /\ Forall Q cmds) as (cmds & Hf & HQ).
    { clear -Hns. induction ns as [|n ns IH]; [by exists []|].
      destruct (Hns n) as (ws & ? & ?); [by left|].
      destruct IH as (cmds & ? & ?); [intros ? ?; apply Hns; by right|].
      exists (ws :: cmds). split; by constructor. }
    exists cmds. split_and!; [by apply sequence_spec| |done].
    intros ->. apply Forall2_nil_inv_r in Hf. rewrite Hf in Hp.
    by apply Permutation_nil in Hp.
Qed.

Section Known.
Context (P : Platform) (try_parse_shell : str -> option Tree).
Context (parse_with_powershell_ast : str -> str -> PowershellParseOutcome).

(** A PowerShell invocation whose commands are on the list for PowerShell. *)
Definition safe_powershell (command : list str) : Prop :=
  exists exe args commands, command = exe :: args /\ is_powershell_name P exe = true
    /\ parse_powershell_invocation parse_with_powershell_ast exe args = Some commands
    /\ Forall (fun words => is_safe_powershell_command words = true) commands.

Lemma safe_powershell_spec (command : list str) :
  is_safe_command_windows P parse_with_powershell_ast command = true <-> safe_powershell command.
Proof.
  unfold is_safe_command_windows, try_parse_powershell_command_sequence, safe_powershell. split.
  - intros H. case_match eqn:Hc; [|done]. destruct command as [|exe args]; [done|].
    case_match eqn:He; [|done]. exists exe, args, l. rewrite <- forallb_Forall. done.
  - intros (exe & args & commands & -> & -> & -> & Hall). by apply forallb_Forall.
Qed.

Definition safe_script (command : list str) : Prop :=
  exists shell script tree, extract_bash_command command = Some (shell, script)
    /\ try_parse_shell script = Some tree /\ script_of (safe_call P) tree script.

Lemma known_safe_cases (command : list str) :
  let command' := map zsh_as_bash command in
  is_known_safe_command P try_parse_shell parse_with_powershell_ast command = true <->
  safe_powershell command' \/ safe_call P command' \/ safe_script command'.
Proof.
  intros c. unfold is_known_safe_command. fold c.
  rewrite <- safe_powershell_spec, <- safelist_exact.
  assert (Hs : match parse_shell_lc_plain_commands try_parse_shell c with
               | Some all_commands =>
                   negb (bool_decide (all_commands = []))
                   && forallb (is_safe_to_call_with_exec P) all_commands
               | None => false
               end = true <-> safe_script c).
  { unfold safe_script, parse_shell_lc_plain_commands.
    destruct (extract_bash_command c) as [[shell script]|] eqn:He; simpl; [|naive_solver].
    destruct (try_parse_shell script) as [tree|] eqn:Ht; simpl; [|naive_solver].
    transitivity (script_of (safe_call P) tree script).
    - rewrite <- script_of_spec. case_match eqn:Hc; [|naive_solver].
      rewrite andb_true_iff, negb_true_iff, bool_decide_eq_false, forallb_Forall.
      assert (Hq : Forall (fun x => is_safe_to_call_with_exec P x = true) l <->
                   Forall (safe_call P) l).
      { apply Forall_iff. intros words. apply safelist_exact. }
      rewrite Hq. naive_solver.
    - split; [by eauto 6|]. intros (? & ? & ? & ? & ? & ?). by simplify_eq. }
  repeat case_match; try tauto. all: rewrite <- Hs; naive_solver.
Qed.

(** A command is known safe exactly when it is a call on the safelist, a script of plain
    commands on the safelist, at least one, or a PowerShell invocation whose commands
    are on the list for PowerShell. *)
Theorem known_safe_exact (command : list str) :
  let command' := map zsh_as_bash command in
  is_known_safe_command P try_parse_shell parse_with_powershell_ast command = true <->
  safe_powershell command' \/ safe_call P command' \/ safe_script command'.
Proof. apply known_safe_cases. Qed.

End Known.

(** ** Dangerous commands *)

(** [sudo ... sudo rm -f ...] *)
Definition forced_removal (command : list str) : Prop :=
  exists n flag args, command = replicate n (lit "sudo") ++ lit "rm" :: flag :: args
    /\ flag ∈ [lit "-f"; lit "-rf"].

Lemma dangerous_call_spec (command : list str) :
  is_dangerous_to_call_with_exec command = true <-> forced_removal command.
Proof.
  split.
  - induction command as [|cmd0 args IH]; [done|].
    cbn [is_dangerous_to_call_with_exec]. intros H. case_match eqn:Hr; [|case_match eqn:Hs; [|done]].
    + apply str_eqb_eq in Hr as ->. destruct args as [|flag args]; [done|].
      exists 0, flag, args. by apply one_of_true in H.
    + apply str_eqb_eq in Hs as ->. destruct (IH H) as (n & flag & rest & -> & Hf).
      by exists (S n), flag, rest.
  - intros (n & flag & args & -> & Hf). apply one_of_true in Hf.
    by induction n as [|n IH].
Qed.

Lemma forced_removal_head (command : list str) :
  forced_removal command ->
  exists cmd0 args, command = cmd0 :: args /\ cmd0 ∈ [lit "rm"; lit "sudo"].
Proof.
  intros ([|n] & flag & args & -> & _); simpl; do 2 eexists; (split; [done|]);
    rewrite !elem_of_cons; auto.
Qed.

(** ** No command is both *)

Section Disjoint.
Context (P : Platform) (HP : path_file_name P = file_name) (Hw : is_windows P = false).

Lemma key_file_name (cmd0 : str) : executable_name_lookup_key P cmd0 = file_name cmd0.
Proof. unfold executable_name_lookup_key. by rewrite Hw, HP. Qed.

Definition SAFE_NAMES : list str :=
  SAFE_PROGRAMS ++ [lit "numfmt"; lit "tac"; lit "base64"; lit "find"; lit "rg"; lit "git";
                    lit "sed"].

Lemma safe_call_name (command : list str) :
  safe_call P command ->
  exists cmd0 args name, command = cmd0 :: args /\ file_name cmd0 = Some name /\ name ∈ SAFE_NAMES.
Proof.
  intros H. inversion H as [? ? name Hk Hn|? ? Hk|? ? Hk|? ? Hk|? ? ? ? Hk|? ? ? Hk]; subst;
    rewrite key_file_name in Hk; do 3 eexists; (split; [done|]); (split; [exact Hk|]).
  { unfold SAFE_NAMES. rewrite elem_of_app. destruct Hn as [Hn|[_ Hn]]; [by left|right].
    apply elem_of_cons in Hn as [->|Hn]; [|apply list_elem_of_singleton in Hn as ->];
      by apply one_of_true. }
  all: by apply one_of_true.
Qed.

Lemma safe_call_not_removal (command : list str) : safe_call P command -> ~ forced_removal command.
Proof.
  intros (cmd0 & args & name & -> & Hn & Hin)%safe_call_name (c & a & Hc & Hin')%forced_removal_head.
  simplify_eq. rewrite !elem_of_cons, elem_of_nil in Hin'.
  destruct Hin' as [->|[->|[]]]; vm_compute in Hn; simplify_eq;
    apply one_of_true in Hin; by vm_compute in Hin.
Qed.

(** The name of a shell that reads scripts, perhaps with more after a dot. *)
Definition shell_name (name : str) : Prop :=
  exists base, base ∈ [lit "zsh"; lit "bash"; lit "sh"] /\ extension_of name base.

Lemma detected_name (shell : str) :
  detect_shell_type shell ∈ [Some Zsh; Some Bash; Some Sh] ->
  exists name, file_name shell = Some name /\ shell_name name.
Proof.
  intros Hd.
  assert (Hb : forall base sh, shell_of_name base = Some sh -> sh ∈ [Zsh; Bash; Sh] ->
             base ∈ [lit "zsh"; lit "bash"; lit "sh"]).
  { unfold shell_of_name. intros base sh Hs Hin.
    repeat case_match; simplify_eq;
      repeat match goal with E : str_eqb _ _ = true |- _ => apply str_eqb_eq in E; subst end;
      first [by apply one_of_true | exfalso; revert Hin; rewrite !elem_of_cons, elem_of_nil; naive_solver]. }
  assert (exists sh, detect_shell_type shell = Some sh /\ sh ∈ [Zsh; Bash; Sh]) as (sh & Hd' & Hsh).
  { rewrite !elem_of_cons, elem_of_nil in Hd. destruct Hd as [E|[E|[E|[]]]]; rewrite E;
      eexists; (split; [done|]); rewrite !elem_of_cons; auto. }
  apply detect_named in Hd' as [Hs|(base & (name & Hn & Hext) & Hs)].
  - pose proof (Hb _ _ Hs Hsh) as Hin. exists shell. split.
    + rewrite !elem_of_cons, elem_of_nil in Hin. by destruct Hin as [->|[->|[->|[]]]].
    + exists shell. split; [done|by left].
  - exists name. split; [done|]. exists base. eauto.
Qed.

Definition SHELL_NAMES : list str := [lit "zsh"; lit "bash"; lit "sh"].

Definition begins_like_shell (name : str) : bool :=
  existsb (fun base => starts_with base name) SHELL_NAMES.

Lemma shell_name_begins (name : str) : shell_name name -> begins_like_shell name = true.
Proof.
  intros (base & Hb & Hext). unfold begins_like_shell. apply existsb_exists. exists base.
  split; [by apply list_elem_of_In|]. apply starts_with_true.
  destruct Hext as [->|[ext ->]]; [exists []; by rewrite app_nil_r|by eexists].
Qed.

Lemma safe_name_not_shell (name : str) : name ∈ SAFE_NAMES -> ~ shell_name name.
Proof.
  intros Hin Hs%shell_name_begins.
  assert (Hall : Forall (fun n => negb (begins_like_shell n) = true) SAFE_NAMES)
    by by apply forallb_Forall.
  rewrite Forall_forall in Hall. specialize (Hall _ Hin). by rewrite Hs in Hall.
Qed.

Lemma powershell_not_shell (exe name : str) :
  is_powershell_name P exe = true -> file_name exe = Some name -> ~ shell_name name.
Proof.
  unfold is_powershell_name. rewrite HP. intros Hp Hn. rewrite Hn in Hp.
  apply one_of_true in Hp. intros (base & Hb & Hext).
  assert (exists c r, name = c :: r /\ c ∈ lit "zbs") as (c & r & -> & Hc).
  { rewrite !elem_of_cons, elem_of_nil in Hb.
    destruct Hext as [->|[ext ->]]; destruct Hb as [->|[->|[->|[]]]]; do 2 eexists;
      (split; [reflexivity|]); apply contains_char_true; reflexivity. }
  rewrite !elem_of_cons, elem_of_nil in Hp. simpl in Hp.
  apply contains_char_true in Hc.
  destruct Hp as [Hp|[Hp|[Hp|[Hp|[]]]]]; injection Hp as Hp _;
    (unfold contains_char in Hc; simpl in Hc; rewrite !orb_true_iff, !N.eqb_eq in Hc;
     destruct Hc as [->|[->|[->|?]]]; done).
Qed.

(** A word of the script [zsh] has its letters. *)
Definition letters_of_zsh (w : str) : Prop := Forall (fun c => c ∈ lit "zsh") w.

Lemma script_text_zsh (w : str) : script_text (lit "zsh") w -> letters_of_zsh w.
Proof.
  intros (lo & hi & bytes & Hs & Hb).
  assert (Hl : forallb (fun c => contains_char c (lit "zsh")) w = true).
  { apply slice_Some in Hs as [[Hlo Hhi] ->]. change (length (encode (lit "zsh"))) with 3 in Hhi.
    destruct hi as [|[|[|[|?]]]]; [..|lia]; destruct lo as [|[|[|[|?]]]]; try lia;
      vm_compute in Hb; by simplify_eq. }
  apply forallb_Forall in Hl. eapply Forall_impl; [done|]. intros c. apply contains_char_true.
Qed.

Lemma word_of_zsh (w : str) : word_of_script (lit "zsh") w -> letters_of_zsh w.
Proof.
  intros (pieces & Hp & ->). apply Forall_concat, (Forall_impl _ _ _ Hp).
  intros piece [H|[H|H]]; apply script_text_zsh in H; [done|..];
    apply Forall_cons in H as [H _]; apply contains_char_true in H; by vm_compute in H.
Qed.

Lemma removal_not_letters (command : list str) :
  Forall (word_of_script (lit "zsh")) command -> ~ forced_removal command.
Proof.
  intros Hl (c & a & -> & Hc)%forced_removal_head.
  apply Forall_cons in Hl as [Hl%word_of_zsh _]. rewrite !elem_of_cons, elem_of_nil in Hc.
  unfold letters_of_zsh in Hl. rewrite Forall_forall in Hl.
  destruct Hc as [->|[->|[]]].
  - specialize (Hl (ch "r") ltac:(by left)). apply contains_char_true in Hl. by vm_compute in Hl.
  - specialize (Hl (ch "d") ltac:(right; right; by left)). apply contains_char_true in Hl.
    by vm_compute in Hl.
Qed.

Section Verdicts.
Context (try_parse_shell : str -> option Tree).
Context (parse_with_powershell_ast : str -> str -> PowershellParseOutcome).
Context (shlex_split : str -> option (list str)).
Context (re_captures : str -> option str) (url_scheme : str -> option str).

Abbreviation dangerous :=
  (command_might_be_dangerous P shlex_split re_captures url_scheme try_parse_shell).
Abbreviation known_safe :=
  (is_known_safe_command P try_parse_shell parse_with_powershell_ast).

(** What makes a command dangerous. *)
Lemma dangerous_means (command : list str) :
  dangerous command = true <->
  forced_removal command
  \/ exists shell script tree cmds words, extract_bash_command command = Some (shell, script)
       /\ try_parse_shell script = Some tree
       /\ try_parse_word_only_commands_sequence tree script = Some cmds
       /\ words ∈ cmds /\ forced_removal words.
Proof.
  unfold command_might_be_dangerous, parse_shell_lc_plain_commands. rewrite Hw. cbn [andb orb].
  rewrite orb_true_iff, dangerous_call_spec. apply or_iff_compat_l. split.
  - intros H. destruct (extract_bash_command command) as [[shell script]|]; [|done].
    simpl in H. destruct (try_parse_shell script) as [tree|] eqn:Ht; [|done]. simpl in H.
    case_match eqn:Hc; [|done]. apply existsb_exists in H as (words & Hin & Hd).
    apply dangerous_call_spec in Hd. apply list_elem_of_In in Hin. naive_solver.
  - intros (shell & script & tree & cmds & words & He & Ht & Hc & Hin & Hd).
    rewrite He. simpl. rewrite Ht. simpl. rewrite Hc. apply existsb_exists.
    exists words. by rewrite dangerous_call_spec, <- list_elem_of_In.
Qed.

Lemma zsh_as_bash_shell (shell name : str) :
  file_name shell = Some name -> shell_name name ->
  exists name', file_name (zsh_as_bash shell) = Some name' /\ shell_name name'.
Proof.
  unfold zsh_as_bash. intros Hn Hs. case_match; [|by eauto].
  exists (lit "bash"). split; [done|]. exists (lit "bash"). split; [by apply one_of_true|by left].
Qed.

Lemma zsh_as_bash_removal (command : list str) :
  forced_removal command -> forced_removal (map zsh_as_bash command).
Proof.
  intros (n & flag & args & -> & Hf). exists n, flag, (map zsh_as_bash args).
  rewrite map_app. split; [|done]. f_equal.
  - induction n as [|n IH]; simpl; [done|]. by rewrite IH.
  - simpl. f_equal. f_equal. rewrite !elem_of_cons, elem_of_nil in Hf. by destruct Hf as [->|[->|[]]].
Qed.

Lemma removal_not_shell (command : list str) :
  forced_removal command ->
  ~ safe_powershell P parse_with_powershell_ast command /\ extract_bash_command command = None.
Proof.
  intros (cmd0 & args & -> & Hc)%forced_removal_head.
  rewrite !elem_of_cons, elem_of_nil in Hc. split.
  - intros (exe & rest & cmds & ? & Hp & _). simplify_eq. unfold is_powershell_name in Hp.
    rewrite HP in Hp. by destruct Hc as [->|[->|[]]].
  - destruct args as [|flag [|script [|? ?]]]; try done. unfold extract_bash_command.
    destruct Hc as [->|[->|[]]];
      by destruct (str_eqb flag (lit "-lc") || str_eqb flag (lit "-c")).
Qed.

Lemma known_safe_not_dangerous (command : list str) :
  known_safe command = true -> dangerous command = false.
Proof.
  rewrite known_safe_cases. intros Hk. apply not_true_iff_false.
  intros [Hr%zsh_as_bash_removal|(shell & script & tree & cmds & words & He & Ht & Hc & Hin & Hd)]
    %dangerous_means.
  - destruct (removal_not_shell _ Hr) as [Hps Hb]. destruct Hk as [Hk|[Hk|Hk]]; [done|..].
    + by eapply safe_call_not_removal.
    + destruct Hk as (? & ? & ? & Hb' & _). congruence.
  - apply extract_bash_command_Some in He as (flag & -> & Hf & Hs).
    apply detected_name in Hs as (name & Hn & Hsn).
    destruct (zsh_as_bash_shell _ _ Hn Hsn) as (name' & Hn' & Hsn').
    destruct Hk as [Hk|[Hk|Hk]].
    + destruct Hk as (exe & args & commands & ? & Hp & _). simplify_eq/=.
      by eapply powershell_not_shell.
    + apply safe_call_name in Hk as (? & ? & name'' & ? & Hn'' & Hin''). simplify_eq/=.
      by eapply safe_name_not_shell.
    + destruct Hk as (sh & sc & tree' & (flag' & Hm & _)%extract_bash_command_Some & Ht' & Hok).
      simplify_eq/=. unfold zsh_as_bash at 1 in Ht'. case_match eqn:Hz.
      * apply str_eqb_eq in Hz as ->. apply words_spelled_out in Hc.
        rewrite Forall_forall in Hc. by eapply removal_not_letters; [apply Hc|].
      * simplify_eq. destruct Hok as (_ & _ & _ & Hall).
        apply (plain_commands_of _ _ _ _ Hc) in Hin as (n & Hn0 & Hp).
        destruct (Hall n Hn0) as (ws & Hp' & Hsafe). unfold zsh_as_bash in Hp'. rewrite Hz in Hp'.
        simplify_eq. by eapply safe_call_not_removal.
Qed.

(** Where the rules of Windows do not apply, no command is both known safe and
    dangerous, whatever the shell's parser makes of its script. *)
Theorem safe_not_dangerous (command : list str) :
  known_safe command = true -> dangerous command = false.
Proof. apply known_safe_not_dangerous. Qed.

End Verdicts.
End Disjoint.

End ShellVerdictFacts.
