(* ===== verification/ShellPowershellFacts.v ===== *)
(** * Facts about PowerShell invocations

    Which argument is the script, the prefix that sets its encoding, what the kept
    parser processes answer, and what the list for PowerShell accepts. *)

From Stdlib Require Import Ascii String.
From S2P Require Import Prelude RustStr ShellBash ShellScriptFacts ShellDangerous ShellPowershell.
From S2P Require Import ShellSafe.
Import ShellBash ShellBashFacts ShellScriptFacts.
Import ShellDangerous ShellPowershell ShellSafe ShellSafeFacts.

Module ShellPowershellFacts.

(** ** The script of an invocation *)

Definition quiet_flag (flag : str) : Prop :=
  to_ascii_lowercase flag ∈ [lit "-nologo"; lit "-noprofile"].

Definition command_flag (flag : str) : Prop :=
  to_ascii_lowercase flag ∈ [lit "-command"; lit "-c"].

Lemma flag_tests (flag : str) :
  (one_of POWERSHELL_FLAGS (to_ascii_lowercase flag) = true <->
     quiet_flag flag \/ command_flag flag)
  /\ (eq_ignore_ascii_case flag (lit "-Command") || eq_ignore_ascii_case flag (lit "-c") = true <->
     command_flag flag).
Proof.
  unfold quiet_flag, command_flag, POWERSHELL_FLAGS, eq_ignore_ascii_case.
  rewrite one_of_true, orb_true_iff, !str_eqb_eq, !elem_of_cons, !elem_of_nil.
  change (to_ascii_lowercase (lit "-Command")) with (lit "-command").
  change (to_ascii_lowercase (lit "-c")) with (lit "-c"). tauto.
Qed.

Lemma quiet_not_command (flag : str) : quiet_flag flag -> ~ command_flag flag.
Proof.
  unfold quiet_flag, command_flag. rewrite !elem_of_cons, !elem_of_nil.
  intros [->|[->|[]]] [H|[H|[]]]; by vm_compute in H.
Qed.

Lemma script_after_flags_spec (args : list str) (script : str) :
  script_after_flags args = Some script <->
  exists flags flag rest, args = flags ++ flag :: script :: rest
    /\ Forall quiet_flag flags /\ command_flag flag.
Proof.
  induction args as [|flag args IH].
  { split; [done|]. intros ([|? ?] & ? & ? & ? & _); by simplify_eq. }
  destruct (flag_tests flag) as [Hknown Hcommand]. destruct args as [|next args].
  { split; [done|]. intros ([|? [|? ?]] & ? & ? & ? & _); by simplify_eq. }
  cbn [script_after_flags].
  destruct (one_of POWERSHELL_FLAGS (to_ascii_lowercase flag)) eqn:Ek; cbn [negb];
    [destruct (eq_ignore_ascii_case flag (lit "-Command")
               || eq_ignore_ascii_case flag (lit "-c")) eqn:Ec|].
  - pose proof (proj1 Hcommand eq_refl) as Hc. split.
    + intros ?; simplify_eq. by exists [], flag, args.
    + intros ([|f flags] & g & rest & ? & Hq & _); simplify_eq/=; [done|].
      apply Forall_cons in Hq as [Hq _]. by apply quiet_not_command in Hq.
  - assert (Hq : quiet_flag flag).
    { destruct (proj1 Hknown eq_refl) as [|Hc]; [done|]. apply Hcommand in Hc. congruence. }
    rewrite IH. split.
    + intros (flags & g & rest & -> & Hf & Hg). exists (flag :: flags), g, rest.
      split_and!; [done|by constructor|done].
    + intros ([|f flags] & g & rest & ? & Hf & Hg); simplify_eq/=.
      * apply Hcommand in Hg. congruence.
      * apply Forall_cons in Hf as [_ Hf]. by exists flags, g, rest.
  - split; [done|]. intros ([|f flags] & g & rest & ? & Hf & Hg); simplify_eq/=.
    + by apply (or_intror (A := quiet_flag g)), Hknown in Hg.
    + apply Forall_cons in Hf as [Hf _]. by apply (or_introl (B := command_flag f)), Hknown in Hf.
Qed.

Lemma extract_powershell_spec (shell script : str) (args : list str) :
  detect_shell_type shell = Some PowerShell ->
  script_after_flags args = Some script ->
  extract_powershell_command (shell :: args) = Some (shell, script).
Proof.
  intros Hd Hs. unfold extract_powershell_command.
  assert (2 <= length args).
  { apply script_after_flags_spec in Hs as (flags & ? & ? & -> & _). rewrite length_app. simpl. lia. }
  rewrite (proj2 (Nat.ltb_ge _ _)) by (simpl; lia). by rewrite Hd, Hs.
Qed.

(** ** The encoding prefix *)

Definition prefixed (script : str) : str :=
  if starts_with UTF8_OUTPUT_PREFIX (trim_start script) then script
  else UTF8_OUTPUT_PREFIX ++ script.

Lemma prefixed_idemp (script : str) : prefixed (prefixed script) = prefixed script.
Proof.
  unfold prefixed at 2 3. destruct (starts_with _ (trim_start script)) eqn:E.
  - unfold prefixed. by rewrite E.
  - unfold prefixed.
    assert (trim_start (UTF8_OUTPUT_PREFIX ++ script) = UTF8_OUTPUT_PREFIX ++ script) as -> by done.
    by rewrite starts_with_app.
Qed.

Lemma prefix_script_last (shell script flag : str) (flags : list str) :
  detect_shell_type shell = Some PowerShell -> Forall quiet_flag flags -> command_flag flag ->
  prefix_powershell_script_with_utf8 (shell :: flags ++ [flag; script]) =
    shell :: flags ++ [flag; prefixed script].
Proof.
  intros Hd Hf Hc. unfold prefix_powershell_script_with_utf8.
  rewrite (extract_powershell_spec shell script) by
    (try done; apply script_after_flags_spec; by exists flags, flag, []).
  fold (prefixed script).
  replace (length (shell :: flags ++ [flag; script]) - 1) with (length (shell :: flags ++ [flag]))
    by (simpl; rewrite !length_app; simpl; lia).
  change (shell :: flags ++ [flag; script]) with ((shell :: flags) ++ [flag] ++ [script]).
  rewrite app_assoc. change ((shell :: flags) ++ [flag]) with (shell :: flags ++ [flag]).
  rewrite take_app_length. simpl. by rewrite <- app_assoc.
Qed.

(** For an invocation that ends in its script, the prefix goes before the script, once. *)
Theorem utf8_prefix_once (shell script flag : str) (flags : list str) :
  detect_shell_type shell = Some PowerShell -> Forall quiet_flag flags -> command_flag flag ->
  let command := shell :: flags ++ [flag; script] in
  let command' := prefix_powershell_script_with_utf8 command in
  extract_powershell_command command' = Some (shell, prefixed script)
  /\ take (length command - 1) command' = take (length command - 1) command
  /\ prefix_powershell_script_with_utf8 command' = command'.
Proof.
  intros Hd Hf Hc command command'. unfold command', command.
  rewrite (prefix_script_last _ _ _ _ Hd Hf Hc). split_and!.
  - apply extract_powershell_spec; [done|]. apply script_after_flags_spec.
    by exists flags, flag, [].
  - replace (length (shell :: flags ++ [flag; script]) - 1) with (length (shell :: flags ++ [flag]))
      by (simpl; rewrite !length_app; simpl; lia).
    assert (E : forall s : str, shell :: flags ++ [flag; s] = (shell :: flags ++ [flag]) ++ [s]).
    { intros s. simpl. by rewrite <- app_assoc. }
    by rewrite !E, !take_app_length.
  - rewrite (prefix_script_last _ _ _ _ Hd Hf Hc). by rewrite prefixed_idemp.
Qed.

(** ** The parser processes *)

Lemma well_formed_spec (commands : list (list str)) :
  well_formed_commands commands = true <->
  commands <> [] /\ Forall (fun cmd => cmd <> [] /\ Forall (fun word => word <> []) cmd) commands.
Proof.
  unfold well_formed_commands.
  rewrite andb_true_iff, negb_true_iff, bool_decide_eq_false, forallb_Forall.
  apply and_iff_compat_l, Forall_iff. intros cmd.
  rewrite andb_true_iff, negb_true_iff, bool_decide_eq_false, forallb_Forall.
  apply and_iff_compat_l, Forall_iff. intros word. by rewrite negb_true_iff, str_eqb_neq.
Qed.

Section Processes.
Context {World Child : Type}.
Context (spawn : str -> World -> option Child * World).
Context (exchange : Child -> N -> str -> World -> option PowershellParserResponse * World).

(** Some child answered the request with this outcome, under the request's identifier. *)
Definition answered (script : str) (outcome : PowershellParseOutcome) : Prop :=
  exists c id w w' response, exchange c id script w = (Some response, w')
    /\ response_id response = id /\ outcome = into_outcome response.

Lemma process_parse_answered (p p' : PowershellParserProcess (Child := Child)) (script : str)
    (w w' : World) (outcome : PowershellParseOutcome) :
  process_parse exchange p script w = (Some outcome, p', w') -> answered script outcome.
Proof.
  unfold process_parse. intros H. destruct (exchange _ _ _ _) as [[response|] w1] eqn:Hx; [|done].
  destruct (N.eqb_spec (response_id response) (next_request_id p)); simplify_eq/=.
  by exists (child p), (next_request_id p), w, w', response.
Qed.

Lemma parse_attempts_spec (n : nat) (executable script : str)
    (procs procs' : gmap (list N) PowershellParserProcess) (w w' : World)
    (outcome : PowershellParseOutcome) :
  parse_attempts spawn exchange n procs executable script w = (outcome, procs', w') ->
  (outcome = Failed \/ answered script outcome)
  /\ (forall other, other <> executable -> procs' !! other = procs !! other).
Proof.
  revert procs w. induction n as [|n IH]; intros procs w H; simpl in H; [simplify_eq; by auto|].
  destruct (ensure_process spawn procs executable w) as [[p|] w1]; [|simplify_eq; by auto].
  destruct (process_parse exchange p script w1) as [[[o|] p'] w2] eqn:Hp; simplify_eq.
  - split; [right; by eapply process_parse_answered|].
    intros other Ho. by rewrite lookup_insert_ne.
  - destruct (0 <? n); simplify_eq.
    + apply IH in H as [Ho Hf]. split; [done|]. intros other Hne.
      by rewrite Hf, lookup_delete_ne by done.
    + split; [by left|]. intros other Ho. by rewrite lookup_insert_ne.
Qed.

(** The commands that come out of the parser processes are those a child gave in an
    answer to this request that says all is well; they are not empty and have no
    empty word; and the processes of other executables stay as they were. *)
Theorem parsed_commands_answered (executable script : str)
    (procs procs' : gmap (list N) PowershellParserProcess) (w w' : World)
    (commands : list (list str)) :
  parse_with_cached_process spawn exchange procs executable script w
    = (Commands commands, procs', w') ->
  (exists c id w1 w2 response, exchange c id script w1 = (Some response, w2)
     /\ response_id response = id /\ status response = lit "ok"
     /\ response_commands response = Some commands)
  /\ commands <> []
  /\ Forall (fun cmd => cmd <> [] /\ Forall (fun word => word <> []) cmd) commands
  /\ (forall other, other <> executable -> procs' !! other = procs !! other).
Proof.
  intros [[|(c & id & w1 & w2 & response & Hx & Hid & Ho)] Hf]%parse_attempts_spec; [done|].
  unfold into_outcome in Ho. repeat case_match; simplify_eq.
  match goal with E : well_formed_commands _ = true |- _ => apply well_formed_spec in E as [? ?] end.
  match goal with E : str_eqb _ _ = true |- _ => apply str_eqb_eq in E end.
  split_and!; try done. by exists c, (response_id response), w1, w2, response.
Qed.

End Processes.

(** ** The list for PowerShell *)

(** The options before the subcommand of git. *)
Definition plain_powershell_git_option (arg : str) : Prop :=
  starts_with (lit "-") arg = true
  /\ git_global_option_requires_prompt (to_ascii_lowercase arg) = false
  /\ eq_ignore_ascii_case arg (lit "--config") = false
  /\ starts_with (lit "--config=") (to_ascii_lowercase arg) = false.

Lemma safe_git_args_spec (args : list str) :
  safe_git_args args = true <->
  exists options subcommand rest, args = options ++ subcommand :: rest
    /\ Forall plain_powershell_git_option options
    /\ starts_with (lit "-") subcommand = false
    /\ to_ascii_lowercase subcommand ∈ SAFE_SUBCOMMANDS.
Proof.
  unfold plain_powershell_git_option. induction args as [|arg args IH].
  { split; [done|]. intros ([|? ?] & ? & ? & ? & _); by simplify_eq. }
  cbn [safe_git_args]. destruct (starts_with (lit "-") arg) eqn:Hd.
  - destruct (git_global_option_requires_prompt (to_ascii_lowercase arg)
              || eq_ignore_ascii_case arg (lit "--config")
              || starts_with (lit "--config=") (to_ascii_lowercase arg)) eqn:Hu.
    + split; [done|]. intros ([|o options] & sub & rest & ? & Ho & Hs & _); simplify_eq/=; [congruence|].
      apply Forall_cons in Ho as [(_ & H1 & H2 & H3) _]. by rewrite H1, H2, H3 in Hu.
    + apply orb_false_iff in Hu as [[Hu1 Hu2]%orb_false_iff Hu3]. rewrite IH. split.
      * intros (options & sub & rest & -> & Ho & Hs). exists (arg :: options), sub, rest.
        split_and!; try done; [by constructor|apply Hs..].
      * intros ([|o options] & sub & rest & ? & Ho & Hs & Hin); simplify_eq/=; [congruence|].
        apply Forall_cons in Ho as [_ Ho]. by exists options, sub, rest.
  - rewrite one_of_true. split.
    + intros Hs. exists [], arg, args. by split_and!.
    + intros ([|o options] & sub & rest & ? & Ho & Hs & Hin); simplify_eq/=; [done|].
      apply Forall_cons in Ho as [[Ho _] _]. congruence.
Qed.

(** A command of a PowerShell script is approved when no word of it names a cmdlet that
    changes something, and it is a cmdlet of the list, or a query of git, or ripgrep
    without the options that run programs. *)
Theorem powershell_list_exact (words : list str) :
  is_safe_powershell_command words = true <->
  exists command args, words = command :: args
    /\ Forall (fun w => strip_decoration w ∉ UNSAFE_CMDLETS) words
    /\ (strip_decoration command ∈ SAFE_CMDLETS
        \/ strip_decoration command = lit "git"
           /\ (exists options subcommand rest, args = options ++ subcommand :: rest
                 /\ Forall plain_powershell_git_option options
                 /\ starts_with (lit "-") subcommand = false
                 /\ to_ascii_lowercase subcommand ∈ SAFE_SUBCOMMANDS)
        \/ strip_decoration command = lit "rg"
           /\ Forall (fun arg => unsafe_ripgrep_option (to_ascii_lowercase arg) = false) args).
Proof.
  destruct words as [|w args]; [naive_solver|]. unfold is_safe_powershell_command.
  assert (Hu : existsb (fun w => one_of UNSAFE_CMDLETS (strip_decoration w)) (w :: args) = false
               <-> Forall (fun w => strip_decoration w ∉ UNSAFE_CMDLETS) (w :: args)).
  { rewrite existsb_none. apply Forall_iff. intros x. apply one_of_false. }
  destruct (existsb _ (w :: args)).
  { split; [done|]. intros (? & ? & ? & Hf & _). by apply Hu in Hf. }
  apply proj1 in Hu. specialize (Hu eq_refl).
  destruct (one_of SAFE_CMDLETS (strip_decoration w)) eqn:Hs.
  { apply one_of_true in Hs. naive_solver. }
  apply one_of_false in Hs.
  assert (Hg := str_eqb_eq (strip_decoration w) (lit "git")).
  assert (Hr := str_eqb_eq (strip_decoration w) (lit "rg")).
  unfold is_safe_git_command, is_safe_ripgrep. change (drop 1 (w :: args)) with args.
  destruct (str_eqb (strip_decoration w) (lit "git")); [|destruct (str_eqb _ (lit "rg"))].
  - rewrite safe_git_args_spec. destruct Hg as [Hg _]. specialize (Hg eq_refl). split.
    + intros H. exists w, args. split_and!; [done|done|by right; left].
    + intros (? & ? & ? & _ & [?|[[_ ?]|[E _]]]); simplify_eq; [done|done|].
      rewrite Hg in E. by vm_compute in E.
  - rewrite negb_existsb. destruct Hr as [Hr _]. specialize (Hr eq_refl). split.
    + intros H. exists w, args. split_and!; [done|done|by right; right].
    + intros (? & ? & ? & _ & [?|[[E _]|[_ ?]]]); simplify_eq; [done| |done].
      rewrite Hr in E. by vm_compute in E.
  - split; [done|]. intros (? & ? & ? & _ & [?|[[E _]|[E _]]]); simplify_eq; [done|..].
    + by apply Hg in E.
    + by apply Hr in E.
Qed.

(** ** A parser process that echoes one command *)

Definition demo_spawn (executable : str) (w : nat) : option unit * nat := (Some tt, S w).

Definition demo_exchange (c : unit) (id : N) (script : str) (w : nat)
    : option PowershellParserResponse * nat :=
  (Some {| response_id := id; status := lit "ok"; response_commands := Some [[script]] |}, S w).

Lemma parsed_commands_answered_witness :
  exists procs' w', parse_with_cached_process demo_spawn demo_exchange ∅ (lit "pwsh") (lit "ls") 0
      = (Commands [[lit "ls"]], procs', w')
  /\ (exists c id w1 w2 response, demo_exchange c id (lit "ls") w1 = (Some response, w2)
       /\ response_id response = id /\ status response = lit "ok"
       /\ response_commands response = Some [[lit "ls"]])
  /\ [[lit "ls"]] <> []
  /\ Forall (fun cmd => cmd <> [] /\ Forall (fun word => word <> []) cmd) [[lit "ls"]]
  /\ (forall other, other <> lit "pwsh" -> procs' !! other = (∅ : gmap (list N) (PowershellParserProcess (Child := unit))) !! other).
Proof.
  destruct (parse_with_cached_process demo_spawn demo_exchange ∅ (lit "pwsh") (lit "ls") 0)
    as [[o procs'] w'] eqn:E.
  assert (o = Commands [[lit "ls"]]) as -> by (vm_compute in E; by injection E as <- _ _).
  exists procs', w'. split; [done|exact (parsed_commands_answered _ _ _ _ _ _ _ _ _ E)].
Defined.

End ShellPowershellFacts.
