(* ===== verification/FsPolicy.v ===== *)
(** * File access policies: src/protocol/src/permissions.rs

    A policy lists entries, each a path (or a symbolic path, or a glob) with a mode of
    access; the most specific entry that covers a path decides about it, and the
    metadata folders of a workspace stay read-only unless an entry names them. What the
    policies ask of the system is the record [Host]; the crate [globset] is a
    parameter of the matcher. *)

From Stdlib Require Import Ascii String.
From stdpp Require Import sorting.
From S2P Require Import Prelude RustStr AbsPath.
Import AbsPath.

Module FsPolicy.

(** ** The data *)

(** The mode [None] of the source is [NoAccess]. *)
Inductive FileSystemAccessMode := Read | Write | NoAccess.

#[export] Instance FileSystemAccessMode_eq_dec : EqDecision FileSystemAccessMode.
Proof. solve_decision. Defined.

(** The derived order, which is the order of precedence. *)
Definition mode_rank (m : FileSystemAccessMode) : nat :=
  match m with Read => 0 | Write => 1 | NoAccess => 2 end.

Definition can_read (m : FileSystemAccessMode) : bool :=
  match m with NoAccess => false | _ => true end.

Definition can_write (m : FileSystemAccessMode) : bool :=
  match m with Write => true | _ => false end.

Inductive FileSystemSpecialPath :=
| Root
| Minimal
| ProjectRoots (subpath : option str)
| Tmpdir
| SlashTmp
| Unknown (path : str) (subpath : option str).

Inductive FileSystemPath :=
| Path (path : str)
| GlobPattern (pattern : str)
| Special (value : FileSystemSpecialPath).

#[export] Instance FileSystemSpecialPath_eq_dec : EqDecision FileSystemSpecialPath.
Proof. solve_decision. Defined.
#[export] Instance FileSystemPath_eq_dec : EqDecision FileSystemPath.
Proof. solve_decision. Defined.

Record FileSystemAccessEntry := { entry_path : FileSystemPath; access : FileSystemAccessMode }.

#[export] Instance FileSystemAccessEntry_eq_dec : EqDecision FileSystemAccessEntry.
Proof. solve_decision. Defined.

Inductive FileSystemAccessLevel := Restricted | Unrestricted | External.

#[export] Instance FileSystemAccessLevel_eq_dec : EqDecision FileSystemAccessLevel.
Proof. solve_decision. Defined.

Record FileSystemAccessPolicy := {
  policy_kind : FileSystemAccessLevel;
  glob_scan_max_depth : option nat;
  entries : list FileSystemAccessEntry;
}.

Inductive NetworkAccessPolicy := NetworkRestricted | NetworkEnabled.

Definition is_enabled (p : NetworkAccessPolicy) : bool :=
  match p with NetworkEnabled => true | NetworkRestricted => false end.

(** ** Names of metadata folders *)

Definition PROTECTED_METADATA_PATH_NAMES : list str :=
  [lit ".git"; lit ".agents"; lit ".openagere"].

Definition is_protected_metadata_name (name : str) : bool :=
  one_of PROTECTED_METADATA_PATH_NAMES name.

Definition is_protected_metadata_directory_name (name : str) : bool :=
  str_eqb name (lit ".agents") || str_eqb name (lit ".openagere").

Definition metadata_path_name (name : str) : option str :=
  List.find (fun metadata_name => str_eqb name metadata_name) PROTECTED_METADATA_PATH_NAMES.

(** ** Constructors *)

Definition entry (p : FileSystemPath) (m : FileSystemAccessMode) : FileSystemAccessEntry :=
  {| entry_path := p; access := m |}.

Definition restricted (es : list FileSystemAccessEntry) : FileSystemAccessPolicy :=
  {| policy_kind := Restricted; glob_scan_max_depth := None; entries := es |}.

Definition default_policy : FileSystemAccessPolicy := restricted [entry (Special Root) Read].

Definition unrestricted : FileSystemAccessPolicy :=
  {| policy_kind := Unrestricted; glob_scan_max_depth := None; entries := [] |}.

Definition external_filesystem_policy : FileSystemAccessPolicy :=
  {| policy_kind := External; glob_scan_max_depth := None; entries := [] |}.

(** The policy with other entries. *)
Definition with_entries (p : FileSystemAccessPolicy) (es : list FileSystemAccessEntry)
    : FileSystemAccessPolicy :=
  {| policy_kind := policy_kind p; glob_scan_max_depth := glob_scan_max_depth p;
     entries := es |}.

Definition is_restricted (p : FileSystemAccessPolicy) : bool :=
  bool_decide (policy_kind p = Restricted).

(** ** Whole-disk access *)

Definition special_paths_share_target (left right : FileSystemSpecialPath) : bool :=
  match left, right with
  | Root, Root | Minimal, Minimal | Tmpdir, Tmpdir | SlashTmp, SlashTmp => true
  | ProjectRoots l, ProjectRoots r => bool_decide (components <$> l = components <$> r)
  | Unknown l ls, Unknown r rs =>
      str_eqb l r && bool_decide (components <$> ls = components <$> rs)
  | _, _ => false
  end.

Definition special_path_matches_absolute_path (value : FileSystemSpecialPath) (path : str)
    : bool :=
  match value with
  | Root => match parent path with None => true | Some _ => false end
  | SlashTmp => path_eqb path (lit "/tmp")
  | _ => false
  end.

Definition file_system_paths_share_target (left right : FileSystemPath) : bool :=
  match left, right with
  | Path l, Path r => path_eqb l r
  | Special l, Special r => special_paths_share_target l r
  | Path path, Special value | Special value, Path path =>
      special_path_matches_absolute_path value path
  | GlobPattern l, GlobPattern r => str_eqb l r
  | GlobPattern _, _ | _, GlobPattern _ => false
  end.

Definition has_root_access (p : FileSystemAccessPolicy)
    (predicate : FileSystemAccessMode -> bool) : bool :=
  is_restricted p
  && existsb (fun e => match entry_path e with
                       | Special Root => predicate (access e)
                       | _ => false
                       end) (entries p).

Definition has_denied_read_restrictions (p : FileSystemAccessPolicy) : bool :=
  is_restricted p && existsb (fun e => bool_decide (access e = NoAccess)) (entries p).

Definition has_same_target_write_override (p : FileSystemAccessPolicy)
    (e : FileSystemAccessEntry) : bool :=
  existsb (fun candidate =>
    can_write (access candidate)
    && (mode_rank (access e) <? mode_rank (access candidate))
    && file_system_paths_share_target (entry_path candidate) (entry_path e)) (entries p).

Definition narrows_write (p : FileSystemAccessPolicy) (e : FileSystemAccessEntry) : bool :=
  if can_write (access e) then false
  else
    match entry_path e with
    | Path _ => negb (has_same_target_write_override p e)
    | GlobPattern _ => true
    | Special Root => bool_decide (access e = NoAccess)
    | Special Minimal | Special (Unknown _ _) => false
    | Special _ => negb (has_same_target_write_override p e)
    end.

Definition has_write_narrowing_entries (p : FileSystemAccessPolicy) : bool :=
  is_restricted p && existsb (narrows_write p) (entries p).

Definition has_full_disk_read_access (p : FileSystemAccessPolicy) : bool :=
  match policy_kind p with
  | Unrestricted | External => true
  | Restricted => has_root_access p can_read && negb (has_denied_read_restrictions p)
  end.

Definition has_full_disk_write_access (p : FileSystemAccessPolicy) : bool :=
  match policy_kind p with
  | Unrestricted | External => true
  | Restricted => has_root_access p can_write && negb (has_write_narrowing_entries p)
  end.

Definition include_platform_defaults (p : FileSystemAccessPolicy) : bool :=
  negb (has_full_disk_read_access p) && is_restricted p
  && existsb (fun e => match entry_path e with
                       | Special Minimal => can_read (access e)
                       | _ => false
                       end) (entries p).

(** The derived [==] of entries; paths are equal when their components are. *)
Definition file_system_path_eqb (left right : FileSystemPath) : bool :=
  match left, right with
  | Path l, Path r => path_eqb l r
  | GlobPattern l, GlobPattern r => str_eqb l r
  | Special l, Special r => special_paths_share_target l r
  | _, _ => false
  end.

Definition entry_eqb (left right : FileSystemAccessEntry) : bool :=
  file_system_path_eqb (entry_path left) (entry_path right)
  && bool_decide (access left = access right).

(** [preserve_deny_read_restrictions_from] *)
Definition preserve_deny_read_restrictions_from (self existing : FileSystemAccessPolicy)
    : FileSystemAccessPolicy :=
  let deny_entries :=
    List.filter (fun e => bool_decide (access e = NoAccess)) (entries existing) in
  let self :=
    if bool_decide (policy_kind self = Unrestricted) && negb (bool_decide (deny_entries = []))
    then restricted [entry (Special Root) Write] else self in
  if negb (is_restricted self) then self
  else
    {| policy_kind := policy_kind self;
       glob_scan_max_depth := match glob_scan_max_depth self with
                              | None => glob_scan_max_depth existing
                              | depth => depth
                              end;
       entries :=
         fold_left (fun es deny_entry =>
           if existsb (fun e => entry_eqb e deny_entry) es then es
           else es ++ [deny_entry]) deny_entries (entries self) |}.

(** ** Resolution *)

(** What is asked of the system: the environment, and the files at this moment. *)
Record Host := {
  home_dir : option str;
  current_dir : option str;
  tmpdir : option str;
  canonicalize : str -> result str str;
  symlink_metadata : str -> option bool;
  is_dir : str -> bool;
  is_file : str -> bool;
  path_exists : str -> bool;
  read_to_string : str -> option str;
}.

Record ResolvedFileSystemEntry := { resolved_path : str; resolved_access : FileSystemAccessMode }.

Section OnHost.
Context (H : Host).

(** [AbsolutePathBuf::from_absolute_path(path).ok()], and [AbsolutePathBuf::join]. *)
Definition absolute (path : str) : option str :=
  match from_absolute_path (home_dir H) (current_dir H) path with Ok p => Some p | _ => None end.

Definition join_abs (base path : str) : str := abs_join (home_dir H) base path.

(** The panics of the source are unreachable: a path has a last ancestor, and that of an
    absolute path is absolute. *)
Definition absolute_root_path_for_cwd (cwd : str) : option str :=
  root ← last (ancestors cwd); absolute root.

Definition resolve_file_system_special_path (value : FileSystemSpecialPath) (cwd : option str)
    : option str :=
  match value with
  | Root | Minimal | Unknown _ _ => None
  | ProjectRoots subpath =>
      cwd ← cwd;
      match subpath with
      | Some subpath => Some (resolve_path_against_base (home_dir H) subpath cwd)
      | None => Some cwd
      end
  | Tmpdir => dir ← tmpdir H; if str_eqb dir [] then None else absolute dir
  | SlashTmp =>
      slash_tmp ← absolute (lit "/tmp");
      if is_dir H slash_tmp then Some slash_tmp else None
  end.

Definition resolve_file_system_path (path : FileSystemPath) (cwd : option str) : option str :=
  match path with
  | Path path => Some path
  | GlobPattern _ => None
  | Special value => resolve_file_system_special_path value cwd
  end.

Definition resolve_entry_path (path : FileSystemPath) (cwd : option str) : option str :=
  match path with
  | Special Root => cwd ← cwd; absolute_root_path_for_cwd cwd
  | _ => resolve_file_system_path path cwd
  end.

Definition resolve_candidate_path (path cwd : str) : option str :=
  if is_absolute path then absolute path
  else base ← absolute cwd; Some (join_abs base path).

Definition resolve_entry (cwd_absolute : option str) (e : FileSystemAccessEntry)
    : option ResolvedFileSystemEntry :=
  path ← resolve_entry_path (entry_path e) cwd_absolute;
  Some {| resolved_path := path; resolved_access := access e |}.

Definition resolved_entries_with_cwd (p : FileSystemAccessPolicy) (cwd : str)
    : list ResolvedFileSystemEntry :=
  omap (resolve_entry (absolute cwd)) (entries p).

(** [resolved_entry_precedence], compared as a pair. *)
Definition specificity (e : ResolvedFileSystemEntry) : nat :=
  length (components (resolved_path e)).

Definition precedence_le (a b : ResolvedFileSystemEntry) : bool :=
  (specificity a <? specificity b)
  || (specificity a =? specificity b)
     && (mode_rank (resolved_access a) <=? mode_rank (resolved_access b)).

(** [Iterator::max_by_key]: the last of the greatest. *)
Definition max_by_precedence (es : list ResolvedFileSystemEntry)
    : option ResolvedFileSystemEntry :=
  fold_left (fun best e => match best with
                           | Some b => if precedence_le b e then Some e else Some b
                           | None => Some e
                           end) es None.

Definition resolve_access_with_cwd (p : FileSystemAccessPolicy) (path cwd : str)
    : FileSystemAccessMode :=
  match policy_kind p with
  | Unrestricted | External => Write
  | Restricted =>
      match resolve_candidate_path path cwd with
      | None => NoAccess
      | Some path =>
          match max_by_precedence
                  (List.filter (fun e => path_starts_with path (resolved_path e))
                     (resolved_entries_with_cwd p cwd)) with
          | Some e => resolved_access e
          | None => NoAccess
          end
      end
  end.

Definition can_read_path_with_cwd (p : FileSystemAccessPolicy) (path cwd : str) : bool :=
  can_read (resolve_access_with_cwd p path cwd).

(** ** Protected metadata *)

(** The first writable entry below which the target is in a metadata folder. *)
Definition metadata_child_of (target : str) (e : ResolvedFileSystemEntry) : option (str * str) :=
  if can_write (resolved_access e) then
    relative_path ← path_strip_prefix target (resolved_path e);
    first_component ← head relative_path;
    metadata_name ← metadata_path_name (component_str first_component);
    Some (join_abs (resolved_path e) metadata_name, metadata_name)
  else None.

Definition metadata_child_of_writable_root (p : FileSystemAccessPolicy) (target cwd : str)
    : option (str * str) :=
  head (omap (metadata_child_of target) (resolved_entries_with_cwd p cwd)).

Definition has_explicit_write_entry_for_metadata_path (p : FileSystemAccessPolicy)
    (protected_metadata_path target cwd : str) : bool :=
  existsb (fun e =>
    can_write (resolved_access e) && path_starts_with target (resolved_path e)
    && path_starts_with (resolved_path e) protected_metadata_path)
    (resolved_entries_with_cwd p cwd).

Definition is_metadata_write_denied (p : FileSystemAccessPolicy) (path cwd : str) : bool :=
  if negb (is_restricted p) then false
  else
    match resolve_candidate_path path cwd with
    | None => true
    | Some target =>
        match metadata_child_of_writable_root p target cwd with
        | None => false
        | Some (protected_metadata_path, _) =>
            negb (has_explicit_write_entry_for_metadata_path p protected_metadata_path target cwd)
        end
    end.

Definition can_write_path_with_cwd (p : FileSystemAccessPolicy) (path cwd : str) : bool :=
  if negb (can_write (resolve_access_with_cwd p path cwd)) then false
  else if has_full_disk_write_access p then true
  else negb (is_metadata_write_denied p path cwd).

Definition forbidden_agent_metadata_write (path cwd : str) (p : FileSystemAccessPolicy)
    : option str :=
  if negb (is_restricted p) then None
  else
    target ← resolve_candidate_path path cwd;
    '(protected_metadata_path, metadata_name) ← metadata_child_of_writable_root p target cwd;
    if has_explicit_write_entry_for_metadata_path p protected_metadata_path target cwd then None
    else if negb (can_write_path_with_cwd p target cwd) then Some metadata_name
    else None.

(** ** Changing a policy *)

Definition materialize_project_roots_with_cwd (p : FileSystemAccessPolicy) (cwd : str)
    : FileSystemAccessPolicy :=
  let cwd := absolute cwd in
  with_entries p (map (fun e =>
    match entry_path e with
    | Special (ProjectRoots _) =>
        match resolve_file_system_path (entry_path e) cwd with
        | Some path => entry (Path path) (access e)
        | None => e
        end
    | _ => e
    end) (entries p)).

Definition push_entry (p : FileSystemAccessPolicy) (e : FileSystemAccessEntry)
    : FileSystemAccessPolicy := with_entries p (entries p ++ [e]).

Definition with_additional_readable_roots (p : FileSystemAccessPolicy) (cwd : str)
    (additional_readable_roots : list str) : FileSystemAccessPolicy :=
  if has_full_disk_read_access p then p
  else fold_left (fun p path =>
         if can_read_path_with_cwd p path cwd then p else push_entry p (entry (Path path) Read))
         additional_readable_roots p.

Definition with_additional_writable_roots (p : FileSystemAccessPolicy) (cwd : str)
    (additional_writable_roots : list str) : FileSystemAccessPolicy :=
  fold_left (fun p path =>
    if can_write_path_with_cwd p path cwd then p else push_entry p (entry (Path path) Write))
    additional_writable_roots p.

End OnHost.

End FsPolicy.
