(* ===== verification/FsRoots.v ===== *)
(** * What a file access policy amounts to: src/protocol/src/permissions.rs,
      and [WritableRoot] of src/protocol/src/protocol.rs

    The roots that may be read and written, the read-only folders below them, the
    matcher for denied reads, and the policy of a workspace. *)

From Stdlib Require Import Ascii String.
From stdpp Require Import sorting.
From S2P Require Import Prelude RustStr AbsPath FsPolicy.
Import AbsPath FsPolicy.

Module FsRoots.

(** ** Sets of paths *)

(** The first of paths that are equal as paths, as a [HashSet] keeps them. *)
Fixpoint dedup_from (seen : list str) (paths : list str) : list str :=
  match paths with
  | [] => []
  | p :: paths => if existsb (path_eqb p) seen then dedup_from seen paths
                  else p :: dedup_from (p :: seen) paths
  end.

Section OnHost.
Context (H : Host).

Abbreviation from_path := (from_absolute_path (home_dir H) (current_dir H)).

(** One ancestor in the loop of [normalize_effective_absolute_path]. *)
Definition normalize_at (raw_path ancestor : str) : option str :=
  match symlink_metadata H ancestor with
  | None => None
  | Some _ =>
      match canonicalize_preserving_symlinks (home_dir H) (current_dir H) (canonicalize H)
              (symlink_metadata H) ancestor with
      | Ok normalized_ancestor =>
          suffix ← path_strip_prefix raw_path ancestor;
          absolute H (push normalized_ancestor (of_components suffix))
      | _ => None
      end
  end.

Definition normalize_effective_absolute_path (path : str) : str :=
  match head (omap (normalize_at path) (ancestors path)) with
  | Some normalized_path => normalized_path
  | None => path
  end.

Definition dedup_absolute_paths (paths : list str) (normalize_effective_paths : bool)
    : list str :=
  dedup_from []
    (if normalize_effective_paths then map normalize_effective_absolute_path paths else paths).

(** ** The metadata of a workspace *)

Definition is_git_pointer_file (path : str) : bool :=
  is_file H path && bool_decide (file_name path = Some (lit ".git")).

Definition resolve_gitdir_from_file (dot_git : str) : option str :=
  contents ← read_to_string H dot_git;
  '(prefix, gitdir_raw) ← split_once (ch ":") (trim contents);
  if negb (str_eqb (trim prefix) (lit "gitdir")) then None
  else
    let gitdir_raw := trim gitdir_raw in
    if str_eqb gitdir_raw [] then None
    else base ← parent dot_git;
         let gitdir_path := resolve_path_against_base (home_dir H) gitdir_raw base in
         if path_exists H gitdir_path then Some gitdir_path else None.

Definition default_read_only_subpaths_for_writable_root (writable_root : str)
    (protect_missing_dot_agere : bool) : list str :=
  let top_level_git := join_abs H writable_root (lit ".git") in
  let top_level_git_is_file := is_file H top_level_git in
  let git_subpaths :=
    if is_dir H top_level_git || top_level_git_is_file then
      match (if top_level_git_is_file && is_git_pointer_file top_level_git
             then resolve_gitdir_from_file top_level_git else None) with
      | Some gitdir => [gitdir]
      | None => []
      end ++ [top_level_git]
    else [] in
  let top_level_agents := join_abs H writable_root (lit ".agents") in
  let top_level_agere := join_abs H writable_root (lit ".openagere") in
  dedup_absolute_paths
    (git_subpaths
     ++ (if is_dir H top_level_agents then [top_level_agents] else [])
     ++ (if protect_missing_dot_agere || is_dir H top_level_agere then [top_level_agere] else []))
    false.

Definition append_default_read_only_entry_if_no_explicit_rule
    (es : list FileSystemAccessEntry) (path : FileSystemPath) : list FileSystemAccessEntry :=
  if existsb (fun e => file_system_paths_share_target (entry_path e) path) es then es
  else es ++ [entry path Read].

Definition append_default_read_only_project_root_subpath_if_no_explicit_rule
    (es : list FileSystemAccessEntry) (subpath : str) : list FileSystemAccessEntry :=
  append_default_read_only_entry_if_no_explicit_rule es (Special (ProjectRoots (Some subpath))).

Definition append_default_read_only_path_if_no_explicit_rule
    (es : list FileSystemAccessEntry) (path : str) : list FileSystemAccessEntry :=
  append_default_read_only_entry_if_no_explicit_rule es (Path path).

(** The loop over the protected paths of one root. *)
Definition protect_root (es : list FileSystemAccessEntry) (root : str)
    : list FileSystemAccessEntry :=
  fold_left append_default_read_only_path_if_no_explicit_rule
    (default_read_only_subpaths_for_writable_root root false) es.

Definition workspace_write (writable_roots : list str)
    (exclude_tmpdir_env_var exclude_slash_tmp : bool) : FileSystemAccessPolicy :=
  let es :=
    [entry (Special Root) Read; entry (Special (ProjectRoots None)) Write]
    ++ (if negb exclude_slash_tmp then [entry (Special SlashTmp) Write] else [])
    ++ (if negb exclude_tmpdir_env_var then [entry (Special Tmpdir) Write] else [])
    ++ map (fun path => entry (Path path) Write) writable_roots in
  let es := append_default_read_only_project_root_subpath_if_no_explicit_rule es (lit ".git") in
  let es := append_default_read_only_project_root_subpath_if_no_explicit_rule es (lit ".agents") in
  let es :=
    append_default_read_only_project_root_subpath_if_no_explicit_rule es (lit ".openagere") in
  restricted (fold_left protect_root writable_roots es).

Definition from_legacy_access_policy_for_cwd (name : str) : FileSystemAccessPolicy :=
  if str_eqb name (lit "read-only") then restricted [entry (Special Root) Read]
  else if str_eqb name (lit "workspace-write") then workspace_write [] true true
  else if str_eqb name (lit "danger-full-access") then unrestricted
  else if str_eqb name (lit "external-access") then external_filesystem_policy
  else unrestricted.

Definition add_legacy_root (es : list FileSystemAccessEntry) (path : str)
    : list FileSystemAccessEntry :=
  let es :=
    if existsb (fun e => can_write (access e)
                         && match entry_path e with
                            | Path existing => path_eqb existing path
                            | _ => false
                            end) es
    then es else es ++ [entry (Path path) Write] in
  protect_root es path.

Definition with_additional_legacy_workspace_writable_roots (p : FileSystemAccessPolicy)
    (additional_writable_roots : list str) : FileSystemAccessPolicy :=
  if negb (is_restricted p) then p
  else with_entries p (fold_left add_legacy_root additional_writable_roots (entries p)).

(** ** Roots *)

Definition get_readable_roots_with_cwd (p : FileSystemAccessPolicy) (cwd : str) : list str :=
  if has_full_disk_read_access p then []
  else
    dedup_absolute_paths
      (map resolved_path
         (List.filter (fun e => can_read_path_with_cwd H p (resolved_path e) cwd)
            (List.filter (fun e => can_read (resolved_access e))
               (resolved_entries_with_cwd H p cwd)))) true.

Definition get_unreadable_roots_with_cwd (p : FileSystemAccessPolicy) (cwd : str) : list str :=
  if negb (is_restricted p) then []
  else
    let root := cwd ← absolute H cwd; absolute_root_path_for_cwd H cwd in
    dedup_absolute_paths
      (map resolved_path
         (List.filter (fun e => match root with
                                | Some root => negb (path_eqb root (resolved_path e))
                                | None => true
                                end)
            (List.filter (fun e => negb (can_read_path_with_cwd H p (resolved_path e) cwd))
               (List.filter (fun e => bool_decide (resolved_access e = NoAccess))
                  (resolved_entries_with_cwd H p cwd))))) true.

(** [sort] and [dedup] of texts. *)
Definition str_leb (a b : str) : Prop := str_le a b.

#[export] Instance str_leb_dec : RelDecision str_leb.
Proof. intros a b. unfold str_leb, str_le. apply _. Defined.

Fixpoint dedup_sorted (l : list str) : list str :=
  match l with
  | x :: (y :: _) as rest => if str_eqb x y then dedup_sorted rest else x :: dedup_sorted rest
  | l => l
  end.

Definition get_unreadable_globs_with_cwd (p : FileSystemAccessPolicy) (cwd : str) : list str :=
  if negb (is_restricted p) then []
  else
    dedup_sorted (merge_sort str_leb
      (omap (fun e => match entry_path e with
                      | GlobPattern pattern =>
                          Some (resolve_path_against_base (home_dir H) pattern cwd)
                      | _ => None
                      end)
         (List.filter (fun e => bool_decide (access e = NoAccess)) (entries p)))).

(** ** Writable roots *)

Record WritableRoot := {
  root : str;
  read_only_subpaths : list str;
  protected_metadata_names : list str;
}.

Definition path_contains_protected_metadata_name (w : WritableRoot) (path : str) : bool :=
  match path_strip_prefix path (root w) with
  | Some (first_component :: _) =>
      existsb (fun name => str_eqb (component_str first_component) name)
        (protected_metadata_names w)
  | _ => false
  end.

Definition is_path_writable (w : WritableRoot) (path : str) : bool :=
  if negb (path_starts_with path (root w)) then false
  else if existsb (path_starts_with path) (read_only_subpaths w) then false
  else negb (path_contains_protected_metadata_name w path).

Definition protected_metadata_names_for_writable_root (p : FileSystemAccessPolicy) (root : str)
    (raw_writable_roots : list str) (cwd : str) : list str :=
  List.filter (fun metadata_name =>
    forallb (fun r => negb (can_write_path_with_cwd H p (join_abs H r metadata_name) cwd))
      (root :: raw_writable_roots)) PROTECTED_METADATA_PATH_NAMES.

Definition has_explicit_resolved_path_entry (es : list ResolvedFileSystemEntry) (path : str)
    : bool := existsb (fun e => path_eqb (resolved_path e) path) es.

(** Where a read-only entry lies below a root: first as it is spelled, below the root or
    below one of the spellings of the root, then as the system spells it. *)
Definition raw_carveout_path (root : str) (raw_writable_roots : list str) (path : str)
    : option str :=
  if path_eqb path root then None
  else if path_starts_with path root then Some path
  else
    head (omap (fun raw_root =>
      suffix ← path_strip_prefix path raw_root;
      match suffix with
      | [] => None
      | _ => Some (join_abs H root (of_components suffix))
      end) raw_writable_roots).

Definition carveout (root : str) (raw_writable_roots : list str) (path : str) : option str :=
  let effective_path := normalize_effective_absolute_path path in
  let raw := match parent root with
             | Some _ => raw_carveout_path root raw_writable_roots path
             | None => None
             end in
  match raw with
  | Some raw => Some raw
  | None =>
      if path_eqb effective_path root || negb (path_starts_with effective_path root) then None
      else Some effective_path
  end.

Definition writable_root_for (p : FileSystemAccessPolicy) (cwd : str)
    (resolved_entries : list ResolvedFileSystemEntry) (writable_entries : list str)
    (root : str) : WritableRoot :=
  let raw_writable_roots :=
    List.filter (fun path => path_eqb (normalize_effective_absolute_path path) root)
      writable_entries in
  let protect_missing_dot_agere :=
    match absolute H cwd with
    | Some cwd => path_eqb (normalize_effective_absolute_path cwd) root
    | None => false
    end in
  let defaults :=
    List.filter (fun path => negb (has_explicit_resolved_path_entry resolved_entries path))
      (default_read_only_subpaths_for_writable_root root protect_missing_dot_agere) in
  let carveouts :=
    omap (fun e => carveout root raw_writable_roots (resolved_path e))
      (List.filter (fun e => negb (can_write_path_with_cwd H p (resolved_path e) cwd))
         (List.filter (fun e => negb (can_write (resolved_access e))) resolved_entries)) in
  {| root := root;
     read_only_subpaths := dedup_absolute_paths (defaults ++ carveouts) false;
     protected_metadata_names :=
       protected_metadata_names_for_writable_root p root raw_writable_roots cwd |}.

Definition get_writable_roots_with_cwd (p : FileSystemAccessPolicy) (cwd : str)
    : list WritableRoot :=
  if has_full_disk_write_access p then []
  else
    let resolved_entries := resolved_entries_with_cwd H p cwd in
    let writable_entries :=
      map resolved_path
        (List.filter (fun e => can_write_path_with_cwd H p (resolved_path e) cwd)
           (List.filter (fun e => can_write (resolved_access e)) resolved_entries)) in
    map (writable_root_for p cwd resolved_entries writable_entries)
      (dedup_absolute_paths writable_entries true).

(** ** The matcher for denied reads *)

Section Matcher.
(** [build_glob_matcher] of a pattern: none when the crate [globset] refuses it. *)
Context (build_glob_matcher : str -> option (str -> bool)).

Record ReadDenyMatcher := {
  denied_candidates : list (list str);
  deny_read_matchers : list (str -> bool);
  invalid_pattern : bool;
}.

Definition push_unique (candidates : list str) (candidate : str) : list str :=
  if existsb (fun existing => path_eqb existing candidate) candidates then candidates
  else candidates ++ [candidate].

Definition normalized_and_canonical_candidates (path : str) : list str :=
  let candidates :=
    match from_path path with
    | Ok normalized => push_unique [] normalized
    | _ => push_unique [] path
    end in
  match canonicalize H path with
  | Ok canonical =>
      match from_path canonical with
      | Ok canonical_absolute => push_unique candidates canonical_absolute
      | _ => candidates
      end
  | _ => candidates
  end.

Definition new_read_deny_matcher (p : FileSystemAccessPolicy) (cwd : str)
    : option ReadDenyMatcher :=
  if negb (has_denied_read_restrictions p) then None
  else
    let patterns := get_unreadable_globs_with_cwd p cwd in
    Some {| denied_candidates :=
              map normalized_and_canonical_candidates (get_unreadable_roots_with_cwd p cwd);
            deny_read_matchers := omap build_glob_matcher patterns;
            invalid_pattern :=
              existsb (fun pattern => match build_glob_matcher pattern with
                                      | None => true
                                      | Some _ => false
                                      end) patterns |}.

Definition is_read_denied (m : ReadDenyMatcher) (path : str) : bool :=
  if invalid_pattern m then true
  else
    let path_candidates := normalized_and_canonical_candidates path in
    if existsb (fun denied =>
         existsb (fun candidate =>
           existsb (fun denied_candidate =>
             path_eqb candidate denied_candidate
             || path_starts_with candidate denied_candidate) denied) path_candidates)
         (denied_candidates m)
    then true
    else existsb (fun matcher => existsb matcher path_candidates) (deny_read_matchers m).

End Matcher.
End OnHost.

End FsRoots.

(** * Permission profiles: src/protocol/src/models.rs

    The permissions of a session as they are kept and sent, and their conversion to
    and from the policies that are enforced. *)

Import AbsPath FsPolicy FsRoots.

Module FsProfile.

(** A [NonZeroUsize] is a [positive]. *)
Definition nonzero (n : nat) : option positive :=
  match n with 0 => None | S _ => Some (Pos.of_nat n) end.

(** ** Additional permissions *)

Record FileSystemPermissions := {
  perm_entries : list FileSystemAccessEntry;
  perm_depth : option positive;
}.

Definition permissions_is_empty (p : FileSystemPermissions) : bool :=
  bool_decide (perm_entries p = []).

Definition from_read_write_roots (read write : option (list str)) : FileSystemPermissions :=
  let roots mode paths :=
    match paths with Some paths => map (fun path => entry (Path path) mode) paths | None => [] end in
  {| perm_entries := roots Read read ++ roots Write write; perm_depth := None |}.

Definition explicit_path_entries (p : FileSystemPermissions)
    : list (str * FileSystemAccessMode) :=
  omap (fun e => match entry_path e with
                 | Path path => Some (path, access e)
                 | _ => None
                 end) (perm_entries p).

(** The loop over the entries, with the two vectors. *)
Fixpoint legacy_roots (es : list FileSystemAccessEntry) (read write : list str)
    : option (list str * list str) :=
  match es with
  | [] => Some (read, write)
  | e :: es =>
      match entry_path e with
      | Path path =>
          match access e with
          | Read => legacy_roots es (read ++ [path]) write
          | Write => legacy_roots es read (write ++ [path])
          | NoAccess => None
          end
      | _ => None
      end
  end.

Definition non_empty_roots (paths : list str) : option (list str) :=
  match paths with [] => None | _ => Some paths end.

Definition legacy_read_write_roots (p : FileSystemPermissions)
    : option (option (list str) * option (list str)) :=
  match perm_depth p with
  | Some _ => None
  | None => '(read, write) ← legacy_roots (perm_entries p) [] [];
            Some (non_empty_roots read, non_empty_roots write)
  end.

(** ** Profiles *)

Inductive FilesystemIsolation := IsolationManaged | IsolationDisabled | IsolationExternal.

#[export] Instance FilesystemIsolation_eq_dec : EqDecision FilesystemIsolation.
Proof. solve_decision. Defined.

Definition isolation_from_legacy_access_policy (name : str) : FilesystemIsolation :=
  if str_eqb name (lit "danger-full-access") then IsolationDisabled
  else if str_eqb name (lit "external-access") then IsolationExternal
  else IsolationManaged.

Inductive ManagedFileSystemPermissions :=
| ManagedRestricted (es : list FileSystemAccessEntry) (depth : option positive)
| ManagedUnrestricted.

Inductive PermissionProfile :=
| Managed (file_system : ManagedFileSystemPermissions) (network : NetworkAccessPolicy)
| Disabled
| ExternalProfile (network : NetworkAccessPolicy).

Definition default_profile : PermissionProfile :=
  Managed (ManagedRestricted [] None) NetworkRestricted.

Definition read_only_profile : PermissionProfile :=
  Managed (ManagedRestricted [entry (Special Root) Read] None) NetworkRestricted.

(** [from_access_policy] is not reached by an external policy, which would panic. *)
Definition from_access_policy (p : FileSystemAccessPolicy)
    : result Empty_set ManagedFileSystemPermissions :=
  match policy_kind p with
  | Restricted => Ok (ManagedRestricted (entries p) (d ← glob_scan_max_depth p; nonzero d))
  | Unrestricted => Ok ManagedUnrestricted
  | External => Crash Panicked
  end.

Definition from_runtime_permissions_with_filesystem_isolation (isolation : FilesystemIsolation)
    (p : FileSystemAccessPolicy) (network : NetworkAccessPolicy)
    : result Empty_set PermissionProfile :=
  match policy_kind p with
  | External => Ok (ExternalProfile network)
  | Unrestricted =>
      if bool_decide (isolation = IsolationDisabled) then Ok Disabled
      else file_system ← from_access_policy p; Ok (Managed file_system network)
  | Restricted => file_system ← from_access_policy p; Ok (Managed file_system network)
  end.

Definition from_runtime_permissions (p : FileSystemAccessPolicy) (network : NetworkAccessPolicy)
    : result Empty_set PermissionProfile :=
  let isolation := match policy_kind p with
                   | Restricted | Unrestricted => IsolationManaged
                   | External => IsolationExternal
                   end in
  from_runtime_permissions_with_filesystem_isolation isolation p network.

Definition filesystem_isolation (profile : PermissionProfile) : FilesystemIsolation :=
  match profile with
  | Managed _ _ => IsolationManaged
  | Disabled => IsolationDisabled
  | ExternalProfile _ => IsolationExternal
  end.

Definition network_access_policy (profile : PermissionProfile) : NetworkAccessPolicy :=
  match profile with
  | Managed _ network | ExternalProfile network => network
  | Disabled => NetworkEnabled
  end.

Definition from_legacy_access_policy (name : str) : PermissionProfile :=
  if str_eqb name (lit "read-only") then read_only_profile
  else if str_eqb name (lit "workspace-write") then
    Managed (ManagedRestricted [] None) NetworkRestricted
  else if str_eqb name (lit "danger-full-access") then Disabled
  else if str_eqb name (lit "external-access") then ExternalProfile NetworkEnabled
  else default_profile.

Definition to_legacy_access_policy (profile : PermissionProfile) : str :=
  match profile with
  | Disabled => lit "danger-full-access"
  | ExternalProfile _ => lit "external-access"
  | Managed ManagedUnrestricted _ => lit "danger-full-access"
  | Managed (ManagedRestricted es _) _ =>
      if bool_decide (es = []) then lit "workspace-write" else lit "read-only"
  end.

(** The profile written before profiles said how they are enforced. *)
Record LegacyPermissionProfile := {
  legacy_network_enabled : option (option bool);
  legacy_file_system : option FileSystemPermissions;
}.

Definition policy_of_permissions (p : FileSystemPermissions) : FileSystemAccessPolicy :=
  {| policy_kind := Restricted; glob_scan_max_depth := Pos.to_nat <$> perm_depth p;
     entries := perm_entries p |}.

Definition permissions_of_policy (p : FileSystemAccessPolicy) : FileSystemPermissions :=
  {| perm_entries := match policy_kind p with
                     | Restricted => entries p
                     | Unrestricted | External => [entry (Special Root) Write]
                     end;
     perm_depth := d ← glob_scan_max_depth p; nonzero d |}.

Definition from_legacy_profile (value : LegacyPermissionProfile)
    : result Empty_set PermissionProfile :=
  let p := match legacy_file_system value with
           | Some permissions => policy_of_permissions permissions
           | None => restricted []
           end in
  let network := match legacy_network_enabled value with
                 | Some (Some true) => NetworkEnabled
                 | _ => NetworkRestricted
                 end in
  from_runtime_permissions p network.

Section OnHost.
Context (H : Host).

Definition to_access_policy (m : ManagedFileSystemPermissions) : FileSystemAccessPolicy :=
  match m with
  | ManagedRestricted es depth =>
      let p := if bool_decide (es = []) then workspace_write H [] true true
               else restricted es in
      {| policy_kind := policy_kind p; glob_scan_max_depth := Pos.to_nat <$> depth;
         entries := entries p |}
  | ManagedUnrestricted => unrestricted
  end.

Definition file_system_access_policy (profile : PermissionProfile) : FileSystemAccessPolicy :=
  match profile with
  | Managed file_system _ => to_access_policy file_system
  | Disabled => unrestricted
  | ExternalProfile _ => external_filesystem_policy
  end.

Definition to_runtime_permissions (profile : PermissionProfile)
    : FileSystemAccessPolicy * NetworkAccessPolicy :=
  (file_system_access_policy profile, network_access_policy profile).

Definition workspace_write_with (writable_roots : list str) (network : NetworkAccessPolicy)
    (exclude_tmpdir_env_var exclude_slash_tmp : bool) : result Empty_set PermissionProfile :=
  let file_system := workspace_write H writable_roots exclude_tmpdir_env_var exclude_slash_tmp in
  managed ← from_access_policy file_system;
  Ok (Managed managed network).

End OnHost.

End FsProfile.
