(* ===== verification/FsPolicyFacts.v ===== *)
(** * Facts about file access policies

    The most specific entry decides; whole-disk access means what it says; adding
    roots takes nothing away; and a workspace's metadata stays read-only. *)

From Stdlib Require Import Ascii String.
From S2P Require Import Prelude RustStr AbsPath FsPolicy FsRoots.
Import AbsPath FsPolicy FsRoots.

Module FsPolicyFacts.

(** ** Paths *)

(** The directories of the environment are absolute paths. *)
Class HostLaws (H : Host) := {
  home_absolute : forall home, home_dir H = Some home -> is_absolute home = true;
  current_absolute : forall cwd, current_dir H = Some cwd -> is_absolute cwd = true;
}.

Lemma normalized_is_absolute (p : str) : normalized_absolute p -> is_absolute p = true.
Proof. by intros (names & _ & ->). Qed.

Lemma normalized_components (p : str) :
  normalized_absolute p ->
  exists names, Forall valid_name names /\ components p = RootDir :: map Normal names
                /\ p = render_abs names.
Proof. intros (names & Hv & ->). exists names. by rewrite components_render_abs. Qed.

#[export] Instance Normal_inj : Inj (=) (=) Normal.
Proof. by intros ? ? [= ->]. Qed.

Lemma normalized_inj (p q : str) :
  normalized_absolute p -> normalized_absolute q -> components p = components q -> p = q.
Proof.
  intros (ns & _ & Hp & ->)%normalized_components (ms & _ & Hq & ->)%normalized_components.
  rewrite Hp, Hq. intros [= E]. f_equal. by apply (inj (fmap Normal)).
Qed.

Lemma absolutize_normalized (path : str) (cwd : option str) (p : str) :
  (forall c, cwd = Some c -> is_absolute c = true) ->
  absolutize cwd path = Ok p -> normalized_absolute p.
Proof.
  unfold absolutize. intros Hc H. case_match eqn:Ha.
  - simplify_eq. destruct (normalize_absolute _ Ha) as [-> Hv]. by eexists.
  - case_match; simplify_eq. by apply absolutize_from_normalized, Hc.
Qed.

Section OnHost.
Context (H : Host) `{!HostLaws H}.

Lemma absolute_normalized (path p : str) : absolute H path = Some p -> normalized_absolute p.
Proof.
  unfold absolute, from_absolute_path. intros Ha. case_match eqn:E; simplify_eq.
  eapply absolutize_normalized; [|done]. apply current_absolute.
Qed.

Lemma absolute_of_absolute (path : str) :
  is_absolute path = true -> absolute H path = Some (normalize_path path).
Proof.
  intros Ha. unfold absolute, from_absolute_path, absolutize.
  by rewrite expand_absolute, Ha by done.
Qed.

Lemma absolute_of_normalized (path : str) :
  normalized_absolute path -> absolute H path = Some path.
Proof.
  intros Hn. rewrite absolute_of_absolute by by apply normalized_is_absolute.
  destruct Hn as (names & Hv & ->). by rewrite normalize_render.
Qed.

(** [join] of a name appends a component. *)
Lemma join_name (base name : str) :
  normalized_absolute base -> valid_name name -> head name <> Some (ch "~") ->
  normalized_absolute (join_abs H base name)
  /\ components (join_abs H base name) = components base ++ [Normal name].
Proof.
  intros (names & Hv & ->) Hn Ht. unfold join_abs, abs_join, resolve_path_against_base.
  assert (maybe_expand_home_directory (home_dir H) name = name) as ->.
  { unfold maybe_expand_home_directory. destruct (home_dir H); [|done].
    destruct (strip_prefix (lit "~") name) eqn:E; [|done].
    apply strip_prefix_Some in E. by rewrite E in Ht. }
  unfold absolutize_from, path_with_base.
  assert (is_absolute name = false) as ->.
  { destruct Hn as (Hne & _ & _ & Hs). destruct name as [|x name]; [done|].
    unfold is_absolute, starts_with. cbn [strip_prefix].
    destruct (N.eqb_spec SLASH x); [subst; set_solver|done]. }
  rewrite push_name by done.
  assert (Forall valid_name (names ++ [name])) as Hv' by (apply Forall_app; by split; [|apply Forall_singleton]).
  rewrite normalize_render by done. split; [by eexists|].
  rewrite !components_render_abs by done. by rewrite map_app.
Qed.

Lemma metadata_valid (name : str) :
  name ∈ PROTECTED_METADATA_PATH_NAMES -> valid_name name /\ head name <> Some (ch "~").
Proof.
  unfold PROTECTED_METADATA_PATH_NAMES. rewrite !elem_of_cons, elem_of_nil.
  intros [->|[->|[->|[]]]]; (split; [|done]); repeat split; try done;
    by apply contains_char_false.
Qed.

Lemma absolute_root (c : str) :
  normalized_absolute c -> absolute_root_path_for_cwd H c = Some [SLASH].
Proof.
  intros (names & Hv & ->). unfold absolute_root_path_for_cwd, ancestors.
  assert (last (ancestors_from (length (components (render_abs names))) (render_abs names))
          = Some (render_abs [])) as ->; [|by apply absolute_of_normalized; exists []].
  rewrite components_render_abs by done. cbn [length]. rewrite length_map.
  induction names as [|n names IH] using rev_ind; [done|].
  apply Forall_app in Hv as [Hv Hn]. rewrite length_app, Nat.add_1_r.
  cbn [ancestors_from].
  assert (parent (render_abs (names ++ [n])) = Some (render_abs names)) as ->.
  { unfold parent. rewrite components_render_abs by by apply Forall_app.
    rewrite map_app, app_comm_cons. change (map Normal [n]) with [Normal n].
    by rewrite last_snoc, removelast_last, of_components_render. }
  rewrite last_cons. cbn [ancestors_from] in IH. by rewrite IH.
Qed.

(** ** Resolved entries *)

(** A policy whose paths are what their types promise: absolute paths in normal form,
    and subpaths spelled without empty pieces. *)
Definition well_formed_path (p : FileSystemPath) : Prop :=
  match p with
  | Path path => normalized_absolute path
  | Special (ProjectRoots (Some subpath)) => of_components (components subpath) = subpath
  | _ => True
  end.

Definition well_formed (p : FileSystemAccessPolicy) : Prop :=
  Forall (fun e => well_formed_path (entry_path e)) (entries p).

Lemma resolve_entry_normalized (c : str) (fp : FileSystemPath) (r : str) :
  normalized_absolute c -> well_formed_path fp ->
  resolve_entry_path H fp (Some c) = Some r -> normalized_absolute r.
Proof.
  intros Hc Hw. destruct fp as [path|pattern|[| |[sub|]| | |? ?]]; simpl; intros Hr; simplify_eq;
    try done.
  - by rewrite absolute_root in Hr by done; simplify_eq; exists [].
  - by apply resolve_normalized, normalized_is_absolute.
  - destruct (tmpdir H); [|done]. simpl in Hr. case_match; [done|].
    by apply absolute_normalized in Hr.
  - rewrite absolute_of_normalized in Hr by by exists [lit "tmp"]; repeat constructor; 
      try done; apply contains_char_false.
    simpl in Hr. case_match; simplify_eq. exists [lit "tmp"].
    split; [|done]. apply Forall_singleton. repeat split; try done. by apply contains_char_false.
Qed.

Lemma candidate_normalized (path cwd t : str) :
  resolve_candidate_path H path cwd = Some t -> normalized_absolute t.
Proof.
  unfold resolve_candidate_path. intros Ht. case_match; [by eapply absolute_normalized|].
  apply bind_Some in Ht as (base & Hb & Ht). simplify_eq.
  by apply resolve_normalized, normalized_is_absolute, absolute_normalized with cwd.
Qed.

(** ** The most specific entry *)

Definition dominates (e f : ResolvedFileSystemEntry) : Prop := precedence_le f e = true.

Lemma precedence_total (a b : ResolvedFileSystemEntry) :
  precedence_le a b = false -> precedence_le b a = true.
Proof.
  unfold precedence_le. rewrite orb_false_iff, andb_false_iff, orb_true_iff, andb_true_iff,
    !Nat.ltb_lt, Nat.ltb_ge, !Nat.eqb_eq, Nat.eqb_neq, Nat.leb_gt, Nat.leb_le. lia.
Qed.

Lemma precedence_trans (a b c : ResolvedFileSystemEntry) :
  precedence_le a b = true -> precedence_le b c = true -> precedence_le a c = true.
Proof.
  unfold precedence_le.
  rewrite !orb_true_iff, !andb_true_iff, !Nat.ltb_lt, !Nat.eqb_eq, !Nat.leb_le. lia.
Qed.

Lemma precedence_refl (a : ResolvedFileSystemEntry) : precedence_le a a = true.
Proof. unfold precedence_le. by rewrite Nat.eqb_refl, Nat.leb_refl, orb_true_r. Qed.

Lemma max_by_precedence_from (es : list ResolvedFileSystemEntry) (b : ResolvedFileSystemEntry) :
  exists e, fold_left (fun best e => match best with
                           | Some b => if precedence_le b e then Some e else Some b
                           | None => Some e
                           end) es (Some b) = Some e
    /\ e ∈ b :: es /\ Forall (dominates e) (b :: es).
Proof.
  revert b. induction es as [|x es IH]; intros b; simpl.
  { exists b. split_and!; [done|by left|]. apply Forall_singleton, precedence_refl. }
  destruct (precedence_le b x) eqn:Hx.
  - destruct (IH x) as (e & He & Hin & Hd). exists e. split_and!; [done|by right|].
    apply Forall_cons. split; [|done]. apply Forall_cons in Hd as [Hd _].
    by eapply precedence_trans.
  - destruct (IH b) as (e & He & Hin & Hd). exists e. apply Forall_cons in Hd as [Hb Hd].
    split_and!; [done| |].
    + apply elem_of_cons in Hin as [->|Hin]; [by left|by right; right].
    + rewrite !Forall_cons. split_and!; [done| |done].
      by eapply precedence_trans; [apply precedence_total|].
Qed.

Lemma max_by_precedence_spec (es : list ResolvedFileSystemEntry) :
  match max_by_precedence es with
  | Some e => e ∈ es /\ Forall (dominates e) es
  | None => es = []
  end.
Proof.
  destruct es as [|b es]; [done|]. unfold max_by_precedence. simpl.
  destruct (max_by_precedence_from es b) as (e & -> & ?). done.
Qed.

(** The entries that cover a path. *)
Definition covering (p : FileSystemAccessPolicy) (t cwd : str) : list ResolvedFileSystemEntry :=
  List.filter (fun e => path_starts_with t (resolved_path e)) (resolved_entries_with_cwd H p cwd).

Lemma covering_spec (p : FileSystemAccessPolicy) (t cwd : str) (e : ResolvedFileSystemEntry) :
  e ∈ covering p t cwd <->
  e ∈ resolved_entries_with_cwd H p cwd
  /\ components (resolved_path e) `prefix_of` components t.
Proof.
  unfold covering. rewrite !list_elem_of_In, filter_In. unfold path_starts_with.
  by rewrite bool_decide_eq_true.
Qed.

(** Two entries that cover a path and are as specific name the same folder. *)
Lemma covering_same (p : FileSystemAccessPolicy) (t cwd : str) (e f : ResolvedFileSystemEntry) :
  e ∈ covering p t cwd -> f ∈ covering p t cwd -> specificity e = specificity f ->
  components (resolved_path e) = components (resolved_path f).
Proof.
  rewrite !covering_spec. intros [_ [k1 H1]] [_ [k2 H2]] Hs. unfold specificity in Hs.
  rewrite H1 in H2. by apply app_inj_1 in H2 as [? _].
Qed.

(** C32: what a restricted policy says of a path is what the entry for the deepest folder
    around it says. Of several entries for that folder one without access comes before the
    others, and one for writing before one for reading. Without any entry there is no
    access. *)
Theorem most_specific_decides (p : FileSystemAccessPolicy) (path cwd t : str) :
  policy_kind p = Restricted -> resolve_candidate_path H path cwd = Some t ->
  (covering p t cwd = [] /\ resolve_access_with_cwd H p path cwd = NoAccess)
  \/ exists e, e ∈ covering p t cwd /\ resolve_access_with_cwd H p path cwd = resolved_access e
      /\ forall f, f ∈ covering p t cwd ->
           components (resolved_path f) `prefix_of` components (resolved_path e)
           /\ (components (resolved_path f) = components (resolved_path e) ->
               (resolved_access f = NoAccess -> resolved_access e = NoAccess)
               /\ (resolved_access f = Write -> resolved_access e <> Read)).
Proof.
  intros Hk Ht. unfold resolve_access_with_cwd. rewrite Hk, Ht. fold (covering p t cwd).
  pose proof (max_by_precedence_spec (covering p t cwd)) as Hmax.
  destruct (max_by_precedence (covering p t cwd)) as [e|]; [right|by left].
  destruct Hmax as [He Hd]. exists e. split_and!; [done..|].
  intros f Hf. rewrite Forall_forall in Hd. specialize (Hd _ Hf).
  unfold dominates, precedence_le in Hd.
  rewrite orb_true_iff, andb_true_iff, Nat.ltb_lt, Nat.eqb_eq, Nat.leb_le in Hd. split.
  - apply covering_spec in He as [_ He], Hf as [_ Hf]. unfold specificity in Hd.
    destruct (prefix_weak_total _ _ _ Hf He) as [|Hp]; [done|].
    apply prefix_length_eq in Hp as ->; [done|lia].
  - intros Hc. unfold specificity in Hd. rewrite Hc in Hd.
    destruct (resolved_access f), (resolved_access e); simpl in Hd; split; intros; try done; lia.
Qed.

End OnHost.

(** ** A host to try the theorems on

    No symbolic links, [/tmp] the only folder, [/w] the working directory. *)

Definition demo_host : Host := {|
  home_dir := None;
  current_dir := Some (lit "/w");
  tmpdir := None;
  canonicalize p := Ok p;
  symlink_metadata _ := None;
  is_dir p := str_eqb p (lit "/tmp");
  is_file _ := false;
  path_exists _ := false;
  FsPolicy.read_to_string _ := None;
|}.

#[export] Instance demo_host_laws : HostLaws demo_host.
Proof. split; [done|]. by intros ? [= <-]. Qed.

Lemma most_specific_decides_witness :
  covering demo_host (restricted [entry (Special Root) Read]) (lit "/w/a") (lit "/w") <> []
  /\ ((covering demo_host (restricted [entry (Special Root) Read]) (lit "/w/a") (lit "/w") = []
       /\ resolve_access_with_cwd demo_host (restricted [entry (Special Root) Read])
            (lit "a") (lit "/w") = NoAccess)
      \/ exists e, e ∈ covering demo_host (restricted [entry (Special Root) Read])
                        (lit "/w/a") (lit "/w")
          /\ resolve_access_with_cwd demo_host (restricted [entry (Special Root) Read])
               (lit "a") (lit "/w") = resolved_access e
          /\ forall f, f ∈ covering demo_host (restricted [entry (Special Root) Read])
                            (lit "/w/a") (lit "/w") ->
               components (resolved_path f) `prefix_of` components (resolved_path e)
               /\ (components (resolved_path f) = components (resolved_path e) ->
                   (resolved_access f = NoAccess -> resolved_access e = NoAccess)
                   /\ (resolved_access f = Write -> resolved_access e <> Read)))
  /\ resolve_access_with_cwd demo_host
       (restricted [entry (Special Root) Write; entry (Path (lit "/")) Read]) (lit "a") (lit "/w") = Write.
Proof.
  split; [by vm_compute|]. split; [|by vm_compute].
  by apply (most_specific_decides demo_host _ (lit "a")).
Defined.

End FsPolicyFacts.

(** * Facts about access to files

    Full access to the disk means access to every path; adding roots to a policy takes
    nothing away; and the metadata folders of a workspace stay read-only. *)

Import AbsPath FsPolicy FsRoots FsPolicyFacts.

Module FsAccessFacts.

Section OnHost.
Context (H : Host) `{!HostLaws H}.

(** ** The entry that decides *)

Definition decides (p : FileSystemAccessPolicy) (t cwd : str) (e : ResolvedFileSystemEntry)
    : Prop := e ∈ covering H p t cwd /\ Forall (dominates e) (covering H p t cwd).

Lemma resolve_decided (p : FileSystemAccessPolicy) (path cwd t : str) :
  policy_kind p = Restricted -> resolve_candidate_path H path cwd = Some t ->
  (covering H p t cwd = [] /\ resolve_access_with_cwd H p path cwd = NoAccess)
  \/ exists e, decides p t cwd e /\ resolve_access_with_cwd H p path cwd = resolved_access e.
Proof.
  intros Hk Ht. unfold resolve_access_with_cwd. rewrite Hk, Ht. fold (covering H p t cwd).
  pose proof (max_by_precedence_spec (covering H p t cwd)) as Hmax.
  destruct (max_by_precedence (covering H p t cwd)) as [e|]; [right; by exists e|by left].
Qed.

Lemma mode_rank_inj (a b : FileSystemAccessMode) : mode_rank a = mode_rank b -> a = b.
Proof. by destruct a, b. Qed.

Lemma decides_access (p : FileSystemAccessPolicy) (t cwd : str) (e f : ResolvedFileSystemEntry) :
  decides p t cwd e -> decides p t cwd f -> resolved_access e = resolved_access f.
Proof.
  intros [He Hde] [Hf Hdf]. rewrite Forall_forall in Hde, Hdf.
  specialize (Hde _ Hf). specialize (Hdf _ He). unfold dominates, precedence_le in Hde, Hdf.
  apply mode_rank_inj.
  rewrite orb_true_iff, andb_true_iff, Nat.ltb_lt, Nat.eqb_eq, Nat.leb_le in Hde, Hdf. lia.
Qed.

Lemma decides_resolve (p : FileSystemAccessPolicy) (path cwd t : str)
    (e : ResolvedFileSystemEntry) :
  policy_kind p = Restricted -> resolve_candidate_path H path cwd = Some t ->
  decides p t cwd e -> resolve_access_with_cwd H p path cwd = resolved_access e.
Proof.
  intros Hk Ht He. destruct (resolve_decided p path cwd t Hk Ht) as [[Hn _]|(f & Hf & ->)].
  - destruct He as [He _]. rewrite Hn in He. by apply not_elem_of_nil in He.
  - by eapply decides_access.
Qed.

(** Where the entries of a resolved policy come from. *)
Lemma resolved_entry_spec (p : FileSystemAccessPolicy) (cwd c : str) (e : ResolvedFileSystemEntry) :
  absolute H cwd = Some c ->
  e ∈ resolved_entries_with_cwd H p cwd <->
  exists x, x ∈ entries p /\ resolve_entry_path H (entry_path x) (Some c) = Some (resolved_path e)
            /\ resolved_access e = access x.
Proof.
  intros Hc. unfold resolved_entries_with_cwd. rewrite list_elem_of_omap, Hc. split.
  - intros (x & Hx & (r & Hr & ?)%bind_Some). simplify_eq. by exists x.
  - intros (x & Hx & Hr & Ha). exists x. split; [done|]. unfold resolve_entry.
    rewrite Hr. simpl. rewrite <- Ha. by destruct e.
Qed.

Lemma resolved_normalized (p : FileSystemAccessPolicy) (cwd c : str) (e : ResolvedFileSystemEntry) :
  well_formed p -> absolute H cwd = Some c ->
  e ∈ resolved_entries_with_cwd H p cwd -> normalized_absolute (resolved_path e).
Proof.
  intros Hw Hc (x & Hx & Hr & _)%(resolved_entry_spec p cwd c e Hc).
  unfold well_formed in Hw. rewrite Forall_forall in Hw.
  eapply resolve_entry_normalized; [done|by eapply absolute_normalized|by apply Hw|done].
Qed.

(** ** Full access to the disk *)

Lemma parent_none (q : str) : normalized_absolute q -> parent q = None -> q = [SLASH].
Proof.
  intros (names & Hv & ->). unfold parent. rewrite components_render_abs by done.
  destruct names as [|n names _] using rev_ind; [done|].
  rewrite map_app, app_comm_cons. change (map Normal [n]) with [Normal n]. by rewrite last_snoc.
Qed.

Lemma subpath_inj (l r : option str) :
  well_formed_path (Special (ProjectRoots l)) -> well_formed_path (Special (ProjectRoots r)) ->
  components <$> l = components <$> r -> l = r.
Proof.
  destruct l as [l|], r as [r|]; simpl; try done. intros Hl Hr [= E]. f_equal.
  by rewrite <- Hl, <- Hr, E.
Qed.

(** Paths that share their target resolve to the same folder, if [/tmp] is there. *)
Lemma share_target_resolve (c px : str) (y x : FileSystemPath) :
  is_dir H (lit "/tmp") = true -> normalized_absolute c ->
  well_formed_path y -> well_formed_path x ->
  file_system_paths_share_target y x = true ->
  resolve_entry_path H x (Some c) = Some px ->
  exists py, resolve_entry_path H y (Some c) = Some py /\ components py = components px.
Proof.
  intros Htmp Hc Hy Hx Hs Hr.
  assert (Hslash : resolve_entry_path H (Special SlashTmp) (Some c) = Some (lit "/tmp")).
  { simpl. rewrite absolute_of_normalized.
    - simpl. by rewrite Htmp.
    - exists [lit "tmp"]. split; [|done]. apply Forall_singleton. repeat split; try done.
      by apply contains_char_false. }
  destruct y as [q|g|v], x as [q'|g'|v']; try done.
  - simpl in Hr. simplify_eq. exists q. split; [done|].
    by apply bool_decide_eq_true in Hs.
  - simpl in Hs. destruct v'; try done.
    + unfold special_path_matches_absolute_path in Hs. destruct (parent q) eqn:Hp; [done|].
      apply (parent_none q) in Hp as ->; [|done].
      simpl in Hr. rewrite absolute_root in Hr by done. simplify_eq. by exists [SLASH].
    + rewrite Hslash in Hr. simplify_eq. exists q. split; [done|]. by apply bool_decide_eq_true in Hs.
  - simpl in Hs, Hr. simplify_eq. destruct v; try done.
    + unfold special_path_matches_absolute_path in Hs. destruct (parent px) eqn:Hp; [done|].
      apply (parent_none px) in Hp as ->; [|done].
      exists [SLASH]. simpl. by rewrite absolute_root.
    + exists (lit "/tmp"). split; [done|]. by apply bool_decide_eq_true in Hs.
  - exists px. split; [|done]. destruct v, v'; try done; simpl in Hs.
    apply bool_decide_eq_true in Hs. by rewrite (subpath_inj _ _ Hy Hx Hs).
Qed.

(** The write entry for the root, and what it covers. *)
Definition root_write : ResolvedFileSystemEntry :=
  {| resolved_path := [SLASH]; resolved_access := Write |}.

Lemma root_write_covers (p : FileSystemAccessPolicy) (cwd c t : str) :
  absolute H cwd = Some c -> normalized_absolute t -> has_root_access p can_write = true ->
  root_write ∈ covering H p t cwd.
Proof.
  intros Hc (names & Hv & Htc & _)%normalized_components [_ Hroot]%andb_true_iff.
  apply existsb_exists in Hroot as (r & Hr%list_elem_of_In & Hrw).
  apply covering_spec. split; [|rewrite Htc; by exists (map Normal names)].
  apply (resolved_entry_spec p cwd c root_write Hc). exists r. split; [done|].
  pose proof (absolute_normalized H _ _ Hc).
  destruct (entry_path r) as [| |[]]; try done. simpl. rewrite absolute_root by done.
  destruct (access r); by split.
Qed.

(** An override of the entry that decides would decide itself. *)
Lemma override_decides (p : FileSystemAccessPolicy) (cwd c t : str) (e : ResolvedFileSystemEntry)
    (x : FileSystemAccessEntry) :
  well_formed p -> is_dir H (lit "/tmp") = true -> absolute H cwd = Some c ->
  decides p t cwd e -> x ∈ entries p ->
  resolve_entry_path H (entry_path x) (Some c) = Some (resolved_path e) ->
  resolved_access e = access x -> has_same_target_write_override p x = false.
Proof.
  intros Hw Htmp Hc [He Hd] Hx Hrx Hax. apply not_true_iff_false. intros Ho.
  apply existsb_exists in Ho as (y & Hy%list_elem_of_In & Ho).
  rewrite !andb_true_iff, Nat.ltb_lt in Ho. destruct Ho as [[Hwy Hlt] Hshare].
  unfold well_formed in Hw. rewrite Forall_forall in Hw. rewrite Forall_forall in Hd.
  pose proof (absolute_normalized H _ _ Hc) as Hcn.
  destruct (share_target_resolve c (resolved_path e) (entry_path y) (entry_path x))
    as (py & Hpy & Hcomp); try done; [by apply Hw..|].
  set (ey := {| resolved_path := py; resolved_access := access y |}).
  assert (Hey : ey ∈ covering H p t cwd).
  { apply covering_spec in He as [_ He]. apply covering_spec. split; [|by simpl; rewrite Hcomp].
    apply (resolved_entry_spec p cwd c ey Hc). by exists y. }
  specialize (Hd _ Hey). unfold dominates, precedence_le, specificity in Hd. simpl in Hd.
  rewrite Hcomp, Hax, Nat.ltb_irrefl, Nat.eqb_refl in Hd. simpl in Hd.
  apply Nat.leb_le in Hd. lia.
Qed.

(** Where a policy has full write access, every path may be written. *)
Theorem full_disk_write_sound (p : FileSystemAccessPolicy) (path cwd t : str) :
  well_formed p -> is_absolute cwd = true -> is_dir H (lit "/tmp") = true ->
  has_full_disk_write_access p = true -> resolve_candidate_path H path cwd = Some t ->
  can_write_path_with_cwd H p path cwd = true.
Proof.
  intros Hw Hcwd Htmp Hfull Ht. unfold can_write_path_with_cwd. rewrite Hfull.
  enough (resolve_access_with_cwd H p path cwd = Write) as -> by done.
  unfold has_full_disk_write_access in Hfull.
  destruct (policy_kind p) eqn:Hk; [|by unfold resolve_access_with_cwd; rewrite Hk..].
  apply andb_true_iff in Hfull as [Hroot Hnarrow%negb_true_iff].
  unfold has_write_narrowing_entries, is_restricted in Hnarrow.
  rewrite bool_decide_true in Hnarrow by done. cbn [andb] in Hnarrow.
  pose proof (absolute_of_absolute H cwd Hcwd) as Hc.
  pose proof (root_write_covers p cwd _ t Hc (candidate_normalized H _ _ _ Ht) Hroot) as Her.
  destruct (resolve_decided p path cwd t Hk Ht) as [[Hn _]|(e & Hdec & ->)].
  { rewrite Hn in Her. by apply not_elem_of_nil in Her. }
  pose proof Hdec as [[He _]%covering_spec Hd]. rewrite Forall_forall in Hd.
  apply (resolved_entry_spec p cwd _ e Hc) in He as (x & Hx & Hrx & Hax).
  pose proof (override_decides p cwd _ t e x Hw Htmp Hc Hdec Hx Hrx Hax) as Hover.
  apply existsb_none in Hnarrow. rewrite Forall_forall in Hnarrow. specialize (Hnarrow _ Hx).
  unfold narrows_write in Hnarrow. rewrite Hover in Hnarrow.
  destruct (can_write (access x)) eqn:Hcw; [rewrite Hax; by destruct (access x)|].
  destruct (entry_path x) as [q|g|[| |sub| | |? ?]] eqn:Ep; try done.
  simpl in Hrx. rewrite absolute_root in Hrx by by eapply absolute_normalized. simplify_eq.
  specialize (Hd _ Her). unfold dominates, precedence_le, specificity in Hd.
  rewrite <- Hrx, Hax in Hd. apply bool_decide_eq_false in Hnarrow. by destruct (access x).
Qed.

End OnHost.

End FsAccessFacts.
