(* ===== verification/FsGrantFacts.v ===== *)
(** * Facts about grants and protected metadata

    The metadata folders of a workspace are read-only, and adding writable roots to a
    policy grants them and takes nothing away. *)

From Stdlib Require Import Ascii String.
From S2P Require Import Prelude RustStr AbsPath FsPolicy FsRoots FsPolicyFacts.
Import AbsPath FsPolicy FsRoots FsPolicyFacts FsAccessFacts.

Module FsGrantFacts.

Section OnHost.
Context (H : Host) `{!HostLaws H}.

(** ** Metadata folders *)

Lemma metadata_path_name_Some (name n : str) :
  metadata_path_name name = Some n <-> name = n /\ n ∈ PROTECTED_METADATA_PATH_NAMES.
Proof.
  unfold metadata_path_name. split.
  - intros [Hn ->%str_eqb_eq]%List.find_some. by rewrite list_elem_of_In.
  - intros [-> Hn]. revert Hn. unfold PROTECTED_METADATA_PATH_NAMES.
    rewrite !elem_of_cons, elem_of_nil. by intros [->|[->|[->|[]]]].
Qed.

(** The path lies in the folder [name] below [base]. *)
Definition below (base t name : str) : Prop :=
  exists rest, components t = components base ++ Normal name :: rest.

Lemma strip_prefix_spec (t base : str) (rest : list Component) :
  path_strip_prefix t base = Some rest <-> components t = components base ++ rest.
Proof.
  unfold path_strip_prefix, path_starts_with. split.
  - intros E. case_bool_decide as Hp; [|done]. destruct Hp as [k Hk]. simplify_eq.
    by rewrite Hk, drop_app_length.
  - intros E. rewrite bool_decide_true by by exists rest. by rewrite E, drop_app_length.
Qed.

Lemma component_normal (t base : str) (c : Component) (rest : list Component) :
  normalized_absolute t -> components base <> [] -> components t = components base ++ c :: rest ->
  exists n, c = Normal n.
Proof.
  intros (names & Hv & Ht & _)%normalized_components Hne E. rewrite Ht in E.
  destruct (components base) as [|b bs]; [done|]. injection E as _ E.
  assert (c ∈ map Normal names) as Hc by (rewrite E; set_solver).
  apply list_elem_of_In, in_map_iff in Hc as (n & <- & _). by exists n.
Qed.

Lemma metadata_child_spec (t pm name : str) (e : ResolvedFileSystemEntry) :
  normalized_absolute t -> normalized_absolute (resolved_path e) ->
  metadata_child_of H t e = Some (pm, name) <->
  resolved_access e = Write /\ name ∈ PROTECTED_METADATA_PATH_NAMES
  /\ below (resolved_path e) t name /\ pm = join_abs H (resolved_path e) name.
Proof.
  intros Ht He. unfold metadata_child_of, below.
  assert (Hne : components (resolved_path e) <> []).
  { by apply normalized_components in He as (? & _ & -> & _). }
  destruct (resolved_access e); simpl; try naive_solver. split.
  - intros (rest & Hs & (c & Hc & (n & Hn & Hp)%bind_Some)%bind_Some)%bind_Some. simplify_eq.
    apply strip_prefix_spec in Hs. destruct rest as [|c' rest]; simplify_eq/=.
    destruct (component_normal t _ _ rest Ht Hne Hs) as [m ->]. simpl in Hn.
    apply metadata_path_name_Some in Hn as [-> Hn]. naive_solver.
  - intros (_ & Hn & [rest Hs] & ->). apply strip_prefix_spec in Hs. rewrite Hs. simpl.
    rewrite (proj2 (metadata_path_name_Some name name)) by done. done.
Qed.

(** A path below a metadata folder of a writable entry is writable only if a write entry
    inside that folder covers it. *)
Lemma metadata_denied (p : FileSystemAccessPolicy) (path cwd t pm name : str) :
  is_restricted p = true -> resolve_candidate_path H path cwd = Some t ->
  metadata_child_of_writable_root H p t cwd = Some (pm, name) ->
  has_explicit_write_entry_for_metadata_path H p pm t cwd = false ->
  has_full_disk_write_access p = false ->
  can_write_path_with_cwd H p path cwd = false.
Proof.
  intros Hr Ht Hm He Hf. unfold can_write_path_with_cwd, is_metadata_write_denied.
  rewrite Hf, Hr, Ht, Hm, He. by destruct (can_write _).
Qed.

(** ** The policy of a workspace *)

Lemma append_read_entry (es : list FileSystemAccessEntry) (fp : FileSystemPath) :
  exists added, append_default_read_only_entry_if_no_explicit_rule es fp = es ++ added
    /\ Forall (fun e => access e = Read) added.
Proof.
  unfold append_default_read_only_entry_if_no_explicit_rule. case_match.
  - exists []. by rewrite app_nil_r.
  - exists [entry fp Read]. by split; [|apply Forall_singleton].
Qed.

Lemma fold_appends {A} (f : list FileSystemAccessEntry -> A -> list FileSystemAccessEntry)
    (l : list A) (es : list FileSystemAccessEntry) :
  (forall es a, exists added, f es a = es ++ added /\ Forall (fun e => access e = Read) added) ->
  exists added, fold_left f l es = es ++ added /\ Forall (fun e => access e = Read) added.
Proof.
  intros Hf. revert es. induction l as [|a l IH]; intros es; simpl.
  { exists []. by rewrite app_nil_r. }
  destruct (Hf es a) as (x & -> & Hx). destruct (IH (es ++ x)) as (y & -> & Hy).
  exists (x ++ y). rewrite app_assoc. split; [done|]. by apply Forall_app.
Qed.

(** The write entries, and that only read entries are added to them. *)
Definition workspace_entries (roots : list str) (exclude_tmpdir_env_var exclude_slash_tmp : bool)
    : list FileSystemAccessEntry :=
  [entry (Special Root) Read; entry (Special (ProjectRoots None)) Write]
  ++ (if negb exclude_slash_tmp then [entry (Special SlashTmp) Write] else [])
  ++ (if negb exclude_tmpdir_env_var then [entry (Special Tmpdir) Write] else [])
  ++ map (fun path => entry (Path path) Write) roots.

Lemma workspace_write_entries (roots : list str) (b1 b2 : bool) :
  exists added, workspace_write H roots b1 b2 = restricted (workspace_entries roots b1 b2 ++ added)
    /\ Forall (fun e => access e = Read) added.
Proof.
  unfold workspace_write. fold (workspace_entries roots b1 b2).
  set (es := workspace_entries roots b1 b2).
  destruct (append_read_entry es (Special (ProjectRoots (Some (lit ".git"))))) as (a1 & E1 & H1).
  destruct (append_read_entry (es ++ a1) (Special (ProjectRoots (Some (lit ".agents")))))
    as (a2 & E2 & H2).
  destruct (append_read_entry ((es ++ a1) ++ a2) (Special (ProjectRoots (Some (lit ".openagere")))))
    as (a3 & E3 & H3).
  destruct (fold_appends (protect_root H) roots (((es ++ a1) ++ a2) ++ a3)) as (a4 & E4 & H4).
  { intros es' r. apply fold_appends. intros es'' q. apply append_read_entry. }
  exists (a1 ++ a2 ++ a3 ++ a4).
  unfold append_default_read_only_project_root_subpath_if_no_explicit_rule.
  rewrite E1, E2, E3, E4, <- !app_assoc. split; [done|]. by rewrite !Forall_app.
Qed.

(** The write entries of a workspace: its root, the folders for temporary files, and the
    roots that were asked for. *)
Definition writable_targets (roots : list str) (exclude_tmpdir_env_var exclude_slash_tmp : bool)
    : list str :=
  (if negb exclude_slash_tmp then [lit "/tmp"] else [])
  ++ (if negb exclude_tmpdir_env_var
      then match tmpdir H ≫= absolute H with Some dir => [dir] | None => [] end else [])
  ++ roots.

Lemma slash_tmp_normalized : normalized_absolute (lit "/tmp").
Proof.
  exists [lit "tmp"]. split; [|done]. apply Forall_singleton. repeat split; try done.
  by apply contains_char_false.
Qed.

Lemma workspace_write_targets (roots : list str) (b1 b2 : bool) (cwd c : str)
    (e : ResolvedFileSystemEntry) :
  absolute H cwd = Some c ->
  e ∈ resolved_entries_with_cwd H (workspace_write H roots b1 b2) cwd ->
  resolved_access e = Write ->
  resolved_path e = c \/ resolved_path e ∈ writable_targets roots b1 b2.
Proof.
  intros Hc He Hw. destruct (workspace_write_entries roots b1 b2) as (added & Hp & Hadd).
  rewrite Hp in He. apply (resolved_entry_spec H _ cwd c e Hc) in He as (x & Hx & Hr & Ha).
  cbn [entries restricted] in Hx. unfold workspace_entries, writable_targets in *.
  rewrite Hw in Ha. assert (Hread : access x = Read -> False) by congruence.
  rewrite !elem_of_app in Hx. rewrite !elem_of_app.
  destruct Hx as [[Hx|[Hx|[Hx|Hx]]]|Hx].
  - rewrite !elem_of_cons, elem_of_nil in Hx. destruct Hx as [->|[->|[]]]; [done|]. simpl in Hr. simplify_eq. by left.
  - destruct b2; simpl in Hx; [by apply not_elem_of_nil in Hx|].
    apply list_elem_of_singleton in Hx as ->. simpl in Hr.
    rewrite (absolute_of_normalized H _ slash_tmp_normalized) in Hr. simpl in Hr.
    destruct (is_dir H (lit "/tmp")); [|done]. injection Hr as Hr. right; left.
    rewrite <- Hr. by left.
  - destruct b1; simpl in Hx; [by apply not_elem_of_nil in Hx|].
    apply list_elem_of_singleton in Hx as ->. simpl in Hr.
    apply bind_Some in Hr as (dir & -> & Hr).
    destruct (str_eqb dir []); [done|]. right; right; left.
    simpl. rewrite Hr. by left.
  - apply list_elem_of_fmap in Hx as (r & -> & Hin). simpl in Hr. simplify_eq.
    by right; right; right.
  - rewrite Forall_forall in Hadd. by destruct (Hread (Hadd _ Hx)).
Qed.

Lemma workspace_not_full (roots : list str) (b1 b2 : bool) :
  has_full_disk_write_access (workspace_write H roots b1 b2) = false.
Proof.
  destruct (workspace_write_entries roots b1 b2) as (added & -> & Hadd).
  unfold has_full_disk_write_access, has_root_access, is_restricted. simpl policy_kind. cbn iota.
  rewrite bool_decide_true by done. cbn [andb entries restricted].
  assert (existsb (fun e => match entry_path e with
                            | Special Root => can_write (access e)
                            | _ => false
                            end) (workspace_entries roots b1 b2 ++ added) = false) as ->; [|done].
  apply existsb_none. unfold workspace_entries. rewrite !Forall_app. split_and!.
  - by repeat constructor.
  - destruct b2; simpl; by repeat constructor.
  - destruct b1; simpl; by repeat constructor.
  - apply Forall_fmap, Forall_forall. done.
  - eapply Forall_impl; [done|]. intros x Hx. simpl. rewrite Hx. by destruct (entry_path x) as [| |[]].
Qed.

(** The root of the workspace is the first writable entry. *)
Lemma workspace_metadata_child (roots : list str) (b1 b2 : bool) (cwd c t : str)
    (added : list FileSystemAccessEntry) (m : str * str) :
  absolute H cwd = Some c -> normalized_absolute c ->
  metadata_child_of H t {| resolved_path := c; resolved_access := Write |} = Some m ->
  metadata_child_of_writable_root H (restricted (workspace_entries roots b1 b2 ++ added)) t cwd
    = Some m.
Proof.
  intros Hc Hcn Hm. unfold metadata_child_of_writable_root, resolved_entries_with_cwd.
  cbn [entries restricted]. unfold workspace_entries. rewrite Hc, <- !app_assoc.
  cbn [app]. rewrite !(omap_cons (resolve_entry H (Some c))).
  assert (resolve_entry H (Some c) (entry (Special Root) Read)
          = Some {| resolved_path := [SLASH]; resolved_access := Read |}) as ->.
  { unfold resolve_entry. simpl. by rewrite absolute_root. }
  assert (resolve_entry H (Some c) (entry (Special (ProjectRoots None)) Write)
          = Some {| resolved_path := c; resolved_access := Write |}) as -> by done.
  rewrite !(omap_cons (metadata_child_of H t)), Hm. done.
Qed.

(** Nothing below [.git], [.agents] or [.openagere] of the workspace may be written,
    unless one of the other writable folders lies inside. *)
Theorem workspace_metadata_readonly (roots : list str) (b1 b2 : bool)
    (path cwd c t name : str) :
  absolute H cwd = Some c -> resolve_candidate_path H path cwd = Some t ->
  name ∈ PROTECTED_METADATA_PATH_NAMES -> below c t name ->
  (forall r, r ∈ writable_targets roots b1 b2 ->
     ~ components c ++ [Normal name] `prefix_of` components r) ->
  can_write_path_with_cwd H (workspace_write H roots b1 b2) path cwd = false.
Proof.
  intros Hc Ht Hname Hbelow Hout. pose proof (absolute_normalized H _ _ Hc) as Hcn.
  pose proof (candidate_normalized H _ _ _ Ht) as Htn.
  destruct (metadata_valid name Hname) as [Hv Hhead].
  destruct (join_name H c name Hcn Hv Hhead) as [_ Hjoin].
  apply (metadata_denied _ path cwd t (join_abs H c name) name); try done.
  - destruct (workspace_write_entries roots b1 b2) as (added & -> & _).
    apply (workspace_metadata_child roots b1 b2 cwd c); try done.
    apply metadata_child_spec; [done..|by split_and!].
  - apply existsb_none, Forall_forall. intros e He.
    destruct (resolved_access e) eqn:Ha; [done| |done]. simpl.
    apply andb_false_iff. right. unfold path_starts_with. apply bool_decide_eq_false.
    rewrite Hjoin. destruct (workspace_write_targets roots b1 b2 cwd c e Hc He Ha) as [->|Hin].
    + intros [k Hk]. apply (f_equal length) in Hk. rewrite !length_app in Hk. simpl in Hk. lia.
    + by apply Hout.
  - apply workspace_not_full.
Qed.

End OnHost.

(** A file of the repository's [.git], asked for from the workspace itself. *)
Lemma workspace_metadata_readonly_witness :
  can_write_path_with_cwd demo_host (workspace_write demo_host [lit "/data"] true true)
    (lit ".git/config") (lit "/w") = false
  /\ can_write_path_with_cwd demo_host (workspace_write demo_host [lit "/data"] true true)
       (lit "src/main.rs") (lit "/w") = true.
Proof.
  split; [|by vm_compute].
  apply (workspace_metadata_readonly demo_host _ _ _ _ _ (lit "/w") (lit "/w/.git/config") (lit ".git"));
    [by vm_compute|by vm_compute|by left| |].
  - exists [Normal (lit "config")]. by vm_compute.
  - intros r Hr. assert (r = lit "/data") as -> by (by apply list_elem_of_singleton in Hr).
    intros [k Hk]. vm_compute in Hk. discriminate Hk.
Defined.

End FsGrantFacts.

(** * Facts about adding writable roots

    [with_additional_writable_roots] grants the roots it is given, but for those an
    entry denies, and takes no access away. *)

Import AbsPath FsPolicy FsRoots FsPolicyFacts FsAccessFacts FsGrantFacts.

Module FsAddFacts.

Section OnHost.
Context (H : Host) `{!HostLaws H}.

(** ** One more write entry *)

Section Push.
Context (p : FileSystemAccessPolicy) (q cwd c : str).
Context (Hw : well_formed p) (Hq : normalized_absolute q) (Hc : absolute H cwd = Some c).

Definition pushed : FileSystemAccessPolicy := push_entry p (entry (Path q) Write).
Definition new_entry : ResolvedFileSystemEntry := {| resolved_path := q; resolved_access := Write |}.

Lemma pushed_well_formed : well_formed pushed.
Proof. apply Forall_app. split; [done|]. by apply Forall_singleton. Qed.

Lemma pushed_resolved :
  resolved_entries_with_cwd H pushed cwd = resolved_entries_with_cwd H p cwd ++ [new_entry].
Proof. unfold resolved_entries_with_cwd. simpl. by rewrite omap_app. Qed.

Lemma pushed_covering (t : str) :
  covering H pushed t cwd
  = covering H p t cwd ++ (if path_starts_with t q then [new_entry] else []).
Proof. unfold covering. rewrite pushed_resolved, List.filter_app. simpl. by case_match. Qed.

(** The entry that decides about a path is the new one, or the one that did before. *)
Lemma pushed_decides (t : str) (e : ResolvedFileSystemEntry) :
  decides H pushed t cwd e ->
  (e = new_entry /\ path_starts_with t q = true) \/ decides H p t cwd e.
Proof.
  unfold decides. rewrite pushed_covering, Forall_app, elem_of_app. intros [[He|He] [Hd _]].
  - by right.
  - left. case_match; [by apply list_elem_of_singleton in He|by apply not_elem_of_nil in He].
Qed.

Lemma pushed_access (path t : str) (m : FileSystemAccessMode) :
  policy_kind p = Restricted -> resolve_candidate_path H path cwd = Some t ->
  resolve_access_with_cwd H p path cwd = m -> m <> NoAccess ->
  resolve_access_with_cwd H pushed path cwd = Write
  \/ resolve_access_with_cwd H pushed path cwd = m.
Proof.
  intros Hk Ht Hm Hne.
  destruct (resolve_decided H p path cwd t Hk Ht) as [[_ Hn]|(b & Hb & Hbm)]; [congruence|].
  destruct (resolve_decided H pushed path cwd t Hk Ht) as [[Hn _]|(e & He & ->)].
  - destruct Hb as [Hb _]. rewrite pushed_covering in Hn. apply app_nil in Hn as [Hn _].
    rewrite Hn in Hb. by apply not_elem_of_nil in Hb.
  - apply pushed_decides in He as [[-> _]|He]; [by left|right].
    rewrite (decides_access H p t cwd e b He Hb). congruence.
Qed.

Lemma pushed_full_disk :
  has_full_disk_write_access p = true -> has_full_disk_write_access pushed = true.
Proof.
  unfold has_full_disk_write_access, has_root_access, has_write_narrowing_entries, is_restricted.
  simpl. destruct (policy_kind p); try done.
  rewrite (bool_decide_true (Restricted = Restricted)) by done. cbn [andb].
  rewrite !andb_true_iff, !existsb_app, orb_true_iff, !negb_true_iff. intros [Hr Hn].
  split; [by left|]. apply orb_false_iff. split; [|done].
  apply existsb_none. apply existsb_none in Hn. eapply Forall_impl; [done|]. intros x Hx.
  assert (Ho : has_same_target_write_override p x = true ->
               has_same_target_write_override pushed x = true).
  { unfold has_same_target_write_override. simpl. rewrite existsb_app. by intros ->. }
  unfold narrows_write in *. destruct (can_write (access x)); [done|].
  destruct (entry_path x) as [| |[]]; try done; apply negb_false_iff, Ho, negb_false_iff, Hx.
Qed.

(** Being covered below a metadata folder passes to the paths below. *)
Lemma below_extends (base t name : str) (rest : list Component) :
  below base q name -> components t = components q ++ rest -> below base t name.
Proof. intros [k Hk] Ht. exists (k ++ rest). by rewrite Ht, Hk, <- app_assoc. Qed.

End Push.

(** *** The new root itself *)

Lemma path_starts_with_spec (t base : str) :
  path_starts_with t base = true <-> components base `prefix_of` components t.
Proof. unfold path_starts_with. by rewrite bool_decide_eq_true. Qed.

Lemma candidate_of_normalized (t cwd : str) :
  normalized_absolute t -> resolve_candidate_path H t cwd = Some t.
Proof.
  intros Ht. unfold resolve_candidate_path. rewrite normalized_is_absolute by done.
  by apply absolute_of_normalized.
Qed.

(** A write entry for a metadata folder, or inside it, is explicit. *)
Lemma explicit_entry (p : FileSystemAccessPolicy) (t cwd c pm name : str)
    (w e : ResolvedFileSystemEntry) :
  well_formed p -> absolute H cwd = Some c -> normalized_absolute t ->
  w ∈ resolved_entries_with_cwd H p cwd -> metadata_child_of H t w = Some (pm, name) ->
  e ∈ resolved_entries_with_cwd H p cwd -> resolved_access e = Write ->
  components (resolved_path e) `prefix_of` components t ->
  length (components (resolved_path w)) < length (components (resolved_path e)) ->
  has_explicit_write_entry_for_metadata_path H p pm t cwd = true.
Proof.
  intros Hw Hc Ht Hin Hm He Ha Hpre Hlen.
  pose proof (resolved_normalized H p cwd c w Hw Hc Hin) as Hwn.
  apply (metadata_child_spec H t pm name w Ht Hwn) in Hm as (_ & Hname & [rest Hrest] & ->).
  destruct (metadata_valid name Hname) as [Hv Hh].
  destruct (join_name H _ name Hwn Hv Hh) as [_ Hj].
  apply existsb_exists. exists e. split; [by apply list_elem_of_In|]. rewrite Ha. simpl.
  apply andb_true_iff. rewrite !path_starts_with_spec, Hj. split; [done|].
  assert (Hpm : components (resolved_path w) ++ [Normal name] `prefix_of` components t).
  { exists rest. by rewrite <- app_assoc. }
  destruct (prefix_weak_total _ _ _ Hpm Hpre) as [|Hp]; [done|].
  apply prefix_length_eq in Hp as ->; [done|]. rewrite length_app. simpl. lia.
Qed.

(** ** Writable paths *)

(** When a path may be written. *)
Lemma can_write_spec (p : FileSystemAccessPolicy) (path cwd t : str) :
  policy_kind p = Restricted -> resolve_candidate_path H path cwd = Some t ->
  can_write_path_with_cwd H p path cwd = true <->
  resolve_access_with_cwd H p path cwd = Write
  /\ (has_full_disk_write_access p = true
      \/ match metadata_child_of_writable_root H p t cwd with
         | Some (pm, _) => has_explicit_write_entry_for_metadata_path H p pm t cwd = true
         | None => True
         end).
Proof.
  intros Hk Ht. unfold can_write_path_with_cwd, is_metadata_write_denied, is_restricted.
  rewrite Ht, (bool_decide_true _ Hk). cbn [negb].
  destruct (resolve_access_with_cwd H p path cwd); cbn [can_write negb]; try naive_solver.
  destruct (has_full_disk_write_access p); [naive_solver|].
  destruct (metadata_child_of_writable_root H p t cwd) as [[pm n]|]; [|naive_solver].
  rewrite negb_involutive. naive_solver.
Qed.

Lemma unrestricted_writable (p : FileSystemAccessPolicy) (path cwd : str) :
  policy_kind p <> Restricted -> can_write_path_with_cwd H p path cwd = true.
Proof.
  intros Hk. unfold can_write_path_with_cwd, resolve_access_with_cwd, has_full_disk_write_access.
  by destruct (policy_kind p).
Qed.

Lemma writable_candidate (p : FileSystemAccessPolicy) (path cwd : str) :
  policy_kind p = Restricted -> can_write_path_with_cwd H p path cwd = true ->
  exists t, resolve_candidate_path H path cwd = Some t.
Proof.
  intros Hk Hcw. destruct (resolve_candidate_path H path cwd) as [t|] eqn:Ht; [by exists t|].
  unfold can_write_path_with_cwd, resolve_access_with_cwd in Hcw. by rewrite Hk, Ht in Hcw.
Qed.

Section Push.
Context (p : FileSystemAccessPolicy) (q cwd c : str).
Context (Hw : well_formed p) (Hq : normalized_absolute q) (Hc : absolute H cwd = Some c).
Context (Hk : policy_kind p = Restricted).

Lemma pushed_metadata_child (t : str) :
  metadata_child_of_writable_root H (pushed p q) t cwd
  = match metadata_child_of_writable_root H p t cwd with
    | Some m => Some m
    | None => metadata_child_of H t (new_entry q)
    end.
Proof.
  unfold metadata_child_of_writable_root. rewrite pushed_resolved, omap_app.
  destruct (omap _ _); simpl; [|done]. by case_match.
Qed.

Lemma pushed_explicit (pm t : str) :
  has_explicit_write_entry_for_metadata_path H p pm t cwd = true ->
  has_explicit_write_entry_for_metadata_path H (pushed p q) pm t cwd = true.
Proof.
  unfold has_explicit_write_entry_for_metadata_path. rewrite pushed_resolved, existsb_app.
  by intros ->.
Qed.

Lemma metadata_child_source (t pm name : str) :
  metadata_child_of_writable_root H p t cwd = Some (pm, name) ->
  exists w, w ∈ resolved_entries_with_cwd H p cwd /\ metadata_child_of H t w = Some (pm, name).
Proof.
  unfold metadata_child_of_writable_root. intros Hm%head_Some_elem_of.
  by apply list_elem_of_omap in Hm.
Qed.

(** What a folder's entry decides, it decides for the entry's own path. *)
Lemma decides_prefix (t : str) (b : ResolvedFileSystemEntry) :
  decides H p t cwd b -> components q `prefix_of` components t ->
  components (resolved_path b) `prefix_of` components q -> decides H p q cwd b.
Proof.
  intros [Hb Hd] Hqt Hbq. apply covering_spec in Hb as [Hb _]. split; [by apply covering_spec|].
  rewrite Forall_forall in Hd |- *. intros f [Hf Hfq]%covering_spec. apply Hd, covering_spec.
  split; [done|]. by etransitivity.
Qed.

(** If the entry that made a path writable is around the added root, the root was refused
    for its metadata, and so would the path have been. *)
Lemma entry_around_root (t pm name : str) (b : ResolvedFileSystemEntry) :
  normalized_absolute t -> can_write_path_with_cwd H p q cwd = false ->
  decides H p t cwd b -> resolved_access b = Write ->
  components q `prefix_of` components t ->
  components (resolved_path b) `prefix_of` components q ->
  exists m, metadata_child_of_writable_root H p t cwd = Some m.
Proof.
  intros Htn Hnq Hb Hbw Hqt Hbq. pose proof (candidate_of_normalized q cwd Hq) as Hcq.
  assert (Hdq : resolve_access_with_cwd H p q cwd = Write).
  { rewrite (decides_resolve H p q cwd q b); [done..|]. by eapply decides_prefix. }
  apply not_true_iff_false in Hnq. rewrite (can_write_spec p q cwd q Hk Hcq) in Hnq.
  destruct (metadata_child_of_writable_root H p q cwd) as [[pm' n']|] eqn:Hm;
    [|destruct Hnq; by split; [|right]].
  apply metadata_child_source in Hm as (w & Hwin & Hwm).
  pose proof (resolved_normalized H p cwd c w Hw Hc Hwin) as Hwn.
  apply metadata_child_spec in Hwm as (Hww & Hn' & [k Hbel] & Hpm); [|done..].
  destruct Hqt as [rest Hrest].
  assert (Hmem : (pm', n') ∈ omap (metadata_child_of H t) (resolved_entries_with_cwd H p cwd)).
  { apply list_elem_of_omap. exists w. split; [done|]. apply metadata_child_spec; [done..|].
    split_and!; try done. exists (k ++ rest). by rewrite Hrest, Hbel, <- app_assoc. }
  unfold metadata_child_of_writable_root.
  destruct (omap _ _) as [|m ms]; [by apply not_elem_of_nil in Hmem|by exists m].
Qed.

(** A metadata folder that is new under the added root: the write entry that made the path
    writable lies inside it. *)
Lemma new_metadata_explicit (path t pm name : str) :
  resolve_candidate_path H path cwd = Some t ->
  can_write_path_with_cwd H p q cwd = false ->
  resolve_access_with_cwd H p path cwd = Write ->
  metadata_child_of_writable_root H p t cwd = None ->
  metadata_child_of H t (new_entry q) = Some (pm, name) ->
  has_explicit_write_entry_for_metadata_path H (pushed p q) pm t cwd = true.
Proof.
  intros Ht Hnq Hacc Hnone Hnew. pose proof (candidate_normalized H _ _ _ Ht) as Htn.
  destruct (resolve_decided H p path cwd t Hk Ht) as [[_ Hn]|(b & Hb & Hbw)]; [congruence|].
  pose proof Hb as [[Hin Hbt]%covering_spec _]. rewrite Hacc in Hbw.
  pose proof Hnew as (_ & Hname & [rest Hrest] & _)%metadata_child_spec; [|done..].
  simpl in Hrest.
  assert (Hqt : components q `prefix_of` components t) by (rewrite Hrest; by eexists).
  destruct (decide (length (components (resolved_path b)) <= length (components q))) as [Hle|Hgt].
  - exfalso. assert (Hbq : components (resolved_path b) `prefix_of` components q).
    { destruct (prefix_weak_total _ _ _ Hbt Hqt) as [|Hqb]; [done|].
      by apply prefix_length_eq in Hqb as ->; [|lia]. }
    destruct (entry_around_root t pm name b) as [m Hm]; [done..|congruence].
  - eapply (explicit_entry (pushed p q) t cwd c pm name (new_entry q) b); try done.
    + by apply pushed_well_formed.
    + rewrite pushed_resolved. apply elem_of_app. right. by left.
    + rewrite pushed_resolved. apply elem_of_app. by left.
    + simpl. lia.
Qed.

(** Adding a root that was not writable takes no write access away. *)
Lemma pushed_keeps (path : str) :
  can_write_path_with_cwd H p q cwd = false -> can_write_path_with_cwd H p path cwd = true ->
  can_write_path_with_cwd H (pushed p q) path cwd = true.
Proof.
  intros Hnq Hcw. pose proof (writable_candidate p path cwd Hk Hcw) as [t Ht].
  pose proof (proj1 (can_write_spec p path cwd t Hk Ht) Hcw) as [Hacc Hmeta].
  apply (can_write_spec (pushed p q) path cwd t Hk Ht). split.
  { by destruct (pushed_access p q cwd path t Write Hk Ht Hacc). }
  destruct Hmeta as [Hfull|Hmeta]; [left; by apply pushed_full_disk|right].
  rewrite pushed_metadata_child.
  destruct (metadata_child_of_writable_root H p t cwd) as [[pm n]|] eqn:Hm.
  - by apply pushed_explicit.
  - destruct (metadata_child_of H t (new_entry q)) as [[pm n]|] eqn:Hnew; [|done].
    by apply (new_metadata_explicit path t pm n).
Qed.

(** The added root is writable, if no entry for the root itself denies access. *)
Lemma pushed_granted :
  (forall e, e ∈ resolved_entries_with_cwd H p cwd ->
     components (resolved_path e) = components q -> resolved_access e <> NoAccess) ->
  can_write_path_with_cwd H (pushed p q) q cwd = true.
Proof.
  intros Hno. pose proof (candidate_of_normalized q cwd Hq) as Hcq.
  assert (Hnewin : new_entry q ∈ resolved_entries_with_cwd H (pushed p q) cwd)
    by (rewrite pushed_resolved; apply elem_of_app; right; by left).
  assert (Hnewcov : new_entry q ∈ covering H (pushed p q) q cwd) by by apply covering_spec.
  apply (can_write_spec (pushed p q) q cwd q Hk Hcq). split.
  - destruct (resolve_decided H (pushed p q) q cwd q Hk Hcq) as [[Hn _]|(e & [He Hd] & ->)].
    { rewrite Hn in Hnewcov. by apply not_elem_of_nil in Hnewcov. }
    rewrite Forall_forall in Hd. specialize (Hd _ Hnewcov).
    apply covering_spec in He as [He Hpre]. pose proof (prefix_length _ _ Hpre) as Hlen.
    unfold dominates, precedence_le in Hd.
    rewrite orb_true_iff, andb_true_iff, Nat.ltb_lt, Nat.eqb_eq, Nat.leb_le in Hd.
    unfold specificity in Hd. cbn [resolved_path resolved_access new_entry] in Hd.
    apply prefix_length_eq in Hpre; [|lia].
    rewrite pushed_resolved, elem_of_app, list_elem_of_singleton in He.
    destruct He as [He| ->]; [|done]. specialize (Hno _ He Hpre).
    destruct (resolved_access e); [simpl in Hd; lia|done|done].
  - right. destruct (metadata_child_of_writable_root H (pushed p q) q cwd) as [[pm n]|] eqn:Hm; [|done].
    unfold metadata_child_of_writable_root in Hm. apply head_Some_elem_of in Hm.
    apply list_elem_of_omap in Hm as (w & Hwin & Hwm).
    pose proof (pushed_well_formed p q Hw Hq) as Hw'.
    pose proof (resolved_normalized H (pushed p q) cwd c w Hw' Hc Hwin) as Hwn.
    pose proof Hwm as (_ & _ & [rest Hbel] & _)%metadata_child_spec; [|done..].
    eapply (explicit_entry (pushed p q) q cwd c pm n w (new_entry q)); try done.
    simpl. rewrite Hbel, length_app. simpl. lia.
Qed.

End Push.

(** ** All the roots *)

Section Roots.
Context (cwd c : str) (Hc : absolute H cwd = Some c).

Lemma additional_kind (p : FileSystemAccessPolicy) (roots : list str) :
  policy_kind (with_additional_writable_roots H p cwd roots) = policy_kind p.
Proof.
  unfold with_additional_writable_roots. revert p. induction roots as [|r roots IH]; intros p; [done|].
  simpl. rewrite IH. by case_match.
Qed.

Lemma additional_keeps (p : FileSystemAccessPolicy) (roots : list str) (path : str) :
  well_formed p -> Forall normalized_absolute roots -> policy_kind p = Restricted ->
  can_write_path_with_cwd H p path cwd = true ->
  can_write_path_with_cwd H (with_additional_writable_roots H p cwd roots) path cwd = true.
Proof.
  intros Hw Hr. revert p Hw. induction Hr as [|r roots Hr Hrs IH]; intros p Hw Hk Hcw; [done|].
  unfold with_additional_writable_roots in *. simpl.
  destruct (can_write_path_with_cwd H p r cwd) eqn:Hpr; [by apply IH|].
  apply IH; [by apply pushed_well_formed|done|]. by eapply pushed_keeps.
Qed.

Lemma additional_granted (p : FileSystemAccessPolicy) (roots : list str) (r : str) :
  well_formed p -> Forall normalized_absolute roots -> policy_kind p = Restricted -> r ∈ roots ->
  (forall e, e ∈ resolved_entries_with_cwd H p cwd ->
     components (resolved_path e) = components r -> resolved_access e <> NoAccess) ->
  can_write_path_with_cwd H (with_additional_writable_roots H p cwd roots) r cwd = true.
Proof.
  intros Hw Hr. revert p Hw. induction Hr as [|q roots Hq Hrs IH]; intros p Hw Hk Hin Hno.
  { by apply not_elem_of_nil in Hin. }
  unfold with_additional_writable_roots. simpl. fold (pushed p q).
  set (p' := if can_write_path_with_cwd H p q cwd then p else pushed p q).
  assert (Hp' : well_formed p' /\ policy_kind p' = Restricted).
  { unfold p'. case_match; [done|]. split; [by apply pushed_well_formed|done]. }
  apply elem_of_cons in Hin as [->|Hin].
  - apply additional_keeps; [apply Hp'|done|apply Hp'|]. unfold p'.
    destruct (can_write_path_with_cwd H p q cwd) eqn:Hpq; [done|]. by eapply pushed_granted.
  - apply IH; [apply Hp'|apply Hp'|done|]. unfold p'. case_match; [done|].
    intros e. rewrite pushed_resolved, elem_of_app, list_elem_of_singleton.
    intros [He| ->]; [by apply Hno|done].
Qed.

End Roots.

(** Adding writable roots leaves every path writable that was, and makes each root
    writable, unless an entry for exactly that folder denies access. *)
Theorem additional_roots_writable (p : FileSystemAccessPolicy) (roots : list str) (cwd : str) :
  well_formed p -> Forall normalized_absolute roots -> is_absolute cwd = true ->
  let p' := with_additional_writable_roots H p cwd roots in
  (forall path, can_write_path_with_cwd H p path cwd = true ->
     can_write_path_with_cwd H p' path cwd = true)
  /\ (forall r, r ∈ roots ->
       (forall e, e ∈ resolved_entries_with_cwd H p cwd ->
          components (resolved_path e) = components r -> resolved_access e <> NoAccess) ->
       can_write_path_with_cwd H p' r cwd = true).
Proof.
  intros Hw Hr Hcwd p'. pose proof (absolute_of_absolute H cwd Hcwd) as Hc.
  destruct (decide (policy_kind p = Restricted)) as [Hk|Hk].
  - split; [intros path; by eapply additional_keeps|]. intros r Hin Hno. by eapply additional_granted.
  - split; intros; apply unrestricted_writable; unfold p'; by rewrite additional_kind.
Qed.

End OnHost.

Lemma additional_roots_writable_witness :
  let p := restricted [entry (Special Root) Read] in
  let p' := with_additional_writable_roots demo_host p (lit "/w") [lit "/data"] in
  ((forall path, can_write_path_with_cwd demo_host p path (lit "/w") = true ->
      can_write_path_with_cwd demo_host p' path (lit "/w") = true)
   /\ (forall r, r ∈ [lit "/data"] ->
        (forall e, e ∈ resolved_entries_with_cwd demo_host p (lit "/w") ->
           components (resolved_path e) = components r -> resolved_access e <> NoAccess) ->
        can_write_path_with_cwd demo_host p' r (lit "/w") = true))
  /\ can_write_path_with_cwd demo_host p (lit "/data/x") (lit "/w") = false
  /\ can_write_path_with_cwd demo_host p' (lit "/data/x") (lit "/w") = true.
Proof.
  split; [|split; by vm_compute]. apply additional_roots_writable; [apply _| | |done].
  - repeat constructor.
  - apply Forall_singleton. exists [lit "data"]. split; [|by vm_compute].
    apply Forall_singleton. repeat split; try done. by apply contains_char_false.
Defined.

End FsAddFacts.
