(* ===== verification/ConfigToml.v ===== *)
(** * Configuration values: src/config/src/{merge,key_aliases,overrides,fingerprint}.rs

    The values of configuration files, the renaming of old keys, the merge of one file
    over another, the overrides of the command line, and the record of where a setting
    comes from. A table is an association list in the order of the map of the crate
    [toml], with one entry for a key; nothing here depends on the order. *)

From Stdlib Require Import Ascii String.
From stdpp Require Import sorting.
From S2P Require Import Prelude RustStr.

Module ConfigToml.

(** ** Values *)

(** A float and a date are kept as the crate writes them. *)
Inductive TomlValue :=
| TString (s : str)
| TInteger (i : Z)
| TFloat (text : str)
| TBoolean (b : bool)
| TDatetime (text : str)
| TArray (items : list TomlValue)
| TTable (table : list (str * TomlValue)).

(** [Map::get], [insert] and [remove]. *)
Fixpoint table_get {A} (key : str) (table : list (str * A)) : option A :=
  match table with
  | [] => None
  | (k, v) :: table => if str_eqb k key then Some v else table_get key table
  end.

Fixpoint table_insert {A} (key : str) (value : A) (table : list (str * A)) : list (str * A) :=
  match table with
  | [] => [(key, value)]
  | (k, v) :: table => if str_eqb k key then (k, value) :: table
                       else (k, v) :: table_insert key value table
  end.

Definition table_remove {A} (key : str) (table : list (str * A)) : list (str * A) :=
  List.filter (fun e => negb (str_eqb e.1 key)) table.

(** ** key_aliases.rs *)

Record ConfigKeyAlias := { table_path : list str; legacy_key : str; canonical_key : str }.

Definition CONFIG_KEY_ALIASES : list ConfigKeyAlias :=
  [{| table_path := [lit "memories"];
      legacy_key := lit "no_memories_if_mcp_or_web_search";
      canonical_key := lit "disable_on_external_context" |}].

(** One round of the loop: [entry(..).or_insert(value)] keeps a value that is there. *)
Definition rename_key {A} (path : list str) (table : list (str * A)) (alias : ConfigKeyAlias)
    : list (str * A) :=
  if bool_decide (path = table_path alias) then
    match table_get (legacy_key alias) table with
    | Some value =>
        let table := table_remove (legacy_key alias) table in
        match table_get (canonical_key alias) table with
        | Some _ => table
        | None => table_insert (canonical_key alias) value table
        end
    | None => table
    end
  else table.

Definition normalize_key_aliases {A} (path : list str) (table : list (str * A))
    : list (str * A) :=
  fold_left (rename_key path) CONFIG_KEY_ALIASES table.

Definition of_entries {A} (entries : list (str * A)) : list (str * A) :=
  fold_left (fun m '(key, value) => table_insert key value m) entries [].

Fixpoint normalized_with_key_aliases (value : TomlValue) (path : list str) : TomlValue :=
  match value with
  | TTable table =>
      let normalized := of_entries
        (map (fun '(key, child) => (key, normalized_with_key_aliases child (path ++ [key])))
           table) in
      TTable (normalize_key_aliases path normalized)
  | TArray items => TArray (map (fun item => normalized_with_key_aliases item path) items)
  | _ => value
  end.

(** ** merge.rs *)

(** The body of the loop over the overlay's entries. With each value comes the merge of
    this value into another, which is the recursive call. *)
Definition merge_entry (path : list str) (base_table : list (str * TomlValue))
    (entry : str * (TomlValue * (TomlValue -> list str -> TomlValue)))
    : list (str * TomlValue) :=
  let '(key, (value, merge_into)) := entry in
  let path := path ++ [key] in
  match table_get key base_table with
  | Some existing => table_insert key (merge_into existing path) base_table
  | None => table_insert key (normalized_with_key_aliases value path) base_table
  end.

Fixpoint merge_toml_values_at_path (overlay base : TomlValue) (path : list str) : TomlValue :=
  match overlay, base with
  | TTable overlay_table, TTable base_table =>
      let base_table := normalize_key_aliases path base_table in
      let overlay_table := normalize_key_aliases path
        (map (fun '(key, value) => (key, (value, merge_toml_values_at_path value)))
           overlay_table) in
      TTable (fold_left (merge_entry path) overlay_table base_table)
  | _, _ => normalized_with_key_aliases overlay path
  end.

Definition merge_toml_values (base overlay : TomlValue) : TomlValue :=
  merge_toml_values_at_path overlay base [].

(** ** overrides.rs *)

Definition default_empty_table : TomlValue := TTable [].

(** The walk down the dotted path; what is not a table on the way becomes one. *)
Fixpoint override_at (segments : list str) (value current : TomlValue) : TomlValue :=
  match segments with
  | [] => current
  | [segment] =>
      match current with
      | TTable table => TTable (table_insert segment value table)
      | _ => TTable (table_insert segment value [])
      end
  | segment :: segments =>
      let table := match current with TTable table => table | _ => [] end in
      let child := match table_get segment table with
                   | Some child => child
                   | None => TTable []
                   end in
      TTable (table_insert segment (override_at segments value child) table)
  end.

Definition apply_toml_override (root : TomlValue) (path : str) (value : TomlValue) : TomlValue :=
  override_at (split_on (ch ".") path) value root.

Definition build_cli_overrides_layer (cli_overrides : list (str * TomlValue)) : TomlValue :=
  fold_left (fun root '(path, value) => apply_toml_override root path value)
    cli_overrides default_empty_table.

(** ** fingerprint.rs *)

Section Origins.
Context {Metadata : Type}.

Fixpoint record_origins (value : TomlValue) (meta : Metadata) (path : list str)
    (origins : gmap (list N) Metadata) : gmap (list N) Metadata :=
  match value with
  | TTable table =>
      fold_left (fun origins '(key, record) => record (path ++ [key]) origins)
        (map (fun '(key, val) => (key, record_origins val meta)) table) origins
  | TArray items =>
      fold_left (fun origins '(idx, record) => record (path ++ [show_nat idx]) origins)
        (combine (seq 0 (length items)) (map (fun item => record_origins item meta) items))
        origins
  | _ => if bool_decide (path = []) then origins
         else <[join (lit ".") path := meta]> origins
  end.

End Origins.

(** Values of the crate [serde_json]: an object is an association list. *)
Inductive JsonValue :=
| JNull
| JBool (b : bool)
| JNumber (text : str)
| JString (s : str)
| JArray (items : list JsonValue)
| JObject (object : list (str * JsonValue)).

(** The loop over the sorted keys: an entry is looked up by its key. *)
Fixpoint canonical_json (value : JsonValue) : JsonValue :=
  match value with
  | JObject object =>
      let canonical := map (fun '(key, val) => (key, canonical_json val)) object in
      JObject (fold_left (fun sorted key =>
                 match table_get key canonical with
                 | Some val => table_insert key val sorted
                 | None => sorted
                 end) (merge_sort str_le (map fst object)) [])
  | JArray items => JArray (map canonical_json items)
  | other => other
  end.

Definition hex_digit (n : N) : char := (if n <? 10 then 48 + n else 87 + n)%N.

(** [format!("{byte:02x}")] *)
Definition hex_byte (byte : N) : str := [hex_digit (byte / 16); hex_digit (byte mod 16)].

Section Version.
(** [serde_json::to_value] and [to_vec], and the crate [sha2]. *)
Context (to_json : TomlValue -> option JsonValue) (to_vec : JsonValue -> option (list N)).
Context (sha256 : list N -> list N).

Definition version_for_toml (value : TomlValue) : str :=
  let json := default JNull (to_json value) in
  let serialized := default [] (to_vec (canonical_json json)) in
  lit "sha256:" ++ concat (map hex_byte (sha256 serialized)).

End Version.

End ConfigToml.
