(* ===== verification/Truncation.v ===== *)
(** * Items of a conversation: src/protocol/src/models.rs

    The messages, calls and outputs that a conversation with a model consists of, as they
    are kept in memory. Serialisation is left out. *)

From Stdlib Require Import Ascii String SpecFloat.
From S2P Require Import Prelude RustStr ConfigToml.
Import ConfigToml.

Module ResponseItems.

Inductive ImageDetail := Auto | Low | High | Original.

Inductive MessagePhase := Commentary | FinalAnswer.

Inductive ContentItem :=
| InputText (text : str)
| InputImage (image_url : str) (detail : option ImageDetail)
| OutputText (text : str).

Inductive LocalShellStatus := Completed | InProgress | Incomplete.

Record LocalShellExecAction := {
  command : list str;
  timeout_ms : option N;
  working_directory : option str;
  env : option (list (str * str));
  user : option str;
}.

Inductive LocalShellAction := Exec (action : LocalShellExecAction).

Inductive WebSearchAction :=
| Search (query : option str) (queries : option (list str))
| OpenPage (url : option str)
| FindInPage (url pattern : option str)
| OtherAction.

Inductive ReasoningItemReasoningSummary := SummaryText (text : str).

Inductive ReasoningItemContent :=
| ReasoningText (text : str)
| ReasoningPlainText (text : str).

(** The content of an output: [FunctionCallOutputContentItem]. *)
Inductive OutputContentItem :=
| OutInputText (text : str)
| OutInputImage (image_url : str) (detail : option ImageDetail).

Inductive FunctionCallOutputBody :=
| TextBody (content : str)
| ContentItems (items : list OutputContentItem).

Record FunctionCallOutputPayload := {
  body : FunctionCallOutputBody;
  success : option bool;
}.

Inductive ResponseItem :=
| Message (id : option str) (role : str) (content : list ContentItem) (phase : option MessagePhase)
| Reasoning (id : str) (summary : list ReasoningItemReasoningSummary)
    (content : option (list ReasoningItemContent)) (encrypted_content signature : option str)
| LocalShellCall (id call_id : option str) (status : LocalShellStatus) (action : LocalShellAction)
| FunctionCall (id : option str) (name : str) (namespace : option str) (arguments call_id : str)
| ToolSearchCall (id call_id status : option str) (execution : str) (arguments : JsonValue)
| FunctionCallOutput (call_id : str) (output : FunctionCallOutputPayload)
| CustomToolCall (id status : option str) (call_id name input : str)
| CustomToolCallOutput (call_id : str) (name : option str) (output : FunctionCallOutputPayload)
| ToolSearchOutput (call_id : option str) (status execution : str) (tools : list JsonValue)
| WebSearchCall (id status : option str) (action : option WebSearchAction)
| ImageGenerationCall (id status : str) (revised_prompt : option str) (result : str)
| Compaction (encrypted_content : str)
| Other.

Definition from_text (content : str) : FunctionCallOutputPayload :=
  {| body := TextBody content; success := None |}.

Definition from_content_items (content_items : list OutputContentItem) : FunctionCallOutputPayload :=
  {| body := ContentItems content_items; success := None |}.

(** The lossy text of an output: images and blank texts are left out. *)
Definition function_call_output_content_items_to_text (items : list OutputContentItem) : option str :=
  let text_segments := omap (fun item =>
    match item with
    | OutInputText text => if str_eqb (trim text) [] then None else Some text
    | OutInputImage _ _ => None
    end) items in
  match text_segments with [] => None | _ => Some (join [NL] text_segments) end.

Definition to_text (b : FunctionCallOutputBody) : option str :=
  match b with
  | TextBody content => Some content
  | ContentItems items => function_call_output_content_items_to_text items
  end.

Definition text_content (p : FunctionCallOutputPayload) : option str :=
  match body p with TextBody content => Some content | ContentItems _ => None end.

Definition content_items (p : FunctionCallOutputPayload) : option (list OutputContentItem) :=
  match body p with TextBody _ => None | ContentItems items => Some items end.

(** [content_items_mut], followed by an assignment. *)
Definition map_content_items (f : list OutputContentItem -> list OutputContentItem)
    (p : FunctionCallOutputPayload) : FunctionCallOutputPayload :=
  match body p with
  | TextBody _ => p
  | ContentItems items => {| body := ContentItems (f items); success := success p |}
  end.

End ResponseItems.

(** * Truncation of outputs: src/utils/common/src/string.rs, src/utils/output-truncation/src/lib.rs

    Texts are cut in the middle to a number of bytes or of approximate tokens. Numbers are
    of 64 bits: where the source subtracts or multiplies, a build with overflow checks
    panics and one without wraps around; [checks] says which. *)

Import ResponseItems.

Module Truncation.

(** ** Numbers of 64 bits *)

Definition USIZE_MAX : N := (2 ^ 64 - 1)%N.
Definition I64_MAX : Z := (2 ^ 63 - 1)%Z.
Definition I64_MIN : Z := (- 2 ^ 63)%Z.

(** [as f64], a product of floating-point numbers, [ceil] and [as usize]. *)
Definition f64_of (n : N) : spec_float := binary_normalize 53 1024 (Z.of_N n) 0 false.

Definition f64_mul : spec_float -> spec_float -> spec_float := SFmul 53 1024.

Definition ceil_as_usize (x : spec_float) : N :=
  match x with
  | S754_finite false m e =>
      let up := if (0 <=? e)%Z then Z.shiftl (Zpos m) e
                else (- Z.shiftr (- Zpos m) (- e))%Z in
      N.min USIZE_MAX (Z.to_N up)
  | S754_infinity false => USIZE_MAX
  | _ => 0%N
  end.

(** The constant 1.2. *)
Definition F1_2 : spec_float := S754_finite false 5404319552844595 (-52).

Section Checks.
Context (checks : bool).

(** The result of an operation, from its value without bounds. *)
Definition usize {E} (n : Z) : result E N :=
  if ((0 <=? n) && (n <=? Z.of_N USIZE_MAX))%Z then Ok (Z.to_N n)
  else if checks then Crash Panicked
  else Ok (Z.to_N (n mod 2 ^ 64)).

Definition usize_sub {E} (a b : N) : result E N := usize (Z.of_N a - Z.of_N b).
Definition usize_mul {E} (a b : N) : result E N := usize (Z.of_N a * Z.of_N b).

(** ** string.rs *)

Definition len (s : str) : N := N.of_nat (utf8_len s).

(** [char_indices().rev().find(|(i, _)| i <= at)] and the slice from there: the text from
    the last character that starts at or before [at]. *)
Fixpoint from_last_start (offset at_most : N) (s : str) : option str :=
  match s with
  | [] => None
  | c :: rest =>
      match from_last_start (offset + N.of_nat (len_utf8 c))%N at_most rest with
      | Some tail => Some tail
      | None => if (offset <=? at_most)%N then Some s else None
      end
  end.

Definition ELLIPSIS : char := 8230%N.

Definition truncate_middle_chars {E} (s : str) (budget : N) : result E str :=
  if (len s <=? budget)%N then Ok s
  else if (budget <? 4)%N then Ok (take (N.to_nat budget) s)
  else
    let half := (budget / 2)%N in
    let start := take (N.to_nat half) s ++ [ELLIPSIS] in
    remaining ← usize_sub budget (len start);
    tail_start ← usize_sub (len s) remaining;
    tail ← or_panic (from_last_start 0 tail_start s);
    Ok (start ++ tail).

Definition approx_tokens_from_byte_count (bytes : N) : N := (bytes / 4 + bytes / 16)%N.

Definition approx_token_count (s : str) : N := approx_tokens_from_byte_count (len s).

Definition approx_bytes_for_tokens {E} (tokens : N) : result E N :=
  bytes ← usize_mul tokens 4;
  usize_sub bytes (tokens / 5)%N.

Definition truncate_middle_with_token_budget {E} (s : str) (token_budget : N) : result E (str * N) :=
  byte_budget ← approx_bytes_for_tokens token_budget;
  truncated ← truncate_middle_chars s byte_budget;
  Ok (truncated, approx_token_count truncated).

(** The loop keeps the last boundary that fits. *)
Fixpoint take_bytes_from (nb maxb : N) (s : str) : str :=
  match s with
  | [] => []
  | c :: rest =>
      let nb := (nb + N.of_nat (len_utf8 c))%N in
      if (maxb <? nb)%N then [] else c :: take_bytes_from nb maxb rest
  end.

Definition take_bytes_at_char_boundary (s : str) (maxb : N) : str :=
  if (len s <=? maxb)%N then s else take_bytes_from 0 maxb s.

(** ** protocol.rs: TruncationPolicy *)

Inductive TruncationPolicy := Bytes (n : N) | Tokens (n : N).

Definition token_budget (p : TruncationPolicy) : N :=
  match p with Bytes bytes => approx_tokens_from_byte_count bytes | Tokens tokens => tokens end.

Definition byte_budget {E} (p : TruncationPolicy) : result E N :=
  match p with Bytes bytes => Ok bytes | Tokens tokens => approx_bytes_for_tokens tokens end.

Definition policy_mul (p : TruncationPolicy) (multiplier : spec_float) : TruncationPolicy :=
  let scale n := ceil_as_usize (f64_mul (f64_of n) multiplier) in
  match p with Bytes n => Bytes (scale n) | Tokens n => Tokens (scale n) end.

(** ** lib.rs *)

Definition truncate_text {E} (content : str) (policy : TruncationPolicy) : result E str :=
  match policy with
  | Bytes bytes => truncate_middle_chars content bytes
  | Tokens tokens => fst <$> truncate_middle_with_token_budget content tokens
  end.

Definition formatted_truncate_text {E} (content : str) (policy : TruncationPolicy) : result E str :=
  budget ← byte_budget policy;
  if (len content <=? budget)%N then Ok content
  else
    text ← truncate_text content policy;
    Ok (lit "Total output lines: " ++ show_nat (length (lines content)) ++ [NL; NL] ++ text).

Definition text_of (item : OutputContentItem) : option str :=
  match item with OutInputText text => Some text | OutInputImage _ _ => None end.

Definition is_image (item : OutputContentItem) : bool :=
  match item with OutInputText _ => false | OutInputImage _ _ => true end.

(** The texts after another, with a newline between them except after empty ones. *)
Definition combine_texts (texts : list str) : str :=
  fold_left (fun combined text =>
    (match combined with [] => [] | _ => combined ++ [NL] end) ++ text) texts [].

Definition formatted_truncate_text_content_items_with_policy {E} (items : list OutputContentItem)
    (policy : TruncationPolicy) : result E (list OutputContentItem * option N) :=
  match omap text_of items with
  | [] => Ok (items, None)
  | text_segments =>
      let combined := combine_texts text_segments in
      budget ← byte_budget policy;
      if (len combined <=? budget)%N then Ok (items, None)
      else
        text ← formatted_truncate_text combined policy;
        Ok (OutInputText text :: List.filter is_image items, Some (approx_token_count combined))
  end.

Definition text_cost (policy : TruncationPolicy) (text : str) : N :=
  match policy with Bytes _ => len text | Tokens _ => approx_token_count text end.

Definition with_limit (policy : TruncationPolicy) (n : N) : TruncationPolicy :=
  match policy with Bytes _ => Bytes n | Tokens _ => Tokens n end.

(** The loop: what is put out, and how many texts are left out. *)
Fixpoint truncate_items {E} (policy : TruncationPolicy) (remaining_budget : N) (omitted : nat)
    (items : list OutputContentItem) : result E (list OutputContentItem * nat) :=
  match items with
  | [] => Ok ([], omitted)
  | OutInputText text :: items =>
      if (remaining_budget =? 0)%N then truncate_items policy remaining_budget (S omitted) items
      else
        let cost := text_cost policy text in
        if (cost <=? remaining_budget)%N then
          '(out, omitted) ← truncate_items policy (remaining_budget - cost)%N omitted items;
          Ok (OutInputText text :: out, omitted)
        else
          snippet ← truncate_text text (with_limit policy remaining_budget);
          match snippet with
          | [] => truncate_items policy 0 (S omitted) items
          | _ => '(out, omitted) ← truncate_items policy 0 omitted items;
                 Ok (OutInputText snippet :: out, omitted)
          end
  | OutInputImage image_url detail :: items =>
      '(out, omitted) ← truncate_items policy remaining_budget omitted items;
      Ok (OutInputImage image_url detail :: out, omitted)
  end.

Definition omission (n : nat) : str := lit "[omitted " ++ show_nat n ++ lit " text items ...]".

Definition truncate_function_output_items_with_policy {E} (items : list OutputContentItem)
    (policy : TruncationPolicy) : result E (list OutputContentItem) :=
  let budget := match policy with Bytes n => n | Tokens n => n end in
  '(out, omitted) ← truncate_items policy budget 0 items;
  Ok (if 0 <? omitted then out ++ [OutInputText (omission omitted)] else out).

Definition approx_tokens_from_byte_count_i64 (bytes : Z) : Z :=
  if (bytes <=? 0)%Z then 0%Z
  else Z.min I64_MAX (Z.of_N (approx_tokens_from_byte_count (Z.to_N bytes))).

End Checks.
End Truncation.

(** * Facts about truncation

    When a cut fits, where it panics, and that a cut keeps a beginning and an end. *)

Module TruncationFacts.
Import Truncation.

Implicit Types (s t : str) (budget : N).

Lemma len_utf8_range (c : char) : 1 <= len_utf8 c <= 4.
Proof. unfold len_utf8. repeat case_match; lia. Qed.

Lemma len_app s t : len (s ++ t) = (len s + len t)%N.
Proof. unfold len, utf8_len. rewrite map_app, sum_list_with_app. lia. Qed.

Lemma len_cons (c : char) s : len (c :: s) = (N.of_nat (len_utf8 c) + len s)%N.
Proof. unfold len, utf8_len. simpl. lia. Qed.

Lemma len_nil s : len s = 0%N -> s = [].
Proof. destruct s as [|c s]; [done|]. rewrite len_cons. pose proof (len_utf8_range c). lia. Qed.

Lemma len_ellipsis : len [ELLIPSIS] = 3%N.
Proof. reflexivity. Qed.

(** The text from the last character that starts in time. *)
Lemma from_last_start_Some (s tail : str) (offset at_most : N) :
  from_last_start offset at_most s = Some tail ->
  exists pre c rest, s = pre ++ tail /\ tail = c :: rest /\ (offset + len pre <= at_most)%N
    /\ (rest = [] \/ (at_most < offset + len pre + N.of_nat (len_utf8 c))%N).
Proof.
  revert offset. induction s as [|x s IH]; intros offset; simpl; [done|].
  destruct (from_last_start _ _ s) as [tail'|] eqn:E.
  - intros [= ->]. apply IH in E as (pre & c & rest & -> & -> & Hle & Hr).
    exists (x :: pre), c, rest. rewrite len_cons. split_and!; [done..|lia|].
    destruct Hr; [by left|right; lia].
  - case_match eqn:Hle; [|done]. intros [= <-]. apply N.leb_le in Hle.
    exists [], x, s. change (len []) with 0%N. split_and!; [done..|lia|].
    destruct s as [|y s]; [by left|]. right.
    cbn [from_last_start] in E. case_match; [done|]. case_match eqn:Hy; [done|]. apply N.leb_gt in Hy. change (len []) with 0%N. lia.
Qed.

Lemma from_last_start_total (s : str) (offset at_most : N) :
  s <> [] -> (offset <= at_most)%N -> is_Some (from_last_start offset at_most s).
Proof.
  intros Hs Ho. destruct s as [|x s]; [done|]. simpl. case_match; [by eexists|].
  apply N.leb_le in Ho. rewrite Ho. by eexists.
Qed.

Lemma usize_ok {E} (checks : bool) (n : Z) :
  (0 <= n <= Z.of_N USIZE_MAX)%Z -> usize (E := E) checks n = Ok (Z.to_N n).
Proof.
  intros Hn. unfold usize. destruct (_ && _) eqn:Hc; [done|].
  apply andb_false_iff in Hc as [?%Z.leb_gt|?%Z.leb_gt]; lia.
Qed.

Lemma usize_sub_ok {E} (checks : bool) (a b : N) :
  (b <= a <= USIZE_MAX)%N -> usize_sub (E := E) checks a b = Ok (a - b)%N.
Proof. intros. unfold usize_sub. rewrite usize_ok by lia. f_equal. lia. Qed.

Lemma usize_sub_under {E} (a b : N) :
  (a < b)%N -> usize_sub (E := E) true a b = Crash Panicked.
Proof.
  intros. unfold usize_sub, usize. destruct (_ && _) eqn:Hc; [|done].
  apply andb_true_iff in Hc as [?%Z.leb_le _]. lia.
Qed.

(** The beginning that is kept, with the mark. *)
Definition kept_start (s : str) (budget : N) : str := take (N.to_nat (budget / 2)) s.

Definition fits_start (s : str) (budget : N) : Prop := (len (kept_start s budget) + 3 <= budget)%N.

(** How long the kept text is, with an end that starts with the character [c]. *)
Definition cut_length (s : str) (budget : N) (c : char) (n : N) : Prop :=
  (budget <= n <= budget + N.of_nat (len_utf8 c))%N
  /\ ((len (kept_start s budget) + 3 < budget)%N -> (n < budget + N.of_nat (len_utf8 c))%N).

Lemma truncate_cut {E} (checks : bool) s budget :
  (len s <= USIZE_MAX)%N -> (4 <= budget < len s)%N -> fits_start s budget ->
  exists mid c rest, s = kept_start s budget ++ mid ++ c :: rest
    /\ truncate_middle_chars (E := E) checks s budget
       = Ok (kept_start s budget ++ ELLIPSIS :: c :: rest)
    /\ cut_length s budget c (len (kept_start s budget ++ ELLIPSIS :: c :: rest)).
Proof.
  intros Hlen Hb Hfit. unfold fits_start in Hfit. unfold truncate_middle_chars, cut_length.
  destruct (len s <=? budget)%N eqn:E1; [apply N.leb_le in E1; lia|].
  destruct (budget <? 4)%N eqn:E2; [apply N.ltb_lt in E2; lia|].
  fold (kept_start s budget). set (p := kept_start s budget) in *.
  assert (Hp : exists r, s = p ++ r)
    by (exists (drop (N.to_nat (budget / 2)) s); unfold p, kept_start; by rewrite take_drop).
  destruct Hp as [r Hr].
  rewrite usize_sub_ok by (rewrite len_app, len_ellipsis; lia). cbn [mbind result_bind].
  rewrite len_app, len_ellipsis. rewrite usize_sub_ok by lia. cbn [mbind result_bind].
  set (ts := (len s - (budget - (len p + 3)))%N).
  destruct (from_last_start_total s 0 ts) as [tail Ht];
    [intros ->; change (len []) with 0%N in Hb; lia|lia|].
  rewrite Ht. cbn [or_panic mbind result_bind].
  apply from_last_start_Some in Ht as (pre & c & rest & Hs & -> & Hle & Hlast).
  pose proof (len_utf8_range c) as Hw.
  pose proof (f_equal len Hs) as Hls. rewrite len_app, len_cons in Hls.
  assert (Hrest : rest = [] -> len rest = 0%N) by (by intros ->).
  assert (Hpre : (len p <= len pre)%N) by (destruct Hlast as [Hlast%Hrest|Hlast]; lia).
  assert (exists mid, pre = p ++ mid) as [mid ->].
  { rewrite Hr in Hs. apply app_eq_inv in Hs as [(k & -> & _)|(k & Hk & _)]; [|by exists k].
    rewrite len_app in Hpre. assert (len k = 0%N) as ->%len_nil by lia. exists []. by rewrite !app_nil_r. }
  exists mid, c, rest. rewrite <- !app_assoc. split; [by rewrite Hs, <- app_assoc|]. split; [done|].
  rewrite len_app, !len_cons. change (len_utf8 ELLIPSIS) with 3. rewrite len_app in *.
  destruct Hlast as [Hlast%Hrest|Hlast]; lia.
Qed.

Lemma truncate_overrun {E} s budget :
  (4 <= budget < len s)%N -> ~ fits_start s budget ->
  truncate_middle_chars (E := E) true s budget = Crash Panicked.
Proof.
  intros Hb Hfit. unfold fits_start, kept_start in Hfit. unfold truncate_middle_chars.
  destruct (len s <=? budget)%N eqn:E1; [apply N.leb_le in E1; lia|].
  destruct (budget <? 4)%N eqn:E2; [apply N.ltb_lt in E2; lia|].
  rewrite usize_sub_under; [done|]. rewrite len_app, len_ellipsis. lia.
Qed.

(** A text within the budget stays as it is. A longer one keeps a beginning, the mark
    and an end that does not overlap it, at least the budget and at most one character
    more, if the first characters, half as many as the budget has bytes, leave room for
    the mark; otherwise a build with overflow checks panics. Below four bytes as many
    characters are kept. *)
Theorem truncate_middle_outcome (s : str) (budget : N) :
  (len s <= USIZE_MAX)%N ->
  ((len s <= budget)%N -> truncate_middle_chars (E := Empty_set) true s budget = Ok s)
  /\ ((budget < len s)%N -> (budget < 4)%N ->
      truncate_middle_chars (E := Empty_set) true s budget = Ok (take (N.to_nat budget) s))
  /\ ((4 <= budget < len s)%N -> fits_start s budget ->
      exists mid c rest, s = kept_start s budget ++ mid ++ c :: rest
        /\ truncate_middle_chars (E := Empty_set) true s budget
           = Ok (kept_start s budget ++ ELLIPSIS :: c :: rest)
        /\ cut_length s budget c (len (kept_start s budget ++ ELLIPSIS :: c :: rest)))
  /\ ((4 <= budget < len s)%N -> ~ fits_start s budget ->
      truncate_middle_chars (E := Empty_set) true s budget = Crash Panicked).
Proof.
  intros Hl. split_and!.
  - intros Hle%N.leb_le. unfold truncate_middle_chars. by rewrite Hle.
  - intros Hlt%N.leb_gt Hb%N.ltb_lt. unfold truncate_middle_chars. by rewrite Hlt, Hb.
  - intros Hb Hf. by apply truncate_cut.
  - intros Hb Hf. by apply truncate_overrun.
Qed.

Lemma truncate_middle_outcome_witness :
  exists mid c rest, lit "hello world" = kept_start (lit "hello world") 8 ++ mid ++ c :: rest
    /\ truncate_middle_chars (E := Empty_set) true (lit "hello world") 8
       = Ok (kept_start (lit "hello world") 8 ++ ELLIPSIS :: c :: rest)
    /\ cut_length (lit "hello world") 8 c
         (len (kept_start (lit "hello world") 8 ++ ELLIPSIS :: c :: rest)).
Proof.
  refine (proj1 (proj2 (proj2 (truncate_middle_outcome (lit "hello world") 8 _))) _ _);
    by vm_compute.
Defined.

(** Text of one byte for a character has exactly the length of the budget, from seven
    bytes on. *)
Definition ascii (s : str) : Prop := Forall (fun c => len_utf8 c = 1) s.

Lemma len_ascii s : ascii s -> len s = N.of_nat (length s).
Proof. induction 1 as [|c s Hc _ IH]; [done|]. rewrite len_cons, IH, Hc. simpl. lia. Qed.

Theorem truncate_ascii_exact {E} (checks : bool) (s : str) (budget : N) :
  ascii s -> (len s <= USIZE_MAX)%N -> (7 <= budget < len s)%N ->
  exists t, truncate_middle_chars (E := E) checks s budget = Ok t /\ len t = budget.
Proof.
  intros Ha Hl Hb. pose proof (len_ascii s Ha) as Hls.
  assert (Hk : len (kept_start s budget) = (budget / 2)%N).
  { unfold kept_start. rewrite len_ascii by (by apply Forall_take). rewrite length_take.
    pose proof (N.Div0.div_le_upper_bound budget 2 budget). lia. }
  pose proof (N.div_mod budget 2 ltac:(done)) as Hd. pose proof (N.mod_lt budget 2 ltac:(done)) as Hm.
  remember (budget / 2)%N as half eqn:Eh. clear Eh. remember (budget mod 2)%N as odd eqn:Eo. clear Eo.
  destruct (truncate_cut (E := E) checks s budget) as (mid & c & rest & Hs & -> & Hc & Hc');
    [lia|lia|unfold fits_start; rewrite Hk; lia|].
  assert (len_utf8 c = 1) as Hw.
  { rewrite Hs in Ha. unfold ascii in Ha. rewrite !Forall_app, Forall_cons in Ha. tauto. }
  eexists. split; [done|]. rewrite Hw in *. lia.
Qed.

(** Three bytes for each character, and half of them alone exceeds the budget. *)
Example chinese_text_panics :
  truncate_middle_chars (E := Empty_set) true (repeat 20013%N 100) 100 = Crash Panicked.
Proof. by vm_compute. Qed.

(** ** The items of an output *)

Lemma truncate_items_images {E} (checks : bool) (policy : TruncationPolicy) (items : list OutputContentItem) :
  forall budget omitted out n,
  truncate_items (E := E) checks policy budget omitted items = Ok (out, n) ->
  List.filter is_image out = List.filter is_image items
  /\ length (omap text_of out) + n = length (omap text_of items) + omitted.
Proof.
  induction items as [|[text|url d] items IH]; intros b o out n; cbn [truncate_items].
  - by intros [= <- <-].
  - case_match; [intros (Hi & Hn)%IH; rewrite !omap_cons; simpl; split; [done|lia]|]. case_match.
    + intros H'. apply bind_Ok in H' as ([out' n'] & (Hi & Hn)%IH & [= <- <-]). rewrite !omap_cons; simpl; split; [done|lia].
    + intros H'. apply bind_Ok in H' as (snippet & _ & H'). destruct snippet as [|c sn].
      * apply IH in H' as (Hi & Hn). rewrite !omap_cons; simpl; split; [done|lia].
      * apply bind_Ok in H' as ([out' n'] & (Hi & Hn)%IH & [= <- <-]). rewrite !omap_cons; simpl; split; [done|lia].
  - intros H'. apply bind_Ok in H' as ([out' n'] & (Hi & Hn)%IH & [= <- <-]). rewrite !omap_cons; simpl.
    rewrite Hi. split; [done|lia].
Qed.

(** The images of an output all stay, in order; each text is put out, as it is or cut, or
    counted in a note at the end. *)
Theorem output_accounts (checks : bool) (items out : list OutputContentItem)
    (policy : TruncationPolicy) :
  truncate_function_output_items_with_policy (E := Empty_set) checks items policy = Ok out ->
  List.filter is_image out = List.filter is_image items
  /\ exists kept n, out = kept ++ (if n =? 0 then [] else [OutInputText (omission n)])
       /\ length (omap text_of kept) + n = length (omap text_of items).
Proof.
  unfold truncate_function_output_items_with_policy. intros H.
  apply bind_Ok in H as ([kept n] & Hk & [= <-]).
  apply truncate_items_images in Hk as [Hi Hn]. split.
  - case_match; [|done]. rewrite List.filter_app. simpl. by rewrite app_nil_r.
  - exists kept, n. split; [|lia]. destruct n; simpl; [by rewrite app_nil_r|done].
Qed.

(** ** A build without overflow checks always returns *)

Definition returns {E A} (x : result E A) : Prop := exists a, x = Ok a.

Lemma returns_bind {E A B} (x : result E A) (f : A -> result E B) :
  returns x -> (forall a, x = Ok a -> returns (f a)) -> returns (x ≫= f).
Proof. intros [a ->] H. by apply H. Qed.

Lemma returns_fmap {E A B} (x : result E A) (f : A -> B) : returns x -> returns (f <$> x).
Proof. intros [a ->]. by exists (f a). Qed.

Lemma usize_returns {E} (n : Z) : returns (usize (E := E) false n).
Proof. unfold usize. case_match; by eexists. Qed.

Lemma truncate_middle_returns {E} (s : str) (budget : N) :
  returns (truncate_middle_chars (E := E) false s budget).
Proof.
  unfold truncate_middle_chars. case_match eqn:Hlen; [by eexists|]. case_match; [by eexists|].
  apply returns_bind; [apply usize_returns|]. intros remaining _.
  apply returns_bind; [apply usize_returns|]. intros tail_start _.
  destruct (from_last_start_total s 0 tail_start) as [tail ->]; [|lia|by eexists].
  intros ->. apply N.leb_gt in Hlen. change (len []) with 0%N in Hlen. lia.
Qed.

Lemma truncate_text_returns {E} (content : str) (policy : TruncationPolicy) :
  returns (truncate_text (E := E) false content policy).
Proof.
  destruct policy as [n|n]; [apply truncate_middle_returns|]. apply returns_fmap.
  unfold truncate_middle_with_token_budget, approx_bytes_for_tokens.
  apply returns_bind; [apply returns_bind; [apply usize_returns|intros; apply usize_returns]|].
  intros budget _. apply returns_bind; [apply truncate_middle_returns|]. intros; by eexists.
Qed.

Lemma truncate_items_returns {E} (policy : TruncationPolicy) items budget omitted :
  returns (truncate_items (E := E) false policy budget omitted items).
Proof.
  revert budget omitted. induction items as [|[text|url d] items IH]; intros budget omitted; simpl.
  - by eexists.
  - case_match; [apply IH|]. case_match.
    + apply returns_bind; [apply IH|]. intros [? ?] _. by eexists.
    + apply returns_bind; [apply truncate_text_returns|]. intros [|c s] _; [apply IH|].
      apply returns_bind; [apply IH|]. intros [? ?] _. by eexists.
  - apply returns_bind; [apply IH|]. intros [? ?] _. by eexists.
Qed.

Lemma truncate_output_returns {E} (items : list OutputContentItem) (policy : TruncationPolicy) :
  returns (truncate_function_output_items_with_policy (E := E) false items policy).
Proof.
  unfold truncate_function_output_items_with_policy.
  apply returns_bind; [apply truncate_items_returns|]. intros [? ?] _. by eexists.
Qed.

End TruncationFacts.
