(* ===== verification/HistoryNormalize.v ===== *)
(** * The pairs of calls and outputs in a history: src/core/src/context_manager/normalize.rs

    Before a history is sent to a model each call gets an output and outputs without a
    call are dropped. [debug] says whether the build has debug assertions: those panic
    where the others log.

    [HistorySanitize] (src/core/src/history_sanitize.rs) prepares a history for the protocol of
    another provider: reasoning that one encrypts or signs is of no use to the next. *)

From Stdlib Require Import Ascii String.
From S2P Require Import Prelude RustStr ConfigToml Truncation.
Import ResponseItems.

Module HistoryNormalize.

Definition IMAGE_CONTENT_OMITTED_PLACEHOLDER : str :=
  lit "image content omitted because you do not support image input".

(** [Vec::remove] at the first position, if there is one. *)
Fixpoint remove_first_matching (predicate : ResponseItem -> bool) (items : list ResponseItem)
    : list ResponseItem :=
  match items with
  | [] => []
  | item :: items => if predicate item then items else item :: remove_first_matching predicate items
  end.

(** ** Patterns *)

Definition is_function_output (id : str) (i : ResponseItem) : bool :=
  match i with FunctionCallOutput existing _ => str_eqb existing id | _ => false end.
Definition is_search_output (id : str) (i : ResponseItem) : bool :=
  match i with ToolSearchOutput (Some existing) _ _ _ => str_eqb existing id | _ => false end.
Definition is_custom_output (id : str) (i : ResponseItem) : bool :=
  match i with CustomToolCallOutput existing _ _ => str_eqb existing id | _ => false end.
Definition is_function_call (id : str) (i : ResponseItem) : bool :=
  match i with FunctionCall _ _ _ _ existing => str_eqb existing id | _ => false end.
Definition is_search_call (id : str) (i : ResponseItem) : bool :=
  match i with ToolSearchCall _ (Some existing) _ _ _ => str_eqb existing id | _ => false end.
Definition is_custom_call (id : str) (i : ResponseItem) : bool :=
  match i with CustomToolCall _ _ existing _ _ => str_eqb existing id | _ => false end.
Definition is_shell_call (id : str) (i : ResponseItem) : bool :=
  match i with LocalShellCall _ (Some existing) _ _ => str_eqb existing id | _ => false end.

Section Build.
Context (debug : bool).

(** util.rs *)
Definition error_or_panic : result Empty_set unit := if debug then Crash Panicked else Ok tt.

(** ** Missing outputs *)

Definition aborted : FunctionCallOutputPayload := from_text (lit "aborted").

(** The output that is made up for a call without one; [loud] for the calls that must
    have one. *)
Definition made_up (loud : bool) (has_output : bool) (output : ResponseItem)
    : result Empty_set (option ResponseItem) :=
  if has_output then Ok None
  else if loud then _ ← error_or_panic; Ok (Some output)
  else Ok (Some output).

Definition missing_output (items : list ResponseItem) (item : ResponseItem)
    : result Empty_set (option ResponseItem) :=
  match item with
  | FunctionCall _ _ _ _ call_id =>
      made_up false (existsb (is_function_output call_id) items) (FunctionCallOutput call_id aborted)
  | ToolSearchCall _ (Some call_id) _ _ _ =>
      made_up false (existsb (is_search_output call_id) items)
        (ToolSearchOutput (Some call_id) (lit "completed") (lit "client") [])
  | CustomToolCall _ _ call_id _ _ =>
      made_up true (existsb (is_custom_output call_id) items)
        (CustomToolCallOutput call_id None aborted)
  | LocalShellCall _ (Some call_id) _ _ =>
      made_up true (existsb (is_function_output call_id) items) (FunctionCallOutput call_id aborted)
  | _ => Ok None
  end.

Fixpoint missing_outputs (items : list ResponseItem) (idx : nat) (rest : list ResponseItem)
    : result Empty_set (list (nat * ResponseItem)) :=
  match rest with
  | [] => Ok []
  | item :: rest =>
      missing ← missing_output items item;
      more ← missing_outputs items (S idx) rest;
      Ok (match missing with Some output => (idx, output) :: more | None => more end)
  end.

(** From the last to the first, so that the earlier positions stay right. *)
Fixpoint insert_outputs (missing : list (nat * ResponseItem)) (items : list ResponseItem)
    : result Empty_set (list ResponseItem) :=
  match missing with
  | [] => Ok items
  | (idx, output_item) :: missing =>
      items ← insert_outputs missing items;
      or_panic (vec_insert (idx + 1) output_item items)
  end.

Definition ensure_call_outputs_present (items : list ResponseItem)
    : result Empty_set (list ResponseItem) :=
  missing ← missing_outputs items 0 items;
  insert_outputs missing items.

(** ** Outputs without a call *)

Record CallIds := {
  function_call_ids : gset str;
  tool_search_call_ids : gset str;
  local_shell_call_ids : gset str;
  custom_tool_call_ids : gset str;
}.

Definition call_ids (items : list ResponseItem) : CallIds := {|
  function_call_ids := list_to_set (omap (fun i =>
    match i with FunctionCall _ _ _ _ call_id => Some call_id | _ => None end) items);
  tool_search_call_ids := list_to_set (omap (fun i =>
    match i with ToolSearchCall _ call_id _ _ _ => call_id | _ => None end) items);
  local_shell_call_ids := list_to_set (omap (fun i =>
    match i with LocalShellCall _ call_id _ _ => call_id | _ => None end) items);
  custom_tool_call_ids := list_to_set (omap (fun i =>
    match i with CustomToolCall _ _ call_id _ _ => Some call_id | _ => None end) items);
|}.

Definition has_match (ids : CallIds) (item : ResponseItem) : bool :=
  match item with
  | FunctionCallOutput call_id _ =>
      bool_decide (call_id ∈ function_call_ids ids) || bool_decide (call_id ∈ local_shell_call_ids ids)
  | CustomToolCallOutput call_id _ _ => bool_decide (call_id ∈ custom_tool_call_ids ids)
  | ToolSearchOutput call_id _ execution _ =>
      if str_eqb execution (lit "server") then true
      else match call_id with
           | Some call_id => bool_decide (call_id ∈ tool_search_call_ids ids)
           | None => true
           end
  | _ => true
  end.

Fixpoint retain_matched (ids : CallIds) (items : list ResponseItem)
    : result Empty_set (list ResponseItem) :=
  match items with
  | [] => Ok []
  | item :: items =>
      if has_match ids item then cons item <$> retain_matched ids items
      else _ ← error_or_panic; retain_matched ids items
  end.

Definition remove_orphan_outputs (items : list ResponseItem) : result Empty_set (list ResponseItem) :=
  retain_matched (call_ids items) items.

End Build.

(** ** The counterpart of one item *)

Definition remove_corresponding_for (items : list ResponseItem) (item : ResponseItem)
    : list ResponseItem :=
  match item with
  | FunctionCall _ _ _ _ call_id => remove_first_matching (is_function_output call_id) items
  | FunctionCallOutput call_id _ =>
      if existsb (is_function_call call_id) items
      then remove_first_matching (is_function_call call_id) items
      else remove_first_matching (is_shell_call call_id) items
  | ToolSearchCall _ (Some call_id) _ _ _ => remove_first_matching (is_search_output call_id) items
  | ToolSearchOutput (Some call_id) _ _ _ => remove_first_matching (is_search_call call_id) items
  | CustomToolCall _ _ call_id _ _ => remove_first_matching (is_custom_output call_id) items
  | CustomToolCallOutput call_id _ _ => remove_first_matching (is_custom_call call_id) items
  | LocalShellCall _ (Some call_id) _ _ => remove_first_matching (is_function_output call_id) items
  | _ => items
  end.

(** ** Images *)

Inductive InputModality := TextModality | ImageModality.

#[export] Instance InputModality_eq_dec : EqDecision InputModality.
Proof. solve_decision. Defined.

Definition without_image (item : ContentItem) : ContentItem :=
  match item with
  | InputImage _ _ => InputText IMAGE_CONTENT_OMITTED_PLACEHOLDER
  | item => item
  end.

Definition output_without_image (placeholder : str) (item : OutputContentItem) : OutputContentItem :=
  match item with
  | OutInputImage _ _ => OutInputText placeholder
  | item => item
  end.

Definition strip_item (item : ResponseItem) : ResponseItem :=
  let strip := map_content_items (map (output_without_image IMAGE_CONTENT_OMITTED_PLACEHOLDER)) in
  match item with
  | Message id role content phase => Message id role (map without_image content) phase
  | FunctionCallOutput call_id output => FunctionCallOutput call_id (strip output)
  | CustomToolCallOutput call_id name output => CustomToolCallOutput call_id name (strip output)
  | ImageGenerationCall id status revised_prompt _ => ImageGenerationCall id status revised_prompt []
  | item => item
  end.

Definition strip_images_when_unsupported (input_modalities : list InputModality)
    (items : list ResponseItem) : list ResponseItem :=
  if bool_decide (ImageModality ∈ input_modalities) then items else map strip_item items.

(** history.rs: the three passes. *)
Definition normalize_history (debug : bool) (input_modalities : list InputModality)
    (items : list ResponseItem) : result Empty_set (list ResponseItem) :=
  items ← ensure_call_outputs_present debug items;
  items ← remove_orphan_outputs debug items;
  Ok (strip_images_when_unsupported input_modalities items).

End HistoryNormalize.

(** * Facts about the pairs in a history *)

Module HistoryNormalizeFacts.
Import HistoryNormalize.

(** ** Which output answers which call *)

Inductive answers : ResponseItem -> ResponseItem -> Prop :=
| answers_function i n ns a id out : answers (FunctionCall i n ns a id) (FunctionCallOutput id out)
| answers_shell i id st a out : answers (LocalShellCall i (Some id) st a) (FunctionCallOutput id out)
| answers_search i id st ex a st' ex' ts :
    answers (ToolSearchCall i (Some id) st ex a) (ToolSearchOutput (Some id) st' ex' ts)
| answers_custom i st id n inp n' out :
    answers (CustomToolCall i st id n inp) (CustomToolCallOutput id n' out).

(** Calls that must have an output: those of functions and custom tools, and those of the
    local shell and of searches for tools that have an identifier. Of them, the calls for
    which a missing one is an error. Outputs that must have a call: those of functions and
    custom tools, and those of searches that have an identifier and were not executed by
    the server. *)
Definition needs_output (i : ResponseItem) : bool :=
  match i with
  | FunctionCall _ _ _ _ _ | CustomToolCall _ _ _ _ _ => true
  | LocalShellCall _ (Some _) _ _ | ToolSearchCall _ (Some _) _ _ _ => true
  | _ => false
  end.

Definition must_have_output (i : ResponseItem) : bool :=
  match i with CustomToolCall _ _ _ _ _ | LocalShellCall _ (Some _) _ _ => true | _ => false end.

Definition needs_call (i : ResponseItem) : bool :=
  match i with
  | FunctionCallOutput _ _ | CustomToolCallOutput _ _ _ => true
  | ToolSearchOutput (Some _) _ execution _ => negb (str_eqb execution (lit "server"))
  | _ => false
  end.

Definition answered (items : list ResponseItem) (c : ResponseItem) : Prop :=
  exists o, o ∈ items /\ answers c o.
Definition called (items : list ResponseItem) (o : ResponseItem) : Prop :=
  exists c, c ∈ items /\ answers c o.

(** Every call has an output and every output has a call. *)
Definition well_paired (items : list ResponseItem) : Prop :=
  (forall c, c ∈ items -> needs_output c = true -> answered items c)
  /\ (forall o, o ∈ items -> needs_call o = true -> called items o).

(** ** The three passes, without control flow *)

Definition missing_of (items : list ResponseItem) (item : ResponseItem) : option ResponseItem :=
  match missing_output false items item with Ok missing => missing | _ => None end.

Definition completed (items rest : list ResponseItem) : list ResponseItem :=
  rest ≫= (fun item => item :: option_list (missing_of items item)).

Definition loud_gap (items : list ResponseItem) (item : ResponseItem) : bool :=
  must_have_output item && match missing_of items item with Some _ => true | None => false end.

Lemma missing_output_spec (debug : bool) (items : list ResponseItem) (item : ResponseItem) :
  missing_output debug items item =
    if debug && loud_gap items item then Crash Panicked else Ok (missing_of items item).
Proof.
  unfold loud_gap, missing_of, missing_output, made_up, error_or_panic.
  destruct item as [| |? [?|]| |? [?|]| | | | | | | |], debug; simpl; try done; by repeat case_match.
Qed.

Lemma missing_outputs_spec (debug : bool) (items rest pre : list ResponseItem) :
  (missing ← missing_outputs debug items (length pre) rest; insert_outputs missing (pre ++ rest)) =
    if debug && existsb (loud_gap items) rest then Crash Panicked
    else Ok (pre ++ completed items rest).
Proof.
  revert pre. induction rest as [|x rest IH]; intros pre; cbn [missing_outputs].
  - simpl. by rewrite andb_false_r.
  - rewrite missing_output_spec. specialize (IH (pre ++ [x])). rewrite length_app, Nat.add_1_r in IH.
    rewrite <- app_assoc in IH. cbn [app] in IH. cbn [existsb].
    destruct (debug && loud_gap items x) eqn:Hx.
    { apply andb_true_iff in Hx as [-> ->]. done. }
    cbn [mbind result_bind].
    assert (debug && (loud_gap items x || existsb (loud_gap items) rest)
            = debug && existsb (loud_gap items) rest) as -> by (by destruct debug, (loud_gap items x)).
    destruct (missing_outputs debug items (S (length pre)) rest) as [more|[]|c]; cbn [mbind result_bind] in *;
      [|by destruct (debug && _)].
    unfold completed in *. rewrite bind_cons.
    destruct (missing_of items x) as [o|]; cbn [option_list app insert_outputs]; rewrite IH;
      (destruct (debug && _); [done|]); [|by rewrite <- app_assoc].
    cbn [mbind result_bind]. rewrite vec_insert_in_range by (rewrite !length_app; simpl; lia).
    rewrite take_app_length', drop_app_length' by (rewrite length_app; simpl; lia).
    cbn [or_panic]. by rewrite <- !app_assoc.
Qed.

Lemma ensure_spec (debug : bool) (items : list ResponseItem) :
  ensure_call_outputs_present debug items =
    if debug && existsb (loud_gap items) items then Crash Panicked else Ok (completed items items).
Proof. exact (missing_outputs_spec debug items items []). Qed.

Lemma retain_spec (debug : bool) (ids : CallIds) (items : list ResponseItem) :
  retain_matched debug ids items =
    if debug && existsb (fun i => negb (has_match ids i)) items then Crash Panicked
    else Ok (List.filter (has_match ids) items).
Proof.
  induction items as [|i items IH]; simpl; [by rewrite andb_false_r|]. rewrite IH.
  destruct (has_match ids i), debug; simpl; try done. by destruct (existsb _ items).
Qed.

(** ** The tests of the source *)

Lemma existsb_elem (p : ResponseItem -> bool) (items : list ResponseItem) :
  existsb p items = true <-> exists i, i ∈ items /\ p i = true.
Proof. rewrite existsb_exists. by setoid_rewrite list_elem_of_In. Qed.

Lemma missing_None (items : list ResponseItem) (c : ResponseItem) :
  missing_of items c = None <-> (needs_output c = true -> answered items c).
Proof.
  assert (Hgap : forall p loud o, match made_up false loud (existsb p items) o with
                                  | Ok missing => missing | _ => None end = None
                                  <-> exists o, o ∈ items /\ p o = true).
  { intros p loud o. rewrite <- existsb_elem. unfold made_up. by destruct (existsb p items), loud. }
  unfold answered, missing_of, missing_output.
  destruct c as [| |? [id|]| |? [id|]| | | | | | | |]; simpl; try (by split; [done|]; intros _; done);
    rewrite Hgap; (split; [intros (o & Ho & Hp) _|intros H; destruct (H eq_refl) as (o & Ho & Ha)]);
    exists o; (split; [done|]);
    try (by inversion Ha; subst; simpl; apply str_eqb_refl);
    destruct o as [| | | | | | | |[?|]| | | |]; simpl in Hp; try done; apply str_eqb_eq in Hp as ->;
    constructor.
Qed.

Lemma missing_Some (items : list ResponseItem) (c o : ResponseItem) :
  missing_of items c = Some o -> answers c o /\ needs_output c = true.
Proof.
  unfold missing_of, missing_output, made_up.
  destruct c as [| |? [id|]| |? [id|]| | | | | | | |]; simpl; repeat case_match; intros;
    simplify_eq; (split; [constructor|done]).
Qed.

Lemma answers_needs (c o : ResponseItem) :
  answers c o -> needs_output c = true /\ needs_call c = false /\ needs_output o = false.
Proof. by destruct 1. Qed.

Lemma has_match_spec (items : list ResponseItem) (o : ResponseItem) :
  has_match (call_ids items) o = true <-> (needs_call o = true -> called items o).
Proof.
  unfold called.
  destruct o as [| | | | |id out| |id n out|[id|] st ex ts| | | |]; simpl; try (by split; [done|]);
    try rewrite orb_true_iff.
  - rewrite !bool_decide_eq_true, !elem_of_list_to_set, !list_elem_of_omap. split.
    + intros [(c & Hc & Hid)|(c & Hc & Hid)] _; exists c; (split; [done|]); destruct c; simplify_eq; constructor.
    + intros H. destruct (H eq_refl) as (c & Hc & Ha). inversion Ha; subst; [left|right]; by eexists.
  - rewrite !bool_decide_eq_true, !elem_of_list_to_set, !list_elem_of_omap. split.
    + intros (c & Hc & Hid) _; exists c; (split; [done|]); destruct c; simplify_eq; constructor.
    + intros H. destruct (H eq_refl) as (c & Hc & Ha). inversion Ha; subst; by eexists.
  - destruct (str_eqb ex _) eqn:Hs; simpl; [done|].
    rewrite !bool_decide_eq_true, !elem_of_list_to_set, !list_elem_of_omap. split.
    + intros (c & Hc & Hid) _; exists c; (split; [done|]); destruct c; simplify_eq; constructor.
    + intros H. destruct (H eq_refl) as (c & Hc & Ha). inversion Ha; subst; by eexists.
  - by destruct (str_eqb ex _).
Qed.

Lemma call_ids_completed (items rest : list ResponseItem) :
  call_ids (completed items rest) = call_ids rest.
Proof.
  assert (Hf : forall f : ResponseItem -> option str,
    (forall c o, answers c o -> f o = None) -> omap f (completed items rest) = omap f rest).
  { intros f Hf. unfold completed. induction rest as [|x rest IH]; [done|].
    rewrite bind_cons, omap_app, IH, !omap_cons.
    destruct (missing_of items x) as [o|] eqn:Hm; cbn [option_list].
    - apply missing_Some in Hm as [Ha _]. change (option_list (Some o)) with [o].
      rewrite omap_cons, (Hf _ _ Ha). by destruct (f x).
    - by destruct (f x). }
  unfold call_ids. rewrite !Hf by (by destruct 1). done.
Qed.

Lemma elem_of_completed (items rest : list ResponseItem) (i : ResponseItem) :
  i ∈ completed items rest <->
  i ∈ rest \/ exists c, c ∈ rest /\ missing_of items c = Some i.
Proof.
  unfold completed. rewrite list_elem_of_bind. split.
  - intros (c & Hi & Hc). apply elem_of_cons in Hi as [->|Hi]; [by left|]. right. exists c.
    split; [done|]. destruct (missing_of items c); simpl in Hi; [|by apply not_elem_of_nil in Hi].
    apply list_elem_of_singleton in Hi. by subst.
  - intros [Hi|(c & Hc & Hm)]; [exists i; split; [by left|done]|]. exists c. split; [|done].
    rewrite Hm. right. by left.
Qed.

(** ** What the passes compute *)

(** An item stays unless it is an output without a call, and is followed by the output
    that is made up for it. *)
Definition paired_reference (items : list ResponseItem) : list ResponseItem :=
  items ≫= (fun item => (if has_match (call_ids items) item then [item] else [])
                        ++ option_list (missing_of items item)).

Lemma missing_matched (items : list ResponseItem) (c o : ResponseItem) :
  c ∈ items -> missing_of items c = Some o -> has_match (call_ids items) o = true.
Proof. intros Hc [Ha _]%missing_Some. apply has_match_spec. intros _. by exists c. Qed.

Lemma filter_completed (items : list ResponseItem) :
  List.filter (has_match (call_ids items)) (completed items items) = paired_reference items.
Proof.
  unfold completed, paired_reference.
  assert (Hsub : forall rest, (forall c, c ∈ rest -> c ∈ items) ->
    List.filter (has_match (call_ids items)) (rest ≫= (fun item => item :: option_list (missing_of items item)))
    = rest ≫= (fun item => (if has_match (call_ids items) item then [item] else [])
                           ++ option_list (missing_of items item))).
  { induction rest as [|x rest IH]; intros Hin; [done|]. rewrite !bind_cons, List.filter_app, IH
      by (intros; apply Hin; by right). f_equal.
    pose proof (missing_matched items x) as Hm.
    simpl. destruct (missing_of items x) as [o|]; simpl;
      [rewrite (Hm o) by (done || apply Hin; by left)|]; by destruct (has_match _ x). }
  by apply Hsub.
Qed.

(** A made-up output has a call; so the items without a match are those of the history. *)
Definition orphan (items : list ResponseItem) (i : ResponseItem) : bool :=
  negb (has_match (call_ids items) i).

Lemma orphan_completed (items : list ResponseItem) :
  existsb (orphan items) (completed items items) = existsb (orphan items) items.
Proof.
  apply eq_true_iff_eq. rewrite !existsb_elem. setoid_rewrite elem_of_completed. split.
  - intros (i & [Hi|(c & Hc & Hm)] & Ho); [by exists i|]. unfold orphan in Ho.
    by rewrite (missing_matched items c i) in Ho.
  - intros (i & Hi & Ho). exists i. auto.
Qed.

Lemma normalize_spec (debug : bool) (mods : list InputModality) (items : list ResponseItem) :
  normalize_history debug mods items =
    if debug && (existsb (loud_gap items) items || existsb (orphan items) items)
    then Crash Panicked
    else Ok (strip_images_when_unsupported mods (paired_reference items)).
Proof.
  unfold normalize_history. rewrite ensure_spec.
  destruct (debug && existsb (loud_gap items) items) eqn:Hg.
  { apply andb_true_iff in Hg as [-> ->]. done. }
  cbn [mbind result_bind]. unfold remove_orphan_outputs. rewrite call_ids_completed, retain_spec.
  fold (orphan items). rewrite orphan_completed, filter_completed.
  by destruct debug; simpl in *; [rewrite Hg; simpl; destruct (existsb (orphan items) items)|].
Qed.

(** Stripping images changes neither calls nor which output answers which. *)
Lemma strip_answers (c o : ResponseItem) : answers (strip_item c) (strip_item o) <-> answers c o.
Proof.
  split; [|by destruct 1; constructor].
  intros H. destruct c, o; simpl in H; inversion H; subst; constructor.
Qed.

Lemma strip_needs (i : ResponseItem) :
  needs_output (strip_item i) = needs_output i /\ needs_call (strip_item i) = needs_call i.
Proof. by destruct i. Qed.

Lemma strip_paired (mods : list InputModality) (items : list ResponseItem) :
  well_paired items -> well_paired (strip_images_when_unsupported mods items).
Proof.
  unfold strip_images_when_unsupported. case_bool_decide; [done|]. intros [Hc Ho].
  split; intros i Hi Hn; change (map strip_item items) with (strip_item <$> items) in Hi;
    apply list_elem_of_fmap in Hi as (j & -> & Hj); pose proof (strip_needs j) as [Hno Hnc].
  - rewrite Hno in Hn. destruct (Hc j Hj Hn) as (o & Hin & Ha).
    exists (strip_item o). split; [by apply (list_elem_of_fmap_2 strip_item)|by apply strip_answers].
  - rewrite Hnc in Hn. destruct (Ho j Hj Hn) as (c & Hin & Ha).
    exists (strip_item c). split; [by apply (list_elem_of_fmap_2 strip_item)|by apply strip_answers].
Qed.

Lemma elem_of_reference (items : list ResponseItem) (i : ResponseItem) :
  i ∈ paired_reference items <->
  (i ∈ items /\ has_match (call_ids items) i = true)
  \/ exists c, c ∈ items /\ missing_of items c = Some i.
Proof.
  rewrite <- filter_completed, list_elem_of_In, filter_In, <- list_elem_of_In, elem_of_completed.
  pose proof (missing_matched items) as Hm. naive_solver.
Qed.

Lemma call_matched (ids : CallIds) (c : ResponseItem) :
  needs_output c = true -> has_match ids c = true.
Proof. by destruct c. Qed.

Lemma reference_paired (items : list ResponseItem) : well_paired (paired_reference items).
Proof.
  split; intros i Hi Hn; apply elem_of_reference in Hi as [[Hi Hm]|(c & Hc & Hm)].
  - destruct (missing_of items i) as [o|] eqn:Ho.
    + exists o. split; [|by apply (missing_Some items)]. apply elem_of_reference. right. eauto.
    + apply missing_None in Ho; [|done]. destruct Ho as (o & Hin & Ha). exists o. split; [|done].
      apply elem_of_reference. left. split; [done|]. apply has_match_spec. intros _. by exists i.
  - apply missing_Some in Hm as [Ha _]. apply answers_needs in Ha as (_ & _ & Hf). congruence.
  - apply has_match_spec in Hm; [|done]. destruct Hm as (c & Hc & Ha). exists c. split; [|done].
    apply elem_of_reference. left. split; [done|]. apply call_matched. by destruct (answers_needs _ _ Ha).
  - exists c. pose proof (missing_Some _ _ _ Hm) as [Ha Hnc]. split; [|done].
    apply elem_of_reference. left. split; [done|]. by apply call_matched.
Qed.

Lemma paired_reference_id (items : list ResponseItem) :
  well_paired items -> paired_reference items = items.
Proof.
  intros [Hc Ho]. rewrite <- filter_completed.
  assert (completed items items = items) as ->.
  { unfold completed. assert (Hsub : forall rest, (forall c, c ∈ rest -> c ∈ items) ->
      rest ≫= (fun item => item :: option_list (missing_of items item)) = rest).
    { induction rest as [|x rest IH]; intros Hin; [done|].
      rewrite bind_cons, IH by (intros; apply Hin; by right).
      assert (missing_of items x = None) as -> by (apply missing_None, Hc, Hin; by left). done. }
    by apply Hsub. }
  apply forallb_filter_id, forallb_forall. intros i Hi%list_elem_of_In.
  apply has_match_spec. by apply Ho.
Qed.

(** ** Properties *)



(** An output of the server's search stays without its call. *)
Example server_output_kept (debug : bool) :
  let o := ToolSearchOutput (Some (lit "server-search")) (lit "completed") (lit "server") [] in
  normalize_history debug [TextModality] [o] = Ok [o].
Proof. by destruct debug; vm_compute. Qed.

(** Normalisation is one pass that drops the outputs without a call and puts an output
    after each call without one; a paired history stays as it is. A build without debug
    assertions always gets there; one with them panics exactly when a custom or shell call
    has no output, or an output no call. *)
Theorem normalize_one_pass (mods : list InputModality) (items : list ResponseItem) :
  normalize_history false mods items
    = Ok (strip_images_when_unsupported mods (paired_reference items))
  /\ (normalize_history true mods items = normalize_history false mods items
      \/ normalize_history true mods items = Crash Panicked)
  /\ (normalize_history true mods items = Crash Panicked <->
      exists i, i ∈ items /\ ((must_have_output i = true /\ ~ answered items i)
                              \/ (needs_call i = true /\ ~ called items i)))
  /\ (well_paired items -> ImageModality ∈ mods ->
      forall debug, normalize_history debug mods items = Ok items).
Proof.
  rewrite !normalize_spec. cbn [andb].
  assert (Hgap : existsb (loud_gap items) items || existsb (orphan items) items = true <->
    exists i, i ∈ items /\ ((must_have_output i = true /\ ~ answered items i)
                            \/ (needs_call i = true /\ ~ called items i))).
  { rewrite orb_true_iff, !existsb_elem. unfold loud_gap, orphan.
    setoid_rewrite andb_true_iff. setoid_rewrite negb_true_iff.
    assert (Hl : forall i, must_have_output i = true ->
      match missing_of items i with Some _ => true | None => false end = true <-> ~ answered items i).
    { intros i Hi. pose proof (missing_None items i) as Hn.
      assert (needs_output i = true) by (by destruct i as [| |? [?|]| | | | | | | | | |]).
      destruct (missing_of items i) as [o|]; [|naive_solver]. split; [|done].
      intros _ Ha. by discriminate (proj2 Hn (fun _ => Ha)). }
    assert (Ho : forall i, has_match (call_ids items) i = false <-> needs_call i = true /\ ~ called items i).
    { intros i. pose proof (has_match_spec items i) as Hs.
      destruct (has_match (call_ids items) i), (needs_call i); naive_solver. }
    setoid_rewrite Ho. split.
    - intros [(i & Hi & Hm & Hg)|(i & Hi & Hm)]; exists i; (split; [done|]); [left|by right].
      split; [done|]. by apply Hl.
    - intros (i & Hi & [[Hm Ha]|Hm]); [left|by right; exists i]. exists i. split; [done|].
      split; [done|]. by apply Hl. }
  split; [done|]. split; [|split].
  - case_match; auto.
  - rewrite <- Hgap. by case_match.
  - intros Hp Hi debug. rewrite normalize_spec, paired_reference_id by done.
    unfold strip_images_when_unsupported. rewrite bool_decide_true by done.
    case_match eqn:Hc; [|done]. apply andb_true_iff in Hc as [_ Hc].
    apply Hgap in Hc as (i & Hin & [[Hm Ha]|[Hm Ha]]); destruct Hp as [Hpc Hpo].
    + destruct Ha. apply Hpc; [done|]. by destruct i as [| |? [?|]| | | | | | | | | |].
    + destruct Ha. by apply Hpo.
Qed.

End HistoryNormalizeFacts.

(** * History for another protocol: src/core/src/history_sanitize.rs

    Reasoning that one protocol encrypts or signs is of no use to another. [Cow] is left
    out: whether the list is borrowed is the boolean that comes with it. *)

Module HistorySanitize.

Inductive WireApi := Responses | Anthropic | Chat.

Inductive HistorySanitizeContext := CurrentProvider | ProviderSwitch.

Definition has_raw_reasoning_content (content : option (list ReasoningItemContent)) : bool :=
  match content with
  | Some content => existsb (fun item => match item with ReasoningText _ => true | _ => false end) content
  | None => false
  end.

Definition reasoning_text (summary : list ReasoningItemReasoningSummary)
    (content : option (list ReasoningItemContent)) : str :=
  match content with
  | Some content =>
      join [NL] (map (fun item => match item with ReasoningText text | ReasoningPlainText text => text end)
                   content)
  | None => join [NL] (map (fun '(SummaryText text) => text) summary)
  end.

Definition is_some {A} (o : option A) : bool := match o with Some _ => true | None => false end.

Definition needs_change (wire_api : WireApi) (context : HistorySanitizeContext) (item : ResponseItem) : bool :=
  match item with
  | Reasoning _ _ content encrypted_content signature =>
      match wire_api with
      | Chat => is_some encrypted_content || is_some signature
      | Responses => is_some signature || has_raw_reasoning_content content
      | Anthropic => match context with
                     | CurrentProvider => false
                     | ProviderSwitch => negb (is_some signature)
                     end
      end
  | _ => false
  end.

Definition sanitize_item (wire_api : WireApi) (context : HistorySanitizeContext) (item : ResponseItem)
    : ResponseItem :=
  match item with
  | Reasoning id summary content encrypted_content signature =>
      match wire_api, context, signature with
      | Anthropic, ProviderSwitch, None =>
          Message None (lit "assistant") [InputText (reasoning_text summary content)] None
      | _, _, _ =>
          let '(encrypted_content, signature) :=
            match wire_api with
            | Chat => (None, None)
            | Responses => if is_some signature then (None, None) else (encrypted_content, None)
            | Anthropic => (encrypted_content, signature)
            end in
          let content :=
            match wire_api with
            | Responses => if has_raw_reasoning_content content then None else content
            | _ => content
            end in
          Reasoning id summary content encrypted_content signature
      end
  | item => item
  end.

(** The history, and whether it is the one given. *)
Definition sanitize_history_for_wire_api_in_context (wire_api : WireApi) (items : list ResponseItem)
    (context : HistorySanitizeContext) : list ResponseItem * bool :=
  if existsb (needs_change wire_api context) items
  then (map (sanitize_item wire_api context) items, false)
  else (items, true).

Definition sanitize_history_for_wire_api (wire_api : WireApi) (items : list ResponseItem) :=
  sanitize_history_for_wire_api_in_context wire_api items CurrentProvider.

Definition sanitize_history_for_provider_switch (wire_api : WireApi) (items : list ResponseItem) :=
  sanitize_history_for_wire_api_in_context wire_api items ProviderSwitch.

End HistorySanitize.

Module HistorySanitizeFacts.
Import HistorySanitize HistoryNormalizeFacts.

Lemma sanitize_item_id wire_api context item :
  needs_change wire_api context item = false -> sanitize_item wire_api context item = item.
Proof.
  destruct item as [|id summary content enc sig| | | | | | | | | | |]; try done.
  destruct wire_api, context, enc, sig; simpl; try done; by destruct (has_raw_reasoning_content content).
Qed.

Lemma sanitize_item_clean wire_api context item :
  needs_change wire_api context (sanitize_item wire_api context item) = false.
Proof.
  destruct item as [|id summary content enc sig| | | | | | | | | | |]; try done.
  destruct wire_api, context, sig; simpl; try done;
    destruct (has_raw_reasoning_content content) eqn:Hc; simpl; done.
Qed.

Lemma sanitize_item_side wire_api context item :
  needs_output (sanitize_item wire_api context item) = needs_output item
  /\ needs_call (sanitize_item wire_api context item) = needs_call item
  /\ (match item with Reasoning _ _ _ _ _ => True | _ => sanitize_item wire_api context item = item end).
Proof.
  destruct item as [|id summary content enc sig| | | | | | | | | | |]; try done.
  by destruct wire_api, context, sig.
Qed.

(** The history for another protocol has no item that the protocol cannot read, keeps
    the number, the order and everything but reasoning, and pairs stay pairs; making it
    again changes nothing, and the history is only copied when something has to change. *)
Theorem sanitize_history_clean (wire_api : WireApi) (context : HistorySanitizeContext)
    (items : list ResponseItem) :
  let '(out, borrowed) := sanitize_history_for_wire_api_in_context wire_api items context in
  existsb (needs_change wire_api context) out = false
  /\ sanitize_history_for_wire_api_in_context wire_api out context = (out, true)
  /\ (borrowed = true <-> out = items)
  /\ Forall2 (fun a b => match a with Reasoning _ _ _ _ _ => True | _ => b = a end) items out
  /\ (well_paired items -> well_paired out).
Proof.
  assert (Hclean : existsb (needs_change wire_api context) (map (sanitize_item wire_api context) items) = false).
  { induction items as [|i items IH]; [done|]. simpl. by rewrite sanitize_item_clean. }
  unfold sanitize_history_for_wire_api_in_context.
  destruct (existsb (needs_change wire_api context) items) eqn:Hn.
  2: { rewrite Hn. split_and!; try done. apply Forall_Forall2_diag, Forall_forall.
       intros i _. by destruct i. }
  rewrite Hclean. split; [done|]. split; [done|]. split.
  { split; [done|]. intros He. rewrite He in Hclean. congruence. }
  split.
  { clear. induction items as [|i items IH]; constructor; [|done]. by destruct (sanitize_item_side wire_api context i) as (_ & _ & ?), i. }
  intros [Hc Ho].
  assert (Hin : forall i, i ∈ items -> sanitize_item wire_api context i ∈ map (sanitize_item wire_api context) items).
  { intros i Hi. change (map ?f items) with (f <$> items). by apply list_elem_of_fmap_2. }
  assert (Hans : forall c o, answers c o ->
    answers (sanitize_item wire_api context c) (sanitize_item wire_api context o)) by (by destruct 1; constructor).
  split; intros i Hi Hne; change (map ?f items) with (f <$> items) in Hi;
    apply list_elem_of_fmap in Hi as (j & -> & Hj);
    destruct (sanitize_item_side wire_api context j) as (Hno & Hnc & _).
  - rewrite Hno in Hne. destruct (Hc j Hj Hne) as (o & Hin' & Ha).
    exists (sanitize_item wire_api context o). auto.
  - rewrite Hnc in Hne. destruct (Ho j Hj Hne) as (c & Hin' & Ha).
    exists (sanitize_item wire_api context c). auto.
Qed.

End HistorySanitizeFacts.
