(* ===== verification/History.v ===== *)
(** * The history of a thread: src/core/src/context_manager/history.rs

    The items that a model has seen and said: what is recorded, dropped and rolled back,
    and the estimates of tokens. The marks of injected context are those of
    src/core/src/event_mapping.rs and src/core/src/context. Parsers of JSON and XML,
    the length of an item as JSON and the decoding of images are parameters; the cache of
    image sizes, which only saves work, is left out. *)

From Stdlib Require Import Ascii String.
From S2P Require Import Prelude RustStr ConfigToml Truncation HistoryNormalize.
Import ResponseItems Truncation HistoryNormalize.

Module History.

(** ** Slices of bytes *)

(** [s.get(..n)] and [s.get(n..)]; nothing when [n] is inside a character or too large. *)
Fixpoint split_bytes (n : nat) (s : str) : option (str * str) :=
  if n =? 0 then Some ([], s)
  else match s with
       | [] => None
       | c :: s =>
           if len_utf8 c <=? n
           then '(a, b) ← split_bytes (n - len_utf8 c) s; Some (c :: a, b)
           else None
       end.

Definition get_to (n : nat) (s : str) : option str := fst <$> split_bytes n s.
Definition get_from (n : nat) (s : str) : option str := snd <$> split_bytes n s.

Definition is_some_and (o : option str) (p : str -> bool) : bool :=
  match o with Some s => p s | None => false end.

(** ** context/fragment.rs and the fragments *)

Definition matches_markers (start_marker end_marker text : str) : bool :=
  match start_marker, end_marker with
  | [], _ | _, [] => false
  | _, _ =>
      let trimmed := trim_start text in
      let starts_with_marker := is_some_and (get_to (utf8_len start_marker) trimmed)
                                  (fun candidate => eq_ignore_ascii_case candidate start_marker) in
      let trimmed := trim_end trimmed in
      let ends_with_marker := is_some_and (get_from (utf8_len trimmed - utf8_len end_marker) trimmed)
                                (fun candidate => eq_ignore_ascii_case candidate end_marker) in
      starts_with_marker && ends_with_marker
  end.

(** The start and end markers of the fragments of the user's role. *)
Definition CONTEXTUAL_USER_FRAGMENTS : list (str * str) :=
  [(lit "# AGENTS.md instructions for ", lit "</INSTRUCTIONS>");
   (lit "<environment_context>", lit "</environment_context>");
   (lit "<skill>", lit "</skill>");
   (lit "<user_shell_command>", lit "</user_shell_command>");
   (lit "<turn_aborted>", lit "</turn_aborted>");
   (lit "<subagent_notification>", lit "</subagent_notification>")].

Definition is_standard_contextual_user_text (text : str) : bool :=
  existsb (fun '(start_marker, end_marker) => matches_markers start_marker end_marker text)
    CONTEXTUAL_USER_FRAGMENTS.

Definition CONTEXTUAL_DEVELOPER_PREFIXES : list str :=
  [lit "<permissions instructions>"; lit "<model_switch>"; lit "<collaboration_mode>";
   lit "<realtime_conversation>"; lit "<personality_spec>"].

Definition is_contextual_dev_fragment (content_item : ContentItem) : bool :=
  match content_item with
  | InputText text =>
      let trimmed := trim_start text in
      existsb (fun prefix => is_some_and (get_to (utf8_len prefix) trimmed)
                               (fun candidate => eq_ignore_ascii_case candidate prefix))
        CONTEXTUAL_DEVELOPER_PREFIXES
  | _ => false
  end.

Definition is_contextual_dev_message_content (message : list ContentItem) : bool :=
  existsb is_contextual_dev_fragment message.

Definition has_non_contextual_dev_message_content (message : list ContentItem) : bool :=
  existsb (fun content_item => negb (is_contextual_dev_fragment content_item)) message.

(** ** Kinds of items *)

Definition is_api_message (message : ResponseItem) : bool :=
  match message with
  | Message _ role _ _ => negb (str_eqb role (lit "system"))
  | Other => false
  | _ => true
  end.

Definition is_model_generated_item (item : ResponseItem) : bool :=
  match item with
  | Message _ role _ _ => str_eqb role (lit "assistant")
  | Reasoning _ _ _ _ _ | FunctionCall _ _ _ _ _ | ToolSearchCall _ _ _ _ _
  | WebSearchCall _ _ _ | ImageGenerationCall _ _ _ _ | CustomToolCall _ _ _ _ _
  | LocalShellCall _ _ _ _ | Compaction _ => true
  | FunctionCallOutput _ _ | ToolSearchOutput _ _ _ _ | CustomToolCallOutput _ _ _ | Other => false
  end.

Definition is_agere_generated_item (item : ResponseItem) : bool :=
  match item with
  | FunctionCallOutput _ _ | ToolSearchOutput _ _ _ _ | CustomToolCallOutput _ _ _ => true
  | Message _ role _ _ => str_eqb role (lit "developer")
  | _ => false
  end.

(** ** Numbers *)

Definition i64_clamp (n : Z) : Z := Z.max I64_MIN (Z.min I64_MAX n).
Definition saturating_add (a b : Z) : Z := i64_clamp (a + b).
Definition saturating_sub (a b : Z) : Z := i64_clamp (a - b).
Definition saturating_mul (a b : Z) : Z := i64_clamp (a * b).

(** [i64::try_from(n).unwrap_or(i64::MAX)] *)
Definition as_i64 (n : N) : Z := Z.min I64_MAX (Z.of_N n).

Definition next_version (version : N) : N := N.min USIZE_MAX (version + 1).

Definition estimate_reasoning_length (encoded_len : N) : N :=
  N.min USIZE_MAX (encoded_len * 3) / 4 - 650.

(** ** Token counts: protocol.rs *)

Record TokenUsage := {
  input_tokens : Z;
  cached_input_tokens : Z;
  output_tokens : Z;
  reasoning_output_tokens : Z;
  total_tokens : Z;
}.

Record TokenUsageInfo := {
  total_token_usage : TokenUsage;
  last_token_usage : TokenUsage;
  model_context_window : option Z;
}.

Definition no_tokens : TokenUsage := {|
  input_tokens := 0; cached_input_tokens := 0; output_tokens := 0;
  reasoning_output_tokens := 0; total_tokens := 0
|}.

Definition only_total (n : Z) : TokenUsage := {|
  input_tokens := 0; cached_input_tokens := 0; output_tokens := 0;
  reasoning_output_tokens := 0; total_tokens := n
|}.

Section Tokens.
Context (debug : bool).

(** An operation on 64 signed bits. *)
Definition i64 {E} (n : Z) : result E Z :=
  if ((I64_MIN <=? n) && (n <=? I64_MAX))%Z then Ok n
  else if debug then Crash Panicked
  else Ok ((n + 2 ^ 63) mod 2 ^ 64 - 2 ^ 63)%Z.

Definition add_assign {E} (self other : TokenUsage) : result E TokenUsage :=
  a ← i64 (input_tokens self + input_tokens other)%Z;
  b ← i64 (cached_input_tokens self + cached_input_tokens other)%Z;
  c ← i64 (output_tokens self + output_tokens other)%Z;
  d ← i64 (reasoning_output_tokens self + reasoning_output_tokens other)%Z;
  e ← i64 (total_tokens self + total_tokens other)%Z;
  Ok {| input_tokens := a; cached_input_tokens := b; output_tokens := c;
        reasoning_output_tokens := d; total_tokens := e |}.

Definition append_last_usage {E} (info : TokenUsageInfo) (last : TokenUsage)
    : result E TokenUsageInfo :=
  total ← add_assign (total_token_usage info) last;
  Ok {| total_token_usage := total; last_token_usage := last;
        model_context_window := model_context_window info |}.

Definition new_or_append {E} (info : option TokenUsageInfo) (last : option TokenUsage)
    (context_window : option Z) : result E (option TokenUsageInfo) :=
  match info, last with
  | None, None => Ok None
  | _, _ =>
      let start := match info with
                   | Some info => info
                   | None => {| total_token_usage := no_tokens; last_token_usage := no_tokens;
                                model_context_window := context_window |}
                   end in
      appended ← match last with
                 | Some last => append_last_usage start last
                 | None => Ok start
                 end;
      Ok (Some {| total_token_usage := total_token_usage appended;
                  last_token_usage := last_token_usage appended;
                  model_context_window := match context_window with
                                          | Some w => Some w
                                          | None => model_context_window appended
                                          end |})
  end.

Definition fill_to_context_window {E} (info : TokenUsageInfo) (context_window : Z)
    : result E TokenUsageInfo :=
  difference ← i64 (context_window - total_tokens (total_token_usage info))%Z;
  Ok {| total_token_usage := only_total context_window;
        last_token_usage := only_total (Z.max difference 0);
        model_context_window := Some context_window |}.

Definition full_context_window {E} (context_window : Z) : result E TokenUsageInfo :=
  fill_to_context_window {| total_token_usage := no_tokens; last_token_usage := no_tokens;
                            model_context_window := Some context_window |} context_window.

End Tokens.

(** ** Images in the estimate of tokens *)

Definition RESIZED_IMAGE_BYTES_ESTIMATE : Z := 7373.
Definition ORIGINAL_IMAGE_PATCH_SIZE : Z := 32.
Definition ORIGINAL_IMAGE_MAX_PATCHES : N := 10000.

Definition parse_base64_image_data_url (url : str) : option str :=
  if negb (is_some_and (get_to 5 url) (fun prefix => eq_ignore_ascii_case prefix (lit "data:")))
  then None
  else
    '(metadata, payload) ← split_once (ch ",") url;
    match split_on (ch ";") (drop 5 metadata) with
    | [] => None
    | mime_type :: metadata_parts =>
        if negb (is_some_and (get_to 6 mime_type)
                   (fun prefix => eq_ignore_ascii_case prefix (lit "image/")))
        then None
        else if negb (existsb (fun part => eq_ignore_ascii_case part (lit "base64")) metadata_parts)
        then None
        else Some payload
    end.

(** The images of an item, with the detail that is asked for. *)
Definition item_images (item : ResponseItem) : list (str * option ImageDetail) :=
  match item with
  | Message _ _ content _ =>
      omap (fun i => match i with
                     | InputImage image_url detail => Some (image_url, detail)
                     | _ => None
                     end) content
  | FunctionCallOutput _ output | CustomToolCallOutput _ _ output =>
      match body output with
      | ContentItems items =>
          omap (fun i => match i with
                         | OutInputImage image_url detail => Some (image_url, detail)
                         | OutInputText _ => None
                         end) items
      | TextBody _ => []
      end
  | _ => []
  end.

(** [rposition] *)
Definition rposition (p : ResponseItem -> bool) (items : list ResponseItem) : option nat :=
  last (omap (fun '(i, item) => if p item then Some i else None) (imap pair items)).

Section Manager.
Context (debug : bool).
(** The parsers of messages between agents, giving whether the message starts a turn, and
    of hook prompts, giving the text and the identifier of the hook. *)
Context (parse_communication : str -> option bool) (parse_hook_xml : str -> option (str * str)).
(** The length of an item as JSON, and the size of a decoded image. *)
Context (json_len : ResponseItem -> option N) (image_size : str -> option (Z * Z)).

(** items.rs *)
Definition parse_hook_prompt_fragment (text : str) : option (str * str) :=
  '(text, hook_run_id) ← parse_hook_xml (trim text);
  match trim hook_run_id with [] => None | _ => Some (text, hook_run_id) end.

Definition is_contextual_user_fragment (content_item : ContentItem) : bool :=
  match content_item with
  | InputText text =>
      match parse_hook_prompt_fragment text with
      | Some _ => true
      | None => is_standard_contextual_user_text text
      end
  | _ => false
  end.

Definition is_contextual_user_message_content (message : list ContentItem) : bool :=
  existsb is_contextual_user_fragment message.

(** [InterAgentCommunication::from_message_content] *)
Definition communication_of (content : list ContentItem) : option bool :=
  match content with
  | [InputText text] | [OutputText text] => parse_communication text
  | _ => None
  end.

Definition is_inter_agent_instruction_content (content : list ContentItem) : bool :=
  match communication_of content with Some _ => true | None => false end.

Definition is_user_turn_boundary (item : ResponseItem) : bool :=
  match item with
  | Message _ role content _ =>
      (str_eqb role (lit "user") && negb (is_contextual_user_message_content content))
      || (str_eqb role (lit "assistant") && is_inter_agent_instruction_content content)
  | _ => false
  end.

Definition user_message_positions (items : list ResponseItem) : list nat :=
  omap (fun '(idx, item) => if is_user_turn_boundary item then Some idx else None)
    (imap pair items).

(** ** Estimates *)

Definition estimate_original_image_bytes (image_url : str) : option Z :=
  payload ← parse_base64_image_data_url image_url;
  '(width, height) ← image_size payload;
  let patches n := (saturating_add n (ORIGINAL_IMAGE_PATCH_SIZE - 1) / ORIGINAL_IMAGE_PATCH_SIZE)%Z in
  let patch_count := saturating_mul (patches width) (patches height) in
  let patch_count := N.min (if (patch_count <? 0)%Z then USIZE_MAX else Z.to_N patch_count)
                       ORIGINAL_IMAGE_MAX_PATCHES in
  match approx_bytes_for_tokens (E := Empty_set) debug patch_count with
  | Ok bytes => Some (as_i64 bytes)
  | _ => None
  end.

Definition accumulate (sums : Z * Z) (image : str * option ImageDetail) : Z * Z :=
  let '(payload_bytes, replacement_bytes) := sums in
  let '(image_url, detail) := image in
  match parse_base64_image_data_url image_url with
  | None => sums
  | Some payload =>
      (saturating_add payload_bytes (as_i64 (len payload)),
       saturating_add replacement_bytes
         (match detail with
          | Some Original =>
              default RESIZED_IMAGE_BYTES_ESTIMATE (estimate_original_image_bytes image_url)
          | _ => RESIZED_IMAGE_BYTES_ESTIMATE
          end))
  end.

Definition image_data_url_estimate_adjustment (item : ResponseItem) : Z * Z :=
  fold_left accumulate (item_images item) (0, 0)%Z.

Definition estimate_response_item_model_visible_bytes (item : ResponseItem) : Z :=
  match item with
  | Reasoning _ _ _ (Some content) _ | Compaction content =>
      as_i64 (estimate_reasoning_length (len content))
  | item =>
      let raw := match json_len item with Some n => as_i64 n | None => 0%Z end in
      let '(payload_bytes, replacement_bytes) := image_data_url_estimate_adjustment item in
      if ((payload_bytes =? 0) || (replacement_bytes =? 0))%Z then raw
      else saturating_add (saturating_sub raw payload_bytes) replacement_bytes
  end.

Definition estimate_item_token_count (item : ResponseItem) : Z :=
  approx_tokens_from_byte_count_i64 (estimate_response_item_model_visible_bytes item).

Definition sum_saturating (l : list Z) : Z := fold_left saturating_add l 0%Z.

(** ** The history *)

Context {C : Type}.

(** [reference_context_item] is the settings of the last turn that the model was told. *)
Record ContextManager := {
  items : list ResponseItem;
  history_version : N;
  token_info : option TokenUsageInfo;
  reference_context_item : option C;
}.

Definition new : ContextManager :=
  {| items := []; history_version := 0; token_info := None; reference_context_item := None |}.

Definition with_items (new_items : list ResponseItem) (m : ContextManager) : ContextManager :=
  {| items := new_items; history_version := history_version m; token_info := token_info m;
     reference_context_item := reference_context_item m |}.

Definition bump (m : ContextManager) : ContextManager :=
  {| items := items m; history_version := next_version (history_version m);
     token_info := token_info m; reference_context_item := reference_context_item m |}.

Definition set_token_info (info : option TokenUsageInfo) (m : ContextManager) : ContextManager :=
  {| items := items m; history_version := history_version m; token_info := info;
     reference_context_item := reference_context_item m |}.

Definition set_reference_context_item (item : option C) (m : ContextManager) : ContextManager :=
  {| items := items m; history_version := history_version m; token_info := token_info m;
     reference_context_item := item |}.

Definition set_token_usage_full (context_window : Z) (m : ContextManager)
    : result Empty_set ContextManager :=
  info ← match token_info m with
         | Some info => fill_to_context_window debug info context_window
         | None => full_context_window debug context_window
         end;
  Ok (set_token_info (Some info) m).

Definition update_token_info (usage : TokenUsage) (context_window : option Z) (m : ContextManager)
    : result Empty_set ContextManager :=
  info ← new_or_append debug (token_info m) (Some usage) context_window;
  Ok (set_token_info info m).

Definition truncate_function_output_payload (output : FunctionCallOutputPayload)
    (policy : TruncationPolicy) : result Empty_set FunctionCallOutputPayload :=
  b ← match body output with
      | TextBody content => TextBody <$> truncate_text debug content policy
      | ContentItems items => ContentItems <$> truncate_function_output_items_with_policy debug items policy
      end;
  Ok {| body := b; success := success output |}.

Definition process_item (item : ResponseItem) (policy : TruncationPolicy)
    : result Empty_set ResponseItem :=
  let policy_with_serialization_budget := policy_mul policy F1_2 in
  match item with
  | FunctionCallOutput call_id output =>
      FunctionCallOutput call_id
        <$> truncate_function_output_payload output policy_with_serialization_budget
  | CustomToolCallOutput call_id name output =>
      CustomToolCallOutput call_id name
        <$> truncate_function_output_payload output policy_with_serialization_budget
  | item => Ok item
  end.

Definition record_items (recorded : list ResponseItem) (policy : TruncationPolicy) (m : ContextManager)
    : result Empty_set ContextManager :=
  processed ← collect (fun item => process_item item policy) (List.filter is_api_message recorded);
  Ok (with_items (items m ++ processed) m).

Definition for_prompt (input_modalities : list InputModality) (m : ContextManager)
    : result Empty_set (list ResponseItem) :=
  normalize_history debug input_modalities (items m).

Definition estimate_token_count_with_base_instructions (base_instructions : str) (m : ContextManager)
    : option Z :=
  let base_tokens := as_i64 (approx_token_count base_instructions) in
  Some (saturating_add base_tokens (sum_saturating (map estimate_item_token_count (items m)))).

Definition remove_first_item (m : ContextManager) : ContextManager :=
  match items m with
  | [] => m
  | removed :: rest => with_items (remove_corresponding_for rest removed) m
  end.

Definition remove_last_item (m : ContextManager) : ContextManager * bool :=
  match last (items m) with
  | Some removed =>
      (bump (with_items (remove_corresponding_for (removelast (items m)) removed) m), true)
  | None => (m, false)
  end.

Definition replace (new_items : list ResponseItem) (m : ContextManager) : ContextManager :=
  bump (with_items new_items m).

Definition replace_last_turn_images (placeholder : str) (m : ContextManager) : ContextManager * bool :=
  let wanted item := match item with FunctionCallOutput _ _ => true | _ => is_user_turn_boundary item end in
  match rposition wanted (items m) with
  | None => (m, false)
  | Some index =>
      match items m !! index with
      | Some (FunctionCallOutput call_id output) =>
          match content_items output with
          | Some content =>
              let item := FunctionCallOutput call_id
                            (map_content_items (map (output_without_image placeholder)) output) in
              if existsb is_image content
              then (bump (with_items (<[index := item]> (items m)) m), true)
              else (m, false)
          | None => (m, false)
          end
      | _ => (m, false)
      end
  end.

(** ** Rolling back *)

(** Injected context just before a turn, for the developer's role with whether it holds
    other text too. *)
Definition pre_turn_context (item : ResponseItem) : option bool :=
  match item with
  | Message _ role content _ =>
      if str_eqb role (lit "developer") && is_contextual_dev_message_content content
      then Some (has_non_contextual_dev_message_content content)
      else if str_eqb role (lit "user") && is_contextual_user_message_content content
      then Some false
      else None
  | _ => None
  end.

(** The new end, and whether the baseline of the settings is lost. *)
Fixpoint trim_pre_turn_context_updates (snapshot : list ResponseItem) (first_turn : nat)
    (mixed : bool) (cut_idx : nat) : result Empty_set (nat * bool) :=
  match cut_idx with
  | O => Ok (0, mixed)
  | S before =>
      if first_turn <? cut_idx then
        item ← or_panic (snapshot !! before);
        match pre_turn_context item with
        | Some bundle => trim_pre_turn_context_updates snapshot first_turn (mixed || bundle) before
        | None => Ok (cut_idx, mixed)
        end
      else Ok (cut_idx, mixed)
  end.

Definition drop_last_n_user_turns (num_turns : nat) (m : ContextManager)
    : result Empty_set ContextManager :=
  if num_turns =? 0 then Ok m
  else
    let snapshot := items m in
    let user_positions := user_message_positions snapshot in
    match user_positions with
    | [] => Ok (replace snapshot m)
    | first_turn :: _ =>
        cut_idx ← if length user_positions <=? num_turns then Ok first_turn
                  else or_panic (user_positions !! (length user_positions - num_turns));
        '(cut_idx, mixed) ← trim_pre_turn_context_updates snapshot first_turn false cut_idx;
        kept ← or_panic (slice 0 cut_idx snapshot);
        Ok (replace kept (if (mixed : bool) then set_reference_context_item None m else m))
    end.

(** ** Usage *)

Definition has_encrypted_reasoning (item : ResponseItem) : bool :=
  match item with Reasoning _ _ _ (Some _) _ => true | _ => false end.

Definition get_non_last_reasoning_items_tokens (m : ContextManager) : Z :=
  match rposition is_user_turn_boundary (items m) with
  | None => 0%Z
  | Some last_user_index =>
      sum_saturating (map estimate_item_token_count
        (List.filter has_encrypted_reasoning (take last_user_index (items m))))
  end.

Definition items_after_last_model_generated_item (m : ContextManager) : list ResponseItem :=
  match rposition is_model_generated_item (items m) with
  | Some index => drop (index + 1) (items m)
  | None => []
  end.

Definition last_total_tokens (m : ContextManager) : Z :=
  match token_info m with Some info => total_tokens (last_token_usage info) | None => 0%Z end.

Definition get_total_token_usage (server_reasoning_included : bool) (m : ContextManager) : Z :=
  let last_tokens := last_total_tokens m in
  let after := sum_saturating (map estimate_item_token_count (items_after_last_model_generated_item m)) in
  if server_reasoning_included then saturating_add last_tokens after
  else saturating_add (saturating_add last_tokens (get_non_last_reasoning_items_tokens m)) after.

Record TotalTokenUsageBreakdown := {
  last_api_response_total_tokens : Z;
  all_history_items_model_visible_bytes : Z;
  estimated_tokens_of_items_added_since_last_successful_api_response : Z;
  estimated_bytes_of_items_added_since_last_successful_api_response : Z;
}.

Definition get_total_token_usage_breakdown (m : ContextManager) : TotalTokenUsageBreakdown :=
  let after := items_after_last_model_generated_item m in {|
    last_api_response_total_tokens := last_total_tokens m;
    all_history_items_model_visible_bytes :=
      sum_saturating (map estimate_response_item_model_visible_bytes (items m));
    estimated_tokens_of_items_added_since_last_successful_api_response :=
      sum_saturating (map estimate_item_token_count after);
    estimated_bytes_of_items_added_since_last_successful_api_response :=
      sum_saturating (map estimate_response_item_model_visible_bytes after);
  |}.

End Manager.
End History.

(** * Facts about the history *)

Module HistoryFacts.
Import History HistoryNormalizeFacts.

(** ** Positions *)

Definition positions (p : ResponseItem -> bool) (l : list ResponseItem) : list nat :=
  omap (fun '(i, item) => if p item then Some i else None) (imap pair l).

Lemma positions_snoc p l x :
  positions p (l ++ [x]) = positions p l ++ (if p x then [length l] else []).
Proof. unfold positions. rewrite imap_app, omap_app. simpl. rewrite Nat.add_0_r. by destruct (p x). Qed.

Lemma positions_length p l : length (positions p l) = length (List.filter p l).
Proof.
  induction l as [|x l IH] using rev_ind; [done|].
  rewrite positions_snoc, List.filter_app, !length_app, IH. simpl. by destruct (p x).
Qed.

Lemma positions_lookup p l k i :
  positions p l !! k = Some i ->
  exists pre x post, l = pre ++ x :: post /\ length pre = i /\ p x = true
    /\ length (List.filter p pre) = k.
Proof.
  induction l as [|x l IH] using rev_ind; [done|]. rewrite positions_snoc.
  intros [H|[Hk H]]%lookup_app_Some.
  - destruct (IH H) as (pre & y & post & -> & Hlen & Hy & Hc).
    exists pre, y, (post ++ [x]). split; [by rewrite <- app_assoc|done].
  - destruct (p x) eqn:Hx; [|done]. apply list_lookup_singleton_Some in H as [H <-].
    exists l, x, []. rewrite positions_length in *. split_and!; try done. lia.
Qed.

Lemma rposition_Some p l i :
  rposition p l = Some i ->
  exists pre x post, l = pre ++ x :: post /\ length pre = i /\ p x = true
    /\ List.filter p post = [].
Proof.
  change (rposition p l) with (last (positions p l)).
  induction l as [|x l IH] using rev_ind; [done|]. rewrite positions_snoc. destruct (p x) eqn:Hx.
  - rewrite last_snoc. intros [= <-]. by exists l, x, [].
  - rewrite app_nil_r. intros H. destruct (IH H) as (pre & y & post & -> & Hlen & Hy & Hn).
    exists pre, y, (post ++ [x]). rewrite <- app_assoc, List.filter_app, Hn. simpl. by rewrite Hx.
Qed.

(** ** Rolling back *)

Lemma slice_prefix {A} (l1 l2 : list A) : slice 0 (length l1) (l1 ++ l2) = Some l1.
Proof.
  rewrite slice_in_range, Nat.sub_0_r, drop_0 by (lia || rewrite length_app; lia).
  by rewrite take_app_length.
Qed.

Section Rollback.
Context (parse_communication : str -> option bool) (parse_hook_xml : str -> option (str * str)).
Context {C : Type}.

Abbreviation is_turn := (is_user_turn_boundary parse_communication parse_hook_xml).
Abbreviation injected := (pre_turn_context parse_hook_xml).
Abbreviation trim_back := (trim_pre_turn_context_updates parse_hook_xml).

Definition turns (l : list ResponseItem) : nat := length (List.filter is_turn l).

(** A bundle of the developer's role that holds other text as well. *)
Definition is_mixed (i : ResponseItem) : bool := default false (injected i).

Lemma turn_not_injected x : is_turn x = true -> injected x = None.
Proof.
  destruct x as [id role content phase| | | | | | | | | | | |]; simpl; try done.
  rewrite orb_true_iff, !andb_true_iff, negb_true_iff, !str_eqb_eq.
  intros [[-> Hc]|[-> _]]; simpl; [by rewrite Hc|done].
Qed.

Lemma injected_not_turn x : injected x <> None -> is_turn x = false.
Proof. intros H. apply not_true_iff_false. intros Hx%turn_not_injected. done. Qed.

Lemma trim_spec (first_part mid rest : list ResponseItem) (x : ResponseItem) (mixed : bool) :
  is_turn x = true ->
  exists kept trimmed, first_part ++ x :: mid = kept ++ trimmed
    /\ length first_part < length kept
    /\ Forall (fun i => injected i <> None) trimmed
    /\ (forall i, last kept = Some i -> injected i = None)
    /\ trim_back (first_part ++ x :: mid ++ rest) (length first_part) mixed
         (length (first_part ++ x :: mid))
       = Ok (length kept, mixed || existsb is_mixed trimmed).
Proof.
  intros Hx. revert rest mixed. induction mid as [|y mid IH] using rev_ind; intros rest mixed.
  - exists (first_part ++ [x]), []. rewrite app_nil_r, length_app, Nat.add_1_r.
    split_and!; [done|lia|constructor| |].
    { intros i. rewrite last_snoc. intros [= <-]. by apply turn_not_injected. }
    cbn [trim_pre_turn_context_updates].
    rewrite (proj2 (Nat.ltb_lt _ _)), list_lookup_middle by (done || lia).
    cbn [or_panic mbind result_bind]. by rewrite turn_not_injected, orb_false_r.
  - replace (first_part ++ x :: (mid ++ [y]) ++ rest) with ((first_part ++ x :: mid) ++ y :: rest)
      by (by rewrite <- !app_assoc).
    replace (first_part ++ x :: mid ++ [y]) with ((first_part ++ x :: mid) ++ [y])
      by (by rewrite <- !app_assoc).
    rewrite (length_app (_ ++ _)), Nat.add_1_r. cbn [trim_pre_turn_context_updates].
    rewrite (proj2 (Nat.ltb_lt _ _)), list_lookup_middle by (done || rewrite length_app; simpl; lia).
    cbn [or_panic mbind result_bind]. destruct (injected y) as [bundle|] eqn:Hy.
    + destruct (IH (y :: rest) (mixed || bundle)) as (kept & trimmed & He & Hl & Hf & Hk & Ht).
      exists kept, (trimmed ++ [y]). split_and!; [by rewrite He, app_assoc|done| |done|].
      * apply Forall_app_2; [done|]. constructor; [by rewrite Hy|constructor].
      * rewrite existsb_app. unfold is_mixed at 2. simpl. rewrite Hy. simpl.
        rewrite <- app_assoc. cbn [app]. rewrite Ht.
        by destruct mixed, bundle, (existsb is_mixed trimmed).
    + exists ((first_part ++ x :: mid) ++ [y]), []. rewrite app_nil_r, (length_app (_ ++ _)), Nat.add_1_r.
      split_and!; [done|rewrite length_app; simpl; lia|constructor| |by rewrite orb_false_r].
      intros i. rewrite last_snoc. by intros [= <-].
Qed.

(** What a rollback of [n] turns keeps, trims before the first dropped turn, and drops. *)
Definition rolled_back (n : nat) (l kept trimmed dropped : list ResponseItem) : Prop :=
  l = kept ++ trimmed ++ dropped
  /\ turns kept = turns l - n
  /\ match dropped with [] => turns l = 0 | x :: _ => is_turn x = true end
  /\ Forall (fun i => injected i <> None) trimmed
  /\ (turns l <= n -> trimmed = [])
  /\ (n < turns l -> forall i, last kept = Some i -> injected i = None).

Abbreviation drop_turns := (drop_last_n_user_turns (C := C) parse_communication parse_hook_xml).

Lemma turns_app a b : turns (a ++ b) = turns a + turns b.
Proof. unfold turns. by rewrite List.filter_app, length_app. Qed.

Lemma turns_injected l : Forall (fun i => injected i <> None) l -> turns l = 0.
Proof.
  unfold turns. induction 1 as [|x l Hx _ IH]; [done|]. simpl. by rewrite injected_not_turn.
Qed.

Lemma turns_positions l : length (user_message_positions parse_communication parse_hook_xml l) = turns l.
Proof. apply positions_length. Qed.

Lemma drop_turns_spec (n : nat) (m : ContextManager (C := C)) :
  0 < n ->
  exists kept trimmed dropped, rolled_back n (items m) kept trimmed dropped
    /\ drop_turns n m
       = Ok (replace kept (if existsb is_mixed trimmed then set_reference_context_item None m else m)).
Proof.
  intros Hn. unfold drop_last_n_user_turns, rolled_back. set (l := items m).
  rewrite (proj2 (Nat.eqb_neq _ _)) by lia.
  destruct (user_message_positions _ _ l) as [|first_turn more] eqn:Hp.
  { exists l, [], []. pose proof (turns_positions l) as Ht. rewrite Hp in Ht. simpl in Ht.
    rewrite app_nil_r. split; [|done]. split_and!; try done; lia. }
  assert (Hfirst : positions is_turn l !! 0 = Some first_turn).
  { change (positions is_turn l) with (user_message_positions parse_communication parse_hook_xml l).
    by rewrite Hp. }
  apply positions_lookup in Hfirst as (first_part & x & post & Hl & Hlen & Hx & Hc).
  fold turns in Hc. rewrite <- Hp, turns_positions.
  destruct (turns l <=? n) eqn:Hle; bool_to_prop.
  - (* all the turns *)
    exists first_part, [], (x :: post). cbn [mbind result_bind]. rewrite <- Hlen.
    assert (Ht : trim_back l (length first_part) false (length first_part) = Ok (length first_part, false)).
    { unfold trim_pre_turn_context_updates. destruct (length first_part) eqn:?; [done|].
      by rewrite Nat.ltb_irrefl. }
    rewrite Ht. cbn [mbind result_bind].
    assert (slice 0 (length first_part) l = Some first_part) as -> by (rewrite Hl; apply slice_prefix).
    split; [|done].
    split_and!; [done| |done|constructor|done|lia].
    unfold turns at 1. rewrite Hc. lia.
  - (* the last [n] turns *)
    destruct (lookup_lt_is_Some_2 (positions is_turn l) (turns l - n)) as [cut Hcut].
    { rewrite positions_length. fold (turns l). lia. }
    change (user_message_positions parse_communication parse_hook_xml l) with (positions is_turn l).
    rewrite Hcut. cbn [or_panic mbind result_bind].
    apply positions_lookup in Hcut as (before & y & after & Hl' & <- & Hy & Hcy).
    fold (turns before) in Hcy.
    assert (exists mid, before = first_part ++ x :: mid) as [mid ->].
    { rewrite Hl' in Hl. apply app_eq_inv in Hl as [([|x' mid] & -> & Hk)|(k & -> & _)].
      - rewrite app_nil_r in Hcy. unfold turns in *. lia.
      - simplify_eq/=. by exists mid.
      - rewrite List.filter_app, length_app in Hc. unfold turns in *. lia. }
    destruct (trim_spec first_part mid (y :: after) x false Hx)
      as (kept & trimmed & He & Hk & Hf & Hlast & Ht).
    replace (first_part ++ x :: mid ++ y :: after) with l in Ht by (rewrite Hl', <- app_assoc; done).
    rewrite <- Hlen, Ht. cbn [mbind result_bind orb].
    exists kept, trimmed, (y :: after).
    assert (Hl'' : l = kept ++ trimmed ++ y :: after) by (rewrite Hl', He, <- app_assoc; done).
    assert (slice 0 (length kept) l = Some kept) as -> by (rewrite Hl''; apply slice_prefix).
    split; [|done].
    split_and!; [done| |done|done|lia|done].
    rewrite <- Hcy, He, turns_app, (turns_injected trimmed) by done. lia.
Qed.

Lemma rolled_back_unique n l k t d k' t' d' :
  rolled_back n l k t d -> rolled_back n l k' t' d' -> k = k'.
Proof.
  assert (Hgen : forall k t d k' t' d' z, rolled_back n l k t d -> rolled_back n l k' t' d' ->
            k ++ t = (k' ++ t') ++ z -> d' = z ++ d -> z = []).
  { clear. intros k t d k' t' d' [|x z] (Hl & Hc & Hd & Ht & _) (Hl' & Hc' & Hd' & Ht' & _) Hz ->; [done|].
    exfalso. simpl in Hd'.
    assert (turns (k ++ t) = turns ((k' ++ t') ++ x :: z)) as He by (by rewrite Hz).
    rewrite !turns_app, (turns_injected t), (turns_injected t'), Hc, Hc' in He by done.
    unfold turns in He. simpl in He. rewrite Hd' in He. simpl in He. lia. }
  intros H H'. assert (Heq : (k ++ t) ++ d = (k' ++ t') ++ d').
  { destruct H as [Hl _], H' as [Hl' _]. by rewrite <- !app_assoc, <- Hl, <- Hl'. }
  assert (Hkt : k ++ t = k' ++ t').
  { apply app_eq_inv in Heq as [(z & Hz & Hd)|(z & Hz & Hd)].
    - by rewrite (Hgen k t d k' t' d' z), app_nil_r in Hz.
    - by rewrite (Hgen k' t' d' k t d z), app_nil_r in Hz. }
  assert (Hlast : forall k t d k' t' z, rolled_back n l k t d -> Forall (fun i => injected i <> None) t' ->
            n < turns l -> k = k' ++ z -> t' = z ++ t -> k = k').
  { clear. intros k t d k' t' z (_ & _ & _ & _ & _ & Hl) Hf Hn -> ->.
    destruct z as [|x z _] using rev_ind; [by rewrite app_nil_r|]. exfalso.
    specialize (Hl Hn x). rewrite app_assoc, last_snoc in Hl.
    apply Forall_app in Hf as [Hf _]. apply Forall_app in Hf as [_ Hf].
    inversion Hf; subst. naive_solver. }
  pose proof H as (_ & _ & _ & Ht & Hall & _). pose proof H' as (_ & _ & _ & Ht' & Hall' & _).
  destruct (decide (turns l <= n)) as [Hn|Hn].
  - by rewrite Hall, Hall', !app_nil_r in Hkt.
  - apply app_eq_inv in Hkt as [(z & Hz & Hd)|(z & Hz & Hd)].
    + apply (Hlast k t d k' t' z); (done || lia).
    + symmetry. apply (Hlast k' t' d' k t z); (done || lia).
Qed.

Lemma rolled_back_compose a b l k1 t1 d1 k2 t2 d2 :
  rolled_back a l k1 t1 d1 -> rolled_back b k1 k2 t2 d2 ->
  exists t d, rolled_back (a + b) l k2 t d.
Proof.
  intros (Hl & Hc & Hd & Ht & Hall & Hlast) (Hl2 & Hc2 & Hd2 & Ht2 & Hall2 & Hlast2).
  destruct d2 as [|x d2].
  - assert (turns l <= a) by lia. rewrite (Hall2 ltac:(lia)) in Hl2. rewrite !app_nil_r in Hl2. subst k2.
    exists t1, d1. split_and!; try done; [lia|intros; apply Hall; lia|lia].
  - exists t2, ((x :: d2) ++ t1 ++ d1). split_and!; try done.
    + by rewrite Hl, Hl2, <- !app_assoc.
    + lia.
    + intros. apply Hall2. lia.
    + intros. apply Hlast2; [lia|done].
Qed.

End Rollback.

(** ** Removing an item with its counterpart *)

(** What ties a call to its output: the identifier, and the kind of call it is for. *)
Inductive link := FunctionLink (id : str) | SearchLink (id : str) | CustomLink (id : str).

#[export] Instance link_eq_dec : EqDecision link.
Proof. solve_decision. Defined.

Definition call_link (i : ResponseItem) : option link :=
  match i with
  | FunctionCall _ _ _ _ id => Some (FunctionLink id)
  | LocalShellCall _ id _ _ => FunctionLink <$> id
  | ToolSearchCall _ id _ _ _ => SearchLink <$> id
  | CustomToolCall _ _ id _ _ => Some (CustomLink id)
  | _ => None
  end.

Definition output_link (i : ResponseItem) : option link :=
  match i with
  | FunctionCallOutput id _ => Some (FunctionLink id)
  | ToolSearchOutput id _ _ _ => SearchLink <$> id
  | CustomToolCallOutput id _ _ => Some (CustomLink id)
  | _ => None
  end.

Lemma answers_links c o : answers c o <-> exists k, call_link c = Some k /\ output_link o = Some k.
Proof.
  split; [by destruct 1; eexists|]. intros (k & Hc & Ho).
  destruct c as [| |? [id|]| |? [id|]| | | | | | | |]; simplify_eq/=;
    destruct o as [| | | | | | | |[id'|]| | | |]; simplify_eq/=; constructor.
Qed.

Lemma one_side i k k' : call_link i = Some k -> output_link i = Some k' -> False.
Proof. by destruct i. Qed.

(** No two calls and no two outputs have the same identifier. *)
Definition one_to_one (l : list ResponseItem) : Prop :=
  NoDup (omap call_link l) /\ NoDup (omap output_link l).

#[export] Instance one_to_one_proper : Proper ((≡ₚ) ==> iff) one_to_one.
Proof. intros l l' H. unfold one_to_one. by rewrite H. Qed.

#[export] Instance well_paired_proper : Proper ((≡ₚ) ==> iff) well_paired.
Proof. intros l l' H. unfold well_paired, answered, called. by setoid_rewrite H. Qed.

Lemma omap_dup {K} (f : ResponseItem -> option K) x y l k :
  NoDup (omap f (x :: l)) -> f x = Some k -> y ∈ l -> f y = Some k -> False.
Proof.
  rewrite omap_cons. intros H Hx Hy Hk. rewrite Hx in H. apply NoDup_cons in H as [H _].
  apply H, list_elem_of_omap. by exists y.
Qed.

Lemma remove_first_matching_cases p l :
  (remove_first_matching p l = l /\ forall y, y ∈ l -> p y = false)
  \/ exists y, p y = true /\ l ≡ₚ y :: remove_first_matching p l.
Proof.
  induction l as [|x l IH]; simpl.
  { left. split; [done|]. by intros y ?%not_elem_of_nil. }
  destruct (p x) eqn:Hx; [right; by exists x|].
  destruct IH as [[-> IH]|(y & Hy & IH)].
  - left. split; [done|]. intros y [->|Hy]%elem_of_cons; auto.
  - right. exists y. split; [done|]. rewrite IH at 1. apply Permutation_swap.
Qed.

(** Whether [y] has the other side of the link of [x]. *)
Definition linked (x y : ResponseItem) : Prop := answers x y \/ answers y x.

Lemma link_tests id :
  (forall y, is_function_output id y = true <-> output_link y = Some (FunctionLink id))
  /\ (forall y, is_search_output id y = true <-> output_link y = Some (SearchLink id))
  /\ (forall y, is_custom_output id y = true <-> output_link y = Some (CustomLink id))
  /\ (forall y, is_search_call id y = true <-> call_link y = Some (SearchLink id))
  /\ (forall y, is_custom_call id y = true <-> call_link y = Some (CustomLink id))
  /\ (forall y, is_function_call id y || is_shell_call id y = true
                <-> call_link y = Some (FunctionLink id)).
Proof.
  split_and!; intros y;
    destruct y as [| |? [?|]| |? [?|]| | | |[?|]| | | |]; simpl;
    try rewrite orb_false_r; try rewrite str_eqb_eq; naive_solver.
Qed.

Definition counterpart_gone (l : list ResponseItem) (x : ResponseItem) (rest : list ResponseItem) : Prop :=
  (rest = l /\ forall y, y ∈ l -> ~ linked x y) \/ exists y, linked x y /\ l ≡ₚ y :: rest.

Lemma remove_first_counterpart p l x :
  (forall y, p y = true <-> linked x y) -> counterpart_gone l x (remove_first_matching p l).
Proof.
  intros Hp. destruct (remove_first_matching_cases p l) as [[H Hn]|(y & Hy & H)].
  - left. split; [done|]. intros y Hy ?%Hp. by rewrite Hn in *.
  - right. exists y. by rewrite <- Hp.
Qed.

Lemma linked_links x y :
  linked x y <-> (exists k, call_link x = Some k /\ output_link y = Some k)
                 \/ (exists k, call_link y = Some k /\ output_link x = Some k).
Proof. unfold linked. by rewrite !answers_links. Qed.

Lemma call_linked x y k : call_link x = Some k -> linked x y <-> output_link y = Some k.
Proof.
  intros Hx. rewrite linked_links, Hx. split; [|eauto].
  intros [(j & ? & ?)|(j & _ & Ho)]; [congruence|by destruct (one_side x k j)].
Qed.

Lemma output_linked x y k : output_link x = Some k -> linked x y <-> call_link y = Some k.
Proof.
  intros Hx. rewrite linked_links, Hx. split; [|eauto].
  intros [(j & Hc & _)|(j & ? & ?)]; [by destruct (one_side x j k)|congruence].
Qed.

Lemma remove_corresponding_gone l x : counterpart_gone l x (remove_corresponding_for l x).
Proof.
  assert (Hnone : call_link x = None -> output_link x = None -> counterpart_gone l x l).
  { intros Hc Ho. left. split; [done|]. intros y _ [(? & ? & _)|(? & _ & ?)]%linked_links; congruence. }
  destruct x as [| |? [id|]| |? [id|]|id out| | |[id|]| | | |]; try (by apply Hnone);
    try (simpl; match goal with |- context [remove_first_matching (_ ?i) _] =>
                  destruct (link_tests i) as (?&?&?&?&?&?) end;
         apply remove_first_counterpart; intros y; symmetry;
         first [erewrite call_linked by done | erewrite output_linked by done]; symmetry;
         match goal with H : forall y, _ |- _ => exact (H y) end).
  (* the output of a function: a function's call first, then a shell's *)
  assert (Hl : forall y, is_function_call id y || is_shell_call id y = true <-> linked (FunctionCallOutput id out) y).
  { intros y. erewrite output_linked by done. apply link_tests. }
  simpl. destruct (existsb (is_function_call id) l) eqn:He;
    (destruct (remove_first_matching_cases (is_function_call id) l) as [[H Hn]|(y & Hy & H)];
     [|try by right; exists y; rewrite <- Hl, Hy]).
  - exfalso. apply existsb_exists in He as (y & Hy%list_elem_of_In & Hf). by rewrite Hn in Hf.
  - destruct (remove_first_matching_cases (is_shell_call id) l) as [[Hs Hns]|(z & Hz & Hs)].
    + left. split; [done|]. intros y Hy Hb%Hl. by rewrite Hn, Hns in Hb.
    + right. exists z. rewrite <- Hl, Hz, orb_true_r. done.
  - exfalso. apply not_true_iff_false in He. apply He, existsb_exists.
    exists y. rewrite <- list_elem_of_In, H. split; [by left|done].
Qed.

Lemma remove_pair l x rest rest' :
  l ≡ₚ x :: rest -> counterpart_gone rest x rest' -> one_to_one l -> well_paired l ->
  well_paired rest' /\ one_to_one rest'.
Proof.
  intros Hl Hg H1 Hw. rewrite Hl in H1, Hw. clear l Hl.
  assert (Hone : one_to_one rest').
  { assert (Hd : forall a l, one_to_one (a :: l) -> one_to_one l).
    { intros a l [Hc Ho]. unfold one_to_one. rewrite !omap_cons in *.
      destruct (call_link a), (output_link a); rewrite ?NoDup_cons in *; tauto. }
    apply Hd in H1. destruct Hg as [[-> _]|(y & _ & Hy)]; [done|]. rewrite Hy in H1. by eapply Hd. }
  split; [|done]. destruct H1 as [Hcalls Houts], Hw as [Hwc Hwo].
  assert (Hsub : forall i, i ∈ rest' -> i ∈ rest).
  { intros i Hi. destruct Hg as [[-> _]|(y & _ & Hy)]; [done|]. rewrite Hy. by right. }
  assert (Hsplit : forall i, i ∈ x :: rest -> linked x i \/ i = x \/ i ∈ rest').
  { intros i [->|Hi]%elem_of_cons; [auto|]. destruct Hg as [[-> _]|(y & Hl & Hy)]; [auto|].
    rewrite Hy in Hi. apply elem_of_cons in Hi as [->|Hi]; auto. }
  (* the counterpart of an item that stays is neither [x] nor tied to [x] *)
  assert (Hx : forall i, i ∈ rest' -> ~ linked x i).
  { intros i Hi Hxi. destruct Hg as [[-> Hn]|(y & Hxy & Hy)]; [by apply (Hn i)|].
    assert (Htail : forall (f : ResponseItem -> option link) k, NoDup (omap f (x :: rest)) -> f y = Some k -> f i = Some k -> False).
    { intros f k Hnd Hfy Hfi. rewrite Hy in Hnd. rewrite omap_cons in Hnd.
      apply (omap_dup (K := link) f y i rest' k); [|done..].
      by destruct (f x); [apply NoDup_cons in Hnd as [_ Hnd]|]. }
    apply linked_links in Hxy, Hxi.
    destruct Hxy as [(k & Hk & Hk')|(k & Hk & Hk')], Hxi as [(j & Hj & Hj')|(j & Hj & Hj')].
    - apply (Htail output_link k); congruence.
    - by eapply (one_side x).
    - by eapply (one_side x).
    - apply (Htail call_link k); congruence. }
  assert (Hstay : forall i j, i ∈ rest' -> j ∈ x :: rest -> linked i j -> j ∈ rest').
  { intros i j Hi Hj Hij. destruct (Hsplit j Hj) as [Hxj|[->|?]]; [| |done]; exfalso.
    - apply linked_links in Hxj, Hij.
      destruct Hxj as [(k & Hk & Hk')|(k & Hk & Hk')], Hij as [(a & Ha & Ha')|(a & Ha & Ha')].
      + apply (omap_dup call_link x i rest k); [done|done|by apply Hsub|congruence].
      + by eapply (one_side j).
      + by eapply (one_side j).
      + apply (omap_dup output_link x i rest k); [done|done|by apply Hsub|congruence].
    - apply (Hx i Hi). unfold linked in *. tauto. }
  split; intros i Hi Hn.
  - destruct (Hwc i) as (o & Ho & Ha); [right; auto|done|].
    exists o. split; [|done]. apply (Hstay i); [done|done|by left].
  - destruct (Hwo i) as (c & Hc & Ha); [right; auto|done|].
    exists c. split; [|done]. apply (Hstay i); [done|done|by right].
Qed.

(** ** Recording *)

(** The same side of the same pair, and the same item unless it is an output. *)
Definition same_side (a b : ResponseItem) : Prop :=
  call_link a = call_link b /\ output_link a = output_link b
  /\ needs_output a = needs_output b /\ needs_call a = needs_call b
  /\ (needs_call a = false -> a = b).

Lemma process_same_side debug item policy out :
  process_item debug item policy = Ok out -> same_side item out.
Proof.
  unfold process_item. destruct item; try (intros [= <-]; done);
    (destruct (truncate_function_output_payload _ _ _); [|done..]; intros [= <-]; done).
Qed.

Lemma collect_Forall2 {E A B} (f : A -> result E B) (P : A -> B -> Prop) (l : list A) (out : list B) :
  (forall a b, f a = Ok b -> P a b) -> collect f l = Ok out -> Forall2 P l out.
Proof.
  intros Hf. revert out. induction l as [|a l IH]; intros out; simpl; [by intros [= <-]|].
  intros (b & Hb & (bs & Hbs & [= <-])%bind_Ok)%bind_Ok. constructor; auto.
Qed.

Lemma well_paired_same_side l l' : Forall2 same_side l l' -> well_paired l -> well_paired l'.
Proof.
  intros H [Hc Ho]. split; intros i' Hi' Hn;
    apply list_elem_of_lookup in Hi' as [k Hk];
    destruct (Forall2_lookup_r _ _ _ _ _ H Hk) as (i & Hi & Hs);
    pose proof Hs as (Hcl & Hol & Hno & Hnc & _); apply list_elem_of_lookup_2 in Hi.
  - destruct (Hc i Hi ltac:(congruence)) as (o & Hoin & Ha).
    apply list_elem_of_lookup in Hoin as [j Hj].
    destruct (Forall2_lookup_l _ _ _ _ _ H Hj) as (o' & Ho' & Hs').
    exists o'. split; [by eapply list_elem_of_lookup_2|].
    apply answers_links in Ha as (x & ? & ?). apply answers_links. exists x.
    destruct Hs' as (? & ? & _). split; congruence.
  - destruct (Ho i Hi ltac:(congruence)) as (c & Hcin & Ha).
    apply list_elem_of_lookup in Hcin as [j Hj].
    destruct (Forall2_lookup_l _ _ _ _ _ H Hj) as (c' & Hc' & Hs').
    exists c'. split; [by eapply list_elem_of_lookup_2|].
    apply answers_links in Ha as (x & ? & ?). apply answers_links. exists x.
    destruct Hs' as (? & ? & _). split; congruence.
Qed.

(** ** Estimates *)

Lemma fold_saturating l a :
  (0 <= a <= I64_MAX)%Z -> Forall (fun x => 0 <= x)%Z l ->
  fold_left saturating_add l a = Z.min I64_MAX (a + foldr Z.add 0 l)%Z.
Proof.
  intros Ha Hl. revert a Ha. induction Hl as [|x l Hx Hl IH]; intros a Ha; simpl; [lia|].
  assert (0 <= foldr Z.add 0 l)%Z by (clear -Hl; induction Hl; simpl; lia).
  unfold saturating_add at 2, i64_clamp. unfold I64_MIN in *. rewrite IH; unfold I64_MAX in *; lia.
Qed.

Lemma item_tokens_nonneg debug json_len image_size item :
  (0 <= estimate_item_token_count debug json_len image_size item)%Z.
Proof. unfold estimate_item_token_count, approx_tokens_from_byte_count_i64. case_match; unfold I64_MAX; lia. Qed.

(** ** Properties *)

Section Properties.
Context (parse_communication : str -> option bool) (parse_hook_xml : str -> option (str * str)).
Context {C : Type}.
Abbreviation drop_turns := (drop_last_n_user_turns (C := C) parse_communication parse_hook_xml).
Abbreviation turns := (turns parse_communication parse_hook_xml).
Abbreviation rolled_back := (rolled_back parse_communication parse_hook_xml).
Abbreviation is_mixed := (is_mixed parse_hook_xml).

(** C25: a rollback never fails. Rolling back no turn changes nothing; otherwise the history
    keeps its beginning and loses, from the end, exactly the turns asked for (all of them
    if there are fewer) and the injected context just before them, never what is before the
    first turn; the settings that the next turn is compared with are forgotten exactly if
    the injected context was mixed with other text; the version goes up. *)
Theorem rollback_turns (n : nat) (m : ContextManager (C := C)) :
  drop_turns 0 m = Ok m
  /\ (0 < n -> exists m' trimmed dropped,
        drop_turns n m = Ok m'
        /\ rolled_back n (items m) (items m') trimmed dropped
        /\ reference_context_item m'
           = (if existsb is_mixed trimmed then None else reference_context_item m)
        /\ token_info m' = token_info m
        /\ history_version m' = next_version (history_version m)).
Proof.
  split; [done|]. intros Hn.
  destruct (drop_turns_spec parse_communication parse_hook_xml n m Hn) as (kept & trimmed & dropped & Hr & Hd).
  rewrite Hd. eexists _, trimmed, dropped. split; [done|].
  by destruct (existsb is_mixed trimmed).
Qed.

(** Rolling back [a] turns and then [b] keeps the same items as rolling back [a + b]. *)
Theorem rollback_compose (a b : nat) (m : ContextManager (C := C)) :
  exists m1 m2 m3, drop_turns a m = Ok m1 /\ drop_turns b m1 = Ok m2 /\ drop_turns (a + b) m = Ok m3
    /\ items m2 = items m3.
Proof.
  destruct a as [|a].
  { destruct b as [|b]; [by exists m, m, m|].
    destruct (drop_turns_spec parse_communication parse_hook_xml (S b) m) as (k & t & d & _ & Hd); [lia|].
    eexists m, _, _. split; [done|]. by rewrite Hd. }
  destruct (drop_turns_spec parse_communication parse_hook_xml (S a) m) as (k1 & t1 & d1 & Hr1 & Hd1); [lia|].
  destruct b as [|b].
  { eexists _, _, _. rewrite Nat.add_0_r, Hd1. done. }
  destruct (drop_turns_spec parse_communication parse_hook_xml (S a + S b) m) as (k3 & t3 & d3 & Hr3 & Hd3); [lia|].
  set (m1 := replace k1 (if existsb is_mixed t1 then set_reference_context_item None m else m)) in *.
  destruct (drop_turns_spec parse_communication parse_hook_xml (S b) m1) as (k2 & t2 & d2 & Hr2 & Hd2); [lia|].
  assert (items m1 = k1) as Hi by done. rewrite Hi in Hr2.
  eexists _, _, _. split; [exact Hd1|]. split; [exact Hd2|]. split; [exact Hd3|]. simpl.
  destruct (rolled_back_compose _ _ _ _ _ _ _ _ _ _ _ Hr1 Hr2) as (t & d & Hr).
  eapply rolled_back_unique; [exact Hr|exact Hr3].
Qed.

(** In a history whose identifiers are used once, dropping the oldest or the newest item
    together with its counterpart leaves every call with its output and every output with
    its call. *)
Theorem removal_keeps_pairs (m : ContextManager (C := C)) :
  well_paired (items m) -> one_to_one (items m) ->
  (well_paired (items (remove_first_item m)) /\ one_to_one (items (remove_first_item m)))
  /\ (well_paired (items (remove_last_item m).1) /\ one_to_one (items (remove_last_item m).1)).
Proof.
  intros Hw H1. split.
  - unfold remove_first_item. destruct (items m) as [|x l] eqn:Hi; [by rewrite Hi|].
    apply (remove_pair (x :: l) x l); [done|apply remove_corresponding_gone|done..].
  - unfold remove_last_item. destruct (items m) as [|x l _] eqn:Hi using rev_ind; [simpl; by rewrite Hi|].
    rewrite last_snoc, removelast_last.
    apply (remove_pair (l ++ [x]) x l); [|apply remove_corresponding_gone|done..].
    by rewrite Permutation_app_comm.
Qed.

(** What is recorded goes to the end of the history in order, without the system's
    messages and unknown items; an output may be cut but stays the output of its call, so
    that pairs are kept, and any other item stays as it is. *)
Theorem record_keeps_pairs (debug : bool) (recorded : list ResponseItem) (policy : TruncationPolicy)
    (m m' : ContextManager (C := C)) :
  record_items debug recorded policy m = Ok m' ->
  (exists added, items m' = items m ++ added
     /\ Forall2 same_side (List.filter is_api_message recorded) added)
  /\ (well_paired (items m ++ List.filter is_api_message recorded) -> well_paired (items m'))
  /\ history_version m' = history_version m
  /\ reference_context_item m' = reference_context_item m.
Proof.
  unfold record_items. intros (added & Ha & [= <-])%bind_Ok.
  apply (collect_Forall2 _ same_side) in Ha; [|intros a b; apply process_same_side].
  split; [by exists added|]. split; [|done]. simpl. apply well_paired_same_side.
  apply Forall2_app; [|done]. apply Forall_Forall2_diag, Forall_forall. done.
Qed.

(** The estimate of the tokens of a history is the sum of the estimates of its parts,
    capped to 63 bits, so that it never wraps around and never falls when items are added. *)
Theorem estimate_is_capped_sum (debug : bool) json_len image_size (base : str) (m : ContextManager (C := C)) :
  let tokens items := foldr Z.add 0%Z (map (estimate_item_token_count debug json_len image_size) items) in
  estimate_token_count_with_base_instructions debug json_len image_size base m
    = Some (Z.min I64_MAX (Z.of_N (approx_token_count base) + tokens (items m)))
  /\ forall m' : ContextManager (C := C), items m `prefix_of` items m' -> (tokens (items m) <= tokens (items m'))%Z.
Proof.
  intros tokens.
  assert (Hpos : forall l, Forall (fun x => 0 <= x)%Z (map (estimate_item_token_count debug json_len image_size) l)).
  { intros l. apply List.Forall_map, Forall_forall. intros x _. apply item_tokens_nonneg. }
  assert (Hnn : forall l, (0 <= tokens l)%Z).
  { intros l. unfold tokens. induction (Hpos l); simpl; lia. }
  split.
  - unfold estimate_token_count_with_base_instructions, sum_saturating. f_equal.
    rewrite fold_saturating by (done || unfold I64_MAX; lia). rewrite Z.add_0_l. fold (tokens (items m)).
    pose proof (Hnn (items m)). unfold saturating_add, i64_clamp, as_i64, I64_MIN.
    unfold I64_MAX in *. lia.
  - intros m' [l Hl]. rewrite Hl.
    assert (tokens (items m ++ l) = tokens (items m) + tokens l)%Z as ->; [|pose proof (Hnn l); lia].
    unfold tokens. rewrite map_app. generalize (map (estimate_item_token_count debug json_len image_size) (items m)).
    intros ns. induction ns as [|n ns IH]; [done|]. simpl. rewrite IH. lia.
Qed.

End Properties.

(** ** The properties at work *)

Definition demo_call : ResponseItem := FunctionCall None (lit "shell") None (lit "{}") (lit "c1").
Definition demo_output : ResponseItem := FunctionCallOutput (lit "c1") (from_text (lit "done")).
Definition demo_user (text : String.string) : ResponseItem :=
  Message None (lit "user") [InputText (lit text)] None.
Definition demo_history (l : list ResponseItem) : ContextManager (C := unit) := with_items l new.

Lemma well_paired_demo (l : list ResponseItem) :
  l = [demo_call; demo_user "hi"; demo_output] \/ l = [demo_user "hi"; demo_call; demo_output] ->
  well_paired l.
Proof.
  intros Hl. assert (Hin : demo_call ∈ l /\ demo_output ∈ l)
    by (destruct Hl as [-> | ->]; rewrite !elem_of_cons; auto).
  split; intros i Hi Hn.
  - exists demo_output. split; [apply Hin|]. destruct Hl as [-> | ->]; rewrite !elem_of_cons in Hi;
      destruct Hi as [-> |[-> |[-> |[]%not_elem_of_nil]]]; (constructor || discriminate Hn).
  - exists demo_call. split; [apply Hin|]. destruct Hl as [-> | ->]; rewrite !elem_of_cons in Hi;
      destruct Hi as [-> |[-> |[-> |[]%not_elem_of_nil]]]; (constructor || discriminate Hn).
Qed.

Lemma removal_keeps_pairs_witness :
  let m := demo_history [demo_call; demo_user "hi"; demo_output] in
  items (remove_first_item m) = [demo_user "hi"] /\ items (remove_last_item m).1 = [demo_user "hi"]
  /\ (well_paired (items (remove_first_item m)) /\ one_to_one (items (remove_first_item m)))
  /\ (well_paired (items (remove_last_item m).1) /\ one_to_one (items (remove_last_item m).1)).
Proof.
  intros m. split; [by vm_compute|]. split; [by vm_compute|].
  apply (removal_keeps_pairs m); [apply well_paired_demo; by left|].
  split; apply (bool_decide_unpack _); by vm_compute.
Defined.

Lemma record_keeps_pairs_witness :
  let m := demo_history [demo_user "hi"] in
  let m' := demo_history [demo_user "hi"; demo_call; demo_output] in
  record_items true [demo_call; Other; demo_output] (Bytes 100) m = Ok m' /\ well_paired (items m').
Proof.
  intros m m'.
  assert (E : record_items true [demo_call; Other; demo_output] (Bytes 100) m = Ok m') by (by vm_compute).
  split; [exact E|]. apply (record_keeps_pairs true [demo_call; Other; demo_output] (Bytes 100) m m' E).
  apply well_paired_demo. by right.
Defined.

(** Two outputs of one call: removing the call removes only the first of them. *)
Example second_output_left :
  items (remove_first_item (demo_history [demo_call; demo_output; demo_output])) = [demo_output].
Proof. by vm_compute. Qed.

(** Two turns, the second with injected context before it. *)
Example rollback_demo :
  let context := demo_user "<environment_context>x</environment_context>" in
  map (fmap (M := result Empty_set) items)
    [drop_last_n_user_turns (fun _ => None) (fun _ => None) 1
       (demo_history [context; demo_user "a"; demo_call; demo_output; context; demo_user "b"]);
     drop_last_n_user_turns (fun _ => None) (fun _ => None) 5
       (demo_history [context; demo_user "a"; demo_call; demo_output; context; demo_user "b"])]
  = [Ok [context; demo_user "a"; demo_call; demo_output]; Ok [context]].
Proof. by vm_compute. Qed.
End HistoryFacts.
