(* ===== verification/ThreadReplay.v ===== *)
(** * Rebuilding a thread: src/core/src/session/rollout_reconstruction.rs

    A thread is stored as a rollout, the list of what happened in it. Resuming, forking and
    rolling back read it again: the items of a turn that a reader sees
    (src/core/src/event_mapping.rs), the history after a compaction
    (src/core/src/compact.rs), the places where a rollout can be cut
    (src/core/src/thread_rollout_truncation.rs) and the history and settings that a rollout
    leads to. *)

From Stdlib Require Import Ascii String.
From S2P Require Import Prelude RustStr ConfigToml Truncation HistoryNormalize History.
Import ResponseItems Truncation HistoryNormalize History.

(** ** event_mapping.rs *)

Module TurnItems.

(** user_input.rs. The ranges of text elements, always none here, are left out. *)
Inductive UserInput :=
| Text (text : str)
| Image (image_url : str)
| LocalImage (path : str)
| Skill (name path : str)
| Mention (name path : str).

(** items.rs. [None] for an identifier is a fresh one. *)
Inductive TurnItem :=
| UserMessage (content : list UserInput)
| HookPrompt (id : option str) (fragments : list (str * str))
| AgentMessage (id : option str) (content : list str) (phase : option MessagePhase)
| ReasoningItem (id : str) (summary_text raw_content : list str)
| WebSearch (id query : str) (action : WebSearchAction)
| ImageGeneration (id status : str) (revised_prompt : option str) (result : str).

(** [UserMessageItem::message] *)
Definition message (content : list UserInput) : str :=
  content ≫= (fun c => match c with Text text => text | _ => [] end).

Definition is_image_open_tag_text (text : str) : bool := str_eqb text (lit "<image>").
Definition is_image_close_tag_text (text : str) : bool := str_eqb text (lit "</image>").
Definition is_local_image_open_tag_text (text : str) : bool :=
  is_some_and (strip_prefix (lit "<image name=") text) (ends_with (lit ">")).
Definition is_local_image_close_tag_text (text : str) : bool := is_image_close_tag_text text.

Definition is_input_image (i : option ContentItem) : bool :=
  match i with Some (InputImage _ _) => true | _ => false end.

(** web_search.rs *)
Definition search_action_detail (query : option str) (queries : option (list str)) : str :=
  match query with
  | Some (c :: q) => c :: q
  | _ =>
      let first := default [] (queries ≫= head) in
      if (match queries with Some queries => 1 <? length queries | None => false end)
         && negb (str_eqb first [])
      then first ++ lit " ..." else first
  end.

Definition web_search_action_detail (action : WebSearchAction) : str :=
  match action with
  | Search query queries => search_action_detail query queries
  | OpenPage url => default [] url
  | FindInPage url pattern =>
      match pattern, url with
      | Some pattern, Some url => lit "'" ++ pattern ++ lit "' in " ++ url
      | Some pattern, None => lit "'" ++ pattern ++ lit "'"
      | None, Some url => url
      | None, None => []
      end
  | OtherAction => []
  end.

Section Parsers.
Context (parse_hook_xml : str -> option (str * str)).

Definition parse_user_message (content : list ContentItem) : option (list UserInput) :=
  if is_contextual_user_message_content parse_hook_xml content then None
  else Some (omap (fun '(idx, content_item) =>
    match content_item with
    | InputText text =>
        if ((is_local_image_open_tag_text text || is_image_open_tag_text text)
            && is_input_image (content !! (idx + 1)))
           || ((0 <? idx) && (is_local_image_close_tag_text text || is_image_close_tag_text text)
               && is_input_image (content !! (idx - 1)))
        then None else Some (Text text)
    | InputImage image_url _ => Some (Image image_url)
    | OutputText _ => None
    end) (imap pair content)).

Fixpoint hook_fragments (content : list ContentItem) : option (list (str * str)) :=
  match content with
  | [] => Some []
  | InputText text :: content =>
      match parse_hook_prompt_fragment parse_hook_xml text with
      | Some fragment => cons fragment <$> hook_fragments content
      | None => if is_standard_contextual_user_text text then hook_fragments content else None
      end
  | _ => None
  end.

Definition parse_visible_hook_prompt_message (id : option str) (content : list ContentItem)
    : option TurnItem :=
  fragments ← hook_fragments content;
  match fragments with [] => None | _ => Some (HookPrompt id fragments) end.

Definition parse_agent_message (id : option str) (content : list ContentItem)
    (phase : option MessagePhase) : TurnItem :=
  AgentMessage id (omap (fun i => match i with
                                  | InputText text | OutputText text => Some text
                                  | InputImage _ _ => None
                                  end) content) phase.

Definition parse_turn_item (item : ResponseItem) : option TurnItem :=
  match item with
  | Message id role content phase =>
      if str_eqb role (lit "user") then
        match parse_visible_hook_prompt_message id content with
        | Some hook => Some hook
        | None => UserMessage <$> parse_user_message content
        end
      else if str_eqb role (lit "assistant") then Some (parse_agent_message id content phase)
      else None
  | Reasoning id summary content _ _ =>
      Some (ReasoningItem id (map (fun '(SummaryText text) => text) summary)
              (map (fun entry => match entry with ReasoningText text | ReasoningPlainText text => text end)
                 (default [] content)))
  | WebSearchCall id _ action =>
      let '(action, query) := match action with
                              | Some action => (action, web_search_action_detail action)
                              | None => (OtherAction, [])
                              end in
      Some (WebSearch (default [] id) query action)
  | ImageGenerationCall id status revised_prompt result =>
      Some (ImageGeneration id status revised_prompt result)
  | _ => None
  end.

Definition user_message_of (item : ResponseItem) : option (list UserInput) :=
  match parse_turn_item item with Some (UserMessage content) => Some content | _ => None end.

End Parsers.
End TurnItems.

(** ** compact.rs *)

Module Compaction.
Import TurnItems.

Definition SUMMARY_PREFIX : str := lit "Another language model started to solve this problem and produced a summary of its thinking process. You also have access to the state of the tools that were used by that language model. Use this to build on the work that has already been done and avoid duplicating work. Here is the summary produced by the other language model, use the information in this summary to assist with your own analysis:".

Definition COMPACT_USER_MESSAGE_MAX_TOKENS : N := 20000.

Definition content_items_to_text (content : list ContentItem) : option str :=
  let pieces := omap (fun item =>
    match item with
    | InputText text | OutputText text => if str_eqb text [] then None else Some text
    | InputImage _ _ => None
    end) content in
  match pieces with [] => None | _ => Some (join [NL] pieces) end.

Definition is_summary_message (text : str) : bool := starts_with (SUMMARY_PREFIX ++ [NL]) text.

Definition user_text (text : str) : ResponseItem :=
  Message None (lit "user") [InputText text] None.

Definition is_compaction (item : ResponseItem) : bool :=
  match item with Compaction _ => true | _ => false end.

Section Compact.
Context (debug : bool) (parse_hook_xml : str -> option (str * str)).

Definition collect_user_messages (items : list ResponseItem) : list str :=
  omap (fun item =>
    content ← user_message_of parse_hook_xml item;
    if is_summary_message (message content) then None else Some (message content)) items.

(** The loop over the items from the last one; [i] is the index of the head of
    [reversed], plus one. *)
Fixpoint find_user_messages (reversed : list ResponseItem) (i : nat)
    (last_user_or_summary : option nat) : option nat * option nat :=
  match reversed, i with
  | item :: reversed, S i =>
      match user_message_of parse_hook_xml item with
      | None => find_user_messages reversed i last_user_or_summary
      | Some content =>
          let found := match last_user_or_summary with Some j => Some j | None => Some i end in
          if is_summary_message (message content)
          then find_user_messages reversed i found
          else (found, Some i)
      end
  | _, _ => (last_user_or_summary, None)
  end.

Definition or_else {A} (a b : option A) : option A := match a with Some x => Some x | None => b end.

Definition insert_initial_context_before_last_real_user_or_summary
    (compacted_history initial_context : list ResponseItem) : list ResponseItem :=
  let '(last_user_or_summary_index, last_real_user_index) :=
    find_user_messages (reverse compacted_history) (length compacted_history) None in
  let last_compaction_index := rposition is_compaction compacted_history in
  match or_else last_real_user_index (or_else last_user_or_summary_index last_compaction_index) with
  | Some insertion_index =>
      take insertion_index compacted_history ++ initial_context ++ drop insertion_index compacted_history
  | None => compacted_history ++ initial_context
  end.

(** From the last message back, within the tokens that remain. *)
Fixpoint select_messages (messages : list str) (remaining : N) : result Empty_set (list str) :=
  match messages with
  | [] => Ok []
  | message :: messages =>
      if (remaining =? 0)%N then Ok []
      else
        let tokens := approx_token_count message in
        if (tokens <=? remaining)%N
        then cons message <$> select_messages messages (remaining - tokens)
        else truncated ← truncate_text debug message (Tokens remaining); Ok [truncated]
  end.

Definition build_compacted_history_with_limit (history : list ResponseItem) (user_messages : list str)
    (summary_text : str) (max_tokens : N) : result Empty_set (list ResponseItem) :=
  selected ← if (0 <? max_tokens)%N then select_messages (reverse user_messages) max_tokens else Ok [];
  let summary_text := match summary_text with [] => lit "(no summary available)" | _ => summary_text end in
  Ok (history ++ map user_text (reverse selected) ++ [user_text summary_text]).

Definition build_compacted_history (initial_context : list ResponseItem) (user_messages : list str)
    (summary_text : str) : result Empty_set (list ResponseItem) :=
  build_compacted_history_with_limit initial_context user_messages summary_text
    COMPACT_USER_MESSAGE_MAX_TOKENS.

End Compact.
End Compaction.

(** ** Rollouts *)

Module ThreadReplay.
Import TurnItems Compaction.

(** protocol.rs. Of the settings of a turn only those that the code reads are named; of
    the events the ones that mark turns. *)
Record TurnContextItem {T : Type} := {
  turn_id : option str;
  model : str;
  realtime_active : option bool;
  other_settings : T;
}.
Arguments TurnContextItem : clear implicits.

Record CompactedItem := {
  summary : str;
  replacement_history : option (list ResponseItem);
}.

Inductive EventMsg :=
| TurnStarted (turn_id : str)
| TurnComplete (turn_id : str)
| TurnAborted (turn_id : option str)
| UserMessageEvent
| ThreadRolledBack (num_turns : N)
| OtherEvent.

Section Rollouts.
Context {T : Type} (debug : bool).
Context (parse_communication : str -> option bool) (parse_hook_xml : str -> option (str * str)).

Inductive RolloutItem :=
| SessionMeta
| Item (item : ResponseItem)
| Compacted (compacted : CompactedItem)
| TurnContext (ctx : TurnContextItem T)
| Event (event : EventMsg).

Abbreviation is_turn := (is_user_turn_boundary parse_communication parse_hook_xml).

(** *** thread_rollout_truncation.rs *)

Definition is_real_user_message_boundary (item : ResponseItem) : bool :=
  match user_message_of parse_hook_xml item with Some _ => true | None => false end.

Definition is_trigger_turn_boundary (item : ResponseItem) : bool :=
  match item with
  | Message _ role content _ =>
      str_eqb role (lit "assistant") && default false (communication_of parse_communication content)
  | _ => false
  end.

Definition rollout_item_is_user_turn_boundary (item : RolloutItem) : bool :=
  match item with Item item => is_turn item | _ => false end.

Definition user_position_step (positions : list nat) (indexed : nat * RolloutItem) : list nat :=
  let '(idx, item) := indexed in
  match item with
  | Item item => if is_real_user_message_boundary item then positions ++ [idx] else positions
  | Event (ThreadRolledBack num_turns) => take (length positions - N.to_nat num_turns) positions
  | _ => positions
  end.

Definition user_message_positions_in_rollout (items : list RolloutItem) : list nat :=
  fold_left user_position_step (imap pair items) [].

Definition fork_position_step (st : list nat * list nat) (indexed : nat * RolloutItem)
    : list nat * list nat :=
  let '(rollback_turn_positions, fork_turn_positions) := st in
  let '(idx, item) := indexed in
  match item with
  | Item item =>
      (if is_turn item then rollback_turn_positions ++ [idx] else rollback_turn_positions,
       if is_real_user_message_boundary item || is_trigger_turn_boundary item
       then fork_turn_positions ++ [idx] else fork_turn_positions)
  | Event (ThreadRolledBack num_turns) =>
      let n := N.to_nat num_turns in
      if n =? 0 then st
      else
        match (if n <=? length rollback_turn_positions
               then rollback_turn_positions !! (length rollback_turn_positions - n)
               else head rollback_turn_positions) with
        | None => st
        | Some rollback_start_idx =>
            (take (length rollback_turn_positions - n) rollback_turn_positions,
             List.filter (fun position => position <? rollback_start_idx) fork_turn_positions)
        end
  | _ => st
  end.

Definition fork_turn_positions_in_rollout (items : list RolloutItem) : list nat :=
  (fold_left fork_position_step (imap pair items) ([], [])).2.

Definition truncate_rollout_before_nth_user_message_from_start (items : list RolloutItem)
    (n_from_start : N) : result Empty_set (list RolloutItem) :=
  if (n_from_start =? USIZE_MAX)%N then Ok items
  else
    let user_positions := user_message_positions_in_rollout items in
    if (N.of_nat (length user_positions) <=? n_from_start)%N then Ok items
    else
      cut_idx ← or_panic (user_positions !! N.to_nat n_from_start);
      or_panic (slice 0 cut_idx items).

Definition truncate_rollout_to_last_n_fork_turns (items : list RolloutItem) (n_from_end : nat)
    : result Empty_set (list RolloutItem) :=
  if n_from_end =? 0 then Ok []
  else
    let fork_turn_positions := fork_turn_positions_in_rollout items in
    if length fork_turn_positions <=? n_from_end then Ok items
    else
      keep_idx ← or_panic (fork_turn_positions !! (length fork_turn_positions - n_from_end));
      or_panic (slice_from keep_idx items).

(** *** session/rollout_reconstruction.rs *)

Record PreviousTurnSettings := {
  settings_model : str;
  settings_realtime_active : option bool;
  provider_id : str;
  context_window : option Z;
}.

Inductive TurnReferenceContextItem :=
| NeverSet
| Cleared
| Latest (ctx : TurnContextItem T).

Definition is_never_set (r : TurnReferenceContextItem) : bool :=
  match r with NeverSet => true | _ => false end.

Record ActiveReplaySegment := {
  segment_turn_id : option str;
  counts_as_user_turn : bool;
  segment_settings : option PreviousTurnSettings;
  segment_reference : TurnReferenceContextItem;
  segment_base : option (list ResponseItem);
}.

Definition empty_segment : ActiveReplaySegment := {|
  segment_turn_id := None; counts_as_user_turn := false; segment_settings := None;
  segment_reference := NeverSet; segment_base := None
|}.

Definition turn_ids_are_compatible (active_turn_id item_turn_id : option str) : bool :=
  match active_turn_id, item_turn_id with
  | Some turn_id, Some item_turn_id => str_eqb item_turn_id turn_id
  | _, _ => true
  end.

(** The variables of the scan, from the newest item to the oldest. *)
Record Scan := {
  base_replacement_history : option (list ResponseItem);
  previous_turn_settings : option PreviousTurnSettings;
  reference_context : TurnReferenceContextItem;
  pending_rollback_turns : N;
  rollout_suffix : list RolloutItem;
  active_segment : option ActiveReplaySegment;
}.

Definition finalize_active_segment (seg : ActiveReplaySegment) (s : Scan) : Scan :=
  if (0 <? pending_rollback_turns s)%N then {|
    base_replacement_history := base_replacement_history s;
    previous_turn_settings := previous_turn_settings s;
    reference_context := reference_context s;
    pending_rollback_turns := if counts_as_user_turn seg then pending_rollback_turns s - 1
                              else pending_rollback_turns s;
    rollout_suffix := rollout_suffix s;
    active_segment := None
  |} else {|
    base_replacement_history := or_else (base_replacement_history s) (segment_base seg);
    previous_turn_settings :=
      match previous_turn_settings s with
      | None => if counts_as_user_turn seg then segment_settings seg else None
      | settings => settings
      end;
    reference_context :=
      if is_never_set (reference_context s)
         && (counts_as_user_turn seg
             || match segment_reference seg with Cleared => true | _ => false end)
      then segment_reference seg else reference_context s;
    pending_rollback_turns := pending_rollback_turns s;
    rollout_suffix := rollout_suffix s;
    active_segment := None
  |}.

Definition with_segment (seg : option ActiveReplaySegment) (s : Scan) : Scan := {|
  base_replacement_history := base_replacement_history s;
  previous_turn_settings := previous_turn_settings s;
  reference_context := reference_context s;
  pending_rollback_turns := pending_rollback_turns s;
  rollout_suffix := rollout_suffix s;
  active_segment := seg
|}.

Definition with_pending (n : N) (s : Scan) : Scan := {|
  base_replacement_history := base_replacement_history s;
  previous_turn_settings := previous_turn_settings s;
  reference_context := reference_context s;
  pending_rollback_turns := n;
  rollout_suffix := rollout_suffix s;
  active_segment := active_segment s
|}.

Definition with_suffix (items : list RolloutItem) (s : Scan) : Scan := {|
  base_replacement_history := base_replacement_history s;
  previous_turn_settings := previous_turn_settings s;
  reference_context := reference_context s;
  pending_rollback_turns := pending_rollback_turns s;
  rollout_suffix := items;
  active_segment := active_segment s
|}.

Definition identified (id : str) (seg : ActiveReplaySegment) : ActiveReplaySegment := {|
  segment_turn_id := or_else (segment_turn_id seg) (Some id);
  counts_as_user_turn := counts_as_user_turn seg;
  segment_settings := segment_settings seg;
  segment_reference := segment_reference seg;
  segment_base := segment_base seg
|}.

Definition counted (boundary : bool) (seg : ActiveReplaySegment) : ActiveReplaySegment := {|
  segment_turn_id := segment_turn_id seg;
  counts_as_user_turn := counts_as_user_turn seg || boundary;
  segment_settings := segment_settings seg;
  segment_reference := segment_reference seg;
  segment_base := segment_base seg
|}.

(** A compaction: it clears an older baseline, and its replacement is the segment's base
    unless a newer one is. *)
Definition compacted_segment (c : CompactedItem) (seg : ActiveReplaySegment) : ActiveReplaySegment := {|
  segment_turn_id := segment_turn_id seg;
  counts_as_user_turn := counts_as_user_turn seg;
  segment_settings := segment_settings seg;
  segment_reference := if is_never_set (segment_reference seg) then Cleared else segment_reference seg;
  segment_base := or_else (segment_base seg) (replacement_history c)
|}.

Definition configured (ctx : TurnContextItem T) (seg : ActiveReplaySegment) : ActiveReplaySegment :=
  let id := or_else (segment_turn_id seg) (turn_id ctx) in
  if turn_ids_are_compatible id (turn_id ctx) then {|
    segment_turn_id := id;
    counts_as_user_turn := counts_as_user_turn seg;
    segment_settings := Some {|
      settings_model := model ctx; settings_realtime_active := realtime_active ctx;
      provider_id := []; context_window := None
    |};
    segment_reference := if is_never_set (segment_reference seg) then Latest ctx else segment_reference seg;
    segment_base := segment_base seg
  |} else {|
    segment_turn_id := id;
    counts_as_user_turn := counts_as_user_turn seg;
    segment_settings := segment_settings seg;
    segment_reference := segment_reference seg;
    segment_base := segment_base seg
  |}.

(** One item, with the items [after] it. *)
Definition scan_item (item : RolloutItem) (after : list RolloutItem) (s : Scan) : Scan :=
  let active := default empty_segment (active_segment s) in
  match item with
  | Compacted compacted =>
      let s' := with_segment (Some (compacted_segment compacted active)) s in
      match segment_base active, replacement_history compacted with
      | None, Some _ => with_suffix after s'
      | _, _ => s'
      end
  | Event (ThreadRolledBack num_turns) =>
      with_pending (N.min USIZE_MAX (pending_rollback_turns s + num_turns)) s
  | Event (TurnComplete turn_id) => with_segment (Some (identified turn_id active)) s
  | Event (TurnAborted turn_id) =>
      match turn_id with
      | Some turn_id => with_segment (Some (identified turn_id active)) s
      | None => s
      end
  | Event UserMessageEvent => with_segment (Some (counted true active)) s
  | TurnContext ctx => with_segment (Some (configured ctx active)) s
  | Event (TurnStarted turn_id) =>
      match active_segment s with
      | Some seg =>
          if turn_ids_are_compatible (segment_turn_id seg) (Some turn_id)
          then finalize_active_segment seg s else s
      | None => s
      end
  | Item item => with_segment (Some (counted (is_turn item) active)) s
  | Event OtherEvent | SessionMeta => s
  end.

Definition scan_done (s : Scan) : bool :=
  match base_replacement_history s, previous_turn_settings s, reference_context s with
  | _, _, NeverSet => false
  | Some _, Some _, _ => true
  | _, _, _ => false
  end.

Fixpoint scan (reversed after : list RolloutItem) (s : Scan) : Scan :=
  match reversed with
  | [] => s
  | item :: reversed =>
      let s := scan_item item after s in
      if scan_done s then s else scan reversed (item :: after) s
  end.

Definition scan_rollout (rollout_items : list RolloutItem) : Scan :=
  let s := scan (reverse rollout_items) [] {|
    base_replacement_history := None; previous_turn_settings := None;
    reference_context := NeverSet; pending_rollback_turns := 0;
    rollout_suffix := rollout_items; active_segment := None
  |} in
  match active_segment s with Some seg => finalize_active_segment seg s | None => s end.

(** The second loop, forward; the flag is that of a compaction without replacement. *)
Abbreviation History := (ContextManager (C := TurnContextItem T)).

Definition replay_item (policy : TruncationPolicy) (item : RolloutItem) (st : History * bool)
    : result Empty_set (History * bool) :=
  let '(history, legacy) := st in
  match item with
  | Item item => history ← record_items debug [item] policy history; Ok (history, legacy)
  | Compacted compacted =>
      match replacement_history compacted with
      | Some replacement => Ok (replace replacement history, legacy)
      | None =>
          rebuilt ← build_compacted_history debug []
                      (collect_user_messages parse_hook_xml (items history)) (summary compacted);
          Ok (replace rebuilt history, true)
      end
  | Event (ThreadRolledBack num_turns) =>
      history ← drop_last_n_user_turns parse_communication parse_hook_xml (N.to_nat num_turns) history;
      Ok (history, legacy)
  | Event _ | TurnContext _ | SessionMeta => Ok (history, legacy)
  end.

Fixpoint replay (policy : TruncationPolicy) (rollout : list RolloutItem) (st : History * bool)
    : result Empty_set (History * bool) :=
  match rollout with
  | [] => Ok st
  | item :: rollout => st ← replay_item policy item st; replay policy rollout st
  end.

Record RolloutReconstruction := {
  history : list ResponseItem;
  reconstructed_settings : option PreviousTurnSettings;
  reference_context_item : option (TurnContextItem T);
}.

Definition reconstruct_history_from_rollout (policy : TruncationPolicy) (rollout_items : list RolloutItem)
    : result Empty_set RolloutReconstruction :=
  let s := scan_rollout rollout_items in
  let start := match base_replacement_history s with
               | Some base => replace base new
               | None => new
               end in
  '(rebuilt, legacy) ← replay policy (rollout_suffix s) (start, false);
  Ok {| history := items rebuilt;
        reconstructed_settings := previous_turn_settings s;
        reference_context_item :=
          match reference_context s with
          | Latest ctx => if legacy : bool then None else Some ctx
          | _ => None
          end |}.

End Rollouts.
End ThreadReplay.
