(* ===== verification/ThreadReplayFacts.v ===== *)
(** * Facts about rebuilding a thread

    The scan from the end of a rollout gives the history of a replay from its start, as
    long as the compaction it starts from was not rolled back; the places where a rollout
    is cut are those that rollbacks leave; a compacted history keeps to its budget. *)

From Stdlib Require Import Ascii String Sorted.
From stdpp Require Import sorting.
From S2P Require Import Prelude RustStr ConfigToml Truncation HistoryNormalize History.
From S2P Require Import ThreadReplay.
Import ResponseItems Truncation TruncationFacts HistoryNormalize History HistoryFacts.
Import TurnItems Compaction ThreadReplay.

Module ThreadReplayFacts.

(** ** A replay without overflow checks always returns *)

Lemma collect_returns {E A B} (f : A -> result E B) (l : list A) :
  (forall a, returns (f a)) -> returns (collect f l).
Proof.
  intros Hf. induction l as [|a l IH]; simpl; [by eexists|].
  apply returns_bind; [apply Hf|]. intros b _. apply returns_bind; [done|]. intros; by eexists.
Qed.

Lemma process_item_returns (item : ResponseItem) (policy : TruncationPolicy) :
  returns (process_item false item policy).
Proof.
  assert (Hp : forall output policy, returns (truncate_function_output_payload false output policy)).
  { intros output p. unfold truncate_function_output_payload. apply returns_bind; [|intros; by eexists].
    case_match; apply returns_fmap; [apply truncate_text_returns|apply truncate_output_returns]. }
  unfold process_item. destruct item; try (by eexists); apply returns_fmap, Hp.
Qed.

Lemma select_returns (messages : list str) (remaining : N) :
  returns (select_messages false messages remaining).
Proof.
  revert remaining. induction messages as [|m messages IH]; intros remaining; cbn [select_messages]; [by eexists|].
  case_match; [by eexists|]. case_match; [apply returns_fmap, IH|].
  apply returns_bind; [apply truncate_text_returns|]. intros; by eexists.
Qed.

Lemma build_compacted_returns (initial : list ResponseItem) (messages : list str) (text : str) :
  returns (build_compacted_history false initial messages text).
Proof.
  unfold build_compacted_history, build_compacted_history_with_limit.
  apply returns_bind; [|intros; by eexists]. case_match; [apply select_returns|by eexists].
Qed.

Section Facts.
Context {T : Type}.
Context (parse_communication : str -> option bool) (parse_hook_xml : str -> option (str * str)).

Abbreviation History := (ContextManager (C := TurnContextItem T)).
Abbreviation Rollout := (list (RolloutItem (T := T))).
Abbreviation replay_item := (replay_item (T := T) false parse_communication parse_hook_xml).
Abbreviation replay := (replay (T := T) false parse_communication parse_hook_xml).
Abbreviation drop_turns := (drop_last_n_user_turns (C := TurnContextItem T) parse_communication parse_hook_xml).

Lemma drop_turns_items (n : nat) (m : History) :
  exists m', drop_turns n m = Ok m'
    /\ forall m2 m2' : History, items m2 = items m -> drop_turns n m2 = Ok m2' -> items m2' = items m'.
Proof.
  destruct n as [|n]; [exists m; split; [done|by intros m2 m2' Hi [= <-]]|].
  destruct (drop_turns_spec parse_communication parse_hook_xml (S n) m) as (k & t & d & Hr & Hd); [lia|].
  eexists. split; [exact Hd|]. intros m2 m2' Hi Hd2.
  destruct (drop_turns_spec parse_communication parse_hook_xml (S n) m2) as (k2 & t2 & d2 & Hr2 & Hd2'); [lia|].
  rewrite Hd2' in Hd2. injection Hd2 as <-. rewrite Hi in Hr2. simpl.
  by eapply rolled_back_unique.
Qed.

(** One step returns, and its items are a function of the items before. *)
Lemma replay_item_spec (policy : TruncationPolicy) (item : RolloutItem) (st : History * bool) :
  exists out, replay_item policy item st = Ok out
    /\ forall st' out', items st'.1 = items st.1 -> replay_item policy item st' = Ok out' ->
         items out'.1 = items out.1.
Proof.
  destruct st as [m legacy]. destruct item as [|item|c|ctx|[| | | |n|]]; simpl;
    try (by eexists; split; [done|]; intros [m' l'] out' Hi [= <-]).
  - assert (Hr : exists processed, forall m : History,
      record_items false [item] policy m = Ok (with_items (items m ++ processed) m)).
    { unfold record_items. destruct (collect_returns (fun i => process_item false i policy)
        (List.filter is_api_message [item]) (fun i => process_item_returns i policy)) as [processed ->].
      by exists processed. }
    destruct Hr as [processed Hr]. rewrite Hr. eexists. split; [done|].
    intros [m' l'] out' Hi Ho. simpl in *. rewrite Hr in Ho. injection Ho as <-. simpl. by rewrite Hi.
  - destruct (replacement_history c) as [r|] eqn:Hc.
    { eexists; split; [done|]; intros [m' l'] out' Hi Ho. simpl in Ho. rewrite Hc in Ho.
      by injection Ho as <-. }
    destruct (build_compacted_returns [] (collect_user_messages parse_hook_xml (items m)) (summary c))
      as [rebuilt Hb].
    rewrite Hb. eexists. split; [done|]. intros [m' l'] out' Hi Ho. simpl in *.
    rewrite Hc, Hi, Hb in Ho. by injection Ho as <-.
  - destruct (drop_turns_items (N.to_nat n) m) as (m1 & Hd & Heq). rewrite Hd.
    eexists. split; [done|]. intros [m' l'] out' Hi Ho. simpl in *.
    apply bind_Ok in Ho as (m1' & Hd' & [= <-]). simpl. by eapply Heq.
Qed.

Lemma replay_spec (policy : TruncationPolicy) (l : Rollout) (st : History * bool) :
  exists out, replay policy l st = Ok out
    /\ forall st' out', items st'.1 = items st.1 -> replay policy l st' = Ok out' ->
         items out'.1 = items out.1.
Proof.
  revert st. induction l as [|item l IH]; intros st; simpl.
  { exists st. split; [done|]. by intros st' out' Hi [= <-]. }
  destruct (replay_item_spec policy item st) as (mid & -> & Hmid). cbn [mbind result_bind].
  destruct (IH mid) as (out & -> & Hout). exists out. split; [done|].
  intros st' out' Hi (mid' & Hm & Ho)%bind_Ok. apply (Hout mid'); [|done]. by apply (Hmid st').
Qed.

Lemma replay_app (policy : TruncationPolicy) (l1 l2 : Rollout) (st : History * bool) :
  replay policy (l1 ++ l2) st = (st ← replay policy l1 st; replay policy l2 st).
Proof.
  revert st. induction l1 as [|item l1 IH]; intros st; [done|]. simpl.
  destruct (replay_item policy item st); [apply IH|done..].
Qed.

(** After a compaction with a replacement, what came before does not matter. *)
Lemma replay_checkpoint (policy : TruncationPolicy) (l1 l2 : Rollout) (c : CompactedItem) r st out st' out' :
  replacement_history c = Some r ->
  items st'.1 = r ->
  replay policy (l1 ++ Compacted c :: l2) st = Ok out ->
  replay policy l2 st' = Ok out' ->
  items out'.1 = items out.1.
Proof.
  intros Hr Hi. rewrite replay_app. intros ([m l] & _ & Ho)%bind_Ok Ho'.
  simpl in Ho. rewrite Hr in Ho. cbn [mbind result_bind] in Ho.
  destruct (replay_spec policy l2 (replace r m, l)) as (out2 & Ho2 & Heq).
  rewrite Ho in Ho2. injection Ho2 as <-. by apply (Heq st').
Qed.

(** ** The scan *)

Abbreviation Scan := (Scan (T := T)).
Abbreviation scan_item := (scan_item (T := T) parse_communication parse_hook_xml).
Abbreviation scan := (scan (T := T) parse_communication parse_hook_xml).

Definition seg_base (s : Scan) : option (list ResponseItem) := active_segment s ≫= segment_base.

(** A replacement that the scan holds on to. *)
Definition held (s : Scan) (b : list ResponseItem) : Prop :=
  base_replacement_history s = Some b \/ seg_base s = Some b.

Definition checkpoint (l : Rollout) (b : list ResponseItem) : Prop :=
  exists l1 c l2, l = l1 ++ Compacted c :: l2 /\ replacement_history c = Some b.

Definition is_rollback (item : RolloutItem (T := T)) : bool :=
  match item with Event (ThreadRolledBack _) => true | _ => false end.

Lemma checkpoint_app l1 l2 b : checkpoint l2 b -> checkpoint (l1 ++ l2) b.
Proof. intros (p & c & q & -> & Hc). exists (l1 ++ p), c, q. by rewrite app_assoc. Qed.

(** What a step does to the bases: it starts a suffix at a compaction, or holds on to the
    bases it had, which only a pending rollback lets go. *)
Lemma scan_item_bases (item : RolloutItem) (after : Rollout) (s : Scan) :
  (exists c r, item = Compacted c /\ replacement_history c = Some r /\ seg_base s = None
     /\ rollout_suffix (scan_item item after s) = after
     /\ seg_base (scan_item item after s) = Some r
     /\ base_replacement_history (scan_item item after s) = base_replacement_history s)
  \/ (rollout_suffix (scan_item item after s) = rollout_suffix s
      /\ (forall b, held (scan_item item after s) b -> held s b)
      /\ (pending_rollback_turns s = 0%N -> (exists b, held s b) -> exists b, held (scan_item item after s) b)
      /\ (forall c r, item = Compacted c -> replacement_history c = Some r -> exists b, held s b)).
Proof.
  unfold held, seg_base. destruct s as [base prev ref pending suffix active].
  destruct item as [|item|c|ctx|[id|id|[id|]| |n|]]; simpl;
    try (right; destruct active as [seg|]; simpl; naive_solver).
  - (* a compaction *)
    destruct active as [seg|]; simpl;
      [destruct (segment_base seg) as [b|] eqn:Hb|]; simpl;
      destruct (replacement_history c) as [r|] eqn:Hr; simpl; rewrite ?Hb, ?Hr;
      first [left; exists c, r; done | right; naive_solver].
  - (* the settings of a turn *)
    right. unfold configured. destruct active as [seg|]; simpl; case_match; naive_solver.
  - (* the start of a turn *)
    right. destruct active as [seg|]; simpl; [|naive_solver].
    destruct (turn_ids_are_compatible _ _); simpl; [|naive_solver].
    unfold finalize_active_segment. destruct (0 <? _)%N eqn:Hp; simpl in *.
    + apply N.ltb_lt in Hp. split_and!; [done|naive_solver|lia|naive_solver].
    + destruct base; simpl; naive_solver.
Qed.

Lemma scan_item_pending (item : RolloutItem) (after : Rollout) (s : Scan) :
  is_rollback item = false -> pending_rollback_turns s = 0%N ->
  pending_rollback_turns (scan_item item after s) = 0%N.
Proof.
  intros Hi Hp. destruct item as [|item|c|ctx|[id|id|[id|]| |n|]]; simpl in *; try done.
  - by repeat case_match.
  - destruct (active_segment s); [|done]. case_match; [|done].
    unfold finalize_active_segment. by rewrite Hp.
Qed.

(** Where the scan stands when it has read [after]. *)
Definition scanned (all after : Rollout) (s : Scan) : Prop :=
  (rollout_suffix s = all /\ (forall b, ~ held s b) /\ (forall b, ~ checkpoint after b))
  \/ (exists pre c r, after = pre ++ Compacted c :: rollout_suffix s /\ replacement_history c = Some r
      /\ (forall b, held s b -> checkpoint (Compacted c :: rollout_suffix s) b)
      /\ (existsb is_rollback all = false -> exists b, held s b)).

Definition quiet (all : Rollout) (s : Scan) : Prop :=
  existsb is_rollback all = false -> pending_rollback_turns s = 0%N.

Lemma checkpoint_cons item l b :
  checkpoint (item :: l) b -> (exists c, item = Compacted c /\ replacement_history c = Some b) \/ checkpoint l b.
Proof.
  intros ([|x l1] & c & l2 & Hl & Hc); simplify_eq/=; [left; by exists c|right; by exists l1, c, l2].
Qed.

Lemma scanned_item (all before after : Rollout) (item : RolloutItem) (s : Scan) :
  all = before ++ item :: after -> quiet all s -> scanned all after s ->
  scanned all (item :: after) (scan_item item after s) /\ quiet all (scan_item item after s).
Proof.
  intros Hall Hq Hs. split.
  2: { intros Hr. apply scan_item_pending; [|by apply Hq].
       rewrite Hall, existsb_app in Hr. apply orb_false_iff in Hr as [_ Hr].
       by apply orb_false_iff in Hr as [Hr _]. }
  destruct (scan_item_bases item after s) as [(c & r & -> & Hr & Hseg & Hsuf & Hseg' & Hbase)|(Hsuf & Hsub & Hkeep & Hck)].
  - right. exists [], c, r. rewrite Hsuf. split_and!; [done|done| |].
    + unfold held. rewrite Hbase, Hseg'. intros b [Hb|[= <-]]; [|by exists [], c, after].
      change (Compacted c :: after) with ([Compacted c] ++ after). apply checkpoint_app.
      destruct Hs as [(_ & Hno & _)|(pre & c' & r' & -> & _ & Hgood & _)]; [by destruct (Hno b); left|].
      apply checkpoint_app, Hgood. by left.
    + intros _. exists r. by right.
  - destruct Hs as [(Hs & Hno & Hnc)|(pre & c' & r' & -> & Hr & Hgood & Hsome)].
    + left. rewrite Hsuf. split; [done|]. split; [naive_solver|].
      intros b [(c & -> & Hc)|Hc]%checkpoint_cons; [|by apply (Hnc b)].
      destruct (Hck c b eq_refl Hc) as [b' Hb']. by apply (Hno b').
    + right. exists (item :: pre), c', r'. rewrite Hsuf. split_and!; [done|done|naive_solver|].
      intros Hq'. apply Hkeep; [by apply Hq|by apply Hsome].
Qed.

Lemma scan_scanned (all reversed after : Rollout) (s : Scan) :
  all = reverse reversed ++ after -> quiet all s -> scanned all after s ->
  exists before after', all = before ++ after'
    /\ quiet all (scan reversed after s) /\ scanned all after' (scan reversed after s)
    /\ (before = [] \/ base_replacement_history (scan reversed after s) <> None).
Proof.
  revert after s. induction reversed as [|item reversed IH]; intros after s Hall Hq Hs.
  { exists [], after. split_and!; [done..|by left]. }
  rewrite reverse_cons, <- app_assoc in Hall. cbn [app] in Hall.
  destruct (scanned_item all (reverse reversed) after item s Hall Hq Hs) as [Hs' Hq'].
  cbn [ThreadReplay.scan]. destruct (scan_done _) eqn:Hd; [|by apply IH].
  exists (reverse reversed), (item :: after). split_and!; [done..|]. right.
  intros Hb. unfold scan_done in Hd. rewrite Hb in Hd. by destruct (reference_context _).
Qed.

Abbreviation scan_rollout := (scan_rollout (T := T) parse_communication parse_hook_xml).

Lemma finalized_bases (s : Scan) :
  let f := match active_segment s with Some seg => finalize_active_segment seg s | None => s end in
  rollout_suffix f = rollout_suffix s
  /\ (forall b, base_replacement_history f = Some b -> held s b)
  /\ (pending_rollback_turns s = 0%N -> (exists b, held s b) -> base_replacement_history f <> None).
Proof.
  unfold held, seg_base. destruct s as [base prev ref pending suffix [seg|]]; simpl; [|naive_solver].
  unfold finalize_active_segment. destruct (0 <? _)%N eqn:Hp; simpl in *.
  - apply N.ltb_lt in Hp. split_and!; [done|naive_solver|lia].
  - destruct base; simpl; naive_solver.
Qed.

(** The suffix and the base that the scan of a whole rollout ends with. *)
Lemma scan_rollout_cases (rollout : Rollout) :
  let s := scan_rollout rollout in
  (rollout_suffix s = rollout /\ base_replacement_history s = None)
  \/ (exists pre c r, rollout = pre ++ Compacted c :: rollout_suffix s /\ replacement_history c = Some r
      /\ (forall b, base_replacement_history s = Some b -> checkpoint (Compacted c :: rollout_suffix s) b)
      /\ (existsb is_rollback rollout = false -> base_replacement_history s <> None)).
Proof.
  intros s. unfold s, ThreadReplay.scan_rollout. clear s. set (start := Build_Scan _ _ _ _ _ _).
  destruct (scan_scanned rollout (reverse rollout) [] start) as (before & after & Hall & Hq & Hs & _).
  { by rewrite reverse_involutive, app_nil_r. }
  { done. }
  { left. split; [done|]. split; [by intros b [?|?]|]. by intros b ([|? ?] & ? & ? & ? & _). }
  set (s := scan _ _ _) in *. destruct (finalized_bases s) as (Hsuf & Hsub & Hkeep).
  set (f := match active_segment s with Some _ => _ | None => _ end) in *. rewrite Hsuf.
  destruct Hs as [(Hs & Hno & _)|(pre & c & r & -> & Hr & Hgood & Hsome)].
  - left. split; [done|]. destruct (base_replacement_history f) as [b|]; [|done].
    destruct (Hno b). by apply Hsub.
  - right. exists (before ++ pre), c, r. rewrite Hall, <- app_assoc. split_and!; [done|done|auto|].
    intros Hn. rewrite <- Hall in Hn. auto.
Qed.

(** ** What rollbacks leave

    A rollout as its writer makes it: turns, each from its start, rollbacks and other
    records between the turns. *)
Inductive Piece :=
| Turn (id : str) (body : Rollout)
| RolledBack (n : N)
| Between (item : RolloutItem (T := T)).

(** What may be in a turn after its start. *)
Definition in_turn (id : str) (item : RolloutItem (T := T)) : Prop :=
  match item with
  | TurnContext ctx => turn_id ctx = None \/ turn_id ctx = Some id
  | Event (TurnComplete id') => id' = id
  | Event (TurnAborted id') => id' = None \/ id' = Some id
  | Event (TurnStarted _) | Event (ThreadRolledBack _) => False
  | _ => True
  end.

Definition piece_ok (p : Piece) : Prop :=
  match p with
  | Turn id body => Forall (in_turn id) body
  | RolledBack _ => True
  | Between item => item = SessionMeta \/ item = Event OtherEvent
  end.

Definition piece_items (p : Piece) : Rollout :=
  match p with
  | Turn id body => Event (TurnStarted id) :: body
  | RolledBack n => [Event (ThreadRolledBack n)]
  | Between item => [item]
  end.

Definition rollout_of (pieces : list Piece) : Rollout := pieces ≫= piece_items.

(** A turn that the user, or another agent, began; one with a compaction that keeps a
    replacement. *)
Definition begins_turn (item : RolloutItem (T := T)) : bool :=
  match item with
  | Event UserMessageEvent => true
  | Item item => is_user_turn_boundary parse_communication parse_hook_xml item
  | _ => false
  end.

Definition counts (body : Rollout) : bool := existsb begins_turn body.

Definition replaces (item : RolloutItem (T := T)) : bool :=
  match item with Compacted c => bool_decide (is_Some (replacement_history c)) | _ => false end.

Definition compacts (body : Rollout) : bool := existsb replaces body.

(** Forward: a rollback takes the last turns away, the newest first, until it has taken
    as many that count as it says. *)
Fixpoint unwind (n : nat) (turns : list Rollout) : list Rollout :=
  match n, turns with
  | 0, _ => turns
  | _, [] => []
  | S n', turn :: turns => unwind (if counts turn then n' else n) turns
  end.

Definition surviving_step (turns : list Rollout) (p : Piece) : list Rollout :=
  match p with
  | Turn _ body => body :: turns
  | RolledBack n => unwind (N.to_nat n) turns
  | Between _ => turns
  end.

(** The newest first. *)
Definition surviving_turns (pieces : list Piece) : list Rollout := fold_left surviving_step pieces [].

Definition turns_rolled_back (pieces : list Piece) : N :=
  foldr N.add 0%N (map (fun p => match p with RolledBack n => n | _ => 0%N end) pieces).

(** A compaction with a replacement is in a turn that was not rolled back. *)
Definition compaction_survives (rollout : Rollout) : Prop :=
  exists pieces, rollout = rollout_of pieces /\ Forall piece_ok pieces
    /\ (turns_rolled_back pieces <= USIZE_MAX)%N
    /\ existsb compacts (surviving_turns pieces) = true.

Lemma unwind_nil (n : nat) : unwind n [] = [].
Proof. by destruct n. Qed.

Lemma unwind_unwind (m n : nat) (turns : list Rollout) : unwind m (unwind n turns) = unwind (m + n) turns.
Proof.
  revert m n. induction turns as [|t turns IH]; intros m n; [by rewrite !unwind_nil|].
  destruct n as [|n]; [by rewrite Nat.add_0_r|]. rewrite Nat.add_succ_r. simpl.
  rewrite IH. destruct (counts t); [done|]. by rewrite Nat.add_succ_r.
Qed.

(** The scan without its early end. *)
Fixpoint scan_all (reversed after : Rollout) (s : Scan) : Scan :=
  match reversed with
  | [] => s
  | item :: reversed => scan_all reversed (item :: after) (scan_item item after s)
  end.

Lemma scan_or_all (reversed after : Rollout) (s : Scan) :
  base_replacement_history (scan reversed after s) <> None
  \/ scan reversed after s = scan_all reversed after s.
Proof.
  revert after s. induction reversed as [|item reversed IH]; intros after s; [by right|].
  cbn [ThreadReplay.scan scan_all]. destruct (scan_done _) eqn:Hd; [left|apply IH].
  unfold scan_done in Hd. destruct (base_replacement_history _); [done|]. by destruct (reference_context _).
Qed.

Lemma scan_all_app (l1 l2 after : Rollout) (s : Scan) :
  scan_all (l1 ++ l2) after s = scan_all l2 (reverse l1 ++ after) (scan_all l1 after s).
Proof.
  revert after s. induction l1 as [|item l1 IH]; intros after s; [done|]. simpl.
  by rewrite IH, reverse_cons, <- app_assoc.
Qed.

Lemma scan_all_cons (item : RolloutItem) (l after : Rollout) (s : Scan) :
  scan_all (reverse (item :: l)) after s = scan_item item (l ++ after) (scan_all (reverse l) after s).
Proof. by rewrite reverse_cons, scan_all_app, reverse_involutive. Qed.

(** Once the base is found it stays. *)
Lemma scan_item_base (item : RolloutItem) (after : Rollout) (s : Scan) :
  base_replacement_history s <> None -> base_replacement_history (scan_item item after s) <> None.
Proof.
  intros Hb. destruct item as [|x|c|ctx|[id|id|[id|]| |n|]]; simpl; try done; repeat case_match; try done.
  unfold finalize_active_segment. case_match; simpl; [done|]. by destruct (base_replacement_history s).
Qed.

Lemma scan_all_base (l after : Rollout) (s : Scan) :
  base_replacement_history s <> None -> base_replacement_history (scan_all l after s) <> None.
Proof. revert after s. induction l as [|x l IH]; intros after s Hb; [done|]. by apply IH, scan_item_base. Qed.

(** What the scan has gathered of a turn whose body it has read. *)
Lemma scan_body (id : str) (body after : Rollout) (s : Scan) :
  Forall (in_turn id) body -> active_segment s = None ->
  let s' := scan_all (reverse body) after s in
  let seg := default empty_segment (active_segment s') in
  base_replacement_history s' = base_replacement_history s
  /\ pending_rollback_turns s' = pending_rollback_turns s
  /\ (segment_turn_id seg = None \/ segment_turn_id seg = Some id)
  /\ counts_as_user_turn seg = counts body
  /\ bool_decide (is_Some (segment_base seg)) = compacts body.
Proof.
  intros Hin Hs. induction Hin as [|x body Hx _ IH].
  { simpl. rewrite Hs. split_and!; try done. by left. }
  rewrite scan_all_cons. cbv zeta in IH |- *. set (s' := scan_all (reverse body) after s) in *.
  destruct IH as (Hb & Hp & Hid & Hc & Hk). unfold counts, compacts in *. cbn [existsb].
  destruct x as [|x|c|ctx|[id'|id'|[id'|]| |n|]]; simpl in Hx |- *; try done.
  - split_and!; try done. by rewrite Hc, orb_comm.
  - assert (forall s2, base_replacement_history (with_suffix after s2) = base_replacement_history s2) by done.
    destruct (segment_base (default empty_segment (active_segment s'))) as [b|] eqn:Hsb;
      destruct (replacement_history c) as [r|] eqn:Hr; simpl; rewrite ?Hsb, ?Hr; simpl; split_and!; try done;
      by rewrite <- Hk, ?orb_true_r.
  - set (seg := default empty_segment (active_segment s')) in *.
    assert (segment_turn_id (configured ctx seg) = None \/ segment_turn_id (configured ctx seg) = Some id) as Hid'.
    { unfold configured. destruct Hid as [-> | ->], Hx as [-> | ->]; simpl; rewrite ?str_eqb_refl; auto. }
    split_and!; try done; unfold configured; by case_match.
  - subst id'. split_and!; try done. destruct Hid as [-> | ->]; by right.
  - destruct Hx as [|[= ->]]; [done|]. split_and!; try done. destruct Hid as [-> | ->]; by right.
  - split_and!; try done. by rewrite orb_true_r.
Qed.

(** A whole turn: dropped while turns are to be skipped, a base if it has one otherwise. *)
Lemma scan_turn (id : str) (body after : Rollout) (s : Scan) :
  Forall (in_turn id) body -> active_segment s = None ->
  let s' := scan_all (reverse (Event (TurnStarted id) :: body)) after s in
  active_segment s' = None
  /\ if (0 <? pending_rollback_turns s)%N
     then pending_rollback_turns s' = (pending_rollback_turns s - if counts body then 1 else 0)%N
     else pending_rollback_turns s' = 0%N /\ (compacts body = true -> base_replacement_history s' <> None).
Proof.
  intros Hin Hs. rewrite scan_all_cons. destruct (scan_body id body after s Hin Hs) as (Hb & Hp & Hid & Hc & Hk).
  set (s1 := scan_all (reverse body) after s) in *. cbn [ThreadReplay.scan_item].
  destruct (active_segment s1) as [seg|] eqn:Hseg; simpl in Hid, Hc, Hk.
  - assert (turn_ids_are_compatible (segment_turn_id seg) (Some id) = true) as ->
      by (destruct Hid as [-> | ->]; simpl; [done|apply str_eqb_refl]).
    unfold finalize_active_segment. rewrite Hp, Hc. destruct (0 <? _)%N eqn:Hpos; simpl.
    + split; [done|]. destruct (counts body); [done|]. lia.
    + apply N.ltb_ge in Hpos. split; [done|]. split; [lia|]. intros Hcomp. rewrite <- Hk in Hcomp.
      apply bool_decide_eq_true in Hcomp as [b ->]. by destruct (base_replacement_history s1).
  - change (counts_as_user_turn empty_segment) with false in Hc. change (segment_base empty_segment) with (@None (list ResponseItem)) in Hk.
    simpl in Hk. rewrite <- Hc, <- Hk, Hp, Hseg. split; [done|].
    destruct (0 <? _)%N eqn:Hpos; [lia|]. apply N.ltb_ge in Hpos. split; [lia|done].
Qed.

(** What is still to be read holds the surviving compaction, below the turns to be
    skipped, or the base was found. *)
Lemma scan_pieces (pieces : list Piece) (after : Rollout) (s : Scan) :
  Forall piece_ok pieces -> active_segment s = None ->
  (turns_rolled_back pieces + pending_rollback_turns s <= USIZE_MAX)%N ->
  existsb compacts (unwind (N.to_nat (pending_rollback_turns s)) (surviving_turns pieces)) = true ->
  base_replacement_history (scan_all (reverse (rollout_of pieces)) after s) <> None.
Proof.
  revert after s. induction pieces as [|p pieces IH] using rev_ind; intros after s Hok Hs Hmax Hsurv.
  { change (surviving_turns []) with (@nil Rollout) in Hsurv. by rewrite unwind_nil in Hsurv. }
  apply Forall_app in Hok as [Hok [Hp _]%Forall_cons].
  unfold rollout_of. rewrite bind_app, reverse_app, scan_all_app. cbn [mbind list_bind].
  rewrite app_nil_r. fold (rollout_of pieces).
  unfold turns_rolled_back in Hmax. rewrite map_app, foldr_app in Hmax.
  assert (Hsum : forall l k, foldr N.add k l = (foldr N.add 0 l + k)%N)
    by (intros l k; induction l; simpl; lia).
  rewrite Hsum in Hmax. fold (turns_rolled_back pieces) in Hmax.
  unfold surviving_turns in Hsurv. rewrite fold_left_app in Hsurv. fold (surviving_turns pieces) in Hsurv.
  destruct p as [id body|n|item]; cbn [piece_items piece_ok surviving_step fold_left map foldr] in *.
  - destruct (scan_turn id body after s Hp Hs) as [Hnone Hturn]. cbv zeta in Hnone, Hturn.
    set (s' := scan_all (reverse (Event (TurnStarted id) :: body)) after s) in *.
    destruct (0 <? pending_rollback_turns s)%N eqn:Hpos.
    + apply N.ltb_lt in Hpos. apply IH; [done..| |].
      * rewrite Hturn. lia.
      * rewrite Hturn. replace (N.to_nat (pending_rollback_turns s))
          with (S (N.to_nat (pending_rollback_turns s - 1))) in Hsurv by lia.
        cbn [unwind] in Hsurv. destruct (counts body); [done|].
        by replace (N.to_nat (pending_rollback_turns s - 0)) with (S (N.to_nat (pending_rollback_turns s - 1))) by lia.
    + apply N.ltb_ge in Hpos. destruct Hturn as [H0 Hbase].
      assert (pending_rollback_turns s = 0%N) as Hz by lia. rewrite Hz in Hsurv.
      change (compacts body || existsb compacts (surviving_turns pieces) = true) in Hsurv.
      destruct (compacts body); [by apply scan_all_base, Hbase|]. apply IH; [done..|rewrite H0; lia|].
      rewrite H0. revert Hsurv. by destruct (surviving_turns pieces).
  - cbn [reverse rev_append scan_all ThreadReplay.scan_item]. apply IH; [done..| |]; cbn [pending_rollback_turns with_pending].
    + lia.
    + rewrite unwind_unwind in Hsurv. rewrite N.min_r by lia. by rewrite N2Nat.inj_add.
  - change (scan_all (reverse [item]) after s) with (scan_item item after s).
    assert (scan_item item after s = s) as -> by by destruct Hp as [-> | ->].
    apply IH; [done..|lia|done].
Qed.

Lemma surviving_base (rollout : Rollout) :
  compaction_survives rollout -> base_replacement_history (scan_rollout rollout) <> None.
Proof.
  intros (pieces & -> & Hok & Hmax & Hsurv). unfold ThreadReplay.scan_rollout.
  set (start := Build_Scan _ _ _ _ _ _). set (s := scan _ _ _).
  assert (base_replacement_history s <> None) as Hb.
  { unfold s. destruct (scan_or_all (reverse (rollout_of pieces)) [] start) as [|Hall]; [done|].
    rewrite Hall. apply scan_pieces; [done|done|simpl; lia|].
    change (N.to_nat (pending_rollback_turns start)) with 0. revert Hsurv. by destruct (surviving_turns pieces). }
  destruct (active_segment s) as [seg|]; [|done]. unfold finalize_active_segment.
  case_match; simpl; [done|]. by destruct (base_replacement_history s).
Qed.

(** C23: Rebuilding a thread from its rollout, a scan from the end to the newest compaction
    that it takes for surviving and a replay from there, gives the history that a replay of
    the whole rollout gives, in each of three cases: the rollout is made of whole turns,
    rollbacks and other records, the rollbacks add up to no more turns than a [usize]
    holds, and a compaction with a replacement is in a turn that they leave, where each
    takes away the last turns until as many of a user are gone as it says; or nothing was
    compacted with a replacement; or nothing was rolled back. In a build without overflow
    checks both always return. *)
Theorem reconstruct_is_replay (policy : TruncationPolicy) (rollout : Rollout) :
  compaction_survives rollout
  \/ (forall b, ~ checkpoint rollout b)
  \/ existsb is_rollback rollout = false ->
  exists r full,
    reconstruct_history_from_rollout false parse_communication parse_hook_xml policy rollout = Ok r
    /\ replay policy rollout (new, false) = Ok full
    /\ history r = items full.1.
Proof.
  intros Hok. destruct (replay_spec policy rollout (new, false)) as (full & Hfull & _).
  unfold reconstruct_history_from_rollout.
  destruct (scan_rollout_cases rollout) as [[Hs Hb]|(pre & c & r & Hr & Hc & Hgood & Hsome)].
  - rewrite Hs, Hb. destruct full as [m legacy]. rewrite Hfull. eexists _, (m, legacy). done.
  - destruct (base_replacement_history (scan_rollout rollout)) as [b|] eqn:Hb.
    2: { exfalso. destruct Hok as [Hok|[Hok|Hok]]; [by apply surviving_base in Hok| |by apply Hsome].
         apply (Hok r). by exists pre, c, (rollout_suffix (scan_rollout rollout)). }
    set (suffix := rollout_suffix _) in *.
    destruct (replay_spec policy suffix (replace b new, false)) as ([m legacy] & Hm & _).
    rewrite Hm. eexists _, full. split; [done|]. split; [done|]. simpl.
    destruct (Hgood b eq_refl) as ([|x l1] & c' & l2 & Hl & Hc'); simpl in Hl.
    + injection Hl as <- <-. rewrite Hr in Hfull.
      exact (replay_checkpoint policy _ _ _ _ _ _ _ _ Hc' (eq_refl : items (replace b new, false).1 = b) Hfull Hm).
    + injection Hl as <- Hl. destruct (replay_spec policy l2 (replace b new, false)) as (out & Ho & _).
      rewrite Hl in Hm, Hr. rewrite Hr in Hfull.
      change (pre ++ Compacted c :: l1 ++ Compacted c' :: l2)
        with (pre ++ (Compacted c :: l1) ++ Compacted c' :: l2) in Hfull.
      rewrite app_assoc in Hfull.
      pose proof (replay_checkpoint policy _ _ _ _ _ _ _ _ Hc' (eq_refl : items (replace b new, false).1 = b) Hfull Ho).
      pose proof (replay_checkpoint policy _ _ _ _ _ _ _ _ Hc' (eq_refl : items (replace b new, false).1 = b) Hm Ho).
      simpl in *. congruence.
Qed.

(** ** Where a rollout can be cut *)

Abbreviation is_turn := (is_user_turn_boundary parse_communication parse_hook_xml).
Abbreviation turns := (turns parse_communication parse_hook_xml).

Definition is_fork (item : ResponseItem) : bool :=
  is_real_user_message_boundary parse_hook_xml item || is_trigger_turn_boundary parse_communication item.

(** The items with their places, without the last [n] turns and what follows. *)
Definition cut_turns (n : nat) (l : list (nat * ResponseItem)) : list (nat * ResponseItem) :=
  if n =? 0 then l
  else let ps := positions is_turn (map snd l) in
       match drop (length ps - n) ps with
       | [] => l
       | p :: _ => take p l
       end.

(** The items of a rollout that its rollbacks leave. *)
Definition surviving (rollout : Rollout) : list (nat * ResponseItem) :=
  fold_left (fun l '(idx, item) =>
    match item with
    | Item item => l ++ [(idx, item)]
    | Event (ThreadRolledBack n) => cut_turns (N.to_nat n) l
    | _ => l
    end) (imap pair rollout) [].

Lemma cut_turns_cases (n : nat) (l : list (nat * ResponseItem)) :
  0 < n ->
  (turns (map snd l) = 0 /\ cut_turns n l = l)
  \/ exists i x rest, l = cut_turns n l ++ (i, x) :: rest /\ is_turn x = true
       /\ turns (map snd (cut_turns n l)) = turns (map snd l) - n.
Proof.
  intros Hn. unfold cut_turns. rewrite (proj2 (Nat.eqb_neq _ _)) by lia.
  set (ps := positions is_turn (map snd l)).
  assert (Hlen : length ps = turns (map snd l)) by apply positions_length.
  destruct (drop (length ps - n) ps) as [|p more] eqn:Hd.
  - left. split; [|done]. apply (f_equal length) in Hd. rewrite length_drop in Hd. simpl in Hd. lia.
  - right. assert (Hp : ps !! (length ps - n) = Some p).
    { rewrite <- (Nat.add_0_r (length ps - n)), <- lookup_drop, Hd. done. }
    apply positions_lookup in Hp as (pre & x & post & Hl & <- & Hx & Hc).
    apply map_eq_app in Hl as (l1 & l2 & -> & <- & Hl2).
    destruct l2 as [|[i y] l2]; simplify_eq/=.
    rewrite length_map, take_app_length. exists i, x, l2. split; [done|]. split; [done|].
    unfold turns at 1. by rewrite Hc, Hlen.
Qed.

Definition ordered (l : list (nat * ResponseItem)) : Prop := StronglySorted lt (map fst l).

Lemma ordered_app l1 i x l2 :
  ordered (l1 ++ (i, x) :: l2) ->
  ordered l1 /\ Forall (fun j => j < i) (map fst l1) /\ Forall (fun j => i < j) (map fst l2).
Proof.
  unfold ordered. rewrite map_app. intros H. split; [by apply StronglySorted_app in H as (_ & H & _)|].
  apply StronglySorted_app in H as (Hlt & _ & H). split; [|by apply StronglySorted_inv in H as [_ H]].
  apply Forall_forall. intros j Hj. apply Hlt; [done|by left].
Qed.

Lemma filter_below (p : ResponseItem -> bool) l1 i x l2 :
  ordered (l1 ++ (i, x) :: l2) ->
  List.filter (fun j => j <? i) (map fst (List.filter (p ∘ snd) (l1 ++ (i, x) :: l2)))
  = map fst (List.filter (p ∘ snd) l1).
Proof.
  intros (_ & H1 & H2)%ordered_app. rewrite List.filter_app, map_app, List.filter_app.
  rewrite <- (app_nil_r (map fst (List.filter _ l1))). f_equal.
  - induction l1 as [|[j y] l1 IH]; [done|]. simpl in *. inversion H1; subst. case_match; [|by apply IH].
    simpl. rewrite (proj2 (Nat.ltb_lt _ _)) by done. f_equal. by apply IH.
  - assert (Hl2 : List.filter (fun j => j <? i) (map fst (List.filter (p ∘ snd) l2)) = []).
    { induction l2 as [|[j y] l2 IH]; [done|]. simpl in *. inversion H2; subst. case_match; [|by apply IH].
      simpl. rewrite (proj2 (Nat.ltb_ge _ _)) by lia. by apply IH. }
    simpl. case_match; [|done]. simpl. by rewrite Nat.ltb_irrefl.
Qed.

Lemma surviving_snoc (rollout : Rollout) (item : RolloutItem) :
  surviving (rollout ++ [item]) =
    match item with
    | Item item => surviving rollout ++ [(length rollout, item)]
    | Event (ThreadRolledBack n) => cut_turns (N.to_nat n) (surviving rollout)
    | _ => surviving rollout
    end.
Proof.
  unfold surviving. rewrite imap_app, fold_left_app. simpl. by rewrite Nat.add_0_r.
Qed.

Lemma cut_turns_prefix n l : exists rest, l = cut_turns n l ++ rest.
Proof.
  destruct n as [|n]; [exists []; by rewrite app_nil_r|].
  destruct (cut_turns_cases (S n) l) as [[_ ->]|(i & x & rest & Hl & _)]; [lia| |by eexists].
  exists []. by rewrite app_nil_r.
Qed.

Lemma surviving_ordered (rollout : Rollout) :
  ordered (surviving rollout) /\ Forall (fun i => i < length rollout) (map fst (surviving rollout)).
Proof.
  induction rollout as [|item rollout [Ho Hb]] using rev_ind; [split; constructor|].
  rewrite surviving_snoc, length_app. simpl.
  assert (Hb' : Forall (fun i => i < length rollout + 1) (map fst (surviving rollout)))
    by (eapply Forall_impl; [exact Hb|simpl; lia]).
  destruct item as [|x|c|ctx|[| | | |n|]]; try done.
  - unfold ordered. rewrite map_app. split.
    + apply StronglySorted_app_2; [|done|repeat constructor].
      intros i j Hi ->%list_elem_of_singleton. simpl. by rewrite Forall_forall in Hb; apply Hb.
    + apply Forall_app_2; [done|]. repeat constructor. simpl. lia.
  - destruct (cut_turns_prefix (N.to_nat n) (surviving rollout)) as [rest Hr]. unfold ordered in *.
    rewrite Hr, map_app in Ho, Hb'. split; [by apply StronglySorted_app in Ho as (_ & Ho & _)|].
    by apply Forall_app in Hb' as [Hb' _].
Qed.

Lemma filter_turns_length (l : list (nat * ResponseItem)) : length (List.filter (is_turn ∘ snd) l) = turns (map snd l).
Proof.
  unfold turns. induction l as [|[i x] l IH]; [done|]. simpl. case_match; simpl; congruence.
Qed.

Lemma imap_pair_snoc (rollout : Rollout) item :
  imap pair (rollout ++ [item]) = imap pair rollout ++ [(length rollout, item)].
Proof. rewrite imap_app. simpl. by rewrite Nat.add_0_r. Qed.

Lemma filter_map_snoc (p : ResponseItem -> bool) (l : list (nat * ResponseItem)) i x :
  map fst (List.filter (p ∘ snd) (l ++ [(i, x)])) =
    if p x then map fst (List.filter (p ∘ snd) l) ++ [i] else map fst (List.filter (p ∘ snd) l).
Proof.
  rewrite List.filter_app, map_app. simpl. case_match; [done|]. by rewrite app_nil_r.
Qed.

Lemma drop_of_app {A} (l a b : list A) : l = a ++ b -> drop (length a) l = b.
Proof. intros ->. apply drop_app_length. Qed.

(** After a cut: the turns that are left, and the first that is not. *)
Lemma cut_turns_positions (n : nat) (l : list (nat * ResponseItem)) :
  0 < n ->
  let R := map fst (List.filter (is_turn ∘ snd) l) in
  map fst (List.filter (is_turn ∘ snd) (cut_turns n l)) = take (length R - n) R
  /\ (if n <=? length R then R !! (length R - n) else head R)
     = match drop (length (cut_turns n l)) l with [] => None | (i, _) :: _ => Some i end.
Proof.
  intros Hn R. assert (HR : length R = turns (map snd l)).
  { unfold R. rewrite length_map. apply filter_turns_length. }
  destruct (cut_turns_cases n l Hn) as [[H0 Hc]|(i & x & rest & Hl & Hx & Hc)].
  - rewrite Hc, drop_all. assert (R = []) as HR0 by (apply length_zero_iff_nil; lia).
    fold R. rewrite HR0, take_nil. split; [done|]. by case_match.
  - set (c := cut_turns n l) in *. set (P := map fst (List.filter (is_turn ∘ snd) c)).
    assert (HP : length P = length R - n).
    { unfold P. rewrite length_map, filter_turns_length, Hc. lia. }
    assert (Hsplit : R = P ++ i :: map fst (List.filter (is_turn ∘ snd) rest)).
    { unfold R, P. rewrite Hl, List.filter_app, map_app. simpl. by rewrite Hx. }
    split; [by rewrite <- HP, Hsplit, take_app_length|].
    rewrite (drop_of_app _ _ _ Hl). destruct (n <=? length R) eqn:Hle.
    + rewrite <- HP, Hsplit. by rewrite list_lookup_middle.
    + apply Nat.leb_gt in Hle. assert (P = []) as -> by (apply length_zero_iff_nil; lia).
      by rewrite Hsplit.
Qed.

Lemma fork_positions_state (rollout : Rollout) :
  fold_left (fork_position_step parse_communication parse_hook_xml) (imap pair rollout) ([], [])
  = (map fst (List.filter (is_turn ∘ snd) (surviving rollout)),
     map fst (List.filter (is_fork ∘ snd) (surviving rollout))).
Proof.
  induction rollout as [|item rollout IH] using rev_ind; [done|].
  rewrite imap_pair_snoc, fold_left_app, IH, surviving_snoc.
  destruct item as [|x|c|ctx|[| | | |n|]]; try done.
  - rewrite !filter_map_snoc. done.
  - cbn [fold_left fork_position_step]. destruct (N.to_nat n) as [|k] eqn:Hn; [done|].
    rewrite (proj2 (Nat.eqb_neq _ _)) by lia.
    destruct (cut_turns_positions (S k) (surviving rollout)) as [HR ->]; [lia|]. rewrite HR.
    destruct (cut_turns_cases (S k) (surviving rollout)) as [[H0 Hc]|(i & x & rest & Hl & _)]; [lia| |].
    + rewrite Hc, drop_all, <- HR, Hc. done.
    + rewrite (drop_of_app _ _ _ Hl). f_equal.
      pose proof (surviving_ordered rollout) as [Ho _]. rewrite Hl in Ho.
      rewrite <- (filter_below is_fork _ _ _ _ Ho). by rewrite <- Hl.
Qed.

Lemma real_message_is_turn (x : ResponseItem) :
  is_real_user_message_boundary parse_hook_xml x = true -> is_turn x = true.
Proof.
  unfold is_real_user_message_boundary, user_message_of.
  destruct x as [id role content phase| | | | | | | | |? ? []| | |]; simpl; try done.
  destruct (str_eqb role (lit "user")); simpl; [|by destruct (str_eqb role _)].
  unfold parse_user_message. destruct (is_contextual_user_message_content _ _); [|done].
  by destruct (parse_visible_hook_prompt_message _ _ _) as [[]|] eqn:Hh;
    unfold parse_visible_hook_prompt_message in Hh; destruct (hook_fragments _ _) as [[]|]; simplify_eq/=.
Qed.

Lemma surviving_lookup (rollout : Rollout) i x :
  (i, x) ∈ surviving rollout -> rollout !! i = Some (Item x).
Proof.
  induction rollout as [|item rollout IH] using rev_ind; [by intros ?%not_elem_of_nil|].
  rewrite surviving_snoc. intros Hin.
  assert (Hold : (i, x) ∈ surviving rollout -> (rollout ++ [item]) !! i = Some (Item x)).
  { intros H. by apply lookup_app_l_Some, IH. }
  destruct item as [|y|c|ctx|[| | | |n|]]; try by apply Hold.
  - apply elem_of_app in Hin as [Hin|Hin%list_elem_of_singleton]; [by apply Hold|].
    simplify_eq. by rewrite list_lookup_middle.
  - apply Hold. destruct (cut_turns_prefix (N.to_nat n) (surviving rollout)) as [rest ->].
    apply elem_of_app. by left.
Qed.

Lemma filter_fst_lookup (p : ResponseItem -> bool) (l : list (nat * ResponseItem)) k i :
  map fst (List.filter (p ∘ snd) l) !! k = Some i -> exists x, (i, x) ∈ l /\ p x = true.
Proof.
  intros H. apply list_elem_of_lookup_2 in H. apply list_elem_of_In, in_map_iff in H as ([j x] & <- & H).
  apply List.filter_In in H as [H Hp]. exists x. by rewrite list_elem_of_In.
Qed.

(** The places where a fork of a thread may start are the user's messages and the
    instructions that start a turn, among the items that the rollbacks leave; a cut to the
    last [n] of them never fails, and starts at the [n]th from the end, or keeps the whole
    rollout if there are no more than [n]. *)
Theorem fork_cut (rollout : Rollout) (n : nat) :
  let forks := map fst (List.filter (is_fork ∘ snd) (surviving rollout)) in
  fork_turn_positions_in_rollout parse_communication parse_hook_xml rollout = forks
  /\ truncate_rollout_to_last_n_fork_turns parse_communication parse_hook_xml rollout n
     = Ok (if n =? 0 then [] else if length forks <=? n then rollout
           else match drop (length forks - n) forks with i :: _ => drop i rollout | [] => [] end).
Proof.
  intros forks.
  assert (Hf : fork_turn_positions_in_rollout parse_communication parse_hook_xml rollout = forks).
  { unfold fork_turn_positions_in_rollout. by rewrite fork_positions_state. }
  split; [done|]. unfold truncate_rollout_to_last_n_fork_turns. rewrite Hf.
  destruct (n =? 0) eqn:Hn; [done|]. destruct (length forks <=? n) eqn:Hle; [done|].
  apply Nat.leb_gt in Hle. apply Nat.eqb_neq in Hn.
  destruct (lookup_lt_is_Some_2 forks (length forks - n)) as [i Hi]; [lia|].
  rewrite Hi, (drop_S _ i _ Hi). cbn [or_panic mbind result_bind].
  apply filter_fst_lookup in Hi as (x & Hx & _). apply surviving_lookup, lookup_lt_Some in Hx.
  by rewrite slice_from_in_range by lia.
Qed.

Lemma user_positions_surviving (rollout : Rollout) :
  (forall x, Item x ∈ rollout -> is_turn x = true -> is_real_user_message_boundary parse_hook_xml x = true) ->
  user_message_positions_in_rollout parse_hook_xml rollout
  = map fst (List.filter (is_turn ∘ snd) (surviving rollout)).
Proof.
  unfold user_message_positions_in_rollout.
  induction rollout as [|item rollout IH] using rev_ind; intros Hreal; [done|].
  assert (Hreal' : forall x, Item x ∈ rollout -> is_turn x = true ->
            is_real_user_message_boundary parse_hook_xml x = true).
  { intros x Hx. apply Hreal, elem_of_app. by left. }
  rewrite imap_pair_snoc, fold_left_app, (IH Hreal'), surviving_snoc.
  destruct item as [|x|c|ctx|[| | | |n|]]; try done.
  - rewrite filter_map_snoc. cbn [fold_left user_position_step].
    assert (is_turn x = is_real_user_message_boundary parse_hook_xml x) as ->; [|done].
    apply eq_true_iff_eq. split; [|apply real_message_is_turn].
    apply Hreal, elem_of_app. right. by apply list_elem_of_singleton.
  - cbn [fold_left user_position_step]. destruct (N.to_nat n) as [|k].
    + by rewrite Nat.sub_0_r, firstn_all.
    + by destruct (cut_turns_positions (S k) (surviving rollout)) as [-> _]; [lia|].
Qed.

(** If the user's messages are the only turns of a rollout, its user positions are the
    turns that the rollbacks leave, and the cut before the [n]th of them never fails. *)
Theorem user_cut (rollout : Rollout) (n : N) :
  (forall x, Item x ∈ rollout -> is_turn x = true -> is_real_user_message_boundary parse_hook_xml x = true) ->
  let users := map fst (List.filter (is_turn ∘ snd) (surviving rollout)) in
  user_message_positions_in_rollout parse_hook_xml rollout = users
  /\ truncate_rollout_before_nth_user_message_from_start parse_hook_xml rollout n
     = Ok (if (n =? USIZE_MAX)%N then rollout
           else match drop (N.to_nat n) users with i :: _ => take i rollout | [] => rollout end).
Proof.
  intros Hreal users.
  assert (Hu : user_message_positions_in_rollout parse_hook_xml rollout = users)
    by (by apply user_positions_surviving).
  split; [done|]. unfold truncate_rollout_before_nth_user_message_from_start. rewrite Hu.
  case_match; [done|]. case_match eqn:Hle.
  - apply N.leb_le in Hle. by rewrite drop_ge by lia.
  - apply N.leb_gt in Hle. destruct (lookup_lt_is_Some_2 users (N.to_nat n)) as [i Hi]; [lia|].
    rewrite Hi, (drop_S _ i _ Hi). cbn [or_panic mbind result_bind].
    apply filter_fst_lookup in Hi as (x & Hx & _). apply surviving_lookup, lookup_lt_Some in Hx.
    by rewrite slice_in_range, Nat.sub_0_r, drop_0 by lia.
Qed.

End Facts.

(** ** Compaction *)

Section CompactionFacts.
Context (parse_hook_xml : str -> option (str * str)).

Definition is_user_message (item : ResponseItem) : bool :=
  match user_message_of parse_hook_xml item with Some _ => true | None => false end.

(** A message of the user that is not the summary of a compaction. *)
Definition is_own_message (item : ResponseItem) : bool :=
  match user_message_of parse_hook_xml item with
  | Some content => negb (is_summary_message (message content))
  | None => false
  end.

Lemma rposition_snoc p l x :
  rposition p (l ++ [x]) = if p x then Some (length l) else rposition p l.
Proof.
  change (rposition p (l ++ [x])) with (last (positions p (l ++ [x]))). rewrite positions_snoc.
  destruct (p x); [apply last_snoc|by rewrite app_nil_r].
Qed.

Lemma rposition_None p l : rposition p l = None <-> List.filter p l = [].
Proof.
  induction l as [|x l IH] using rev_ind; [done|].
  rewrite rposition_snoc, List.filter_app. simpl. destruct (p x); [|by rewrite app_nil_r].
  split; [done|]. by destruct (List.filter p l).
Qed.

Lemma find_user_messages_spec l acc :
  find_user_messages parse_hook_xml (reverse l) (length l) acc
  = (or_else acc (rposition is_user_message l), rposition is_own_message l).
Proof.
  revert acc. induction l as [|x l IH] using rev_ind; intros acc; [by destruct acc|].
  rewrite reverse_snoc, length_app, Nat.add_1_r, !rposition_snoc.
  cbn [find_user_messages]. unfold is_user_message at 1, is_own_message at 1.
  destruct (user_message_of parse_hook_xml x) as [content|]; [|apply IH].
  destruct (is_summary_message (message content)); simpl; [|by destruct acc].
  rewrite IH. by destruct acc.
Qed.

(** The initial context goes into a compacted history at one place and leaves the rest
    as it is: before the last message of the user's own; without one before the last
    summary; without any before the last compaction item; else at the end. *)
Theorem context_placed (compacted ctx : list ResponseItem) :
  exists before after, compacted = before ++ after
  /\ insert_initial_context_before_last_real_user_or_summary parse_hook_xml compacted ctx
     = before ++ ctx ++ after
  /\ match after with
     | [] => List.filter is_user_message compacted = [] /\ List.filter is_compaction compacted = []
     | x :: rest =>
         (is_own_message x = true /\ List.filter is_own_message rest = [])
         \/ (List.filter is_own_message compacted = []
             /\ is_user_message x = true /\ List.filter is_user_message rest = [])
         \/ (List.filter is_user_message compacted = []
             /\ is_compaction x = true /\ List.filter is_compaction rest = [])
     end.
Proof.
  unfold insert_initial_context_before_last_real_user_or_summary. rewrite find_user_messages_spec.
  assert (Hat : forall p i, rposition p compacted = Some i ->
    exists x rest, compacted = take i compacted ++ x :: rest /\ drop i compacted = x :: rest
      /\ p x = true /\ List.filter p rest = []).
  { intros p i (pre & x & post & Hc & <- & Hx & Hf)%rposition_Some. exists x, post.
    rewrite Hc, take_app_length, drop_app_length. done. }
  cbn [or_else]. destruct (rposition is_own_message compacted) as [i|] eqn:Ho;
    [|destruct (rposition is_user_message compacted) as [i|] eqn:Hu;
      [|destruct (rposition is_compaction compacted) as [i|] eqn:Hc]]; cbn [or_else].
  - destruct (Hat _ _ Ho) as (x & rest & Hl & -> & Hx & Hf). exists (take i compacted), (x :: rest).
    split; [done|]. split; [done|]. by left.
  - destruct (Hat _ _ Hu) as (x & rest & Hl & -> & Hx & Hf). exists (take i compacted), (x :: rest).
    apply rposition_None in Ho. split; [done|]. split; [done|]. right. by left.
  - destruct (Hat _ _ Hc) as (x & rest & Hl & -> & Hx & Hf). exists (take i compacted), (x :: rest).
    apply rposition_None in Hu. split; [done|]. split; [done|]. right. by right.
  - exists compacted, []. rewrite !app_nil_r. by rewrite rposition_None in Hu, Hc.
Qed.

End CompactionFacts.

Definition tokens_of (messages : list str) : N := foldr N.add 0%N (map approx_token_count messages).

(** The messages that fit, and the one that is cut. *)
Lemma select_messages_spec debug (reversed selected : list str) (remaining : N) :
  select_messages debug reversed remaining = Ok selected ->
  exists whole cut skipped, reversed = whole ++ skipped /\ selected = whole ++ cut
    /\ (tokens_of whole <= remaining)%N
    /\ ((cut = [] /\ (skipped = [] \/ tokens_of whole = remaining))
        \/ exists m older t, skipped = m :: older /\ cut = [t]
            /\ (tokens_of whole < remaining < tokens_of whole + approx_token_count m)%N
            /\ truncate_text (E := Empty_set) debug m (Tokens (remaining - tokens_of whole)) = Ok t).
Proof.
  revert remaining selected. induction reversed as [|m reversed IH]; intros remaining selected;
    cbn [select_messages].
  { intros [= <-]. exists [], [], []. change (tokens_of []) with 0%N. split_and!; [done|done|lia|by left; auto]. }
  destruct (remaining =? 0)%N eqn:H0.
  { apply N.eqb_eq in H0 as ->. intros [= <-]. exists [], [], (m :: reversed).
    change (tokens_of []) with 0%N. split_and!; [done|done|lia|by left; auto]. }
  apply N.eqb_neq in H0. destruct (approx_token_count m <=? remaining)%N eqn:Hle.
  - apply N.leb_le in Hle. destruct (select_messages _ _ _) as [sel|[]|] eqn:Hs; [|done].
    intros [= <-]. apply IH in Hs as (whole & cut & skipped & -> & -> & Hw & Hc).
    exists (m :: whole), cut, skipped. unfold tokens_of in *. simpl.
    split_and!; [done|done|lia|]. destruct Hc as [[-> [->|He]]|(m' & older & t & -> & -> & Hlt & Ht)].
    + left. auto.
    + left. split; [done|]. right. lia.
    + right. exists m', older, t. split_and!; [done|done|lia|lia|]. by rewrite N.sub_add_distr.
  - apply N.leb_gt in Hle. intros (t & Ht & [= <-])%bind_Ok.
    exists [], [t], (m :: reversed). unfold tokens_of in *. simpl. split_and!; [done|done|lia|].
    right. exists m, reversed, t. rewrite N.sub_0_r. split_and!; [done|done|lia|lia|done].
Qed.

(** A compacted history is the initial context, the newest messages of the user within
    the budget of tokens in their order, of which only the oldest may be cut, to what is
    left of the budget, and the summary. A build without overflow checks always makes one. *)
Theorem compacted_within_budget (debug : bool) (initial : list ResponseItem) (messages : list str)
    (text : str) (max_tokens : N) :
  (forall out,
    build_compacted_history_with_limit debug initial messages text max_tokens = Ok out ->
    exists skipped cut whole, messages = skipped ++ whole
      /\ out = initial ++ map user_text (cut ++ whole)
               ++ [user_text (match text with [] => lit "(no summary available)" | _ => text end)]
      /\ (tokens_of whole <= max_tokens)%N
      /\ ((cut = [] /\ (skipped = [] \/ tokens_of whole = max_tokens))
          \/ exists m older t, skipped = older ++ [m] /\ cut = [t]
              /\ (tokens_of whole < max_tokens < tokens_of whole + approx_token_count m)%N
              /\ truncate_text (E := Empty_set) debug m (Tokens (max_tokens - tokens_of whole)) = Ok t))
  /\ exists out, build_compacted_history_with_limit false initial messages text max_tokens = Ok out.
Proof.
  split.
  2: { unfold build_compacted_history_with_limit.
       destruct (0 <? max_tokens)%N; [|by eexists].
       destruct (select_returns (reverse messages) max_tokens) as [sel ->]. by eexists. }
  intros out. unfold build_compacted_history_with_limit. intros (sel & Hs & [= <-])%bind_Ok.
  assert (Hsel : select_messages debug (reverse messages) max_tokens = Ok sel).
  { destruct (0 <? max_tokens)%N eqn:Hm; [done|]. apply N.ltb_ge in Hm. injection Hs as <-.
    assert (max_tokens = 0%N) as -> by lia. by destruct (reverse messages). }
  apply select_messages_spec in Hsel as (whole & cut & skipped & Hr & -> & Hw & Hc).
  assert (Hsum : tokens_of (reverse whole) = tokens_of whole).
  { assert (Happ : forall a b, tokens_of (a ++ b) = (tokens_of a + tokens_of b)%N).
    { intros a b. unfold tokens_of. induction a; simpl; lia. }
    clear -Happ. induction whole as [|m whole IH]; [done|]. rewrite reverse_cons, Happ, IH.
    unfold tokens_of. simpl. lia. }
  exists (reverse skipped), cut, (reverse whole).
  assert (Hcut : reverse cut = cut).
  { destruct Hc as [[-> _]|(m & older & t & _ & -> & _)]; done. }
  rewrite Hsum, reverse_app, Hcut. split_and!; [|done|done|].
  - by rewrite <- reverse_app, <- Hr, reverse_involutive.
  - destruct Hc as [[-> [->|He]]|(m & older & t & -> & -> & Hlt & Ht)].
    + left. auto.
    + left. auto.
    + right. exists m, (reverse older), t. by rewrite reverse_cons.
Qed.

(** ** The properties at work *)

Definition reconstruct (rollout : list (RolloutItem (T := unit))) :=
  reconstruct_history_from_rollout false (fun s => if str_eqb s (lit "go") then Some true else None)
    (fun _ => None) (Bytes 1000) rollout.

Definition demo_agent (text : String.string) : ResponseItem :=
  Message None (lit "assistant") [OutputText (lit text)] None.

Definition demo_turn (id : String.string) (its : list (RolloutItem (T := unit))) : list (RolloutItem (T := unit)) :=
  Event (TurnStarted (lit id)) :: Event UserMessageEvent :: its ++ [Event (TurnComplete (lit id))].

Definition demo_rollout : list (RolloutItem (T := unit)) :=
  demo_turn "1" [Item (demo_user "one"); Item (demo_agent "A")]
  ++ demo_turn "2" [Item (demo_user "two"); Item (demo_agent "B")]
  ++ [Event (ThreadRolledBack 1)]
  ++ demo_turn "3" [Compacted {| summary := []; replacement_history := Some [demo_user "one"; demo_user "sum"] |};
                    Item (demo_user "three"); Item (demo_agent "C")].

(** The same as pieces: the second turn was rolled back, the third one has a compaction. *)
Definition demo_pieces : list (Piece (T := unit)) :=
  let body (id : String.string) its := Event UserMessageEvent :: its ++ [Event (TurnComplete (lit id))] in
  [Turn (lit "1") (body "1"%string [Item (demo_user "one"); Item (demo_agent "A")]);
   Turn (lit "2") (body "2"%string [Item (demo_user "two"); Item (demo_agent "B")]);
   RolledBack 1;
   Turn (lit "3") (body "3"%string
     [Compacted {| summary := []; replacement_history := Some [demo_user "one"; demo_user "sum"] |};
      Item (demo_user "three"); Item (demo_agent "C")])].

Lemma reconstruct_is_replay_witness :
  history <$> reconstruct demo_rollout
    = Ok [demo_user "one"; demo_user "sum"; demo_user "three"; demo_agent "C"]
  /\ exists r full, reconstruct demo_rollout = Ok r
    /\ replay false (fun s => if str_eqb s (lit "go") then Some true else None) (fun _ => None)
         (Bytes 1000) demo_rollout (new, false) = Ok full
    /\ history r = items full.1.
Proof.
  split; [by vm_compute|]. apply reconstruct_is_replay. left. exists demo_pieces.
  split; [done|]. split; [|by vm_compute]. by repeat constructor.
Defined.

(** A turn in which the history was compacted, rolled back: the turn before it is lost with
    it, and the message that the model gave after the compaction stays. *)
Example rolled_back_compaction :
  history <$> reconstruct
    (demo_turn "1" [Item (demo_user "one"); Item (demo_agent "A")]
     ++ demo_turn "2" [Item (demo_user "two");
                       Compacted {| summary := []; replacement_history := Some [demo_user "sum"] |};
                       Item (demo_agent "B")]
     ++ [Event (ThreadRolledBack 1)])
  = Ok [demo_agent "B"].
Proof. by vm_compute. Qed.

Lemma user_cut_witness :
  let rollout := demo_turn "1" [Item (demo_user "one")] ++ demo_turn "2" [Item (demo_user "two")] in
  user_message_positions_in_rollout (fun _ => None) rollout = [2; 6]
  /\ truncate_rollout_before_nth_user_message_from_start (fun _ => None) rollout 1
     = Ok (take 6 rollout).
Proof.
  intros rollout.
  destruct (user_cut (fun _ => None) (fun _ => None) rollout 1) as [Hp Ht].
  { intros x Hx%list_elem_of_In. simpl in Hx.
    repeat (destruct Hx as [Hx|Hx]; [try discriminate Hx; injection Hx as <-; by vm_compute|]).
    destruct Hx. }
  split; [exact Hp|exact Ht].
Defined.

(** An instruction of another agent counts as a turn when the history is rolled back, but
    not for the user's positions: the user's message stays in the history and is no longer
    among the positions. *)
Example rollback_of_instruction :
  let rollout := [Item (demo_user "one"); Item (demo_agent "go"); Event (ThreadRolledBack 1)] in
  history <$> reconstruct rollout = Ok [demo_user "one"]
  /\ user_message_positions_in_rollout (fun _ => None) rollout = []
  /\ fork_turn_positions_in_rollout (fun s => if str_eqb s (lit "go") then Some true else None)
       (fun _ => None) rollout = [0].
Proof. split_and!; by vm_compute. Qed.
End ThreadReplayFacts.
