(* ===== verification/AgentRegistry.v ===== *)
(** * The agents of a session: src/core/src/agent/{registry,mailbox}.rs, src/protocol/src/agent_path.rs

    A session may run several agents, each a thread with a path below [/root]. The registry
    counts them, keeps their paths and nicknames apart, and holds a slot for each that is
    being started. It is shared: its operations are cut where they take the lock or touch
    the counter, and every interleaving of the sections is a run. Agents send each other
    mail, through a channel of the session that receives it. *)

From Stdlib Require Import Ascii String.
From S2P Require Import Prelude RustStr.

(** ** agent_path.rs *)

Module AgentPath.

Definition ROOT : str := lit "/root".
Definition MORPHEUS : str := lit "/morpheus".
Definition ROOT_SEGMENT : str := lit "root".

Definition is_name_char (ch : char) : bool :=
  ((97 <=? ch)%N && (ch <=? 122)%N) || is_ascii_digit ch || (ch =? RustStr.ch "_")%N.

Definition validate_agent_name (agent_name : str) : result str unit :=
  match agent_name with
  | [] => Err (lit "agent_name must not be empty")
  | _ =>
      if str_eqb agent_name ROOT_SEGMENT then Err (lit "agent_name `root` is reserved")
      else if str_eqb agent_name (lit ".") || str_eqb agent_name (lit "..")
      then Err (lit "agent_name `" ++ agent_name ++ lit "` is reserved")
      else if contains_char (RustStr.ch "/") agent_name
      then Err (lit "agent_name must not contain `/`")
      else if negb (forallb is_name_char agent_name)
      then Err (lit "agent_name must use only lowercase letters, digits, and underscores")
      else Ok tt
  end.

Fixpoint validate_segments (segments : list str) : result str unit :=
  match segments with
  | [] => Ok tt
  | segment :: segments => _ ← validate_agent_name segment; validate_segments segments
  end.

Definition BAD_START : str := lit "absolute agent paths must start with `/root` or be `/morpheus`".

Definition validate_absolute_path (path : str) : result str unit :=
  if str_eqb path MORPHEUS then Ok tt
  else
    match strip_prefix (lit "/") path with
    | None => Err BAD_START
    | Some stripped =>
        match split_on (RustStr.ch "/") stripped with
        | [] => Err (lit "absolute agent path must not be empty")
        | root :: segments =>
            if negb (str_eqb root ROOT_SEGMENT) then Err BAD_START
            else if ends_with (lit "/") stripped
            then Err (lit "absolute agent path must not end with `/`")
            else validate_segments segments
        end
    end.

Definition validate_relative_reference (reference : str) : result str unit :=
  if ends_with (lit "/") reference then Err (lit "relative agent path must not end with `/`")
  else validate_segments (split_on (RustStr.ch "/") reference).

(** An [AgentPath] is its text. *)
Definition from_string (path : str) : result str str :=
  _ ← validate_absolute_path path; Ok path.

Definition is_root (path : str) : bool := str_eqb path ROOT.

Definition name (path : str) : str :=
  if is_root path then ROOT_SEGMENT
  else match last (split_on (RustStr.ch "/") path) with
       | Some (c :: segment) => c :: segment
       | _ => ROOT_SEGMENT
       end.

Definition join (path agent_name : str) : result str str :=
  _ ← validate_agent_name agent_name; from_string (path ++ lit "/" ++ agent_name).

Definition resolve (path reference : str) : result str str :=
  match reference with
  | [] => Err (lit "agent path must not be empty")
  | _ =>
      if str_eqb reference ROOT then Ok ROOT
      else if starts_with (lit "/") reference then from_string reference
      else _ ← validate_relative_reference reference; from_string (path ++ lit "/" ++ reference)
  end.

End AgentPath.

Module AgentPathFacts.
Import AgentPath.

Definition valid_name (n : str) : Prop :=
  n <> [] /\ n <> ROOT_SEGMENT /\ forallb is_name_char n = true.

Lemma name_chars (n : str) : forallb is_name_char n = true ->
  (RustStr.ch "/" ∉ n) /\ n <> lit "." /\ n <> lit "..".
Proof.
  intros H. split_and!; [|by intros ->..]. intros Hin%list_elem_of_In.
  rewrite forallb_forall in H. by specialize (H _ Hin).
Qed.

Lemma validate_agent_name_spec (n : str) : validate_agent_name n = Ok tt <-> valid_name n.
Proof.
  unfold validate_agent_name, valid_name. destruct n as [|c n]; [naive_solver|].
  set (w := c :: n). destruct (str_eqb w ROOT_SEGMENT) eqn:Hr.
  { apply str_eqb_eq in Hr. naive_solver. }
  apply str_eqb_neq in Hr. destruct (str_eqb w (lit ".") || str_eqb w (lit "..")) eqn:Hd.
  { split; [done|]. intros (_ & _ & (_ & H1 & H2)%name_chars).
    apply orb_true_iff in Hd as [Hd|Hd]; by apply str_eqb_eq in Hd. }
  destruct (contains_char (RustStr.ch "/") w) eqn:Hs.
  { split; [done|]. intros (_ & _ & (H & _)%name_chars). destruct H.
    apply list_elem_of_In. apply existsb_exists in Hs as (x & Hx & ->%N.eqb_eq). done. }
  destruct (forallb is_name_char w) eqn:Hc; simpl; naive_solver.
Qed.

Lemma validate_segments_spec (l : list str) : validate_segments l = Ok tt <-> Forall valid_name l.
Proof.
  induction l as [|n l IH]; simpl; [by split; [constructor|]|].
  rewrite Forall_cons, <- IH, <- validate_agent_name_spec.
  destruct (validate_agent_name n) as [[]|e|c]; simpl; naive_solver.
Qed.

Lemma validate_name_no_crash (n : str) : no_crash (validate_agent_name n).
Proof. intros c. unfold validate_agent_name. by repeat case_match. Qed.

(** The text of a path: [/root] and then names, each after a slash. *)
Definition below_root (names : list str) : str := ROOT ++ (names ≫= fun n => lit "/" ++ n).

Lemma split_below_root (names : list str) (first : str) :
  RustStr.ch "/" ∉ first -> Forall valid_name names ->
  split_on (RustStr.ch "/") (first ++ (names ≫= fun n => lit "/" ++ n)) = first :: names.
Proof.
  intros Hf Hn. revert first Hf. induction Hn as [|n names (_ & _ & Hc) _ IH]; intros first Hf.
  - rewrite app_nil_r. by apply split_on_single.
  - rewrite bind_cons. change (lit "/" ++ n) with (RustStr.ch "/" :: n). rewrite <- app_comm_cons.
    rewrite split_on_app by done. f_equal. apply IH. by apply name_chars.
Qed.

Lemma ends_with_slash (s : str) : ends_with (lit "/") s = true -> last (split_on (RustStr.ch "/") s) = Some [].
Proof.
  unfold ends_with. destruct (strip_suffix (lit "/") s) as [r|] eqn:E; [|done]. intros _.
  apply strip_suffix_Some in E as ->. change (lit "/") with [RustStr.ch "/"].
  by rewrite split_on_snoc, last_snoc.
Qed.

Lemma join_below (l : list str) (first : str) :
  RustStr.join [RustStr.ch "/"] (first :: l) = first ++ (l ≫= fun n => lit "/" ++ n).
Proof.
  revert first. induction l as [|n l IH]; intros first; [simpl; by rewrite app_nil_r|].
  rewrite join_cons by done. by rewrite IH.
Qed.

Lemma from_string_spec (s p : str) :
  from_string s = Ok p <->
  p = s /\ (s = MORPHEUS \/ exists names, Forall valid_name names /\ s = below_root names).
Proof.
  unfold from_string, validate_absolute_path. destruct (str_eqb s MORPHEUS) eqn:Hm.
  { apply str_eqb_eq in Hm as ->. simpl. naive_solver. }
  apply str_eqb_neq in Hm. split.
  - intros ([] & Hv & [= <-])%bind_Ok. split; [done|]. right.
    destruct (strip_prefix (lit "/") s) as [r|] eqn:Hs; [|done]. apply strip_prefix_Some in Hs as ->.
    pose proof (join_split_on (RustStr.ch "/") r) as Hj.
    destruct (split_on (RustStr.ch "/") r) as [|root segments]; [done|].
    destruct (str_eqb root ROOT_SEGMENT) eqn:Hr; [|done]. apply str_eqb_eq in Hr as ->. simpl in Hv.
    destruct (ends_with (lit "/") r); [done|]. apply validate_segments_spec in Hv.
    exists segments. split; [done|]. by rewrite <- Hj, join_below.
  - intros (-> & [?|(names & Hn & ->)]); [done|].
    assert (Hsplit : split_on (RustStr.ch "/") (ROOT_SEGMENT ++ (names ≫= fun n => lit "/" ++ n)) = ROOT_SEGMENT :: names).
    { apply split_below_root; [|done]. by apply name_chars; vm_compute. }
    change (strip_prefix (lit "/") (below_root names))
      with (Some (ROOT_SEGMENT ++ (names ≫= fun n => lit "/" ++ n))). cbn iota beta.
    rewrite Hsplit. rewrite str_eqb_refl. cbn [negb].
    destruct (ends_with (lit "/") _) eqn:He.
    { apply ends_with_slash in He. rewrite Hsplit in He.
      destruct names as [|x names _] using rev_ind; [done|].
      rewrite app_comm_cons, last_snoc in He. injection He as ->.
      apply Forall_app in Hn as [_ Hn]. inversion Hn as [|? ? [? _]]. done. }
    rewrite (proj2 (validate_segments_spec names)) by done. done.
Qed.

Lemma below_root_not_morpheus (names : list str) : below_root names <> MORPHEUS.
Proof. intros H. apply (f_equal (take 2)) in H. by vm_compute in H. Qed.

Lemma below_root_app (a b : list str) :
  below_root (a ++ b) = below_root a ++ (b ≫= fun n => lit "/" ++ n).
Proof. unfold below_root. by rewrite bind_app, app_assoc. Qed.

Lemma name_below_root (names : list str) (n : str) :
  Forall valid_name (names ++ [n]) -> name (below_root (names ++ [n])) = n.
Proof.
  intros Hn. unfold name, is_root.
  assert (Hne : str_eqb (below_root (names ++ [n])) ROOT = false).
  { apply str_eqb_neq. intros H. apply (f_equal length) in H. unfold below_root in H.
    rewrite length_app, bind_app, length_app in H. simpl in H. lia. }
  rewrite Hne. change (below_root (names ++ [n]))
    with (RustStr.ch "/" :: ROOT_SEGMENT ++ ((names ++ [n]) ≫= fun n => lit "/" ++ n)).
  assert (Hs : forall t, split_on (RustStr.ch "/") (RustStr.ch "/" :: t) = [] :: split_on (RustStr.ch "/") t)
    by (intros t; apply (split_on_app _ []), not_elem_of_nil).
  rewrite Hs, split_below_root; [|by apply name_chars; vm_compute|done].
  rewrite !app_comm_cons, last_snoc. apply Forall_app in Hn as [_ Hn].
  inversion Hn as [|? ? [? _]]. by destruct n.
Qed.

(** Paths that begin with [/root]. *)
Definition tree_path (p : str) : Prop := exists names, Forall valid_name names /\ p = below_root names.

Lemma join_spec (p n : str) :
  tree_path p ->
  (valid_name n -> exists q, join p n = Ok q /\ tree_path q /\ q = p ++ lit "/" ++ n /\ name q = n)
  /\ (~ valid_name n -> exists e, join p n = Err e).
Proof.
  intros (names & Hnames & ->). unfold join. split.
  - intros Hn. rewrite (proj2 (validate_agent_name_spec n) Hn). cbn [mbind result_bind].
    assert (Ht : Forall valid_name (names ++ [n])) by (apply Forall_app_2; [done|repeat constructor; apply Hn]).
    assert (Hq : below_root names ++ lit "/" ++ n = below_root (names ++ [n])).
    { rewrite below_root_app. simpl. by rewrite app_nil_r. }
    exists (below_root names ++ lit "/" ++ n). split.
    + apply from_string_spec. split; [done|]. right. rewrite Hq. by exists (names ++ [n]).
    + split; [rewrite Hq; by exists (names ++ [n])|]. split; [done|]. rewrite Hq. by apply name_below_root.
  - intros Hn. destruct (validate_agent_name n) as [[]|e|c] eqn:Hv.
    + by apply validate_agent_name_spec in Hv.
    + by exists e.
    + by destruct (validate_name_no_crash n c).
Qed.

Lemma resolve_spec (p r q : str) :
  tree_path p -> resolve p r = Ok q ->
  if starts_with (lit "/") r then q = r /\ (q = MORPHEUS \/ tree_path q)
  else q = p ++ lit "/" ++ r /\ tree_path q.
Proof.
  intros (names & Hnames & ->). unfold resolve. destruct r as [|c r]; [done|].
  destruct (str_eqb (c :: r) ROOT) eqn:Hroot.
  { apply str_eqb_eq in Hroot as ->. intros [= <-]. split; [done|]. right. exists []. by split. }
  destruct (starts_with (lit "/") (c :: r)).
  - by intros (-> & H)%from_string_spec.
  - intros ([] & _ & H)%bind_Ok. apply from_string_spec in H as (-> & [H|H]); [|done].
    exfalso. apply (f_equal (take 2)) in H. by vm_compute in H.
Qed.

Lemma resolve_names (p : str) (names : list str) :
  tree_path p -> names <> [] -> Forall valid_name names ->
  resolve p (RustStr.join (lit "/") names) = Ok (p ++ (names ≫= fun n => lit "/" ++ n)).
Proof.
  intros (above & Habove & ->) Hne Hnames. destruct names as [|m names]; [done|].
  change (lit "/") with [RustStr.ch "/"]. rewrite join_below.
  pose proof Hnames as Hm. apply Forall_cons in Hm as [(Hm0 & Hm1 & Hmc) _].
  assert (Hslash : RustStr.ch "/" ∉ m) by (by apply name_chars).
  assert (Hsplit : split_on (RustStr.ch "/") (m ++ (names ≫= fun n => lit "/" ++ n)) = m :: names).
  { apply split_below_root; [done|]. by apply Forall_cons in Hnames as [_ ?]. }
  unfold resolve. destruct m as [|c m]; [done|]. cbn [app].
  set (reference := c :: m ++ _). assert (Hr : reference = (c :: m) ++ (names ≫= fun n => lit "/" ++ n)) by done.
  assert (Hc : c <> RustStr.ch "/") by (intros ->; apply Hslash; by left).
  destruct (str_eqb reference ROOT) eqn:E1.
  { apply str_eqb_eq in E1. unfold reference in E1. by injection E1 as -> _. }
  destruct (starts_with (lit "/") reference) eqn:E2.
  { apply starts_with_true in E2 as [x E2]. unfold reference in E2. by injection E2 as -> _. }
  unfold validate_relative_reference. rewrite Hr, Hsplit.
  destruct (ends_with (lit "/") _) eqn:He.
  { apply ends_with_slash in He. rewrite Hsplit in He.
    destruct names as [|x names _] using rev_ind; [done|]. rewrite app_comm_cons, last_snoc in He.
    injection He as ->. rewrite app_comm_cons in Hnames. apply Forall_app in Hnames as [_ Hnames].
    inversion Hnames as [|? ? [? _]]. done. }
  rewrite (proj2 (validate_segments_spec ((c :: m) :: names))) by done. cbn [mbind result_bind].
  rewrite bind_cons, <- Hr. change [RustStr.ch "/"] with (lit "/").
  apply from_string_spec. split; [by rewrite Hr|]. right.
  exists (above ++ (c :: m) :: names). split; [by apply Forall_app_2|].
  by rewrite below_root_app, bind_cons, Hr.
Qed.

(** Nothing is below [/morpheus]. *)
Lemma join_morpheus (n q : str) : join MORPHEUS n <> Ok q.
Proof.
  intros ([] & _ & Hq)%bind_Ok. apply from_string_spec in Hq as (-> & [Hm|(names & _ & Hn)]).
  - apply (f_equal length) in Hm. by rewrite !length_app in Hm.
  - apply (f_equal (take 2)) in Hn. by vm_compute in Hn.
Qed.

(** C39: The text of an agent's path is [/morpheus], or [/root] followed by valid names. To
    a path that begins with [/root] exactly the valid names can be joined, which gives the
    child with that name; nothing can be joined to [/morpheus]. From a path that begins
    with [/root] an absolute reference resolves, if at all, to itself, when it is the text
    of a path; a relative one to the path below, after a slash, which is one again; and a
    list of valid names always resolves to the descendant that they name. *)
Theorem agent_paths (p n r : str) :
  (forall s q, from_string s = Ok q <-> q = s /\ (s = MORPHEUS \/ tree_path s))
  /\ (tree_path p ->
      (valid_name n -> exists q, join p n = Ok q /\ tree_path q /\ q = p ++ lit "/" ++ n /\ name q = n)
      /\ (~ valid_name n -> exists e, join p n = Err e))
  /\ (forall q, join MORPHEUS n <> Ok q)
  /\ (tree_path p -> forall q, resolve p r = Ok q ->
      if starts_with (lit "/") r then q = r /\ (q = MORPHEUS \/ tree_path q)
      else q = p ++ lit "/" ++ r /\ tree_path q)
  /\ (tree_path p -> forall names, names <> [] -> Forall valid_name names ->
      resolve p (RustStr.join (lit "/") names) = Ok (p ++ (names ≫= fun n => lit "/" ++ n))).
Proof.
  split_and!.
  - intros s q. apply from_string_spec.
  - apply join_spec.
  - apply join_morpheus.
  - intros Hp q. by apply resolve_spec.
  - intros Hp names. by apply resolve_names.
Qed.

End AgentPathFacts.

(** ** registry.rs *)

Module AgentRegistry.
Import AgentPath.

(** A thread's identifier is the text of its UUID. *)
Record AgentMetadata := {
  agent_id : option str;
  agent_path : option str;
  agent_nickname : option str;
  agent_role : option str;
  last_task_message : option str;
}.

Definition no_metadata : AgentMetadata := {|
  agent_id := None; agent_path := None; agent_nickname := None; agent_role := None;
  last_task_message := None
|}.

(** [ActiveAgents], behind the lock, and the atomic counter. *)
Record AgentRegistry := {
  agent_tree : gmap str AgentMetadata;
  used_agent_nicknames : gset str;
  nickname_reset_count : N;
  total_count : N;
}.

Definition default_registry : AgentRegistry := {|
  agent_tree := ∅; used_agent_nicknames := ∅; nickname_reset_count := 0; total_count := 0
|}.

Definition with_tree (tree : gmap str AgentMetadata) (r : AgentRegistry) : AgentRegistry := {|
  agent_tree := tree; used_agent_nicknames := used_agent_nicknames r;
  nickname_reset_count := nickname_reset_count r; total_count := total_count r
|}.

Definition with_nicknames (used : gset str) (resets : N) (r : AgentRegistry) : AgentRegistry := {|
  agent_tree := agent_tree r; used_agent_nicknames := used;
  nickname_reset_count := resets; total_count := total_count r
|}.

Definition with_count (n : N) (r : AgentRegistry) : AgentRegistry := {|
  agent_tree := agent_tree r; used_agent_nicknames := used_agent_nicknames r;
  nickname_reset_count := nickname_reset_count r; total_count := n
|}.

(** *** Nicknames and depth *)

Definition ordinal_suffix (value : N) : str :=
  if ((11 <=? value mod 100) && (value mod 100 <=? 13))%N then lit "th"
  else match (value mod 10)%N with
       | 1%N => lit "st"
       | 2%N => lit "nd"
       | 3%N => lit "rd"
       | _ => lit "th"
       end.

Definition format_agent_nickname (name : str) (nickname_reset_count : N) : str :=
  if (nickname_reset_count =? 0)%N then name
  else
    let value := (nickname_reset_count + 1)%N in
    name ++ lit " the " ++ show_nat (N.to_nat value) ++ ordinal_suffix value.

(** [session_depth] of a source that spawned a thread at a depth, if it is one. *)
Definition session_depth (spawn_depth : option Z) : Z := default 0%Z spawn_depth.

Definition next_thread_spawn_depth (spawn_depth : option Z) : Z :=
  Z.min (2 ^ 31 - 1) (session_depth spawn_depth + 1).

Definition exceeds_thread_spawn_depth_limit (depth max_depth : Z) : bool := (max_depth <? depth)%Z.

(** [choose]: the random number [pick] selects one of the names. *)
Definition choose (pick : nat) (names : list str) : option str := names !! (pick mod length names).

Definition reserve_agent_nickname (pick : nat) (names : list str) (preferred : option str)
    (r : AgentRegistry) : AgentRegistry * option str :=
  let take_name n r :=
    (with_nicknames ({[n]} ∪ used_agent_nicknames r) (nickname_reset_count r) r, Some n) in
  match preferred with
  | Some preferred => take_name preferred r
  | None =>
      match names with
      | [] => (r, None)
      | _ =>
          let available_names :=
            List.filter (fun n => negb (bool_decide (n ∈ used_agent_nicknames r)))
              (map (fun n => format_agent_nickname n (nickname_reset_count r)) names) in
          match choose pick available_names with
          | Some n => take_name n r
          | None =>
              let r := with_nicknames ∅ (nickname_reset_count r + 1) r in
              match choose pick names with
              | Some n => take_name (format_agent_nickname n (nickname_reset_count r)) r
              | None => (r, None)
              end
          end
      end
  end.

(** *** Sections under the lock *)

Definition metadata_is_root (md : AgentMetadata) : bool :=
  match agent_path md with Some path => is_root path | None => false end.

(** The first section of [release_spawned_thread], at the key that the search finds: the
    registry and whether the agent was counted. *)
Definition remove_thread (key : str) (r : AgentRegistry) : AgentRegistry * bool :=
  match agent_tree r !! key with
  | Some md => (with_tree (delete key (agent_tree r)) r, negb (metadata_is_root md))
  | None => (r, false)
  end.

Definition register_root_thread (thread_id : str) (r : AgentRegistry) : AgentRegistry :=
  match agent_tree r !! ROOT with
  | Some _ => r
  | None =>
      with_tree (<[ROOT := {| agent_id := Some thread_id; agent_path := Some ROOT; agent_nickname := None;
                              agent_role := None; last_task_message := None |}]> (agent_tree r)) r
  end.

Definition agent_id_for_path (path : str) (r : AgentRegistry) : option str :=
  md ← agent_tree r !! path; agent_id md.

Definition live_agents (r : AgentRegistry) : list AgentMetadata :=
  List.filter (fun md => match agent_id md with Some _ => negb (metadata_is_root md) | None => false end)
    (map snd (map_to_list (agent_tree r))).

Definition with_message (message : str) (md : AgentMetadata) : AgentMetadata := {|
  agent_id := agent_id md; agent_path := agent_path md; agent_nickname := agent_nickname md;
  agent_role := agent_role md; last_task_message := Some message
|}.

Definition update_last_task_message (key message : str) (r : AgentRegistry) : AgentRegistry :=
  with_tree (alter (with_message message) key (agent_tree r)) r.

Definition registration_key (md : AgentMetadata) (thread_id : str) : str :=
  match agent_path md with Some path => path | None => lit "thread:" ++ thread_id end.

Definition register_spawned_thread (md : AgentMetadata) (r : AgentRegistry) : AgentRegistry :=
  match agent_id md with
  | None => r
  | Some thread_id =>
      let r := match agent_nickname md with
               | Some nickname =>
                   with_nicknames ({[nickname]} ∪ used_agent_nicknames r) (nickname_reset_count r) r
               | None => r
               end in
      with_tree (<[registration_key md thread_id := md]> (agent_tree r)) r
  end.

Definition reserve_agent_path (path : str) (r : AgentRegistry) : result str AgentRegistry :=
  match agent_tree r !! path with
  | Some _ => Err (lit "agent path `" ++ path ++ lit "` already exists")
  | None =>
      Ok (with_tree (<[path := {| agent_id := None; agent_path := Some path; agent_nickname := None;
                                  agent_role := None; last_task_message := None |}]> (agent_tree r)) r)
  end.

Definition release_reserved_agent_path (path : str) (r : AgentRegistry) : AgentRegistry :=
  match agent_tree r !! path with
  | Some md => match agent_id md with None => with_tree (delete path (agent_tree r)) r | Some _ => r end
  | None => r
  end.

(** *** The counter *)

Definition fetch_add (r : AgentRegistry) : AgentRegistry :=
  with_count ((total_count r + 1) mod 2 ^ 64) r.

Definition fetch_sub (r : AgentRegistry) : AgentRegistry :=
  with_count ((total_count r + 2 ^ 64 - 1) mod 2 ^ 64) r.

(** *** Runs

    What a task is about to do: starting an agent, it tries to take a slot (with the count
    that it read last), then holds a [SpawnReservation] with the path it reserved; giving
    a slot back, it is about to lower the counter. *)
Inductive Task :=
| Trying (max_threads : option N) (current : option N)
| Holding (reserved_agent_path : option str)
| Releasing.

(** [replaced] is a count of the proof: the agents whose entry another commit took. *)
Record World := { registry : AgentRegistry; tasks : gmap nat Task; replaced : N }.

Definition start : World := {| registry := default_registry; tasks := ∅; replaced := 0 |}.

Definition with_task (t : nat) (task : Task) (r : AgentRegistry) (w : World) : World :=
  {| registry := r; tasks := <[t := task]> (tasks w); replaced := replaced w |}.

Definition end_task (t : nat) (r : AgentRegistry) (w : World) : World :=
  {| registry := r; tasks := delete t (tasks w); replaced := replaced w |}.

(** An entry is put at a key, maybe in place of a running agent's. *)
Definition note_replaced (key : str) (w : World) : World :=
  {| registry := registry w; tasks := tasks w;
     replaced := replaced w + match agent_tree (registry w) !! key with
                              | Some old => match agent_id old with Some _ => 1 | None => 0 end
                              | None => 0
                              end |}.

Section Steps.
(** The limits that agents are started with. *)
Context (allowed : option N -> Prop).

Inductive step (w : World) : World -> Prop :=
(* [reserve_spawn_slot] *)
| step_spawn t max :
    tasks w !! t = None -> allowed max ->
    step w (with_task t (Trying max None) (registry w) w)
| step_unlimited t :
    tasks w !! t = Some (Trying None None) ->
    step w (with_task t (Holding None) (fetch_add (registry w)) w)
(* [try_increment_spawned]: the load, a refusal, the exchange and its failure *)
| step_load t max :
    tasks w !! t = Some (Trying (Some max) None) ->
    step w (with_task t (Trying (Some max) (Some (total_count (registry w)))) (registry w) w)
| step_refuse t max current :
    tasks w !! t = Some (Trying (Some max) (Some current)) -> (max <= current)%N ->
    step w (end_task t (registry w) w)
| step_exchange t max current :
    tasks w !! t = Some (Trying (Some max) (Some current)) -> (current < max)%N ->
    total_count (registry w) = current ->
    step w (with_task t (Holding None) (with_count ((current + 1) mod 2 ^ 64) (registry w)) w)
| step_exchange_fails t max current :
    tasks w !! t = Some (Trying (Some max) (Some current)) -> (current < max)%N ->
    step w (with_task t (Trying (Some max) (Some (total_count (registry w)))) (registry w) w)
(* the calls on a reservation: one path for each, not the root *)
| step_reserve_path t path r :
    tasks w !! t = Some (Holding None) -> from_string path = Ok path -> is_root path = false ->
    reserve_agent_path path (registry w) = Ok r ->
    step w (with_task t (Holding (Some path)) r w)
| step_reserve_nickname t reserved pick names preferred :
    tasks w !! t = Some (Holding reserved) ->
    step w {| registry := (reserve_agent_nickname pick names preferred (registry w)).1; tasks := tasks w; replaced := replaced w |}
(* [commit]: with the reserved path, if any; else under the thread, which may be
   registered already *)
| step_commit t reserved md thread_id :
    tasks w !! t = Some (Holding reserved) ->
    agent_id md = Some thread_id -> agent_path md = reserved ->
    step w (end_task t (register_spawned_thread md (registry w))
              (note_replaced (registration_key md thread_id) w))
(* [drop] *)
| step_drop t reserved :
    tasks w !! t = Some (Holding reserved) ->
    step w (with_task t Releasing
              (match reserved with
               | Some path => release_reserved_agent_path path (registry w)
               | None => registry w
               end) w)
| step_sub t :
    tasks w !! t = Some Releasing -> step w (end_task t (fetch_sub (registry w)) w)
(* [release_spawned_thread] *)
| step_release t key md thread_id :
    tasks w !! t = None -> agent_tree (registry w) !! key = Some md -> agent_id md = Some thread_id ->
    step w (let '(r, counted) := remove_thread key (registry w) in
            if counted then with_task t Releasing r w else {| registry := r; tasks := tasks w; replaced := replaced w |})
(* the rest *)
| step_register_root thread_id :
    step w {| registry := register_root_thread thread_id (registry w); tasks := tasks w; replaced := replaced w |}
| step_message key message :
    step w {| registry := update_last_task_message key message (registry w); tasks := tasks w; replaced := replaced w |}.

Inductive reachable : World -> Prop :=
| reachable_start : reachable start
| reachable_step w w' : reachable w -> step w w' -> reachable w'.

End Steps.
End AgentRegistry.

(** * Facts about the registry *)

Module AgentRegistryFacts.
Import AgentPath AgentRegistry.

(** ** Sums over a map *)

Definition weight {K A} `{Countable K} (f : A -> N) (m : gmap K A) : N :=
  map_fold (fun _ x n => f x + n)%N 0%N m.

Section Weight.
Context {K A : Type} `{Countable K} (f : A -> N).

Lemma weight_empty : weight f (∅ : gmap K A) = 0%N.
Proof. apply map_fold_empty. Qed.

Lemma weight_insert (m : gmap K A) k x :
  m !! k = None -> weight f (<[k := x]> m) = (f x + weight f m)%N.
Proof. intros Hk. unfold weight. rewrite map_fold_insert_L; [done|intros; lia|done]. Qed.

Lemma weight_delete (m : gmap K A) k x :
  m !! k = Some x -> weight f m = (f x + weight f (delete k m))%N.
Proof. intros Hk. unfold weight. rewrite (map_fold_delete_L _ _ k x m); [done|intros; lia|done]. Qed.

Lemma weight_update (m : gmap K A) k x y :
  m !! k = Some x -> (weight f (<[k := y]> m) + f x = f y + weight f m)%N.
Proof.
  intros Hk. rewrite <- (insert_delete_eq m k y), weight_insert by apply lookup_delete_eq.
  rewrite (weight_delete m k x Hk). lia.
Qed.
End Weight.

(** ** The invariant *)

(** Agents that count against the limit: started ones, except the root. *)
Definition counted (md : AgentMetadata) : N :=
  match agent_id md with Some _ => if metadata_is_root md then 0 else 1 | None => 0 end.

(** Tasks that hold a slot. *)
Definition slots (task : Task) : N :=
  match task with Trying _ _ => 0 | Holding _ | Releasing => 1 end.

Definition in_use (w : World) : N :=
  weight counted (agent_tree (registry w)) + weight slots (tasks w) + replaced w.

(** An entry of the tree is reserved by one task, or it is a started agent under its key. *)
Definition entry_ok (w : World) (key : str) (md : AgentMetadata) : Prop :=
  match agent_id md with
  | None => agent_path md = Some key /\ (is_root key = false /\ starts_with (lit "/") key = true)
            /\ exists t, tasks w !! t = Some (Holding (Some key))
  | Some id => key = registration_key md id
  end.

Record well_kept (w : World) : Prop := {
  entries_ok key md : agent_tree (registry w) !! key = Some md -> entry_ok w key md;
  reserved_ok t path : tasks w !! t = Some (Holding (Some path)) ->
    exists md, agent_tree (registry w) !! path = Some md /\ agent_id md = None;
  reserved_once t t' path : tasks w !! t = Some (Holding (Some path)) ->
    tasks w !! t' = Some (Holding (Some path)) -> t = t';
  count_ok : total_count (registry w) = (in_use w mod 2 ^ 64)%N;
}.

(** With a limit for every start, and no more than a counter can hold. *)
Definition below (limit : N) (max : option N) : Prop := exists m, max = Some m /\ (m <= limit)%N.

Definition limited (limit : N) (w : World) : Prop :=
  (in_use w <= limit)%N
  /\ forall t max current, tasks w !! t = Some (Trying max current) -> below limit max.

Lemma fetch_sub_count n : (0 < n)%N -> ((n mod 2 ^ 64 + 2 ^ 64 - 1) mod 2 ^ 64 = (n - 1) mod 2 ^ 64)%N.
Proof.
  intros Hn. assert (HM : (0 < 2 ^ 64)%N) by done. revert HM. generalize (2 ^ 64)%N. intros M HM.
  assert (Ha : forall a, (a + M - 1 = a + (M - 1))%N) by (intros; lia). rewrite Ha.
  rewrite N.Div0.add_mod_idemp_l. replace (n + (M - 1))%N with (n - 1 + 1 * M)%N by lia.
  apply N.Div0.mod_add.
Qed.

Lemma tree_nicknames r u n : agent_tree (with_nicknames u n r) = agent_tree r.
Proof. done. Qed.

Lemma reserve_nickname_keeps pick names preferred r :
  agent_tree (reserve_agent_nickname pick names preferred r).1 = agent_tree r
  /\ total_count (reserve_agent_nickname pick names preferred r).1 = total_count r.
Proof. unfold reserve_agent_nickname. by repeat case_match. Qed.

(** A task that neither holds nor reserved a path changes only its own slot. *)
Lemma keep_entries (w w' : World) :
  agent_tree (registry w') = agent_tree (registry w) ->
  (forall t path, tasks w' !! t = Some (Holding (Some path)) <-> tasks w !! t = Some (Holding (Some path))) ->
  total_count (registry w') = (in_use w' mod 2 ^ 64)%N ->
  well_kept w -> well_kept w'.
Proof.
  intros Ht Hh Hc [He Hr Ho _]. split; [|setoid_rewrite Hh; setoid_rewrite Ht; done| |done].
  - intros key md Hk. rewrite Ht in Hk. apply He in Hk. unfold entry_ok in *.
    destruct (agent_id md); [done|]. by setoid_rewrite Hh.
  - intros t t' path Hp Hp'. apply Hh in Hp, Hp'. by eapply Ho.
Qed.

Definition reserves (task : option Task) (path : str) : Prop := task = Some (Holding (Some path)).

(** A step of a task that reserves no path before and after it and leaves the tree alone. *)
Lemma well_kept_task (w : World) t old task r :
  tasks w !! t = old -> (forall p, ~ reserves old p) ->
  (forall p, ~ reserves task p) -> agent_tree r = agent_tree (registry w) ->
  let w' := {| registry := r; tasks := match task with
                                       | Some task => <[t := task]> (tasks w)
                                       | None => delete t (tasks w)
                                       end; replaced := replaced w |} in
  total_count r = (in_use w' mod 2 ^ 64)%N -> well_kept w -> well_kept w'.
Proof.
  intros Ho Hold Hnew Htree w' Hc. apply keep_entries; [done| |done].
  intros t' path. unfold w'. cbn [tasks]. unfold reserves in *.
  destruct (decide (t' = t)) as [->|Hne]; destruct task as [task|];
    rewrite ?lookup_insert_eq, ?lookup_delete_eq, ?lookup_insert_ne, ?lookup_delete_ne by done;
    split; intros H; try done; exfalso; rewrite ?Ho in H; [by apply (Hnew path)|..]; by apply (Hold path).
Qed.

Lemma in_use_task (w : World) t old task r :
  tasks w !! t = Some old -> agent_tree r = agent_tree (registry w) ->
  (in_use {| registry := r; tasks := <[t := task]> (tasks w); replaced := replaced w |} + slots old = in_use w + slots task)%N.
Proof.
  intros Ho Ht. unfold in_use. cbn [registry tasks replaced]. rewrite Ht.
  pose proof (weight_update slots (tasks w) t old task Ho). lia.
Qed.

Lemma in_use_end (w : World) t old r :
  tasks w !! t = Some old -> agent_tree r = agent_tree (registry w) ->
  (in_use {| registry := r; tasks := delete t (tasks w); replaced := replaced w |} + slots old = in_use w)%N.
Proof.
  intros Ho Ht. unfold in_use. cbn [registry tasks replaced]. rewrite Ht.
  pose proof (weight_delete slots (tasks w) t old Ho). lia.
Qed.

Lemma from_string_slash (path : str) :
  from_string path = Ok path -> starts_with (lit "/") path = true.
Proof. intros [_ [->|(names & _ & ->)]]%AgentPathFacts.from_string_spec; done. Qed.

Lemma well_kept_reserve (w : World) t path r :
  tasks w !! t = Some (Holding None) -> from_string path = Ok path -> is_root path = false ->
  reserve_agent_path path (registry w) = Ok r -> well_kept w ->
  well_kept (with_task t (Holding (Some path)) r w).
Proof.
  unfold reserve_agent_path. intros Ht Hpath%from_string_slash Hroot Hr [He Hres Honce Hc].
  destruct (agent_tree (registry w) !! path) eqn:Hp; [done|]. injection Hr as <-.
  split; cbn [with_task registry tasks with_tree agent_tree].
  - intros key md. destruct (decide (key = path)) as [->|Hne].
    + rewrite lookup_insert_eq. intros [= <-]. split; [done|]. split; [done|].
      exists t. apply lookup_insert_eq.
    + rewrite lookup_insert_ne by done. intros Hk. apply He in Hk. unfold entry_ok in *.
      destruct (agent_id md); [done|]. destruct Hk as (H1 & H2 & t' & Ht'). split; [done|]. split; [done|].
      exists t'. cbn. rewrite lookup_insert_ne; [done|]. intros ->. congruence.
  - intros t' path' Ht'. destruct (decide (t' = t)) as [->|Hne].
    + rewrite lookup_insert_eq in Ht'. injection Ht' as <-. rewrite lookup_insert_eq. by eexists.
    + rewrite lookup_insert_ne in Ht' by done. destruct (Hres t' path' Ht') as (md & Hmd & Hid).
      exists md. rewrite lookup_insert_ne; [done|]. intros ->. congruence.
  - assert (Hother : forall t', tasks w !! t' = Some (Holding (Some path)) -> False).
    { intros t' Ht'. destruct (Hres t' path Ht') as (md & Hmd & _). congruence. }
    intros t1 t2 path' H1 H2. destruct (decide (t1 = t)) as [->|H1t], (decide (t2 = t)) as [->|H2t]; [done|..].
    + rewrite lookup_insert_eq in H1. injection H1 as <-. rewrite lookup_insert_ne in H2 by done.
      by destruct (Hother t2).
    + rewrite lookup_insert_eq in H2. injection H2 as <-. rewrite lookup_insert_ne in H1 by done.
      by destruct (Hother t1).
    + rewrite lookup_insert_ne in H1, H2 by done. by eapply Honce.
  - cbn. rewrite Hc. f_equal. unfold in_use. cbn.
    rewrite weight_insert by done. pose proof (weight_update slots (tasks w) t _ (Holding (Some path)) Ht).
    cbn in *. lia.
Qed.

(** A thread without a path is registered under a key that no path is. *)
Lemma thread_key (md : AgentMetadata) (id key : str) :
  agent_path md = None -> key = registration_key md id ->
  starts_with (lit "/") key = false /\ is_root key = false.
Proof. unfold registration_key. by intros -> ->. Qed.

Section Commit.
Context (w : World) (t : nat) (reserved : option str) (md : AgentMetadata) (thread_id : str).
Context (Ht : tasks w !! t = Some (Holding reserved)).
Context (Hid : agent_id md = Some thread_id) (Hpath : agent_path md = reserved) (Hw : well_kept w).

Let key : str := registration_key md thread_id.

Lemma commit_registry :
  exists u, register_spawned_thread md (registry w)
    = with_tree (<[key := md]> (agent_tree (registry w)))
        (with_nicknames u (nickname_reset_count (registry w)) (registry w)).
Proof.
  unfold register_spawned_thread. rewrite Hid. destruct (agent_nickname md); eexists; [done|].
  by instantiate (1 := used_agent_nicknames (registry w)); destruct (registry w).
Qed.

(** Nobody else has reserved the key. *)
Lemma commit_key (t' : nat) (path : str) :
  tasks w !! t' = Some (Holding (Some path)) -> t' <> t -> path <> key.
Proof.
  destruct Hw as [He Hres Honce _]. intros Ht' Hne ->. destruct reserved as [path|].
  - apply Hne. apply (Honce t' t key); [done|]. rewrite Ht. unfold key, registration_key. by rewrite Hpath.
  - destruct (Hres t' key Ht') as (md' & Hmd' & Hno). apply He in Hmd'. unfold entry_ok in Hmd'.
    rewrite Hno in Hmd'. destruct Hmd' as (_ & [_ Hslash] & _).
    destruct (thread_key md thread_id key Hpath eq_refl). congruence.
Qed.

Lemma commit_in_use (r : AgentRegistry) :
  agent_tree r = <[key := md]> (agent_tree (registry w)) ->
  in_use (end_task t r (note_replaced key w)) = in_use w.
Proof.
  destruct Hw as [He Hres _ _]. intros Htree. unfold in_use. cbn. rewrite Htree.
  pose proof (weight_delete slots (tasks w) t _ Ht) as Hd. cbn in Hd.
  assert (Hnew : metadata_is_root md = false -> counted md = 1%N)
    by (unfold counted; by rewrite Hid; intros ->).
  destruct reserved as [path|].
  - assert (key = path) as -> by (unfold key, registration_key; by rewrite Hpath).
    destruct (Hres t path Ht) as (old & Hold & Hoid). rewrite Hold, Hoid.
    pose proof (weight_update counted _ path old md Hold) as Hu.
    assert (counted old = 0%N) as Ho by (unfold counted; by rewrite Hoid).
    pose proof (He path old Hold) as Hok. unfold entry_ok in Hok. rewrite Hoid in Hok.
    destruct Hok as (_ & [Hr _] & _). rewrite Hnew in Hu by (unfold metadata_is_root; by rewrite Hpath). lia.
  - destruct (thread_key md thread_id key Hpath eq_refl) as [Hslash Hroot].
    specialize (Hnew ltac:(unfold metadata_is_root; by rewrite Hpath)).
    destruct (agent_tree (registry w) !! key) as [old|] eqn:Hold; [|rewrite weight_insert by done; lia].
    pose proof (weight_update counted _ key old md Hold) as Hu.
    pose proof (He key old Hold) as Hok. unfold entry_ok in Hok.
    destruct (agent_id old) as [oid|] eqn:Hoid; [|destruct Hok as (_ & [_ ?] & _); congruence].
    assert (counted old = 1%N); [|lia]. unfold counted, metadata_is_root. rewrite Hoid.
    unfold registration_key in Hok. destruct (agent_path old) as [p|]; [|done]. subst p. by rewrite Hroot.
Qed.

Lemma well_kept_commit :
  let w' := end_task t (register_spawned_thread md (registry w)) (note_replaced key w) in
  well_kept w' /\ in_use w' = in_use w.
Proof.
  destruct commit_registry as [u ->]. pose proof Hw as [He Hres Honce Hc]. pose proof commit_key as Hkey.
  set (r := with_tree _ _). pose proof (commit_in_use r eq_refl) as Hsame.
  split; [|done]. split; [..|by rewrite Hsame];
    cbn [end_task note_replaced registry tasks with_tree agent_tree with_nicknames r].
  - intros k m. destruct (decide (k = key)) as [->|Hne].
    + rewrite lookup_insert_eq. intros [= <-]. unfold entry_ok. by rewrite Hid.
    + rewrite lookup_insert_ne by done. intros Hk. apply He in Hk. unfold entry_ok in *.
      destruct (agent_id m); [done|]. destruct Hk as (H1 & H2 & t' & Ht'). split; [done|]. split; [done|].
      exists t'. cbn. rewrite lookup_delete_ne; [done|]. intros <-. apply Hne.
      rewrite Ht in Ht'. injection Ht' as Hreserved. unfold key, registration_key. by rewrite Hpath, Hreserved.
  - intros t' path' Ht'. destruct (decide (t' = t)) as [->|Hne]; [by rewrite lookup_delete_eq in Ht'|].
    rewrite lookup_delete_ne in Ht' by done. destruct (Hres t' path' Ht') as (m & Hm & Hi).
    exists m. rewrite lookup_insert_ne; [done|]. intros Hk. by apply (Hkey t' path').
  - intros t1 t2 path' H1 H2. apply lookup_delete_Some in H1 as [_ H1], H2 as [_ H2]. by eapply Honce.
Qed.

End Commit.

Lemma release_path_tree path r md :
  agent_tree r !! path = Some md -> agent_id md = None ->
  release_reserved_agent_path path r = with_tree (delete path (agent_tree r)) r.
Proof. unfold release_reserved_agent_path. by intros -> ->. Qed.

Lemma well_kept_drop (w : World) t path :
  tasks w !! t = Some (Holding (Some path)) -> well_kept w ->
  let w' := with_task t Releasing (release_reserved_agent_path path (registry w)) w in
  well_kept w' /\ in_use w' = in_use w.
Proof.
  intros Ht [He Hres Honce Hc]. destruct (Hres t path Ht) as (md & Hmd & Hid).
  rewrite (release_path_tree path _ md) by done.
  assert (Hsame : in_use (with_task t Releasing (with_tree (delete path (agent_tree (registry w))) (registry w)) w)
                  = in_use w).
  { unfold in_use. cbn. pose proof (weight_delete counted _ path md Hmd) as Hw.
    pose proof (weight_update slots (tasks w) t _ Releasing Ht) as Hu. cbn in Hu.
    assert (counted md = 0%N) by (unfold counted; by rewrite Hid). lia. }
  split; [|done]. split; [..|by rewrite Hsame]; cbn [with_task registry tasks with_tree agent_tree].
  - intros k m (Hne & Hk)%lookup_delete_Some. apply He in Hk. unfold entry_ok in *.
    destruct (agent_id m); [done|]. destruct Hk as (H1 & H2 & t' & Ht'). split; [done|]. split; [done|].
    exists t'. cbn. rewrite lookup_insert_ne; [done|]. intros <-. congruence.
  - intros t' path' Ht'. destruct (decide (t' = t)) as [->|Hne]; [by rewrite lookup_insert_eq in Ht'|].
    rewrite lookup_insert_ne in Ht' by done. destruct (Hres t' path' Ht') as (m & Hm & Hi).
    exists m. rewrite lookup_delete_ne; [done|]. intros <-. by apply Hne, (Honce t' t path).
  - intros t1 t2 path' H1 H2. apply lookup_insert_Some in H1 as [[_ ?]|[_ H1]], H2 as [[_ ?]|[_ H2]]; try done.
    by eapply Honce.
Qed.

(** Another entry put at, or taken from, a key whose entry is a started agent's or none. *)
Lemma well_kept_entry (w w' : World) (key : str) :
  (forall k, k <> key -> agent_tree (registry w') !! k = agent_tree (registry w) !! k) ->
  (forall md, agent_tree (registry w) !! key = Some md -> agent_id md <> None) ->
  (forall md, agent_tree (registry w') !! key = Some md -> exists id, agent_id md = Some id /\ key = registration_key md id) ->
  (forall t path, tasks w' !! t = Some (Holding (Some path)) <-> tasks w !! t = Some (Holding (Some path))) ->
  total_count (registry w') = (in_use w' mod 2 ^ 64)%N ->
  well_kept w -> well_kept w'.
Proof.
  intros Hother Hold Hnew Hh Hc' [He Hres Honce _]. split; [| | |done].
  - intros k md Hk. destruct (decide (k = key)) as [->|Hne].
    + destruct (Hnew md Hk) as (id & Hid & ?). unfold entry_ok. by rewrite Hid.
    + rewrite Hother in Hk by done. apply He in Hk. unfold entry_ok in *.
      destruct (agent_id md); [done|]. by setoid_rewrite Hh.
  - intros t path Ht%Hh. destruct (Hres t path Ht) as (md & Hmd & Hid).
    exists md. rewrite Hother; [done|]. intros ->. by apply (Hold md).
  - intros t t' path Ht Ht'. apply Hh in Ht, Ht'. by eapply Honce.
Qed.

Lemma well_kept_release (w : World) t key md thread_id :
  tasks w !! t = None -> agent_tree (registry w) !! key = Some md -> agent_id md = Some thread_id ->
  well_kept w ->
  let w' := let '(r, counted) := remove_thread key (registry w) in
            if counted then with_task t Releasing r w else {| registry := r; tasks := tasks w; replaced := replaced w |} in
  well_kept w' /\ in_use w' = in_use w.
Proof.
  intros Ht Hk Hid Hw. pose proof Hw as [_ _ _ Hc]. unfold remove_thread. rewrite Hk.
  pose proof (weight_delete counted _ key md Hk) as Hd.
  assert (Hcm : counted md = if metadata_is_root md then 0%N else 1%N) by (unfold counted; by rewrite Hid).
  destruct (metadata_is_root md) eqn:Hroot; cbn [negb].
  - set (w' := {| registry := _; tasks := tasks w; replaced := replaced w |}).
    assert (Hsame : in_use w' = in_use w) by (unfold in_use, w'; cbn; lia).
    split; [|done]. apply (well_kept_entry w w' key); cbn; try done.
    + intros k Hne. by rewrite lookup_delete_ne.
    + intros md' Hmd'. congruence.
    + intros md'. by rewrite lookup_delete_eq.
    + by rewrite Hsame.
  - set (w' := with_task t Releasing _ w).
    assert (Hsame : in_use w' = in_use w).
    { unfold in_use, w'. cbn. rewrite weight_insert by done. cbn. lia. }
    split; [|done]. apply (well_kept_entry w w' key); cbn; try done.
    + intros k Hne. by rewrite lookup_delete_ne.
    + intros md' Hmd'. congruence.
    + intros md'. by rewrite lookup_delete_eq.
    + intros t' path. destruct (decide (t' = t)) as [->|Hne].
      * rewrite lookup_insert_eq, Ht. done.
      * by rewrite lookup_insert_ne.
    + by rewrite Hsame.
Qed.

Lemma well_kept_root (w : World) thread_id :
  well_kept w ->
  let w' := {| registry := register_root_thread thread_id (registry w); tasks := tasks w; replaced := replaced w |} in
  well_kept w' /\ in_use w' = in_use w.
Proof.
  intros Hw. pose proof Hw as [_ _ _ Hc]. unfold register_root_thread.
  destruct (agent_tree (registry w) !! ROOT) eqn:Hk; [by destruct w|].
  set (w' := {| registry := _; tasks := tasks w; replaced := replaced w |}).
  assert (Hsame : in_use w' = in_use w) by (unfold in_use, w'; cbn; by rewrite weight_insert).
  split; [|done]. apply (well_kept_entry w w' ROOT); cbn; try done.
  - intros k Hne. by rewrite lookup_insert_ne.
  - intros md'. congruence.
  - intros md'. rewrite lookup_insert_eq. intros [= <-]. by eexists.
  - by rewrite Hsame.
Qed.

Lemma well_kept_message (w : World) key message :
  well_kept w ->
  let w' := {| registry := update_last_task_message key message (registry w); tasks := tasks w; replaced := replaced w |} in
  well_kept w' /\ in_use w' = in_use w.
Proof.
  intros [He Hres Honce Hc]. unfold update_last_task_message.
  set (tree := agent_tree (registry w)) in *. set (w' := {| registry := _; tasks := tasks w; replaced := replaced w |}).
  assert (Hlook : forall k md', alter (with_message message) key tree !! k = Some md' ->
    exists md, tree !! k = Some md /\ agent_id md' = agent_id md /\ agent_path md' = agent_path md).
  { intros k md'. destruct (decide (k = key)) as [->|Hne].
    - rewrite lookup_alter_eq. destruct (tree !! key) as [md|]; [|done]. intros [= <-]. by exists md.
    - rewrite lookup_alter_ne by done. intros H. by exists md'. }
  assert (Hsame : in_use w' = in_use w).
  { unfold in_use, w'. cbn. f_equal. f_equal. fold tree. destruct (tree !! key) as [md|] eqn:Hk.
    - assert (alter (with_message message) key tree = <[key := with_message message md]> tree) as ->.
      { apply map_eq. intros k. destruct (decide (k = key)) as [->|Hne].
        - by rewrite lookup_alter_eq, lookup_insert_eq, Hk.
        - by rewrite lookup_alter_ne, lookup_insert_ne. }
      pose proof (weight_update counted tree key md (with_message message md) Hk) as Hu.
      assert (counted (with_message message md) = counted md) by done. lia.
    - f_equal. apply map_eq. intros k. destruct (decide (k = key)) as [->|Hne].
      + by rewrite lookup_alter_eq, Hk.
      + by rewrite lookup_alter_ne. }
  split; [|done]. split; [..|by rewrite Hsame]; cbn.
  - intros k md' (md & Hmd & Hid & Hpath)%Hlook. apply He in Hmd. unfold entry_ok, registration_key in *.
    by rewrite Hid, Hpath.
  - intros t path Ht. destruct (Hres t path Ht) as (md & Hmd & Hid).
    destruct (decide (path = key)) as [->|Hne].
    + exists (with_message message md). split; [|done]. fold tree. by rewrite lookup_alter_eq, Hmd.
    + exists md. split; [|done]. fold tree. by rewrite lookup_alter_ne.
  - done.
Qed.

(** ** Every step *)

(** What a step does to the number of slots in use. *)
Definition takes_slot (w : World) : Prop :=
  (exists t, tasks w !! t = Some (Trying None None))
  \/ exists t max, tasks w !! t = Some (Trying (Some max) (Some (total_count (registry w))))
       /\ (total_count (registry w) < max)%N.

Lemma mod_add_1 n : ((n mod 2 ^ 64 + 1) mod 2 ^ 64 = (n + 1) mod 2 ^ 64)%N.
Proof. by rewrite N.Div0.add_mod_idemp_l. Qed.

Lemma well_kept_same_count (w : World) t old task r :
  tasks w !! t = Some old -> (forall p, old <> Holding (Some p)) -> (forall p, task <> Holding (Some p)) ->
  agent_tree r = agent_tree (registry w) ->
  total_count r = ((in_use w + slots task - slots old) mod 2 ^ 64)%N ->
  well_kept w ->
  well_kept {| registry := r; tasks := <[t := task]> (tasks w); replaced := replaced w |}
  /\ (in_use {| registry := r; tasks := <[t := task]> (tasks w); replaced := replaced w |} = in_use w + slots task - slots old)%N.
Proof.
  intros Ht Hold Hnew Htree Hc Hw. pose proof (in_use_task w t old task r Ht Htree) as Hu.
  assert (He : (in_use {| registry := r; tasks := <[t := task]> (tasks w); replaced := replaced w |} = in_use w + slots task - slots old)%N) by lia.
  split; [|done]. apply (well_kept_task w t (Some old) (Some task) r); try done.
  - intros p. unfold reserves. naive_solver.
  - intros p. unfold reserves. naive_solver.
  - by rewrite He.
Qed.

Lemma well_kept_end (w : World) t old r :
  tasks w !! t = Some old -> (forall p, old <> Holding (Some p)) ->
  agent_tree r = agent_tree (registry w) ->
  total_count r = ((in_use w - slots old) mod 2 ^ 64)%N ->
  well_kept w ->
  well_kept (end_task t r w) /\ (in_use (end_task t r w) = in_use w - slots old)%N.
Proof.
  intros Ht Hold Htree Hc Hw. pose proof (in_use_end w t old r Ht Htree) as Hu.
  assert (He : (in_use (end_task t r w) = in_use w - slots old)%N) by (unfold end_task; lia).
  split; [|done]. apply (well_kept_task w t (Some old) None r); try done.
  - intros p. unfold reserves. naive_solver.
  - unfold end_task in He. by rewrite He.
Qed.

Lemma slot_in_use (w : World) t task :
  tasks w !! t = Some task -> (slots task <= in_use w)%N.
Proof. intros Ht. unfold in_use. rewrite (weight_delete slots _ t task Ht). lia. Qed.

Lemma step_kept (allowed : option N -> Prop) (w w' : World) :
  well_kept w -> step allowed w w' ->
  well_kept w' /\ ((in_use w' <= in_use w)%N \/ (takes_slot w /\ in_use w' = in_use w + 1)%N).
Proof.
  intros Hw Hs. pose proof (count_ok _ Hw) as Hc.
  destruct Hs as [t max Ht _|t Ht|t max Ht|t max current Ht Hle|t max current Ht Hlt <-|t max current Ht Hlt
    |t path r Ht Hfrom Hroot Hr|t reserved pick names preferred Ht|t reserved md id Ht Hid Hpath
    |t reserved Ht|t Ht|t key md id Ht Hk Hid|id|key message].
  - assert (He : in_use (with_task t (Trying max None) (registry w) w) = in_use w).
    { unfold in_use, with_task. cbn. by rewrite weight_insert. }
    split; [|left; lia]. apply (well_kept_task w t None (Some (Trying max None)) (registry w)); try done.
    unfold with_task in He. by rewrite He.
  - destruct (well_kept_same_count w t _ (Holding None) (fetch_add (registry w)) Ht) as [H1 H2]; try done.
    { unfold fetch_add. cbn. rewrite Hc, mod_add_1. f_equal. lia. }
    split; [done|]. right. split; [left; by exists t|]. unfold with_task. rewrite H2. cbn. lia.
  - destruct (well_kept_same_count w t _ (Trying (Some max) (Some (total_count (registry w)))) (registry w) Ht)
      as [H1 H2]; try done; [cbn; rewrite Hc; f_equal; lia|].
    split; [done|]. left. unfold with_task. rewrite H2. cbn. lia.
  - destruct (well_kept_end w t _ (registry w) Ht) as [H1 H2]; try done; [cbn; rewrite Hc; f_equal; lia|].
    split; [done|]. left. rewrite H2. lia.
  - destruct (well_kept_same_count w t _ (Holding None)
                (with_count ((total_count (registry w) + 1) mod 2 ^ 64) (registry w)) Ht) as [H1 H2]; try done.
    { cbn. rewrite Hc, mod_add_1. f_equal. lia. }
    split; [done|]. right. split; [right; by exists t, max|]. unfold with_task. rewrite H2. cbn. lia.
  - destruct (well_kept_same_count w t _ (Trying (Some max) (Some (total_count (registry w)))) (registry w) Ht)
      as [H1 H2]; try done; [cbn; rewrite Hc; f_equal; lia|].
    split; [done|]. left. unfold with_task. rewrite H2. cbn. lia.
  - split; [by apply well_kept_reserve|]. left.
    unfold reserve_agent_path in Hr. destruct (agent_tree (registry w) !! path) eqn:Hp; [done|].
    injection Hr as <-. unfold in_use. cbn. rewrite weight_insert by done.
    pose proof (weight_update slots (tasks w) t _ (Holding (Some path)) Ht). cbn in *. lia.
  - destruct (reserve_nickname_keeps pick names preferred (registry w)) as [Htree Hcount].
    split; [|left; unfold in_use; cbn; rewrite Htree; lia].
    apply (keep_entries w); [done|done| |done]. unfold in_use in *. cbn. by rewrite Hcount, Htree.
  - destruct (well_kept_commit w t reserved md id Ht Hid Hpath Hw) as [H1 H2]. split; [done|]. left. lia.
  - destruct reserved as [path|].
    + destruct (well_kept_drop w t path Ht Hw) as [H1 H2]. split; [done|]. left. lia.
    + destruct (well_kept_same_count w t _ Releasing (registry w) Ht) as [H1 H2]; try done.
      { cbn. rewrite Hc. f_equal. lia. }
      split; [done|]. left. unfold with_task. rewrite H2. cbn. lia.
  - pose proof (slot_in_use w t _ Ht) as Hpos. cbn in Hpos.
    destruct (well_kept_end w t _ (fetch_sub (registry w)) Ht) as [H1 H2]; try done.
    { unfold fetch_sub. cbn. rewrite Hc. apply fetch_sub_count. lia. }
    split; [done|]. left. rewrite H2. lia.
  - destruct (well_kept_release w t key md id Ht Hk Hid Hw) as [H1 H2]. split; [done|]. left. lia.
  - destruct (well_kept_root w id Hw) as [H1 H2]. split; [done|]. left. lia.
  - destruct (well_kept_message w key message Hw) as [H1 H2]. split; [done|]. left. lia.
Qed.

Lemma reachable_kept (allowed : option N -> Prop) (w : World) : reachable allowed w -> well_kept w.
Proof.
  induction 1 as [|w w' _ IH Hs]; [|by eapply step_kept].
  by split.
Qed.

Lemma reachable_trying (allowed : option N -> Prop) (w : World) :
  reachable allowed w -> forall t max current, tasks w !! t = Some (Trying max current) -> allowed max.
Proof.
  induction 1 as [|w w' _ IH Hs]; [done|]. intros t' max' current' Ht'.
  assert (Hins : forall t task, <[t := task]> (tasks w) !! t' = Some (Trying max' current') ->
    (forall m c, task = Trying m c -> allowed m) -> allowed max').
  { intros t task H Hn. apply lookup_insert_Some in H as [[_ H]|[_ H]]; [by eapply Hn|by eapply IH]. }
  assert (Hdel : forall t, delete t (tasks w) !! t' = Some (Trying max' current') -> allowed max').
  { intros t [_ H]%lookup_delete_Some. by eapply IH. }
  destruct Hs; cbn in Ht';
    try (by eapply Hdel); try (by eapply IH);
    try (eapply Hins; [exact Ht'|]; intros ? ? [= <- <-]; by eauto); try (by eapply Hins).
  unfold remove_thread in Ht'. rewrite H0 in Ht'. destruct (negb _); cbn in Ht'; [by eapply Hins|by eapply IH].
Qed.

Lemma counted_live (r : AgentRegistry) : weight counted (agent_tree r) = N.of_nat (length (live_agents r)).
Proof.
  unfold weight, live_agents. rewrite map_fold_foldr.
  induction (map_to_list (agent_tree r)) as [|[k md] l IH]; [done|]. cbn [foldr map List.filter].
  cbn. rewrite IH. unfold counted. destruct (agent_id md); [|lia].
  destruct (metadata_is_root md); simpl; lia.
Qed.

(** Agents being started or given back, which hold a slot. *)
Definition slots_held (w : World) : N := weight slots (tasks w).

(** ** Properties *)

(** C28: However the tasks that start, register and drop agents interleave, the counter is
    the number of agents that run, of tasks that hold a slot, and of the agents whose
    entry a later commit of the same thread took, whose slots are never given back
    ([registered_twice]); and it is no more than the highest limit that agents are started
    with. So when no task is under way and no thread was committed over itself, it counts
    the agents that run; and these and the slots held never exceed the limit. *)
Theorem slots_accounted (limit : N) (w : World) :
  (limit < 2 ^ 64)%N -> reachable (below limit) w ->
  let running := N.of_nat (length (live_agents (registry w))) in
  total_count (registry w) = (running + slots_held w + replaced w)%N
  /\ (total_count (registry w) <= limit)%N
  /\ (tasks w = ∅ -> replaced w = 0%N -> total_count (registry w) = running).
Proof.
  intros Hlimit Hr running.
  assert (Huse : in_use w = (running + slots_held w + replaced w)%N).
  { unfold in_use, slots_held. by rewrite counted_live. }
  assert (Hle : (in_use w <= limit)%N).
  { clear running Huse. induction Hr as [|w w' Hr IH Hs]; [unfold in_use; cbn [registry tasks replaced start default_registry agent_tree]; rewrite !weight_empty; lia|].
    pose proof (reachable_kept _ _ Hr) as Hw.
    destruct (step_kept _ w w' Hw Hs) as [_ [H|[[(t & Ht)|(t & max & Ht & Hlt)] ->]]]; [lia|..].
    - by destruct (reachable_trying _ w Hr _ _ _ Ht) as (m & ? & _).
    - destruct (reachable_trying _ w Hr _ _ _ Ht) as (m & [= <-] & Hm).
      rewrite (count_ok _ Hw), N.mod_small in Hlt by lia. lia. }
  pose proof (count_ok _ (reachable_kept _ _ Hr)) as Hc. rewrite N.mod_small in Hc by lia.
  split_and!; [lia|lia|]. intros Ht H0. rewrite Hc, Huse, H0. unfold slots_held. rewrite Ht, weight_empty. lia.
Qed.

(** A path belongs to one agent or to one reservation: an entry without a thread is that
    of exactly one task, which reserved it under its path, and the others are under the
    path of their thread; so no reservation is left behind when no task is under way. *)
Theorem paths_owned (allowed : option N -> Prop) (w : World) (key : str) (md : AgentMetadata) :
  reachable allowed w -> agent_tree (registry w) !! key = Some md ->
  match agent_id md with
  | Some id => key = registration_key md id
  | None => agent_path md = Some key
            /\ exists t, tasks w !! t = Some (Holding (Some key))
                 /\ forall t', tasks w !! t' = Some (Holding (Some key)) -> t' = t
  end
  /\ (tasks w = ∅ -> agent_id md <> None).
Proof.
  intros Hr Hk. destruct (reachable_kept _ _ Hr) as [He _ Honce _]. apply He in Hk.
  unfold entry_ok in Hk. destruct (agent_id md) as [id|]; [done|]. destruct Hk as (Hp & _ & t & Ht).
  split; [|intros Ht0; by rewrite Ht0 in Ht]. split; [done|]. exists t. split; [done|].
  intros t' Ht'. by eapply Honce.
Qed.

(** A task that has just begun to take a slot, and runs alone, ends: it holds the slot, and
    the counter is one higher, if the count is below its limit; else it is refused and the
    counter stays. *)
Theorem slot_taken_alone (allowed : option N -> Prop) (w : World) (t : nat) (max : N) :
  tasks w !! t = Some (Trying (Some max) None) -> (max < 2 ^ 64)%N ->
  exists w', rtc (step allowed) w w' /\
    if (total_count (registry w) <? max)%N
    then tasks w' !! t = Some (Holding None) /\ total_count (registry w') = (total_count (registry w) + 1)%N
    else tasks w' !! t = None /\ registry w' = registry w.
Proof.
  intros Ht Hmax. set (n := total_count (registry w)).
  set (w1 := with_task t (Trying (Some max) (Some n)) (registry w) w).
  assert (H1 : tasks w1 !! t = Some (Trying (Some max) (Some n))) by apply lookup_insert_eq.
  destruct (n <? max)%N eqn:Hlt; [apply N.ltb_lt in Hlt|apply N.ltb_ge in Hlt].
  - eexists. split.
    + eapply rtc_l; [by apply (step_load _ w t max)|]. eapply rtc_l; [|apply rtc_refl].
      apply (step_exchange _ w1 t max n); done.
    + cbn. split; [apply lookup_insert_eq|]. apply N.mod_small. lia.
  - eexists. split.
    + eapply rtc_l; [by apply (step_load _ w t max)|]. eapply rtc_l; [|apply rtc_refl].
      apply (step_refuse _ w1 t max n); done.
    + cbn. split; [apply lookup_delete_eq|done].
Qed.

Lemma choose_Some pick (names : list str) : names <> [] -> exists n, choose pick names = Some n /\ n ∈ names.
Proof.
  intros Hn. unfold choose. destruct (lookup_lt_is_Some_2 names (pick mod length names)) as [n Hl].
  { apply Nat.mod_upper_bound. by destruct names. }
  exists n. split; [done|]. by eapply list_elem_of_lookup_2.
Qed.

(** A nickname from the pool is one that no agent was given since the pool was last used
    up; when all are used, the pool starts again with the next ordinal. *)
Theorem nickname_unused (pick : nat) (names : list str) (r : AgentRegistry) :
  names <> [] ->
  let fresh resets n := exists name, name ∈ names /\ n = format_agent_nickname name resets in
  exists r' n, reserve_agent_nickname pick names None r = (r', Some n)
  /\ ((n ∉ used_agent_nicknames r) /\ fresh (nickname_reset_count r) n
       /\ r' = with_nicknames ({[n]} ∪ used_agent_nicknames r) (nickname_reset_count r) r
      \/ (forall name, name ∈ names -> (format_agent_nickname name (nickname_reset_count r) ∈ used_agent_nicknames r))
       /\ fresh (nickname_reset_count r + 1)%N n
       /\ r' = with_nicknames {[n]} (nickname_reset_count r + 1) r).
Proof.
  intros Hn fresh. unfold reserve_agent_nickname. set (available := List.filter _ _).
  assert (Hm : forall A (a b : A), match names with [] => a | _ => b end = b) by (by destruct names).
  rewrite Hm. clear Hm.
  assert (Hav : forall n, n ∈ available <-> (n ∉ used_agent_nicknames r) /\ fresh (nickname_reset_count r) n).
  { intros n. unfold available. rewrite list_elem_of_In, List.filter_In, in_map_iff, negb_true_iff, bool_decide_eq_false.
    split.
    - intros [(m & <- & Hm) Hu]. split; [done|]. exists m. split; [by apply list_elem_of_In|done].
    - intros [Hu (m & Hm & ->)]. split; [|done]. exists m. split; [done|by apply list_elem_of_In]. }
  destruct available as [|a l] eqn:Ha.
  - destruct (choose_Some pick names Hn) as (m & Hc & Hm). cbn. rewrite Hc. eexists _, _. split; [done|]. right.
    split; [|split; [by exists m|]].
    + intros name Hname. destruct (decide (format_agent_nickname name (nickname_reset_count r) ∈ used_agent_nicknames r));
        [done|]. exfalso. apply (not_elem_of_nil (format_agent_nickname name (nickname_reset_count r))).
      apply Hav. split; [done|]. by exists name.
    + unfold with_nicknames. cbn. f_equal. set_solver.
  - rewrite <- Ha in *. destruct (choose_Some pick available) as (n & Hc & Hin); [by rewrite Ha|].
    rewrite Hc. eexists _, n. split; [done|]. left. apply Hav in Hin as [Hu Hf]. done.
Qed.

(** ** The properties at work *)

Definition demo_metadata : AgentMetadata := {|
  agent_id := Some (lit "t1"); agent_path := Some (lit "/root/worker"); agent_nickname := Some (lit "Ada");
  agent_role := None; last_task_message := None
|}.

(** One agent runs and a second is being started, with room for two. *)
Lemma demo_world :
  exists w, reachable (below 2) w /\ tasks w !! 1 = Some (Holding (Some (lit "/root/reader")))
    /\ agent_tree (registry w) !! lit "/root/reader"
       = Some {| agent_id := None; agent_path := Some (lit "/root/reader"); agent_nickname := None;
                 agent_role := None; last_task_message := None |}
    /\ agent_tree (registry w) !! lit "/root/worker" = Some demo_metadata.
Proof.
  assert (Hspawn : forall w t path, reachable (below 2) w -> tasks w !! t = None ->
    (total_count (registry w) < 2)%N -> from_string path = Ok path -> is_root path = false -> agent_tree (registry w) !! path = None ->
    reachable (below 2) (with_task t (Holding (Some path))
      (with_tree (<[path := {| agent_id := None; agent_path := Some path; agent_nickname := None;
                               agent_role := None; last_task_message := None |}]> (agent_tree (registry w)))
         (with_count ((total_count (registry w) + 1) mod 2 ^ 64) (registry w))) w)).
  { intros w t path Hw Ht Hn Hfrom Hroot Hp.
    set (n := total_count (registry w)) in *.
    assert (Hw1 : reachable (below 2) (with_task t (Trying (Some 2%N) None) (registry w) w)).
    { eapply reachable_step; [exact Hw|]. apply step_spawn; [done|]. by exists 2%N. }
    assert (Hw2 : reachable (below 2) (with_task t (Trying (Some 2%N) (Some n)) (registry w) w)).
    { eapply reachable_step; [exact Hw1|]. pose proof (step_load (below 2) (with_task t (Trying (Some 2%N) None) (registry w) w) t 2%N (lookup_insert_eq (tasks w) t _)) as Hs.
      unfold with_task in *. cbn in Hs. by rewrite insert_insert_eq in Hs. }
    assert (Hw3 : reachable (below 2) (with_task t (Holding None) (with_count ((n + 1) mod 2 ^ 64) (registry w)) w)).
    { eapply reachable_step; [exact Hw2|].
      pose proof (step_exchange (below 2) (with_task t (Trying (Some 2%N) (Some n)) (registry w) w) t 2%N n
                    (lookup_insert_eq (tasks w) t _) Hn eq_refl) as Hs.
      unfold with_task in *. cbn [tasks registry replaced] in *. by rewrite insert_insert_eq in Hs. }
    eapply reachable_step; [exact Hw3|].
    set (r := with_tree _ _).
    pose proof (step_reserve_path (below 2) (with_task t (Holding None) (with_count ((n + 1) mod 2 ^ 64) (registry w)) w)
                  t path r (lookup_insert_eq (tasks w) t _) Hfrom Hroot) as Hs.
    unfold with_task in *. cbn [tasks registry replaced] in *. rewrite insert_insert_eq in Hs. apply Hs.
    unfold reserve_agent_path. cbn. by rewrite Hp. }
  pose proof (Hspawn start 0 (lit "/root/worker") (reachable_start _) eq_refl ltac:(by vm_compute)
                ltac:(by vm_compute) eq_refl ltac:(by vm_compute)) as H1.
  set (w1 := with_task 0 _ _ start) in H1.
  assert (H2 : reachable (below 2) (end_task 0 (register_spawned_thread demo_metadata (registry w1))
                                      (note_replaced (lit "/root/worker") w1))).
  { eapply reachable_step; [exact H1|]. by apply (step_commit _ w1 0 (Some (lit "/root/worker")) demo_metadata (lit "t1")). }
  set (w2 := end_task 0 _ _) in H2.
  pose proof (Hspawn w2 1 (lit "/root/reader") H2 ltac:(by vm_compute) ltac:(by vm_compute)
                ltac:(by vm_compute) eq_refl ltac:(by vm_compute)) as H3.
  eexists. split; [exact H3|]. split_and!; by vm_compute.
Qed.

Lemma slots_accounted_witness :
  exists w, reachable (below 2) w /\ tasks w !! 1 = Some (Holding (Some (lit "/root/reader")))
    /\ total_count (registry w) = (N.of_nat (length (live_agents (registry w))) + slots_held w + replaced w)%N
    /\ (total_count (registry w) <= 2)%N.
Proof.
  destruct demo_world as (w & Hr & Ht & _). exists w. split; [exact Hr|]. split; [exact Ht|].
  destruct (slots_accounted 2 w ltac:(lia) Hr) as (H1 & H2 & _). split; [exact H1|exact H2].
Defined.

Lemma paths_owned_witness :
  exists w, reachable (below 2) w /\ exists t, tasks w !! t = Some (Holding (Some (lit "/root/reader")))
    /\ forall t', tasks w !! t' = Some (Holding (Some (lit "/root/reader"))) -> t' = t.
Proof.
  destruct demo_world as (w & Hr & _ & Hk & _). exists w. split; [exact Hr|].
  exact (proj2 (proj1 (paths_owned (below 2) w _ _ Hr Hk))).
Defined.

Lemma slot_taken_alone_witness :
  let w := with_task 7 (Trying (Some 1%N) None) default_registry start in
  exists w', rtc (step (below 1)) w w'
    /\ tasks w' !! 7 = Some (Holding None) /\ total_count (registry w') = 1%N.
Proof. intros w. exact (slot_taken_alone (below 1) w 7 1 (lookup_insert_eq (tasks start) 7 _) ltac:(lia)). Defined.

Lemma nickname_unused_witness :
  let r := with_nicknames {[lit "Ada"]} 0 default_registry in
  exists r' n, reserve_agent_nickname 5 [lit "Ada"] None r = (r', Some n)
  /\ n = lit "Ada the 2nd" /\ nickname_reset_count r' = 1%N.
Proof.
  intros r. destruct (nickname_unused 5 [lit "Ada"] r) as (r' & n & He & H); [done|].
  exists r', n. split; [exact He|]. vm_compute in He. injection He as <- <-. split; by vm_compute.
Defined.

(** A thread without a path that is registered twice takes two slots and has one entry. *)
Example registered_twice :
  let md := {| agent_id := Some (lit "t"); agent_path := None; agent_nickname := None;
               agent_role := None; last_task_message := None |} in
  let r := register_spawned_thread md (fetch_add (register_spawned_thread md (fetch_add default_registry))) in
  total_count r = 2%N /\ length (live_agents r) = 1.
Proof. split; by vm_compute. Qed.

End AgentRegistryFacts.

(** ** mailbox.rs *)

Module AgentMailbox.

Record InterAgentCommunication := {
  author : str;
  recipient : str;
  other_recipients : list str;
  content : str;
  trigger_turn : bool;
}.

Abbreviation Mail := InterAgentCommunication.

(** The channel [rx] and what was taken out of it. *)
Record MailboxReceiver := { rx : list Mail; pending_mails : list Mail }.

(** The loop of [sync_pending_mails]; the channel is not closed while the session lives. *)
Fixpoint sync_loop (channel pending : list Mail) : list Mail :=
  match channel with
  | [] => pending
  | mail :: channel => sync_loop channel (pending ++ [mail])
  end.

Definition sync_pending_mails (r : MailboxReceiver) : MailboxReceiver :=
  {| rx := []; pending_mails := sync_loop (rx r) (pending_mails r) |}.

Definition has_pending (r : MailboxReceiver) : MailboxReceiver * bool :=
  let r := sync_pending_mails r in
  (r, negb (match pending_mails r with [] => true | _ => false end)).

Definition has_pending_trigger_turn (r : MailboxReceiver) : MailboxReceiver * bool :=
  let r := sync_pending_mails r in (r, existsb trigger_turn (pending_mails r)).

Definition drain (r : MailboxReceiver) : MailboxReceiver * list Mail :=
  let r := sync_pending_mails r in ({| rx := rx r; pending_mails := [] |}, pending_mails r).

(** [Mailbox::send] in its three parts: the number, the channel, the watched number. *)
Inductive Sending := Numbered (mail : Mail) (seq : N) | Queued (seq : N).

Record MailWorld := {
  next_seq : N;
  watched_seq : N;
  receiver : MailboxReceiver;
  senders : gmap nat Sending;
}.

Definition new_mailbox : MailWorld :=
  {| next_seq := 0; watched_seq := 0; receiver := {| rx := []; pending_mails := [] |}; senders := ∅ |}.

(** What a step shows: a number given, mail put into the channel, mail handed out. *)
Inductive MailEvent := Number (seq : N) | Sent (mail : Mail) | Delivered (mails : list Mail) | Silent.

Definition with_sender (t : nat) (s : Sending) (w : MailWorld) : MailWorld :=
  {| next_seq := next_seq w; watched_seq := watched_seq w; receiver := receiver w;
     senders := <[t := s]> (senders w) |}.

Definition with_receiver (r : MailboxReceiver) (w : MailWorld) : MailWorld :=
  {| next_seq := next_seq w; watched_seq := watched_seq w; receiver := r; senders := senders w |}.

Inductive mail_step (w : MailWorld) : MailEvent -> MailWorld -> Prop :=
| mail_number t mail :
    senders w !! t = None ->
    mail_step w (Number (next_seq w + 1))
      {| next_seq := (next_seq w + 1) mod 2 ^ 64; watched_seq := watched_seq w; receiver := receiver w;
         senders := <[t := Numbered mail (next_seq w + 1)]> (senders w) |}
| mail_queue t mail seq :
    senders w !! t = Some (Numbered mail seq) ->
    mail_step w (Sent mail)
      (with_sender t (Queued seq)
         (with_receiver {| rx := rx (receiver w) ++ [mail]; pending_mails := pending_mails (receiver w) |} w))
| mail_publish t seq :
    senders w !! t = Some (Queued seq) ->
    mail_step w Silent {| next_seq := next_seq w; watched_seq := seq; receiver := receiver w;
                     senders := delete t (senders w) |}
(* the receiver, whose loop may see mail that is sent meanwhile: one [try_recv], and the
   end of [drain] *)
| mail_receive mail rest :
    rx (receiver w) = mail :: rest ->
    mail_step w Silent (with_receiver {| rx := rest; pending_mails := pending_mails (receiver w) ++ [mail] |} w)
| mail_drain :
    mail_step w (Delivered (pending_mails (receiver w)))
      (with_receiver {| rx := rx (receiver w); pending_mails := [] |} w).

Inductive mail_reachable : list MailEvent -> MailWorld -> Prop :=
| mail_reachable_start : mail_reachable [] new_mailbox
| mail_reachable_step events w event w' :
    mail_reachable events w -> mail_step w event w' -> mail_reachable (events ++ [event]) w'.

Definition sent (events : list MailEvent) : list Mail :=
  omap (fun e => match e with Sent mail => Some mail | _ => None end) events.

Definition delivered (events : list MailEvent) : list Mail :=
  events ≫= fun e => match e with Delivered mails => mails | _ => [] end.

Definition numbers (events : list MailEvent) : list N :=
  omap (fun e => match e with Number seq => Some seq | _ => None end) events.

End AgentMailbox.

Module AgentMailboxFacts.
Import AgentMailbox.

Lemma sync_loop_app (channel pending : list Mail) : sync_loop channel pending = pending ++ channel.
Proof.
  revert pending. induction channel as [|m channel IH]; intros pending; simpl; [by rewrite app_nil_r|].
  by rewrite IH, <- app_assoc.
Qed.

Lemma drain_all (r : MailboxReceiver) :
  drain r = ({| rx := []; pending_mails := [] |}, pending_mails r ++ rx r).
Proof. unfold drain, sync_pending_mails. simpl. by rewrite sync_loop_app. Qed.

(** The first numbers. *)
Definition counted (n : nat) : list N := map N.of_nat (seq 1 n).

Lemma counted_snoc (n : nat) : counted (S n) = counted n ++ [N.of_nat n + 1]%N.
Proof. unfold counted. rewrite seq_S, map_app. simpl. f_equal. f_equal. lia. Qed.

(** However senders and the receiver interleave, mail arrives once and in the order in
    which it was put into the channel, and nothing but the mail sent; what has not been
    handed out yet, draining hands out. The sends are numbered from one without a gap, for
    as long as the counter does not wrap around, and the watched number is one of them. *)
Theorem mail_in_order (events : list MailEvent) (w : MailWorld) :
  mail_reachable events w ->
  sent events = delivered events ++ (drain (receiver w)).2
  /\ (N.of_nat (length (numbers events)) < 2 ^ 64 ->
      numbers events = counted (length (numbers events))
      /\ next_seq w = N.of_nat (length (numbers events))
      /\ (watched_seq w = 0 \/ watched_seq w ∈ numbers events)
      /\ forall t, match senders w !! t with
                   | Some (Numbered _ seq) | Some (Queued seq) => seq ∈ numbers events
                   | None => True
                   end)%N.
Proof.
  intros Hr. rewrite drain_all. cbn [snd].
  induction Hr as [|events w event w' Hr IH Hstep].
  { simpl. split; [done|]. intros _. split_and!; [done|done|by left|]. intros t. by rewrite lookup_empty. }
  assert (Hn : numbers (events ++ [event])
               = numbers events ++ match event with Number seq => [seq] | _ => [] end).
  { unfold numbers. rewrite omap_app. by destruct event. }
  assert (Hs : sent (events ++ [event]) = sent events ++ match event with Sent m => [m] | _ => [] end).
  { unfold sent. rewrite omap_app. by destruct event. }
  assert (Hd : delivered (events ++ [event])
               = delivered events ++ match event with Delivered ms => ms | _ => [] end).
  { unfold delivered. rewrite bind_app. simpl. destruct event; by rewrite ?app_nil_r. }
  rewrite Hn, Hs, Hd. destruct IH as [IHs IHn].
  destruct Hstep as [t mail Ht|t mail seq Ht|t seq Ht|mail rest Hrx|]; rewrite ?app_nil_r.
  - split; [done|]. rewrite length_app. cbn [length]. intros Hlt.
    destruct IHn as (Hc & Hnext & Hw & Hsend); [lia|].
    rewrite Nat.add_1_r, counted_snoc, <- Hc, Hnext. cbn [next_seq watched_seq senders].
    split_and!; [done|rewrite N.mod_small; lia| |].
    + destruct Hw; [by left|right; apply elem_of_app; by left].
    + intros t'. destruct (decide (t = t')) as [<-|Hne].
      * rewrite lookup_insert_eq. apply elem_of_app. right. by left.
      * rewrite lookup_insert_ne by done. specialize (Hsend t').
        destruct (senders w !! t') as [[|]|]; [..|done]; apply elem_of_app; by left.
  - split; [by rewrite IHs; cbn; rewrite !app_assoc|]. intros Hlt.
    destruct (IHn Hlt) as (Hc & Hnext & Hw & Hsend). split_and!; [done..|].
    intros t'. cbn [senders with_sender with_receiver]. destruct (decide (t = t')) as [<-|Hne].
    + rewrite lookup_insert_eq. specialize (Hsend t). by rewrite Ht in Hsend.
    + rewrite lookup_insert_ne by done. apply Hsend.
  - split; [done|]. intros Hlt. destruct (IHn Hlt) as (Hc & Hnext & Hw & Hsend).
    cbn [next_seq watched_seq senders]. split_and!; [done|done| |].
    + right. specialize (Hsend t). by rewrite Ht in Hsend.
    + intros t'. destruct (decide (t = t')) as [<-|Hne]; [by rewrite lookup_delete_eq|].
      rewrite lookup_delete_ne by done. apply Hsend.
  - split; [|done]. rewrite IHs, Hrx. cbn. by rewrite <- !app_assoc.
  - split; [|done]. rewrite IHs. cbn. by rewrite <- !app_assoc.
Qed.

Definition demo_mail (text : string) : Mail :=
  {| author := lit "/root"; recipient := lit "/root/a"; other_recipients := []; content := lit text;
     trigger_turn := false |}.

Lemma mail_in_order_witness :
  exists w, mail_reachable [Number 1; Sent (demo_mail "one")] w
    /\ (drain (receiver w)).2 = [demo_mail "one"].
Proof.
  pose proof (mail_reachable_step _ _ _ _ mail_reachable_start (mail_number new_mailbox 0 (demo_mail "one") eq_refl)) as R1.
  match type of R1 with mail_reachable _ ?w =>
    pose proof (mail_reachable_step _ _ _ _ R1 (mail_queue w 0 (demo_mail "one") 1 eq_refl)) as R2 end.
  eexists. split; [exact R2|]. destruct (mail_in_order _ _ R2) as [Hs _]. exact (eq_sym Hs).
Defined.

(** The watched number can go back: two senders are numbered in one order and publish in
    the other. *)
Example watched_number_goes_back :
  exists events w, mail_reachable events w /\ next_seq w = 2%N /\ watched_seq w = 1%N /\ senders w = ∅.
Proof.
  pose proof (mail_reachable_step _ _ _ _ mail_reachable_start (mail_number new_mailbox 0 (demo_mail "one") eq_refl)) as R.
  match type of R with mail_reachable _ ?w =>
    pose proof (mail_reachable_step _ _ _ _ R (mail_number w 1 (demo_mail "two") eq_refl)) as R1 end.
  match type of R1 with mail_reachable _ ?w =>
    pose proof (mail_reachable_step _ _ _ _ R1 (mail_queue w 1 (demo_mail "two") 2 eq_refl)) as R2 end.
  match type of R2 with mail_reachable _ ?w =>
    pose proof (mail_reachable_step _ _ _ _ R2 (mail_publish w 1 2 eq_refl)) as R3 end.
  match type of R3 with mail_reachable _ ?w =>
    pose proof (mail_reachable_step _ _ _ _ R3 (mail_queue w 0 (demo_mail "one") 1 eq_refl)) as R4 end.
  match type of R4 with mail_reachable _ ?w =>
    pose proof (mail_reachable_step _ _ _ _ R4 (mail_publish w 0 1 eq_refl)) as R5 end.
  eexists _, _. split; [exact R5|]. by split_and!; vm_compute.
Qed.

End AgentMailboxFacts.
