(* ===== verification/ConfigTomlFacts.v ===== *)
(** * Facts about configuration values

    What tables hold; what a merge leaves at every path; and what an override sets. *)

From Stdlib Require Import Ascii String.
From S2P Require Import Prelude RustStr ConfigToml.
Import ConfigToml.

Module ConfigTomlFacts.

(** ** Induction on values *)

Definition is_scalar (v : TomlValue) : bool :=
  match v with TArray _ | TTable _ => false | _ => true end.

Section Induction.
Context (P : TomlValue -> Prop).
Context (Hscalar : forall v, is_scalar v = true -> P v).
Context (Harray : forall items, Forall P items -> P (TArray items)).
Context (Htable : forall table, Forall (fun e => P e.2) table -> P (TTable table)).

Fixpoint toml_induction (v : TomlValue) : P v :=
  match v return P v with
  | TArray items => Harray items
      ((fix go (l : list TomlValue) : Forall P l :=
          match l with
          | [] => Forall_nil_2 _
          | x :: l => Forall_cons_2 _ x l (toml_induction x) (go l)
          end) items)
  | TTable table => Htable table
      ((fix go (l : list (str * TomlValue)) : Forall (fun e => P e.2) l :=
          match l with
          | [] => Forall_nil_2 _
          | e :: l => Forall_cons_2 _ e l (toml_induction e.2) (go l)
          end) table)
  | TString s => Hscalar (TString s) eq_refl
  | TInteger i => Hscalar (TInteger i) eq_refl
  | TFloat text => Hscalar (TFloat text) eq_refl
  | TBoolean b => Hscalar (TBoolean b) eq_refl
  | TDatetime text => Hscalar (TDatetime text) eq_refl
  end.

End Induction.

(** ** Tables *)

Section Tables.
Context {A : Type}.
Implicit Types (t : list (str * A)) (k : str).

Lemma table_get_insert k k' (v : A) t :
  table_get k (table_insert k' v t) = if decide (k' = k) then Some v else table_get k t.
Proof.
  induction t as [|[k0 v0] t IH]; simpl.
  - case_decide as E; [subst; by rewrite str_eqb_refl|]. by rewrite (proj2 (str_eqb_neq _ _) E).
  - destruct (str_eqb k0 k') eqn:E0; simpl.
    + apply str_eqb_eq in E0 as ->. case_decide as E; [subst; by rewrite str_eqb_refl|].
      by rewrite (proj2 (str_eqb_neq _ _) E).
    + apply str_eqb_neq in E0. destruct (str_eqb k0 k) eqn:E1; [|done].
      apply str_eqb_eq in E1 as ->. by rewrite decide_False.
Qed.

Lemma table_get_remove k k' t :
  table_get k (table_remove k' t) = if decide (k' = k) then None else table_get k t.
Proof.
  unfold table_remove. induction t as [|[k0 v0] t IH]; simpl; [by case_decide|].
  destruct (str_eqb k0 k') eqn:E0; simpl.
  - apply str_eqb_eq in E0 as ->. rewrite IH. case_decide; [done|].
    by rewrite (proj2 (str_eqb_neq _ _)).
  - apply str_eqb_neq in E0. destruct (str_eqb k0 k) eqn:E1; [|done].
    apply str_eqb_eq in E1 as ->. by rewrite decide_False.
Qed.

Lemma table_get_elem k (v : A) t : table_get k t = Some v -> (k, v) ∈ t.
Proof.
  induction t as [|[k0 v0] t IH]; simpl; [done|]. case_match eqn:E.
  - apply str_eqb_eq in E as ->. intros ?; simplify_eq. by left.
  - intros ?. right. by apply IH.
Qed.

Lemma table_get_None k t : table_get k t = None <-> k ∉ t.*1.
Proof.
  induction t as [|[k0 v0] t IH]; simpl; [by split; [intros _ ?%not_elem_of_nil|]|].
  rewrite not_elem_of_cons. destruct (str_eqb k0 k) eqn:E.
  - apply str_eqb_eq in E as ->. naive_solver.
  - apply str_eqb_neq in E. rewrite IH. naive_solver.
Qed.

Lemma keys_insert k k' (v : A) t : k ∈ (table_insert k' v t).*1 <-> k = k' \/ k ∈ t.*1.
Proof.
  induction t as [|[k0 v0] t IH]; simpl; [set_solver|]. case_match eqn:E; simpl.
  - apply str_eqb_eq in E as ->. set_solver.
  - rewrite !elem_of_cons, IH. naive_solver.
Qed.

Lemma insert_NoDup k (v : A) t : NoDup t.*1 -> NoDup (table_insert k v t).*1.
Proof.
  induction t as [|[k0 v0] t IH]; simpl; intros Ht; [by apply NoDup_singleton|].
  apply NoDup_cons in Ht as [Hk Ht]. case_match eqn:E; simpl.
  - by apply NoDup_cons.
  - apply str_eqb_neq in E. apply NoDup_cons. split; [|by apply IH].
    rewrite keys_insert. naive_solver.
Qed.

Lemma remove_NoDup k t : NoDup t.*1 -> NoDup (table_remove k t).*1.
Proof.
  unfold table_remove. induction t as [|[k0 v0] t IH]; simpl; intros Ht; [done|].
  apply NoDup_cons in Ht as [Hk Ht]. case_match; simpl; [|by apply IH].
  apply NoDup_cons. split; [|by apply IH]. contradict Hk.
  apply list_elem_of_fmap in Hk as (e & -> & He). apply list_elem_of_In, filter_In in He as [He _].
  apply list_elem_of_In in He. by apply list_elem_of_fmap_2.
Qed.

Lemma rename_NoDup path alias t : NoDup t.*1 -> NoDup (rename_key path t alias).*1.
Proof.
  intros Ht. unfold rename_key. repeat case_match; try done; [by apply remove_NoDup|].
  by apply insert_NoDup, remove_NoDup.
Qed.

Lemma aliases_NoDup path t : NoDup t.*1 -> NoDup (normalize_key_aliases path t).*1.
Proof.
  unfold normalize_key_aliases. generalize CONFIG_KEY_ALIASES as aliases.
  intros aliases. revert t. induction aliases as [|a aliases IH]; intros t Ht; simpl; [done|].
  by apply IH, rename_NoDup.
Qed.

(** Inserting entries with different keys one by one. *)
Lemma table_get_entries (entries t : list (str * A)) k :
  NoDup entries.*1 ->
  table_get k (fold_left (fun m '(key, value) => table_insert key value m) entries t)
  = match table_get k entries with Some v => Some v | None => table_get k t end.
Proof.
  revert t. induction entries as [|[k0 v0] es IH]; intros t Hd; simpl; [done|].
  simpl in Hd. apply NoDup_cons in Hd as [Hk Hd]. rewrite IH, table_get_insert by done.
  destruct (str_eqb k0 k) eqn:E.
  - apply str_eqb_eq in E as ->. apply table_get_None in Hk. by rewrite Hk, decide_True.
  - apply str_eqb_neq in E. by rewrite decide_False.
Qed.

End Tables.

(** Changing the values of a table, each by its key. *)
Lemma table_get_map {A B} (f : str -> A -> B) (k : str) (t : list (str * A)) :
  table_get k (map (fun '(key, value) => (key, f key value)) t) = f k <$> table_get k t.
Proof.
  induction t as [|[k0 v0] t IH]; simpl; [done|]. case_match eqn:E; [|done].
  by apply str_eqb_eq in E as ->.
Qed.

Lemma map_keys {A B} (f : str -> A -> B) (t : list (str * A)) :
  (map (fun '(key, value) => (key, f key value)) t).*1 = t.*1.
Proof. induction t as [|[k v] t IH]; simpl; [done|]. by f_equal. Qed.

(** ** Old keys *)

Definition MEMORIES : list str := [lit "memories"].
Definition OLD_KEY : str := lit "no_memories_if_mcp_or_web_search".
Definition NEW_KEY : str := lit "disable_on_external_context".

(** The value that a key has once the old keys of a table are renamed. *)
Definition renamed {A} (path : list str) (get : str -> option A) (k : str) : option A :=
  if decide (path = MEMORIES) then
    if decide (k = OLD_KEY) then None
    else if decide (k = NEW_KEY) then
           match get NEW_KEY with Some v => Some v | None => get OLD_KEY end
    else get k
  else get k.

Lemma table_get_aliases {A} (path : list str) (t : list (str * A)) (k : str) :
  table_get k (normalize_key_aliases path t) = renamed path (fun k => table_get k t) k.
Proof.
  unfold normalize_key_aliases, CONFIG_KEY_ALIASES, renamed. cbn [fold_left].
  unfold rename_key. cbn [table_path legacy_key canonical_key].
  fold MEMORIES OLD_KEY NEW_KEY. case_decide as Hp;
    [rewrite bool_decide_true by done|by rewrite bool_decide_false].
  assert (Hne : OLD_KEY <> NEW_KEY) by done.
  destruct (table_get OLD_KEY t) as [v|] eqn:Hold.
  - rewrite table_get_remove, decide_False by done.
    destruct (table_get NEW_KEY t) as [w|] eqn:Hnew.
    + rewrite table_get_remove. repeat case_decide; subst; try done; naive_solver.
    + rewrite table_get_insert, table_get_remove. repeat case_decide; subst; naive_solver.
  - repeat case_decide; subst; try done. by destruct (table_get NEW_KEY t).
Qed.

Lemma renamed_fmap {A B} (f : str -> A -> B) (path : list str) (get : str -> option A) (k : str) :
  (forall v, path = MEMORIES -> k = NEW_KEY -> f OLD_KEY v = f NEW_KEY v) ->
  renamed path (fun k => f k <$> get k) k = f k <$> renamed path get k.
Proof.
  intros Hf. unfold renamed. repeat case_decide; subst; try done.
  destruct (get NEW_KEY); [done|]. destruct (get OLD_KEY); simpl; [|done]. by rewrite Hf.
Qed.

Lemma renamed_source {A} (path : list str) (get : str -> option A) (k : str) (v : A) :
  renamed path get k = Some v -> exists k', get k' = Some v.
Proof. unfold renamed. repeat case_decide; try done; try case_match; naive_solver. Qed.

(** ** Normal values *)

(** The keys of a table are different, as in a map. *)
Inductive well_formed : TomlValue -> Prop :=
| wf_table t : NoDup t.*1 -> (forall k c, table_get k t = Some c -> well_formed c) ->
    well_formed (TTable t)
| wf_other v : (forall t, v <> TTable t) -> well_formed v.

Definition no_old_key {A} (path : list str) (t : list (str * A)) : Prop :=
  path = MEMORIES -> table_get OLD_KEY t = None.

(** No table uses an old key. *)
Inductive normal : list str -> TomlValue -> Prop :=
| normal_table path t : no_old_key path t ->
    (forall k c, table_get k t = Some c -> normal (path ++ [k]) c) -> normal path (TTable t)
| normal_other path v : (forall t, v <> TTable t) -> normal path v.

Lemma table_get_normal {A} (path : list str) (t : list (str * A)) (k : str) :
  no_old_key path t -> table_get k (normalize_key_aliases path t) = table_get k t.
Proof.
  intros Hn. rewrite table_get_aliases. unfold renamed. repeat case_decide; subst; try done.
  - by rewrite Hn.
  - rewrite (Hn eq_refl). by destruct (table_get NEW_KEY t).
Qed.

Lemma aliases_no_old_key {A} (path : list str) (t : list (str * A)) :
  no_old_key path (normalize_key_aliases path t).
Proof. intros ->. by rewrite table_get_aliases. Qed.

(** Below the tables with old keys, where a value is does not matter. *)
Lemma normalized_deep (v : TomlValue) (p q : list str) :
  2 <= length p -> 2 <= length q ->
  normalized_with_key_aliases v p = normalized_with_key_aliases v q.
Proof.
  revert p q. induction v as [v|items IH|table IH] using toml_induction; intros p q Hp Hq.
  - by destruct v.
  - simpl. f_equal. apply map_ext_in. intros x Hx%list_elem_of_In.
    rewrite Forall_forall in IH. by apply IH.
  - assert (Hal : forall (r : list str) (t : list (str * TomlValue)),
              2 <= length r -> normalize_key_aliases r t = t).
    { intros r t Hr. unfold normalize_key_aliases. cbn [CONFIG_KEY_ALIASES fold_left].
      unfold rename_key. rewrite bool_decide_false; [done|]. intros ->. simpl in Hr. lia. }
    simpl. rewrite !Hal by done. f_equal. f_equal. apply map_ext_in.
    intros [k x] Hx%list_elem_of_In. rewrite Forall_forall in IH. f_equal.
    apply (IH _ Hx); rewrite length_app; simpl; lia.
Qed.

(** The values under the keys of a normalized table. *)
Lemma table_get_normalized (t : list (str * TomlValue)) (path : list str) :
  NoDup t.*1 ->
  exists t', normalized_with_key_aliases (TTable t) path = TTable t' /\ NoDup t'.*1 /\
    no_old_key path t' /\
    forall k, table_get k t' = (fun v => normalized_with_key_aliases v (path ++ [k]))
                       <$> renamed path (fun k => table_get k t) k.
Proof.
  intros Hd. set (f := fun key child => normalized_with_key_aliases child (path ++ [key])).
  exists (normalize_key_aliases path (of_entries (map (fun '(key, child) => (key, f key child)) t))).
  assert (Hof : forall l : list (str * TomlValue), NoDup (of_entries l).*1).
  { intros l. unfold of_entries. assert (H0 : NoDup (@nil (str * TomlValue)).*1) by constructor.
    revert H0. generalize (@nil (str * TomlValue)) as acc.
    induction l as [|[k0 v0] l IH]; intros acc Ha; simpl; [done|]. by apply IH, insert_NoDup. }
  split_and!; [done|apply aliases_NoDup, Hof|apply aliases_no_old_key|]. intros k.
  rewrite table_get_aliases. transitivity (renamed path (fun k => f k <$> table_get k t) k).
  - unfold renamed, of_entries.
    repeat case_decide; rewrite ?table_get_entries by by rewrite map_keys.
    all: rewrite ?table_get_map.
    all: by repeat case_match.
  - apply (renamed_fmap f). intros v -> _. apply normalized_deep; simpl; lia.
Qed.

End ConfigTomlFacts.

(** * Facts about merging configurations and overriding settings

    A setting is decided by the last layer that says something about its path, and an
    override changes the setting it names and no other. *)

Import ConfigToml ConfigTomlFacts.

Module ConfigMergeFacts.

(** ** What a value says of a path *)

Fixpoint get_path (ks : list str) (v : TomlValue) : option TomlValue :=
  match ks with
  | [] => Some v
  | k :: ks => match v with
               | TTable t => match table_get k t with Some c => get_path ks c | None => None end
               | _ => None
               end
  end.

(** A setting: something other than a table at the path. *)
Definition setting (ks : list str) (x v : TomlValue) : Prop :=
  get_path ks v = Some x /\ forall t, x <> TTable t.

(** Tables lead part of the way to the path, and there the next key is absent. *)
Fixpoint silent (ks : list str) (v : TomlValue) : Prop :=
  match ks, v with
  | k :: ks, TTable t => match table_get k t with Some c => silent ks c | None => True end
  | _, _ => False
  end.

(** ** Normal forms *)

Lemma normalized_normal (v : TomlValue) (path : list str) :
  well_formed v -> normal path (normalized_with_key_aliases v path).
Proof.
  revert path. induction v as [v Hs|items _|table IH] using toml_induction; intros path Hw.
  - apply normal_other. by destruct v.
  - by apply normal_other.
  - inversion Hw as [t Hd Hc|? Hn]; subst; [|by destruct (Hn table)].
    destruct (table_get_normalized table path Hd) as (t' & -> & _ & Hn & Hget).
    apply normal_table; [done|].
    intros k c. rewrite Hget, fmap_Some. intros (v & (k' & Hv)%renamed_source & ->).
    rewrite Forall_forall in IH. apply (IH _ (table_get_elem _ _ _ Hv)). by eapply Hc.
Qed.

(** The entries of an overlay, each with its merge, met one by one. *)
Lemma table_get_merged (path : list str) (es : list (str * (TomlValue * (TomlValue -> list str -> TomlValue))))
    (base : list (str * TomlValue)) (k : str) :
  NoDup es.*1 ->
  table_get k (fold_left (merge_entry path) es base) =
  match table_get k es with
  | Some (value, merge_into) =>
      Some match table_get k base with
           | Some existing => merge_into existing (path ++ [k])
           | None => normalized_with_key_aliases value (path ++ [k])
           end
  | None => table_get k base
  end.
Proof.
  revert base. induction es as [|[k0 [v m]] es IH]; intros base Hd; simpl; [done|].
  simpl in Hd. apply NoDup_cons in Hd as [Hk Hd]. rewrite IH by done. clear IH.
  apply table_get_None in Hk. destruct (str_eqb k0 k) eqn:E.
  - apply str_eqb_eq in E as ->. rewrite Hk.
    case_match; by rewrite table_get_insert, decide_True.
  - apply str_eqb_neq in E. assert (Hb : forall x : TomlValue,
      table_get k (table_insert k0 x base) = table_get k base)
      by (intros x; by rewrite table_get_insert, decide_False).
    destruct (table_get k0 base); by rewrite Hb.
Qed.

(** A merge of tables, key by key. *)
Lemma merge_table_get (t base : list (str * TomlValue)) (path : list str) :
  NoDup t.*1 -> no_old_key path base ->
  exists t', merge_toml_values_at_path (TTable t) (TTable base) path = TTable t' /\ no_old_key path t' /\
    forall k, table_get k t' =
    match renamed path (fun k => table_get k t) k with
    | Some value =>
        Some match table_get k base with
             | Some existing => merge_toml_values_at_path value existing (path ++ [k])
             | None => normalized_with_key_aliases value (path ++ [k])
             end
    | None => table_get k base
    end.
Proof.
  intros Hd Hn. set (f := fun (_ : str) value => (value, merge_toml_values_at_path value)).
  set (es := map (fun '(key, value) => (key, f key value)) t).
  exists (fold_left (merge_entry path) (normalize_key_aliases path es)
            (normalize_key_aliases path base)).
  assert (Hes : NoDup (normalize_key_aliases path es).*1)
    by (apply aliases_NoDup; unfold es; by rewrite map_keys).
  split_and!; [done| |intros k; rewrite table_get_merged by done].
  { intros ->. rewrite table_get_merged, !table_get_aliases by done. done. }
  rewrite (table_get_normal path base), table_get_aliases by done.
  assert (renamed path (fun k => table_get k es) k
          = f k <$> renamed path (fun k => table_get k t) k) as ->.
  { transitivity (renamed path (fun k => f k <$> table_get k t) k); [|by apply (renamed_fmap f)].
    unfold renamed, es. by rewrite !table_get_map. }
  by destruct (renamed path _ k).
Qed.

(** A merge of something that is not two tables is the overlay. *)
Lemma merge_other (overlay base : TomlValue) (path : list str) :
  (forall t, overlay <> TTable t) \/ (forall t, base <> TTable t) ->
  merge_toml_values_at_path overlay base path = normalized_with_key_aliases overlay path.
Proof. intros [Hn|Hn]; destruct overlay, base; try done; by edestruct Hn. Qed.

Lemma merge_normal (overlay base : TomlValue) (path : list str) :
  well_formed overlay -> normal path base -> normal path (merge_toml_values_at_path overlay base path).
Proof.
  revert base path. induction overlay as [v Hs|items _|t IH] using toml_induction; intros base path Hw Hb.
  { rewrite merge_other by (left; by destruct v). by apply normalized_normal. }
  { rewrite merge_other by (by left). by apply normalized_normal. }
  destruct Hb as [path base Hn Hc|path base Hn];
    [|rewrite merge_other by (right; exact Hn); by apply normalized_normal].
  inversion Hw as [? Hd Hwc|? Ht]; subst; [|by destruct (Ht t)].
  destruct (merge_table_get t base path Hd Hn) as (t' & -> & Hn' & Hget).
  apply normal_table; [done|]. intros k c. rewrite Hget.
  destruct (renamed path _ k) as [v|] eqn:Hv; [|apply Hc].
  apply renamed_source in Hv as (k' & Hv). intros ?; simplify_eq.
  destruct (table_get k base) as [e|] eqn:He.
  - rewrite Forall_forall in IH. apply (IH _ (table_get_elem _ _ _ Hv)); [by eapply Hwc|by apply Hc].
  - apply normalized_normal. by eapply Hwc.
Qed.

Lemma setting_cons (k : str) (ks : list str) (x : TomlValue) (t : list (str * TomlValue)) :
  setting (k :: ks) x (TTable t) <-> exists c, table_get k t = Some c /\ setting ks x c.
Proof. unfold setting. simpl. destruct (table_get k t); naive_solver. Qed.

Lemma setting_not_table (ks : list str) (x v : TomlValue) :
  (forall t, v <> TTable t) -> setting ks x v -> ks = [].
Proof. destruct ks; [done|]. intros Hv [Hg _]. simpl in Hg. destruct v; try done. by edestruct Hv. Qed.

(** Of a merge, the settings are those of the overlay, and those of the base about
    which the overlay is silent. *)
Lemma merge_settings (overlay base : TomlValue) (path ks : list str) (x : TomlValue) :
  well_formed overlay -> normal path base ->
  let overlay' := normalized_with_key_aliases overlay path in
  setting ks x (merge_toml_values_at_path overlay base path) <->
  setting ks x overlay' \/ (silent ks overlay' /\ setting ks x base).
Proof.
  revert base path ks. induction overlay as [v Hs|items _|t IH] using toml_induction;
    intros base path ks Hw Hb; cbv zeta.
  { rewrite merge_other by (left; by destruct v). destruct ks, v; naive_solver. }
  { rewrite merge_other by (by left). destruct ks; naive_solver. }
  inversion Hw as [? Hd Hwc|? Ht]; subst; [|by destruct (Ht t)].
  destruct (table_get_normalized t path Hd) as (t0 & E0 & _ & _ & Hget0).
  destruct Hb as [path base Hn Hc|path base Hn].
  - destruct (merge_table_get t base path Hd Hn) as (t' & -> & _ & Hget). rewrite E0.
    destruct ks as [|k ks].
    { unfold setting. simpl. naive_solver. }
    rewrite !setting_cons. simpl. rewrite Hget, Hget0.
    destruct (renamed path _ k) as [v|] eqn:Hv; simpl.
    + apply renamed_source in Hv as (k' & Hv). rewrite Forall_forall in IH.
      specialize (IH _ (table_get_elem _ _ _ Hv)). cbn [snd] in IH.
      destruct (table_get k base) as [e|] eqn:He.
      * specialize (IH e (path ++ [k]) ks (Hwc _ _ Hv) (Hc _ _ He)). cbv zeta in IH. naive_solver.
      * naive_solver.
    + naive_solver.
  - rewrite merge_other by (right; exact Hn). rewrite E0. split; [by left|].
    intros [?|[Hsil Hset]]; [done|]. apply setting_not_table in Hset; [|done]. by subst.
Qed.

(** ** Overrides *)

(** Neither path leads to the other. *)
Definition apart (ks segments : list str) : Prop :=
  ~ ks `prefix_of` segments /\ ~ segments `prefix_of` ks.

Lemma override_at_cons (s0 : str) (segments : list str) (value current : TomlValue) :
  segments <> [] ->
  override_at (s0 :: segments) value current =
  let table := match current with TTable table => table | _ => [] end in
  TTable (table_insert s0 (override_at segments value
    (default (TTable []) (table_get s0 table))) table).
Proof. destruct segments as [|s1 segments]; [done|]. intros _. simpl. by case_match. Qed.

Lemma get_path_table (k : str) (ks : list str) (current : TomlValue) :
  get_path (k :: ks) current =
  table_get k (match current with TTable table => table | _ => [] end) ≫= get_path ks.
Proof. by destruct current. Qed.

Lemma override_same (segments : list str) (value current : TomlValue) :
  segments <> [] -> get_path segments (override_at segments value current) = Some value.
Proof.
  revert current. induction segments as [|s0 segments IH]; intros current Hne; [done|].
  destruct segments as [|s1 segments].
  - destruct current; cbn [override_at]; rewrite get_path_table;
      by rewrite table_get_insert, decide_True by done.
  - rewrite override_at_cons, get_path_table by done. cbv beta iota zeta.
    rewrite table_get_insert, decide_True by done. cbn [mbind option_bind]. by apply IH.
Qed.

Lemma override_other (segments ks : list str) (value current : TomlValue) :
  apart ks segments -> get_path ks (override_at segments value current) = get_path ks current.
Proof.
  revert ks current. induction segments as [|s0 segments IH]; intros ks current [H1 H2];
    [by destruct H2; apply prefix_nil|].
  destruct ks as [|k ks]; [by destruct H1; apply prefix_nil|].
  destruct (decide (s0 = k)) as [<-|Hne].
  - assert (Ha : apart ks segments) by (split; intros Hp; [apply H1|apply H2]; by apply prefix_cons).
    destruct segments as [|s1 segments]; [by destruct Ha as [_ []]; apply prefix_nil|].
    rewrite override_at_cons, !(get_path_table s0) by done. cbv beta iota zeta.
    rewrite table_get_insert, decide_True by done. cbn [mbind option_bind].
    rewrite IH by done. destruct (table_get s0 _) eqn:E; [done|]. simpl.
    destruct ks as [|k ks]; [by destruct Ha as [[] _]; apply prefix_nil|]. done.
  - assert (forall c (t : list (str * TomlValue)), table_get k (table_insert s0 c t) = table_get k t)
      as Ht by (intros; by rewrite table_get_insert, decide_False).
    destruct segments as [|s1 segments].
    + destruct current; cbn [override_at]; by rewrite !get_path_table, Ht.
    + rewrite override_at_cons, !get_path_table by done. cbv beta iota zeta. by rewrite Ht.
Qed.

Definition segments_of (path : str) : list str := split_on (ch ".") path.

(** The layer made of the overrides of the command line has, at the dotted path of an
    override, the value of that override, if no later one names the same setting or one
    above or below it; and it has nothing at a path apart from all of them. *)
Theorem cli_overrides_settings (overrides : list (str * TomlValue)) :
  (forall l1 path value l2, overrides = l1 ++ (path, value) :: l2 ->
     Forall (fun o => apart (segments_of path) (segments_of o.1)) l2 ->
     get_path (segments_of path) (build_cli_overrides_layer overrides) = Some value)
  /\ (forall k ks, Forall (fun o => apart (k :: ks) (segments_of o.1)) overrides ->
        get_path (k :: ks) (build_cli_overrides_layer overrides) = None).
Proof.
  unfold build_cli_overrides_layer.
  assert (Hkeep : forall l ks root, Forall (fun o => apart ks (segments_of o.1)) l ->
    get_path ks (fold_left (fun root '(path, value) => apply_toml_override root path value) l root)
    = get_path ks root).
  { induction l as [|[p v] l IH]; intros ks root Hl; simpl; [done|].
    apply Forall_cons in Hl as [Hp Hl]. rewrite IH by done. by apply override_other. }
  split.
  - intros l1 path value l2 -> Hl. rewrite fold_left_app. cbn [fold_left].
    rewrite Hkeep by done. apply override_same, split_on_ne.
  - intros k ks Hl. by rewrite Hkeep.
Qed.

End ConfigMergeFacts.
