(* ===== verification/ConfigLayers.v ===== *)
(** * The layers of the configuration: src/config/src/state.rs, src/app-server-protocol/src/protocol/v2.rs

    A stack of layers from the lowest precedence to the highest, checked when it is
    made, and what is read from it. The requirements of an administrator travel with
    the stack and are a type of their own. *)

From Stdlib Require Import Ascii String.
From stdpp Require Import sorting.
From S2P Require Import Prelude RustStr AbsPath ConfigToml ConfigTomlFacts.
Import AbsPath ConfigToml.

Module ConfigLayers.

(** ** v2.rs: where a layer comes from *)

Inductive ConfigLayerSource :=
| Mdm (domain key : str)
| System (file : str)
| User (file : str)
| Project (dot_agere_folder : str)
| SessionFlags
| LegacyManagedConfigTomlFromFile (file : str)
| LegacyManagedConfigTomlFromMdm.

#[export] Instance ConfigLayerSource_eq_dec : EqDecision ConfigLayerSource.
Proof. solve_decision. Defined.

Definition precedence (source : ConfigLayerSource) : Z :=
  match source with
  | Mdm _ _ => 0
  | System _ => 10
  | User _ => 20
  | Project _ => 25
  | SessionFlags => 30
  | LegacyManagedConfigTomlFromFile _ => 40
  | LegacyManagedConfigTomlFromMdm => 50
  end.

(** ** state.rs: layers *)

Record ConfigLayerEntry := {
  name : ConfigLayerSource;
  config : TomlValue;
  raw_toml : option str;
  version : str;
  disabled_reason : option str;
}.

Record ConfigLayerMetadata := { metadata_name : ConfigLayerSource; metadata_version : str }.

Definition is_disabled (layer : ConfigLayerEntry) : bool :=
  match disabled_reason layer with Some _ => true | None => false end.

Definition metadata (layer : ConfigLayerEntry) : ConfigLayerMetadata :=
  {| metadata_name := name layer; metadata_version := version layer |}.

Definition config_folder (layer : ConfigLayerEntry) : option str :=
  match name layer with
  | Mdm _ _ => None
  | System file => abs_parent file
  | User file => abs_parent file
  | Project dot_agere_folder => Some dot_agere_folder
  | SessionFlags => None
  | LegacyManagedConfigTomlFromFile _ => None
  | LegacyManagedConfigTomlFromMdm => None
  end.

(** [Iterator::is_sorted] of the sources. *)
Fixpoint is_sorted (sources : list ConfigLayerSource) : bool :=
  match sources with
  | a :: ((b :: _) as rest) => Z.leb (precedence a) (precedence b) && is_sorted rest
  | _ => true
  end.

Inductive LayerError :=
| IncorrectPrecedenceOrder
| MultipleUserLayers
| ProjectLayerHasNoParent
| ProjectLayersNotOrdered.

(** The second check of a project layer, against the one before it. *)
Definition check_project (previous : option str) (current : str) : result LayerError unit :=
  match previous with
  | None => Ok tt
  | Some previous =>
      match parent previous with
      | None => Err ProjectLayerHasNoParent
      | Some parent =>
          if path_eqb previous current
             || negb (existsb (fun ancestor => path_eqb ancestor parent) (ancestors current))
          then Err ProjectLayersNotOrdered else Ok tt
      end
  end.

(** The loop, with the index of the layer and the two variables. *)
Fixpoint verify_loop (index : nat) (layers : list ConfigLayerEntry)
    (user_layer_index : option nat) (previous_project : option str)
    : result LayerError (option nat) :=
  match layers with
  | [] => Ok user_layer_index
  | layer :: layers =>
      match name layer with
      | User _ =>
          match user_layer_index with
          | Some _ => Err MultipleUserLayers
          | None => verify_loop (S index) layers (Some index) previous_project
          end
      | Project current =>
          _ ← check_project previous_project current;
          verify_loop (S index) layers user_layer_index (Some current)
      | _ => verify_loop (S index) layers user_layer_index previous_project
      end
  end.

Definition verify_layer_ordering (layers : list ConfigLayerEntry)
    : result LayerError (option nat) :=
  if negb (is_sorted (map name layers)) then Err IncorrectPrecedenceOrder
  else verify_loop 0 layers None None.

(** ** state.rs: stacks *)

Inductive ConfigLayerStackOrdering := LowestPrecedenceFirst | HighestPrecedenceFirst.

#[export] Instance ConfigLayerStackOrdering_eq_dec : EqDecision ConfigLayerStackOrdering.
Proof. solve_decision. Defined.

Record ConfigLayerStack (Requirements RequirementsToml : Type) := {
  layers : list ConfigLayerEntry;
  user_layer_index : option nat;
  requirements : Requirements;
  requirements_toml : RequirementsToml;
  ignore_user_and_project_exec_policy_rules : bool;
}.

#[global] Arguments layers {_ _} _.
#[global] Arguments user_layer_index {_ _} _.
#[global] Arguments requirements {_ _} _.
#[global] Arguments requirements_toml {_ _} _.
#[global] Arguments ignore_user_and_project_exec_policy_rules {_ _} _.

Section Stack.
Context {R T : Type}.
Local Abbreviation Stack := (ConfigLayerStack R T).

Definition new_stack (layers : list ConfigLayerEntry) (requirements : R)
    (requirements_toml : T) : result LayerError Stack :=
  user_layer_index ← verify_layer_ordering layers;
  Ok {| layers := layers; user_layer_index := user_layer_index;
        requirements := requirements; requirements_toml := requirements_toml;
        ignore_user_and_project_exec_policy_rules := false |}.

Definition with_user_and_project_exec_policy_rules_ignored (ignore : bool) (s : Stack) : Stack :=
  {| layers := layers s; user_layer_index := user_layer_index s;
     requirements := requirements s; requirements_toml := requirements_toml s;
     ignore_user_and_project_exec_policy_rules := ignore |}.

Definition get_user_layer (s : Stack) : option ConfigLayerEntry :=
  index ← user_layer_index s; layers s !! index.

Definition with_layers (layers : list ConfigLayerEntry) (user_layer_index : nat) (s : Stack)
    : Stack :=
  {| layers := layers; user_layer_index := Some user_layer_index;
     requirements := requirements s; requirements_toml := requirements_toml s;
     ignore_user_and_project_exec_policy_rules :=
       ignore_user_and_project_exec_policy_rules s |}.

(** [Iterator::position]. *)
Fixpoint position {A} (p : A -> bool) (l : list A) : option nat :=
  match l with
  | [] => None
  | x :: l => if p x then Some 0 else S <$> position p l
  end.

Section Versions.
Context (version_of : TomlValue -> str).

Definition new_layer (name : ConfigLayerSource) (config : TomlValue) : ConfigLayerEntry :=
  {| name := name; config := config; raw_toml := None; version := version_of config;
     disabled_reason := None |}.

Definition new_with_raw_toml (name : ConfigLayerSource) (config : TomlValue) (raw_toml : str)
    : ConfigLayerEntry :=
  {| name := name; config := config; raw_toml := Some raw_toml; version := version_of config;
     disabled_reason := None |}.

Definition new_disabled (name : ConfigLayerSource) (config : TomlValue) (reason : str)
    : ConfigLayerEntry :=
  {| name := name; config := config; raw_toml := None; version := version_of config;
     disabled_reason := Some reason |}.

(** Replacing the layer at the index panics when there is none. *)
Definition with_user_config (config_toml : str) (user_config : TomlValue) (s : Stack)
    : result Empty_set Stack :=
  let user_layer := new_layer (User config_toml) user_config in
  match user_layer_index s with
  | Some index =>
      if bool_decide (index < length (layers s))
      then Ok (with_layers (<[index := user_layer]> (layers s)) index s)
      else Crash Panicked
  | None =>
      match position (fun layer => Z.ltb (precedence (name user_layer)) (precedence (name layer)))
              (layers s) with
      | Some index =>
          layers ← or_panic (vec_insert index user_layer (layers s));
          Ok (with_layers layers index s)
      | None =>
          Ok (with_layers (layers s ++ [user_layer]) (length (layers s)) s)
      end
  end.

End Versions.

Definition get_layers (ordering : ConfigLayerStackOrdering) (include_disabled : bool) (s : Stack)
    : list ConfigLayerEntry :=
  let layers := List.filter (fun layer => include_disabled || negb (is_disabled layer)) (layers s) in
  if bool_decide (ordering = HighestPrecedenceFirst) then rev layers else layers.

Definition effective_config (s : Stack) : TomlValue :=
  fold_left (fun merged layer => merge_toml_values merged (config layer))
    (get_layers LowestPrecedenceFirst false s) (TTable []).

Definition origins (s : Stack) : gmap (list N) ConfigLayerMetadata :=
  fold_left (fun origins layer =>
    record_origins (normalized_with_key_aliases (config layer) []) (metadata layer) [] origins)
    (get_layers LowestPrecedenceFirst false s) ∅.

Definition layers_high_to_low (s : Stack) : list ConfigLayerEntry :=
  get_layers HighestPrecedenceFirst false s.

End Stack.

End ConfigLayers.

(** * Facts about the layers of the configuration

    The highest layer that says something about a setting decides it, and setting the
    user's layer keeps a stack in order. *)

Import AbsPath ConfigToml ConfigTomlFacts ConfigMergeFacts ConfigLayers.

Module ConfigLayersFacts.

(** ** The effective configuration *)

Section Effective.
Context {R T : Type}.

(** The enabled layers, from the lowest to the highest. *)
Definition enabled (s : ConfigLayerStack R T) : list ConfigLayerEntry :=
  List.filter (fun layer => negb (is_disabled layer)) (layers s).

(** What a layer says, with the old keys renamed. *)
Definition content (layer : ConfigLayerEntry) : TomlValue :=
  normalized_with_key_aliases (config layer) [].

Lemma merged_settings (ls : list ConfigLayerEntry) (ks : list str) (x : TomlValue) :
  Forall (fun layer => well_formed (config layer)) ls ->
  let merged := fold_left (fun merged layer => merge_toml_values merged (config layer)) ls (TTable []) in
  normal [] merged /\
  (setting ks x merged <->
   exists l1 layer l2, ls = l1 ++ layer :: l2 /\ setting ks x (content layer)
     /\ Forall (fun l => silent ks (content l)) l2).
Proof.
  induction ls as [|layer ls IH] using rev_ind; intros Hw merged.
  { split; [by apply normal_table|]. split; [|intros (l1 & ? & ? & E & _); by destruct l1].
    intros [Hg Hx]. destruct ks; simpl in Hg; simplify_eq. by destruct (Hx []). }
  apply Forall_app in Hw as [Hw [Hl _]%Forall_cons]. destruct (IH Hw) as [Hn Hs].
  unfold merged. rewrite fold_left_app. cbn [fold_left]. split; [by apply merge_normal|].
  unfold merge_toml_values. rewrite merge_settings by done. rewrite Hs. split.
  - intros [Hset|(Hsil & l1 & l & l2 & -> & Hset & Hall)].
    + by exists ls, layer, [].
    + exists l1, l, (l2 ++ [layer]). rewrite <- app_assoc. split_and!; [done..|].
      apply Forall_app. by rewrite Forall_singleton.
  - intros (l1 & l & l2 & E & Hset & Hall). destruct l2 as [|l' l2 _] using rev_ind.
    + apply app_inj_tail in E as [-> ->]. by left.
    + rewrite app_comm_cons, app_assoc in E. apply app_inj_tail in E as [-> <-].
      apply Forall_app in Hall as [Hall [Hsil _]%Forall_cons]. right. split; [done|]. eauto 10.
Qed.

(** C37: what the effective configuration has at a path is what the highest enabled layer
    that says something about the path has there: that layer has the setting, and every
    layer above it is silent, leading part of the way to the path at most. *)
Theorem effective_setting (s : ConfigLayerStack R T) (ks : list str) (x : TomlValue) :
  Forall (fun layer => well_formed (config layer)) (layers s) ->
  setting ks x (effective_config s) <->
  exists l1 layer l2, enabled s = l1 ++ layer :: l2 /\ setting ks x (content layer)
    /\ Forall (fun l => silent ks (content l)) l2.
Proof.
  intros Hw. apply merged_settings. apply Forall_forall. intros l Hl.
  rewrite Forall_forall in Hw. apply Hw.
  apply list_elem_of_In in Hl. apply list_elem_of_In. by apply filter_In in Hl as [? _].
Qed.

End Effective.

(** ** The order of the layers *)

Definition lower (a b : ConfigLayerSource) : Prop := (precedence a <= precedence b)%Z.

Lemma is_sorted_spec (sources : list ConfigLayerSource) :
  is_sorted sources = true <-> StronglySorted lower sources.
Proof.
  assert (Transitive lower) by (intros a b c; unfold lower; lia).
  induction sources as [|a [|b rest] IH]; [by split; [constructor|]|by split; [repeat constructor|]|].
  change (is_sorted (a :: b :: rest))
    with (Z.leb (precedence a) (precedence b) && is_sorted (b :: rest)).
  rewrite andb_true_iff, Z.leb_le, IH. split.
  - intros [Hab Hs]. apply SSorted_cons; [done|]. apply Forall_cons. split; [done|].
    apply StronglySorted_inv in Hs as [_ Hb]. eapply Forall_impl; [done|].
    intros c. unfold lower. lia.
  - intros [Hs Ha]%StronglySorted_inv. by apply Forall_cons in Ha as [? _].
Qed.

Definition project_of (layer : ConfigLayerEntry) : option str :=
  match name layer with Project folder => Some folder | _ => None end.

Definition is_user (layer : ConfigLayerEntry) : bool :=
  match name layer with User _ => true | _ => false end.

(** Where the user's layers are, from an index on. *)
Fixpoint users (index : nat) (ls : list ConfigLayerEntry) : list nat :=
  match ls with
  | [] => []
  | l :: ls => (if is_user l then [index] else []) ++ users (S index) ls
  end.

(** Each project is checked against the one before. *)
Fixpoint project_chain (previous : option str) (folders : list str) : Prop :=
  match folders with
  | [] => True
  | f :: folders => check_project previous f = Ok tt /\ project_chain (Some f) folders
  end.

Lemma verify_loop_spec (ls : list ConfigLayerEntry) (index : nat) (user u : option nat)
    (previous : option str) :
  verify_loop index ls user previous = Ok u <->
  project_chain previous (omap project_of ls) /\ option_list user ++ users index ls = option_list u.
Proof.
  revert index user previous. induction ls as [|l ls IH]; intros index user previous; simpl.
  { rewrite app_nil_r. split; [by intros [= ->]|]. intros [_ E]. by destruct user, u; simplify_eq/=. }
  unfold project_of, is_user. destruct (name l); simpl; try apply IH.
  - destruct user as [i|]; simpl; [|apply IH]. split; [done|]. intros [_ E]. by destruct u.
  - rewrite bind_Ok. split.
    + intros ([] & Hc & Hv). apply IH in Hv as [? ?]. done.
    + intros [[Hc ?] ?]. exists tt. split; [done|]. by apply IH.
Qed.

Lemma verify_spec (ls : list ConfigLayerEntry) (u : option nat) :
  verify_layer_ordering ls = Ok u <->
  StronglySorted lower (map name ls) /\ project_chain None (omap project_of ls)
  /\ users 0 ls = option_list u.
Proof.
  unfold verify_layer_ordering. rewrite <- is_sorted_spec.
  destruct (is_sorted (map name ls)); simpl; [|naive_solver].
  rewrite verify_loop_spec. simpl. naive_solver.
Qed.

Lemma users_app (index : nat) (l1 l2 : list ConfigLayerEntry) :
  users index (l1 ++ l2) = users index l1 ++ users (index + length l1) l2.
Proof.
  revert index. induction l1 as [|l l1 IH]; intros index; simpl; [by rewrite Nat.add_0_r|].
  by rewrite IH, <- app_assoc, Nat.add_succ_comm.
Qed.

Lemma users_nil (index : nat) (ls : list ConfigLayerEntry) :
  users index ls = [] <-> Forall (fun l => is_user l = false) ls.
Proof.
  revert index. induction ls as [|l ls IH]; intros index; simpl; [by split; [constructor|]|].
  rewrite Forall_cons, <- (IH (S index)). destruct (is_user l); simpl; naive_solver.
Qed.

(** The one user's layer, between the others. *)
Lemma users_single (index i : nat) (ls : list ConfigLayerEntry) :
  users index ls = [i] ->
  exists l1 l l2, ls = l1 ++ l :: l2 /\ i = index + length l1 /\ is_user l = true
    /\ Forall (fun l => is_user l = false) l1 /\ Forall (fun l => is_user l = false) l2.
Proof.
  revert index. induction ls as [|l ls IH]; intros index; simpl; [done|].
  destruct (is_user l) eqn:Hl; simpl.
  - intros [= -> Hn%users_nil]. exists [], l, ls. split_and!; auto with lia.
  - intros (l1 & l0 & l2 & -> & -> & ? & ? & ?)%IH. exists (l :: l1), l0, l2.
    simpl. split_and!; auto with lia.
Qed.

Lemma position_split {A} (p : A -> bool) (l : list A) :
  match position p l with
  | Some i => exists l1 x l2, l = l1 ++ x :: l2 /\ i = length l1 /\ p x = true
                /\ Forall (fun y => p y = false) l1
  | None => Forall (fun y => p y = false) l
  end.
Proof.
  induction l as [|x l IH]; simpl; [constructor|]. destruct (p x) eqn:Hp.
  - by exists [], x, l.
  - destruct (position p l) as [i|]; simpl; [|by constructor].
    destruct IH as (l1 & y & l2 & -> & -> & ? & ?). exists (x :: l1), y, l2.
    split_and!; [done..|]. by constructor.
Qed.

(** ** Setting the user's layer *)

Section UserLayer.
Context {R T : Type} (version_of : TomlValue -> str).
Implicit Types (s : ConfigLayerStack R T).

(** What a stack is made with: layers in order, and the place of the user's layer. *)
Definition consistent s : Prop := verify_layer_ordering (layers s) = Ok (user_layer_index s).

Definition others (ls : list ConfigLayerEntry) : list ConfigLayerEntry :=
  List.filter (fun l => negb (is_user l)) ls.

Lemma others_app (l1 l2 : list ConfigLayerEntry) : others (l1 ++ l2) = others l1 ++ others l2.
Proof. apply List.filter_app. Qed.

Lemma user_precedence (l : ConfigLayerEntry) :
  is_user l = true -> precedence (name l) = 20%Z /\ project_of l = None.
Proof. unfold is_user, project_of. by destruct (name l). Qed.

(** A user's layer fits between the layers below it and those above it. *)
Lemma user_fits (l1 l2 : list ConfigLayerEntry) (l : ConfigLayerEntry) :
  is_user l = true ->
  Forall (fun l => is_user l = false) l1 -> Forall (fun l => is_user l = false) l2 ->
  StronglySorted lower (map name (l1 ++ l2)) -> project_chain None (omap project_of (l1 ++ l2)) ->
  Forall (fun x => (precedence (name x) <= 20)%Z) l1 ->
  Forall (fun x => (20 <= precedence (name x))%Z) l2 ->
  verify_layer_ordering (l1 ++ l :: l2) = Ok (Some (length l1)).
Proof.
  intros Hl H1 H2 Hs Hp Hlo Hhi. destruct (user_precedence l Hl) as [Hl20 Hlp].
  apply verify_spec. rewrite map_app in *. apply StronglySorted_app in Hs as (Hx & Hs1 & Hs2).
  split_and!.
  - apply StronglySorted_app_2; [|done|].
    + intros a b Ha [->|Hb]%elem_of_cons; [|by apply Hx].
      apply list_elem_of_fmap in Ha as (x & -> & Ha). rewrite Forall_forall in Hlo.
      unfold lower. rewrite Hl20. by apply Hlo.
    + apply SSorted_cons; [done|]. apply Forall_map. eapply Forall_impl; [done|].
      intros x. unfold lower. simpl. by rewrite Hl20.
  - rewrite omap_app in *. simpl. by rewrite Hlp.
  - rewrite users_app. cbn [users]. rewrite Hl. apply (users_nil 0) in H1. rewrite H1.
    by apply (users_nil (S (0 + length l1))) in H2 as ->.
Qed.

(** The user's layer takes the place of the one there was. *)
Lemma user_replaced (l1 l2 : list ConfigLayerEntry) (old l : ConfigLayerEntry) (u : option nat) :
  is_user old = true -> is_user l = true ->
  Forall (fun l => is_user l = false) l1 -> Forall (fun l => is_user l = false) l2 ->
  verify_layer_ordering (l1 ++ old :: l2) = Ok u ->
  verify_layer_ordering (l1 ++ l :: l2) = Ok (Some (length l1)).
Proof.
  intros Hold Hl H1 H2 (Hs & Hp & _)%verify_spec. destruct (user_precedence old Hold) as [Hold20 Holdp].
  rewrite map_app in Hs. simpl in Hs.
  pose proof Hs as (Hx & Hs1 & [Hs2 Hab]%StronglySorted_inv)%StronglySorted_app.
  apply user_fits; try done.
  - rewrite map_app. apply StronglySorted_app_2; [|done..].
    intros a b Ha Hb. apply Hx; [done|by right].
  - rewrite !omap_app in Hp. simpl in Hp. rewrite Holdp in Hp. by rewrite omap_app.
  - apply Forall_forall. intros x Hin. rewrite <- Hold20.
    apply (Hx (name x) (name old)); [by apply list_elem_of_fmap_2|by left].
  - rewrite Forall_map in Hab. eapply Forall_impl; [exact Hab|].
    intros x. unfold lower. simpl. by rewrite Hold20.
Qed.

(** The user's layer goes before the first layer above it. *)
Lemma user_inserted (l1 l2 : list ConfigLayerEntry) (l : ConfigLayerEntry) (u : option nat) :
  is_user l = true -> Forall (fun l => is_user l = false) (l1 ++ l2) ->
  Forall (fun x => (precedence (name x) <= 20)%Z) l1 ->
  (forall x, head l2 = Some x -> (20 < precedence (name x))%Z) ->
  verify_layer_ordering (l1 ++ l2) = Ok u ->
  verify_layer_ordering (l1 ++ l :: l2) = Ok (Some (length l1)).
Proof.
  intros Hl [H1 H2]%Forall_app Hlo Hx (Hs & Hp & _)%verify_spec. apply user_fits; try done.
  destruct l2 as [|x l2]; [constructor|]. specialize (Hx x eq_refl).
  rewrite map_app in Hs. apply StronglySorted_app_1_r in Hs. simpl in Hs.
  apply StronglySorted_inv in Hs as [_ Hab]. apply Forall_cons. split; [lia|].
  rewrite Forall_map in Hab. eapply Forall_impl; [exact Hab|]. intros y. unfold lower. simpl. lia.
Qed.

(** Setting the user's layer of a consistent stack never panics and gives a
    consistent stack again, whose user's layer is the new one; every other layer, the
    requirements and the switch for the rules stay as they were. *)
Theorem with_user_config_consistent s (file : str) (user_config : TomlValue) :
  consistent s ->
  exists s', with_user_config version_of file user_config s = Ok s' /\ consistent s'
    /\ get_user_layer s' = Some (new_layer version_of (User file) user_config)
    /\ others (layers s') = others (layers s)
    /\ requirements s' = requirements s /\ requirements_toml s' = requirements_toml s
    /\ ignore_user_and_project_exec_policy_rules s'
       = ignore_user_and_project_exec_policy_rules s.
Proof.
  unfold consistent. intros Hc. pose proof Hc as (Hs & Hp & Hu)%verify_spec.
  unfold with_user_config. set (l := new_layer version_of (User file) user_config).
  cut (exists l1 l2 s', (match user_layer_index s with
                     | Some _ => exists old, is_user old = true /\ layers s = l1 ++ old :: l2
                     | None => layers s = l1 ++ l2 end)
         /\ s' = with_layers (l1 ++ l :: l2) (length l1) s
         /\ with_user_config version_of file user_config s = Ok s'
         /\ verify_layer_ordering (l1 ++ l :: l2) = Ok (Some (length l1))).
  { intros (l1 & l2 & s' & El & -> & Hok & Hv). eexists. split; [exact Hok|]. split_and!; try done.
    - by apply list_lookup_middle.
    - simpl. rewrite others_app. destruct (user_layer_index s); [destruct El as (old & Hold & ->)|rewrite El];
        rewrite others_app; simpl; [by rewrite Hold|done]. }
  unfold with_user_config. fold l. destruct (user_layer_index s) as [i|].
  - apply users_single in Hu as (l1 & old & l2 & El & -> & Hold & H1 & H2). rewrite El in *.
    exists l1, l2. eexists. split_and!; [by exists old|done| |by eapply (user_replaced _ _ old)].
    simpl. rewrite bool_decide_true by (rewrite length_app; simpl; lia).
    by rewrite insert_app_r_alt, Nat.sub_diag.
  - simpl in Hu. apply users_nil in Hu. cbn [name new_layer l].
    pose proof (position_split (fun layer => Z.ltb (precedence (User file)) (precedence (name layer)))
                  (layers s)) as Hpos.
    assert (Hle : forall l1, Forall (fun x => Z.ltb (precedence (User file)) (precedence (name x)) = false) l1 ->
              Forall (fun x => (precedence (name x) <= 20)%Z) l1)
      by (intros l1 Hf; eapply Forall_impl; [exact Hf|]; intros y; simpl; by rewrite Z.ltb_ge).
    destruct (position _ (layers s)) as [i|].
    + destruct Hpos as (l1 & x & l2 & El & -> & Hx%Z.ltb_lt & Hlo). rewrite El in *.
      exists l1, (x :: l2). eexists. split_and!; [done|done| |].
      * rewrite vec_insert_in_range by (rewrite length_app; lia). simpl.
        by rewrite take_app_length, drop_app_length.
      * eapply user_inserted; [done|done|by apply Hle| |done]. by intros ? [= <-].
    + exists (layers s), []. eexists. split_and!; [by rewrite app_nil_r|done|done|].
      eapply user_inserted; rewrite ?app_nil_r; [done|done|by apply Hle|done|done].
Qed.

End UserLayer.

(** ** Two layers to try the theorems on *)

Definition demo_layer (name : ConfigLayerSource) (model : str) : ConfigLayerEntry :=
  {| name := name; config := TTable [(lit "model", TString model)]; raw_toml := None;
     version := lit "sha256:"; disabled_reason := None |}.

Definition demo_stack : ConfigLayerStack unit unit := {|
  layers := [demo_layer (System (lit "/etc/c.toml")) (lit "a"); demo_layer SessionFlags (lit "b")];
  user_layer_index := None;
  requirements := tt; requirements_toml := tt;
  ignore_user_and_project_exec_policy_rules := false;
|}.

Lemma effective_setting_witness :
  exists l1 layer l2, enabled demo_stack = l1 ++ layer :: l2
    /\ setting [lit "model"] (TString (lit "b")) (content layer)
    /\ Forall (fun l => silent [lit "model"] (content l)) l2.
Proof.
  refine (proj1 (effective_setting demo_stack [lit "model"] (TString (lit "b")) _) _).
  - assert (Hwf : forall model, well_formed (TTable [(lit "model", TString model)])).
    { intros model. constructor; [by apply NoDup_singleton|]. intros k c. simpl.
      case_match; [|done]. intros [= <-]. by apply wf_other. }
    by apply Forall_cons; split; [apply Hwf|apply Forall_singleton, Hwf].
  - split; [by vm_compute|]. intros t. discriminate.
Defined.

Lemma with_user_config_consistent_witness :
  exists s', with_user_config (fun _ => lit "sha256:") (lit "/h/config.toml") (TTable []) demo_stack
             = Ok s'
    /\ consistent s'
    /\ get_user_layer s'
       = Some (new_layer (fun _ => lit "sha256:") (User (lit "/h/config.toml")) (TTable []))
    /\ others (layers s') = others (layers demo_stack)
    /\ requirements s' = requirements demo_stack
    /\ requirements_toml s' = requirements_toml demo_stack
    /\ ignore_user_and_project_exec_policy_rules s'
       = ignore_user_and_project_exec_policy_rules demo_stack.
Proof. apply with_user_config_consistent. by vm_compute. Defined.

End ConfigLayersFacts.
