(* ===== verification/ConfigRules.v ===== *)
(** * Rules of the requirements: src/config/src/requirements_exec_policy.rs

    The rules of an administrator, as they are written in requirements.toml, and their
    conversion into a policy. They may prompt or forbid, but not allow. *)

From Stdlib Require Import Ascii String.
From stdpp Require Import sorting.
From S2P Require Import Prelude RustStr AbsPath ExecRule ExecPolicyFacts ExecParser.
From S2P Require Import ExecParserFacts.
Import AbsPath ExecRule ExecPolicy.

Module ConfigRules.

Record RequirementsExecPolicyPatternTokenToml := {
  token : option str;
  any_of : option (list str);
}.

Inductive RequirementsExecPolicyDecisionToml := TomlAllow | TomlPrompt | TomlForbidden.

Definition as_decision (d : RequirementsExecPolicyDecisionToml) : Decision :=
  match d with TomlAllow => Allow | TomlPrompt => Prompt | TomlForbidden => Forbidden end.

Record RequirementsExecPolicyPrefixRuleToml := {
  toml_pattern : list RequirementsExecPolicyPatternTokenToml;
  toml_decision : option RequirementsExecPolicyDecisionToml;
  toml_justification : option str;
}.

Record RequirementsExecPolicyToml := {
  prefix_rules : list RequirementsExecPolicyPrefixRuleToml;
}.

Inductive RequirementsExecPolicyParseError :=
| EmptyPrefixRules
| EmptyPattern (rule_index : nat)
| InvalidPatternToken (rule_index token_index : nat) (reason : str)
| EmptyJustification (rule_index : nat)
| MissingDecision (rule_index : nat)
| AllowDecisionNotAllowed (rule_index : nat).

Local Abbreviation Err' := RequirementsExecPolicyParseError.

Definition parse_pattern_token (t : RequirementsExecPolicyPatternTokenToml)
    (rule_index token_index : nat) : result Err' PatternToken :=
  let invalid reason := Err (InvalidPatternToken rule_index token_index (lit reason)) in
  match token t, any_of t with
  | Some single, None =>
      if str_eqb (trim single) [] then invalid "token cannot be empty"%string
      else Ok (Single single)
  | None, Some alternatives =>
      if bool_decide (alternatives = []) then invalid "any_of cannot be empty"%string
      else if existsb (fun alt => str_eqb (trim alt) []) alternatives
      then invalid "any_of cannot include empty tokens"%string
      else Ok (Alts alternatives)
  | Some _, Some _ => invalid "set either token or any_of, not both"%string
  | None, None => invalid "set either token or any_of"%string
  end.

(** [iter().enumerate().map(f).collect::<Result<Vec<_>, _>>()]. *)
Fixpoint collect_indexed {A B E} (f : A -> nat -> result E B) (index : nat) (l : list A)
    : result E (list B) :=
  match l with
  | [] => Ok []
  | x :: l =>
      y ← f x index;
      ys ← collect_indexed f (S index) l;
      Ok (y :: ys)
  end.

Definition insert_rule (rest : list PatternToken) (decision : Decision)
    (justification : option str) (rules : multimap PrefixRule) (head : str)
    : multimap PrefixRule :=
  mm_insert head
    {| pattern := {| first := head; rest := rest |}; rule_decision := decision;
       rule_justification := justification |} rules.

(** The body of the loop over the rules. *)
Definition convert_rule (rule_index : nat) (rule : RequirementsExecPolicyPrefixRuleToml)
    (rules_by_program : multimap PrefixRule) : result Err' (multimap PrefixRule) :=
  if match toml_justification rule with Some j => str_eqb (trim j) [] | None => false end
  then Err (EmptyJustification rule_index)
  else if bool_decide (toml_pattern rule = []) then Err (EmptyPattern rule_index)
  else
    pattern_tokens ← collect_indexed
      (fun token token_index => parse_pattern_token token rule_index token_index)
      0 (toml_pattern rule);
    decision ← match toml_decision rule with
               | Some TomlAllow => Err (AllowDecisionNotAllowed rule_index)
               | Some decision => Ok (as_decision decision)
               | None => Err (MissingDecision rule_index)
               end;
    match pattern_tokens with
    | [] => Err (EmptyPattern rule_index)
    | first_token :: rest =>
        Ok (fold_left (insert_rule rest decision (toml_justification rule))
              (alternatives first_token) rules_by_program)
    end.

Fixpoint convert_rules (rule_index : nat) (rules : list RequirementsExecPolicyPrefixRuleToml)
    (rules_by_program : multimap PrefixRule) : result Err' (multimap PrefixRule) :=
  match rules with
  | [] => Ok rules_by_program
  | rule :: rules =>
      rules_by_program ← convert_rule rule_index rule rules_by_program;
      convert_rules (S rule_index) rules rules_by_program
  end.

Definition to_policy (t : RequirementsExecPolicyToml) : result Err' Policy :=
  if bool_decide (length (prefix_rules t) = 0) then Err EmptyPrefixRules
  else
    rules_by_program ← convert_rules 0 (prefix_rules t) ∅;
    Ok (new rules_by_program).

(** ** [RequirementsExecPolicy] *)

Record RequirementsExecPolicy := { requirements_policy : Policy }.

Definition to_requirements_policy (t : RequirementsExecPolicyToml)
    : result Err' RequirementsExecPolicy :=
  policy ← to_policy t; Ok {| requirements_policy := policy |}.

Section Fingerprint.
(** [Debug] of a rule. *)
Context (debug_rule : PrefixRule -> str).

Definition policy_fingerprint (p : Policy) : list str :=
  merge_sort str_le
    (map_to_list (rules_by_program p) ≫= fun '(program, rules) =>
       map (fun rule => program ++ lit ":" ++ debug_rule rule) rules).

Definition requirements_eqb (a b : RequirementsExecPolicy) : bool :=
  bool_decide (policy_fingerprint (requirements_policy a)
               = policy_fingerprint (requirements_policy b)).

End Fingerprint.

End ConfigRules.

(** * Facts about the rules of the requirements

    The rules mean what they say, and none of them allows a command. *)

Import AbsPath ExecRule ExecPolicy ExecPolicyFacts ExecParserFacts.
Import ConfigRules.

Module ConfigRulesFacts.

(** What a pattern token of the file admits. *)
Definition token_spec (t : RequirementsExecPolicyPatternTokenToml) (p : PatternToken) : Prop :=
  (exists single, token t = Some single /\ any_of t = None /\ p = Single single)
  \/ (exists alts, token t = None /\ any_of t = Some alts /\ p = Alts alts).

Definition admits (t : RequirementsExecPolicyPatternTokenToml) (word : str) : Prop :=
  token t = Some word \/ exists alts, any_of t = Some alts /\ word ∈ alts.

Lemma token_spec_admits (t : RequirementsExecPolicyPatternTokenToml) (p : PatternToken) (word : str) :
  token_spec t p -> word ∈ alternatives p <-> admits t word.
Proof.
  unfold admits. intros [(s & Ht & Ha & ->)|(alts & Ht & Ha & ->)]; rewrite Ht, Ha; simpl.
  - rewrite list_elem_of_singleton. naive_solver.
  - naive_solver.
Qed.

Lemma parse_pattern_token_Ok (t : RequirementsExecPolicyPatternTokenToml) (i j : nat) (p : PatternToken) :
  parse_pattern_token t i j = Ok p -> token_spec t p.
Proof. unfold parse_pattern_token, token_spec. repeat case_match; intros; simplify_eq; naive_solver. Qed.

Lemma collect_tokens (i j : nat) (ts : list RequirementsExecPolicyPatternTokenToml)
    (ps : list PatternToken) :
  collect_indexed (fun t k => parse_pattern_token t i k) j ts = Ok ps -> Forall2 token_spec ts ps.
Proof.
  revert j ps. induction ts as [|t ts IH]; intros j ps; simpl; [intros; simplify_eq; constructor|].
  intros H. inv_bind. constructor; [by eapply parse_pattern_token_Ok|by eapply IH].
Qed.

(** What a rule of the file becomes. *)
Definition converted (rule : RequirementsExecPolicyPrefixRuleToml) (rs : list PrefixRule) : Prop :=
  exists t ts d, Forall2 token_spec (toml_pattern rule) (t :: ts)
    /\ as_decision <$> toml_decision rule = Some d /\ d <> Allow
    /\ rs = ExecParser.prefix_rules t ts d (toml_justification rule).

Lemma convert_rule_Ok (i : nat) (rule : RequirementsExecPolicyPrefixRuleToml)
    (m m' : multimap PrefixRule) :
  convert_rule i rule m = Ok m' ->
  exists rs, converted rule rs /\ m' = insert_rules rs m.
Proof.
  unfold convert_rule. intros H. case_match; [done|]. case_match; [done|].
  apply bind_Ok in H as (ps & Hps%collect_tokens & H). apply bind_Ok in H as (d & Hd & H).
  destruct ps as [|t ts]; [done|]. simplify_eq.
  exists (ExecParser.prefix_rules t ts d (toml_justification rule)). split.
  - exists t, ts, d. split_and!; [done|..|done];
      destruct (toml_decision rule) as [[]|]; simpl in *; by simplify_eq.
  - unfold ExecParser.prefix_rules. generalize (alternatives t) as heads. revert m.
    intros m heads. revert m. induction heads as [|h heads IH]; intros m; [done|]. apply IH.
Qed.

Lemma convert_rules_Ok (i : nat) (rules : list RequirementsExecPolicyPrefixRuleToml)
    (m m' : multimap PrefixRule) :
  convert_rules i rules m = Ok m' ->
  exists rss, Forall2 converted rules rss /\
    forall k, mm_get m' k = mm_get m k ++ filter (fun r => program r = k) (concat rss).
Proof.
  revert i m. induction rules as [|rule rules IH]; intros i m; simpl; intros H.
  - simplify_eq. exists []. split; [constructor|]. intros k. by rewrite app_nil_r.
  - apply bind_Ok in H as (m1 & (rs & Hrs & ->)%convert_rule_Ok & H).
    apply IH in H as (rss & Hrss & Hk). exists (rs :: rss). split; [by constructor|].
    intros k. simpl. by rewrite Hk, mm_get_insert_rules, filter_app, app_assoc.
Qed.

(** So the policy of the requirements is among those that [reachable] means. *)
Theorem requirements_reachable (t : RequirementsExecPolicyToml) (p : Policy) :
  to_policy t = Ok p -> reachable p.
Proof.
  unfold to_policy. intros H. case_match; [done|]. apply bind_Ok in H as (m & Hm & H). simplify_eq.
  enough (exists rules, m = insert_rules rules ∅) as [rules ->] by apply reach_parts.
  assert (forall i l m0 m1, convert_rules i l m0 = Ok m1 -> exists rules, m1 = insert_rules rules m0)
    as Hconv; [|by eapply Hconv].
  intros i l. revert i. induction l as [|x l IH]; intros i m0 m1 H; simpl in H.
  - simplify_eq. by exists [].
  - apply bind_Ok in H as (m2 & (rs & _ & ->)%convert_rule_Ok & H).
    apply IH in H as [rules ->]. exists (rs ++ rules). unfold insert_rules. by rewrite fold_left_app.
Qed.

(** The matches of a rule of the file. *)
Definition rule_match (rule : RequirementsExecPolicyPrefixRuleToml) (cmd : list str)
    (m : RuleMatch) : Prop :=
  exists matched args d, cmd = matched ++ args /\ Forall2 admits (toml_pattern rule) matched
    /\ as_decision <$> toml_decision rule = Some d /\ d <> Allow
    /\ m = PrefixRuleMatch matched d None (toml_justification rule).

Lemma converted_match (rule : RequirementsExecPolicyPrefixRuleToml) (rs : list PrefixRule)
    (cmd : list str) (m : RuleMatch) :
  converted rule rs -> (exists r, r ∈ rs /\ rule_applies r cmd m) <-> rule_match rule cmd m.
Proof.
  intros (t & ts & d & Hf & Hd & Hna & ->). rewrite prefix_rules_match. unfold rule_match.
  assert (Hadm : forall matched, Forall2 (fun t c => c ∈ alternatives t) (t :: ts) matched
                            <-> Forall2 admits (toml_pattern rule) matched).
  { clear -Hf. induction Hf as [|x p l ps Hp _ IH]; intros matched.
    - split; intros H; inversion H; constructor.
    - destruct matched as [|c matched]; [by split; intros H; inversion H|].
      rewrite !Forall2_cons, IH. by rewrite (token_spec_admits x p c Hp). }
  setoid_rewrite Hadm. split.
  - intros (mt & args & -> & Hm & ->). by exists mt, args, d.
  - intros (mt & args & d' & -> & Hm & Hd' & _ & ->). rewrite Hd in Hd'. simplify_eq.
    by exists mt, args.
Qed.

(** The matches of the policy of a requirements file. *)
Lemma requirements_matches (t : RequirementsExecPolicyToml) (p : Policy) (cmd : list str)
    (m : RuleMatch) :
  to_policy t = Ok p -> m ∈ exact p cmd <-> exists rule, rule ∈ prefix_rules t /\ rule_match rule cmd m.
Proof.
  unfold to_policy. intros H. case_match; [done|]. apply bind_Ok in H as (m' & Hm' & H).
  apply convert_rules_Ok in Hm' as (rss & Hrss & Hk). simplify_eq.
  transitivity (exists r, r ∈ concat rss /\ rule_applies r cmd m).
  - destruct cmd as [|c cmd].
    { split; [by intros ?%not_elem_of_nil|]. by intros (r & _ & (args & ?)%rule_applies_program). }
    rewrite exact_rules_of, list_elem_of_omap.
    change (rules_of (new m') c) with (mm_get m' c). rewrite Hk. unfold mm_get at 1.
    rewrite lookup_empty. cbn [app]. split.
    + intros (r & [_ Hr]%list_elem_of_filter & Hm%rule_applies_matches). eauto.
    + intros (r & Hr & Ha). exists r. split; [|by apply rule_applies_matches].
      apply list_elem_of_filter. split; [|done].
      apply rule_applies_program in Ha as [? ?]. by simplify_eq.
  - clear -Hrss. induction Hrss as [|rule rs rules rss Hc _ IH]; simpl.
    + split; intros (? & ?%not_elem_of_nil & _); done.
    + setoid_rewrite elem_of_app. setoid_rewrite elem_of_cons.
      pose proof (converted_match rule rs cmd m Hc). naive_solver.
Qed.

(** The rules of a requirements file match what they spell out, token by token, with
    the decision and the justification that the file gives; none of them allows. *)
Theorem requirements_rules_meaning (t : RequirementsExecPolicyToml) (p : Policy)
    (cmd : list str) (m : RuleMatch) :
  to_policy t = Ok p ->
  m ∈ exact p cmd <->
  exists rule matched args d, rule ∈ prefix_rules t /\ cmd = matched ++ args
    /\ Forall2 admits (toml_pattern rule) matched
    /\ as_decision <$> toml_decision rule = Some d /\ d <> Allow
    /\ m = PrefixRuleMatch matched d None (toml_justification rule).
Proof. intros Ht. rewrite (requirements_matches t p cmd m Ht). unfold rule_match. naive_solver. Qed.

(** A command that the requirements match is not allowed, whatever rules are loaded
    beside them, whatever the fallback says. *)
Lemma requirements_never_allow (t : RequirementsExecPolicyToml) (p q : Policy)
    (home cwd : option str) (cmd : list str) (fb : list str -> Decision) options :
  to_policy t = Ok q -> exact q cmd <> [] ->
  exists m, m ∈ matches_for_command_with_options home cwd (merge_overlay p q) cmd (Some fb) options
    /\ match_decision m <> Allow.
Proof.
  intros Ht Hne. destruct (exact q cmd) as [|m ms] eqn:E; [done|]. exists m.
  rewrite matches_exact by (rewrite exact_merge, E; by intros [_ ?]%app_eq_nil).
  rewrite exact_merge, E, elem_of_app. split; [by right; left|].
  assert (Hm : m ∈ exact q cmd) by (rewrite E; by left).
  apply (requirements_matches t q cmd m Ht) in Hm as (rule & _ & mt & args & d & _ & _ & _ & Hd & ->).
  done.
Qed.

(** A requirements file that wants every [git push] and [git pull] confirmed. *)
Definition demo_rules : RequirementsExecPolicyToml := {| prefix_rules := [
  {| toml_pattern := [{| token := Some (lit "git"); any_of := None |};
                      {| token := None; any_of := Some [lit "push"; lit "pull"] |}];
     toml_decision := Some TomlPrompt; toml_justification := None |}] |}.

Definition demo_rules_policy : Policy :=
  match to_policy demo_rules with Ok p => p | _ => ExecPolicy.empty end.

Lemma requirements_rules_meaning_witness :
  exists rule matched args d, rule ∈ prefix_rules demo_rules
    /\ [lit "git"; lit "pull"; lit "-r"] = matched ++ args
    /\ Forall2 admits (toml_pattern rule) matched
    /\ as_decision <$> toml_decision rule = Some d /\ d <> Allow
    /\ PrefixRuleMatch [lit "git"; lit "pull"] Prompt None None
       = PrefixRuleMatch matched d None (toml_justification rule).
Proof.
  apply (requirements_rules_meaning demo_rules demo_rules_policy); [by vm_compute|].
  vm_compute. by left.
Defined.

End ConfigRulesFacts.
