(* ===== verification/Approval.v ===== *)
(** * Approvals: src/protocol/src/protocol.rs, src/core/src/{execution/mod,tools/execution,safety,apply_patch}.rs

    When the user is asked before a command runs or a patch is applied. [Approval] has
    the settings and the requirement that a tool call ends up with; a patch is judged by
    the files it changes. *)

From Stdlib Require Import Ascii String.
From S2P Require Import Prelude RustStr AbsPath FileSystem PatchParser PatchReplace PatchApply.
From S2P Require Import PatchInvocation FsPolicy FsRoots.
Import AbsPath PatchParser PatchReplace PatchApply PatchInvocation FsPolicy FsRoots FsProfile.

Module Approval.

(** ** protocol.rs: the settings *)

Record GranularApprovalConfig := {
  access_approval : bool;
  rules : bool;
  skill_approval : bool;
  request_permissions : bool;
  mcp_elicitations : bool;
}.

Definition allows_access_approval (c : GranularApprovalConfig) : bool := access_approval c.
Definition allows_rules_approval (c : GranularApprovalConfig) : bool := rules c.

Inductive AskForApproval :=
| UnlessTrusted
| OnFailure
| OnRequest
| Granular (config : GranularApprovalConfig)
| Never.

(** ** execution/mod.rs: what a call asks for *)

Inductive ExecutionPermissionLevel := UseDefault | RequireEscalated | WithAdditionalPermissions.

Definition requires_escalated_permissions (l : ExecutionPermissionLevel) : bool :=
  match l with RequireEscalated => true | _ => false end.

Definition uses_additional_permissions (l : ExecutionPermissionLevel) : bool :=
  match l with WithAdditionalPermissions => true | _ => false end.

Definition requests_escalated_permissions (l : ExecutionPermissionLevel) : bool :=
  match l with WithAdditionalPermissions => true | _ => false end.

(** ** tools/execution.rs: the requirement *)

Record ExecPolicyAmendment := { amendment_command : list str }.

Inductive ExecApprovalRequirement :=
| Skip (proposed_execpolicy_amendment : option ExecPolicyAmendment)
| NeedsApproval (reason : option str) (proposed_execpolicy_amendment : option ExecPolicyAmendment)
| ForbiddenCall (reason : str).

Definition proposed_execpolicy_amendment (r : ExecApprovalRequirement)
    : option ExecPolicyAmendment :=
  match r with
  | NeedsApproval _ (Some prefix) => Some prefix
  | Skip (Some prefix) => Some prefix
  | _ => None
  end.

Definition is_restricted_level (p : FileSystemAccessPolicy) : bool :=
  bool_decide (policy_kind p = Restricted).

Definition default_exec_approval_requirement (policy : AskForApproval)
    (file_system_access_policy : FileSystemAccessPolicy) : ExecApprovalRequirement :=
  let needs_approval :=
    match policy with
    | Never | OnFailure => false
    | OnRequest | Granular _ => is_restricted_level file_system_access_policy
    | UnlessTrusted => true
    end in
  if needs_approval
     && match policy with
        | Granular granular_config => negb (allows_access_approval granular_config)
        | _ => false
        end
  then ForbiddenCall
         (lit "approval policy disallowed access-escalation approval prompt")
  else if needs_approval then NeedsApproval None None
  else Skip None.

(** The network proxy of a call, unless the call leaves the managed environment. *)
Definition managed_network_for_permission_level {Proxy} (network : option Proxy)
    (permission_level : ExecutionPermissionLevel) : option Proxy :=
  if requires_escalated_permissions permission_level then None else network.

(** ** safety.rs: patches *)

Definition PATCH_REJECTED_OUTSIDE_PROJECT_REASON : str :=
  lit "writing outside of the project; rejected by user approval settings".

Definition PATCH_REJECTED_READ_ONLY_REASON : str :=
  lit "writing is blocked by read-only access policy; rejected by user approval settings".

Inductive SafetyCheck :=
| AutoApprove (user_explicitly_approved : bool)
| AskUser
| Reject (reason : str).

Definition resolve_path (base path : str) : str :=
  if is_absolute path then path else push base path.

(** The loop over the components of a path. *)
Definition normalize (path : str) : str :=
  fold_left (fun out comp =>
    match comp with
    | ParentDir => pop out
    | CurDir => out
    | other => push out (component_str other)
    end) (components path) [].

Definition profile_is_unmanaged (profile : PermissionProfile) : bool :=
  match profile with Disabled | ExternalProfile _ => true | Managed _ _ => false end.

(** Settings under which a prompt about access is never shown. *)
Definition rejects_access_approval (policy : AskForApproval) : bool :=
  match policy with
  | Never => true
  | Granular granular_config => negb (access_approval granular_config)
  | _ => false
  end.

Section OnHost.
Context (H : Host).

Definition is_path_writable (p : FileSystemAccessPolicy) (cwd path : str) : bool :=
  can_write_path_with_cwd H p (normalize (resolve_path cwd path)) cwd.

Definition change_is_writable (p : FileSystemAccessPolicy) (cwd : str)
    (change : str * ApplyPatchFileChange) : bool :=
  let '(path, change) := change in
  match change with
  | Add _ | Delete _ => is_path_writable p cwd path
  | Update _ move_path _ =>
      if negb (is_path_writable p cwd path) then false
      else match move_path with
           | Some dest => is_path_writable p cwd dest
           | None => true
           end
  end.

Definition is_write_patch_constrained_to_writable_paths (action : ApplyPatchAction)
    (p : FileSystemAccessPolicy) (cwd : str) : bool :=
  forallb (change_is_writable p cwd) (map_to_list (action_changes action)).

Definition patch_rejection_reason (profile : PermissionProfile) (p : FileSystemAccessPolicy)
    (cwd : str) : str :=
  match profile with
  | Managed _ _ =>
      if negb (has_full_disk_write_access p)
         && bool_decide (length (get_writable_roots_with_cwd H p cwd) = 0)
      then PATCH_REJECTED_READ_ONLY_REASON else PATCH_REJECTED_OUTSIDE_PROJECT_REASON
  | Disabled | ExternalProfile _ => PATCH_REJECTED_OUTSIDE_PROJECT_REASON
  end.

Definition action_is_empty (action : ApplyPatchAction) : bool :=
  bool_decide (action_changes action = ∅).

Definition assess_patch_safety (action : ApplyPatchAction) (policy : AskForApproval)
    (profile : PermissionProfile) (p : FileSystemAccessPolicy) (cwd : str) : SafetyCheck :=
  if action_is_empty action then Reject (lit "empty patch")
  else
    match policy with
    | UnlessTrusted => AskUser
    | OnFailure | Never | OnRequest | Granular _ =>
        let rejects := rejects_access_approval policy in
        if is_write_patch_constrained_to_writable_paths action p cwd
           || match policy with OnFailure => true | _ => false end
        then
          if profile_is_unmanaged profile then AutoApprove false
          else if rejects then Reject (patch_rejection_reason profile p cwd)
          else AskUser
        else if rejects then Reject (patch_rejection_reason profile p cwd)
        else AskUser
    end.

(** ** apply_patch.rs *)

Record ApplyPatchRuntimeInvocation := {
  invocation_action : ApplyPatchAction;
  auto_approved : bool;
  exec_approval_requirement : ExecApprovalRequirement;
}.

(** [Output] is only made with an error that goes to the model. *)
Inductive InternalApplyPatchInvocation :=
| Output (respond_to_model : str)
| DelegateToRuntime (invocation : ApplyPatchRuntimeInvocation).

Definition apply_patch (policy : AskForApproval) (profile : PermissionProfile) (cwd : str)
    (p : FileSystemAccessPolicy) (action : ApplyPatchAction) : InternalApplyPatchInvocation :=
  match assess_patch_safety action policy profile p cwd with
  | AutoApprove user_explicitly_approved =>
      DelegateToRuntime {| invocation_action := action;
                           auto_approved := negb user_explicitly_approved;
                           exec_approval_requirement := Skip None |}
  | AskUser =>
      DelegateToRuntime {| invocation_action := action; auto_approved := false;
                           exec_approval_requirement := NeedsApproval None None |}
  | Reject reason => Output (lit "patch rejected: " ++ reason)
  end.

End OnHost.

Inductive FileChange :=
| ProtocolAdd (content : str)
| ProtocolDelete (content : str)
| ProtocolUpdate (unified_diff : str) (move_path : option str).

Definition protocol_change (change : ApplyPatchFileChange) : FileChange :=
  match change with
  | Add content => ProtocolAdd content
  | Delete content => ProtocolDelete content
  | Update unified_diff move_path _ => ProtocolUpdate unified_diff move_path
  end.

Definition convert_apply_patch_to_protocol (action : ApplyPatchAction)
    : gmap (list N) FileChange :=
  protocol_change <$> action_changes action.

End Approval.

(** * Facts about approvals and permission profiles

    When a patch is applied unasked, put to the user or refused; and which profiles come
    back from the policies they are enforced with. *)

Import AbsPath PatchApply PatchInvocation FsPolicy FsRoots FsProfile Approval.

Module ApprovalFacts.

Section OnHost.
Context (H : Host).

(** ** Patches *)

(** Every file that the patch adds, deletes, changes or moves to may be written. *)
Definition writes_allowed (p : FileSystemAccessPolicy) (cwd : str) (action : ApplyPatchAction) : Prop :=
  forall path change, action_changes action !! path = Some change ->
    is_path_writable H p cwd path = true
    /\ forall diff dest content, change = Update diff (Some dest) content ->
         is_path_writable H p cwd dest = true.

Lemma constrained_spec (action : ApplyPatchAction) (p : FileSystemAccessPolicy) (cwd : str) :
  is_write_patch_constrained_to_writable_paths H action p cwd = true <-> writes_allowed p cwd action.
Proof.
  unfold is_write_patch_constrained_to_writable_paths, writes_allowed.
  rewrite forallb_Forall, Forall_forall. split.
  - intros Hall path change Hl%elem_of_map_to_list. specialize (Hall _ Hl). simpl in Hall.
    destruct change as [c|c|diff mv c]; [by split|by split|].
    destruct (is_path_writable H p cwd path); [|done]. split; [done|].
    intros diff' dest c' [= <- -> <-]. done.
  - intros Hall [path change] Hl%elem_of_map_to_list. destruct (Hall _ _ Hl) as [Hp Hd]. simpl.
    destruct change as [c|c|diff mv c]; rewrite Hp; try done. simpl.
    destruct mv as [dest|]; [|done]. by eapply Hd.
Qed.

(** A patch is applied unasked exactly when it changes something, the session is not
    managed, the settings are not the untrusted ones, and either all it writes may be
    written or the settings ask on failure only; it is refused exactly when it is empty,
    or when prompts are off and it is not applied unasked. *)
Theorem patch_verdicts (action : ApplyPatchAction) (policy : AskForApproval)
    (profile : PermissionProfile) (p : FileSystemAccessPolicy) (cwd : str) :
  let verdict := assess_patch_safety H action policy profile p cwd in
  let unasked := action_changes action <> ∅ /\ profile_is_unmanaged profile = true
                 /\ policy <> UnlessTrusted /\ (policy = OnFailure \/ writes_allowed p cwd action) in
  ((exists user, verdict = AutoApprove user) <-> unasked)
  /\ ((exists reason, verdict = Reject reason) <->
      action_changes action = ∅ \/ (rejects_access_approval policy = true /\ ~ unasked))
  /\ (forall user, verdict = AutoApprove user -> user = false).
Proof.
  cbv zeta. unfold assess_patch_safety, action_is_empty.
  pose proof (constrained_spec action p cwd) as Hc.
  destruct (is_write_patch_constrained_to_writable_paths H action p cwd);
    [assert (Hw : writes_allowed p cwd action) by by apply Hc
    |assert (Hw : ~ writes_allowed p cwd action) by (intros ?%Hc; done)]; clear Hc;
    case_bool_decide as He; destruct policy as [| | |g|], profile; simpl;
    try destruct (access_approval g); simpl; naive_solver.
Qed.

(** ** Profiles *)

(** A profile comes back from the policies that it is enforced with, if the way it is
    enforced is known: only a managed profile without entries does not, which stands for
    the entries of a workspace. *)
Theorem profile_roundtrip (profile : PermissionProfile) :
  (forall depth network, profile <> Managed (ManagedRestricted [] depth) network) ->
  let '(file_system, network) := to_runtime_permissions H profile in
  from_runtime_permissions_with_filesystem_isolation (filesystem_isolation profile)
    file_system network = Ok profile.
Proof.
  intros Hne. destruct profile as [[es depth|] network| |network]; try done.
  unfold to_runtime_permissions. simpl. rewrite bool_decide_false by (intros ->; by eapply Hne).
  unfold from_runtime_permissions_with_filesystem_isolation, from_access_policy. simpl.
  do 4 f_equal. destruct depth as [d|]; [|done]. simpl. unfold nonzero.
  destruct (Pos.to_nat d) eqn:E; [lia|]. by rewrite <- E, Pos2Nat.id.
Qed.

End OnHost.

Definition no_files : Host := {|
  home_dir := None; current_dir := None; tmpdir := None; canonicalize p := Ok p;
  symlink_metadata _ := None; is_dir _ := false; is_file _ := false; path_exists _ := false;
  FsPolicy.read_to_string _ := None;
|}.

Lemma profile_roundtrip_witness :
  let '(file_system, network) := to_runtime_permissions no_files read_only_profile in
  from_runtime_permissions_with_filesystem_isolation (filesystem_isolation read_only_profile)
    file_system network = Ok read_only_profile.
Proof. by apply profile_roundtrip. Defined.

End ApprovalFacts.
