(* ===== verification/CommandApproval.v ===== *)
(** * Approval of commands: src/core/src/exec_policy.rs

    From a command line to the requirement it runs under: the commands of its script are
    checked against the policy, those that no rule matches get a decision from the
    settings, and the answer may propose a rule for the next time. *)

From Stdlib Require Import Ascii String.
From S2P Require Import Prelude RustStr AbsPath ExecRule ShellBash ShellDangerous ShellPowershell.
From S2P Require Import ShellSafe FsPolicy FsRoots Approval ExecPolicyFacts ShellScriptFacts.
From S2P Require Import ShellVerdictFacts FsPolicyFacts.
Import AbsPath ExecRule ExecPolicy ShellBash ShellDangerous ShellPowershell ShellSafe.
Import FsPolicy FsRoots FsProfile Approval.

Module CommandApproval.

(** ** Constants *)

Definition PROMPT_CONFLICT_REASON : str :=
  lit "approval required by policy, but AskForApproval is set to Never".
Definition REJECT_ESCALATION_APPROVAL_REASON : str :=
  lit "approval required by policy, but AskForApproval::Granular.access_approval is false".
Definition REJECT_RULES_APPROVAL_REASON : str :=
  lit "approval required by policy rule, but AskForApproval::Granular.rules is false".

Definition BANNED_PREFIX_SUGGESTIONS : list (list str) :=
  map (map lit)
    [["python3"]; ["python3"; "-"]; ["python3"; "-c"]; ["python"]; ["python"; "-"];
     ["python"; "-c"]; ["py"]; ["py"; "-3"]; ["pythonw"]; ["pyw"]; ["pypy"]; ["pypy3"];
     ["git"]; ["bash"]; ["bash"; "-lc"]; ["sh"]; ["sh"; "-c"]; ["sh"; "-lc"]; ["zsh"];
     ["zsh"; "-lc"]; ["/bin/zsh"]; ["/bin/zsh"; "-lc"]; ["/bin/bash"]; ["/bin/bash"; "-lc"];
     ["pwsh"]; ["pwsh"; "-Command"]; ["pwsh"; "-c"]; ["powershell"];
     ["powershell"; "-Command"]; ["powershell"; "-c"]; ["powershell.exe"];
     ["powershell.exe"; "-Command"]; ["powershell.exe"; "-c"]; ["env"]; ["sudo"]; ["node"];
     ["node"; "-e"]; ["perl"]; ["perl"; "-e"]; ["ruby"]; ["ruby"; "-e"]; ["php"];
     ["php"; "-r"]; ["lua"]; ["lua"; "-e"]; ["osascript"]]%string.

(** ** What runs around the decision

    The environment of the process, the platform, and the libraries: Tree-sitter, the
    PowerShell parser processes, and the crates [shlex], [regex] and [url]. *)
Record System := {
  host_of : Host;
  platform : Platform;
  try_parse_shell : str -> option Tree;
  powershell_ast : str -> str -> PowershellParseOutcome;
  shlex_split : str -> option (list str);
  shlex_try_join : list str -> option str;
  re_captures : str -> option str;
  url_scheme : str -> option str;
}.

Definition is_policy_match (m : RuleMatch) : bool :=
  match m with PrefixRuleMatch _ _ _ _ => true | HeuristicsRuleMatch _ _ => false end.

Definition prompt_is_rejected_by_policy (approval_policy : AskForApproval)
    (prompt_is_rule : bool) : option str :=
  match approval_policy with
  | Never => Some PROMPT_CONFLICT_REASON
  | OnFailure => None
  | OnRequest => None
  | UnlessTrusted => None
  | Granular granular_config =>
      if prompt_is_rule then
        if negb (allows_rules_approval granular_config)
        then Some REJECT_RULES_APPROVAL_REASON else None
      else if negb (allows_access_approval granular_config)
      then Some REJECT_ESCALATION_APPROVAL_REASON else None
  end.

Record ExecApprovalRequest := {
  command : list str;
  approval_policy : AskForApproval;
  permission_profile : PermissionProfile;
  request_access_policy : FileSystemAccessPolicy;
  access_cwd : str;
  permission_level : ExecutionPermissionLevel;
  prefix_rule : option (list str);
}.

(** ** Proposed rules *)

(** [find_map] over the decisions without a rule. *)
Fixpoint first_unmatched (d : Decision) (matched_rules : list RuleMatch)
    : option ExecPolicyAmendment :=
  match matched_rules with
  | [] => None
  | HeuristicsRuleMatch command decision :: matched_rules =>
      match (if bool_decide (decision = d) then head command else None) with
      | Some name => Some {| amendment_command := [name] |}
      | None => first_unmatched d matched_rules
      end
  | _ :: matched_rules => first_unmatched d matched_rules
  end.

Definition is_prompt_rule (m : RuleMatch) : bool :=
  is_policy_match m && bool_decide (match_decision m = Prompt).

Definition try_derive_execpolicy_amendment_for_prompt_rules (matched_rules : list RuleMatch)
    : option ExecPolicyAmendment :=
  if existsb is_prompt_rule matched_rules then None else first_unmatched Prompt matched_rules.

Definition try_derive_execpolicy_amendment_for_allow_rules (matched_rules : list RuleMatch)
    : option ExecPolicyAmendment :=
  if existsb is_policy_match matched_rules then None else first_unmatched Allow matched_rules.

(** ** Reasons *)

(** The matches of rules with a decision: the matched prefix and the justification. *)
Definition rules_deciding (d : Decision) (matched_rules : list RuleMatch)
    : list (list str * option str) :=
  omap (fun m => match m with
                 | PrefixRuleMatch matched_prefix decision _ justification =>
                     if bool_decide (decision = d) then Some (matched_prefix, justification)
                     else None
                 | HeuristicsRuleMatch _ _ => None
                 end) matched_rules.

(** [max_by_key] of the length of the prefix: the last of the longest. *)
Definition most_specific (ms : list (list str * option str)) : option (list str * option str) :=
  fold_left (fun best m => match best with
                           | Some b => if length b.1 <=? length m.1 then Some m else Some b
                           | None => Some m
                           end) ms None.

Section OnSystem.
Context (Sys : System).
Local Abbreviation H := (host_of Sys).

Definition render_shlex_command (args : list str) : str :=
  match shlex_try_join Sys args with Some text => text | None => join [ch " "] args end.

Definition quoted (text : str) : str := lit "`" ++ text ++ lit "`".

Definition derive_prompt_reason (command_args : list str) (evaluation : Evaluation)
    : option str :=
  let command := quoted (render_shlex_command command_args) in
  match most_specific (rules_deciding Prompt (matched_rules evaluation)) with
  | Some (_, Some justification) => Some (command ++ lit " requires approval: " ++ justification)
  | Some (_, None) => Some (command ++ lit " requires approval by policy")
  | None => None
  end.

Definition derive_forbidden_reason (command_args : list str) (evaluation : Evaluation) : str :=
  let command := quoted (render_shlex_command command_args) in
  match most_specific (rules_deciding Forbidden (matched_rules evaluation)) with
  | Some (_, Some justification) => command ++ lit " rejected: " ++ justification
  | Some (matched_prefix, None) =>
      command ++ lit " rejected: policy forbids commands starting with "
      ++ quoted (render_shlex_command matched_prefix)
  | None => command ++ lit " rejected: blocked by policy"
  end.

(** ** Commands without a rule *)

Definition is_known_safe (command : list str) : bool :=
  is_known_safe_command (platform Sys) (try_parse_shell Sys) (powershell_ast Sys) command.

Definition might_be_dangerous (command : list str) : bool :=
  command_might_be_dangerous (platform Sys) (shlex_split Sys) (re_captures Sys)
    (url_scheme Sys) (try_parse_shell Sys) command.

Definition profile_is_managed_read_only (profile : PermissionProfile)
    (p : FileSystemAccessPolicy) (access_cwd : str) : bool :=
  match profile with Managed _ _ => true | _ => false end
  && is_restricted_level p
  && negb (has_full_disk_write_access p)
  && bool_decide (length (get_writable_roots_with_cwd H p access_cwd) = 0).

Definition render_decision_for_unmatched_command (approval_policy : AskForApproval)
    (profile : PermissionProfile) (p : FileSystemAccessPolicy) (access_cwd : str)
    (command : list str) (permission_level : ExecutionPermissionLevel)
    (used_complex_parsing : bool) : Decision :=
  if is_known_safe command && negb used_complex_parsing then Allow
  else
    let environment_is_read_only_managed :=
      is_windows (platform Sys) && profile_is_managed_read_only profile p access_cwd in
    if might_be_dangerous command || environment_is_read_only_managed then
      match approval_policy with
      | Never => if profile_is_unmanaged profile then Allow else Forbidden
      | OnFailure | OnRequest | UnlessTrusted | Granular _ => Prompt
      end
    else
      match approval_policy with
      | Never | OnFailure => Allow
      | UnlessTrusted => Prompt
      | OnRequest | Granular _ =>
          match policy_kind p with
          | Unrestricted | External => Allow
          | Restricted =>
              if requests_escalated_permissions permission_level then Prompt else Allow
          end
      end.

(** ** The commands of a command line *)

Definition commands_for_exec_policy (command : list str) : list (list str) * bool :=
  match parse_shell_lc_plain_commands (try_parse_shell Sys) command with
  | Some (c :: cs) => (c :: cs, false)
  | _ =>
      match parse_shell_lc_single_command_prefix (try_parse_shell Sys) command with
      | Some single_command => ([single_command], true)
      | None =>
          match '(_, script) ← extract_powershell_command command; shlex_split Sys script with
          | Some tokens => ([tokens], false)
          | None => ([command], false)
          end
      end
  end.

(** ** The requirement *)

Definition match_options : MatchOptions := {| resolve_host_executables := true |}.

Definition check_command (p : Policy) (command : list str) (fallback : list str -> Decision)
    : result Empty_set Evaluation :=
  check_with_options (home_dir H) (current_dir H) p command fallback match_options.

Definition check_commands (p : Policy) (commands : list (list str))
    (fallback : list str -> Decision) : result Empty_set Evaluation :=
  check_multiple_with_options (home_dir H) (current_dir H) p commands fallback match_options.

Definition allows (r : result Empty_set Evaluation) : bool :=
  match r with Ok e => bool_decide (decision e = Allow) | _ => false end.

Definition prefix_rule_would_approve_all_commands (exec_policy : Policy)
    (prefix_rule : list str) (commands : list (list str)) (fallback : list str -> Decision)
    : bool :=
  match add_prefix_rule prefix_rule Allow exec_policy with
  | Ok policy_with_prefix_rule =>
      forallb (fun command => allows (check_command policy_with_prefix_rule command fallback))
        commands
  | _ => false
  end.

Definition derive_requested_execpolicy_amendment_from_prefix_rule
    (prefix_rule : option (list str)) (matched_rules : list RuleMatch) (exec_policy : Policy)
    (commands : list (list str)) (fallback : list str -> Decision)
    : option ExecPolicyAmendment :=
  prefix_rule ← prefix_rule;
  if bool_decide (prefix_rule = []) then None
  else if bool_decide (prefix_rule ∈ BANNED_PREFIX_SUGGESTIONS) then None
  else if existsb is_policy_match matched_rules then None
  else if prefix_rule_would_approve_all_commands exec_policy prefix_rule commands fallback
  then Some {| amendment_command := prefix_rule |} else None.

Definition exec_policy_fallback (req : ExecApprovalRequest) (used_complex_parsing : bool)
    (cmd : list str) : Decision :=
  render_decision_for_unmatched_command (approval_policy req) (permission_profile req)
    (request_access_policy req) (access_cwd req) cmd (permission_level req)
    used_complex_parsing.

Definition or_else {A} (x y : option A) : option A := match x with Some _ => x | None => y end.

(** The policy is the one that is current when the request comes. *)
Definition create_exec_approval_requirement_for_command (exec_policy : Policy)
    (req : ExecApprovalRequest) : result Empty_set ExecApprovalRequirement :=
  let '(commands, used_complex_parsing) := commands_for_exec_policy (command req) in
  let auto_amendment_allowed := negb used_complex_parsing in
  let fallback := exec_policy_fallback req used_complex_parsing in
  evaluation ← check_commands exec_policy commands fallback;
  let requested_amendment :=
    derive_requested_execpolicy_amendment_from_prefix_rule (prefix_rule req)
      (matched_rules evaluation) exec_policy commands fallback in
  Ok (match decision evaluation with
      | Forbidden => ForbiddenCall (derive_forbidden_reason (command req) evaluation)
      | Prompt =>
          let prompt_is_rule := existsb is_prompt_rule (matched_rules evaluation) in
          match prompt_is_rejected_by_policy (approval_policy req) prompt_is_rule with
          | Some reason => ForbiddenCall reason
          | None =>
              NeedsApproval (derive_prompt_reason (command req) evaluation)
                (or_else requested_amendment
                   (if auto_amendment_allowed
                    then try_derive_execpolicy_amendment_for_prompt_rules
                           (matched_rules evaluation)
                    else None))
          end
      | Allow =>
          Skip (if auto_amendment_allowed
                then try_derive_execpolicy_amendment_for_allow_rules (matched_rules evaluation)
                else None)
      end).

End OnSystem.

End CommandApproval.

(** * Facts about the approval of commands

    What a requirement says of the commands of a line; what is never skipped; and that
    a proposal, once accepted, lets the command through. *)

Import AbsPath ExecRule ExecPolicy ExecPolicyFacts ShellBash ShellBashFacts ShellScriptFacts.
Import ShellDangerous ShellSafe ShellVerdictFacts FsPolicy FsRoots FsProfile Approval.
Import CommandApproval.

Module CommandApprovalFacts.

Section OnSystem.
Context (Sys : System).

Local Abbreviation home := (home_dir (host_of Sys)).
Local Abbreviation cwd := (current_dir (host_of Sys)).
Local Abbreviation requirement := (create_exec_approval_requirement_for_command Sys).

(** The commands of a request, and the decision for one of them. *)
Definition commands_of_request (req : ExecApprovalRequest) : list (list str) :=
  (commands_for_exec_policy Sys (command req)).1.

Definition fallback_of (req : ExecApprovalRequest) : list str -> Decision :=
  exec_policy_fallback Sys req (commands_for_exec_policy Sys (command req)).2.

Definition decided (p : Policy) (req : ExecApprovalRequest) (cmd : list str) (d : Decision) : Prop :=
  exists e, check_command Sys p cmd (fallback_of req) = Ok e /\ decision e = d.

Lemma commands_nonempty (req : ExecApprovalRequest) : commands_of_request req <> [].
Proof. unfold commands_of_request, commands_for_exec_policy. repeat case_match; done. Qed.

(** The matches for a command, and for all of them. *)
Definition matches_for (p : Policy) (req : ExecApprovalRequest) (cmd : list str) : list RuleMatch :=
  matches_for_command_with_options home cwd p cmd (Some (fallback_of req)) match_options.

Definition all_matches (p : Policy) (req : ExecApprovalRequest) : list RuleMatch :=
  commands_of_request req ≫= matches_for p req.

Lemma all_matches_nonempty (p : Policy) (req : ExecApprovalRequest) : all_matches p req <> [].
Proof.
  unfold all_matches. pose proof (commands_nonempty req) as Hne.
  destruct (commands_of_request req) as [|c cs]; [done|]. simpl. intros [H _]%app_eq_nil.
  by apply matches_nonempty in H.
Qed.

(** The strictest decision among matches. *)
Lemma from_matches_strictest (ms : list RuleMatch) (e : Evaluation) (d : Decision) :
  from_matches ms = Ok e ->
  decision e = d <-> (exists m, m ∈ ms /\ match_decision m = d)
                     /\ forall m, m ∈ ms -> decision_le (match_decision m) d.
Proof.
  intros (_ & Hd & Hall)%from_matches_Ok. rewrite Forall_forall in Hall. split.
  - intros <-. apply list_elem_of_fmap in Hd as (m & Hm & Hin). split; [by eauto|].
    intros m' Hm'. by apply Hall, list_elem_of_fmap_2.
  - intros [(m & Hin & <-) Hle]. apply decision_le_antisymm.
    + apply list_elem_of_fmap in Hd as (m' & -> & Hm'). by apply Hle.
    + by apply Hall, list_elem_of_fmap_2.
Qed.

Lemma decided_matches (p : Policy) (req : ExecApprovalRequest) (cmd : list str) (d : Decision) :
  decided p req cmd d <-> (exists m, m ∈ matches_for p req cmd /\ match_decision m = d)
                          /\ forall m, m ∈ matches_for p req cmd -> decision_le (match_decision m) d.
Proof.
  unfold decided, check_command, check_with_options. fold (matches_for p req cmd).
  destruct (from_matches_total (matches_for p req cmd)) as [e He]; [apply matches_nonempty|].
  rewrite <- (from_matches_strictest _ e d He), He. naive_solver.
Qed.

(** Each command has one decision. *)
Lemma decided_total (p : Policy) (req : ExecApprovalRequest) (cmd : list str) :
  exists d, decided p req cmd d.
Proof.
  unfold decided, check_command, check_with_options. fold (matches_for p req cmd).
  destruct (from_matches_total (matches_for p req cmd)) as [e He]; [apply matches_nonempty|]. eauto.
Qed.

(** The check of all the commands. *)
Lemma evaluation_exists (p : Policy) (req : ExecApprovalRequest) :
  exists e, check_commands Sys p (commands_of_request req) (fallback_of req) = Ok e
    /\ matched_rules e = all_matches p req
    /\ (exists cmd, cmd ∈ commands_of_request req /\ decided p req cmd (decision e))
    /\ forall cmd d, cmd ∈ commands_of_request req -> decided p req cmd d -> decision_le d (decision e).
Proof.
  destruct (from_matches_total _ (all_matches_nonempty p req)) as [e He]. exists e.
  split; [exact He|]. pose proof He as (Hm & _ & _)%from_matches_Ok. split; [done|].
  pose proof (proj1 (from_matches_strictest _ e _ He) eq_refl) as [(m & Hin & Hd) Hle].
  assert (Hin' : forall cmd m, cmd ∈ commands_of_request req -> m ∈ matches_for p req cmd ->
                   m ∈ all_matches p req) by (intros; apply list_elem_of_bind; eauto).
  split.
  - apply list_elem_of_bind in Hin as (cmd & Hin & Hc). exists cmd. split; [done|].
    apply decided_matches. split; [eauto|]. intros m' Hm'. eauto.
  - intros cmd d Hc ((m' & Hm' & <-) & _)%decided_matches. eauto.
Qed.

(** ** What a requirement means *)

Definition prompts_rejected (p : Policy) (req : ExecApprovalRequest) : bool :=
  match prompt_is_rejected_by_policy (approval_policy req)
          (existsb is_prompt_rule (all_matches p req)) with
  | Some _ => true
  | None => false
  end.

Definition requirement_spec (p : Policy) (req : ExecApprovalRequest) (r : ExecApprovalRequirement)
    : Prop :=
  match r with
  | Skip _ => forall cmd, cmd ∈ commands_of_request req -> decided p req cmd Allow
  | NeedsApproval _ _ =>
      (exists cmd, cmd ∈ commands_of_request req /\ decided p req cmd Prompt)
      /\ (forall cmd, cmd ∈ commands_of_request req -> ~ decided p req cmd Forbidden)
      /\ prompts_rejected p req = false
  | ForbiddenCall _ =>
      (exists cmd, cmd ∈ commands_of_request req /\ decided p req cmd Forbidden)
      \/ ((exists cmd, cmd ∈ commands_of_request req /\ decided p req cmd Prompt)
          /\ prompts_rejected p req = true)
  end.

Lemma requirement_cases (p : Policy) (req : ExecApprovalRequest) :
  exists r, requirement p req = Ok r /\ requirement_spec p req r.
Proof.
  destruct (evaluation_exists p req) as (e & He & Hm & (c & Hc & Hdc) & Hle).
  unfold create_exec_approval_requirement_for_command, requirement_spec, prompts_rejected.
  unfold commands_of_request, fallback_of in *.
  destruct (commands_for_exec_policy Sys (command req)) as [commands complex]. simpl in *.
  rewrite He. simpl. eexists. split; [done|]. rewrite <- Hm.
  destruct (decision e) eqn:Ed.
  - intros cmd Hin. destruct (decided_total p req cmd) as [d Hd].
    specialize (Hle cmd d Hin Hd). unfold decision_le in Hle. destruct d; simpl in Hle; (done || lia).
  - destruct (prompt_is_rejected_by_policy _ _); [right; eauto|].
    split_and!; [eauto| |done]. intros cmd Hin Hf. specialize (Hle cmd _ Hin Hf).
    unfold decision_le in Hle. simpl in Hle. lia.
  - left. eauto.
Qed.

Lemma decided_unique (p : Policy) (req : ExecApprovalRequest) (cmd : list str) (d1 d2 : Decision) :
  decided p req cmd d1 -> decided p req cmd d2 -> d1 = d2.
Proof. intros (e1 & He1 & <-) (e2 & He2 & <-). rewrite He1 in He2. by simplify_eq. Qed.

(** C19: a request always gets a requirement. It runs without a question exactly when
    every command of the line is allowed; the user is asked exactly when some command
    prompts, none is forbidden, and the settings let the prompt through; in every other
    case it is forbidden. *)
Theorem requirement_of_commands (p : Policy) (req : ExecApprovalRequest) :
  (exists r, requirement p req = Ok r)
  /\ ((exists a, requirement p req = Ok (Skip a)) <->
      forall cmd, cmd ∈ commands_of_request req -> decided p req cmd Allow)
  /\ ((exists reason a, requirement p req = Ok (NeedsApproval reason a)) <->
      (exists cmd, cmd ∈ commands_of_request req /\ decided p req cmd Prompt)
      /\ (forall cmd, cmd ∈ commands_of_request req -> ~ decided p req cmd Forbidden)
      /\ prompts_rejected p req = false).
Proof.
  destruct (requirement_cases p req) as (r & Hr & Hspec).
  pose proof (decided_unique p req) as Hu. pose proof (commands_nonempty req) as Hne.
  assert (Hc : exists c, c ∈ commands_of_request req)
    by (destruct (commands_of_request req) as [|c cs]; [done|exists c; by left]).
  destruct Hc as [c Hc]. rewrite Hr. split; [by eexists|].
  destruct r as [a|reason a|reason]; simpl in Hspec.
  - split; [naive_solver|]. split; [by intros (? & ? & ?)|]. intros ((cmd & Hin & Hp) & _ & _).
    by specialize (Hu cmd _ _ Hp (Hspec cmd Hin)).
  - destruct Hspec as ((cmd & Hin & Hp) & Hnf & Hrej). split.
    + split; [by intros [? ?]|]. intros Hall. by specialize (Hu cmd _ _ Hp (Hall cmd Hin)).
    + split; [by eauto|naive_solver].
  - split.
    + split; [by intros [? ?]|]. intros Hall.
      destruct Hspec as [(cmd & Hin & Hf)|[(cmd & Hin & Hf) _]];
        by specialize (Hu cmd _ _ Hf (Hall cmd Hin)).
    + split; [by intros (? & ? & ?)|]. intros (_ & Hnf & Hrej).
      destruct Hspec as [(cmd & Hin & Hf)|[_ ?]]; [by destruct (Hnf cmd Hin)|congruence].
Qed.

(** ** Commands without a rule *)

Definition no_rule (p : Policy) (req : ExecApprovalRequest) (cmd : list str) : Prop :=
  Forall (fun m => is_policy_match m = false) (matches_for p req cmd).

Lemma no_rule_matches (p : Policy) (req : ExecApprovalRequest) (cmd : list str) :
  no_rule p req cmd <-> matches_for p req cmd = [HeuristicsRuleMatch cmd (fallback_of req cmd)].
Proof.
  unfold no_rule, matches_for. split; [|by intros ->; repeat constructor].
  destruct (matches_cases home cwd p cmd (fallback_of req) match_options) as [[Hne Hf]|H]; [|done].
  intros Hn. destruct (matches_for_command_with_options _ _ _ _ _ _) as [|m ms]; [done|].
  apply Forall_cons in Hn as [Hn _]. apply Forall_cons in Hf as [Hf _]. by destruct m.
Qed.

Lemma decided_no_rule (p : Policy) (req : ExecApprovalRequest) (cmd : list str) (d : Decision) :
  no_rule p req cmd -> decided p req cmd d <-> fallback_of req cmd = d.
Proof.
  rewrite no_rule_matches, decided_matches. intros ->. setoid_rewrite list_elem_of_singleton.
  split; [intros [(m & -> & <-) _]; done|]. intros <-. split; [by eexists|]. intros m ->.
  unfold decision_le. done.
Qed.

(** C8: a dangerous command that no rule of the policy covers never runs unasked, unless
    prompts are disabled and so is the enforcement of access; and where prompts are
    disabled it is forbidden. This holds of every command on Unix; on Windows it holds of
    those that are not known to be safe as well, which win over the dangerous ones there
    ([safe_and_dangerous_on_windows]). *)
Theorem dangerous_never_skipped (p : Policy) (req : ExecApprovalRequest) (cmd : list str) :
  (path_file_name (platform Sys) = file_name /\ is_windows (platform Sys) = false)
    \/ is_known_safe Sys cmd = false ->
  cmd ∈ commands_of_request req -> no_rule p req cmd -> might_be_dangerous Sys cmd = true ->
  (approval_policy req = Never -> profile_is_unmanaged (permission_profile req) = false) ->
  exists r, requirement p req = Ok r /\
    match r with
    | Skip _ => False
    | NeedsApproval _ _ => approval_policy req <> Never
    | ForbiddenCall _ => True
    end.
Proof.
  intros Hplat Hin Hn Hd Hun.
  assert (Hfb : fallback_of req cmd = match approval_policy req with Never => Forbidden | _ => Prompt end).
  { unfold fallback_of, exec_policy_fallback, render_decision_for_unmatched_command.
    assert (is_known_safe Sys cmd = false) as ->.
    { destruct Hplat as [[HP Hw]|]; [|done].
      apply not_true_iff_false. intros Hs. unfold might_be_dangerous in Hd.
      unfold is_known_safe in Hs. by rewrite (known_safe_not_dangerous _ HP Hw _ _ _ _ _ _ Hs) in Hd. }
    rewrite Hd. simpl. destruct (approval_policy req); try done. by rewrite Hun. }
  destruct (requirement_cases p req) as (r & Hr & Hspec). exists r. split; [done|].
  pose proof (decided_no_rule p req cmd) as Hdec.
  destruct r as [a|reason a|reason]; [| |done].
  - specialize (Hspec cmd Hin). rewrite Hdec, Hfb in Hspec by done. by destruct (approval_policy req).
  - destruct Hspec as (_ & Hnf & _). intros E. apply (Hnf cmd Hin). rewrite Hdec, Hfb by done. by rewrite E.
Qed.

(** ** Scripts *)

(** Every command of a plain script counts: a rule that forbids one of them, wherever it
    is in the script, forbids the whole line. *)
Theorem script_command_forbidden (p : Policy) (req : ExecApprovalRequest)
    (shell flag script : str) (tree : Tree) (cmds : list (list str)) (n : Node) (ws : list str)
    (matched : list str) (j : option str) :
  command req = [shell; flag; script] -> extract_bash_command (command req) = Some (shell, script) ->
  try_parse_shell Sys script = Some tree ->
  try_parse_word_only_commands_sequence tree script = Some cmds ->
  n ∈ commands_of (root_node tree) -> parse_plain_command_from_node n script = Some ws ->
  PrefixRuleMatch matched Forbidden None j ∈ exact p ws ->
  exists reason, requirement p req = Ok (ForbiddenCall reason).
Proof.
  intros Hcmd He Ht Hc Hn Hw Hm.
  assert (Hin : ws ∈ cmds) by (apply (plain_commands_of _ _ _ _ Hc); eauto).
  assert (Hcs : commands_of_request req = cmds).
  { unfold commands_of_request, commands_for_exec_policy, parse_shell_lc_plain_commands.
    rewrite He. simpl. rewrite Ht. simpl. rewrite Hc. by destruct cmds; [apply not_elem_of_nil in Hin|]. }
  destruct (requirement_cases p req) as (r & Hr & Hspec).
  unfold requirement_spec in Hspec. rewrite Hcs in Hspec.
  assert (Hf : decided p req ws Forbidden).
  { apply decided_matches. assert (Hin' : PrefixRuleMatch matched Forbidden None j ∈ matches_for p req ws).
    { unfold matches_for. rewrite matches_exact; [done|]. intros E. rewrite E in Hm.
      by apply not_elem_of_nil in Hm. }
    split; [by eexists|]. intros m _. unfold decision_le. destruct (match_decision m); simpl; lia. }
  destruct r as [a|reason a|reason].
  - specialize (Hspec ws Hin). apply decided_matches in Hspec as [_ Hle].
    apply decided_matches in Hf as [(m & Hm' & Hmd) _]. specialize (Hle m Hm').
    rewrite Hmd in Hle. unfold decision_le in Hle. simpl in Hle. lia.
  - by destruct Hspec as (_ & Hnf & _); destruct (Hnf ws Hin).
  - by exists reason.
Qed.

End OnSystem.

(** ** A system to try the theorems on

    Its parser of shells knows one script, and its other parsers know nothing. *)

Definition demo_system : System := {|
  host_of := FsPolicyFacts.demo_host;
  platform := linux;
  try_parse_shell s := if str_eqb s demo_script then Some demo_tree else None;
  powershell_ast _ _ := ShellPowershell.Failed;
  shlex_split _ := None;
  shlex_try_join _ := None;
  re_captures _ := None;
  url_scheme _ := None;
|}.

Definition demo_request (command : list str) (policy : AskForApproval) : ExecApprovalRequest := {|
  command := command;
  approval_policy := policy;
  permission_profile := read_only_profile;
  request_access_policy := default_policy;
  access_cwd := lit "/w";
  permission_level := UseDefault;
  prefix_rule := None;
|}.

Lemma dangerous_never_skipped_witness :
  exists r, create_exec_approval_requirement_for_command demo_system ExecPolicy.empty
              (demo_request [lit "rm"; lit "-rf"; lit "x"] OnRequest) = Ok r /\
    match r with
    | Skip _ => False
    | NeedsApproval _ _ => OnRequest <> Never
    | ForbiddenCall _ => True
    end.
Proof.
  apply (dangerous_never_skipped demo_system ExecPolicy.empty
           (demo_request [lit "rm"; lit "-rf"; lit "x"] OnRequest) [lit "rm"; lit "-rf"; lit "x"]);
    [by left|by left| |by vm_compute|done].
  apply no_rule_matches. by vm_compute.
Defined.

(** On Windows a script that prints a link is on both lists, and runs unasked. *)
Definition demo_windows : System := {|
  host_of := FsPolicyFacts.demo_host;
  platform := {| is_windows := true; is_linux := false; path_file_name := file_name |};
  try_parse_shell _ := None;
  powershell_ast _ _ :=
    ShellPowershell.Commands [[lit "Write-Output"; lit "start"; lit "https://a"]];
  shlex_split _ := Some [lit "Write-Output"; lit "start"; lit "https://a"];
  shlex_try_join _ := None;
  re_captures _ := None;
  url_scheme _ := Some (lit "https");
|}.

Example safe_and_dangerous_on_windows :
  let cmd := [lit "powershell"; lit "-NonInteractive"; lit "-Command";
              lit "Write-Output start https://a"] in
  is_known_safe demo_windows cmd = true /\ might_be_dangerous demo_windows cmd = true /\
  exists a, create_exec_approval_requirement_for_command demo_windows ExecPolicy.empty
    (demo_request cmd OnRequest) = Ok (Skip a).
Proof. split_and!; [by vm_compute..|]. eexists. by vm_compute. Qed.

(** The policy that forbids [wc]. *)
Definition no_wc : Policy :=
  match add_prefix_rule [lit "wc"] Forbidden ExecPolicy.empty with Ok p => p | _ => ExecPolicy.empty end.

Lemma script_command_forbidden_witness :
  exists reason, create_exec_approval_requirement_for_command demo_system no_wc
    (demo_request [lit "bash"; lit "-lc"; demo_script] UnlessTrusted) = Ok (ForbiddenCall reason).
Proof.
  apply (script_command_forbidden demo_system no_wc _ (lit "bash") (lit "-lc") demo_script demo_tree
           [[lit "ls"]; [lit "wc"; lit "-l"]]
           (mk_node (lit "command") true 6 11
              [mk_node (lit "command_name") true 6 8 [demo_word 6 8]; demo_word 9 11])
           [lit "wc"; lit "-l"] [lit "wc"] None);
    [done|by vm_compute|by vm_compute|by vm_compute| |by vm_compute|].
  - apply list_elem_of_In. by right; left.
  - vm_compute. by left.
Defined.

End CommandApprovalFacts.
