(* ===== verification/CommandPolicy.v ===== *)
(** * The policy of a session: src/core/src/exec_policy.rs

    [ExecPolicyManager] keeps the current policy and the rules file on disk. A rule that
    the user accepts goes to the file first and to the policy in memory after it, one
    update at a time; the policy is loaded from the rules folders of the layers of the
    configuration. *)

From Stdlib Require Import Ascii String.
From stdpp Require Import sorting.
From S2P Require Import Prelude RustStr AbsPath FileSystem ExecRule ExecParser ExecAmend FsPolicy.
From S2P Require Import ConfigLayers Approval CommandApproval.
Import AbsPath FsPolicy ExecRule ExecPolicy ExecParser ExecAmend ConfigLayers Approval CommandApproval.

Module CommandPolicy.

Definition RULES_DIR_NAME : str := lit "rules".
Definition RULE_EXTENSION : str := lit "rules".
Definition DEFAULT_POLICY_FILE : str := lit "default.rules".

Inductive ExecPolicyError :=
| ReadDir (dir : str) (source : io_error)
| ReadFile (path : str) (source : io_error)
| ParsePolicy (path : str) (source : Error).

(** [JoinBlockingTask] is the panic of the task that writes the file. *)
Inductive ExecPolicyUpdateError :=
| AppendRule (path : str) (source : AmendError)
| JoinBlockingTask
| AddRule (source : Error).

Definition default_policy_path (agere_home : str) : str :=
  push (push agere_home RULES_DIR_NAME) DEFAULT_POLICY_FILE.

(** ** Updates

    The state is the file system and the current policy. The semaphore has one permit
    and is never closed: an update that holds it runs to its end before the next. *)

Section Update.
Context (Sys : System) (json_string : str -> str) (error_to_string : Error -> str).
Context {S : Type} `{PolicyFs S}.

Local Abbreviation State := (S * Policy)%type.

(** [spawn_blocking(..).await], with its two errors. *)
Definition blocking {A} (policy_path : str) (m : action S AmendError A)
    : action State ExecPolicyUpdateError A := fun s =>
  let '(files, r) := m s.1 in
  ((files, s.2), match r with
                 | Ok a => Ok a
                 | Err source => Err (AppendRule policy_path source)
                 | Crash _ => Err JoinBlockingTask
                 end).

Definition current : action State ExecPolicyUpdateError Policy := query (fun s => Ok s.2).

Definition store (p : Policy) : action State ExecPolicyUpdateError unit := fun s =>
  ((s.1, p), Ok tt).

Definition is_allow_rule (m : RuleMatch) : bool :=
  is_policy_match m && bool_decide (match_decision m = Allow).

(** The check of the amendment alone, with a fallback that forbids; it cannot panic. *)
Definition already_allowed (p : Policy) (amendment : ExecPolicyAmendment) : bool :=
  match check_commands Sys p [amendment_command amendment] (fun _ => Forbidden) with
  | Ok e => bool_decide (decision e = Allow) && existsb is_allow_rule (matched_rules e)
  | _ => false
  end.

Definition add_rule_error {A} (r : result Error A) : result ExecPolicyUpdateError A :=
  map_err AddRule r.

Definition append_amendment_and_update (agere_home : str) (amendment : ExecPolicyAmendment)
    : action State ExecPolicyUpdateError unit :=
  let policy_path := default_policy_path agere_home in
  _ ← blocking policy_path
        (blocking_append_allow_prefix_rule json_string policy_path (amendment_command amendment));
  current_policy ← current;
  if already_allowed current_policy amendment then mret tt
  else
    updated_policy ← lift_result (add_rule_error
      (add_prefix_rule (amendment_command amendment) Allow current_policy));
    store updated_policy.

Definition append_network_rule_and_update (agere_home host : str)
    (protocol : NetworkRuleProtocol) (decision : Decision) (justification : option str)
    : action State ExecPolicyUpdateError unit :=
  let policy_path := default_policy_path agere_home in
  _ ← blocking policy_path
        (blocking_append_network_rule json_string error_to_string policy_path host protocol
           decision justification);
  current_policy ← current;
  updated_policy ← lift_result (add_rule_error
    (add_network_rule host protocol decision justification current_policy));
  store updated_policy.

End Update.

(** ** Loading *)

(** [Path::extension]: what follows the last dot of the file name, unless the name has
    no dot but a first one. *)
Definition extension (path : str) : option str :=
  name ← file_name path;
  '(before, after) ← rsplit_once (ch ".") name;
  if str_eqb before [] then None else Some after.

(** An entry of a folder: its name, and whether it is a file. *)
Record DirEntry := { entry_name : str; entry_is_file : result io_error bool }.

Section Load.
(** The file system, and the crate [starlark] and the texts as in the reader of policies. *)
Context (Sys : System) (show_rule : PrefixRule -> str) (show_match : RuleMatch -> str).
Context (starlark : str -> str -> str + (list Call * option str)).
Context (read_dir : str -> result io_error (list (result io_error DirEntry))).
Context (read_to_string : str -> result io_error str).

(** The loop over the entries: an entry that cannot be read ends it. *)
Fixpoint rule_files (dir : str) (entries : list (result io_error DirEntry))
    (policy_paths : list str) : result ExecPolicyError (list str) :=
  match entries with
  | [] => Ok policy_paths
  | entry :: entries =>
      entry ← map_err (ReadDir dir) entry;
      let path := push dir (entry_name entry) in
      is_file ← map_err (ReadDir dir) (entry_is_file entry);
      if bool_decide (extension path = Some RULE_EXTENSION) && is_file
      then rule_files dir entries (policy_paths ++ [path])
      else rule_files dir entries policy_paths
  end.

(** The paths are in one folder, so that they are in the order of their text. *)
Definition collect_policy_files (dir : str) : result ExecPolicyError (list str) :=
  match read_dir dir with
  | Err err => if bool_decide (kind err = NotFound) then Ok [] else Err (ReadDir dir err)
  | Crash c => Crash c
  | Ok entries => policy_paths ← rule_files dir entries []; Ok (merge_sort str_le policy_paths)
  end.

Section Stack.
Context {R T : Type} (requirements_exec_policy : R -> option Policy).

Definition skipped_layer (ignore : bool) (layer : ConfigLayerEntry) : bool :=
  ignore && match name layer with User _ | Project _ => true | _ => false end.

Fixpoint collect_layers (ignore : bool) (layers : list ConfigLayerEntry)
    (policy_paths : list str) : result ExecPolicyError (list str) :=
  match layers with
  | [] => Ok policy_paths
  | layer :: layers =>
      if skipped_layer ignore layer then collect_layers ignore layers policy_paths
      else match config_folder layer with
           | Some folder =>
               layer_policy_paths ← collect_policy_files
                 (abs_join (home_dir (host_of Sys)) folder RULES_DIR_NAME);
               collect_layers ignore layers (policy_paths ++ layer_policy_paths)
           | None => collect_layers ignore layers policy_paths
           end
  end.

Fixpoint parse_files (policy_paths : list str) (parser : PolicyBuilder)
    : result ExecPolicyError PolicyBuilder :=
  match policy_paths with
  | [] => Ok parser
  | path :: policy_paths =>
      contents ← map_err (ReadFile path) (read_to_string path);
      match parse (home_dir (host_of Sys)) (current_dir (host_of Sys)) (shlex_split Sys)
              (shlex_try_join Sys) show_rule show_match starlark path contents parser with
      | (parser, Ok _) => parse_files policy_paths parser
      | (_, Err source) => Err (ParsePolicy path source)
      | (_, Crash c) => Crash c
      end
  end.

Definition load_exec_policy (stack : ConfigLayerStack R T) : result ExecPolicyError Policy :=
  policy_paths ← collect_layers (ignore_user_and_project_exec_policy_rules stack)
                   (get_layers LowestPrecedenceFirst false stack) [];
  parser ← parse_files policy_paths new_builder;
  let policy := build parser in
  match requirements_exec_policy (requirements stack) with
  | None => Ok policy
  | Some requirements_policy => Ok (merge_overlay policy requirements_policy)
  end.

Definition load_exec_policy_with_warning (stack : ConfigLayerStack R T)
    : result ExecPolicyError (Policy * option ExecPolicyError) :=
  match load_exec_policy stack with
  | Ok policy => Ok (policy, None)
  | Err (ParsePolicy path source) => Ok (ExecPolicy.empty, Some (ParsePolicy path source))
  | Err err => Err err
  | Crash c => Crash c
  end.

(** [ExecPolicyManager::load] and [check_execpolicy_for_warnings]. *)
Definition load (stack : ConfigLayerStack R T) : result ExecPolicyError Policy :=
  '(policy, _) ← load_exec_policy_with_warning stack; Ok policy.

Definition check_execpolicy_for_warnings (stack : ConfigLayerStack R T)
    : result ExecPolicyError (option ExecPolicyError) :=
  '(_, warning) ← load_exec_policy_with_warning stack; Ok warning.

End Stack.
End Load.

End CommandPolicy.
