(* ===== verification/CommandUpdates.v ===== *)
(** * Updates at the same time: src/core/src/exec_policy.rs

    The two updates of [ExecPolicyManager] as tasks of a runtime with many threads. A task
    waits for the permit of [update_lock], writes the rules file, reads the current
    policy and stores the one it makes from it; between any two of these steps other
    tasks may run. [step] is one step of one task; the invariant says that the tasks
    that are done had the effect of running one after the other. *)

From Stdlib Require Import Ascii String.
From stdpp Require Import relations.
From S2P Require Import Prelude RustStr AbsPath FileSystem ExecRule ExecAmend Approval.
From S2P Require Import CommandApproval CommandPolicy.
Import AbsPath ExecRule ExecPolicy ExecAmend Approval CommandApproval CommandPolicy.

Module CommandUpdates.

Inductive Update :=
| AppendAmendment (amendment : ExecPolicyAmendment)
| AppendNetworkRule (host : str) (protocol : NetworkRuleProtocol) (decision : Decision)
    (justification : option str).

Section Machine.
Context (Sys : System) (json_string : str -> str) (error_to_string : Error -> str).
Context {S : Type} `{PolicyFs S} (agere_home : str).

Local Abbreviation State := (S * Policy)%type.
Local Abbreviation Outcome := (result ExecPolicyUpdateError unit).

Definition run_update (u : Update) : action State ExecPolicyUpdateError unit :=
  match u with
  | AppendAmendment amendment =>
      append_amendment_and_update Sys json_string agere_home amendment
  | AppendNetworkRule host protocol decision justification =>
      append_network_rule_and_update json_string error_to_string agere_home host protocol
        decision justification
  end.

(** What an update does to the file, and what it makes of the policy that it reads: a new
    one to store, or nothing. *)
Definition file_part (u : Update) : action S AmendError unit :=
  let policy_path := default_policy_path agere_home in
  match u with
  | AppendAmendment amendment =>
      blocking_append_allow_prefix_rule json_string policy_path (amendment_command amendment)
  | AppendNetworkRule host protocol decision justification =>
      blocking_append_network_rule json_string error_to_string policy_path host protocol
        decision justification
  end.

Definition memory_part (u : Update) (p : Policy) : result ExecPolicyUpdateError (option Policy) :=
  match u with
  | AppendAmendment amendment =>
      if already_allowed Sys p amendment then Ok None
      else Some <$> add_rule_error (add_prefix_rule (amendment_command amendment) Allow p)
  | AppendNetworkRule host protocol decision justification =>
      Some <$> add_rule_error (add_network_rule host protocol decision justification p)
  end.

Definition stored (next : result ExecPolicyUpdateError (option Policy)) (p : Policy) : Policy :=
  match next with Ok (Some updated_policy) => updated_policy | _ => p end.

Definition outcome (next : result ExecPolicyUpdateError (option Policy)) : Outcome :=
  (fun _ => tt) <$> next.

Definition write_failure (r : result AmendError unit) : Outcome :=
  match r with
  | Ok _ => Ok tt
  | Err source => Err (AppendRule (default_policy_path agere_home) source)
  | Crash _ => Err JoinBlockingTask
  end.

Lemma run_update_parts (u : Update) (f : S) (p : Policy) :
  run_update u (f, p) =
  match file_part u f with
  | (f', Ok _) => ((f', stored (memory_part u p) p), outcome (memory_part u p))
  | (f', r) => ((f', p), write_failure r)
  end.
Proof.
  destruct u as [a|h pr d j]; unfold run_update, append_amendment_and_update,
    append_network_rule_and_update, blocking, file_part, memory_part; cbn [fst snd];
    unfold mbind, action_bind, result_fmap, outcome, stored; cbn [fst snd].
  - destruct (blocking_append_allow_prefix_rule _ _ _ f) as [f1 [[]| |]]; try done. simpl.
    destruct (already_allowed Sys p a); [done|]. unfold lift_result.
    by destruct (add_rule_error (add_prefix_rule (amendment_command a) Allow p)).
  - destruct (blocking_append_network_rule _ _ _ _ _ _ _ f) as [f1 [[]| |]]; try done. simpl.
    unfold lift_result. by destruct (add_rule_error (add_network_rule h pr d j p)).
Qed.

(** ** The machine *)

Inductive Phase :=
| Waiting
| Locked
| Written
| Read (next : result ExecPolicyUpdateError (option Policy))
| Finished (r : Outcome).

Record World := {
  files : S;
  policy : Policy;
  permit : bool;
  tasks : gmap nat (Update * Phase);
}.

Definition start (f : S) (p : Policy) : World :=
  {| files := f; policy := p; permit := true; tasks := ∅ |}.

Definition set_task (t : nat) (u : Update) (ph : Phase) (w : World) : gmap nat (Update * Phase) :=
  <[t := (u, ph)]> (tasks w).

Inductive step : World -> World -> Prop :=
| step_request w t u :
    tasks w !! t = None ->
    step w {| files := files w; policy := policy w; permit := permit w;
              tasks := set_task t u Waiting w |}
| step_acquire w t u :
    tasks w !! t = Some (u, Waiting) -> permit w = true ->
    step w {| files := files w; policy := policy w; permit := false;
              tasks := set_task t u Locked w |}
| step_write w t u f :
    tasks w !! t = Some (u, Locked) -> file_part u (files w) = (f, Ok tt) ->
    step w {| files := f; policy := policy w; permit := permit w;
              tasks := set_task t u Written w |}
| step_write_failed w t u f r :
    tasks w !! t = Some (u, Locked) -> file_part u (files w) = (f, r) -> is_ok r = false ->
    step w {| files := f; policy := policy w; permit := true;
              tasks := set_task t u (Finished (write_failure r)) w |}
| step_read w t u :
    tasks w !! t = Some (u, Written) ->
    step w {| files := files w; policy := policy w; permit := permit w;
              tasks := set_task t u (Read (memory_part u (policy w))) w |}
| step_store w t u next :
    tasks w !! t = Some (u, Read next) ->
    step w {| files := files w; policy := stored next (policy w); permit := true;
              tasks := set_task t u (Finished (outcome next)) w |}.

(** ** One after the other *)

(** The tasks of a list, each with its outcome, run in this order. *)
Inductive sequential (ts : gmap nat (Update * Phase)) (s : State) : list nat -> State -> Prop :=
| seq_nil : sequential ts s [] s
| seq_snoc order s1 t u r s2 :
    sequential ts s order s1 -> ts !! t = Some (u, Finished r) -> run_update u s1 = (s2, r) ->
    sequential ts s (order ++ [t]) s2.

Definition is_finished (ph : Phase) : bool := match ph with Finished _ => true | _ => false end.
Definition holds_permit (ph : Phase) : bool :=
  match ph with Locked | Written | Read _ => true | Waiting | Finished _ => false end.

(** What the state of a task with the permit is, beside the state left by the tasks that
    are done. *)
Definition in_phase (u : Update) (ph : Phase) (s : State) (w : World) : Prop :=
  policy w = s.2 /\
  match ph with
  | Locked => files w = s.1
  | Written => file_part u s.1 = (files w, Ok tt)
  | Read next => file_part u s.1 = (files w, Ok tt) /\ next = memory_part u s.2
  | Waiting | Finished _ => False
  end.

Definition history (ts : gmap nat (Update * Phase)) (s0 : State) (order : list nat) (s : State)
    : Prop :=
  sequential ts s0 order s /\ NoDup order
  /\ forall t, t ∈ order <-> exists u ph, ts !! t = Some (u, ph) /\ is_finished ph = true.

Definition consistent (s0 : State) (w : World) : Prop :=
  exists order s, history (tasks w) s0 order s
    /\ if permit w
       then (files w, policy w) = s
            /\ forall t u ph, tasks w !! t = Some (u, ph) -> holds_permit ph = false
       else exists t u ph, tasks w !! t = Some (u, ph) /\ in_phase u ph s w
            /\ forall t' u' ph', tasks w !! t' = Some (u', ph') -> holds_permit ph' = true -> t' = t.

Lemma sequential_insert (ts : gmap nat (Update * Phase)) (s0 s : State) (order : list nat) (t : nat) x :
  t ∉ order -> sequential ts s0 order s -> sequential (<[t := x]> ts) s0 order s.
Proof.
  intros Ht Hs. induction Hs as [|order s1 t' u r s2 _ IH Hl Hr]; [constructor|].
  apply not_elem_of_app in Ht as [Ht Hne%not_elem_of_cons]. eapply seq_snoc; [by apply IH| |exact Hr].
  rewrite lookup_insert_ne; [done|]. intros ->. by destruct Hne.
Qed.

Definition unfinished (ts : gmap nat (Update * Phase)) (t : nat) : Prop :=
  forall u ph, ts !! t = Some (u, ph) -> is_finished ph = false.

Lemma history_keep (ts : gmap nat (Update * Phase)) (s0 s : State) (order : list nat) (t : nat)
    (u : Update) (ph : Phase) :
  history ts s0 order s -> unfinished ts t -> is_finished ph = false ->
  history (<[t := (u, ph)]> ts) s0 order s.
Proof.
  intros (Hs & Hd & Hin) Hun Hph. split_and!; [|done|].
  - apply sequential_insert; [|done]. rewrite Hin. intros (u' & ph' & Hl & Hf). by rewrite (Hun _ _ Hl) in Hf.
  - intros t'. rewrite Hin. destruct (decide (t' = t)) as [->|Hne].
    + rewrite lookup_insert_eq. split.
      * intros (u' & ph' & Hl & Hf). by rewrite (Hun _ _ Hl) in Hf.
      * intros (u' & ph' & [= <- <-] & Hf). congruence.
    + by rewrite lookup_insert_ne.
Qed.

Lemma history_extend (ts : gmap nat (Update * Phase)) (s0 s s2 : State) (order : list nat) (t : nat)
    (u : Update) (r : Outcome) :
  history ts s0 order s -> unfinished ts t -> run_update u s = (s2, r) ->
  history (<[t := (u, Finished r)]> ts) s0 (order ++ [t]) s2.
Proof.
  intros (Hs & Hd & Hin) Hun Hr.
  assert (Ht : t ∉ order) by (rewrite Hin; intros (u' & ph' & Hl & Hf); by rewrite (Hun _ _ Hl) in Hf).
  split_and!.
  - eapply seq_snoc; [by apply sequential_insert|by apply lookup_insert_eq|done].
  - apply NoDup_app. split_and!; [done| |by apply NoDup_singleton].
    intros x Hx ->%list_elem_of_singleton. done.
  - intros t'. rewrite elem_of_app, list_elem_of_singleton, Hin. destruct (decide (t' = t)) as [->|Hne].
    + rewrite lookup_insert_eq. split; [eauto|]. by right.
    + rewrite lookup_insert_ne by done. naive_solver.
Qed.

(** Only one task has the permit. *)
Lemma holder_alone (w : World) (s0 : State) (t : nat) (u : Update) (ph : Phase) :
  consistent s0 w -> tasks w !! t = Some (u, ph) -> holds_permit ph = true ->
  permit w = false /\ exists order s, history (tasks w) s0 order s /\ in_phase u ph s w
    /\ forall t' u' ph', tasks w !! t' = Some (u', ph') -> holds_permit ph' = true -> t' = t.
Proof.
  intros (order & s & Hh & Hp) Hl Hph. destruct (permit w).
  - destruct Hp as [_ Hno]. by rewrite (Hno _ _ _ Hl) in Hph.
  - split; [done|]. destruct Hp as (t1 & u1 & ph1 & Hl1 & Hin & Hall).
    pose proof (Hall _ _ _ Hl Hph) as ->. rewrite Hl in Hl1. simplify_eq. eauto 10.
Qed.

(** The task with the permit goes on, and keeps it. *)
Lemma consistent_move (w : World) (s0 : State) (t : nat) (u : Update) (ph ph' : Phase)
    (f : S) (p : Policy) :
  consistent s0 w -> tasks w !! t = Some (u, ph) -> holds_permit ph = true ->
  is_finished ph' = false ->
  (forall s, in_phase u ph s w ->
     in_phase u ph' s {| files := f; policy := p; permit := false; tasks := set_task t u ph' w |}) ->
  consistent s0 {| files := f; policy := p; permit := permit w; tasks := set_task t u ph' w |}.
Proof.
  intros Hc Hl Hph Hph' Hin. destruct (holder_alone _ _ _ _ _ Hc Hl Hph) as (Hpm & order & s & Hh & Hp & Hall).
  exists order, s. cbn [tasks permit files policy]. split.
  - apply history_keep; [done| |done]. intros u' ph0 Hl'. rewrite Hl in Hl'. simplify_eq. by destruct ph0.
  - rewrite Hpm. exists t, u, ph'. unfold set_task. rewrite lookup_insert_eq. split_and!; [done|by apply Hin|].
    intros t' u' ph0 Hl' Hph0. destruct (decide (t' = t)) as [|Hne]; [done|].
    rewrite lookup_insert_ne in Hl' by done. by eapply Hall.
Qed.

(** The task with the permit ends, and gives it back. *)
Lemma consistent_finish (w : World) (s0 : State) (t : nat) (u : Update) (ph : Phase) (r : Outcome)
    (f : S) (p : Policy) :
  consistent s0 w -> tasks w !! t = Some (u, ph) -> holds_permit ph = true ->
  (forall s, in_phase u ph s w -> run_update u s = ((f, p), r)) ->
  consistent s0 {| files := f; policy := p; permit := true; tasks := set_task t u (Finished r) w |}.
Proof.
  intros Hc Hl Hph Hrun. destruct (holder_alone _ _ _ _ _ Hc Hl Hph) as (Hpm & order & s & Hh & Hp & Hall).
  exists (order ++ [t]), (f, p). cbn [tasks permit files policy]. split_and!.
  - eapply history_extend; [done| |by apply Hrun]. intros u' ph0 Hl'. rewrite Hl in Hl'.
    simplify_eq. by destruct ph0.
  - done.
  - intros t' u' ph0. unfold set_task. destruct (decide (t' = t)) as [->|Hne].
    + rewrite lookup_insert_eq. by intros [= <- <-].
    + rewrite lookup_insert_ne by done. intros Hl'. destruct (holds_permit ph0) eqn:E; [|done].
      by destruct Hne; eapply Hall.
Qed.

Lemma step_consistent (s0 : State) (w w' : World) : consistent s0 w -> step w w' -> consistent s0 w'.
Proof.
  intros Hc Hstep. destruct Hstep as [w t u Hl|w t u Hl Hpm|w t u f Hl Hf|w t u f r Hl Hf Hr|w t u Hl|w t u next Hl].
  - destruct Hc as (order & s & Hh & Hp). exists order, s. cbn [tasks permit files policy]. split.
    + apply history_keep; [done| |done]. intros ? ? ?. congruence.
    + unfold set_task. destruct (permit w).
      * destruct Hp as [Hs Hno]. split; [done|]. intros t' u' ph'.
        destruct (decide (t' = t)) as [->|Hne]; [rewrite lookup_insert_eq; by intros [= <- <-]|].
        rewrite lookup_insert_ne by done. apply Hno.
      * destruct Hp as (t1 & u1 & ph1 & Hl1 & Hin & Hall). exists t1, u1, ph1.
        rewrite lookup_insert_ne by (intros ->; congruence). split_and!; [done|by destruct ph1|].
        intros t' u' ph'. destruct (decide (t' = t)) as [->|Hne]; [rewrite lookup_insert_eq; by intros [= <- <-]|].
        rewrite lookup_insert_ne by done. apply Hall.
  - destruct Hc as (order & s & Hh & Hp). rewrite Hpm in Hp. destruct Hp as [Hs Hno].
    exists order, s. cbn [tasks permit files policy]. split.
    + apply history_keep; [done| |done]. intros u' ph' Hl'. rewrite Hl in Hl'. by simplify_eq.
    + exists t, u, Locked. unfold set_task. rewrite lookup_insert_eq. split_and!; [done|by subst s|].
      intros t' u' ph' Hl' Hph'. destruct (decide (t' = t)) as [|Hne]; [done|].
      rewrite lookup_insert_ne in Hl' by done. by rewrite (Hno _ _ _ Hl') in Hph'.
  - eapply consistent_move; [done|exact Hl|done|done|]. intros s [Hp Hfl]. split; [done|].
    simpl. by rewrite <- Hfl.
  - eapply consistent_finish; [done|exact Hl|done|]. intros [fs ps] [Hp Hfl]. simpl in *. subst.
    rewrite run_update_parts, Hf. by destruct r.
  - eapply consistent_move; [done|exact Hl|done|done|]. intros s [Hp Hfl]. split_and!; [done..|].
    by rewrite Hp.
  - eapply consistent_finish; [done|exact Hl|done|]. intros [fs ps] (Hp & Hfl & ->). simpl in *. subst.
    by rewrite run_update_parts, Hfl.
Qed.

(** C6: however the tasks of updates interleave, when none holds the permit the files and
    the policy in memory are what running the tasks that are done one after the other, in
    some order, leaves, each with the outcome it had; no update is lost. *)
Theorem updates_linearizable (f : S) (p : Policy) (w : World) :
  rtc step (start f p) w -> permit w = true ->
  exists order, sequential (tasks w) (f, p) order (files w, policy w) /\ NoDup order
    /\ forall t, t ∈ order <-> exists u r, tasks w !! t = Some (u, Finished r).
Proof.
  intros Hsteps Hpm.
  assert (Hc : consistent (f, p) w).
  { assert (Hc0 : consistent (f, p) (start f p)).
    { exists [], (f, p). split; [|by split]. split_and!; [constructor|constructor|].
      intros t. split; [by intros ?%not_elem_of_nil|]. intros (u & ph & Hl & _). simpl in Hl. set_solver. }
    induction Hsteps as [w|w1 w2 w3 Hs _ IH]; [done|]. apply IH; [done|]. by eapply step_consistent. }
  destruct Hc as (order & s & (Hs & Hd & Hin) & Hp). rewrite Hpm in Hp. destruct Hp as [<- _].
  exists order. split_and!; [done..|]. intros t. rewrite Hin. split.
  - intros (u & [] & Hl & Hf); try done. eauto.
  - intros (u & r & Hl). eauto.
Qed.

End Machine.

(** Two updates are asked for; the first is done, the second still waits. *)
Lemma updates_linearizable_witness :
  let system := CommandApprovalFacts.demo_system in
  let ls := AppendAmendment {| amendment_command := [lit "ls"] |} in
  let wc := AppendAmendment {| amendment_command := [lit "wc"] |} in
  exists w, tasks w !! 2 = Some (wc, Waiting)
    /\ exists order, sequential system quote_line (fun _ => []) (lit "/h") (tasks w)
         (Some [], ExecPolicy.empty) order (files w, policy w) /\ NoDup order
         /\ forall t, t ∈ order <-> exists u r, tasks w !! t = Some (u, Finished r).
Proof.
  intros system ls wc. eexists. split; cycle 1.
  - apply (updates_linearizable system quote_line (fun _ => []) (lit "/h") (Some []) ExecPolicy.empty).
    + eapply rtc_l; [by apply (step_request _ _ _ _ _ 1 ls)|].
      eapply rtc_l; [by apply (step_request _ _ _ _ _ 2 wc)|].
      eapply rtc_l; [by apply (step_acquire _ _ _ _ _ 1 ls)|].
      eapply rtc_l; [by eapply (step_write _ _ _ _ _ 1 ls)|].
      eapply rtc_l; [by apply (step_read _ _ _ _ _ 1 ls)|].
      eapply rtc_l; [by eapply (step_store _ _ _ _ _ 1 ls)|]. apply rtc_refl.
    + done.
  - done.
Defined.

End CommandUpdates.
