(* ===== verification/CommandPolicyFacts.v ===== *)
(** * Facts about the policy of a session

    An accepted proposal lets the command through the next time, and updates that run
    at the same time have the effect of running one after the other. *)

From Stdlib Require Import Ascii String.
From stdpp Require Import sorting.
From S2P Require Import Prelude RustStr AbsPath FileSystem ExecRule ExecPolicyFacts ExecAmend.
From S2P Require Import ExecParserFacts FsPolicy Approval CommandApproval CommandPolicy.
From S2P Require Import ExecNetworkFacts ExecParser ConfigToml ConfigLayers ConfigRules.
Import AbsPath ExecRule ExecPolicy ExecPolicyFacts ExecParserFacts ExecAmend FsPolicy Approval.
Import CommandApproval CommandApprovalFacts CommandPolicy.

Module CommandPolicyFacts.

(** ** Longer commands *)

(** A rule that matches a command matches every longer one. *)
Lemma matches_longer (r : PrefixRule) (cmd more : list str) (m : RuleMatch) :
  matches r cmd = Some m -> matches r (cmd ++ more) = Some m.
Proof.
  rewrite !rule_applies_matches. intros (matched & args & -> & Hf & ->).
  exists matched, (args ++ more). by rewrite app_assoc.
Qed.

Lemma omap_longer (rs : list PrefixRule) (cmd more : list str) :
  omap (fun r => matches r cmd) rs ⊆ omap (fun r => matches r (cmd ++ more)) rs.
Proof.
  intros m (r & Hr & Hm)%list_elem_of_omap. apply list_elem_of_omap. exists r.
  split; [done|by apply matches_longer].
Qed.

Section OnSystem.
Context (Sys : System).
Local Abbreviation home := (home_dir (host_of Sys)).
Local Abbreviation cwd := (current_dir (host_of Sys)).

(** Without a rule for the longer command there is none for the shorter. *)
Lemma no_match_shorter (p : Policy) (cmd more : list str) (f g : list str -> Decision) :
  cmd <> [] ->
  matches_for_command_with_options home cwd p (cmd ++ more) (Some f) match_options
    = [HeuristicsRuleMatch (cmd ++ more) (f (cmd ++ more))] ->
  matches_for_command_with_options home cwd p cmd (Some g) match_options
    = [HeuristicsRuleMatch cmd (g cmd)].
Proof.
  destruct cmd as [|c cmd]; [done|]. intros _. cbn [app].
  unfold matches_for_command_with_options. cbn [resolve_host_executables match_options].
  assert (Hn : forall l : list RuleMatch, match non_empty (Some l) with Some ms => ms | None => [] end = l)
    by by intros [].
  assert (He : match_exact_rules p (c :: cmd ++ more) = Some (exact p (c :: cmd ++ more))) by done.
  assert (He' : match_exact_rules p (c :: cmd) = Some (exact p (c :: cmd))) by done.
  rewrite He, He'. destruct (exact p (c :: cmd ++ more)) as [|m ms] eqn:Ex; cbn [non_empty].
  - assert (exact p (c :: cmd) = []) as ->.
    { rewrite exact_rules_of in *. pose proof (omap_longer (rules_of p c) (c :: cmd) more) as Hs.
      cbn [app] in Hs. rewrite Ex in Hs. by apply list_nil_subseteq in Hs. }
    cbn [non_empty].
    destruct (match_host_executable_rules home cwd p (c :: cmd ++ more)) as [|m ms] eqn:Eh;
      cbn [non_empty].
    + intros _. assert (match_host_executable_rules home cwd p (c :: cmd) = []) as ->; [|done].
      unfold match_host_executable_rules in *. repeat case_match; try done; apply map_eq_nil in Eh;
        match goal with
        | E : omap (fun rule => matches rule (?b :: _)) ?rs = [] |- _ =>
            pose proof (omap_longer rs (b :: cmd) more) as Hs; cbn [app] in Hs;
            rewrite E in Hs; apply list_nil_subseteq in Hs; by rewrite Hs
        end.
    + intros E. pose proof (host_from_rule home cwd p (c :: cmd ++ more)) as Hf.
      rewrite Eh in Hf. apply Forall_cons in Hf as [Hf _]. by simplify_eq.
  - intros E. pose proof (exact_from_rule p (c :: cmd ++ more)) as Hf.
    rewrite Ex in Hf. apply Forall_cons in Hf as [Hf _]. by simplify_eq.
Qed.

(** ** Accepting a proposal *)

Section Accept.
Context (p p' : Policy) (req : ExecApprovalRequest) (a : ExecPolicyAmendment).
Context (Hadd : add_prefix_rule (amendment_command a) Allow p = Ok p').
Local Abbreviation prefix := (amendment_command a).

(** The match of the new rule, itself or for a host executable. *)
Lemma host_added (cmd : list str) (m : RuleMatch) :
  m ∈ match_host_executable_rules home cwd p' cmd ->
  m ∈ match_host_executable_rules home cwd p cmd \/ match_decision m = Allow.
Proof.
  destruct cmd as [|c cmd]; [by left|]. rewrite !host_rules_of.
  assert (Hh : host_executables_by_name p' = host_executables_by_name p)
    by (unfold add_prefix_rule in Hadd; case_match; by simplify_eq).
  rewrite Hh. destruct (from_absolute_path home cwd c) as [prog| |]; try by left.
  destruct (file_name prog) as [base|]; [|by left]. destruct (match _ with Some _ => _ | None => _ end); [by left|].
  apply add_prefix_rule_Ok in Hadd as (f & ts & _ & Hr). rewrite Hr, omap_app, map_app, elem_of_app.
  intros [?|Hm]; [by left|right]. apply list_elem_of_fmap in Hm as (m' & -> & Hm').
  apply list_elem_of_omap in Hm' as (r & Hr' & Hm'). case_decide; [|by apply not_elem_of_nil in Hr'].
  apply list_elem_of_singleton in Hr' as ->. simpl in Hm'. by destruct (matches_prefix _ _); simplify_eq/=.
Qed.

Lemma host_kept (cmd : list str) :
  match_host_executable_rules home cwd p' cmd = [] -> match_host_executable_rules home cwd p cmd = [].
Proof.
  destruct cmd as [|c cmd]; [done|]. rewrite !host_rules_of.
  assert (Hh : host_executables_by_name p' = host_executables_by_name p)
    by (unfold add_prefix_rule in Hadd; case_match; by simplify_eq).
  rewrite Hh. destruct (from_absolute_path home cwd c) as [prog| |]; try done.
  destruct (file_name prog) as [base|]; [|done]. destruct (match _ with Some _ => _ | None => _ end); [done|].
  apply add_prefix_rule_Ok in Hadd as (f & ts & _ & Hr). rewrite Hr, omap_app, map_app.
  by intros [-> _]%app_eq_nil.
Qed.

(** What a new rule that allows changes is that it allows. *)
Lemma matches_added (cmd : list str) (m : RuleMatch) :
  m ∈ matches_for Sys p' req cmd -> m ∈ matches_for Sys p req cmd \/ match_decision m = Allow.
Proof.
  pose proof (exact_add_prefix prefix cmd Allow p p' Hadd) as He.
  destruct (decide (exact p' cmd = [])) as [Hn|Hn].
  - assert (Hn0 : exact p cmd = []) by (rewrite Hn in He; symmetry in He; by apply app_eq_nil in He as [? _]).
    assert (Hcases : forall q, exact q cmd = [] -> matches_for Sys q req cmd =
      match match_host_executable_rules home cwd q cmd with
      | [] => [HeuristicsRuleMatch cmd (fallback_of Sys req cmd)]
      | ms => ms
      end).
    { intros q Hq. unfold matches_for, matches_for_command_with_options, exact in *.
      destruct (match_exact_rules q cmd) as [l|]; [subst l|]; cbn [non_empty resolve_host_executables match_options];
        by destruct (match_host_executable_rules home cwd q cmd). }
    rewrite !Hcases by done. pose proof (host_kept cmd) as Hk. pose proof (host_added cmd m) as Ha.
    destruct (match_host_executable_rules home cwd p' cmd) as [|m' ms']; [by rewrite Hk by done; left|].
    intros Hm. destruct (Ha Hm) as [Hin|?]; [left|by right].
    by destruct (match_host_executable_rules home cwd p cmd); [apply not_elem_of_nil in Hin|].
  - unfold matches_for at 1. rewrite matches_exact, He by done. rewrite elem_of_app.
    intros [Hm|Hm].
    + left. unfold matches_for. rewrite matches_exact; [done|]. intros E. rewrite E in Hm.
      by apply not_elem_of_nil in Hm.
    + right. case_decide; [|by apply not_elem_of_nil in Hm]. by apply list_elem_of_singleton in Hm as ->.
Qed.

Lemma decided_allow_added (cmd : list str) :
  decided Sys p req cmd Allow -> decided Sys p' req cmd Allow.
Proof.
  rewrite !decided_matches. intros [_ Hle].
  assert (Hall : forall m, m ∈ matches_for Sys p' req cmd -> match_decision m = Allow).
  { intros m [Hm|?]%matches_added; [|done]. specialize (Hle m Hm). unfold decision_le in Hle.
    destruct (match_decision m); simpl in Hle; (done || lia). }
  split; [|intros m Hm; unfold decision_le; by rewrite (Hall m Hm)].
  pose proof (matches_nonempty home cwd p' cmd (fallback_of Sys req) match_options) as Hne.
  fold (matches_for Sys p' req cmd) in Hne.
  destruct (matches_for Sys p' req cmd) as [|m ms]; [done|]. exists m. split; [by left|apply Hall; by left].
Qed.

(** A command that no rule matched, and that starts with the prefix, is matched by the new
    rule only. *)
Lemma no_rule_added (cmd : list str) :
  no_rule Sys p req cmd -> prefix `prefix_of` cmd ->
  matches_for Sys p' req cmd = [PrefixRuleMatch prefix Allow None None].
Proof.
  intros Hn Hp. pose proof (exact_add_prefix prefix cmd Allow p p' Hadd) as He.
  rewrite decide_True in He by done.
  assert (Hn0 : exact p cmd = []).
  { destruct (decide (exact p cmd = [])) as [|Hne]; [done|]. apply no_rule_matches in Hn.
    unfold matches_for in Hn. rewrite matches_exact in Hn by done.
    pose proof (exact_from_rule p cmd) as Hf. rewrite Hn in Hf. by apply Forall_cons in Hf as [? _]. }
  unfold matches_for. rewrite matches_exact; rewrite He, Hn0; done.
Qed.

End Accept.

(** ** Accepting a proposal lets the command through *)

Local Abbreviation requirement := (create_exec_approval_requirement_for_command Sys).

Lemma proposal_no_prompt_rule (p : Policy) (req : ExecApprovalRequest) reason (a : ExecPolicyAmendment) :
  requirement p req = Ok (NeedsApproval reason (Some a)) ->
  Forall (fun m => is_prompt_rule m = false) (all_matches Sys p req).
Proof.
  destruct (evaluation_exists Sys p req) as (e & He & Hm & _).
  unfold create_exec_approval_requirement_for_command, commands_of_request, fallback_of in *.
  destruct (commands_for_exec_policy Sys (command req)) as [commands complex]. simpl in *.
  rewrite He, <- Hm. simpl. intros H. destruct (decision e); try done.
  case_match; [done|]. injection H as _ Ha. apply existsb_none.
  unfold derive_requested_execpolicy_amendment_from_prefix_rule in Ha.
  assert (Hauto : (if negb complex then try_derive_execpolicy_amendment_for_prompt_rules (matched_rules e)
                   else None) = Some a -> existsb is_prompt_rule (matched_rules e) = false).
  { destruct complex; [done|]. simpl. unfold try_derive_execpolicy_amendment_for_prompt_rules.
    by destruct (existsb is_prompt_rule (matched_rules e)). }
  destruct (prefix_rule req) as [pr|]; [|by apply Hauto]. simpl in Ha.
  destruct (bool_decide (pr = [])); [by apply Hauto|].
  destruct (bool_decide (pr ∈ BANNED_PREFIX_SUGGESTIONS)); [by apply Hauto|].
  destruct (existsb is_policy_match (matched_rules e)) eqn:Hp; [by apply Hauto|].
  apply existsb_none. apply existsb_none in Hp. eapply Forall_impl; [exact Hp|].
  intros m Hpm. unfold is_prompt_rule. by rewrite Hpm.
Qed.

Lemma prompting_no_rule (p : Policy) (req : ExecApprovalRequest) (cmd : list str) :
  Forall (fun m => is_prompt_rule m = false) (all_matches Sys p req) ->
  cmd ∈ commands_of_request Sys req -> decided Sys p req cmd Prompt -> no_rule Sys p req cmd.
Proof.
  intros Hnp Hin ((m & Hm & Hd) & _)%decided_matches. rewrite Forall_forall in Hnp.
  specialize (Hnp m). apply no_rule_matches. unfold matches_for in *.
  destruct (matches_cases home cwd p cmd (fallback_of Sys req) match_options) as [[_ Hf]|]; [|done].
  rewrite Forall_forall in Hf. specialize (Hf m Hm).
  assert (Hall : m ∈ all_matches Sys p req) by (apply list_elem_of_bind; eauto).
  specialize (Hnp Hall). unfold is_prompt_rule in Hnp. rewrite Hd in Hnp. by destruct m.
Qed.

(** An amendment is already allowed only when a rule matches it, and then a rule matches
    every command that starts with it. *)
Lemma already_allowed_rule (p : Policy) (req : ExecApprovalRequest) (a : ExecPolicyAmendment)
    (cmd : list str) :
  amendment_command a <> [] -> amendment_command a `prefix_of` cmd -> no_rule Sys p req cmd ->
  already_allowed Sys p a = false.
Proof.
  intros Hne [more ->] Hn%no_rule_matches. unfold matches_for in Hn.
  apply (no_match_shorter _ _ _ _ (fun _ => Forbidden) Hne) in Hn.
  unfold already_allowed, check_commands, check_multiple_with_options. simpl.
  rewrite app_nil_r, Hn. done.
Qed.

Lemma update_memory {S : Type} `{PolicyFs S} (json_string : str -> str) (agere_home : str)
    (a : ExecPolicyAmendment) (f f' : S) (p p' : Policy) :
  append_amendment_and_update Sys json_string agere_home a (f, p) = ((f', p'), Ok tt) ->
  if already_allowed Sys p a then p' = p
  else add_prefix_rule (amendment_command a) Allow p = Ok p'.
Proof.
  unfold append_amendment_and_update, blocking. intros E. simpl in E.
  unfold mbind, action_bind in E. cbn [fst snd] in E.
  destruct (blocking_append_allow_prefix_rule _ _ _ f) as [f1 [[]| |]]; try done. simpl in E.
  unfold mret, action_ret in E. destruct (already_allowed Sys p a); [by simplify_eq|].
  unfold lift_result, add_rule_error, store in E. destruct (add_prefix_rule _ _ p); simpl in E; by simplify_eq.
Qed.

(** A line of allowed commands, one of them by a rule, runs without a proposal. *)
Lemma skip_of_matched (p : Policy) (req : ExecApprovalRequest) (c : list str) (m : RuleMatch) :
  (forall cmd, cmd ∈ commands_of_request Sys req -> decided Sys p req cmd Allow) ->
  c ∈ commands_of_request Sys req -> m ∈ matches_for Sys p req c -> is_policy_match m = true ->
  requirement p req = Ok (Skip None).
Proof.
  intros Hall Hc Hm Hpm. destruct (evaluation_exists Sys p req) as (e & He & Hms & (c' & Hc' & Hd) & _).
  pose proof (decided_unique _ _ _ _ _ _ Hd (Hall c' Hc')) as Hda.
  assert (Hex : existsb is_policy_match (matched_rules e) = true).
  { rewrite Hms. apply existsb_exists. exists m. split; [|done].
    apply list_elem_of_In, list_elem_of_bind. eauto. }
  unfold create_exec_approval_requirement_for_command, commands_of_request, fallback_of in *.
  destruct (commands_for_exec_policy Sys (command req)) as [commands complex]. simpl in *.
  rewrite He. simpl. rewrite Hda. unfold try_derive_execpolicy_amendment_for_allow_rules.
  rewrite Hex. by destruct complex.
Qed.

(** ** Allowed from then on *)

(** A line whose commands are all allowed, one of them by a rule. *)
Definition settled (p : Policy) (req : ExecApprovalRequest) : Prop :=
  (forall cmd, cmd ∈ commands_of_request Sys req -> decided Sys p req cmd Allow) /\
  exists c, c ∈ commands_of_request Sys req /\ ~ no_rule Sys p req c.

Lemma ruled_match (p : Policy) (req : ExecApprovalRequest) (c : list str) :
  ~ no_rule Sys p req c -> exists m, m ∈ matches_for Sys p req c /\ is_policy_match m = true.
Proof.
  intros Hn. pose proof (matches_nonempty home cwd p c (fallback_of Sys req) match_options) as Hne.
  destruct (matches_cases home cwd p c (fallback_of Sys req) match_options) as [[_ Hf]|Hh];
    [|by destruct Hn; apply no_rule_matches].
  fold (matches_for Sys p req c) in *.
  destruct (matches_for Sys p req c) as [|m ms]; [done|]. exists m.
  split; [by left|]. apply Forall_cons in Hf as [Hm _]. by destruct m.
Qed.

Lemma settled_skips (p : Policy) (req : ExecApprovalRequest) :
  settled p req -> requirement p req = Ok (Skip None).
Proof.
  intros [Hall (c & Hc & (m & Hm & Hpm)%ruled_match)]. by eapply skip_of_matched.
Qed.

Lemma no_rule_before (p p' : Policy) (req : ExecApprovalRequest) (a : ExecPolicyAmendment)
    (cmd : list str) :
  add_prefix_rule (amendment_command a) Allow p = Ok p' -> no_rule Sys p' req cmd ->
  no_rule Sys p req cmd.
Proof.
  intros Hadd Hn%no_rule_matches. apply no_rule_matches. unfold matches_for in *.
  pose proof (exact_add_prefix _ cmd Allow p p' Hadd) as He.
  destruct (decide (exact p' cmd = [])) as [Hx|Hx]; cycle 1.
  { rewrite matches_exact in Hn by done. pose proof (exact_from_rule p' cmd) as Hf.
    rewrite Hn in Hf. by apply Forall_cons in Hf as [? _]. }
  rewrite Hx in He. symmetry in He. apply app_eq_nil in He as [Hx0 _].
  pose proof (host_kept p p' a Hadd cmd) as Hk. pose proof (host_from_rule home cwd p' cmd) as Hf.
  unfold matches_for_command_with_options, exact in *.
  cbn [resolve_host_executables match_options] in *.
  destruct (match_exact_rules p' cmd) as [l'|]; [subst l'|]; cbn [non_empty] in *;
    (destruct (match_host_executable_rules home cwd p' cmd) as [|m ms]; cbn [non_empty] in *;
     [|by simplify_eq; apply Forall_cons in Hf as [? _]]); rewrite Hk by done;
    by destruct (match_exact_rules p cmd) as [l|]; [subst l|].
Qed.

Lemma settled_added (p p' : Policy) (req : ExecApprovalRequest) (a : ExecPolicyAmendment) :
  add_prefix_rule (amendment_command a) Allow p = Ok p' -> settled p req -> settled p' req.
Proof.
  intros Hadd [Hall (c & Hc & Hn)]. split.
  - intros cmd Hin. eapply decided_allow_added; [exact Hadd|]. by apply Hall.
  - exists c. split; [done|]. intros Hn'. apply Hn. by eapply no_rule_before.
Qed.

(** The answer about a command does not look at the rules for the network. *)
Lemma settled_network (p p' : Policy) (req : ExecApprovalRequest) host protocol d j :
  add_network_rule host protocol d j p = Ok p' -> settled p req -> settled p' req.
Proof.
  unfold add_network_rule. intros Hadd.
  destruct (normalize_network_rule_host host) as [h|e|x]; [|done..]. cbn [mbind result_bind] in Hadd.
  repeat case_match; simplify_eq; by destruct p.
Qed.

Lemma accepted_amendment_settles (p p' : Policy) (req : ExecApprovalRequest)
    (reason : option str) (a : ExecPolicyAmendment) :
  requirement p req = Ok (NeedsApproval reason (Some a)) ->
  (forall cmd, cmd ∈ commands_of_request Sys req -> decided Sys p req cmd Prompt ->
     amendment_command a `prefix_of` cmd) ->
  (if already_allowed Sys p a then p' = p
   else add_prefix_rule (amendment_command a) Allow p = Ok p') ->
  settled p' req.
Proof.
  intros Hr Hcov Hup. pose proof (proposal_no_prompt_rule _ _ _ _ Hr) as Hnp.
  destruct (requirement_cases Sys p req) as (r & Hr' & Hspec). rewrite Hr in Hr'. simplify_eq.
  destruct Hspec as ((c & Hc & Hcp) & Hnf & _).
  pose proof (prompting_no_rule p req c Hnp Hc Hcp) as Hcn.
  assert (Hadd : add_prefix_rule (amendment_command a) Allow p = Ok p').
  { destruct (already_allowed Sys p a) eqn:Hal; [|done].
    destruct (decide (amendment_command a = [])) as [Hnil|Hne].
    - unfold already_allowed in Hal. rewrite Hnil in Hal. by vm_compute in Hal.
    - by rewrite (already_allowed_rule p req a c) in Hal by eauto. }
  assert (Hnew : forall cmd, cmd ∈ commands_of_request Sys req -> decided Sys p req cmd Prompt ->
    matches_for Sys p' req cmd = [PrefixRuleMatch (amendment_command a) Allow None None]).
  { intros cmd Hin Hd. apply (no_rule_added _ _ _ _ Hadd cmd); [|by apply Hcov].
    by apply prompting_no_rule. }
  split.
  - intros cmd Hin. destruct (decided_total Sys p req cmd) as [[] Hd].
    + by eapply decided_allow_added.
    + apply decided_matches. rewrite (Hnew _ Hin Hd). setoid_rewrite list_elem_of_singleton.
      split; [by eexists|]. intros m ->. unfold decision_le. done.
    + by destruct (Hnf cmd Hin).
  - exists c. split; [done|]. intros Hn%no_rule_matches. by rewrite (Hnew _ Hc Hcp) in Hn.
Qed.

Section Updates.
Context {S : Type} `{PolicyFsLaws S}.
Context (json_string : str -> str) (json_one_line : forall s, NL ∉ json_string s).
Context (error_to_string : Error -> str) (agere_home : str).

(** Any update of the session, whether it succeeds or not. *)
Inductive update_step : S * Policy -> S * Policy -> Prop :=
| amendment_step st st' a r :
    append_amendment_and_update Sys json_string agere_home a st = (st', r) -> update_step st st'
| network_step st st' host protocol d j r :
    append_network_rule_and_update json_string error_to_string agere_home host protocol d j st
      = (st', r) -> update_step st st'.

Lemma settled_step (st st' : S * Policy) (req : ExecApprovalRequest) :
  update_step st st' -> settled st.2 req -> settled st'.2 req.
Proof.
  intros [[f p] st1 a r E|[f p] st1 host protocol d j r E] Hs; simpl in Hs.
  - unfold append_amendment_and_update, blocking, mbind, action_bind in E. cbn [fst snd] in E.
    destruct (blocking_append_allow_prefix_rule _ _ _ f) as [f1 [[]| |]]; simpl in E;
      [|by simplify_eq..].
    destruct (already_allowed Sys p a); [unfold mret, action_ret in E; by simplify_eq|].
    unfold lift_result, add_rule_error, store in E.
    destruct (add_prefix_rule _ _ p) as [p1| |] eqn:Ea; simplify_eq/=; try done.
    by eapply settled_added.
  - unfold append_network_rule_and_update, blocking, mbind, action_bind in E. cbn [fst snd] in E.
    destruct (blocking_append_network_rule _ _ _ _ _ _ _ f) as [f1 [[]| |]]; simpl in E;
      [|by simplify_eq..].
    unfold lift_result, add_rule_error, store in E.
    destruct (add_network_rule _ _ _ _ p) as [p1| |] eqn:Ea; simplify_eq/=; try done.
    by eapply settled_network.
Qed.

Lemma settled_steps (st st' : S * Policy) (req : ExecApprovalRequest) :
  rtc update_step st st' -> settled st.2 req -> settled st'.2 req.
Proof.
  induction 1 as [|st1 st2 st3 Hst _ IH]; [done|]. intros Hs. apply IH. by eapply settled_step.
Qed.

Lemma update_file (a : ExecPolicyAmendment) (f f' : S) (p p' : Policy) :
  append_amendment_and_update Sys json_string agere_home a (f, p) = ((f', p'), Ok tt) ->
  blocking_append_allow_prefix_rule json_string (default_policy_path agere_home)
    (amendment_command a) f = (f', Ok tt).
Proof.
  unfold append_amendment_and_update, blocking, mbind, action_bind. cbn [fst snd]. intros E.
  destruct (blocking_append_allow_prefix_rule _ _ _ f) as [f1 [[]| |]]; try done. simpl in E.
  destruct (already_allowed Sys p a); [unfold mret, action_ret in E; by simplify_eq|].
  unfold lift_result, add_rule_error, store in E. destruct (add_prefix_rule _ _ p); by simplify_eq/=.
Qed.

(** C5: when the user is asked about a command line with a proposed rule that covers every
    command that prompts, and accepts it, the rule is in the file of rules, on a line of
    its own after the text that was there, and the same request runs without a question
    from then on: now, and after any further updates of the policy of the session. *)
Theorem accepted_amendment_skips (f f' : S) (p p' : Policy) (req : ExecApprovalRequest)
    (reason : option str) (a : ExecPolicyAmendment) :
  requirement p req = Ok (NeedsApproval reason (Some a)) ->
  (forall cmd, cmd ∈ commands_of_request Sys req -> decided Sys p req cmd Prompt ->
     amendment_command a `prefix_of` cmd) ->
  append_amendment_and_update Sys json_string agere_home a (f, p) = ((f', p'), Ok tt) ->
  (exists c', text (default_policy_path agere_home) f' = Some c' /\
     default [] (text (default_policy_path agere_home) f) `prefix_of` c' /\
     allow_prefix_line json_string (amendment_command a) ∈ lines c') /\
  requirement p' req = Ok (Skip None) /\
  forall later, rtc update_step (f', p') later -> requirement later.2 req = Ok (Skip None).
Proof.
  intros Hr Hcov Hup.
  pose proof (accepted_amendment_settles p p' req reason a Hr Hcov) as Hs.
  specialize (Hs (update_memory _ _ _ _ _ _ _ Hup)). split_and!.
  - apply update_file in Hup. unfold blocking_append_allow_prefix_rule in Hup.
    case_bool_decide; [done|]. apply append_rule_text in Hup. eexists. split; [exact Hup|].
    pose proof (allow_prefix_line_clean json_string json_one_line (amendment_command a)) as Hcl.
    destruct (amended_spec (default [] (text (default_policy_path agere_home) f)) _ Hcl)
      as (? & ? & _). done.
  - by apply settled_skips.
  - intros later Hl. apply settled_skips. by eapply (settled_steps (f', p')).
Qed.

End Updates.

End OnSystem.

Lemma accepted_amendment_skips_witness :
  let req := demo_request [lit "cargo"; lit "build"] UnlessTrusted in
  let a := {| amendment_command := [lit "cargo"] |} in
  exists f' p',
    append_amendment_and_update demo_system quote_line (lit "/h") a (Some [], ExecPolicy.empty)
      = ((f', p'), Ok tt)
    /\ (exists c', text (default_policy_path (lit "/h")) f' = Some c' /\
          default [] (text (default_policy_path (lit "/h")) (Some [] : one_file)) `prefix_of` c' /\
          allow_prefix_line quote_line [lit "cargo"] ∈ lines c')
    /\ create_exec_approval_requirement_for_command demo_system p' req = Ok (Skip None)
    /\ forall later, rtc (update_step demo_system quote_line (fun _ => []) (lit "/h")) (f', p') later ->
         create_exec_approval_requirement_for_command demo_system later.2 req = Ok (Skip None).
Proof.
  intros req a.
  destruct (append_amendment_and_update demo_system quote_line (lit "/h") a (Some [], ExecPolicy.empty))
    as [[f' p'] [[]|e|c]] eqn:E; [|vm_compute in E; discriminate E..].
  exists f', p'. split; [done|].
  apply (accepted_amendment_skips demo_system quote_line quote_line_one_line (fun _ => []) (lit "/h")
           (Some []) f' ExecPolicy.empty p' req None a); [by vm_compute| |exact E].
  intros cmd Hin _. apply list_elem_of_In in Hin. destruct Hin as [<-|[]]. by exists [lit "build"].
Defined.

End CommandPolicyFacts.

(** * Facts about loading the policy

    Which files are read; that the rules of the requirements hold in what is loaded; and
    what a file that cannot be parsed does to them. *)

Import AbsPath ExecRule ExecPolicy ExecPolicyFacts ExecNetworkFacts ExecParser ConfigToml ConfigLayers ConfigRules.
Import FsPolicy ConfigRulesFacts Approval CommandApproval CommandApprovalFacts CommandPolicy.

Module CommandLoadFacts.

Section Load.
Context (Sys : System) (show_rule : PrefixRule -> str) (show_match : RuleMatch -> str).
Context (starlark : str -> str -> str + (list Call * option str)).
Context (read_dir : str -> result io_error (list (result io_error DirEntry))).
Context (read_to_string : str -> result io_error str).

#[local] Instance str_le_total : Total str_le.
Proof.
  intros a b. unfold str_le. rewrite (cmp_opp (cmp := lex_compare N.compare) a b).
  destruct (lex_compare N.compare a b); simpl; [by left|by left|by right].
Qed.

(** ** The files of a folder *)

(** A rules file of a folder. *)
Definition rules_file (dir : str) (e : DirEntry) : bool :=
  bool_decide (extension (push dir (entry_name e)) = Some RULE_EXTENSION)
  && bool_decide (entry_is_file e = Ok true).

Lemma rule_files_Ok (dir : str) (entries : list (result io_error DirEntry)) (acc paths : list str) :
  rule_files dir entries acc = Ok paths ->
  exists es, entries = map Ok es /\
    paths = acc ++ map (fun e => push dir (entry_name e)) (List.filter (rules_file dir) es).
Proof.
  revert acc. induction entries as [|r entries IH]; intros acc; simpl.
  { intros [= <-]. exists []. by rewrite app_nil_r. }
  intros H. apply bind_Ok in H as (e & He%map_err_Ok & H). apply bind_Ok in H as (b & Hb%map_err_Ok & H).
  subst r. case_match eqn:Hx.
  - apply IH in H as (es & -> & ->). exists (e :: es). split; [done|]. simpl.
    apply andb_true_iff in Hx as [Hx ->]. assert (rules_file dir e = true) as ->.
    { unfold rules_file. by rewrite Hx, Hb, bool_decide_true. }
    by rewrite <- app_assoc.
  - apply IH in H as (es & -> & ->). exists (e :: es). split; [done|]. simpl.
    assert (rules_file dir e = false) as ->; [|done].
    unfold rules_file. rewrite Hb. destruct (bool_decide (extension _ = _)); [|done].
    simpl in Hx. subst b. by rewrite bool_decide_false.
Qed.

(** A folder that is not there has no rules; otherwise the files with the extension of
    rules are found, all of them and nothing else, in the order of their paths, and an
    entry that cannot be read is an error. *)
Theorem collect_policy_files_exact (dir : str) (paths : list str) :
  collect_policy_files read_dir dir = Ok paths ->
  (exists err, read_dir dir = Err err /\ kind err = NotFound /\ paths = [])
  \/ exists es, read_dir dir = Ok (map Ok es) /\ Sorted str_le paths
       /\ paths ≡ₚ map (fun e => push dir (entry_name e)) (List.filter (rules_file dir) es).
Proof.
  unfold collect_policy_files. destruct (read_dir dir) as [entries|err|c]; [|case_bool_decide|done].
  - intros H. apply bind_Ok in H as (l & (es & -> & ->)%rule_files_Ok & [= <-]). right. exists es.
    split; [done|]. split; [|by rewrite merge_sort_Permutation]. by apply (Sorted_merge_sort _).
  - intros [= <-]. left. eauto.
  - done.
Qed.

(** ** The requirements *)

Context {R T : Type} (requirements_exec_policy : R -> option Policy).

Local Abbreviation load_stack :=
  (load_exec_policy Sys show_rule show_match starlark read_dir read_to_string
     requirements_exec_policy).

(** The rules of the requirements are in the policy, beside those of the files. *)
Lemma loaded_with_requirements (stack : ConfigLayerStack R T) (policy q : Policy) :
  load_stack stack = Ok policy -> requirements_exec_policy (requirements stack) = Some q ->
  exists p, policy = merge_overlay p q.
Proof.
  unfold load_exec_policy. intros H Hq. apply bind_Ok in H as (paths & _ & H).
  apply bind_Ok in H as (b & _ & H). rewrite Hq in H. simplify_eq. by eexists.
Qed.

(** C7: if the rules files can be read and parsed, then whatever rules they have, a command
    that a rule of the requirements matches never runs unasked under the policy that is
    loaded. (A file that cannot be parsed is another matter: [parse_error_drops_rules].) *)
Theorem requirements_always_ask (stack : ConfigLayerStack R T) (policy q : Policy)
    (t : RequirementsExecPolicyToml) (req : ExecApprovalRequest) (cmd : list str) :
  load_stack stack = Ok policy -> requirements_exec_policy (requirements stack) = Some q ->
  to_policy t = Ok q -> cmd ∈ commands_of_request Sys req -> exact q cmd <> [] ->
  forall a, create_exec_approval_requirement_for_command Sys policy req <> Ok (Skip a).
Proof.
  intros Hl Hq Ht Hin Hne a Ha. destruct (loaded_with_requirements _ _ _ Hl Hq) as [p ->].
  destruct (requirement_cases Sys (merge_overlay p q) req) as (r & Hr & Hspec). rewrite Ha in Hr.
  simplify_eq. specialize (Hspec cmd Hin). apply decided_matches in Hspec as [_ Hle].
  destruct (requirements_never_allow t p q (home_dir (host_of Sys)) (current_dir (host_of Sys)) cmd
              (fallback_of Sys req) match_options Ht Hne) as (m & Hm & Hd).
  specialize (Hle m Hm). unfold decision_le in Hle. destruct (match_decision m); simpl in Hle; (done || lia).
Qed.

(** One rules file that cannot be parsed leaves the session without any rule, also
    without those of the requirements: no command is matched, and each is judged by the
    settings alone. *)
Theorem parse_error_drops_rules (stack : ConfigLayerStack R T) (path : str) (source : Error) :
  load_stack stack = Err (ParsePolicy path source) ->
  load Sys show_rule show_match starlark read_dir read_to_string requirements_exec_policy stack
    = Ok ExecPolicy.empty
  /\ check_execpolicy_for_warnings Sys show_rule show_match starlark read_dir read_to_string
       requirements_exec_policy stack = Ok (Some (ParsePolicy path source))
  /\ forall req cmd, no_rule Sys ExecPolicy.empty req cmd.
Proof.
  intros H. unfold load, check_execpolicy_for_warnings, load_exec_policy_with_warning. rewrite H.
  split_and!; [done|done|]. intros req cmd. apply no_rule_matches.
  unfold matches_for, matches_for_command_with_options.
  assert (match_host_executable_rules (home_dir (host_of Sys)) (current_dir (host_of Sys))
            ExecPolicy.empty cmd = []) as ->.
  { unfold match_host_executable_rules, get_vec. cbn [rules_by_program ExecPolicy.empty new from_parts].
    destruct cmd; [done|]. repeat case_match; try done; by rewrite lookup_empty in *. }
  destruct cmd as [|c cmd]; [done|]. unfold match_exact_rules, get_vec.
  cbn [rules_by_program ExecPolicy.empty new from_parts]. by rewrite lookup_empty.
Qed.

End Load.

(** ** A stack to try the theorems on: one system layer with one rules file *)

Definition demo_rules_stack : ConfigLayerStack Policy unit := {|
  layers := [{| name := ConfigLayers.System (lit "/etc/a/config.toml"); config := TTable [];
                raw_toml := None; version := []; disabled_reason := None |}];
  user_layer_index := None;
  requirements := demo_rules_policy;
  requirements_toml := tt;
  ignore_user_and_project_exec_policy_rules := false;
|}.

Definition demo_read_dir (dir : str) : result io_error (list (result io_error DirEntry)) :=
  Ok [Ok {| entry_name := lit "a.rules"; entry_is_file := Ok true |};
      Ok {| entry_name := lit "notes.txt"; entry_is_file := Ok true |}].

Definition demo_load (starlark : str -> str -> str + (list Call * option str))
    : result ExecPolicyError Policy :=
  load_exec_policy demo_system (fun _ => []) (fun _ => []) starlark demo_read_dir
    (fun _ => Ok []) Some demo_rules_stack.

Definition empty_file (identifier contents : str) : str + (list Call * option str) := inr ([], None).

Lemma requirements_always_ask_witness :
  exists policy, demo_load empty_file = Ok policy
    /\ forall a, create_exec_approval_requirement_for_command demo_system policy
                   (demo_request [lit "git"; lit "push"] OnRequest) <> Ok (Skip a).
Proof.
  destruct (demo_load empty_file) as [policy|e|c] eqn:E; [|vm_compute in E; discriminate E..].
  exists policy. split; [done|].
  apply (requirements_always_ask demo_system (fun _ => []) (fun _ => []) empty_file demo_read_dir
           (fun _ => Ok []) Some demo_rules_stack policy demo_rules_policy demo_rules
           _ [lit "git"; lit "push"] E);
    [done|by vm_compute|by left|by vm_compute].
Defined.

Lemma parse_error_drops_rules_witness :
  let broken := fun _ _ => inl (lit "parse error") in
  let loaded := load demo_system (fun _ => []) (fun _ => []) broken demo_read_dir (fun _ => Ok [])
                  Some demo_rules_stack in
  exists source,
    loaded = Ok ExecPolicy.empty
    /\ check_execpolicy_for_warnings demo_system (fun _ => []) (fun _ => []) broken demo_read_dir
         (fun _ => Ok []) Some demo_rules_stack
       = Ok (Some (ParsePolicy (lit "/etc/a/rules/a.rules") source))
    /\ forall req cmd, no_rule demo_system ExecPolicy.empty req cmd.
Proof.
  intros broken loaded. eexists.
  apply (parse_error_drops_rules demo_system (fun _ => []) (fun _ => []) broken demo_read_dir
           (fun _ => Ok []) Some demo_rules_stack). vm_compute. reflexivity.
Defined.

End CommandLoadFacts.
