(* ===== verification/StreamText.v ===== *)
(** * The interface of the stream parsers: src/utils/common/src/stream_parser/stream_text.rs

    The trait [StreamTextParser] is a class, and what a parser promises about the way
    its input is cut into chunks is a second class: proved for each parser, and used
    by the parser of bytes, which only knows the interface. *)

From S2P Require Import Prelude RustStr.

Module StreamText.

Record StreamTextChunk (T : Type) := { visible_text : str; extracted : list T }.

Arguments visible_text {T} _.
Arguments extracted {T} _.
Arguments Build_StreamTextChunk {T} _ _.

Definition default_chunk {T} : StreamTextChunk T := {| visible_text := []; extracted := [] |}.

Definition is_empty {T} (c : StreamTextChunk T) : bool :=
  bool_decide (visible_text c = []) && bool_decide (length (extracted c) = 0).

(** What a consumer has after two chunks. *)
Definition chunk_app {T} (a b : StreamTextChunk T) : StreamTextChunk T :=
  {| visible_text := visible_text a ++ visible_text b;
     extracted := extracted a ++ extracted b |}.

Lemma chunk_app_assoc {T} (a b c : StreamTextChunk T) :
  chunk_app a (chunk_app b c) = chunk_app (chunk_app a b) c.
Proof. unfold chunk_app. simpl. by rewrite !app_assoc. Qed.

Lemma chunk_app_default_l {T} (a : StreamTextChunk T) : chunk_app default_chunk a = a.
Proof. by destruct a. Qed.

Lemma chunk_app_default_r {T} (a : StreamTextChunk T) : chunk_app a default_chunk = a.
Proof. unfold chunk_app. simpl. rewrite !app_nil_r. by destruct a. Qed.

Class StreamTextParser (P T : Type) := {
  push_str : str -> P -> P * StreamTextChunk T;
  finish : P -> P * StreamTextChunk T;
}.

(** Feeding the chunks one after the other. *)
Fixpoint run {P T} `{StreamTextParser P T} (chunks : list str) (p : P)
    : P * StreamTextChunk T :=
  match chunks with
  | [] => (p, default_chunk)
  | c :: chunks =>
      let '(p, out) := push_str c p in
      let '(p, rest) := run chunks p in
      (p, chunk_app out rest)
  end.

(** Feeding the chunks and closing the stream. *)
Definition collect_chunks {P T} `{StreamTextParser P T} (chunks : list str) (p : P)
    : StreamTextChunk T :=
  let '(p, out) := run chunks p in
  chunk_app out (finish p).2.

Lemma collect_nil {P T} `{StreamTextParser P T} (p : P) : collect_chunks [] p = (finish p).2.
Proof. unfold collect_chunks. simpl. apply chunk_app_default_l. Qed.

Lemma collect_cons {P T} `{StreamTextParser P T} (c : str) (chunks : list str) (p : P) :
  collect_chunks (c :: chunks) p
  = chunk_app (push_str c p).2 (collect_chunks chunks (push_str c p).1).
Proof.
  unfold collect_chunks. cbn [run]. destruct (push_str c p) as [p1 o1]. simpl.
  destruct (run chunks p1) as [p2 o2]. by rewrite chunk_app_assoc.
Qed.

(** The promise. [settled] holds of the states a parser is in between two calls;
    [same] is equality of payloads up to the way they are cut, which for some parsers
    is coarser than equality. *)
Class ChunkLaws (P T : Type) `{StreamTextParser P T} := {
  settled : P -> Prop;
  same : relation (list T);
  same_equivalence :: Equivalence same;
  same_app :: Proper (same ==> same ==> same) app;
  push_settled : forall c p, settled p -> settled (push_str c p).1;
  push_nil : forall p, settled p -> push_str [] p = (p, default_chunk);
  push_app : forall x y p, settled p ->
    (push_str (x ++ y) p).1 = (push_str y (push_str x p).1).1 /\
    visible_text (push_str (x ++ y) p).2
      = visible_text (push_str x p).2 ++ visible_text (push_str y (push_str x p).1).2 /\
    same (extracted (push_str (x ++ y) p).2)
      (extracted (push_str x p).2 ++ extracted (push_str y (push_str x p).1).2);
}.

Section Laws.
Context {P T : Type} `{ChunkLaws P T}.

(** Chunks with the same text and payloads that are the same up to cutting. *)
Definition chunk_equiv (a b : StreamTextChunk T) : Prop :=
  visible_text a = visible_text b /\ same (extracted a) (extracted b).

#[export] Instance chunk_equiv_equivalence : Equivalence chunk_equiv.
Proof.
  split.
  - intros a. by split.
  - intros a b [Hv Hs]. by split.
  - intros a b c [Hv Hs] [Hv' Hs']. split; etrans; done.
Qed.

#[export] Instance chunk_app_proper : Proper (chunk_equiv ==> chunk_equiv ==> chunk_equiv) chunk_app.
Proof.
  intros a a' [Hv Hs] b b' [Hv' Hs']. split; simpl; [by rewrite Hv, Hv'|by rewrite Hs, Hs'].
Qed.

Lemma push_app_equiv (x y : str) (p : P) :
  settled p ->
  (push_str (x ++ y) p).1 = (push_str y (push_str x p).1).1 /\
  chunk_equiv (push_str (x ++ y) p).2
    (chunk_app (push_str x p).2 (push_str y (push_str x p).1).2).
Proof. intros Hp. destruct (push_app x y p Hp) as (H1 & H2 & H3). by repeat split. Qed.

Lemma run_settled (cs : list str) (p : P) : settled p -> settled (run cs p).1.
Proof.
  revert p. induction cs as [|c cs IH]; intros p Hp; simpl; [done|].
  pose proof (push_settled c p Hp) as Hc. destruct (push_str c p) as [p1 o].
  specialize (IH p1 Hc). by destruct (run cs p1).
Qed.

(** Feeding chunks is feeding their concatenation. *)
Lemma run_concat (cs : list str) (p : P) :
  settled p ->
  (run cs p).1 = (push_str (concat cs) p).1 /\
  chunk_equiv (run cs p).2 (push_str (concat cs) p).2.
Proof.
  revert p. induction cs as [|c cs IH]; intros p Hp; simpl.
  { by rewrite push_nil. }
  destruct (push_app_equiv c (concat cs) p Hp) as [H1 H2].
  pose proof (push_settled c p Hp) as Hc. destruct (push_str c p) as [p1 o]. simpl in *.
  destruct (IH p1 Hc) as [E1 E2]. destruct (run cs p1) as [p2 o2]. simpl in *.
  split; [congruence|]. by rewrite H2, E2.
Qed.

Lemma collect_concat (cs : list str) (p : P) :
  settled p -> chunk_equiv (collect_chunks cs p) (collect_chunks [concat cs] p).
Proof.
  intros Hp. unfold collect_chunks. simpl. destruct (run_concat cs p Hp) as [E1 E2].
  destruct (run cs p) as [p1 o1], (push_str (concat cs) p) as [p2 o2]. simpl in *. subst.
  rewrite chunk_app_default_r. by rewrite E2.
Qed.

End Laws.

End StreamText.
