(* ===== verification/InlineTag.v ===== *)
(** * Hidden inline tags: src/utils/common/src/stream_parser/{inline_hidden_tag,citation}.rs

    Text is a list of characters, so a position is a number of characters where the
    source counts bytes; both are positions of the same boundaries, and the lengths
    that are compared are those of prefixes, or of suffixes, of one text. *)

From Stdlib Require Import Ascii String.
From S2P Require Import Prelude RustStr StreamText.
Import StreamText.

Module InlineTag.

Record ExtractedInlineTag (T : Type) := { tag : T; tag_content : str }.
Arguments tag {T} _.
Arguments tag_content {T} _.
Arguments Build_ExtractedInlineTag {T} _ _.

Record InlineTagSpec (T : Type) := { spec_tag : T; open : str; close : str }.
Arguments spec_tag {T} _.
Arguments open {T} _.
Arguments close {T} _.
Arguments Build_InlineTagSpec {T} _ _ _.

Record ActiveTag (T : Type) := { active_tag : T; active_close : str; content : str }.
Arguments active_tag {T} _.
Arguments active_close {T} _.
Arguments content {T} _.
Arguments Build_ActiveTag {T} _ _ _.

Record InlineHiddenTagParser (T : Type) := {
  specs : list (InlineTagSpec T);
  pending : str;
  active : option (ActiveTag T);
}.
Arguments specs {T} _.
Arguments pending {T} _.
Arguments active {T} _.
Arguments Build_InlineHiddenTagParser {T} _ _ _.

(** The longest proper prefix of [needle] that the text ends in. The source tries the
    lengths in bytes that are character boundaries of [needle], longest first, which
    are the prefixes of [needle] in characters in the same order. *)
Fixpoint longest_from (s needle : str) (k : nat) : nat :=
  match k with
  | 0 => 0
  | S k' => if ends_with (take k needle) s then k else longest_from s needle k'
  end.

Definition longest_suffix_prefix_len (s needle : str) : nat :=
  longest_from s needle (Nat.min (length s) (length needle - 1)).

(** The order of [min_by]: the first position, then the longest delimiter, then the
    first specification. Of two delimiters found at one position one is a prefix of the
    other, so their lengths compare in characters as they do in bytes. *)
Definition candidate : Type := nat * nat * nat.

Definition candidate_lt (a b : candidate) : bool :=
  let '(pos_a, len_a, idx_a) := a in
  let '(pos_b, len_b, idx_b) := b in
  (pos_a <? pos_b)
  || (pos_a =? pos_b) && ((len_b <? len_a) || (len_b =? len_a) && (idx_a <? idx_b)).

Fixpoint min_candidate (cs : list candidate) : option candidate :=
  match cs with
  | [] => None
  | c :: cs => match min_candidate cs with
               | None => Some c
               | Some m => Some (if candidate_lt m c then m else c)
               end
  end.

Section Parser.
Context {T : Type}.

Abbreviation parser := (InlineHiddenTagParser T).
Abbreviation out_chunk := (StreamTextChunk (ExtractedInlineTag T)).

(** [new] panics on a missing or empty delimiter. *)
Definition new (specs : list (InlineTagSpec T)) : result Empty_set parser :=
  if bool_decide (length specs = 0) then Crash Panicked
  else if forallb (fun s => negb (str_eqb (open s) []) && negb (str_eqb (close s) [])) specs
  then Ok {| specs := specs; pending := []; active := None |}
  else Crash Panicked.

Definition with_pending (p : parser) (s : str) : parser :=
  {| specs := specs p; pending := s; active := active p |}.

Fixpoint open_candidates (pending : str) (idx : nat) (specs : list (InlineTagSpec T))
    : list candidate :=
  match specs with
  | [] => []
  | spec :: specs =>
      match find (open spec) pending with
      | Some pos => (pos, length (open spec), idx) :: open_candidates pending (S idx) specs
      | None => open_candidates pending (S idx) specs
      end
  end.

Definition find_next_open (p : parser) : option (nat * nat) :=
  match min_candidate (open_candidates (pending p) 0 (specs p)) with
  | Some (pos, _, idx) => Some (pos, idx)
  | None => None
  end.

Definition max_open_prefix_suffix_len (p : parser) : nat :=
  foldr Nat.max 0 (map (fun spec => longest_suffix_prefix_len (pending p) (open spec)) (specs p)).

Definition push_visible (out : out_chunk) (s : str) : out_chunk :=
  {| visible_text := visible_text out ++ s; extracted := extracted out |}.

Definition push_extracted (out : out_chunk) (e : ExtractedInlineTag T) : out_chunk :=
  {| visible_text := visible_text out; extracted := extracted out ++ [e] |}.

Definition drain_visible_to_suffix_match (p : parser) (out : out_chunk)
    (keep_suffix_len : nat) : parser * out_chunk :=
  let n := length (pending p) - keep_suffix_len in
  (with_pending p (drop n (pending p)), push_visible out (take n (pending p))).

(** One turn of the loop of [push_str]: the state, the output, and whether the loop
    goes on. [specs[spec_idx]] cannot be out of range: the index comes from an
    enumeration of [specs]. *)
Definition turn (p : parser) (out : out_chunk) : parser * out_chunk * bool :=
  match active p with
  | Some a =>
      match find (active_close a) (pending p) with
      | Some close_idx =>
          ({| specs := specs p;
              pending := drop (close_idx + length (active_close a)) (pending p);
              active := None |},
           push_extracted out {| tag := active_tag a;
                                 tag_content := content a ++ take close_idx (pending p) |},
           true)
      | None =>
          let keep := longest_suffix_prefix_len (pending p) (active_close a) in
          let n := length (pending p) - keep in
          ({| specs := specs p; pending := drop n (pending p);
              active := Some {| active_tag := active_tag a; active_close := active_close a;
                                content := content a ++ take n (pending p) |} |},
           out, false)
      end
  | None =>
      match find_next_open p with
      | Some (open_idx, spec_idx) =>
          match specs p !! spec_idx with
          | Some spec =>
              ({| specs := specs p;
                  pending := drop (open_idx + length (open spec)) (pending p);
                  active := Some {| active_tag := spec_tag spec; active_close := close spec;
                                    content := [] |} |},
               push_visible out (take open_idx (pending p)), true)
          | None => (p, out, false)
          end
      | None =>
          (drain_visible_to_suffix_match p out (max_open_prefix_suffix_len p), false)
      end
  end.

Fixpoint loop (fuel : nat) (p : parser) (out : out_chunk) : parser * out_chunk :=
  match fuel with
  | 0 => (p, out)
  | S fuel => let '(p, out, continue) := turn p out in
              if continue then loop fuel p out else (p, out)
  end.

(** Every turn but the last takes a delimiter off the pending text. *)
Definition inline_push_str (chunk : str) (p : parser) : parser * out_chunk :=
  let p := with_pending p (pending p ++ chunk) in
  loop (S (length (pending p))) p default_chunk.

Definition inline_finish (p : parser) : parser * out_chunk :=
  match active p with
  | Some a =>
      ({| specs := specs p; pending := []; active := None |},
       push_extracted default_chunk
         {| tag := active_tag a; tag_content := content a ++ pending p |})
  | None => (with_pending p [], push_visible default_chunk (pending p))
  end.

#[export] Instance inline_parser : StreamTextParser parser (ExtractedInlineTag T) := {
  push_str := inline_push_str;
  finish := inline_finish;
}.

End Parser.

(** ** citation.rs *)

Inductive CitationTag := Citation.

Definition CITATION_OPEN : str := lit "<oai-mem-citation>".
Definition CITATION_CLOSE : str := lit "</oai-mem-citation>".

Definition citation_spec : InlineTagSpec CitationTag :=
  {| spec_tag := Citation; open := CITATION_OPEN; close := CITATION_CLOSE |}.

Record CitationStreamParser := { inner : InlineHiddenTagParser CitationTag }.

Definition new_citation : CitationStreamParser :=
  {| inner := {| specs := [citation_spec]; pending := []; active := None |} |}.

Definition citation_chunk (c : StreamTextChunk (ExtractedInlineTag CitationTag))
    : StreamTextChunk str :=
  {| visible_text := visible_text c; extracted := map tag_content (extracted c) |}.

#[export] Instance citation_parser : StreamTextParser CitationStreamParser str := {
  push_str chunk p :=
    let '(i, out) := push_str chunk (inner p) in ({| inner := i |}, citation_chunk out);
  finish p := let '(i, out) := finish (inner p) in ({| inner := i |}, citation_chunk out);
}.

Definition strip_citations (text : str) : str * list str :=
  let '(parser, out) := push_str text new_citation in
  let '(_, tail) := finish parser in
  (visible_text out ++ visible_text tail, extracted out ++ extracted tail).

End InlineTag.

(** * The inline tag parser does not depend on the chunks

    Searching a text for delimiters that no other delimiter contains can be done chunk
    by chunk: an occurrence is not changed by what follows, and what is kept of a text
    without one is enough to find those that the next chunk completes. *)

Import StreamText InlineTag.

Module InlineTagFacts.

(** ** Occurrences *)

Definition occurs (n s : str) (i : nat) : Prop :=
  take (length n) (drop i s) = n /\ i + length n <= length s.

#[export] Instance occurs_dec (n s : str) (i : nat) : Decision (occurs n s i).
Proof. unfold occurs. apply _. Defined.

Lemma starts_with_occurs (n s : str) : starts_with n s = true <-> occurs n s 0.
Proof.
  rewrite starts_with_true. unfold occurs. rewrite drop_0. split.
  - intros [r ->]. rewrite take_app_length, length_app. split; [done|lia].
  - intros [E _]. exists (drop (length n) s). by rewrite <- E at 1; rewrite take_drop.
Qed.

Lemma occurs_cons (n s : str) (c : char) (i : nat) : occurs n (c :: s) (S i) <-> occurs n s i.
Proof. unfold occurs. simpl. split; intros [? ?]; (split; [done|lia]). Qed.

Lemma find_spec (n s : str) :
  match find n s with
  | Some i => occurs n s i /\ forall j, occurs n s j -> i <= j
  | None => forall j, ~ occurs n s j
  end.
Proof.
  induction s as [|c s IH]; simpl.
  - destruct (starts_with n []) eqn:E.
    + apply starts_with_occurs in E. split; [done|lia].
    + intros j Hj. apply not_true_iff_false in E. apply E, starts_with_occurs.
      destruct Hj as [Hj Hl]. simpl in Hl. assert (j = 0) as -> by lia.
      by split; [|simpl; lia].
  - destruct (starts_with n (c :: s)) eqn:E.
    + apply starts_with_occurs in E. split; [done|lia].
    + assert (~ occurs n (c :: s) 0) as H0.
      { intros Ho. apply starts_with_occurs in Ho. congruence. }
      destruct (find n s) as [i|]; simpl.
      * destruct IH as [Hi Hmin]. split; [by apply occurs_cons|].
        intros [|j] Hj; [done|]. apply occurs_cons, Hmin in Hj. lia.
      * intros [|j] Hj; [done|]. by apply occurs_cons, IH in Hj.
Qed.

Lemma take_drop_shift (x y : str) (i k : nat) :
  i + k <= length x -> take k (drop i (x ++ y)) = take k (drop i x).
Proof.
  intros Hk. rewrite drop_app_le by lia. apply take_app_le. rewrite length_drop. lia.
Qed.

Lemma occurs_app (n x y : str) (i : nat) :
  i + length n <= length x -> occurs n (x ++ y) i <-> occurs n x i.
Proof.
  intros Hl. unfold occurs. rewrite take_drop_shift, length_app by done.
  split; intros [? ?]; (split; [done|lia]).
Qed.

Lemma occurs_app_r (n x y : str) (i : nat) :
  occurs n (x ++ y) (length x + i) <-> occurs n y i.
Proof.
  unfold occurs. rewrite drop_app_add, length_app. split; intros [? ?]; (split; [done|lia]).
Qed.

(** An occurrence inside another one. *)
Lemma occurs_inside (n m s : str) (i j : nat) :
  occurs n s i -> occurs m s j -> j <= i -> i + length n <= j + length m ->
  occurs n m (i - j).
Proof.
  intros [En Ln] [Em Lm] Hji Hend. unfold occurs. split; [|lia].
  assert (drop (i - j) m = take (length m - (i - j)) (drop i s)) as ->.
  { rewrite <- Em at 1. rewrite skipn_firstn_comm, drop_drop.
    by replace (j + (i - j)) with i by lia. }
  by rewrite take_take, Nat.min_l by lia.
Qed.

(** ** Suffixes that begin a delimiter *)

Definition begins (s n : str) (k : nat) : Prop :=
  k <= length s /\ k < length n /\ drop (length s - k) s = take k n.

Lemma ends_with_begins (s n : str) (k : nat) :
  k <= length s -> k < length n -> ends_with (take k n) s = true <-> begins s n k.
Proof.
  intros Hs Hn. rewrite ends_with_true. unfold begins. split.
  - intros [r ->]. rewrite length_app, length_take in *. split_and!; [lia|lia|].
    rewrite drop_app_ge by lia. replace (_ - _) with 0 by lia. apply drop_0.
  - intros (_ & _ & E). exists (take (length s - k) s). rewrite <- E. by rewrite take_drop.
Qed.

Lemma longest_from_spec (s n : str) (k : nat) :
  n <> [] -> k <= length s -> k < length n ->
  begins s n (longest_from s n k) /\ forall j, j <= k -> begins s n j -> j <= longest_from s n k.
Proof.
  intros Hne. induction k as [|k IH]; intros Hs Hn; simpl.
  - split; [|lia]. unfold begins. split_and!; [lia|lia|].
    rewrite Nat.sub_0_r, drop_all. by destruct n.
  - destruct (ends_with (take (S k) n) s) eqn:E.
    + apply ends_with_begins in E; [|done|done]. split; [done|lia].
    + destruct IH as [Hb Hmax]; [lia|lia|]. split; [done|]. intros j Hj Hbj.
      destruct (decide (j = S k)) as [->|]; [|apply Hmax; [lia|done]].
      apply ends_with_begins in Hbj; [congruence|done|done].
Qed.

Lemma longest_spec (s n : str) :
  n <> [] -> begins s n (longest_suffix_prefix_len s n) /\
  forall j, begins s n j -> j <= longest_suffix_prefix_len s n.
Proof.
  intros Hne. assert (length n <> 0) by by destruct n. unfold longest_suffix_prefix_len.
  destruct (longest_from_spec s n (Nat.min (length s) (length n - 1))) as [Hb Hmax];
    [done|lia|lia|]. split; [done|]. intros j Hj. apply Hmax; [|done].
  destruct Hj as (? & ? & _). lia.
Qed.

(** ** Searching for several delimiters *)

Section Needles.
Context (ns : list str).

Definition no_hit (s : str) : Prop := forall n j, n ∈ ns -> ~ occurs n s j.

Definition better (i len idx i' len' idx' : nat) : Prop :=
  i < i' \/ (i = i' /\ (len' < len \/ (len' = len /\ idx <= idx'))).

Definition first_hit (s : str) (i idx : nat) : Prop :=
  exists n, ns !! idx = Some n /\ occurs n s i /\
    forall idx' n' j, ns !! idx' = Some n' -> occurs n' s j ->
      better i (length n) idx j (length n') idx'.

Lemma first_hit_unique (s : str) (i idx i' idx' : nat) :
  first_hit s i idx -> first_hit s i' idx' -> i = i' /\ idx = idx'.
Proof.
  intros (n & Hn & Ho & Hm) (n' & Hn' & Ho' & Hm').
  specialize (Hm _ _ _ Hn' Ho'). specialize (Hm' _ _ _ Hn Ho). unfold better in *. lia.
Qed.

Definition infix_free : Prop :=
  forall n m k, n ∈ ns -> m ∈ ns -> occurs n m k -> n = m.

Context (Hfree : infix_free) (Hne : Forall (fun n => n <> []) ns).

(** A hit is not changed by what follows. *)
Lemma first_hit_app (x y : str) (i idx : nat) : first_hit x i idx -> first_hit (x ++ y) i idx.
Proof.
  intros (n & Hn & Ho & Hm). exists n. split; [done|].
  assert (occurs n (x ++ y) i) as Ho' by (apply occurs_app; [apply Ho|done]).
  split; [done|]. intros idx' n' j Hn' Hj.
  destruct (decide (j + length n' <= length x)) as [Hl|Hl].
  { apply (Hm idx' n' j Hn'). by apply occurs_app in Hj. }
  destruct (decide (i < j)) as [|Hij]; [by left|]. exfalso.
  assert (i + length n <= length x) as Hi by apply Ho.
  assert (occurs n n' (i - j)) as Hin by (eapply occurs_inside; [done|done|lia|lia]).
  apply Hfree in Hin as ->; [lia|by eapply list_elem_of_lookup_2..].
Qed.

(** What is kept of a text without a hit. *)
Definition keep (s : str) : nat := foldr Nat.max 0 (map (longest_suffix_prefix_len s) ns).

Lemma foldr_max_le (l : list nat) (x : nat) : x ∈ l -> x <= foldr Nat.max 0 l.
Proof.
  induction l as [|y l IH]; intros Hx; [by apply not_elem_of_nil in Hx|]. simpl.
  apply elem_of_cons in Hx as [->|Hx]; [lia|]. apply IH in Hx. lia.
Qed.

Lemma begins_keep (s n : str) (k : nat) : n ∈ ns -> begins s n k -> k <= keep s.
Proof.
  intros Hn Hk. rewrite Forall_forall in Hne. destruct (longest_spec s n (Hne n Hn)) as [_ Hmax].
  etrans; [by apply Hmax|]. apply foldr_max_le. by apply list_elem_of_fmap_2.
Qed.

Lemma keep_le (s : str) : keep s <= length s.
Proof.
  unfold keep. assert (Forall (fun x => x <= length s) (map (longest_suffix_prefix_len s) ns)) as H.
  { apply Forall_map. eapply Forall_impl; [apply Hne|]. intros n Hn. simpl.
    by destruct (longest_spec s n Hn) as [(? & _) _]. }
  induction H; simpl; lia.
Qed.

(** The text before what is kept. *)
Definition cut (s : str) : nat := length s - keep s.

(** No delimiter starts before the cut. *)
Lemma occurs_after_cut (x y n : str) (j : nat) :
  no_hit x -> n ∈ ns -> occurs n (x ++ y) j -> cut x <= j.
Proof.
  intros Hno Hn Ho. destruct (decide (cut x <= j)) as [|Hlt]; [done|]. exfalso.
  unfold cut in Hlt. pose proof (keep_le x).
  destruct (decide (j + length n <= length x)) as [Hl|Hl].
  { apply occurs_app in Ho; [|done]. by apply (Hno n j). }
  assert (begins x n (length x - j)) as Hb.
  { unfold begins. split_and!; [lia|lia|]. replace (length x - (length x - j)) with j by lia.
    destruct Ho as [E _]. rewrite <- E. rewrite take_take, Nat.min_l by lia.
    rewrite take_drop_shift by lia. rewrite take_ge; [done|]. rewrite length_drop. lia. }
  apply begins_keep in Hb; [lia|done].
Qed.

Lemma occurs_cut (x y n : str) (j : nat) :
  no_hit x -> n ∈ ns ->
  occurs n (x ++ y) j <-> exists i, j = cut x + i /\ occurs n (drop (cut x) x ++ y) i.
Proof.
  intros Hno Hn.
  assert (x ++ y = take (cut x) x ++ (drop (cut x) x ++ y)) as E
    by by rewrite app_assoc, take_drop.
  assert (length (take (cut x) x) = cut x) as El by (rewrite length_take; unfold cut; lia).
  split.
  - intros Ho. pose proof (occurs_after_cut _ _ _ _ Hno Hn Ho) as Hj.
    exists (j - cut x). split; [lia|]. rewrite E in Ho. apply (occurs_app_r n (take (cut x) x)).
    rewrite El. by replace (cut x + (j - cut x)) with j by lia.
  - intros (i & -> & Ho). rewrite E.
    apply (proj2 (occurs_app_r n (take (cut x) x) _ i)) in Ho. by rewrite El in Ho.
Qed.

Lemma first_hit_cut (x y : str) (i idx : nat) :
  no_hit x -> first_hit (drop (cut x) x ++ y) i idx -> first_hit (x ++ y) (cut x + i) idx.
Proof.
  intros Hno (n & Hn & Ho & Hm). exists n.
  assert (n ∈ ns) as Hin by by eapply list_elem_of_lookup_2.
  split_and!; [done|apply occurs_cut; eauto|]. intros idx' n' j Hn' Hj.
  apply occurs_cut in Hj as (i' & -> & Hj); [|done|by eapply list_elem_of_lookup_2].
  specialize (Hm idx' n' i' Hn' Hj). unfold better in *. lia.
Qed.

Lemma no_hit_cut (x y : str) : no_hit x -> no_hit (drop (cut x) x ++ y) <-> no_hit (x ++ y).
Proof.
  intros Hno. split; intros Hn n j Hin Ho.
  - apply occurs_cut in Ho as (i & -> & Ho); [|done|done]. by apply (Hn n i).
  - apply (Hn n (cut x + j)); [done|]. apply occurs_cut; eauto.
Qed.

Lemma begins_cut (x y n : str) (k : nat) :
  n ∈ ns -> begins (drop (cut x) x ++ y) n k <-> begins (x ++ y) n k.
Proof.
  intros Hn. pose proof (keep_le x) as Hk. unfold begins.
  assert (length (drop (cut x) x) = keep x) as El by (rewrite length_drop; unfold cut; lia).
  assert (forall m, m <= keep x + length y ->
    drop (length (x ++ y) - m) (x ++ y) = drop (length (drop (cut x) x ++ y) - m) (drop (cut x) x ++ y)) as Hd.
  { intros m Hm. rewrite !length_app, El.
    replace (x ++ y) with (take (cut x) x ++ (drop (cut x) x ++ y)) by by rewrite app_assoc, take_drop.
    assert (length (take (cut x) x) = cut x) as Et by (rewrite length_take; unfold cut; lia).
    rewrite drop_app_ge by (rewrite Et; unfold cut; lia). f_equal. rewrite Et. unfold cut. lia. }
  split.
  - intros (H1 & H2 & H3). rewrite length_app, El in H1. split_and!; [rewrite length_app; lia|done|].
    by rewrite Hd.
  - intros (H1 & H2 & H3). rewrite length_app in H1.
    destruct (decide (k <= keep x + length y)) as [Hle|Hgt].
    { rewrite length_app, El. split_and!; [done|done|]. rewrite <- El, <- length_app. by rewrite <- Hd. }
    exfalso. assert (begins x n (k - length y)) as Hb.
    { unfold begins. split_and!; [lia|lia|]. rewrite length_app in H3.
      rewrite drop_app_le in H3 by lia.
      replace (length x - (k - length y)) with (length x + length y - k) by lia.
      apply (f_equal (take (k - length y))) in H3.
      rewrite take_app_le, take_ge, take_take in H3 by (rewrite length_drop; lia).
      by rewrite H3, Nat.min_l by lia. }
    apply begins_keep in Hb; [lia|done].
Qed.

Lemma longest_cut (x y n : str) :
  n ∈ ns ->
  longest_suffix_prefix_len (drop (cut x) x ++ y) n = longest_suffix_prefix_len (x ++ y) n.
Proof.
  intros Hn. pose proof (proj1 (Forall_forall _ _) Hne n Hn) as Hn'. simpl in Hn'.
  destruct (longest_spec (drop (cut x) x ++ y) n Hn') as [H1 H2].
  destruct (longest_spec (x ++ y) n Hn') as [H3 H4].
  apply Nat.le_antisymm; [apply H4, begins_cut|apply H2, begins_cut]; done.
Qed.

Lemma keep_cut (x y : str) : keep (drop (cut x) x ++ y) = keep (x ++ y).
Proof.
  unfold keep. f_equal. apply map_ext_in. intros n Hn. apply longest_cut. by apply list_elem_of_In.
Qed.

Lemma cut_app (x y : str) : cut (x ++ y) = cut x + cut (drop (cut x) x ++ y).
Proof.
  unfold cut at 1 3. rewrite keep_cut, !length_app, length_drop.
  pose proof (keep_le x). pose proof (keep_le (drop (cut x) x ++ y)) as Hk.
  rewrite keep_cut, length_app, length_drop in Hk. unfold cut in *. lia.
Qed.

End Needles.

(** ** The search of the parser *)

Lemma candidate_lt_true (a b : candidate) :
  candidate_lt a b = true <->
  a.1.1 < b.1.1 \/ (a.1.1 = b.1.1 /\ (b.1.2 < a.1.2 \/ (b.1.2 = a.1.2 /\ a.2 < b.2))).
Proof.
  destruct a as [[pa la] ia], b as [[pb lb] ib]. simpl.
  rewrite !orb_true_iff, !andb_true_iff, !orb_true_iff, !andb_true_iff,
    !Nat.ltb_lt, !Nat.eqb_eq. lia.
Qed.

Lemma candidate_lt_false (a b : candidate) : candidate_lt a b = false <-> ~ candidate_lt a b = true.
Proof. by rewrite not_true_iff_false. Qed.

Lemma min_candidate_spec (cs : list candidate) :
  match min_candidate cs with
  | Some m => m ∈ cs /\ forall c, c ∈ cs -> candidate_lt c m = false
  | None => cs = []
  end.
Proof.
  induction cs as [|c cs IH]; simpl; [done|].
  destruct (min_candidate cs) as [m|].
  - destruct IH as [Hm Hall]. destruct (candidate_lt m c) eqn:E.
    + split; [by right|]. intros x [->|Hx]%elem_of_cons; [|by apply Hall].
      rewrite candidate_lt_false, candidate_lt_true in *. lia.
    + split; [by left|]. intros x [->|Hx]%elem_of_cons.
      * rewrite candidate_lt_false, candidate_lt_true. lia.
      * specialize (Hall x Hx). rewrite candidate_lt_false, candidate_lt_true in *. lia.
  - subst. split; [by left|]. intros x ->%list_elem_of_singleton.
    rewrite candidate_lt_false, candidate_lt_true. lia.
Qed.

Section Parser.
Context {T : Type}.
Implicit Types (p : InlineHiddenTagParser T) (sp : InlineTagSpec T).

Lemma elem_of_candidates (s : str) (sps : list (InlineTagSpec T)) (k0 pos len k : nat) :
  (pos, len, k) ∈ open_candidates s k0 sps <->
  exists i sp, k = k0 + i /\ sps !! i = Some sp /\ find (open sp) s = Some pos /\
    len = length (open sp).
Proof.
  revert k0. induction sps as [|sp sps IH]; intros k0; simpl.
  - split; [by intros ?%not_elem_of_nil|]. intros (i & sp & _ & H & _). by destruct i.
  - assert ((pos, len, k) ∈ open_candidates s (S k0) sps <->
      exists i sp', k = k0 + S i /\ sps !! i = Some sp' /\ find (open sp') s = Some pos /\
        len = length (open sp')) as IH'.
    { rewrite IH. split; intros (i & sp' & -> & H); exists i, sp'; (split; [lia|done]). }
    destruct (find (open sp) s) as [pos'|] eqn:E.
    + rewrite elem_of_cons, IH'. split.
      * intros [?|(i & sp' & H)]; [simplify_eq; exists 0, sp; split_and!; done || lia|].
        by exists (S i), sp'.
      * intros ([|i] & sp' & -> & H1 & H2 & ->); simplify_eq/=;
          [left; by rewrite Nat.add_0_r|right; by eexists i, sp'].
    + rewrite IH'. split.
      * intros (i & sp' & H). by exists (S i), sp'.
      * intros ([|i] & sp' & -> & H1 & H2 & ->); simplify_eq/=. by eexists i, sp'.
Qed.

Definition opens p : list str := map open (specs p).

Lemma lookup_opens p (idx : nat) (n : str) :
  opens p !! idx = Some n <-> exists sp, specs p !! idx = Some sp /\ n = open sp.
Proof. unfold opens. rewrite list_lookup_fmap, fmap_Some. done. Qed.

Lemma find_next_open_spec p :
  match find_next_open p with
  | Some (i, idx) => first_hit (opens p) (pending p) i idx
  | None => no_hit (opens p) (pending p)
  end.
Proof.
  unfold find_next_open. pose proof (min_candidate_spec (open_candidates (pending p) 0 (specs p))) as H.
  destruct (min_candidate _) as [[[pos len] idx]|].
  - destruct H as [Hin Hmin]. apply elem_of_candidates in Hin as (i & sp & -> & Hsp & Hf & ->).
    simpl. exists (open sp). pose proof (find_spec (open sp) (pending p)) as Hs. rewrite Hf in Hs.
    split_and!; [apply lookup_opens; eauto|apply Hs|].
    intros idx' n' j (sp' & Hsp' & ->)%lookup_opens Hj.
    pose proof (find_spec (open sp') (pending p)) as Hs'.
    destruct (find (open sp') (pending p)) as [pos'|] eqn:Hf'; [|by apply Hs' in Hj].
    destruct Hs' as [_ Hs']. apply Hs' in Hj.
    assert ((pos', length (open sp'), idx') ∈ open_candidates (pending p) 0 (specs p)) as Hc
      by (apply elem_of_candidates; by exists idx', sp').
    apply Hmin in Hc. rewrite candidate_lt_false, candidate_lt_true in Hc. simpl in Hc.
    unfold better. lia.
  - intros n j (sp & -> & (idx & Hsp)%list_elem_of_lookup)%list_elem_of_fmap Hj.
    pose proof (find_spec (open sp) (pending p)) as Hs.
    destruct (find (open sp) (pending p)) as [pos|] eqn:Hf; [|by apply Hs in Hj].
    assert ((pos, length (open sp), idx) ∈ open_candidates (pending p) 0 (specs p)) as Hc
      by (apply elem_of_candidates; by exists idx, sp).
    rewrite H in Hc. by apply not_elem_of_nil in Hc.
Qed.

(** ** Well-formed parsers *)

Definition wf_specs (sps : list (InlineTagSpec T)) : Prop :=
  Forall (fun sp => open sp <> [] /\ close sp <> []) sps /\ infix_free (map open sps).

Definition wf p : Prop :=
  wf_specs (specs p) /\ forall a, active p = Some a -> active_close a <> [].

(** The delimiters that are searched for. *)
Definition needles p : list str :=
  match active p with Some a => [active_close a] | None => opens p end.

Lemma needles_ne p : wf p -> Forall (fun n => n <> []) (needles p).
Proof.
  intros [[Hs _] Ha]. unfold needles. destruct (active p) as [a|].
  - apply Forall_singleton. by apply Ha.
  - apply Forall_map. eapply Forall_impl; [done|]. by intros sp [? _].
Qed.

Lemma needles_free p : wf p -> infix_free (needles p).
Proof.
  intros [[_ Hf] _]. unfold needles. destruct (active p) as [a|]; [|done].
  intros n m k ->%list_elem_of_singleton ->%list_elem_of_singleton. done.
Qed.

(** What the parser does at a delimiter, and without one. *)
Definition hit_result p (i idx : nat) (out : StreamTextChunk (ExtractedInlineTag T)) :=
  match active p with
  | Some a =>
      ({| specs := specs p; pending := drop (i + length (active_close a)) (pending p);
          active := None |},
       push_extracted out {| tag := active_tag a;
                             tag_content := content a ++ take i (pending p) |})
  | None =>
      match specs p !! idx with
      | Some sp =>
          ({| specs := specs p; pending := drop (i + length (open sp)) (pending p);
              active := Some {| active_tag := spec_tag sp; active_close := close sp;
                                content := [] |} |},
           push_visible out (take i (pending p)))
      | None => (p, out)
      end
  end.

Definition miss_result p (n : nat) (out : StreamTextChunk (ExtractedInlineTag T)) :=
  match active p with
  | Some a =>
      ({| specs := specs p; pending := drop n (pending p);
          active := Some {| active_tag := active_tag a; active_close := active_close a;
                            content := content a ++ take n (pending p) |} |}, out)
  | None => (with_pending p (drop n (pending p)), push_visible out (take n (pending p)))
  end.

Lemma first_hit_single (n s : str) (i idx : nat) :
  first_hit [n] s i idx -> find n s = Some i /\ idx = 0.
Proof.
  intros (n' & Hn' & Ho & Hm). destruct idx as [|idx]; [|done]. simplify_eq/=.
  split; [|done]. pose proof (find_spec n' s) as Hs. destruct (find n' s) as [j|].
  - destruct Hs as [Hj Hmin]. apply Hmin in Ho. specialize (Hm 0 n' j eq_refl Hj).
    unfold better in Hm. f_equal. lia.
  - by apply Hs in Ho.
Qed.

Lemma turn_hit p (i idx : nat) out :
  first_hit (needles p) (pending p) i idx -> turn p out = (hit_result p i idx out, true).
Proof.
  unfold turn, hit_result, needles. intros Hh. destruct (active p) as [a|].
  - apply first_hit_single in Hh as [-> ->]. done.
  - pose proof (find_next_open_spec p) as Hs. destruct (find_next_open p) as [[i' idx']|].
    + destruct (first_hit_unique _ _ _ _ _ _ Hh Hs) as [<- <-].
      destruct Hh as (n & (sp & -> & _)%lookup_opens & _). done.
    + destruct Hh as (n & Hn & Ho & _). apply (Hs n i) in Ho; [done|].
      by eapply list_elem_of_lookup_2.
Qed.

Lemma turn_miss p out :
  no_hit (needles p) (pending p) ->
  turn p out = (miss_result p (cut (needles p) (pending p)) out, false).
Proof.
  unfold turn, miss_result, needles, cut, keep. intros Hn. destruct (active p) as [a|].
  - pose proof (find_spec (active_close a) (pending p)) as Hs.
    destruct (find (active_close a) (pending p)) as [j|].
    + destruct Hs as [Hj _]. apply Hn in Hj; [done|set_solver].
    + simpl. by rewrite Nat.max_0_r.
  - pose proof (find_next_open_spec p) as Hs. destruct (find_next_open p) as [[i idx]|].
    + destruct Hs as (n & Hn' & Ho & _). apply Hn in Ho; [done|]. by eapply list_elem_of_lookup_2.
    + unfold max_open_prefix_suffix_len, opens. by rewrite map_map.
Qed.

Lemma hit_or_miss p :
  (exists i idx, first_hit (needles p) (pending p) i idx) \/ no_hit (needles p) (pending p).
Proof.
  unfold needles. destruct (active p) as [a|].
  - pose proof (find_spec (active_close a) (pending p)) as Hs.
    destruct (find (active_close a) (pending p)) as [j|].
    + left. exists j, 0. destruct Hs as [Hj Hm]. exists (active_close a).
      split_and!; [done|done|]. intros [|idx'] n' j' Hn' Hj'; [|done]. simplify_eq/=.
      apply Hm in Hj'. unfold better. lia.
    + right. intros n j ->%list_elem_of_singleton. apply Hs.
  - pose proof (find_next_open_spec p) as Hs.
    destruct (find_next_open p) as [[i idx]|]; [left; eauto|by right].
Qed.

(** ** The loop *)

Lemma hit_wf p (i idx : nat) out :
  wf p -> first_hit (needles p) (pending p) i idx -> wf (hit_result p i idx out).1.
Proof.
  intros [Hs Ha] Hh. unfold hit_result. destruct (active p) as [a|] eqn:E; [by split|].
  destruct (specs p !! idx) as [sp|] eqn:Esp; [|by rewrite <- E in Ha].
  split; [done|]. simpl. intros a ?; simplify_eq/=. destruct Hs as [Hs _].
  rewrite Forall_lookup in Hs. by apply Hs in Esp as [_ ?].
Qed.

Lemma hit_shorter p (i idx : nat) out :
  wf p -> first_hit (needles p) (pending p) i idx ->
  length (pending (hit_result p i idx out).1) < length (pending p).
Proof.
  intros Hw (n & Hn & [_ Hl] & _). pose proof (needles_ne p Hw) as Hne.
  assert (n <> []) as Hn0.
  { rewrite Forall_lookup in Hne. by eapply Hne. }
  assert (length n <> 0) by by destruct n.
  unfold hit_result, needles in *. destruct (active p) as [a|].
  - destruct idx; [|done]. simplify_eq/=. rewrite length_drop. lia.
  - apply lookup_opens in Hn as (sp & -> & ->). simpl. rewrite length_drop. lia.
Qed.

Lemma miss_wf p (n : nat) out : wf p -> wf (miss_result p n out).1.
Proof.
  intros [Hs Ha]. unfold miss_result. destruct (active p) as [a|] eqn:E.
  - split; [done|]. simpl. intros a' ?; simplify_eq/=. by apply Ha.
  - split; [done|]. simpl. intros a'. by rewrite E.
Qed.

Lemma hit_out p (i idx : nat) out :
  hit_result p i idx out = ((hit_result p i idx default_chunk).1,
                            chunk_app out (hit_result p i idx default_chunk).2).
Proof.
  unfold hit_result, push_extracted, push_visible, chunk_app.
  destruct (active p); simpl; [by rewrite app_nil_r|].
  destruct (specs p !! idx); simpl; rewrite !app_nil_r; [done|by destruct out].
Qed.

Lemma miss_out p (n : nat) out :
  miss_result p n out = ((miss_result p n default_chunk).1,
                         chunk_app out (miss_result p n default_chunk).2).
Proof.
  unfold miss_result, push_visible, chunk_app.
  destruct (active p); simpl; rewrite !app_nil_r; [by destruct out|done].
Qed.

Lemma loop_out (fuel : nat) p out :
  loop fuel p out = ((loop fuel p default_chunk).1,
                     chunk_app out (loop fuel p default_chunk).2).
Proof.
  revert p out. induction fuel as [|fuel IH]; intros p out; cbn [loop].
  { simpl. by rewrite chunk_app_default_r. }
  destruct (hit_or_miss p) as [(i & idx & Hh)|Hm].
  - rewrite !(turn_hit p i idx) by done. rewrite (hit_out p i idx out).
    destruct (hit_result p i idx default_chunk) as [p1 o1]. simpl.
    rewrite (IH p1 (chunk_app out o1)), (IH p1 o1). simpl. by rewrite chunk_app_assoc.
  - rewrite !turn_miss by done. rewrite (miss_out p _ out).
    by destruct (miss_result p _ default_chunk).
Qed.

Lemma loop_fuel (fuel fuel' : nat) p out :
  wf p -> length (pending p) < fuel -> length (pending p) < fuel' ->
  loop fuel p out = loop fuel' p out.
Proof.
  revert fuel' p out. induction fuel as [|fuel IH]; intros fuel' p out Hw Hf Hf'; [lia|].
  destruct fuel' as [|fuel']; [lia|]. cbn [loop].
  destruct (hit_or_miss p) as [(i & idx & Hh)|Hm].
  - rewrite (turn_hit p i idx) by done.
    pose proof (hit_wf p i idx out Hw Hh) as Hw'. pose proof (hit_shorter p i idx out Hw Hh) as Hl.
    destruct (hit_result p i idx out) as [p1 o1]. simpl in *. apply IH; [done|lia|lia].
  - by rewrite turn_miss by done.
Qed.

(** The loop with enough fuel. *)
Definition scan p : InlineHiddenTagParser T * StreamTextChunk (ExtractedInlineTag T) :=
  loop (S (length (pending p))) p default_chunk.

Lemma scan_hit p (i idx : nat) p1 o1 :
  wf p -> first_hit (needles p) (pending p) i idx ->
  hit_result p i idx default_chunk = (p1, o1) ->
  scan p = ((scan p1).1, chunk_app o1 (scan p1).2).
Proof.
  intros Hw Hh E. unfold scan at 1. cbn [loop]. rewrite (turn_hit p i idx) by done.
  pose proof (hit_wf p i idx default_chunk Hw Hh) as Hw'.
  pose proof (hit_shorter p i idx default_chunk Hw Hh) as Hl. rewrite E in *. simpl in *.
  rewrite loop_out, (loop_fuel _ (S (length (pending p1)))) by (done || lia). done.
Qed.

Lemma scan_miss p :
  no_hit (needles p) (pending p) ->
  scan p = miss_result p (cut (needles p) (pending p)) default_chunk.
Proof.
  intros Hm. unfold scan. cbn [loop]. rewrite turn_miss by done. by destruct (miss_result _ _ _).
Qed.

Lemma needles_miss p (n : nat) out : needles (miss_result p n out).1 = needles p.
Proof. unfold miss_result, needles. by destruct (active p) eqn:E; simpl; rewrite ?E. Qed.

Lemma needles_with p (s : str) : needles (with_pending p s) = needles p.
Proof. done. Qed.

Lemma wf_with p (s : str) : wf p -> wf (with_pending p s).
Proof. done. Qed.

(** More text after a delimiter stays pending. *)
Lemma hit_result_app p (x y : str) (i idx : nat) :
  first_hit (needles p) x i idx ->
  hit_result (with_pending p (x ++ y)) i idx default_chunk =
  (let q := (hit_result (with_pending p x) i idx default_chunk).1 in
   with_pending q (pending q ++ y), (hit_result (with_pending p x) i idx default_chunk).2).
Proof.
  intros (n & Hn & [_ Hl] & _). unfold hit_result, needles in *. simpl.
  destruct (active p) as [a|].
  - destruct idx; [|done]. simplify_eq/=. unfold with_pending. simpl.
    by rewrite drop_app_le, take_app_le by lia.
  - apply lookup_opens in Hn as (sp & Hsp & ->). rewrite Hsp. unfold with_pending. simpl.
    by rewrite drop_app_le, take_app_le by lia.
Qed.

(** A delimiter found after a miss is the one found in the whole text. *)
Lemma hit_result_cut p (x y : str) (n i idx : nat) :
  n <= length x -> (active p = None -> specs p !! idx <> None) ->
  let q := (miss_result (with_pending p x) n default_chunk).1 in
  hit_result (with_pending p (x ++ y)) (n + i) idx default_chunk =
  ((hit_result (with_pending q (pending q ++ y)) i idx default_chunk).1,
   chunk_app (miss_result (with_pending p x) n default_chunk).2
     (hit_result (with_pending q (pending q ++ y)) i idx default_chunk).2).
Proof.
  intros Hn Hidx q. subst q. unfold hit_result, miss_result, with_pending, push_visible,
    push_extracted, chunk_app. simpl.
  assert (forall k, drop (n + k) (x ++ y) = drop k (drop n x ++ y)) as Hd.
  { intros k. rewrite <- drop_drop, drop_app_le by done. done. }
  assert (take (n + i) (x ++ y) = take n x ++ take i (drop n x ++ y)) as Ht.
  { rewrite <- (take_drop n x) at 1. rewrite <- app_assoc.
    assert (length (take n x) = n) as El by (rewrite length_take; lia).
    rewrite <- El at 1. by rewrite take_app_add. }
  destruct (active p) as [a|]; simpl.
  - by rewrite <- Nat.add_assoc, Hd, Ht, <- app_assoc.
  - destruct (specs p !! idx) as [sp|] eqn:Esp; [|by destruct Hidx].
    by rewrite <- Nat.add_assoc, Hd, Ht.
Qed.

Lemma miss_result_cut p (x y : str) (n m : nat) :
  n <= length x ->
  let q := (miss_result (with_pending p x) n default_chunk).1 in
  miss_result (with_pending p (x ++ y)) (n + m) default_chunk =
  ((miss_result (with_pending q (pending q ++ y)) m default_chunk).1,
   chunk_app (miss_result (with_pending p x) n default_chunk).2
     (miss_result (with_pending q (pending q ++ y)) m default_chunk).2).
Proof.
  intros Hn q. subst q. unfold miss_result, with_pending, push_visible, chunk_app. simpl.
  assert (drop (n + m) (x ++ y) = drop m (drop n x ++ y)) as Hd
    by by rewrite <- drop_drop, drop_app_le.
  assert (take (n + m) (x ++ y) = take n x ++ take m (drop n x ++ y)) as Ht.
  { rewrite <- (take_drop n x) at 1. rewrite <- app_assoc.
    assert (length (take n x) = n) as El by (rewrite length_take; lia).
    rewrite <- El at 1. by rewrite take_app_add. }
  destruct (active p) as [a|]; simpl; by rewrite Hd, Ht, <- ?app_assoc.
Qed.

(** Scanning a text in two parts, the first of which holds no delimiter. *)
Lemma scan_app_miss (x y : str) p :
  wf p -> no_hit (needles p) x ->
  let '(p1, o1) := scan (with_pending p x) in
  let '(p2, o2) := scan (with_pending p1 (pending p1 ++ y)) in
  scan (with_pending p (x ++ y)) = (p2, chunk_app o1 o2).
Proof.
  intros Hw Hm. pose proof (needles_ne p Hw) as Hne.
  rewrite scan_miss by done. rewrite needles_with in *. simpl in *.
  pose proof (miss_wf (with_pending p x) (cut (needles p) x) default_chunk (wf_with p x Hw)) as Hwq.
  pose proof (needles_miss (with_pending p x) (cut (needles p) x) default_chunk) as Hnq.
  rewrite needles_with in Hnq.
  assert (cut (needles p) x <= length x) as Hcut by (unfold cut; lia).
  destruct (miss_result (with_pending p x) (cut (needles p) x) default_chunk) as [q o] eqn:Eq.
  simpl in *. assert (pending q = drop (cut (needles p) x) x) as Hpq.
  { unfold miss_result in Eq. simpl in Eq. by destruct (active p); simplify_eq. }
  destruct (hit_or_miss (with_pending q (pending q ++ y))) as [(i & idx & Hh)|Hm'];
    rewrite needles_with, Hnq in *; simpl in *; rewrite Hpq in *.
  - pose proof (first_hit_cut _ Hne _ _ _ _ Hm Hh) as Hh'.
    assert (active p = None -> specs p !! idx <> None) as Hidx.
    { intros Ha. destruct Hh' as (n & Hn & _). unfold needles in Hn. rewrite Ha in Hn.
      apply lookup_opens in Hn as (sp & -> & _). done. }
    pose proof (hit_result_cut p x y (cut (needles p) x) i idx Hcut Hidx) as Hc.
    rewrite Eq in Hc. simpl in Hc. rewrite Hpq in Hc.
    destruct (hit_result (with_pending q (drop (cut (needles p) x) x ++ y)) i idx default_chunk)
      as [q2 o2] eqn:E2. simpl in Hc.
    rewrite (scan_hit (with_pending q (drop (cut (needles p) x) x ++ y)) i idx q2 o2);
      [|done|by rewrite needles_with, Hnq|done].
    rewrite (scan_hit (with_pending p (x ++ y)) (cut (needles p) x + i) idx q2
               (chunk_app o o2)) by done.
    by rewrite chunk_app_assoc.
  - rewrite scan_miss by by rewrite needles_with, Hnq.
    assert (no_hit (needles p) (x ++ y)) as Hm2 by by apply (no_hit_cut _ Hne).
    rewrite (scan_miss (with_pending p (x ++ y))) by done.
    rewrite !needles_with, Hnq. simpl. rewrite (cut_app _ Hne x y).
    pose proof (miss_result_cut p x y (cut (needles p) x)
      (cut (needles p) (drop (cut (needles p) x) x ++ y)) Hcut) as Hc.
    rewrite Eq in Hc. simpl in Hc. rewrite Hpq in Hc. rewrite Hc.
    by destruct (miss_result (with_pending q _) _ _).
Qed.

Lemma with_pending_id p : with_pending p (pending p) = p.
Proof. by destruct p. Qed.

(** Scanning a text in two parts. *)
Lemma scan_app (x y : str) p :
  wf p ->
  let '(p1, o1) := scan (with_pending p x) in
  let '(p2, o2) := scan (with_pending p1 (pending p1 ++ y)) in
  scan (with_pending p (x ++ y)) = (p2, chunk_app o1 o2).
Proof.
  remember (length x) as len eqn:Hlen. revert x p Hlen.
  induction len as [len IH] using lt_wf_ind. intros x p -> Hw.
  destruct (hit_or_miss (with_pending p x)) as [(i & idx & Hh)|Hm]; [|by apply scan_app_miss].
  destruct (hit_result (with_pending p x) i idx default_chunk) as [q o] eqn:Eq.
  rewrite (scan_hit (with_pending p x) i idx q o) by done.
  assert (wf q /\ length (pending q) < length x) as [Hwq Hlq].
  { pose proof (hit_wf _ i idx default_chunk (wf_with p x Hw) Hh) as H1.
    pose proof (hit_shorter _ i idx default_chunk (wf_with p x Hw) Hh) as H2.
    rewrite Eq in H1, H2. done. }
  assert (first_hit (needles p) (x ++ y) i idx) as Hh'
    by (apply first_hit_app; [by apply needles_free|done]).
  rewrite (scan_hit (with_pending p (x ++ y)) i idx (with_pending q (pending q ++ y)) o);
    [|done|done|].
  2: { rewrite hit_result_app by done. by rewrite Eq. }
  specialize (IH _ Hlq (pending q) q eq_refl Hwq). rewrite with_pending_id in IH.
  destruct (scan q) as [p1 o1]. simpl. destruct (scan (with_pending p1 (pending p1 ++ y))) as [p2 o2].
  rewrite IH. simpl. by rewrite chunk_app_assoc.
Qed.

Lemma scan_wf p : wf p -> wf (scan p).1.
Proof.
  remember (length (pending p)) as len eqn:Hlen. revert p Hlen.
  induction len as [len IH] using lt_wf_ind. intros p -> Hw.
  destruct (hit_or_miss p) as [(i & idx & Hh)|Hm].
  - destruct (hit_result p i idx default_chunk) as [q o] eqn:Eq.
    rewrite (scan_hit p i idx q o) by done. simpl.
    pose proof (hit_wf p i idx default_chunk Hw Hh) as H1.
    pose proof (hit_shorter p i idx default_chunk Hw Hh) as H2. rewrite Eq in H1, H2.
    by eapply IH.
  - rewrite scan_miss by done. by apply miss_wf.
Qed.

Lemma chunk_app_cancel {A} (a b : StreamTextChunk A) : a = chunk_app a b -> b = default_chunk.
Proof.
  destruct a as [v e], b as [v' e']. unfold chunk_app. intros H. simplify_eq/=.
  rewrite <- (app_nil_r v) in H at 1. rewrite <- (app_nil_r e) in H0 at 1.
  apply app_inv_head in H, H0. by subst.
Qed.

(** After a scan there is nothing more to find. *)
Lemma scan_stable p : wf p -> scan (scan p).1 = ((scan p).1, default_chunk).
Proof.
  intros Hw. pose proof (scan_app (pending p) [] p Hw) as H.
  rewrite app_nil_r, with_pending_id in H. destruct (scan p) as [p1 o1].
  rewrite app_nil_r, with_pending_id in H. simpl. destruct (scan p1) as [p2 o2].
  injection H as -> Ho. by apply chunk_app_cancel in Ho as ->.
Qed.

Lemma inline_push_scan (c : str) p : push_str c p = scan (with_pending p (pending p ++ c)).
Proof. done. Qed.

Definition inline_settled p : Prop := wf p /\ scan p = (p, default_chunk).

#[export] Program Instance inline_laws : ChunkLaws (InlineHiddenTagParser T) (ExtractedInlineTag T) := {
  settled := inline_settled;
  same := eq;
}.
Next Obligation.
  intros c p [Hw _]. rewrite inline_push_scan.
  split; [by apply scan_wf|by apply scan_stable].
Qed.
Next Obligation.
  intros p [_ Hs]. by rewrite inline_push_scan, app_nil_r, with_pending_id.
Qed.
Next Obligation.
  intros x y p [Hw _]. rewrite !inline_push_scan, app_assoc.
  pose proof (scan_app (pending p ++ x) y p Hw) as H.
  destruct (scan (with_pending p (pending p ++ x))) as [p1 o1]. simpl.
  destruct (scan (with_pending p1 (pending p1 ++ y))) as [p2 o2]. rewrite H. done.
Qed.

End Parser.

(** ** Citations *)

Definition citation_settled (p : CitationStreamParser) : Prop := inline_settled (inner p).

#[export] Program Instance citation_laws : ChunkLaws CitationStreamParser str := {
  settled := citation_settled;
  same := eq;
}.
Next Obligation.
  intros c p Hp. pose proof (push_settled c (inner p) Hp) as H. simpl in *.
  by destruct (inline_push_str c (inner p)).
Qed.
Next Obligation.
  intros p Hp. pose proof (push_nil (inner p) Hp) as H. simpl in *. rewrite H. by destruct p.
Qed.
Next Obligation.
  intros x y p Hp. pose proof (push_app x y (inner p) Hp) as H. simpl in *.
  destruct (inline_push_str x (inner p)) as [p1 o1]. simpl in *.
  destruct (inline_push_str y p1) as [p2 o2], (inline_push_str (x ++ y) (inner p)) as [p3 o3].
  simpl in *. destruct H as (-> & Hv & ->). split_and!; [done|done|]. apply map_app.
Qed.

Lemma new_citation_settled : settled new_citation.
Proof.
  split; [|vm_compute; reflexivity]. split; [split|done].
  - apply Forall_singleton. done.
  - intros n m k ->%list_elem_of_singleton ->%list_elem_of_singleton. done.
Qed.

(** Feeding chunks and closing the parser is stripping the whole text. *)
Lemma collect_citations (chunks : list str) :
  collect_chunks chunks new_citation =
  {| visible_text := (strip_citations (concat chunks)).1;
     extracted := (strip_citations (concat chunks)).2 |}.
Proof.
  destruct (collect_concat chunks new_citation new_citation_settled) as [Hv He].
  assert (collect_chunks chunks new_citation = collect_chunks [concat chunks] new_citation) as ->.
  { destruct (collect_chunks chunks new_citation), (collect_chunks [concat chunks] new_citation).
    simpl in *. by subst. }
  unfold collect_chunks, strip_citations. cbn [run].
  destruct (push_str (concat chunks) new_citation) as [p o].
  rewrite chunk_app_default_r. by destruct (finish p).
Qed.

(** How a message is cut into chunks does not matter: feeding any chunks to the
    citation parser and closing it gives the visible text and the citations that
    [strip_citations] gives for the whole message. *)
Theorem citation_chunks_irrelevant (chunks : list str) :
  collect_chunks chunks new_citation =
  {| visible_text := (strip_citations (concat chunks)).1;
     extracted := (strip_citations (concat chunks)).2 |}.
Proof. apply collect_citations. Qed.

(** ** What the parser answers for a whole text *)

Definition citation_state (s : str) (a : option (ActiveTag CitationTag))
    : InlineHiddenTagParser CitationTag :=
  {| specs := [citation_spec]; pending := s; active := a |}.

(** The rest of the stream from a state: the text that is pending, and its end. *)
Definition total (p : InlineHiddenTagParser CitationTag) : str * list str :=
  let '(p1, out) := scan p in
  let '(_, tail) := inline_finish p1 in
  (visible_text out ++ visible_text tail,
   map tag_content (extracted out) ++ map tag_content (extracted tail)).

Lemma strip_total (s : str) : strip_citations s = total (citation_state s None).
Proof.
  unfold strip_citations, total. cbn [push_str citation_parser inner new_citation].
  rewrite inline_push_scan. change (with_pending _ _) with (citation_state s None).
  destruct (scan (citation_state s None)) as [p o].
  change (finish {| inner := p |}) with
    (let '(i, out) := inline_finish p in ({| inner := i |}, citation_chunk out)).
  by destruct (inline_finish p).
Qed.

Lemma citation_wf (s : str) (a : option (ActiveTag CitationTag)) :
  (forall t, a = Some t -> active_close t = CITATION_CLOSE) -> wf (citation_state s a).
Proof.
  intros Ha. destruct new_citation_settled as [[Hs _] _]. split; [done|].
  simpl. intros t ->. by rewrite (Ha t eq_refl).
Qed.

Lemma total_miss (s : str) (a : option (ActiveTag CitationTag)) :
  no_hit (needles (citation_state s a)) s ->
  total (citation_state s a) =
  match a with Some t => ([], [content t ++ s]) | None => (s, []) end.
Proof.
  intros Hm. unfold total. rewrite scan_miss by done. unfold miss_result, inline_finish.
  destruct a as [t|]; simpl; by rewrite <- ?app_assoc, take_drop, ?app_nil_r.
Qed.

Lemma total_hit (s : str) (a : option (ActiveTag CitationTag)) (i : nat) :
  (forall t, a = Some t -> active_close t = CITATION_CLOSE) ->
  find (match a with Some t => active_close t | None => CITATION_OPEN end) s = Some i ->
  total (citation_state s a) =
  match a with
  | Some t =>
      let r := total (citation_state (drop (i + length (active_close t)) s) None) in
      (r.1, (content t ++ take i s) :: r.2)
  | None =>
      let r := total (citation_state (drop (i + length CITATION_OPEN) s)
                 (Some {| active_tag := Citation; active_close := CITATION_CLOSE;
                          content := [] |})) in
      (take i s ++ r.1, r.2)
  end.
Proof.
  intros Ha Hf.
  pose proof (find_spec (match a with Some t => active_close t | None => CITATION_OPEN end) s) as Hs.
  rewrite Hf in Hs. destruct Hs as [Ho Hmin].
  assert (first_hit (needles (citation_state s a)) s i 0) as Hh.
  { exists (match a with Some t => active_close t | None => CITATION_OPEN end).
    split; [by destruct a|]. split; [done|]. intros [|idx] n j Hn Hj; [|by destruct a].
    unfold better. destruct a; simplify_eq/=; apply Hmin in Hj; lia. }
  pose proof (citation_wf s a Ha) as Hw. unfold total at 1.
  destruct (hit_result (citation_state s a) i 0 default_chunk) as [q o] eqn:Eq.
  rewrite (scan_hit (citation_state s a) i 0 q o) by done.
  unfold hit_result in Eq. destruct a as [t|]; simpl in Eq; simplify_eq; unfold total, citation_state.
  - destruct (scan _) as [p1 o1]. simpl. destruct (inline_finish p1) as [? tl]. done.
  - destruct (scan _) as [p1 o1]. simpl. destruct (inline_finish p1) as [? tl]. simpl.
    by rewrite <- app_assoc.
Qed.

Lemma find_first (n a b : str) :
  n <> [] -> find n (a ++ n) = Some (length a) -> find n (a ++ n ++ b) = Some (length a).
Proof.
  intros Hne Hf. pose proof (find_spec n (a ++ n)) as H1. rewrite Hf in H1. destruct H1 as [Ho Hm].
  pose proof (find_spec n (a ++ n ++ b)) as H2. rewrite app_assoc in *.
  assert (occurs n ((a ++ n) ++ b) (length a)) as Ho'
    by (apply occurs_app; [rewrite length_app; lia|done]).
  destruct (find n ((a ++ n) ++ b)) as [i|]; [|by apply H2 in Ho'].
  destruct H2 as [Hi Hmin]. apply Hmin in Ho'. f_equal. apply Nat.le_antisymm; [done|].
  apply Hm. apply occurs_app in Hi; [done|]. rewrite length_app. lia.
Qed.

Lemma find_None_no_hit (n s : str) : find n s = None -> no_hit [n] s.
Proof.
  intros Hf m j ->%list_elem_of_singleton. pose proof (find_spec n s) as H. by rewrite Hf in H.
Qed.

(** What [strip_citations] computes: text without an opening tag is visible as it
    is; up to the first opening tag the text is visible, and the text between it and
    the next closing tag is a citation; a citation that is not closed ends with the
    text. Nothing else is dropped, and what follows a closing tag is treated afresh. *)
Theorem strip_citations_meaning (a b c : str) :
  (find CITATION_OPEN a = None -> strip_citations a = (a, [])) /\
  (find CITATION_OPEN (a ++ CITATION_OPEN) = Some (length a) ->
   find CITATION_CLOSE b = None -> strip_citations (a ++ CITATION_OPEN ++ b) = (a, [b])) /\
  (find CITATION_OPEN (a ++ CITATION_OPEN) = Some (length a) ->
   find CITATION_CLOSE (b ++ CITATION_CLOSE) = Some (length b) ->
   strip_citations (a ++ CITATION_OPEN ++ b ++ CITATION_CLOSE ++ c) =
   (a ++ (strip_citations c).1, b :: (strip_citations c).2)).
Proof.
  assert (forall r, find CITATION_OPEN (a ++ CITATION_OPEN) = Some (length a) ->
    strip_citations (a ++ CITATION_OPEN ++ r) =
    let t := total (citation_state r (Some {| active_tag := Citation;
               active_close := CITATION_CLOSE; content := [] |})) in (a ++ t.1, t.2)) as Ho.
  { intros r Hf. rewrite strip_total, (total_hit _ None (length a)); [|done|by apply find_first].
    rewrite <- length_app, app_assoc, drop_app_length, <- app_assoc, take_app_length. done. }
  rewrite !strip_total. split_and!.
  - intros Hf%find_None_no_hit. by rewrite total_miss.
  - intros Hf Hc%find_None_no_hit. rewrite <- strip_total, Ho by done. rewrite total_miss by done.
    simpl. by rewrite app_nil_r.
  - intros Hf Hc. rewrite <- strip_total, Ho by done.
    rewrite (total_hit _ _ (length b)); [|by intros; simplify_eq|by apply find_first].
    cbn [active_close content].
    rewrite <- length_app, app_assoc, drop_app_length, <- app_assoc, take_app_length. done.
Qed.

End InlineTagFacts.
