(* ===== verification/TaggedLine.v ===== *)
(** * Tags on lines of their own: src/utils/common/src/stream_parser/{tagged_line_parser,proposed_plan}.rs *)

From Stdlib Require Import Ascii String.
From S2P Require Import Prelude RustStr StreamText.
Import StreamText.

Module TaggedLine.

Record TagSpec (T : Type) := { tag_open : str; tag_close : str; spec_tag : T }.
Arguments tag_open {T} _.
Arguments tag_close {T} _.
Arguments spec_tag {T} _.
Arguments Build_TagSpec {T} _ _ _.

Inductive TaggedLineSegment (T : Type) :=
| Normal (text : str)
| TagStart (tag : T)
| TagDelta (tag : T) (text : str)
| TagEnd (tag : T).
Arguments Normal {T} _.
Arguments TagStart {T} _.
Arguments TagDelta {T} _ _.
Arguments TagEnd {T} _.

Record TaggedLineParser (T : Type) := {
  tag_specs : list (TagSpec T);
  active_tag : option T;
  detect_tag : bool;
  line_buffer : str;
}.
Arguments tag_specs {T} _.
Arguments active_tag {T} _.
Arguments detect_tag {T} _.
Arguments line_buffer {T} _.
Arguments Build_TaggedLineParser {T} _ _ _ _.

Section Parser.
Context {T : Type} `{EqDecision T}.
Abbreviation parser := (TaggedLineParser T).
Abbreviation segments := (list (TaggedLineSegment T)).

Definition new (specs : list (TagSpec T)) : parser :=
  {| tag_specs := specs; active_tag := None; detect_tag := true; line_buffer := [] |}.

(** Text is joined to the segment before it when that is of the same kind. *)
Definition push_segment (segs : segments) (seg : TaggedLineSegment T) : segments :=
  match seg with
  | Normal delta =>
      if str_eqb delta [] then segs
      else match last segs with
           | Some (Normal existing) => removelast segs ++ [Normal (existing ++ delta)]
           | _ => segs ++ [Normal delta]
           end
  | TagDelta tag delta =>
      if str_eqb delta [] then segs
      else match last segs with
           | Some (TagDelta existing_tag existing) =>
               if decide (existing_tag = tag)
               then removelast segs ++ [TagDelta existing_tag (existing ++ delta)]
               else segs ++ [TagDelta tag delta]
           | _ => segs ++ [TagDelta tag delta]
           end
  | TagStart tag => segs ++ [TagStart tag]
  | TagEnd tag => segs ++ [TagEnd tag]
  end.

Definition push_text (p : parser) (text : str) (segs : segments) : segments :=
  match active_tag p with
  | Some tag => push_segment segs (TagDelta tag text)
  | None => push_segment segs (Normal text)
  end.

Definition is_tag_prefix (p : parser) (slug : str) : bool :=
  let slug := trim_end slug in
  existsb (fun spec => starts_with slug (tag_open spec) || starts_with slug (tag_close spec))
    (tag_specs p).

Definition match_open (p : parser) (slug : str) : option T :=
  spec_tag <$> List.find (fun spec => str_eqb (tag_open spec) slug) (tag_specs p).

Definition match_close (p : parser) (slug : str) : option T :=
  spec_tag <$> List.find (fun spec => str_eqb (tag_close spec) slug) (tag_specs p).

(** The state without its line, with the tag and the mode given. *)
Definition reset (p : parser) (active : option T) (detect : bool) : parser :=
  {| tag_specs := tag_specs p; active_tag := active; detect_tag := detect; line_buffer := [] |}.

(** The slug of a line: the line without its newline and its white space. *)
Definition line_slug (line : str) : str :=
  let without_newline := match strip_suffix [NL] line with Some l => l | None => line end in
  trim_end (trim_start without_newline).

Definition finish_line (p : parser) (segs : segments) : parser * segments :=
  let line := line_buffer p in
  let slug := line_slug line in
  match match_open p slug, active_tag p with
  | Some tag, None => (reset p (Some tag) true, push_segment segs (TagStart tag))
  | _, _ =>
      match match_close p slug with
      | Some tag =>
          if decide (active_tag p = Some tag)
          then (reset p None true, push_segment segs (TagEnd tag))
          else (reset p (active_tag p) true, push_text p line segs)
      | None => (reset p (active_tag p) true, push_text p line segs)
      end
  end.

(** One turn of the loop over the characters, with [run] and the segments. *)
Definition parse_char (st : parser * str * segments) (ch : char) : parser * str * segments :=
  let '(p, run, segs) := st in
  if detect_tag p then
    let segs := if str_eqb run [] then segs else push_text p run segs in
    let p := {| tag_specs := tag_specs p; active_tag := active_tag p; detect_tag := true;
                line_buffer := line_buffer p ++ [ch] |} in
    if N.eqb ch NL then let '(p, segs) := finish_line p segs in (p, [], segs)
    else
      let slug := trim_start (line_buffer p) in
      if str_eqb slug [] || is_tag_prefix p slug then (p, [], segs)
      else (reset p (active_tag p) false, [], push_text p (line_buffer p) segs)
  else
    let run := run ++ [ch] in
    if N.eqb ch NL
    then ({| tag_specs := tag_specs p; active_tag := active_tag p; detect_tag := true;
             line_buffer := line_buffer p |}, [], push_text p run segs)
    else (p, run, segs).

Definition parse (delta : str) (p : parser) : parser * segments :=
  let '(p, run, segs) := fold_left parse_char delta (p, [], []) in
  (p, if str_eqb run [] then segs else push_text p run segs).

(** The first part of [finish]: the line that is still in the buffer. *)
Definition finish_buffered (p : parser) : parser * segments :=
  if str_eqb (line_buffer p) [] then (p, [])
  else
    let buffered := line_buffer p in
    let slug := line_slug buffered in
    match match_open p slug, active_tag p with
    | Some tag, None => (reset p (Some tag) (detect_tag p), push_segment [] (TagStart tag))
    | _, _ =>
        match match_close p slug with
        | Some tag =>
            if decide (active_tag p = Some tag)
            then (reset p None (detect_tag p), push_segment [] (TagEnd tag))
            else (reset p (active_tag p) (detect_tag p), push_text p buffered [])
        | None => (reset p (active_tag p) (detect_tag p), push_text p buffered [])
        end
    end.

Definition tagged_finish (p : parser) : parser * segments :=
  let '(p, segs) := finish_buffered p in
  let segs := match active_tag p with
              | Some tag => push_segment segs (TagEnd tag)
              | None => segs
              end in
  (reset p None true, segs).

End Parser.

(** ** proposed_plan.rs *)

Definition OPEN_TAG : str := lit "<proposed_plan>".
Definition CLOSE_TAG : str := lit "</proposed_plan>".

Inductive PlanTag := ProposedPlan.

#[export] Instance PlanTag_eq_dec : EqDecision PlanTag.
Proof. solve_decision. Defined.

Inductive ProposedPlanSegment :=
| PlanNormal (text : str)
| ProposedPlanStart
| ProposedPlanDelta (text : str)
| ProposedPlanEnd.

Record ProposedPlanParser := { plan_parser : TaggedLineParser PlanTag }.

Definition plan_specs : list (TagSpec PlanTag) :=
  [{| tag_open := OPEN_TAG; tag_close := CLOSE_TAG; spec_tag := ProposedPlan |}].

Definition new_plan : ProposedPlanParser := {| plan_parser := new plan_specs |}.

Definition map_segment (s : TaggedLineSegment PlanTag) : ProposedPlanSegment :=
  match s with
  | Normal text => PlanNormal text
  | TagStart ProposedPlan => ProposedPlanStart
  | TagDelta ProposedPlan text => ProposedPlanDelta text
  | TagEnd ProposedPlan => ProposedPlanEnd
  end.

Definition map_segments (segs : list (TaggedLineSegment PlanTag))
    : StreamTextChunk ProposedPlanSegment :=
  fold_left (fun out seg =>
    let mapped := map_segment seg in
    {| visible_text := match mapped with
                       | PlanNormal text => visible_text out ++ text
                       | _ => visible_text out
                       end;
       extracted := extracted out ++ [mapped] |}) segs default_chunk.

#[export] Instance plan_stream_parser
    : StreamTextParser ProposedPlanParser ProposedPlanSegment := {
  push_str chunk p :=
    let '(q, segs) := parse chunk (plan_parser p) in ({| plan_parser := q |}, map_segments segs);
  finish p :=
    let '(q, segs) := tagged_finish (plan_parser p) in ({| plan_parser := q |}, map_segments segs);
}.

Definition strip_proposed_plan_blocks (text : str) : str :=
  let '(parser, out) := push_str text new_plan in
  visible_text out ++ visible_text (finish parser).2.

(** One turn of the loop over the segments: the plan text and whether one was seen. *)
Definition extract_step (st : str * bool) (seg : ProposedPlanSegment) : str * bool :=
  let '(plan_text, saw_plan_block) := st in
  match seg with
  | ProposedPlanStart => ([], true)
  | ProposedPlanDelta delta => (plan_text ++ delta, saw_plan_block)
  | ProposedPlanEnd | PlanNormal _ => (plan_text, saw_plan_block)
  end.

Definition extract_proposed_plan_text (text : str) : option str :=
  let '(parser, out) := push_str text new_plan in
  let '(plan_text, saw_plan_block) :=
    fold_left extract_step (extracted out ++ extracted (finish parser).2) ([], false) in
  if saw_plan_block then Some plan_text else None.

End TaggedLine.

(** * The tagged line parser reads lines

    The parser works character by character and gives up on a line as soon as it can
    no longer be a tag; what it answers is what a reader of whole lines would say.
    Answers are compared as sequences of events: the segments, with their text taken
    apart into characters, so that it does not matter how text is cut. *)

Import StreamText TaggedLine.

Module TaggedLineFacts.

(** ** Trimming a prefix *)

Lemma trim_start_prefix (q l : str) :
  q `prefix_of` l -> trim_start q = [] \/ trim_start q `prefix_of` trim_start l.
Proof.
  unfold trim_start. revert l. induction q as [|c q IH]; intros l [r ->]; simpl; [by left|].
  destruct (is_whitespace c).
  - apply IH. by exists r.
  - right. by exists r.
Qed.

Lemma trim_end_prefix_of (s : str) : trim_end s `prefix_of` s.
Proof. destruct (drop_while_end_prefix is_whitespace s) as (post & E & _). by exists post. Qed.

Lemma trim_end_mono (r m : str) : r `prefix_of` m -> trim_end r `prefix_of` trim_end m.
Proof.
  intros [t ->]. destruct (drop_while_end_prefix is_whitespace (r ++ t)) as (post & E & Hp).
  fold (trim_end (r ++ t)) in E. generalize dependent (trim_end (r ++ t)). intros e E.
  destruct (decide (length r <= length e)) as [Hl|Hl].
  - assert (r `prefix_of` e) as Hr.
    { exists (drop (length r) e). apply (f_equal (take (length e))) in E.
      rewrite take_app_length in E. rewrite <- E.
      rewrite take_app_ge, drop_app_ge by (rewrite ?length_take; lia). by rewrite Nat.sub_diag. }
    etrans; [apply trim_end_prefix_of|done].
  - assert (exists w, r = e ++ w /\ Forall (fun c => is_whitespace c = true) w) as (w & -> & Hw).
    { exists (take (length r - length e) post). apply (f_equal (take (length r))) in E.
      rewrite take_app_length, take_app_ge in E by lia. split; [done|by apply Forall_take]. }
    unfold trim_end. rewrite drop_while_end_app_all by done. apply trim_end_prefix_of.
Qed.

Lemma trim_prefix (q l : str) : q `prefix_of` l -> trim q `prefix_of` trim l.
Proof.
  intros [E|H]%trim_start_prefix; unfold trim; [rewrite E; apply prefix_nil|].
  by apply trim_end_mono.
Qed.

(** ** Events *)

Inductive event (T : Type) :=
| Char (tag : option T) (c : char)
| Start (tag : T)
| End_ (tag : T).
Arguments Char {T} _ _.
Arguments Start {T} _.
Arguments End_ {T} _.

Section Parser.
Context {T : Type} `{EqDecision T}.
Implicit Types (p : TaggedLineParser T) (segs : list (TaggedLineSegment T)).

Definition chars (tag : option T) (s : str) : list (event T) := map (Char tag) s.

Definition segment_events (seg : TaggedLineSegment T) : list (event T) :=
  match seg with
  | Normal text => chars None text
  | TagStart tag => [Start tag]
  | TagDelta tag text => chars (Some tag) text
  | TagEnd tag => [End_ tag]
  end.

Definition events segs : list (event T) := segs ≫= segment_events.

Lemma chars_app (tag : option T) (s t : str) : chars tag (s ++ t) = chars tag s ++ chars tag t.
Proof. apply map_app. Qed.

Lemma events_app segs segs' : events (segs ++ segs') = events segs ++ events segs'.
Proof. apply bind_app. Qed.

Lemma events_single (seg : TaggedLineSegment T) : events [seg] = segment_events seg.
Proof. unfold events. simpl. apply app_nil_r. Qed.

Lemma removelast_snoc {A} (l : list A) (x : A) : last l = Some x -> l = removelast l ++ [x].
Proof. intros [k ->]%last_Some. by rewrite removelast_last. Qed.

Lemma events_push_segment segs (seg : TaggedLineSegment T) :
  events (push_segment segs seg) = events segs ++ segment_events seg.
Proof.
  destruct seg as [d|t|t d|t]; simpl; try by rewrite events_app, events_single.
  - destruct (str_eqb d []) eqn:E; [apply str_eqb_eq in E as ->; by rewrite app_nil_r|].
    destruct (last segs) as [[e|t|t e|t]|] eqn:El; try by rewrite events_app, events_single.
    rewrite (removelast_snoc _ _ El) at 2. rewrite !events_app, !events_single. simpl.
    by rewrite chars_app, app_assoc.
  - destruct (str_eqb d []) eqn:E; [apply str_eqb_eq in E as ->; by rewrite app_nil_r|].
    destruct (last segs) as [[e|t'|t' e|t']|] eqn:El; try by rewrite events_app, events_single.
    case_decide; [subst|by rewrite events_app, events_single].
    rewrite (removelast_snoc _ _ El) at 2. rewrite !events_app, !events_single. simpl.
    by rewrite chars_app, app_assoc.
Qed.

#[local] Arguments push_segment : simpl never.

Lemma events_push_text p (s : str) segs :
  events (push_text p s segs) = events segs ++ chars (active_tag p) s.
Proof. unfold push_text. destruct (active_tag p); by rewrite events_push_segment. Qed.

(** ** One character *)

Definition find_tag (f : TagSpec T -> str) (specs : list (TagSpec T)) (slug : str) : option T :=
  spec_tag <$> List.find (fun s => str_eqb (f s) slug) specs.

(** What a whole line makes of the tag, and its events. *)
Definition line_effect (specs : list (TagSpec T)) (active : option T) (line : str)
    : option T * list (event T) :=
  match find_tag tag_open specs (line_slug line), active with
  | Some tag, None => (Some tag, [Start tag])
  | _, _ =>
      match find_tag tag_close specs (line_slug line) with
      | Some tag => if decide (active = Some tag) then (None, [End_ tag])
                    else (active, chars active line)
      | None => (active, chars active line)
      end
  end.

Lemma finish_line_effect p segs :
  let '(p', segs') := finish_line p segs in
  p' = reset p (line_effect (tag_specs p) (active_tag p) (line_buffer p)).1 true /\
  events segs' = events segs ++ (line_effect (tag_specs p) (active_tag p) (line_buffer p)).2.
Proof.
  unfold finish_line, line_effect.
  change (match_open p) with (find_tag tag_open (tag_specs p)).
  change (match_close p) with (find_tag tag_close (tag_specs p)).
  destruct (find_tag tag_open _ _), (active_tag p) eqn:Ea;
    destruct (find_tag tag_close (tag_specs p) (line_slug (line_buffer p))); try case_decide; simpl;
    (split; [done|]); by rewrite ?events_push_text, ?events_push_segment, ?Ea.
Qed.

Definition add_char p (c : char) : TaggedLineParser T :=
  {| tag_specs := tag_specs p; active_tag := active_tag p; detect_tag := true;
     line_buffer := line_buffer p ++ [c] |}.

(** The state and the events of one character. *)
Definition char_step p (c : char) : TaggedLineParser T * list (event T) :=
  if detect_tag p then
    let q := add_char p c in
    if N.eqb c NL then
      let e := line_effect (tag_specs p) (active_tag p) (line_buffer q) in
      (reset p e.1 true, e.2)
    else if str_eqb (trim_start (line_buffer q)) [] || is_tag_prefix q (trim_start (line_buffer q))
    then (q, [])
    else (reset p (active_tag p) false, chars (active_tag p) (line_buffer q))
  else
    ({| tag_specs := tag_specs p; active_tag := active_tag p; detect_tag := N.eqb c NL;
        line_buffer := line_buffer p |}, chars (active_tag p) [c]).

Fixpoint char_run p (s : str) : TaggedLineParser T * list (event T) :=
  match s with
  | [] => (p, [])
  | c :: s => let '(p, e) := char_step p c in let '(p, e') := char_run p s in (p, e ++ e')
  end.

Lemma char_run_app p (s t : str) :
  char_run p (s ++ t) =
  ((char_run (char_run p s).1 t).1, (char_run p s).2 ++ (char_run (char_run p s).1 t).2).
Proof.
  revert p. induction s as [|c s IH]; intros p; simpl; [by destruct (char_run p t)|].
  destruct (char_step p c) as [p1 e1]. rewrite IH. destruct (char_run p1 s) as [p2 e2]. simpl.
  by rewrite app_assoc.
Qed.

Lemma parse_char_step p (run : str) segs (c : char) :
  (detect_tag p = true -> run = []) ->
  let '(p', run', segs') := parse_char (p, run, segs) c in
  p' = (char_step p c).1 /\ (detect_tag p' = true -> run' = []) /\
  events segs' ++ chars (active_tag p') run'
  = events segs ++ chars (active_tag p) run ++ (char_step p c).2.
Proof.
  intros Hrun. unfold parse_char, char_step. destruct (detect_tag p) eqn:Ed.
  - rewrite (Hrun eq_refl). simpl. destruct (N.eqb c NL).
    + pose proof (finish_line_effect (add_char p c) segs) as Hf. fold (add_char p c).
      destruct (finish_line (add_char p c) segs) as [p' segs']. destruct Hf as [-> Hf].
      split_and!; [done|done|]. simpl. by rewrite app_nil_r.
    + fold (add_char p c). simpl. destruct (str_eqb _ [] || is_tag_prefix _ _).
      * split_and!; [done|done|]. simpl. done.
      * split_and!; [done|done|]. simpl. rewrite events_push_text, app_nil_r. done.
  - destruct (N.eqb c NL) eqn:Ec; simpl.
    + split_and!; [done|done|]. rewrite events_push_text, app_nil_r, chars_app.
      done.
    + split_and!; [|by rewrite Ed|by rewrite chars_app]. destruct p; simpl in *. by subst.
Qed.

Lemma parse_run (delta : str) p :
  (parse delta p).1 = (char_run p delta).1 /\ events (parse delta p).2 = (char_run p delta).2.
Proof.
  unfold parse.
  assert (forall run segs, (detect_tag p = true -> run = []) ->
    let '(p', run', segs') := fold_left parse_char delta (p, run, segs) in
    p' = (char_run p delta).1 /\
    events segs' ++ chars (active_tag p') run'
    = events segs ++ chars (active_tag p) run ++ (char_run p delta).2) as H.
  { revert p. induction delta as [|c delta IH]; intros p run segs Hr; cbn [fold_left char_run].
    - split; [done|by rewrite app_nil_r].
    - pose proof (parse_char_step p run segs c Hr) as Hc.
      destruct (parse_char (p, run, segs) c) as [[p1 run1] segs1]. destruct Hc as (-> & Hr1 & He).
      specialize (IH _ run1 segs1 Hr1). destruct (fold_left parse_char delta _) as [[p2 run2] segs2].
      destruct IH as [-> IH]. destruct (char_step p c) as [q e]. simpl in *.
      destruct (char_run q delta) as [q' e']. simpl in *. split; [done|].
      rewrite IH. rewrite app_assoc, He. by rewrite <- !app_assoc. }
  specialize (H [] [] (fun _ => eq_refl)). destruct (fold_left parse_char delta _) as [[p' run] segs].
  simpl in *. destruct H as [-> H]. split; [done|].
  destruct (str_eqb run []) eqn:E.
  - apply str_eqb_eq in E as ->. by rewrite app_nil_r in H.
  - by rewrite events_push_text.
Qed.

(** ** Whole lines *)

(** The reference: the lines one after the other, and the tag closed at the end. *)
Fixpoint read_lines (specs : list (TagSpec T)) (active : option T) (pieces : list str)
    : list (event T) :=
  match pieces with
  | [] => match active with Some tag => [End_ tag] | None => [] end
  | line :: pieces =>
      let e := line_effect specs active line in
      e.2 ++ read_lines specs e.1 pieces
  end.

Lemma line_slug_newline (l : str) : line_slug (l ++ [NL]) = trim l.
Proof. unfold line_slug. by rewrite (proj2 (strip_suffix_Some [NL] (l ++ [NL]) l)). Qed.

Lemma line_slug_last (l : str) : NL ∉ l -> line_slug l = trim l.
Proof.
  intros Hl. unfold line_slug. destruct (strip_suffix [NL] l) as [r|] eqn:E; [|done].
  apply strip_suffix_Some in E. set_solver.
Qed.

(** A prefix that rules out that the line is a tag. *)
Definition ruled_out p (q : str) : Prop :=
  exists q', q' `prefix_of` q /\ is_tag_prefix p (trim_start q') = false.

Lemma find_tag_prefix p (f : TagSpec T -> str) (l : str) (t : T) :
  f = tag_open \/ f = tag_close -> find_tag f (tag_specs p) (trim l) = Some t -> ~ ruled_out p l.
Proof.
  unfold find_tag, is_tag_prefix. intros Hf Hfind (q' & Hq & Hn).
  apply fmap_Some in Hfind as (sp & (Hin & Heq%str_eqb_eq)%find_some & _).
  apply not_true_iff_false in Hn. apply Hn. unfold is_tag_prefix. apply existsb_exists.
  exists sp. split; [done|]. apply orb_true_iff.
  assert (starts_with (trim_end (trim_start q')) (f sp) = true) as Hs.
  { rewrite Heq. apply starts_with_true. destruct (trim_prefix q' l Hq) as [r Hr]. by exists r. }
  destruct Hf as [-> | ->]; auto.
Qed.

Lemma ruled_out_text p (l line : str) (active : option T) :
  ruled_out p l -> line_slug line = trim l ->
  line_effect (tag_specs p) active line = (active, chars active line).
Proof.
  intros Hr Hs. unfold line_effect. rewrite Hs.
  destruct (find_tag tag_open (tag_specs p) (trim l)) eqn:Eo.
  { apply find_tag_prefix in Eo; [done|by left]. }
  destruct (find_tag tag_close (tag_specs p) (trim l)) eqn:Ec; [|done].
  apply find_tag_prefix in Ec; [done|by right].
Qed.

(** The state at the beginning of a line. *)
Definition fresh (specs : list (TagSpec T)) (active : option T) : TaggedLineParser T :=
  {| tag_specs := specs; active_tag := active; detect_tag := true; line_buffer := [] |}.

(** In the middle of a line it is buffered, or it is known not to be a tag. *)
Lemma char_run_partial (specs : list (TagSpec T)) (active : option T) (q : str) :
  NL ∉ q ->
  let st := char_run (fresh specs active) q in
  (st = ({| tag_specs := specs; active_tag := active; detect_tag := true; line_buffer := q |}, [])) \/
  (st = ({| tag_specs := specs; active_tag := active; detect_tag := false; line_buffer := [] |},
         chars active q) /\ ruled_out (fresh specs active) q).
Proof.
  induction q as [|c q IH] using rev_ind; intros Hq; [by left|].
  apply not_elem_of_app in Hq as [Hq Hc]. rewrite list_elem_of_singleton in Hc.
  rewrite char_run_app. simpl. specialize (IH Hq).
  assert (N.eqb c NL = false) as Hcn by (apply N.eqb_neq; congruence).
  destruct IH as [-> | [-> (q' & Hq' & Hn)]]; simpl; unfold char_step; simpl; rewrite Hcn.
  - destruct (str_eqb (trim_start (q ++ [c])) [] || _) eqn:E; simpl; [by left|].
    right. rewrite app_nil_r. split; [done|]. exists (q ++ [c]). split; [done|].
    by apply orb_false_iff in E as [_ E].
  - right. rewrite chars_app. split; [done|]. exists q'. split; [|done].
    by apply prefix_app_r.
Qed.

Lemma char_run_line (specs : list (TagSpec T)) (active : option T) (l : str) :
  NL ∉ l ->
  char_run (fresh specs active) (l ++ [NL]) =
  let e := line_effect specs active (l ++ [NL]) in (fresh specs e.1, e.2).
Proof.
  intros Hl. rewrite char_run_app.
  destruct (char_run_partial specs active l Hl) as [-> | [-> Hr]]; simpl; unfold char_step; simpl.
  - by rewrite app_nil_r.
  - pose proof (ruled_out_text (fresh specs active) l (l ++ [NL]) active Hr (line_slug_newline l)) as He.
    simpl in He. rewrite He. simpl. by rewrite chars_app.
Qed.

Definition finish_events p : list (event T) := events (tagged_finish p).2.

(** The events that close a tag. *)
Lemma events_close segs (active : option T) :
  events (match active with Some tag => push_segment segs (TagEnd tag) | None => segs end)
  = events segs ++ read_lines [] active [].
Proof. destruct active; [by rewrite events_push_segment|by rewrite app_nil_r]. Qed.

Lemma finish_events_line p :
  finish_events p =
  if str_eqb (line_buffer p) [] then read_lines [] (active_tag p) []
  else let e := line_effect (tag_specs p) (active_tag p) (line_buffer p) in
       e.2 ++ read_lines [] e.1 [].
Proof.
  assert (
    if str_eqb (line_buffer p) [] then finish_buffered p = (p, [])
    else active_tag (finish_buffered p).1
           = (line_effect (tag_specs p) (active_tag p) (line_buffer p)).1 /\
         events (finish_buffered p).2
           = (line_effect (tag_specs p) (active_tag p) (line_buffer p)).2) as Hb.
  { unfold finish_buffered. destruct (str_eqb (line_buffer p) []); [done|].
    pose proof (finish_line_effect p []) as Hf. unfold finish_line in Hf.
    destruct (match_open p _), (active_tag p) eqn:Ea;
      destruct (match_close p (line_slug (line_buffer p)));
      try case_decide; simpl in *; destruct Hf as [Hr <-]; apply (f_equal active_tag) in Hr;
      simpl in Hr; by rewrite <- Hr. }
  unfold finish_events, tagged_finish. destruct (str_eqb (line_buffer p) []).
  - rewrite Hb. simpl. by rewrite events_close.
  - destruct (finish_buffered p) as [q segs]. simpl in *. destruct Hb as [<- <-].
    apply events_close.
Qed.

Lemma finish_last_line (specs : list (TagSpec T)) (active : option T) (l : str) :
  NL ∉ l ->
  let st := char_run (fresh specs active) l in
  st.2 ++ finish_events st.1 = read_lines specs active (if str_eqb l [] then [] else [l]).
Proof.
  intros Hl. destruct (char_run_partial specs active l Hl) as [-> | [-> Hr]];
    simpl; rewrite finish_events_line; simpl.
  - by destruct (str_eqb l []).
  - pose proof (ruled_out_text (fresh specs active) l l active Hr (line_slug_last l Hl)) as He.
    simpl in He. destruct (str_eqb l []) eqn:E; [by apply str_eqb_eq in E as ->|].
    simpl. by rewrite He.
Qed.

(** The first line of a text, if it has a newline. *)
Lemma first_line (c : char) (s : str) :
  (c ∉ s) \/ exists l r, s = l ++ c :: r /\ (c ∉ l).
Proof.
  induction s as [|x s [IH|(l & r & -> & Hl)]]; [left; apply not_elem_of_nil|..].
  - destruct (decide (x = c)) as [->|Hne].
    + right. exists [], s. split; [done|apply not_elem_of_nil].
    + left. apply not_elem_of_cons. split; [congruence|done].
  - destruct (decide (x = c)) as [->|Hne].
    + right. exists [], (l ++ c :: r). split; [done|apply not_elem_of_nil].
    + right. exists (x :: l), r. split; [done|]. apply not_elem_of_cons. split; [congruence|done].
Qed.

Lemma stream_reads_lines (specs : list (TagSpec T)) (active : option T) (s : str) :
  let st := char_run (fresh specs active) s in
  st.2 ++ finish_events st.1 = read_lines specs active (split_inclusive NL s).
Proof.
  remember (length s) as n eqn:Hn. revert s active Hn.
  induction n as [n IH] using lt_wf_ind. intros s active ->. simpl.
  destruct (first_line NL s) as [Hs|(l & r & -> & Hl)].
  - rewrite finish_last_line by done. destruct (str_eqb s []) eqn:E.
    + by apply str_eqb_eq in E as ->.
    + apply str_eqb_neq in E. by rewrite split_inclusive_single.
  - rewrite split_inclusive_app by done. cbn [read_lines].
    replace (l ++ NL :: r) with ((l ++ [NL]) ++ r) by by rewrite <- app_assoc.
    rewrite char_run_app, char_run_line by done. simpl. rewrite <- app_assoc. f_equal.
    apply (IH (length r)); [rewrite length_app; simpl; lia|done].
Qed.

End Parser.

(** ** Plans *)

Definition plan_segment_events (s : ProposedPlanSegment) : list (event PlanTag) :=
  match s with
  | PlanNormal text => chars None text
  | ProposedPlanStart => [Start ProposedPlan]
  | ProposedPlanDelta text => chars (Some ProposedPlan) text
  | ProposedPlanEnd => [End_ ProposedPlan]
  end.

Definition plan_events (segs : list ProposedPlanSegment) : list (event PlanTag) :=
  segs ≫= plan_segment_events.

(** The text outside the plans. *)
Definition visible_of (es : list (event PlanTag)) : str :=
  omap (fun e => match e with Char None c => Some c | _ => None end) es.

(** The text of the last plan, if there is one. *)
Definition plan_step (st : str * bool) (e : event PlanTag) : str * bool :=
  match e with
  | Start _ => ([], true)
  | Char (Some _) c => (st.1 ++ [c], st.2)
  | Char None _ | End_ _ => st
  end.

Definition plan_of (es : list (event PlanTag)) : option str :=
  let st := fold_left plan_step es ([], false) in if st.2 then Some st.1 else None.

Lemma map_segment_events (s : TaggedLineSegment PlanTag) :
  plan_segment_events (map_segment s) = segment_events s.
Proof. by destruct s as [t|[]|[] t|[]]. Qed.

Lemma visible_chars (s : str) : visible_of (chars None s) = s.
Proof.
  induction s as [|c s IH]; [done|].
  change (visible_of (chars None (c :: s))) with (c :: visible_of (chars None s)). by rewrite IH.
Qed.

Lemma visible_hidden (t : PlanTag) (s : str) : visible_of (chars (Some t) s) = [].
Proof. by induction s. Qed.

Lemma visible_app (a b : list (event PlanTag)) : visible_of (a ++ b) = visible_of a ++ visible_of b.
Proof. apply omap_app. Qed.

Lemma map_segments_spec (segs : list (TaggedLineSegment PlanTag)) :
  plan_events (extracted (map_segments segs)) = events segs /\
  visible_text (map_segments segs) = visible_of (events segs).
Proof.
  unfold map_segments. induction segs as [|s segs IH] using rev_ind; [done|].
  rewrite fold_left_app. simpl. destruct (fold_left _ segs default_chunk) as [v es].
  simpl in *. destruct IH as [IH1 IH2].
  rewrite events_app, events_single, visible_app, <- IH2. split.
  - unfold plan_events in *. rewrite bind_app, IH1. simpl. by rewrite app_nil_r, map_segment_events.
  - rewrite <- map_segment_events. destruct (map_segment s); simpl;
      rewrite ?visible_chars, ?visible_hidden, ?app_nil_r; done.
Qed.

Definition plan_same (a b : list ProposedPlanSegment) : Prop := plan_events a = plan_events b.

#[export] Program Instance plan_laws : ChunkLaws ProposedPlanParser ProposedPlanSegment := {
  settled _ := True;
  same := plan_same;
}.
Next Obligation. split; unfold plan_same; congruence. Qed.
Next Obligation.
  intros a a' Ha b b' Hb. unfold plan_same, plan_events in *. by rewrite !bind_app, Ha, Hb.
Qed.
Next Obligation. done. Qed.
Next Obligation. intros [p] _. done. Qed.
Next Obligation.
  intros x y [p] _. simpl.
  destruct (parse_run x p) as [X1 X2], (parse_run (x ++ y) p) as [XY1 XY2].
  rewrite char_run_app in XY1, XY2. simpl in XY1, XY2. rewrite <- X1 in XY1, XY2.
  rewrite <- X2 in XY2.
  destruct (parse x p) as [p1 s1]. simpl in *.
  destruct (parse_run y p1) as [Y1 Y2]. rewrite <- Y1 in XY1. rewrite <- Y2 in XY2.
  destruct (parse y p1) as [p2 s2], (parse (x ++ y) p) as [p3 s3]. simpl in *. subst p3.
  destruct (map_segments_spec s1) as [A1 B1], (map_segments_spec s2) as [A2 B2],
    (map_segments_spec s3) as [A3 B3].
  split_and!; [done|by rewrite B1, B2, B3, XY2, visible_app|].
  unfold plan_same. unfold plan_events at 2. rewrite bind_app.
  fold (plan_events (extracted (map_segments s1))). fold (plan_events (extracted (map_segments s2))).
  by rewrite A1, A2, A3.
Qed.

(** What the parser says of a whole text, chunk or chunks. *)
Definition plan_reference (text : str) : list (event PlanTag) :=
  read_lines plan_specs None (split_inclusive NL text).

Lemma collect_plan (text : str) :
  plan_events (extracted (collect_chunks [text] new_plan)) = plan_reference text /\
  visible_text (collect_chunks [text] new_plan) = visible_of (plan_reference text).
Proof.
  unfold plan_reference. pose proof (stream_reads_lines plan_specs None text) as H. simpl in H.
  change (fresh plan_specs None) with (TaggedLine.new plan_specs) in H.
  destruct (parse_run text (TaggedLine.new plan_specs)) as [E1 E2].
  rewrite <- E1, <- E2 in H. rewrite <- H.
  unfold collect_chunks, run. cbn [push_str plan_stream_parser new_plan plan_parser].
  destruct (parse text (TaggedLine.new plan_specs)) as [p segs]. simpl.
  unfold finish_events. destruct (tagged_finish p) as [q tail]. simpl.
  destruct (map_segments_spec segs) as [A1 B1], (map_segments_spec tail) as [A2 B2].
  rewrite !app_nil_r. split; [|by rewrite B1, B2, visible_app].
  unfold plan_events in *. by rewrite bind_app, A1, A2.
Qed.

Lemma extract_events (segs : list ProposedPlanSegment) (st : str * bool) :
  fold_left extract_step segs st = fold_left plan_step (plan_events segs) st.
Proof.
  revert st. induction segs as [|s segs IH]; intros [t b]; [done|]. cbn [fold_left].
  unfold plan_events in *. cbn [mbind list_bind]. rewrite fold_left_app, <- IH. f_equal.
  destruct s as [x| |x|]; simpl; [|done| |done].
  - by induction x.
  - revert t. induction x as [|c x IHx]; intros t; simpl; [by rewrite app_nil_r|].
    rewrite <- IHx. by rewrite <- app_assoc.
Qed.

(** The plans of a text, in any chunks. *)
Lemma collect_plans (chunks : list str) :
  let text := concat chunks in
  plan_events (extracted (collect_chunks chunks new_plan)) = plan_reference text /\
  visible_text (collect_chunks chunks new_plan) = visible_of (plan_reference text) /\
  strip_proposed_plan_blocks text = visible_of (plan_reference text) /\
  extract_proposed_plan_text text = plan_of (plan_reference text).
Proof.
  intros text. subst text. destruct (collect_plan (concat chunks)) as [He Hv].
  destruct (collect_concat chunks new_plan) as [Cv Ce]; [done|]. cbn [same plan_laws] in Ce.
  split; [by rewrite <- He|]. split; [by rewrite Cv|].
  unfold collect_chunks, run in He, Hv. unfold strip_proposed_plan_blocks, extract_proposed_plan_text.
  destruct (push_str (concat chunks) new_plan) as [p out]. simpl in He, Hv.
  rewrite app_nil_r in He, Hv. split; [done|]. unfold plan_of. rewrite <- He, <- extract_events.
  simpl. by destruct (fold_left extract_step _ _).
Qed.

(** The plan parser, fed character by character in any chunks, says what reading
    whole lines says: the text, the plans and their order, and the plan that an
    unfinished block leaves open; and the two functions for whole messages give the
    text outside the plans and the text of the last plan. *)
Theorem plan_reads_lines (chunks : list str) :
  let text := concat chunks in
  plan_events (extracted (collect_chunks chunks new_plan)) = plan_reference text /\
  visible_text (collect_chunks chunks new_plan) = visible_of (plan_reference text) /\
  strip_proposed_plan_blocks text = visible_of (plan_reference text) /\
  extract_proposed_plan_text text = plan_of (plan_reference text).
Proof. apply collect_plans. Qed.

End TaggedLineFacts.
