(* ===== verification/AssistantText.v ===== *)
(** * Assistant text: src/utils/common/src/stream_parser/assistant_text.rs

    The citation parser in front of the plan parser, and the proof that the two in
    sequence are as indifferent to the chunks as each of them. *)

From Stdlib Require Import Ascii String.
From S2P Require Import Prelude RustStr StreamText InlineTag TaggedLine.
Import StreamText InlineTag InlineTagFacts TaggedLine TaggedLineFacts.

Module AssistantText.

Record AssistantTextChunk := {
  visible : str;
  citations : list str;
  plan_segments : list ProposedPlanSegment;
}.

Definition empty_chunk : AssistantTextChunk :=
  {| visible := []; citations := []; plan_segments := [] |}.

Record AssistantTextStreamParser := {
  plan_mode : bool;
  citation : CitationStreamParser;
  plan : ProposedPlanParser;
}.

Definition new (plan_mode : bool) : AssistantTextStreamParser :=
  {| plan_mode := plan_mode; citation := new_citation; plan := new_plan |}.

(** The text is visible as it is, or goes to the plan parser. *)
Definition parse_visible_text (visible_text : str) (mode : bool) (plan : ProposedPlanParser)
    : ProposedPlanParser * AssistantTextChunk :=
  if mode then
    let '(plan, plan_chunk) := push_str visible_text plan in
    (plan, {| visible := StreamText.visible_text plan_chunk; citations := [];
              plan_segments := extracted plan_chunk |})
  else (plan, {| visible := visible_text; citations := []; plan_segments := [] |}).

Definition assistant_push (chunk : str) (p : AssistantTextStreamParser)
    : AssistantTextStreamParser * AssistantTextChunk :=
  let '(c, citation_chunk) := push_str chunk (citation p) in
  let '(pl, out) := parse_visible_text (visible_text citation_chunk) (plan_mode p) (plan p) in
  ({| plan_mode := plan_mode p; citation := c; plan := pl |},
   {| visible := visible out; citations := extracted citation_chunk;
      plan_segments := plan_segments out |}).

Definition assistant_finish (p : AssistantTextStreamParser)
    : AssistantTextStreamParser * AssistantTextChunk :=
  let '(c, citation_chunk) := finish (citation p) in
  let '(pl, out) := parse_visible_text (visible_text citation_chunk) (plan_mode p) (plan p) in
  let '(pl, out) :=
    if plan_mode p then
      let '(pl, tail) := finish pl in
      (pl, if StreamText.is_empty tail then out
           else {| visible := visible out ++ visible_text tail; citations := citations out;
                   plan_segments := plan_segments out ++ extracted tail |})
    else (pl, out) in
  ({| plan_mode := plan_mode p; citation := c; plan := pl |},
   {| visible := visible out; citations := extracted citation_chunk;
      plan_segments := plan_segments out |}).

(** ** Whole messages *)

Definition append_chunk (a b : AssistantTextChunk) : AssistantTextChunk :=
  {| visible := visible a ++ visible b; citations := citations a ++ citations b;
     plan_segments := plan_segments a ++ plan_segments b |}.

(** What a consumer has seen after the chunks and the end of the message. *)
Fixpoint consume (chunks : list str) (p : AssistantTextStreamParser) : AssistantTextChunk :=
  match chunks with
  | [] => (assistant_finish p).2
  | c :: chunks => let '(p, out) := assistant_push c p in append_chunk out (consume chunks p)
  end.

(** What one pass per markup gives: citations first, then plans in what is visible. *)
Definition message_reference (mode : bool) (text : str) (out : AssistantTextChunk) : Prop :=
  let '(without_citations, cited) := strip_citations text in
  citations out = cited /\
  if mode then
    visible out = strip_proposed_plan_blocks without_citations /\
    plan_events (plan_segments out) = plan_reference without_citations
  else visible out = without_citations /\ plan_segments out = [].

(** The citation parser and the plan parser run side by side on the same chunks. *)
Lemma is_empty_true {T} (c : StreamTextChunk T) : StreamText.is_empty c = true -> c = default_chunk.
Proof.
  unfold StreamText.is_empty. rewrite andb_true_iff, !bool_decide_eq_true.
  destruct c as [v e]. simpl. intros [-> ?%length_zero_iff_nil]. by subst.
Qed.

(** What the plan parser has produced when it is fed the texts [ts] and closed. *)
Lemma consume_parts (mode : bool) (chunks : list str) (c : CitationStreamParser)
    (pl : ProposedPlanParser) :
  let out := consume chunks {| plan_mode := mode; citation := c; plan := pl |} in
  let cs := collect_chunks chunks c in
  exists ts, concat ts = visible_text cs /\ citations out = extracted cs /\
  if mode then
    visible out = visible_text (collect_chunks ts pl) /\
    plan_segments out = extracted (collect_chunks ts pl)
  else visible out = concat ts /\ plan_segments out = [].
Proof.
  revert c pl. induction chunks as [|x chunks IH]; intros c pl; cbv zeta.
  - rewrite collect_nil. unfold consume, assistant_finish. cbn [citation plan_mode plan].
    destruct (finish c) as [c' o]. exists [visible_text o]. cbn [concat snd].
    rewrite app_nil_r. split; [done|]. unfold parse_visible_text. destruct mode; [|done].
    rewrite collect_cons, collect_nil. destruct (push_str (visible_text o) pl) as [pl1 po].
    cbn [fst snd]. destruct (finish pl1) as [pl2 tail]. simpl.
    destruct (StreamText.is_empty tail) eqn:E; [|done].
    apply is_empty_true in E as ->. simpl. by rewrite !app_nil_r.
  - rewrite collect_cons. cbn [consume]. unfold assistant_push. cbn [citation plan_mode plan].
    destruct (push_str x c) as [c1 o1]. unfold parse_visible_text. cbn [fst snd]. destruct mode.
    + destruct (push_str (visible_text o1) pl) as [pl1 po] eqn:Ep.
      destruct (IH c1 pl1) as (ts & Hts & Hc & Hv & Hs). exists (visible_text o1 :: ts).
      rewrite collect_cons, Ep. simpl. by rewrite Hts, Hc, Hv, Hs.
    + destruct (IH c1 pl) as (ts & Hts & Hc & Hv & Hs). exists (visible_text o1 :: ts).
      simpl. by rewrite Hts, Hc, Hv, Hs, Hts.
Qed.

(** A message, in any chunks, is parsed as in two passes over the whole of it: the
    citations are those of the message, and the text and the plans are those that the
    plan parser finds in the message without its citations. *)
Theorem assistant_two_passes (mode : bool) (chunks : list str) :
  message_reference mode (concat chunks) (consume chunks (new mode)).
Proof.
  unfold message_reference, new.
  destruct (consume_parts mode chunks new_citation new_plan) as (ts & Hts & Hc & Hm).
  assert (collect_chunks chunks new_citation =
    {| visible_text := (strip_citations (concat chunks)).1;
       extracted := (strip_citations (concat chunks)).2 |}) as E by apply collect_citations.
  rewrite E in Hts, Hc. destruct (strip_citations (concat chunks)) as [v cited]. simpl in *.
  split; [done|]. destruct mode.
  - destruct Hm as [-> ->]. pose proof (collect_plans ts) as (He & Hv & Hs & _).
    rewrite Hts in *. by rewrite Hv, Hs.
  - by rewrite <- Hts.
Qed.

End AssistantText.
