(* ===== verification/Utf8Stream.v ===== *)
(** * A stream of bytes: src/utils/common/src/stream_parser/utf8_stream.rs

    The parser of bytes wraps any parser of text; what is proved of it uses only what
    the interface [ChunkLaws] promises. *)

From Stdlib Require Import Ascii String.
From S2P Require Import Prelude RustStr Utf8 StreamText InlineTag.
Import Utf8 StreamText.

Module Utf8Stream.

Inductive Utf8StreamParserError :=
| InvalidUtf8 (valid_up_to error_len : nat)
| IncompleteUtf8AtEof.

Record Utf8StreamParser (P : Type) := { inner : P; pending_utf8 : list N }.
Arguments inner {P} _.
Arguments pending_utf8 {P} _.
Arguments Build_Utf8StreamParser {P} _ _.

Section Parser.
Context {P T : Type} `{StreamTextParser P T}.

Definition new (i : P) : Utf8StreamParser P := {| inner := i; pending_utf8 := [] |}.

(** [err.error_len().unwrap_or(0)] *)
Definition error_len_or_0 (v : verdict) : nat :=
  match v with Invalid n => n | _ => 0 end.

Definition push_bytes (chunk : list N) (p : Utf8StreamParser P)
    : Utf8StreamParser P * result Utf8StreamParserError (StreamTextChunk T) :=
  let old_len := length (pending_utf8 p) in
  let buffer := pending_utf8 p ++ chunk in
  let truncated := {| inner := inner p; pending_utf8 := take old_len buffer |} in
  match outcome (decode buffer) with
  | Valid =>
      let '(i, out) := push_str (text (decode buffer)) (inner p) in
      ({| inner := i; pending_utf8 := [] |}, Ok out)
  | Invalid error_len =>
      (truncated, Err (InvalidUtf8 (valid_up_to (decode buffer)) error_len))
  | Incomplete =>
      let valid := valid_up_to (decode buffer) in
      if valid =? 0 then ({| inner := inner p; pending_utf8 := buffer |}, Ok default_chunk)
      else
        let prefix := decode (take valid buffer) in
        match outcome prefix with
        | Valid =>
            let '(i, out) := push_str (text prefix) (inner p) in
            ({| inner := i; pending_utf8 := drop valid buffer |}, Ok out)
        | v => (truncated, Err (InvalidUtf8 (valid_up_to prefix) (error_len_or_0 v)))
        end
  end.

Definition utf8_finish (p : Utf8StreamParser P)
    : Utf8StreamParser P * result Utf8StreamParserError (StreamTextChunk T) :=
  let d := decode (pending_utf8 p) in
  if bool_decide (pending_utf8 p = []) then
    let '(i, tail) := finish (inner p) in
    ({| inner := i; pending_utf8 := [] |}, Ok (chunk_app default_chunk tail))
  else
    match outcome d with
    | Valid =>
        let '(i, out) := push_str (text d) (inner p) in
        let '(i, tail) := finish i in
        ({| inner := i; pending_utf8 := [] |}, Ok (chunk_app out tail))
    | Invalid error_len => (p, Err (InvalidUtf8 (valid_up_to d) error_len))
    | Incomplete => (p, Err IncompleteUtf8AtEof)
    end.

Definition into_inner (p : Utf8StreamParser P) : result Utf8StreamParserError P :=
  let d := decode (pending_utf8 p) in
  if bool_decide (pending_utf8 p = []) then Ok (inner p)
  else
    match outcome d with
    | Valid => Ok (inner p)
    | Invalid error_len => Err (InvalidUtf8 (valid_up_to d) error_len)
    | Incomplete => Err IncompleteUtf8AtEof
    end.

Definition into_inner_lossy (p : Utf8StreamParser P) : P := inner p.

(** Feeding chunks of bytes until one is refused, and closing the stream. *)
Fixpoint feed (chunks : list (list N)) (p : Utf8StreamParser P)
    : result Utf8StreamParserError (StreamTextChunk T) :=
  match chunks with
  | [] => (utf8_finish p).2
  | c :: chunks =>
      match push_bytes c p with
      | (p, Ok out) => rest ← feed chunks p; Ok (chunk_app out rest)
      | (_, Err e) => Err e
      | (_, Crash c) => Crash c
      end
  end.

(** A chunk of bytes that is refused changes nothing: the parser is as it was
    before, and can be given other bytes. *)
Theorem refused_bytes_roll_back (chunk : list N) (p p' : Utf8StreamParser P)
    (e : Utf8StreamParserError) :
  push_bytes chunk p = (p', Err e) -> p' = p.
Proof.
  unfold push_bytes. rewrite take_app_length. destruct p as [i r]. simpl.
  destruct (outcome (decode (r ++ chunk))); [by destruct (push_str _ i)|by intros; simplify_eq|].
  destruct (valid_up_to _ =? 0); [done|]. rewrite decode_prefix. cbn [outcome text].
  by destruct (push_str _ i).
Qed.

End Parser.

Section Laws.
Context {P T : Type} `{ChunkLaws P T}.

(** What the buffer holds between two calls: nothing, or the start of a character. *)
Definition leftover (r : list N) : Prop :=
  text (decode r) = [] /\ valid_up_to (decode r) = 0 /\ (forall n, outcome (decode r) <> Invalid n).

Lemma decode_rest (v : list N) :
  (forall n, outcome (decode v) <> Invalid n) ->
  leftover (drop (valid_up_to (decode v)) v) /\
  outcome (decode (drop (valid_up_to (decode v)) v)) = outcome (decode v).
Proof.
  intros Hv. pose proof (decode_app v []) as Ha. rewrite !app_nil_r in Ha.
  assert (decode v = prepend (text (decode v)) (valid_up_to (decode v))
                       (decode (drop (valid_up_to (decode v)) v))) as E.
  { destruct (outcome (decode v)) eqn:Eo; [done|by destruct (Hv error_len)|done]. }
  set (d := decode (drop (valid_up_to (decode v)) v)) in *.
  assert (text (decode v) = text (decode v) ++ text d /\
          valid_up_to (decode v) = valid_up_to (decode v) + valid_up_to d /\
          outcome (decode v) = outcome d) as (Et & En & Eo) by by rewrite E at 1 3 5.
  split; [|done]. unfold leftover. fold d. split_and!; [|lia|by rewrite <- Eo].
  rewrite <- (app_nil_r (text (decode v))) in Et at 1. by apply app_inv_head in Et.
Qed.

Lemma decode_more (v w : list N) :
  (forall n, outcome (decode v) <> Invalid n) ->
  decode (v ++ w) = prepend (text (decode v)) (valid_up_to (decode v))
                      (decode (drop (valid_up_to (decode v)) v ++ w)).
Proof.
  intros Hv. pose proof (decode_app v w) as Ha.
  destruct (outcome (decode v)) eqn:Eo; [done|by destruct (Hv error_len)|done].
Qed.

Lemma valid_0_text (v : list N) : valid_up_to (decode v) = 0 -> text (decode v) = [].
Proof.
  intros E. pose proof (decode_prefix v) as Hp. rewrite E, take_0, decode_nil in Hp.
  by injection Hp as <-.
Qed.

(** A push that is not refused gives the parser inside the text it has decoded. *)
Lemma push_bytes_Ok (c : list N) (p : Utf8StreamParser P) :
  settled (inner p) -> (forall n, outcome (decode (pending_utf8 p ++ c)) <> Invalid n) ->
  let buffer := pending_utf8 p ++ c in
  let d := decode buffer in
  push_bytes c p =
  ({| inner := (push_str (text d) (inner p)).1; pending_utf8 := drop (valid_up_to d) buffer |},
   Ok (push_str (text d) (inner p)).2).
Proof.
  intros Hs Hv buffer d. unfold push_bytes. fold buffer. fold d in Hv |- *.
  destruct (outcome d) eqn:Eo; [|by destruct (Hv error_len)|].
  - destruct (push_str (text d) (inner p)). unfold d.
    by rewrite decode_valid_length, drop_all by done.
  - destruct (Nat.eqb_spec (valid_up_to d) 0) as [E|_].
    + rewrite (valid_0_text buffer E : text d = []), push_nil, E by done. done.
    + subst d. rewrite decode_prefix. cbn [outcome text].
      by destruct (push_str (text (decode buffer)) (inner p)).
Qed.

Lemma collect_split (x y : str) (i : P) :
  settled i ->
  chunk_equiv (collect_chunks [x ++ y] i)
    (chunk_app (push_str x i).2 (collect_chunks [y] (push_str x i).1)).
Proof.
  intros Hs. pose proof (collect_concat [x; y] i Hs) as Hc. simpl concat in Hc.
  rewrite app_nil_r in Hc. rewrite <- Hc. by rewrite collect_cons.
Qed.

Lemma push_bytes_Invalid (c : list N) (p : Utf8StreamParser P) (n : nat) :
  outcome (decode (pending_utf8 p ++ c)) = Invalid n ->
  exists p' off, push_bytes c p = (p', Err (InvalidUtf8 off n)).
Proof. unfold push_bytes. intros ->. eauto. Qed.

(** What feeding the chunks amounts to. *)
Definition feed_result (bytes : list N) (i : P)
    (r : result Utf8StreamParserError (StreamTextChunk T)) : Prop :=
  match outcome (decode bytes) with
  | Valid => exists out, r = Ok out /\
      chunk_equiv out (collect_chunks [text (decode bytes)] i)
  | Invalid n => exists off, r = Err (InvalidUtf8 off n)
  | Incomplete => r = Err IncompleteUtf8AtEof
  end.

Lemma feed_spec (chunks : list (list N)) (p : Utf8StreamParser P) :
  settled (inner p) -> leftover (pending_utf8 p) ->
  feed_result (pending_utf8 p ++ concat chunks) (inner p) (feed chunks p).
Proof.
  revert p. induction chunks as [|c chunks IH]; intros p Hs Hl; cbn [feed concat].
  - rewrite app_nil_r. unfold feed_result, utf8_finish. destruct p as [i r]. simpl in *.
    destruct Hl as (Ht & Hz & Hv). case_bool_decide as Hr.
    + subst. rewrite decode_nil. cbn [outcome text]. destruct (finish i) as [i' tl] eqn:Ef.
      exists (chunk_app default_chunk tl). split; [done|].
      rewrite collect_cons, collect_nil, push_nil by done. simpl. by rewrite Ef.
    + destruct (outcome (decode r)) eqn:Eo; [|by destruct (Hv error_len)|done].
      pose proof (decode_valid_length r Eo) as E. rewrite Hz in E. by destruct r.
  - assert ((exists n, outcome (decode (pending_utf8 p ++ c)) = Invalid n) \/
            (forall n, outcome (decode (pending_utf8 p ++ c)) <> Invalid n)) as [[n Hn]|Hv]
      by (destruct (outcome (decode (pending_utf8 p ++ c))); eauto; by right).
    + destruct (push_bytes_Invalid c p n Hn) as (p' & off & ->).
      unfold feed_result. rewrite app_assoc. pose proof (decode_app (pending_utf8 p ++ c) (concat chunks)) as Ha.
      rewrite Hn in Ha. rewrite Ha, Hn. eauto.
    + rewrite push_bytes_Ok by done. set (d := decode (pending_utf8 p ++ c)) in *.
      destruct (decode_rest _ Hv) as [Hl' _].
      pose proof (push_settled (text d) (inner p) Hs) as Hs'.
      specialize (IH {| inner := (push_str (text d) (inner p)).1;
                        pending_utf8 := drop (valid_up_to d) (pending_utf8 p ++ c) |} Hs' Hl').
      unfold feed_result in *. rewrite app_assoc, (decode_more _ _ Hv). fold d. simpl in IH |- *.
      destruct (outcome (decode (drop _ _ ++ concat chunks))).
      * destruct IH as (out & -> & Hout). eexists. split; [done|].
        rewrite collect_split by done. by rewrite Hout.
      * destruct IH as [off ->]. by exists off.
      * by rewrite IH.
Qed.

(** C40: how the bytes are cut into chunks does not matter, even inside a character: if
    together they are UTF-8, all are accepted and the output is that of the parser
    inside on the decoded text; if they stop in the middle of a character, closing the
    stream says so; and if they are not UTF-8, a chunk is refused with the length of
    the invalid sequence. *)
Theorem utf8_chunks_irrelevant (i : P) (chunks : list (list N)) :
  settled i -> feed_result (concat chunks) i (feed chunks (new i)).
Proof.
  intros Hi. apply (feed_spec chunks (new i) Hi). unfold leftover. simpl. by split_and!.
Qed.

End Laws.

(** ** Examples with the citation parser *)

Import InlineTag InlineTagFacts.

(** An opening tag followed by the two bytes of a letter with an accent. *)
Definition sample_bytes : list N := encode (CITATION_OPEN ++ [233%N]).

Lemma utf8_chunks_irrelevant_witness :
  feed_result (concat [take 3 sample_bytes; drop 3 (take 19 sample_bytes); drop 19 sample_bytes])
    new_citation
    (feed [take 3 sample_bytes; drop 3 (take 19 sample_bytes); drop 19 sample_bytes]
       (Utf8Stream.new new_citation)).
Proof. exact (utf8_chunks_irrelevant new_citation _ new_citation_settled). Defined.

End Utf8Stream.
