(* ===== verification/AccessGrants.v ===== *)
(** * Additional permissions: src/core/src/access_policy_transforms.rs

    A call may ask for permissions beyond those of the session, and the user may grant
    some for a turn or for the session. [AccessTransforms] has the operations on such
    permissions: their normal form, their union, what of a request was granted, and the
    policies that result. [AccessGrants] is what a session does with them
    (src/core/src/tools/handlers/{mod,apply_patch,shell,unified_exec}.rs,
    src/core/src/session/mod.rs, src/core/src/state/{turn,session}.rs): requests and
    answers, the grants that are kept, and which permissions a call runs with. *)

From Stdlib Require Import Ascii String.
From stdpp Require Import sorting.
From S2P Require Import Prelude RustStr AbsPath FsPolicy FsRoots Approval.
Import AbsPath FsPolicy FsRoots FsProfile Approval.

Module AccessTransforms.

(** ** models.rs: additional permissions *)

Record NetworkPermissions := { net_enabled : option bool }.

Definition network_is_empty (n : NetworkPermissions) : bool :=
  match net_enabled n with None => true | Some _ => false end.

Record AdditionalPermissionProfile := {
  network : option NetworkPermissions;
  file_system : option FileSystemPermissions;
}.

(** The derived [Default]. *)
Definition no_permissions : AdditionalPermissionProfile :=
  {| network := None; file_system := None |}.

Definition profile_is_empty (p : AdditionalPermissionProfile) : bool :=
  match network p, file_system p with None, None => true | _, _ => false end.

Definition non_empty {A} (is_empty : A -> bool) (o : option A) : option A :=
  match o with Some x => if is_empty x then None else Some x | None => None end.

(** The derived [==]; lists of entries are compared in order. *)
Fixpoint entries_eqb (ls rs : list FileSystemAccessEntry) : bool :=
  match ls, rs with
  | [], [] => true
  | l :: ls, r :: rs => entry_eqb l r && entries_eqb ls rs
  | _, _ => false
  end.

Definition file_system_eqb (left right : FileSystemPermissions) : bool :=
  entries_eqb (perm_entries left) (perm_entries right)
  && bool_decide (perm_depth left = perm_depth right).

Definition option_eqb {A} (eqb : A -> A -> bool) (left right : option A) : bool :=
  match left, right with
  | Some l, Some r => eqb l r
  | None, None => true
  | _, _ => false
  end.

Definition profile_eqb (left right : AdditionalPermissionProfile) : bool :=
  option_eqb (fun l r => bool_decide (net_enabled l = net_enabled r)) (network left) (network right)
  && option_eqb file_system_eqb (file_system left) (file_system right).

(** [Vec::contains], and pushing what is not contained. *)
Definition contains_entry (es : list FileSystemAccessEntry) (e : FileSystemAccessEntry) : bool :=
  existsb (fun existing => entry_eqb existing e) es.

Definition push_new (es : list FileSystemAccessEntry) (e : FileSystemAccessEntry)
    : list FileSystemAccessEntry := if contains_entry es e then es else es ++ [e].

Definition is_glob (p : FileSystemPath) : bool :=
  match p with GlobPattern _ => true | _ => false end.

(** ** Depths of scans *)

Inductive GlobScanDepth := Bounded (depth : nat) | Unbounded.

Definition effective_glob_scan_depth (es : list FileSystemAccessEntry) (depth : option nat)
    : option GlobScanDepth :=
  if existsb (fun e => bool_decide (access e = NoAccess) && is_glob (entry_path e)) es
  then Some (match depth with Some depth => Bounded depth | None => Unbounded end)
  else None.

Definition merge_glob_scan_max_depth (left_entries : list FileSystemAccessEntry)
    (left_depth : option nat) (right_entries : list FileSystemAccessEntry)
    (right_depth : option nat) : option nat :=
  match effective_glob_scan_depth left_entries left_depth,
        effective_glob_scan_depth right_entries right_depth with
  | Some Unbounded, _ | _, Some Unbounded => None
  | Some (Bounded l), Some (Bounded r) => Some (Nat.max l r)
  | Some (Bounded depth), None | None, Some (Bounded depth) => Some depth
  | None, None => None
  end.

(** [usize::from] of a depth, and [NonZeroUsize::new]. *)
Definition depth_nat (depth : option positive) : option nat := Pos.to_nat <$> depth.

Definition depth_nonzero (depth : option nat) : option positive := d ← depth; nonzero d.

(** ** Unions *)

Definition merge_permission_entries (base permissions : list FileSystemAccessEntry)
    : list FileSystemAccessEntry := fold_left push_new (base ++ permissions) [].

Definition network_granted (n : option NetworkPermissions) : bool :=
  match n with Some {| net_enabled := Some true |} => true | _ => false end.

Definition enabled_network : NetworkPermissions := {| net_enabled := Some true |}.

Definition merge_permission_profiles (base permissions : option AdditionalPermissionProfile)
    : option AdditionalPermissionProfile :=
  match permissions with
  | None => base
  | Some permissions =>
      match base with
      | Some base =>
          let network :=
            if network_granted (network base) || network_granted (network permissions)
            then Some enabled_network else None in
          let file_system :=
            match file_system base, file_system permissions with
            | Some base, Some permissions =>
                non_empty permissions_is_empty (Some {|
                  perm_entries := merge_permission_entries (perm_entries base) (perm_entries permissions);
                  perm_depth := depth_nonzero
                    (merge_glob_scan_max_depth (perm_entries base) (depth_nat (perm_depth base))
                       (perm_entries permissions) (depth_nat (perm_depth permissions))) |})
            | Some base, None => Some base
            | None, Some permissions => Some permissions
            | None, None => None
            end in
          non_empty profile_is_empty (Some {| network := network; file_system := file_system |})
      | None => non_empty profile_is_empty (Some permissions)
      end
  end.

(** ** Policies with additional permissions *)

Definition merge_file_system_policy_with_additional_permissions
    (file_system_policy : FileSystemAccessPolicy) (additional_permissions : FileSystemPermissions)
    : FileSystemAccessPolicy :=
  match policy_kind file_system_policy with
  | Restricted =>
      {| policy_kind := Restricted;
         glob_scan_max_depth :=
           merge_glob_scan_max_depth (entries file_system_policy)
             (glob_scan_max_depth file_system_policy) (perm_entries additional_permissions)
             (depth_nat (perm_depth additional_permissions));
         entries := fold_left push_new (perm_entries additional_permissions)
                      (entries file_system_policy) |}
  | Unrestricted | External => file_system_policy
  end.

Definition effective_file_system_access_policy (file_system_policy : FileSystemAccessPolicy)
    (additional_permissions : option AdditionalPermissionProfile) : FileSystemAccessPolicy :=
  match additional_permissions with
  | None => file_system_policy
  | Some additional_permissions =>
      match file_system additional_permissions with
      | None => file_system_policy
      | Some file_system_permissions =>
          if permissions_is_empty file_system_permissions then file_system_policy
          else merge_file_system_policy_with_additional_permissions file_system_policy
                 file_system_permissions
      end
  end.

Definition merge_network_access (base_network_access : bool)
    (additional_permissions : AdditionalPermissionProfile) : bool :=
  base_network_access
  || default false (n ← network additional_permissions; net_enabled n).

Definition effective_network_access_policy (network_policy : NetworkAccessPolicy)
    (additional_permissions : option AdditionalPermissionProfile) : NetworkAccessPolicy :=
  match additional_permissions with
  | Some permissions =>
      if merge_network_access (is_enabled network_policy) permissions
      then NetworkEnabled else NetworkRestricted
  | None => network_policy
  end.

Section OnHost.
Context (H : Host).

Definition effective_permission_profile (permission_profile : PermissionProfile)
    (additional_permissions : option AdditionalPermissionProfile)
    : result Empty_set PermissionProfile :=
  let '(file_system_policy, network_policy) := to_runtime_permissions H permission_profile in
  from_runtime_permissions_with_filesystem_isolation (filesystem_isolation permission_profile)
    (effective_file_system_access_policy file_system_policy additional_permissions)
    (effective_network_access_policy network_policy additional_permissions).

(** ** The normal form of a request *)

Definition normalize_entry_path (path : FileSystemPath) : FileSystemPath :=
  match path with
  | Path path =>
      Path (match canonicalize_preserving_symlinks (home_dir H) (current_dir H) (canonicalize H)
                    (symlink_metadata H) path with
            | Ok canonical => default path (absolute H canonical)
            | _ => path
            end)
  | path => path
  end.

Fixpoint normalize_entries (es acc : list FileSystemAccessEntry)
    : result str (list FileSystemAccessEntry) :=
  match es with
  | [] => Ok acc
  | e :: es =>
      if is_glob (entry_path e) && negb (bool_decide (access e = NoAccess))
      then Err (lit "glob file system permissions only support deny-read entries")
      else normalize_entries es (push_new acc (entry (normalize_entry_path (entry_path e)) (access e)))
  end.

Definition normalize_additional_permissions (additional_permissions : AdditionalPermissionProfile)
    : result str AdditionalPermissionProfile :=
  let network := non_empty network_is_empty (network additional_permissions) in
  file_system ←
    match file_system additional_permissions with
    | Some file_system =>
        entries ← normalize_entries (perm_entries file_system) [];
        Ok (non_empty permissions_is_empty
              (Some {| perm_entries := entries; perm_depth := perm_depth file_system |}))
    | None => Ok None
    end;
  Ok {| network := network; file_system := file_system |}.

(** ** What of a request was granted *)

Definition resolve_permission_path (path : FileSystemPath) (cwd : str) : option str :=
  match path with
  | Path path => Some path
  | GlobPattern _ => None
  | Special Root => root ← last (ancestors cwd); absolute H root
  | Special (ProjectRoots subpath) =>
      cwd ← absolute H cwd;
      Some (match subpath with
            | Some subpath => resolve_path_against_base (home_dir H) subpath cwd
            | None => cwd
            end)
  | Special Tmpdir => tmpdir ← tmpdir H; if str_eqb tmpdir [] then None else absolute H tmpdir
  | Special SlashTmp =>
      slash_tmp ← absolute H (lit "/tmp"); if is_dir H slash_tmp then Some slash_tmp else None
  | Special Minimal | Special (Unknown _ _) => None
  end.

Definition materialize_cwd_dependent_entry (e : FileSystemAccessEntry) (cwd : str)
    : FileSystemAccessEntry :=
  match entry_path e with
  | Special (ProjectRoots _) =>
      match resolve_permission_path (entry_path e) cwd with
      | Some path => entry (Path path) (access e)
      | None => e
      end
  | GlobPattern pattern =>
      entry (GlobPattern (resolve_path_against_base (home_dir H) pattern cwd)) (access e)
  | _ => e
  end.

Definition access_covers (requested granted : FileSystemAccessMode) : bool :=
  match granted with
  | Read => can_read requested
  | Write => can_write requested
  | NoAccess => false
  end.

Definition paths_overlap (left right : str) : bool :=
  path_starts_with left right || path_starts_with right left.

(** The text before the first of the characters, if one occurs. *)
Fixpoint before_any (cs : list char) (s : str) : option str :=
  match s with
  | [] => None
  | c :: s => if existsb (N.eqb c) cs then Some [] else cons c <$> before_any cs s
  end.

Definition glob_static_prefix_path (pattern cwd : str) : option str :=
  let resolved_pattern := resolve_path_against_base (home_dir H) pattern cwd in
  prefix ←
    match before_any [ch "*"; ch "?"; ch "["; ch "]"] resolved_pattern with
    | Some [] => None
    | Some prefix =>
        if ends_with [SLASH] prefix || ends_with (lit "\") prefix
        then Some prefix else parent prefix
    | None => Some resolved_pattern
    end;
  absolute H prefix.

Definition deny_entry_constrains_accepted_grant (deny_entry : FileSystemAccessEntry)
    (accepted_entries : list FileSystemAccessEntry) (cwd : str) : bool :=
  existsb (fun e =>
    match resolve_permission_path (entry_path e) cwd with
    | None => false
    | Some grant_path =>
        match entry_path deny_entry with
        | GlobPattern pattern =>
            match glob_static_prefix_path pattern cwd with
            | Some prefix => paths_overlap prefix grant_path
            | None => false
            end
        | _ =>
            match resolve_permission_path (entry_path deny_entry) cwd with
            | Some deny_path => paths_overlap deny_path grant_path
            | None => false
            end
        end
    end) (List.filter (fun e => can_read (access e)) accepted_entries).

(** The denying entries that constrain a grant: the output with them, and they alone. *)
Definition retain_constraining_deny_entries (source_entries accepted_entries : list FileSystemAccessEntry)
    (cwd : str) (output_entries : list FileSystemAccessEntry)
    : list FileSystemAccessEntry * list FileSystemAccessEntry :=
  let retained_entries :=
    map (fun e => materialize_cwd_dependent_entry e cwd)
      (List.filter (fun e => bool_decide (access e = NoAccess)
                             && deny_entry_constrains_accepted_grant e accepted_entries cwd)
         source_entries) in
  (fold_left push_new retained_entries output_entries, retained_entries).

Section Matcher.
(** As in [FsRoots]: the matcher of a pattern, when the crate [globset] accepts it. *)
Context (build_glob_matcher : str -> option (str -> bool)).

Definition granted_file_system_entry_within_request (requested : FileSystemPermissions)
    (requested_policy : FileSystemAccessPolicy)
    (requested_read_deny_matcher : option ReadDenyMatcher)
    (granted_entry : FileSystemAccessEntry) (cwd : str) : bool :=
  if negb (can_read (access granted_entry)) then false
  else
    match resolve_permission_path (entry_path granted_entry) cwd with
    | Some path =>
        if match requested_read_deny_matcher with
           | Some matcher => is_read_denied H matcher path
           | None => false
           end
        then false
        else access_covers (resolve_access_with_cwd H requested_policy path cwd) (access granted_entry)
    | None =>
        existsb (fun requested_entry =>
          access_covers (access requested_entry) (access granted_entry)
          && file_system_path_eqb (entry_path requested_entry) (entry_path granted_entry))
          (perm_entries requested)
    end.

Definition accepted_grants (requested granted : FileSystemPermissions) (cwd : str)
    : list FileSystemAccessEntry :=
  let requested_policy := restricted (perm_entries requested) in
  let requested_read_deny_matcher :=
    new_read_deny_matcher H build_glob_matcher requested_policy cwd in
  fold_left push_new
    (map (fun e => materialize_cwd_dependent_entry e cwd)
       (List.filter (fun e => granted_file_system_entry_within_request requested requested_policy
                                requested_read_deny_matcher e cwd) (perm_entries granted))) [].

Definition no_file_system : FileSystemPermissions := {| perm_entries := []; perm_depth := None |}.

Definition intersect_file_systems (requested granted : FileSystemPermissions) (cwd : str)
    : FileSystemPermissions :=
  let accepted_entries := accepted_grants requested granted cwd in
  let '(entries, requested_retained_deny_entries) :=
    retain_constraining_deny_entries (perm_entries requested) accepted_entries cwd accepted_entries in
  let '(entries, granted_retained_deny_entries) :=
    retain_constraining_deny_entries (perm_entries granted) accepted_entries cwd entries in
  {| perm_depth := depth_nonzero
       (merge_glob_scan_max_depth requested_retained_deny_entries (depth_nat (perm_depth requested))
          granted_retained_deny_entries (depth_nat (perm_depth granted)));
     perm_entries := entries |}.

Definition intersect_permission_profiles (requested granted : AdditionalPermissionProfile) (cwd : str)
    : AdditionalPermissionProfile :=
  {| file_system :=
       non_empty permissions_is_empty
         ((fun requested => intersect_file_systems requested (default no_file_system (file_system granted)) cwd)
            <$> file_system requested);
     network := if network_granted (network requested) && network_granted (network granted)
                then Some enabled_network else None |}.

End Matcher.
End OnHost.

End AccessTransforms.

Module AccessGrants.
Export AccessTransforms.

(** ** request_permissions.rs, protocol.rs: requests and answers

    A [RequestPermissionProfile] has the fields of an [AdditionalPermissionProfile], to
    and from which it is converted. *)

Inductive PermissionGrantScope := GrantTurn | GrantSession.

Record RequestPermissionsResponse := {
  permissions : AdditionalPermissionProfile;
  scope : PermissionGrantScope;
  strict_auto_review : bool;
}.

Definition denied_response : RequestPermissionsResponse :=
  {| permissions := no_permissions; scope := GrantTurn; strict_auto_review := false |}.

Inductive NetworkPolicyRuleAction := ActionAllow | ActionDeny.

Inductive ReviewDecision :=
| Approved
| ApprovedExecpolicyAmendment (proposed_execpolicy_amendment : ExecPolicyAmendment)
| ApprovedForSession
| NetworkPolicyAmendment (amendment_host : str) (action : NetworkPolicyRuleAction)
| Denied
| TimedOut
| Abort.

(** ** session/mod.rs: asking *)

(** The answer that is given without asking. *)
Definition answer_without_asking (approval_policy : AskForApproval)
    : option RequestPermissionsResponse :=
  match approval_policy with
  | Never => Some denied_response
  | Granular granular_config =>
      if negb (request_permissions granular_config) then Some denied_response else None
  | OnFailure | OnRequest | UnlessTrusted => None
  end.

Definition review_response (decision : ReviewDecision)
    (requested_permissions : AdditionalPermissionProfile) : RequestPermissionsResponse :=
  let approved scope :=
    {| permissions := requested_permissions; scope := scope; strict_auto_review := false |} in
  match decision with
  | Approved | ApprovedExecpolicyAmendment _ => approved GrantTurn
  | ApprovedForSession => approved GrantSession
  | NetworkPolicyAmendment _ ActionAllow => approved GrantTurn
  | NetworkPolicyAmendment _ ActionDeny => denied_response
  | Abort | Denied | TimedOut => denied_response
  end.

Section OnHost.
Context (H : Host) (build_glob_matcher : str -> option (str -> bool)).

Definition normalize_request_permissions_response (requested_permissions : AdditionalPermissionProfile)
    (response : RequestPermissionsResponse) (cwd : str) : RequestPermissionsResponse :=
  if strict_auto_review response && match scope response with GrantSession => true | GrantTurn => false end
  then denied_response
  else if profile_is_empty (permissions response) then response
  else {| permissions := intersect_permission_profiles H build_glob_matcher requested_permissions
                           (permissions response) cwd;
          scope := scope response;
          strict_auto_review := strict_auto_review response |}.

(** ** The state: state/turn.rs, state/session.rs

    The state of a turn is shared: a task that grants something keeps a reference to the
    turn it started in. [turns] is the store of these objects, [active_turn] the one that
    runs. [tasks] are the tasks under way: a review by the guardian, and an answer that
    is still to be recorded. *)

Record TurnState := {
  pending_request_permissions : gmap str (AdditionalPermissionProfile * str);
  granted_permissions : option AdditionalPermissionProfile;
  strict_auto_review_enabled : bool;
}.

Definition new_turn_state : TurnState :=
  {| pending_request_permissions := ∅; granted_permissions := None;
     strict_auto_review_enabled := false |}.

Inductive Task :=
| Reviewing (requested_permissions : AdditionalPermissionProfile) (cwd : str)
    (originating_turn_state : option nat)
| Recording (response : RequestPermissionsResponse) (originating_turn_state : option nat).

Record World := {
  session_granted_permissions : option AdditionalPermissionProfile;
  turns : gmap nat TurnState;
  active_turn : option nat;
  tasks : gmap nat Task;
}.

Definition initial : World :=
  {| session_granted_permissions := None; turns := ∅; active_turn := None; tasks := ∅ |}.

Definition with_turn (t : nat) (s : TurnState) (w : World) : World :=
  {| session_granted_permissions := session_granted_permissions w; turns := <[t := s]> (turns w);
     active_turn := active_turn w; tasks := tasks w |}.

Definition with_active (active : option nat) (w : World) : World :=
  {| session_granted_permissions := session_granted_permissions w; turns := turns w;
     active_turn := active; tasks := tasks w |}.

Definition with_tasks (ts : gmap nat Task) (w : World) : World :=
  {| session_granted_permissions := session_granted_permissions w; turns := turns w;
     active_turn := active_turn w; tasks := ts |}.

Definition with_session_grants (granted : option AdditionalPermissionProfile) (w : World) : World :=
  {| session_granted_permissions := granted; turns := turns w;
     active_turn := active_turn w; tasks := tasks w |}.

Definition with_pending (pending : gmap str (AdditionalPermissionProfile * str)) (s : TurnState)
    : TurnState :=
  {| pending_request_permissions := pending; granted_permissions := granted_permissions s;
     strict_auto_review_enabled := strict_auto_review_enabled s |}.

Definition clear_pending (s : TurnState) : TurnState := with_pending ∅ s.

(** [record_granted_permissions] and [enable_strict_auto_review] of a turn. *)
Definition record_in_turn (response : RequestPermissionsResponse) (s : TurnState) : TurnState :=
  {| pending_request_permissions := pending_request_permissions s;
     granted_permissions :=
       merge_permission_profiles (granted_permissions s) (Some (permissions response));
     strict_auto_review_enabled :=
       if strict_auto_review response then true else strict_auto_review_enabled s |}.

Definition record_granted_request_permissions_for_turn (response : RequestPermissionsResponse)
    (originating_turn_state : option nat) (w : World) : World :=
  if profile_is_empty (permissions response) then w
  else
    match scope response with
    | GrantTurn =>
        match originating_turn_state with
        | Some t =>
            match turns w !! t with
            | Some s => with_turn t (record_in_turn response s) w
            | None => w
            end
        | None => w
        end
    | GrantSession =>
        with_session_grants
          (merge_permission_profiles (session_granted_permissions w) (Some (permissions response))) w
    end.

Definition granted_turn_permissions (w : World) : option AdditionalPermissionProfile :=
  t ← active_turn w; s ← turns w !! t; granted_permissions s.

Definition granted_session_permissions (w : World) : option AdditionalPermissionProfile :=
  session_granted_permissions w.

(** What the user, or the guardian in place of the user, answered to which request. *)
Record Answer := {
  answered_request : AdditionalPermissionProfile;
  answer : AdditionalPermissionProfile;
  answered_cwd : str;
}.

(** One section of a task, between taking a lock and releasing it. A step that answers a
    request carries the answer. *)
Inductive step (w : World) : option Answer -> World -> Prop :=
(* tasks/mod.rs: a turn starts, ends, or is aborted *)
| step_start t :
    turns w !! t = None -> active_turn w = None ->
    step w None (with_active (Some t) (with_turn t new_turn_state w))
| step_end : step w None (with_active None w)
| step_clear t s :
    turns w !! t = Some s -> step w None (with_turn t (clear_pending s) w)
(* [request_permissions_for_cwd]: asking the user, and giving up *)
| step_ask policy t s call_id requested cwd :
    answer_without_asking policy = None ->
    active_turn w = Some t -> turns w !! t = Some s ->
    step w None (with_turn t
      (with_pending (<[call_id := (requested, cwd)]> (pending_request_permissions s)) s) w)
| step_cancel t s call_id :
    active_turn w = Some t -> turns w !! t = Some s ->
    step w None (with_turn t (with_pending (delete call_id (pending_request_permissions s)) s) w)
(* [notify_request_permissions_response] *)
| step_answer k t s call_id requested cwd response :
    tasks w !! k = None ->
    active_turn w = Some t -> turns w !! t = Some s ->
    pending_request_permissions s !! call_id = Some (requested, cwd) ->
    step w (Some {| answered_request := requested; answer := permissions response;
                    answered_cwd := cwd |})
      (with_tasks (<[k := Recording (normalize_request_permissions_response requested response cwd)
                            (Some t)]> (tasks w))
        (with_turn t (with_pending (delete call_id (pending_request_permissions s)) s) w))
(* [request_permissions_for_cwd]: asking the guardian *)
| step_review policy k requested cwd :
    answer_without_asking policy = None -> tasks w !! k = None ->
    step w None (with_tasks (<[k := Reviewing requested cwd (active_turn w)]> (tasks w)) w)
| step_reviewed k requested cwd origin decision :
    tasks w !! k = Some (Reviewing requested cwd origin) ->
    step w (Some {| answered_request := requested;
                    answer := permissions (review_response decision requested);
                    answered_cwd := cwd |})
      (with_tasks (<[k := Recording (normalize_request_permissions_response requested
                            (review_response decision requested) cwd) origin]> (tasks w)) w)
| step_review_cancelled k requested cwd origin :
    tasks w !! k = Some (Reviewing requested cwd origin) ->
    step w None (with_tasks (delete k (tasks w)) w)
(* [record_granted_request_permissions_for_turn] *)
| step_record k response origin :
    tasks w !! k = Some (Recording response origin) ->
    step w None (with_tasks (delete k (tasks w))
      (record_granted_request_permissions_for_turn response origin w)).

(** The worlds that a session gets to, with the answers so far. *)
Inductive reachable : list Answer -> World -> Prop :=
| reachable_initial : reachable [] initial
| reachable_step answers w label w' :
    reachable answers w -> step w label w' -> reachable (answers ++ option_list label) w'.

(** ** tools/handlers/mod.rs: the permissions of a call *)

(** [{:?}] of a setting. *)
Context (debug_policy : AskForApproval -> str).

Definition EM_DASH : char := 0x2014%N.

Definition is_on_request (policy : AskForApproval) : bool :=
  match policy with OnRequest => true | _ => false end.

Definition normalize_and_validate_additional_permissions (additional_permissions_allowed : bool)
    (approval_policy : AskForApproval) (permission_level : ExecutionPermissionLevel)
    (additional_permissions : option AdditionalPermissionProfile) (permissions_preapproved : bool)
    : result str (option AdditionalPermissionProfile) :=
  let uses := uses_additional_permissions permission_level in
  let requested := match additional_permissions with Some _ => true | None => false end in
  if negb permissions_preapproved && negb additional_permissions_allowed && (uses || requested)
  then Err (lit "additional permissions are disabled; enable `features.exec_permission_approvals` before using `with_additional_permissions`")
  else if uses then
    if negb permissions_preapproved && negb (is_on_request approval_policy)
    then Err (lit "approval policy is " ++ debug_policy approval_policy ++ lit "; reject command "
              ++ [EM_DASH] ++ lit " you cannot request additional permissions unless the approval policy is OnRequest")
    else
      match additional_permissions with
      | None => Err (lit "missing `additional_permissions`; provide at least one of `network` or `file_system` when using `with_additional_permissions`")
      | Some additional_permissions =>
          normalized ← normalize_additional_permissions H additional_permissions;
          if profile_is_empty normalized
          then Err (lit "`additional_permissions` must include at least one requested permission in `network` or `file_system`")
          else Ok (Some normalized)
      end
  else if requested
  then Err (lit "`additional_permissions` requires `permission_level` set to `with_additional_permissions`")
  else Ok None.

Record EffectiveAdditionalPermissions := {
  permission_level : ExecutionPermissionLevel;
  additional_permissions : option AdditionalPermissionProfile;
  permissions_preapproved : bool;
}.

Definition implicit_granted_permissions (level : ExecutionPermissionLevel)
    (requested : option AdditionalPermissionProfile) (effective : EffectiveAdditionalPermissions)
    : option AdditionalPermissionProfile :=
  if negb (uses_additional_permissions level) && negb (requires_escalated_permissions level)
     && match requested with None => true | Some _ => false end
  then additional_permissions effective
  else None.

Definition permissions_are_preapproved (effective_permissions granted_permissions : AdditionalPermissionProfile)
    (cwd : str) : bool :=
  let materialized_effective_permissions :=
    intersect_permission_profiles H build_glob_matcher effective_permissions effective_permissions cwd in
  profile_eqb
    (intersect_permission_profiles H build_glob_matcher effective_permissions granted_permissions cwd)
    materialized_effective_permissions.

(** The two grants are read one after the other: they are arguments. *)
Definition apply_granted_turn_permissions
    (granted_session_permissions granted_turn_permissions : option AdditionalPermissionProfile)
    (cwd : str) (level : ExecutionPermissionLevel) (requested : option AdditionalPermissionProfile)
    : EffectiveAdditionalPermissions :=
  if requires_escalated_permissions level
  then {| permission_level := level; additional_permissions := requested;
          permissions_preapproved := false |}
  else
    let granted_permissions :=
      merge_permission_profiles granted_session_permissions granted_turn_permissions in
    let effective_permissions := merge_permission_profiles requested granted_permissions in
    {| permission_level :=
         if match effective_permissions with Some _ => true | None => false end
            && negb (uses_additional_permissions level)
         then WithAdditionalPermissions else level;
       additional_permissions := effective_permissions;
       permissions_preapproved :=
         match effective_permissions, granted_permissions with
         | Some effective_permissions, Some granted_permissions =>
             permissions_are_preapproved effective_permissions granted_permissions cwd
         | _, _ => false
         end |}.

(** ** tools/handlers/{shell,unified_exec}.rs: the permissions a command runs with

    The features are switches of the session. The two tools check in opposite orders. *)

Definition escalation_rejected (approval_policy : AskForApproval)
    (effective : EffectiveAdditionalPermissions) : bool :=
  requests_escalated_permissions (permission_level effective)
  && negb (permissions_preapproved effective) && negb (is_on_request approval_policy).

Definition command_permissions (exec_permission_approvals request_permissions_tool : bool)
    (approval_policy : AskForApproval) (level : ExecutionPermissionLevel)
    (requested : option AdditionalPermissionProfile) (effective : EffectiveAdditionalPermissions)
    : result str (option AdditionalPermissionProfile) :=
  let additional_permissions_allowed :=
    exec_permission_approvals || (request_permissions_tool && permissions_preapproved effective) in
  match implicit_granted_permissions level requested effective with
  | Some permissions => Ok (Some permissions)
  | None =>
      normalize_and_validate_additional_permissions additional_permissions_allowed approval_policy
        (permission_level effective) (additional_permissions effective)
        (permissions_preapproved effective)
  end.

Definition shell_permissions (exec_permission_approvals request_permissions_tool : bool)
    (approval_policy : AskForApproval) (level : ExecutionPermissionLevel)
    (requested : option AdditionalPermissionProfile) (effective : EffectiveAdditionalPermissions)
    : result str (option AdditionalPermissionProfile) :=
  normalized ← command_permissions exec_permission_approvals request_permissions_tool
                 approval_policy level requested effective;
  if escalation_rejected approval_policy effective
  then Err (lit "approval policy is " ++ debug_policy approval_policy ++ lit "; reject command "
            ++ [EM_DASH] ++ lit " you should not ask for escalated permissions if the approval policy is "
            ++ debug_policy approval_policy)
  else Ok normalized.

Definition unified_exec_permissions (exec_permission_approvals request_permissions_tool : bool)
    (approval_policy : AskForApproval) (level : ExecutionPermissionLevel)
    (requested : option AdditionalPermissionProfile) (effective : EffectiveAdditionalPermissions)
    : result str (option AdditionalPermissionProfile) :=
  if escalation_rejected approval_policy effective
  then Err (lit "approval policy is " ++ debug_policy approval_policy ++ lit "; reject command "
            ++ [EM_DASH] ++ lit " you cannot ask for escalated permissions if the approval policy is "
            ++ debug_policy approval_policy)
  else command_permissions exec_permission_approvals request_permissions_tool
         approval_policy level requested effective.

(** ** tools/handlers/apply_patch.rs: the permissions of a patch *)

(** The order of paths: by their components. *)
Definition path_le (a b : str) : Prop :=
  lex_compare (lex_compare N.compare) (map component_str (components a))
    (map component_str (components b)) <> Gt.

#[export] Instance path_le_dec : RelDecision path_le.
Proof. intros a b. unfold path_le. apply _. Defined.

(** [BTreeSet] of paths, as a sorted list. *)
Fixpoint dedup_paths (paths : list str) : list str :=
  match paths with
  | x :: (y :: _) as rest => if path_eqb x y then dedup_paths rest else x :: dedup_paths rest
  | paths => paths
  end.

Definition write_permissions_for_paths (file_paths : list str) (p : FileSystemAccessPolicy) (cwd : str)
    : option AdditionalPermissionProfile :=
  let write_paths :=
    dedup_paths (merge_sort path_le
      (List.filter (fun path => negb (can_write_path_with_cwd H p path cwd))
         (map (fun path => default path (parent path)) file_paths))) in
  write_paths ← mapM (absolute H) write_paths;
  permissions ← match write_paths with
                | [] => None
                | _ => Some {| network := None;
                               file_system := Some (from_read_write_roots (Some []) (Some write_paths)) |}
                end;
  match normalize_additional_permissions H permissions with Ok normalized => Some normalized | _ => None end.

(** The policy that a patch is judged by and the permissions that it runs with. *)
Definition effective_patch_permissions
    (granted_session_permissions granted_turn_permissions : option AdditionalPermissionProfile)
    (base_file_system_access_policy : FileSystemAccessPolicy) (file_paths : list str) (cwd : str)
    : EffectiveAdditionalPermissions * FileSystemAccessPolicy :=
  let granted_permissions :=
    merge_permission_profiles granted_session_permissions granted_turn_permissions in
  let file_system_access_policy :=
    effective_file_system_access_policy base_file_system_access_policy granted_permissions in
  (apply_granted_turn_permissions granted_session_permissions granted_turn_permissions cwd UseDefault
     (write_permissions_for_paths file_paths file_system_access_policy cwd),
   file_system_access_policy).

End OnHost.

End AccessGrants.
