(* ===== verification/ToolSession.v ===== *)
(** * Tasks of a session that ask before they act: src/core/src/{tools,guardian}/

    A tool call, a request that the network proxy sends to the session, and a review by
    the guardian are tasks of one session. [ToolSession] has the state they share and the
    type [Prog] of such tasks: between two locks of the state, a task asks the world
    outside the session (the user, a hook, the reviewer, the command itself) and goes on
    with any answer. [interleaved] is what a session with many tasks may do. [Guardian] is
    the review (src/core/src/guardian/{mod,review}.rs): its verdict, and the counter of
    refusals that ends a turn. *)

From Stdlib Require Import Ascii String.
From S2P Require Import Prelude RustStr AbsPath FsPolicy FsRoots Approval AccessGrants NetPolicy.
Import FsPolicy FsProfile Approval AccessTransforms.

Module ToolSession.

Abbreviation ReviewDecision := AccessGrants.ReviewDecision.
Abbreviation NetworkPolicyRuleAction := AccessGrants.NetworkPolicyRuleAction.

(** ** approvals.rs, network_policy.rs of the protocol *)

Inductive NetworkApprovalProtocol := ApproveHttp | ApproveHttps | ApproveSocks5Tcp | ApproveSocks5Udp.

Record NetworkApprovalContext := {
  context_host : str;
  context_protocol : NetworkApprovalProtocol;
}.

Record NetworkPolicyDecisionPayload := {
  payload_decision : NetPolicy.NetworkPolicyDecision;
  payload_source : NetPolicy.NetworkDecisionSource;
  payload_protocol : option NetworkApprovalProtocol;
  payload_host : option str;
  payload_reason : option str;
  payload_port : option N;
}.

Definition is_ask_from_decider (p : NetworkPolicyDecisionPayload) : bool :=
  match payload_decision p, payload_source p with
  | NetPolicy.PolicyAsk, NetPolicy.Decider => true
  | _, _ => false
  end.

(** ** guardian/: what is reviewed

    Of the variants of [GuardianApprovalRequest], those that the tasks here build. *)

Record GuardianNetworkAccessTrigger := {
  trigger_call_id : str;
  trigger_tool_name : str;
  trigger_command : list str;
  trigger_cwd : str;
  trigger_permission_level : ExecutionPermissionLevel;
  trigger_additional_permissions : option AdditionalPermissionProfile;
  trigger_justification : option str;
  trigger_tty : option bool;
}.

Inductive GuardianApprovalRequest :=
| GuardianShell (id : str) (command : list str) (cwd : str) (level : ExecutionPermissionLevel)
    (additional : option AdditionalPermissionProfile) (justification : option str)
| GuardianExecCommand (id : str) (command : list str) (cwd : str)
    (level : ExecutionPermissionLevel) (additional : option AdditionalPermissionProfile)
    (justification : option str) (tty : bool)
| GuardianApplyPatch (id cwd : str) (files : list str) (patch : str)
| GuardianNetworkAccess (id turn_id target host : str) (protocol : NetworkApprovalProtocol)
    (port : N) (trigger : option GuardianNetworkAccessTrigger).

Inductive GuardianRiskLevel := RiskLow | RiskMedium | RiskHigh | RiskCritical.
Inductive GuardianUserAuthorization :=
| AuthorizationUnknown | AuthorizationLow | AuthorizationMedium | AuthorizationHigh.
Inductive GuardianAssessmentOutcome := OutcomeAllow | OutcomeDeny.

Record GuardianAssessment := {
  risk_level : GuardianRiskLevel;
  user_authorization : GuardianUserAuthorization;
  outcome : GuardianAssessmentOutcome;
  rationale : str;
}.

Inductive GuardianReviewError :=
| PromptBuild (message : str)
| SessionFailed (message : str)
| Parse (message : str)
| Timeout
| Cancelled.

Inductive GuardianReviewOutcome :=
| Completed (assessment : GuardianAssessment)
| ReviewError (error : GuardianReviewError).

Inductive GuardianAssessmentStatus :=
| InProgress | StatusApproved | StatusDenied | StatusTimedOut | StatusAborted.

(** ** tools/execution.rs: what hooks are shown, and what a tool call ends with *)

Record HookToolName := { hook_name : str; matcher_aliases : list str }.

Definition apply_patch_hook : HookToolName :=
  {| hook_name := lit "apply_patch"; matcher_aliases := [lit "Write"; lit "Edit"] |}.

Definition bash_hook : HookToolName := {| hook_name := lit "Bash"; matcher_aliases := [] |}.

(** The input is a JSON object whose fields are texts. *)
Record PermissionRequestPayload := {
  hook_tool_name : HookToolName;
  hook_tool_input : list (str * str);
}.

Definition bash_payload (command : str) (description : option str) : PermissionRequestPayload :=
  {| hook_tool_name := bash_hook;
     hook_tool_input :=
       (lit "command", command)
         :: match description with
            | Some description => [(lit "description", description)]
            | None => []
            end |}.

Inductive PermissionRequestDecision := HookAllow | HookDeny (message : str).

(** What a tool gives, what a command that was refused had printed, and the errors that the
    orchestrator passes on. *)
Class ToolTypes := { Out : Type; ExecOutput : Type; OtherErr : Type }.

Inductive ToolError `{ToolTypes} :=
| Rejected (reason : str)
| ExecDenied (output : ExecOutput) (network_policy_decision : option NetworkPolicyDecisionPayload)
| OtherError (err : OtherErr).

(** ** The context of a turn: the parts that matter *)

Inductive ApprovalsReviewer := ReviewerUser | ReviewerAutoReview.

Record TurnContext := {
  sub_id : str;
  permission_profile : PermissionProfile;
  approval_policy : AskForApproval;
  approvals_reviewer : ApprovalsReviewer;
  turn_cwd : str;
  network_managed : bool;
}.

(** guardian/review.rs *)
Definition routes_approval_to_guardian (turn : TurnContext) : bool :=
  match approval_policy turn with OnRequest | Granular _ => true | _ => false end
  && match approvals_reviewer turn with ReviewerAutoReview => true | ReviewerUser => false end.

Inductive ToolDecisionSource := SourceConfig | SourceAutomatedReviewer | SourceUser.

(** ** What a task asks the world outside *)

Inductive SessionEvent :=
| ToolDecision (tool_name call_id : str) (decision : ReviewDecision) (source : ToolDecisionSource)
| GuardianAssessed (review_id turn_id : str) (status : GuardianAssessmentStatus)
    (why : option str)
| GuardianWarning (message : str)
| Warning (message : str)
| AbortTurn (turn_id : str)
| NetworkRuleSaved (sub_id amendment_host : str) (action : NetworkPolicyRuleAction)
| Answered (request : NetPolicy.NetworkPolicyRequest) (decision : NetPolicy.NetworkDecision).

Inductive Question `{ToolTypes} :=
| NewId
| StrictAutoReview
| ActiveTurnContext
| IsTurnActive (turn_id : str)
| IsCancelled
| RunHooks (run_id : str) (payload : PermissionRequestPayload)
| ReviewSession (request : GuardianApprovalRequest) (retry_reason : option str)
| CommandApproval (call_id : str) (command : list str) (cwd : str) (reason : option str)
    (context : option NetworkApprovalContext) (amendment : option ExecPolicyAmendment)
    (additional : option AdditionalPermissionProfile)
| PatchApproval (call_id : str) (changes : gmap (list N) FileChange) (reason : option str)
| RunTool (call_id : str)
| PersistAmendment (amendment_host : str) (action : NetworkPolicyRuleAction)
    (context : NetworkApprovalContext)
| Tell (event : SessionEvent).

(** The answers: of a patch approval, nothing when the channel is closed. *)
Definition Answer `{ToolTypes} (q : Question) : Type :=
  match q with
  | NewId => str
  | StrictAutoReview | IsCancelled | IsTurnActive _ => bool
  | ActiveTurnContext => option TurnContext
  | RunHooks _ _ => option PermissionRequestDecision
  | ReviewSession _ _ => GuardianReviewOutcome
  | CommandApproval _ _ _ _ _ _ _ => ReviewDecision
  | PatchApproval _ _ _ => option ReviewDecision
  | RunTool _ => Out + ToolError
  | PersistAmendment _ _ _ => option str
  | Tell _ => unit
  end.

(** A question with its answer. *)
Record Event `{ToolTypes} := Asked { asked : Question; answer : Answer asked }.
#[global] Arguments Asked {_} asked answer.

(** ** The state that the tasks share *)

Record HostApprovalKey := { key_host : str; key_protocol : str; key_port : N }.

#[export] Instance HostApprovalKey_eq_dec : EqDecision HostApprovalKey.
Proof. solve_decision. Defined.

#[export] Instance HostApprovalKey_countable : Countable HostApprovalKey.
Proof.
  refine (inj_countable' (fun k => (key_host k, key_protocol k, key_port k))
            (fun '(h, p, n) => {| key_host := h; key_protocol := p; key_port := n |}) _).
  by intros [].
Defined.

Inductive PendingApprovalDecision := AllowOnce | AllowForSession | DenyPending.

#[export] Instance PendingApprovalDecision_eq_dec : EqDecision PendingApprovalDecision.
Proof. solve_decision. Defined.

Inductive NetworkApprovalOutcome := DeniedByUser | DeniedByPolicy (message : str).

#[export] Instance NetworkApprovalOutcome_eq_dec : EqDecision NetworkApprovalOutcome.
Proof. solve_decision. Defined.

Record ActiveNetworkApprovalCall := {
  registration_id : str;
  call_turn_id : str;
  call_trigger : GuardianNetworkAccessTrigger;
  call_command : str;
}.

(** The calls are in an [IndexMap], in the order of their insertion. *)
Record NetworkApprovalService := {
  active_calls : list (str * ActiveNetworkApprovalCall);
  call_outcomes : gmap str NetworkApprovalOutcome;
  pending_host_approvals : gmap HostApprovalKey nat;
  session_approved_hosts : gset HostApprovalKey;
  session_denied_hosts : gset HostApprovalKey;
}.

Record GuardianRejectionCircuitBreakerTurn := {
  consecutive_denials : N;
  total_denials : N;
  interrupt_triggered : bool;
}.

(** [pending_decisions] is the store of the [PendingHostApproval] objects: the decision of
    each, once there is one. *)
Record Session := {
  tool_approvals : gmap str ReviewDecision;
  network_approval : NetworkApprovalService;
  pending_decisions : gmap nat (option PendingApprovalDecision);
  guardian_rejections : gmap str str;
  circuit_breaker : gmap str GuardianRejectionCircuitBreakerTurn;
}.

Definition new_service : NetworkApprovalService :=
  {| active_calls := []; call_outcomes := ∅; pending_host_approvals := ∅;
     session_approved_hosts := ∅; session_denied_hosts := ∅ |}.

Definition new_session : Session :=
  {| tool_approvals := ∅; network_approval := new_service; pending_decisions := ∅;
     guardian_rejections := ∅; circuit_breaker := ∅ |}.

Definition with_tool_approvals (m : gmap str ReviewDecision) (s : Session) : Session :=
  {| tool_approvals := m; network_approval := network_approval s;
     pending_decisions := pending_decisions s; guardian_rejections := guardian_rejections s;
     circuit_breaker := circuit_breaker s |}.

Definition with_service (n : NetworkApprovalService) (s : Session) : Session :=
  {| tool_approvals := tool_approvals s; network_approval := n;
     pending_decisions := pending_decisions s; guardian_rejections := guardian_rejections s;
     circuit_breaker := circuit_breaker s |}.

Definition with_pending_decisions (m : gmap nat (option PendingApprovalDecision)) (s : Session)
    : Session :=
  {| tool_approvals := tool_approvals s; network_approval := network_approval s;
     pending_decisions := m; guardian_rejections := guardian_rejections s;
     circuit_breaker := circuit_breaker s |}.

Definition with_guardian_rejections (m : gmap str str) (s : Session) : Session :=
  {| tool_approvals := tool_approvals s; network_approval := network_approval s;
     pending_decisions := pending_decisions s; guardian_rejections := m;
     circuit_breaker := circuit_breaker s |}.

Definition with_circuit_breaker (m : gmap str GuardianRejectionCircuitBreakerTurn) (s : Session)
    : Session :=
  {| tool_approvals := tool_approvals s; network_approval := network_approval s;
     pending_decisions := pending_decisions s; guardian_rejections := guardian_rejections s;
     circuit_breaker := m |}.

(** ** Programs

    A task holds no lock while it asks or waits. [Lock] is one section between taking a
    lock and releasing it, which no other task sees the inside of; [Ask] goes on with
    whatever the answer is; [Wait] goes on when the object has a decision
    ([wait_for_decision] with the wake-ups of [tokio::sync::Notify]). *)

Section Programs.
Context `{ToolTypes}.

Inductive Prog (A : Type) :=
| Ret (a : A)
| Lock {X : Type} (f : Session -> Session * X) (k : X -> Prog A)
| Ask (q : Question) (k : Answer q -> Prog A)
| Wait (o : nat) (k : PendingApprovalDecision -> Prog A).

#[global] Arguments Ret {A} a.
#[global] Arguments Lock {A X} f k.
#[global] Arguments Ask {A} q k.
#[global] Arguments Wait {A} o k.

#[global] Instance prog_ret : MRet Prog := fun A a => Ret a.

#[global] Instance prog_bind : MBind Prog := fun A B f =>
  fix bind (p : Prog A) : Prog B :=
    match p with
    | Ret a => f a
    | Lock g k => Lock g (fun x => bind (k x))
    | Ask q k => Ask q (fun x => bind (k x))
    | Wait o k => Wait o (fun d => bind (k d))
    end.

Definition reading {X} (f : Session -> X) : Prog X := Lock (fun s => (s, f s)) Ret.
Definition updating (f : Session -> Session) : Prog unit := Lock (fun s => (f s, tt)) Ret.
Definition ask (q : Question) : Prog (Answer q) := Ask q Ret.
Definition tell (e : SessionEvent) : Prog unit := Ask (Tell e) Ret.
Definition wait_for_decision (o : nat) : Prog PendingApprovalDecision := Wait o Ret.

(** What a task may have asked and been told when it ends with a result, and at any moment
    before: other tasks may have done anything to the state in between. *)
Fixpoint runs {A} (p : Prog A) (h : list Event) (a : A) : Prop :=
  match p with
  | Ret b => h = [] /\ a = b
  | Lock f k => exists s, runs (k (snd (f s))) h a
  | Ask q k => exists x h', h = Asked q x :: h' /\ runs (k x) h' a
  | Wait _ k => exists d, runs (k d) h a
  end.

Fixpoint begins {A} (p : Prog A) (h : list Event) : Prop :=
  h = [] \/
  match p with
  | Ret _ => False
  | Lock f k => exists s, begins (k (snd (f s))) h
  | Ask q k => exists x h', h = Asked q x :: h' /\ begins (k x) h'
  | Wait _ k => exists d, begins (k d) h
  end.

(** ** Tasks at the same time

    [starts] says which tasks may start; [cancellation] whether a task may be dropped while
    it asks or waits, as the future of a request is when its connection closes. *)

Record Running := { done : list Event; rest : option (Prog unit) }.

Record World := { session : Session; running : gmap nat Running }.

Definition set_running (t : nat) (h : list Event) (p : option (Prog unit)) (w : World)
    : gmap nat Running := <[t := {| done := h; rest := p |}]> (running w).

Inductive step (starts : Prog unit -> Prop) (cancellation : bool) (w : World) : World -> Prop :=
| step_start t p :
    starts p -> running w !! t = None ->
    step starts cancellation w {| session := session w; running := set_running t [] (Some p) w |}
| step_lock t h X (f : Session -> Session * X) k :
    running w !! t = Some {| done := h; rest := Some (Lock f k) |} ->
    step starts cancellation w
      {| session := fst (f (session w));
         running := set_running t h (Some (k (snd (f (session w))))) w |}
| step_ask t h q k x :
    running w !! t = Some {| done := h; rest := Some (Ask q k) |} ->
    step starts cancellation w
      {| session := session w; running := set_running t (h ++ [Asked q x]) (Some (k x)) w |}
| step_wait t h o k d :
    running w !! t = Some {| done := h; rest := Some (Wait o k) |} ->
    pending_decisions (session w) !! o = Some (Some d) ->
    step starts cancellation w {| session := session w; running := set_running t h (Some (k d)) w |}
| step_drop t h p :
    cancellation = true -> running w !! t = Some {| done := h; rest := Some p |} ->
    step starts cancellation w {| session := session w; running := set_running t h None w |}.

Inductive interleaved (starts : Prog unit -> Prop) (cancellation : bool) : World -> Prop :=
| interleaved_new : interleaved starts cancellation {| session := new_session; running := ∅ |}
| interleaved_step w w' :
    interleaved starts cancellation w -> step starts cancellation w w' ->
    interleaved starts cancellation w'.

(** ** Reasoning about one task

    Everything the task asks is [fit], given what it had asked before, and it ends as [Q]
    says, whatever the other tasks do. *)
Fixpoint wp {A} (fit : list Event -> Question -> Prop) (p : Prog A) (h : list Event)
    (Q : list Event -> A -> Prop) : Prop :=
  match p with
  | Ret a => Q h a
  | Lock f k => forall s, wp fit (k (snd (f s))) h Q
  | Ask q k => fit h q /\ forall x, wp fit (k x) (h ++ [Asked q x]) Q
  | Wait _ k => forall d, wp fit (k d) h Q
  end.

End Programs.

End ToolSession.

Module Guardian.
Import ToolSession AccessGrants.

(** ** mod.rs: the counter of refusals

    [saturating_add] on 32 bits. *)

Definition U32_MAX : N := 4294967295.
Definition saturating_succ (n : N) : N := N.min U32_MAX (n + 1).

Definition MAX_CONSECUTIVE_GUARDIAN_DENIALS_PER_TURN : N := 3.
Definition MAX_TOTAL_GUARDIAN_DENIALS_PER_TURN : N := 10.

Abbreviation CircuitBreaker := (gmap str GuardianRejectionCircuitBreakerTurn).

Inductive GuardianRejectionCircuitBreakerAction :=
| Continue
| InterruptTurn (consecutive total : N).

Definition default_turn : GuardianRejectionCircuitBreakerTurn :=
  {| consecutive_denials := 0; total_denials := 0; interrupt_triggered := false |}.

Definition breaker_turn (b : CircuitBreaker) (turn_id : str) : GuardianRejectionCircuitBreakerTurn :=
  default default_turn (b !! turn_id).

Definition clear_turn (turn_id : str) (b : CircuitBreaker) : CircuitBreaker := delete turn_id b.

Definition record_denial (turn_id : str) (b : CircuitBreaker)
    : CircuitBreaker * GuardianRejectionCircuitBreakerAction :=
  let turn := breaker_turn b turn_id in
  let consecutive := saturating_succ (consecutive_denials turn) in
  let total := saturating_succ (total_denials turn) in
  let interrupts :=
    negb (interrupt_triggered turn)
    && ((MAX_CONSECUTIVE_GUARDIAN_DENIALS_PER_TURN <=? consecutive)
        || (MAX_TOTAL_GUARDIAN_DENIALS_PER_TURN <=? total))%N in
  (<[turn_id := {| consecutive_denials := consecutive; total_denials := total;
                   interrupt_triggered := interrupt_triggered turn || interrupts |}]> b,
   if interrupts then InterruptTurn consecutive total else Continue).

Definition record_non_denial (turn_id : str) (b : CircuitBreaker) : CircuitBreaker :=
  let turn := breaker_turn b turn_id in
  <[turn_id := {| consecutive_denials := 0; total_denials := total_denials turn;
                  interrupt_triggered := interrupt_triggered turn |}]> b.

(** ** review.rs: texts *)

Definition GUARDIAN_REJECTION_INSTRUCTIONS : str :=
  lit "The agent must not attempt to achieve the same outcome via workaround, "
  ++ lit "indirect execution, or policy circumvention. "
  ++ lit "Proceed only with a materially safer alternative, "
  ++ lit "or if the user explicitly approves the action after being informed of the risk. "
  ++ lit "Otherwise, stop and request user input.".

Definition GUARDIAN_TIMEOUT_INSTRUCTIONS : str :=
  lit "The automatic permission approval review did not finish before its deadline. "
  ++ lit "Do not assume the action is unsafe based on the timeout alone. "
  ++ lit "You may retry once, or ask the user for guidance or explicit approval.".

Definition guardian_timeout_message : str := GUARDIAN_TIMEOUT_INSTRUCTIONS.

Definition guardian_risk_level_str (level : GuardianRiskLevel) : str :=
  match level with
  | RiskLow => lit "low"
  | RiskMedium => lit "medium"
  | RiskHigh => lit "high"
  | RiskCritical => lit "critical"
  end.

Definition authorization_str (a : GuardianUserAuthorization) : str :=
  match a with
  | AuthorizationUnknown => lit "unknown"
  | AuthorizationLow => lit "low"
  | AuthorizationMedium => lit "medium"
  | AuthorizationHigh => lit "high"
  end.

(** The newline of a [format!]. *)
Definition NEWLINE : str := [NL].

Section Reviews.
Context `{ToolTypes}.

(** The refusal is read once: it is removed from the map. *)
Definition guardian_rejection_message (review_id : str) : Prog str :=
  rejection ← Lock (fun s => (with_guardian_rejections (delete review_id (guardian_rejections s)) s,
                              guardian_rejections s !! review_id)) Ret;
  let why :=
    match rejection with
    | Some why =>
        if str_eqb (trim why) []
        then lit "Auto-reviewer denied the action without a specific rationale." else why
    | None => lit "Auto-reviewer denied the action without a specific rationale."
    end in
  Ret (lit "This action was rejected due to unacceptable risk." ++ NEWLINE ++ lit "Reason: "
       ++ trim why ++ NEWLINE ++ GUARDIAN_REJECTION_INSTRUCTIONS).

Definition record_guardian_non_denial (turn_id : str) : Prog unit :=
  updating (fun s => with_circuit_breaker (record_non_denial turn_id (circuit_breaker s)) s).

(** The task that aborts the turn is spawned: here it is told to. *)
Definition record_guardian_denial (turn_id : str) : Prog unit :=
  action ← Lock (fun s => let '(b, action) := record_denial turn_id (circuit_breaker s) in
                          (with_circuit_breaker b s, action)) Ret;
  match action with
  | Continue => Ret tt
  | InterruptTurn consecutive total =>
      active ← ask (IsTurnActive turn_id);
      if negb active then Ret tt
      else
        tell (GuardianWarning
          (lit "Automatic approval review rejected too many approval requests for this turn ("
           ++ show_nat (N.to_nat consecutive) ++ lit " consecutive, "
           ++ show_nat (N.to_nat total) ++ lit " total); interrupting the turn."));;
        tell (AbortTurn turn_id)
  end.

(** approval_request.rs *)
Definition guardian_request_turn_id (request : GuardianApprovalRequest) (default_turn_id : str) : str :=
  match request with
  | GuardianNetworkAccess _ turn_id _ _ _ _ _ => turn_id
  | _ => default_turn_id
  end.

Definition review_verdict (review_id turn_id : str) (assessment : GuardianAssessment)
    (count_denial : bool) : Prog ReviewDecision :=
  let approved := match ToolSession.outcome assessment with OutcomeAllow => true | OutcomeDeny => false end in
  tell (GuardianWarning
    (lit "Automatic approval review " ++ (if approved then lit "approved" else lit "denied")
     ++ lit " (risk: " ++ guardian_risk_level_str (risk_level assessment)
     ++ lit ", authorization: " ++ authorization_str (user_authorization assessment)
     ++ lit "): " ++ rationale assessment));;
  updating (fun s => with_guardian_rejections
    (if approved then delete review_id (guardian_rejections s)
     else <[review_id := rationale assessment]> (guardian_rejections s)) s);;
  tell (GuardianAssessed review_id turn_id (if approved then StatusApproved else StatusDenied)
          (Some (rationale assessment)));;
  (if count_denial then record_guardian_denial turn_id else record_guardian_non_denial turn_id);;
  Ret (if approved then Approved else Denied).

Definition failed_assessment (message : str) : GuardianAssessment :=
  {| risk_level := RiskHigh; user_authorization := AuthorizationUnknown; outcome := OutcomeDeny;
     rationale := lit "Automatic approval review failed: " ++ message |}.

Definition abort_review (review_id turn_id : str) : Prog ReviewDecision :=
  tell (GuardianAssessed review_id turn_id StatusAborted None);;
  record_guardian_non_denial turn_id;;
  Ret Abort.

Definition conclude_review (review_id turn_id : str) (outcome : GuardianReviewOutcome)
    : Prog ReviewDecision :=
  match outcome with
  | Completed assessment =>
      review_verdict review_id turn_id assessment
        match ToolSession.outcome assessment with OutcomeDeny => true | OutcomeAllow => false end
  | ReviewError Timeout =>
      let why :=
        lit "Automatic approval review timed out while evaluating the requested approval." in
      tell (GuardianWarning why);;
      tell (GuardianAssessed review_id turn_id StatusTimedOut (Some why));;
      record_guardian_non_denial turn_id;;
      Ret TimedOut
  | ReviewError Cancelled => abort_review review_id turn_id
  | ReviewError (PromptBuild message | SessionFailed message | Parse message) =>
      review_verdict review_id turn_id (failed_assessment message) false
  end.

(** [cancellable]: the caller has a token that may cancel the review. *)
Definition run_guardian_review (turn : TurnContext) (review_id : str)
    (request : GuardianApprovalRequest) (retry_reason : option str) (cancellable : bool)
    : Prog ReviewDecision :=
  let turn_id := guardian_request_turn_id request (sub_id turn) in
  tell (GuardianAssessed review_id turn_id InProgress None);;
  cancelled ← (if cancellable then ask IsCancelled else Ret false);
  if cancelled : bool then abort_review review_id turn_id
  else
    outcome ← ask (ReviewSession request retry_reason);
    conclude_review review_id turn_id outcome.

Definition review_approval_request (turn : TurnContext) (review_id : str)
    (request : GuardianApprovalRequest) (retry_reason : option str) : Prog ReviewDecision :=
  run_guardian_review turn review_id request retry_reason false.

Definition review_approval_request_with_cancel (turn : TurnContext) (review_id : str)
    (request : GuardianApprovalRequest) (retry_reason : option str) : Prog ReviewDecision :=
  run_guardian_review turn review_id request retry_reason true.

End Reviews.

End Guardian.
