(* ===== verification/NetApproval.v ===== *)
(** * Deferred approval of hosts: src/core/src/tools/network_approval.rs

    The proxy asks the session about a host that is not on its lists; the session answers
    from what was decided before, waits for a decision that is on its way, or asks the
    user or the guardian itself. A tool call registers while it runs, so that a refusal can
    be blamed on it. Also src/core/src/network_policy_decision.rs, the texts and the data
    that go between the proxy and the approvals. *)

From Stdlib Require Import Ascii String.
From S2P Require Import Prelude RustStr FsRoots Approval ExecRule NetHost NetState NetPolicy.
From S2P Require Import AccessGrants ToolSession.
Import Approval ToolSession Guardian.

Module NetworkPolicyDecision.

Definition parse_network_policy_decision (value : str) : option NetPolicy.NetworkPolicyDecision :=
  if str_eqb value (lit "deny") then Some NetPolicy.PolicyDeny
  else if str_eqb value (lit "ask") then Some NetPolicy.PolicyAsk
  else None.

Definition network_approval_context_from_payload (payload : NetworkPolicyDecisionPayload)
    : option NetworkApprovalContext :=
  if negb (is_ask_from_decider payload) then None
  else
    protocol ← payload_protocol payload;
    host ← trim <$> payload_host payload;
    if str_eqb host [] then None
    else Some {| context_host := host; context_protocol := protocol |}.

Definition denial_detail (reason : str) : str :=
  if str_eqb reason (lit "denied")
  then lit "domain is explicitly denied by policy and cannot be approved from this prompt"
  else if str_eqb reason (lit "not_allowed")
  then lit "domain is not on the allowlist for the current access mode"
  else if str_eqb reason (lit "not_allowed_local")
  then lit "local/private network addresses are blocked by the access policy"
  else if str_eqb reason (lit "method_not_allowed")
  then lit "request method is blocked by the current network mode"
  else if str_eqb reason (lit "proxy_disabled") then lit "network proxy is disabled"
  else lit "request is blocked by network policy".

Definition QUOTE : str := [ch (Ascii.ascii_of_nat 34)].

Definition denied_network_policy_message (blocked : NetState.BlockedRequest) : option str :=
  match d ← NetState.b_decision blocked; parse_network_policy_decision d with
  | Some NetPolicy.PolicyDeny =>
      let host := trim (NetState.b_host blocked) in
      if str_eqb host [] then Some (lit "Network access was blocked by policy.")
      else Some (lit "Network access to " ++ QUOTE ++ host ++ QUOTE ++ lit " was blocked: "
                 ++ denial_detail (NetState.b_reason blocked) ++ lit ".")
  | _ => None
  end.

Record ExecPolicyNetworkRuleAmendment := {
  amendment_protocol : ExecRule.NetworkRuleProtocol;
  amendment_decision : ExecRule.Decision;
  amendment_justification : str;
}.

Definition execpolicy_network_rule_amendment (action : NetworkPolicyRuleAction)
    (context : NetworkApprovalContext) (host : str) : ExecPolicyNetworkRuleAmendment :=
  let '(protocol, protocol_label) :=
    match context_protocol context with
    | ApproveHttp => (ExecRule.Http, lit "http")
    | ApproveHttps => (ExecRule.Https, lit "https_connect")
    | ApproveSocks5Tcp => (ExecRule.Socks5Tcp, lit "socks5_tcp")
    | ApproveSocks5Udp => (ExecRule.Socks5Udp, lit "socks5_udp")
    end in
  let '(decision, action_verb) :=
    match action with
    | AccessGrants.ActionAllow => (ExecRule.Allow, lit "Allow")
    | AccessGrants.ActionDeny => (ExecRule.Forbidden, lit "Deny")
    end in
  {| amendment_protocol := protocol; amendment_decision := decision;
     amendment_justification :=
       action_verb ++ lit " " ++ protocol_label ++ lit " access to " ++ host |}.

(** session/mod.rs: the host that an amendment is about. *)
Definition validated_network_policy_amendment_host (amendment_host : str)
    (context : NetworkApprovalContext) : result str str :=
  let approved_host := NetHost.normalize_host (context_host context) in
  if str_eqb (NetHost.normalize_host amendment_host) approved_host then Ok approved_host
  else Err (lit "network policy amendment host '" ++ amendment_host
            ++ lit "' does not match approved host '" ++ context_host context ++ lit "'").

End NetworkPolicyDecision.

Module NetApproval.
Import NetworkPolicyDecision.

(** ** Data *)

Inductive NetworkApprovalMode := Immediate | Deferred.

(** [spec_network]: whether the call has a proxy. *)
Record NetworkApprovalSpec := {
  spec_network : bool;
  spec_mode : NetworkApprovalMode;
  spec_trigger : GuardianNetworkAccessTrigger;
  spec_command : str;
}.

Record ActiveNetworkApproval := {
  active_registration_id : option str;
  active_mode : NetworkApprovalMode;
}.

(** A [DeferredNetworkApproval] is its registration. *)
Definition into_deferred (a : ActiveNetworkApproval) : option str :=
  match active_mode a, active_registration_id a with
  | Deferred, Some registration_id => Some registration_id
  | _, _ => None
  end.

Definition protocol_key_label (protocol : NetworkApprovalProtocol) : str :=
  match protocol with
  | ApproveHttp => lit "http"
  | ApproveHttps => lit "https"
  | ApproveSocks5Tcp => lit "socks5-tcp"
  | ApproveSocks5Udp => lit "socks5-udp"
  end.

Definition approval_protocol (p : NetPolicy.NetworkProtocol) : NetworkApprovalProtocol :=
  match p with
  | NetPolicy.Http => ApproveHttp
  | NetPolicy.HttpsConnect => ApproveHttps
  | NetPolicy.Socks5Tcp => ApproveSocks5Tcp
  | NetPolicy.Socks5Udp => ApproveSocks5Udp
  end.

Definition from_request (request : NetPolicy.NetworkPolicyRequest)
    (protocol : NetworkApprovalProtocol) : HostApprovalKey :=
  {| key_host := to_ascii_lowercase (NetPolicy.req_host request);
     key_protocol := protocol_key_label protocol; key_port := NetPolicy.req_port request |}.

Definition allows_network_approval_flow (policy : AskForApproval) : bool :=
  match policy with Never => false | _ => true end.

Definition permission_profile_allows_network_approval_flow (profile : FsProfile.PermissionProfile)
    : bool :=
  match profile with FsProfile.Managed _ _ => true | _ => false end.

Definition REASON_NOT_ALLOWED : str := lit "not_allowed".

Definition to_network_decision (d : PendingApprovalDecision) : NetPolicy.NetworkDecision :=
  match d with
  | AllowOnce | AllowForSession => NetPolicy.Allow
  | DenyPending => NetPolicy.deny REASON_NOT_ALLOWED
  end.

(** ** The service: what is done under its locks *)

Definition with_active_calls (calls : list (str * ActiveNetworkApprovalCall))
    (n : NetworkApprovalService) : NetworkApprovalService :=
  {| active_calls := calls; call_outcomes := call_outcomes n;
     pending_host_approvals := pending_host_approvals n;
     session_approved_hosts := session_approved_hosts n;
     session_denied_hosts := session_denied_hosts n |}.

Definition with_call_outcomes (outcomes : gmap str NetworkApprovalOutcome)
    (n : NetworkApprovalService) : NetworkApprovalService :=
  {| active_calls := active_calls n; call_outcomes := outcomes;
     pending_host_approvals := pending_host_approvals n;
     session_approved_hosts := session_approved_hosts n;
     session_denied_hosts := session_denied_hosts n |}.

Definition with_pending_host_approvals (pending : gmap HostApprovalKey nat)
    (n : NetworkApprovalService) : NetworkApprovalService :=
  {| active_calls := active_calls n; call_outcomes := call_outcomes n;
     pending_host_approvals := pending;
     session_approved_hosts := session_approved_hosts n;
     session_denied_hosts := session_denied_hosts n |}.

Definition with_approved_hosts (hosts : gset HostApprovalKey) (n : NetworkApprovalService)
    : NetworkApprovalService :=
  {| active_calls := active_calls n; call_outcomes := call_outcomes n;
     pending_host_approvals := pending_host_approvals n;
     session_approved_hosts := hosts; session_denied_hosts := session_denied_hosts n |}.

Definition with_denied_hosts (hosts : gset HostApprovalKey) (n : NetworkApprovalService)
    : NetworkApprovalService :=
  {| active_calls := active_calls n; call_outcomes := call_outcomes n;
     pending_host_approvals := pending_host_approvals n;
     session_approved_hosts := session_approved_hosts n; session_denied_hosts := hosts |}.

Definition on_service (f : NetworkApprovalService -> NetworkApprovalService) (s : Session) : Session :=
  with_service (f (network_approval s)) s.

(** [IndexMap::insert] and [shift_remove]: a value is replaced in its place. *)
Fixpoint index_insert {A} (key : str) (a : A) (m : list (str * A)) : list (str * A) :=
  match m with
  | [] => [(key, a)]
  | (k, b) :: m => if str_eqb k key then (key, a) :: m else (k, b) :: index_insert key a m
  end.

Definition shift_remove {A} (key : str) (m : list (str * A)) : list (str * A) :=
  List.filter (fun e => negb (str_eqb (fst e) key)) m.

(** The approved hosts of another session replace those of this one. *)
Definition sync_session_approved_hosts_to (source target : Session) : Session :=
  on_service (with_approved_hosts (session_approved_hosts (network_approval source))) target.

Section Tasks.
Context `{ToolTypes}.

Definition register_call (id turn_id : str) (trigger : GuardianNetworkAccessTrigger) (command : str)
    : Prog unit :=
  updating (on_service (fun n => with_active_calls
    (index_insert id {| registration_id := id; call_turn_id := turn_id; call_trigger := trigger;
                        call_command := command |} (active_calls n)) n)).

Definition unregister_call (id : str) : Prog unit :=
  updating (on_service (fun n => with_active_calls (shift_remove id (active_calls n)) n));;
  updating (on_service (fun n => with_call_outcomes (delete id (call_outcomes n)) n)).

Definition resolve_single_active_call : Prog (option ActiveNetworkApprovalCall) :=
  reading (fun s => match active_calls (network_approval s) with [(_, call)] => Some call | _ => None end).

(** [Arc::new]: an object that is not in the store. *)
Definition get_or_create_pending_approval (key : HostApprovalKey) : Prog (nat * bool) :=
  Lock (fun s =>
    match pending_host_approvals (network_approval s) !! key with
    | Some existing => (s, (existing, false))
    | None =>
        let created := fresh (dom (pending_decisions s)) in
        (with_pending_decisions (<[created := None]> (pending_decisions s))
           (on_service (fun n => with_pending_host_approvals
              (<[key := created]> (pending_host_approvals n)) n) s), (created, true))
    end) Ret.

Definition take_call_outcome (id : str) : Prog (option NetworkApprovalOutcome) :=
  Lock (fun s => (on_service (fun n => with_call_outcomes (delete id (call_outcomes n)) n) s,
                  call_outcomes (network_approval s) !! id)) Ret.

Definition record_outcome (id : str) (outcome : NetworkApprovalOutcome) (n : NetworkApprovalService)
    : NetworkApprovalService :=
  match call_outcomes n !! id with
  | Some DeniedByUser => n
  | _ => with_call_outcomes (<[id := outcome]> (call_outcomes n)) n
  end.

Definition record_call_outcome (id : str) (outcome : NetworkApprovalOutcome) : Prog unit :=
  updating (on_service (record_outcome id outcome)).

Definition record_outcome_for_single_active_call (outcome : NetworkApprovalOutcome) : Prog unit :=
  owner_call ← resolve_single_active_call;
  match owner_call with
  | Some owner_call => record_call_outcome (registration_id owner_call) outcome
  | None => Ret tt
  end.

Definition record_blocked_request (blocked : NetState.BlockedRequest) : Prog unit :=
  match denied_network_policy_message blocked with
  | Some message => record_outcome_for_single_active_call (DeniedByPolicy message)
  | None => Ret tt
  end.

Definition set_decision (o : nat) (d : PendingApprovalDecision) : Prog unit :=
  updating (fun s => with_pending_decisions (<[o := Some d]> (pending_decisions s)) s).

Definition remove_pending (key : HostApprovalKey) : Prog unit :=
  updating (on_service (fun n =>
    with_pending_host_approvals (delete key (pending_host_approvals n)) n)).

(** ** A request of the proxy *)

Definition format_network_target (protocol host : str) (port : N) : str :=
  protocol ++ lit "://" ++ host ++ lit ":" ++ show_nat (N.to_nat port).

Definition approval_id_for_key (key : HostApprovalKey) : str :=
  lit "network#" ++ key_protocol key ++ lit "#" ++ key_host key ++ lit "#"
  ++ show_nat (N.to_nat (key_port key)).

(** What a request that may not be asked about ends with. *)
Definition deny_by_policy (key : HostApprovalKey) (pending : nat) (message : str)
    : Prog NetPolicy.NetworkDecision :=
  set_decision pending DenyPending;;
  remove_pending key;;
  record_outcome_for_single_active_call (DeniedByPolicy message);;
  Ret (NetPolicy.deny REASON_NOT_ALLOWED).

Definition record_for (owner_call : option ActiveNetworkApprovalCall)
    (outcome : NetworkApprovalOutcome) : Prog unit :=
  match owner_call with
  | Some owner_call => record_call_outcome (registration_id owner_call) outcome
  | None => Ret tt
  end.

(** The amendment is kept, and the model is told; or the user is warned. *)
Definition keep_amendment (turn : TurnContext) (amendment_host : str)
    (action : NetworkPolicyRuleAction) (context : NetworkApprovalContext) : Prog unit :=
  failure ← ask (PersistAmendment amendment_host action context);
  match failure with
  | None => tell (NetworkRuleSaved (sub_id turn) amendment_host action)
  | Some err => tell (Warning (lit "Failed to apply network policy amendment: " ++ err))
  end.

(** From the answer to the decision, and whether a refusal holds for the session. *)
Definition resolve_answer (turn : TurnContext) (guardian_review_id : option str)
    (owner_call : option ActiveNetworkApprovalCall) (context : NetworkApprovalContext)
    (approval_decision : ReviewDecision) : Prog (PendingApprovalDecision * bool) :=
  match approval_decision with
  | AccessGrants.Approved | AccessGrants.ApprovedExecpolicyAmendment _ => Ret (AllowOnce, false)
  | AccessGrants.ApprovedForSession => Ret (AllowForSession, false)
  | AccessGrants.NetworkPolicyAmendment host AccessGrants.ActionAllow =>
      keep_amendment turn host AccessGrants.ActionAllow context;;
      Ret (AllowForSession, false)
  | AccessGrants.NetworkPolicyAmendment host AccessGrants.ActionDeny =>
      keep_amendment turn host AccessGrants.ActionDeny context;;
      record_for owner_call DeniedByUser;;
      Ret (DenyPending, true)
  | AccessGrants.Denied | AccessGrants.Abort =>
      match guardian_review_id with
      | Some review_id =>
          match owner_call with
          | Some owner_call =>
              message ← guardian_rejection_message review_id;
              record_call_outcome (registration_id owner_call) (DeniedByPolicy message)
          | None => Ret tt
          end
      | None => record_for owner_call DeniedByUser
      end;;
      Ret (DenyPending, false)
  | AccessGrants.TimedOut =>
      record_for owner_call (DeniedByPolicy guardian_timeout_message);;
      Ret (DenyPending, false)
  end.

(** What is remembered for the session. *)
Definition cache_decision (key : HostApprovalKey) (resolved : PendingApprovalDecision)
    (cache_session_deny : bool) : Prog unit :=
  match resolved with
  | AllowForSession =>
      updating (on_service (fun n => with_denied_hosts (session_denied_hosts n ∖ {[key]}) n));;
      updating (on_service (fun n => with_approved_hosts (session_approved_hosts n ∪ {[key]}) n))
  | _ => Ret tt
  end;;
  if cache_session_deny then
    updating (on_service (fun n => with_approved_hosts (session_approved_hosts n ∖ {[key]}) n));;
    updating (on_service (fun n => with_denied_hosts (session_denied_hosts n ∪ {[key]}) n))
  else Ret tt.

(** The user, or the guardian, is asked. *)
Definition ask_about_host (turn : TurnContext) (request : NetPolicy.NetworkPolicyRequest)
    (protocol : NetworkApprovalProtocol) (key : HostApprovalKey) (target policy_denial_message : str)
    (owner_call : option ActiveNetworkApprovalCall) (guardian_review_id : option str)
    : Prog ReviewDecision :=
  match guardian_review_id with
  | Some review_id =>
      review_approval_request turn review_id
        (GuardianNetworkAccess (approval_id_for_key key)
           (match owner_call with Some call => call_turn_id call | None => sub_id turn end)
           target (NetPolicy.req_host request) protocol (key_port key)
           (call_trigger <$> owner_call))
        (Some policy_denial_message)
  | None =>
      ask (CommandApproval (approval_id_for_key key) [lit "network-access"; target] (turn_cwd turn)
             (Some (NetPolicy.req_host request ++ lit " is not in the allowed_domains"))
             (Some {| context_host := NetPolicy.req_host request; context_protocol := protocol |})
             None None)
  end.

(** What the one does that has to get the decision. *)
Definition decide_as_owner (request : NetPolicy.NetworkPolicyRequest) (key : HostApprovalKey)
    (pending : nat) : Prog NetPolicy.NetworkDecision :=
  let protocol := approval_protocol (NetPolicy.protocol request) in
  let target := format_network_target (key_protocol key) (NetPolicy.req_host request) (key_port key) in
  let policy_denial_message :=
    lit "Network access to " ++ QUOTE ++ target ++ QUOTE ++ lit " was blocked by policy." in
  turn_context ← ask ActiveTurnContext;
  match turn_context : option TurnContext with
  | None => deny_by_policy key pending policy_denial_message
  | Some turn =>
      if negb (permission_profile_allows_network_approval_flow (permission_profile turn))
      then deny_by_policy key pending policy_denial_message
      else if negb (allows_network_approval_flow (approval_policy turn))
      then deny_by_policy key pending policy_denial_message
      else
        owner_call ← resolve_single_active_call;
        let command :=
          match owner_call with
          | Some call => call_command call
          | None => lit "network-access " ++ target
          end in
        hook ← ask (RunHooks (approval_id_for_key key)
                      (bash_payload command (Some (lit "network-access " ++ target))));
        match hook : option PermissionRequestDecision with
        | Some HookAllow =>
            set_decision pending AllowOnce;;
            remove_pending key;;
            Ret NetPolicy.Allow
        | Some (HookDeny message) =>
            record_for owner_call (DeniedByPolicy message);;
            set_decision pending DenyPending;;
            remove_pending key;;
            Ret (NetPolicy.deny REASON_NOT_ALLOWED)
        | None =>
            guardian_review_id ←
              (if routes_approval_to_guardian turn then id ← ask NewId; Ret (Some id)
               else Ret None);
            approval_decision ← ask_about_host turn request protocol key target
                                  policy_denial_message owner_call guardian_review_id;
            '(resolved, cache_session_deny) ←
              resolve_answer turn guardian_review_id owner_call
                {| context_host := NetPolicy.req_host request; context_protocol := protocol |}
                approval_decision;
            cache_decision key resolved cache_session_deny;;
            set_decision pending resolved;;
            remove_pending key;;
            Ret (to_network_decision resolved)
        end
  end.

Definition request_key (request : NetPolicy.NetworkPolicyRequest) : HostApprovalKey :=
  from_request request (approval_protocol (NetPolicy.protocol request)).

Definition handle_inline_policy_request (request : NetPolicy.NetworkPolicyRequest)
    : Prog NetPolicy.NetworkDecision :=
  let key := request_key request in
  denied ← reading (fun s => bool_decide (key ∈ session_denied_hosts (network_approval s)));
  if denied : bool then Ret (NetPolicy.deny REASON_NOT_ALLOWED)
  else
    approved ← reading (fun s => bool_decide (key ∈ session_approved_hosts (network_approval s)));
    if approved : bool then Ret NetPolicy.Allow
    else
      '(pending, is_owner) ← get_or_create_pending_approval key;
      if is_owner : bool then decide_as_owner request key pending
      else
        d ← wait_for_decision pending;
        Ret (to_network_decision d).

(** [build_network_policy_decider]: a session that is gone decides nothing. *)
Definition network_policy_decider (session_alive : bool) (request : NetPolicy.NetworkPolicyRequest)
    : Prog NetPolicy.NetworkDecision :=
  if session_alive then handle_inline_policy_request request
  else Ret (NetPolicy.ask REASON_NOT_ALLOWED).

(** The task that serves a request, to the end. *)
Definition serve (request : NetPolicy.NetworkPolicyRequest) : Prog unit :=
  d ← handle_inline_policy_request request;
  tell (Answered request d).

(** ** A tool call that registers while it runs *)

Definition begin_network_approval (turn_id : str) (managed_network_active : bool)
    (spec : option NetworkApprovalSpec) : Prog (option ActiveNetworkApproval) :=
  match spec with
  | None => Ret None
  | Some spec =>
      if negb managed_network_active || negb (spec_network spec) then Ret None
      else
        id ← ask NewId;
        register_call id turn_id (spec_trigger spec) (spec_command spec);;
        Ret (Some {| active_registration_id := Some id; active_mode := spec_mode spec |})
  end.

(** The error, if there is one. *)
Definition finish_immediate_network_approval (active : ActiveNetworkApproval)
    : Prog (option ToolError) :=
  match active_registration_id active with
  | None => Ret None
  | Some id =>
      approval_outcome ← take_call_outcome id;
      unregister_call id;;
      Ret match approval_outcome with
          | Some DeniedByUser => Some (Rejected (lit "rejected by user"))
          | Some (DeniedByPolicy message) => Some (Rejected message)
          | None => None
          end
  end.

Definition finish_deferred_network_approval (deferred : option str) : Prog unit :=
  match deferred with
  | Some id => unregister_call id
  | None => Ret tt
  end.

End Tasks.

End NetApproval.
