(* ===== verification/NetApprovalFacts.v ===== *)
(** * Facts about reviews and deferred approvals

    [ProgFacts] has the rules for programs, alone and among others; [GuardianFacts] what a
    review ends with and when it ends the turn; [NetApprovalFacts] the protocol between the
    requests of the proxy, as an invariant over everything that may interleave. *)

From Stdlib Require Import Ascii String.
From stdpp Require Import relations.
From S2P Require Import Prelude RustStr FsRoots Approval NetState NetPolicy AccessGrants.
From S2P Require Import ToolSession NetApproval.
Import Approval ToolSession Guardian NetworkPolicyDecision NetApproval.

Module ProgFacts.
Section Facts.
Context `{ToolTypes}.

(** ** Runs of programs in sequence *)

Lemma runs_bind {A B} (p : Prog A) (f : A -> Prog B) (h : list Event) (b : B) :
  runs (p ≫= f) h b <-> exists h1 a h2, runs p h1 a /\ runs (f a) h2 b /\ h = h1 ++ h2.
Proof.
  revert h. induction p as [a|X g k IH|q k IH|o k IH]; intros h; simpl.
  - split; [intros Hr; by exists [], a, h|]. by intros (? & ? & ? & [-> ->] & Hr & ->).
  - split.
    + intros (s & (h1 & a & h2 & Hr & Hf & ->)%IH). exists h1, a, h2. eauto 10.
    + intros (h1 & a & h2 & (s & Hr) & Hf & ->). exists s. apply IH. eauto 10.
  - split.
    + intros (x & h' & -> & (h1 & a & h2 & Hr & Hf & ->)%IH).
      exists (Asked q x :: h1), a, h2. eauto 10.
    + intros (h1 & a & h2 & (x & h' & -> & Hr) & Hf & ->).
      exists x, (h' ++ h2). split; [done|]. apply IH. eauto 10.
  - split.
    + intros (d & (h1 & a & h2 & Hr & Hf & ->)%IH). exists h1, a, h2. eauto 10.
    + intros (h1 & a & h2 & (d & Hr) & Hf & ->). exists d. apply IH. eauto 10.
Qed.

Lemma begins_nil {A} (p : Prog A) : begins p [].
Proof. destruct p; by left. Qed.

Lemma runs_begins {A} (p : Prog A) (h : list Event) (a : A) : runs p h a -> begins p h.
Proof.
  revert h. induction p as [b|X g k IH|q k IH|o k IH]; intros h; simpl.
  - intros [-> _]. by left.
  - intros (s & Hr). right. exists s. by apply IH.
  - intros (x & h' & -> & Hr). right. exists x, h'. split; [done|]. by apply IH.
  - intros (d & Hr). right. exists d. by apply IH.
Qed.

Lemma begins_bind {A B} (p : Prog A) (f : A -> Prog B) (h : list Event) :
  begins (p ≫= f) h <->
  begins p h \/ exists h1 a h2, runs p h1 a /\ begins (f a) h2 /\ h = h1 ++ h2.
Proof.
  revert h. induction p as [a|X g k IH|q k IH|o k IH]; intros h; simpl.
  - split; [intros Hr; right; by exists [], a, h|].
    intros [[->|[]]|(? & ? & ? & [-> ->] & Hr & ->)]; [apply begins_nil|done].
  - split.
    + intros [->|(s & [Hp|(h1 & a & h2 & Hr & Hf & ->)]%IH)]; eauto 10.
    + intros [[->|(s & Hp)]|(h1 & a & h2 & (s & Hr) & Hf & ->)];
        [by left|right; exists s; apply IH; eauto 10..].
  - split.
    + intros [->|(x & h' & -> & [Hp|(h1 & a & h2 & Hr & Hf & ->)]%IH)]; [by left; left|eauto 10|].
      right. exists (Asked q x :: h1), a, h2. eauto 10.
    + intros [[->|(x & h' & -> & Hp)]|(h1 & a & h2 & (x & h' & -> & Hr) & Hf & ->)]; [by left|right..].
      * exists x, h'. split; [done|]. apply IH. eauto 10.
      * exists x, (h' ++ h2). split; [done|]. apply IH. right. eauto 10.
  - split.
    + intros [->|(d & [Hp|(h1 & a & h2 & Hr & Hf & ->)]%IH)]; eauto 10.
    + intros [[->|(d & Hp)]|(h1 & a & h2 & (d & Hr) & Hf & ->)];
        [by left|right; exists d; apply IH; eauto 10..].
Qed.

(** ** The rules of [wp] *)

Lemma wp_mono {A} fit (p : Prog A) (h : list Event) (Q R : list Event -> A -> Prop) :
  wp fit p h Q -> (forall h a, Q h a -> R h a) -> wp fit p h R.
Proof.
  intros Hp HQ. revert h Hp. induction p as [a|X g k IH|q k IH|o k IH]; intros h; simpl; eauto.
  intros [Hq Hk]. split; [done|]. eauto.
Qed.

Lemma wp_bind {A B} fit (p : Prog A) (f : A -> Prog B) (h : list Event) (Q : list Event -> B -> Prop) :
  wp fit p h (fun h a => wp fit (f a) h Q) -> wp fit (p ≫= f) h Q.
Proof.
  revert h. induction p as [a|X g k IH|q k IH|o k IH]; intros h; simpl; eauto.
  intros [Hq Hk]. split; [done|]. intros x. by apply IH.
Qed.

Lemma wp_runs {A} fit (p : Prog A) (h h' : list Event) (Q : list Event -> A -> Prop) (a : A) :
  wp fit p h Q -> runs p h' a -> Q (h ++ h') a.
Proof.
  revert h h'. induction p as [b|X g k IH|q k IH|o k IH]; intros h h'; simpl.
  - intros HQ [-> ->]. by rewrite app_nil_r.
  - intros Hp (s & Hr). by eapply IH.
  - intros [_ Hk] (x & h2 & -> & Hr). rewrite cons_middle, app_assoc. by eapply IH.
  - intros Hp (d & Hr). by eapply IH.
Qed.

(** Everything that is asked is fit at its place. *)
Lemma wp_begins {A} fit (p : Prog A) (h h1 h2 : list Event) (Q : list Event -> A -> Prop) (e : Event) :
  wp fit p h Q -> begins p (h1 ++ e :: h2) -> fit (h ++ h1) (asked e).
Proof.
  revert h h1. induction p as [b|X g k IH|q k IH|o k IH]; intros h h1; simpl.
  - intros _ [E|[]]. by destruct h1.
  - intros Hp [E|(s & Hr)]; [by destruct h1|]. by eapply IH.
  - intros [Hq Hk] [E|(x & h' & E & Hr)]; [by destruct h1|].
    destruct h1 as [|e1 h1]; simplify_eq/=; [by rewrite app_nil_r|].
    rewrite cons_middle, app_assoc. by eapply IH.
  - intros Hp [E|(d & Hr)]; [by destruct h1|]. by eapply IH.
Qed.

(** ** Programs among other tasks

    [wp] for a task that only sees states of which [Good] holds, and where such a task can
    be after some events. *)

Section Among.
Context (Good : Session -> Prop).

Fixpoint wp_in {A} (fit : list Event -> Question -> Prop) (p : Prog A) (h : list Event)
    (Q : list Event -> A -> Prop) : Prop :=
  match p with
  | Ret a => Q h a
  | Lock f k => forall s, Good s -> wp_in fit (k (snd (f s))) h Q
  | Ask q k => fit h q /\ forall x, wp_in fit (k x) (h ++ [Asked q x]) Q
  | Wait o k => forall s d, Good s -> pending_decisions s !! o = Some (Some d) -> wp_in fit (k d) h Q
  end.

Lemma wp_in_mono {A} (fit fit' : list Event -> Question -> Prop) (p : Prog A) (h : list Event)
    (Q R : list Event -> A -> Prop) :
  wp_in fit p h Q -> (forall h q, fit h q -> fit' h q) -> (forall h a, Q h a -> R h a) ->
  wp_in fit' p h R.
Proof.
  intros Hp Hf HQ. revert h Hp. induction p as [a|X g k IH|q k IH|o k IH]; intros h; simpl; eauto.
  intros [Hq Hk]. split; [by apply Hf|]. eauto.
Qed.

Lemma wp_in_bind {A B} fit (p : Prog A) (f : A -> Prog B) (h : list Event)
    (Q : list Event -> B -> Prop) :
  wp_in fit p h (fun h a => wp_in fit (f a) h Q) -> wp_in fit (p ≫= f) h Q.
Proof.
  revert h. induction p as [a|X g k IH|q k IH|o k IH]; intros h; simpl; eauto.
  intros [Hq Hk]. split; [done|]. intros x. by apply IH.
Qed.

Inductive reaches (p0 : Prog unit) : list Event -> Prog unit -> Prop :=
| reaches_start : reaches p0 [] p0
| reaches_lock h X (f : Session -> Session * X) k s :
    reaches p0 h (Lock f k) -> Good s -> reaches p0 h (k (snd (f s)))
| reaches_ask h q k x : reaches p0 h (Ask q k) -> reaches p0 (h ++ [Asked q x]) (k x)
| reaches_wait h o k d s :
    reaches p0 h (Wait o k) -> Good s -> pending_decisions s !! o = Some (Some d) ->
    reaches p0 h (k d).

Lemma wp_in_reaches fit (p0 p : Prog unit) (h : list Event) (Q : list Event -> unit -> Prop) :
  wp_in fit p0 [] Q -> reaches p0 h p ->
  wp_in fit p h Q /\ forall h1 e h2, h = h1 ++ e :: h2 -> fit h1 (asked e).
Proof.
  intros Hp Hr. induction Hr as [|h X f k s _ [IH IHf] Hs|h q k x _ [IH IHf]|h o k d s _ [IH IHf] Hs Hd].
  - split; [done|]. by intros [].
  - split; [by apply IH|done].
  - destruct IH as [Hq Hk]. split; [apply Hk|]. intros h1 e h2 E.
    destruct h2 as [|e' h2 _] using rev_ind.
    + by apply app_inj_tail in E as [-> <-].
    + rewrite app_comm_cons, app_assoc in E. apply app_inj_tail in E as [E _]. by eapply IHf.
  - split; [by eapply IH|done].
Qed.

End Among.

Lemma reaches_weaken (Good Good' : Session -> Prop) p0 h p :
  (forall s, Good s -> Good' s) -> reaches Good p0 h p -> reaches Good' p0 h p.
Proof. intros Hg. induction 1; econstructor; eauto. Qed.

(** Where nothing is known of the states, it is [wp]. *)
Lemma wp_in_wp {A} fit (p : Prog A) (h : list Event) (Q : list Event -> A -> Prop) :
  wp_in (fun _ => True) fit p h Q -> wp fit p h Q.
Proof.
  revert h. induction p as [a|X g k IH|q k IH|o k IH]; intros h; simpl; eauto.
  - intros [Hq Hk]. split; [done|]. eauto.
  - intros Hp d. apply IH.
    apply (Hp (with_pending_decisions {[o := Some d]} new_session)); [done|].
    by apply lookup_singleton_eq.
Qed.

(** ** Calm programs

    A calm program leaves the hosts and their pending decisions alone, waits for nothing,
    and asks only what [ok] allows. *)

Definition same_hosts (s s' : Session) : Prop :=
  pending_host_approvals (network_approval s') = pending_host_approvals (network_approval s) /\
  session_approved_hosts (network_approval s') = session_approved_hosts (network_approval s) /\
  session_denied_hosts (network_approval s') = session_denied_hosts (network_approval s) /\
  pending_decisions s' = pending_decisions s.

Fixpoint calm {A} (ok : Question -> Prop) (p : Prog A) : Prop :=
  match p with
  | Ret _ => True
  | Lock f k => forall s, same_hosts s (fst (f s)) /\ calm ok (k (snd (f s)))
  | Ask q k => ok q /\ forall x, calm ok (k x)
  | Wait _ _ => False
  end.

Lemma calm_bind {A B} ok (p : Prog A) (f : A -> Prog B) :
  calm ok p -> (forall a, calm ok (f a)) -> calm ok (p ≫= f).
Proof.
  intros Hp Hf. induction p as [a|X g k IH|q k IH|o k IH]; simpl in *; [done| | |done].
  - intros s. destruct (Hp s) as [Hs Hk]. split; [done|]. by apply IH.
  - destruct Hp as [Hq Hk]. split; [done|]. intros x. by apply IH.
Qed.

Lemma calm_mono {A} (ok ok' : Question -> Prop) (p : Prog A) :
  calm ok p -> (forall q, ok q -> ok' q) -> calm ok' p.
Proof.
  intros Hp Hq. induction p as [a|X g k IH|q k IH|o k IH]; simpl in *; [done| | |done].
  - intros s. destruct (Hp s) as [Hs Hk]. split; [done|]. by apply IH.
  - destruct Hp as [Hok Hk]. split; [by apply Hq|]. intros x. by apply IH.
Qed.

(** A program that asks nothing but what fits ends as it runs. *)
Lemma wp_in_calm {A} (Good : Session -> Prop) ok (p : Prog A) (h : list Event) :
  calm ok p -> wp_in Good (fun _ q => ok q) p h (fun h' a =>
    exists h2, h' = h ++ h2 /\ Forall (fun e => ok (asked e)) h2 /\ runs p h2 a).
Proof.
  revert h. induction p as [a|X f k IH|q k IH|o k IH]; intros h Hp; simpl in *; [| | |done].
  - exists []. by rewrite app_nil_r.
  - intros s _. eapply wp_in_mono; [by apply IH, Hp|done|].
    intros h' a (h2 & -> & Hok & Hr). exists h2. split_and!; [done|done|]. by exists s.
  - destruct Hp as [Hq Hk]. split; [done|]. intros x. eapply wp_in_mono; [by apply IH|done|].
    intros h' a (h2 & -> & Hok & Hr). exists (Asked q x :: h2). split_and!.
    + by rewrite <-app_assoc.
    + by constructor.
    + by exists x, h2.
Qed.

Lemma calm_updating ok (f : Session -> Session) : (forall s, same_hosts s (f s)) -> calm ok (updating f).
Proof. intros Hf s. by split. Qed.

Lemma calm_reading {X} ok (f : Session -> X) : calm ok (reading f).
Proof. intros s. by repeat split. Qed.

Lemma calm_ask ok (q : Question) : ok q -> calm ok (ask q).
Proof. by split. Qed.

Lemma calm_tell (ok : Question -> Prop) (e : SessionEvent) : ok (Tell e) -> calm ok (tell e).
Proof. by split. Qed.

End Facts.
End ProgFacts.

Module GuardianFacts.
Import AccessGrants ToolSession Guardian ProgFacts.

Local Arguments record_denial : simpl never.
Local Arguments lit : simpl never.

Section Reviews.
Context `{ToolTypes}.

Definition anything : list Event -> Question -> Prop := fun _ _ => True.

(** What the reviewer said, if it said anything. *)
Definition assessed (request : GuardianApprovalRequest) (retry_reason : option str)
    (outcome : GuardianReviewOutcome) (h : list Event) : Prop :=
  Asked (ReviewSession request retry_reason) outcome ∈ h.

(** The decisions that follow from what the reviewer said. *)
Definition outcome_decision (outcome : GuardianReviewOutcome) : ReviewDecision :=
  match outcome with
  | Completed a =>
      match ToolSession.outcome a with OutcomeAllow => Approved | OutcomeDeny => Denied end
  | ReviewError Timeout => TimedOut
  | ReviewError Cancelled => Abort
  | ReviewError (PromptBuild _ | SessionFailed _ | Parse _) => Denied
  end.

Ltac wp_tells := unfold tell, ask, updating, record_guardian_non_denial;
  cbn -[lit record_denial app review_verdict record_guardian_denial];
  repeat match goal with
  | x : unit |- _ => destruct x
  | |- _ /\ _ => split; [exact I|]
  | |- forall _, _ => intros ?
  end.

Lemma wp_record_denial (turn_id : str) (h : list Event) (Q : list Event -> unit -> Prop) :
  (forall h', Q (h ++ h') tt) -> wp anything (record_guardian_denial turn_id) h Q.
Proof.
  intros HQ. unfold record_guardian_denial. cbn -[record_denial lit]. intros s.
  destruct (record_denial turn_id (circuit_breaker s)) as [b [|c t]]; cbn -[lit record_denial app].
  - by rewrite <-(app_nil_r h).
  - split; [exact I|]. intros [|]; cbn -[lit record_denial app]; [|apply HQ]. wp_tells. rewrite <-!app_assoc. apply HQ.
Qed.

Lemma wp_verdict (review_id turn_id : str) (a : GuardianAssessment) (count : bool)
    (h : list Event) (Q : list Event -> ReviewDecision -> Prop) :
  (forall h', Q (h ++ h') (outcome_decision (Completed a))) ->
  wp anything (review_verdict review_id turn_id a count) h Q.
Proof.
  cbn [outcome_decision]. intros HQ. unfold review_verdict. wp_tells.
  apply wp_bind. destruct count.
  - apply wp_record_denial. intros h'. rewrite <-!app_assoc.
    destruct (ToolSession.outcome a) in *; apply HQ.
  - wp_tells. rewrite <-!app_assoc. destruct (ToolSession.outcome a) in *; apply HQ.
Qed.

Lemma wp_conclude (review_id turn_id : str) (request : GuardianApprovalRequest)
    (retry_reason : option str) (outcome : GuardianReviewOutcome) (h : list Event) :
  assessed request retry_reason outcome h ->
  wp anything (conclude_review review_id turn_id outcome) h
    (fun h d => assessed request retry_reason outcome h /\ d = outcome_decision outcome).
Proof.
  unfold assessed. intros Ho. destruct outcome as [a|[m|m|m| |]]; cbn [conclude_review].
  1-4: apply wp_verdict; intros h'; split; [set_solver|done].
  - wp_tells. split; [set_solver|done].
  - unfold abort_review. wp_tells. split; [set_solver|done].
Qed.

Lemma wp_review (turn : TurnContext) (review_id : str) (request : GuardianApprovalRequest)
    (retry_reason : option str) (cancellable : bool) :
  wp anything (run_guardian_review turn review_id request retry_reason cancellable) []
    (fun h d =>
      (exists outcome, assessed request retry_reason outcome h /\ d = outcome_decision outcome) \/
      (cancellable = true /\ Asked IsCancelled true ∈ h /\ d = Abort)).
Proof.
  assert (forall h, wp anything
    (outcome ← ask (ReviewSession request retry_reason);
     conclude_review review_id (guardian_request_turn_id request (sub_id turn)) outcome) h
    (fun h d => exists outcome, assessed request retry_reason outcome h /\
                d = outcome_decision outcome)) as Hreview.
  { intros h. split; [exact I|]. intros outcome.
    eapply wp_mono; [apply (wp_conclude _ _ request retry_reason); unfold assessed; set_solver|].
    intros h' d Hd. by exists outcome. }
  unfold run_guardian_review. split; [exact I|]. intros []. apply wp_bind.
  destruct cancellable.
  - split; [exact I|]. intros [|].
    + unfold abort_review. wp_tells. right. split_and!; [done|set_solver|done].
    + refine (wp_mono _ _ _ _ _ (Hreview _) _). auto.
  - refine (wp_mono _ _ _ _ _ (Hreview _) _). auto.
Qed.

Lemma review_outcome (turn : TurnContext) (review_id : str)
    (request : GuardianApprovalRequest) (retry_reason : option str) (cancellable : bool)
    (h : list Event) (d : ReviewDecision) :
  runs (run_guardian_review turn review_id request retry_reason cancellable) h d ->
  (exists outcome, assessed request retry_reason outcome h /\ d = outcome_decision outcome) \/
  (cancellable = true /\ Asked IsCancelled true ∈ h /\ d = Abort).
Proof. intros Hr. eapply wp_runs in Hr; [|apply wp_review]. exact Hr. Qed.

(** A review by the guardian fails closed: it ends with an approval exactly when the
    reviewer completed its assessment and its outcome was to allow the action. A failure to
    start, an answer that cannot be read, a time-out and a cancellation all end without. *)
Theorem review_fails_closed (turn : TurnContext) (review_id : str)
    (request : GuardianApprovalRequest) (retry_reason : option str) (cancellable : bool)
    (h : list Event) (d : ReviewDecision) :
  runs (run_guardian_review turn review_id request retry_reason cancellable) h d ->
  (d = Approved ->
     exists a, assessed request retry_reason (Completed a) h /\ ToolSession.outcome a = OutcomeAllow) /\
  (exists outcome, assessed request retry_reason outcome h /\ d = outcome_decision outcome) \/
  (cancellable = true /\ Asked IsCancelled true ∈ h /\ d = Abort).
Proof.
  intros [(o & Ho & Hd)|Hc]%review_outcome; [left|by right]. split; [|eauto].
  intros ->. destruct o as [a|[]]; simpl in Hd; try done.
  exists a. split; [done|]. by destruct (ToolSession.outcome a).
Qed.

End Reviews.

(** ** The counter *)

(** The answers of a turn, the latest first: whether it was a refusal. *)
Fixpoint streak (r : list bool) : N :=
  match r with true :: r => (streak r + 1)%N | _ => 0%N end.

Fixpoint refusals (r : list bool) : N :=
  match r with [] => 0%N | true :: r => (refusals r + 1)%N | false :: r => refusals r end.

Definition trips (r : list bool) : bool :=
  match r with
  | true :: _ => (3 <=? streak r) || (10 <=? refusals r)
  | _ => false
  end%N.

Fixpoint tripped (r : list bool) : bool :=
  match r with [] => false | b :: r' => trips r || tripped r' end.

Local Arguments N.min : simpl never.
Local Arguments N.add : simpl never.
Local Arguments N.leb : simpl never.

(** What the answers about all turns, the latest first, do to the counters. *)
Fixpoint counted (ops : list (str * bool)) : CircuitBreaker :=
  match ops with
  | [] => ∅
  | (t, true) :: ops => fst (record_denial t (counted ops))
  | (t, false) :: ops => record_non_denial t (counted ops)
  end.

Definition answers_of (t : str) (ops : list (str * bool)) : list bool :=
  map snd (List.filter (fun o => str_eqb (fst o) t) ops).

Lemma streak_le (r : list bool) : (streak r <= refusals r)%N.
Proof. induction r as [|[] r IH]; simpl; lia. Qed.

Lemma untripped_few (r : list bool) : tripped r = false -> (refusals r < 10)%N.
Proof.
  induction r as [|[] r IH]; simpl; [lia| |auto].
  rewrite !orb_false_iff. intros [[_ Ht] _]. apply N.leb_gt in Ht. simpl in Ht. lia.
Qed.

Lemma record_other_turn (t t' : str) (b : CircuitBreaker) :
  t <> t' ->
  breaker_turn (fst (record_denial t b)) t' = breaker_turn b t' /\
  breaker_turn (record_non_denial t b) t' = breaker_turn b t'.
Proof.
  intros Hne. unfold breaker_turn, record_denial, record_non_denial. simpl.
  by rewrite !lookup_insert_ne by done.
Qed.

Lemma answers_of_cons (t t' : str) (b : bool) (ops : list (str * bool)) :
  answers_of t ((t', b) :: ops) =
  if str_eqb t' t then b :: answers_of t ops else answers_of t ops.
Proof. unfold answers_of. simpl. by destruct (str_eqb t' t). Qed.

(** The counters are the numbers of the answers, up to the width of a counter. *)
Lemma counted_turn (ops : list (str * bool)) (t : str) :
  breaker_turn (counted ops) t =
  {| consecutive_denials := N.min U32_MAX (streak (answers_of t ops));
     total_denials := N.min U32_MAX (refusals (answers_of t ops));
     interrupt_triggered := tripped (answers_of t ops) |}.
Proof.
  induction ops as [|[t' b] ops IH]; [done|].
  rewrite answers_of_cons. destruct (str_eqb t' t) eqn:E.
  - apply str_eqb_eq in E as ->. destruct b; simpl.
    + unfold breaker_turn at 1, record_denial. simpl. rewrite lookup_insert_eq. simpl.
      rewrite IH. simpl. f_equal; unfold saturating_succ, U32_MAX; [lia|lia|].
      destruct (tripped (answers_of t ops)); simpl; [by rewrite orb_true_r|].
      rewrite orb_false_r. unfold MAX_CONSECUTIVE_GUARDIAN_DENIALS_PER_TURN,
        MAX_TOTAL_GUARDIAN_DENIALS_PER_TURN. f_equal; apply eq_true_iff_eq; rewrite !N.leb_le; lia.
    + unfold breaker_turn at 1, record_non_denial. simpl. rewrite lookup_insert_eq. simpl.
      rewrite IH. done.
  - assert (t' <> t) as Hne by (intros ->; by rewrite str_eqb_refl in E).
    destruct (record_other_turn t' t (counted ops) Hne) as [H1 H2].
    destruct b; cbn [counted]; [by rewrite H1|by rewrite H2].
Qed.

(** A refusal interrupts its turn exactly when it makes three in a row or ten in all, and no
    refusal of the turn did so before: each turn is interrupted at most once, with the true
    numbers, and what is counted for other turns plays no part. *)
Theorem refusals_interrupt_once (ops : list (str * bool)) (t : str) :
  let r := answers_of t ops in
  snd (record_denial t (counted ops)) =
  if trips (true :: r) && negb (tripped r)
  then InterruptTurn (streak (true :: r)) (refusals (true :: r)) else Continue.
Proof.
  intros r. unfold record_denial. rewrite counted_turn. fold r. simpl.
  destruct (tripped r) eqn:Et; simpl; [by rewrite andb_false_r|]. rewrite andb_true_r.
  pose proof (untripped_few r Et). pose proof (streak_le r).
  unfold saturating_succ, U32_MAX, MAX_CONSECUTIVE_GUARDIAN_DENIALS_PER_TURN,
    MAX_TOTAL_GUARDIAN_DENIALS_PER_TURN.
  replace (N.min 4294967295 (N.min 4294967295 (streak r) + 1)) with (streak r + 1)%N by lia.
  by replace (N.min 4294967295 (N.min 4294967295 (refusals r) + 1)) with (refusals r + 1)%N by lia.
Qed.

End GuardianFacts.

Module NetApprovalFacts.
Import ProgFacts.

(** ** The identifier of an approval names its key *)

Lemma digits_value (fuel n : nat) :
  n < fuel -> fold_left (fun acc c => 10 * acc + (N.to_nat c - 48)) (digits fuel n) 0 = n.
Proof.
  revert n. induction fuel as [|fuel IH]; intros n Hn; [lia|]. cbn [digits].
  rewrite fold_left_app. cbn [fold_left]. rewrite Nnat.Nat2N.id.
  pose proof (Nat.div_mod_eq n 10) as E. destruct (Nat.ltb_spec n 10) as [Hs|Hs].
  - rewrite Nat.mod_small by done. cbn [fold_left]. lia.
  - rewrite IH; [lia|]. pose proof (Nat.div_lt n 10 ltac:(lia) ltac:(lia)). lia.
Qed.

Lemma show_nat_inj (n m : nat) : show_nat n = show_nat m -> n = m.
Proof.
  unfold show_nat. intros E. rewrite <-(digits_value (S n) n), <-(digits_value (S m) m) by lia.
  by rewrite E.
Qed.

Lemma cut_at_first (c : char) (a b a' b' : str) :
  c ∉ a -> c ∉ a' -> a ++ c :: b = a' ++ c :: b' -> a = a' /\ b = b'.
Proof.
  revert a'. induction a as [|x a IH]; intros [|x' a'] Ha Ha' E; simplify_eq/=.
  - done.
  - by destruct Ha'; left.
  - by destruct Ha; left.
  - apply not_elem_of_cons in Ha as [_ Ha], Ha' as [_ Ha'].
    by destruct (IH a' Ha Ha' H0) as [-> ->].
Qed.

Lemma cut_at_last (c : char) (a b a' b' : str) :
  c ∉ b -> c ∉ b' -> a ++ c :: b = a' ++ c :: b' -> a = a' /\ b = b'.
Proof.
  intros Hb Hb' E%(f_equal reverse). rewrite !reverse_app, !reverse_cons, <-!app_assoc in E.
  apply cut_at_first in E as [E1 E2]; [|by rewrite elem_of_reverse..].
  by apply (inj reverse) in E1, E2.
Qed.

Definition HASH : char := ch "#".

(** The protocol is one of the labels, none of which has the separator. *)
Definition sound_key (key : HostApprovalKey) : Prop := HASH ∉ key_protocol key.

Lemma approval_id_inj (k k' : HostApprovalKey) :
  sound_key k -> sound_key k' -> approval_id_for_key k = approval_id_for_key k' -> k = k'.
Proof.
  destruct k as [h p n], k' as [h' p' n']. unfold sound_key, approval_id_for_key.
  cbn [key_protocol key_host key_port]. intros Hp Hp' E. apply app_inv_head in E.
  apply (cut_at_first HASH p _ p' _) in E as [-> E]; [|done..].
  apply (cut_at_last HASH h _ h' _) in E as [-> E]; [|by apply show_nat_absent..].
  apply show_nat_inj in E. f_equal. lia.
Qed.

Lemma request_key_sound (request : NetPolicy.NetworkPolicyRequest) : sound_key (request_key request).
Proof.
  unfold sound_key, request_key, from_request. cbn [key_protocol].
  destruct (NetPolicy.protocol request); by apply (bool_decide_unpack _).
Qed.

Section Protocol.
Context `{ToolTypes}.

(** ** What events say about a host *)

(** The event is an answer to a question about the host of the key that lets it through. *)
Definition approves (key : HostApprovalKey) (e : Event) : Prop :=
  match e with
  | Asked q a =>
      (match q return Answer q -> Prop with
       | RunHooks id _ => fun a => id = approval_id_for_key key /\ a = Some HookAllow
       | CommandApproval id _ _ _ _ _ _ => fun a =>
           id = approval_id_for_key key /\
           match a with
           | AccessGrants.Approved | AccessGrants.ApprovedExecpolicyAmendment _
           | AccessGrants.ApprovedForSession
           | AccessGrants.NetworkPolicyAmendment _ AccessGrants.ActionAllow => True
           | _ => False
           end
       | ReviewSession (GuardianNetworkAccess id _ _ _ _ _ _) _ => fun a =>
           id = approval_id_for_key key /\
           match a with Completed a => ToolSession.outcome a = OutcomeAllow | _ => False end
       | _ => fun _ => False
       end) a
  end.

(** The user lets the host through for the session, or refuses it for the session. *)
Definition approves_for_session (key : HostApprovalKey) (e : Event) : Prop :=
  match e with
  | Asked q a =>
      (match q return Answer q -> Prop with
       | CommandApproval id _ _ _ _ _ _ => fun a =>
           id = approval_id_for_key key /\
           match a with
           | AccessGrants.ApprovedForSession
           | AccessGrants.NetworkPolicyAmendment _ AccessGrants.ActionAllow => True
           | _ => False
           end
       | _ => fun _ => False
       end) a
  end.

Definition refuses_for_session (key : HostApprovalKey) (e : Event) : Prop :=
  match e with
  | Asked q a =>
      (match q return Answer q -> Prop with
       | CommandApproval id _ _ _ _ _ _ => fun a =>
           id = approval_id_for_key key /\
           match a with
           | AccessGrants.NetworkPolicyAmendment _ AccessGrants.ActionDeny => True
           | _ => False
           end
       | _ => fun _ => False
       end) a
  end.

(** A question about the host of a key. *)
Definition asks_about (key : HostApprovalKey) (q : Question) : Prop :=
  sound_key key /\
  match q with
  | RunHooks id _ | CommandApproval id _ _ _ _ _ _
  | ReviewSession (GuardianNetworkAccess id _ _ _ _ _ _) _ => id = approval_id_for_key key
  | _ => False
  end.

Definition said (P : Event -> Prop) (h : list Event) : Prop := exists e, e ∈ h /\ P e.

Lemma said_app (P : Event -> Prop) (h h' : list Event) : said P h -> said P (h ++ h').
Proof. intros (e & He & HP). exists e. split; [set_solver|done]. Qed.

Lemma said_here (P : Event -> Prop) (h : list Event) (e : Event) : P e -> said P (h ++ [e]).
Proof. intros HP. exists e. split; [set_solver|done]. Qed.

Lemma session_approves (key : HostApprovalKey) (e : Event) :
  approves_for_session key e -> approves key e.
Proof. by destruct e as [[] a]; simpl; try done; intros [-> Ha]; split; [|destruct a as [| | |? []| | |]]. Qed.

(** ** What a task is to the others

    A request that found no decision owns the pending approval of its key until it removes
    it; [ph] is how far it got. One that found a pending approval waits for it. *)

Inductive Phase := Plain | Undenied | Unapproved | Decided (d : PendingApprovalDecision).

Inductive Role :=
| Idle
| Owner (key : HostApprovalKey) (o : nat) (ph : Phase)
| Waiter (key : HostApprovalKey) (o : nat)
| Knows (key : HostApprovalKey).

Definition after (key : HostApprovalKey) (d : PendingApprovalDecision) : Role :=
  match d with DenyPending => Idle | AllowOnce | AllowForSession => Knows key end.

Definition created (key : HostApprovalKey) (o : nat) (s : Session) : Session :=
  with_pending_decisions (<[o := None]> (pending_decisions s))
    (on_service (fun n => with_pending_host_approvals (<[key := o]> (pending_host_approvals n)) n) s).

Definition decided (o : nat) (d : PendingApprovalDecision) (s : Session) : Session :=
  with_pending_decisions (<[o := Some d]> (pending_decisions s)) s.

Definition released (key : HostApprovalKey) : Session -> Session :=
  on_service (fun n => with_pending_host_approvals (delete key (pending_host_approvals n)) n).

Definition approved_hosts (f : gset HostApprovalKey -> gset HostApprovalKey) : Session -> Session :=
  on_service (fun n => with_approved_hosts (f (session_approved_hosts n)) n).

Definition denied_hosts (f : gset HostApprovalKey -> gset HostApprovalKey) : Session -> Session :=
  on_service (fun n => with_denied_hosts (f (session_denied_hosts n)) n).

(** The answers [h], at least one, are those with which a request for the host of the key
    gets to this decision, and answers it. *)
Definition decides (key : HostApprovalKey) (d : PendingApprovalDecision) (h : list Event) : Prop :=
  h <> [] /\ exists request, request_key request = key /\
    runs (serve request) (h ++ [Asked (Tell (Answered request (to_network_decision d))) tt]) tt.

(** What a task that had the answers [h] may do under a lock. *)
Inductive act (h : list Event) : Role -> Session -> Role -> Session -> Prop :=
| act_elsewhere r s s' : same_hosts s s' -> act h r s r s'
| act_find key s :
    key ∈ session_approved_hosts (network_approval s) -> act h Idle s (Knows key) s
| act_join key o s :
    pending_host_approvals (network_approval s) !! key = Some o -> act h Idle s (Waiter key o) s
| act_create key o s :
    pending_host_approvals (network_approval s) !! key = None ->
    pending_decisions s !! o = None ->
    act h Idle s (Owner key o Plain) (created key o s)
| act_undeny key o s :
    act h (Owner key o Plain) s (Owner key o Undenied) (denied_hosts (fun x => x ∖ {[key]}) s)
| act_approve key o s :
    said (approves_for_session key) h ->
    act h (Owner key o Undenied) s (Owner key o Plain) (approved_hosts (fun x => x ∪ {[key]}) s)
| act_unapprove key o s :
    act h (Owner key o Plain) s (Owner key o Unapproved) (approved_hosts (fun x => x ∖ {[key]}) s)
| act_deny key o s :
    said (refuses_for_session key) h ->
    act h (Owner key o Unapproved) s (Owner key o Plain) (denied_hosts (fun x => x ∪ {[key]}) s)
| act_decide key o d s :
    (d <> DenyPending -> said (approves key) h) -> decides key d h ->
    act h (Owner key o Plain) s (Owner key o (Decided d)) (decided o d s)
| act_release key o d s :
    act h (Owner key o (Decided d)) s (after key d) (released key s).

(** Questions about a host are asked by its owner; a request is let through if it is known
    to be approved. *)
Definition may_ask (r : Role) (h : list Event) (q : Question) : Prop :=
  (forall key, asks_about key q -> exists o ph, r = Owner key o ph) /\
  match q with
  | Tell (Answered request NetPolicy.Allow) => r = Knows (request_key request)
  | _ => True
  end.

(** The program keeps to the protocol from the role on. *)
Fixpoint keeps {A} (p : Prog A) (r : Role) (h : list Event)
    (Q : Role -> list Event -> A -> Prop) : Prop :=
  match p with
  | Ret a => Q r h a
  | Lock f k => forall s, exists r', act h r s r' (fst (f s)) /\ keeps (k (snd (f s))) r' h Q
  | Ask q k => may_ask r h q /\ forall x, keeps (k x) r (h ++ [Asked q x]) Q
  | Wait o k => exists key, r = Waiter key o /\ forall d, keeps (k d) (after key d) h Q
  end.

Lemma keeps_bind {A B} (p : Prog A) (f : A -> Prog B) r h (Q : Role -> list Event -> B -> Prop) :
  keeps p r h (fun r h a => keeps (f a) r h Q) -> keeps (p ≫= f) r h Q.
Proof.
  revert r h. induction p as [a|X g k IH|q k IH|o k IH]; intros r h; simpl; [done| | |].
  - intros Hp s. destruct (Hp s) as (r' & Hact & Hk). exists r'. eauto.
  - intros [Hq Hk]. split; [done|]. eauto.
  - intros (key & -> & Hk). exists key. eauto.
Qed.

Lemma keeps_mono {A} (p : Prog A) r h (Q R : Role -> list Event -> A -> Prop) :
  keeps p r h Q -> (forall r h a, Q r h a -> R r h a) -> keeps p r h R.
Proof.
  intros Hp HQ. revert r h Hp. induction p as [a|X g k IH|q k IH|o k IH]; intros r h; simpl; [auto| | |].
  - intros Hp s. destruct (Hp s) as (r' & Hact & Hk). exists r'. eauto.
  - intros [Hq Hk]. split; [done|]. eauto.
  - intros (key & -> & Hk). exists key. eauto.
Qed.

(** A calm program keeps to it in any role that may ask its questions. *)
Lemma keeps_calm {A} ok (p : Prog A) r h (Q : Role -> list Event -> A -> Prop) :
  calm ok p -> (forall h q, ok q -> may_ask r h q) ->
  (forall h' a, runs p h' a -> Q r (h ++ h') a) ->
  keeps p r h Q.
Proof.
  intros Hp Hok. revert h. induction p as [a|X g k IH|q k IH|o k IH]; intros h HQ; simpl in *; [| | |done].
  - rewrite <-(app_nil_r h). by apply HQ.
  - intros s. destruct (Hp s) as [Hs Hk]. exists r. split; [by constructor|].
    apply IH; [done|]. intros h' a Hr. apply HQ. eauto.
  - destruct Hp as [Hq Hk]. split; [by apply Hok|]. intros x. apply IH; [done|].
    intros h' a Hr. rewrite <-app_assoc. apply HQ. exists x. eauto.
Qed.

(** ** The programs keep to it *)

Definition harmless (q : Question) : Prop :=
  (forall key, ~ asks_about key q) /\
  match q with Tell (Answered _ NetPolicy.Allow) => False | _ => True end.

Lemma harmless_may_ask (r : Role) (h : list Event) (q : Question) : harmless q -> may_ask r h q.
Proof. intros [Hk Ht]. split; [by intros key []%Hk|]. by destruct q as [| | | | | | | | | | |[| | | | | |? []]]. Qed.

Ltac calm_steps :=
  repeat match goal with
  | |- calm _ (mbind _ _) => apply calm_bind; [|intros ?]
  | |- calm _ (if ?b then _ else _) => destruct b
  | |- calm _ (match ?o with Some _ => _ | None => _ end) => destruct o
  | |- calm _ (let '(_, _) := ?p in _) => destruct p
  | |- calm _ (Ret _) => exact I
  | |- calm _ (updating _) => apply calm_updating; intros ?; by repeat split
  | |- calm _ (reading _) => apply calm_reading
  | |- calm _ (tell _) => apply calm_tell
  | |- calm _ (ask _) => apply calm_ask
  end.

Lemma calm_record_call_outcome ok (id : str) (o : NetworkApprovalOutcome) :
  calm ok (record_call_outcome id o).
Proof.
  apply calm_updating. intros s. unfold on_service, record_outcome.
  by destruct (call_outcomes (network_approval s) !! id) as [[]|]; repeat split.
Qed.

Lemma calm_record_for ok (c : option ActiveNetworkApprovalCall) (o : NetworkApprovalOutcome) :
  calm ok (record_for c o).
Proof. destruct c; [apply calm_record_call_outcome|done]. Qed.

Lemma calm_record_single ok (o : NetworkApprovalOutcome) :
  calm ok (record_outcome_for_single_active_call o).
Proof. apply calm_bind; [apply calm_reading|]. intros c. apply (calm_record_for ok c o). Qed.

Lemma calm_rejection_message ok (review_id : str) : calm ok (guardian_rejection_message review_id).
Proof. apply calm_bind; [|done]. intros s. by repeat split. Qed.

Lemma harmless_tell (e : SessionEvent) :
  match e with Answered _ NetPolicy.Allow => False | _ => True end -> harmless (Tell e).
Proof. intros He. split; [by intros key []|done]. Qed.

(** What a review asks, beside the reviewer. *)
Definition review_question (q : Question) : Prop :=
  match q with
  | Tell (GuardianWarning _ | GuardianAssessed _ _ _ _ | AbortTurn _) | IsTurnActive _ | IsCancelled =>
      True
  | _ => False
  end.

Lemma review_question_harmless (q : Question) : review_question q -> harmless q.
Proof. destruct q as [| | | | | | | | | | |[]]; try done; by split; [intros ? []|]. Qed.

Lemma calm_record_denial (ok : Question -> Prop) (turn_id : str) :
  (forall q, review_question q -> ok q) -> calm ok (record_guardian_denial turn_id).
Proof.
  intros Hok. apply calm_bind.
  { intros s. unfold record_denial. by repeat split. }
  intros [|c t]; [done|]. calm_steps; by apply Hok.
Qed.

Lemma calm_verdict (ok : Question -> Prop) (review_id turn_id : str) (a : GuardianAssessment)
    (count : bool) :
  (forall q, review_question q -> ok q) -> calm ok (review_verdict review_id turn_id a count).
Proof.
  intros Hok. unfold review_verdict. calm_steps; try (by apply Hok); [by apply calm_record_denial|].
  unfold record_guardian_non_denial. calm_steps.
Qed.

Definition reviewing (request : GuardianApprovalRequest) (retry_reason : option str) (q : Question)
    : Prop := review_question q \/ q = ReviewSession request retry_reason.

Lemma calm_review (turn : TurnContext) (review_id : str) (request : GuardianApprovalRequest)
    (retry_reason : option str) (cancellable : bool) :
  calm (reviewing request retry_reason)
    (run_guardian_review turn review_id request retry_reason cancellable).
Proof.
  assert (forall q, review_question q -> reviewing request retry_reason q) as Hok by (by left).
  assert (forall review_id turn_id, calm (reviewing request retry_reason) (abort_review review_id turn_id))
    as Habort.
  { intros id t. unfold abort_review, record_guardian_non_denial. calm_steps. by apply Hok. }
  assert (forall review_id turn_id outcome,
    calm (reviewing request retry_reason) (conclude_review review_id turn_id outcome)) as Hconclude.
  { intros id t [a|[m|m|m| |]]; cbn [conclude_review]; [by apply calm_verdict..| |apply Habort].
    unfold record_guardian_non_denial. calm_steps; by apply Hok. }
  unfold run_guardian_review.
  calm_steps; [by apply Hok|by apply Hok|apply Habort|by right|apply Hconclude].
Qed.

(** What a review gave is on record. *)
Lemma review_said (turn : TurnContext) (review_id id turn_id target host : str)
    (protocol : NetworkApprovalProtocol) (port : N) (trigger : option GuardianNetworkAccessTrigger)
    (retry_reason : option str) (h : list Event) (d : ReviewDecision) (key : HostApprovalKey) :
  runs (review_approval_request turn review_id
          (GuardianNetworkAccess id turn_id target host protocol port trigger) retry_reason) h d ->
  id = approval_id_for_key key ->
  match d with
  | AccessGrants.Approved => said (approves key) h
  | AccessGrants.Denied | AccessGrants.Abort | AccessGrants.TimedOut => True
  | _ => False
  end.
Proof.
  intros Hr Hid. apply GuardianFacts.review_outcome in Hr as [(o & Ho & ->)|(_ & _ & ->)]; [|done].
  destruct o as [a|[]]; simpl in *; try done.
  destruct (ToolSession.outcome a) eqn:Ea; [|done]. eexists. split; [exact Ho|]. by split.
Qed.

Lemma may_ask_own (key : HostApprovalKey) (o : nat) (ph : Phase) (h : list Event) (q : Question) :
  (forall key', asks_about key' q -> key' = key) ->
  match q with Tell (Answered _ NetPolicy.Allow) => False | _ => True end ->
  may_ask (Owner key o ph) h q.
Proof.
  intros Hk Ht. split; [intros key' <-%Hk; eauto|].
  by destruct q as [| | | | | | | | | | |[| | | | | |? []]].
Qed.

(** A calm part of a program, between parts that are not. *)
Lemma keeps_calm_bind {A B} ok (p : Prog A) (f : A -> Prog B) r h (Q : Role -> list Event -> B -> Prop) :
  calm ok p -> (forall h q, ok q -> may_ask r h q) ->
  (forall h' a, runs p h' a -> keeps (f a) r (h ++ h') Q) ->
  keeps (p ≫= f) r h Q.
Proof. intros Hp Hok Hf. apply keeps_bind. by apply (keeps_calm ok). Qed.

Lemma keeps_ask {B} (q : Question) (f : Answer q -> Prog B) r h (Q : Role -> list Event -> B -> Prop) :
  may_ask r h q -> (forall x, keeps (f x) r (h ++ [Asked q x]) Q) -> keeps (x ← ask q; f x) r h Q.
Proof. by split. Qed.

Lemma keeps_lock {X B} (g : Session -> Session * X) (f : X -> Prog B) r h
    (Q : Role -> list Event -> B -> Prop) :
  (forall s, exists r', act h r s r' (fst (g s)) /\ keeps (f (snd (g s))) r' h Q) ->
  keeps (x ← Lock g Ret; f x) r h Q.
Proof. done. Qed.

Lemma keeps_wait {B} (o : nat) (f : PendingApprovalDecision -> Prog B) key h
    (Q : Role -> list Event -> B -> Prop) :
  (forall d, keeps (f d) (after key d) h Q) ->
  keeps (d ← wait_for_decision o; f d) (Waiter key o) h Q.
Proof. intros Hf. by exists key. Qed.

Lemma harmless_in (r : Role) (h : list Event) (q : Question) : harmless q -> may_ask r h q.
Proof. apply harmless_may_ask. Qed.

Definition answered_by (key : HostApprovalKey) (r : Role) (h : list Event)
    (d : NetPolicy.NetworkDecision) : Prop :=
  r = (match d with NetPolicy.Allow => Knows key | NetPolicy.Deny _ _ _ => Idle end).

(** Whatever [p] answers from here, the request may answer, having been told [h]. *)
Definition answers (request : NetPolicy.NetworkPolicyRequest) (p : Prog NetPolicy.NetworkDecision)
    (h : list Event) : Prop :=
  forall h2 x, runs p h2 x ->
    runs (serve request) ((h ++ h2) ++ [Asked (Tell (Answered request x)) tt]) tt.

Lemma answers_ask request (q : Question) k (h : list Event) (x : Answer q) :
  answers request (a ← ask q; k a) h -> answers request (k x) (h ++ [Asked q x]).
Proof.
  intros Hp h2 y Hr. rewrite <-(app_assoc h). apply Hp. exists x, h2. by split.
Qed.

Lemma answers_bind {A} request (p : Prog A) (f : A -> Prog NetPolicy.NetworkDecision)
    (h h' : list Event) (a : A) :
  answers request (p ≫= f) h -> runs p h' a -> answers request (f a) (h ++ h').
Proof.
  intros Hp Hr h2 y Hf. rewrite <-(app_assoc h). apply Hp, runs_bind. by exists h', a, h2.
Qed.

(** A program that has nothing left to ask when it decides. *)
Lemma answers_decides request (d : PendingApprovalDecision) (p : Prog NetPolicy.NetworkDecision)
    (h : list Event) :
  h <> [] -> answers request p h -> runs p [] (to_network_decision d) ->
  decides (request_key request) d h.
Proof.
  intros Hne Hp Hr. split; [done|]. exists request. split; [done|].
  specialize (Hp _ _ Hr). by rewrite app_nil_r in Hp.
Qed.

(** What a part of a program was told is what it ran with. *)
Lemma keeps_runs {A} (p : Prog A) r h (Q : Role -> list Event -> A -> Prop) :
  keeps p r h Q ->
  keeps p r h (fun r' h' a => Q r' h' a /\ exists h2, h' = h ++ h2 /\ runs p h2 a).
Proof.
  revert r h. induction p as [a|X g k IH|q k IH|o k IH]; intros r h; simpl.
  - intros HQ. split; [done|]. exists []. by rewrite app_nil_r.
  - intros Hp s. destruct (Hp s) as (r' & Hact & Hk). exists r'. split; [done|].
    eapply keeps_mono; [by apply IH|]. intros r2 h' a (HQ & h2 & -> & Hr).
    split; [done|]. exists h2. split; [done|]. by exists s.
  - intros [Hq Hk]. split; [done|]. intros x. eapply keeps_mono; [by apply IH|].
    intros r2 h' a (HQ & h2 & -> & Hr). split; [done|]. exists (Asked q x :: h2).
    split; [by rewrite <-app_assoc|]. by exists x, h2.
  - intros (key & -> & Hk). exists key. split; [done|]. intros d.
    eapply keeps_mono; [by apply IH|]. intros r2 h' a (HQ & h2 & -> & Hr).
    split; [done|]. exists h2. split; [done|]. by exists d.
Qed.

(** The two steps that end an ownership. *)
Lemma keeps_finish {A} (key : HostApprovalKey) (o : nat) (d : PendingApprovalDecision)
    (h : list Event) (p : Prog A) (Q : Role -> list Event -> A -> Prop) :
  (d <> DenyPending -> said (approves key) h) -> decides key d h ->
  keeps p (after key d) h Q ->
  keeps (set_decision o d;; remove_pending key;; p) (Owner key o Plain) h Q.
Proof.
  intros Hd Hdec Hp s. eexists. split; [by apply act_decide|]. intros s'. eexists.
  split; [apply act_release|]. done.
Qed.

Lemma keeps_deny_by_policy (request : NetPolicy.NetworkPolicyRequest) (o : nat) (message : str)
    (h : list Event) :
  let key := request_key request in
  h <> [] -> answers request (deny_by_policy key o message) h ->
  keeps (deny_by_policy key o message) (Owner key o Plain) h (answered_by key).
Proof.
  intros key Hne Ha. unfold deny_by_policy.
  apply keeps_finish; [done|apply (answers_decides request DenyPending _ _ Hne Ha)|].
  { exists new_session, new_session, new_session. by split. }
  apply (keeps_calm_bind harmless); [apply calm_record_single|apply harmless_in|done].
Qed.

(** Keeping the decision for the session. *)
Lemma keeps_cache (key : HostApprovalKey) (o : nat) (d : PendingApprovalDecision) (cached : bool)
    (h : list Event) (Q : Role -> list Event -> unit -> Prop) :
  (d = AllowForSession -> said (approves_for_session key) h) ->
  (cached = true -> said (refuses_for_session key) h) ->
  Q (Owner key o Plain) h tt ->
  keeps (cache_decision key d cached) (Owner key o Plain) h Q.
Proof.
  intros Ha Hr HQ. unfold cache_decision. apply keeps_bind.
  assert (keeps (if cached then
      updating (on_service (fun n => with_approved_hosts (session_approved_hosts n ∖ {[key]}) n));;
      updating (on_service (fun n => with_denied_hosts (session_denied_hosts n ∪ {[key]}) n))
    else Ret tt) (Owner key o Plain) h Q) as Hlast.
  { destruct cached; [|done]. intros s. eexists. split; [apply act_unapprove|]. intros s'. eexists.
    split; [by apply act_deny, Hr|]. done. }
  destruct d; [done| |done]. intros s. eexists. split; [apply act_undeny|]. intros s'. eexists.
  split; [by apply act_approve, Ha|]. done.
Qed.

(** What the answer makes of the request is on record. *)
Definition justified (key : HostApprovalKey) (d : ReviewDecision) (h : list Event) : Prop :=
  match d with
  | AccessGrants.Approved | AccessGrants.ApprovedExecpolicyAmendment _ => said (approves key) h
  | AccessGrants.ApprovedForSession
  | AccessGrants.NetworkPolicyAmendment _ AccessGrants.ActionAllow => said (approves_for_session key) h
  | AccessGrants.NetworkPolicyAmendment _ AccessGrants.ActionDeny => said (refuses_for_session key) h
  | _ => True
  end.

Lemma calm_keep_amendment (turn : TurnContext) (host : str) (action : NetworkPolicyRuleAction)
    (context : NetworkApprovalContext) : calm harmless (keep_amendment turn host action context).
Proof.
  unfold keep_amendment. calm_steps; by split; [intros ? []|].
Qed.

Lemma keeps_resolve (turn : TurnContext) (review_id : option str)
    (owner_call : option ActiveNetworkApprovalCall) (context : NetworkApprovalContext)
    (d : ReviewDecision) (key : HostApprovalKey) (o : nat) (h : list Event) :
  justified key d h ->
  keeps (resolve_answer turn review_id owner_call context d) (Owner key o Plain) h
    (fun r h '(resolved, cached) =>
      r = Owner key o Plain /\ (resolved <> DenyPending -> said (approves key) h) /\
      (resolved = AllowForSession -> said (approves_for_session key) h) /\
      (cached = true -> said (refuses_for_session key) h)).
Proof.
  assert (forall h, said (approves_for_session key) h -> said (approves key) h) as Hsa.
  { intros h' (e & He & Ha). exists e. split; [done|]. by apply session_approves. }
  intros Hj. destruct d as [|a| |host [|]| | |]; simpl in Hj; unfold resolve_answer.
  - by split_and!.
  - by split_and!.
  - by split_and!; auto.
  - apply (keeps_calm_bind harmless); [apply calm_keep_amendment|apply harmless_in|].
    intros h' [] _. by split_and!; auto using said_app.
  - apply (keeps_calm_bind harmless); [apply calm_keep_amendment|apply harmless_in|]. intros h' [] _.
    apply (keeps_calm_bind harmless); [apply calm_record_for|apply harmless_in|].
    intros h2 [] _. split_and!; auto using said_app; done.
  - apply (keeps_calm_bind harmless); [|apply harmless_in|done].
    destruct review_id; [|apply calm_record_for]. destruct owner_call; [|done].
    apply calm_bind; [apply calm_rejection_message|]. intros m. apply calm_record_call_outcome.
  - apply (keeps_calm_bind harmless); [apply calm_record_for|apply harmless_in|done].
  - apply (keeps_calm_bind harmless); [|apply harmless_in|done].
    destruct review_id; [|apply calm_record_for]. destruct owner_call; [|done].
    apply calm_bind; [apply calm_rejection_message|]. intros m. apply calm_record_call_outcome.
Qed.

Lemma keeps_ask_about_host (turn : TurnContext) (request : NetPolicy.NetworkPolicyRequest)
    (protocol : NetworkApprovalProtocol) (target message : str)
    (owner_call : option ActiveNetworkApprovalCall) (review_id : option str) (o : nat) (h : list Event) :
  let key := request_key request in
  keeps (ask_about_host turn request protocol key target message owner_call review_id)
    (Owner key o Plain) h (fun r h d => r = Owner key o Plain /\ justified key d h).
Proof.
  intros key. assert (forall key', sound_key key' ->
    approval_id_for_key key = approval_id_for_key key' -> key' = key) as Hkey.
  { intros key' Hs E. symmetry. apply approval_id_inj; [apply request_key_sound|done..]. }
  destruct review_id as [review_id|]; unfold ask_about_host.
  - eapply (keeps_calm (reviewing _ _)); [apply calm_review| |].
    + intros h' q [Hq| ->]; [by apply harmless_in, review_question_harmless|]. apply may_ask_own; [|done].
      intros key' [Hs E]. by apply Hkey.
    + intros h' d Hr. split; [done|]. apply (review_said _ _ _ _ _ _ _ _ _ _ _ _ key) in Hr; [|done].
      destruct d as [|a| |host [|]| | |]; simpl; try done.
      destruct Hr as (e & He & Ha). exists e. split; [set_solver|done].
  - split; [apply may_ask_own; [|done]; intros key' [Hs E]; by apply Hkey|].
    intros d. split; [done|]. destruct d as [|a| |host [|]| | |]; simpl; try done; by apply said_here.
Qed.

Lemma answered_after (key : HostApprovalKey) (h : list Event) (d : PendingApprovalDecision) :
  answered_by key (after key d) h (to_network_decision d).
Proof. by destruct d. Qed.

(** What is left of a program once its decision is known: it asks nothing more. *)
Lemma finish_runs (key : HostApprovalKey) (o : nat) (d : PendingApprovalDecision)
    (x : NetPolicy.NetworkDecision) :
  runs (set_decision o d;; remove_pending key;; Ret x) [] x.
Proof. by exists new_session, new_session. Qed.

Lemma cache_runs (key : HostApprovalKey) (d : PendingApprovalDecision) (cached : bool) :
  runs (cache_decision key d cached) [] tt.
Proof.
  unfold cache_decision. apply runs_bind. exists [], tt, [].
  split; [destruct d; [done|by exists new_session, new_session|done]|].
  split; [destruct cached; [by exists new_session, new_session|done]|done].
Qed.

Lemma app_last_nonempty {A} (h : list A) (x : A) : h ++ [x] <> [].
Proof. by destruct h. Qed.

Lemma app_nonempty {A} (h : list A) (x : A) h' : (h ++ [x]) ++ h' <> [].
Proof. rewrite <-app_assoc. by destruct h. Qed.

Lemma keeps_decide (request : NetPolicy.NetworkPolicyRequest) (o : nat) (h : list Event) :
  let key := request_key request in
  answers request (decide_as_owner request key o) h ->
  keeps (decide_as_owner request key o) (Owner key o Plain) h (answered_by key).
Proof.
  intros key. unfold decide_as_owner. cbv zeta. intros Ha.
  apply keeps_ask; [apply harmless_in; by split; [intros ? []|]|].
  intros turn. apply (answers_ask _ _ _ _ turn) in Ha.
  assert (h ++ [Asked ActiveTurnContext turn] <> []) as Hne by by destruct h.
  destruct turn as [turn|]; [|by apply keeps_deny_by_policy].
  destruct (negb (permission_profile_allows_network_approval_flow (permission_profile turn)));
    [by apply keeps_deny_by_policy|].
  destruct (negb (allows_network_approval_flow (approval_policy turn)));
    [by apply keeps_deny_by_policy|]. clear Hne.
  apply (keeps_calm_bind harmless); [apply calm_reading|apply harmless_in|]. intros h1 owner_call Hr.
  apply (answers_bind _ _ _ _ _ _ Ha) in Hr. clear Ha. rename Hr into Ha.
  apply keeps_ask; [apply may_ask_own; [|done]; intros key' [Hs E]; symmetry;
                    apply approval_id_inj; [apply request_key_sound|done..]|].
  intros hook. apply (answers_ask _ _ _ _ hook) in Ha. destruct hook as [[|message]|].
  - apply keeps_finish; [intros _; by apply said_here| |done].
    apply (answers_decides _ AllowOnce _ _ (app_last_nonempty _ _) Ha), finish_runs.
  - apply (keeps_calm_bind harmless); [apply calm_record_for|apply harmless_in|]. intros h2 [] Hr.
    apply (answers_bind _ _ _ _ _ _ Ha) in Hr.
    apply keeps_finish; [done| |done].
    apply (answers_decides _ DenyPending _ _ (app_nonempty _ _ _) Hr), finish_runs.
  - apply (keeps_calm_bind harmless); [|apply harmless_in|].
    { destruct (routes_approval_to_guardian turn); [|done]. calm_steps. by split; [intros ? []|]. }
    intros h2 review_id Hr2. apply (answers_bind _ _ _ _ _ _ Ha) in Hr2.
    apply keeps_bind. eapply keeps_mono; [apply keeps_runs, keeps_ask_about_host|].
    intros r h3 d ([-> Hj] & h4 & -> & Hr3). apply (answers_bind _ _ _ _ _ _ Hr2) in Hr3.
    apply keeps_bind. eapply keeps_mono; [by apply keeps_runs, keeps_resolve|].
    intros r h5 [resolved cached] ((-> & Hal & Hs & Href) & h6 & -> & Hr4).
    apply (answers_bind _ _ _ _ _ _ Hr3) in Hr4.
    pose proof (answers_bind _ _ _ _ _ _ Hr4 (cache_runs key resolved cached)) as Hr5.
    rewrite app_nil_r in Hr5.
    apply keeps_bind, keeps_cache; [done..|]. apply keeps_finish; [done| |apply answered_after].
    refine (answers_decides _ resolved _ _ _ Hr5 (finish_runs _ _ _ _)).
    rewrite <-!app_assoc. by destruct h.
Qed.

Definition at_rest (r : Role) : Prop :=
  match r with Owner _ _ _ | Waiter _ _ => False | Idle | Knows _ => True end.

Lemma keeps_serve (request : NetPolicy.NetworkPolicyRequest) :
  keeps (serve request) Idle [] (fun r _ _ => at_rest r).
Proof.
  unfold serve. apply keeps_bind. set (key := request_key request).
  apply (keeps_mono _ _ _ (answered_by key)); last first.
  { unfold answered_by. intros r h d ->. split; [split; [by intros ? []|]|]; by destruct d. }
  unfold handle_inline_policy_request. cbv zeta. fold key.
  apply keeps_lock. intros s. eexists. split; [by apply act_elsewhere|]. cbn [fst snd].
  destruct (bool_decide (key ∈ session_denied_hosts (network_approval s))) eqn:Ed; [done|].
  apply keeps_lock. intros s2. cbn [fst snd].
  destruct (bool_decide_reflect (key ∈ session_approved_hosts (network_approval s2))) as [Hin|Hin].
  { eexists. split; [by apply act_find|]. done. }
  eexists. split; [by apply act_elsewhere|]. apply keeps_lock. intros s3.
  destruct (pending_host_approvals (network_approval s3) !! key) as [o|] eqn:Ep; cbn [fst snd].
  - exists (Waiter key o). split; [by apply act_join|]. apply keeps_wait. apply answered_after.
  - eexists. split; [apply act_create; [done|]; apply not_elem_of_dom, is_fresh|].
    apply keeps_decide. intros h2 x Hr. apply runs_bind. exists h2, x, [Asked (Tell (Answered request x)) tt].
    split; [|split; [by exists tt, []|done]]. exists s. cbn [fst snd]. fold key. rewrite Ed.
    exists s2. cbn [fst snd]. rewrite bool_decide_false by done. exists s3. rewrite Ep. exact Hr.
Qed.

(** Any other task that asks only harmless questions. *)
Lemma keeps_other (p : Prog unit) : calm harmless p -> keeps p Idle [] (fun r _ _ => at_rest r).
Proof. intros Hp. by apply (keeps_calm harmless); [|apply harmless_in|]. Qed.

(** ** The invariant of the protocol

    [roles] are those of the running tasks, [K] the key of each pending object; [A], [S]
    and [D] say which hosts somebody let through, let through for the session, and refused
    for the session. With [owned], every object without a decision has an owner. *)

Definition pending_of (s : Session) := pending_host_approvals (network_approval s).
Definition approved_of (s : Session) := session_approved_hosts (network_approval s).
Definition denied_of (s : Session) := session_denied_hosts (network_approval s).

Definition in_phase (key : HostApprovalKey) (o : nat) (ph : Phase) (s : Session) : Prop :=
  match ph with
  | Plain => pending_decisions s !! o = Some None
  | Undenied => pending_decisions s !! o = Some None /\ key ∉ denied_of s
  | Unapproved => pending_decisions s !! o = Some None /\ key ∉ approved_of s
  | Decided d => pending_decisions s !! o = Some (Some d)
  end.

Record Agreed (owned : bool) (A S D : HostApprovalKey -> Prop) (roles : gmap nat Role)
    (K : gmap nat HostApprovalKey) (s : Session) : Prop := {
  agreed_pending key o : pending_of s !! key = Some o -> K !! o = Some key;
  agreed_objects o : is_Some (K !! o) <-> is_Some (pending_decisions s !! o);
  agreed_owner t key o ph :
    roles !! t = Some (Owner key o ph) -> pending_of s !! key = Some o /\ in_phase key o ph s;
  agreed_unique t t' key o o' ph ph' :
    roles !! t = Some (Owner key o ph) -> roles !! t' = Some (Owner key o' ph') -> t = t';
  agreed_owned o :
    owned = true -> pending_decisions s !! o = Some None ->
    exists t key ph, roles !! t = Some (Owner key o ph);
  agreed_waiter t key o : roles !! t = Some (Waiter key o) -> K !! o = Some key;
  agreed_decided o key d :
    K !! o = Some key -> pending_decisions s !! o = Some (Some d) -> d <> DenyPending -> A key;
  agreed_knows t key : roles !! t = Some (Knows key) -> A key;
  agreed_approved key : key ∈ approved_of s -> S key;
  agreed_denied key : key ∈ denied_of s -> D key;
  agreed_disjoint : approved_of s ## denied_of s;
}.

Section Steps.
Context (owned : bool) (A S D : HostApprovalKey -> Prop) (HSA : forall key, S key -> A key).
Context (roles : gmap nat Role) (t : nat).

Lemma agreed_elsewhere r K s s' :
  Agreed owned A S D roles K s -> roles !! t = Some r -> same_hosts s s' ->
  Agreed owned A S D (<[t := r]> roles) K s'.
Proof.
  intros Hg Ht (Ep & Ea & Ed & Eo). rewrite insert_id by done.
  destruct Hg. unfold in_phase, pending_of, approved_of, denied_of in *.
  by split; unfold in_phase, pending_of, approved_of, denied_of; rewrite ?Ep, ?Ea, ?Ed, ?Eo.
Qed.

(** A task that is at rest takes a role other than that of an owner. *)
Lemma agreed_role r r' K s :
  Agreed owned A S D roles K s -> roles !! t = Some r ->
  (forall key o ph, r <> Owner key o ph) ->
  match r' with
  | Owner _ _ _ => False
  | Waiter key o => K !! o = Some key
  | Knows key => A key
  | Idle => True
  end ->
  Agreed owned A S D (<[t := r']> roles) K s.
Proof.
  intros Hg Ht Hr Hr'. split; try apply Hg.
  - intros t' key o ph. rewrite lookup_insert_Some. intros [[-> ->]|[_ Hk]]; [done|].
    by eapply agreed_owner.
  - intros t1 t2 key o o' ph ph'. rewrite !lookup_insert_Some.
    intros [[-> ->]|[_ H1]]; [done|]. intros [[-> ->]|[_ H2]]; [done|]. by eapply agreed_unique.
  - intros o Ho Hd. destruct (agreed_owned _ _ _ _ _ _ _ Hg o Ho Hd) as (t' & key & ph & Hk).
    exists t', key, ph. rewrite lookup_insert_ne; [done|]. intros <-. rewrite Ht in Hk.
    injection Hk as ->. by eapply Hr.
  - intros t' key o. rewrite lookup_insert_Some. intros [[-> ->]|[_ Hk]]; [done|].
    by eapply agreed_waiter.
  - intros t' key. rewrite lookup_insert_Some. intros [[-> ->]|[_ Hk]]; [done|].
    by eapply agreed_knows.
Qed.

Lemma agreed_create key o K s :
  Agreed owned A S D roles K s -> roles !! t = Some Idle ->
  pending_of s !! key = None -> pending_decisions s !! o = None ->
  Agreed owned A S D (<[t := Owner key o Plain]> roles) (<[o := key]> K) (created key o s).
Proof.
  intros Hg Ht Hp Ho.
  assert (K !! o = None) as HK.
  { apply eq_None_not_Some. rewrite (agreed_objects _ _ _ _ _ _ _ Hg). rewrite Ho. by intros [? [=]]. }
  split; try apply Hg; unfold pending_of, created; simpl.
  - intros key' o'. rewrite !lookup_insert_Some. intros [[-> ->]|[Hne Hk]]; [by left|].
    right. apply (agreed_pending _ _ _ _ _ _ _ Hg) in Hk. split; [congruence|done].
  - intros o'. destruct (decide (o' = o)) as [->|Hne];
      [rewrite !lookup_insert_eq; by split; eexists|]. rewrite !lookup_insert_ne by done. apply Hg.
  - intros t' key' o' ph. rewrite lookup_insert_Some. intros [[-> [= -> -> <-]]|[_ Hk]].
    { by split; simpl; rewrite lookup_insert_eq. }
    destruct (agreed_owner _ _ _ _ _ _ _ Hg _ _ _ _ Hk) as [Hpk Hph]. unfold pending_of in *.
    rewrite lookup_insert_ne by congruence. split; [done|]. assert (o' <> o) as Hne.
    { intros ->. destruct ph; simpl in Hph; naive_solver. }
    destruct ph; simpl in *; by rewrite ?lookup_insert_ne by done.
  - intros t1 t2 key' o1 o2 ph1 ph2. rewrite !lookup_insert_Some.
    intros [[-> [= -> -> <-]]|[_ H1]] [[-> [= <- <-]]|[_ H2]]; [done|..| |].
    + apply (agreed_owner _ _ _ _ _ _ _ Hg) in H2 as [H2 _]. unfold pending_of in *. congruence.
    + apply (agreed_owner _ _ _ _ _ _ _ Hg) in H1 as [H1 _]. unfold pending_of in *. congruence.
    + by eapply agreed_unique.
  - intros o' Hc. rewrite lookup_insert_Some. intros [[-> _]|[Hne Hd]].
    { exists t, key, Plain. by rewrite lookup_insert_eq. }
    destruct (agreed_owned _ _ _ _ _ _ _ Hg o' Hc Hd) as (t' & key' & ph & Hk).
    exists t', key', ph. rewrite lookup_insert_ne; [done|]. intros <-. by rewrite Ht in Hk.
  - intros t' key' o'. rewrite !lookup_insert_Some. intros [[_ ?]|[_ Hk]]; [done|]. right.
    apply (agreed_waiter _ _ _ _ _ _ _ Hg) in Hk. split; [congruence|done].
  - intros o' key' d. rewrite !lookup_insert_Some. intros [[-> ->]|[Hne Hk]] [[? ?]|[? Hd]]; try done.
    by eapply agreed_decided.
  - intros t' key'. rewrite lookup_insert_Some. intros [[_ ?]|[_ Hk]]; [done|]. by eapply agreed_knows.
Qed.

(** Another owner has another key, and another object. *)
Lemma other_owner key o ph t' key' o' ph' K s :
  Agreed owned A S D roles K s -> roles !! t = Some (Owner key o ph) -> t' <> t ->
  roles !! t' = Some (Owner key' o' ph') -> key' <> key /\ o' <> o.
Proof.
  intros Hg Ht Hne Hk. assert (key' <> key) as Hkey.
  { intros ->. by apply Hne; eapply agreed_unique. }
  split; [done|]. intros ->.
  apply (agreed_owner _ _ _ _ _ _ _ Hg) in Ht as [Ht _], Hk as [Hk _].
  apply (agreed_pending _ _ _ _ _ _ _ Hg) in Ht, Hk. congruence.
Qed.

(** An owner changes the hosts of the session at its key. *)
Lemma agreed_mark key o ph ph' K s s' :
  Agreed owned A S D roles K s -> roles !! t = Some (Owner key o ph) ->
  pending_of s' = pending_of s -> pending_decisions s' = pending_decisions s ->
  (forall k, k <> key -> (k ∈ approved_of s' <-> k ∈ approved_of s) /\
                         (k ∈ denied_of s' <-> k ∈ denied_of s)) ->
  (key ∈ approved_of s' -> S key) -> (key ∈ denied_of s' -> D key) ->
  ~ (key ∈ approved_of s' /\ key ∈ denied_of s') ->
  in_phase key o ph' s' ->
  Agreed owned A S D (<[t := Owner key o ph']> roles) K s'.
Proof.
  intros Hg Ht Ep Eo Hother Ha Hd Hnot Hph'. split; rewrite ?Ep, ?Eo; try apply Hg.
  - intros t' key' o' ph2. rewrite lookup_insert_Some. intros [[<- [= <- <- <-]]|[Hne Hk]].
    { split; [|done]. by eapply agreed_owner. }
    destruct (other_owner _ _ _ _ _ _ _ _ _ Hg Ht (not_eq_sym Hne) Hk) as [Hkey _].
    destruct (agreed_owner _ _ _ _ _ _ _ Hg _ _ _ _ Hk) as [Hpk Hph]. split; [done|].
    destruct (Hother key' Hkey) as [Hoa Hod]. destruct ph2; simpl in *; rewrite Eo; naive_solver.
  - intros t1 t2 k o1 o2 p1 p2. rewrite !lookup_insert_Some.
    intros [[<- [= <- <- <-]]|[N1 H1]] [[<- [= <- <-]]|[N2 H2]]; [done|by eapply agreed_unique..].
  - intros o' Hc Hn. destruct (agreed_owned _ _ _ _ _ _ _ Hg o' Hc Hn) as (t' & k & p & Hk).
    destruct (decide (t' = t)) as [->|Hne].
    + exists t, key, ph'. rewrite lookup_insert_eq. congruence.
    + exists t', k, p. by rewrite lookup_insert_ne.
  - intros t' k o'. rewrite lookup_insert_Some. intros [[_ ?]|[_ Hk]]; [done|]. by eapply agreed_waiter.
  - intros t' k. rewrite lookup_insert_Some. intros [[_ ?]|[_ Hk]]; [done|]. by eapply agreed_knows.
  - intros k Hk. destruct (decide (k = key)) as [->|Hne]; [by apply Ha|].
    eapply agreed_approved; [done|]. by apply Hother.
  - intros k Hk. destruct (decide (k = key)) as [->|Hne]; [by apply Hd|].
    eapply agreed_denied; [done|]. by apply Hother.
  - intros k Hk1 Hk2. destruct (decide (k = key)) as [->|Hne]; [by apply Hnot|].
    destruct (Hother k Hne) as [Hoa Hod]. eapply agreed_disjoint; [done|by apply Hoa|by apply Hod].
Qed.

Lemma agreed_decide key o d K s :
  Agreed owned A S D roles K s -> roles !! t = Some (Owner key o Plain) ->
  (d <> DenyPending -> A key) ->
  Agreed owned A S D (<[t := Owner key o (Decided d)]> roles) K (decided o d s).
Proof.
  intros Hg Ht Hd. pose proof (agreed_owner _ _ _ _ _ _ _ Hg _ _ _ _ Ht) as [Hp Ho].
  assert (K !! o = Some key) as HK by (by eapply agreed_pending).
  split; try apply Hg; unfold decided; simpl.
  - intros o'. destruct (decide (o' = o)) as [->|Hne];
      [rewrite lookup_insert_eq, HK; by split; eexists|]. rewrite lookup_insert_ne by done. apply Hg.
  - intros t' key' o' ph2. rewrite lookup_insert_Some. intros [[<- [= <- <- <-]]|[Hne Hk]].
    { split; [done|]. simpl. by rewrite lookup_insert_eq. }
    destruct (other_owner _ _ _ _ _ _ _ _ _ Hg Ht (not_eq_sym Hne) Hk) as [Hkey Hoo].
    destruct (agreed_owner _ _ _ _ _ _ _ Hg _ _ _ _ Hk) as [Hpk Hph]. split; [done|].
    by destruct ph2; simpl in *; rewrite lookup_insert_ne.
  - intros t1 t2 k o1 o2 p1 p2. rewrite !lookup_insert_Some.
    intros [[<- [= <- <- <-]]|[N1 H1]] [[<- [= <- <-]]|[N2 H2]]; [done|by eapply agreed_unique..].
  - intros o' Hc. rewrite lookup_insert_Some. intros [[_ ?]|[Hne Hn]]; [done|].
    destruct (agreed_owned _ _ _ _ _ _ _ Hg o' Hc Hn) as (t' & k & p & Hk).
    exists t', k, p. rewrite lookup_insert_ne; [done|]. intros <-. congruence.
  - intros t' k o'. rewrite lookup_insert_Some. intros [[_ ?]|[_ Hk]]; [done|]. by eapply agreed_waiter.
  - intros o' k d'. rewrite lookup_insert_Some. intros Hk [[-> [= ->]]|[Hne Hn]].
    + intros Hd'. replace k with key by congruence. by apply Hd.
    + by eapply agreed_decided.
  - intros t' k. rewrite lookup_insert_Some. intros [[_ ?]|[_ Hk]]; [done|]. by eapply agreed_knows.
Qed.

Lemma agreed_release key o d K s :
  Agreed owned A S D roles K s -> roles !! t = Some (Owner key o (Decided d)) ->
  Agreed owned A S D (<[t := after key d]> roles) K (released key s).
Proof.
  intros Hg Ht. pose proof (agreed_owner _ _ _ _ _ _ _ Hg _ _ _ _ Ht) as [Hp Ho].
  assert (K !! o = Some key) as HK by (by eapply agreed_pending).
  assert (forall key o ph, after key d <> Owner key o ph) as Hno by (by destruct d).
  split; try apply Hg; unfold released, pending_of; simpl.
  - intros key' o'. rewrite lookup_delete_Some. intros [_ Hk]. by eapply agreed_pending.
  - intros t' key' o' ph2. rewrite lookup_insert_Some. intros [[_ E]|[Hne Hk]]; [by destruct d|].
    destruct (other_owner _ _ _ _ _ _ _ _ _ Hg Ht (not_eq_sym Hne) Hk) as [Hkey _].
    destruct (agreed_owner _ _ _ _ _ _ _ Hg _ _ _ _ Hk) as [Hpk Hph]. split; [|done].
    by rewrite lookup_delete_ne.
  - intros t1 t2 k o1 o2 p1 p2. rewrite !lookup_insert_Some.
    intros [[_ E]|[N1 H1]]; [by destruct d|]. intros [[_ E]|[N2 H2]]; [by destruct d|].
    by eapply agreed_unique.
  - intros o' Hc Hn. destruct (agreed_owned _ _ _ _ _ _ _ Hg o' Hc Hn) as (t' & k & p & Hk).
    exists t', k, p. rewrite lookup_insert_ne; [done|]. intros <-. simpl in Ho. congruence.
  - intros t' k o'. rewrite lookup_insert_Some. intros [[_ E]|[_ Hk]]; [by destruct d|].
    by eapply agreed_waiter.
  - intros t' k. rewrite lookup_insert_Some. intros [[_ E]|[_ Hk]]; [|by eapply agreed_knows].
    simpl in Ho. destruct d; simplify_eq/=; by eapply agreed_decided.
Qed.

Lemma agreed_start K s :
  Agreed owned A S D roles K s -> roles !! t = None ->
  Agreed owned A S D (<[t := Idle]> roles) K s.
Proof.
  intros Hg Ht. split; try apply Hg.
  - intros t' key o ph. rewrite lookup_insert_Some. intros [[_ ?]|[_ Hk]]; [done|].
    by eapply agreed_owner.
  - intros t1 t2 k o1 o2 p1 p2. rewrite !lookup_insert_Some.
    intros [[_ ?]|[N1 H1]]; [done|]. intros [[_ ?]|[N2 H2]]; [done|]. by eapply agreed_unique.
  - intros o Hc Hn. destruct (agreed_owned _ _ _ _ _ _ _ Hg o Hc Hn) as (t' & k & p & Hk).
    exists t', k, p. rewrite lookup_insert_ne; [done|]. congruence.
  - intros t' k o'. rewrite lookup_insert_Some. intros [[_ ?]|[_ Hk]]; [done|]. by eapply agreed_waiter.
  - intros t' k. rewrite lookup_insert_Some. intros [[_ ?]|[_ Hk]]; [done|]. by eapply agreed_knows.
Qed.

Lemma agreed_drop K s :
  owned = false -> Agreed owned A S D roles K s -> Agreed owned A S D (delete t roles) K s.
Proof.
  intros -> Hg. split; try apply Hg; try done.
  - intros t' key o ph [_ Hk]%lookup_delete_Some. by eapply agreed_owner.
  - intros t1 t2 k o1 o2 p1 p2 [_ H1]%lookup_delete_Some [_ H2]%lookup_delete_Some.
    by eapply agreed_unique.
  - intros t' k o' [_ Hk]%lookup_delete_Some. by eapply agreed_waiter.
  - intros t' k [_ Hk]%lookup_delete_Some. by eapply agreed_knows.
Qed.

(** One section of a task that keeps to the protocol. *)
Lemma agreed_act h r s r' s' K :
  act h r s r' s' -> Agreed owned A S D roles K s -> roles !! t = Some r ->
  (forall key, said (approves key) h -> A key) ->
  (forall key, said (approves_for_session key) h -> S key) ->
  (forall key, said (refuses_for_session key) h -> D key) ->
  exists K', Agreed owned A S D (<[t := r']> roles) K' s' /\ K ⊆ K'.
Proof.
  intros Hact Hg Ht HA HS HD.
  destruct Hact as [r s s' Hs|key s Hin|key o s Hp|key o s Hp Ho|key o s|key o s Hh|key o s|key o s Hh
    |key o d s Hh|key o d s].
  - exists K. split; [|done]. by eapply agreed_elsewhere.
  - exists K. split; [|done]. eapply agreed_role; [done..|]. by eapply HSA, agreed_approved.
  - exists K. split; [|done]. eapply agreed_role; [done..|]. by eapply agreed_pending.
  - exists (<[o := key]> K). split; [by apply agreed_create|]. apply insert_subseteq.
    apply eq_None_not_Some. rewrite (agreed_objects _ _ _ _ _ _ _ Hg), Ho. by intros [].
  - exists K. split; [|done]. destruct (agreed_owner _ _ _ _ _ _ _ Hg _ _ _ _ Ht) as [_ Ho].
    eapply agreed_mark; [done..| | | | |]; unfold approved_of, denied_of; simpl; try set_solver.
    intros Hin. by eapply agreed_approved.
  - exists K. split; [|done]. destruct (agreed_owner _ _ _ _ _ _ _ Hg _ _ _ _ Ht) as [_ [Ho Hn]].
    eapply agreed_mark; [done..| | | | |]; unfold approved_of, denied_of in *; simpl; try set_solver.
  - exists K. split; [|done]. destruct (agreed_owner _ _ _ _ _ _ _ Hg _ _ _ _ Ht) as [_ Ho].
    eapply agreed_mark; [done..| | | | |]; unfold approved_of, denied_of; simpl; try set_solver.
    intros Hin. by eapply agreed_denied.
  - exists K. split; [|done]. destruct (agreed_owner _ _ _ _ _ _ _ Hg _ _ _ _ Ht) as [_ [Ho Hn]].
    eapply agreed_mark; [done..| | | | |]; unfold approved_of, denied_of in *; simpl; try set_solver.
  - exists K. split; [|done]. apply agreed_decide; [done..|]. intros Hd. by apply HA, Hh.
  - exists K. split; [|done]. by eapply agreed_release.
Qed.

End Steps.

Lemma agreed_weaken owned (A A' S S' D D' : HostApprovalKey -> Prop) roles K s :
  (forall key, A key -> A' key) -> (forall key, S key -> S' key) -> (forall key, D key -> D' key) ->
  Agreed owned A S D roles K s -> Agreed owned A' S' D' roles K s.
Proof.
  intros HA HS HD Hg. split; try apply Hg.
  - intros o key d HK Ho Hd. by eapply HA, agreed_decided.
  - intros t key Ht. by eapply HA, agreed_knows.
  - intros key Hin. by eapply HS, agreed_approved.
  - intros key Hin. by eapply HD, agreed_denied.
Qed.

(** ** Everything that may interleave *)

Definition heard (P : Event -> Prop) (w : World) : Prop :=
  exists t r, running w !! t = Some r /\ said P (done r).

Lemma heard_more (P : Event -> Prop) (w : World) (t : nat) (h h' : list Event)
    (p p' : option (Prog unit)) (s : Session) :
  running w !! t = Some {| done := h; rest := p |} -> heard P w ->
  heard P {| session := s; running := set_running t (h ++ h') p' w |}.
Proof.
  intros Ht (t' & r & Hr & Hs). destruct (decide (t' = t)) as [->|Hne].
  - rewrite Ht in Hr. injection Hr as <-. eexists t, _. simpl. unfold set_running.
    split; [by rewrite lookup_insert_eq|]. by apply said_app.
  - exists t', r. simpl. unfold set_running. by rewrite lookup_insert_ne.
Qed.

(** The tasks: requests of the proxy, and any that asks nothing about a host. *)
Inductive session_task : Prog unit -> Prop :=
| task_serve request : session_task (serve request)
| task_other p : calm harmless p -> session_task p.

Record Consistent (owned : bool) (w : World) (roles : gmap nat Role) (K : gmap nat HostApprovalKey)
    : Prop := {
  consistent_agreed :
    Agreed owned (fun key => heard (approves key) w) (fun key => heard (approves_for_session key) w)
      (fun key => heard (refuses_for_session key) w) roles K (session w);
  consistent_task t h p :
    running w !! t = Some {| done := h; rest := Some p |} ->
    exists r, roles !! t = Some r /\ keeps p r h (fun r _ _ => at_rest r);
  consistent_role t r : roles !! t = Some r -> exists h p, running w !! t = Some {| done := h; rest := Some p |};
  consistent_answer t r request :
    running w !! t = Some r -> Asked (Tell (Answered request NetPolicy.Allow)) tt ∈ done r ->
    heard (approves (request_key request)) w;
}.

(** A task goes on, and is told something. *)
Lemma consistent_goes_on owned w roles K t h p h' p' r' K' s' :
  running w !! t = Some {| done := h; rest := Some p |} -> Consistent owned w roles K ->
  Agreed owned (fun key => heard (approves key) w) (fun key => heard (approves_for_session key) w)
    (fun key => heard (refuses_for_session key) w) (<[t := r']> roles) K' s' ->
  keeps p' r' (h ++ h') (fun r _ _ => at_rest r) ->
  (forall request, Asked (Tell (Answered request NetPolicy.Allow)) tt ∈ h' ->
     heard (approves (request_key request)) w) ->
  Consistent owned {| session := s'; running := set_running t (h ++ h') (Some p') w |}
    (<[t := r']> roles) K'.
Proof.
  intros Ht Hc Hg Hk Ha.
  assert (forall P, heard P w ->
    heard P {| session := s'; running := set_running t (h ++ h') (Some p') w |}) as Hmore.
  { intros P. by apply heard_more with (p := Some p). }
  split.
  - eapply agreed_weaken, Hg; intros key; apply Hmore.
  - intros t' h2 p2. simpl. unfold set_running. rewrite lookup_insert_Some.
    intros [[<- [= <- <-]]|[Hne Hr]].
    + exists r'. by rewrite lookup_insert_eq.
    + rewrite lookup_insert_ne by done. by eapply consistent_task.
  - intros t' r. rewrite lookup_insert_Some. simpl. unfold set_running. intros [[<- <-]|[Hne Hr]].
    + rewrite lookup_insert_eq. eauto.
    + rewrite lookup_insert_ne by done. by eapply consistent_role.
  - intros t' r request. simpl. unfold set_running at 1. rewrite lookup_insert_Some.
    intros [[<- <-]|[Hne Hr]]; simpl; intros Hin; apply Hmore; [|by eapply consistent_answer].
    apply elem_of_app in Hin as [Hin|Hin]; [|by apply Ha].
    by eapply (consistent_answer _ _ _ _ Hc t).
Qed.

Lemma consistent_start owned w roles K t p :
  Consistent owned w roles K -> session_task p -> running w !! t = None ->
  Consistent owned {| session := session w; running := set_running t [] (Some p) w |}
    (<[t := Idle]> roles) K.
Proof.
  intros Hc Hp Ht.
  assert (roles !! t = None) as Hr.
  { destruct (roles !! t) as [r|] eqn:E; [|done].
    destruct (consistent_role _ _ _ _ Hc t r E) as (h & p' & Hrun). congruence. }
  assert (forall P, heard P w ->
    heard P {| session := session w; running := set_running t [] (Some p) w |}) as Hmore.
  { intros P (t' & r & Hr' & Hs). exists t', r. simpl. unfold set_running.
    rewrite lookup_insert_ne; [done|]. congruence. }
  split.
  - eapply agreed_weaken, agreed_start, Hr; [intros key; apply Hmore..|]. apply Hc.
  - intros t' h2 p2. simpl. unfold set_running. rewrite lookup_insert_Some.
    intros [[<- [= <- <-]]|[Hne Hr']].
    + exists Idle. rewrite lookup_insert_eq. split; [done|].
      destruct Hp; [apply keeps_serve|by apply keeps_other].
    + rewrite lookup_insert_ne by done. by eapply consistent_task.
  - intros t' r. rewrite lookup_insert_Some. simpl. unfold set_running. intros [[<- <-]|[Hne Hr']].
    + rewrite lookup_insert_eq. eauto.
    + rewrite lookup_insert_ne by done. by eapply consistent_role.
  - intros t' r request. simpl. unfold set_running at 1. rewrite lookup_insert_Some.
    intros [[<- <-]|[Hne Hr']]; simpl; intros Hin; [by apply elem_of_nil in Hin|].
    apply Hmore. by eapply consistent_answer.
Qed.

Lemma consistent_drop owned w roles K t h p :
  owned = false -> Consistent owned w roles K -> running w !! t = Some {| done := h; rest := Some p |} ->
  Consistent owned {| session := session w; running := set_running t h None w |} (delete t roles) K.
Proof.
  intros Ho Hc Ht.
  assert (forall P, heard P w ->
    heard P {| session := session w; running := set_running t h None w |}) as Hmore.
  { intros P HP. rewrite <-(app_nil_r h). by apply heard_more with (p := Some p). }
  split.
  - eapply agreed_weaken, agreed_drop; [intros key; apply Hmore..|done|]. apply Hc.
  - intros t' h2 p2. simpl. unfold set_running. rewrite lookup_insert_Some.
    intros [[? [=]]|[Hne Hr]]. rewrite lookup_delete_ne by done. by eapply consistent_task.
  - intros t' r [Hne Hr]%lookup_delete_Some. simpl. unfold set_running.
    rewrite lookup_insert_ne by done. by eapply consistent_role.
  - intros t' r request. simpl. unfold set_running at 1. rewrite lookup_insert_Some.
    intros [[<- <-]|[Hne Hr]]; simpl; intros Hin; apply Hmore;
      [by eapply (consistent_answer _ _ _ _ Hc t)|by eapply consistent_answer].
Qed.

Lemma heard_from (P : Event -> Prop) (w : World) (t : nat) (r : Running) :
  running w !! t = Some r -> said P (done r) -> heard P w.
Proof. intros Ht Hs. by exists t, r. Qed.

Lemma heard_session (key : HostApprovalKey) (w : World) :
  heard (approves_for_session key) w -> heard (approves key) w.
Proof.
  intros (t & r & Hr & e & He & Ha). exists t, r. split; [done|]. exists e. split; [done|].
  by apply session_approves.
Qed.

Lemma consistent_lock owned w roles K t h X (f : Session -> Session * X) k r r' :
  running w !! t = Some {| done := h; rest := Some (Lock f k) |} -> Consistent owned w roles K ->
  roles !! t = Some r -> act h r (session w) r' (fst (f (session w))) ->
  keeps (k (snd (f (session w)))) r' h (fun r _ _ => at_rest r) ->
  exists K', Consistent owned
    {| session := fst (f (session w)); running := set_running t h (Some (k (snd (f (session w))))) w |}
    (<[t := r']> roles) K' /\ K ⊆ K'.
Proof.
  intros Ht Hc Hr Hact Hk. pose proof (consistent_agreed _ _ _ _ Hc) as Hg.
  destruct (agreed_act _ _ _ _ (fun key => heard_session key w) _ t _ _ _ _ _ _ Hact Hg Hr)
    as (K' & Hg' & HK); [intros key Hh; by eapply heard_from..|].
  exists K'. split; [|done]. rewrite <-(app_nil_r h).
  eapply consistent_goes_on; [done..|by rewrite app_nil_r|]. by intros request ?%elem_of_nil.
Qed.

Lemma consistent_ask owned w roles K t h q k x r :
  running w !! t = Some {| done := h; rest := Some (Ask q k) |} -> Consistent owned w roles K ->
  roles !! t = Some r -> may_ask r h q ->
  keeps (k x) r (h ++ [Asked q x]) (fun r _ _ => at_rest r) ->
  Consistent owned
    {| session := session w; running := set_running t (h ++ [Asked q x]) (Some (k x)) w |} roles K.
Proof.
  intros Ht Hc Hr [_ Hq] Hk. pose proof (consistent_agreed _ _ _ _ Hc) as Hg.
  rewrite <-(insert_id roles t r Hr). eapply consistent_goes_on; [done..|by rewrite insert_id|done|].
  intros request Hin. apply list_elem_of_singleton in Hin.
  pose proof (f_equal (fun e => asked e) Hin) as E. simpl in E.
  subst q. rewrite Hq in Hr. exact (agreed_knows _ _ _ _ _ _ _ Hg _ _ Hr).
Qed.

Lemma consistent_wait owned w roles K t h o k d key :
  running w !! t = Some {| done := h; rest := Some (Wait o k) |} -> Consistent owned w roles K ->
  roles !! t = Some (Waiter key o) -> pending_decisions (session w) !! o = Some (Some d) ->
  keeps (k d) (after key d) h (fun r _ _ => at_rest r) ->
  Consistent owned {| session := session w; running := set_running t h (Some (k d)) w |}
    (<[t := after key d]> roles) K.
Proof.
  intros Ht Hc Hr Hd Hk. pose proof (consistent_agreed _ _ _ _ Hc) as Hg.
  rewrite <-(app_nil_r h).
  eapply consistent_goes_on; [done..| |by rewrite app_nil_r|by intros request ?%elem_of_nil].
  eapply agreed_role; [done..|]. pose proof (agreed_waiter _ _ _ _ _ _ _ Hg _ _ _ Hr) as HK.
  destruct d; simpl; [..|done]; by apply (agreed_decided _ _ _ _ _ _ _ Hg _ _ _ HK Hd).
Qed.

Lemma interleaved_steps starts cancellation w w' :
  interleaved starts cancellation w -> rtc (step starts cancellation) w w' ->
  interleaved starts cancellation w'.
Proof. intros Hw Hs. induction Hs; [done|]. eauto using interleaved_step. Qed.

(** ** Where decisions come from *)

Lemma step_keeps starts cancellation w w' t r :
  step starts cancellation w w' -> running w !! t = Some r ->
  exists r', running w' !! t = Some r' /\ done r `prefix_of` done r'.
Proof.
  intros Hs Ht. destruct Hs as [t' p _ Hn|t' h X f k Hl|t' h q k x Hl|t' h o k d Hl _|t' h p _ Hl];
    cbn [running]; unfold set_running;
    (destruct (decide (t' = t)) as [->|Hne]; [|rewrite lookup_insert_ne by done; by exists r]);
    rewrite ?lookup_insert_eq; rewrite Ht in *; simplify_eq; eexists; (split; [done|]); simpl;
    done || by apply prefix_app_r.
Qed.

(** Some request for the host was told what gives this decision. *)
Definition decided_by (key : HostApprovalKey) (d : PendingApprovalDecision) (w : World) : Prop :=
  exists t r h, running w !! t = Some r /\ h `prefix_of` done r /\ decides key d h.

Lemma decided_step starts cancellation w w' key d :
  step starts cancellation w w' -> decided_by key d w -> decided_by key d w'.
Proof.
  intros Hs (t & r & h & Hr & Hh & Hd).
  destruct (step_keeps _ _ _ _ _ _ Hs Hr) as (r' & Hr' & Hp).
  exists t, r', h. split_and!; [done|by etrans|done].
Qed.

Lemma heard_step starts cancellation w w' P :
  step starts cancellation w w' -> heard P w -> heard P w'.
Proof.
  intros Hs (t & r & Hr & e & He & HP). destruct (step_keeps _ _ _ _ _ _ Hs Hr) as (r' & Hr' & [h Hp]).
  exists t, r'. split; [done|]. exists e. rewrite Hp. split; [set_solver|done].
Qed.

(** Each decision is that of a request for the host of its object. *)
Definition sourced (w : World) (K : gmap nat HostApprovalKey) (s : Session) : Prop :=
  forall o d, pending_decisions s !! o = Some (Some d) ->
    exists key, K !! o = Some key /\ decided_by key d w.

(** The section of a task: a new decision is the task's own. *)
Lemma act_sourced h r s r' s' owned A S D roles K t o d :
  act h r s r' s' -> Agreed owned A S D roles K s -> roles !! t = Some r ->
  pending_decisions s' !! o = Some (Some d) ->
  pending_decisions s !! o = Some (Some d) \/ exists key, K !! o = Some key /\ decides key d h.
Proof.
  intros Hact Hg Ht. destruct Hact as [r s s' (_ & _ & _ & E)|key s Hin|key o' s Hp|key o' s Hp Ho|key o' s
    |key o' s Hh|key o' s|key o' s Hh|key o' d' s Hh Hd|key o' d' s]; try by left.
  - rewrite E. by left.
  - simpl. rewrite lookup_insert_Some. intros [[_ ?]|[_ ?]]; [done|by left].
  - simpl. rewrite lookup_insert_Some. intros [[-> [= ->]]|[_ ?]]; [|by left]. right. exists key.
    split; [|done]. destruct (agreed_owner _ _ _ _ _ _ _ Hg _ _ _ _ Ht) as [Hp _].
    by eapply agreed_pending.
Qed.

Lemma consistent_step (cancellation : bool) w w' roles K :
  step session_task cancellation w w' -> Consistent (negb cancellation) w roles K ->
  sourced w K (session w) ->
  exists roles' K', Consistent (negb cancellation) w' roles' K' /\ K ⊆ K' /\
    sourced w' K' (session w').
Proof.
  intros Hs Hc Hso. pose proof (fun key d => decided_step _ _ _ _ key d Hs) as Hmono.
  assert (forall s, s = session w -> sourced w' K s) as Hsame.
  { intros s -> o d Ho. destruct (Hso o d Ho) as (key & HK & Hd). eauto. }
  destruct Hs as [t p Hp Ht|t h X f k Ht|t h q k x Ht|t h o k d Ht Hd|t h p Hcan Ht].
  - exists (<[t := Idle]> roles), K. split_and!; [by apply consistent_start|done|by apply Hsame].
  - destruct (consistent_task _ _ _ _ Hc t h _ Ht) as (r & Hr & Hk).
    destruct (Hk (session w)) as (r' & Hact & Hk').
    destruct (consistent_lock _ _ _ _ _ _ _ _ _ _ _ Ht Hc Hr Hact Hk') as (K' & Hc' & HK).
    exists (<[t := r']> roles), K'. split_and!; [done|done|]. intros o d Ho.
    destruct (act_sourced _ _ _ _ _ _ _ _ _ _ _ _ o d Hact (consistent_agreed _ _ _ _ Hc) Hr Ho)
      as [Ho'|(key & HKo & Hd)].
    + destruct (Hso o d Ho') as (key & HKo & Hd). exists key.
      split; [by eapply lookup_weaken|by apply Hmono].
    + exists key. split; [by eapply lookup_weaken|]. eexists t, _, h. simpl. unfold set_running.
      split; [by rewrite lookup_insert_eq|done].
  - destruct (consistent_task _ _ _ _ Hc t h _ Ht) as (r & Hr & Hq & Hk).
    exists roles, K. split_and!; [by eapply consistent_ask|done|by apply Hsame].
  - destruct (consistent_task _ _ _ _ Hc t h _ Ht) as (r & Hr & key & -> & Hk).
    exists (<[t := after key d]> roles), K. split_and!; [by eapply consistent_wait|done|by apply Hsame].
  - exists (delete t roles), K.
    split_and!; [eapply consistent_drop; [by rewrite Hcan|done..]|done|by apply Hsame].
Qed.

Lemma consistent_new owned :
  Consistent owned {| session := new_session; running := ∅ |} ∅ ∅.
Proof.
  split; simpl; [|by intros *; rewrite lookup_empty..].
  split; unfold pending_of, approved_of, denied_of; simpl;
    try (by intros *; rewrite lookup_empty); try set_solver.
  intros o. rewrite !lookup_empty. done.
Qed.

Lemma interleaved_sourced (cancellation : bool) w :
  interleaved session_task cancellation w ->
  exists roles K, Consistent (negb cancellation) w roles K /\ sourced w K (session w).
Proof.
  induction 1 as [|w w' _ (roles & K & Hc & Hso) Hs].
  - exists ∅, ∅. split; [apply consistent_new|]. intros o d. simpl. by rewrite lookup_empty.
  - destruct (consistent_step _ _ _ _ _ Hs Hc Hso) as (roles' & K' & Hc' & _ & Hso'). eauto.
Qed.

Lemma interleaved_consistent (cancellation : bool) w :
  interleaved session_task cancellation w -> exists roles K, Consistent (negb cancellation) w roles K.
Proof. intros (roles & K & Hc & _)%interleaved_sourced. eauto. Qed.

(** ** One request of them

    What holds of the states that a task has seen, told from a later world. *)
Record Seen (w : World) (K : gmap nat HostApprovalKey) (s : Session) : Prop := {
  seen_pending key o : pending_of s !! key = Some o -> K !! o = Some key;
  seen_decision : sourced w K s;
  seen_approved key : key ∈ approved_of s -> heard (approves_for_session key) w;
  seen_denied key : key ∈ denied_of s -> heard (refuses_for_session key) w;
}.

Lemma seen_now owned w roles K :
  Consistent owned w roles K -> sourced w K (session w) -> Seen w K (session w).
Proof.
  intros Hc Hso. pose proof (consistent_agreed _ _ _ _ Hc) as Hg. split; [|done|..].
  - intros key o. by eapply agreed_pending.
  - intros key. apply (agreed_approved _ _ _ _ _ _ _ Hg).
  - intros key. apply (agreed_denied _ _ _ _ _ _ _ Hg).
Qed.

Lemma seen_step cancellation w w' K K' s :
  step session_task cancellation w w' -> K ⊆ K' -> Seen w K s -> Seen w' K' s.
Proof.
  intros Hs HK Hseen. split.
  - intros key o Ho. eapply lookup_weaken; [by eapply seen_pending|done].
  - intros o d Ho. destruct (seen_decision _ _ _ Hseen o d Ho) as (key & HKo & Hd).
    exists key. split; [by eapply lookup_weaken|by eapply decided_step].
  - intros key Hin. eapply heard_step; [done|]. by eapply seen_approved.
  - intros key Hin. eapply heard_step; [done|]. by eapply seen_denied.
Qed.

(** Where a task is that started as [p0], by the states it has seen. *)
Definition follows (p0 : Prog unit) (t : nat) (w : World) (K : gmap nat HostApprovalKey) : Prop :=
  exists r p, running w !! t = Some r /\ reaches (Seen w K) p0 (done r) p /\
    (rest r = Some p \/ rest r = None).

Lemma follows_step cancellation p0 t w w' K K' :
  step session_task cancellation w w' -> K ⊆ K' -> Seen w K (session w) ->
  follows p0 t w K -> follows p0 t w' K'.
Proof.
  intros Hs HK Hnow (r & p & Hr & Hp & Hrest).
  apply (reaches_weaken _ (Seen w' K')) in Hp; [|intros s; by eapply seen_step].
  apply (seen_step _ _ _ _ _ _ Hs HK) in Hnow as Hg. clear Hnow HK. unfold follows.
  revert Hp Hg. generalize (Seen w' K'). intros Good Hp Hg.
  destruct Hs as [t' p1 _ Hn|t' h X f k Hl|t' h q k x Hl|t' h o k d Hl Hd|t' h p1 _ Hl];
    cbn [running]; unfold set_running; (destruct (decide (t' = t)) as [->|Hne];
      [|rewrite lookup_insert_ne by done; by exists r, p]); rewrite Hr in *; simplify_eq;
    rewrite lookup_insert_eq; destruct Hrest as [[= <-]|?]; try done; eexists _, _; (split; [done|]).
  - split; [by apply reaches_lock|by left].
  - split; [by apply reaches_ask|by left].
  - split; [by eapply reaches_wait|by left].
  - split; [exact Hp|by right].
Qed.

Lemma follows_steps cancellation p0 t w0 w :
  interleaved session_task cancellation w0 ->
  running w0 !! t = Some {| done := []; rest := Some p0 |} ->
  rtc (step session_task cancellation) w0 w ->
  exists K, follows p0 t w K.
Proof.
  intros (roles & K & Hc & Hso)%interleaved_sourced Ht Hsteps.
  assert (follows p0 t w0 K) as Hf.
  { exists {| done := []; rest := Some p0 |}, p0. split; [done|]. split; [apply reaches_start|by left]. }
  clear Ht. revert roles K Hc Hso Hf.
  induction Hsteps as [|w1 w2 w3 Hs _ IH]; intros roles K Hc Hso Hf; [by exists K|].
  destruct (consistent_step _ _ _ _ _ Hs Hc Hso) as (roles' & K' & Hc' & HK & Hso').
  apply (IH roles' K'); [done..|]. eapply follows_step; [done|done| |done]. by eapply seen_now.
Qed.

(** What a request that asks nothing may answer: what the user said for the session, or the
    decision of another request for the host. *)
Definition told_answer (key : HostApprovalKey) (x : NetPolicy.NetworkDecision) (w : World) : Prop :=
  (x = NetPolicy.deny REASON_NOT_ALLOWED /\ heard (refuses_for_session key) w) \/
  (x = NetPolicy.Allow /\ heard (approves_for_session key) w) \/
  (exists d, x = to_network_decision d /\ decided_by key d w).

Lemma wp_in_asked {A} Good fit (p : Prog A) (h : list Event) :
  (forall h q, h <> [] -> fit h q) -> h <> [] -> wp_in Good fit p h (fun h' _ => h' <> []).
Proof.
  intros Hfit. revert h. induction p as [a|X f k IH|q k IH|o k IH]; intros h Hh; simpl; auto.
  split; [by apply Hfit|]. intros x. apply IH. by destruct h.
Qed.

Lemma serve_answers (request : NetPolicy.NetworkPolicyRequest) (w : World)
    (K : gmap nat HostApprovalKey) :
  wp_in (Seen w K) (fun h q => match q with
      | Tell (Answered request' x) =>
          h = [] -> request' = request /\ told_answer (request_key request) x w
      | _ => True
      end) (serve request) [] (fun _ _ => True).
Proof.
  set (fit := fun h q => _). set (key := request_key request).
  assert (forall h q, h <> [] -> fit h q) as Hfit by by intros h [| | | | | | | | | | |[]].
  apply wp_in_bind. eapply (wp_in_mono _ fit fit _ _
    (fun h x => h = [] -> told_answer key x w)); [|done|by split; [intros ->; auto|]].
  unfold handle_inline_policy_request. cbv zeta. fold key. intros s Hs. cbn [fst snd].
  destruct (bool_decide_reflect (key ∈ session_denied_hosts (network_approval s))) as [Hin|_].
  { intros _. left. split; [done|]. by eapply seen_denied. }
  intros s2 Hs2. cbn [fst snd].
  destruct (bool_decide_reflect (key ∈ session_approved_hosts (network_approval s2))) as [Hin|_].
  { intros _. right. left. split; [done|]. by eapply seen_approved. }
  intros s3 Hs3. destruct (pending_host_approvals (network_approval s3) !! key) as [o|] eqn:Ep;
    cbn [fst snd].
  - intros s4 d Hs4 Hd. cbn [wp_in]. intros _. right. right. exists d. split; [done|].
    destruct (seen_decision _ _ _ Hs4 o d Hd) as (key' & HK & Hdec).
    apply (seen_pending _ _ _ Hs3) in Ep. by simplify_eq.
  - unfold decide_as_owner. cbv zeta. split; [done|]. intros turn.
    eapply wp_in_mono; [by apply wp_in_asked|done|]. done.
Qed.

(** ** No request is stuck *)

(** Some answer to any question. *)
Definition some_answer (q : Question) : Answer q :=
  match q with
  | NewId => []
  | StrictAutoReview | IsCancelled | IsTurnActive _ => false
  | ActiveTurnContext => None
  | RunHooks _ _ => None
  | ReviewSession _ _ => ReviewError Timeout
  | CommandApproval _ _ _ _ _ _ _ => AccessGrants.Denied
  | PatchApproval _ _ _ => None
  | RunTool _ => inr (Rejected [])
  | PersistAmendment _ _ _ => None
  | Tell _ => tt
  end.

Abbreviation steps := (rtc (step session_task false)).

Lemma steps_once w w' w2 : step session_task false w w' -> steps w' w2 -> steps w w2.
Proof. apply rtc_l. Qed.

(** An owner can get to its decision alone: it waits for no other task. *)
Lemma owner_decides (p : Prog unit) : forall w roles K t key o ph h,
  Consistent true w roles K -> roles !! t = Some (Owner key o ph) ->
  running w !! t = Some {| done := h; rest := Some p |} ->
  keeps p (Owner key o ph) h (fun r _ _ => at_rest r) ->
  exists w' roles' K' d,
    steps w w' /\ Consistent true w' roles' K' /\
    pending_decisions (session w') !! o = Some (Some d) /\
    (forall t', t' <> t -> running w' !! t' = running w !! t').
Proof.
  induction p as [a|X f k IH|q k IH|o' k IH]; intros w roles K t key o ph h Hc Hr Ht Hk; simpl in Hk.
  - done.
  - assert ((exists d, ph = Decided d) \/ forall d, ph <> Decided d) as [[d ->]|Hnd]
      by (destruct ph; naive_solver).
    { exists w, roles, K, d. split_and!; [done|done| |done].
      by apply (agreed_owner _ _ _ _ _ _ _ (consistent_agreed _ _ _ _ Hc)) in Hr as [_ Ho]. }
    destruct (Hk (session w)) as (r' & Hact & Hk').
    destruct (consistent_lock _ _ _ _ _ _ _ _ _ _ _ Ht Hc Hr Hact Hk') as (K' & Hc' & _).
    assert (exists ph', r' = Owner key o ph') as [ph' ->] by (inversion Hact; subst; naive_solver).
    edestruct (IH (snd (f (session w))) _ _ _ t key o ph' h Hc') as (w' & roles' & K2 & d & Hs & Hc2 & Ho & Hsame);
      [by rewrite lookup_insert_eq|simpl; unfold set_running; by rewrite lookup_insert_eq|done|].
    exists w', roles', K2, d. split_and!; [|done..|].
    + eapply steps_once; [by eapply step_lock|done].
    + intros t' Hne. rewrite Hsame by done. simpl. unfold set_running. by rewrite lookup_insert_ne.
  - destruct Hk as [Hq Hk]. set (x := some_answer q).
    pose proof (consistent_ask _ _ _ _ _ _ _ _ x _ Ht Hc Hr Hq (Hk x)) as Hc'.
    edestruct (IH x _ _ _ t key o ph (h ++ [Asked q x]) Hc') as (w' & roles' & K2 & d & Hs & Hc2 & Ho & Hsame);
      [done|simpl; unfold set_running; by rewrite lookup_insert_eq|apply Hk|].
    exists w', roles', K2, d. split_and!; [|done..|].
    + eapply steps_once; [by eapply step_ask|done].
    + intros t' Hne. rewrite Hsame by done. simpl. unfold set_running. by rewrite lookup_insert_ne.
  - by destruct Hk as (? & [=] & _).
Qed.

(** What a task waits for can be decided without it. *)
Lemma waited_decides w roles K t key o h k :
  Consistent true w roles K -> roles !! t = Some (Waiter key o) ->
  running w !! t = Some {| done := h; rest := Some (Wait o k) |} ->
  exists w1 roles1 K1 d, steps w w1 /\ Consistent true w1 roles1 K1 /\
    pending_decisions (session w1) !! o = Some (Some d) /\ running w1 !! t = running w !! t.
Proof.
  intros Hc Hr Ht. pose proof (consistent_agreed _ _ _ _ Hc) as Hg.
  destruct (pending_decisions (session w) !! o) as [[d|]|] eqn:Eo.
  - by exists w, roles, K, d.
  - destruct (agreed_owned _ _ _ _ _ _ _ Hg o eq_refl Eo) as (t' & key' & ph & Hr').
    destruct (consistent_role _ _ _ _ Hc t' _ Hr') as (h' & p' & Ht').
    destruct (consistent_task _ _ _ _ Hc t' h' p' Ht') as (r & Hr2 & Hk).
    rewrite Hr' in Hr2. injection Hr2 as <-.
    destruct (owner_decides p' w roles K t' key' o ph h' Hc Hr' Ht' Hk)
      as (w1 & roles1 & K1 & d & Hs & Hc1 & Hd & Hsame).
    exists w1, roles1, K1, d. split_and!; [done..|]. apply Hsame. congruence.
  - apply (agreed_waiter _ _ _ _ _ _ _ Hg) in Hr.
    assert (is_Some (pending_decisions (session w) !! o)) as [x Hx].
    { apply (agreed_objects _ _ _ _ _ _ _ Hg). by exists key. }
    congruence.
Qed.

Lemma task_finishes (p : Prog unit) : forall w roles K t h,
  Consistent true w roles K -> running w !! t = Some {| done := h; rest := Some p |} ->
  exists w' h', steps w w' /\ running w' !! t = Some {| done := h'; rest := Some (Ret tt) |}.
Proof.
  induction p as [[]|X f k IH|q k IH|o k IH]; intros w roles K t h Hc Ht;
    destruct (consistent_task _ _ _ _ Hc t h _ Ht) as (r & Hr & Hk); simpl in Hk.
  - by exists w, h.
  - destruct (Hk (session w)) as (r' & Hact & Hk').
    destruct (consistent_lock _ _ _ _ _ _ _ _ _ _ _ Ht Hc Hr Hact Hk') as (K' & Hc' & _).
    edestruct (IH (snd (f (session w))) _ _ _ t h Hc') as (w' & h' & Hs & Hend);
      [simpl; unfold set_running; by rewrite lookup_insert_eq|].
    exists w', h'. split; [|done]. eapply steps_once; [by eapply step_lock|done].
  - destruct Hk as [Hq Hk]. set (x := some_answer q).
    pose proof (consistent_ask _ _ _ _ _ _ _ _ x _ Ht Hc Hr Hq (Hk x)) as Hc'.
    edestruct (IH x _ _ _ t (h ++ [Asked q x]) Hc') as (w' & h' & Hs & Hend);
      [simpl; unfold set_running; by rewrite lookup_insert_eq|].
    exists w', h'. split; [|done]. eapply steps_once; [by eapply step_ask|done].
  - destruct Hk as (key & -> & Hk).
    assert (exists w1 roles1 K1 d, steps w w1 /\ Consistent true w1 roles1 K1 /\
      pending_decisions (session w1) !! o = Some (Some d) /\ running w1 !! t = running w !! t)
      as (w1 & roles1 & K1 & d & Hs1 & Hc1 & Hd & Hsame).
    { by eapply waited_decides. }
    rewrite Ht in Hsame. destruct (consistent_task _ _ _ _ Hc1 t h _ Hsame) as (r1 & Hr1 & key1 & -> & Hk1).
    pose proof (consistent_wait _ _ _ _ _ _ _ _ _ _ Hsame Hc1 Hr1 Hd (Hk1 d)) as Hc2.
    edestruct (IH d _ _ _ t h Hc2) as (w' & h' & Hs & Hend);
      [simpl; unfold set_running; by rewrite lookup_insert_eq|].
    exists w', h'. split; [|done]. transitivity w1; [done|].
    eapply steps_once; [by eapply step_wait|done].
Qed.

(** C10: However the requests of the proxy and the tool calls of a session interleave, and even if
    some are dropped: a request is let through only after a hook, the user or the reviewer
    let its host through; a host counts as approved for the session only if the user said
    so, and as denied only if the user said that; and never as both. *)
Theorem hosts_let_through (cancellation : bool) (w : World) :
  interleaved session_task cancellation w ->
  (forall t r request, running w !! t = Some r ->
     Asked (Tell (Answered request NetPolicy.Allow)) tt ∈ done r ->
     heard (approves (request_key request)) w) /\
  (forall key, key ∈ approved_of (session w) -> heard (approves_for_session key) w) /\
  (forall key, key ∈ denied_of (session w) -> heard (refuses_for_session key) w) /\
  approved_of (session w) ## denied_of (session w).
Proof.
  intros (roles & K & Hc)%interleaved_consistent.
  pose proof (consistent_agreed _ _ _ _ Hc) as Hg. split_and!.
  - intros t r request. by eapply consistent_answer.
  - apply (agreed_approved _ _ _ _ _ _ _ Hg).
  - apply (agreed_denied _ _ _ _ _ _ _ Hg).
  - apply (agreed_disjoint _ _ _ _ _ _ _ Hg).
Qed.

(** C13: Two tasks are never asking about the same host at the same time; and of the requests
    for a host, those that ask nothing themselves get what another one gets: such a request
    answers what the user said about the host for the session, or else the decision that
    another request for the host has got to from what it was told, and until there is one
    of these it does not answer. *)
Theorem one_question_per_host (cancellation : bool) (w0 w : World) (key : HostApprovalKey) :
  interleaved session_task cancellation w0 -> rtc (step session_task cancellation) w0 w ->
  (forall t t' h h' q q' k k',
     running w !! t = Some {| done := h; rest := Some (Ask q k) |} ->
     running w !! t' = Some {| done := h'; rest := Some (Ask q' k') |} ->
     asks_about key q -> asks_about key q' -> t = t') /\
  (forall t r h request request' x,
     running w0 !! t = Some {| done := []; rest := Some (serve request) |} ->
     request_key request = key -> running w !! t = Some r ->
     done r = Asked (Tell (Answered request' x)) tt :: h ->
     request' = request /\ told_answer key x w).
Proof.
  intros Hw0 Hsteps. split.
  - intros t t' h h' q q' k k' Ht Ht' Hq Hq'.
    destruct (interleaved_consistent cancellation w) as (roles & K & Hc);
      [by eapply interleaved_steps|].
    pose proof (consistent_agreed _ _ _ _ Hc) as Hg.
    destruct (consistent_task _ _ _ _ Hc t h _ Ht) as (r & Hr & [Hm _] & _).
    destruct (consistent_task _ _ _ _ Hc t' h' _ Ht') as (r' & Hr' & [Hm' _] & _).
    destruct (Hm key Hq) as (o & ph & ->), (Hm' key Hq') as (o' & ph' & ->).
    exact (agreed_unique _ _ _ _ _ _ _ Hg _ _ _ _ _ _ _ Hr Hr').
  - intros t r h request request' x Ht0 <- Hr Hd.
    destruct (follows_steps _ _ _ _ _ Hw0 Ht0 Hsteps) as (K & r' & p & Hr' & Hp & _).
    rewrite Hr in Hr'. injection Hr' as <-.
    destruct (wp_in_reaches _ _ _ _ _ _ (serve_answers request w K) Hp) as [_ Hfit].
    exact (Hfit [] _ h Hd eq_refl).
Qed.

(** C12: If no task is dropped, no task is ever stuck: from every state that the session gets to,
    each task can go on to its end, given that what is asked is answered. A task that
    waits for the decision of another can wait in vain only if the other is not answered. *)
Theorem tasks_can_finish (w : World) (t : nat) (h : list Event) (p : Prog unit) :
  interleaved session_task false w ->
  running w !! t = Some {| done := h; rest := Some p |} ->
  exists w' h', rtc (step session_task false) w w' /\
    running w' !! t = Some {| done := h'; rest := Some (Ret tt) |}.
Proof.
  intros (roles & K & Hc)%interleaved_consistent Ht. by eapply (task_finishes p).
Qed.

(** ** A request that is dropped

    [PendingHostApproval] has no owner any more, but stays in the map. *)
Definition Blocked (key : HostApprovalKey) (o : nat) (w : World) : Prop :=
  exists roles K, Consistent false w roles K /\
    pending_of (session w) !! key = Some o /\ pending_decisions (session w) !! o = Some None /\
    forall t o' ph, roles !! t <> Some (Owner key o' ph).

Lemma blocked_if (key : HostApprovalKey) (o : nat) (w : World) :
  interleaved session_task true w ->
  pending_of (session w) !! key = Some o -> pending_decisions (session w) !! o = Some None ->
  (forall t h p, running w !! t = Some {| done := h; rest := Some p |} -> exists o k, p = Wait o k) ->
  Blocked key o w.
Proof.
  intros (roles & K & Hc)%interleaved_consistent Hp Ho Hw. exists roles, K. split_and!; [done..|].
  intros t o' ph Hr. destruct (consistent_role _ _ _ _ Hc t _ Hr) as (h & p & Ht).
  destruct (Hw t h p Ht) as (o2 & k & ->).
  destruct (consistent_task _ _ _ _ Hc t h _ Ht) as (r & Hr2 & key2 & -> & _). congruence.
Qed.

Lemma act_blocked h r s r' s' key o K roles (A S D : HostApprovalKey -> Prop) t :
  act h r s r' s' -> Agreed false A S D roles K s -> roles !! t = Some r ->
  pending_of s !! key = Some o -> pending_decisions s !! o = Some None ->
  (forall o' ph, r <> Owner key o' ph) ->
  pending_of s' !! key = Some o /\ pending_decisions s' !! o = Some None /\
  (forall o' ph, r' <> Owner key o' ph).
Proof.
  intros Hact Hg Ht Hp Ho Hr. assert (K !! o = Some key) as HK by (by eapply agreed_pending).
  destruct Hact as [r s s' (E1 & _ & _ & E2)|key' s Hin|key' o' s Hp'|key' o' s Hp' Ho'|key' o' s|key' o' s Hh
    |key' o' s|key' o' s Hh|key' o' d s Hh|key' o' d s]; try done.
  - unfold pending_of in *. by rewrite E1, E2.
  - unfold pending_of in *. split_and!; [| |by intros o2 ph [= -> _ _]; congruence]; simpl.
    + rewrite lookup_insert_ne; [done|]. intros ->. congruence.
    + rewrite lookup_insert_ne; [done|]. intros ->. congruence.
  - split_and!; [done|done|]. intros o2 ph [= -> _ _]. by eapply Hr.
  - split_and!; [done|done|]. intros o2 ph [= -> _ _]. by eapply Hr.
  - split_and!; [done|done|]. intros o2 ph [= -> _ _]. by eapply Hr.
  - split_and!; [done|done|]. intros o2 ph [= -> _ _]. by eapply Hr.
  - assert (key' <> key) as Hne by (intros ->; by eapply Hr).
    split_and!; [done| |by intros o2 ph [= -> _ _]]. simpl. rewrite lookup_insert_ne; [done|].
    intros ->. destruct (agreed_owner _ _ _ _ _ _ _ Hg _ _ _ _ Ht) as [Hp2 _].
    apply (agreed_pending _ _ _ _ _ _ _ Hg) in Hp2. congruence.
  - assert (key' <> key) as Hne by (intros ->; by eapply Hr).
    split_and!; [|done|by destruct d]. unfold pending_of. simpl. by rewrite lookup_delete_ne.
Qed.

Lemma blocked_step (key : HostApprovalKey) (o : nat) (w w' : World) :
  Blocked key o w -> step session_task true w w' -> Blocked key o w'.
Proof.
  intros (roles & K & Hc & Hp & Ho & Hno) Hs. pose proof (consistent_agreed _ _ _ _ Hc) as Hg.
  destruct Hs as [t p Hp' Ht|t h X f k Ht|t h q k x Ht|t h o' k d Ht Hd|t h p Hcan Ht].
  - exists (<[t := Idle]> roles), K. split_and!; [by apply consistent_start|done..|].
    intros t' o' ph. rewrite lookup_insert_Some. naive_solver.
  - destruct (consistent_task _ _ _ _ Hc t h _ Ht) as (r & Hr & Hk).
    destruct (Hk (session w)) as (r' & Hact & Hk').
    destruct (consistent_lock _ _ _ _ _ _ _ _ _ _ _ Ht Hc Hr Hact Hk') as (K' & Hc' & _).
    destruct (act_blocked _ _ _ _ _ key o _ _ _ _ _ _ Hact Hg Hr Hp Ho) as (Hp2 & Ho2 & Hno2).
    { intros o' ph ->. by eapply Hno. }
    exists (<[t := r']> roles), K'. split_and!; [done..|].
    intros t' o' ph. rewrite lookup_insert_Some. naive_solver.
  - destruct (consistent_task _ _ _ _ Hc t h _ Ht) as (r & Hr & Hq & Hk).
    exists roles, K. split_and!; [by eapply consistent_ask|done..].
  - destruct (consistent_task _ _ _ _ Hc t h _ Ht) as (r & Hr & key' & -> & Hk).
    exists (<[t := after key' d]> roles), K. split_and!; [by eapply consistent_wait|done..|].
    intros t' o2 ph. rewrite lookup_insert_Some. intros [[_ E]|[_ E]]; [by destruct d|].
    by eapply Hno.
  - exists (delete t roles), K. split_and!; [by eapply consistent_drop|done..|].
    intros t' o' ph. rewrite lookup_delete_Some. intros [_ E]. by eapply Hno.
Qed.

(** A task that waits for the object waits on, or is dropped. *)
Definition waits_or_dropped (t : nat) (h : list Event) (p : Prog unit) (w : World) : Prop :=
  running w !! t = Some {| done := h; rest := Some p |} \/
  running w !! t = Some {| done := h; rest := None |}.

Lemma waits_step (key : HostApprovalKey) (o : nat) (w w' : World) (t : nat) (h : list Event) k :
  Blocked key o w -> step session_task true w w' ->
  waits_or_dropped t h (Wait o k) w -> waits_or_dropped t h (Wait o k) w'.
Proof.
  unfold waits_or_dropped. intros (roles & K & _ & _ & Ho & _) Hs Hw.
  destruct Hs as [t2 p Hp' Ht|t2 h2 X f k2 Ht|t2 h2 q k2 x Ht|t2 h2 o' k2 d Ht Hd|t2 h2 p Hcan Ht];
    simpl; unfold set_running;
    (destruct (decide (t2 = t)) as [->|Hne]; [|by rewrite lookup_insert_ne]);
    destruct Hw as [Hw|Hw]; rewrite Hw in Ht; try done.
  - injection Ht as -> -> ->. congruence.
  - injection Ht as -> ->. right. by rewrite lookup_insert_eq.
Qed.

Lemma blocked_waits (key : HostApprovalKey) (o : nat) (w w' : World) (t : nat) (h : list Event) k :
  rtc (step session_task true) w w' -> Blocked key o w ->
  waits_or_dropped t h (Wait o k) w -> waits_or_dropped t h (Wait o k) w'.
Proof.
  induction 1 as [w|w w1 w2 Hs _ IH]; [done|]. intros Hb Hw.
  apply IH; [by eapply blocked_step|by eapply waits_step].
Qed.

End Protocol.
End NetApprovalFacts.

(** ** Schedules, and what they lead to *)
Module NetApprovalExamples.
Import ProgFacts NetApprovalFacts.

#[local] Instance example_types : ToolTypes :=
  {| Out := unit; ExecOutput := unit; OtherErr := Empty_set |}.

(** One move of a schedule; a move that is not possible changes nothing. *)
Inductive Move :=
| Start (t : nat) (request : NetPolicy.NetworkPolicyRequest)
| Go (t : nat) (answer : forall q, Answer q)
| Drop (t : nat).

Definition move (w : World) (m : Move) : World :=
  match m with
  | Start t request =>
      match running w !! t with
      | None => {| session := session w; running := set_running t [] (Some (serve request)) w |}
      | Some _ => w
      end
  | Go t answer =>
      match running w !! t with
      | Some {| done := h; rest := Some (Lock f k) |} =>
          {| session := fst (f (session w));
             running := set_running t h (Some (k (snd (f (session w))))) w |}
      | Some {| done := h; rest := Some (Ask q k) |} =>
          {| session := session w;
             running := set_running t (h ++ [Asked q (answer q)]) (Some (k (answer q))) w |}
      | Some {| done := h; rest := Some (Wait o k) |} =>
          match pending_decisions (session w) !! o with
          | Some (Some d) => {| session := session w; running := set_running t h (Some (k d)) w |}
          | _ => w
          end
      | _ => w
      end
  | Drop t =>
      match running w !! t with
      | Some {| done := h; rest := Some _ |} =>
          {| session := session w; running := set_running t h None w |}
      | _ => w
      end
  end.

Definition schedule (ms : list Move) : World :=
  fold_left move ms {| session := new_session; running := ∅ |}.

Lemma move_steps (w : World) (m : Move) (cancellation : bool) :
  (forall t, m = Drop t -> cancellation = true) ->
  rtc (step session_task cancellation) w (move w m).
Proof.
  intros Hm. destruct m as [t request|t answer|t]; simpl.
  - destruct (running w !! t) eqn:E; [done|]. apply rtc_once, step_start; [constructor|done].
  - destruct (running w !! t) as [[h [[a|X f k|q k|o k]|]]|] eqn:E; try done.
    + by apply rtc_once, step_lock.
    + by apply rtc_once, step_ask.
    + destruct (pending_decisions (session w) !! o) as [[d|]|] eqn:Eo; try done.
      by eapply rtc_once, step_wait.
  - destruct (running w !! t) as [[h [p|]]|] eqn:E; try done.
    eapply rtc_once, step_drop; [by eapply Hm|done].
Qed.

Lemma moves_steps (ms : list Move) (w : World) (cancellation : bool) :
  Forall (fun m => forall t, m = Drop t -> cancellation = true) ms ->
  rtc (step session_task cancellation) w (fold_left move ms w).
Proof.
  intros Hms. revert w. induction Hms as [|m ms Hm _ IH]; intros w; [done|].
  etrans; [by apply move_steps|]. apply IH.
Qed.

Lemma schedule_interleaved (ms : list Move) (cancellation : bool) :
  Forall (fun m => forall t, m = Drop t -> cancellation = true) ms ->
  interleaved session_task cancellation (schedule ms).
Proof. intros Hms. eapply interleaved_steps; [constructor|]. by apply moves_steps. Qed.

Definition example_request : NetPolicy.NetworkPolicyRequest :=
  {| NetPolicy.protocol := NetPolicy.HttpsConnect; NetPolicy.req_host := lit "Example.org";
     NetPolicy.req_port := 443; NetPolicy.client_addr := None; NetPolicy.method := None;
     NetPolicy.command := None; NetPolicy.exec_policy_hint := None |}.

Definition example_key : HostApprovalKey :=
  {| key_host := lit "example.org"; key_protocol := lit "https"; key_port := 443 |}.

(** A managed turn that may ask, and a user who lets hosts through for the session. *)
Definition example_turn : TurnContext :=
  {| sub_id := lit "1"; permission_profile := FsProfile.default_profile;
     approval_policy := OnRequest; approvals_reviewer := ReviewerUser; turn_cwd := lit "/";
     network_managed := true |}.

Definition for_session (q : Question) : Answer q :=
  match q with
  | ActiveTurnContext => Some example_turn
  | CommandApproval _ _ _ _ _ _ _ => AccessGrants.ApprovedForSession
  | q => some_answer q
  end.

(** Two requests for a host: the first asks, the second waits for it. *)
Definition two_requests : list Move :=
  [Start 1 example_request; Start 2 example_request] ++ repeat (Go 1 for_session) 3
  ++ repeat (Go 2 for_session) 3.

Definition answered (t : nat) (w : World) : option (list NetPolicy.NetworkDecision) :=
  r ← running w !! t;
  Some (omap (fun e => match asked e with Tell (Answered _ d) => Some d | _ => None end) (done r)).

Example second_request_waits :
  answered 2 (schedule (two_requests ++ repeat (Go 2 for_session) 5)) = Some [].
Proof. by vm_compute. Qed.

Example both_let_through :
  let w := schedule (two_requests ++ repeat (Go 1 for_session) 12 ++ repeat (Go 2 for_session) 3) in
  (answered 1 w, answered 2 w) = (Some [NetPolicy.Allow], Some [NetPolicy.Allow]) /\
  example_key ∈ approved_of (session w) /\ pending_of (session w) = ∅.
Proof. split; [by vm_compute|]. split; [by apply (bool_decide_unpack _); vm_compute|by vm_compute]. Qed.

(** ** A request whose connection closes while it asks *)

Definition dropped_request : list Move :=
  [Start 1 example_request] ++ repeat (Go 1 for_session) 3 ++ [Drop 1; Start 2 example_request]
  ++ repeat (Go 2 for_session) 3.

Lemma move_other (w : World) (m : Move) (t : nat) :
  running w !! t = None -> (forall request, m <> Start t request) -> running (move w m) !! t = None.
Proof.
  intros Ht Hm. destruct m as [t' request|t' answer|t']; simpl.
  - assert (t' <> t) by (intros ->; by eapply Hm). destruct (running w !! t'); [done|].
    simpl. unfold set_running. by rewrite lookup_insert_ne.
  - assert (running w !! t' <> None -> t' <> t) as Hne by congruence.
    destruct (running w !! t') as [[h [[a|X f k|q k|o k]|]]|]; simpl; unfold set_running;
      rewrite ?lookup_insert_ne by auto; try done.
    destruct (pending_decisions (session w) !! o) as [[d|]|]; simpl; unfold set_running;
      by rewrite ?lookup_insert_ne by auto.
  - assert (running w !! t' <> None -> t' <> t) as Hne by congruence.
    destruct (running w !! t') as [[h [p|]]|]; simpl; unfold set_running;
      by rewrite ?lookup_insert_ne by auto.
Qed.

Lemma schedule_other (ms : list Move) (t : nat) :
  Forall (fun m => forall request, m <> Start t request) ms -> running (schedule ms) !! t = None.
Proof.
  unfold schedule. assert (running ({| session := new_session; running := ∅ |} : World) !! t = None)
    as Hnew by apply lookup_empty.
  revert Hnew. generalize ({| session := new_session; running := ∅ |} : World) as w.
  intros w Hw Hms. revert w Hw. induction Hms as [|m ms Hm _ IH]; intros w Hw; simpl; [done|].
  by apply IH, move_other.
Qed.

(** A request that is dropped while it asks leaves its host blocked: the request that comes next
    for the host waits, and never gets to its end, whatever the session does. *)
Theorem dropped_request_blocks_host :
  exists w, interleaved session_task true w /\
    (exists p, running w !! 2%nat = Some {| done := []; rest := Some p |}) /\
    forall w', rtc (step session_task true) w w' ->
      ~ exists h, running w' !! 2%nat = Some {| done := h; rest := Some (Ret tt) |}.
Proof.
  set (w := schedule dropped_request). exists w.
  assert (interleaved session_task true w) as Hw.
  { apply schedule_interleaved, Forall_true. auto. }
  assert (running w !! 2%nat = Some {| done := []; rest := Some (Wait 0
    (fun d => d' ← Ret (to_network_decision d); tell (Answered example_request d'))) |}) as H2
    by reflexivity.
  split_and!; [done|by eexists|]. intros w' Hs [h Hend].
  assert (Blocked example_key 0 w) as Hb.
  { apply blocked_if; [done|by vm_compute|by vm_compute|].
    intros t h' p Ht. destruct (decide (t = 2)) as [->|Hne]; [rewrite H2 in Ht; injection Ht as _ <-; eauto|].
    exfalso. destruct (decide (t = 1)) as [->|Hne1]; [by vm_compute in Ht|].
    assert (running w !! t = None) as Hn; [|congruence].
    apply schedule_other. repeat constructor; congruence. }
  destruct (blocked_waits _ _ _ _ _ _ _ Hs Hb (or_introl H2)) as [E|E]; rewrite E in Hend; congruence.
Qed.

(** ** The theorems at work *)

Definition failing_review : GuardianReviewOutcome := ReviewError (Parse (lit "not JSON")).

Lemma review_fails_closed_witness :
  exists h, runs (run_guardian_review example_turn (lit "r") (GuardianApplyPatch [] [] [] []) None false)
              h AccessGrants.Denied /\
    ((AccessGrants.Denied = AccessGrants.Approved -> False) /\
     (exists outcome, GuardianFacts.assessed (GuardianApplyPatch [] [] [] []) None outcome h /\
        AccessGrants.Denied = GuardianFacts.outcome_decision outcome) \/
     (false = true /\ True)).
Proof.
  assert (exists h, runs (run_guardian_review example_turn (lit "r") (GuardianApplyPatch [] [] [] [])
    None false) h AccessGrants.Denied) as [h Hr].
  { eexists. cbn -[lit]. exists tt. eexists. split; [reflexivity|]. exists failing_review. eexists.
    split; [reflexivity|]. cbn -[lit]. exists tt. eexists. split; [reflexivity|]. exists new_session.
    exists tt. eexists. split; [reflexivity|]. exists new_session. by split. }
  exists h. split; [done|].
  destruct (GuardianFacts.review_fails_closed _ _ _ _ _ _ _ Hr) as [[_ Ho]|[E _]]; [|done].
  left. by split.
Defined.

Definition answered_world : World :=
  schedule (two_requests ++ repeat (Go 1 for_session) 12 ++ repeat (Go 2 for_session) 3).

Lemma answered_interleaved : interleaved session_task false answered_world.
Proof. apply schedule_interleaved. by repeat constructor. Qed.

Lemma hosts_let_through_witness :
  example_key ∈ approved_of (session answered_world) /\
  heard (approves_for_session example_key) answered_world.
Proof.
  assert (example_key ∈ approved_of (session answered_world)) as Hin
    by (apply (bool_decide_unpack _); by vm_compute).
  split; [done|].
  by apply (proj1 (proj2 (hosts_let_through false answered_world answered_interleaved))).
Defined.

(** The second request asked nothing, and was let through by what the first was told. *)
Lemma one_question_per_host_witness :
  exists r, running answered_world !! 2%nat = Some r /\
    done r = [Asked (Tell (Answered example_request NetPolicy.Allow)) tt] /\
    told_answer example_key NetPolicy.Allow answered_world.
Proof.
  set (w0 := schedule [Start 1 example_request; Start 2 example_request]).
  assert (interleaved session_task false w0) as Hw0
    by (apply schedule_interleaved; by repeat constructor).
  assert (rtc (step session_task false) w0 answered_world) as Hs.
  { unfold answered_world, two_requests, schedule. rewrite <-!app_assoc, fold_left_app.
    apply moves_steps. by repeat constructor. }
  assert (running answered_world !! 2%nat = Some {|
    done := [Asked (Tell (Answered example_request NetPolicy.Allow)) tt]; rest := Some (Ret tt) |}) as Hr
    by (vm_compute; reflexivity).
  eexists. split; [exact Hr|]. split; [done|].
  destruct (one_question_per_host false w0 answered_world example_key Hw0 Hs) as [_ Hanswer].
  exact (proj2 (Hanswer 2%nat _ [] example_request example_request NetPolicy.Allow
    eq_refl eq_refl Hr eq_refl)).
Defined.

Lemma tasks_can_finish_witness :
  exists w' h', rtc (step session_task false) (schedule two_requests) w' /\
    running w' !! 2%nat = Some {| done := h'; rest := Some (Ret tt) |}.
Proof.
  eapply (tasks_can_finish (schedule two_requests) 2%nat);
    [apply schedule_interleaved; by repeat constructor|reflexivity].
Defined.

End NetApprovalExamples.
