(* ===== verification/Orchestrator.v ===== *)
(** * Running tools: src/core/src/tools/{orchestrator,execution,runtimes}.rs

    [Execution] has the store of approvals and the trait of the tools
    (src/core/src/tools/execution.rs), as a class; [Orchestrator] the sequence of approval,
    attempt and second attempt (src/core/src/tools/orchestrator.rs); [Runtimes] the three
    tools that run under it (src/core/src/tools/runtimes/{shell,unified_exec,apply_patch}.rs)
    as instances of the class, with src/core/src/command_canonicalization.rs. *)

From Stdlib Require Import Ascii String.
From S2P Require Import Prelude RustStr AbsPath FsPolicy FsRoots Approval ShellBash.
From S2P Require Import ShellPowershell AccessGrants ToolSession NetApproval.
Import FsPolicy FsProfile Approval AccessTransforms ToolSession Guardian NetworkPolicyDecision.
Import NetApproval.

Module Execution.

(** ** The store of approvals

    Keys are stored as they are serialised; one that cannot be serialised is not found, and
    not stored. *)

Section Store.
Context {K : Type} (to_json : K -> option str).

Definition store_get (m : gmap str ReviewDecision) (key : K) : option ReviewDecision :=
  s ← to_json key; m !! s.

Definition store_put (m : gmap str ReviewDecision) (key : K) (value : ReviewDecision)
    : gmap str ReviewDecision :=
  match to_json key with Some s => <[s := value]> m | None => m end.

Definition is_approved_for_session (d : option ReviewDecision) : bool :=
  match d with Some AccessGrants.ApprovedForSession => true | _ => false end.

Definition all_approved (m : gmap str ReviewDecision) (keys : list K) : bool :=
  forallb (fun key => is_approved_for_session (store_get m key)) keys.

Definition put_all (m : gmap str ReviewDecision) (keys : list K) : gmap str ReviewDecision :=
  fold_left (fun m key => store_put m key AccessGrants.ApprovedForSession) keys m.

Definition with_cached_approval `{ToolTypes} (keys : list K) (fetch : Prog ReviewDecision)
    : Prog ReviewDecision :=
  match keys with
  | [] => fetch
  | _ =>
      already_approved ← reading (fun s => all_approved (tool_approvals s) keys);
      if already_approved : bool then Ret AccessGrants.ApprovedForSession
      else
        decision ← fetch;
        match decision with
        | AccessGrants.ApprovedForSession =>
            updating (fun s => with_tool_approvals (put_all (tool_approvals s) keys) s);;
            Ret decision
        | _ => Ret decision
        end
  end.

End Store.

(** ** The trait of the tools *)

Record ToolCtx := { turn : TurnContext; call_id : str; tool_name : str }.

(** The session and the turn of an [ApprovalCtx] are those of the [ToolCtx]. *)
Record ApprovalCtx := {
  guardian_review_id : option str;
  retry_reason : option str;
  network_approval_context : option NetworkApprovalContext;
}.

(** [Approvable] and [ToolRuntime]. Running the tool is the question [RunTool]. *)
Class ToolRuntime `{ToolTypes} (Req : Type) := {
  should_bypass_approval : AskForApproval -> bool -> bool;
  exec_approval_requirement : Req -> option ExecApprovalRequirement;
  permission_request_payload : Req -> option PermissionRequestPayload;
  wants_no_access_approval : AskForApproval -> bool;
  start_approval_async : Req -> ToolCtx -> ApprovalCtx -> Prog ReviewDecision;
  escalate_on_failure : bool;
  network_approval_spec : Req -> ToolCtx -> option NetworkApprovalSpec;
}.

(** What the trait provides. *)
Definition default_should_bypass_approval (policy : AskForApproval) (already_approved : bool) : bool :=
  if already_approved then true else match policy with Never => true | _ => false end.

Definition default_wants_no_access_approval (policy : AskForApproval) : bool :=
  match policy with
  | OnFailure | UnlessTrusted => true
  | Never | OnRequest => false
  | Granular granular_config => access_approval granular_config
  end.

Definition default_escalate_on_failure : bool := true.

End Execution.

Module Orchestrator.
Import Execution.

Section Run.
Context (H : Host) `{ToolRuntime Req}.

(** A result, and what goes on with it: the question mark of Rust. *)
Definition try_bind {A B} (p : Prog (A + ToolError)) (k : A -> Prog (B + ToolError))
    : Prog (B + ToolError) :=
  x ← p; match x with inl a => k a | inr e => Ret (inr e) end.

(** The result of one attempt, and the registration that is left to the caller. *)
Definition run_attempt (req : Req) (tool_ctx : ToolCtx) : Prog ((Out + ToolError) * option str) :=
  network_approval ←
    begin_network_approval (sub_id (turn tool_ctx)) (network_managed (turn tool_ctx))
      (network_approval_spec req tool_ctx);
  run_result ← ask (RunTool (call_id tool_ctx));
  match network_approval with
  | None => Ret (run_result, None)
  | Some network_approval =>
      match active_mode network_approval with
      | Immediate =>
          finalize_result ← finish_immediate_network_approval network_approval;
          match finalize_result with
          | Some err => Ret (inr err, None)
          | None => Ret (run_result, None)
          end
      | Deferred =>
          let deferred := into_deferred network_approval in
          match run_result : Out + ToolError with
          | inr _ => finish_deferred_network_approval deferred;; Ret (run_result, None)
          | inl _ => Ret (run_result, deferred)
          end
      end
  end.

Definition tell_decision (tool_ctx : ToolCtx) (decision : ReviewDecision)
    (source : ToolDecisionSource) : Prog unit :=
  tell (ToolDecision (tool_name tool_ctx) (call_id tool_ctx) decision source).

(** Hooks come first; then the guardian or the user, as the tool arranges it. *)
Definition ask_approval (req : Req) (tool_ctx : ToolCtx) (approval_ctx : ApprovalCtx)
    : Prog (ReviewDecision + ToolError) :=
  let otel_source :=
    match guardian_review_id approval_ctx with
    | Some _ => SourceAutomatedReviewer
    | None => SourceUser
    end in
  decision ← start_approval_async req tool_ctx approval_ctx;
  tell_decision tool_ctx decision otel_source;;
  Ret (inl decision).

Definition request_approval (req : Req) (permission_request_run_id : str) (approval_ctx : ApprovalCtx)
    (tool_ctx : ToolCtx) (evaluate_permission_request_hooks : bool)
    : Prog (ReviewDecision + ToolError) :=
  match (if evaluate_permission_request_hooks then permission_request_payload req else None) with
  | Some permission_request =>
      hook ← ask (RunHooks permission_request_run_id permission_request);
      match hook : option PermissionRequestDecision with
      | Some HookAllow =>
          tell_decision tool_ctx AccessGrants.Approved SourceConfig;;
          Ret (inl AccessGrants.Approved)
      | Some (HookDeny message) =>
          tell_decision tool_ctx AccessGrants.Denied SourceConfig;;
          Ret (inr (Rejected message))
      | None => ask_approval req tool_ctx approval_ctx
      end
  | None => ask_approval req tool_ctx approval_ctx
  end.

Definition reject_if_not_approved (guardian_review_id : option str) (decision : ReviewDecision)
    : Prog (unit + ToolError) :=
  match decision with
  | AccessGrants.Denied | AccessGrants.Abort =>
      reason ←
        match guardian_review_id with
        | Some review_id => guardian_rejection_message review_id
        | None => Ret (lit "rejected by user")
        end;
      Ret (inr (Rejected reason))
  | AccessGrants.TimedOut => Ret (inr (Rejected guardian_timeout_message))
  | AccessGrants.Approved | AccessGrants.ApprovedExecpolicyAmendment _
  | AccessGrants.ApprovedForSession => Ret (inl tt)
  | AccessGrants.NetworkPolicyAmendment _ AccessGrants.ActionAllow => Ret (inl tt)
  | AccessGrants.NetworkPolicyAmendment _ AccessGrants.ActionDeny =>
      Ret (inr (Rejected (lit "rejected by user")))
  end.

Definition new_review_id (use_guardian : bool) : Prog (option str) :=
  if use_guardian then id ← ask NewId; Ret (Some id) else Ret None.

(** The approval for one attempt: asking, and turning a refusal into an error. *)
Definition approve (req : Req) (run_id : str) (tool_ctx : ToolCtx) (use_guardian : bool)
    (reason : option str) (context : option NetworkApprovalContext) (hooks : bool)
    : Prog (unit + ToolError) :=
  review_id ← new_review_id use_guardian;
  try_bind
    (request_approval req run_id
       {| guardian_review_id := review_id; retry_reason := reason;
          network_approval_context := context |} tool_ctx hooks)
    (reject_if_not_approved review_id).

Definition build_denial_reason_from_output : str :=
  lit "command failed; retry with escalated access?".

(** The first part: whether the call may be attempted, and whether somebody approved it. *)
Definition approval_phase (req : Req) (tool_ctx : ToolCtx) (strict_auto_review use_guardian : bool)
    (requirement : ExecApprovalRequirement) : Prog (bool + ToolError) :=
  match requirement with
  | Skip _ =>
      if strict_auto_review then
        try_bind (approve req (call_id tool_ctx) tool_ctx true None None false)
          (fun _ => Ret (inl true))
      else
        tell_decision tool_ctx AccessGrants.Approved SourceConfig;;
        Ret (inl false)
  | ForbiddenCall reason => Ret (inr (Rejected reason))
  | NeedsApproval reason _ =>
      try_bind (approve req (call_id tool_ctx) tool_ctx use_guardian reason None
                  (negb strict_auto_review))
        (fun _ => Ret (inl true))
  end.

Definition is_needs_approval (r : ExecApprovalRequirement) : bool :=
  match r with NeedsApproval _ _ => true | _ => false end.

Definition is_OnRequest (policy : AskForApproval) : bool :=
  match policy with OnRequest => true | _ => false end.

Definition is_some {A} (o : option A) : bool := match o with Some _ => true | None => false end.

(** The context of the network decision that a refused command came with. *)
Definition denial_context (turn_ctx : TurnContext)
    (network_policy_decision : option NetworkPolicyDecisionPayload) : option NetworkApprovalContext :=
  if network_managed turn_ctx
  then payload ← network_policy_decision; network_approval_context_from_payload payload
  else None.

(** Whether a call that was refused may be attempted again. *)
Definition may_retry (turn_ctx : TurnContext) (approval_policy : AskForApproval)
    (network_policy_decision : option NetworkPolicyDecisionPayload) : bool :=
  let context := denial_context turn_ctx network_policy_decision in
  negb (is_some network_policy_decision && negb (is_some context))
  && escalate_on_failure
  && (wants_no_access_approval approval_policy
      || (is_OnRequest approval_policy && is_some context
          && is_needs_approval (default_exec_approval_requirement approval_policy
                (file_system_access_policy H (permission_profile turn_ctx))))).

Definition retry_reason_of (context : option NetworkApprovalContext) : str :=
  match context with
  | Some context =>
      lit "Network access to " ++ QUOTE ++ context_host context ++ QUOTE
      ++ lit " is blocked by policy."
  | None => build_denial_reason_from_output
  end.

(** Whether the second attempt needs no approval of its own. *)
Definition bypass_retry_approval (strict_auto_review already_approved : bool)
    (approval_policy : AskForApproval) (context : option NetworkApprovalContext) : bool :=
  negb strict_auto_review && should_bypass_approval approval_policy already_approved
  && negb (is_some context).

Definition retry_phase (req : Req) (tool_ctx : ToolCtx) (strict_auto_review use_guardian
    already_approved : bool) (approval_policy : AskForApproval)
    (context : option NetworkApprovalContext) : Prog (Out * option str + ToolError) :=
  try_bind
    (if bypass_retry_approval strict_auto_review already_approved approval_policy context
     then Ret (inl tt)
     else approve req (call_id tool_ctx ++ lit ":retry") tool_ctx use_guardian
            (Some (retry_reason_of context)) context (negb strict_auto_review))
    (fun _ =>
       '(retry_result, deferred) ← run_attempt req tool_ctx;
       Ret match retry_result with inl out => inl (out, deferred) | inr err => inr err end).

Definition run (req : Req) (tool_ctx : ToolCtx) (turn_ctx : TurnContext)
    (approval_policy : AskForApproval) : Prog (Out * option str + ToolError) :=
  strict_auto_review ← ask StrictAutoReview;
  let use_guardian := routes_approval_to_guardian turn_ctx || strict_auto_review in
  let requirement :=
    default (default_exec_approval_requirement approval_policy
               (file_system_access_policy H (permission_profile turn_ctx)))
      (exec_approval_requirement req) in
  try_bind (approval_phase req tool_ctx strict_auto_review use_guardian requirement)
    (fun already_approved =>
       '(first_result, deferred) ← run_attempt req tool_ctx;
       match first_result : Out + ToolError with
       | inl out => Ret (inl (out, deferred))
       | inr (ExecDenied output network_policy_decision) =>
           if may_retry turn_ctx approval_policy network_policy_decision
           then retry_phase req tool_ctx strict_auto_review use_guardian already_approved
                  approval_policy (denial_context turn_ctx network_policy_decision)
           else Ret (inr (ExecDenied output network_policy_decision))
       | inr err => Ret (inr err)
       end).

End Run.

End Orchestrator.

Module Runtimes.
Import Execution.

(** ** command_canonicalization.rs *)

Definition CANONICAL_BASH_SCRIPT_PREFIX : str := lit "__agere_shell_script__".
Definition CANONICAL_POWERSHELL_SCRIPT_PREFIX : str := lit "__agere_powershell_script__".

Section Canonical.
Context (try_parse_shell : str -> option ShellBash.Tree).

Definition canonicalize_command_for_approval (command : list str) : list str :=
  match ShellBash.parse_shell_lc_plain_commands try_parse_shell command with
  | Some [single_command] => single_command
  | _ =>
      match ShellBash.extract_bash_command command with
      | Some (_, script) =>
          [CANONICAL_BASH_SCRIPT_PREFIX; default [] (command !! 1%nat); script]
      | None =>
          match ShellPowershell.extract_powershell_command command with
          | Some (_, script) => [CANONICAL_POWERSHELL_SCRIPT_PREFIX; script]
          | None => command
          end
      end
  end.

(** ** shell.rs, unified_exec.rs *)

(** The fields of a request that approvals depend on; [req_tty] is of the second tool. *)
Record CommandRequest := {
  req_command : list str;
  req_hook_command : str;
  req_cwd : str;
  req_tty : bool;
  req_network : bool;
  req_permission_level : ExecutionPermissionLevel;
  req_additional_permissions : option AdditionalPermissionProfile;
  req_justification : option str;
  req_requirement : ExecApprovalRequirement;
}.

Inductive CommandTool := ShellTool | UnifiedExecTool.

(** [ApprovalKey], and [UnifiedExecApprovalKey] with its field [tty]. *)
Record CommandKey := {
  key_command : list str;
  key_cwd : str;
  key_tty : option bool;
  key_permission_level : ExecutionPermissionLevel;
  key_additional_permissions : option AdditionalPermissionProfile;
}.

Definition command_key (tool : CommandTool) (req : CommandRequest) : CommandKey :=
  {| key_command := canonicalize_command_for_approval (req_command req);
     key_cwd := req_cwd req;
     key_tty := match tool with ShellTool => None | UnifiedExecTool => Some (req_tty req) end;
     key_permission_level := req_permission_level req;
     key_additional_permissions := req_additional_permissions req |}.

Context (key_json : CommandKey -> option str) (path_json : str -> option str).

Definition option_or_else {A} (o p : option A) : option A :=
  match o with Some _ => o | None => p end.

Definition guardian_command_request (tool : CommandTool) (req : CommandRequest) (id : str)
    : GuardianApprovalRequest :=
  match tool with
  | ShellTool =>
      GuardianShell id (req_command req) (req_cwd req) (req_permission_level req)
        (req_additional_permissions req) (req_justification req)
  | UnifiedExecTool =>
      GuardianExecCommand id (req_command req) (req_cwd req) (req_permission_level req)
        (req_additional_permissions req) (req_justification req) (req_tty req)
  end.

Definition command_approval `{ToolTypes} (tool : CommandTool) (req : CommandRequest) (ctx : ToolCtx)
    (approval : ApprovalCtx) : Prog ReviewDecision :=
  match guardian_review_id approval with
  | Some review_id =>
      review_approval_request (turn ctx) review_id
        (guardian_command_request tool req (call_id ctx)) (retry_reason approval)
  | None =>
      with_cached_approval key_json [command_key tool req]
        (ask (CommandApproval (call_id ctx) (req_command req) (req_cwd req)
                (option_or_else (retry_reason approval) (req_justification req))
                (network_approval_context approval)
                (proposed_execpolicy_amendment (req_requirement req))
                (req_additional_permissions req)))
  end.

Definition command_network_spec (tool : CommandTool) (req : CommandRequest) (ctx : ToolCtx)
    : option NetworkApprovalSpec :=
  network ← managed_network_for_permission_level
              (if req_network req then Some tt else None) (req_permission_level req);
  Some {| spec_network := true;
          spec_mode := match tool with ShellTool => Immediate | UnifiedExecTool => Deferred end;
          spec_trigger :=
            {| trigger_call_id := call_id ctx; trigger_tool_name := tool_name ctx;
               trigger_command := req_command req; trigger_cwd := req_cwd req;
               trigger_permission_level := req_permission_level req;
               trigger_additional_permissions := req_additional_permissions req;
               trigger_justification := req_justification req;
               trigger_tty := match tool with
                              | ShellTool => None
                              | UnifiedExecTool => Some (req_tty req)
                              end |};
          spec_command := req_hook_command req |}.

Definition command_runtime `{ToolTypes} (tool : CommandTool) : ToolRuntime CommandRequest :=
  {| should_bypass_approval := default_should_bypass_approval;
     exec_approval_requirement := fun req => Some (req_requirement req);
     permission_request_payload := fun req =>
       Some (bash_payload (req_hook_command req) (req_justification req));
     wants_no_access_approval := default_wants_no_access_approval;
     start_approval_async := command_approval tool;
     escalate_on_failure := default_escalate_on_failure;
     network_approval_spec := command_network_spec tool |}.

(** ** apply_patch.rs *)

Record PatchRequest := {
  patch_text : str;
  patch_cwd : str;
  patch_file_paths : list str;
  patch_changes : gmap (list N) FileChange;
  patch_requirement : ExecApprovalRequirement;
  patch_preapproved : bool;
}.

(** The user's answer; none when the channel is closed ([unwrap_or_default]). *)
Definition ask_about_patch `{ToolTypes} (req : PatchRequest) (ctx : ToolCtx) (reason : option str)
    : Prog ReviewDecision :=
  answer ← ask (PatchApproval (call_id ctx) (patch_changes req) reason);
  Ret (default AccessGrants.Denied answer).

Definition patch_approval `{ToolTypes} (req : PatchRequest) (ctx : ToolCtx) (approval : ApprovalCtx)
    : Prog ReviewDecision :=
  match guardian_review_id approval with
  | Some review_id =>
      review_approval_request (turn ctx) review_id
        (GuardianApplyPatch (call_id ctx) (patch_cwd req) (patch_file_paths req) (patch_text req))
        (retry_reason approval)
  | None =>
      match retry_reason approval with
      | None =>
          if patch_preapproved req then Ret AccessGrants.Approved
          else with_cached_approval path_json (patch_file_paths req) (ask_about_patch req ctx None)
      | Some reason => ask_about_patch req ctx (Some reason)
      end
  end.

Definition patch_wants_no_access_approval (policy : AskForApproval) : bool :=
  match policy with
  | Never => false
  | Granular granular_config => allows_access_approval granular_config
  | OnFailure | OnRequest | UnlessTrusted => true
  end.

Definition patch_runtime `{ToolTypes} : ToolRuntime PatchRequest :=
  {| should_bypass_approval := default_should_bypass_approval;
     exec_approval_requirement := fun req => Some (patch_requirement req);
     permission_request_payload := fun req =>
       Some {| hook_tool_name := apply_patch_hook;
               hook_tool_input := [(lit "command", patch_text req)] |};
     wants_no_access_approval := patch_wants_no_access_approval;
     start_approval_async := patch_approval;
     escalate_on_failure := default_escalate_on_failure;
     network_approval_spec := fun _ _ => None |}.

End Canonical.

End Runtimes.
