(* ===== verification/OrchestratorFacts.v ===== *)
(** * Facts about running tools

    [OrchestratorFacts]: what a call had asked, and been told, when it runs its command, for
    any tool; [RuntimeFacts]: whose answers the approvals of the three tools come from, and
    what the store of approvals holds while many calls run. *)

From Stdlib Require Import Ascii String.
From stdpp Require Import relations.
From S2P Require Import Prelude RustStr AbsPath FsPolicy FsRoots Approval ShellBash AccessGrants.
From S2P Require Import ToolSession NetApproval NetApprovalFacts Orchestrator.
Import FsPolicy FsProfile Approval ToolSession Guardian NetworkPolicyDecision NetApproval.
Import Execution Orchestrator ProgFacts.

Module OrchestratorFacts.

(** ** What lets a call through *)

Definition is_run `{ToolTypes} (q : Question) : bool := match q with RunTool _ => true | _ => false end.

Definition no_run `{ToolTypes} (h : list Event) : Prop := Forall (fun e => is_run (asked e) = false) h.

(** What the tool asks for an approval is its own matter, but it does not run anything, and it
    does not report decisions. *)
Definition polite `{ToolTypes} (q : Question) : Prop :=
  match q with RunTool _ | Tell (ToolDecision _ _ _ _) => False | _ => True end.

(** The decisions that [reject_if_not_approved] passes. *)
Definition lets_through (d : ReviewDecision) : bool :=
  match d with
  | AccessGrants.Approved | AccessGrants.ApprovedExecpolicyAmendment _
  | AccessGrants.ApprovedForSession
  | AccessGrants.NetworkPolicyAmendment _ AccessGrants.ActionAllow => true
  | _ => false
  end.

Lemma polite_no_run `{ToolTypes} (h : list Event) :
  Forall (fun e => polite (asked e)) h -> no_run h.
Proof. intros Hf. eapply Forall_impl; [exact Hf|]. intros [q x] Hq. by destruct q. Qed.

Section Calls.
Context (H : Host) `{ToolTypes}.

(** ** One call *)

Context {Req : Type} `{!ToolRuntime Req}.
Context (req : Req) (ctx : ToolCtx) (turn_ctx : TurnContext) (policy : AskForApproval).

Definition requirement : ExecApprovalRequirement :=
  default (default_exec_approval_requirement policy
             (file_system_access_policy H (permission_profile turn_ctx)))
    (exec_approval_requirement req).

(** Whether approvals go to the reviewer: always under strict review. *)
Definition reviewed (strict : bool) : bool := routes_approval_to_guardian turn_ctx || strict.

(** [given approval h]: what was asked and answered in [h] gives this approval. *)
Context (Good : Session -> Prop) (given : ApprovalCtx -> list Event -> Prop).
Context (Hasks : forall approval h, wp_in Good (fun _ q => polite q)
  (start_approval_async req ctx approval) h (fun h' d => exists h2, h' = h ++ h2 /\ no_run h2 /\
     (lets_through d = true -> given approval h2))).

(** Somewhere in [h] the call was let through: by a hook, which was asked about it, or, from
    the reviewer where approvals go to the reviewer, and else from the user, by an approval
    that was asked for with this reason; under strict review not by a hook. *)
Definition approved (strict : bool) (reason : option str) (h : list Event) : Prop :=
  exists pre part post, h = pre ++ part ++ post /\
    ((strict = false /\ exists run_id payload, permission_request_payload req = Some payload /\
        part = [Asked (RunHooks run_id payload) (Some HookAllow)]) \/
     (exists approval, (is_Some (guardian_review_id approval) <-> reviewed strict = true) /\
        retry_reason approval = reason /\ given approval part)).

Lemma approved_app_l strict reason (h h' : list Event) :
  approved strict reason h -> approved strict reason (h ++ h').
Proof.
  intros (pre & part & post & -> & Hp). exists pre, part, (post ++ h').
  by rewrite <-!app_assoc.
Qed.

Lemma approved_app_r strict reason (h h' : list Event) :
  approved strict reason h' -> approved strict reason (h ++ h').
Proof.
  intros (pre & part & post & -> & Hp). exists (h ++ pre), part, post. by rewrite <-!app_assoc.
Qed.

(** The first attempt: what somebody had to say before it. *)
Definition first_allowed (strict : bool) (h : list Event) : Prop :=
  match requirement with
  | Skip _ => strict = true -> approved true None h
  | NeedsApproval reason _ => approved strict reason h
  | ForbiddenCall _ => False
  end.

(** Whether the first attempt was approved by somebody. *)
Definition had_approval (strict : bool) : bool :=
  match requirement with Skip _ => strict | _ => true end.

(** The second: the first was refused in a way that may be tried again, and this was approved
    anew, or needs no approval: not under strict review, not about the network, and by the
    rule of the tool. *)
Definition second_allowed (strict : bool) (h : list Event) : Prop :=
  exists h1 output decision h2,
    h = h1 ++ Asked (RunTool (call_id ctx)) (inr (ExecDenied output decision)) :: h2 /\
    no_run h1 /\ no_run h2 /\ first_allowed strict h1 /\
    may_retry H turn_ctx policy decision = true /\
    (approved strict (Some (retry_reason_of (denial_context turn_ctx decision))) h2 \/
     (strict = false /\ should_bypass_approval policy (had_approval strict) = true /\
      denial_context turn_ctx decision = None)).

Definition attempt_allowed (h : list Event) : Prop :=
  exists strict h0, h = Asked StrictAutoReview strict :: h0 /\
    ((no_run h0 /\ first_allowed strict h0) \/ second_allowed strict h0).

Definition fit (h : list Event) (q : Question) : Prop :=
  match q with RunTool id => id = call_id ctx /\ attempt_allowed h | _ => True end.

Lemma polite_fit (h : list Event) (q : Question) : polite q -> fit h q.
Proof. by destruct q. Qed.

Lemma no_run_snoc (h : list Event) (e : Event) : no_run h -> is_run (asked e) = false -> no_run (h ++ [e]).
Proof. intros Hh He. apply Forall_app. split; [done|by constructor]. Qed.

Lemma wp_rejection_message (review_id : str) (h : list Event) (Q : list Event -> str -> Prop) :
  (forall m, Q h m) -> wp_in Good fit (guardian_rejection_message review_id) h Q.
Proof. intros HQ s _. apply HQ. Qed.

(** What an approval leaves behind. *)
Definition approve_post (strict : bool) (reason : option str) (h h' : list Event)
    (r : unit + ToolError) : Prop :=
  exists h2, h' = h ++ h2 /\ no_run h2 /\
    match r with
    | inl _ => approved strict reason h2
    | inr e => exists message, e = Rejected message
    end.

Lemma wp_reject (review_id : option str) (d : ReviewDecision) (h : list Event)
    (Q : list Event -> unit + ToolError -> Prop) :
  (lets_through d = true -> Q h (inl tt)) ->
  (forall reason, Q h (inr (Rejected reason))) ->
  wp_in Good fit (reject_if_not_approved review_id d) h Q.
Proof.
  intros Hl Hr. destruct d as [|a| |host [|]| | |]; [by apply Hl..|apply Hr| |apply Hr|].
  - apply wp_in_bind. destruct review_id; [by apply wp_rejection_message|apply Hr].
  - apply wp_in_bind. destruct review_id; [by apply wp_rejection_message|apply Hr].
Qed.

Lemma wp_ask_approval (strict : bool) (approval : ApprovalCtx) (h h2 : list Event) :
  no_run h2 -> (is_Some (guardian_review_id approval) <-> reviewed strict = true) ->
  wp_in Good fit (try_bind (ask_approval req ctx approval)
            (reject_if_not_approved (guardian_review_id approval))) (h ++ h2)
    (approve_post strict (retry_reason approval) h).
Proof.
  intros Hh2 Hs. apply wp_in_bind, wp_in_bind.
  eapply wp_in_mono; [apply Hasks|intros ? ?; apply polite_fit|].
  intros h' d (h3 & -> & Hh3 & Hd). split; [exact I|]. intros []. cbn [wp_in].
  set (e := Asked (Tell _) tt).
  assert (no_run (h2 ++ h3 ++ [e])) as Hno.
  { apply Forall_app. split; [done|]. by apply no_run_snoc. }
  replace (((h ++ h2) ++ h3) ++ [e]) with (h ++ (h2 ++ h3 ++ [e])) by by rewrite <-!app_assoc.
  apply wp_reject.
  - intros Hl. eexists. split; [done|]. split; [done|].
    exists h2, h3, [e]. split; [done|]. right. exists approval. auto.
  - intros reason. eexists. split; [done|]. split; [done|]. by exists reason.
Qed.

Lemma wp_approve (strict use_guardian hooks : bool) (run_id : str) (reason : option str)
    (context : option NetworkApprovalContext) (h : list Event) :
  use_guardian = reviewed strict -> (strict = true -> hooks = false) ->
  wp_in Good fit (approve req run_id ctx use_guardian reason context hooks) h
    (approve_post strict reason h).
Proof.
  intros Hg Hs. unfold approve. apply wp_in_bind.
  assert (forall review_id h2, no_run h2 -> (is_Some review_id <-> reviewed strict = true) ->
    wp_in Good fit (try_bind (request_approval req run_id
      {| guardian_review_id := review_id; retry_reason := reason; network_approval_context := context |}
      ctx hooks) (reject_if_not_approved review_id)) (h ++ h2) (approve_post strict reason h)) as Hreq.
  { intros review_id h2 Hh2 Hid. unfold request_approval.
    set (approval := {| guardian_review_id := review_id; retry_reason := reason;
                        network_approval_context := context |}).
    destruct hooks; [|by apply (wp_ask_approval strict approval h h2)].
    destruct (permission_request_payload req) as [payload|] eqn:Ep;
      [|by apply (wp_ask_approval strict approval h h2)].
    assert (strict = false) as Hns by (destruct strict; naive_solver).
    split; [exact I|]. intros [[|message]|].
    - split; [exact I|]. intros []. cbn [wp_in]. simpl. rewrite <-!app_assoc. eexists. split; [done|].
      split; [apply Forall_app; split; [done|by repeat constructor]|].
      exists h2. eexists [_], [_]. split; [done|]. left. split; [done|]. by exists run_id, payload.
    - split; [exact I|]. intros []. rewrite <-!app_assoc. eexists. split; [done|].
      split; [apply Forall_app; split; [done|by repeat constructor]|]. by eexists.
    - rewrite <-app_assoc.
      apply (wp_ask_approval strict approval h); [|done]. by apply no_run_snoc. }
  destruct use_guardian; simpl.
  - split; [exact I|]. intros id. apply Hreq; [by repeat constructor|]. by rewrite <-Hg.
  - rewrite <-(app_nil_r h) at 1. apply Hreq; [constructor|]. rewrite <-Hg.
    by split; [intros []|].
Qed.

(** An attempt: its one run, and what it gives. *)
Lemma wp_attempt (h : list Event) (Q : list Event -> (Out + ToolError) * option str -> Prop) :
  (forall h1, no_run h1 -> attempt_allowed (h ++ h1)) ->
  (forall h1 x r, no_run h1 -> (fst r = x \/ exists m, fst r = inr (Rejected m)) ->
     Q (h ++ h1 ++ [Asked (RunTool (call_id ctx)) x]) r) ->
  wp_in Good fit (run_attempt req ctx) h Q.
Proof.
  intros Ha HQ. unfold run_attempt. apply wp_in_bind.
  assert (forall h1 active, no_run h1 -> wp_in Good fit
    (run_result ← ask (RunTool (call_id ctx));
     match active with
     | None => Ret (run_result, None)
     | Some active =>
         match active_mode active with
         | Immediate =>
             finalize_result ← finish_immediate_network_approval active;
             match finalize_result with
             | Some err => Ret (inr err, None)
             | None => Ret (run_result, None)
             end
         | Deferred =>
             match run_result : Out + ToolError with
             | inr _ => finish_deferred_network_approval (into_deferred active);; Ret (run_result, None)
             | inl _ => Ret (run_result, into_deferred active)
             end
         end
     end) (h ++ h1) Q) as Hrun.
  { intros h1 active Hh1. split; [split; [done|by apply Ha]|]. intros x.
    destruct active as [[id [|]]|]; cbn [active_mode].
    - destruct id as [id|]; [|by rewrite <-app_assoc; apply HQ; [|left]].
      intros s _ s2 _ s3 _. cbn [fst snd].
      destruct (call_outcomes (network_approval s) !! id) as [[|m]|];
        rewrite <-app_assoc; (apply HQ; [done|]); [right|right|left]; eauto; done.
    - destruct x as [out|e]; [by rewrite <-app_assoc; apply HQ; [|left]|].
      destruct id as [id|]; [intros s _ s2 _|]; rewrite <-app_assoc; by apply HQ; [|left].
    - rewrite <-app_assoc. by apply HQ; [|left]. }
  unfold begin_network_approval. destruct (network_approval_spec req ctx) as [spec|].
  - destruct (_ || _); [rewrite <-(app_nil_r h) at 1; apply Hrun; constructor|].
    split; [exact I|]. intros id s _. apply Hrun. by repeat constructor.
  - rewrite <-(app_nil_r h) at 1. apply Hrun. constructor.
Qed.

Lemma no_run_app (h h' : list Event) : no_run h -> no_run h' -> no_run (h ++ h').
Proof. intros Hh Hh'. by apply Forall_app. Qed.

Lemma first_allowed_app (strict : bool) (h h' : list Event) :
  first_allowed strict h -> first_allowed strict (h ++ h').
Proof. unfold first_allowed. destruct requirement; auto using approved_app_l. Qed.

(** The first part ends in a state from which the call may be attempted, or in an error. *)
Lemma wp_approval_phase (strict : bool) (h : list Event) :
  wp_in Good fit (approval_phase req ctx strict (reviewed strict) requirement) h
    (fun h' r => exists h2, h' = h ++ h2 /\ no_run h2 /\
       match r with
       | inl already => first_allowed strict h2 /\ already = had_approval strict
       | inr e => exists reason, e = Rejected reason
       end).
Proof.
  unfold approval_phase, first_allowed, had_approval. destruct requirement as [a|reason a|reason].
  - destruct strict.
    + apply wp_in_bind. eapply wp_in_mono;
        [apply (wp_approve true); [unfold reviewed; by rewrite orb_true_r|done]|done|].
      intros h' [[]|e] (h2 & -> & Hno & Hr); exists h2; by split_and!.
    + split; [exact I|]. intros []. eexists. split; [done|]. by split; [repeat constructor|].
  - apply wp_in_bind. eapply wp_in_mono; [apply (wp_approve strict); [done|by intros ->]|done|].
    intros h' [[]|e] (h2 & -> & Hno & Hr); exists h2; by split_and!.
  - exists []. rewrite app_nil_r. split; [done|]. split; [constructor|]. by exists reason.
Qed.

(** What a call leaves behind: its result is that of its last run, or the call was refused. *)
Definition run_post (h : list Event) (r : Out * option str + ToolError) : Prop :=
  match r with
  | inl (out, _) => exists h1, h = h1 ++ [Asked (RunTool (call_id ctx)) (inl out)]
  | inr (Rejected _) => True
  | inr e => exists h1, h = h1 ++ [Asked (RunTool (call_id ctx)) (inr e)]
  end.

Lemma wp_retry (strict : bool) (decision : option NetworkPolicyDecisionPayload)
    (h1 : list Event) (output : ExecOutput) :
  no_run h1 -> first_allowed strict h1 -> may_retry H turn_ctx policy decision = true ->
  let h := Asked StrictAutoReview strict :: h1
           ++ [Asked (RunTool (call_id ctx)) (inr (ExecDenied output decision))] in
  wp_in Good fit (retry_phase req ctx strict (reviewed strict) (had_approval strict) policy
            (denial_context turn_ctx decision)) h run_post.
Proof.
  intros Hno Hfirst Hmay h. unfold retry_phase. apply wp_in_bind.
  set (needless := strict = false /\ should_bypass_approval policy (had_approval strict) = true /\
         denial_context turn_ctx decision = None).
  set (reason := Some (retry_reason_of (denial_context turn_ctx decision))).
  apply (wp_in_mono _ fit fit _ _ (fun h' r => exists h2, h' = h ++ h2 /\ no_run h2 /\
    match r with
    | inl _ => approved strict reason h2 \/ needless
    | inr e => exists message, e = Rejected message
    end)); [|done|].
  - destruct (bypass_retry_approval _ _ _ _) eqn:Eb.
    + exists []. rewrite app_nil_r. split; [done|]. split; [constructor|]. right.
      unfold bypass_retry_approval in Eb. apply andb_true_iff in Eb as [Eb Hc].
      apply andb_true_iff in Eb as [Hst Hsb]. unfold needless.
      split_and!; [by destruct strict|done|by destruct (denial_context _ _)].
    + eapply wp_in_mono; [apply (wp_approve strict); [done|by intros ->]|done|].
      intros h' [[]|e] (h2 & -> & Hno2 & Hr); exists h2; split_and!; auto.
  - intros h' [u|e] (h2 & -> & Hno2 & Hr); [|by destruct Hr as [message ->]].
    apply wp_in_bind. apply wp_attempt.
    + intros h3 Hno3. set (ran := Asked (RunTool (call_id ctx)) (inr (ExecDenied output decision))).
      exists strict, (h1 ++ ran :: h2 ++ h3).
      split; [unfold h; fold ran; simpl; by rewrite <-!app_assoc|].
      right. exists h1, output, decision, (h2 ++ h3). split; [done|]. split_and!; [done|by apply no_run_app|done..|].
      destruct Hr as [Hr|Hr]; [left; by apply approved_app_l|by right].
    + intros h3 x [r deferred] Hno3 Hx. simpl in Hx.
      destruct Hx as [->|[m ->]]; [|done]. rewrite app_assoc.
      destruct x as [out|[m|o d|e]]; [by eexists|done|by eexists..].
Qed.

Lemma wp_run : wp_in Good fit (run H req ctx turn_ctx policy) [] run_post.
Proof.
  unfold run. split; [exact I|]. intros strict. fold (reviewed strict).
  apply wp_in_bind. fold requirement. eapply wp_in_mono; [by apply wp_approval_phase|done|].
  intros h [already|e] (h2 & -> & Hno & Hr); [|by destruct Hr as [reason ->]].
  destruct Hr as [Hfirst ->]. apply wp_in_bind, wp_attempt.
  - intros h1 Hno1. exists strict, (h2 ++ h1). split; [done|]. left.
    split; [by apply no_run_app|by apply first_allowed_app].
  - intros h1 x [r deferred] Hno1 Hx. simpl in Hx. simpl.
    assert (forall e : ToolError, x = inr e -> run_post
      (Asked StrictAutoReview strict :: h2 ++ h1 ++ [Asked (RunTool (call_id ctx)) x]) (inr e)) as Hend.
    { intros e ->. destruct e; simpl; [done|..];
        exists (Asked StrictAutoReview strict :: h2 ++ h1); simpl; by rewrite <-app_assoc. }
    destruct Hx as [->|[m ->]]; [|done]. destruct x as [out|[m|output decision|err]]; [|done| |by apply Hend].
    + exists (Asked StrictAutoReview strict :: h2 ++ h1). simpl. by rewrite <-app_assoc.
    + destruct (may_retry H turn_ctx policy decision) eqn:Em; [|by apply Hend].
      rewrite app_assoc. apply wp_retry; [by apply no_run_app|by apply first_allowed_app|done].
Qed.

Lemma begins_prefix {A} (p : Prog A) (h h' : list Event) : begins p (h ++ h') -> begins p h.
Proof.
  revert h. induction p as [a|X f k IH|q k IH|o k IH]; intros [|e h] Hb;
    try apply begins_nil; revert Hb; simpl.
  - by intros [?|[]].
  - intros [?|(s & Hb)]; [done|]. right. exists s. exact (IH _ (e :: h) Hb).
  - intros [?|(x & h2 & E & Hb)]; [done|]. injection E as -> <-. right. exists x, h.
    split; [done|]. exact (IH _ h Hb).
  - intros [?|(d & Hb)]; [done|]. right. exists d. exact (IH _ (e :: h) Hb).
Qed.

Definition runs_in (h : list Event) : nat := length (List.filter (fun e => is_run (asked e)) h).

Lemma runs_in_app (h h' : list Event) : runs_in (h ++ h') = runs_in h + runs_in h'.
Proof. unfold runs_in. by rewrite List.filter_app, length_app. Qed.

Lemma no_run_none (h : list Event) : no_run h -> runs_in h = 0.
Proof. induction 1 as [|e h He _ IH]; [done|]. unfold runs_in in *. simpl. by rewrite He. Qed.

Lemma allowed_runs (h : list Event) : attempt_allowed h -> runs_in h <= 1.
Proof.
  intros (strict & h0 & -> & [[Hno _]|(h1 & output & d & h2 & -> & Hno1 & Hno2 & _)]).
  - change (runs_in h0 <= 1). rewrite no_run_none by done. lia.
  - change (runs_in (h1 ++ Asked (RunTool (call_id ctx)) (inr (ExecDenied output d)) :: h2) <= 1).
    rewrite cons_middle, !runs_in_app, (no_run_none h1), (no_run_none h2) by done.
    unfold runs_in. simpl. lia.
Qed.

End Calls.

Section Results.
Context (H : Host) `{ToolTypes} {Req : Type} `{!ToolRuntime Req}.
Context (req : Req) (ctx : ToolCtx) (turn_ctx : TurnContext) (policy : AskForApproval).
Context (Hpolite : forall approval, calm polite (start_approval_async req ctx approval)).

Lemma wp_run_any : wp (fit H req ctx turn_ctx policy (fun _ _ => True))
  (run H req ctx turn_ctx policy) [] (run_post ctx).
Proof.
  apply wp_in_wp, wp_run. intros approval h. eapply wp_in_mono; [by apply wp_in_calm|done|].
  intros h' d (h2 & -> & Hno & _). exists h2. split_and!; [done|by apply polite_no_run|done].
Qed.

(** A call runs its command at most twice, and what it returns is what its last run gave, unless
    it was refused. *)
Theorem call_result (h : list Event) (r : Out * option str + ToolError) :
  runs (run H req ctx turn_ctx policy) h r -> runs_in h <= 2 /\ run_post ctx h r.
Proof.
  intros Hr. split; [|exact (wp_runs _ _ [] _ _ _ wp_run_any Hr)].
  apply runs_begins in Hr. induction h as [|e h IH] using rev_ind; [unfold runs_in; simpl; lia|].
  rewrite runs_in_app. pose proof (begins_prefix _ _ _ Hr) as Hp. destruct e as [[] x];
    try (unfold runs_in at 2; simpl; specialize (IH Hp); lia).
  destruct (wp_begins _ _ [] _ _ _ _ wp_run_any Hr) as [_ Ha].
  apply allowed_runs in Ha. rewrite app_nil_l in Ha. unfold runs_in at 2. simpl. lia.
Qed.

End Results.

Section Forbidden.
Context (H : Host) `{ToolRuntime Req}.

(** A call that is forbidden ends with the reason, and nobody is asked: nothing is run, and no
    approval requested. *)
Theorem forbidden_call (req : Req) (ctx : ToolCtx) (turn_ctx : TurnContext) (policy : AskForApproval)
    (reason : str) (h : list Event) (r : Out * option str + ToolError) :
  requirement H req turn_ctx policy = ForbiddenCall reason ->
  runs (run H req ctx turn_ctx policy) h r ->
  r = inr (Rejected reason) /\ exists strict, h = [Asked StrictAutoReview strict].
Proof.
  intros Hf (strict & h' & -> & Hr). unfold requirement in Hf. rewrite Hf in Hr.
  destruct Hr as [-> ->]. split; [done|]. by exists strict.
Qed.

End Forbidden.

End OrchestratorFacts.

Module RuntimeFacts.
Import OrchestratorFacts NetApprovalFacts Runtimes.

Section Tasks.
Context `{ToolTypes}.

(** ** A task among others is still that task *)

Definition resumes (p0 : Prog unit) (h : list Event) (p : Prog unit) : Prop :=
  forall h2, begins p h2 -> begins p0 (h ++ h2).

Lemma resumes_ask (p0 : Prog unit) (h : list Event) (q : Question) k x :
  resumes p0 h (Ask q k) -> resumes p0 (h ++ [Asked q x]) (k x).
Proof. intros Hr h2 Hb. rewrite <-app_assoc. apply Hr. right. by exists x, h2. Qed.

(** ** The store of approvals

    [owned] gives, for each task, the program it started as and the keys it may store. *)

Definition said_for_session (h : list Event) : Prop :=
  exists e, e ∈ h /\
    match e with
    | Asked q a =>
        (match q return Answer q -> Prop with
         | CommandApproval _ _ _ _ _ _ _ => fun a => a = AccessGrants.ApprovedForSession
         | PatchApproval _ _ _ => fun a => a = Some AccessGrants.ApprovedForSession
         | _ => fun _ => False
         end) a
    end.

Lemma said_for_session_app (h h' : list Event) : said_for_session h -> said_for_session (h ++ h').
Proof. intros (e & He & Hs). exists e. split; [set_solver|done]. Qed.

(** The task stores nothing but its own keys, and only after the user approved it for the session. *)
Definition may_store (texts : list str) (h : list Event) (s s' : Session) : Prop :=
  forall text, tool_approvals s' !! text = tool_approvals s !! text \/
    (text ∈ texts /\ tool_approvals s' !! text = Some AccessGrants.ApprovedForSession /\
     said_for_session h).

Fixpoint stores {A} (texts : list str) (p : Prog A) (h : list Event)
    (Q : list Event -> A -> Prop) : Prop :=
  match p with
  | Ret a => Q h a
  | Lock f k => forall s, may_store texts h s (fst (f s)) /\ stores texts (k (snd (f s))) h Q
  | Ask q k => forall x, stores texts (k x) (h ++ [Asked q x]) Q
  | Wait _ k => forall d, stores texts (k d) h Q
  end.

Lemma stores_bind {A B} texts (p : Prog A) (f : A -> Prog B) h (Q : list Event -> B -> Prop) :
  stores texts p h (fun h a => stores texts (f a) h Q) -> stores texts (p ≫= f) h Q.
Proof.
  revert h. induction p as [a|X g k IH|q k IH|o k IH]; intros h Hp; simpl in *; [done|intros s|intros x..].
  - destruct (Hp s). split; [done|]. by apply IH.
  - by apply IH.
  - by apply IH.
Qed.

Lemma stores_mono {A} texts (p : Prog A) h (Q R : list Event -> A -> Prop) :
  stores texts p h Q -> (forall h a, Q h a -> R h a) -> stores texts p h R.
Proof.
  intros Hp HQ. revert h Hp. induction p as [a|X g k IH|q k IH|o k IH]; intros h Hp; simpl in *;
    [auto|intros s|intros x..].
  - destruct (Hp s). split; [done|]. by apply IH.
  - by apply IH.
  - by apply IH.
Qed.

(** A program that leaves the store alone. *)
Fixpoint store_free {A} (p : Prog A) : Prop :=
  match p with
  | Ret _ => True
  | Lock f k => forall s, tool_approvals (fst (f s)) = tool_approvals s /\ store_free (k (snd (f s)))
  | Ask q k => forall x, store_free (k x)
  | Wait _ k => forall d, store_free (k d)
  end.

Lemma store_free_stores {A} texts (p : Prog A) h : store_free p -> stores texts p h (fun _ _ => True).
Proof.
  revert h. induction p as [a|X g k IH|q k IH|o k IH]; intros h Hp; simpl in *;
    [done|intros s|intros x..].
  - destruct (Hp s) as [E Hk]. split; [|by apply IH]. intros text. left. by rewrite E.
  - by apply IH.
  - by apply IH.
Qed.

Lemma store_free_bind {A B} (p : Prog A) (f : A -> Prog B) :
  store_free p -> (forall a, store_free (f a)) -> store_free (p ≫= f).
Proof.
  intros Hp Hf. induction p as [a|X g k IH|q k IH|o k IH]; simpl in *; [auto|intros s|intros x..].
  - destruct (Hp s). split; [done|]. by apply IH.
  - by apply IH.
  - by apply IH.
Qed.

(** The tasks of a session, each with the keys it may store. *)
Context (task : Prog unit -> list str -> Prop)
        (Htask : forall p texts, task p texts -> stores texts p [] (fun _ _ => True)).

Definition some_task (p : Prog unit) : Prop := exists texts, task p texts.

Record Stored (w : World) (owned : gmap nat (Prog unit * list str)) : Prop := {
  stored_task t r : running w !! t = Some r ->
    exists p0 texts, owned !! t = Some (p0, texts) /\ task p0 texts /\ begins p0 (done r) /\
      match rest r with
      | Some p => resumes p0 (done r) p /\ stores texts p (done r) (fun _ _ => True)
      | None => True
      end;
  stored_key text d : tool_approvals (session w) !! text = Some d ->
    d = AccessGrants.ApprovedForSession /\
    exists t r p0 texts, running w !! t = Some r /\ owned !! t = Some (p0, texts) /\ text ∈ texts /\
      said_for_session (done r);
}.

(** A task goes on. *)
Lemma stored_move w owned t h p h' p' p0 texts s' :
  Stored w owned -> running w !! t = Some {| done := h; rest := Some p |} ->
  owned !! t = Some (p0, texts) -> task p0 texts ->
  match p' with
  | Some p' => resumes p0 (h ++ h') p' /\ stores texts p' (h ++ h') (fun _ _ => True)
  | None => begins p0 (h ++ h')
  end ->
  may_store texts h (session w) s' ->
  Stored {| session := s'; running := set_running t (h ++ h') p' w |} owned.
Proof.
  intros Hw Ht Ho Hp0 Hp' Hs. split; simpl; unfold set_running.
  - intros t' r. rewrite lookup_insert_Some. intros [[<- <-]|[Hne Hr]]; [|by apply (stored_task w owned)].
    exists p0, texts. split_and!; [done|done|..|by destruct p']. destruct p'; [|done].
    rewrite <-(app_nil_r (h ++ h')). apply Hp', begins_nil.
  - intros text d Hd. destruct (Hs text) as [E|(Hin & E & Hsaid)].
    + rewrite E in Hd. destruct (stored_key w owned Hw text d Hd) as (-> & t' & r & p1 & texts1 & Hr & Ho1 & Hin & Hsaid).
      split; [done|]. destruct (decide (t' = t)) as [->|Hne].
      * exists t, {| done := h ++ h'; rest := p' |}, p1, texts1. rewrite lookup_insert_eq.
        split_and!; [done..|]. rewrite Ht in Hr. injection Hr as <-. by apply said_for_session_app.
      * exists t', r, p1, texts1. by rewrite lookup_insert_ne.
    + rewrite E in Hd. injection Hd as <-. split; [done|].
      exists t, {| done := h ++ h'; rest := p' |}, p0, texts. rewrite lookup_insert_eq.
      split_and!; [done..|]. by apply said_for_session_app.
Qed.

Lemma may_store_same texts h (s : Session) : may_store texts h s s.
Proof. intros text. by left. Qed.

Lemma stored_step cancellation w w' owned :
  Stored w owned -> step some_task cancellation w w' ->
  exists owned', Stored w' owned' /\
    forall t r, running w !! t = Some r -> owned' !! t = owned !! t.
Proof.
  intros Hw Hs. destruct Hs as [t p [texts Hp] Ht|t h X f k Ht|t h q k x Ht|t h o k d Ht Hd|t h p Hcan Ht].
  - exists (<[t := (p, texts)]> owned).
    split; [split|intros t' r Hr; rewrite lookup_insert_ne; congruence]; simpl; unfold set_running.
    + intros t' r. rewrite lookup_insert_Some. intros [[<- <-]|[Hne Hr]].
      * exists p, texts. rewrite lookup_insert_eq. split_and!; [done|done|apply begins_nil|]. by split; [intros h2|apply Htask].
      * rewrite lookup_insert_ne by done. by apply (stored_task w owned).
    + intros text d Hd. destruct (stored_key w owned Hw text d Hd) as (-> & t' & r & p1 & texts1 & Hr & Ho & Hx).
      split; [done|]. exists t', r, p1, texts1. rewrite !lookup_insert_ne by congruence. done.
  - exists owned. split; [|done]. destruct (stored_task w owned Hw t _ Ht) as (p0 & texts & Ho & Hp0 & Hb & Hr & Hst).
    destruct (Hst (session w)) as [Hms Hk]. rewrite <-(app_nil_r h).
    eapply stored_move; [done..| |done]. rewrite app_nil_r. split; [|done].
    intros h2 Hb2. apply Hr. right. by exists (session w).
  - exists owned. split; [|done]. destruct (stored_task w owned Hw t _ Ht) as (p0 & texts & Ho & Hp0 & Hb & Hr & Hst).
    eapply stored_move; [done..| |apply may_store_same]. split; [by apply resumes_ask|apply Hst].
  - exists owned. split; [|done]. destruct (stored_task w owned Hw t _ Ht) as (p0 & texts & Ho & Hp0 & Hb & Hr & Hst).
    rewrite <-(app_nil_r h). eapply stored_move; [done..| |apply may_store_same].
    rewrite app_nil_r. split; [|apply Hst]. intros h2 Hb2. apply Hr. right. by exists d.
  - exists owned. split; [|done]. destruct (stored_task w owned Hw t _ Ht) as (p0 & texts & Ho & Hp0 & Hb & Hr & Hst).
    rewrite <-(app_nil_r h). eapply stored_move; [done..| |apply may_store_same].
    by rewrite app_nil_r.
Qed.

Lemma interleaved_stored cancellation w :
  interleaved some_task cancellation w -> exists owned, Stored w owned.
Proof.
  induction 1 as [|w w' _ [owned Hw] Hs];
    [|by destruct (stored_step _ _ _ _ Hw Hs) as (owned' & Hw' & _); exists owned'].
  exists ∅. split; simpl; intros *; by rewrite lookup_empty.
Qed.

(** ** One task of them

    Where a task is, given that the store never held more than what was approved. *)

(** Some task that has a key with this text was told by the user: for the session. *)
Definition told_in (w : World) (owned : gmap nat (Prog unit * list str)) (text : str) : Prop :=
  exists t r p0 texts, running w !! t = Some r /\ owned !! t = Some (p0, texts) /\ text ∈ texts /\
    said_for_session (done r).

Definition approvals_told (told : str -> Prop) (s : Session) : Prop :=
  forall text d, tool_approvals s !! text = Some d -> told text.

Lemma told_step cancellation w w' owned owned' text :
  step some_task cancellation w w' ->
  (forall t r, running w !! t = Some r -> owned' !! t = owned !! t) ->
  told_in w owned text -> told_in w' owned' text.
Proof.
  intros Hs Ho (t & r & p0 & texts & Hr & Hp & Hin & Hsaid).
  destruct (step_keeps _ _ _ _ _ _ Hs Hr) as (r' & Hr' & [h Hh]).
  exists t, r', p0, texts. split_and!; [done|by rewrite (Ho _ _ Hr)|done|].
  rewrite Hh. by apply said_for_session_app.
Qed.

Definition follows (p0 : Prog unit) (t : nat) (w : World) (owned : gmap nat (Prog unit * list str))
    : Prop :=
  exists r p, running w !! t = Some r /\
    reaches (approvals_told (told_in w owned)) p0 (done r) p /\ (rest r = Some p \/ rest r = None).

Lemma told_follows_step cancellation p0 t w w' owned :
  Stored w owned -> follows p0 t w owned -> step some_task cancellation w w' ->
  exists owned', Stored w' owned' /\ follows p0 t w' owned'.
Proof.
  intros Hw (r & p & Hr & Hp & Hrest) Hs.
  destruct (stored_step _ _ _ _ Hw Hs) as (owned' & Hw' & Ho). exists owned'. split; [done|].
  pose proof (fun text => told_step _ _ _ _ _ text Hs Ho) as Hmono.
  assert (approvals_told (told_in w' owned') (session w)) as Hg.
  { intros text d Hd. destruct (stored_key _ _ Hw text d Hd) as (_ & Ht). by apply Hmono. }
  apply (reaches_weaken _ (approvals_told (told_in w' owned'))) in Hp;
    [|intros s Hst text d Hd; by eapply Hmono, Hst].
  clear Hmono Ho Hw Hw'. unfold follows.
  revert Hp Hg. generalize (approvals_told (told_in w' owned')). intros Good Hp Hg.
  destruct Hs as [t' p1 _ Hn|t' h X f k Hl|t' h q k x Hl|t' h o k d Hl Hd|t' h p1 _ Hl];
    cbn [running]; unfold set_running; (destruct (decide (t' = t)) as [->|Hne];
      [|rewrite lookup_insert_ne by done; by exists r, p]); rewrite Hr in *; simplify_eq;
    rewrite lookup_insert_eq; destruct Hrest as [[= <-]|?]; try done; eexists _, _; (split; [done|]).
  - split; [by apply reaches_lock|by left].
  - split; [by apply reaches_ask|by left].
  - split; [by eapply reaches_wait|by left].
  - split; [exact Hp|by right].
Qed.

Lemma told_follows_all cancellation p0 t w0 w :
  interleaved some_task cancellation w0 ->
  running w0 !! t = Some {| done := []; rest := Some p0 |} ->
  rtc (step some_task cancellation) w0 w ->
  exists owned, Stored w owned /\ follows p0 t w owned.
Proof.
  intros [owned Hw]%interleaved_stored Ht Hsteps.
  assert (follows p0 t w0 owned) as Hf.
  { exists {| done := []; rest := Some p0 |}, p0. split; [done|]. split; [apply reaches_start|by left]. }
  revert owned Hw Hf. clear Ht. induction Hsteps as [|w1 w2 w3 Hs _ IH]; intros owned Hw Hf; [by exists owned|].
  destruct (told_follows_step _ _ _ _ _ _ Hw Hf Hs) as (owned' & Hw' & Hf'). by eapply IH.
Qed.

End Tasks.

(** ** The tools *)

Section Tools.
Context (H : Host) `{ToolTypes} (try_parse_shell : str -> option ShellBash.Tree).
Context (key_json : CommandKey -> option str) (path_json : str -> option str).

Definition stores_any {A} (texts : list str) (p : Prog A) : Prop :=
  forall h, stores texts p h (fun _ _ => True).

Lemma stores_any_bind {A B} texts (p : Prog A) (f : A -> Prog B) :
  stores_any texts p -> (forall a, stores_any texts (f a)) -> stores_any texts (p ≫= f).
Proof. intros Hp Hf h. apply stores_bind. eapply stores_mono; [apply Hp|]. intros h' a _. apply Hf. Qed.

Lemma stores_any_try {A B} texts (p : Prog (A + ToolError)) (f : A -> Prog (B + ToolError)) :
  stores_any texts p -> (forall a, stores_any texts (f a)) -> stores_any texts (try_bind p f).
Proof. intros Hp Hf. apply stores_any_bind; [done|]. intros [a|e]; [apply Hf|done]. Qed.

Lemma stores_any_free {A} texts (p : Prog A) : store_free p -> stores_any texts p.
Proof. intros Hp h. by apply store_free_stores. Qed.

Lemma store_free_rejection_message (review_id : str) : store_free (guardian_rejection_message review_id).
Proof. by intros s. Qed.

Lemma store_free_verdict (review_id turn_id : str) (a : GuardianAssessment) (count : bool) :
  store_free (review_verdict review_id turn_id a count).
Proof.
  intros [] s. split; [done|]. intros []. apply store_free_bind; [|done].
  destruct count; [|by intros s2]. apply store_free_bind.
  { intros s2. by destruct (record_denial turn_id (circuit_breaker s2)). }
  intros [|c t]; [done|]. intros [|]; done.
Qed.

Lemma store_free_review (turn : TurnContext) (review_id : str) (request : GuardianApprovalRequest)
    (reason : option str) (cancellable : bool) :
  store_free (run_guardian_review turn review_id request reason cancellable).
Proof.
  intros []. apply store_free_bind; [by destruct cancellable|]. intros [|].
  - intros [] s. by split.
  - intros [a|[m|m|m| |]]; cbn [conclude_review]; try apply store_free_verdict.
    + intros [] [] s. by split.
    + intros [] s. by split.
Qed.

Lemma put_all_lookup {K} (to_json : K -> option str) (keys : list K) (m : gmap str ReviewDecision)
    (text : str) :
  put_all to_json m keys !! text = m !! text \/
  (text ∈ omap to_json keys /\ put_all to_json m keys !! text = Some AccessGrants.ApprovedForSession).
Proof.
  revert m. induction keys as [|key keys IH]; intros m; [by left|]. cbn [put_all fold_left].
  fold (put_all to_json (store_put to_json m key AccessGrants.ApprovedForSession) keys).
  unfold store_put. simpl. destruct (to_json key) as [t|]; [|apply IH].
  destruct (IH (<[t := AccessGrants.ApprovedForSession]> m)) as [E|[Hin E]]; rewrite E.
  - destruct (decide (t = text)) as [->|Hne].
    + right. rewrite lookup_insert_eq. split; [by left|done].
    + left. by rewrite lookup_insert_ne.
  - right. split; [by right|done].
Qed.

Lemma stores_cached {K} (to_json : K -> option str) (keys : list K) (fetch : Prog ReviewDecision) h :
  stores (omap to_json keys) fetch h
    (fun h' d => d = AccessGrants.ApprovedForSession -> said_for_session h') ->
  stores (omap to_json keys) (with_cached_approval to_json keys fetch) h (fun _ _ => True).
Proof.
  intros Hf. unfold with_cached_approval. destruct keys as [|key keys].
  { by eapply stores_mono. }
  apply stores_bind. intros s. split; [apply may_store_same|]. cbn [snd].
  destruct (all_approved _ _ _); [done|]. apply stores_bind. eapply stores_mono; [exact Hf|].
  intros h' d Hd. destruct d; try done. intros s2. split; [|done]. intros text.
  destruct (put_all_lookup to_json (key :: keys) (tool_approvals s2) text) as [E|[Hin E]];
    [by left|right]. split; [done|]. split; [done|]. by apply Hd.
Qed.

Definition command_texts (tool : CommandTool) (req : CommandRequest) : list str :=
  omap key_json [command_key try_parse_shell tool req].

Definition patch_texts (req : PatchRequest) : list str := omap path_json (patch_file_paths req).

Lemma stores_command tool req ctx approval :
  stores_any (command_texts tool req) (command_approval try_parse_shell key_json tool req ctx approval).
Proof.
  unfold command_approval. destruct (guardian_review_id approval); intros h.
  - apply store_free_stores, store_free_review.
  - apply stores_cached. intros d ->. eexists. split; [by apply elem_of_app; right; left|done].
Qed.

Lemma stores_patch req ctx approval :
  stores_any (patch_texts req) (patch_approval path_json req ctx approval).
Proof.
  unfold patch_approval. destruct (guardian_review_id approval); intros h.
  - apply store_free_stores, store_free_review.
  - destruct (retry_reason approval); [by intros x|]. destruct (patch_preapproved req); [done|].
    apply stores_cached. intros d Hd. eexists. split; [by apply elem_of_app; right; left|].
    destruct d as [d|]; simpl in Hd; by subst.
Qed.

(** The whole call stores what its approvals store. *)
Lemma stores_run {Req} `{!ToolRuntime Req} texts req ctx turn_ctx policy :
  (forall approval, stores_any texts (start_approval_async req ctx approval)) ->
  stores_any texts (run H req ctx turn_ctx policy).
Proof.
  intros Hstart.
  assert (forall id, stores_any texts (unregister_call id)) as Hun.
  { intros id. apply stores_any_free. intros s. split; [done|]. by intros s2. }
  assert (stores_any texts (run_attempt req ctx)) as Hattempt.
  { apply stores_any_bind.
    { apply stores_any_free. unfold begin_network_approval.
      destruct (network_approval_spec req ctx); [|done]. destruct (_ || _); [done|]. intros id s. by split. }
    intros active. apply stores_any_bind; [by intros h x|]. intros r. destruct active as [[id [|]]|]; [| |done].
    - destruct id as [id|]; [|done]. intros h s. split; [by intros text; left|]. intros s2.
      split; [by intros text; left|]. intros s3. split; [by intros text; left|]. cbn.
      by destruct (call_outcomes (network_approval s) !! id) as [[]|].
    - destruct r; [done|]. apply stores_any_bind; [|done]. by destruct id; [apply Hun|]. }
  assert (forall run_id ug reason context hooks,
    stores_any texts (approve req run_id ctx ug reason context hooks)) as Happrove.
  { intros run_id ug reason context hooks. apply stores_any_bind; [by destruct ug; intros h|].
    intros id. apply stores_any_try.
    - assert (stores_any texts (ask_approval req ctx {| guardian_review_id := id; retry_reason := reason;
        network_approval_context := context |})) as Hask.
      { apply stores_any_bind; [apply Hstart|]. by intros d h x. }
      unfold request_approval. destruct (if hooks then _ else _); [|done].
      apply stores_any_bind; [by intros h x|]. by intros [[|m]|]; [intros h x..|].
    - intros [|a| |host [|]| | |]; try done; (apply stores_any_bind; [|done]);
        (destruct id; [apply stores_any_free, store_free_rejection_message|done]). }
  apply stores_any_bind; [by intros h x|]. intros strict. apply stores_any_try.
  { unfold approval_phase. destruct (default _ _); [|apply stores_any_try; [apply Happrove|done]|done].
    destruct strict; [apply stores_any_try; [apply Happrove|done]|by intros h x]. }
  intros already. apply stores_any_bind; [done|]. intros [[out|[m|o d|e]] deferred]; try done.
  destruct (may_retry _ _ _ _); [|done]. apply stores_any_try; [by destruct (bypass_retry_approval _ _ _ _)|].
  intros []. apply stores_any_bind; [done|]. by intros [].
Qed.

Definition command_call (tool : CommandTool) (req : CommandRequest) (ctx : ToolCtx)
    (turn_ctx : TurnContext) (policy : AskForApproval) : Prog unit :=
  @run H _ _ (command_runtime try_parse_shell key_json tool) req ctx turn_ctx policy;; Ret tt.

Definition patch_call (req : PatchRequest) (ctx : ToolCtx) (turn_ctx : TurnContext)
    (policy : AskForApproval) : Prog unit :=
  @run H _ _ (patch_runtime path_json) req ctx turn_ctx policy;; Ret tt.

(** The tasks of a session: calls of the three tools, each with the texts of its keys, and tasks
    that do not touch the store. *)
Inductive session_call : Prog unit -> list str -> Prop :=
| call_command tool req ctx turn_ctx policy :
    session_call (command_call tool req ctx turn_ctx policy) (command_texts tool req)
| call_patch req ctx turn_ctx policy :
    session_call (patch_call req ctx turn_ctx policy) (patch_texts req)
| call_other p : store_free p -> session_call p [].

Lemma session_call_stores p texts : session_call p texts -> stores texts p [] (fun _ _ => True).
Proof.
  intros Hp. destruct Hp as [tool req ctx turn_ctx policy|req ctx turn_ctx policy|p Hp].
  - revert ctx turn_ctx policy. intros ctx turn_ctx policy.
    apply (stores_any_bind (command_texts tool req)); [|done].
    apply (@stores_run _ (command_runtime try_parse_shell key_json tool)). intros approval.
    apply stores_command.
  - apply (stores_any_bind (patch_texts req)); [|done].
    apply (@stores_run _ (patch_runtime path_json)). intros approval. apply stores_patch.
  - by apply store_free_stores.
Qed.

(** C11: However calls interleave, the store holds only approvals for the session that the user gave:
    each text in it is that of a key of some call, and while that call ran the user was asked
    by it and approved for the session. *)
Theorem stored_approvals_given (cancellation : bool) (w : World) (text : str) (d : ReviewDecision) :
  interleaved (some_task session_call) cancellation w ->
  tool_approvals (session w) !! text = Some d ->
  d = AccessGrants.ApprovedForSession /\
  exists t r p texts, running w !! t = Some r /\ session_call p texts /\ begins p (done r) /\
    text ∈ texts /\ said_for_session (done r).
Proof.
  intros [owned Hw]%(interleaved_stored _ session_call_stores) Hd.
  destruct (stored_key _ _ _ Hw text d Hd) as (-> & t & r & p & texts & Hr & Ho & Hin & Hs).
  split; [done|]. destruct (stored_task _ _ _ Hw t r Hr) as (p' & texts' & Ho' & Hp & Hb & _).
  rewrite Ho in Ho'. injection Ho' as <- <-. by exists t, r, p, texts.
Qed.

(** ** Where the decisions of the tools come from *)

Lemma reviewing_polite request reason q : reviewing request reason q -> polite q.
Proof. intros [Hq| ->]; [by destruct q as [| | | | | | | | | | |[]]|done]. Qed.

Lemma calm_cached {K} ok (to_json : K -> option str) (keys : list K) (fetch : Prog ReviewDecision) :
  calm ok fetch -> calm ok (with_cached_approval to_json keys fetch).
Proof.
  intros Hf. unfold with_cached_approval. destruct keys; [done|].
  apply calm_bind; [apply calm_reading|]. intros [|]; [done|]. apply calm_bind; [done|].
  intros d. by destruct d.
Qed.

Lemma command_polite tool req ctx approval :
  calm polite (command_approval try_parse_shell key_json tool req ctx approval).
Proof.
  unfold command_approval. destruct (guardian_review_id approval).
  - eapply calm_mono; [apply calm_review|]. intros q. apply reviewing_polite.
  - by apply calm_cached.
Qed.

Lemma patch_polite req ctx approval : calm polite (patch_approval path_json req ctx approval).
Proof.
  unfold patch_approval. destruct (guardian_review_id approval).
  - eapply calm_mono; [apply calm_review|]. intros q. apply reviewing_polite.
  - destruct (retry_reason approval); [done|]. destruct (patch_preapproved req); [done|].
    by apply calm_cached.
Qed.

(** The reviewer completed a review of this request, and allowed it. *)
Definition reviewer_allowed (request : GuardianApprovalRequest) (reason : option str)
    (h : list Event) : Prop :=
  exists a, Asked (ReviewSession request reason) (Completed a) ∈ h /\
    ToolSession.outcome a = OutcomeAllow.

Lemma review_source turn id request reason h d :
  runs (review_approval_request turn id request reason) h d -> lets_through d = true ->
  reviewer_allowed request reason h.
Proof.
  intros Hr Hl. apply GuardianFacts.review_outcome in Hr as [(o & Ho & ->)|(_ & _ & ->)]; [|done].
  destruct o as [a|[]]; simpl in *; try done. exists a. split; [done|].
  by destruct (ToolSession.outcome a).
Qed.

Lemma cached_source {K} (to_json : K -> option str) (keys : list K) (fetch : Prog ReviewDecision) h d :
  runs (with_cached_approval to_json keys fetch) h d ->
  runs fetch h d \/
  (d = AccessGrants.ApprovedForSession /\ h = [] /\ keys <> [] /\
   exists s, all_approved to_json (tool_approvals s) keys = true).
Proof.
  unfold with_cached_approval. destruct keys as [|key keys]; [by left|].
  intros (h1 & already & h2 & (s & -> & ->) & Hr & ->)%runs_bind. cbn [fst snd] in Hr.
  destruct (all_approved to_json (tool_approvals s) (key :: keys)) eqn:E.
  - destruct Hr as [-> ->]. right. by split_and!; [..|exists s].
  - left. apply runs_bind in Hr as (h3 & d' & h4 & Hf & Hr & ->).
    destruct d'; try (destruct Hr as [-> ->]; by rewrite app_nil_r).
    destruct Hr as (s2 & -> & ->). by rewrite app_nil_r.
Qed.

(** When the approval of a command lets it through, either the reviewer allowed exactly this
    command with its folder and permissions, or the user gave this decision about it, or
    the store held an approval for the session under its key. *)
Theorem command_decision_source (tool : CommandTool) (req : CommandRequest) (ctx : ToolCtx)
    (approval : ApprovalCtx) (h : list Event) (d : ReviewDecision) :
  runs (command_approval try_parse_shell key_json tool req ctx approval) h d ->
  lets_through d = true ->
  match guardian_review_id approval with
  | Some _ =>
      reviewer_allowed (guardian_command_request tool req (call_id ctx)) (retry_reason approval) h
  | None =>
      h = [Asked (CommandApproval (call_id ctx) (req_command req) (req_cwd req)
                    (option_or_else (retry_reason approval) (req_justification req))
                    (network_approval_context approval)
                    (proposed_execpolicy_amendment (req_requirement req))
                    (req_additional_permissions req)) d] \/
      (d = AccessGrants.ApprovedForSession /\ h = [] /\
       exists s, is_approved_for_session
         (store_get key_json (tool_approvals s) (command_key try_parse_shell tool req)) = true)
  end.
Proof.
  unfold command_approval. destruct (guardian_review_id approval) as [id|]; intros Hr Hl.
  - by eapply review_source.
  - apply cached_source in Hr as [(x & h' & -> & -> & ->)|(-> & -> & _ & s & Hs)]; [by left|right].
    split; [done|]. split; [done|]. exists s. simpl in Hs. by rewrite andb_true_r in Hs.
Qed.

(** The same for a patch: one that was approved beforehand needs no answer the first time. *)
Theorem patch_decision_source (req : PatchRequest) (ctx : ToolCtx) (approval : ApprovalCtx)
    (h : list Event) (d : ReviewDecision) :
  runs (patch_approval path_json req ctx approval) h d -> lets_through d = true ->
  match guardian_review_id approval with
  | Some _ =>
      reviewer_allowed (GuardianApplyPatch (call_id ctx) (patch_cwd req) (patch_file_paths req)
                          (patch_text req)) (retry_reason approval) h
  | None =>
      h = [Asked (PatchApproval (call_id ctx) (patch_changes req) (retry_reason approval)) (Some d)] \/
      (retry_reason approval = None /\ h = [] /\
       (patch_preapproved req = true \/
        patch_file_paths req <> [] /\
        exists s, all_approved path_json (tool_approvals s) (patch_file_paths req) = true))
  end.
Proof.
  assert (forall reason h d, runs (ask_about_patch req ctx reason) h d -> lets_through d = true ->
    h = [Asked (PatchApproval (call_id ctx) (patch_changes req) reason) (Some d)]) as Hask.
  { intros reason h' d' (x & h2 & -> & -> & ->) Hl. by destruct x. }
  unfold patch_approval. destruct (guardian_review_id approval) as [id|]; intros Hr Hl.
  - by eapply review_source.
  - destruct (retry_reason approval); [left; by eapply Hask|].
    destruct (patch_preapproved req); [destruct Hr as [-> ->]; right; by auto|].
    apply cached_source in Hr as [Hr|(-> & -> & Hne & Hs)]; [left; by eapply Hask|right; auto].
Qed.

(** ** What lets the three tools run

    [said text]: the user approved, for the session, a call that has a key with this text. *)

Section Given.
Context (said : str -> Prop).
Local Abbreviation Good := (approvals_told said).

(** An approval of a command: the reviewer allowed this very command; or the user answered
    the question about it, or approved a call with the same key for the session. *)
Definition command_given (tool : CommandTool) (req : CommandRequest) (ctx : ToolCtx)
    (approval : ApprovalCtx) (h : list Event) : Prop :=
  match guardian_review_id approval with
  | Some _ =>
      reviewer_allowed (guardian_command_request tool req (call_id ctx)) (retry_reason approval) h
  | None =>
      (exists d, lets_through d = true /\
         h = [Asked (CommandApproval (call_id ctx) (req_command req) (req_cwd req)
                       (option_or_else (retry_reason approval) (req_justification req))
                       (network_approval_context approval)
                       (proposed_execpolicy_amendment (req_requirement req))
                       (req_additional_permissions req)) d]) \/
      (exists text, key_json (command_key try_parse_shell tool req) = Some text /\ said text)
  end.

(** The same of a patch, all of whose files the user approved for the session; and one that
    is within the grants of its turn is approved from the start, but not again. *)
Definition patch_given (req : PatchRequest) (ctx : ToolCtx) (approval : ApprovalCtx)
    (h : list Event) : Prop :=
  match guardian_review_id approval with
  | Some _ =>
      reviewer_allowed (GuardianApplyPatch (call_id ctx) (patch_cwd req) (patch_file_paths req)
                          (patch_text req)) (retry_reason approval) h
  | None =>
      (exists d, lets_through d = true /\
         h = [Asked (PatchApproval (call_id ctx) (patch_changes req) (retry_reason approval)) (Some d)]) \/
      (retry_reason approval = None /\
       (patch_preapproved req = true \/
        patch_file_paths req <> [] /\
        Forall (fun p => exists text, path_json p = Some text /\ said text) (patch_file_paths req)))
  end.

Lemma all_approved_said {K} (to_json : K -> option str) (keys : list K) (s : Session) :
  Good s -> all_approved to_json (tool_approvals s) keys = true ->
  Forall (fun key => exists text, to_json key = Some text /\ said text) keys.
Proof.
  intros Hg Ha. unfold all_approved in Ha.
  rewrite Forall_forall. intros key Hin. rewrite forallb_forall in Ha.
  specialize (Ha key (proj1 (list_elem_of_In _ _) Hin)). unfold store_get in Ha.
  destruct (to_json key) as [text|]; [|done]. simpl in Ha. exists text. split; [done|].
  destruct (tool_approvals s !! text) as [d|] eqn:E; [|done]. by eapply Hg.
Qed.

Lemma wp_cached {K} fit (to_json : K -> option str) (keys : list K) (fetch : Prog ReviewDecision)
    (h : list Event) (Q : list Event -> ReviewDecision -> Prop) :
  wp_in Good fit fetch h Q ->
  (keys <> [] -> Forall (fun key => exists text, to_json key = Some text /\ said text) keys ->
   Q h AccessGrants.ApprovedForSession) ->
  wp_in Good fit (with_cached_approval to_json keys fetch) h Q.
Proof.
  intros Hf Hs. unfold with_cached_approval. destruct keys as [|key keys]; [done|].
  apply wp_in_bind. intros s Hg. cbn [fst snd].
  destruct (all_approved to_json (tool_approvals s) (key :: keys)) eqn:E.
  - apply Hs; [done|]. by eapply all_approved_said.
  - apply wp_in_bind. eapply wp_in_mono; [exact Hf|done|]. intros h' d Hd. destruct d; try done.
    by intros s2 _.
Qed.

(** What the hypothesis of [wp_run] asks for, of a tool. *)
Definition asks_for (given : list Event -> Prop) (p : Prog ReviewDecision) : Prop :=
  forall h, wp_in Good (fun _ q => polite q) p h (fun h' d =>
    exists h2, h' = h ++ h2 /\ no_run h2 /\ (lets_through d = true -> given h2)).

Lemma review_asks turn id request reason :
  asks_for (reviewer_allowed request reason) (review_approval_request turn id request reason).
Proof.
  intros h. eapply wp_in_mono; [apply (wp_in_calm _ polite)|done|].
  - eapply calm_mono; [apply calm_review|]. intros q. apply reviewing_polite.
  - intros h' d (h2 & -> & Hp & Hr). exists h2. split; [done|]. split; [by apply polite_no_run|].
    by eapply review_source.
Qed.

Lemma command_asks tool req ctx approval :
  asks_for (command_given tool req ctx approval)
    (command_approval try_parse_shell key_json tool req ctx approval).
Proof.
  unfold command_approval, command_given. destruct (guardian_review_id approval) as [id|].
  - apply review_asks.
  - intros h. apply wp_cached.
    + split; [done|]. intros d. exists [Asked (CommandApproval _ _ _ _ _ _ _) d].
      split; [done|]. split; [by repeat constructor|]. intros Hl. left. by exists d.
    + intros _ Hs. exists []. rewrite app_nil_r. split; [done|]. split; [constructor|].
      intros _. right. by apply Forall_cons in Hs as [Hs _].
Qed.

Lemma patch_asks req ctx approval :
  asks_for (patch_given req ctx approval) (patch_approval path_json req ctx approval).
Proof.
  assert (forall reason h (given : list Event -> Prop),
    (forall d, lets_through d = true ->
       given [Asked (PatchApproval (call_id ctx) (patch_changes req) reason) (Some d)]) ->
    wp_in Good (fun _ q => polite q) (ask_about_patch req ctx reason) h (fun h' d =>
      exists h2, h' = h ++ h2 /\ no_run h2 /\ (lets_through d = true -> given h2))) as Hask.
  { intros reason h given Hg. split; [done|]. intros d. exists [Asked (PatchApproval _ _ _) d].
    split; [done|]. split; [by repeat constructor|]. destruct d as [d|]; [apply Hg|done]. }
  unfold patch_approval, patch_given. destruct (guardian_review_id approval) as [id|].
  - apply review_asks.
  - intros h. destruct (retry_reason approval) as [reason|].
    + apply Hask. intros d Hd. left. by exists d.
    + destruct (patch_preapproved req).
      * exists []. rewrite app_nil_r. split; [done|]. split; [constructor|]. auto.
      * apply wp_cached; [apply Hask; intros d Hd; left; by exists d|].
        intros Hne Hs. exists []. rewrite app_nil_r. split; [done|]. split; [constructor|]. auto.
Qed.

Inductive ToolCall := CommandCall (tool : CommandTool) (req : CommandRequest) | PatchCall (req : PatchRequest).

Definition call_program (call : ToolCall) (ctx : ToolCtx) (turn_ctx : TurnContext)
    (policy : AskForApproval) : Prog unit :=
  match call with
  | CommandCall tool req => command_call tool req ctx turn_ctx policy
  | PatchCall req => patch_call req ctx turn_ctx policy
  end.

(** The call may run its command after [h]. *)
Definition call_allowed (call : ToolCall) (ctx : ToolCtx) (turn_ctx : TurnContext)
    (policy : AskForApproval) (h : list Event) : Prop :=
  match call with
  | CommandCall tool req =>
      @attempt_allowed H _ _ (command_runtime try_parse_shell key_json tool) req ctx turn_ctx policy
        (command_given tool req ctx) h
  | PatchCall req =>
      @attempt_allowed H _ _ (patch_runtime path_json) req ctx turn_ctx policy
        (patch_given req ctx) h
  end.

Lemma call_fits call ctx turn_ctx policy :
  wp_in Good (fun h q => match q with
                         | RunTool id => id = call_id ctx /\ call_allowed call ctx turn_ctx policy h
                         | _ => True
                         end) (call_program call ctx turn_ctx policy) [] (fun _ _ => True).
Proof.
  destruct call as [tool req|req]; apply wp_in_bind.
  - eapply wp_in_mono; [apply (@wp_run H _ _ (command_runtime try_parse_shell key_json tool) req ctx
      turn_ctx policy Good (command_given tool req ctx))| |done]; [|by intros h []].
    intros approval. apply command_asks.
  - eapply wp_in_mono; [apply (@wp_run H _ _ (patch_runtime path_json) req ctx
      turn_ctx policy Good (patch_given req ctx))| |done]; [|by intros h []].
    intros approval. apply patch_asks.
Qed.

End Given.

(** The user approved for the session, in [w], a call that has a key with this text. *)
Definition said_in (w : World) (text : str) : Prop :=
  exists t r p texts, running w !! t = Some r /\ session_call p texts /\ begins p (done r) /\
    text ∈ texts /\ said_for_session (done r).


(** ** Calls among the requests of the proxy *)

(** What a call asks, whatever the tool asks. *)
Definition call_question (ctx : ToolCtx) (q : Question) : Prop :=
  match q with
  | NewId | StrictAutoReview | RunTool _ | Tell (ToolDecision _ _ _ _) => True
  | RunHooks id _ => id = call_id ctx \/ id = call_id ctx ++ lit ":retry"
  | _ => False
  end.

Lemma calm_unregister ok id : calm ok (unregister_call id).
Proof. apply calm_bind; [|intros []]; by apply calm_updating; repeat split. Qed.

Lemma calm_attempt {Req} `{!ToolRuntime Req} ok req ctx :
  (forall q, call_question ctx q -> ok q) -> calm ok (run_attempt req ctx).
Proof.
  intros Hok. unfold run_attempt. apply calm_bind.
  { unfold begin_network_approval. destruct (network_approval_spec req ctx); [|done].
    destruct (_ || _); [done|]. split; [by apply Hok|]. intros id s. by repeat split. }
  intros active. apply calm_bind; [split; [by apply Hok|done]|]. intros r.
  destruct active as [[id [|]]|]; cbn [active_mode]; [| |done].
  - apply calm_bind; [|by intros []]. destruct id as [id|]; [|done].
    apply calm_bind; [intros s; by repeat split|]. intros o. apply calm_bind; [apply calm_unregister|done].
  - destruct r; [done|]. apply calm_bind; [|done]. by destruct id; [apply calm_unregister|].
Qed.

Lemma calm_approve {Req} `{!ToolRuntime Req} ok req ctx run_id ug reason context hooks :
  (forall q, call_question ctx q -> ok q) ->
  (forall approval, calm ok (start_approval_async req ctx approval)) ->
  run_id = call_id ctx \/ run_id = call_id ctx ++ lit ":retry" ->
  calm ok (approve req run_id ctx ug reason context hooks).
Proof.
  intros Hok Hstart Hid. apply calm_bind; [destruct ug; [split; [by apply Hok|done]|done]|]. intros id.
  assert (forall approval, calm ok (ask_approval req ctx approval)) as Hask.
  { intros approval. apply calm_bind; [apply Hstart|]. intros d. split; [by apply Hok|done]. }
  apply calm_bind.
  - unfold request_approval. destruct (if hooks then _ else _); [|apply Hask].
    split; [by apply Hok|]. intros [[|m]|]; [by split; [apply Hok|]..|apply Hask].
  - intros [d|e]; [|done]. destruct d as [|a| |host [|]| | |]; try done; (apply calm_bind; [|done]);
      by destruct id; [apply calm_rejection_message|].
Qed.

Lemma calm_run {Req} `{!ToolRuntime Req} ok req ctx turn_ctx policy :
  (forall q, call_question ctx q -> ok q) ->
  (forall approval, calm ok (start_approval_async req ctx approval)) ->
  calm ok (run H req ctx turn_ctx policy).
Proof.
  intros Hok Hstart. split; [by apply Hok|]. intros strict. apply calm_bind.
  { unfold approval_phase. destruct (default _ _); [| |done].
    - destruct strict; [|by split; [apply Hok|]]. apply calm_bind; [by apply calm_approve; auto|].
      by intros [].
    - apply calm_bind; [by apply calm_approve; auto|]. by intros []. }
  intros [already|e]; [|done]. apply calm_bind; [by apply calm_attempt|].
  intros [[out|[m|o d|e]] deferred]; try done. destruct (may_retry _ _ _ _); [|done].
  apply calm_bind; [destruct (bypass_retry_approval _ _ _ _); [done|by apply calm_approve; auto]|].
  intros [[]|e]; [|done]. apply calm_bind; [by apply calm_attempt|]. by intros [].
Qed.

(** The identifiers of a call are not those of an approval of a host. *)
Definition own_ids (ctx : ToolCtx) : Prop :=
  forall key, sound_key key ->
    call_id ctx <> approval_id_for_key key /\ call_id ctx ++ lit ":retry" <> approval_id_for_key key.

(** So calls may run among the requests of the proxy, to which [hosts_let_through],
    [one_question_per_host] and [tasks_can_finish] apply. *)
Theorem command_call_is_task tool req ctx turn_ctx policy :
  own_ids ctx -> session_task (command_call tool req ctx turn_ctx policy).
Proof.
  intros Hids. apply task_other. apply calm_bind; [|done].
  apply (@calm_run _ (command_runtime try_parse_shell key_json tool)).
  - intros q Hq. split.
    + intros key [Hs Ha]. destruct (Hids key Hs) as [H1 H2].
      destruct q as [| | | | |id payload| | | | | |[]]; simpl in *; try done. by destruct Hq as [->| ->].
    + by destruct q as [| | | | | | | | | | |[]].
  - intros approval. cbn [start_approval_async command_runtime]. unfold command_approval.
    destruct (guardian_review_id approval).
    + eapply calm_mono; [apply calm_review|]. intros q [Hq| ->]; [by apply review_question_harmless|].
      split; [|done]. intros key [_ Ha]. by destruct tool.
    + apply calm_cached. split; [|done]. split; [|done]. intros key [Hs Ha].
      by destruct (Hids key Hs) as [H1 _].
Qed.

End Tools.

(** ** Registrations *)

Section Registrations.
Context `{ToolTypes}.

(** The program alone, from one state to another. *)
Fixpoint alone {A} (p : Prog A) (s : Session) (h : list Event) (s' : Session) (a : A) : Prop :=
  match p with
  | Ret b => h = [] /\ a = b /\ s' = s
  | Lock f k => alone (k (snd (f s))) (fst (f s)) h s' a
  | Ask q k => exists x h', h = Asked q x :: h' /\ alone (k x) s h' s' a
  | Wait o k => exists d, pending_decisions s !! o = Some (Some d) /\ alone (k d) s h s' a
  end.

Lemma index_insert_fresh {A} (key : str) (a : A) (m : list (str * A)) :
  Forall (fun e => fst e <> key) m -> index_insert key a m = m ++ [(key, a)].
Proof.
  induction 1 as [|[k b] m Hk _ IH]; [done|]. simpl in *. rewrite IH.
  by destruct (str_eqb k key) eqn:E; [apply str_eqb_eq in E|].
Qed.

Lemma shift_remove_last {A} (key : str) (a : A) (m : list (str * A)) :
  Forall (fun e => fst e <> key) m -> shift_remove key (m ++ [(key, a)]) = m.
Proof.
  unfold shift_remove. intros Hm. rewrite List.filter_app. simpl. rewrite str_eqb_refl. simpl.
  rewrite app_nil_r. induction Hm as [|[k b] m Hk _ IH]; [done|]. simpl in *.
  destruct (str_eqb k key) eqn:E; [by apply str_eqb_eq in E|]. simpl. by rewrite IH.
Qed.

(** An attempt that runs alone takes its registration back on every path but one: a deferred
    call that succeeded hands it to its caller, as the last of the calls. *)
Theorem registration_returned {Req} `{!ToolRuntime Req} (req : Req) (ctx : ToolCtx)
    (s s' : Session) (h : list Event) (r : Out + ToolError) (left : option str) :
  alone (run_attempt req ctx) s h s' (r, left) ->
  (forall id, Asked NewId id ∈ h ->
     Forall (fun e => fst e <> id) (active_calls (network_approval s)) /\
     call_outcomes (network_approval s) !! id = None) ->
  call_outcomes (network_approval s') = call_outcomes (network_approval s) /\
  match left with
  | None => active_calls (network_approval s') = active_calls (network_approval s)
  | Some id =>
      (exists out, r = inl out) /\
      exists call, registration_id call = id /\
        active_calls (network_approval s') = active_calls (network_approval s) ++ [(id, call)]
  end.
Proof.
  intros Hr Hid. unfold run_attempt, begin_network_approval in Hr.
  destruct (network_approval_spec req ctx) as [spec|];
    [|by destruct Hr as (x & h' & -> & -> & [= -> ->] & ->)].
  destruct (_ || _); [by destruct Hr as (x & h' & -> & -> & [= -> ->] & ->)|].
  destruct Hr as (id & h' & -> & x & h2 & -> & Hr).
  destruct (Hid id ltac:(by left)) as [Hf Ho]. clear Hid. change (Answer NewId) with str in *.
  destruct (spec_mode spec); cbn [active_mode] in Hr.
  - cbn -[lookup delete] in Hr. rewrite Ho in Hr. cbn -[lookup delete] in Hr. destruct Hr as (-> & [= -> ->] & ->).
    cbn -[lookup delete shift_remove]. rewrite index_insert_fresh, shift_remove_last by done.
    split; [|done]. by rewrite (delete_id (delete id _)), delete_id by (by rewrite ?lookup_delete_eq).
  - destruct x as [out|e]; destruct Hr as (-> & [= -> ->] & ->); cbn -[lookup delete shift_remove].
    + rewrite index_insert_fresh by done. split; [done|]. split; [by eexists|].
      eexists. split; [|reflexivity]. done.
    + rewrite index_insert_fresh, shift_remove_last by done. split; [by rewrite delete_id|done].
Qed.

End Registrations.

End RuntimeFacts.

(** ** Calls, played *)
Module OrchestratorExamples.
Import ApprovalFacts NetApprovalFacts OrchestratorFacts RuntimeFacts Runtimes.

Section Play.
Context `{ToolTypes}.

(** A program alone, with answers that may depend on what was asked before. *)
Fixpoint play {A} (p : Prog A) (answers : list Event -> forall q, Answer q) (h : list Event)
    (s : Session) : list Event * Session * option A :=
  match p with
  | Ret a => (h, s, Some a)
  | Lock f k => play (k (snd (f s))) answers h (fst (f s))
  | Ask q k => play (k (answers h q)) answers (h ++ [Asked q (answers h q)]) s
  | Wait o k =>
      match pending_decisions s !! o with
      | Some (Some d) => play (k d) answers h s
      | _ => (h, s, None)
      end
  end.

Lemma play_alone {A} (p : Prog A) answers h s h' s' a :
  play p answers h s = (h', s', Some a) -> exists h2, h' = h ++ h2 /\ alone p s h2 s' a.
Proof.
  revert h s. induction p as [b|X f k IH|q k IH|o k IH]; intros h s Hp; simpl in *.
  - injection Hp as <- <- ->. exists []. by rewrite app_nil_r.
  - by apply IH in Hp.
  - apply IH in Hp as (h2 & -> & Ha). eexists. split; [by rewrite <-app_assoc|]. by eexists _, _.
  - destruct (pending_decisions s !! o) as [[d|]|] eqn:E; try done.
    apply IH in Hp as (h2 & -> & Ha). exists h2. split; [done|]. by exists d.
Qed.

Lemma alone_runs {A} (p : Prog A) s h s' a : alone p s h s' a -> runs p h a.
Proof.
  revert s h. induction p as [b|X f k IH|q k IH|o k IH]; intros s h; simpl.
  - by intros (-> & -> & _).
  - intros Ha. exists s. by eapply IH.
  - intros (x & h' & -> & Ha). exists x, h'. split; [done|]. by eapply IH.
  - intros (d & _ & Ha). exists d. by eapply IH.
Qed.

Lemma play_runs {A} (p : Prog A) answers s h s' a :
  play p answers [] s = (h, s', Some a) -> runs p h a.
Proof. intros (h2 & -> & Ha)%play_alone. by eapply alone_runs. Qed.

Lemma play_steps starts cancellation (p : Prog unit) answers w t h h' s' :
  running w !! t = Some {| done := h; rest := Some p |} ->
  play p answers h (session w) = (h', s', Some tt) ->
  exists w', rtc (step starts cancellation) w w' /\ session w' = s' /\
    running w' !! t = Some {| done := h'; rest := Some (Ret tt) |}.
Proof.
  assert (forall w w1 w' (P : Prop), step starts cancellation w w1 ->
    rtc (step starts cancellation) w1 w' /\ P -> rtc (step starts cancellation) w w' /\ P) as Hl.
  { intros w2 w1 w' P Hs [Hr HP]. split; [by eapply rtc_l|done]. }
  revert w h. induction p as [[]|X f k IH|q k IH|o k IH]; intros w h Ht Hp; simpl in Hp.
  - injection Hp as <- <-. by exists w.
  - destruct (IH (snd (f (session w))) {| session := fst (f (session w));
      running := set_running t h (Some (k (snd (f (session w))))) w |} h) as (w' & Hw');
      [apply lookup_insert_eq|exact Hp|]. exists w'. eapply Hl; [by eapply step_lock|exact Hw'].
  - destruct (IH (answers h q) {| session := session w;
      running := set_running t (h ++ [Asked q (answers h q)]) (Some (k (answers h q))) w |}
      (h ++ [Asked q (answers h q)])) as (w' & Hw');
      [apply lookup_insert_eq|exact Hp|]. exists w'. eapply Hl; [by eapply step_ask|exact Hw'].
  - destruct (pending_decisions (session w) !! o) as [[d|]|] eqn:E; try done.
    destruct (IH d {| session := session w; running := set_running t h (Some (k d)) w |} h)
      as (w' & Hw');
      [apply lookup_insert_eq|exact Hp|]. exists w'. eapply Hl; [by eapply step_wait|exact Hw'].
Qed.

Lemma play_interleaved starts cancellation (p : Prog unit) answers w t h h' s' :
  interleaved starts cancellation w -> running w !! t = Some {| done := h; rest := Some p |} ->
  play p answers h (session w) = (h', s', Some tt) ->
  exists w', interleaved starts cancellation w' /\ session w' = s' /\
    running w' !! t = Some {| done := h'; rest := Some (Ret tt) |}.
Proof.
  intros Hw Ht Hp. destruct (play_steps starts cancellation _ _ _ _ _ _ _ Ht Hp) as (w' & Hs & Hw').
  exists w'. split; [by eapply interleaved_steps|done].
Qed.

End Play.

#[local] Instance example_types : ToolTypes :=
  {| Out := unit; ExecOutput := unit; OtherErr := Empty_set |}.

(** No shell script parses; keys are serialised by their command; folders do not matter. *)
Definition no_shell (s : str) : option ShellBash.Tree := None.
Definition example_json (k : CommandKey) : option str := Some (join (lit " ") (key_command k)).
Definition path_json (p : str) : option str := Some p.

Definition example_turn : TurnContext :=
  {| sub_id := lit "1"; permission_profile := default_profile; approval_policy := OnFailure;
     approvals_reviewer := ReviewerUser; turn_cwd := lit "/"; network_managed := true |}.

Definition example_ctx : ToolCtx :=
  {| turn := example_turn; call_id := lit "call"; tool_name := lit "shell" |}.

Definition command_request (requirement : ExecApprovalRequirement) : CommandRequest :=
  {| req_command := [lit "make"]; req_hook_command := lit "make"; req_cwd := lit "/";
     req_tty := false; req_network := true; req_permission_level := UseDefault;
     req_additional_permissions := None; req_justification := None; req_requirement := requirement |}.

Definition example_call (requirement : ExecApprovalRequirement) : Prog (unit * option str + ToolError) :=
  @run no_files _ _ (command_runtime no_shell example_json ShellTool) (command_request requirement)
    example_ctx example_turn OnFailure.

(** The first run is refused by the system, the second succeeds; the user approves for the session. *)
Definition example_answers (h : list Event) (q : Question) : Answer q :=
  match q with
  | NewId => lit "id"
  | RunTool _ =>
      if bool_decide (runs_in h = 0%nat) then inr (ExecDenied tt None) else inl tt
  | CommandApproval _ _ _ _ _ _ _ => AccessGrants.ApprovedForSession
  | q => some_answer q
  end.

Definition played (requirement : ExecApprovalRequirement) :=
  play (example_call requirement) example_answers [] new_session.

(** The call of a command that needs no approval: it is refused, the user approves, it runs again. *)
Example second_run_after_approval :
  let '(h, s, r) := played (Skip None) in
  (runs_in h, r, active_calls (network_approval s), tool_approvals s !! lit "make")
  = (2%nat, Some (inl (tt, None)), [], Some AccessGrants.ApprovedForSession).
Proof. by vm_compute. Qed.

(** One that needs approval: it runs again without another question, since it was approved. *)
Example approved_call_runs_twice :
  let '(h, s, r) := played (NeedsApproval None None) in
  (runs_in h, length h, r) = (2%nat, 8%nat, Some (inl (tt, None))).
Proof. by vm_compute. Qed.

(** The user said no. *)
Definition refusing (h : list Event) (q : Question) : Answer q :=
  match q with StrictAutoReview => true | q => example_answers h q end.

Lemma forbidden_call_witness :
  exists h, runs (example_call (ForbiddenCall (lit "no"))) h (inr (Rejected (lit "no"))) /\
    exists strict, h = [Asked StrictAutoReview strict].
Proof.
  assert (runs (example_call (ForbiddenCall (lit "no"))) [Asked StrictAutoReview true]
            (inr (Rejected (lit "no")))) as Hr.
  { by eapply (play_runs _ refusing new_session). }
  eexists. split; [exact Hr|].
  exact (proj2 (@forbidden_call no_files _ _ (command_runtime no_shell example_json ShellTool)
    (command_request (ForbiddenCall (lit "no"))) example_ctx example_turn OnFailure (lit "no") _ _
    eq_refl Hr)).
Defined.

(** A session in which one such call ran to its end. *)
Definition example_task : Prog unit :=
  command_call no_files no_shell example_json ShellTool (command_request (Skip None)) example_ctx
    example_turn OnFailure.

Lemma stored_approvals_given_witness :
  exists w, interleaved (some_task (session_call no_files no_shell example_json path_json)) false w /\
    tool_approvals (session w) !! lit "make" = Some AccessGrants.ApprovedForSession /\
    exists t r p texts, running w !! t = Some r /\
      session_call no_files no_shell example_json path_json p texts /\ begins p (done r) /\
      lit "make" ∈ texts /\ said_for_session (done r).
Proof.
  set (starts := some_task (session_call no_files no_shell example_json path_json)).
  assert (interleaved starts false
    {| session := new_session; running := {[1%nat := {| done := []; rest := Some example_task |}]} |})
    as Hw.
  { eapply interleaved_step; [apply interleaved_new|]. apply step_start; [|done].
    eexists. apply call_command. }
  destruct (play example_task example_answers [] new_session) as [[h s] r] eqn:Hp.
  assert (r = Some tt) as -> by (assert (r = snd (h, s, r)) as -> by done; rewrite <-Hp; by vm_compute).
  assert (tool_approvals s !! lit "make" = Some AccessGrants.ApprovedForSession) as Hs.
  { replace s with (snd (fst (h, s, Some tt))) by done. rewrite <-Hp. by vm_compute. }
  destruct (play_interleaved _ _ _ _ _ 1%nat _ _ _ Hw eq_refl Hp) as (w' & Hw' & <- & _).
  exists w'. split; [done|]. split; [done|].
  exact (proj2 (stored_approvals_given _ _ _ _ false w' _ _ Hw' Hs)).
Defined.


Lemma command_decision_source_witness :
  exists h, runs (command_approval no_shell example_json ShellTool (command_request (Skip None))
      example_ctx {| guardian_review_id := None; retry_reason := None; network_approval_context := None |})
      h AccessGrants.ApprovedForSession /\
    (h = [Asked (CommandApproval (lit "call") [lit "make"] (lit "/") None None None None)
            AccessGrants.ApprovedForSession] \/
     (AccessGrants.ApprovedForSession = AccessGrants.ApprovedForSession /\ h = [] /\
      exists s, is_approved_for_session (store_get example_json (tool_approvals s)
        (command_key no_shell ShellTool (command_request (Skip None)))) = true)).
Proof.
  assert (exists h, runs (command_approval no_shell example_json ShellTool (command_request (Skip None))
      example_ctx {| guardian_review_id := None; retry_reason := None; network_approval_context := None |})
      h AccessGrants.ApprovedForSession) as [h Hr].
  { eexists. eapply (play_runs _ example_answers new_session). vm_compute. reflexivity. }
  exists h. split; [done|]. by apply command_decision_source in Hr.
Defined.

Lemma registration_returned_witness :
  exists h s', alone (@run_attempt _ _ (command_runtime no_shell example_json UnifiedExecTool)
      (command_request (Skip None)) example_ctx) new_session h s' (inr (ExecDenied tt None), None) /\
    call_outcomes (network_approval s') = ∅ /\ active_calls (network_approval s') = [].
Proof.
  assert (exists h s', alone (@run_attempt _ _ (command_runtime no_shell example_json UnifiedExecTool)
      (command_request (Skip None)) example_ctx) new_session h s' (inr (ExecDenied tt None), None))
    as (h & s' & Ha).
  { edestruct (play_alone (@run_attempt _ _ (command_runtime no_shell example_json UnifiedExecTool)
      (command_request (Skip None)) example_ctx) example_answers [] new_session) as (h2 & E & Ha);
      [vm_compute; reflexivity|]. by eexists h2, _. }
  exists h, s'. split; [done|]. apply registration_returned in Ha; [done|].
  intros id _. split; [constructor|apply lookup_empty].
Defined.

End OrchestratorExamples.
