(* ===== verification/AccessGrantsFacts.v ===== *)
(** * Facts about additional permissions

    What is granted lies within what was asked and what was answered; what a command runs
    with unasked lies within the answers of the user; and a policy with additional
    permissions is the union of the two. *)

From Stdlib Require Import Ascii String.
From S2P Require Import Prelude RustStr AbsPath FsPolicy FsRoots FsPolicyFacts FsGrantFacts.
From S2P Require Import Approval AccessGrants.
Import AbsPath FsPolicy FsRoots FsProfile FsPolicyFacts FsAccessFacts FsGrantFacts Approval AccessGrants.

Module AccessTransformsFacts.

(** The paths of the entries are what their types promise. *)
Definition entries_wf (es : list FileSystemAccessEntry) : Prop :=
  Forall (fun e => well_formed_path (entry_path e)) es.

Definition fs_entries (o : option FileSystemPermissions) : list FileSystemAccessEntry :=
  match o with Some p => perm_entries p | None => [] end.

Definition profile_entries (p : AdditionalPermissionProfile) : list FileSystemAccessEntry :=
  fs_entries (file_system p).

Definition profile_wf (p : AdditionalPermissionProfile) : Prop := entries_wf (profile_entries p).

Section OnHost.
Context (H : Host) `{!HostLaws H}.

(** ** Policies made of entries *)

(** What a list of entries says of a path. *)
Definition access_of (es : list FileSystemAccessEntry) (t cwd : str) : FileSystemAccessMode :=
  resolve_access_with_cwd H (restricted es) t cwd.

Abbreviation resolved es cwd := (resolved_entries_with_cwd H (restricted es) cwd).
Abbreviation around es t cwd := (covering H (restricted es) t cwd).

Lemma candidate_normal (t cwd : str) :
  normalized_absolute t -> resolve_candidate_path H t cwd = Some t.
Proof.
  intros Ht. unfold resolve_candidate_path.
  by rewrite normalized_is_absolute, absolute_of_normalized.
Qed.

Lemma resolved_spec (es : list FileSystemAccessEntry) (cwd : str) (e : ResolvedFileSystemEntry) :
  normalized_absolute cwd ->
  e ∈ resolved es cwd <->
  exists x, x ∈ es /\ resolve_entry_path H (entry_path x) (Some cwd) = Some (resolved_path e)
            /\ resolved_access e = access x.
Proof. intros Hc. by apply resolved_entry_spec, absolute_of_normalized. Qed.

Lemma around_spec (es : list FileSystemAccessEntry) (t cwd : str) (e : ResolvedFileSystemEntry) :
  e ∈ around es t cwd <->
  e ∈ resolved es cwd /\ components (resolved_path e) `prefix_of` components t.
Proof. apply covering_spec. Qed.

(** The access is that of the entry that decides. *)
Lemma access_decided (es : list FileSystemAccessEntry) (t cwd : str) :
  normalized_absolute t ->
  (around es t cwd = [] /\ access_of es t cwd = NoAccess)
  \/ exists e, decides H (restricted es) t cwd e /\ access_of es t cwd = resolved_access e.
Proof. intros Ht. by apply resolve_decided; [|apply candidate_normal]. Qed.

Lemma decided_access (es : list FileSystemAccessEntry) (t cwd : str) (e : ResolvedFileSystemEntry) :
  normalized_absolute t -> decides H (restricted es) t cwd e -> access_of es t cwd = resolved_access e.
Proof. intros Ht He. eapply decides_resolve; [done|by apply candidate_normal|done]. Qed.

(** An entry that decides about a path is at least as deep as the others around it, and
    at the same depth its access comes no later in the order of precedence. *)
Lemma decides_rank (es : list FileSystemAccessEntry) (t cwd : str) (e f : ResolvedFileSystemEntry) :
  decides H (restricted es) t cwd e -> f ∈ around es t cwd ->
  specificity f < specificity e
  \/ specificity f = specificity e
     /\ mode_rank (resolved_access f) <= mode_rank (resolved_access e).
Proof.
  intros [_ Hd] Hf. rewrite Forall_forall in Hd. specialize (Hd _ Hf).
  unfold dominates, precedence_le in Hd.
  by rewrite orb_true_iff, andb_true_iff, Nat.ltb_lt, Nat.eqb_eq, Nat.leb_le in Hd.
Qed.

(** Of two folders around a path one is around the other. *)
Lemma around_prefix (es fs : list FileSystemAccessEntry) (t cwd : str) (e f : ResolvedFileSystemEntry) :
  e ∈ around es t cwd -> f ∈ around fs t cwd -> specificity e <= specificity f ->
  components (resolved_path e) `prefix_of` components (resolved_path f).
Proof.
  rewrite !around_spec. intros [_ He] [_ Hf] Hs. unfold specificity in Hs.
  destruct (prefix_weak_total _ _ _ He Hf) as [|Hp]; [done|].
  by apply prefix_length_eq in Hp as ->.
Qed.

Lemma around_overlap (es fs : list FileSystemAccessEntry) (t cwd : str) (e f : ResolvedFileSystemEntry) :
  e ∈ around es t cwd -> f ∈ around fs t cwd ->
  paths_overlap (resolved_path e) (resolved_path f) = true.
Proof.
  intros He Hf. unfold paths_overlap, path_starts_with. rewrite orb_true_iff, !bool_decide_eq_true.
  destruct (Nat.le_ge_cases (specificity e) (specificity f)).
  - right. by eapply around_prefix.
  - left. by eapply around_prefix.
Qed.

(** What decides about a path decides about every folder between. *)
Lemma decides_between (es : list FileSystemAccessEntry) (q t cwd : str) (e : ResolvedFileSystemEntry) :
  decides H (restricted es) t cwd e -> components q `prefix_of` components t ->
  components (resolved_path e) `prefix_of` components q -> decides H (restricted es) q cwd e.
Proof.
  intros [He Hd] Hq Hp. split.
  - apply around_spec. split; [|done]. by apply around_spec in He as [He _].
  - rewrite Forall_forall in Hd |- *. intros f Hf. apply Hd, around_spec.
    apply around_spec in Hf as [Hf Hfq]. split; [done|]. by etrans.
Qed.

(** Lists that resolve to the same entries say the same. *)
Lemma same_access (es fs : list FileSystemAccessEntry) (t cwd cwd' : str) :
  normalized_absolute t -> (forall e, e ∈ resolved es cwd <-> e ∈ resolved fs cwd') ->
  access_of es t cwd = access_of fs t cwd'.
Proof.
  intros Ht Heq.
  assert (Ha : forall e, e ∈ around es t cwd <-> e ∈ around fs t cwd').
  { intros e. by rewrite !around_spec, Heq. }
  destruct (access_decided es t cwd Ht) as [[Hn ->]|(e & [He Hd] & ->)].
  - destruct (access_decided fs t cwd' Ht) as [[_ ->]|(f & [Hf _] & _)]; [done|].
    apply Ha in Hf. rewrite Hn in Hf. by apply not_elem_of_nil in Hf.
  - symmetry. apply decided_access; [done|]. split; [by apply Ha|].
    rewrite Forall_forall in Hd |- *. intros f Hf. by apply Hd, Ha.
Qed.

(** ** Equal entries *)

Lemma path_eqb_resolve (x y : FileSystemPath) (cwd : option str) :
  well_formed_path x -> well_formed_path y -> file_system_path_eqb x y = true ->
  resolve_entry_path H x cwd = resolve_entry_path H y cwd.
Proof.
  intros Hx Hy E. destruct x as [p|g|v], y as [p'|g'|v']; try done.
  - apply bool_decide_eq_true in E. simpl. f_equal. by apply normalized_inj.
  - destruct v, v'; try done; simpl in E.
    apply bool_decide_eq_true in E. by rewrite (subpath_inj _ _ Hx Hy E).
Qed.

Lemma path_eqb_refl (x : FileSystemPath) : file_system_path_eqb x x = true.
Proof.
  destruct x as [p|g|[]]; simpl; try done; unfold path_eqb;
    rewrite ?str_eqb_refl, ?bool_decide_eq_true; try done.
  by apply bool_decide_eq_true.
Qed.

Lemma entry_eqb_refl (x : FileSystemAccessEntry) : entry_eqb x x = true.
Proof. unfold entry_eqb. rewrite path_eqb_refl. by apply bool_decide_eq_true. Qed.

Lemma entry_eqb_spec (x y : FileSystemAccessEntry) (cwd : option str) :
  well_formed_path (entry_path x) -> well_formed_path (entry_path y) -> entry_eqb x y = true ->
  resolve_entry_path H (entry_path x) cwd = resolve_entry_path H (entry_path y) cwd
  /\ access x = access y.
Proof.
  intros Hx Hy [E ->%bool_decide_eq_true]%andb_true_iff. split; [|done]. by apply path_eqb_resolve.
Qed.

Lemma entries_eqb_refl (es : list FileSystemAccessEntry) : entries_eqb es es = true.
Proof. induction es as [|e es IH]; [done|]. simpl. by rewrite entry_eqb_refl. Qed.

Lemma profile_eqb_refl (p : AdditionalPermissionProfile) : profile_eqb p p = true.
Proof.
  unfold profile_eqb. apply andb_true_iff. split.
  - destruct (network p); [|done]. by apply bool_decide_eq_true.
  - destruct (file_system p) as [fs|]; [|done]. simpl. unfold file_system_eqb.
    rewrite entries_eqb_refl. by apply bool_decide_eq_true.
Qed.

(** ** Pushing what is new *)

Lemma push_new_elem (es acc : list FileSystemAccessEntry) (x : FileSystemAccessEntry) :
  x ∈ fold_left push_new es acc -> x ∈ acc \/ x ∈ es.
Proof.
  revert acc. induction es as [|y es IH]; intros acc; simpl; [by left|].
  intros [Hx|Hx]%IH; [|by right; right]. unfold push_new in Hx. case_match; [by left|].
  apply elem_of_app in Hx as [Hx|Hx%list_elem_of_singleton]; [by left|]. subst. by right; left.
Qed.

Lemma push_new_kept (es acc : list FileSystemAccessEntry) (x : FileSystemAccessEntry) :
  x ∈ acc -> x ∈ fold_left push_new es acc.
Proof.
  revert acc. induction es as [|y es IH]; intros acc; simpl; [done|]. intros Hx. apply IH.
  unfold push_new. case_match; [done|]. apply elem_of_app. by left.
Qed.

Lemma push_new_wf (es acc : list FileSystemAccessEntry) :
  entries_wf acc -> entries_wf es -> entries_wf (fold_left push_new es acc).
Proof.
  unfold entries_wf. rewrite !Forall_forall. intros Ha He x [Hx|Hx]%push_new_elem; auto.
Qed.

Lemma push_new_resolved (es acc : list FileSystemAccessEntry) (cwd : str) (e : ResolvedFileSystemEntry) :
  normalized_absolute cwd -> entries_wf acc -> entries_wf es ->
  e ∈ resolved (fold_left push_new es acc) cwd <-> e ∈ resolved acc cwd \/ e ∈ resolved es cwd.
Proof.
  intros Hc Ha He. rewrite !resolved_spec by done. split.
  - intros (x & [Hx|Hx]%push_new_elem & ?); [left|right]; by exists x.
  - intros [(x & Hx & Hr)|(x & Hx & Hr & Hm)]; [by exists x; split; [apply push_new_kept|]|].
    revert acc Ha. induction es as [|y es IH]; intros acc Ha; [by apply not_elem_of_nil in Hx|].
    apply Forall_cons in He as [Hy He]. simpl. apply elem_of_cons in Hx as [->|Hx].
    + clear IH. unfold push_new at 2. destruct (contains_entry acc y) eqn:E.
      * apply existsb_exists in E as (z & Hz%list_elem_of_In & Ez).
        unfold entries_wf in Ha. rewrite Forall_forall in Ha.
        apply (entry_eqb_spec z y (Some cwd)) in Ez as [Er Em]; [|by apply Ha|done].
        exists z. split_and!; [by apply push_new_kept|congruence|congruence].
      * exists y. split; [|done]. apply push_new_kept, elem_of_app. right. by left.
    + apply IH; [done..|]. unfold push_new. case_match; [done|].
      apply Forall_app. split; [done|]. by apply Forall_singleton.
Qed.

(** ** Entries that no longer depend on the working directory *)

Lemma permission_path_resolves (p : FileSystemPath) (cwd : str) :
  normalized_absolute cwd -> resolve_permission_path H p cwd = resolve_entry_path H p (Some cwd).
Proof.
  intros Hc. destruct p as [p|g|[]]; try done.
  simpl. rewrite absolute_of_normalized by done. by destruct subpath.
Qed.

Lemma materialized_resolves (x : FileSystemAccessEntry) (cwd cwd' : str) :
  normalized_absolute cwd -> normalized_absolute cwd' ->
  resolve_entry_path H (entry_path (materialize_cwd_dependent_entry H x cwd)) (Some cwd')
  = resolve_entry_path H (entry_path x) (Some cwd)
  /\ access (materialize_cwd_dependent_entry H x cwd) = access x.
Proof.
  intros Hc Hc'. unfold materialize_cwd_dependent_entry.
  destruct (entry_path x) as [p|g|[]] eqn:E; simpl; rewrite ?E; simpl; try done.
  - by rewrite !absolute_root.
  - rewrite absolute_of_normalized by done. simpl. by destruct subpath.
Qed.

Lemma materialized_wf (es : list FileSystemAccessEntry) (cwd : str) :
  normalized_absolute cwd -> entries_wf es ->
  entries_wf (map (fun e => materialize_cwd_dependent_entry H e cwd) es).
Proof.
  intros Hc. unfold entries_wf. rewrite !Forall_forall. intros He x Hx.
  apply list_elem_of_fmap in Hx as (y & -> & Hy). specialize (He _ Hy).
  unfold materialize_cwd_dependent_entry. destruct (entry_path y) as [p|g|[]] eqn:E; rewrite ?E; try done.
  rewrite (permission_path_resolves _ _ Hc). case_match eqn:Er; [|by rewrite E].
  simpl. by eapply resolve_entry_normalized.
Qed.

Lemma materialized_resolved (es : list FileSystemAccessEntry) (cwd cwd' : str) (e : ResolvedFileSystemEntry) :
  normalized_absolute cwd -> normalized_absolute cwd' ->
  e ∈ resolved (map (fun e => materialize_cwd_dependent_entry H e cwd) es) cwd' <-> e ∈ resolved es cwd.
Proof.
  intros Hc Hc'. rewrite !resolved_spec by done. split.
  - intros (x & Hx & Hr & Hm). apply list_elem_of_fmap in Hx as (y & -> & Hy). exists y.
    destruct (materialized_resolves y cwd cwd') as [E1 E2]; [done..|]. by rewrite <- E1, <- E2.
  - intros (y & Hy & Hr & Hm). eexists. split; [by apply list_elem_of_fmap; exists y|].
    destruct (materialized_resolves y cwd cwd') as [-> ->]; done.
Qed.

(** ** What an intersection holds *)

Lemma filter_wf (f : FileSystemAccessEntry -> bool) (es : list FileSystemAccessEntry) :
  entries_wf es -> entries_wf (List.filter f es).
Proof.
  unfold entries_wf. rewrite !Forall_forall. intros He x Hx%list_elem_of_In.
  apply filter_In in Hx as [Hx _]. by apply He, list_elem_of_In.
Qed.

Section Intersection.
Context (build_glob_matcher : str -> option (str -> bool)).
Context (requested granted : FileSystemPermissions) (cwd : str).
Context (Hreq : entries_wf (perm_entries requested)) (Hgr : entries_wf (perm_entries granted)).
Context (Hc : normalized_absolute cwd).

Let matcher := new_read_deny_matcher H build_glob_matcher (restricted (perm_entries requested)) cwd.
Let out := perm_entries (intersect_file_systems H build_glob_matcher requested granted cwd).
Let accepted := accepted_grants H build_glob_matcher requested granted cwd.

(** The request denies reading the folder by a path or a pattern. *)
Definition matcher_denies (q : str) : Prop :=
  exists m, matcher = Some m /\ is_read_denied H m q = true.

Lemma accepted_wf : entries_wf accepted.
Proof. apply push_new_wf; [by apply Forall_nil|]. by apply materialized_wf, filter_wf. Qed.

Lemma accepted_resolved (cwd' : str) (e : ResolvedFileSystemEntry) :
  normalized_absolute cwd' ->
  e ∈ resolved accepted cwd' <->
  e ∈ resolved (perm_entries granted) cwd
  /\ ~ matcher_denies (resolved_path e)
  /\ access_covers (access_of (perm_entries requested) (resolved_path e) cwd) (resolved_access e) = true.
Proof.
  intros Hc'. unfold accepted, accepted_grants.
  rewrite push_new_resolved; [|done|by apply Forall_nil|by apply materialized_wf, filter_wf].
  rewrite materialized_resolved by done. rewrite !resolved_spec by done.
  fold matcher. split.
  - intros [(x & Hx & _)|(x & Hx%list_elem_of_In & Hr & Hm)]; [by apply not_elem_of_nil in Hx|].
    apply filter_In in Hx as [Hx%list_elem_of_In Hw]. split; [by exists x|].
    unfold granted_file_system_entry_within_request in Hw. case_match; [done|].
    rewrite permission_path_resolves, Hr in Hw by done. rewrite Hm.
    destruct matcher as [m|] eqn:Em.
    + destruct (is_read_denied H m (resolved_path e)) eqn:Ed; [done|]. split; [|done].
      intros (m' & Em' & Ed'). rewrite Em in Em'. congruence.
    + split; [|done]. intros (m' & Em' & _). congruence.
  - intros ((x & Hx & Hr & Hm) & Hd & Hcov). right. exists x. split; [|done].
    apply list_elem_of_In, filter_In. split; [by apply list_elem_of_In|].
    unfold granted_file_system_entry_within_request. rewrite Hm in Hcov.
    assert (can_read (access x) = true) as -> by (by destruct (access x)).
    rewrite permission_path_resolves, Hr by done.
    destruct matcher as [m|] eqn:Em; [|done].
    destruct (is_read_denied H m (resolved_path e)) eqn:Ed; [|done].
    destruct Hd. by exists m.
Qed.

(** A denying entry that is around or below an accepted one is kept. *)
Definition retained (src : list FileSystemAccessEntry) : list FileSystemAccessEntry :=
  map (fun e => materialize_cwd_dependent_entry H e cwd)
    (List.filter (fun e => bool_decide (access e = NoAccess)
                           && deny_entry_constrains_accepted_grant H e accepted cwd) src).

Lemma out_entries :
  out = fold_left push_new (retained (perm_entries granted))
          (fold_left push_new (retained (perm_entries requested)) accepted).
Proof. done. Qed.

Lemma retained_wf (src : list FileSystemAccessEntry) : entries_wf src -> entries_wf (retained src).
Proof. intros Hs. by apply materialized_wf, filter_wf. Qed.

Lemma out_wf : entries_wf out.
Proof.
  rewrite out_entries. apply push_new_wf; [|by apply retained_wf].
  apply push_new_wf; [apply accepted_wf|by apply retained_wf].
Qed.

Lemma out_resolved (cwd' : str) (e : ResolvedFileSystemEntry) :
  normalized_absolute cwd' ->
  e ∈ resolved out cwd' <->
  e ∈ resolved accepted cwd' \/ e ∈ resolved (retained (perm_entries requested)) cwd'
  \/ e ∈ resolved (retained (perm_entries granted)) cwd'.
Proof.
  intros Hc'. pose proof accepted_wf. pose proof (retained_wf _ Hreq). pose proof (retained_wf _ Hgr).
  rewrite out_entries, push_new_resolved by (try done; by apply push_new_wf).
  rewrite push_new_resolved by done. tauto.
Qed.

Lemma retained_resolved (src : list FileSystemAccessEntry) (cwd' : str) (e : ResolvedFileSystemEntry) :
  normalized_absolute cwd' ->
  e ∈ resolved (retained src) cwd' <->
  e ∈ resolved src cwd /\ resolved_access e = NoAccess
  /\ exists a, a ∈ resolved accepted cwd /\ resolved_access a <> NoAccess
               /\ paths_overlap (resolved_path e) (resolved_path a) = true.
Proof.
  intros Hc'. unfold retained. rewrite materialized_resolved by done. rewrite !resolved_spec by done.
  split.
  - intros (x & Hx%list_elem_of_In & Hr & Hm). apply filter_In in Hx as [Hx%list_elem_of_In Hf].
    apply andb_true_iff in Hf as [Hn%bool_decide_eq_true Hf].
    split_and!; [by exists x|congruence|].
    apply existsb_exists in Hf as (y & Hy & Hf). apply filter_In in Hy as [Hy%list_elem_of_In Hcr].
    rewrite !permission_path_resolves in Hf by done.
    destruct (resolve_entry_path H (entry_path y) (Some cwd)) as [q|] eqn:Er; [|done].
    exists {| resolved_path := q; resolved_access := access y |}. simpl.
    split_and!; [by apply resolved_spec; [done|]; exists y|by destruct (access y)|].
    rewrite Hr in Hf. by destruct (entry_path x).
  - intros ((x & Hx & Hr & Hm) & Hn & a & Ha & Hne & Ho). exists x. split; [|done].
    apply list_elem_of_In, filter_In. split; [by apply list_elem_of_In|].
    apply andb_true_iff. split; [apply bool_decide_eq_true; congruence|].
    apply resolved_spec in Ha as (y & Hy & Hry & Hmy); [|done].
    apply existsb_exists. exists y. split.
    + apply filter_In. split; [by apply list_elem_of_In|]. rewrite <- Hmy. by destruct (resolved_access a).
    + rewrite !permission_path_resolves, Hry, Hr by done.
      destruct (entry_path x); try done.
Qed.

(** A path that the intersection opens is opened by an entry of the grant that the request
    covers. *)
Lemma opened_by (cwd' t : str) (e : ResolvedFileSystemEntry) :
  normalized_absolute cwd' -> decides H (restricted out) t cwd' e -> resolved_access e <> NoAccess ->
  e ∈ resolved accepted cwd'
  /\ e ∈ around (perm_entries granted) t cwd
  /\ ~ matcher_denies (resolved_path e)
  /\ access_covers (access_of (perm_entries requested) (resolved_path e) cwd) (resolved_access e) = true.
Proof.
  intros Hc' [He _] Hm. apply around_spec in He as [He Hp].
  apply out_resolved in He as [He|[He|He]]; [|by apply retained_resolved in He as (_ & ? & _)..|done].
  split; [done|]. apply accepted_resolved in He as (Hg & Hd & Hcov); [|done].
  split_and!; try done. by apply around_spec.
Qed.

(** No entry of the request or the grant that denies a part of what an entry of the
    intersection opens is lost. *)
Lemma denials_kept (src : list FileSystemAccessEntry) (cwd' t : str) (e f : ResolvedFileSystemEntry) :
  src = perm_entries requested \/ src = perm_entries granted -> normalized_absolute cwd' ->
  decides H (restricted out) t cwd' e -> resolved_access e <> NoAccess ->
  f ∈ around src t cwd -> resolved_access f = NoAccess -> specificity f < specificity e.
Proof.
  intros Hsrc Hc' He Hm Hf Hn. pose proof (opened_by cwd' t e Hc' He Hm) as (Ha & Heg & _).
  assert (Hout : f ∈ around out t cwd').
  { apply around_spec. pose proof Hf as [Hr Hp]%around_spec. split; [|done].
    apply out_resolved; [done|]. right.
    assert (f ∈ resolved (retained src) cwd').
    { apply retained_resolved; [done|]. split_and!; [done..|]. exists e. split_and!; [|done|].
      - apply accepted_resolved; [done|]. by apply (accepted_resolved cwd').
      - by eapply around_overlap. }
    destruct Hsrc as [->| ->]; [by left|by right]. }
  destruct (decides_rank _ _ _ _ _ He Hout) as [|[_ Hrank]]; [done|].
  rewrite Hn in Hrank. simpl in Hrank. destruct (resolved_access e); simpl in Hrank; [lia|lia|done].
Qed.

Lemma granted_normalized (e : ResolvedFileSystemEntry) :
  e ∈ resolved (perm_entries granted) cwd -> normalized_absolute (resolved_path e).
Proof.
  apply (resolved_normalized H (restricted (perm_entries granted)) cwd cwd); [exact Hgr|].
  by apply absolute_of_normalized.
Qed.

Lemma request_opens (cwd' t : str) (e : ResolvedFileSystemEntry) :
  normalized_absolute cwd' -> normalized_absolute t ->
  decides H (restricted out) t cwd' e -> resolved_access e <> NoAccess ->
  exists b d, decides H (restricted (perm_entries requested)) (resolved_path e) cwd b
    /\ access_covers (resolved_access b) (resolved_access e) = true
    /\ decides H (restricted (perm_entries requested)) t cwd d
    /\ resolved_access d <> NoAccess
    /\ (specificity d <= specificity e -> resolved_access d = resolved_access b)
    /\ b ∈ around (perm_entries requested) t cwd /\ specificity b <= specificity e.
Proof.
  intros Hc' Ht He Hm. pose proof (opened_by cwd' t e Hc' He Hm) as (Ha & Heg & _ & Hcov).
  assert (Hq : normalized_absolute (resolved_path e)).
  { apply around_spec in Heg as [Heg _].
    by eapply granted_normalized. }
  destruct (access_decided (perm_entries requested) (resolved_path e) cwd Hq)
    as [[_ Hn]|(b & Hb & Hba)].
  { rewrite Hn in Hcov. by destruct (resolved_access e). }
  rewrite Hba in Hcov.
  assert (Hbt : b ∈ around (perm_entries requested) t cwd).
  { destruct Hb as [[Hb Hp]%around_spec _]. apply around_spec. split; [done|].
    apply around_spec in Heg as [_ Heg]. by etrans. }
  assert (Hbe : specificity b <= specificity e).
  { destruct Hb as [[_ Hp]%around_spec _]. by apply prefix_length in Hp. }
  destruct (access_decided (perm_entries requested) t cwd Ht) as [[Hn _]|(d & Hd & _)].
  { rewrite Hn in Hbt. by apply not_elem_of_nil in Hbt. }
  assert (Hsame : specificity d <= specificity e -> resolved_access d = resolved_access b).
  { intros Hs. eapply decides_access; [|exact Hb].
    eapply decides_between; [exact Hd|by apply around_spec in Heg as [_ ?]|].
    eapply around_prefix; [by destruct Hd|exact Heg|done]. }
  exists b, d. split_and!; try done. intros Hn.
  assert (specificity d < specificity e) as Hlt.
  { eapply denials_kept; [by left|exact Hc'|exact He|done|by destruct Hd|done]. }
  rewrite Hsame in Hn by lia. rewrite Hn in Hcov. by destruct (resolved_access e).
Qed.

(** A folder that may only be read below one that may be written. *)
Definition read_only_part (es : list FileSystemAccessEntry) (t cwd : str) : Prop :=
  exists f g, f ∈ around es t cwd /\ g ∈ around es t cwd /\ resolved_access f = Read
    /\ resolved_access g = Write /\ specificity g < specificity f.

Lemma within_request (cwd' t : str) :
  normalized_absolute cwd' -> normalized_absolute t -> access_of out t cwd' <> NoAccess ->
  access_of (perm_entries requested) t cwd <> NoAccess
  /\ (access_of out t cwd' = Write ->
      access_of (perm_entries requested) t cwd = Write \/ read_only_part (perm_entries requested) t cwd).
Proof.
  intros Hc' Ht Hm. destruct (access_decided out t cwd' Ht) as [[_ Hn]|(e & He & Hea)]; [done|].
  rewrite Hea in Hm |- *.
  destruct (request_opens cwd' t e Hc' Ht He Hm) as (b & d & Hb & Hcov & Hd & Hne & Hsame & Hbt & Hbe).
  rewrite (decided_access _ _ _ _ Ht Hd). split; [done|]. intros Hw. rewrite Hw in Hcov. simpl in Hcov.
  assert (Hbw : resolved_access b = Write) by by destruct (resolved_access b).
  destruct (resolved_access d) eqn:Hda; [right|by left|done].
  exists d, b. split_and!; try done; [by destruct Hd|].
  destruct (Nat.le_gt_cases (specificity d) (specificity e)) as [Hle|]; [|lia].
  specialize (Hsame Hle). congruence.
Qed.

(** A folder that another list opens, but that the request denies by a path or pattern. *)
Definition denied_part (es : list FileSystemAccessEntry) (t : str) : Prop :=
  exists f, f ∈ around es t cwd /\ resolved_access f <> NoAccess /\ matcher_denies (resolved_path f).

(** A folder of the grant that may only be read is denied by the request, or part of the
    intersection. *)
Lemma grant_read_only_part (cwd' t : str) (e d : ResolvedFileSystemEntry) :
  normalized_absolute cwd' -> normalized_absolute t ->
  decides H (restricted out) t cwd' e -> resolved_access e = Write ->
  d ∈ around (perm_entries granted) t cwd -> resolved_access d = Read ->
  specificity e < specificity d -> matcher_denies (resolved_path d).
Proof.
  intros Hc' Ht He Hw Hd Hr Hs.
  assert (Hm : resolved_access e <> NoAccess) by congruence.
  destruct (request_opens cwd' t e Hc' Ht He Hm) as (b & _ & Hb & Hcov & _ & _ & _ & Hbt & Hbe).
  assert (Hq : normalized_absolute (resolved_path d)).
  { apply around_spec in Hd as [Hd _]. by eapply granted_normalized. }
  assert (Hreads : access_of (perm_entries requested) (resolved_path d) cwd <> NoAccess).
  { assert (Hbd : b ∈ around (perm_entries requested) (resolved_path d) cwd).
    { apply around_spec. split; [by apply around_spec in Hbt as [? _]|].
      eapply around_prefix; [exact Hbt|exact Hd|lia]. }
    destruct (access_decided (perm_entries requested) (resolved_path d) cwd Hq) as [[Hn _]|(f & Hf & ->)].
    { rewrite Hn in Hbd. by apply not_elem_of_nil in Hbd. }
    intros Hn.
    assert (Hft : f ∈ around (perm_entries requested) t cwd).
    { destruct Hf as [[Hf Hp]%around_spec _]. apply around_spec. split; [done|].
      apply around_spec in Hd as [_ Hd]. by etrans. }
    assert (Hfe : specificity f < specificity e).
    { eapply denials_kept; [by left|exact Hc'|exact He|done|exact Hft|done]. }
    assert (resolved_access f = resolved_access b) as Hfb.
    { pose proof (opened_by cwd' t e Hc' He Hm) as (_ & Heg & _).
      eapply decides_access; [|exact Hb]. eapply decides_between; [exact Hf| |].
      - eapply around_prefix; [exact Heg|exact Hd|lia].
      - eapply around_prefix; [exact Hft|exact Heg|lia]. }
    rewrite <- Hfb, Hn, Hw in Hcov. done. }
  destruct matcher as [m|] eqn:Em; [destruct (is_read_denied H m (resolved_path d)) eqn:Ed|].
  { by exists m. }
  all: exfalso; assert (Hout : d ∈ around out t cwd');
    [|destruct (decides_rank _ _ _ _ _ He Hout); lia].
  all: pose proof Hd as [Hdr Hdp]%around_spec; apply around_spec; split; [|done];
    apply out_resolved; [done|]; left; apply accepted_resolved; [done|]; split_and!; [done| |].
  all: try (rewrite Hr; by destruct (access_of _ _ _)).
  - intros (m' & Em' & Ed'). congruence.
  - intros (m' & Em' & _). congruence.
Qed.

Lemma within_grant (cwd' t : str) :
  normalized_absolute cwd' -> normalized_absolute t -> access_of out t cwd' <> NoAccess ->
  access_of (perm_entries granted) t cwd <> NoAccess
  /\ (access_of out t cwd' = Write ->
      access_of (perm_entries granted) t cwd = Write \/ denied_part (perm_entries granted) t).
Proof.
  intros Hc' Ht Hm. destruct (access_decided out t cwd' Ht) as [[_ Hn]|(e & He & Hea)]; [done|].
  rewrite Hea in Hm |- *.
  pose proof (opened_by cwd' t e Hc' He Hm) as (Ha & Heg & _).
  destruct (access_decided (perm_entries granted) t cwd Ht) as [[Hn _]|(d & Hd & ->)].
  { rewrite Hn in Heg. by apply not_elem_of_nil in Heg. }
  pose proof (decides_rank _ _ _ _ _ Hd Heg) as Hrank. split.
  - intros Hn. assert (specificity d < specificity e); [|lia].
    eapply denials_kept; [by right|exact Hc'|exact He|done|by destruct Hd|done].
  - intros Hw. rewrite Hw in Hrank. destruct (resolved_access d) eqn:Hda; [right|by left|].
    + exists d. split_and!; [by destruct Hd|congruence|].
      eapply grant_read_only_part; [exact Hc'|exact Ht|exact He|done|by destruct Hd|done|].
      simpl in Hrank. lia.
    + assert (specificity d < specificity e); [|lia].
      eapply denials_kept; [by right|exact Hc'|exact He|congruence|by destruct Hd|done].
Qed.

End Intersection.
End OnHost.
End AccessTransformsFacts.

Module AccessUnionFacts.
Import AccessTransformsFacts.

Section OnHost.
Context (H : Host) `{!HostLaws H}.
Context (build_glob_matcher : str -> option (str -> bool)).

Abbreviation access_of := (access_of H).
Abbreviation intersect := (intersect_permission_profiles H build_glob_matcher).

(** ** Intersections *)

Definition file_system_of (p : AdditionalPermissionProfile) : FileSystemPermissions :=
  default no_file_system (file_system p).

Lemma file_system_of_entries (p : AdditionalPermissionProfile) :
  perm_entries (file_system_of p) = profile_entries p.
Proof. unfold file_system_of, profile_entries. by destruct (file_system p). Qed.

Lemma nothing_opened (t cwd : str) : access_of [] t cwd = NoAccess.
Proof.
  unfold AccessTransformsFacts.access_of, resolve_access_with_cwd. simpl. by case_match.
Qed.

Lemma intersect_entries (requested granted : AdditionalPermissionProfile) (cwd : str) :
  profile_entries (intersect requested granted cwd)
  = match file_system requested with
    | Some fs => perm_entries (intersect_file_systems H build_glob_matcher fs (file_system_of granted) cwd)
    | None => []
    end.
Proof.
  unfold intersect_permission_profiles, profile_entries.
  fold (file_system_of granted).
  destruct (file_system requested) as [fs|]; [|done].
  cbn [file_system fmap option_fmap option_map non_empty].
  set (both := intersect_file_systems _ _ _ _ _).
  unfold permissions_is_empty. case_bool_decide as E; [by rewrite E|done].
Qed.

(** The request denies reading a folder that the list opens around a path. *)
Definition denies_part (requested : AdditionalPermissionProfile) (es : list FileSystemAccessEntry)
    (t cwd : str) : Prop :=
  denied_part H build_glob_matcher (file_system_of requested) cwd es t.

Lemma intersect_within (requested granted : AdditionalPermissionProfile) (cwd cwd' t : str) :
  profile_wf requested -> profile_wf granted ->
  normalized_absolute cwd -> normalized_absolute cwd' -> normalized_absolute t ->
  let both := access_of (profile_entries (intersect requested granted cwd)) t cwd' in
  let asked := access_of (profile_entries requested) t cwd in
  let given := access_of (profile_entries granted) t cwd in
  both <> NoAccess ->
  asked <> NoAccess /\ given <> NoAccess
  /\ (both = Write ->
      (asked = Write \/ read_only_part H (profile_entries requested) t cwd)
      /\ (given = Write \/ denies_part requested (profile_entries granted) t cwd)).
Proof.
  intros Hr Hg Hc Hc' Ht both asked given. subst both asked given. rewrite intersect_entries.
  destruct (file_system requested) as [fs|] eqn:Ef; [|by rewrite nothing_opened].
  assert (Hfs : profile_entries requested = perm_entries fs) by (unfold profile_entries; by rewrite Ef).
  unfold denies_part. replace (file_system_of requested) with fs by (unfold file_system_of; by rewrite Ef).
  unfold profile_wf in Hr, Hg. rewrite Hfs in Hr |- *.
  rewrite <- (file_system_of_entries granted) in Hg |- *. intros Hb.
  destruct (within_request H build_glob_matcher fs (file_system_of granted) cwd Hr Hg Hc cwd' t) as [? ?];
    [done..|].
  destruct (within_grant H build_glob_matcher fs (file_system_of granted) cwd Hr Hg Hc cwd' t) as [? ?];
    [done..|]. auto.
Qed.

Lemma intersect_network (requested granted : AdditionalPermissionProfile) (cwd : str) :
  network_granted (network (intersect requested granted cwd))
  = network_granted (network requested) && network_granted (network granted).
Proof. simpl. by case_match. Qed.

Lemma intersect_wf (requested granted : AdditionalPermissionProfile) (cwd : str) :
  profile_wf requested -> profile_wf granted -> normalized_absolute cwd ->
  profile_wf (intersect requested granted cwd).
Proof.
  unfold profile_wf. intros Hr Hg Hc. rewrite intersect_entries. unfold profile_entries in Hr.
  destruct (file_system requested) as [fs|]; [|by apply Forall_nil].
  apply out_wf; try done. by rewrite file_system_of_entries.
Qed.

(** What an intersection opens, for any working directory later on, the request and the
    grant open both; and it opens for writing what both do, but for folders that the request
    names for reading below one for writing, and folders of the grant that the request
    denies. The network is open if it is in both. *)
Theorem intersection_bounded (requested granted : AdditionalPermissionProfile) (cwd cwd' t : str) :
  profile_wf requested -> profile_wf granted ->
  normalized_absolute cwd -> normalized_absolute cwd' -> normalized_absolute t ->
  let both := access_of (profile_entries (intersect requested granted cwd)) t cwd' in
  let asked := access_of (profile_entries requested) t cwd in
  let given := access_of (profile_entries granted) t cwd in
  (both <> NoAccess -> asked <> NoAccess /\ given <> NoAccess)
  /\ (both = Write ->
      (asked = Write \/ read_only_part H (profile_entries requested) t cwd)
      /\ (given = Write \/ denies_part requested (profile_entries granted) t cwd))
  /\ network_granted (network (intersect requested granted cwd))
     = network_granted (network requested) && network_granted (network granted).
Proof.
  intros Hr Hg Hc Hc' Ht both asked given.
  pose proof (intersect_within requested granted cwd cwd' t Hr Hg Hc Hc' Ht) as Hw.
  cbn zeta in Hw. fold both asked given in Hw. split_and!; [| |apply intersect_network].
  - intros Hb. by destruct (Hw Hb) as (? & ? & _).
  - intros Hb. apply Hw; [by rewrite Hb|done].
Qed.

End OnHost.

(** ** Unions *)

Section Unions.
Context (H : Host) `{!HostLaws H}.

Abbreviation access_of := (access_of H).

(** The entries that a call adds to a policy. *)
Definition added_entries (additional : option AdditionalPermissionProfile) : list FileSystemAccessEntry :=
  match additional with Some p => profile_entries p | None => [] end.

Definition added_network (additional : option AdditionalPermissionProfile) : bool :=
  match additional with Some p => network_granted (network p) | None => false end.

Lemma resolved_app (es fs : list FileSystemAccessEntry) (cwd : str) (e : ResolvedFileSystemEntry) :
  e ∈ resolved_entries_with_cwd H (restricted (es ++ fs)) cwd
  <-> e ∈ resolved_entries_with_cwd H (restricted es) cwd
      \/ e ∈ resolved_entries_with_cwd H (restricted fs) cwd.
Proof. unfold resolved_entries_with_cwd. simpl. by rewrite omap_app, elem_of_app. Qed.

(** Only the entries of a restricted policy count. *)
Lemma restricted_access (p : FileSystemAccessPolicy) (t cwd : str) :
  policy_kind p = Restricted -> resolve_access_with_cwd H p t cwd = access_of (entries p) t cwd.
Proof. intros Hk. unfold AccessTransformsFacts.access_of, resolve_access_with_cwd. by rewrite Hk. Qed.

Lemma effective_kind (p : FileSystemAccessPolicy) (additional : option AdditionalPermissionProfile) :
  policy_kind (effective_file_system_access_policy p additional) = policy_kind p.
Proof.
  unfold effective_file_system_access_policy, merge_file_system_policy_with_additional_permissions.
  by repeat case_match.
Qed.

Lemma effective_entries (p : FileSystemAccessPolicy) (additional : option AdditionalPermissionProfile) :
  policy_kind p = Restricted ->
  entries (effective_file_system_access_policy p additional)
  = fold_left push_new (added_entries additional) (entries p).
Proof.
  intros Hk. unfold effective_file_system_access_policy, added_entries, profile_entries.
  destruct additional as [add|]; [|done]. destruct (file_system add) as [fs|]; [|done]. simpl.
  unfold permissions_is_empty. case_bool_decide as E; [by rewrite E|].
  unfold merge_file_system_policy_with_additional_permissions. by rewrite Hk.
Qed.

Lemma effective_access (p : FileSystemAccessPolicy) (additional : option AdditionalPermissionProfile)
    (t cwd : str) :
  policy_kind p = Restricted -> well_formed p -> entries_wf (added_entries additional) ->
  normalized_absolute cwd -> normalized_absolute t ->
  resolve_access_with_cwd H (effective_file_system_access_policy p additional) t cwd
  = access_of (entries p ++ added_entries additional) t cwd.
Proof.
  intros Hk Hw Ha Hc Ht. rewrite restricted_access by by rewrite effective_kind.
  rewrite effective_entries by done. apply same_access; [done..|]. intros e.
  by rewrite push_new_resolved, resolved_app.
Qed.

(** An entry counts at its own folder, unless a stricter one is there. *)
Lemma entry_counts (es : list FileSystemAccessEntry) (x : FileSystemAccessEntry) (q cwd : str) :
  normalized_absolute cwd -> normalized_absolute q -> x ∈ es ->
  resolve_entry_path H (entry_path x) (Some cwd) = Some q ->
  mode_rank (access x) <= mode_rank (access_of es q cwd).
Proof.
  intros Hc Hq Hx Hr. set (e := {| resolved_path := q; resolved_access := access x |}).
  assert (He : e ∈ covering H (restricted es) q cwd).
  { apply around_spec. split; [|done]. apply resolved_spec; [done..|]. by exists x. }
  destruct (access_decided H es q cwd Hq) as [[Hn _]|(d & Hd & ->)].
  { rewrite Hn in He. by apply not_elem_of_nil in He. }
  destruct (decides_rank _ _ _ _ _ _ Hd He) as [Hs|[_ ?]]; [|done].
  destruct Hd as [Hd _]. apply around_spec in Hd as [_ Hp]. apply prefix_length in Hp.
  unfold specificity in Hs. simpl in Hs. lia.
Qed.

Lemma workspace_nonempty (roots : list str) (b1 b2 : bool) :
  entries (workspace_write H roots b1 b2) <> [].
Proof. by destruct (workspace_write_entries H roots b1 b2) as (added & -> & _). Qed.

(** The profile with additional permissions enforces the policies with them. *)
Lemma effective_runtime (profile : PermissionProfile) (additional : option AdditionalPermissionProfile) :
  exists effective,
    from_runtime_permissions_with_filesystem_isolation (filesystem_isolation profile)
      (effective_file_system_access_policy (file_system_access_policy H profile) additional)
      (effective_network_access_policy (network_access_policy profile) additional) = Ok effective
    /\ is_enabled (network_access_policy effective)
       = is_enabled (network_access_policy profile) || added_network additional
    /\ forall t cwd, resolve_access_with_cwd H (file_system_access_policy H effective) t cwd
         = resolve_access_with_cwd H
             (effective_file_system_access_policy (file_system_access_policy H profile) additional) t cwd.
Proof.
  set (p := file_system_access_policy H profile).
  set (q := effective_file_system_access_policy p additional).
  set (n := effective_network_access_policy (network_access_policy profile) additional).
  assert (Hn : is_enabled n = is_enabled (network_access_policy profile) || added_network additional).
  { unfold n, effective_network_access_policy, merge_network_access, added_network, network_granted.
    destruct additional as [[[[[[]|]]|] fs]|]; destruct (network_access_policy profile); done. }
  assert (Hq : policy_kind q = policy_kind p) by apply effective_kind.
  unfold from_runtime_permissions_with_filesystem_isolation, from_access_policy. rewrite Hq.
  destruct profile as [[es depth|] net| |net]; simpl in p.
  - assert (Hk : policy_kind p = Restricted) by (unfold p; simpl; by case_bool_decide).
    rewrite Hk. eexists. split_and!; [done|done|]. intros t cwd. simpl.
    assert (Hne : entries q <> []).
    { assert (exists x, x ∈ entries p) as [x Hx].
      { unfold p. simpl. case_bool_decide as E.
        - destruct (entries (workspace_write H [] true true)) as [|x ?] eqn:Ew;
            [by apply workspace_nonempty in Ew|exists x; by left].
        - destruct es as [|x ?]; [done|exists x; by left]. }
      unfold q. rewrite effective_entries by done. intros E.
      apply (push_new_kept (added_entries additional)) in Hx. rewrite E in Hx. by apply not_elem_of_nil in Hx. }
    rewrite bool_decide_eq_false_2 by done. unfold resolve_access_with_cwd. simpl.
    by rewrite Hq, Hk.
  - simpl. eexists. split_and!; [done|done|]. intros t cwd. unfold resolve_access_with_cwd. by rewrite Hq.
  - simpl. eexists. split_and!; [done|done|]. intros t cwd. unfold resolve_access_with_cwd. by rewrite Hq.
  - simpl. eexists. split_and!; [done|done|]. intros t cwd. unfold resolve_access_with_cwd. by rewrite Hq.
Qed.

(** C26: the profile of a session with additional permissions never fails to be made. What it
    enforces is the union of the entries of both, where the deepest entry decides, and the
    network if one of both has it. *)
Theorem effective_profile_is_union (profile : PermissionProfile)
    (additional : option AdditionalPermissionProfile) (t cwd : str) :
  well_formed (file_system_access_policy H profile) -> entries_wf (added_entries additional) ->
  normalized_absolute cwd -> normalized_absolute t ->
  exists effective, effective_permission_profile H profile additional = Ok effective
    /\ is_enabled (network_access_policy effective)
       = is_enabled (network_access_policy profile) || added_network additional
    /\ resolve_access_with_cwd H (file_system_access_policy H effective) t cwd
       = match policy_kind (file_system_access_policy H profile) with
         | Restricted =>
             access_of (entries (file_system_access_policy H profile) ++ added_entries additional) t cwd
         | Unrestricted | External => Write
         end
    /\ (policy_kind (file_system_access_policy H profile) = Restricted ->
        forall x q, x ∈ added_entries additional ->
          resolve_entry_path H (entry_path x) (Some cwd) = Some q ->
          mode_rank (access x)
          <= mode_rank (resolve_access_with_cwd H (file_system_access_policy H effective) q cwd)).
Proof.
  intros Hw Ha Hc Ht. unfold effective_permission_profile, to_runtime_permissions.
  destruct (effective_runtime profile additional) as (effective & Hok & Hn & Hr).
  exists effective. split_and!; [done|done| |].
  - rewrite Hr. case_match eqn:Hk; [by apply effective_access| |];
      unfold resolve_access_with_cwd; by rewrite effective_kind, Hk.
  - intros Hk x q Hx Hq. rewrite Hr.
    assert (Hqn : normalized_absolute q).
    { eapply resolve_entry_normalized; [done|exact Hc| |exact Hq].
      unfold entries_wf in Ha. rewrite Forall_forall in Ha. by apply Ha. }
    rewrite effective_access by done. eapply entry_counts; [done..| |done].
    apply elem_of_app. by right.
Qed.

(** ** Merged profiles *)

Lemma merge_entries_resolved (es fs : list FileSystemAccessEntry) (cwd : str) (e : ResolvedFileSystemEntry) :
  normalized_absolute cwd -> entries_wf es -> entries_wf fs ->
  e ∈ resolved_entries_with_cwd H (restricted (merge_permission_entries es fs)) cwd
  <-> e ∈ resolved_entries_with_cwd H (restricted es) cwd
      \/ e ∈ resolved_entries_with_cwd H (restricted fs) cwd.
Proof.
  intros Hc He Hf. unfold merge_permission_entries.
  rewrite push_new_resolved; [|done|by apply Forall_nil|by apply Forall_app]. rewrite resolved_app.
  split; [intros [Hn|]; [|done]|by right].
  unfold resolved_entries_with_cwd in Hn. by apply not_elem_of_nil in Hn.
Qed.

Lemma non_empty_entries (p : AdditionalPermissionProfile) :
  added_entries (non_empty profile_is_empty (Some p)) = profile_entries p.
Proof. by destruct p as [[n|] [fs|]]. Qed.

Lemma merge_entries (base added : option AdditionalPermissionProfile) :
  let merged := added_entries (merge_permission_profiles base added) in
  merged = merge_permission_entries (added_entries base) (added_entries added)
  \/ merged = added_entries base /\ added_entries added = []
  \/ merged = added_entries added /\ added_entries base = [].
Proof.
  unfold merge_permission_profiles. destruct added as [a|]; [|by right; left].
  destruct base as [b|]; cbn zeta; rewrite non_empty_entries; [|by right; right].
  unfold added_entries, profile_entries. cbn [file_system].
  destruct (file_system b) as [bf|], (file_system a) as [af|]; cbn [fs_entries non_empty];
    [left|by right; left|by right; right|by right; left].
  set (fs := Build_FileSystemPermissions _ _).
  unfold permissions_is_empty. case_bool_decide as E; [|done]. exact (eq_sym E).
Qed.

(** What a merge holds: the entries of both, and the network of one of both. *)
Lemma merge_elem (base added : option AdditionalPermissionProfile) (x : FileSystemAccessEntry) :
  x ∈ added_entries (merge_permission_profiles base added) ->
  x ∈ added_entries base \/ x ∈ added_entries added.
Proof.
  destruct (merge_entries base added) as [->|[[-> _]|[-> _]]]; [|by left|by right].
  intros [Hn|Hx]%push_new_elem; [by apply not_elem_of_nil in Hn|by apply elem_of_app].
Qed.

Lemma merge_resolved (base added : option AdditionalPermissionProfile) (cwd : str) (e : ResolvedFileSystemEntry) :
  normalized_absolute cwd -> entries_wf (added_entries base) -> entries_wf (added_entries added) ->
  e ∈ resolved_entries_with_cwd H (restricted (added_entries (merge_permission_profiles base added))) cwd
  <-> e ∈ resolved_entries_with_cwd H (restricted (added_entries base)) cwd
      \/ e ∈ resolved_entries_with_cwd H (restricted (added_entries added)) cwd.
Proof.
  intros Hc Hb Ha.
  assert (Hnil : ~ e ∈ resolved_entries_with_cwd H (restricted []) cwd) by apply not_elem_of_nil.
  destruct (merge_entries base added) as [->|[[-> ->]|[-> ->]]]; [by apply merge_entries_resolved|tauto..].
Qed.

Lemma merge_wf (base added : option AdditionalPermissionProfile) :
  entries_wf (added_entries base) -> entries_wf (added_entries added) ->
  entries_wf (added_entries (merge_permission_profiles base added)).
Proof.
  unfold entries_wf. rewrite !Forall_forall. intros Hb Ha x [Hx|Hx]%merge_elem; auto.
Qed.

Lemma merge_network (base added : option AdditionalPermissionProfile) :
  added_network (merge_permission_profiles base added) = added_network base || added_network added.
Proof.
  unfold merge_permission_profiles, added_network. destruct added as [a|]; [|by rewrite orb_false_r].
  destruct base as [b|].
  - destruct (network_granted (network b) || network_granted (network a)) eqn:E; [done|].
    unfold non_empty, profile_is_empty. cbn [network file_system]. by repeat case_match; simplify_eq.
  - destruct a as [[n|] [fs|]]; done.
Qed.

(** ** Depths and normal forms *)

Definition denies_globs (es : list FileSystemAccessEntry) : bool :=
  existsb (fun e => bool_decide (access e = NoAccess) && is_glob (entry_path e)) es.

(** Merging never makes the scan for denied patterns less deep. *)
Theorem merged_depth_covers (ls rs : list FileSystemAccessEntry) (ld rd : option nat) (d : nat) :
  merge_glob_scan_max_depth ls ld rs rd = Some d ->
  (denies_globs ls = true -> exists l, ld = Some l /\ l <= d)
  /\ (denies_globs rs = true -> exists r, rd = Some r /\ r <= d).
Proof.
  unfold merge_glob_scan_max_depth, effective_glob_scan_depth. fold (denies_globs ls) (denies_globs rs).
  destruct (denies_globs ls), (denies_globs rs), ld as [l|], rd as [r|]; intros E; simplify_eq;
    split; intros ?; try done; eexists; (split; [done|lia]).
Qed.

Lemma normalize_entries_spec (es acc : list FileSystemAccessEntry) :
  match normalize_entries H es acc with
  | Ok out =>
      Forall (fun x => is_glob (entry_path x) = true -> access x = NoAccess) es
      /\ forall y, y ∈ out -> y ∈ acc
           \/ exists x, x ∈ es /\ y = entry (normalize_entry_path H (entry_path x)) (access x)
  | Err _ => Exists (fun x => is_glob (entry_path x) = true /\ access x <> NoAccess) es
  | Crash _ => False
  end.
Proof.
  revert acc. induction es as [|x es IH]; intros acc; simpl; [split; [done|by left]|].
  destruct (is_glob (entry_path x) && _) eqn:E.
  - apply Exists_cons_hd. apply andb_true_iff in E as [? E%negb_true_iff%bool_decide_eq_false]. done.
  - set (e := entry _ _). specialize (IH (push_new acc e)).
    destruct (normalize_entries H es (push_new acc e)) as [out|msg|c]; [|by apply Exists_cons_tl|done].
    destruct IH as [Hf Hy]. split.
    + apply Forall_cons. split; [|done]. intros Hg. rewrite Hg in E. simpl in E.
      by apply negb_false_iff, bool_decide_eq_true in E.
    + intros y Hin. destruct (Hy y Hin) as [Ha|(z & Hz & ->)].
      * destruct (push_new_elem [e] acc y) as [|Hs]; [exact Ha|by left|].
        apply list_elem_of_singleton in Hs as ->. right. exists x. split; [by left|done].
      * right. exists z. split; [by right|done].
Qed.

(** A request is refused exactly when it opens files by a pattern; otherwise its normal form
    has its entries with their paths made canonical, and no empty part. *)
Theorem normalize_outcome (p : AdditionalPermissionProfile) :
  match normalize_additional_permissions H p with
  | Ok q =>
      Forall (fun x => is_glob (entry_path x) = true -> access x = NoAccess) (profile_entries p)
      /\ (forall y, y ∈ profile_entries q -> exists x, x ∈ profile_entries p
            /\ y = entry (normalize_entry_path H (entry_path x)) (access x))
      /\ network_granted (network q) = network_granted (network p)
      /\ (forall fs, file_system q = Some fs -> perm_entries fs <> [])
      /\ (forall n, network q = Some n -> net_enabled n <> None)
  | Err _ => Exists (fun x => is_glob (entry_path x) = true /\ access x <> NoAccess) (profile_entries p)
  | Crash _ => False
  end.
Proof.
  unfold normalize_additional_permissions, profile_entries.
  assert (Hn : network_granted (non_empty network_is_empty (network p)) = network_granted (network p)
    /\ forall n, non_empty network_is_empty (network p) = Some n -> net_enabled n <> None).
  { destruct (network p) as [[[[]|]]|]; simpl; split; try done; by intros ? [= <-]. }
  destruct Hn as [Hn1 Hn2]. destruct (file_system p) as [fs|].
  - pose proof (normalize_entries_spec (perm_entries fs) []) as Hs. simpl.
    destruct (normalize_entries H (perm_entries fs) []) as [out|m|c]; simpl; [|done..].
    destruct Hs as [Hf Hy]. unfold permissions_is_empty. simpl.
    case_bool_decide as Eo; simpl; split_and!; try done.
    + intros y Hyin. by apply not_elem_of_nil in Hyin.
    + intros y Hyin. destruct (Hy y Hyin) as [Hnil|]; [by apply not_elem_of_nil in Hnil|done].
    + by intros ? [= <-].
  - simpl. split_and!; try done. intros y Hyin. by apply not_elem_of_nil in Hyin.
Qed.

End Unions.
End AccessUnionFacts.

Module AccessGrantsFacts.
Import AccessTransformsFacts AccessUnionFacts.

Section OnHost.
Context (H : Host) `{!HostLaws H}.
Context (build_glob_matcher : str -> option (str -> bool)).

Abbreviation access_of := (access_of H).
Abbreviation intersect := (intersect_permission_profiles H build_glob_matcher).
Abbreviation denies_part := (denies_part H build_glob_matcher).

(** ** What is approved already *)

Lemma profile_eqb_entries (p q : AdditionalPermissionProfile) :
  profile_eqb p q = true -> entries_eqb (profile_entries p) (profile_entries q) = true.
Proof.
  unfold profile_eqb, profile_entries. intros [_ E]%andb_true_iff.
  destruct (file_system p), (file_system q); try done. simpl in E |- *.
  by apply andb_true_iff in E as [? _].
Qed.

Lemma profile_eqb_network (p q : AdditionalPermissionProfile) :
  profile_eqb p q = true -> network_granted (network p) = network_granted (network q).
Proof.
  unfold profile_eqb. intros [E _]%andb_true_iff.
  destruct (network p) as [[?]|], (network q) as [[?]|]; try done. simpl in E.
  apply bool_decide_eq_true in E. by rewrite E.
Qed.

Lemma entries_eqb_resolved (es fs : list FileSystemAccessEntry) (cwd : str) (e : ResolvedFileSystemEntry) :
  entries_wf es -> entries_wf fs -> entries_eqb es fs = true ->
  e ∈ resolved_entries_with_cwd H (restricted es) cwd
  <-> e ∈ resolved_entries_with_cwd H (restricted fs) cwd.
Proof.
  intros He Hf E.
  enough (resolved_entries_with_cwd H (restricted es) cwd = resolved_entries_with_cwd H (restricted fs) cwd)
    as -> by done.
  unfold resolved_entries_with_cwd. simpl. revert fs Hf E.
  induction es as [|x es IH]; intros [|y fs] Hf E; try done. simpl in E.
  apply andb_true_iff in E as [Ex E]. apply Forall_cons in He as [Hx He]. apply Forall_cons in Hf as [Hy Hf].
  destruct (entry_eqb_spec H x y (absolute H cwd) Hx Hy Ex) as [Er Em].
  assert (resolve_entry H (absolute H cwd) x = resolve_entry H (absolute H cwd) y) as Exy
    by (unfold resolve_entry; by rewrite Er, Em).
  simpl. rewrite Exy. case_match; [f_equal|]; exact (IH He fs Hf E).
Qed.

(** The intersection of a profile with itself keeps what it says of every path, unless it
    denies the folder that says so. *)
Lemma self_intersect (p : AdditionalPermissionProfile) (t cwd : str) :
  profile_wf p -> normalized_absolute cwd -> normalized_absolute t ->
  access_of (profile_entries p) t cwd <> NoAccess ->
  access_of (profile_entries (intersect p p cwd)) t cwd = access_of (profile_entries p) t cwd
  \/ denies_part p (profile_entries p) t cwd.
Proof.
  intros Hp Hc Ht. rewrite intersect_entries. unfold AccessUnionFacts.denies_part.
  unfold profile_wf in Hp. rewrite <- (file_system_of_entries p) in Hp |- *.
  destruct (file_system p) as [fs|] eqn:Ef;
    [|unfold file_system_of; rewrite Ef; simpl; by rewrite nothing_opened].
  replace (file_system_of p) with fs in * by (unfold file_system_of; by rewrite Ef).
  destruct (access_decided H (perm_entries fs) t cwd Ht) as [[_ ->]|(e & He & ->)]; [done|]. intros Hm.
  assert (Hd : matcher_denies H build_glob_matcher fs cwd (resolved_path e)
               \/ ~ matcher_denies H build_glob_matcher fs cwd (resolved_path e)).
  { unfold matcher_denies. destruct (new_read_deny_matcher _ _ _ _) as [m|] eqn:Em.
    - destruct (is_read_denied H m (resolved_path e)) eqn:Ed; [left; by exists m|].
      right. intros (m' & ? & ?). simplify_eq. congruence.
    - right. by intros (m' & ? & _). }
  destruct Hd as [Hd|Hd]; [right; exists e; by destruct He|left].
  apply decided_access; [done..|]. pose proof He as Hself. destruct He as [He Hdom].
  pose proof He as [Her Hep]%around_spec.
  assert (Hq : normalized_absolute (resolved_path e)).
  { eapply (resolved_normalized H (restricted (perm_entries fs)) cwd cwd);
      [exact Hp|by apply absolute_of_normalized|exact Her]. }
  apply (decides_between H _ (resolved_path e)) in Hself; [|done..].
  apply (decided_access H _ _ _ _ Hq) in Hself. split.
  - apply around_spec. split; [|done]. apply out_resolved; try done. left.
    apply accepted_resolved; try done. split_and!; [done..|].
    rewrite Hself. by destruct (resolved_access e).
  - rewrite Forall_forall in Hdom |- *. intros f [Hf Hfp]%around_spec. apply Hdom, around_spec.
    split; [|done]. apply out_resolved in Hf as [Hf|[Hf|Hf]]; try done.
    + by apply accepted_resolved in Hf as [Hf _].
    + by apply retained_resolved in Hf as [Hf _].
    + by apply retained_resolved in Hf as [Hf _].
Qed.

Lemma preapproved_within (effective granted : AdditionalPermissionProfile) (t cwd : str) :
  profile_wf effective -> profile_wf granted -> normalized_absolute cwd -> normalized_absolute t ->
  permissions_are_preapproved H build_glob_matcher effective granted cwd = true ->
  let runs := access_of (profile_entries effective) t cwd in
  let given := access_of (profile_entries granted) t cwd in
  (runs <> NoAccess -> given <> NoAccess \/ denies_part effective (profile_entries effective) t cwd)
  /\ (runs = Write -> given = Write \/ denies_part effective (profile_entries effective) t cwd
                     \/ denies_part effective (profile_entries granted) t cwd)
  /\ (network_granted (network effective) = true -> network_granted (network granted) = true).
Proof.
  intros He Hg Hc Ht Hpre runs given. unfold permissions_are_preapproved in Hpre.
  pose proof (profile_eqb_network _ _ Hpre) as Hn. rewrite !intersect_network in Hn.
  apply profile_eqb_entries in Hpre.
  assert (Hsame : access_of (profile_entries (intersect effective granted cwd)) t cwd
                  = access_of (profile_entries (intersect effective effective cwd)) t cwd).
  { apply same_access; [done..|]. intros e. apply entries_eqb_resolved; [by apply intersect_wf..|done]. }
  pose proof (intersect_within H build_glob_matcher effective granted cwd cwd t He Hg Hc Hc Ht) as Hw.
  split_and!.
  - intros Hr. destruct (self_intersect effective t cwd He Hc Ht Hr) as [Hs|]; [left|by right].
    apply Hw. by rewrite Hsame, Hs.
  - intros Hr. destruct (self_intersect effective t cwd He Hc Ht) as [Hs|]; [by fold runs; rewrite Hr| |by right; left].
    assert (Hboth : access_of (profile_entries (intersect effective granted cwd)) t cwd = Write)
      by by rewrite Hsame, Hs.
    destruct Hw as (_ & _ & Hww); [by rewrite Hboth|].
    destruct (Hww Hboth) as [_ [|]]; [by left|by right; right].
  - intros Hr. rewrite Hr in Hn. simpl in Hn. by destruct (network_granted (network granted)).
Qed.

(** ** What is kept of the answers *)

Definition answer_wf (a : Answer) : Prop :=
  profile_wf (answered_request a) /\ profile_wf (answer a) /\ normalized_absolute (answered_cwd a).

(** What an answer grants of its request. *)
Definition part (a : Answer) : AdditionalPermissionProfile :=
  intersect (answered_request a) (answer a) (answered_cwd a).

Definition answer_network (a : Answer) : bool :=
  network_granted (network (answered_request a)) && network_granted (network (answer a)).

(** The request and the answer both open a path, for reading at least. *)
Definition answer_opens (a : Answer) (t : str) : Prop :=
  access_of (profile_entries (answered_request a)) t (answered_cwd a) <> NoAccess
  /\ access_of (profile_entries (answer a)) t (answered_cwd a) <> NoAccess.

(** They both open it for writing, but for two exceptions: a part that the request names
    for reading below a folder that it names for writing ([reading_part_lost]), and a
    folder of the answer that the request denies. *)
Definition answer_writes (a : Answer) (t : str) : Prop :=
  let asked := access_of (profile_entries (answered_request a)) t (answered_cwd a) in
  let given := access_of (profile_entries (answer a)) t (answered_cwd a) in
  (asked = Write \/ read_only_part H (profile_entries (answered_request a)) t (answered_cwd a))
  /\ (given = Write \/ denies_part (answered_request a) (profile_entries (answer a)) t (answered_cwd a)).

Definition answers_for (a : Answer) (t : str) (m : FileSystemAccessMode) : Prop :=
  answer_opens a t /\ (m = Write -> answer_writes a t).

(** A grant is made of parts of answers, each of which it keeps whole. *)
Definition supported (answers : list Answer) (p : option AdditionalPermissionProfile) : Prop :=
  entries_wf (added_entries p)
  /\ (added_network p = true -> exists a, a ∈ answers /\ answer_network a = true)
  /\ forall cwd e, normalized_absolute cwd ->
       e ∈ resolved_entries_with_cwd H (restricted (added_entries p)) cwd ->
       exists a, a ∈ answers
         /\ e ∈ resolved_entries_with_cwd H (restricted (profile_entries (part a))) cwd
         /\ forall f, f ∈ resolved_entries_with_cwd H (restricted (profile_entries (part a))) cwd ->
              f ∈ resolved_entries_with_cwd H (restricted (added_entries p)) cwd.

Lemma supported_nothing (answers : list Answer) (p : option AdditionalPermissionProfile) :
  added_entries p = [] -> added_network p = false -> supported answers p.
Proof.
  intros E N. unfold supported. rewrite E, N. split_and!; [by apply Forall_nil|done|].
  intros cwd e _ He. by apply not_elem_of_nil in He.
Qed.

Lemma supported_more (answers more : list Answer) (p : option AdditionalPermissionProfile) :
  supported answers p -> supported (answers ++ more) p.
Proof.
  intros (Hw & Hn & Hs). split_and!; [done| |].
  - intros Hp. destruct (Hn Hp) as (a & Ha & ?). exists a. split; [|done]. apply elem_of_app. by left.
  - intros cwd e Hc He. destruct (Hs cwd e Hc He) as (a & Ha & ?). exists a. split; [|done].
    apply elem_of_app. by left.
Qed.

Lemma supported_part (answers : list Answer) (a : Answer) :
  answer_wf a -> a ∈ answers -> supported answers (Some (part a)).
Proof.
  intros (Hr & Hg & Hc) Ha. split_and!.
  - by apply intersect_wf.
  - cbn [added_network]. unfold part. rewrite intersect_network. by exists a.
  - intros cwd e _ He. by exists a.
Qed.

Lemma supported_merge (answers : list Answer) (p q : option AdditionalPermissionProfile) :
  supported answers p -> supported answers q -> supported answers (merge_permission_profiles p q).
Proof.
  intros (Hpw & Hpn & Hps) (Hqw & Hqn & Hqs). split_and!.
  - by apply merge_wf.
  - rewrite merge_network. intros [Hn|Hn]%orb_true_iff; auto.
  - intros cwd e Hc. rewrite merge_resolved by done. intros [He|He].
    + destruct (Hps cwd e Hc He) as (a & Ha & Hea & Hf). exists a. split_and!; [done..|].
      intros f Hfa. rewrite merge_resolved by done. auto.
    + destruct (Hqs cwd e Hc He) as (a & Ha & Hea & Hf). exists a. split_and!; [done..|].
      intros f Hfa. rewrite merge_resolved by done. auto.
Qed.

(** What a supported grant opens, an answer and its request open. *)
Lemma supported_opens (answers : list Answer) (p : option AdditionalPermissionProfile) (t cwd : str) :
  Forall answer_wf answers -> supported answers p -> normalized_absolute cwd -> normalized_absolute t ->
  access_of (added_entries p) t cwd <> NoAccess ->
  exists a, a ∈ answers /\ answers_for a t (access_of (added_entries p) t cwd).
Proof.
  intros Hwf (_ & _ & Hs) Hc Ht Hm.
  destruct (access_decided H (added_entries p) t cwd Ht) as [[_ Hn]|(e & He & Hea)]; [done|].
  rewrite Hea in Hm |- *.
  pose proof He as [[Her Hep]%around_spec Hdom].
  destruct (Hs cwd e Hc Her) as (a & Ha & Hpart & Hsub). exists a. split; [done|].
  rewrite Forall_forall in Hwf. destruct (Hwf _ Ha) as (Hr & Hg & Hac).
  assert (Hpa : access_of (profile_entries (part a)) t cwd = resolved_access e).
  { apply decided_access; [done..|]. split; [by apply around_spec|].
    rewrite Forall_forall in Hdom |- *. intros f [Hf Hfp]%around_spec. apply Hdom, around_spec.
    split; [by apply Hsub|done]. }
  rewrite <- Hpa in Hm |- *. unfold answers_for, answer_opens, answer_writes.
  destruct (intersect_within H build_glob_matcher (answered_request a) (answer a) (answered_cwd a) cwd t)
    as (? & ? & ?); by auto.
Qed.

(** ** The grants of a session *)

Definition grants_supported (answers : list Answer) (w : World) : Prop :=
  supported answers (session_granted_permissions w)
  /\ (forall t s, turns w !! t = Some s -> supported answers (granted_permissions s))
  /\ (forall k r o, tasks w !! k = Some (Recording r o) ->
       profile_is_empty (permissions r) = true \/ supported answers (Some (permissions r))).

Lemma grants_supported_more (answers more : list Answer) (w : World) :
  grants_supported answers w -> grants_supported (answers ++ more) w.
Proof.
  intros (Hs & Ht & Hr). split_and!; [by apply supported_more| |].
  - intros t s E. by eapply supported_more, Ht.
  - intros k r o E. destruct (Hr k r o E); [by left|right; by apply supported_more].
Qed.

Lemma normalized_supported (answers : list Answer) (a : Answer) (response : RequestPermissionsResponse) :
  answer_wf a -> a ∈ answers -> answer a = permissions response ->
  let r := normalize_request_permissions_response H build_glob_matcher (answered_request a) response
             (answered_cwd a) in
  profile_is_empty (permissions r) = true \/ supported answers (Some (permissions r)).
Proof.
  intros Hw Ha E r. subst r. unfold normalize_request_permissions_response.
  destruct (strict_auto_review response && _); [by left|].
  destruct (profile_is_empty (permissions response)) eqn:Hn; [by left|]. right.
  cbn [permissions]. rewrite <- E. by apply supported_part.
Qed.

Lemma record_supported (answers : list Answer) (w : World) (response : RequestPermissionsResponse)
    (origin : option nat) :
  grants_supported answers w ->
  profile_is_empty (permissions response) = true \/ supported answers (Some (permissions response)) ->
  grants_supported answers (record_granted_request_permissions_for_turn response origin w).
Proof.
  intros (Hs & Ht & Hr) Hresp. unfold record_granted_request_permissions_for_turn.
  destruct (profile_is_empty (permissions response)); [done|].
  destruct Hresp as [|Hresp]; [done|]. destruct (scope response).
  - destruct origin as [t|]; [|done]. destruct (turns w !! t) as [s|] eqn:Et; [|done].
    split_and!; [done| |done]. cbn [turns with_turn].
    intros t' s' [[<- <-]|[_ E]]%lookup_insert_Some; [|by eapply Ht].
    apply supported_merge; [by eapply Ht|done].
  - split_and!; [|done..]. by apply supported_merge.
Qed.

Lemma step_supported (answers : list Answer) (w w' : World) (label : option Answer) :
  grants_supported answers w -> step H build_glob_matcher w label w' ->
  Forall answer_wf (answers ++ option_list label) ->
  grants_supported (answers ++ option_list label) w'.
Proof.
  intros Hg Hstep Hwf. apply (grants_supported_more _ (option_list label)) in Hg.
  set (all := answers ++ option_list label) in *.
  destruct Hstep as [t E _| |t s E|policy t s call_id requested cwd _ _ E|t s call_id _ E
    |k t s call_id requested cwd response Ek _ E Ep|policy k requested cwd _ Ek
    |k requested cwd origin decision Ek|k requested cwd origin Ek|k response origin Ek];
    destruct Hg as (Hs & Ht & Hr).
  all: try (split_and!; [done| |done]; cbn [turns with_turn with_active];
            intros t' s' [[<- <-]|[_ E']]%lookup_insert_Some; [|by eapply Ht];
            first [by apply supported_nothing|exact (Ht _ _ E)]).
  - done.
  - split_and!; [done| |].
    + cbn [turns with_turn with_tasks].
      intros t' s' [[<- <-]|[_ E']]%lookup_insert_Some; [exact (Ht _ _ E)|by eapply Ht].
    + cbn [tasks with_turn with_tasks].
      intros k' r o [[<- [= <- <-]]|[_ E']]%lookup_insert_Some; [|by eapply Hr].
      set (a := Build_Answer requested (permissions response) cwd) in *.
      assert (Ha : a ∈ all) by (apply elem_of_app; right; by left).
      apply (normalized_supported all a); [|done..]. rewrite Forall_forall in Hwf. by apply Hwf.
  - split_and!; [done..|]. cbn [tasks with_tasks].
    intros k' r o [[<- ?]|[_ E']]%lookup_insert_Some; [done|by eapply Hr].
  - split_and!; [done..|]. cbn [tasks with_tasks].
    intros k' r o [[<- [= <- <-]]|[_ E']]%lookup_insert_Some; [|by eapply Hr].
    set (response := review_response decision requested) in *.
    set (a := Build_Answer requested (permissions response) cwd) in *.
    assert (Ha : a ∈ all) by (apply elem_of_app; right; by left).
    apply (normalized_supported all a); [|done..]. rewrite Forall_forall in Hwf. by apply Hwf.
  - split_and!; [done..|]. cbn [tasks with_tasks].
    intros k' r o [_ E']%lookup_delete_Some. by eapply Hr.
  - destruct (record_supported all w response origin) as (Hs' & Ht' & _); [done|by eapply Hr|].
    split_and!; [done..|]. cbn [tasks with_tasks].
    intros k' r o [_ E']%lookup_delete_Some. by eapply Hr.
Qed.

Lemma reachable_supported (answers : list Answer) (w : World) :
  reachable H build_glob_matcher answers w -> Forall answer_wf answers -> grants_supported answers w.
Proof.
  induction 1 as [|answers w label w' Hw IH Hstep]; intros Hwf.
  - split_and!; [by apply supported_nothing|by intros|by intros].
  - pose proof Hwf as [Hwf' _]%Forall_app. eapply step_supported; [by apply IH|done..].
Qed.

Lemma session_supported (answers : list Answer) (w : World) :
  reachable H build_glob_matcher answers w -> Forall answer_wf answers ->
  supported answers (granted_session_permissions w) /\ supported answers (granted_turn_permissions w).
Proof.
  intros Hw Hwf. destruct (reachable_supported _ _ Hw Hwf) as (Hs & Ht & _). split; [done|].
  unfold granted_turn_permissions.
  destruct (active_turn w) as [t|]; [simpl|by apply supported_nothing].
  destruct (turns w !! t) as [s|] eqn:E; [simpl; by eapply Ht|by apply supported_nothing].
Qed.


(** ** The permissions of a command *)

Section Calls.
Context (debug_policy : AskForApproval -> str).
Context (exec_permission_approvals request_permissions_tool : bool).

(** Both tools come to this. *)
Definition runs_with (policy : AskForApproval) (level : ExecutionPermissionLevel)
    (requested : option AdditionalPermissionProfile) (effective : EffectiveAdditionalPermissions)
    (p : option AdditionalPermissionProfile) : Prop :=
  shell_permissions H debug_policy exec_permission_approvals request_permissions_tool policy level
    requested effective = Ok p
  \/ unified_exec_permissions H debug_policy exec_permission_approvals request_permissions_tool policy
       level requested effective = Ok p.

Lemma runs_with_spec policy level requested effective p :
  runs_with policy level requested effective p <->
  command_permissions H debug_policy exec_permission_approvals request_permissions_tool policy level
    requested effective = Ok p
  /\ escalation_rejected policy effective = false.
Proof.
  unfold runs_with, shell_permissions, unified_exec_permissions.
  destruct (command_permissions _ _ _ _ _ _ _ _) as [q|m|x] eqn:E, (escalation_rejected policy effective);
    simpl; naive_solver.
Qed.

(** Without a question to the user, permissions come from what is approved already. *)
Lemma unasked_preapproved (policy : AskForApproval) (level : ExecutionPermissionLevel)
    (requested session turn : option AdditionalPermissionProfile) (cwd : str)
    (p : AdditionalPermissionProfile) :
  let effective := apply_granted_turn_permissions H build_glob_matcher session turn cwd level requested in
  is_on_request policy = false -> runs_with policy level requested effective (Some p) ->
  exists full granted,
    additional_permissions effective = Some full
    /\ merge_permission_profiles session turn = Some granted
    /\ merge_permission_profiles requested (Some granted) = Some full
    /\ permissions_are_preapproved H build_glob_matcher full granted cwd = true
    /\ (p = full
        \/ implicit_granted_permissions level requested effective = None
           /\ normalize_additional_permissions H full = Ok p).
Proof.
  intros effective Hask [Hc Hrej]%runs_with_spec.
  assert (Hpre : permissions_preapproved effective = true).
  { apply not_false_iff_true. intros Hno.
    unfold escalation_rejected in Hrej. rewrite Hno, Hask in Hrej. simpl in Hrej. rewrite !andb_true_r in Hrej.
    unfold command_permissions in Hc. destruct (implicit_granted_permissions _ _ _) as [q|] eqn:Ei.
    - unfold implicit_granted_permissions in Ei. destruct (_ && _ && _) eqn:El; [|done].
      rewrite !andb_true_iff, !negb_true_iff in El. destruct El as [[Hu Hq] _].
      subst effective. unfold apply_granted_turn_permissions in Ei, Hrej. rewrite Hq in Ei, Hrej.
      cbn [additional_permissions permission_level] in Ei, Hrej. by rewrite Ei, Hu in Hrej.
    - unfold normalize_and_validate_additional_permissions in Hc.
      assert (uses_additional_permissions (permission_level effective) = false) as Hu
        by by destruct (permission_level effective).
      rewrite Hu in Hc. by repeat case_match. }
  assert (Hlevel : requires_escalated_permissions level = false).
  { subst effective. unfold apply_granted_turn_permissions in Hpre. by destruct (requires_escalated_permissions level). }
  assert (Hfull : exists full granted, additional_permissions effective = Some full
    /\ merge_permission_profiles session turn = Some granted
    /\ merge_permission_profiles requested (Some granted) = Some full
    /\ permissions_are_preapproved H build_glob_matcher full granted cwd = true).
  { subst effective. unfold apply_granted_turn_permissions in Hpre |- *. rewrite Hlevel in Hpre |- *.
    cbn [additional_permissions permissions_preapproved] in Hpre |- *.
    destruct (merge_permission_profiles session turn) as [granted|]; [|by case_match].
    destruct (merge_permission_profiles requested (Some granted)) as [full|] eqn:Ef; [|done].
    by exists full, granted. }
  destruct Hfull as (full & granted & Hf & Hg & Hm & Hp). exists full, granted.
  split_and!; [done..|]. unfold command_permissions in Hc.
  destruct (implicit_granted_permissions _ _ _) as [q|] eqn:Ei.
  - left. unfold implicit_granted_permissions in Ei. case_match; [|done]. congruence.
  - right. split; [done|]. unfold normalize_and_validate_additional_permissions in Hc. rewrite Hpre, Hf in Hc.
    simpl in Hc. case_match; [|done].
    apply bind_Ok in Hc as (normalized & Hn & Hc). case_match; [done|]. by simplify_eq.
Qed.

(** What is approved already opens what was answered, but where the profile denies the
    folder that it opens. *)
Lemma approved_within (answers : list Answer) (requested : option AdditionalPermissionProfile)
    (granted full : AdditionalPermissionProfile) (t cwd : str) :
  Forall answer_wf answers -> supported answers (Some granted) -> entries_wf (added_entries requested) ->
  merge_permission_profiles requested (Some granted) = Some full ->
  permissions_are_preapproved H build_glob_matcher full granted cwd = true ->
  normalized_absolute cwd -> normalized_absolute t ->
  (let m := access_of (profile_entries full) t cwd in
   m <> NoAccess ->
   denies_part full (profile_entries full) t cwd \/ exists a, a ∈ answers /\ answers_for a t m)
  /\ (network_granted (network full) = true -> exists a, a ∈ answers /\ answer_network a = true).
Proof.
  intros Hwf Hsup Hreq Hm Hp Hc Ht.
  pose proof (merge_wf requested (Some granted)) as Hfw. rewrite Hm in Hfw.
  assert (Hgw : profile_wf granted) by by destruct Hsup as (? & _).
  destruct (preapproved_within full granted t cwd) as (Hr & Hw & Hn); [by apply Hfw|done..|].
  assert (Hden : denies_part full (profile_entries granted) t cwd ->
                 denies_part full (profile_entries full) t cwd).
  { intros (f & [Hf1 Hf2]%around_spec & Hf3). exists f. split; [|done]. apply around_spec. split; [|done].
    pose proof (merge_resolved H requested (Some granted) cwd f Hc Hreq Hgw) as Hres.
    rewrite Hm in Hres. apply Hres. by right. }
  split.
  - intros m Hne. pose proof (supported_opens _ _ t cwd Hwf Hsup Hc Ht) as Hopen.
    cbn [added_entries] in Hopen. set (given := access_of (profile_entries granted) t cwd) in *.
    destruct (Hr Hne) as [Hgiven|]; [|by left].
    destruct (decide (m = Write)) as [Hmw|Hmw].
    + destruct (Hw Hmw) as [Hgw'|[|]]; [right|by left|left; by apply Hden].
      rewrite Hmw, <- Hgw'. by apply Hopen.
    + right. destruct (Hopen Hgiven) as (a & Ha & Ha1 & _). exists a. by split_and!.
  - intros Hnf. destruct Hsup as (_ & Hsn & _). apply Hsn. by apply Hn.
Qed.

(** A path is at a folder or below it, or below the canonical form of the folder's path. *)
Definition reached_from (q t : str) : Prop :=
  exists c, (c = q \/ normalize_entry_path H (Path q) = Path c) /\ components c `prefix_of` components t.

(** What the normal form of a profile opens, the profile opens at the folder that it names,
    or denies there. *)
Lemma normal_form_opens (full p : AdditionalPermissionProfile) (t cwd : str) :
  profile_wf full -> normalize_additional_permissions H full = Ok p ->
  normalized_absolute cwd -> normalized_absolute t ->
  let m := access_of (profile_entries p) t cwd in
  m <> NoAccess ->
  exists q, normalized_absolute q /\ reached_from q t
    /\ let n := access_of (profile_entries full) q cwd in n <> NoAccess -> m = Write -> n = Write.
Proof.
  intros Hf Hn Hc Ht m Hm. pose proof (normalize_outcome H full) as Hout. rewrite Hn in Hout.
  destruct Hout as (_ & Hin & _).
  destruct (access_decided H (profile_entries p) t cwd Ht) as [[_ E]|(e & [He _] & Hea)]; [done|].
  apply around_spec in He as [(y & Hy & Hr & Ha)%resolved_spec Hp]; [|done].
  destruct (Hin y Hy) as (x & Hx & ->). cbn [entry_path access entry] in Hr, Ha.
  assert (exists q, resolve_entry_path H (entry_path x) (Some cwd) = Some q /\ reached_from q t)
    as (q & Hq & Hqt).
  { destruct (entry_path x) as [q|g|k] eqn:Ep; cbn [normalize_entry_path] in Hr.
    2,3: exists (resolved_path e); split; [done|]; eexists; split; [by left|done].
    exists q. split; [done|]. injection Hr as Hr.
    eexists; split; [by right|]. by rewrite Hr. }
  assert (Hqn : normalized_absolute q).
  { eapply (resolved_normalized H (restricted (profile_entries full)) cwd cwd
             {| resolved_path := q; resolved_access := access x |}); [done|by apply absolute_of_normalized|].
    apply resolved_spec; [done|]. by exists x. }
  exists q. split_and!; [done..|]. intros n Hne Hw.
  set (g := {| resolved_path := q; resolved_access := access x |}).
  assert (Hg : g ∈ covering H (restricted (profile_entries full)) q cwd).
  { apply around_spec. split; [|done]. apply resolved_spec; [done|]. by exists x. }
  destruct (access_decided H (profile_entries full) q cwd Hqn) as [[Hnil _]|(d & Hd & Hda)].
  { rewrite Hnil in Hg. by apply not_elem_of_nil in Hg. }
  subst n. rewrite Hda in Hne |- *. pose proof Hd as [[_ Hdp%prefix_length]%around_spec _].
  pose proof (decides_rank _ _ _ _ _ _ Hd Hg) as Hrank. unfold specificity, g in Hrank.
  cbn [resolved_path resolved_access] in Hrank.
  assert (access x = Write) as Hxw by (rewrite <- Ha, <- Hea; exact Hw). rewrite Hxw in Hrank.
  destruct (resolved_access d); [simpl in Hrank; lia|done..].
Qed.

(** The permissions that a command puts together deny a folder, or one of them that opens
    something around it: what they deny is not compared with the grants. *)
Definition self_denied (full : AdditionalPermissionProfile) (q cwd : str) : Prop :=
  access_of (profile_entries full) q cwd = NoAccess
  \/ denies_part full (profile_entries full) q cwd.


(** What the session and the turn were granted, a command without a request of its own
    runs with, under every policy. *)
Theorem grants_reach_commands (policy : AskForApproval) (session turn : option AdditionalPermissionProfile)
    (cwd : str) (granted : AdditionalPermissionProfile) :
  merge_permission_profiles session turn = Some granted -> profile_is_empty granted = false ->
  let effective := apply_granted_turn_permissions H build_glob_matcher session turn cwd UseDefault None in
  shell_permissions H debug_policy exec_permission_approvals request_permissions_tool policy UseDefault
    None effective = Ok (Some granted)
  /\ unified_exec_permissions H debug_policy exec_permission_approvals request_permissions_tool policy
       UseDefault None effective = Ok (Some granted)
  /\ permissions_preapproved effective = true.
Proof.
  intros Hg Hne effective.
  assert (He : effective = {| permission_level := WithAdditionalPermissions;
                              additional_permissions := Some granted; permissions_preapproved := true |}).
  { subst effective. unfold apply_granted_turn_permissions. simpl. rewrite Hg. simpl. rewrite Hne. simpl.
    f_equal. apply profile_eqb_refl. }
  rewrite He. by unfold shell_permissions, unified_exec_permissions, command_permissions.
Qed.

End Calls.
End OnHost.
End AccessGrantsFacts.

(** * Examples *)

Module AccessGrantsExamples.
Import AccessTransformsFacts AccessUnionFacts AccessGrantsFacts.

Definition no_globs : str -> option (str -> bool) := fun _ => None.

Definition opens (es : list (string * FileSystemAccessMode)) : AdditionalPermissionProfile :=
  {| network := None;
     file_system := Some {| perm_entries := map (fun '(p, m) => entry (Path (lit p)) m) es;
                            perm_depth := None |} |}.

Definition both (requested granted : AdditionalPermissionProfile) : AdditionalPermissionProfile :=
  intersect_permission_profiles demo_host no_globs requested granted (lit "/w").

Definition access_at (p : AdditionalPermissionProfile) (path : string) : FileSystemAccessMode :=
  access_of demo_host (profile_entries p) (lit path) (lit "/w").

(** A folder that a request names for reading, below one for writing, is written to when
    the grant names only the folder above: the entry for reading is lost. *)
Example reading_part_lost :
  let requested := opens [("/w", Write); ("/w/ref", Read)]%string in
  let granted := opens [("/w", Write)]%string in
  access_at requested "/w/ref/a" = Read /\ access_at (both requested granted) "/w/ref/a" = Write.
Proof. by vm_compute. Qed.

(** What a call asks for is not seen as granted when the grants list it in another order. *)
Example order_of_grants_matters :
  let granted := opens [("/a", Write); ("/b", Write)]%string in
  let requested := opens [("/b", Write)]%string in
  let full := opens [("/b", Write); ("/a", Write)]%string in
  merge_permission_profiles (Some requested) (Some granted) = Some full
  /\ permissions_are_preapproved demo_host no_globs full granted (lit "/w") = false
  /\ permissions_are_preapproved demo_host no_globs granted granted (lit "/w") = true.
Proof. by vm_compute. Qed.

(** What a command denies is not compared: a request that denies a folder and opens a part
    of it for writing counts as granted, whatever was granted, and the part is opened. *)
Example denied_folder_opens :
  let granted := opens [("/w", Write)]%string in
  let requested := opens [("/etc", NoAccess); ("/etc/cron.d", Write)]%string in
  let full := opens [("/etc", NoAccess); ("/etc/cron.d", Write); ("/w", Write)]%string in
  access_at full "/etc/cron.d/job" = Write /\ access_at granted "/etc/cron.d/job" = NoAccess
  /\ shell_permissions demo_host (fun _ => []) true false Never WithAdditionalPermissions
       (Some requested)
       (apply_granted_turn_permissions demo_host no_globs (Some granted) None (lit "/w")
          WithAdditionalPermissions (Some requested)) = Ok (Some full).
Proof. by vm_compute. Qed.

(** Asking for reading takes away the writing that the policy allows. *)
Example added_reading_takes_writing :
  let base := restricted [entry (Path (lit "/w")) Write] in
  let added := opens [("/w/doc", Read)]%string in
  resolve_access_with_cwd demo_host base (lit "/w/doc/a") (lit "/w") = Write
  /\ resolve_access_with_cwd demo_host (effective_file_system_access_policy base (Some added))
       (lit "/w/doc/a") (lit "/w") = Read.
Proof. by vm_compute. Qed.

(** ** Witnesses *)

Lemma demo_names (names : list string) :
  forallb (fun n => let s := lit n in
             negb (str_eqb s []) && negb (str_eqb s DOT) && negb (str_eqb s DOTDOT)
             && negb (contains_char SLASH s)) names = true ->
  normalized_absolute (render_abs (map lit names)).
Proof.
  intros Hn. exists (map lit names). split; [|done]. rewrite Forall_forall. intros s Hs.
  apply list_elem_of_fmap in Hs as (n & -> & Hin). rewrite forallb_forall in Hn.
  apply list_elem_of_In in Hin. specialize (Hn n Hin).
  rewrite !andb_true_iff, !negb_true_iff in Hn. destruct Hn as [[[H1 H2] H3] H4].
  apply str_eqb_neq in H1, H2, H3. apply contains_char_false in H4. by split_and!.
Qed.

Lemma demo_w : normalized_absolute (lit "/w").
Proof. exact (demo_names ["w"]%string eq_refl). Qed.

Lemma demo_wa : normalized_absolute (lit "/w/a").
Proof. exact (demo_names ["w"; "a"]%string eq_refl). Qed.

Definition demo_profile : AdditionalPermissionProfile := opens [("/w", Write)]%string.

Lemma demo_profile_wf : profile_wf demo_profile.
Proof. apply Forall_singleton, demo_w. Qed.

Lemma intersection_bounded_witness :
  access_at (both demo_profile demo_profile) "/w/a" = Write
  /\ access_at demo_profile "/w/a" <> NoAccess.
Proof.
  split; [by vm_compute|].
  destruct (intersection_bounded demo_host no_globs demo_profile demo_profile (lit "/w") (lit "/w") (lit "/w/a")
              demo_profile_wf demo_profile_wf demo_w demo_w demo_wa) as (Hb & _).
  apply Hb. by vm_compute.
Defined.

Lemma effective_profile_is_union_witness :
  exists effective,
    effective_permission_profile demo_host read_only_profile (Some demo_profile) = Ok effective
    /\ is_enabled (network_access_policy effective) = false.
Proof.
  destruct (effective_profile_is_union demo_host read_only_profile (Some demo_profile) (lit "/w/a") (lit "/w"))
    as (effective & Hok & Hn & _).
  - by apply Forall_singleton.
  - exact demo_profile_wf.
  - exact demo_w.
  - exact demo_wa.
  - by exists effective.
Defined.

(** A turn in which the user grants what was asked for the whole session. *)
Definition demo_answer : Answer :=
  {| answered_request := demo_profile; answer := demo_profile; answered_cwd := lit "/w" |}.

Definition demo_response : RequestPermissionsResponse :=
  {| permissions := demo_profile; scope := GrantSession; strict_auto_review := false |}.

Definition demo_turn : TurnState :=
  {| pending_request_permissions := {[ lit "call" := (demo_profile, lit "/w") ]};
     granted_permissions := None; strict_auto_review_enabled := false |}.

Definition demo_world (granted : option AdditionalPermissionProfile) (s : TurnState) (ts : gmap nat Task)
    : World :=
  {| session_granted_permissions := granted; turns := {[ 0 := s ]}; active_turn := Some 0; tasks := ts |}.

Lemma demo_run :
  reachable demo_host no_globs [demo_answer] (demo_world (Some demo_profile) new_turn_state ∅).
Proof.
  pose proof (reachable_initial demo_host no_globs) as R.
  pose proof (reachable_step _ _ _ _ _ _ R (step_start _ _ initial 0 eq_refl eq_refl)) as R1.
  match type of R1 with reachable _ _ _ ?w =>
    pose proof (reachable_step _ _ _ _ _ _ R1 (step_ask _ _ w OnRequest 0 new_turn_state (lit "call")
                  demo_profile (lit "/w") eq_refl eq_refl eq_refl)) as R2 end.
  match type of R2 with reachable _ _ _ ?w =>
    pose proof (reachable_step _ _ _ _ _ _ R2 (step_answer _ _ w 0 0 demo_turn (lit "call") demo_profile
                  (lit "/w") demo_response eq_refl eq_refl eq_refl eq_refl)) as R3 end.
  match type of R3 with reachable _ _ _ ?w =>
    pose proof (reachable_step _ _ _ _ _ _ R3 (step_record _ _ w 0 _ _ eq_refl)) as R4 end.
  exact R4.
Qed.

Lemma demo_answers_wf : Forall answer_wf [demo_answer].
Proof. apply Forall_singleton. split_and!; [apply demo_profile_wf..|apply demo_w]. Qed.



Lemma grants_reach_commands_witness :
  permissions_preapproved
    (apply_granted_turn_permissions demo_host no_globs (Some demo_profile) None (lit "/w") UseDefault None)
  = true.
Proof.
  apply (grants_reach_commands demo_host no_globs (fun _ => []) false false Never (Some demo_profile) None
           (lit "/w") demo_profile eq_refl eq_refl).
Defined.

End AccessGrantsExamples.
