(* ===== verification/ProcessTable.v ===== *)
(** * The buffer of a process's output: src/core/src/unified_exec/head_tail_buffer.rs

    A running command may print without end; the buffer keeps the first bytes and the last
    ones and drops the middle. Counters are of 64 bits and saturate. *)

From Stdlib Require Import Ascii String.
From stdpp Require Import sorting.
From S2P Require Import Prelude RustStr ConfigToml Truncation.
Import Truncation.

Module HeadTailBuffer.

Abbreviation chunk := (list Byte.byte).

Definition chunk_len (c : chunk) : N := N.of_nat (length c).

(** [usize::saturating_add] *)
Definition sat_add (a b : N) : N := N.min USIZE_MAX (a + b).

Record HeadTailBuffer := {
  max_bytes : N;
  head_budget : N;
  tail_budget : N;
  head : list chunk;
  tail : list chunk;
  head_bytes : N;
  tail_bytes : N;
  omitted_bytes : N;
}.

Definition new (max_bytes : N) : HeadTailBuffer :=
  let head_budget := (max_bytes / 2)%N in {|
    max_bytes := max_bytes; head_budget := head_budget; tail_budget := max_bytes - head_budget;
    head := []; tail := []; head_bytes := 0; tail_bytes := 0; omitted_bytes := 0
  |}.

Definition retained_bytes (b : HeadTailBuffer) : N := sat_add (head_bytes b) (tail_bytes b).

Definition with_head (chunks : list chunk) (n : N) (b : HeadTailBuffer) : HeadTailBuffer := {|
  max_bytes := max_bytes b; head_budget := head_budget b; tail_budget := tail_budget b;
  head := chunks; tail := tail b; head_bytes := n; tail_bytes := tail_bytes b;
  omitted_bytes := omitted_bytes b
|}.

Definition with_tail (chunks : list chunk) (n omitted : N) (b : HeadTailBuffer) : HeadTailBuffer := {|
  max_bytes := max_bytes b; head_budget := head_budget b; tail_budget := tail_budget b;
  head := head b; tail := chunks; head_bytes := head_bytes b; tail_bytes := n;
  omitted_bytes := omitted
|}.

(** The loop of [trim_tail_to_budget]: the tail and the two counters. *)
Fixpoint trim_tail (chunks : list chunk) (excess tail_bytes omitted : N) : list chunk * N * N :=
  if (0 <? excess)%N then
    match chunks with
    | front :: rest =>
        if (chunk_len front <=? excess)%N
        then trim_tail rest (excess - chunk_len front) (tail_bytes - chunk_len front)
               (sat_add omitted (chunk_len front))
        else (drop (N.to_nat excess) front :: rest, tail_bytes - excess, sat_add omitted excess)%N
    | [] => ([], tail_bytes, omitted)
    end
  else (chunks, tail_bytes, omitted).

Definition trim_tail_to_budget (b : HeadTailBuffer) : HeadTailBuffer :=
  let '(chunks, n, omitted) :=
    trim_tail (tail b) (tail_bytes b - tail_budget b) (tail_bytes b) (omitted_bytes b) in
  with_tail chunks n omitted b.

Definition push_to_tail (c : chunk) (b : HeadTailBuffer) : HeadTailBuffer :=
  if (tail_budget b =? 0)%N
  then with_tail (tail b) (tail_bytes b) (sat_add (omitted_bytes b) (chunk_len c)) b
  else if (tail_budget b <=? chunk_len c)%N then
    let kept := drop (N.to_nat (chunk_len c - tail_budget b)) c in
    let dropped := (chunk_len c - chunk_len kept)%N in
    with_tail [kept] (chunk_len kept) (sat_add (sat_add (omitted_bytes b) (tail_bytes b)) dropped) b
  else
    trim_tail_to_budget
      (with_tail (tail b ++ [c]) (sat_add (tail_bytes b) (chunk_len c)) (omitted_bytes b) b).

Definition push_chunk (c : chunk) (b : HeadTailBuffer) : HeadTailBuffer :=
  if (max_bytes b =? 0)%N
  then with_tail (tail b) (tail_bytes b) (sat_add (omitted_bytes b) (chunk_len c)) b
  else if (head_bytes b <? head_budget b)%N then
    let remaining_head := (head_budget b - head_bytes b)%N in
    if (chunk_len c <=? remaining_head)%N
    then with_head (head b ++ [c]) (sat_add (head_bytes b) (chunk_len c)) b
    else
      let head_part := take (N.to_nat remaining_head) c in
      let tail_part := drop (N.to_nat remaining_head) c in
      let b := match head_part with
               | [] => b
               | _ => with_head (head b ++ [head_part]) (sat_add (head_bytes b) (chunk_len head_part)) b
               end in
      push_to_tail tail_part b
  else push_to_tail c b.

Definition snapshot_chunks (b : HeadTailBuffer) : list chunk := head b ++ tail b.

Definition to_bytes (b : HeadTailBuffer) : chunk := concat (head b) ++ concat (tail b).

Definition drain_chunks (b : HeadTailBuffer) : HeadTailBuffer * list chunk :=
  ({| max_bytes := max_bytes b; head_budget := head_budget b; tail_budget := tail_budget b;
      head := []; tail := []; head_bytes := 0; tail_bytes := 0; omitted_bytes := 0 |},
   head b ++ tail b).

End HeadTailBuffer.

(** * Facts about the buffer *)

Module HeadTailBufferFacts.
Import HeadTailBuffer.

(** The last bytes. *)
Definition lastn (n : N) (l : chunk) : chunk := drop (length l - N.to_nat n) l.

Lemma lastn_length n l : chunk_len (lastn n l) = N.min n (chunk_len l).
Proof. unfold chunk_len, lastn. rewrite length_drop. lia. Qed.

Lemma lastn_app_lastn n l c : lastn n (lastn n l ++ c) = lastn n (l ++ c).
Proof.
  unfold lastn. rewrite !length_app, length_drop.
  replace (l ++ c) with (take (length l - N.to_nat n) l ++ drop (length l - N.to_nat n) l ++ c)
    by (by rewrite app_assoc, take_drop).
  rewrite (drop_app _ _ (length l + length c - N.to_nat n)), length_take.
  rewrite (drop_ge (take _ _)) by (rewrite length_take; lia). simpl. f_equal. lia.
Qed.

Lemma lastn_long n l c : (n <= chunk_len c)%N -> lastn n (l ++ c) = lastn n c.
Proof.
  intros Hn. unfold lastn, chunk_len in *. rewrite length_app, drop_app.
  rewrite drop_ge by lia. simpl. f_equal. lia.
Qed.

Lemma trim_tail_spec (chunks : list chunk) (excess n omitted : N) :
  (excess <= chunk_len (concat chunks))%N -> (omitted <= USIZE_MAX)%N ->
  let '(chunks', n', omitted') := trim_tail chunks excess n omitted in
  concat chunks' = drop (N.to_nat excess) (concat chunks) /\ n' = (n - excess)%N
  /\ omitted' = sat_add omitted excess.
Proof.
  revert excess n omitted. induction chunks as [|front rest IH]; intros excess n omitted He Ho.
  - simpl in He. change (chunk_len []) with 0%N in He. assert (excess = 0%N) as -> by lia. simpl.
    split_and!; [done|lia|unfold sat_add; lia].
  - cbn [trim_tail]. destruct (0 <? excess)%N eqn:H0.
    2: { apply N.ltb_ge in H0. assert (excess = 0%N) as -> by lia.
         split_and!; [done|lia|unfold sat_add; lia]. }
    apply N.ltb_lt in H0. cbn [concat] in *. unfold chunk_len in He. rewrite length_app in He.
    destruct (chunk_len front <=? excess)%N eqn:Hf; unfold chunk_len in *.
    + apply N.leb_le in Hf.
      specialize (IH (excess - N.of_nat (length front)) (n - N.of_nat (length front))
                    (sat_add omitted (N.of_nat (length front))))%N.
      destruct (trim_tail _ _ _ _) as [[chunks' n'] omitted'].
      destruct IH as (-> & -> & ->); [lia|unfold sat_add; lia|]. split_and!; [|lia|unfold sat_add; lia].
      rewrite drop_app, (drop_ge front) by lia. simpl. f_equal. lia.
    + apply N.leb_gt in Hf. split_and!; [|done|done]. simpl. rewrite drop_app.
      by replace (N.to_nat excess - length front) with 0 by lia.
Qed.

(** What the buffer holds when [data] was put in. *)
Definition holds (max : N) (data : chunk) (b : HeadTailBuffer) : Prop :=
  let hb := (max / 2)%N in
  let tb := (max - hb)%N in
  max_bytes b = max /\ head_budget b = hb /\ tail_budget b = tb
  /\ concat (head b) = take (N.to_nat hb) data
  /\ concat (tail b) = lastn tb (drop (N.to_nat hb) data)
  /\ head_bytes b = chunk_len (concat (head b))
  /\ tail_bytes b = chunk_len (concat (tail b))
  /\ omitted_bytes b = N.min USIZE_MAX (chunk_len data - max).

Lemma push_to_tail_spec (c x : chunk) (b : HeadTailBuffer) :
  (tail_budget b + tail_budget b <= USIZE_MAX + 1)%N -> (0 < tail_budget b)%N ->
  concat (tail b) = lastn (tail_budget b) x -> tail_bytes b = chunk_len (concat (tail b)) ->
  omitted_bytes b = N.min USIZE_MAX (chunk_len x - tail_budget b) ->
  let b' := push_to_tail c b in
  concat (tail b') = lastn (tail_budget b) (x ++ c) /\ tail_bytes b' = chunk_len (concat (tail b'))
  /\ omitted_bytes b' = N.min USIZE_MAX (chunk_len (x ++ c) - tail_budget b)
  /\ head b' = head b /\ head_bytes b' = head_bytes b
  /\ max_bytes b' = max_bytes b /\ head_budget b' = head_budget b /\ tail_budget b' = tail_budget b.
Proof.
  intros Hmax Hpos Ht Hn Ho. unfold push_to_tail.
  assert (Hx : chunk_len (x ++ c) = (chunk_len x + chunk_len c)%N)
    by (unfold chunk_len; rewrite length_app; lia).
  rewrite (proj2 (N.eqb_neq _ _)) by lia. rewrite Ht, lastn_length in Hn.
  destruct (tail_budget b <=? chunk_len c)%N eqn:Hle; cbn.
  - apply N.leb_le in Hle. rewrite app_nil_r.
    assert (Hk : drop (N.to_nat (chunk_len c - tail_budget b)) c = lastn (tail_budget b) c).
    { unfold lastn, chunk_len. f_equal. lia. }
    rewrite Hk, lastn_long, lastn_length by done. split_and!; try done.
    rewrite Ho, Hn, Hx. unfold sat_add. lia.
  - apply N.leb_gt in Hle. unfold trim_tail_to_budget. cbn.
    assert (Hs : sat_add (tail_bytes b) (chunk_len c) = chunk_len (concat (tail b ++ [c]))).
    { rewrite concat_app. cbn. rewrite app_nil_r, Ht. unfold chunk_len. rewrite length_app.
      fold (chunk_len (lastn (tail_budget b) x)). unfold sat_add, chunk_len in *.
      pose proof (lastn_length (tail_budget b) x) as Hl. unfold chunk_len in Hl. lia. }
    pose proof (trim_tail_spec (tail b ++ [c]) (sat_add (tail_bytes b) (chunk_len c) - tail_budget b)
                  (sat_add (tail_bytes b) (chunk_len c)) (omitted_bytes b)) as Htrim.
    destruct (trim_tail _ _ _ _) as [[chunks n] omitted].
    destruct Htrim as (Hc & -> & ->); [lia|lia|]. cbn.
    assert (Hd : concat chunks = lastn (tail_budget b) (x ++ c)).
    { rewrite Hc, Hs. rewrite <- lastn_app_lastn, <- Ht, concat_app. cbn. rewrite app_nil_r.
      unfold lastn, chunk_len. f_equal. lia. }
    rewrite Hd, lastn_length. split_and!; try done.
    + rewrite Hn, Hx. unfold sat_add. lia.
    + rewrite Ho, Hn, Hx. unfold sat_add. lia.
Qed.

Lemma holds_new (max : N) : holds max [] (new max).
Proof.
  unfold holds, new, lastn, chunk_len. cbn. rewrite take_nil, drop_nil. cbn. split_and!; try done; lia.
Qed.

Lemma take_short (n : N) (data : chunk) : (chunk_len data <= n)%N -> take (N.to_nat n) data = data.
Proof. unfold chunk_len. intros. apply take_ge. lia. Qed.

Lemma drop_short (n : N) (data : chunk) : (chunk_len data <= n)%N -> drop (N.to_nat n) data = [].
Proof. unfold chunk_len. intros. apply drop_ge. lia. Qed.

Lemma chunk_len_app (a b : chunk) : chunk_len (a ++ b) = (chunk_len a + chunk_len b)%N.
Proof. unfold chunk_len. rewrite length_app. lia. Qed.

Lemma holds_push_tail (max : N) (data c : chunk) (b : HeadTailBuffer) :
  (0 < max <= USIZE_MAX)%N -> holds max data b -> (max / 2 <= chunk_len data)%N ->
  holds max (data ++ c) (push_to_tail c b).
Proof.
  intros Hmax (Hm & Hh & Ht & Hch & Hct & Hhb & Htb & Ho) Hfull.
  pose proof (N.div_lt max 2 ltac:(lia) ltac:(lia)) as Hlt.
  pose proof (N.div_mod max 2 ltac:(lia)) as Hdiv. pose proof (N.mod_lt max 2 ltac:(lia)) as Hmod.
  set (hb := (max / 2)%N) in *.
  assert (Hd : drop (N.to_nat hb) (data ++ c) = drop (N.to_nat hb) data ++ c).
  { apply drop_app_le. unfold chunk_len in Hfull. lia. }
  assert (Hdl : chunk_len (drop (N.to_nat hb) data) = (chunk_len data - hb)%N).
  { unfold chunk_len. rewrite length_drop. lia. }
  destruct (push_to_tail_spec c (drop (N.to_nat hb) data) b) as (H1 & H2 & H3 & H4 & H5 & H6 & H7 & H8);
    [lia|lia|by rewrite Ht|done|rewrite Ho, Ht, Hdl; lia|].
  unfold holds. fold hb. rewrite H4, H5, H6, H7, H8, Hd, <- Ht. split_and!; try done.
  - rewrite Hch, take_app_le; [done|]. unfold chunk_len in Hfull. lia.
  - rewrite H3, Ht, !chunk_len_app, Hdl. lia.
Qed.

Lemma holds_push (max : N) (data c : chunk) (b : HeadTailBuffer) :
  (max <= USIZE_MAX)%N -> holds max data b -> holds max (data ++ c) (push_chunk c b).
Proof.
  intros Hmax H. pose proof H as (Hm & Hh & Ht & Hch & Hct & Hhb & Htb & Ho).
  unfold push_chunk. rewrite Hm. destruct (max =? 0)%N eqn:H0.
  { apply N.eqb_eq in H0 as ->. unfold holds in *. cbn in *. rewrite !take_0 in *.
    unfold lastn in *. rewrite Nat.sub_0_r, drop_all in *. split_and!; try done.
    rewrite Ho, chunk_len_app. unfold sat_add. lia. }
  apply N.eqb_neq in H0. rewrite Hh, Hhb, Hch.
  pose proof (N.div_lt max 2 ltac:(lia) ltac:(lia)) as Hlt.
  assert (Hlen : chunk_len (take (N.to_nat (max / 2)) data) = N.min (max / 2) (chunk_len data))
    by (unfold chunk_len; rewrite length_take; lia).
  rewrite Hlen. destruct (_ <? max / 2)%N eqn:Hl.
  2: { apply N.ltb_ge in Hl. apply holds_push_tail; [lia|done|lia]. }
  apply N.ltb_lt in Hl. replace (N.min (max / 2) (chunk_len data)) with (chunk_len data) in * by lia.
  rewrite (take_short _ data) in Hch by lia. rewrite (drop_short _ data) in Hct by lia.
  destruct (chunk_len c <=? max / 2 - chunk_len data)%N eqn:Hc.
  - apply N.leb_le in Hc. unfold holds. cbn.
    rewrite concat_app. cbn. rewrite app_nil_r, Hch.
    rewrite take_short, drop_short by (rewrite chunk_len_app; lia). split_and!; try done.
    + rewrite chunk_len_app. unfold sat_add. lia.
    + rewrite Ho, chunk_len_app. lia.
  - apply N.leb_gt in Hc. set (n := N.to_nat (max / 2 - chunk_len data)).
    assert (Hn : take n c <> []).
    { intros E. apply (f_equal length) in E. rewrite length_take in E. unfold chunk_len in *. simpl in E. lia. }
    rewrite <- (take_drop n c) at 1. rewrite app_assoc.
    destruct (take n c) as [|x part] eqn:Hp; [done|]. rewrite <- Hp.
    assert (Hpl : chunk_len (take n c) = (max / 2 - chunk_len data)%N)
      by (unfold chunk_len in *; rewrite length_take; lia).
    apply holds_push_tail; [lia| |rewrite chunk_len_app; lia].
    unfold holds. cbn. rewrite concat_app. cbn. rewrite app_nil_r, Hch.
    rewrite take_short, drop_short by (rewrite chunk_len_app; lia). split_and!; try done.
    + rewrite chunk_len_app. unfold sat_add. lia.
    + rewrite Ho, chunk_len_app. lia.
Qed.

(** C38: however the output is cut into chunks, the buffer holds all of it up to its
    capacity, and beyond that its first and its last bytes; it never holds more than its
    capacity, counts the bytes that it lost, and starts again empty once it is drained. *)
Theorem buffer_keeps_ends (max : N) (chunks : list chunk) :
  (max <= USIZE_MAX)%N ->
  let b := fold_left (fun b c => push_chunk c b) chunks (new max) in
  let data := concat chunks in
  to_bytes b = (if (chunk_len data <=? max)%N then data
                else take (N.to_nat (max / 2)) data ++ lastn (max - max / 2) data)
  /\ retained_bytes b = N.min max (chunk_len data)
  /\ omitted_bytes b = N.min USIZE_MAX (chunk_len data - max)
  /\ concat (snapshot_chunks b) = to_bytes b
  /\ drain_chunks b = (new max, snapshot_chunks b).
Proof.
  intros Hmax b data.
  assert (H : holds max data b).
  { unfold b, data. clear b data. induction chunks as [|c chunks IH] using rev_ind; [apply holds_new|].
    rewrite fold_left_app, concat_app. cbn. rewrite app_nil_r. by apply holds_push. }
  destruct H as (Hm & Hh & Ht & Hch & Hct & Hhb & Htb & Ho).
  pose proof (N.Div0.div_le_upper_bound max 2 max ltac:(lia)) as Hle.
  assert (Hdl : chunk_len (drop (N.to_nat (max / 2)) data) = (chunk_len data - max / 2)%N)
    by (unfold chunk_len; rewrite length_drop; lia).
  assert (Htl : chunk_len (take (N.to_nat (max / 2)) data) = N.min (max / 2) (chunk_len data))
    by (unfold chunk_len; rewrite length_take; lia).
  split; [|split; [|split; [done|split]]].
  - unfold to_bytes. rewrite Hch, Hct. destruct (chunk_len data <=? max)%N eqn:Hl.
    + apply N.leb_le in Hl. unfold lastn. unfold chunk_len in Hdl, Hl.
      replace (length _ - _) with 0 by lia. rewrite drop_0. apply take_drop.
    + apply N.leb_gt in Hl. f_equal. unfold lastn. rewrite drop_drop. f_equal.
      rewrite length_drop. unfold chunk_len in Hl. lia.
  - unfold retained_bytes. rewrite Hhb, Htb, Hch, Hct, lastn_length, Hdl, Htl. unfold sat_add. lia.
  - unfold snapshot_chunks, to_bytes. by rewrite concat_app.
  - unfold drain_chunks, new, snapshot_chunks. by rewrite Hm, Hh, Ht.
Qed.

Lemma buffer_keeps_ends_witness :
  let b := fold_left (fun b c => push_chunk c b)
             [[Byte.x01; Byte.x02]; [Byte.x03]; [Byte.x04; Byte.x05; Byte.x06]] (new 4) in
  to_bytes b = [Byte.x01; Byte.x02; Byte.x05; Byte.x06] /\ omitted_bytes b = 2%N
  /\ retained_bytes b = 4%N.
Proof.
  intros b.
  destruct (buffer_keeps_ends 4 [[Byte.x01; Byte.x02]; [Byte.x03]; [Byte.x04; Byte.x05; Byte.x06]])
    as (Hb & Hr & Ho & _); [by vm_compute|].
  split; [exact Hb|]. split; [exact Ho|exact Hr].
Defined.

End HeadTailBufferFacts.

(** * The processes of the unified exec tool:
      src/core/src/unified_exec/{mod,process_manager}.rs

    Commands that go on running are kept in a table under an identifier, so that later
    calls can write to them and poll them. The table is behind a lock; its operations are
    cut where they take it, and every interleaving of the sections is a run. When the
    table is full one process is dropped from it. Starting a process and reading its output
    are left out. *)



Module ProcessTable.

Definition MAX_UNIFIED_EXEC_PROCESSES : nat := 64.
Definition WARNING_UNIFIED_EXEC_PROCESSES : nat := 60.

Definition MIN_YIELD_TIME_MS : N := 250.
Definition MIN_EMPTY_YIELD_TIME_MS : N := 5000.
Definition MAX_YIELD_TIME_MS : N := 30000.
Definition DEFAULT_MAX_OUTPUT_TOKENS : N := 10000.

(** The process is a reference to an object; the weak reference to the session is left out,
    and instants are numbers. *)
Record ProcessEntry := {
  process : nat;
  call_id : str;
  entry_process_id : Z;
  hook_command : str;
  tty : bool;
  network_approval_id : option str;
  last_used : N;
}.

Record ProcessStore := {
  processes : gmap Z ProcessEntry;
  reserved_process_ids : gset Z;
}.

(** [ProcessStore::remove] *)
Definition remove (process_id : Z) (s : ProcessStore) : ProcessStore * option ProcessEntry :=
  ({| processes := delete process_id (processes s);
      reserved_process_ids := reserved_process_ids s ∖ {[ process_id ]} |},
   processes s !! process_id).

(** ** Times *)

(** [Ord::clamp], whose bounds are in order here. *)
Definition clamp (low high n : N) : N := N.max low (N.min high n).

Definition clamp_yield_time (yield_time_ms : N) : N :=
  clamp MIN_YIELD_TIME_MS MAX_YIELD_TIME_MS yield_time_ms.

Definition resolve_max_tokens (max_tokens : option N) : N := default DEFAULT_MAX_OUTPUT_TOKENS max_tokens.

(** [UnifiedExecProcessManager::new] *)
Definition max_write_stdin_yield_time (configured : N) : N := N.max configured MIN_EMPTY_YIELD_TIME_MS.

Definition write_stdin_yield_time (max_write_stdin_yield_time_ms : N) (input : str) (yield_time_ms : N) : N :=
  let time_ms := N.max yield_time_ms MIN_YIELD_TIME_MS in
  match input with
  | [] => clamp MIN_EMPTY_YIELD_TIME_MS max_write_stdin_yield_time_ms time_ms
  | _ => N.min time_ms MAX_YIELD_TIME_MS
  end.

(** ** Pruning *)

(** [sort_by_key]: stable. [le] compares the keys. *)
Fixpoint insert_by {A} (le : A -> A -> bool) (x : A) (l : list A) : list A :=
  match l with
  | [] => [x]
  | y :: l' => if le x y then x :: l else y :: insert_by le x l'
  end.

Definition sort_by {A} (le : A -> A -> bool) (l : list A) : list A := foldr (insert_by le) [] l.

(** An identifier, the time of its last use, and whether the process has exited. *)
Abbreviation Meta := (Z * N * bool)%type.

Definition older (a b : Meta) : bool := (a.1.2 <=? b.1.2)%N.
Definition newer (a b : Meta) : bool := (b.1.2 <=? a.1.2)%N.

Definition process_id_to_prune_from_meta (meta : list Meta) : option Z :=
  match meta with
  | [] => None
  | _ =>
      let by_recency := sort_by newer meta in
      let protected := map (fun m => m.1.1) (take 8 by_recency) in
      let is_protected := fun m : Meta => existsb (Z.eqb m.1.1) protected in
      let lru := sort_by older meta in
      match List.find (fun m => negb (is_protected m) && m.2) lru with
      | Some m => Some m.1.1
      | None => (fun m => m.1.1) <$> List.find (fun m => negb (is_protected m)) lru
      end
  end.

(** The entries in the order in which the map iterates; [has_exited] asks the process. *)
Definition prune_processes_if_needed (has_exited : nat -> bool) (order : list (Z * ProcessEntry))
    (s : ProcessStore) : ProcessStore * option ProcessEntry :=
  if size (processes s) <? MAX_UNIFIED_EXEC_PROCESSES then (s, None)
  else
    let meta := map (fun '(id, entry) => (id, last_used entry, has_exited (process entry))) order in
    match process_id_to_prune_from_meta meta with
    | Some process_id => remove process_id s
    | None => (s, None)
    end.

(** ** Operations under the lock *)

(** [allocate_process_id]: the identifier that is tried in the deterministic mode, the
    range of the others, and the reservation, if it is free. *)
Definition deterministic_process_id (s : ProcessStore) : Z :=
  match elements (reserved_process_ids s) with
  | [] => 1000
  | ids => foldr Z.max 999 ids + 1
  end%Z.

Definition may_be_tried (deterministic : bool) (s : ProcessStore) (process_id : Z) : bool :=
  if deterministic then (process_id =? deterministic_process_id s)%Z
  else ((1000 <=? process_id) && (process_id <? 100000))%Z.

Definition reserve (process_id : Z) (s : ProcessStore) : option ProcessStore :=
  if bool_decide (process_id ∈ reserved_process_ids s) then None
  else Some {| processes := processes s;
               reserved_process_ids := {[ process_id ]} ∪ reserved_process_ids s |}.

(** [store_process]: the store, the number of processes and the entry that was dropped. *)
Definition store_process (has_exited : nat -> bool) (order : list (Z * ProcessEntry))
    (entry : ProcessEntry) (s : ProcessStore) : ProcessStore * nat * option ProcessEntry :=
  let '(s, pruned_entry) := prune_processes_if_needed has_exited order s in
  let s := {| processes := <[entry_process_id entry := entry]> (processes s);
              reserved_process_ids := reserved_process_ids s |} in
  (s, size (processes s), pruned_entry).

Inductive ProcessStatus :=
| Alive (status_call_id : str) (process_id : Z)
| Exited (entry : ProcessEntry)
| Unknown.

(** [refresh_process_state], without the exit code. The entry is there when it is removed,
    unless its identifier is not the key it is stored under. *)
Definition refresh_process_state (has_exited : nat -> bool) (process_id : Z) (s : ProcessStore)
    : ProcessStore * ProcessStatus :=
  match processes s !! process_id with
  | None => (s, Unknown)
  | Some entry =>
      if has_exited (process entry)
      then
        let '(s, removed) := remove (entry_process_id entry) s in
        (s, match removed with Some entry => Exited entry | None => Unknown end)
      else (s, Alive (call_id entry) (entry_process_id entry))
  end.

(** [prepare_process_handles]: the entry is used now. *)
Definition prepare_process_handles (now : N) (process_id : Z) (s : ProcessStore)
    : result Z (ProcessStore * ProcessEntry) :=
  match processes s !! process_id with
  | None => Err process_id
  | Some entry =>
      let entry := {| process := process entry; call_id := call_id entry;
                      entry_process_id := entry_process_id entry; hook_command := hook_command entry;
                      tty := tty entry; network_approval_id := network_approval_id entry;
                      last_used := now |} in
      Ok ({| processes := <[process_id := entry]> (processes s);
             reserved_process_ids := reserved_process_ids s |}, entry)
  end.

(** [terminate_all_processes]: the entries are drained. *)
Definition drain_all (s : ProcessStore) : ProcessStore :=
  {| processes := ∅; reserved_process_ids := ∅ |}.

(** ** Calls at the same time

    [exec_command] and [write_stdin] as tasks: an identifier is reserved ([Starting]); the
    process is there and alive, and is stored, or it has exited already ([Ended]); a dropped
    entry is terminated ([Pruning]); the output is collected ([Polling]). A call that has
    the handles of an entry may write to it ([Writing]); if that fails, the entry is
    refreshed: one that was removed is remembered while the output is collected
    ([Reported]), and otherwise the call fails ([Failing]). *)

Inductive Task :=
| Starting (process_id : Z)
| Ended (process_id : Z)
| Pruning (dropped : nat) (process_id : Z)
| Polling (process_id : Z)
| Writing (handles : ProcessEntry)
| Reported (process_id : Z)
| Failing (handles : ProcessEntry)
| Terminating (entries : list ProcessEntry).

Record World := {
  store : ProcessStore;
  exited : gset nat;
  tasks : gmap nat Task;
}.

Definition initial : World :=
  {| store := {| processes := ∅; reserved_process_ids := ∅ |}; exited := ∅; tasks := ∅ |}.

Definition has_exited_in (w : World) (p : nat) : bool := bool_decide (p ∈ exited w).

Definition with_task (t : nat) (task : Task) (s : ProcessStore) (w : World) : World :=
  {| store := s; exited := exited w; tasks := <[t := task]> (tasks w) |}.

Definition end_task (t : nat) (s : ProcessStore) (w : World) : World :=
  {| store := s; exited := exited w; tasks := delete t (tasks w) |}.

Definition kill (p : nat) (w : World) : World :=
  {| store := store w; exited := {[ p ]} ∪ exited w; tasks := tasks w |}.

Inductive step (w : World) : World -> Prop :=
(* a process ends by itself *)
| step_exit p : step w (kill p w)
(* [exec_command] *)
| step_allocate t deterministic process_id s :
    tasks w !! t = None -> may_be_tried deterministic (store w) process_id = true ->
    reserve process_id (store w) = Some s ->
    step w (with_task t (Starting process_id) s w)
| step_open_failed t process_id :
    tasks w !! t = Some (Starting process_id) ->
    step w (end_task t (remove process_id (store w)).1 w)
| step_ended t process_id :
    tasks w !! t = Some (Starting process_id) ->
    step w (with_task t (Ended process_id) (store w) w)
| step_store t entry order s n pruned :
    tasks w !! t = Some (Starting (entry_process_id entry)) ->
    order ≡ₚ map_to_list (processes (store w)) ->
    store_process (has_exited_in w) order entry (store w) = (s, n, pruned) ->
    step w (with_task t (match pruned with
                         | Some dropped => Pruning (process dropped) (entry_process_id entry)
                         | None => Polling (entry_process_id entry)
                         end) s w)
| step_prune t dropped process_id :
    tasks w !! t = Some (Pruning dropped process_id) ->
    step w (with_task t (Polling process_id) (store w) (kill dropped w))
(* [write_stdin]: without a terminal there is nothing to write to; without input, or when
   it was written, the output is collected *)
| step_write t process_id now s entry :
    tasks w !! t = None -> prepare_process_handles now process_id (store w) = Ok (s, entry) ->
    step w (with_task t (Writing entry) s w)
| step_stdin_closed t entry :
    tasks w !! t = Some (Writing entry) -> tty entry = false ->
    step w (end_task t (store w) w)
| step_written t entry :
    tasks w !! t = Some (Writing entry) ->
    step w (with_task t (Polling (entry_process_id entry)) (store w) w)
(* the write failed *)
| step_write_failed t entry s status :
    tasks w !! t = Some (Writing entry) -> tty entry = true ->
    refresh_process_state (has_exited_in w) (entry_process_id entry) (store w) = (s, status) ->
    step w (with_task t (match status with
                         | Exited _ => Reported (entry_process_id entry)
                         | Alive _ _ | Unknown => Failing entry
                         end) s w)
| step_fail t entry :
    tasks w !! t = Some (Failing entry) -> step w (end_task t (store w) w)
| step_fail_terminated t entry :
    tasks w !! t = Some (Failing entry) ->
    step w (with_task t (Ended (entry_process_id entry)) (store w) (kill (process entry) w))
(* the end of a call: [refresh_process_state], or nothing after an earlier one, or a
   failure and [release_process_id] *)
| step_refresh t process_id :
    tasks w !! t = Some (Polling process_id) ->
    step w (end_task t (refresh_process_state (has_exited_in w) process_id (store w)).1 w)
| step_reported t process_id :
    tasks w !! t = Some (Reported process_id) -> step w (end_task t (store w) w)
| step_release t process_id :
    tasks w !! t = Some (Polling process_id) \/ tasks w !! t = Some (Ended process_id)
    \/ tasks w !! t = Some (Reported process_id) ->
    step w (end_task t (remove process_id (store w)).1 w)
(* [terminate_all_processes] *)
| step_terminate_all t :
    tasks w !! t = None ->
    step w (with_task t (Terminating (map snd (map_to_list (processes (store w))))) (drain_all (store w)) w)
| step_terminated t entry entries :
    tasks w !! t = Some (Terminating (entry :: entries)) ->
    step w (with_task t (Terminating entries) (store w) (kill (process entry) w)).

Inductive reachable : World -> Prop :=
| reachable_initial : reachable initial
| reachable_step w w' : reachable w -> step w w' -> reachable w'.

End ProcessTable.

Module ProcessTableFacts.
Import ProcessTable.

(** ** Sorting *)

Lemma insert_by_perm {A} (le : A -> A -> bool) (x : A) (l : list A) : insert_by le x l ≡ₚ x :: l.
Proof. induction l as [|y l IH]; simpl; [done|]. case_match; [done|]. by rewrite IH, Permutation_swap. Qed.

Lemma sort_by_perm {A} (le : A -> A -> bool) (l : list A) : sort_by le l ≡ₚ l.
Proof. induction l as [|x l IH]; simpl; [done|]. by rewrite insert_by_perm, IH. Qed.

(** The order is total and transitive. *)
Class Ordering {A} (le : A -> A -> bool) := {
  ordering_total : forall a b, le a b = false -> le b a = true;
  ordering_trans : forall a b c, le a b = true -> le b c = true -> le a c = true;
}.

#[export] Instance older_ordering : Ordering older.
Proof. split; unfold older; intros; rewrite ?N.leb_gt, ?N.leb_le in *; lia. Qed.

#[export] Instance newer_ordering : Ordering newer.
Proof. split; unfold newer; intros; rewrite ?N.leb_gt, ?N.leb_le in *; lia. Qed.

Lemma insert_by_sorted {A} (le : A -> A -> bool) `{!Ordering le} (x : A) (l : list A) :
  StronglySorted (fun a b => le a b = true) l ->
  StronglySorted (fun a b => le a b = true) (insert_by le x l).
Proof.
  induction 1 as [|y l Hl IH Hy]; simpl; [by repeat constructor|]. destruct (le x y) eqn:E.
  - constructor; [by constructor|]. constructor; [done|].
    eapply Forall_impl; [done|]. intros z Hz. by eapply ordering_trans.
  - constructor; [done|]. rewrite insert_by_perm. constructor; [by apply ordering_total|done].
Qed.

Lemma sort_by_sorted {A} (le : A -> A -> bool) `{!Ordering le} (l : list A) :
  StronglySorted (fun a b => le a b = true) (sort_by le l).
Proof. induction l; simpl; [constructor|by apply insert_by_sorted]. Qed.

(** What is found first in a sorted list comes before all that could be found. *)
Lemma find_sorted {A} (le : A -> A -> bool) `{!Ordering le} (f : A -> bool) (l : list A) (x : A) :
  StronglySorted (fun a b => le a b = true) l -> List.find f l = Some x ->
  x ∈ l /\ f x = true /\ forall y, y ∈ l -> f y = true -> y = x \/ le x y = true.
Proof.
  induction 1 as [|z l Hl IH Hz]; simpl; [done|]. destruct (f z) eqn:E.
  - intros [= ->]. split_and!; [by left|done|]. intros y [->|Hy]%elem_of_cons _; [by left|right].
    rewrite Forall_forall in Hz. by apply Hz.
  - intros (Hx & Hf & Hle)%IH. split_and!; [by right|done|].
    intros y [->|Hy]%elem_of_cons Hfy; [congruence|by apply Hle].
Qed.

Lemma take_sorted {A} (le : A -> A -> bool) (n : nat) (l : list A) (x y : A) :
  StronglySorted (fun a b => le a b = true) l -> x ∈ take n l -> y ∈ drop n l -> le x y = true.
Proof.
  intros Hs. revert n. induction Hs as [|z l Hl IH Hz]; intros [|n] Hx Hy; simpl in Hx, Hy;
    try by apply not_elem_of_nil in Hx.
  apply elem_of_cons in Hx as [->|Hx]; [|by eapply IH].
  rewrite Forall_forall in Hz. apply Hz. by rewrite <- (take_drop n l), elem_of_app; right.
Qed.

(** ** Which process is dropped *)

Lemma protected_spec (recent meta : list Meta) (m : Meta) :
  NoDup (map (fun m => m.1.1) meta) -> (forall r, r ∈ recent -> r ∈ meta) -> m ∈ meta ->
  existsb (Z.eqb m.1.1) (map (fun m => m.1.1) recent) = true <-> m ∈ recent.
Proof.
  intros Hnd Hsub Hm. rewrite existsb_exists. split.
  - intros (id & Hid%list_elem_of_In & E%Z.eqb_eq). apply list_elem_of_fmap in Hid as (r & -> & Hr).
    assert (m = r) as ->; [|done].
    apply list_elem_of_lookup in Hm as [i Hi]. apply Hsub, list_elem_of_lookup in Hr as [j Hj].
    assert (i = j) as ->; [|congruence].
    eapply (NoDup_lookup _ i j m.1.1); [exact Hnd|..]; rewrite list_lookup_fmap.
    + by rewrite Hi.
    + by rewrite Hj, E.
  - intros Hr. exists m.1.1. split; [|by apply Z.eqb_eq].
    apply list_elem_of_In, list_elem_of_fmap. by exists m.
Qed.

Definition id_of (m : Meta) : Z := m.1.1.
Definition use_of (m : Meta) : N := m.1.2.
Definition gone (m : Meta) : bool := m.2.

(** The process that is dropped: not one of the eight that were used last; the longest
    unused of those that have exited, or of all, if none has. *)
Definition prunes (meta : list Meta) (process_id : Z) : Prop :=
  exists recent rest m,
    meta ≡ₚ recent ++ rest /\ length recent = 8
    /\ (forall r x, r ∈ recent -> x ∈ rest -> (use_of x <= use_of r)%N)
    /\ m ∈ rest /\ process_id = id_of m
    /\ if gone m then forall x, x ∈ rest -> gone x = true -> (use_of m <= use_of x)%N
       else forall x, x ∈ rest -> gone x = false /\ (use_of m <= use_of x)%N.

Lemma find_none {A} (f : A -> bool) (l : list A) (x : A) :
  List.find f l = None -> x ∈ l -> f x = false.
Proof. intros Hf Hx%list_elem_of_In. by eapply find_none. Qed.

Section Choice.
Context (meta : list Meta) (Hnd : NoDup (map id_of meta)).

Let recent : list Meta := take 8 (sort_by newer meta).
Let rest : list Meta := drop 8 (sort_by newer meta).
Let protected (m : Meta) : bool := existsb (Z.eqb m.1.1) (map (fun m : Meta => m.1.1) recent).

Lemma recent_rest : meta ≡ₚ recent ++ rest.
Proof. unfold recent, rest. by rewrite take_drop, sort_by_perm. Qed.

Lemma recent_meta (r : Meta) : r ∈ recent -> r ∈ meta.
Proof. intros Hr. rewrite recent_rest. apply elem_of_app. by left. Qed.

Lemma unprotected_rest (x : Meta) : x ∈ rest <-> x ∈ meta /\ protected x = false.
Proof.
  split.
  - intros Hx. assert (x ∈ meta) as Hm by (rewrite recent_rest; apply elem_of_app; by right).
    split; [done|]. apply not_true_iff_false.
    intros Hp%(protected_spec recent meta x Hnd recent_meta Hm).
    assert (Hids : NoDup (recent ++ rest)) by (apply (NoDup_fmap_1 id_of); by rewrite <- recent_rest).
    apply NoDup_app in Hids as (_ & Hdis & _). by apply (Hdis x).
  - intros [Hx Hp]. pose proof Hx as Hx'. rewrite recent_rest in Hx'.
    apply elem_of_app in Hx' as [Hr|]; [|done].
    pose proof (proj2 (protected_spec recent meta x Hnd recent_meta Hx) Hr). unfold protected in Hp. congruence.
Qed.

Lemma rest_older (r x : Meta) : r ∈ recent -> x ∈ rest -> (use_of x <= use_of r)%N.
Proof.
  intros Hr Hx. apply N.leb_le. by apply (take_sorted newer 8 (sort_by newer meta) r x);
    [apply sort_by_sorted; apply _|..].
Qed.

Lemma recent_eight (x : Meta) : x ∈ rest -> length recent = 8.
Proof.
  unfold recent, rest. intros Hx. rewrite length_take.
  destruct (Nat.le_gt_cases 8 (length (sort_by newer meta))); [lia|].
  rewrite drop_ge in Hx by lia. by apply not_elem_of_nil in Hx.
Qed.

(** What is found first among the longest unused. *)
Lemma found_oldest (f : Meta -> bool) (m : Meta) :
  (forall x, f x = true -> protected x = false) -> List.find f (sort_by older meta) = Some m ->
  m ∈ rest /\ f m = true /\ forall x, x ∈ rest -> f x = true -> (use_of m <= use_of x)%N.
Proof.
  intros Hf E. destruct (find_sorted older f _ m (sort_by_sorted older meta) E) as (Hm & Hfm & Hle).
  rewrite sort_by_perm in Hm. split_and!; [apply unprotected_rest; auto|done|].
  intros x [Hx _]%unprotected_rest Hfx.
  destruct (Hle x) as [->|Hl]; [by rewrite sort_by_perm|done|done|by apply N.leb_le in Hl].
Qed.

Lemma found_none (f : Meta -> bool) (x : Meta) :
  List.find f (sort_by older meta) = None -> x ∈ rest -> f x = false.
Proof.
  intros E [Hx _]%unprotected_rest. apply (find_none f (sort_by older meta)); [done|].
  by rewrite sort_by_perm.
Qed.

(** A process is dropped unless there are at most eight. *)
Lemma pruned_choice :
  match process_id_to_prune_from_meta meta with
  | Some process_id => prunes meta process_id
  | None => length meta <= 8
  end.
Proof.
  assert (Hchoice : process_id_to_prune_from_meta meta
    = match List.find (fun m => negb (protected m) && m.2) (sort_by older meta) with
      | Some m => Some (id_of m)
      | None => id_of <$> List.find (fun m => negb (protected m)) (sort_by older meta)
      end) by (unfold protected, recent; by destruct meta).
  rewrite Hchoice. clear Hchoice. pose proof recent_rest as Hperm.
  destruct (List.find (fun m => negb (protected m) && m.2) _) as [m|] eqn:E1.
  - apply found_oldest in E1 as (Hm & [Hp%negb_true_iff Hg]%andb_true_iff & Hle);
      [|by intros x [?%negb_true_iff _]%andb_true_iff].
    exists recent, rest, m. split_and!; [done|by eapply recent_eight|apply rest_older|done|done|].
    unfold gone. rewrite Hg. intros x Hx Hgx. apply Hle; [done|].
    apply unprotected_rest in Hx as [_ ->]. by rewrite Hgx.
  - assert (Hgone : forall x, x ∈ rest -> gone x = false).
    { intros x Hx. pose proof (found_none _ x E1 Hx) as Hn. apply unprotected_rest in Hx as [_ Hx].
      simpl in Hn. by rewrite Hx in Hn. }
    destruct (List.find (fun m => negb (protected m)) _) as [m|] eqn:E2; simpl.
    + apply found_oldest in E2 as (Hm & Hp & Hle); [|by intros x ?%negb_true_iff].
      exists recent, rest, m. split_and!; [done|by eapply recent_eight|apply rest_older|done|done|].
      rewrite (Hgone m Hm). intros x Hx. split; [by apply Hgone|]. apply Hle; [done|].
      by apply unprotected_rest in Hx as [_ ->].
    + apply Permutation_length in Hperm. rewrite length_app in Hperm.
      assert (length recent <= 8) by (unfold recent; rewrite length_take; lia).
      assert (rest = []) as Hnil; [|rewrite Hnil in Hperm; simpl in Hperm; lia].
      apply elem_of_nil_inv. intros x Hx. pose proof (found_none _ x E2 Hx) as Hn.
      apply unprotected_rest in Hx as [_ Hx]. simpl in Hn. by rewrite Hx in Hn.
Qed.

End Choice.

(** ** The table *)

Section Prune.
Context (has_exited : nat -> bool) (order : list (Z * ProcessEntry)) (s : ProcessStore).
Context (Horder : order ≡ₚ map_to_list (processes s)).

Definition meta_of : list Meta :=
  map (fun '(id, entry) => (id, last_used entry, has_exited (process entry))) order.

Lemma meta_ids : map id_of meta_of = order.*1.
Proof. unfold meta_of. rewrite map_map. apply map_ext. by intros [id e]. Qed.

Lemma meta_nodup : NoDup (map id_of meta_of).
Proof. rewrite meta_ids, Horder. apply NoDup_fst_map_to_list. Qed.

Lemma meta_length : length meta_of = size (processes s).
Proof. unfold meta_of. rewrite length_map, Horder. apply length_map_to_list. Qed.

Lemma meta_stored (m : Meta) : m ∈ meta_of -> is_Some (processes s !! id_of m).
Proof.
  intros Hm. assert (id_of m ∈ order.*1) as Hi by (rewrite <- meta_ids; by apply list_elem_of_fmap_2).
  rewrite Horder in Hi. apply list_elem_of_fmap in Hi as ([id e] & -> & He%elem_of_map_to_list). by exists e.
Qed.

(** What pruning leaves. *)
Lemma prune_spec :
  match prune_processes_if_needed has_exited order s with
  | (s', Some dropped) =>
      exists process_id, prunes meta_of process_id /\ processes s !! process_id = Some dropped
        /\ s' = (remove process_id s).1 /\ size (processes s') = size (processes s) - 1
        /\ MAX_UNIFIED_EXEC_PROCESSES <= size (processes s)
  | (s', None) => s' = s /\ size (processes s) < MAX_UNIFIED_EXEC_PROCESSES
  end.
Proof.
  unfold prune_processes_if_needed. fold meta_of. destruct (_ <? _) eqn:E.
  { by apply Nat.ltb_lt in E. }
  apply Nat.ltb_ge in E. pose proof (pruned_choice meta_of meta_nodup) as Hp.
  destruct (process_id_to_prune_from_meta meta_of) as [id|].
  - pose proof Hp as (recent & rest & m & Hperm & _ & _ & Hm & -> & _).
    destruct (meta_stored m) as [e He]; [rewrite Hperm; apply elem_of_app; by right|].
    unfold remove. rewrite He. exists (id_of m). split_and!; try done. simpl.
    rewrite map_size_delete, He. simpl. lia.
  - rewrite meta_length in Hp. unfold MAX_UNIFIED_EXEC_PROCESSES in E. lia.
Qed.

End Prune.

Lemma delete_size (m : gmap Z ProcessEntry) (id : Z) : size (delete id m) <= size m.
Proof. rewrite map_size_delete. destruct (m !! id); simpl; unfold Datatypes.id; lia. Qed.

Lemma insert_size (m : gmap Z ProcessEntry) (id : Z) (e : ProcessEntry) : size (<[id := e]> m) <= S (size m).
Proof. rewrite map_size_insert. destruct (m !! id); simpl; unfold Datatypes.id; lia. Qed.

Lemma store_size has_exited order entry s s' n pruned :
  order ≡ₚ map_to_list (processes s) -> size (processes s) <= MAX_UNIFIED_EXEC_PROCESSES ->
  store_process has_exited order entry s = (s', n, pruned) ->
  size (processes s') <= MAX_UNIFIED_EXEC_PROCESSES.
Proof.
  intros Ho Hs. unfold store_process. pose proof (prune_spec has_exited order s Ho) as Hp.
  destruct (prune_processes_if_needed _ _ _) as [s1 p1]. intros [= <- <- <-]. cbn [processes].
  pose proof (insert_size (processes s1) (entry_process_id entry) entry) as Hi.
  unfold MAX_UNIFIED_EXEC_PROCESSES in *.
  destruct p1 as [dropped|]; [|destruct Hp as [-> ?]; lia].
  destruct Hp as (id & _ & _ & _ & Hd & ?). lia.
Qed.

Lemma refresh_size has_exited id s :
  size (processes (refresh_process_state has_exited id s).1) <= size (processes s).
Proof.
  unfold refresh_process_state. destruct (processes s !! id) as [e|]; [|done].
  destruct (has_exited (process e)); [|done]. apply delete_size.
Qed.

Lemma step_size (w w' : World) :
  step w w' -> size (processes (store w)) <= MAX_UNIFIED_EXEC_PROCESSES ->
  size (processes (store w')) <= MAX_UNIFIED_EXEC_PROCESSES.
Proof.
  intros Hstep IH.
  destruct Hstep as [| |t id|t id| | |t id now s entry _ Hp| | |t entry s status _ _ Hr| | |t id| |t id| |];
    simpl; try done.
  - unfold reserve in *. case_match; by simplify_eq.
  - by etrans; [apply delete_size|].
  - by eapply store_size.
  - unfold prepare_process_handles in Hp. destruct (processes (store w) !! id) as [e|] eqn:E; simplify_eq.
    simpl. by rewrite map_size_insert, E.
  - pose proof (refresh_size (has_exited_in w) (entry_process_id entry) (store w)) as Hs.
    rewrite Hr in Hs. by etrans.
  - etrans; [apply refresh_size|done].
  - by etrans; [apply delete_size|].
  - unfold MAX_UNIFIED_EXEC_PROCESSES. rewrite map_size_empty. lia.
Qed.


(** The times that calls wait for output. *)
Theorem yield_times_bounded (configured yield_time_ms : N) (input : str) :
  let t := write_stdin_yield_time (max_write_stdin_yield_time configured) input yield_time_ms in
  (MIN_YIELD_TIME_MS <= clamp_yield_time yield_time_ms <= MAX_YIELD_TIME_MS)%N
  /\ (MIN_YIELD_TIME_MS <= t)%N
  /\ (input = [] -> (MIN_EMPTY_YIELD_TIME_MS <= t <= max_write_stdin_yield_time configured)%N)
  /\ (input <> [] -> (t <= MAX_YIELD_TIME_MS)%N).
Proof.
  unfold write_stdin_yield_time, clamp_yield_time, clamp, max_write_stdin_yield_time,
    MIN_YIELD_TIME_MS, MAX_YIELD_TIME_MS, MIN_EMPTY_YIELD_TIME_MS.
  destruct input; cbv zeta; split_and!; intros; try done; lia.
Qed.

(** ** Examples *)

Definition demo_entry (p : nat) (id : Z) : ProcessEntry :=
  {| process := p; call_id := []; entry_process_id := id; hook_command := []; tty := false;
     network_approval_id := None; last_used := 0 |}.


(** Identifiers are used again: a call that fails late releases the identifier that another
    command was given meanwhile, a third command gets it too, and the process of the second
    is lost from the table while it runs. *)
Example stale_release :
  let gone := Nat.eqb 0 in
  let s0 := {| processes := {[ 1000%Z := demo_entry 0 1000 ]}; reserved_process_ids := {[ 1000%Z ]} |} in
  let s1 := (refresh_process_state gone 1000 s0).1 in
  let s2 := reserve 1000 s1 in
  let s3 := (fun s => (remove 1000 s).1) <$> s2 in
  let s4 := s3 ≫= reserve 1000 in
  let s5 := (fun s => (store_process gone [] (demo_entry 1 1000) s).1.1) <$> s4 in
  let s6 := (fun s => (store_process gone [(1000%Z, demo_entry 1 1000)] (demo_entry 2 1000) s).1.1) <$> s5 in
  (fun s => map process (map snd (map_to_list (processes s)))) <$> s5 = Some [1]
  /\ (fun s => map process (map snd (map_to_list (processes s)))) <$> s6 = Some [2].
Proof. by vm_compute. Qed.

End ProcessTableFacts.
