(* ===== verification/Requirements.v ===== *)
(** * Requirements of an administrator: src/config/src/{constraint,config_requirements}.rs

    [Constraint]: a value that may only be set to what its validator accepts.
    [Requirements]: what administrators require, merged from several sources of which the
    first that says something about a setting wins, and the constrained settings that
    follow from it (config_requirements.rs, with the tables of hooks of hook_config.rs and
    the order of the sources of loader/mod.rs). *)

From Stdlib Require Import Ascii String.
From S2P Require Import Prelude RustStr AbsPath FsPolicy FsRoots ConfigRules Approval ToolSession.
Import FsPolicy FsProfile.

Module Constraint.

Inductive RequirementSource :=
| UnknownSource
| MdmManagedPreferences (domain key : str)
| CloudRequirements
| SystemRequirementsToml (file : str)
| LegacyManagedConfigTomlFromFile (file : str)
| LegacyManagedConfigTomlFromMdm.

Definition source_text (s : RequirementSource) : str :=
  match s with
  | UnknownSource => lit "<unspecified>"
  | MdmManagedPreferences domain key => lit "MDM " ++ domain ++ lit ":" ++ key
  | CloudRequirements => lit "cloud requirements"
  | SystemRequirementsToml file | LegacyManagedConfigTomlFromFile file => file
  | LegacyManagedConfigTomlFromMdm => lit "MDM managed_config.toml (legacy)"
  end.

(** The reason of [ExecPolicyParse] is the text of this error. *)
Inductive ConstraintError :=
| InvalidValue (field_name candidate allowed : str) (requirement_source : RequirementSource)
| EmptyField (field_name : str)
| ExecPolicyParse (requirement_source : RequirementSource)
    (reason : ConfigRules.RequirementsExecPolicyParseError).

Record Constrained (T : Type) := {
  value : T;
  validator : T -> result ConstraintError unit;
  normalizer : option (T -> T);
}.
#[global] Arguments value {T} _.
#[global] Arguments validator {T} _ _.
#[global] Arguments normalizer {T} _.
#[global] Arguments Build_Constrained {T} _ _ _.

Section Operations.
Context {T : Type}.

Definition new (initial_value : T) (validator : T -> result ConstraintError unit)
    : result ConstraintError (Constrained T) :=
  _ ← validator initial_value;
  Ok {| value := initial_value; validator := validator; normalizer := None |}.

Definition normalized (initial_value : T) (normalizer : T -> T)
    : result ConstraintError (Constrained T) :=
  Ok {| value := normalizer initial_value; validator := fun _ => Ok tt;
        normalizer := Some normalizer |}.

Definition allow_any (initial_value : T) : Constrained T :=
  {| value := initial_value; validator := fun _ => Ok tt; normalizer := None |}.

Definition allow_only `{EqDecision T} (debug : T -> str) (only_value : T) : Constrained T :=
  {| value := only_value;
     validator := fun candidate =>
       if bool_decide (candidate = only_value) then Ok tt
       else Err (InvalidValue (lit "<unknown>") (debug candidate)
                   (lit "[" ++ debug only_value ++ lit "]") UnknownSource);
     normalizer := None |}.

Definition can_set (c : Constrained T) (candidate : T) : result ConstraintError unit :=
  validator c candidate.

Definition add_validator (c : Constrained T) (v : T -> result ConstraintError unit)
    : result ConstraintError (Constrained T) :=
  let combined_validator candidate := _ ← validator c candidate; v candidate in
  _ ← combined_validator (value c);
  Ok {| value := value c; validator := combined_validator; normalizer := normalizer c |}.

Definition set (c : Constrained T) (v : T) : result ConstraintError (Constrained T) :=
  let v := match normalizer c with Some normalizer => normalizer v | None => v end in
  _ ← validator c v;
  Ok {| value := v; validator := validator c; normalizer := normalizer c |}.

End Operations.

End Constraint.

Module Requirements.
Import Constraint.

Abbreviation AskForApproval := Approval.AskForApproval.
Abbreviation ApprovalsReviewer := ToolSession.ApprovalsReviewer.

#[export] Instance GranularApprovalConfig_eq_dec : EqDecision Approval.GranularApprovalConfig.
Proof. solve_decision. Defined.

#[export] Instance AskForApproval_eq_dec : EqDecision AskForApproval.
Proof. solve_decision. Defined.

#[export] Instance ApprovalsReviewer_eq_dec : EqDecision ApprovalsReviewer.
Proof. solve_decision. Defined.

(** ** Values of settings *)

Inductive AccessMode := ReadOnly | WorkspaceWrite | DangerFullAccess.

Inductive AccessModeRequirement :=
| ReadOnlyMode | WorkspaceWriteMode | DangerFullAccessMode | ExternalMode.

#[export] Instance AccessModeRequirement_eq_dec : EqDecision AccessModeRequirement.
Proof. solve_decision. Defined.

Definition mode_requirement (mode : AccessMode) : AccessModeRequirement :=
  match mode with
  | ReadOnly => ReadOnlyMode
  | WorkspaceWrite => WorkspaceWriteMode
  | DangerFullAccess => DangerFullAccessMode
  end.

(** [WebSearchMode] and [WebSearchModeRequirement] have the same variants. *)
Inductive WebSearchMode := SearchDisabled | SearchCached | SearchLive.

#[export] Instance WebSearchMode_eq_dec : EqDecision WebSearchMode.
Proof. solve_decision. Defined.

Inductive ResidencyRequirement := Us.

#[export] Instance ResidencyRequirement_eq_dec : EqDecision ResidencyRequirement.
Proof. solve_decision. Defined.

(** *** The derived [Debug] texts that errors quote *)

Definition debug_bool (b : bool) : str := if b then lit "true" else lit "false".

Definition debug_list {A} (debug : A -> str) (l : list A) : str :=
  lit "[" ++ join (lit ", ") (map debug l) ++ lit "]".

Definition debug_approval (p : AskForApproval) : str :=
  match p with
  | Approval.UnlessTrusted => lit "UnlessTrusted"
  | Approval.OnFailure => lit "OnFailure"
  | Approval.OnRequest => lit "OnRequest"
  | Approval.Granular c =>
      lit "Granular(GranularApprovalConfig { access_approval: "
      ++ debug_bool (Approval.access_approval c)
      ++ lit ", rules: " ++ debug_bool (Approval.rules c)
      ++ lit ", skill_approval: " ++ debug_bool (Approval.skill_approval c)
      ++ lit ", request_permissions: " ++ debug_bool (Approval.request_permissions c)
      ++ lit ", mcp_elicitations: " ++ debug_bool (Approval.mcp_elicitations c) ++ lit " })"
  | Approval.Never => lit "Never"
  end.

Definition debug_reviewer (r : ApprovalsReviewer) : str :=
  match r with
  | ToolSession.ReviewerUser => lit "User"
  | ToolSession.ReviewerAutoReview => lit "AutoReview"
  end.

Definition debug_mode (m : AccessModeRequirement) : str :=
  match m with
  | ReadOnlyMode => lit "ReadOnly"
  | WorkspaceWriteMode => lit "WorkspaceWrite"
  | DangerFullAccessMode => lit "DangerFullAccess"
  | ExternalMode => lit "External"
  end.

Definition debug_search (m : WebSearchMode) : str :=
  match m with
  | SearchDisabled => lit "Disabled"
  | SearchCached => lit "Cached"
  | SearchLive => lit "Live"
  end.

Definition debug_residency (r : option ResidencyRequirement) : str :=
  match r with Some Us => lit "Some(Us)" | None => lit "None" end.

(** ** hook_config.rs *)

Inductive HookHandlerConfig :=
| CommandHandler (command : str) (timeout_sec : option N) (is_async : bool)
    (status_message : option str)
| PromptHandler
| AgentHandler.

#[export] Instance HookHandlerConfig_eq_dec : EqDecision HookHandlerConfig.
Proof. solve_decision. Defined.

Record MatcherGroup := { matcher : option str; group_hooks : list HookHandlerConfig }.

#[export] Instance MatcherGroup_eq_dec : EqDecision MatcherGroup.
Proof. solve_decision. Defined.

Record HookEventsToml := {
  pre_tool_use : list MatcherGroup;
  permission_request : list MatcherGroup;
  post_tool_use : list MatcherGroup;
  session_start : list MatcherGroup;
  user_prompt_submit : list MatcherGroup;
  stop : list MatcherGroup;
}.

#[export] Instance HookEventsToml_eq_dec : EqDecision HookEventsToml.
Proof. solve_decision. Defined.

Definition all_groups (h : HookEventsToml) : list (list MatcherGroup) :=
  [pre_tool_use h; permission_request h; post_tool_use h; session_start h; user_prompt_submit h;
   stop h].

Definition hooks_is_empty (h : HookEventsToml) : bool :=
  forallb (fun groups => bool_decide (groups = [])) (all_groups h).

Definition handler_count (h : HookEventsToml) : nat :=
  sum_list (map (fun group => length (group_hooks group)) (concat (all_groups h))).

Record ManagedHooksRequirementsToml := {
  managed_dir : option str;
  windows_managed_dir : option str;
  managed_hook_events : HookEventsToml;
}.

#[export] Instance ManagedHooksRequirementsToml_eq_dec : EqDecision ManagedHooksRequirementsToml.
Proof. solve_decision. Defined.

Definition managed_hooks_is_empty (h : ManagedHooksRequirementsToml) : bool :=
  bool_decide (managed_dir h = None) && bool_decide (windows_managed_dir h = None)
  && hooks_is_empty (managed_hook_events h).

(** ** Network *)

Inductive NetworkDomainPermissionToml := DomainAllow | DomainDeny.
Inductive NetworkUnixSocketPermissionToml := SocketAllow | SocketNone.

Record NetworkRequirementsToml := {
  net_enabled : option bool;
  net_http_port : option N;
  net_socks_port : option N;
  net_allow_upstream_proxy : option bool;
  net_dangerously_allow_non_loopback_proxy : option bool;
  net_dangerously_allow_all_unix_sockets : option bool;
  net_domains : option (gmap str NetworkDomainPermissionToml);
  net_managed_allowed_domains_only : option bool;
  net_unix_sockets : option (gmap str NetworkUnixSocketPermissionToml);
  net_allow_local_binding : option bool;
}.

(** The lists that older files have. *)
Record LegacyNetworkLists := {
  allowed_domains : option (list str);
  denied_domains : option (list str);
  allow_unix_sockets : option (list str);
}.

Definition legacy_domain_permissions_from_lists (allowed denied : option (list str))
    : option (gmap str NetworkDomainPermissionToml) :=
  let entries := fold_left (fun m p => <[p := DomainAllow]> m) (default [] allowed) ∅ in
  let entries := fold_left (fun m p => <[p := DomainDeny]> m) (default [] denied) entries in
  if bool_decide (entries = ∅) then None else Some entries.

Definition legacy_unix_socket_permissions_from_list (allow : option (list str))
    : option (gmap str NetworkUnixSocketPermissionToml) :=
  let entries := fold_left (fun m p => <[p := SocketAllow]> m) (default [] allow) ∅ in
  if bool_decide (entries = ∅) then None else Some entries.

Definition is_set {A} (o : option A) : bool := match o with Some _ => true | None => false end.

Definition option_or {A} (o p : option A) : option A :=
  match o with Some _ => o | None => p end.

(** [deserialize], from the raw table: the new fields, and the older lists. *)
Definition network_requirements_of_raw (raw : NetworkRequirementsToml) (lists : LegacyNetworkLists)
    : result str NetworkRequirementsToml :=
  if is_set (net_domains raw) && (is_set (allowed_domains lists) || is_set (denied_domains lists))
  then Err (lit "`experimental_network.domains` cannot be combined with legacy "
            ++ lit "`allowed_domains` or `denied_domains`")
  else if is_set (net_unix_sockets raw) && is_set (allow_unix_sockets lists)
  then Err (lit "`experimental_network.unix_sockets` cannot be combined with legacy "
            ++ lit "`allow_unix_sockets`")
  else
    Ok {| net_enabled := net_enabled raw; net_http_port := net_http_port raw;
          net_socks_port := net_socks_port raw;
          net_allow_upstream_proxy := net_allow_upstream_proxy raw;
          net_dangerously_allow_non_loopback_proxy := net_dangerously_allow_non_loopback_proxy raw;
          net_dangerously_allow_all_unix_sockets := net_dangerously_allow_all_unix_sockets raw;
          net_domains :=
            option_or (net_domains raw)
              (legacy_domain_permissions_from_lists (allowed_domains lists) (denied_domains lists));
          net_managed_allowed_domains_only := net_managed_allowed_domains_only raw;
          net_unix_sockets :=
            option_or (net_unix_sockets raw)
              (legacy_unix_socket_permissions_from_list (allow_unix_sockets lists));
          net_allow_local_binding := net_allow_local_binding raw |}.

(** ** Files that may not be read *)

Definition is_glob_metacharacter (c : char) : bool :=
  ((c =? ch "*") || (c =? ch "?") || (c =? ch "["))%N.

(** A [FilesystemDenyReadPattern] is a text. *)
Definition contains_glob (pattern : str) : bool := existsb is_glob_metacharacter pattern.

(** The text before the first glob character is cut at its last separator. *)
Definition before_glob (input : str) : str :=
  take (length input - length (drop_while (fun c => negb (is_glob_metacharacter c)) input)) input.

Definition split_glob_pattern (input : str) : str * str :=
  if negb (contains_glob input) then ([], input)
  else
    match rsplit_once AbsPath.SLASH (before_glob input) with
    | Some ([], _) => ([AbsPath.SLASH], drop 1 input)
    | Some (directory, _) => (directory, drop (S (length directory)) input)
    | None => ([], input)
    end.

Section DenyPatterns.
Context (H : Host) (base : option str).

(** [base]: the folder of the file that is read, while one is. *)
Definition deserialize_absolute_path (input : str) : result str str :=
  match base with
  | Some base => Ok (AbsPath.resolve_path_against_base (home_dir H) input base)
  | None =>
      if AbsPath.is_absolute input then AbsPath.from_absolute_path (home_dir H) (current_dir H) input
      else Err (lit "AbsolutePathBuf deserialized without a base path")
  end.

Definition deny_pattern_from_input (input : str) : result str str :=
  if negb (contains_glob input) then deserialize_absolute_path input
  else
    let '(directory_prefix, suffix) := split_glob_pattern input in
    normalized_prefix ← deserialize_absolute_path
                          (if str_eqb directory_prefix [] then lit "." else directory_prefix);
    Ok (if str_eqb suffix [] then normalized_prefix
        else if str_eqb normalized_prefix [AbsPath.SLASH] then AbsPath.SLASH :: suffix
        else normalized_prefix ++ AbsPath.SLASH :: suffix).

End DenyPatterns.

(** [permissions.filesystem.deny_read]: each level may be missing. *)
Record PermissionsRequirementsToml := { filesystem_deny_read : option (option (list str)) }.

Record FilesystemConstraints := { deny_read : list str }.

Definition filesystem_constraints (p : PermissionsRequirementsToml) : FilesystemConstraints :=
  {| deny_read := default [] (deny ← filesystem_deny_read p; deny) |}.

(** ** Apps: off in one source is off *)

Abbreviation AppsRequirementsToml := (gmap str (option bool)).

Definition apps_is_empty (apps : AppsRequirementsToml) : bool :=
  forallb (fun e => negb (is_set (snd e))) (map_to_list apps).

Definition combine_enablement (higher_precedence lower_precedence : option bool) : option bool :=
  match higher_precedence, lower_precedence with
  | Some false, _ | _, Some false => Some false
  | _, _ => option_or higher_precedence lower_precedence
  end.

Definition merge_enablement_settings_descending (base incoming : AppsRequirementsToml)
    : AppsRequirementsToml :=
  map_fold (fun app_id incoming_requirement base =>
    <[app_id := combine_enablement (default None (base !! app_id)) incoming_requirement]> base)
    base incoming.

(** ** What one source requires *)

Inductive McpServerIdentity := McpCommand (command : str) | McpUrl (url : str).

Record RemoteAccessConfigToml := {
  hostname_patterns : list str;
  remote_access_modes : list AccessModeRequirement;
}.

Record ConfigRequirementsToml := {
  allowed_approval_policies : option (list AskForApproval);
  allowed_approvals_reviewers : option (list ApprovalsReviewer);
  allowed_access_modes : option (list AccessModeRequirement);
  remote_access_config : option (list RemoteAccessConfigToml);
  allowed_web_search_modes : option (list WebSearchMode);
  feature_requirements : option (gmap str bool);
  hooks : option ManagedHooksRequirementsToml;
  mcp_servers : option (gmap str McpServerIdentity);
  apps : option AppsRequirementsToml;
  rules : option ConfigRules.RequirementsExecPolicyToml;
  enforce_residency : option ResidencyRequirement;
  network : option NetworkRequirementsToml;
  permissions : option PermissionsRequirementsToml;
  guardian_policy_config : option str;
}.

Definition no_requirements : ConfigRequirementsToml :=
  {| allowed_approval_policies := None; allowed_approvals_reviewers := None;
     allowed_access_modes := None; remote_access_config := None;
     allowed_web_search_modes := None; feature_requirements := None; hooks := None;
     mcp_servers := None; apps := None; rules := None; enforce_residency := None;
     network := None; permissions := None; guardian_policy_config := None |}.

Definition is_blank (text : str) : bool := str_eqb (trim text) [].

Definition requirements_is_empty (t : ConfigRequirementsToml) : bool :=
  negb (is_set (allowed_approval_policies t)) && negb (is_set (allowed_approvals_reviewers t))
  && negb (is_set (allowed_access_modes t)) && negb (is_set (remote_access_config t))
  && negb (is_set (allowed_web_search_modes t))
  && match feature_requirements t with Some m => bool_decide (m = ∅) | None => true end
  && match hooks t with Some h => managed_hooks_is_empty h | None => true end
  && negb (is_set (mcp_servers t))
  && match apps t with Some a => apps_is_empty a | None => true end
  && negb (is_set (rules t)) && negb (is_set (enforce_residency t)) && negb (is_set (network t))
  && negb (is_set (permissions t))
  && match guardian_policy_config t with Some text => is_blank text | None => true end.

(** *** Requirements for some hosts only *)

Definition normalize_hostname (hostname : str) : option str :=
  let hostname := drop_while_end (N.eqb (ch ".")) (trim hostname) in
  if str_eqb hostname [] then None else Some (to_ascii_lowercase hostname).

Section Hosts.
(** The matcher of the crate [wildmatch], which ignores case. *)
Context (wild_match : str -> str -> bool).

Definition hostname_matches_any_pattern (hostname : str) (patterns : list str) : bool :=
  existsb (fun pattern =>
    match normalize_hostname pattern with
    | Some pattern => wild_match pattern hostname
    | None => false
    end) patterns.

Definition with_access_modes (modes : option (list AccessModeRequirement))
    (t : ConfigRequirementsToml) : ConfigRequirementsToml :=
  {| allowed_approval_policies := allowed_approval_policies t;
     allowed_approvals_reviewers := allowed_approvals_reviewers t;
     allowed_access_modes := modes; remote_access_config := remote_access_config t;
     allowed_web_search_modes := allowed_web_search_modes t;
     feature_requirements := feature_requirements t; hooks := hooks t;
     mcp_servers := mcp_servers t; apps := apps t; rules := rules t;
     enforce_residency := enforce_residency t; network := network t;
     permissions := permissions t; guardian_policy_config := guardian_policy_config t |}.

Definition apply_remote_access_config (hostname : option str) (t : ConfigRequirementsToml)
    : ConfigRequirementsToml :=
  match remote_access_config t, hostname ≫= normalize_hostname with
  | Some remote_access_config, Some hostname =>
      match List.find (fun config => hostname_matches_any_pattern hostname (hostname_patterns config))
              remote_access_config with
      | Some matched_config => with_access_modes (Some (remote_access_modes matched_config)) t
      | None => t
      end
  | _, _ => t
  end.

End Hosts.

(** ** What all sources require *)

Record Sourced (T : Type) := { sourced_value : T; sourced_source : RequirementSource }.
#[global] Arguments sourced_value {T} _.
#[global] Arguments sourced_source {T} _.
#[global] Arguments Build_Sourced {T} _ _.

Record ConfigRequirementsWithSources := {
  src_allowed_approval_policies : option (Sourced (list AskForApproval));
  src_allowed_approvals_reviewers : option (Sourced (list ApprovalsReviewer));
  src_allowed_access_modes : option (Sourced (list AccessModeRequirement));
  src_allowed_web_search_modes : option (Sourced (list WebSearchMode));
  src_feature_requirements : option (Sourced (gmap str bool));
  src_hooks : option (Sourced ManagedHooksRequirementsToml);
  src_mcp_servers : option (Sourced (gmap str McpServerIdentity));
  src_apps : option (Sourced AppsRequirementsToml);
  src_rules : option (Sourced ConfigRules.RequirementsExecPolicyToml);
  src_enforce_residency : option (Sourced ResidencyRequirement);
  src_network : option (Sourced NetworkRequirementsToml);
  src_permissions : option (Sourced PermissionsRequirementsToml);
  src_guardian_policy_config : option (Sourced str);
}.

Definition nothing_required : ConfigRequirementsWithSources :=
  {| src_allowed_approval_policies := None;
     src_allowed_approvals_reviewers := None;
     src_allowed_access_modes := None;
     src_allowed_web_search_modes := None;
     src_feature_requirements := None;
     src_hooks := None;
     src_mcp_servers := None;
     src_apps := None;
     src_rules := None;
     src_enforce_residency := None;
     src_network := None;
     src_permissions := None;
     src_guardian_policy_config := None |}.

(** [fill_missing_take!] for one field. *)
Definition fill_missing {T} (base : option (Sourced T)) (other : option T)
    (source : RequirementSource) : option (Sourced T) :=
  match base, other with
  | None, Some v => Some {| sourced_value := v; sourced_source := source |}
  | _, _ => base
  end.

Definition merge_unset_fields (self : ConfigRequirementsWithSources) (source : RequirementSource)
    (other : ConfigRequirementsToml) : ConfigRequirementsWithSources :=
  {| src_allowed_approval_policies := fill_missing (src_allowed_approval_policies self)
       (allowed_approval_policies other) source;
     src_allowed_approvals_reviewers := fill_missing (src_allowed_approvals_reviewers self)
       (allowed_approvals_reviewers other) source;
     src_allowed_access_modes := fill_missing (src_allowed_access_modes self)
       (allowed_access_modes other) source;
     src_allowed_web_search_modes := fill_missing (src_allowed_web_search_modes self)
       (allowed_web_search_modes other) source;
     src_feature_requirements := fill_missing (src_feature_requirements self)
       (feature_requirements other) source;
     src_hooks := fill_missing (src_hooks self) (hooks other) source;
     src_mcp_servers := fill_missing (src_mcp_servers self) (mcp_servers other) source;
     src_rules := fill_missing (src_rules self) (rules other) source;
     src_enforce_residency := fill_missing (src_enforce_residency self) (enforce_residency other) source;
     src_network := fill_missing (src_network self) (network other) source;
     src_permissions := fill_missing (src_permissions self) (permissions other) source;
     src_guardian_policy_config := 
       fill_missing (src_guardian_policy_config self)
         (text ← guardian_policy_config other; if is_blank text then None else Some text) source;
     src_apps :=
       match src_apps self, apps other with
       | Some existing_apps, Some incoming_apps =>
           Some {| sourced_value := merge_enablement_settings_descending
                                      (sourced_value existing_apps) incoming_apps;
                   sourced_source := sourced_source existing_apps |}
       | existing_apps, incoming_apps => fill_missing existing_apps incoming_apps source
       end |}.

Definition into_toml (self : ConfigRequirementsWithSources) : ConfigRequirementsToml :=
  {| allowed_approval_policies := sourced_value <$> src_allowed_approval_policies self;
     allowed_approvals_reviewers := sourced_value <$> src_allowed_approvals_reviewers self;
     allowed_access_modes := sourced_value <$> src_allowed_access_modes self;
     allowed_web_search_modes := sourced_value <$> src_allowed_web_search_modes self;
     feature_requirements := sourced_value <$> src_feature_requirements self;
     hooks := sourced_value <$> src_hooks self;
     mcp_servers := sourced_value <$> src_mcp_servers self;
     apps := sourced_value <$> src_apps self;
     rules := sourced_value <$> src_rules self;
     enforce_residency := sourced_value <$> src_enforce_residency self;
     network := sourced_value <$> src_network self;
     permissions := sourced_value <$> src_permissions self;
     guardian_policy_config := sourced_value <$> src_guardian_policy_config self;
     remote_access_config := None |}.

(** *** loader/mod.rs: the sources in order *)

Record LegacyManagedConfigToml := {
  legacy_approval_policy : option AskForApproval;
  legacy_approvals_reviewer : option ApprovalsReviewer;
  legacy_access_mode : option AccessMode;
}.

Definition requirements_of_legacy (legacy : LegacyManagedConfigToml) : ConfigRequirementsToml :=
  {| allowed_approval_policies := (fun policy => [policy]) <$> legacy_approval_policy legacy;
     allowed_approvals_reviewers :=
       (fun reviewer => reviewer :: (if bool_decide (reviewer = ToolSession.ReviewerAutoReview)
                                     then [ToolSession.ReviewerUser] else []))
         <$> legacy_approvals_reviewer legacy;
     allowed_access_modes :=
       (fun mode => ReadOnlyMode :: (if bool_decide (mode_requirement mode = ReadOnlyMode) then []
                                     else [mode_requirement mode])) <$> legacy_access_mode legacy;
     remote_access_config := None; allowed_web_search_modes := None;
     feature_requirements := None; hooks := None; mcp_servers := None; apps := None;
     rules := None; enforce_residency := None; network := None; permissions := None;
     guardian_policy_config := None |}.

(** What was read, from the first source to the last; the second is read on macOS only. *)
Record RequirementFiles := {
  cloud : option ConfigRequirementsToml;
  managed_preferences : option ((str * str) * ConfigRequirementsToml);
  system_requirements : option (str * ConfigRequirementsToml);
  managed_config_from_mdm : option LegacyManagedConfigToml;
  managed_config : option (str * LegacyManagedConfigToml);
}.

Definition requirement_sources (files : RequirementFiles)
    : list (RequirementSource * ConfigRequirementsToml) :=
  match cloud files with Some t => [(CloudRequirements, t)] | None => [] end
  ++ match managed_preferences files with
     | Some ((domain, key), t) => [(MdmManagedPreferences domain key, t)]
     | None => []
     end
  ++ match system_requirements files with
     | Some (file, t) => [(SystemRequirementsToml file, t)]
     | None => []
     end
  ++ match managed_config_from_mdm files with
     | Some t => [(LegacyManagedConfigTomlFromMdm, requirements_of_legacy t)]
     | None => []
     end
  ++ match managed_config files with
     | Some (file, t) => [(LegacyManagedConfigTomlFromFile file, requirements_of_legacy t)]
     | None => []
     end.

Definition merge_requirements_with_remote_access_config (wild_match : str -> str -> bool)
    (host_name : option str) (target : ConfigRequirementsWithSources) (source : RequirementSource)
    (requirements : ConfigRequirementsToml) : ConfigRequirementsWithSources :=
  merge_unset_fields target source (apply_remote_access_config wild_match host_name requirements).

Definition merge_sources (wild_match : str -> str -> bool) (host_name : option str)
    (sources : list (RequirementSource * ConfigRequirementsToml)) : ConfigRequirementsWithSources :=
  fold_left (fun target '(source, requirements) =>
    merge_requirements_with_remote_access_config wild_match host_name target source requirements)
    sources nothing_required.

(** ** The constrained settings *)

Record ConstrainedWithSource (T : Type) := {
  constrained : Constrained T;
  constrained_source : option RequirementSource;
}.
#[global] Arguments constrained {T} _.
#[global] Arguments constrained_source {T} _.
#[global] Arguments Build_ConstrainedWithSource {T} _ _.

Record ConfigRequirements := {
  approval_policy : ConstrainedWithSource AskForApproval;
  approvals_reviewer : ConstrainedWithSource ApprovalsReviewer;
  permission_profile : ConstrainedWithSource PermissionProfile;
  web_search_mode : ConstrainedWithSource WebSearchMode;
  required_features : option (Sourced (gmap str bool));
  managed_hooks : option (ConstrainedWithSource ManagedHooksRequirementsToml);
  required_mcp_servers : option (Sourced (gmap str McpServerIdentity));
  exec_policy : option (Sourced ConfigRules.RequirementsExecPolicy);
  residency : ConstrainedWithSource (option ResidencyRequirement);
  network_constraints : option (Sourced NetworkRequirementsToml);
  filesystem : option (Sourced FilesystemConstraints);
  guardian_policy_config_source : option RequirementSource;
}.

Section Conversion.
Context (H : Host) (debug_hooks : ManagedHooksRequirementsToml -> str).

Definition access_mode_requirement_for_permission_profile (profile : PermissionProfile)
    : AccessModeRequirement :=
  match profile with
  | Disabled => DangerFullAccessMode
  | ExternalProfile _ => ExternalMode
  | Managed _ _ =>
      let file_system_policy := file_system_access_policy H profile in
      if has_full_disk_write_access file_system_policy then DangerFullAccessMode
      else if existsb (fun entry => can_write (access entry)) (entries file_system_policy)
      then WorkspaceWriteMode
      else ReadOnlyMode
  end.

(** One of the values that are listed; the first is the initial one. *)
Definition one_of_listed {T} `{EqDecision T} (debug : T -> str) (field_name : str)
    (requirement_source : RequirementSource) (listed : list T) (candidate : T)
    : result ConstraintError unit :=
  if bool_decide (candidate ∈ listed) then Ok tt
  else Err (InvalidValue field_name (debug candidate) (debug_list debug listed) requirement_source).

Definition constrain_listed {T} `{EqDecision T} (debug : T -> str) (list_name field_name : str)
    (any : T) (required : option (Sourced (list T)))
    : result ConstraintError (ConstrainedWithSource T) :=
  match required with
  | Some {| sourced_value := listed; sourced_source := source |} =>
      match listed with
      | [] => Err (EmptyField list_name)
      | initial_value :: _ =>
          c ← new initial_value (one_of_listed debug field_name source listed);
          Ok {| constrained := c; constrained_source := Some source |}
      end
  | None => Ok {| constrained := allow_any any; constrained_source := None |}
  end.

Definition constrain_permission_profile (required : option (Sourced (list AccessModeRequirement)))
    : result ConstraintError (ConstrainedWithSource PermissionProfile) :=
  match required with
  | Some {| sourced_value := modes; sourced_source := source |} =>
      if negb (bool_decide (ReadOnlyMode ∈ modes)) then
        Err (InvalidValue (lit "allowed_access_modes") (debug_list debug_mode modes)
               (lit "must include 'read-only' to allow any PermissionProfile") source)
      else
        c ← new read_only_profile (fun candidate =>
              one_of_listed debug_mode (lit "access_mode") source modes
                (access_mode_requirement_for_permission_profile candidate));
        Ok {| constrained := c; constrained_source := Some source |}
  | None => Ok {| constrained := allow_any read_only_profile; constrained_source := None |}
  end.

(** The modes in the order of the set they are collected in; the first is always in it. *)
Definition accepted_search_modes (modes : list WebSearchMode) : list WebSearchMode :=
  List.filter (fun mode => bool_decide (mode = SearchDisabled \/ mode ∈ modes))
    [SearchDisabled; SearchCached; SearchLive].

Definition constrain_web_search_mode (required : option (Sourced (list WebSearchMode)))
    : result ConstraintError (ConstrainedWithSource WebSearchMode) :=
  match required with
  | Some {| sourced_value := modes; sourced_source := source |} =>
      let accepted := accepted_search_modes modes in
      let initial_value :=
        if bool_decide (SearchCached ∈ accepted) then SearchCached
        else if bool_decide (SearchLive ∈ accepted) then SearchLive
        else SearchDisabled in
      c ← new initial_value (one_of_listed debug_search (lit "web_search_mode") source accepted);
      Ok {| constrained := c; constrained_source := Some source |}
  | None => Ok {| constrained := allow_any SearchCached; constrained_source := None |}
  end.

(** Exactly the value that is required. *)
Definition exactly {T} `{EqDecision T} (debug : T -> str) (field_name : str)
    (requirement_source : RequirementSource) (required candidate : T)
    : result ConstraintError unit :=
  if bool_decide (candidate = required) then Ok tt
  else Err (InvalidValue field_name (debug candidate) (debug required) requirement_source).

Definition constrain_exactly {T} `{EqDecision T} (debug : T -> str) (field_name : str)
    (source : RequirementSource) (required : T) : result ConstraintError (ConstrainedWithSource T) :=
  c ← new required (exactly debug field_name source required);
  Ok {| constrained := c; constrained_source := Some source |}.

Definition convert_rules (required : option (Sourced ConfigRules.RequirementsExecPolicyToml))
    : result ConstraintError (option (Sourced ConfigRules.RequirementsExecPolicy)) :=
  match required with
  | Some {| sourced_value := rules; sourced_source := source |} =>
      policy ← map_err (ExecPolicyParse source) (ConfigRules.to_requirements_policy rules);
      Ok (Some {| sourced_value := policy; sourced_source := source |})
  | None => Ok None
  end.

Definition try_from (toml : ConfigRequirementsWithSources)
    : result ConstraintError ConfigRequirements :=
  approval_policy ← constrain_listed debug_approval (lit "allowed_approval_policies")
                      (lit "approval_policy") Approval.OnRequest (src_allowed_approval_policies toml);
  approvals_reviewer ← constrain_listed debug_reviewer (lit "allowed_approvals_reviewers")
                         (lit "approvals_reviewer") ToolSession.ReviewerUser
                         (src_allowed_approvals_reviewers toml);
  permission_profile ← constrain_permission_profile (src_allowed_access_modes toml);
  exec_policy ← convert_rules (src_rules toml);
  web_search_mode ← constrain_web_search_mode (src_allowed_web_search_modes toml);
  managed_hooks ←
    match src_hooks toml with
    | Some {| sourced_value := allowed; sourced_source := source |} =>
        if bool_decide (0 < handler_count (managed_hook_events allowed)) then
          c ← constrain_exactly debug_hooks (lit "hooks") source allowed; Ok (Some c)
        else Ok None
    | None => Ok None
    end;
  residency ←
    match src_enforce_residency toml with
    | Some {| sourced_value := residency; sourced_source := source |} =>
        constrain_exactly debug_residency (lit "enforce_residency") source (Some residency)
    | None => Ok {| constrained := allow_any None; constrained_source := None |}
    end;
  Ok {| approval_policy := approval_policy; approvals_reviewer := approvals_reviewer;
        permission_profile := permission_profile; web_search_mode := web_search_mode;
        required_features :=
          match src_feature_requirements toml with
          | Some requirements =>
              if bool_decide (sourced_value requirements = ∅) then None else Some requirements
          | None => None
          end;
        managed_hooks := managed_hooks; required_mcp_servers := src_mcp_servers toml;
        exec_policy := exec_policy; residency := residency;
        network_constraints := src_network toml;
        filesystem :=
          (fun p => {| sourced_value := filesystem_constraints (sourced_value p);
                       sourced_source := sourced_source p |}) <$> src_permissions toml;
        guardian_policy_config_source := sourced_source <$> src_guardian_policy_config toml |}.

End Conversion.

End Requirements.
