(* ===== verification/ManagedSettings.v ===== *)
(** * Settings under requirements: src/core/src/config/mod.rs, src/core/src/session/session.rs

    How the settings that say what a session may do are brought within the requirements
    when the configuration is loaded, and how the session changes them afterwards. *)

From Stdlib Require Import Ascii String.
From S2P Require Import Prelude RustStr AbsPath FsPolicy FsRoots Approval ToolSession Requirements.
Import FsPolicy FsProfile Constraint Requirements.

Module ManagedSettings.

#[export] Instance NetworkAccessPolicy_eq_dec : EqDecision NetworkAccessPolicy.
Proof. solve_decision. Defined.

#[export] Instance ManagedFileSystemPermissions_eq_dec : EqDecision ManagedFileSystemPermissions.
Proof. solve_decision. Defined.

#[export] Instance PermissionProfile_eq_dec : EqDecision PermissionProfile.
Proof. solve_decision. Defined.

(** ** config/mod.rs *)

(** What the flags, the profile and the file say, and what follows from them for files and
    searches on the web. *)
Inductive ProjectTrust := Trusted | Untrusted | NotDecided.

(** Of a server, what the requirements ask about and change. *)
Inductive McpServerTransportConfig :=
| Stdio (command : str) (args : list str)
| StreamableHttp (url : str).

Inductive McpServerDisabledReason :=
| UnknownReason
| DisabledByRequirements (source : RequirementSource).

Record McpServerConfig := {
  transport : McpServerTransportConfig;
  enabled : bool;
  disabled_reason : option McpServerDisabledReason;
}.

Record ConfiguredSettings := {
  approval_policy_override : option AskForApproval;
  profile_approval_policy : option AskForApproval;
  cfg_approval_policy : option AskForApproval;
  active_project : ProjectTrust;
  approvals_reviewer_override : option ApprovalsReviewer;
  profile_approvals_reviewer : option ApprovalsReviewer;
  cfg_approvals_reviewer : option ApprovalsReviewer;
  configured_web_search_mode : option WebSearchMode;
  cfg_mcp_servers : gmap str McpServerConfig;
  configured_permission_profile : PermissionProfile;
  configured_file_system_access_policy : FileSystemAccessPolicy;
  helper_readable_roots : list str;
  resolved_cwd : str;
}.

(** A value that was replaced: its setting, what it was replaced by, and why. The warning
    quotes the texts of these. *)
Record StartupWarning := {
  warning_field : str;
  warning_fallback : str;
  warning_details : ConstraintError;
}.

Inductive LoadError :=
| Disallowed (err : ConstraintError)
| FallbackFailed (field_name : str) (err fallback_err : ConstraintError).

Definition with_value {T} (c : ConstrainedWithSource T) (v : Constrained T)
    : ConstrainedWithSource T :=
  {| constrained := v; constrained_source := constrained_source c |}.

Definition apply_requirement_constrained_value {T} (debug : T -> str) (field_name : str)
    (configured_value : T) (constrained_value : ConstrainedWithSource T)
    (startup_warnings : list StartupWarning)
    : result LoadError (ConstrainedWithSource T * list StartupWarning) :=
  match set (constrained constrained_value) configured_value with
  | Ok c => Ok (with_value constrained_value c, startup_warnings)
  | Err err =>
      let fallback_value := value (constrained constrained_value) in
      let startup_warnings :=
        startup_warnings ++ [{| warning_field := field_name;
                                warning_fallback := debug fallback_value;
                                warning_details := err |}] in
      c ← map_err (FallbackFailed field_name err)
            (set (constrained constrained_value) fallback_value);
      Ok (with_value constrained_value c, startup_warnings)
  | Crash p => Crash p
  end.

(** A default, not set by anybody, gives way to the first value that is required. *)
Definition default_within {T} (c : ConstrainedWithSource T) (explicit : bool) (v : T) : T :=
  if explicit then v
  else match can_set (constrained c) v with Err _ => value (constrained c) | _ => v end.

Definition resolve_approval_policy (s : ConfiguredSettings)
    (c : ConstrainedWithSource AskForApproval) : AskForApproval :=
  let configured := option_or (option_or (approval_policy_override s) (profile_approval_policy s))
                      (cfg_approval_policy s) in
  default_within c (is_set configured)
    (default match active_project s with
             | Trusted => Approval.OnRequest
             | Untrusted => Approval.UnlessTrusted
             | NotDecided => Approval.OnRequest
             end configured).

Definition resolve_approvals_reviewer (s : ConfiguredSettings)
    (c : ConstrainedWithSource ApprovalsReviewer) : ApprovalsReviewer :=
  let configured :=
    option_or (option_or (approvals_reviewer_override s) (profile_approvals_reviewer s))
      (cfg_approvals_reviewer s) in
  default_within c (is_set configured) (default ToolSession.ReviewerUser configured).

Definition resolve_web_search_mode_for_turn (web_search_mode : Constrained WebSearchMode)
    (profile : PermissionProfile) : WebSearchMode :=
  let preferred := value web_search_mode in
  let first_allowed := List.find (fun mode => is_ok (can_set web_search_mode mode)) in
  default SearchDisabled
    (if match profile with Disabled => true | _ => false end
        && negb (bool_decide (preferred = SearchDisabled))
     then first_allowed [SearchLive; SearchCached; SearchDisabled]
     else first_allowed [preferred; SearchCached; SearchLive; SearchDisabled]).

(** *** Servers of tools *)

Definition mcp_server_matches_requirement (requirement : McpServerIdentity) (server : McpServerConfig)
    : bool :=
  match requirement, transport server with
  | McpCommand want_command, Stdio got_command _ => str_eqb got_command want_command
  | McpUrl want_url, StreamableHttp got_url => str_eqb got_url want_url
  | _, _ => false
  end.

Definition filter_mcp_servers_by_requirements
    (mcp_requirements : option (Sourced (gmap str McpServerIdentity)))
    (mcp_servers : gmap str McpServerConfig) : gmap str McpServerConfig :=
  match mcp_requirements with
  | None => mcp_servers
  | Some allowlist =>
      map_imap (fun name server =>
        let allowed := match sourced_value allowlist !! name with
                       | Some requirement => mcp_server_matches_requirement requirement server
                       | None => false
                       end in
        Some (if allowed then
                {| transport := transport server; enabled := enabled server;
                   disabled_reason := None |}
              else
                {| transport := transport server; enabled := false;
                   disabled_reason := Some (DisabledByRequirements (sourced_source allowlist)) |}))
        mcp_servers
  end.

Definition constrain_mcp_servers (mcp_servers : gmap str McpServerConfig)
    (mcp_requirements : option (Sourced (gmap str McpServerIdentity)))
    : result ConstraintError (Constrained (gmap str McpServerConfig)) :=
  match mcp_requirements with
  | None => Ok (allow_any mcp_servers)
  | Some _ => normalized mcp_servers (filter_mcp_servers_by_requirements mcp_requirements)
  end.

Section OnHost.
Context (H : Host) (debug_profile : PermissionProfile -> str).

(** Nothing but a managed profile without full access keeps files from being read. *)
Definition managed_deny_read_validator (requirement_source : RequirementSource)
    (profile : PermissionProfile) : result ConstraintError unit :=
  let mode := access_mode_requirement_for_permission_profile H profile in
  match mode with
  | ReadOnlyMode | WorkspaceWriteMode => Ok tt
  | DangerFullAccessMode | ExternalMode =>
      Err (InvalidValue (lit "access_mode") (debug_mode mode) (lit "[read-only, workspace-write]")
             requirement_source)
  end.

Definition deny_read_entry (pattern : str) : option FileSystemAccessEntry :=
  if contains_glob pattern then Some (entry (GlobPattern pattern) NoAccess)
  else match AbsPath.from_absolute_path (home_dir H) (current_dir H) pattern with
       | Ok path => Some (entry (Path path) NoAccess)
       | _ => None
       end.

Definition push_new_entry (p : FileSystemAccessPolicy) (e : FileSystemAccessEntry)
    : FileSystemAccessPolicy :=
  if existsb (fun existing => entry_eqb existing e) (entries p) then p else push_entry p e.

Definition apply_managed_filesystem_constraints (p : FileSystemAccessPolicy)
    (constraints : FilesystemConstraints) : FileSystemAccessPolicy :=
  fold_left (fun p pattern =>
    match deny_read_entry pattern with Some e => push_new_entry p e | None => p end)
    (deny_read constraints) p.

Definition from_runtime {E} (isolation : FilesystemIsolation) (p : FileSystemAccessPolicy)
    (network : NetworkAccessPolicy) : result E PermissionProfile :=
  map_err (fun e : Empty_set => match e with end)
    (from_runtime_permissions_with_filesystem_isolation isolation p network).

(** The settings of a session, of those of [Permissions] and [Config]. *)
Record Permissions := {
  config_approval_policy : Constrained AskForApproval;
  config_permission_profile : Constrained PermissionProfile;
  config_approvals_reviewer : ApprovalsReviewer;
  config_web_search_mode : Constrained WebSearchMode;
  config_mcp_servers : Constrained (gmap str McpServerConfig);
  config_cwd : str;
}.

(** The requirements on files add a validator. *)
Definition constrain_deny_read (requirements : option (Sourced FilesystemConstraints))
    (c : ConstrainedWithSource PermissionProfile)
    : result LoadError (ConstrainedWithSource PermissionProfile) :=
  match requirements with
  | Some {| sourced_value := constraints; sourced_source := source |} =>
      if bool_decide (deny_read constraints = []) then Ok c
      else
        v ← map_err Disallowed
              (add_validator (constrained c) (managed_deny_read_validator source));
        Ok (with_value c v)
  | None => Ok c
  end.

(** The profile that is enforced: also what the configuration, and the requirements, keep
    from being read. *)
Definition effective_policy (s : ConfiguredSettings)
    (requirements : option (Sourced FilesystemConstraints)) (profile : PermissionProfile)
    : FileSystemAccessPolicy :=
  let p := file_system_access_policy H profile in
  let p :=
    if bool_decide (profile = configured_permission_profile s) then p
    else preserve_deny_read_restrictions_from p (configured_file_system_access_policy s) in
  let p :=
    match requirements with
    | Some constraints => apply_managed_filesystem_constraints p (sourced_value constraints)
    | None => p
    end in
  with_additional_readable_roots H p (resolved_cwd s) (helper_readable_roots s).

(** The part of [load_config_with_layer_stack] that brings the settings within the
    requirements; the proxy for the network, which it makes in between, has its own. *)
Definition enforce_requirements (s : ConfiguredSettings) (requirements : ConfigRequirements)
    : result LoadError (Permissions * list StartupWarning) :=
  '(approval_policy, startup_warnings) ←
    apply_requirement_constrained_value debug_approval (lit "approval_policy")
      (resolve_approval_policy s (approval_policy requirements)) (approval_policy requirements) [];
  permission_profile ← constrain_deny_read (filesystem requirements) (permission_profile requirements);
  '(approvals_reviewer, startup_warnings) ←
    apply_requirement_constrained_value debug_reviewer (lit "approvals_reviewer")
      (resolve_approvals_reviewer s (approvals_reviewer requirements))
      (approvals_reviewer requirements) startup_warnings;
  '(permission_profile, startup_warnings) ←
    apply_requirement_constrained_value debug_profile (lit "permission_profile")
      (configured_permission_profile s) permission_profile startup_warnings;
  '(web_search_mode, startup_warnings) ←
    apply_requirement_constrained_value debug_search (lit "web_search_mode")
      (default SearchCached (configured_web_search_mode s)) (web_search_mode requirements)
      startup_warnings;
  mcp_servers ← map_err Disallowed
                  (constrain_mcp_servers (cfg_mcp_servers s) (required_mcp_servers requirements));
  let profile := value (constrained permission_profile) in
  effective_permission_profile ←
    from_runtime (filesystem_isolation profile) (effective_policy s (filesystem requirements) profile)
      (network_access_policy profile);
  permission_profile ←
    map_err Disallowed (set (constrained permission_profile) effective_permission_profile);
  Ok ({| config_approval_policy := constrained approval_policy;
         config_permission_profile := permission_profile;
         config_approvals_reviewer := value (constrained approvals_reviewer);
         config_web_search_mode := constrained web_search_mode;
         config_mcp_servers := mcp_servers;
         config_cwd := resolved_cwd s |}, startup_warnings).

(** [Permissions::set_permission_profile] *)
Definition set_permission_profile (p : Permissions) (profile : PermissionProfile)
    : result ConstraintError Permissions :=
  _ ← can_set (config_permission_profile p) profile;
  c ← set (config_permission_profile p) profile;
  Ok {| config_approval_policy := config_approval_policy p; config_permission_profile := c;
        config_approvals_reviewer := config_approvals_reviewer p;
        config_web_search_mode := config_web_search_mode p;
        config_mcp_servers := config_mcp_servers p; config_cwd := config_cwd p |}.

(** ** session.rs *)

Record SessionConfiguration := {
  session_approval_policy : Constrained AskForApproval;
  session_approvals_reviewer : ApprovalsReviewer;
  session_permission_profile : Constrained PermissionProfile;
  session_cwd : str;
}.

(** Of the settings of a session, those that say what it may do, as they start. *)
Definition session_configuration (config : Permissions) : SessionConfiguration :=
  {| session_approval_policy := config_approval_policy config;
     session_approvals_reviewer := config_approvals_reviewer config;
     session_permission_profile := config_permission_profile config;
     session_cwd := config_cwd config |}.

Record SessionSettingsUpdate := {
  new_cwd : option str;
  new_approval_policy : option AskForApproval;
  new_approvals_reviewer : option ApprovalsReviewer;
  new_permission_profile : option PermissionProfile;
}.

Definition set_permission_profile_projection (c : SessionConfiguration) (profile : PermissionProfile)
    (preserve_deny_reads_from : option FileSystemAccessPolicy)
    : result ConstraintError SessionConfiguration :=
  let isolation := filesystem_isolation profile in
  let '(policy, network) := to_runtime_permissions H profile in
  let policy :=
    match preserve_deny_reads_from with
    | Some existing => preserve_deny_read_restrictions_from policy existing
    | None => policy
    end in
  effective_permission_profile ← from_runtime isolation policy network;
  permission_profile ← set (session_permission_profile c) effective_permission_profile;
  Ok {| session_approval_policy := session_approval_policy c;
        session_approvals_reviewer := session_approvals_reviewer c;
        session_permission_profile := permission_profile; session_cwd := session_cwd c |}.

(** [relative_to_current_dir] fails when there is no current folder. *)
Definition updated_cwd (c : SessionConfiguration) (cwd : option str) : str :=
  match cwd, current_dir H with
  | Some cwd, Some current => AbsPath.resolve_path_against_base (home_dir H) cwd current
  | _, _ => session_cwd c
  end.

Definition apply (c : SessionConfiguration) (updates : SessionSettingsUpdate)
    : result ConstraintError SessionConfiguration :=
  let current_file_system_access_policy :=
    file_system_access_policy H (value (session_permission_profile c)) in
  approval_policy ←
    match new_approval_policy updates with
    | Some policy => set (session_approval_policy c) policy
    | None => Ok (session_approval_policy c)
    end;
  let next :=
    {| session_approval_policy := approval_policy;
       session_approvals_reviewer :=
         default (session_approvals_reviewer c) (new_approvals_reviewer updates);
       session_permission_profile := session_permission_profile c;
       session_cwd := updated_cwd c (new_cwd updates) |} in
  match new_permission_profile updates with
  | Some profile =>
      set_permission_profile_projection next profile (Some current_file_system_access_policy)
  | None => Ok next
  end.

(** [update_settings]: an update that is rejected changes nothing. *)
Definition update_settings (c : SessionConfiguration) (updates : SessionSettingsUpdate)
    : SessionConfiguration :=
  match apply c updates with Ok updated => updated | _ => c end.

(** The settings that a session gets to. *)
Inductive session_reachable (start : SessionConfiguration) : SessionConfiguration -> Prop :=
| session_start_reachable : session_reachable start start
| session_update_reachable c updates :
    session_reachable start c -> session_reachable start (update_settings c updates).

End OnHost.

End ManagedSettings.
