(* ===== verification/ManagedFacts.v ===== *)
(** * Facts about requirements and the settings under them

    [RequirementsFacts]: what the merged requirements are, when they are accepted, and
    which values they leave. [ManagedFacts]: that the settings of a session stay within
    them, whatever the configuration says and however the session changes them. *)

From Stdlib Require Import Ascii String.
From S2P Require Import Prelude RustStr AbsPath FsPolicy FsRoots FsPolicyFacts ConfigRules.
From S2P Require Import Approval ToolSession Requirements ManagedSettings.
Import AbsPath FsPolicy FsProfile FsPolicyFacts FsAccessFacts Constraint Requirements ManagedSettings.

Module RequirementsFacts.

(** ** Constrained values *)

Definition valid {T} (c : Constrained T) : Prop := validator c (value c) = Ok tt.

Section Values.
Context {T : Type}.

Lemma unit_Ok (x : unit) : x = tt.
Proof. by destruct x. Qed.

Lemma new_Ok (v : T) f c : new v f = Ok c -> valid c /\ validator c = f /\ value c = v /\ normalizer c = None.
Proof. unfold new. intros ([] & Hv & [= <-])%bind_Ok. by split_and!. Qed.

Lemma set_Ok (c c' : Constrained T) (v : T) :
  set c v = Ok c' -> valid c' /\ validator c' = validator c /\ normalizer c' = normalizer c /\
    (normalizer c = None -> value c' = v).
Proof.
  unfold set. intros ([] & Hv & [= <-])%bind_Ok. split_and!; [done..|]. intros Hn. simpl. by rewrite Hn.
Qed.

Lemma set_accepted (c : Constrained T) (v : T) :
  normalizer c = None -> validator c v = Ok tt ->
  set c v = Ok {| value := v; validator := validator c; normalizer := None |}.
Proof. unfold set. intros -> ->. done. Qed.

Lemma add_validator_Ok (c c' : Constrained T) f :
  add_validator c f = Ok c' ->
  valid c' /\ value c' = value c /\ normalizer c' = normalizer c /\
  (forall v, validator c' v = Ok tt <-> validator c v = Ok tt /\ f v = Ok tt).
Proof.
  unfold add_validator. intros ([] & Hv & [= <-])%bind_Ok. split_and!; [done..|]. intros v. simpl.
  rewrite bind_Ok. split; [by intros ([] & ? & ?)|intros []; by exists tt].
Qed.

End Values.

(** ** The merged requirements *)

(** The first of the sources that says something. *)
Fixpoint first_sourced {T} (f : ConfigRequirementsToml -> option T)
    (sources : list (RequirementSource * ConfigRequirementsToml)) : option (Sourced T) :=
  match sources with
  | [] => None
  | (source, t) :: sources =>
      match f t with
      | Some v => Some {| sourced_value := v; sourced_source := source |}
      | None => first_sourced f sources
      end
  end.

(** What some sources say of an app: off if one of them turns it off, else what the first says
    that does not leave it open. *)
Definition settle (says : list (option bool)) : option bool :=
  if bool_decide (Some false ∈ says) then Some false else head (omap id says).

Definition app_setting (l : list AppsRequirementsToml) (app_id : str) : option (option bool) :=
  match omap (fun m => m !! app_id) l with [] => None | says => Some (settle says) end.

Section Merge.
Context (wild_match : str -> str -> bool) (host_name : option str).

Abbreviation on_host := (apply_remote_access_config wild_match host_name).
Abbreviation merge_into := (fold_left (fun target '(source, requirements) =>
  merge_requirements_with_remote_access_config wild_match host_name target source requirements)).

Lemma merged_field {T} (pS : ConfigRequirementsWithSources -> option (Sourced T))
    (pT : ConfigRequirementsToml -> option T) :
  (forall self source other, pS (merge_unset_fields self source other)
     = fill_missing (pS self) (pT other) source) ->
  forall sources self,
  pS (merge_into sources self)
  = match pS self with Some v => Some v | None => first_sourced (fun t => pT (on_host t)) sources end.
Proof.
  intros Hf sources. induction sources as [|[source t] sources IH]; intros self; simpl.
  - by destruct (pS self).
  - rewrite IH. unfold merge_requirements_with_remote_access_config. rewrite Hf.
    by destruct (pS self), (pT (on_host t)).
Qed.

Lemma merge_enablement_lookup (base incoming : AppsRequirementsToml) (app_id : str) :
  merge_enablement_settings_descending base incoming !! app_id
  = match incoming !! app_id with
    | None => base !! app_id
    | Some lower => Some (combine_enablement (default None (base !! app_id)) lower)
    end.
Proof.
  unfold merge_enablement_settings_descending.
  apply (map_fold_weak_ind (fun r m => r !! app_id = match m !! app_id with
    | None => base !! app_id
    | Some lower => Some (combine_enablement (default None (base !! app_id)) lower) end)).
  - by rewrite lookup_empty.
  - intros id x m r Hm Hr. destruct (decide (id = app_id)) as [->|Hne].
    + rewrite !lookup_insert_eq. rewrite Hm in Hr. by rewrite Hr.
    + by rewrite !lookup_insert_ne.
Qed.

Lemma settle_snoc (says : list (option bool)) (lower : option bool) :
  settle (says ++ [lower]) = combine_enablement (settle says) lower.
Proof.
  unfold settle. rewrite omap_app. destruct (decide (Some false ∈ says)) as [Hin|Hout].
  - rewrite !bool_decide_true by set_solver. done.
  - rewrite (bool_decide_false (Some false ∈ says)) by done. destruct lower as [[|]|].
    + rewrite bool_decide_false by set_solver. by destruct (omap id says) as [|[|] t].
    + rewrite bool_decide_true by set_solver. by destruct (omap id says) as [|[|]].
    + rewrite bool_decide_false by set_solver. rewrite app_nil_r.
      by destruct (omap id says) as [|[|]].
Qed.

Lemma app_setting_snoc (l : list AppsRequirementsToml) (m : AppsRequirementsToml) (app_id : str) :
  app_setting (l ++ [m]) app_id
  = match m !! app_id with
    | None => app_setting l app_id
    | Some lower => Some (combine_enablement (default None (app_setting l app_id)) lower)
    end.
Proof.
  unfold app_setting. rewrite omap_app. simpl. destruct (m !! app_id) as [lower|]; simpl;
    [|by rewrite app_nil_r].
  destruct (omap (fun m => m !! app_id) l) as [|x says]; simpl.
  - by destruct lower as [[|]|].
  - by rewrite <-(settle_snoc (x :: says)).
Qed.

(** The apps of the sources that have any. *)
Definition apps_of (sources : list (RequirementSource * ConfigRequirementsToml))
    : list (RequirementSource * AppsRequirementsToml) :=
  omap (fun '(source, t) => m ← apps (on_host t); Some (source, m)) sources.

Lemma merged_apps sources :
  match src_apps (merge_sources wild_match host_name sources) with
  | None => apps_of sources = []
  | Some merged =>
      exists m rest, apps_of sources = (sourced_source merged, m) :: rest /\
        forall app_id, sourced_value merged !! app_id
                       = app_setting (map snd (apps_of sources)) app_id
  end.
Proof.
  unfold merge_sources. induction sources as [|[source t] sources IH] using rev_ind; [done|].
  rewrite fold_left_app. cbn [fold_left]. unfold apps_of in *. rewrite omap_app. simpl.
  set (target := fold_left _ sources _) in *.
  unfold merge_requirements_with_remote_access_config. cbn [src_apps merge_unset_fields].
  destruct (src_apps target) as [existing|] eqn:Ee; destruct (apps (on_host t)) as [m|]; simpl.
  - destruct IH as (m0 & rest & -> & Hv). exists m0, (rest ++ [(source, m)]). split; [done|].
    intros app_id. rewrite merge_enablement_lookup, map_app. cbn [map snd].
    rewrite app_setting_snoc, Hv. done.
  - rewrite app_nil_r. done.
  - rewrite IH. exists m, []. split; [done|]. intros app_id. unfold app_setting. simpl.
    destruct (m !! app_id) as [[[|]|]|]; done.
  - by rewrite IH.
Qed.

(** C33: A setting that administrators require has the value, and the source, of the first source
    that says something about it; an app is off if any source turns it off, and else what
    the first says that does not leave it open. *)
Theorem first_source_decides sources :
  let merged := merge_sources wild_match host_name sources in
  let first {T} (f : ConfigRequirementsToml -> option T) :=
    first_sourced (fun t => f (on_host t)) sources in
  (src_allowed_approval_policies merged = first allowed_approval_policies /\
   src_allowed_approvals_reviewers merged = first allowed_approvals_reviewers /\
   src_allowed_access_modes merged = first allowed_access_modes /\
   src_allowed_web_search_modes merged = first allowed_web_search_modes /\
   src_feature_requirements merged = first feature_requirements /\
   src_hooks merged = first hooks /\
   src_mcp_servers merged = first mcp_servers /\
   src_rules merged = first rules /\
   src_enforce_residency merged = first enforce_residency /\
   src_network merged = first network /\
   src_permissions merged = first permissions /\
   src_guardian_policy_config merged
   = first (fun t => text ← guardian_policy_config t; if is_blank text then None else Some text)) /\
  match src_apps merged with
  | None => apps_of sources = []
  | Some apps =>
      exists m rest, apps_of sources = (sourced_source apps, m) :: rest /\
        forall app_id, sourced_value apps !! app_id
                       = app_setting (map snd (apps_of sources)) app_id
  end.
Proof.
  intros merged first. split; [|apply merged_apps].
  split_and!; refine (merged_field _ _ _ sources nothing_required); reflexivity.
Qed.

End Merge.

(** ** The constrained settings *)

(** The values that a list leaves, if there is one. *)
Definition allowed {T} (required : option (Sourced (list T))) (v : T) : Prop :=
  match required with Some listed => v ∈ sourced_value listed | None => True end.

Definition exact_value {T} (required : option T) (v : T) : Prop :=
  match required with Some r => v = r | None => True end.

(** A setting holds a value it accepts, takes values as they are, and accepts the ones given. *)
Record Settled {T} (c : Constrained T) (accepts : T -> Prop) : Prop := {
  settled_valid : valid c;
  settled_plain : normalizer c = None;
  settled_accepts v : can_set c v = Ok tt <-> accepts v;
  settled_answers v q : can_set c v <> Crash q;
}.

Section Settings.
Context (H : Host) (debug_hooks : ManagedHooksRequirementsToml -> str).

Lemma one_of_listed_Ok {T} `{EqDecision T} (debug : T -> str) field source (listed : list T) (v : T) :
  one_of_listed debug field source listed v = Ok tt <-> v ∈ listed.
Proof. unfold one_of_listed. case_bool_decide; naive_solver. Qed.

Lemma exactly_Ok {T} `{EqDecision T} (debug : T -> str) field source (r v : T) :
  exactly debug field source r v = Ok tt <-> v = r.
Proof. unfold exactly. case_bool_decide; naive_solver. Qed.

Lemma settled_any {T} (v : T) :
  Settled (allow_any v) (fun _ => True).
Proof. by split. Qed.

Lemma one_of_listed_answers {T} `{EqDecision T} (debug : T -> str) field source (listed : list T) v q :
  one_of_listed debug field source listed v <> Crash q.
Proof. unfold one_of_listed. by case_bool_decide. Qed.

Lemma exactly_answers {T} `{EqDecision T} (debug : T -> str) field source (r v : T) q :
  exactly debug field source r v <> Crash q.
Proof. unfold exactly. by case_bool_decide. Qed.

Lemma settled_new {T} (v : T) f c (accepts : T -> Prop) :
  new v f = Ok c -> (forall v, f v = Ok tt <-> accepts v) -> (forall v q, f v <> Crash q) ->
  Settled c accepts.
Proof.
  intros (Hv & Hf & Hval & Hn)%new_Ok Ha Hc.
  split; simpl; [done..| |]; intros v'; unfold can_set; rewrite Hf; [done|apply Hc].
Qed.

Lemma constrain_listed_Ok {T} `{EqDecision T} (debug : T -> str) list_name field any required c :
  constrain_listed debug list_name field any required = Ok c ->
  Settled (constrained c) (allowed required).
Proof.
  unfold constrain_listed, allowed. destruct required as [[[|v l] source]|]; [done| |].
  - intros (c' & Hc & [= <-])%bind_Ok. eapply settled_new; [done|apply one_of_listed_Ok|apply one_of_listed_answers].
  - intros [= <-]. apply settled_any.
Qed.

Lemma constrain_listed_total {T} `{EqDecision T} (debug : T -> str) list_name field any required :
  (exists c, constrain_listed debug list_name field any required = Ok c) <->
  (forall source, required <> Some {| sourced_value := []; sourced_source := source |}).
Proof.
  unfold constrain_listed. destruct required as [[[|v l] source]|]; simpl.
  - split; [by intros [c Hc]|]. intros Hn. by destruct (Hn source).
  - split; [by intros _ source'|]. intros _. unfold new, one_of_listed.
    rewrite bool_decide_true by by left. eexists. reflexivity.
  - split; [by intros _ source'|]. intros _. eexists. reflexivity.
Qed.

(** A profile counts by its mode. *)
Definition mode_of (profile : PermissionProfile) : AccessModeRequirement :=
  access_mode_requirement_for_permission_profile H profile.

Lemma read_only_mode : mode_of read_only_profile = ReadOnlyMode.
Proof. reflexivity. Qed.

Lemma constrain_profile_Ok required c :
  constrain_permission_profile H required = Ok c ->
  Settled (constrained c) (fun profile => allowed required (mode_of profile)) /\ allowed required ReadOnlyMode
  /\ value (constrained c) = read_only_profile.
Proof.
  unfold constrain_permission_profile, allowed. destruct required as [[modes source]|]; simpl.
  - case_bool_decide as Hm; [|done]. intros (c' & Hc & [= <-])%bind_Ok.
    split_and!; [|done|by apply new_Ok in Hc as (_ & _ & ? & _)].
    eapply settled_new; [done|intros v; apply one_of_listed_Ok|intros v; apply one_of_listed_answers].
  - intros [= <-]. split_and!; [apply settled_any|done|done].
Qed.

Lemma constrain_profile_total required :
  (exists c, constrain_permission_profile H required = Ok c) <-> allowed required ReadOnlyMode.
Proof.
  unfold constrain_permission_profile, allowed. destruct required as [[modes source]|]; simpl.
  - case_bool_decide as Hm; simpl; split; try done; [|by intros [c Hc]]. intros _. unfold new.
    rewrite (read_only_mode : access_mode_requirement_for_permission_profile H _ = _).
    unfold one_of_listed. rewrite bool_decide_true by done. eexists. reflexivity.
  - split; [done|]. intros _. eexists. reflexivity.
Qed.

Definition allowed_search (required : option (Sourced (list WebSearchMode))) (v : WebSearchMode) : Prop :=
  v = SearchDisabled \/ allowed required v.

Lemma accepted_search_spec modes v : v ∈ accepted_search_modes modes <-> v = SearchDisabled \/ v ∈ modes.
Proof.
  unfold accepted_search_modes. rewrite list_elem_of_In, filter_In, bool_decide_eq_true.
  split; [by intros [_ ?]|]. intros Hv. split; [|done]. destruct v; simpl; auto.
Qed.

Lemma constrain_search_Ok required c :
  constrain_web_search_mode required = Ok c ->
  Settled (constrained c) (allowed_search required).
Proof.
  unfold constrain_web_search_mode, allowed_search, allowed. destruct required as [[modes source]|]; simpl.
  - intros (c' & Hc & [= <-])%bind_Ok. eapply settled_new; [done| |apply one_of_listed_answers].
    intros v. rewrite one_of_listed_Ok. apply accepted_search_spec.
  - intros [= <-]. split; [done..| |done]. intros v. split; auto.
Qed.

Lemma constrain_search_total required : exists c, constrain_web_search_mode required = Ok c.
Proof.
  unfold constrain_web_search_mode. destruct required as [[modes source]|]; [|by eexists].
  set (initial := if bool_decide (SearchCached ∈ _) then _ else _).
  assert (initial ∈ accepted_search_modes modes) as Hin.
  { unfold initial. case_bool_decide; [done|]. case_bool_decide; [done|].
    apply accepted_search_spec. by left. }
  unfold new. rewrite (proj2 (one_of_listed_Ok _ _ _ _ _) Hin). by eexists.
Qed.

Lemma constrain_exactly_Ok {T} `{EqDecision T} (debug : T -> str) field source (r : T) c :
  constrain_exactly debug field source r = Ok c -> Settled (constrained c) (fun v => v = r).
Proof.
  unfold constrain_exactly. intros (c' & Hc & [= <-])%bind_Ok. eapply settled_new; [done|apply exactly_Ok|].
  apply exactly_answers.
Qed.

Lemma constrain_exactly_total {T} `{EqDecision T} (debug : T -> str) field source (r : T) :
  exists c, constrain_exactly debug field source r = Ok c.
Proof. unfold constrain_exactly, new, exactly. rewrite bool_decide_true by done. by eexists. Qed.

(** What follows from requirements that are accepted. *)
Record Conforms (toml : ConfigRequirementsWithSources) (r : ConfigRequirements) : Prop := {
  conforms_approval : Settled (constrained (approval_policy r)) (allowed (src_allowed_approval_policies toml));
  conforms_reviewer : Settled (constrained (approvals_reviewer r)) (allowed (src_allowed_approvals_reviewers toml));
  conforms_profile : Settled (constrained (permission_profile r))
    (fun profile => allowed (src_allowed_access_modes toml) (mode_of profile));
  conforms_read_only : allowed (src_allowed_access_modes toml) ReadOnlyMode;
  conforms_initial_profile : value (constrained (permission_profile r)) = read_only_profile;
  conforms_search : Settled (constrained (web_search_mode r)) (allowed_search (src_allowed_web_search_modes toml));
  conforms_servers : required_mcp_servers r = src_mcp_servers toml;
  conforms_filesystem : filesystem r =
    (fun p => {| sourced_value := filesystem_constraints (sourced_value p);
                 sourced_source := sourced_source p |}) <$> src_permissions toml;
}.

Lemma try_from_Ok toml r : try_from H debug_hooks toml = Ok r -> Conforms toml r.
Proof.
  unfold try_from. intros (c1 & H1 & Hr)%bind_Ok. apply bind_Ok in Hr as (c2 & H2 & Hr).
  apply bind_Ok in Hr as (c3 & H3 & Hr). apply bind_Ok in Hr as (p & _ & Hr).
  apply bind_Ok in Hr as (c4 & H4 & Hr). apply bind_Ok in Hr as (h & _ & Hr).
  apply bind_Ok in Hr as (res & _ & [= <-]).
  apply constrain_profile_Ok in H3 as (H3 & Hro & Hv).
  split; simpl; [by eapply constrain_listed_Ok..|done|done|done|by apply constrain_search_Ok|done|done].
Qed.

(** Requirements are accepted exactly when neither list of approval settings is empty, the
    access modes include read-only, and the rules, if there are any, can be read. *)
Theorem requirements_accepted (toml : ConfigRequirementsWithSources) :
  (exists r, try_from H debug_hooks toml = Ok r) <->
  (forall source, src_allowed_approval_policies toml
                  <> Some {| sourced_value := []; sourced_source := source |}) /\
  (forall source, src_allowed_approvals_reviewers toml
                  <> Some {| sourced_value := []; sourced_source := source |}) /\
  allowed (src_allowed_access_modes toml) ReadOnlyMode /\
  (forall rules, src_rules toml = Some rules ->
     exists policy, ConfigRules.to_requirements_policy (sourced_value rules) = Ok policy).
Proof.
  rewrite <-(constrain_listed_total debug_approval (lit "allowed_approval_policies")
    (lit "approval_policy") Approval.OnRequest).
  rewrite <-(constrain_listed_total debug_reviewer (lit "allowed_approvals_reviewers")
    (lit "approvals_reviewer") ToolSession.ReviewerUser).
  rewrite <-constrain_profile_total. unfold try_from. split.
  - intros [r (c1 & H1 & Hr)%bind_Ok]. apply bind_Ok in Hr as (c2 & H2 & Hr).
    apply bind_Ok in Hr as (c3 & H3 & Hr). apply bind_Ok in Hr as (p & Hp & _).
    split_and!; [by eexists..|]. intros [rules source] Hs. unfold convert_rules in Hp. rewrite Hs in Hp.
    apply bind_Ok in Hp as (policy & Hp & _). exists policy. by apply map_err_Ok in Hp.
  - intros ([c1 ->] & [c2 ->] & [c3 ->] & Hrules). cbn.
    assert (exists p, convert_rules (src_rules toml) = Ok p) as [p ->].
    { unfold convert_rules. destruct (src_rules toml) as [[rules source]|]; [|by eexists].
      destruct (Hrules _ eq_refl) as [policy Hp]. simpl in Hp. rewrite Hp. by eexists. }
    destruct (constrain_search_total (src_allowed_web_search_modes toml)) as [c4 ->]. cbn.
    destruct (src_hooks toml) as [[hooks source]|]; cbn; [case_bool_decide|]; cbn.
    + destruct (constrain_exactly_total debug_hooks (lit "hooks") source hooks) as [ch ->]. cbn.
      destruct (src_enforce_residency toml) as [[r source']|]; [|by eexists].
      by destruct (constrain_exactly_total debug_residency (lit "enforce_residency") source' (Some r)) as [cr ->]; eexists.
    + destruct (src_enforce_residency toml) as [[r source']|]; [|by eexists].
      by destruct (constrain_exactly_total debug_residency (lit "enforce_residency") source' (Some r)) as [cr ->]; eexists.
    + destruct (src_enforce_residency toml) as [[r source']|]; [|by eexists].
      by destruct (constrain_exactly_total debug_residency (lit "enforce_residency") source' (Some r)) as [cr ->]; eexists.
Qed.

End Settings.

End RequirementsFacts.

Module ManagedFacts.
Import RequirementsFacts.

(** ** Constrained values in use *)

Section Values.
Context {T : Type} (debug : T -> str).

Lemma settled_holds (c : Constrained T) accepts : Settled c accepts -> accepts (value c).
Proof. intros [Hv _ Ha _]. by apply Ha. Qed.

Lemma settled_same (c c' : Constrained T) accepts :
  Settled c accepts -> validator c' = validator c -> valid c' -> normalizer c' = None ->
  Settled c' accepts.
Proof. intros [_ _ Ha Hq] Hval Hv Hn. split; [done..| |]; unfold can_set; by rewrite Hval. Qed.

Lemma settled_set (c : Constrained T) accepts v :
  Settled c accepts ->
  (accepts v /\ exists c', set c v = Ok c' /\ Settled c' accepts /\ value c' = v)
  \/ (~ accepts v /\ exists e, set c v = Err e).
Proof.
  intros HS. destruct (validator c v) as [[]|e|q] eqn:E.
  - left. split; [by apply HS|]. rewrite set_accepted by first [done|by apply HS].
    eexists. split; [done|]. split; [|done]. by eapply settled_same.
  - right. split; [|exists e; unfold set; by rewrite (settled_plain _ _ HS), E].
    intros Hacc%HS. unfold can_set in Hacc. congruence.
  - by destruct (settled_answers _ _ HS v q).
Qed.

(** What becomes of a configured value: it is taken if it may be, and else the value that was
    there stays, with one warning. *)
Lemma constrained_value_total (c : ConstrainedWithSource T) accepts field v warnings :
  Settled (constrained c) accepts ->
  exists c' warnings',
    apply_requirement_constrained_value debug field v c warnings = Ok (c', warnings')
    /\ Settled (constrained c') accepts
    /\ (accepts v /\ value (constrained c') = v /\ warnings' = warnings
        \/ ~ accepts v /\ value (constrained c') = value (constrained c)
           /\ exists w, warnings' = warnings ++ [w] /\ warning_field w = field).
Proof.
  intros HS. unfold apply_requirement_constrained_value.
  destruct (settled_set (constrained c) accepts v HS) as [(Hacc & c' & -> & Hc' & Hv)|(Hrej & e & ->)].
  - eexists _, _. split; [done|]. split; [done|]. by left.
  - destruct (settled_set (constrained c) accepts (value (constrained c)) HS) as [(_ & c' & -> & Hc' & Hv)|[[] _]];
      [|by apply settled_holds].
    eexists _, _. split; [done|]. split; [done|]. right. split_and!; [done..|]. by eexists.
Qed.

Lemma constrained_value_Ok (c c' : ConstrainedWithSource T) accepts field v warnings warnings' :
  Settled (constrained c) accepts ->
  apply_requirement_constrained_value debug field v c warnings = Ok (c', warnings') ->
  Settled (constrained c') accepts
  /\ (value (constrained c') = v \/ value (constrained c') = value (constrained c)).
Proof.
  intros HS E. destruct (constrained_value_total c accepts field v warnings HS)
    as (c1 & w1 & E1 & ? & Hv). rewrite E in E1. simplify_eq. naive_solver.
Qed.

End Values.

(** ** Servers of tools *)

(** A requirement names the command of a server, whatever its arguments, or its address. *)
Definition describes (requirement : McpServerIdentity) (server : McpServerConfig) : Prop :=
  match requirement, transport server with
  | McpCommand command, Stdio command' _ => command' = command
  | McpUrl url, StreamableHttp url' => url' = url
  | _, _ => False
  end.

Lemma matches_describes requirement server :
  mcp_server_matches_requirement requirement server = true <-> describes requirement server.
Proof.
  unfold mcp_server_matches_requirement, describes.
  destruct requirement, (transport server); by rewrite ?str_eqb_eq.
Qed.

(** Every server that is enabled is one that is required by its name. *)
Definition servers_within (required : option (Sourced (gmap str McpServerIdentity)))
    (servers : gmap str McpServerConfig) : Prop :=
  match required with
  | None => True
  | Some listed =>
      forall name server, servers !! name = Some server -> enabled server = true ->
        exists requirement, sourced_value listed !! name = Some requirement
          /\ describes requirement server
  end.

Lemma filter_within required servers :
  servers_within required (filter_mcp_servers_by_requirements required servers).
Proof.
  unfold servers_within, filter_mcp_servers_by_requirements. destruct required as [listed|]; [|done].
  intros name server. rewrite map_lookup_imap. intros (server0 & _ & [= <-])%bind_Some.
  destruct (sourced_value listed !! name) as [requirement|]; [|done].
  destruct (mcp_server_matches_requirement requirement server0) eqn:E; [|done].
  intros _. exists requirement. split; [done|]. by apply matches_describes in E.
Qed.

Lemma constrain_mcp_servers_total servers required :
  exists c, constrain_mcp_servers servers required = Ok c.
Proof. destruct required; by eexists. Qed.

Lemma constrain_mcp_servers_within servers required c :
  constrain_mcp_servers servers required = Ok c ->
  servers_within required (value c)
  /\ forall servers' c', set c servers' = Ok c' -> servers_within required (value c').
Proof.
  unfold constrain_mcp_servers. destruct required as [listed|]; [|done]. intros [= <-].
  split; [apply (filter_within (Some listed))|]. unfold set. simpl.
  intros servers' c' [= <-]. apply (filter_within (Some listed)).
Qed.

(** ** Entries that keep files from being read *)

(** What entries are compared by. *)
Definition path_key (p : FileSystemPath) : option (list Component) * option str *
    option (FileSystemSpecialPath * option (list Component)) :=
  match p with
  | Path path => (Some (components path), None, None)
  | GlobPattern pattern => (None, Some pattern, None)
  | Special (ProjectRoots sub) => (None, None, Some (ProjectRoots None, components <$> sub))
  | Special (Unknown path sub) => (None, None, Some (Unknown path None, components <$> sub))
  | Special special => (None, None, Some (special, None))
  end.

Lemma entry_eqb_keys (a b : FileSystemAccessEntry) :
  entry_eqb a b = true <-> path_key (entry_path a) = path_key (entry_path b) /\ access a = access b.
Proof.
  unfold entry_eqb. rewrite andb_true_iff, bool_decide_eq_true.
  enough (file_system_path_eqb (entry_path a) (entry_path b) = true
          <-> path_key (entry_path a) = path_key (entry_path b)) as -> by done.
  destruct (entry_path a) as [p|p|[| |s| | |p s]], (entry_path b) as [q|q|[| |t| | |q t]]; simpl;
    unfold path_eqb; rewrite ?andb_true_iff, ?bool_decide_eq_true, ?str_eqb_eq;
    (split; [by repeat intros [-> ->] || intros ->|by intros [=]; subst; repeat split]).
Qed.

Lemma entry_eqb_itself (e : FileSystemAccessEntry) : entry_eqb e e = true.
Proof. by apply entry_eqb_keys. Qed.

Lemma entry_eqb_trans (a b c : FileSystemAccessEntry) :
  entry_eqb a b = true -> entry_eqb b c = true -> entry_eqb a c = true.
Proof. rewrite !entry_eqb_keys. intros [-> ->] [-> ->]. done. Qed.

Lemma elem_of_not_nil {A} (x : A) (l : list A) : x ∈ l -> l <> [].
Proof. by intros Hx ->; apply not_elem_of_nil in Hx. Qed.

(** The policy has the entry. *)
Definition has_entry (p : FileSystemAccessPolicy) (e : FileSystemAccessEntry) : Prop :=
  exists x, x ∈ entries p /\ entry_eqb x e = true.

Definition add_missing (es : list FileSystemAccessEntry) (d : FileSystemAccessEntry) :=
  if existsb (fun e => entry_eqb e d) es then es else es ++ [d].

Lemma add_missing_spec (es : list FileSystemAccessEntry) (d : FileSystemAccessEntry) :
  (exists more, add_missing es d = es ++ more /\ more ⊆ [d])
  /\ exists x, x ∈ add_missing es d /\ entry_eqb x d = true.
Proof.
  unfold add_missing. destruct (existsb _ es) eqn:E.
  - split; [exists []; split; [by rewrite app_nil_r|set_solver]|].
    apply existsb_exists in E as (x & Hx & He). exists x. by rewrite list_elem_of_In.
  - split; [by exists [d]|]. exists d. split; [set_solver|apply entry_eqb_itself].
Qed.

Lemma fold_add_missing (ds es : list FileSystemAccessEntry) :
  (exists more, fold_left add_missing ds es = es ++ more /\ more ⊆ ds)
  /\ forall d, d ∈ ds -> exists x, x ∈ fold_left add_missing ds es /\ entry_eqb x d = true.
Proof.
  revert es. induction ds as [|d ds IH]; intros es; simpl.
  - split; [exists []; by rewrite app_nil_r|set_solver].
  - destruct (add_missing_spec es d) as ((more & Hm & Hin) & (x & Hx & He)).
    destruct (IH (add_missing es d)) as ((more' & Hm' & Hin') & Hd). split.
    + exists (more ++ more'). rewrite Hm', Hm, app_assoc. split; [done|set_solver].
    + intros d' [->|Hd']%elem_of_cons; [|by apply Hd]. exists x. split; [|done].
      rewrite Hm'. by apply elem_of_app; left.
Qed.

(** ** Policies that keep files from being read *)

Section OnHost.
Context (H : Host).

(** The profile is enforced here, and keeps what the entry names from being read. *)
Definition keeps (p : FileSystemAccessPolicy) (e : FileSystemAccessEntry) : Prop :=
  policy_kind p = Restricted /\ has_entry p e.

Lemma keeps_more (p q : FileSystemAccessPolicy) (e : FileSystemAccessEntry) :
  policy_kind q = policy_kind p -> entries p ⊆ entries q -> keeps p e -> keeps q e.
Proof. intros Hk Hs [Hp (x & Hx & He)]. split; [congruence|]. exists x. auto. Qed.

Lemma push_new_spec (p : FileSystemAccessPolicy) (e : FileSystemAccessEntry) :
  push_new_entry p e = with_entries p (add_missing (entries p) e).
Proof. unfold push_new_entry, add_missing, push_entry. case_match; [by destruct p|done]. Qed.

Lemma managed_constraints_spec (constraints : FilesystemConstraints) (p : FileSystemAccessPolicy) :
  apply_managed_filesystem_constraints H p constraints
  = with_entries p (fold_left add_missing (omap (deny_read_entry H) (deny_read constraints)) (entries p)).
Proof.
  unfold apply_managed_filesystem_constraints. generalize (deny_read constraints) as patterns.
  intros patterns. revert p. induction patterns as [|pattern patterns IH]; intros p; simpl;
    [by destruct p|]. rewrite IH. destruct (deny_read_entry H pattern); [|done].
  by rewrite push_new_spec.
Qed.

Lemma preserve_kind (self existing : FileSystemAccessPolicy) :
  policy_kind self = Restricted ->
  policy_kind (preserve_deny_read_restrictions_from self existing) = Restricted
  /\ exists more, entries (preserve_deny_read_restrictions_from self existing) = entries self ++ more
     /\ Forall (fun e => access e = NoAccess) more.
Proof.
  intros Hk. unfold preserve_deny_read_restrictions_from, is_restricted.
  rewrite (bool_decide_false (policy_kind self = Unrestricted)) by congruence. cbn.
  rewrite (bool_decide_true _ Hk). split; [done|].
  destruct (fold_add_missing (List.filter (fun e => bool_decide (access e = NoAccess)) (entries existing))
    (entries self)) as ((more & Hm & Hin) & _).
  exists more. split; [done|]. apply Forall_forall. intros e He%Hin.
  rewrite list_elem_of_In, filter_In, bool_decide_eq_true in He. apply He.
Qed.

Lemma preserve_keeps (self existing : FileSystemAccessPolicy) (e : FileSystemAccessEntry) :
  policy_kind self <> External -> access e = NoAccess -> has_entry existing e ->
  keeps (preserve_deny_read_restrictions_from self existing) e.
Proof.
  intros Hk Ha (x & Hx & Hxe). unfold preserve_deny_read_restrictions_from.
  set (denied := List.filter _ (entries existing)).
  assert (x ∈ denied) as Hin.
  { unfold denied. apply list_elem_of_In, filter_In. rewrite <-list_elem_of_In, bool_decide_eq_true.
    split; [done|]. apply entry_eqb_keys in Hxe as [_ ->]. done. }
  set (self' := if _ && _ then _ else self).
  assert (policy_kind self' = Restricted) as Hk'.
  { unfold self'. rewrite (bool_decide_false (denied = [])) by (by eapply elem_of_not_nil).
    destruct (policy_kind self) eqn:E; try done; by rewrite ?bool_decide_true. }
  unfold is_restricted. rewrite (bool_decide_true _ Hk'). split; [done|].
  destruct (fold_add_missing denied (entries self')) as [_ Hd].
  destruct (Hd x Hin) as (y & Hy & Hyx). exists y. split; [done|]. by eapply entry_eqb_trans.
Qed.

Lemma readable_roots_spec (p : FileSystemAccessPolicy) cwd roots :
  policy_kind (with_additional_readable_roots H p cwd roots) = policy_kind p
  /\ exists more, entries (with_additional_readable_roots H p cwd roots) = entries p ++ more
      /\ Forall (fun e => access e = Read) more.
Proof.
  unfold with_additional_readable_roots. case_match; [by split; [|exists []; rewrite app_nil_r]|].
  clear. revert p. induction roots as [|root roots IH]; intros p; simpl;
    [by split; [|exists []; rewrite app_nil_r]|].
  destruct (can_read_path_with_cwd H p root cwd); [apply IH|].
  destruct (IH (push_entry p (entry (Path root) Read))) as [Hk (more & Hm & Hr)].
  split; [done|]. exists (entry (Path root) Read :: more). rewrite Hm. simpl.
  rewrite <-app_assoc. split; [done|by constructor].
Qed.

(** A profile that counts as read-only or as writing to the workspace lists its entries. *)
Definition confined (profile : PermissionProfile) : Prop :=
  mode_of H profile = ReadOnlyMode \/ mode_of H profile = WorkspaceWriteMode.

Lemma confined_restricted (profile : PermissionProfile) :
  confined profile -> policy_kind (file_system_access_policy H profile) = Restricted
    /\ filesystem_isolation profile = IsolationManaged.
Proof.
  unfold confined, mode_of. destruct profile as [[es depth|] network| |network]; simpl.
  - intros _. by case_bool_decide.
  - by intros [].
  - by intros [].
  - by intros [].
Qed.

Lemma from_runtime_keeps {E} isolation (p : FileSystemAccessPolicy) network profile e :
  keeps p e -> from_runtime (E := E) isolation p network = Ok profile ->
  keeps (file_system_access_policy H profile) e.
Proof.
  intros [Hk (x & Hx & He)]. unfold from_runtime, from_runtime_permissions_with_filesystem_isolation,
    from_access_policy. rewrite Hk. simpl. intros [= <-]. simpl.
  rewrite (bool_decide_false (entries p = [])) by (by eapply elem_of_not_nil). split; [done|]. by exists x.
Qed.

(** ** What the requirements leave *)

(** The entries for the files that may not be read. *)
Definition required_patterns (toml : ConfigRequirementsWithSources) : list str :=
  match src_permissions toml with
  | Some required => deny_read (filesystem_constraints (sourced_value required))
  | None => []
  end.

Definition required_denials (toml : ConfigRequirementsWithSources) : list FileSystemAccessEntry :=
  omap (deny_read_entry H) (required_patterns toml).

Definition leaves (toml : ConfigRequirementsWithSources) (profile : PermissionProfile) : Prop :=
  allowed (src_allowed_access_modes toml) (mode_of H profile)
  /\ (required_patterns toml <> [] -> confined profile).

Lemma deny_read_validator_Ok source profile :
  managed_deny_read_validator H source profile = Ok tt <-> confined profile.
Proof.
  unfold managed_deny_read_validator, confined, mode_of.
  destruct (access_mode_requirement_for_permission_profile H profile); naive_solver.
Qed.

Lemma deny_read_validator_answers source profile q :
  managed_deny_read_validator H source profile <> Crash q.
Proof. unfold managed_deny_read_validator. by case_match. Qed.

Lemma settled_add_validator {T} (c c' : Constrained T) accepts f (also : T -> Prop) :
  Settled c accepts -> (forall v, f v = Ok tt <-> also v) -> (forall v q, f v <> Crash q) ->
  add_validator c f = Ok c' -> Settled c' (fun v => accepts v /\ also v) /\ value c' = value c.
Proof.
  intros HS Hf Hq. unfold add_validator. intros ([] & Hv & [= <-])%bind_Ok. split; [|done].
  split; [done|by apply HS| |]; unfold can_set; simpl; intros v.
  - rewrite bind_Ok. rewrite <-Hf, <-(settled_accepts _ _ HS). unfold can_set. split.
    + by intros ([] & -> & ->).
    + intros [-> ->]. by exists tt.
  - intros q. pose proof (settled_answers _ _ HS v) as Hc. unfold can_set in Hc.
    destruct (validator c v) as [[]|e|q']; simpl; [apply Hq|done|]. intros _. by apply (Hc q').
Qed.

Lemma settled_weaken {T} (c : Constrained T) (P Q : T -> Prop) :
  (forall v, P v <-> Q v) -> Settled c P -> Settled c Q.
Proof. intros HPQ [Hv Hn Ha Hq]. split; [done..| |done]. intros v. by rewrite Ha. Qed.

Lemma constrain_deny_read_Ok debug_hooks toml r c :
  try_from H debug_hooks toml = Ok r ->
  constrain_deny_read H (filesystem r) (permission_profile r) = Ok c ->
  Settled (constrained c) (leaves toml) /\ value (constrained c) = read_only_profile.
Proof.
  intros [_ _ Hp Hro Hv _ _ Hfs]%try_from_Ok. unfold constrain_deny_read, leaves, required_patterns.
  rewrite Hfs. destruct (src_permissions toml) as [[p source]|]; simpl.
  - case_bool_decide as Hd.
    + intros [= <-]. split; [|done]. eapply settled_weaken; [|done]. naive_solver.
    + intros (c' & Hadd%map_err_Ok & [= <-])%bind_Ok.
      eapply settled_add_validator in Hadd as [HS Hval];
        [|done|apply deny_read_validator_Ok|apply deny_read_validator_answers].
      split; [|simpl; congruence]. eapply settled_weaken; [|done]. naive_solver.
  - intros [= <-]. split; [|done]. eapply settled_weaken; [|done]. naive_solver.
Qed.

(** What holds of the settings of a session. *)
Record WithinRequirements (toml : ConfigRequirementsWithSources)
    (approval : Constrained AskForApproval) (profile : Constrained PermissionProfile) : Prop := {
  within_approval : Settled approval (allowed (src_allowed_approval_policies toml));
  within_profile : Settled profile (leaves toml);
  within_denials e : e ∈ required_denials toml ->
    keeps (file_system_access_policy H (value profile)) e;
}.

Lemma denials_nonempty (toml : ConfigRequirementsWithSources) (e : FileSystemAccessEntry) :
  e ∈ required_denials toml -> required_patterns toml <> [].
Proof. unfold required_denials. intros He Hn. rewrite Hn in He. by apply not_elem_of_nil in He. Qed.

Lemma denials_deny (toml : ConfigRequirementsWithSources) (e : FileSystemAccessEntry) :
  e ∈ required_denials toml -> access e = NoAccess.
Proof.
  intros (pattern & _ & He)%list_elem_of_omap. unfold deny_read_entry in He.
  repeat case_match; by simplify_eq.
Qed.

Lemma effective_policy_keeps debug_hooks toml r (s : ConfiguredSettings) profile e :
  try_from H debug_hooks toml = Ok r -> confined profile -> e ∈ required_denials toml ->
  keeps (effective_policy H s (filesystem r) profile) e.
Proof.
  intros Hr%try_from_Ok [Hk _]%confined_restricted He. unfold effective_policy.
  set (p := if bool_decide _ then _ else _).
  assert (policy_kind p = Restricted) as Hkp.
  { unfold p. case_bool_decide; [done|by apply preserve_kind]. }
  rewrite (conforms_filesystem _ _ _ Hr). unfold required_denials, required_patterns in He.
  destruct (src_permissions toml) as [required|]; [|by apply not_elem_of_nil in He]. simpl.
  rewrite managed_constraints_spec.
  set (q := with_entries _ _).
  destruct (readable_roots_spec q (resolved_cwd s) (helper_readable_roots s)) as [Hkq (more & Hm & _)].
  apply keeps_more with q; [done|rewrite Hm; by apply list_subseteq_app_l|].
  split; [done|]. by apply fold_add_missing.
Qed.

Lemma enforce_within debug_profile debug_hooks toml r (s : ConfiguredSettings) config warnings :
  try_from H debug_hooks toml = Ok r ->
  enforce_requirements H debug_profile s r = Ok (config, warnings) ->
  WithinRequirements toml (config_approval_policy config) (config_permission_profile config)
  /\ allowed (src_allowed_approvals_reviewers toml) (config_approvals_reviewer config)
  /\ Settled (config_web_search_mode config) (allowed_search (src_allowed_web_search_modes toml))
  /\ servers_within (src_mcp_servers toml) (value (config_mcp_servers config))
  /\ forall servers c, set (config_mcp_servers config) servers = Ok c ->
       servers_within (src_mcp_servers toml) (value c).
Proof.
  intros Hr He. pose proof (try_from_Ok _ _ _ _ Hr) as C. unfold enforce_requirements in He.
  apply bind_Ok in He as ([c1 w1] & H1 & He). apply bind_Ok in He as (c0 & H0 & He).
  apply bind_Ok in He as ([c2 w2] & H2 & He). apply bind_Ok in He as ([c3 w3] & H3 & He).
  apply bind_Ok in He as ([c4 w4] & H4 & He). apply bind_Ok in He as (servers & Hm%map_err_Ok & He).
  apply bind_Ok in He as (effective & He & Hset).
  apply bind_Ok in Hset as (c5 & Hset%map_err_Ok & [= <- <-]). simpl.
  eapply constrained_value_Ok in H1 as [H1 _]; [|apply C].
  eapply constrained_value_Ok in H2 as [H2 _]; [|apply C].
  eapply constrained_value_Ok in H4 as [H4 _]; [|apply C].
  eapply constrain_deny_read_Ok in H0 as [H0 _]; [|done].
  eapply constrained_value_Ok in H3 as [H3 _]; [|done].
  apply constrain_mcp_servers_within in Hm as [Hm Hmset].
  rewrite (conforms_servers _ _ _ C) in Hm, Hmset.
  split_and!; [|by apply settled_holds in H2|done|done|done].
  destruct (settled_set (constrained c3) _ effective H3) as [(Hl & c' & Hc & HS & Hv)|(_ & e & Hc)];
    [|congruence].
  rewrite Hset in Hc. injection Hc as <-. split; [done|done|]. intros e Hin. rewrite Hv.
  eapply from_runtime_keeps; [|done]. eapply effective_policy_keeps; [done| |done].
  apply settled_holds in H3 as [_ Hconf]. by eapply Hconf, denials_nonempty.
Qed.

Lemma apply_within toml (c c' : SessionConfiguration) updates :
  apply H c updates = Ok c' ->
  WithinRequirements toml (session_approval_policy c) (session_permission_profile c) ->
  WithinRequirements toml (session_approval_policy c') (session_permission_profile c').
Proof.
  unfold apply. intros (approval & Ha & Hp)%bind_Ok [Wa Wp Wd].
  assert (Settled approval (allowed (src_allowed_approval_policies toml))) as Wa'.
  { destruct (new_approval_policy updates) as [policy|]; [|by simplify_eq].
    destruct (settled_set _ _ policy Wa) as [(_ & a & Hs & HS & _)|(_ & e & Hs)];
      rewrite Ha in Hs; by simplify_eq. }
  destruct (new_permission_profile updates) as [profile|]; [|by simplify_eq].
  unfold set_permission_profile_projection in Hp. simpl in Hp.
  apply bind_Ok in Hp as (effective & He & Hp).
  apply bind_Ok in Hp as (c1 & Hset & [= <-]). simpl.
  destruct (settled_set _ _ effective Wp) as [(Hl & c2 & Hc & HS & Hv)|(_ & e & Hc)]; [|congruence].
  rewrite Hset in Hc. injection Hc as <-. split; [done|done|]. intros e Hin. rewrite Hv.
  destruct Hl as [_ Hconf]. specialize (Hconf (denials_nonempty _ _ Hin)).
  destruct (policy_kind (file_system_access_policy H profile)) eqn:Hk.
  3: { exfalso. destruct profile as [[]| |network]; simpl in *; try done; [by case_bool_decide|].
       unfold from_runtime, from_runtime_permissions_with_filesystem_isolation in He. simpl in He.
       injection He as <-. by destruct Hconf as [Hm|Hm]; cbv in Hm. }
  all: eapply from_runtime_keeps; [|done]; apply preserve_keeps;
    [congruence|by eapply denials_deny|by apply Wd].
Qed.

Lemma reachable_within toml (start c : SessionConfiguration) :
  session_reachable H start c ->
  WithinRequirements toml (session_approval_policy start) (session_permission_profile start) ->
  WithinRequirements toml (session_approval_policy c) (session_permission_profile c).
Proof.
  intros Hr Hs. induction Hr as [|c updates Hr IH]; [done|]. unfold update_settings.
  destruct (apply H c updates) as [c'| |] eqn:E; [|done..]. by eapply apply_within.
Qed.

(** ** That settings can be brought within the requirements *)

Definition policy_mode (p : FileSystemAccessPolicy) : AccessModeRequirement :=
  if has_full_disk_write_access p then DangerFullAccessMode
  else if existsb (fun e => can_write (access e)) (entries p) then WorkspaceWriteMode
  else ReadOnlyMode.

Lemma mode_of_managed file_system network :
  mode_of H (Managed file_system network) = policy_mode (to_access_policy H file_system).
Proof. reflexivity. Qed.

Lemma existsb_more {A} (f : A -> bool) (l more : list A) :
  Forall (fun x => f x = false) more -> existsb f (l ++ more) = existsb f l.
Proof. intros Hm%existsb_none. by rewrite existsb_app, Hm, orb_false_r. Qed.

(** Entries that open nothing for writing do not change what a policy counts as. *)
Lemma policy_mode_more (p q : FileSystemAccessPolicy) (more : list FileSystemAccessEntry) :
  policy_kind p = Restricted -> policy_kind q = Restricted -> entries q = entries p ++ more ->
  Forall (fun e => can_write (access e) = false) more ->
  policy_mode p <> DangerFullAccessMode -> policy_mode q = policy_mode p.
Proof.
  intros Hp Hq He Hm.
  assert (has_root_access q can_write = has_root_access p can_write) as Hroot.
  { unfold has_root_access, is_restricted. rewrite Hp, Hq, He, existsb_more; [done|].
    eapply Forall_impl; [done|]. intros e Hw. by destruct (entry_path e) as [| |[]]. }
  assert (has_write_narrowing_entries p = true -> has_write_narrowing_entries q = true) as Hnarrow.
  { unfold has_write_narrowing_entries, is_restricted. rewrite Hp, Hq, !bool_decide_true by done.
    cbn [andb]. rewrite He, existsb_app, !existsb_exists.
    intros (e & Hin & Hn). apply orb_true_iff. left. apply existsb_exists. exists e. split; [done|].
    rewrite <-Hn. unfold narrows_write, has_same_target_write_override. rewrite He, existsb_more; [done|].
    eapply Forall_impl; [done|]. intros e' Hw. by rewrite Hw. }
  unfold policy_mode, has_full_disk_write_access. rewrite Hp, Hq, Hroot, He, existsb_more by done.
  destruct (has_root_access p can_write); [|done]. simpl.
  destruct (has_write_narrowing_entries p); [by rewrite Hnarrow|done].
Qed.

Lemma restricted_nonempty (profile : PermissionProfile) :
  policy_kind (file_system_access_policy H profile) = Restricted ->
  entries (file_system_access_policy H profile) <> [].
Proof.
  destruct profile as [[es depth|] network| |network]; simpl; try done. intros _.
  case_bool_decide; [by vm_compute|done].
Qed.

Lemma from_runtime_total {E} isolation (p : FileSystemAccessPolicy) network :
  exists profile, from_runtime (E := E) isolation p network = Ok profile.
Proof.
  unfold from_runtime, from_runtime_permissions_with_filesystem_isolation, from_access_policy.
  destruct (policy_kind p); [by eexists| |by eexists]. case_bool_decide; by eexists.
Qed.

Lemma from_runtime_mode {E} isolation (p : FileSystemAccessPolicy) network profile :
  policy_kind p = Restricted -> entries p <> [] ->
  from_runtime (E := E) isolation p network = Ok profile -> mode_of H profile = policy_mode p.
Proof.
  intros Hk Hne. unfold from_runtime, from_runtime_permissions_with_filesystem_isolation,
    from_access_policy. rewrite Hk. simpl. intros [= <-]. rewrite mode_of_managed. simpl.
  rewrite bool_decide_false by done. destruct p as [k d es]. simpl in *. by subst k.
Qed.

Lemma effective_policy_more (s : ConfiguredSettings) requirements profile :
  policy_kind (file_system_access_policy H profile) = Restricted ->
  policy_kind (effective_policy H s requirements profile) = Restricted
  /\ exists more, entries (effective_policy H s requirements profile)
                  = entries (file_system_access_policy H profile) ++ more
     /\ Forall (fun e => can_write (access e) = false) more.
Proof.
  intros Hk. unfold effective_policy. set (p0 := file_system_access_policy H profile) in *.
  set (p1 := if bool_decide _ then _ else _).
  assert (policy_kind p1 = Restricted /\ exists m1, entries p1 = entries p0 ++ m1
    /\ Forall (fun e => can_write (access e) = false) m1) as (Hk1 & m1 & Hm1 & Hw1).
  { unfold p1. case_bool_decide; [split; [done|]; exists []; by rewrite app_nil_r|].
    destruct (preserve_kind p0 (configured_file_system_access_policy s) Hk) as (? & m & Hm & Hw).
    split; [done|]. exists m. split; [done|]. eapply Forall_impl; [done|]. by intros e ->. }
  set (p2 := match requirements with Some _ => _ | None => _ end).
  assert (policy_kind p2 = Restricted /\ exists m2, entries p2 = entries p1 ++ m2
    /\ Forall (fun e => can_write (access e) = false) m2) as (Hk2 & m2 & Hm2 & Hw2).
  { unfold p2. destruct requirements as [required|]; [|split; [done|]; exists []; by rewrite app_nil_r].
    rewrite managed_constraints_spec. split; [done|]. simpl.
    destruct (fold_add_missing (omap (deny_read_entry H) (deny_read (sourced_value required)))
      (entries p1)) as ((m & Hm & Hin) & _).
    exists m. split; [done|]. apply Forall_forall.
    intros e (pattern & _ & He)%Hin%list_elem_of_omap. unfold deny_read_entry in He.
    repeat case_match; by simplify_eq. }
  destruct (readable_roots_spec p2 (resolved_cwd s) (helper_readable_roots s)) as (Hk3 & m3 & Hm3 & Hw3).
  split; [congruence|]. exists (m1 ++ m2 ++ m3). rewrite Hm3, Hm2, Hm1, !app_assoc. split; [done|].
  rewrite !Forall_app. split_and!; [done..|]. eapply Forall_impl; [done|]. by intros e ->.
Qed.

(** The paths of a configuration are absolute. *)
Record WellConfigured (s : ConfiguredSettings) : Prop := {
  configured_entries :
    well_formed (file_system_access_policy H (configured_permission_profile s));
  configured_cwd : is_absolute (resolved_cwd s) = true;
  configured_roots : Forall (fun root => is_absolute root = true) (helper_readable_roots s);
}.

Lemma full_access_roots `{!HostLaws H} (p : FileSystemAccessPolicy) cwd roots :
  is_dir H (lit "/tmp") = true -> well_formed p -> is_absolute cwd = true ->
  Forall (fun root => is_absolute root = true) roots -> has_full_disk_write_access p = true ->
  with_additional_readable_roots H p cwd roots = p.
Proof.
  intros Htmp Hw Hc Hr Hfull. unfold with_additional_readable_roots. case_match; [done|].
  induction Hr as [|root roots Ha Hr IH]; simpl; [done|].
  assert (can_read_path_with_cwd H p root cwd = true) as ->; [|done].
  pose proof (full_disk_write_sound H p root cwd (normalize_path root) Hw Hc Htmp Hfull) as Hcan.
  unfold resolve_candidate_path in Hcan. rewrite Ha, absolute_of_absolute in Hcan by done.
  specialize (Hcan eq_refl). unfold can_write_path_with_cwd in Hcan. unfold can_read_path_with_cwd.
  by destruct (resolve_access_with_cwd H p root cwd).
Qed.

Lemma effective_unconfined `{!HostLaws H} debug_hooks toml r (s : ConfiguredSettings) :
  is_dir H (lit "/tmp") = true -> WellConfigured s -> try_from H debug_hooks toml = Ok r ->
  mode_of H (configured_permission_profile s) = ExternalMode
  \/ mode_of H (configured_permission_profile s) = DangerFullAccessMode ->
  required_patterns toml = [] ->
  effective_policy H s (filesystem r) (configured_permission_profile s)
  = file_system_access_policy H (configured_permission_profile s).
Proof.
  intros Htmp [Hw Hc Hr] Hreq%try_from_Ok Hm Hp. unfold effective_policy.
  rewrite bool_decide_true by done. rewrite (conforms_filesystem _ _ _ Hreq).
  set (p := file_system_access_policy H _) in *.
  set (q := match _ with Some _ => _ | None => p end).
  assert (q = p) as ->.
  { unfold q. unfold required_patterns in Hp. destruct (src_permissions toml) as [required|]; [|done].
    simpl. rewrite managed_constraints_spec, Hp. by destruct p. }
  apply full_access_roots; try done. unfold p in *.
  destruct (configured_permission_profile s) as [file_system network| |network]; try done.
  rewrite mode_of_managed in Hm. unfold policy_mode in Hm. simpl.
  destruct (has_full_disk_write_access (to_access_policy H file_system)); [done|].
  by case_match; destruct Hm.
Qed.

Lemma effective_mode `{!HostLaws H} {E} debug_hooks toml r (s : ConfiguredSettings) profile effective :
  is_dir H (lit "/tmp") = true -> WellConfigured s -> try_from H debug_hooks toml = Ok r ->
  leaves toml profile -> profile = configured_permission_profile s \/ profile = read_only_profile ->
  from_runtime (E := E) (filesystem_isolation profile) (effective_policy H s (filesystem r) profile)
    (network_access_policy profile) = Ok effective ->
  mode_of H effective = mode_of H profile.
Proof.
  intros Htmp Hs Hr [_ Hconf] Hfrom He.
  destruct (decide (mode_of H profile = ReadOnlyMode \/ mode_of H profile = WorkspaceWriteMode)) as [Hc|Hc].
  - pose proof (confined_restricted profile Hc) as [Hk _].
    destruct (effective_policy_more s (filesystem r) profile Hk) as (Hk' & more & Hm & Hw).
    rewrite (from_runtime_mode _ _ _ _ Hk' ltac:(rewrite Hm; intros [Hn _]%app_eq_nil;
      by apply (restricted_nonempty profile Hk)) He).
    destruct profile as [file_system network| |]; [|by destruct Hc..]. rewrite mode_of_managed in *.
    eapply policy_mode_more; [done..|]. by destruct Hc as [->| ->].
  - assert (required_patterns toml = []) as Hp.
    { destruct (required_patterns toml) eqn:Ep; [done|]. by destruct Hc; apply Hconf. }
    destruct Hfrom as [Heq| ->]; [|by destruct Hc; left].
    rewrite Heq in *. rewrite (effective_unconfined debug_hooks toml) in He; try done.
    2: { destruct (mode_of H _); naive_solver. }
    destruct (configured_permission_profile s) as [[es depth|] network| |network];
      try (by injection He as <-).
    set (managed := Managed _ _) in *.
    assert (policy_kind (file_system_access_policy H managed) = Restricted) as Hk
      by (simpl; by case_bool_decide).
    by rewrite (from_runtime_mode _ _ _ _ Hk (restricted_nonempty managed Hk) He).
Qed.

(** What is denied may be read only where an entry for a deeper folder says so. *)
Lemma keeps_unread (p : FileSystemAccessPolicy) (denied file cwd t : str) :
  keeps p (entry (Path denied) NoAccess) -> resolve_candidate_path H file cwd = Some t ->
  components denied `prefix_of` components t ->
  can_read_path_with_cwd H p file cwd = true ->
  exists e, e ∈ covering H p t cwd /\ can_read (resolved_access e) = true
            /\ length (components denied) < length (components (resolved_path e)).
Proof.
  intros [Hk (x & Hx & Hkey)] Ht Hpre. unfold can_read_path_with_cwd.
  apply entry_eqb_keys in Hkey as [Hkey Hax]. simpl in Hkey, Hax.
  destruct x as [[q|q|[| |sub| | |u sub]] a]; simpl in Hkey, Hax; try discriminate Hkey.
  injection Hkey as Hkey. subst a.
  assert ({| resolved_path := q; resolved_access := NoAccess |} ∈ covering H p t cwd) as Hin.
  { apply covering_spec. split; [|simpl; by rewrite Hkey].
    apply list_elem_of_omap. by exists (entry (Path q) NoAccess). }
  destruct (resolve_decided H p file cwd t Hk Ht) as [[Hn _]|(e & [He Hd] & ->)];
    [rewrite Hn in Hin; by apply not_elem_of_nil in Hin|].
  intros Hread. exists e. split_and!; [done..|].
  rewrite Forall_forall in Hd. specialize (Hd _ Hin). unfold dominates, precedence_le in Hd.
  rewrite orb_true_iff, andb_true_iff, Nat.ltb_lt, Nat.leb_le in Hd. unfold specificity in Hd.
  simpl in Hd. rewrite Hkey in Hd. destruct Hd as [Hd|[_ Hr]]; [done|].
  destruct (resolved_access e); simpl in *; by try lia.
Qed.

Lemma constrain_deny_read_total debug_hooks toml r :
  try_from H debug_hooks toml = Ok r ->
  exists c, constrain_deny_read H (filesystem r) (permission_profile r) = Ok c.
Proof.
  intros [_ _ Hp Hro Hv _ _ _]%try_from_Ok. unfold constrain_deny_read.
  destruct (filesystem r) as [[constraints source]|]; [|by eexists]. case_bool_decide; [by eexists|].
  unfold add_validator. rewrite Hv.
  assert (validator (constrained (permission_profile r)) read_only_profile = Ok tt) as ->.
  { by apply (settled_accepts _ _ Hp). }
  cbn. by eexists.
Qed.

(** What becomes of a configured value. *)
Definition taken {T} (accepts : T -> Prop) (configured fallback result : T) : Prop :=
  accepts configured /\ result = configured \/ ~ accepts configured /\ result = fallback.

Lemma constrained_value_taken {T} debug (c : ConstrainedWithSource T) accepts field v warnings :
  Settled (constrained c) accepts ->
  exists c' warnings',
    apply_requirement_constrained_value debug field v c warnings = Ok (c', warnings')
    /\ Settled (constrained c') accepts
    /\ taken accepts v (value (constrained c)) (value (constrained c')).
Proof.
  intros HS. destruct (constrained_value_total debug c accepts field v warnings HS)
    as (c' & w' & -> & HS' & [(? & ? & _)|(? & ? & _)]);
    eexists _, _; split_and!; try done; [by left|by right].
Qed.

(** C16: Whatever the configuration says, loading it succeeds once the requirements were accepted:
    every setting it may have is kept, any other gives way to the value the requirements
    start from, and a profile still counts as what it counted as when files that may not
    be read were added to it. *)
Theorem settings_always_found `{!HostLaws H} debug_profile debug_hooks toml r s :
  try_from H debug_hooks toml = Ok r -> WellConfigured s -> is_dir H (lit "/tmp") = true ->
  exists config warnings,
    enforce_requirements H debug_profile s r = Ok (config, warnings)
    /\ taken (allowed (src_allowed_approval_policies toml))
         (resolve_approval_policy s (approval_policy r)) (value (constrained (approval_policy r)))
         (value (config_approval_policy config))
    /\ taken (allowed (src_allowed_approvals_reviewers toml))
         (resolve_approvals_reviewer s (approvals_reviewer r))
         (value (constrained (approvals_reviewer r))) (config_approvals_reviewer config)
    /\ taken (allowed_search (src_allowed_web_search_modes toml))
         (default SearchCached (configured_web_search_mode s))
         (value (constrained (web_search_mode r))) (value (config_web_search_mode config))
    /\ (leaves toml (configured_permission_profile s)
        /\ mode_of H (value (config_permission_profile config))
           = mode_of H (configured_permission_profile s)
        \/ ~ leaves toml (configured_permission_profile s)
        /\ mode_of H (value (config_permission_profile config)) = ReadOnlyMode).
Proof.
  intros Hr Hs Htmp. pose proof (try_from_Ok _ _ _ _ Hr) as C. unfold enforce_requirements.
  destruct (constrained_value_taken debug_approval _ _ (lit "approval_policy")
    (resolve_approval_policy s (approval_policy r)) [] (conforms_approval _ _ _ C))
    as (c1 & w1 & -> & S1 & T1). cbn.
  destruct (constrain_deny_read_total _ _ _ Hr) as [c0 E0].
  destruct (constrain_deny_read_Ok _ _ _ _ Hr E0) as [S0 V0]. rewrite E0. cbn.
  destruct (constrained_value_taken debug_reviewer _ _ (lit "approvals_reviewer")
    (resolve_approvals_reviewer s (approvals_reviewer r)) w1 (conforms_reviewer _ _ _ C))
    as (c2 & w2 & -> & S2 & T2). cbn.
  destruct (constrained_value_taken debug_profile _ _ (lit "permission_profile")
    (configured_permission_profile s) w2 S0) as (c3 & w3 & -> & S3 & T3). cbn.
  destruct (constrained_value_taken debug_search _ _ (lit "web_search_mode")
    (default SearchCached (configured_web_search_mode s)) w3 (conforms_search _ _ _ C))
    as (c4 & w4 & -> & S4 & T4). cbn.
  destruct (constrain_mcp_servers_total (cfg_mcp_servers s) (required_mcp_servers r)) as [servers ->].
  cbn.
  set (profile := value (constrained c3)) in *. rewrite V0 in T3.
  destruct (from_runtime_total (E := LoadError) (filesystem_isolation profile)
    (effective_policy H s (filesystem r) profile) (network_access_policy profile)) as [effective E].
  rewrite E. cbn. pose proof (settled_holds _ _ S3) as Hl. fold profile in Hl.
  assert (mode_of H effective = mode_of H profile) as Hmode.
  { eapply effective_mode; try done. by destruct T3 as [[_ ->]|[_ ->]]; [left|right]. }
  destruct (settled_set _ _ effective S3) as [(_ & c5 & -> & S5 & V5)|[[] _]].
  2: { destruct Hl as [Ha Hc]. split; [by rewrite Hmode|]. unfold confined. by rewrite Hmode. }
  eexists _, _. split; [done|]. simpl. split_and!; [done..|]. rewrite V5, Hmode.
  destruct T3 as [[? ->]|[? ->]]; [by left|by right].
Qed.

(** ** What the modes stand for

    By the entries of a profile and what may be written under it. *)
Definition has_mode (mode : AccessModeRequirement) (profile : PermissionProfile) : Prop :=
  let policy := file_system_access_policy H profile in
  let managed := exists file_system network, profile = Managed file_system network in
  match mode with
  | ReadOnlyMode =>
      managed /\ forall path cwd, can_write_path_with_cwd H policy path cwd = false
  | WorkspaceWriteMode =>
      managed /\ policy_kind policy = Restricted /\
      (exists e, e ∈ entries policy /\ can_write (access e) = true) /\
      (entry (Special FsPolicy.Root) Write ∈ entries policy ->
       exists e, e ∈ entries policy /\ can_write (access e) = false)
  | DangerFullAccessMode =>
      profile = Disabled \/
      managed /\ (well_formed policy -> is_dir H (lit "/tmp") = true ->
        forall path cwd t, is_absolute cwd = true -> resolve_candidate_path H path cwd = Some t ->
          can_write_path_with_cwd H policy path cwd = true)
  | ExternalMode => exists network, profile = ExternalProfile network
  end.

(** Without an entry for writing nothing can be written. *)
Lemma no_writing_entry (p : FileSystemAccessPolicy) (path cwd : str) :
  policy_kind p = Restricted -> existsb (fun e => can_write (access e)) (entries p) = false ->
  can_write_path_with_cwd H p path cwd = false.
Proof.
  intros Hk Hn. unfold can_write_path_with_cwd.
  destruct (resolve_candidate_path H path cwd) as [t|] eqn:Ht;
    [|unfold resolve_access_with_cwd; by rewrite Hk, Ht].
  destruct (resolve_decided H p path cwd t Hk Ht) as [[_ ->]|(e & [He _] & ->)]; [done|].
  apply covering_spec in He as [He _]. unfold resolved_entries_with_cwd in He.
  apply list_elem_of_omap in He as (x & Hx & Hr). unfold resolve_entry in Hr.
  apply bind_Some in Hr as (q & _ & [= <-]). cbn [resolved_access].
  apply existsb_none in Hn. rewrite Forall_forall in Hn. by rewrite (Hn x Hx).
Qed.

Lemma mode_means `{!HostLaws H} (profile : PermissionProfile) : has_mode (mode_of H profile) profile.
Proof.
  destruct profile as [file_system network| |network]; [|by left|by exists network].
  rewrite mode_of_managed. unfold policy_mode.
  set (p := to_access_policy H file_system). set (profile := Managed file_system network).
  assert (exists f n, profile = Managed f n) as Hmanaged by by eexists _, _.
  destruct (has_full_disk_write_access p) eqn:Hf.
  { right. split; [done|]. intros Hw Htmp path cwd t Hc Ht.
    by eapply (full_disk_write_sound H p path cwd t). }
  assert (policy_kind p = Restricted) as Hk
    by (unfold has_full_disk_write_access in Hf; destruct (policy_kind p) eqn:Hk; done).
  destruct (existsb (fun e => can_write (access e)) (entries p)) eqn:He; cycle 1.
  { split; [done|]. intros path cwd. by apply no_writing_entry. }
  apply existsb_exists in He as (e & He%list_elem_of_In & Hw).
  split; [done|]. split; [exact Hk|]. split; [by exists e|]. intros Hroot.
  unfold has_full_disk_write_access in Hf. rewrite Hk in Hf.
  assert (has_root_access p can_write = true) as Hra.
  { unfold has_root_access, is_restricted. rewrite Hk, bool_decide_true by done. simpl.
    apply existsb_exists. eexists. split; [by apply list_elem_of_In|done]. }
  rewrite Hra in Hf. simpl in Hf. apply negb_false_iff in Hf.
  unfold has_write_narrowing_entries, is_restricted in Hf.
  rewrite Hk, bool_decide_true in Hf by done. apply existsb_exists in Hf as (x & Hx%list_elem_of_In & Hn).
  exists x. split; [done|]. unfold narrows_write in Hn. by destruct (can_write (access x)).
Qed.

Section Session.
Context (debug_profile : PermissionProfile -> str)
  (debug_hooks : ManagedHooksRequirementsToml -> str)
  (toml : ConfigRequirementsWithSources) (r : ConfigRequirements)
  (s : ConfiguredSettings) (config : Permissions) (warnings : list StartupWarning).
Context (Haccepted : try_from H debug_hooks toml = Ok r)
  (Hloaded : enforce_requirements H debug_profile s r = Ok (config, warnings)).

Lemma session_within (c : SessionConfiguration) :
  session_reachable H (session_configuration config) c ->
  WithinRequirements toml (session_approval_policy c) (session_permission_profile c).
Proof.
  intros Hc. eapply reachable_within; [done|].
  by destruct (enforce_within _ _ _ _ _ _ _ Haccepted Hloaded).
Qed.


(** C15: What the requirements keep from being read stays so however the session changes its
    settings: a pattern stays among the entries, and a file or folder, with all below it,
    is only read where a deeper entry says so. *)
Theorem managed_deny_read_kept (c : SessionConfiguration) (pattern : str) :
  session_reachable H (session_configuration config) c -> pattern ∈ required_patterns toml ->
  let policy := file_system_access_policy H (value (session_permission_profile c)) in
  policy_kind policy = Restricted /\
  (if contains_glob pattern then entry (GlobPattern pattern) NoAccess ∈ entries policy
   else forall denied file cwd t,
     absolute H pattern = Some denied -> resolve_candidate_path H file cwd = Some t ->
     components denied `prefix_of` components t -> can_read_path_with_cwd H policy file cwd = true ->
     exists e, e ∈ covering H policy t cwd /\ can_read (resolved_access e) = true
               /\ length (components denied) < length (components (resolved_path e))).
Proof.
  intros [_ Wp Wd]%session_within Hp policy. apply settled_holds in Wp as [_ Hc].
  specialize (Hc (elem_of_not_nil _ _ Hp)). apply confined_restricted in Hc as [Hk _]. split; [done|].
  assert (forall e, deny_read_entry H pattern = Some e -> keeps policy e) as Hkeep.
  { intros e He. apply Wd. apply list_elem_of_omap. by exists pattern. }
  unfold deny_read_entry in Hkeep. destruct (contains_glob pattern).
  - destruct (Hkeep _ eq_refl) as [_ (x & Hx & Hkey)]. apply entry_eqb_keys in Hkey as [Hkey Ha].
    simpl in Hkey, Ha. destruct x as [[q|q|[| |sub| | |u sub]] a]; simpl in Hkey, Ha; simplify_eq.
    done.
  - intros denied file cwd t Hd Ht Hpre Hread. unfold absolute in Hd.
    destruct (AbsPath.from_absolute_path _ _ pattern) as [q| |]; simplify_eq.
    by eapply keeps_unread; [apply Hkeep|..].
Qed.

(** C34: The mode of searches on the web that is chosen for a turn is one the requirements leave;
    and of the servers of tools only those are on that the requirements name, with the
    command or the address they name, at first and however the servers are set again. *)
Theorem tools_within_requirements (profile : PermissionProfile) :
  allowed_search (src_allowed_web_search_modes toml)
    (resolve_web_search_mode_for_turn (config_web_search_mode config) profile)
  /\ servers_within (src_mcp_servers toml) (value (config_mcp_servers config))
  /\ forall servers c, set (config_mcp_servers config) servers = Ok c ->
       servers_within (src_mcp_servers toml) (value c).
Proof.
  destruct (enforce_within _ _ _ _ _ _ _ Haccepted Hloaded) as (_ & _ & HS & Hm & Hset).
  split; [|done].
  unfold resolve_web_search_mode_for_turn. set (choice := if _ && _ then _ else _).
  destruct choice as [mode|] eqn:E; simpl; [|by left].
  assert (is_ok (can_set (config_web_search_mode config) mode) = true) as Hok.
  { unfold choice in E. case_match; by apply find_some in E as [_ ?]. }
  apply (settled_accepts _ _ HS). by destruct (can_set _ mode) as [[]| |].
Qed.

End Session.

End OnHost.

End ManagedFacts.

(** * The theorems at work *)

Module ManagedExamples.
Import RequirementsFacts ManagedFacts.

(** Administrators who let nobody have full access to the disk, and keep two places from
    being read. *)
Definition listed {T} (v : T) : option (Sourced T) :=
  Some {| sourced_value := v; sourced_source := CloudRequirements |}.

Definition office (patterns : list string) : ConfigRequirementsWithSources :=
  merge_unset_fields nothing_required CloudRequirements
    {| allowed_approval_policies := Some [Approval.OnRequest; Approval.Never];
       allowed_approvals_reviewers := Some [ToolSession.ReviewerUser];
       allowed_access_modes := Some [ReadOnlyMode; WorkspaceWriteMode];
       permissions := Some {| filesystem_deny_read := Some (Some (map lit patterns)) |};
       allowed_web_search_modes := Some [SearchCached];
       remote_access_config := None; feature_requirements := None; hooks := None;
       mcp_servers := Some {[ lit "notes" := McpCommand (lit "/opt/bin/notes-server") ]};
       apps := None; rules := None; enforce_residency := None; network := None;
       guardian_policy_config := None |}.

Definition office_secrets : ConfigRequirementsWithSources := office ["/w/secret"; "/w/*.pem"]%string.

(** A configuration that asks for full access, and for searches on the web as they are now. *)
Definition wishes : ConfiguredSettings := {|
  approval_policy_override := Some Approval.UnlessTrusted;
  profile_approval_policy := None; cfg_approval_policy := None; active_project := Trusted;
  approvals_reviewer_override := None; profile_approvals_reviewer := None;
  cfg_approvals_reviewer := None;
  configured_web_search_mode := Some SearchLive;
  cfg_mcp_servers := {[ lit "notes" := {| transport := Stdio (lit "notes-server") [];
                                          enabled := true; disabled_reason := None |} ]};
  configured_permission_profile := Disabled;
  configured_file_system_access_policy := unrestricted;
  helper_readable_roots := [lit "/opt/bin"];
  resolved_cwd := lit "/w";
|}.

Definition no_text {A} (_ : A) : str := [].

Definition accepted (toml : ConfigRequirementsWithSources) : ConfigRequirements :=
  match try_from demo_host no_text toml with
  | Ok r => r
  | _ => {| approval_policy := Build_ConstrainedWithSource (allow_any Approval.Never) None;
            approvals_reviewer := Build_ConstrainedWithSource (allow_any ToolSession.ReviewerUser) None;
            permission_profile := Build_ConstrainedWithSource (allow_any Disabled) None;
            web_search_mode := Build_ConstrainedWithSource (allow_any SearchLive) None;
            required_features := None; managed_hooks := None; required_mcp_servers := None;
            exec_policy := None; residency := Build_ConstrainedWithSource (allow_any None) None;
            network_constraints := None; filesystem := None;
            guardian_policy_config_source := None |}
  end.

Definition loaded (toml : ConfigRequirementsWithSources) (s : ConfiguredSettings)
    : Permissions * list StartupWarning :=
  match enforce_requirements demo_host no_text s (accepted toml) with
  | Ok loaded => loaded
  | _ => ({| config_approval_policy := allow_any Approval.Never;
             config_permission_profile := allow_any Disabled;
             config_approvals_reviewer := ToolSession.ReviewerUser;
             config_web_search_mode := allow_any SearchLive; config_mcp_servers := allow_any ∅;
             config_cwd := [] |}, [])
  end.

Definition nothing_new : SessionSettingsUpdate := {|
  new_cwd := None; new_approval_policy := None; new_approvals_reviewer := None;
  new_permission_profile := None |}.

Definition with_profile (profile : PermissionProfile) : SessionSettingsUpdate := {|
  new_cwd := None; new_approval_policy := Some Approval.Never; new_approvals_reviewer := None;
  new_permission_profile := Some profile |}.

Definition started (toml : ConfigRequirementsWithSources) (s : ConfiguredSettings)
    : SessionConfiguration := session_configuration (fst (loaded toml s)).

Definition updated (toml : ConfigRequirementsWithSources) (s : ConfiguredSettings)
    (updates : SessionSettingsUpdate) : SessionConfiguration :=
  update_settings demo_host (started toml s) updates.

Definition workspace_profile : PermissionProfile :=
  Managed (ManagedRestricted [] None) NetworkRestricted.

(** What is asked for and not allowed is replaced, with a warning each; the session may then
    get to write to its workspace. *)
Example office_session :
  map warning_field (snd (loaded office_secrets wishes))
    = [lit "approval_policy"; lit "permission_profile"; lit "web_search_mode"]
  /\ mode_of demo_host (value (session_permission_profile (started office_secrets wishes)))
     = ReadOnlyMode
  /\ value (session_approval_policy (started office_secrets wishes)) = Approval.OnRequest
  /\ let after := updated office_secrets wishes (with_profile workspace_profile) in
     mode_of demo_host (value (session_permission_profile after)) = WorkspaceWriteMode
     /\ value (session_approval_policy after) = Approval.Never.
Proof. by vm_compute. Qed.

(** The reviewer is not held to the requirements once a session runs. *)
Example reviewer_not_constrained :
  let ask := {| new_cwd := None; new_approval_policy := None;
                new_approvals_reviewer := Some ToolSession.ReviewerAutoReview;
                new_permission_profile := None |} in
  allowed (src_allowed_approvals_reviewers (office []))
    (session_approvals_reviewer (started (office []) wishes))
  /\ session_approvals_reviewer (updated (office []) wishes ask) = ToolSession.ReviewerAutoReview
  /\ ~ allowed (src_allowed_approvals_reviewers (office []))
         (session_approvals_reviewer (updated (office []) wishes ask)).
Proof.
  split_and!; [by left|by vm_compute|]. vm_compute.
  intros [Hr|Hr]%list_elem_of_In; [discriminate|done].
Qed.

(** Where the session keeps one file of its own from being read, full access to the disk
    counts as writing to the workspace: it is refused without such a file, and given with. *)
Definition own_secret : ConfiguredSettings := {|
  approval_policy_override := None; profile_approval_policy := None; cfg_approval_policy := None;
  active_project := Trusted; approvals_reviewer_override := None;
  profile_approvals_reviewer := None; cfg_approvals_reviewer := None;
  configured_web_search_mode := None; cfg_mcp_servers := ∅;
  configured_permission_profile :=
    Managed (ManagedRestricted [entry (Special FsPolicy.Root) Read;
                                entry (Path (lit "/w/secret")) NoAccess] None) NetworkRestricted;
  configured_file_system_access_policy :=
    restricted [entry (Special FsPolicy.Root) Read; entry (Path (lit "/w/secret")) NoAccess];
  helper_readable_roots := []; resolved_cwd := lit "/w";
|}.

Example full_access_counts_as_workspace :
  let profile s := value (session_permission_profile (updated (office []) s (with_profile Disabled))) in
  let writes s := can_write_path_with_cwd demo_host (file_system_access_policy demo_host (profile s))
                    (lit "/etc/passwd") (lit "/w") in
  writes wishes = false /\ writes own_secret = true
  /\ network_access_policy (profile own_secret) = NetworkEnabled
  /\ mode_of demo_host (profile own_secret) = WorkspaceWriteMode.
Proof. by vm_compute. Qed.

(** ** Witnesses *)

Lemma office_accepted : try_from demo_host no_text office_secrets = Ok (accepted office_secrets).
Proof. apply ok_value. by vm_compute. Qed.

Lemma office_loaded :
  enforce_requirements demo_host no_text wishes (accepted office_secrets)
  = Ok (fst (loaded office_secrets wishes), snd (loaded office_secrets wishes)).
Proof. rewrite <-surjective_pairing. apply ok_value. by vm_compute. Qed.

Lemma settings_always_found_witness :
  let r := accepted office_secrets in
  let s := wishes in
  exists config warnings,
    enforce_requirements demo_host no_text s r = Ok (config, warnings)
    /\ taken (allowed (src_allowed_approval_policies office_secrets))
         (resolve_approval_policy s (approval_policy r)) (value (constrained (approval_policy r)))
         (value (config_approval_policy config))
    /\ taken (allowed (src_allowed_approvals_reviewers office_secrets))
         (resolve_approvals_reviewer s (approvals_reviewer r))
         (value (constrained (approvals_reviewer r))) (config_approvals_reviewer config)
    /\ taken (allowed_search (src_allowed_web_search_modes office_secrets))
         (default SearchCached (configured_web_search_mode s))
         (value (constrained (web_search_mode r))) (value (config_web_search_mode config))
    /\ (leaves demo_host office_secrets (configured_permission_profile s)
        /\ mode_of demo_host (value (config_permission_profile config))
           = mode_of demo_host (configured_permission_profile s)
        \/ ~ leaves demo_host office_secrets (configured_permission_profile s)
        /\ mode_of demo_host (value (config_permission_profile config)) = ReadOnlyMode).
Proof.
  apply (settings_always_found demo_host no_text no_text).
  - apply office_accepted.
  - split; [by constructor|by vm_compute|by repeat constructor].
  - by vm_compute.
Defined.


Lemma managed_deny_read_kept_witness :
  let c := updated office_secrets wishes (with_profile workspace_profile) in
  let policy := file_system_access_policy demo_host (value (session_permission_profile c)) in
  can_read_path_with_cwd demo_host policy (lit "secret/key") (lit "/w") = false /\
  can_read_path_with_cwd demo_host policy (lit "notes") (lit "/w") = true /\
  policy_kind policy = Restricted /\
  (if contains_glob (lit "/w/secret") then entry (GlobPattern (lit "/w/secret")) NoAccess ∈ entries policy
   else forall denied file cwd t,
     absolute demo_host (lit "/w/secret") = Some denied ->
     resolve_candidate_path demo_host file cwd = Some t ->
     components denied `prefix_of` components t ->
     can_read_path_with_cwd demo_host policy file cwd = true ->
     exists e, e ∈ covering demo_host policy t cwd /\ can_read (resolved_access e) = true
               /\ length (components denied) < length (components (resolved_path e))).
Proof.
  split; [by vm_compute|]. split; [by vm_compute|].
  apply (managed_deny_read_kept demo_host no_text no_text office_secrets
    (accepted office_secrets) wishes (fst (loaded office_secrets wishes))
    (snd (loaded office_secrets wishes)) office_accepted office_loaded).
  - apply session_update_reachable, session_start_reachable.
  - by left.
Defined.

Lemma tools_within_requirements_witness :
  let config := fst (loaded office_secrets wishes) in
  enabled <$> value (config_mcp_servers config) !! lit "notes" = Some false
  /\ allowed_search (src_allowed_web_search_modes office_secrets)
       (resolve_web_search_mode_for_turn (config_web_search_mode config) Disabled)
  /\ servers_within (src_mcp_servers office_secrets) (value (config_mcp_servers config))
  /\ forall servers c, set (config_mcp_servers config) servers = Ok c ->
       servers_within (src_mcp_servers office_secrets) (value c).
Proof.
  split; [by vm_compute|].
  apply (tools_within_requirements demo_host no_text no_text office_secrets
    (accepted office_secrets) wishes (fst (loaded office_secrets wishes))
    (snd (loaded office_secrets wishes)) office_accepted office_loaded).
Defined.

End ManagedExamples.
