(* ===== verification/Features.v ===== *)
(** * Features and the requirements on them: src/features/src/, src/core/src/config/managed_features.rs

    [Features]: the registry of features with their keys, and the set of features that is on
    (lib.rs, legacy.rs, feature_configs.rs). [ManagedFeatures]: the features of a
    configuration, some of which administrators pin to on or off. *)

From Stdlib Require Import Ascii String.
From stdpp Require Import sorting finite.
From S2P Require Import Prelude RustStr FsPolicy FsRoots Requirements.
Import Constraint Requirements.

Module Features.

(** ** The registry *)

Inductive Stage :=
| UnderDevelopment
| Experimental (name menu_description announcement : str)
| Stable
| Deprecated
| Removed.

#[export] Instance Stage_eq_dec : EqDecision Stage.
Proof. solve_decision. Defined.

Definition experimental_menu_name (s : Stage) : option str :=
  match s with Experimental name _ _ => Some name | _ => None end.

Definition experimental_menu_description (s : Stage) : option str :=
  match s with Experimental _ menu_description _ => Some menu_description | _ => None end.

Definition experimental_announcement (s : Stage) : option str :=
  match s with
  | Experimental _ _ [] => None
  | Experimental _ _ announcement => Some announcement
  | _ => None
  end.

Inductive Feature :=
| GhostCommit | ShellTool | AgereHooks | JsRepl | CodeMode | CodeModeOnly | JsReplToolsOnly
| UnifiedExec | ShellZshFork | TerminalResizeReflow | ApplyPatchFreeform
| ApplyPatchStreamingEvents | ExecPermissionApprovals | RequestPermissionsTool
| WebSearchRequest | WebSearchCached | SearchTool | UseLegacyLandlock | RemoteModels
| ShellSnapshot | AgereGitCommit | RuntimeMetrics | Sqlite | MemoryTool | Chronicle
| ChildAgentsMd | EnableRequestCompression | Collab | MultiAgentV2 | SpawnCsv | Apps
| EnableMcpApps | ToolSearch | ToolSearchAlwaysDeferMcpTools | UnavailableDummyTools
| ToolSuggest | Plugins | PluginHooks | InAppBrowser | BrowserUse | ComputerUse | RemotePlugin
| ExternalMigration | ImageGeneration | SkillMcpDependencyInstall | SkillEnvVarDependencyPrompt
| Steer | DefaultModeRequestUserInput | GuardianApproval | Goals | CollaborationModes
| ToolCallMcpElicitation | Personality | Artifact | FastMode | RealtimeConversation
| RemoteControl | ImageDetailOriginal | TuiAppServer | PreventIdleSleep
| WorkspaceOwnerUsageNudge | ResponsesWebsockets | ResponsesWebsocketsV2 | WorkspaceDependencies.

#[export] Instance Feature_eq_dec : EqDecision Feature.
Proof. solve_decision. Defined.

(** The derived order is that of the declaration. *)
Definition declared_features : list Feature :=
  [GhostCommit; ShellTool; AgereHooks; JsRepl; CodeMode; CodeModeOnly; JsReplToolsOnly;
   UnifiedExec; ShellZshFork; TerminalResizeReflow; ApplyPatchFreeform;
   ApplyPatchStreamingEvents; ExecPermissionApprovals; RequestPermissionsTool; WebSearchRequest;
   WebSearchCached; SearchTool; UseLegacyLandlock; RemoteModels; ShellSnapshot; AgereGitCommit;
   RuntimeMetrics; Sqlite; MemoryTool; Chronicle; ChildAgentsMd; EnableRequestCompression;
   Collab; MultiAgentV2; SpawnCsv; Apps; EnableMcpApps; ToolSearch;
   ToolSearchAlwaysDeferMcpTools; UnavailableDummyTools; ToolSuggest; Plugins; PluginHooks;
   InAppBrowser; BrowserUse; ComputerUse; RemotePlugin; ExternalMigration; ImageGeneration;
   SkillMcpDependencyInstall; SkillEnvVarDependencyPrompt; Steer; DefaultModeRequestUserInput;
   GuardianApproval; Goals; CollaborationModes; ToolCallMcpElicitation; Personality; Artifact;
   FastMode; RealtimeConversation; RemoteControl; ImageDetailOriginal; TuiAppServer;
   PreventIdleSleep; WorkspaceOwnerUsageNudge; ResponsesWebsockets; ResponsesWebsocketsV2;
   WorkspaceDependencies].

#[export, program] Instance Feature_finite : Finite Feature := {| enum := declared_features |}.
Next Obligation. apply (bool_decide_eq_true (NoDup declared_features)). by vm_compute. Qed.
Next Obligation.
  intros f. apply (bool_decide_eq_true (f ∈ declared_features)). by destruct f; vm_compute.
Qed.

Record FeatureSpec := {
  spec_id : Feature;
  spec_key : str;
  spec_stage : Stage;
  spec_default_enabled : bool;
}.

Definition spec (id : Feature) (key : str) (stage : Stage) (default_enabled : bool) : FeatureSpec :=
  {| spec_id := id; spec_key := key; spec_stage := stage; spec_default_enabled := default_enabled |}.

(** As it is built for Linux. *)
Definition FEATURES : list FeatureSpec :=
  [spec GhostCommit (lit "undo") Removed false;
   spec ShellTool (lit "shell_tool") Stable true;
   spec UnifiedExec (lit "unified_exec") Stable true;
   spec ShellZshFork (lit "shell_zsh_fork") UnderDevelopment false;
   spec ShellSnapshot (lit "shell_snapshot") Stable true;
   spec JsRepl (lit "js_repl") Removed false;
   spec CodeMode (lit "code_mode") UnderDevelopment false;
   spec CodeModeOnly (lit "code_mode_only") UnderDevelopment false;
   spec JsReplToolsOnly (lit "js_repl_tools_only") Removed false;
   spec TerminalResizeReflow (lit "terminal_resize_reflow") (Experimental (lit "Terminal resize reflow")
      (lit "Rebuild Agere-owned transcript scrollback when the terminal width changes.")
      (lit "")) true;
   spec WebSearchRequest (lit "web_search_request") Deprecated false;
   spec WebSearchCached (lit "web_search_cached") Deprecated false;
   spec SearchTool (lit "search_tool") Removed false;
   spec UseLegacyLandlock (lit "use_legacy_landlock") Deprecated false;
   spec AgereGitCommit (lit "agere_git_commit") UnderDevelopment false;
   spec RuntimeMetrics (lit "runtime_metrics") UnderDevelopment false;
   spec Sqlite (lit "sqlite") Removed true;
   spec MemoryTool (lit "memories") (Experimental (lit "Memories")
      (lit "Allow Agere to create new memories from conversations and bring relevant memories into new conversations.")
      (lit "NEW: Agere can now generate and uses memories. Try is now with `/memories`")) false;
   spec Chronicle (lit "chronicle") UnderDevelopment false;
   spec ChildAgentsMd (lit "child_agents_md") UnderDevelopment false;
   spec ApplyPatchFreeform (lit "apply_patch_freeform") UnderDevelopment false;
   spec ApplyPatchStreamingEvents (lit "apply_patch_streaming_events") UnderDevelopment false;
   spec ExecPermissionApprovals (lit "exec_permission_approvals") UnderDevelopment false;
   spec AgereHooks (lit "agere_hooks") Stable true;
   spec RequestPermissionsTool (lit "request_permissions_tool") UnderDevelopment false;
   spec RemoteModels (lit "remote_models") Removed false;
   spec EnableRequestCompression (lit "enable_request_compression") Stable true;
   spec Collab (lit "multi_agent") Stable true;
   spec MultiAgentV2 (lit "multi_agent_v2") UnderDevelopment false;
   spec SpawnCsv (lit "enable_fanout") UnderDevelopment false;
   spec Apps (lit "apps") Stable true;
   spec EnableMcpApps (lit "enable_mcp_apps") UnderDevelopment false;
   spec ToolSearch (lit "tool_search") Stable true;
   spec ToolSearchAlwaysDeferMcpTools (lit "tool_search_always_defer_mcp_tools") UnderDevelopment false;
   spec UnavailableDummyTools (lit "unavailable_dummy_tools") Stable true;
   spec ToolSuggest (lit "tool_suggest") Stable true;
   spec Plugins (lit "plugins") Stable true;
   spec PluginHooks (lit "plugin_hooks") UnderDevelopment false;
   spec InAppBrowser (lit "in_app_browser") Stable true;
   spec BrowserUse (lit "browser_use") Stable true;
   spec ComputerUse (lit "computer_use") Stable true;
   spec RemotePlugin (lit "remote_plugin") UnderDevelopment false;
   spec ExternalMigration (lit "external_migration") (Experimental (lit "External migration")
      (lit "Show a startup prompt when Agere detects migratable external agent config for this machine or project.")
      (lit "")) false;
   spec ImageGeneration (lit "image_generation") Stable true;
   spec SkillMcpDependencyInstall (lit "skill_mcp_dependency_install") Stable true;
   spec SkillEnvVarDependencyPrompt (lit "skill_env_var_dependency_prompt") UnderDevelopment false;
   spec Steer (lit "steer") Removed true;
   spec DefaultModeRequestUserInput (lit "default_mode_request_user_input") UnderDevelopment false;
   spec GuardianApproval (lit "guardian_approval") Stable true;
   spec Goals (lit "goals") Stable true;
   spec CollaborationModes (lit "collaboration_modes") Removed true;
   spec ToolCallMcpElicitation (lit "tool_call_mcp_elicitation") Stable true;
   spec Personality (lit "personality") Stable true;
   spec Artifact (lit "artifact") UnderDevelopment false;
   spec FastMode (lit "fast_mode") Stable true;
   spec RealtimeConversation (lit "realtime_conversation") UnderDevelopment false;
   spec RemoteControl (lit "remote_control") UnderDevelopment false;
   spec ImageDetailOriginal (lit "image_detail_original") Removed false;
   spec TuiAppServer (lit "tui_app_server") Removed true;
   spec PreventIdleSleep (lit "prevent_idle_sleep") (Experimental (lit "Prevent sleep while running")
      (lit "Keep your computer awake while Agere is running a thread.")
      (lit "NEW: Prevent sleep while running is now available in /experimental.")) false;
   spec WorkspaceOwnerUsageNudge (lit "workspace_owner_usage_nudge") UnderDevelopment false;
   spec ResponsesWebsockets (lit "responses_websockets") Removed false;
   spec ResponsesWebsocketsV2 (lit "responses_websockets_v2") Removed false;
   spec WorkspaceDependencies (lit "workspace_dependencies") Stable true].

(** Every feature has an entry; without one the lookup would panic. *)
Definition info (f : Feature) : FeatureSpec :=
  match List.find (fun spec => bool_decide (spec_id spec = f)) FEATURES with
  | Some spec => spec
  | None => spec f [] Removed false
  end.

Definition key (f : Feature) : str := spec_key (info f).
Definition stage (f : Feature) : Stage := spec_stage (info f).
Definition default_enabled (f : Feature) : bool := spec_default_enabled (info f).

Definition canonical_feature_for_key (k : str) : option Feature :=
  spec ← List.find (fun spec => str_eqb (spec_key spec) k) FEATURES; Some (spec_id spec).

(** ** Older keys *)

Record Alias := { legacy_key : str; alias_feature : Feature }.

Definition alias (k : str) (f : Feature) : Alias := {| legacy_key := k; alias_feature := f |}.

Definition ALIASES : list Alias :=
  [alias (lit "connectors") Apps;
   alias (lit "experimental_use_unified_exec_tool") UnifiedExec;
   alias (lit "experimental_use_freeform_apply_patch") ApplyPatchFreeform;
   alias (lit "include_apply_patch_tool") ApplyPatchFreeform;
   alias (lit "request_permissions") ExecPermissionApprovals;
   alias (lit "web_search") WebSearchRequest;
   alias (lit "collab") Collab;
   alias (lit "memory_tool") MemoryTool;
   alias (lit "telepathy") Chronicle].

Definition legacy_feature_keys : list str := map legacy_key ALIASES.

Definition legacy_feature_for_key (k : str) : option Feature :=
  alias ← List.find (fun alias => str_eqb (legacy_key alias) k) ALIASES; Some (alias_feature alias).

Definition feature_for_key (k : str) : option Feature :=
  match canonical_feature_for_key k with
  | Some f => Some f
  | None => legacy_feature_for_key k
  end.

Definition is_known_feature_key (k : str) : bool := is_set (feature_for_key k).

(** ** The set of features that is on *)

Record LegacyFeatureUsage := {
  usage_alias : str;
  usage_feature : Feature;
  summary : str;
  details : option str;
}.

#[export] Instance LegacyFeatureUsage_eq_dec : EqDecision LegacyFeatureUsage.
Proof. solve_decision. Defined.

#[export] Instance LegacyFeatureUsage_countable : Countable LegacyFeatureUsage.
Proof.
  refine (inj_countable'
    (fun u => (usage_alias u, usage_feature u, summary u, details u))
    (fun '(a, f, s, d) => {| usage_alias := a; usage_feature := f; summary := s; details := d |}) _).
  by intros [].
Defined.

Record Features := { on : gset Feature; legacy_usages : gset LegacyFeatureUsage }.

Definition with_defaults : Features :=
  {| on := list_to_set (map spec_id (List.filter spec_default_enabled FEATURES));
     legacy_usages := ∅ |}.

Definition enabled (self : Features) (f : Feature) : bool := bool_decide (f ∈ on self).

Definition apps_enabled_for_auth (self : Features) (has_chatgpt_auth : bool) : bool :=
  enabled self Apps && has_chatgpt_auth.

Definition use_legacy_landlock (self : Features) : bool := enabled self UseLegacyLandlock.

Definition enable (self : Features) (f : Feature) : Features :=
  {| on := {[f]} ∪ on self; legacy_usages := legacy_usages self |}.

Definition disable (self : Features) (f : Feature) : Features :=
  {| on := on self ∖ {[f]}; legacy_usages := legacy_usages self |}.

Definition set_enabled (self : Features) (f : Feature) (b : bool) : Features :=
  if b then enable self f else disable self f.

Definition web_search_details : str :=
  lit "Set `web_search` to `" ++ [34%N] ++ lit "live" ++ [34%N] ++ lit "`, `" ++ [34%N]
  ++ lit "cached" ++ [34%N] ++ lit "`, or `" ++ [34%N] ++ lit "disabled" ++ [34%N]
  ++ lit "` at the top level (or under a profile) in config.toml if you want to override it.".

Definition legacy_usage_notice (a : str) (f : Feature) : str * option str :=
  let canonical := key f in
  match f with
  | WebSearchRequest | WebSearchCached =>
      let label :=
        if str_eqb a (lit "web_search") then lit "[features].web_search"
        else if one_of [lit "features.web_search_request"; lit "web_search_request"] a
        then lit "[features].web_search_request"
        else if one_of [lit "features.web_search_cached"; lit "web_search_cached"] a
        then lit "[features].web_search_cached"
        else a in
      (lit "`" ++ label ++ lit "` is deprecated because web search is enabled by default.",
       Some web_search_details)
  | UseLegacyLandlock =>
      let label :=
        if one_of [lit "features.use_legacy_landlock"; lit "use_legacy_landlock"] a
        then lit "[features].use_legacy_landlock" else a in
      (lit "`" ++ label ++ lit "` is deprecated and will be removed soon.",
       Some (lit "Remove this setting to stop opting into the legacy Linux Landlock isolation path."))
  | _ =>
      let label :=
        if contains_char (ch ".") a || starts_with (lit "[") a then a
        else lit "[features]." ++ a in
      (lit "`" ++ label ++ lit "` is deprecated. Use `[features]." ++ canonical ++ lit "` instead.",
       if str_eqb a canonical then None
       else Some (lit "Enable it with `--enable " ++ canonical ++ lit "` or `[features]." ++ canonical
                  ++ lit "` in config.toml. See "
                  ++ lit "https://developers.openagere.com/agere/config-basic#feature-flags for details."))
  end.

Definition record_legacy_usage_force (self : Features) (a : str) (f : Feature) : Features :=
  let '(summary, details) := legacy_usage_notice a f in
  {| on := on self;
     legacy_usages := {[ {| usage_alias := a; usage_feature := f; summary := summary;
                            details := details |} ]} ∪ legacy_usages self |}.

Definition record_legacy_usage (self : Features) (a : str) (f : Feature) : Features :=
  if str_eqb a (key f) then self else record_legacy_usage_force self a f.

(** The counters that are sent. *)
Definition emit_metrics (self : Features) : list (str * bool) :=
  omap (fun spec =>
    if bool_decide (spec_stage spec = Removed) then None
    else if Bool.eqb (enabled self (spec_id spec)) (spec_default_enabled spec) then None
    else Some (spec_key spec, enabled self (spec_id spec))) FEATURES.

(** *** Settings *)

(** A [BTreeMap] in the order of its keys. *)
Definition in_key_order {A} (m : gmap str A) : list (str * A) :=
  omap (fun k => v ← m !! k; Some (k, v)) (merge_sort str_le (map fst (map_to_list m))).

(** Keys that are read and have no effect. *)
Definition REMOVED_KEYS : list str :=
  [lit "tui_app_server"; lit "undo"; lit "js_repl"; lit "js_repl_tools_only";
   lit "image_detail_original"].

Definition note_deprecated_key (self : Features) (k : str) : Features :=
  if str_eqb k (lit "web_search_request") then
    record_legacy_usage_force self (lit "features.web_search_request") WebSearchRequest
  else if str_eqb k (lit "web_search_cached") then
    record_legacy_usage_force self (lit "features.web_search_cached") WebSearchCached
  else if str_eqb k (lit "use_legacy_landlock") then
    record_legacy_usage_force self (lit "features.use_legacy_landlock") UseLegacyLandlock
  else self.

Definition apply_entry (self : Features) (entry : str * bool) : Features :=
  let '(k, v) := entry in
  if one_of REMOVED_KEYS k then self
  else
    let self := note_deprecated_key self k in
    match feature_for_key k with
    | Some feat =>
        if bool_decide (feat = TuiAppServer) then self
        else
          let self := if str_eqb k (key feat) then self else record_legacy_usage self k feat in
          if v then enable self feat else disable self feat
    | None => self
    end.

Definition apply_map (self : Features) (m : gmap str bool) : Features :=
  fold_left apply_entry (in_key_order m) self.

Record LegacyFeatureToggles := {
  include_apply_patch_tool : option bool;
  experimental_use_freeform_apply_patch : option bool;
  experimental_use_unified_exec_tool : option bool;
}.

Definition set_if_some (self : Features) (f : Feature) (maybe_value : option bool)
    (alias_key : str) : Features :=
  match maybe_value with
  | Some b => record_legacy_usage (if b then enable self f else disable self f) alias_key f
  | None => self
  end.

Definition apply_toggles (t : LegacyFeatureToggles) (self : Features) : Features :=
  let self := set_if_some self ApplyPatchFreeform (include_apply_patch_tool t)
                (lit "include_apply_patch_tool") in
  let self := set_if_some self ApplyPatchFreeform (experimental_use_freeform_apply_patch t)
                (lit "experimental_use_freeform_apply_patch") in
  set_if_some self UnifiedExec (experimental_use_unified_exec_tool t)
    (lit "experimental_use_unified_exec_tool").

Record MultiAgentV2ConfigToml := {
  multi_agent_enabled : option bool;
  max_concurrent_threads_per_session : option N;
  min_wait_timeout_ms : option Z;
  usage_hint_enabled : option bool;
  usage_hint_text : option str;
  root_agent_usage_hint_text : option str;
  subagent_usage_hint_text : option str;
  hide_spawn_agent_metadata : option bool;
}.

Inductive FeatureToml (T : Type) := EnabledToml (b : bool) | ConfigToml (config : T).
#[global] Arguments EnabledToml {T} _.
#[global] Arguments ConfigToml {T} _.

Definition feature_toml_enabled {T} (config_enabled : T -> option bool) (t : FeatureToml T)
    : option bool :=
  match t with EnabledToml b => Some b | ConfigToml config => config_enabled config end.

Record FeaturesToml := {
  multi_agent_v2 : option (FeatureToml MultiAgentV2ConfigToml);
  toml_entries : gmap str bool;
}.

Definition entries (t : FeaturesToml) : gmap str bool :=
  match multi_agent_v2 t ≫= feature_toml_enabled multi_agent_enabled with
  | Some b => <[key MultiAgentV2 := b]> (toml_entries t)
  | None => toml_entries t
  end.

Definition apply_toml (self : Features) (t : FeaturesToml) : Features := apply_map self (entries t).

Record FeatureConfigSource := {
  source_features : option FeaturesToml;
  source_toggles : LegacyFeatureToggles;
}.

Record FeatureOverrides := {
  override_include_apply_patch_tool : option bool;
  override_web_search_request : option bool;
}.

Definition no_overrides : FeatureOverrides :=
  {| override_include_apply_patch_tool := None; override_web_search_request := None |}.

Definition apply_overrides (o : FeatureOverrides) (self : Features) : Features :=
  let self :=
    apply_toggles {| include_apply_patch_tool := override_include_apply_patch_tool o;
                     experimental_use_freeform_apply_patch := None;
                     experimental_use_unified_exec_tool := None |} self in
  match override_web_search_request o with
  | Some b =>
      record_legacy_usage
        (if b then enable self WebSearchRequest else disable self WebSearchRequest)
        (lit "web_search_request") WebSearchRequest
  | None => self
  end.

Definition normalize_dependencies (self : Features) : Features :=
  let self :=
    if enabled self SpawnCsv && negb (enabled self Collab) then enable self Collab else self in
  if enabled self CodeModeOnly && negb (enabled self CodeMode) then enable self CodeMode else self.

Definition apply_source (self : Features) (source : FeatureConfigSource) : Features :=
  let self := apply_toggles (source_toggles source) self in
  match source_features source with
  | Some feature_entries => apply_toml self feature_entries
  | None => self
  end.

Definition from_sources (base profile : FeatureConfigSource) (overrides : FeatureOverrides)
    : Features :=
  let features := fold_left apply_source [base; profile] with_defaults in
  normalize_dependencies (apply_overrides overrides features).

Definition enabled_features (self : Features) : list Feature :=
  List.filter (enabled self) declared_features.

(** The message of the event, if there is one; of a value in the table only whether it is a
    bool, and which, counts. *)
Definition unstable_features_warning_event (effective_features : option (list (str * option bool)))
    (suppress_unstable_features_warning : bool) (features : Features) (config_path : str)
    : option str :=
  if suppress_unstable_features_warning then None
  else
    let under_development :=
      omap (fun '(k, v) =>
        match v with
        | Some true =>
            spec ← List.find (fun spec => str_eqb (spec_key spec) k) FEATURES;
            if negb (enabled features (spec_id spec)) then None
            else if bool_decide (spec_stage spec = UnderDevelopment) then Some (spec_key spec)
            else None
        | _ => None
        end) (default [] effective_features) in
    if bool_decide (under_development = []) then None
    else Some (lit "Under-development features enabled: " ++ join (lit ", ") under_development
               ++ lit ". Under-development features are incomplete and may behave unpredictably. "
               ++ lit "To suppress this warning, set `suppress_unstable_features_warning = true` in "
               ++ config_path ++ lit ".").

End Features.

Module ManagedFeatures.
Import Features.

Record ManagedFeatures := {
  managed_value : ConstrainedWithSource Features;
  pinned_features : gmap Feature bool;
}.

(** A [BTreeMap] of features in its order. *)
Definition pinned_entries (m : gmap Feature bool) : list (Feature * bool) :=
  omap (fun f => b ← m !! f; Some (f, b)) declared_features.

Definition normalize_candidate (candidate : Features) (pinned : gmap Feature bool) : Features :=
  normalize_dependencies
    (fold_left (fun candidate '(f, b) => set_enabled candidate f b) (pinned_entries pinned) candidate).

Definition feature_requirements_display (m : gmap Feature bool) : str :=
  lit "[" ++ join (lit ", ") (map (fun '(f, b) => key f ++ lit "=" ++ debug_bool b) (pinned_entries m))
  ++ lit "]".

Definition validate_pinned_features_constraint (normalized_features : Features)
    (pinned : gmap Feature bool) (source : option RequirementSource) : result ConstraintError unit :=
  match source with
  | None => Ok tt
  | Some source =>
      match List.find (fun '(f, b) => negb (Bool.eqb (enabled normalized_features f) b))
              (pinned_entries pinned) with
      | Some (f, _) =>
          Err (InvalidValue (lit "features")
                 (key f ++ lit "=" ++ debug_bool (enabled normalized_features f))
                 (feature_requirements_display pinned) source)
      | None => Ok tt
      end
  end.

(** *** The required features, by their keys *)

Definition legacy_requirement_warning (k : str) (f : Feature) (source : RequirementSource) : str :=
  lit "Using legacy `features` requirement `" ++ k ++ lit "` from " ++ source_text source
  ++ lit "; prefer canonical feature key `" ++ key f ++ lit "`".

Definition unknown_requirement_warning (k : str) (source : RequirementSource) : str :=
  lit "Ignoring unknown `features` requirement `" ++ k ++ lit "` from " ++ source_text source.

Definition parse_entry (source : RequirementSource) (parsed : gmap Feature bool * list str)
    (entry : str * bool) : gmap Feature bool * list str :=
  let '(pinned, warnings) := parsed in
  let '(k, b) := entry in
  if str_eqb k (lit "auto_review") then (<[GuardianApproval := b]> pinned, warnings)
  else
    match canonical_feature_for_key k with
    | Some f => (<[f := b]> pinned, warnings)
    | None =>
        match feature_for_key k with
        | Some f => (<[f := b]> pinned, warnings ++ [legacy_requirement_warning k f source])
        | None => (pinned, warnings ++ [unknown_requirement_warning k source])
        end
    end.

Definition parse_feature_requirements (requirements : gmap str bool) (source : RequirementSource)
    : gmap Feature bool * list str :=
  fold_left (parse_entry source) (in_key_order requirements) (∅, []).

(** ** The features of a configuration *)

Definition from_configured_with_optional_warnings (configured_features : Features)
    (feature_requirements : option (Sourced (gmap str bool))) (startup_warnings : option (list str))
    : result ConstraintError (ManagedFeatures * option (list str)) :=
  let '((pinned, warnings), source) :=
    match feature_requirements with
    | Some requirements =>
        (parse_feature_requirements (sourced_value requirements) (sourced_source requirements),
         Some (sourced_source requirements))
    | None => ((∅, []), None)
    end in
  let normalized_features := normalize_candidate configured_features pinned in
  _ ← validate_pinned_features_constraint normalized_features pinned source;
  Ok ({| managed_value := {| constrained := allow_any normalized_features;
                             constrained_source := source |};
         pinned_features := pinned |},
      (fun startup_warnings => startup_warnings ++ warnings) <$> startup_warnings).

Definition from_configured (configured_features : Features)
    (feature_requirements : option (Sourced (gmap str bool)))
    : result ConstraintError ManagedFeatures :=
  '(m, _) ← from_configured_with_optional_warnings configured_features feature_requirements None;
  Ok m.

Definition get (m : ManagedFeatures) : Features := value (constrained (managed_value m)).

Definition normalize_and_validate (m : ManagedFeatures) (candidate : Features)
    : result ConstraintError Features :=
  let normalized := normalize_candidate candidate (pinned_features m) in
  _ ← can_set (constrained (managed_value m)) normalized;
  _ ← validate_pinned_features_constraint normalized (pinned_features m)
        (constrained_source (managed_value m));
  Ok normalized.

Definition managed_can_set (m : ManagedFeatures) (candidate : Features)
    : result ConstraintError unit :=
  _ ← normalize_and_validate m candidate; Ok tt.

Definition managed_set (m : ManagedFeatures) (candidate : Features)
    : result ConstraintError ManagedFeatures :=
  normalized ← normalize_and_validate m candidate;
  c ← set (constrained (managed_value m)) normalized;
  Ok {| managed_value := {| constrained := c; constrained_source := constrained_source (managed_value m) |};
        pinned_features := pinned_features m |}.

Definition managed_set_enabled (m : ManagedFeatures) (f : Feature) (b : bool)
    : result ConstraintError ManagedFeatures := managed_set m (set_enabled (get m) f b).

(** ** Features in a file *)

Record ProfileFeatures := {
  profile_features : option FeaturesToml;
  profile_include_apply_patch_tool : option bool;
  profile_use_unified_exec_tool : option bool;
  profile_use_freeform_apply_patch : option bool;
}.

(** Of a configuration, what turns features on and off; the profiles in the order of the map. *)
Record ConfigFeatures := {
  cfg_features : option FeaturesToml;
  cfg_use_unified_exec_tool : option bool;
  cfg_use_freeform_apply_patch : option bool;
  profiles : list (str * ProfileFeatures);
}.

Definition no_profile : ProfileFeatures :=
  {| profile_features := None; profile_include_apply_patch_tool := None;
     profile_use_unified_exec_tool := None; profile_use_freeform_apply_patch := None |}.

Definition feature_settings (prefix : str) (features : option FeaturesToml)
    : list (str * Feature * bool) :=
  match features with
  | Some features =>
      omap (fun '(k, b) => f ← feature_for_key k; Some (prefix ++ lit "features." ++ k, f, b))
        (in_key_order (entries features))
  | None => []
  end.

Definition explicit_setting (path : str) (f : Feature) (b : option bool)
    : list (str * Feature * bool) :=
  match b with Some b => [(path, f, b)] | None => [] end.

Definition explicit_feature_settings_in_config (cfg : ConfigFeatures) : list (str * Feature * bool) :=
  feature_settings [] (cfg_features cfg)
  ++ explicit_setting (lit "experimental_use_unified_exec_tool") UnifiedExec
       (cfg_use_unified_exec_tool cfg)
  ++ explicit_setting (lit "experimental_use_freeform_apply_patch") ApplyPatchFreeform
       (cfg_use_freeform_apply_patch cfg)
  ++ (profiles cfg ≫= fun '(profile_name, profile) =>
        let prefix := lit "profiles." ++ profile_name ++ lit "." in
        feature_settings prefix (profile_features profile)
        ++ explicit_setting (prefix ++ lit "include_apply_patch_tool") ApplyPatchFreeform
             (profile_include_apply_patch_tool profile)
        ++ explicit_setting (prefix ++ lit "experimental_use_unified_exec_tool") UnifiedExec
             (profile_use_unified_exec_tool profile)
        ++ explicit_setting (prefix ++ lit "experimental_use_freeform_apply_patch") ApplyPatchFreeform
             (profile_use_freeform_apply_patch profile)).

Definition contradicts (pinned : gmap Feature bool) (setting : str * Feature * bool) : bool :=
  let '(_, f, b) := setting in
  match pinned !! f with Some required => negb (Bool.eqb required b) | None => false end.

Definition validate_explicit_feature_settings_in_config_toml (cfg : ConfigFeatures)
    (feature_requirements : option (Sourced (gmap str bool))) : result ConstraintError unit :=
  match feature_requirements with
  | None => Ok tt
  | Some requirements =>
      let pinned :=
        fst (parse_feature_requirements (sourced_value requirements) (sourced_source requirements)) in
      if bool_decide (pinned = ∅) then Ok tt
      else
        match List.find (contradicts pinned) (explicit_feature_settings_in_config cfg) with
        | Some (path, _, b) =>
            Err (InvalidValue (lit "features") (path ++ lit "=" ++ debug_bool b)
                   (feature_requirements_display pinned) (sourced_source requirements))
        | None => Ok tt
        end
  end.

(** The text of an error for a profile names the profile. *)
Definition validate_profile (cfg : ConfigFeatures)
    (feature_requirements : option (Sourced (gmap str bool))) (profile_name : option str)
    (profile : ProfileFeatures) : result (option str * ConstraintError) unit :=
  let configured_features :=
    from_sources
      {| source_features := cfg_features cfg;
         source_toggles :=
           {| include_apply_patch_tool := None;
              experimental_use_freeform_apply_patch := cfg_use_freeform_apply_patch cfg;
              experimental_use_unified_exec_tool := cfg_use_unified_exec_tool cfg |} |}
      {| source_features := profile_features profile;
         source_toggles :=
           {| include_apply_patch_tool := profile_include_apply_patch_tool profile;
              experimental_use_freeform_apply_patch := profile_use_freeform_apply_patch profile;
              experimental_use_unified_exec_tool := profile_use_unified_exec_tool profile |} |}
      no_overrides in
  _ ← map_err (fun err => (profile_name, err))
        (from_configured configured_features feature_requirements);
  Ok tt.

Fixpoint validate_profiles (cfg : ConfigFeatures)
    (feature_requirements : option (Sourced (gmap str bool)))
    (profiles : list (str * ProfileFeatures)) : result (option str * ConstraintError) unit :=
  match profiles with
  | [] => Ok tt
  | (profile_name, profile) :: profiles =>
      _ ← validate_profile cfg feature_requirements (Some profile_name) profile;
      validate_profiles cfg feature_requirements profiles
  end.

Definition validate_feature_requirements_in_config_toml (cfg : ConfigFeatures)
    (feature_requirements : option (Sourced (gmap str bool)))
    : result (option str * ConstraintError) unit :=
  _ ← validate_profile cfg feature_requirements None no_profile;
  validate_profiles cfg feature_requirements (profiles cfg).

End ManagedFeatures.
