(* ===== verification/FeaturesFacts.v ===== *)
(** * Facts about features

    Which features are on when several sources name them, and that the features that
    administrators pin stay as they are pinned. *)

From Stdlib Require Import Ascii String.
From stdpp Require Import finite.
From S2P Require Import Prelude RustStr Requirements Features.
Import Constraint Requirements Features ManagedFeatures.

Module FeaturesFacts.

(** ** Sets of features *)

Lemma all_declared (f : Feature) : f ∈ declared_features.
Proof. change declared_features with (enum Feature). apply elem_of_enum. Qed.

Lemma declared_once : NoDup declared_features.
Proof. change declared_features with (enum Feature). apply NoDup_enum. Qed.

(** Every feature has a key of its own. *)
Lemma canonical_key (f : Feature) : canonical_feature_for_key (key f) = Some f.
Proof. by destruct f; vm_compute. Qed.

Lemma enabled_defaults (f : Feature) : enabled with_defaults f = default_enabled f.
Proof.
  assert (forallb (fun f => Bool.eqb (enabled with_defaults f) (default_enabled f)) declared_features
          = true) as Hall by (by vm_compute).
  rewrite forallb_forall in Hall. apply eqb_prop, Hall, list_elem_of_In, all_declared.
Qed.

Lemma enabled_set (self : Features) (f g : Feature) (b : bool) :
  enabled (set_enabled self f b) g = if bool_decide (f = g) then b else enabled self g.
Proof.
  unfold set_enabled, enable, disable, enabled. destruct (decide (f = g)) as [->|E].
  - rewrite (bool_decide_true (g = g)) by done. destruct b; simpl; [apply bool_decide_true|apply bool_decide_false]; set_solver.
  - rewrite (bool_decide_false (f = g)) by done. destruct b; simpl; apply bool_decide_ext; set_solver.
Qed.

(** Settings one after the other: the last one for a feature decides. *)
Definition last_setting (f : Feature) (settings : list (Feature * bool)) : option bool :=
  last (omap (fun '(g, b) => if bool_decide (g = f) then Some b else None) settings).

Definition apply_settings (self : Features) (settings : list (Feature * bool)) : Features :=
  fold_left (fun self '(f, b) => set_enabled self f b) settings self.

Lemma last_setting_app (f : Feature) (l k : list (Feature * bool)) :
  last_setting f (l ++ k) = match last_setting f k with Some b => Some b | None => last_setting f l end.
Proof.
  unfold last_setting. rewrite omap_app. induction (omap _ k) as [|b r IH] using rev_ind;
    [by rewrite app_nil_r|]. by rewrite app_assoc, !last_snoc.
Qed.

Lemma enabled_settings (self : Features) (settings : list (Feature * bool)) (f : Feature) :
  enabled (apply_settings self settings) f = default (enabled self f) (last_setting f settings).
Proof.
  unfold apply_settings. induction settings as [|[g b] settings IH] using rev_ind; [done|].
  rewrite fold_left_app, last_setting_app. cbn [fold_left]. rewrite enabled_set. unfold last_setting at 1.
  simpl. case_bool_decide; [done|]. apply IH.
Qed.

(** A feature that needs another turns it on. *)
Definition needs (f g : Feature) : Prop :=
  f = SpawnCsv /\ g = Collab \/ f = CodeModeOnly /\ g = CodeMode.

Definition with_needed (state : Feature -> bool) (f : Feature) : bool :=
  state f || bool_decide (f = Collab) && state SpawnCsv || bool_decide (f = CodeMode) && state CodeModeOnly.

Lemma enabled_needed (self : Features) (a b f : Feature) :
  enabled (if enabled self a && negb (enabled self b) then enable self b else self) f
  = enabled self f || bool_decide (f = b) && enabled self a.
Proof.
  destruct (enabled self a) eqn:Ea, (enabled self b) eqn:Eb; simpl;
    rewrite ?andb_true_r, ?andb_false_r, ?orb_false_r; try done.
  - case_bool_decide; [subst; by rewrite Eb|by rewrite orb_false_r].
  - change (enable self b) with (set_enabled self b true). rewrite enabled_set.
    rewrite (bool_decide_ext (b = f) (f = b)) by done.
    case_bool_decide; by rewrite ?orb_true_r, ?orb_false_r.
Qed.

Lemma normalized_enabled (self : Features) (f : Feature) :
  enabled (normalize_dependencies self) f = with_needed (enabled self) f.
Proof.
  unfold normalize_dependencies, with_needed. rewrite !enabled_needed.
  rewrite (bool_decide_false (CodeModeOnly = Collab)), andb_false_l, orb_false_r by done. done.
Qed.

Lemma needed_closed (state : Feature -> bool) (f g : Feature) :
  needs f g -> with_needed state f = true -> with_needed state g = true.
Proof.
  unfold with_needed. intros [[-> ->]|[-> ->]]; simpl; intros Hs; rewrite ?orb_false_r in Hs;
    rewrite Hs; by rewrite ?orb_true_r.
Qed.

(** ** Several sources *)

(** The settings that a source makes, in order. *)
Definition toggle_settings (t : LegacyFeatureToggles) : list (Feature * bool) :=
  let one f (b : option bool) := match b with Some b => [(f, b)] | None => [] end in
  one ApplyPatchFreeform (include_apply_patch_tool t)
  ++ one ApplyPatchFreeform (experimental_use_freeform_apply_patch t)
  ++ one UnifiedExec (experimental_use_unified_exec_tool t).

(** Keys of features that were taken out: they are read and set nothing. *)
Definition taken_out (k : str) : Prop :=
  k ∈ [lit "undo"; lit "js_repl"; lit "js_repl_tools_only"; lit "image_detail_original";
       lit "tui_app_server"].

Lemma removed_taken_out (k : str) : one_of REMOVED_KEYS k = true <-> taken_out k.
Proof.
  unfold one_of, REMOVED_KEYS, taken_out. rewrite existsb_exists. split.
  - intros (x & Hx & ->%str_eqb_eq). apply list_elem_of_In in Hx. set_solver.
  - intros Hk. exists k. split; [|by apply str_eqb_refl]. apply list_elem_of_In. set_solver.
Qed.

Definition entry_setting (entry : str * bool) : option (Feature * bool) :=
  let '(k, b) := entry in
  if decide (taken_out k) then None
  else match feature_for_key k with Some f => Some (f, b) | None => None end.

Definition table_settings (t : FeaturesToml) : list (Feature * bool) :=
  omap entry_setting (in_key_order (entries t)).

Definition source_settings (source : FeatureConfigSource) : list (Feature * bool) :=
  toggle_settings (source_toggles source)
  ++ match source_features source with Some t => table_settings t | None => [] end.

Definition override_settings (o : FeatureOverrides) : list (Feature * bool) :=
  match override_include_apply_patch_tool o with Some b => [(ApplyPatchFreeform, b)] | None => [] end
  ++ match override_web_search_request o with Some b => [(WebSearchRequest, b)] | None => [] end.

Lemma on_record_force (self : Features) (a : str) (f : Feature) :
  on (record_legacy_usage_force self a f) = on self.
Proof. unfold record_legacy_usage_force. by destruct (legacy_usage_notice a f). Qed.

Lemma on_record (self : Features) (a : str) (f : Feature) : on (record_legacy_usage self a f) = on self.
Proof. unfold record_legacy_usage. case_match; [done|apply on_record_force]. Qed.

Lemma on_note (self : Features) (k : str) : on (note_deprecated_key self k) = on self.
Proof. unfold note_deprecated_key. repeat case_match; try done; apply on_record_force. Qed.

Lemma on_set_enabled (s t : Features) (f : Feature) (b : bool) :
  on s = on t -> on (set_enabled s f b) = on (set_enabled t f b).
Proof. unfold set_enabled. intros E. destruct b; simpl; by rewrite E. Qed.

Lemma on_settings (s t : Features) (l : list (Feature * bool)) :
  on s = on t -> on (apply_settings s l) = on (apply_settings t l).
Proof.
  revert s t. induction l as [|[f b] l IH]; intros s t E; [done|]. simpl. by apply IH, on_set_enabled.
Qed.

Lemma on_set_if_some (s t : Features) (f : Feature) (b : option bool) (a : str) :
  on s = on t ->
  on (set_if_some s f b a)
  = on (apply_settings t match b with Some b => [(f, b)] | None => [] end).
Proof. intros E. destruct b as [b|]; simpl; [|done]. rewrite on_record. by apply on_set_enabled. Qed.

Lemma settings_app (s : Features) (l k : list (Feature * bool)) :
  apply_settings s (l ++ k) = apply_settings (apply_settings s l) k.
Proof. apply fold_left_app. Qed.

Lemma on_toggles (s t : Features) (toggles : LegacyFeatureToggles) :
  on s = on t -> on (apply_toggles toggles s) = on (apply_settings t (toggle_settings toggles)).
Proof.
  intros E. unfold apply_toggles, toggle_settings. rewrite !settings_app. by repeat apply on_set_if_some.
Qed.

Lemma tui_app_server_key (k : str) :
  feature_for_key k = Some TuiAppServer -> one_of REMOVED_KEYS k = true.
Proof.
  assert (forall l, forallb (fun spec => negb (bool_decide (spec_id spec = TuiAppServer))
      || one_of REMOVED_KEYS (spec_key spec)) l = true -> forall spec, In spec l ->
      spec_id spec = TuiAppServer -> one_of REMOVED_KEYS (spec_key spec) = true) as Hall.
  { intros l Hl spec Hin Hid. rewrite forallb_forall in Hl. specialize (Hl _ Hin).
    by rewrite bool_decide_true in Hl. }
  unfold feature_for_key, canonical_feature_for_key, legacy_feature_for_key.
  destruct (List.find _ FEATURES) as [spec|] eqn:E; cbn [mbind option_bind].
  - apply find_some in E as [Hin Hk%str_eqb_eq]. intros [= Hid]. subst k.
    by apply (Hall FEATURES ltac:(by vm_compute)).
  - destruct (List.find _ ALIASES) as [alias|] eqn:E'; cbn [mbind option_bind]; [|done].
    apply find_some in E' as [Hin _]. intros [= Hid]. exfalso. simpl in Hin.
    repeat destruct Hin as [<-|Hin]; done.
Qed.

Lemma on_entry (s t : Features) (e : str * bool) :
  on s = on t ->
  on (apply_entry s e)
  = on (apply_settings t match entry_setting e with Some setting => [setting] | None => [] end).
Proof.
  intros E. destruct e as [k b]. unfold apply_entry, entry_setting. destruct (one_of REMOVED_KEYS k) eqn:Er.
  { rewrite decide_True by by apply removed_taken_out. exact E. }
  rewrite decide_False by (intros Ho%removed_taken_out; congruence).
  destruct (feature_for_key k) as [f|] eqn:Ef; [|by rewrite on_note].
  case_bool_decide as Et; [subst f; apply tui_app_server_key in Ef; congruence|].
  set (noted := if str_eqb k (key f) then _ else _).
  assert (on noted = on t) as Hn by (unfold noted; case_match; by rewrite ?on_record, on_note).
  change (on (set_enabled noted f b) = on (set_enabled t f b)). by apply on_set_enabled.
Qed.

Lemma on_table (s t : Features) (table : FeaturesToml) :
  on s = on t -> on (apply_toml s table) = on (apply_settings t (table_settings table)).
Proof.
  unfold apply_toml, apply_map, table_settings. generalize (in_key_order (entries table)) as l.
  intros l. revert s t. induction l as [|e l IH]; intros s t E; [done|].
  cbn [fold_left omap list_omap]. rewrite (IH _ _ (on_entry s t e E)).
  by destruct (entry_setting e) as [[f b]|].
Qed.

Lemma on_source (s t : Features) (source : FeatureConfigSource) :
  on s = on t -> on (apply_source s source) = on (apply_settings t (source_settings source)).
Proof.
  intros E. unfold apply_source, source_settings. rewrite settings_app.
  pose proof (on_toggles s t (source_toggles source) E) as Ht.
  destruct (source_features source) as [table|]; [by apply on_table|done].
Qed.

Lemma on_overrides (s t : Features) (o : FeatureOverrides) :
  on s = on t -> on (apply_overrides o s) = on (apply_settings t (override_settings o)).
Proof.
  intros E. unfold apply_overrides, override_settings. rewrite settings_app.
  pose proof (on_toggles s t {| include_apply_patch_tool := override_include_apply_patch_tool o;
    experimental_use_freeform_apply_patch := None; experimental_use_unified_exec_tool := None |} E) as Ht.
  unfold toggle_settings in Ht. simpl in Ht. rewrite app_nil_r in Ht.
  destruct (override_web_search_request o) as [b|]; [|done].
  rewrite on_record. by apply (on_set_enabled _ _ WebSearchRequest b) in Ht.
Qed.

Lemma enabled_on (s t : Features) (f : Feature) : on s = on t -> enabled s f = enabled t f.
Proof. unfold enabled. by intros ->. Qed.

(** C36: A feature is on as the last setting for it says, of those of the configuration, of the
    profile and of the command line, in that order and with the older settings of each
    before its table, and otherwise as it is by default; and it is on if one that needs it
    is. In a table the keys of no feature and the five of features that were taken out
    ([taken_out], [undo] and [js_repl] among them) are not settings: they change nothing. *)
Theorem last_setting_decides (base profile : FeatureConfigSource) (o : FeatureOverrides) (f : Feature) :
  let settings := source_settings base ++ source_settings profile ++ override_settings o in
  enabled (from_sources base profile o) f
  = with_needed (fun g => default (default_enabled g) (last_setting g settings)) f.
Proof.
  intros settings. unfold from_sources. rewrite normalized_enabled. cbn [fold_left].
  assert (forall g, enabled (apply_overrides o (apply_source (apply_source with_defaults base) profile)) g
    = default (default_enabled g) (last_setting g settings)) as E.
  { intros g. rewrite <-enabled_defaults, <-enabled_settings. apply enabled_on. unfold settings.
    rewrite !settings_app. by apply on_overrides, on_source, on_source. }
  unfold with_needed. by rewrite !E.
Qed.

(** ** Pinned features *)

(** The feature that a required key names. *)
Definition required_feature (k : str) : option Feature :=
  if str_eqb k (lit "auto_review") then Some GuardianApproval else feature_for_key k.

Definition required_setting (e : str * bool) : option (Feature * bool) :=
  f ← required_feature (fst e); Some (f, snd e).

Definition pin (requirements : option (Sourced (gmap str bool))) (f : Feature) : option bool :=
  match requirements with
  | Some requirements =>
      last_setting f (omap required_setting (in_key_order (sourced_value requirements)))
  | None => None
  end.

Lemma parse_entry_pins (source : RequirementSource) (pinned : gmap Feature bool)
    (warnings : list str) (e : str * bool) (f : Feature) :
  fst (parse_entry source (pinned, warnings) e) !! f
  = match required_setting e with
    | Some (g, b) => if bool_decide (g = f) then Some b else pinned !! f
    | None => pinned !! f
    end.
Proof.
  destruct e as [k b]. unfold parse_entry, required_setting, required_feature, feature_for_key.
  cbn [fst snd]. destruct (str_eqb k (lit "auto_review")); cbn [mbind option_bind fst].
  { case_bool_decide; [subst f; apply lookup_insert_eq|by apply lookup_insert_ne]. }
  destruct (canonical_feature_for_key k) as [g|]; cbn [mbind option_bind fst].
  { case_bool_decide; [subst f; apply lookup_insert_eq|by apply lookup_insert_ne]. }
  destruct (legacy_feature_for_key k) as [g|]; cbn [mbind option_bind fst]; [|done].
  case_bool_decide; [subst f; apply lookup_insert_eq|by apply lookup_insert_ne].
Qed.

Lemma parse_pins (requirements : gmap str bool) (source : RequirementSource) (f : Feature) :
  fst (parse_feature_requirements requirements source) !! f
  = pin (Some {| sourced_value := requirements; sourced_source := source |}) f.
Proof.
  unfold parse_feature_requirements, pin. simpl. generalize (in_key_order requirements) as l.
  intros l. induction l as [|e l IH] using rev_ind; [done|].
  rewrite fold_left_app, omap_app, last_setting_app. cbn [fold_left].
  destruct (fold_left (parse_entry source) l (∅, [])) as [pinned warnings]. rewrite parse_entry_pins.
  cbn [fst] in IH. rewrite IH. cbn [omap list_omap]. destruct (required_setting e) as [[g b]|]; [|done].
  unfold last_setting. simpl. by case_bool_decide.
Qed.

Lemma last_setting_cons (f g : Feature) (b : bool) (l : list (Feature * bool)) :
  last_setting f ((g, b) :: l)
  = match last_setting f l with
    | Some b => Some b
    | None => if bool_decide (g = f) then Some b else None
    end.
Proof.
  change ((g, b) :: l) with ([(g, b)] ++ l). rewrite last_setting_app.
  destruct (last_setting f l); [done|].
  unfold last_setting. simpl. by case_bool_decide.
Qed.

Lemma last_setting_pinned (m : gmap Feature bool) (f : Feature) : last_setting f (pinned_entries m) = m !! f.
Proof.
  unfold pinned_entries.
  enough (forall l, NoDup l -> last_setting f (omap (fun g => b ← m !! g; Some (g, b)) l)
                    = if bool_decide (f ∈ l) then m !! f else None) as ->.
  { by rewrite bool_decide_true by apply all_declared. } { apply declared_once. }
  intros l. induction 1 as [|g l Hg _ IH]; [done|].
  set (rest := omap _ l) in *. change (omap _ (g :: l)) with
    (match (b ← m !! g; Some (g, b)) with Some e => e :: rest | None => rest end).
  destruct (decide (f = g)) as [->|Hne].
  - rewrite (bool_decide_true (g ∈ g :: l)) by by left. rewrite bool_decide_false in IH by done.
    destruct (m !! g) as [b|]; [|done]. cbn. by rewrite last_setting_cons, IH, bool_decide_true.
  - rewrite (bool_decide_ext (f ∈ g :: l) (f ∈ l)) by (rewrite elem_of_cons; naive_solver).
    destruct (m !! g) as [b|]; [|done]. cbn. rewrite last_setting_cons, IH.
    rewrite (bool_decide_false (g = f)) by done. by repeat case_match.
Qed.

Lemma fold_settings (c : Features) (settings : list (Feature * bool)) :
  fold_left (fun candidate '(f, b) => set_enabled candidate f b) settings c = apply_settings c settings.
Proof. done. Qed.

Lemma normalized_candidate_enabled (c : Features) (pinned : gmap Feature bool) (f : Feature) :
  enabled (normalize_candidate c pinned) f
  = with_needed (fun g => default (enabled c g) (pinned !! g)) f.
Proof.
  unfold normalize_candidate. rewrite fold_settings, normalized_enabled.
  assert (forall g, enabled (apply_settings c (pinned_entries pinned)) g
                    = default (enabled c g) (pinned !! g)) as E
    by (intros g; by rewrite enabled_settings, last_setting_pinned).
  unfold with_needed. by rewrite !E.
Qed.

Lemma pinned_entries_elem (m : gmap Feature bool) (f : Feature) (b : bool) :
  (f, b) ∈ pinned_entries m <-> m !! f = Some b.
Proof.
  unfold pinned_entries. rewrite list_elem_of_omap. split.
  - intros (g & _ & (b' & Hb & [= -> ->])%bind_Some). done.
  - intros Hm. exists f. split; [apply all_declared|]. by rewrite Hm.
Qed.

Lemma validate_pinned_spec (c : Features) (pinned : gmap Feature bool)
    (source : RequirementSource) :
  match validate_pinned_features_constraint c pinned (Some source) with
  | Ok _ => forall f b, pinned !! f = Some b -> enabled c f = b
  | Err _ => exists f b, pinned !! f = Some b /\ enabled c f <> b
  | Crash _ => False
  end.
Proof.
  unfold validate_pinned_features_constraint. destruct (List.find _ _) as [[f b]|] eqn:E.
  - apply find_some in E as [Hin Hne]. exists f, b.
    rewrite <-list_elem_of_In, pinned_entries_elem in Hin. split; [done|].
    intros Heq. by rewrite Heq, eqb_reflx in Hne.
  - intros f b Hm%pinned_entries_elem%list_elem_of_In. pose proof (find_none _ _ E _ Hm) as Hb.
    simpl in Hb. by apply negb_false_iff, eqb_prop in Hb.
Qed.

Lemma with_needed_conflict (state : Feature -> bool) (f : Feature) :
  with_needed state f <> state f -> exists g, needs g f /\ state g = true.
Proof.
  unfold with_needed, needs. intros Hne. destruct (decide (f = Collab)) as [->|Hc].
  - exists SpawnCsv. split; [by left|]. simpl in Hne. destruct (state SpawnCsv); [done|].
    by rewrite !orb_false_r in Hne.
  - destruct (decide (f = CodeMode)) as [->|Hm].
    + exists CodeModeOnly. split; [by right|]. simpl in Hne. rewrite orb_false_r in Hne.
      destruct (state CodeModeOnly); [done|]. by rewrite orb_false_r in Hne.
    + rewrite !bool_decide_false in Hne by done. by rewrite !orb_false_r in Hne.
Qed.

(** The state that the pins leave, before what is needed is turned on. *)
Definition pinned_state (requirements : option (Sourced (gmap str bool))) (c : Features) (f : Feature)
    : bool := default (enabled c f) (pin requirements f).

Lemma state_conflict (requirements : option (Sourced (gmap str bool)))
    (c : Features) (f : Feature) (b : bool) :
  pin requirements f = Some b -> with_needed (pinned_state requirements c) f <> b ->
  exists g h, needs g h /\ pinned_state requirements c g = true /\ pin requirements h = Some false.
Proof.
  intros Hp Hne. assert (pinned_state requirements c f = b) as Hb by (unfold pinned_state; by rewrite Hp).
  destruct (with_needed_conflict (pinned_state requirements c) f) as (g & Hneeds & Hg); [congruence|].
  exists g, f. split_and!; [done..|]. rewrite Hp. f_equal.
  destruct b; [|done]. destruct Hne. unfold with_needed. by rewrite Hb.
Qed.

(** What [from_configured] and [set] have in common. *)
Lemma normalized_outcome (requirements : option (Sourced (gmap str bool)))
    (pinned : gmap Feature bool)
    (source : option RequirementSource) (c : Features) :
  (forall f, pinned !! f = pin requirements f) ->
  source = sourced_source <$> requirements ->
  (forall f, enabled (normalize_candidate c pinned) f = with_needed (pinned_state requirements c) f) /\
  match validate_pinned_features_constraint (normalize_candidate c pinned) pinned source with
  | Ok _ => forall f b, pin requirements f = Some b -> enabled (normalize_candidate c pinned) f = b
  | Err _ => exists f g, needs f g /\ pinned_state requirements c f = true
                         /\ pin requirements g = Some false
  | Crash _ => False
  end.
Proof.
  intros Hpin ->.
  assert (forall f, enabled (normalize_candidate c pinned) f = with_needed (pinned_state requirements c) f)
    as Hen.
  { intros f. rewrite normalized_candidate_enabled. unfold with_needed, pinned_state. by rewrite !Hpin. }
  split; [done|]. destruct requirements as [[required source]|]; cbn [fmap option_fmap option_map].
  - pose proof (validate_pinned_spec (normalize_candidate c pinned) pinned source) as Hv. cbn [sourced_source].
    destruct (validate_pinned_features_constraint _ _ _) as [| |]; [|destruct Hv as (f & b & Hf & Hne)|done].
    + intros f b Hf. apply Hv. by rewrite Hpin.
    + rewrite Hpin in Hf. rewrite Hen in Hne. by eapply state_conflict.
  - done.
Qed.

(** The features of a configuration under requirements, and what they are set to later; a
    setting that is refused changes nothing. *)
Inductive managed_reachable (m : ManagedFeatures) : ManagedFeatures -> Prop :=
| managed_start : managed_reachable m m
| managed_step n candidate :
    managed_reachable m n ->
    managed_reachable m (match managed_set n candidate with Ok n' => n' | _ => n end).

(** What holds of them. *)
Record Managed (requirements : option (Sourced (gmap str bool))) (m : ManagedFeatures) : Prop := {
  managed_pins f : pinned_features m !! f = pin requirements f;
  managed_source : constrained_source (managed_value m) = sourced_source <$> requirements;
  managed_free c : validator (constrained (managed_value m)) c = Ok tt;
  managed_plain : normalizer (constrained (managed_value m)) = None;
  managed_held f b : pin requirements f = Some b -> enabled (get m) f = b;
  managed_closed f g : needs f g -> enabled (get m) f = true -> enabled (get m) g = true;
}.

Lemma from_configured_outcome (requirements : option (Sourced (gmap str bool)))
    (configured : Features) :
  match from_configured configured requirements with
  | Ok m => Managed requirements m
            /\ forall f, enabled (get m) f = with_needed (pinned_state requirements configured) f
  | Err _ => exists f g, needs f g /\ pinned_state requirements configured f = true
                         /\ pin requirements g = Some false
  | Crash _ => False
  end.
Proof.
  unfold from_configured, from_configured_with_optional_warnings.
  set (parsed := match requirements with Some _ => _ | None => _ end).
  assert ((forall f, fst (fst parsed) !! f = pin requirements f)
          /\ snd parsed = sourced_source <$> requirements) as [Hpin Hsource].
  { unfold parsed. destruct requirements as [[required source]|]; [|done].
    split; [|done]. intros f. cbn [fst snd sourced_value sourced_source]. by rewrite parse_pins. }
  destruct parsed as [[pinned warnings] source]. cbn [fst snd] in Hpin, Hsource.
  destruct (normalized_outcome requirements pinned source configured Hpin Hsource) as [Hen Hv].
  destruct (validate_pinned_features_constraint _ _ _) as [| |]; cbn [mbind result_bind]; [|done..].
  split; [|done]. split; [done..| |].
  - done.
  - intros f g Hneeds. unfold get. cbn [managed_value constrained value allow_any].
    rewrite !Hen. by apply needed_closed.
Qed.

Lemma managed_set_keeps (requirements : option (Sourced (gmap str bool)))
    (m m' : ManagedFeatures) (candidate : Features) :
  Managed requirements m -> managed_set m candidate = Ok m' -> Managed requirements m'.
Proof.
  intros [Hpin Hsource Hfree Hplain _ _]. unfold managed_set, normalize_and_validate, can_set, set.
  destruct (normalized_outcome requirements (pinned_features m) _ candidate Hpin Hsource) as [Hen Hv].
  generalize dependent (normalize_candidate candidate (pinned_features m)). intros normalized Hen Hv.
  rewrite Hfree, Hplain. cbn [mbind result_bind].
  destruct (validate_pinned_features_constraint _ _ _) as [| |]; cbn [mbind result_bind]; [|done..].
  rewrite Hfree. cbn [mbind result_bind]. intros [= <-]. split; try done.
  intros f g Hneeds. unfold get. cbn [managed_value constrained value].
  rewrite !Hen. by apply needed_closed.
Qed.

(** The features of a configuration are refused exactly where one that is on, as it is
    configured or pinned, needs one that is pinned off; else the pinned ones are as they are
    pinned, the others as they are configured, and on if one that needs them is. *)
Theorem pins_outcome (requirements : option (Sourced (gmap str bool)))
    (configured : Features) :
  match from_configured configured requirements with
  | Ok m => forall f, enabled (get m) f = with_needed (pinned_state requirements configured) f
                      /\ forall b, pin requirements f = Some b -> enabled (get m) f = b
  | Err _ => exists f g, needs f g /\ pinned_state requirements configured f = true
                         /\ pin requirements g = Some false
  | Crash _ => False
  end.
Proof.
  pose proof (from_configured_outcome requirements configured) as Hout.
  destruct (from_configured configured requirements) as [m| |]; [|done..].
  destruct Hout as [[_ _ _ _ Hheld _] Hen]. intros f. split; [done|]. apply Hheld.
Qed.

(** C35: However the features are set after they were accepted, those that administrators pin are
    as they pin them, and none is on without one that it needs. *)
Theorem pinned_features_hold (requirements : option (Sourced (gmap str bool)))
    (configured : Features) (m n : ManagedFeatures) :
  from_configured configured requirements = Ok m -> managed_reachable m n ->
  (forall f b, pin requirements f = Some b -> enabled (get n) f = b)
  /\ forall f g, needs f g -> enabled (get n) f = true -> enabled (get n) g = true.
Proof.
  intros Hm Hn. assert (Managed requirements n) as [? ? ? ? Hheld Hclosed]; [|done].
  induction Hn as [|n candidate Hn IH].
  - pose proof (from_configured_outcome requirements configured) as Hout. rewrite Hm in Hout. apply Hout.
  - destruct (managed_set n candidate) as [n'| |] eqn:E; [|done..]. by eapply managed_set_keeps.
Qed.

End FeaturesFacts.

(** * The theorems at work *)

Module FeaturesExamples.
Import FeaturesFacts.

(** Several agents are off, by an older key; reviews are on. *)
Definition pins : option (Sourced (gmap str bool)) :=
  Some {| sourced_value := {[ lit "collab" := false; lit "auto_review" := true ]};
          sourced_source := CloudRequirements |}.

Definition asks (features : list (Feature * bool)) : Features :=
  apply_settings with_defaults features.

Definition managed (features : list (Feature * bool)) : ManagedFeatures :=
  match from_configured (asks features) pins with
  | Ok m => m
  | _ => {| managed_value := {| constrained := allow_any with_defaults; constrained_source := None |};
            pinned_features := ∅ |}
  end.

(** A feature that needs several agents is refused; without it the pin wins. *)
Example pins_at_work :
  is_ok (from_configured (asks [(SpawnCsv, true)]) pins) = false
  /\ enabled (get (managed [(Collab, true); (GuardianApproval, false)])) Collab = false
  /\ enabled (get (managed [(Collab, true); (GuardianApproval, false)])) GuardianApproval = true.
Proof. by vm_compute. Qed.

(** Turning searches on the web on from the command line is meant to be noted as an older
    setting, but its name is the key, so that it is not. *)
Lemma override_not_noted (self : Features) (b : bool) :
  legacy_usages (apply_overrides {| override_include_apply_patch_tool := None;
                                    override_web_search_request := Some b |} self)
  = legacy_usages self.
Proof.
  unfold apply_overrides, record_legacy_usage. cbn [override_web_search_request].
  assert (str_eqb (lit "web_search_request") (key WebSearchRequest) = true) as -> by (by vm_compute).
  by destruct b.
Qed.

Lemma pinned_features_hold_witness :
  let m := managed [(Collab, true)] in
  let n := match managed_set m (asks [(Collab, true); (CodeModeOnly, true)]) with Ok n => n | _ => m end in
  enabled (get n) Collab = false /\ enabled (get n) CodeMode = true
  /\ (forall f b, pin pins f = Some b -> enabled (get n) f = b)
  /\ forall f g, needs f g -> enabled (get n) f = true -> enabled (get n) g = true.
Proof.
  split; [by vm_compute|]. split; [by vm_compute|].
  apply (pinned_features_hold pins (asks [(Collab, true)]) (managed [(Collab, true)])).
  - unfold managed. apply ok_value. by vm_compute.
  - apply managed_step, managed_start.
Defined.

End FeaturesExamples.
